(* ===== verification/_CoqProject ===== *)
-Q . S2P
Prelude.v
CircuitBreaker.v
Chain.v
RateLimiter.v
Retry.v
Str.v
Unicode.v
Order.v
Cron.v
Json.v
StepContext.v
Condition.v
Dialect.v
Filter.v
Specification.v
QueryParser.v
StepInvoker.v
Closure.v
Kahn.v
SagaOrder.v
Validator.v
Saga.v
Tcc.v
Workflow.v
Executions.v
DeadLetters.v
Signals.v
Composition.v
Cache.v
EventStore.v
Repository.v
Outbox.v
Validators.v
RuleEngine.v
RuleActions.v
Plugins.v
PluginManager.v
Session.v
SessionLayer.v
SessionLimit.v
Transactional.v
Globs.v
Access.v
Acl.v
Migrations.v
Profiles.v
ConfigSources.v
Placeholders.v
Binder.v
Registry.v
Paging.v
CustomQuery.v
AnyType.v
Lifecycle.v
Aop.v
Cqrs.v
ContainerConditions.v
Suggestions.v
Container.v
ContainerScan.v
Kernel.v
Eda.v
Listener.v
Externalize.v
Scheduling.v
