(* ===== verification/Prelude.v ===== *)
(** * The Firefly Framework for Rust: a verification development

    The framework is a workspace of crates under [src/crates/]. Most of them
    are adapters around external services, HTTP or code generation; this
    development models the ones whose value is their own logic: the kernel, the
    dependency container, the application's lifecycle and configuration,
    resilience, scheduling, queries, paging, orchestration, event sourcing,
    messaging, caching, validation, rules, plugins, sessions, transactions, access
    control, migrations, advice and the bus of commands and queries. Every definition is a
    translation of the Rust function its name points to; the theorems are about
    those definitions.

    ** How the program's parts interact, and where they are modelled

    [crates/kernel] - [Kernel.v]: the error every crate raises, its wire form as
    problem details, the domain building blocks, clocks and ambient ids.

    [crates/resilience] protects an operation with decorators. A caller builds
    a [Chain] of them; each one decides whether, when and how often the wrapped
    operation runs.
    - [CircuitBreaker.v] - [circuit_breaker.rs] and the error type of
      [error.rs]. State: [BreakerInner], the value under the mutex. Operations:
      [new], [allow] (with its [promote] from open to half-open), [record]
      (with [push_outcome], [tripped]), [before_call], [on_success],
      [on_failure], [execute]. A critical section is one transition; an
      execution of many tasks is a sequence of [event]s, so the theorems hold
      for every interleaving. The panic on a missing opening instant is [None].
    - [Chain.v] - [chain.rs], [fallback.rs], [timeout.rs]: decorators as
      functions from operations to operations over a world.
    - [RateLimiter.v] - [rate_limiter.rs] (module [TokenBucket], in binary64
      as the code has it) and [bulkhead.rs] (a step relation of callers
      competing for permits).
    - [Retry.v] - [retry.rs]: the waits in binary64 and the attempt loop.
    - [Registry.v] - [registry.rs]: instances of all of these, built by name from
      flat configuration, and [error.rs]'s texts.

    [crates/scheduling]
    - [Cron.v] - [cron.rs]: the parser and printer of five-field expressions
      and the searches for the next and the previous fire time. Calendar and
      time zones are the class [Chrono]; a zone of constant offset is an
      instance with its civil calendar.
    - [Scheduling.v] - [scheduler.rs], [lock.rs], [executor.rs]: the loops of the
      tasks as a machine of the steps between awaits, with triggers, locks,
      panics and the stop signal.

    [crates/data] builds one query tree and lowers it to several backends.
    - [Str.v] (Rust's [str] operations the crate uses), [Unicode.v] (classes for
      the tables of characters, with the ASCII ones as instances), [Order.v] (comparison of
      strings and numbers, stable sorting), [Json.v] (what the crate uses of
      [serde_json], as a class with a concrete instance).
    - [Dialect.v] - [dialect.rs]: the trait [SqlDialect] as a record of
      operations, its promises as the class [DialectLaws], its three
      implementations as instances.
    - [Filter.v] - [filter.rs]: predicates, filters, SQL and MongoDB lowering,
      the regular expression of a [LIKE] pattern.
    - [Specification.v] - [specification.rs]: the tree, its combinators, the SQL
      and MongoDB lowering, the in-memory evaluation.
    - [QueryParser.v] - [query_parser.rs]: derived queries, from a method name
      such as [find_by_age_gte_order_by_name_desc] to a specification, and
      their in-memory execution.
    - [Paging.v] - [page.rs], [pageable.rs], [repository.rs], [soft_delete.rs],
      [auditing.rs], [routing.rs]: pages over a filter of [Filter.v], the
      in-process repository, and the flags of the read/write routing.
    - [CustomQuery.v] - [custom_query.rs]: the binding of named parameters over
      the dialects of [Dialect.v], the rewriting of entity queries, and the
      substitution in pipelines.

    [crates/orchestration]
    - [StepInvoker.v] - [step_invoker.rs] and the retry policy of [model.rs]:
      one step under its retry policy. Timer, sleep and clock are the class
      [Runtime].
    - [SagaOrder.v] - the data types, the builder and [Saga::execution_order]
      of [saga.rs].
    - [Saga.v] - [run_inner] and the compensation policies of [saga.rs];
      [join_all] is the class [JoinAll]: any interleaving of the tasks given.
    - [Tcc.v] - [tcc.rs]: the Try-Confirm-Cancel engine.
    - [StepContext.v] - [step_context.rs]; [Condition.v] - [condition.rs]: the
      lexer, parser and evaluator of workflow conditions over its facts.
    - [Validator.v] - [validator.rs]: the start-up check of dependency graphs.
    - [Workflow.v] - [workflow.rs]: the waves of a DAG of nodes. The future of a
      node is a step relation; the tasks of a wave and the spawned ones
      interleave under the class [Scheduler], of which taking turns in order is
      an instance.
    - [Executions.v] - the states of executions, their store with its claims,
      recovery, and the snapshots of suspended runs ([persistence.rs],
      [recovery.rs], [model.rs]); [DeadLetters.v] - [dlq.rs]; [Signals.v] -
      [signal.rs]: waiters and buffered payloads under concurrent calls;
      [Composition.v] - [saga_composition.rs]: sagas in layers, over the engine
      of [Saga.v].
    - [Closure.v] and [Kahn.v] hold the two graph algorithms several components
      write: the walk that collects what is reachable, and Kahn's algorithm with
      its loop invariant.

    [crates/cache]
    - [Cache.v] - [adapter.rs], [memory.rs], [noop.rs], [fallback.rs],
      [typed.rs], [manager.rs]: the port as a record of operations, the
      in-process adapter with expiry, bound and statistics (module [Memory]),
      the fallback pair, the typed view. A call is the transitions it takes the
      lock for.

    [crates/eventsourcing]
    - [EventStore.v] - the aggregate root, the in-process store with upcasters,
      cursors and snapshots, the projection runner.
    - [Repository.v] - loading by snapshot and replay, saving with optimistic
      concurrency, over the ports of [EventStore.v].
    - [Outbox.v] - the records and the relay as a step relation.

    [crates/validators] - [Validators.v]. [crates/rule-engine] - [RuleEngine.v]
    (language, evaluator, linter) and [RuleActions.v] (handlers, registry,
    repository, service).

    [crates/eda]
    - [Eda.v] - [event.rs], [inmemory.rs] and what they use: the in-process broker
      with its consumer groups; handlers are part of the world, so they may
      publish, subscribe and close. [Listener.v] - [listener.rs], [dlq.rs]:
      listeners that retry, and the store of what failed. [Externalize.v] - the
      listener of [registry.rs] that forwards an event to a broker after the
      commit, between [Eda.v] and [Transactional.v].

    [crates/plugins]
    - [Plugins.v] - the start order; [PluginManager.v] - the registry with its
      all-or-nothing sweep, the manager and the extension points.

    [crates/session]
    - [Session.v] - the session and the store port with its promise
      ([KeepsSessions]), kept by the in-process store and by the bridge to the
      caches of [Cache.v]; [SessionLayer.v] - the middleware, proved against
      that promise; [SessionLimit.v] - the limit on concurrent sessions.

    [crates/transactional] - [Transactional.v]: [with_tx] over the database
    port, the orchestrator of [manager.rs], the events of [events.rs].

    [crates/security]
    - [Access.v] - the principal, the guards, the role hierarchy (a walk of
      [Closure.v]) and the URL rules, over the patterns of [Globs.v]; [Acl.v] - access-control lists with
      inheritance, and the evaluator.

    [crates/migrations] - [Migrations.v]: the names and sources, the run over a
    database port whose promise (class [Transactional]: what happens between
    begin and commit happens as a whole) an in-process store keeps.

    [crates/config] reads sources into flat entries, resolves the references
    between them and binds the result to a typed value.
    - [Profiles.v] - [profile.rs]; [ConfigSources.v] - [source.rs], [yaml.rs],
      [mask.rs], [introspect.rs], [error.rs]; [Placeholders.v] -
      [placeholder.rs]; [Binder.v] - [binder.rs] and [reload.rs]: the fields of
      a type are a tree of shapes, integers are bound at their width.

    [crates/container] keeps the beans of an application.
    - [AnyType.v] - [dyn Any]: values of a type told at run time, which the bus of
      [Cqrs.v] uses as well.
    - [Container.v] - [lib.rs], [scope.rs], [registration.rs], [error.rs]:
      registrations shared between the registries by type and by name,
      resolution under every scope, with the stack of beans under construction.
      A factory is a program that resolves other beans and acts on a world.
    - [ContainerConditions.v] - [condition.rs] and [value.rs]: the conditions of
      beans and the container's own evaluator of profile expressions, beside the
      one of [Profiles.v]. [Suggestions.v] - names close to one that is missing.
    - [ContainerScan.v] - asynchronous beans, [scan.rs], introspection, teardown;
      what a derive of [crates/macros] registers and submits is [Registrar].

    [crates/lifecycle] - [Lifecycle.v]: one run of an application as a step
    relation of its runners, its servers, the signals and the drain.
    [crates/aop] - [Aop.v]: pointcuts as regular expressions over names, and the
    chain of advice. [crates/cqrs] - [Cqrs.v]: the bus, its middleware and the
    query cache over the cache adapter of [Cache.v].

    This file holds what all of them share: [Result], time, binary64,
    machine-width arithmetic, tactics and the hint database.

    ** What the theorems show

    - Breaker: it refines an abstract counter machine; every reachable state is
      well formed; the half-open budget is never exceeded; it recovers through
      successful probes; failure-rate mode judges exactly the last
      [window_size] outcomes; and a probe that never reports back blocks it.
    - Chain, limiter, bulkhead, retry: the nesting order; each admitted call is
      recorded once; the concurrency cap under any schedule; the retry contract
      and its overflow behaviour. The token bucket has no exact bound: in
      binary64 it can admit one call early (an example shows it).
    - Registry: the instances built are those the configuration describes, each
      property read under any of its spellings.
    - Cron: what a field denotes; parsing is idempotent through the printer;
      [next] is the earliest and [prev] the latest fire time, [next_n] skips
      none. Scheduling: while locks outlive the runs they guard, no two runs of a
      task under a lock overlap.
    - Queries: the combinators' meaning; the SQL and MongoDB lowerings select
      what the in-memory evaluation selects; placeholders and arguments stay in
      step in every dialect; no value reaches the SQL text; [LIKE] matching;
      the round trip of method names; binding, filtering and sorting; following
      the pages meets every entity once; named parameters bind in order.
    - Orchestration: the attempt loop; Kahn's order is topological and its
      failures are real; a saga or TCC run is described step by step, with its
      hooks, its final world and its error; the rollback's order, extent and
      result under each policy, whatever the interleaving of a batch. A
      workflow run always ends, in one of the ways its theorem lists, and no
      node starts before its dependencies or twice; a condition's text
      evaluates to its meaning; validation accepts exactly the graphs that can
      be ordered. Recovery settles each stale execution once, and two passes
      never claim the same one within the threshold; a suspended context
      resumes as it was; signals refine mailboxes; a composition runs its
      layers in order and undoes what it recorded in reverse.
    - Caching: the in-process adapter refines a least-recently-used map with
      deadlines, its invariant holds in every reachable state, and the fallback
      pair acts as one map while its primary answers.
    - Event sourcing: the store refines a log of commits; whatever concurrent
      clients do, each aggregate they load is its history; a projection applies
      each event once; the relay publishes each record until it succeeds.
    - Messaging: a publication reaches the matching subscribers outside the groups
      and then one member of each group, up to the first that fails; groups take
      turns; an event whose listener keeps failing is stored with its attempts and
      published on the dead-letter topic; an event bound to a transaction leaves the process
      exactly when the outermost transaction commits.
    - Kernel: whatever a problem document says, its text has no character a page
      or a script would take for its own, and its strings read back.
    - Validators and rules: an IBAN is accepted exactly when it is one; rules
      fire in priority order; a rule set without findings fails only where the
      linter does not look, and the theorem says where.
    - Plugins: a running plugin's dependencies run, across every operation; a
      sweep that fails stops what it started.
    - Sessions: what the handler made of a session is what the store holds
      afterwards; the cookie of a response resumes it; no cookie that was not
      signed does; logins evict the oldest and stay within the limit.
    - Transactions: a body commits as a whole or not at all, and the outcome is
      that of its begin, commit or rollback; bound events follow the outcome of
      the outermost transaction, a failed commit included.
    - Access: the first matching rule decides, by the closure of the role
      hierarchy; an access-control list grants exactly on the first entry that
      concerns the request, along a bounded chain of parents.
    - Migrations: a run leaves the database as if the pending migrations in
      front of where it stopped had each run once, in order, with their history,
      and outside a transaction.
    - Container: resolving ends, with the stack as it was; a singleton is the same
      [Arc] whatever happens to other beans; the registries agree in every state an
      application can reach; a scan adds conditional beans only where nothing else
      fills the gap; the two evaluators of profile expressions agree on lower-case
      names.
    - Configuration: the YAML scanner reads printed documents back; the last
      source that sets a key wins; references mean what the precedence says, to
      the depth bound; nested values bind back from their entries; a reload
      that fails changes nothing; profile expressions follow their grammar.
    - Lifecycle: from every state a run can be driven to its end, and the drain
      takes at most its bound. Advice: a pointcut matches segment by segment,
      and exactly the matching advice runs, in its order. The bus: a message
      reaches its handler only past validation and authorization; when queries
      of one key have one answer, the cache cannot be told from its absence.

    ** Bounds and fuel

    Loops whose measure is not structural carry fuel, chosen from the code or
    proved sufficient where the theorem needs it: the step loop of a cron field
    gets the width of the field's range and its printer the number of values;
    the cron searches walk [MAX_SEARCH_MINUTES] minutes as the code does;
    [wait] of the limiter is stated pass by pass; the layers of
    [execution_order] get one more than the number of steps, each layer placing at least one; the batches of
    [compensate_grouped] get the number of steps, each batch taking at least
    one; the waves of a workflow get the number of nodes, and a run that is out
    of fuel would be [None], which the theorem excludes; the condition parser
    gets one more than the number of tokens, proved enough; the word-splitting of the method parser
    gets the length of the text; the nesting of constructions in the container
    gets one more than the number of registrations, and its parser of profiles one
    more than the number of tokens, both proved enough. The replay of projections gets the number of events still ahead, the eviction
    loop of the cache its number of entries, the comparison of JSON values their
    size, a walk over a graph the number of its edges and starting points, the
    sweeps that collect dependents the number of plugins, the layers of a
    composition one more than its entries, the scanners of texts their length,
    the parser of profile expressions one more than its tokens; each is proved
    enough where a theorem needs the result. References are followed as deep as
    [MAX_DEPTH], as in the code; the nesting of pipeline documents is an argument.
    [usize] counts of values held in memory are [nat]; [usize] and [u64] that
    come from the user are [Z] with the wrap-around or saturation of the code
    written out; [f64] is [SpecFloat]'s binary64.

    ** What is not modelled

    Tokio's scheduler, timers and clocks (parameters with the promises the code
    relies on), [chrono] beyond the class [Chrono], [serde_json]'s parser, Debug
    and Display output that no behaviour depends on, the step context shared by
    saga steps (it is part of the world the bodies act on), hook durations and
    correlation ids; factories that register or reset beans, and a container
    used from several threads at once; of [crates/macros], all but what a derive
    registers. The crates left out are adapters around databases,
    brokers and HTTP ([crates/web] with its middleware, the identity providers,
    the transports of [crates/eda]), code generation, and helpers without state. *)
From Stdlib Require Import ZArith NArith List Lia Floats.SpecFloat.
From stdpp Require Import base decidable list.

#[global] Set Default Goal Selector "!".
#[global] Open Scope Z_scope.

(** * Rust's [Result] *)

Inductive Result (T E : Type) : Type :=
| Ok (v : T)
| Err (e : E).
Arguments Ok {T E} v.
Arguments Err {T E} e.

#[export] Instance Result_eq_dec T E `{EqDecision T} `{EqDecision E} :
  EqDecision (Result T E).
Proof. solve_decision. Defined.

Definition result_bind {T U E} (r : Result T E) (k : T -> Result U E) : Result U E :=
  match r with
  | Ok v => k v
  | Err e => Err e
  end.

Definition is_ok {T E} (r : Result T E) : bool :=
  match r with Ok _ => true | Err _ => false end.

Definition is_err {T E} (r : Result T E) : bool := negb (is_ok r).

Definition map_err {T E F} (f : E -> F) (r : Result T E) : Result T F :=
  match r with Ok v => Ok v | Err e => Err (f e) end.

Definition ok_or {T E} (o : option T) (e : E) : Result T E :=
  match o with Some v => Ok v | None => Err e end.

Declare Scope rust_scope.
Delimit Scope rust_scope with rust.
Notation "x <-? c ; k" := (result_bind c (fun x => k))
  (at level 100, c at next level, right associativity) : rust_scope.
#[global] Open Scope rust_scope.

Lemma result_bind_ok {T U E} (r : Result T E) (k : T -> Result U E) u :
  result_bind r k = Ok u -> exists v, r = Ok v /\ k v = Ok u.
Proof. destruct r; simpl; [eauto | discriminate]. Qed.

Lemma result_bind_err {T U E} (r : Result T E) (k : T -> Result U E) e :
  result_bind r k = Err e -> r = Err e \/ exists v, r = Ok v /\ k v = Err e.
Proof. destruct r; simpl; [right; eauto | intros [= ->]; auto]. Qed.

(** * Calls that act on a world

    A call threads the world through and may panic ([None]). *)
Section Effects.
Context {W : Type}.

Definition M (A : Type) : Type := W -> option (A * W).
Definition ret {A} (a : A) : M A := fun w => Some (a, w).
Definition bind {A B} (c : M A) (k : A -> M B) : M B :=
  fun w => match c w with Some (a, w') => k a w' | None => None end.
(** [c?] in the middle of a body. *)
Definition try_ {A B E} (c : M (Result A E)) (k : A -> M (Result B E)) : M (Result B E) :=
  bind c (fun r => match r with Ok a => k a | Err e => ret (Err e) end).
End Effects.
Arguments M : clear implicits.

Notation "'let!' x ':=' c 'in' k" := (bind c (fun x => k))
  (at level 10, x name, c at level 100, k at level 200) : rust_scope.
Notation "'let?' x ':=' c 'in' k" := (try_ c (fun x => k))
  (at level 10, x name, c at level 100, k at level 200) : rust_scope.

(** A call that acts on one half of the world. *)
Definition on_fst {W1 W2 A} (c : M W1 A) : M (W1 * W2) A :=
  fun '(w1, w2) => match c w1 with Some (a, w1') => Some (a, (w1', w2)) | None => None end.
Definition on_snd {W1 W2 A} (c : M W2 A) : M (W1 * W2) A :=
  fun '(w1, w2) => match c w2 with Some (a, w2') => Some (a, (w1, w2')) | None => None end.

(** A call that cannot panic. *)
Definition total {W A} (c : W -> A * W) : M W A := fun w => Some (c w).

(** * Time

    A [Duration] is a number of nanoseconds in [0, DURATION_MAX]; an
    [Instant] counts nanoseconds of the monotonic clock, whose seconds are a
    signed 64-bit integer in the standard library's Unix implementation. *)

Definition NANOS_PER_SEC : Z := 1000000000.
Definition DURATION_MAX : Z := 2 ^ 64 * NANOS_PER_SEC - 1.
Definition INSTANT_MIN : Z := - 2 ^ 63 * NANOS_PER_SEC.
Definition INSTANT_MAX : Z := 2 ^ 63 * NANOS_PER_SEC - 1.

Definition from_secs (s : Z) : Z := s * NANOS_PER_SEC.
Definition from_millis (ms : Z) : Z := ms * 1000000.

(** [Instant::duration_since]: zero when the argument is the later one. *)
Definition duration_since (now earlier : Z) : Z := Z.max 0 (now - earlier).

(** [Instant::checked_sub]. *)
Definition instant_checked_sub (t d : Z) : option Z :=
  if t - d <? INSTANT_MIN then None else Some (t - d).

(** * IEEE-754 binary64 *)

Definition f64 : Type := spec_float.
Definition f64_prec : Z := 53.
Definition f64_emax : Z := 1024.
Definition f64_add (x y : f64) : f64 := SFadd f64_prec f64_emax x y.
Definition f64_sub (x y : f64) : f64 := SFsub f64_prec f64_emax x y.
Definition f64_mul (x y : f64) : f64 := SFmul f64_prec f64_emax x y.
Definition f64_div (x y : f64) : f64 := SFdiv f64_prec f64_emax x y.
(** The integer-to-float cast [n as f64], rounding to nearest even. *)
Definition f64_of_Z (n : Z) : f64 := binary_normalize f64_prec f64_emax n 0 false.
Definition f64_lt (x y : f64) : bool := SFltb x y.
Definition f64_le (x y : f64) : bool := SFleb x y.
Definition f64_eq (x y : f64) : bool := SFeqb x y.
Definition f64_is_nan (x : f64) : bool := match x with S754_nan => true | _ => false end.
Definition f64_is_finite (x : f64) : bool :=
  match x with S754_zero _ | S754_finite _ _ _ => true | _ => false end.
(** [f64::max] and [f64::min]: a NaN operand is ignored. *)
Definition f64_max (x y : f64) : f64 :=
  if f64_is_nan x then y else if f64_is_nan y then x else if f64_lt x y then y else x.
Definition f64_min (x y : f64) : f64 :=
  if f64_is_nan x then y else if f64_is_nan y then x else if f64_lt y x then y else x.
(** [f64::clamp] with non-NaN bounds: a NaN receiver stays NaN. *)
Definition f64_clamp (x lo hi : f64) : f64 :=
  if f64_lt x lo then lo else if f64_lt hi x then hi else x.

(** [Duration::as_secs_f64]: whole seconds plus the nanosecond fraction. *)
Definition as_secs_f64 (d : Z) : f64 :=
  f64_add (f64_of_Z (d / NANOS_PER_SEC))
          (f64_div (f64_of_Z (d mod NANOS_PER_SEC)) (f64_of_Z NANOS_PER_SEC)).

(** [n / d] rounded to the nearest integer, ties to even. *)
Definition round_half_even (n d : Z) : Z :=
  let q := n / d in
  let r := n mod d in
  if 2 * r <? d then q
  else if d <? 2 * r then q + 1
  else if Z.even q then q else q + 1.

(** [Duration::try_from_secs_f64]: [None] for a negative, non-finite or too
    large number of seconds; otherwise the nearest nanosecond. *)
Definition try_from_secs_f64 (x : f64) : option Z :=
  match x with
  | S754_zero _ => Some 0
  | S754_finite false m e =>
      let scaled := Z.pos m * NANOS_PER_SEC in
      let ns := if 0 <=? e then Z.shiftl scaled e
                else round_half_even scaled (2 ^ (- e)) in
      if ns <=? DURATION_MAX then Some ns else None
  | _ => None
  end.

Definition U64_MAX : Z := 2 ^ 64 - 1.

(** [AtomicU64::fetch_add], and [u64] addition in release builds, wrap around;
    likewise for [i64] and [u32]. *)
Definition u64 (z : Z) : Z := z mod 2 ^ 64.
Definition u32 (z : Z) : Z := z mod 2 ^ 32.
Definition i64 (z : Z) : Z := (z + 2 ^ 63) mod 2 ^ 64 - 2 ^ 63.

Lemma u64_range z : 0 <= u64 z < 2 ^ 64.
Proof. apply Z.mod_pos_bound. lia. Qed.

Lemma u64_id z : 0 <= z < 2 ^ 64 -> u64 z = z.
Proof. intros. by apply Z.mod_small. Qed.

Lemma i64_id z : - 2 ^ 63 <= z < 2 ^ 63 -> i64 z = z.
Proof. intros. unfold i64. rewrite Z.mod_small; lia. Qed.

(** [Vec<u8>]. *)
Definition bytes : Type := list Byte.byte.

(** The cast [x as u64]: truncation towards zero, saturating; NaN is zero. *)
Definition f64_to_u64 (x : f64) : Z :=
  match x with
  | S754_finite false m e =>
      Z.min U64_MAX (if 0 <=? e then Z.shiftl (Z.pos m) e else Z.shiftr (Z.pos m) (- e))
  | S754_infinity false => U64_MAX
  | _ => 0
  end.

(** [u64::saturating_mul] and [u64::saturating_add]. *)
Definition saturating_mul (a b : Z) : Z := Z.min U64_MAX (a * b).
Definition saturating_add (a b : Z) : Z := Z.min U64_MAX (a + b).

(** * Lists *)

(** The first element that satisfies [p]. *)
Lemma first_such {A} (p : A -> bool) l x : List.In x l -> p x = true ->
  exists before y after, l = before ++ y :: after /\ p y = true /\ Forall (fun z => p z = false) before.
Proof.
  induction l as [|y l IH]; intros I P; [done|]. destruct (p y) eqn:Py; [by exists [], y, l|].
  destruct I as [->|I]; [congruence|]. destruct (IH I P) as (b & z & a & -> & Pz & F).
  exists (y :: b), z, a. split_and!; [done|done|by constructor].
Qed.

(** * Tactics *)

Create HintDb firefly.
#[export] Hint Extern 5 (_ <= _)%Z => lia : firefly.
#[export] Hint Extern 5 (_ <= _)%nat => lia : firefly.

(** Splits every boolean test and [match] the goal is stuck on. *)
Ltac split_ifs :=
  repeat match goal with
  | |- context [if ?b then _ else _] => destruct b eqn:?
  | |- context [match ?x with _ => _ end] => destruct x eqn:?
  end.

(** The same in a hypothesis. *)
Ltac split_ifs_in H :=
  repeat match type of H with
  | context [if ?b then _ else _] => destruct b eqn:?
  | context [match ?x with _ => _ end] => destruct x eqn:?
  end.

(** Turns the boolean comparisons of the context into propositions. *)
Ltac bool_to_prop :=
  repeat match goal with
  | H : (_ <? _)%Z = true |- _ => apply Z.ltb_lt in H
  | H : (_ <? _)%Z = false |- _ => apply Z.ltb_ge in H
  | H : (_ <=? _)%Z = true |- _ => apply Z.leb_le in H
  | H : (_ <=? _)%Z = false |- _ => apply Z.leb_gt in H
  | H : (_ =? _)%Z = true |- _ => apply Z.eqb_eq in H
  | H : (_ =? _)%Z = false |- _ => apply Z.eqb_neq in H
  | H : (_ <? _)%nat = true |- _ => apply Nat.ltb_lt in H
  | H : (_ <? _)%nat = false |- _ => apply Nat.ltb_ge in H
  | H : (_ <=? _)%nat = true |- _ => apply Nat.leb_le in H
  | H : (_ <=? _)%nat = false |- _ => apply Nat.leb_gt in H
  | H : (_ =? _)%nat = true |- _ => apply Nat.eqb_eq in H
  | H : (_ =? _)%nat = false |- _ => apply Nat.eqb_neq in H
  | H : _ && _ = true |- _ => apply andb_true_iff in H; destruct H
  | H : _ || _ = false |- _ => apply orb_false_iff in H; destruct H
  | H : negb _ = true |- _ => apply negb_true_iff in H
  | H : negb _ = false |- _ => apply negb_false_iff in H
  end.

(** [split_ifs] followed by the linear arithmetic of the branches. *)
Ltac cases_lia := split_ifs; bool_to_prop; simpl in *; try lia; try congruence.
