(* ===== verification/CircuitBreaker.v ===== *)
(** The typed state-machine circuit breaker of
    [crates/resilience/src/circuit_breaker.rs].

    The mutex-guarded [BreakerInner] is the state; every operation takes the
    clock reading its lock section observes. [allow] returns [None] where the
    source panics ([expect] on [opened_at]). [execute] runs the operation
    between two lock sections, so its model lets everything other callers do
    meanwhile happen inside the operation. *)
From Stdlib Require Import ZArith List Lia.
From stdpp Require Import base decidable list relations.
From S2P Require Import Prelude.

(** * Data *)

Inductive ResilienceError (E : Type) : Type :=
| CircuitOpen
| RateLimited
| BulkheadFull
| Timeout
| Operation (err : E).
Arguments CircuitOpen {E}.
Arguments RateLimited {E}.
Arguments BulkheadFull {E}.
Arguments Timeout {E}.
Arguments Operation {E} err.

Inductive CircuitState : Type := Closed | Open | HalfOpen.

#[export] Instance CircuitState_eq_dec : EqDecision CircuitState.
Proof. solve_decision. Defined.

Record CircuitConfig : Type := mkCircuitConfig {
  cfg_failure_threshold : nat;
  cfg_window : Z;
  cfg_open_duration : Z;
  cfg_failure_rate_threshold : option f64;
  cfg_window_size : nat;
  cfg_half_open_max_calls : nat
}.

Definition CircuitConfig_default : CircuitConfig :=
  mkCircuitConfig 5 (from_secs 1) (from_secs 30) None 10 1.

Record BreakerInner : Type := mkInner {
  state : CircuitState;
  failures : list Z;
  opened_at : option Z;
  outcomes : list bool;
  half_open_calls : nat;
  half_open_successes : nat
}.

Record CircuitBreaker : Type := mkBreaker {
  failure_threshold : nat;
  window : Z;
  open_duration : Z;
  failure_rate_threshold : option f64;
  window_size : nat;
  half_open_max_calls : nat
}.

(** * Operations *)

Definition new (cfg : CircuitConfig) : CircuitBreaker * BreakerInner :=
  (mkBreaker
     (if (cfg_failure_threshold cfg =? 0)%nat then 5 else cfg_failure_threshold cfg)
     (cfg_window cfg)
     (if cfg_open_duration cfg =? 0 then from_secs 30 else cfg_open_duration cfg)
     (cfg_failure_rate_threshold cfg)
     (if (cfg_window_size cfg =? 0)%nat then 10 else cfg_window_size cfg)
     (Nat.max (cfg_half_open_max_calls cfg) 1),
   mkInner Closed [] None [] 0 0).

(** [Open] to [HalfOpen] once the open duration has elapsed; [None] is the
    panic of [opened_at.expect(..)]. *)
Definition promote (cb : CircuitBreaker) (now : Z) (s : BreakerInner) : option BreakerInner :=
  match state s with
  | Open =>
      match opened_at s with
      | None => None
      | Some t =>
          if open_duration cb <=? duration_since now t
          then Some (mkInner HalfOpen (failures s) (opened_at s) (outcomes s) 0 0)
          else Some s
      end
  | _ => Some s
  end.

Definition allow (cb : CircuitBreaker) (now : Z) (s : BreakerInner) : option (bool * BreakerInner) :=
  match promote cb now s with
  | None => None
  | Some s =>
      match state s with
      | Closed => Some (true, s)
      | Open => Some (false, s)
      | HalfOpen =>
          if (half_open_calls s <? half_open_max_calls cb)%nat
          then Some (true, mkInner (state s) (failures s) (opened_at s) (outcomes s)
                             (S (half_open_calls s)) (half_open_successes s))
          else Some (false, s)
      end
  end.

Definition count_failed (l : list bool) : nat :=
  List.length (List.filter negb l).

Definition tripped (cb : CircuitBreaker) (s : BreakerInner) : bool :=
  match failure_rate_threshold cb with
  | Some rate =>
      if (List.length (outcomes s) <? window_size cb)%nat then false
      else f64_le rate (f64_div (f64_of_Z (Z.of_nat (count_failed (outcomes s))))
                                (f64_of_Z (Z.of_nat (List.length (outcomes s)))))
  | None => (failure_threshold cb <=? List.length (failures s))%nat
  end.

(** The count-based ring: at capacity the oldest outcome leaves first. *)
Definition push_outcome (cb : CircuitBreaker) (ok : bool) (l : list bool) : list bool :=
  (if (List.length l =? window_size cb)%nat then tl l else l) ++ [ok].

Definition push_failure (cb : CircuitBreaker) (now : Z) (l : list Z) : list Z :=
  match failure_rate_threshold cb with
  | Some _ => l
  | None =>
      let l := l ++ [now] in
      if window cb =? 0 then l
      else match instant_checked_sub now (window cb) with
           | Some cutoff => List.filter (fun t => cutoff <=? t) l
           | None => l
           end
  end.

Definition record (cb : CircuitBreaker) (failed : bool) (now : Z) (s : BreakerInner) : BreakerInner :=
  let outs := push_outcome cb (negb failed) (outcomes s) in
  if failed then
    match state s with
    | HalfOpen => mkInner Open [] (Some now) outs 0 0
    | st =>
        let fs := push_failure cb now (failures s) in
        let s' := mkInner st fs (opened_at s) outs (half_open_calls s) (half_open_successes s) in
        if tripped cb s'
        then mkInner Open [] (Some now) outs (half_open_calls s) (half_open_successes s)
        else s'
    end
  else
    match state s with
    | HalfOpen =>
        let n := S (half_open_successes s) in
        if (half_open_max_calls cb <=? n)%nat
        then mkInner Closed [] (opened_at s) [] 0 0
        else mkInner HalfOpen (failures s) (opened_at s) outs (half_open_calls s) n
    | st =>
        mkInner st (if window cb =? 0 then [] else failures s) (opened_at s) outs
          (half_open_calls s) (half_open_successes s)
    end.

Definition on_success (cb : CircuitBreaker) := record cb false.
Definition on_failure (cb : CircuitBreaker) := record cb true.

Definition before_call {E} (cb : CircuitBreaker) (now : Z) (s : BreakerInner)
  : option (Result unit (ResilienceError E) * BreakerInner) :=
  match allow cb now s with
  | None => None
  | Some (true, s') => Some (Ok tt, s')
  | Some (false, s') => Some (Err CircuitOpen, s')
  end.

(** [execute]: [op] maps the breaker state at the start of the awaited
    operation to its result, the state other tasks left behind, and the clock
    when it finished. *)
Definition execute {T E} (cb : CircuitBreaker)
    (op : BreakerInner -> Result T (ResilienceError E) * BreakerInner * Z)
    (now : Z) (s : BreakerInner) : option (Result T (ResilienceError E) * BreakerInner) :=
  match before_call (E := E) cb now s with
  | None => None
  | Some (Err e, s') => Some (Err e, s')
  | Some (Ok _, s') =>
      let '(result, s'', later) := op s' in
      Some (result, if is_err result then on_failure cb later s'' else on_success cb later s'')
  end.

(** * The transition system *)

(** One lock section: a gate check or a recorded outcome, at any instant. *)
Inductive event : Type :=
| EAllow (now : Z)
| ERecord (failed : bool) (now : Z).

Definition apply_event (cb : CircuitBreaker) (e : event) (s : BreakerInner) : option BreakerInner :=
  match e with
  | EAllow now => snd <$> allow cb now s
  | ERecord failed now => Some (record cb failed now s)
  end.

Inductive step (cb : CircuitBreaker) : BreakerInner -> BreakerInner -> Prop :=
| step_event e s s' : apply_event cb e s = Some s' -> step cb s s'.

Definition initial : BreakerInner := mkInner Closed [] None [] 0 0.

Definition reachable (cb : CircuitBreaker) (s : BreakerInner) : Prop :=
  rtc (step cb) initial s.

(** Parameters after [new]'s defaulting. *)
Record params_ok (cb : CircuitBreaker) : Prop := {
  ok_threshold : (1 <= failure_threshold cb)%nat;
  ok_window_size : (1 <= window_size cb)%nat;
  ok_max_calls : (1 <= half_open_max_calls cb)%nat
}.

Record breaker_inv (cb : CircuitBreaker) (s : BreakerInner) : Prop := {
  inv_opened : state s = Open -> exists t, opened_at s = Some t;
  inv_ring : (List.length (outcomes s) <= window_size cb)%nat;
  inv_calls : (half_open_calls s <= half_open_max_calls cb)%nat;
  inv_successes : (half_open_successes s < half_open_max_calls cb)%nat;
  inv_idle : state s <> HalfOpen -> half_open_calls s = 0%nat /\ half_open_successes s = 0%nat;
  inv_failures : failure_rate_threshold cb = None ->
                 (List.length (failures s) < failure_threshold cb)%nat;
  inv_rate : failure_rate_threshold cb <> None -> failures s = []
}.
#[export] Hint Resolve inv_opened inv_ring inv_calls inv_successes : firefly.

(** * Helper lemmas *)

Lemma new_params cfg : params_ok (fst (new cfg)).
Proof.
  destruct cfg as [ft w od rt ws mx]. split; simpl.
  - destruct (Nat.eqb_spec ft 0); lia.
  - destruct (Nat.eqb_spec ws 0); lia.
  - lia.
Qed.

Lemma initial_inv cb : params_ok cb -> breaker_inv cb initial.
Proof. intros []. split; simpl; (done || lia). Qed.

Lemma push_outcome_length cb ok l :
  (1 <= window_size cb)%nat -> (List.length l <= window_size cb)%nat ->
  (List.length (push_outcome cb ok l) <= window_size cb)%nat.
Proof.
  intros ??. unfold push_outcome. rewrite length_app. simpl.
  destruct (Nat.eqb_spec (List.length l) (window_size cb)); [destruct l|]; simpl in *; lia.
Qed.

Lemma length_filter_le {A} (p : A -> bool) l :
  (List.length (List.filter p l) <= List.length l)%nat.
Proof. induction l; simpl; [lia|]. destruct (p a); simpl; lia. Qed.

Lemma promote_inv cb now s s' :
  breaker_inv cb s -> promote cb now s = Some s' -> breaker_inv cb s'.
Proof.
  intros I. unfold promote. destruct (state s) eqn:E; [by intros [= <-]| |by intros [= <-]].
  destruct (opened_at s); [|done]. destruct (_ <=? _); intros [= <-]; [|done].
  destruct I. split; simpl; (done || lia).
Qed.

Lemma promote_total cb now s : breaker_inv cb s -> exists s', promote cb now s = Some s'.
Proof.
  intros I. unfold promote. destruct (state s) eqn:E; [eauto| |eauto].
  destruct (inv_opened _ _ I E) as [t ->]. destruct (_ <=? _); eauto.
Qed.

Lemma allow_inv cb now s b s' :
  breaker_inv cb s -> allow cb now s = Some (b, s') -> breaker_inv cb s'.
Proof.
  intros I. unfold allow. destruct (promote cb now s) as [s1|] eqn:P; [|done].
  pose proof (promote_inv _ _ _ _ I P) as I1. destruct (state s1) eqn:E.
  - by intros [= <- <-].
  - by intros [= <- <-].
  - destruct (Nat.ltb_spec (half_open_calls s1) (half_open_max_calls cb)); intros [= <- <-]; [|done].
    destruct I1. split; simpl; (done || lia || congruence).
Qed.

Lemma allow_total cb now s : breaker_inv cb s -> exists b s', allow cb now s = Some (b, s').
Proof.
  intros I. unfold allow. destruct (promote_total cb now s I) as [s1 ->].
  destruct (state s1); [eauto|eauto|]. destruct (_ <? _)%nat; eauto.
Qed.

Lemma push_failure_rate cb now l r :
  failure_rate_threshold cb = Some r -> push_failure cb now l = l.
Proof. unfold push_failure. by intros ->. Qed.

Lemma tripped_consecutive cb s :
  failure_rate_threshold cb = None ->
  tripped cb s = (failure_threshold cb <=? List.length (failures s))%nat.
Proof. unfold tripped. by intros ->. Qed.

Lemma record_inv cb failed now s :
  params_ok cb -> breaker_inv cb s -> breaker_inv cb (record cb failed now s).
Proof.
  intros [P1 P2 P3] I. pose proof (push_outcome_length cb (negb failed) _ P2 (inv_ring _ _ I)) as R.
  destruct I as [I1 I2 I3 I4 I5 I6 I7]. unfold record. destruct failed.
  - assert (forall st, st <> HalfOpen -> st = state s ->
      breaker_inv cb
       (let fs := push_failure cb now (failures s) in
        let s' := mkInner st fs (opened_at s) (push_outcome cb (negb true) (outcomes s))
                    (half_open_calls s) (half_open_successes s) in
        if tripped cb s'
        then mkInner Open [] (Some now) (push_outcome cb (negb true) (outcomes s))
               (half_open_calls s) (half_open_successes s)
        else s')) as Aux.
    { intros st Hst ->. simpl.
      destruct (tripped cb _) eqn:T; split; simpl; eauto; try lia; try done.
      - intros N. rewrite tripped_consecutive in T by done. by apply Nat.leb_gt in T.
      - intros N. destruct (failure_rate_threshold cb) eqn:F; [|done].
        rewrite (push_failure_rate _ _ _ _ F). by apply I7. }
    destruct (state s) eqn:E; [by apply Aux|by apply Aux|].
    split; simpl; eauto; (done || lia).
  - destruct (state s) eqn:E.
    + split; simpl; eauto; try (done || lia).
      * intros N. destruct (_ =? _); simpl; [lia|auto].
      * intros N. destruct (_ =? _); auto.
    + split; simpl; eauto; try (done || lia).
      * intros N. destruct (_ =? _); simpl; [lia|auto].
      * intros N. destruct (_ =? _); auto.
    + destruct (Nat.leb_spec (half_open_max_calls cb) (S (half_open_successes s)));
        split; simpl; eauto; (done || lia).
Qed.

Lemma step_inv cb s s' : params_ok cb -> breaker_inv cb s -> step cb s s' -> breaker_inv cb s'.
Proof.
  intros P I H. destruct H as [[now|failed now] s1 s2 E]; simpl in E.
  - destruct (allow cb now s1) as [[b s3]|] eqn:A; simpl in E; [|done]. injection E as <-.
    eapply allow_inv; eauto.
  - injection E as <-. by apply record_inv.
Qed.

Lemma reachable_inv cb s : params_ok cb -> reachable cb s -> breaker_inv cb s.
Proof.
  intros P R. unfold reachable in R. apply initial_inv in P as I0. revert I0.
  induction R as [|x y z Hs _ IH]; intros I; [done|]. apply IH. eapply step_inv; eauto.
Qed.
#[export] Hint Resolve reachable_inv new_params : firefly.

(** * The abstract breaker of the consecutive-failure mode

    What the component promises when no failure-rate threshold is configured
    and the window is zero: a counter of consecutive failures, an open period
    and a probe budget. The concrete state carries timestamps and an outcome
    ring the mode never consults. *)
Module spec.

Inductive breaker : Type :=
| SClosed (consecutive : nat)
| SOpen (since : Z) (late : nat)
| SHalfOpen (since : Z) (late admitted succeeded : nat).

Definition allow (cb : CircuitBreaker) (now : Z) (b : breaker) : bool * breaker :=
  let gate since late a s :=
    if (a <? half_open_max_calls cb)%nat then (true, SHalfOpen since late (S a) s)
    else (false, SHalfOpen since late a s) in
  match b with
  | SClosed n => (true, SClosed n)
  | SOpen since late =>
      if open_duration cb <=? duration_since now since then gate since late 0%nat 0%nat
      else (false, SOpen since late)
  | SHalfOpen since late a s => gate since late a s
  end.

Definition success (cb : CircuitBreaker) (b : breaker) : breaker :=
  match b with
  | SClosed _ => SClosed 0
  | SOpen since _ => SOpen since 0
  | SHalfOpen since late a s =>
      if (half_open_max_calls cb <=? S s)%nat then SClosed 0 else SHalfOpen since late a (S s)
  end.

Definition failure (cb : CircuitBreaker) (now : Z) (b : breaker) : breaker :=
  match b with
  | SClosed n => if (failure_threshold cb <=? S n)%nat then SOpen now 0 else SClosed (S n)
  | SOpen since n => if (failure_threshold cb <=? S n)%nat then SOpen now 0 else SOpen since (S n)
  | SHalfOpen _ _ _ _ => SOpen now 0
  end.

End spec.

Definition opened_or_zero (s : BreakerInner) : Z :=
  match opened_at s with Some t => t | None => 0 end.

Definition absr (s : BreakerInner) : spec.breaker :=
  match state s with
  | Closed => spec.SClosed (List.length (failures s))
  | Open => spec.SOpen (opened_or_zero s) (List.length (failures s))
  | HalfOpen => spec.SHalfOpen (opened_or_zero s) (List.length (failures s))
                  (half_open_calls s) (half_open_successes s)
  end.

Lemma push_failure_consecutive cb now l :
  failure_rate_threshold cb = None -> window cb = 0 -> push_failure cb now l = l ++ [now].
Proof. unfold push_failure. by intros -> ->. Qed.

Lemma allow_refines cb now s :
  breaker_inv cb s ->
  exists b s', allow cb now s = Some (b, s') /\ spec.allow cb now (absr s) = (b, absr s').
Proof.
  intros I. unfold allow, promote, absr, spec.allow. destruct (state s) eqn:E.
  - rewrite E. do 2 eexists. split; [done|]. by rewrite E.
  - destruct (inv_opened _ _ I E) as [t Ht]. unfold opened_or_zero. rewrite Ht.
    destruct (open_duration cb <=? duration_since now t); simpl.
    + destruct (Nat.ltb_spec 0 (half_open_max_calls cb)); do 2 eexists; by split.
    + rewrite E. do 2 eexists. split; [done|]. by rewrite E, Ht.
  - rewrite E. destruct (Nat.ltb_spec (half_open_calls s) (half_open_max_calls cb));
      do 2 eexists; (split; [done|]); simpl; by rewrite ?E.
Qed.

Lemma success_refines cb now s :
  window cb = 0 -> absr (record cb false now s) = spec.success cb (absr s).
Proof.
  intros W. unfold record, absr. rewrite W. simpl. destruct (state s) eqn:E; simpl; [done|done|].
  destruct (half_open_max_calls cb <=? S (half_open_successes s))%nat; done.
Qed.

Lemma failure_refines cb now s :
  failure_rate_threshold cb = None -> window cb = 0 ->
  absr (record cb true now s) = spec.failure cb now (absr s).
Proof.
  intros F W. unfold record. simpl.
  destruct (state s) eqn:E; unfold absr at 2; rewrite E; simpl; [ | |done];
    rewrite !tripped_consecutive by done; simpl;
    rewrite push_failure_consecutive by done; rewrite length_app; simpl;
    replace (List.length (failures s) + 1)%nat with (S (List.length (failures s))) by lia;
    destruct (failure_threshold cb <=? S _)%nat; unfold absr; simpl; try done;
    by rewrite length_app, Nat.add_1_r.
Qed.

(** C10 The concrete breaker refines the abstract one: in consecutive mode
    (no failure-rate threshold, zero window), from every reachable state each
    lock section - gate check, recorded success, recorded failure - returns
    what the abstract counter machine returns and lands in the state it
    lands in; the gate never reaches the [expect] panic. *)
Theorem breaker_refines_counter cfg s now :
  let cb := fst (new cfg) in
  reachable cb s -> failure_rate_threshold cb = None -> window cb = 0 ->
  (exists b s', allow cb now s = Some (b, s') /\ spec.allow cb now (absr s) = (b, absr s')) /\
  absr (on_success cb now s) = spec.success cb (absr s) /\
  absr (on_failure cb now s) = spec.failure cb now (absr s).
Proof.
  intros cb R F W. split; [|split].
  - apply allow_refines, reachable_inv; [apply new_params|done].
  - by apply success_refines.
  - by apply failure_refines.
Qed.

Definition demo_config : CircuitConfig := mkCircuitConfig 2 0 (from_secs 30) None 10 1.

Lemma breaker_refines_counter_witness :
  let cb := fst (new demo_config) in
  (exists b s', allow cb 5 initial = Some (b, s') /\
                spec.allow cb 5 (absr initial) = (b, absr s')) /\
  absr (on_success cb 5 initial) = spec.success cb (absr initial) /\
  absr (on_failure cb 5 initial) = spec.failure cb 5 (absr initial).
Proof. apply breaker_refines_counter; [apply rtc_refl|reflexivity|reflexivity]. Defined.

(** * State-machine properties *)

(** Every state the breaker can reach - whatever the interleaving of gate
    checks and outcomes of concurrent callers - is well formed: an open
    breaker has its opening instant, the outcome ring never exceeds
    [window_size], at most [half_open_max_calls] probes are admitted, fewer
    successes than that are pending, and the failure list stays below the
    threshold; and the gate never panics. *)
Theorem reachable_well_formed cfg s :
  reachable (fst (new cfg)) s ->
  breaker_inv (fst (new cfg)) s /\ forall now, allow (fst (new cfg)) now s <> None.
Proof.
  intros R. pose proof (reachable_inv _ _ (new_params cfg) R) as I. split; [done|].
  intros now E. destruct (allow_total _ now _ I) as (b & s' & A). congruence.
Qed.

Lemma reachable_well_formed_witness :
  breaker_inv (fst (new demo_config)) initial /\
  forall now, allow (fst (new demo_config)) now initial <> None.
Proof. apply (reachable_well_formed demo_config initial). apply rtc_refl. Defined.

(** The open gate: before the open duration has elapsed it rejects and
    changes nothing; from then on the next gate check moves the breaker to
    half-open with fresh counters and admits the caller as its first probe. *)
Theorem open_gate cfg now t s :
  let cb := fst (new cfg) in
  state s = Open -> opened_at s = Some t ->
  (duration_since now t < open_duration cb -> allow cb now s = Some (false, s)) /\
  (open_duration cb <= duration_since now t ->
   allow cb now s = Some (true, mkInner HalfOpen (failures s) (Some t) (outcomes s) 1 0)).
Proof.
  intros cb. pose proof (new_params cfg : params_ok cb) as [_ _ M]. clearbody cb.
  intros E O. unfold allow, promote. rewrite E, O. split; intros H.
  - rewrite (proj2 (Z.leb_gt _ _)) by lia. by rewrite E.
  - rewrite (proj2 (Z.leb_le _ _)) by lia. simpl.
    by rewrite (proj2 (Nat.ltb_lt _ _)) by lia.
Qed.

Lemma open_gate_witness :
  let cb := fst (new demo_config) in
  let s := mkInner Open [] (Some 0) [] 0 0 in
  (duration_since 7 0 < open_duration cb -> allow cb 7 s = Some (false, s)) /\
  (open_duration cb <= duration_since 7 0 ->
   allow cb 7 s = Some (true, mkInner HalfOpen [] (Some 0) [] 1 0)).
Proof. apply (open_gate demo_config 7 0 (mkInner Open [] (Some 0) [] 0 0)); reflexivity. Defined.

(** Runs a trace, collecting the gate's answers. *)
Fixpoint run (cb : CircuitBreaker) (es : list event) (s : BreakerInner)
  : option (list bool * BreakerInner) :=
  match es with
  | [] => Some ([], s)
  | EAllow now :: es' =>
      match allow cb now s with
      | None => None
      | Some (b, s') => (fun '(bs, s'') => (b :: bs, s'')) <$> run cb es' s'
      end
  | ERecord failed now :: es' => run cb es' (record cb failed now s)
  end.

(** Every state the trace goes through is half-open. *)
Fixpoint stays_half_open (cb : CircuitBreaker) (es : list event) (s : BreakerInner) : Prop :=
  state s = HalfOpen /\
  match es with
  | [] => True
  | e :: es' => exists s', apply_event cb e s = Some s' /\ stays_half_open cb es' s'
  end.

Definition count_true (l : list bool) : nat := List.length (List.filter id l).

Lemma allow_half_open cb now s :
  state s = HalfOpen ->
  allow cb now s =
    Some (if (half_open_calls s <? half_open_max_calls cb)%nat
          then (true, mkInner HalfOpen (failures s) (opened_at s) (outcomes s)
                        (S (half_open_calls s)) (half_open_successes s))
          else (false, s)).
Proof. intros E. unfold allow, promote. rewrite E, E. by destruct (_ <? _)%nat. Qed.

(** A record that leaves the breaker half-open keeps the probe count. *)
Lemma record_half_open cb failed now s :
  state s = HalfOpen -> state (record cb failed now s) = HalfOpen ->
  half_open_calls (record cb failed now s) = half_open_calls s.
Proof.
  intros E. unfold record. rewrite E. destruct failed; simpl; [done|].
  destruct (_ <=? _)%nat; by simpl.
Qed.

Lemma stays_head cb es s : stays_half_open cb es s -> state s = HalfOpen.
Proof. by destruct es; intros [? ?]. Qed.

(** The probe budget: along any interleaving of gate checks and outcomes
    that keeps the breaker half-open, the calls admitted plus those already
    admitted never exceed [half_open_max_calls]. *)
Theorem half_open_budget cb es s bs s' :
  (half_open_calls s <= half_open_max_calls cb)%nat ->
  stays_half_open cb es s -> run cb es s = Some (bs, s') ->
  (half_open_calls s + count_true bs <= half_open_max_calls cb)%nat.
Proof.
  revert s bs s'. induction es as [|e es IH]; intros s bs s' B H R.
  { injection R as <- <-. unfold count_true. simpl. lia. }
  destruct H as [E (s1 & A & H)]. destruct e as [now|failed now]; cbn [run apply_event] in *.
  - rewrite allow_half_open in A, R by done.
    destruct (Nat.ltb_spec (half_open_calls s) (half_open_max_calls cb)); simpl in A;
      injection A as <-.
    + destruct (run cb es _) as [[bs1 s2]|] eqn:R1; [|done]. injection R as <- <-.
      apply IH in R1; [|simpl; lia|done]. unfold count_true in *. simpl in *. lia.
    + destruct (run cb es s) as [[bs1 s2]|] eqn:R1; [|done]. injection R as <- <-.
      specialize (IH _ _ _ B H R1). unfold count_true in *. by simpl in *.
  - injection A as <-. pose proof (record_half_open cb failed now s E (stays_head _ _ _ H)) as C.
    apply IH in R; [|by rewrite C|done]. by rewrite C in R.
Qed.

Lemma half_open_budget_witness :
  let cb := fst (new demo_config) in
  let s := mkInner HalfOpen [] (Some 0) [] 0 0 in
  (0 + count_true [true; false] <= 1)%nat.
Proof.
  apply (half_open_budget (fst (new demo_config)) [EAllow 1; EAllow 2]
           (mkInner HalfOpen [] (Some 0) [] 0 0) [true; false]
           (mkInner HalfOpen [] (Some 0) [] 1 0)).
  - vm_compute. lia.
  - split; [reflexivity|]. eexists. split; [reflexivity|].
    split; [reflexivity|]. eexists. split; [reflexivity|]. split; [reflexivity|exact I].
  - reflexivity.
Defined.

(** A probe slot that is never given back blocks the breaker for good: in
    a half-open state whose budget is used up, gate checks at any instants are
    all rejected and change nothing. A caller dropped between [before_call]
    and the outcome - the inner future of a timeout that fires - leaves
    exactly this state. *)
Theorem lost_probe_blocks cb s nows :
  state s = HalfOpen -> half_open_calls s = half_open_max_calls cb ->
  run cb (map EAllow nows) s = Some (map (fun _ => false) nows, s).
Proof.
  intros E F. induction nows as [|now nows IH]; simpl; [done|].
  rewrite allow_half_open by done. rewrite F, Nat.ltb_irrefl. by rewrite IH.
Qed.

Lemma lost_probe_blocks_witness :
  run (fst (new demo_config)) (map EAllow [from_secs 60; from_secs 3600])
      (mkInner HalfOpen [] (Some 0) [] 1 0)
  = Some ([false; false], mkInner HalfOpen [] (Some 0) [] 1 0).
Proof.
  apply (lost_probe_blocks (fst (new demo_config)) (mkInner HalfOpen [] (Some 0) [] 1 0)
           [from_secs 60; from_secs 3600]); reflexivity.
Defined.

(** A probe admitted at one instant and successful at another. *)
Definition probe_ok (p : Z * Z) : list event := [EAllow (fst p); ERecord false (snd p)].

Lemma half_open_probes cb ps s :
  state s = HalfOpen -> half_open_calls s = half_open_successes s ->
  ps <> [] -> (half_open_successes s + List.length ps = half_open_max_calls cb)%nat ->
  run cb (flat_map probe_ok ps) s =
    Some (map (fun _ => true) ps, mkInner Closed [] (opened_at s) [] 0 0).
Proof.
  revert s. induction ps as [|[a r] ps IH]; intros s E C N L; [done|]. simpl in L.
  cbn [flat_map probe_ok fst snd app run map].
  rewrite allow_half_open, (proj2 (Nat.ltb_lt _ _)) by (done || lia).
  unfold record at 1; cbn [state half_open_successes half_open_calls opened_at outcomes failures].
  destruct ps as [|p ps].
  - simpl in L. by rewrite (proj2 (Nat.leb_le (half_open_max_calls cb) _)) by lia.
  - rewrite (proj2 (Nat.leb_gt (half_open_max_calls cb) _)) by (simpl in L; lia).
    rewrite IH; simpl; try done; simpl in L; lia.
Qed.

(** Recovery: once the open duration has elapsed, [half_open_max_calls]
    probes that all succeed are all admitted, and they close the breaker with
    every counter, the failure list and the outcome ring reset. *)
Theorem recovery cfg t s ps :
  let cb := fst (new cfg) in
  state s = Open -> opened_at s = Some t ->
  List.length ps = half_open_max_calls cb ->
  (forall p, head ps = Some p -> open_duration cb <= duration_since (fst p) t) ->
  run cb (flat_map probe_ok ps) s =
    Some (map (fun _ => true) ps, mkInner Closed [] (Some t) [] 0 0).
Proof.
  intros cb E O L H. pose proof (open_gate cfg) as G. fold cb in G.
  pose proof (new_params cfg : params_ok cb) as [_ _ M]. clearbody cb.
  destruct ps as [|[a r] ps]; [simpl in L; lia|]. specialize (H _ eq_refl).
  set (s0 := mkInner HalfOpen (failures s) (Some t) (outcomes s) 0 0).
  assert (allow cb a s = allow cb a s0) as A.
  { rewrite (proj2 (G a t s E O) H), allow_half_open by done. simpl.
    by rewrite (proj2 (Nat.ltb_lt _ _)) by lia. }
  pose proof (half_open_probes cb ((a, r) :: ps) s0 eq_refl eq_refl ltac:(done) L) as P.
  cbn [flat_map probe_ok fst snd app run] in *. by rewrite A.
Qed.

Lemma recovery_witness :
  run (fst (new demo_config)) [EAllow (from_secs 31); ERecord false (from_secs 32)]
      (mkInner Open [] (Some 0) [true; false] 0 0)
  = Some ([true], mkInner Closed [] (Some 0) [] 0 0).
Proof.
  apply (recovery demo_config 0 (mkInner Open [] (Some 0) [true; false] 0 0)
           [(from_secs 31, from_secs 32)]); [reflexivity|reflexivity|reflexivity|].
  intros p [= <-]. vm_compute. congruence.
Defined.

(** * The count-based failure-rate window *)

Definition ring (cb : CircuitBreaker) (history : list bool) : list bool :=
  fold_left (fun r ok => push_outcome cb ok r) history [].

Lemma tl_drop {A} k (l : list A) : tl (drop k l) = drop (S k) l.
Proof. revert l. induction k; intros []; simpl; auto. Qed.

Lemma ring_suffix cb history :
  (1 <= window_size cb)%nat ->
  ring cb history = drop (List.length history - window_size cb) history.
Proof.
  intros W. unfold ring. induction history as [|ok h IH] using rev_ind; [done|].
  rewrite fold_left_app, IH. simpl. unfold push_outcome. rewrite length_drop, length_app. simpl.
  destruct (Nat.eqb_spec (List.length h - (List.length h - window_size cb)) (window_size cb)).
  - replace (List.length h + 1 - window_size cb)%nat
      with (S (List.length h - window_size cb))%nat by lia.
    rewrite drop_app_le by lia. by rewrite tl_drop.
  - replace (List.length h + 1 - window_size cb)%nat with 0%nat by lia.
    by replace (List.length h - window_size cb)%nat with 0%nat by lia.
Qed.

(** Failure-rate mode judges exactly the last [window_size] outcomes: a
    closed breaker whose ring saw [history] opens on the next failure iff the
    window is then full and the failed fraction of those last outcomes (in
    binary64) reaches the threshold; a success never opens it. *)
Theorem rate_trip cfg rate history now s :
  let cb := fst (new cfg) in
  let last := drop (S (List.length history) - window_size cb) (history ++ [false]) in
  failure_rate_threshold cb = Some rate -> state s = Closed -> outcomes s = ring cb history ->
  (state (on_failure cb now s) = Open <->
     (window_size cb <= S (List.length history))%nat /\
     f64_le rate (f64_div (f64_of_Z (Z.of_nat (count_failed last)))
                          (f64_of_Z (Z.of_nat (window_size cb)))) = true) /\
  state (on_success cb now s) = Closed.
Proof.
  intros cb last. pose proof (new_params cfg : params_ok cb) as [_ W _]. clearbody cb.
  intros F E O.
  split; [|unfold on_success, record; by rewrite E].
  unfold on_failure, record. rewrite E, O. simpl.
  replace (push_outcome cb false (ring cb history)) with last; cycle 1.
  { unfold last. change (push_outcome cb false (ring cb history))
      with (fold_left (fun r ok => push_outcome cb ok r) [false] (ring cb history)).
    unfold ring. rewrite <- fold_left_app. fold (ring cb (history ++ [false])).
    rewrite ring_suffix, length_app by done. change (List.length [false]) with 1%nat.
    by rewrite Nat.add_1_r. }
  assert (List.length last = Nat.min (S (List.length history)) (window_size cb)) as L.
  { unfold last. rewrite length_drop, length_app. change (List.length [false]) with 1%nat. lia. }
  unfold tripped. rewrite F. cbn [outcomes]. rewrite L.
  destruct (Nat.ltb_spec (Nat.min (S (List.length history)) (window_size cb)) (window_size cb)).
  - split; [done|]. intros [? _]. lia.
  - replace (Nat.min (S (List.length history)) (window_size cb)) with (window_size cb) by lia.
    destruct (f64_le _ _); simpl; split; try done; try intros [_ ?]; try done; split; (done || lia).
Qed.

Definition rate_config : CircuitConfig :=
  mkCircuitConfig 5 0 (from_secs 30) (Some (f64_div (f64_of_Z 1) (f64_of_Z 2))) 4 1.

Lemma rate_trip_witness :
  let cb := fst (new rate_config) in
  let s := mkInner Closed [] None (ring cb [true; false; true]) 0 0 in
  (state (on_failure cb 9 s) = Open <->
     (4 <= 4)%nat /\ f64_le (f64_div (f64_of_Z 1) (f64_of_Z 2))
       (f64_div (f64_of_Z 2) (f64_of_Z 4)) = true) /\
  state (on_success cb 9 s) = Closed.
Proof.
  apply (rate_trip rate_config (f64_div (f64_of_Z 1) (f64_of_Z 2)) [true; false; true] 9
    (mkInner Closed [] None (ring (fst (new rate_config)) [true; false; true]) 0 0));
    reflexivity.
Defined.

Example rate_trips_at_half :
  state (on_failure (fst (new rate_config)) 9
          (mkInner Closed [] None (ring (fst (new rate_config)) [true; false; true]) 0 0)) = Open.
Proof. reflexivity. Qed.
