(* ===== verification/Chain.v ===== *)
(** Decorator composition: [crates/resilience/src/chain.rs], [fallback.rs] and
    [timeout.rs].

    An operation is a state transformer over a world [W] (everything the
    awaited calls can read or change) that yields a [Result]; a decorator
    wraps one operation into another. [Decorator] is the Rust trait; a
    [Arc<dyn Decorator>] is the closure its [call] denotes. *)
From Stdlib Require Import ZArith List Lia.
From stdpp Require Import base decidable list.
From S2P Require Import Prelude CircuitBreaker.

Section Chain.
Context {W E : Type}.

Definition Operation : Type := W -> Result unit (ResilienceError E) * W.

(** The trait: [call(&self, op)]. *)
Class Decorator (D : Type) : Type := call : D -> Operation -> Operation.

Definition dyn : Type := Operation -> Operation.
Definition into_dyn {D} `{Decorator D} (d : D) : dyn := call d.

(** Recursively wraps [op] so that the head decorator runs outermost. *)
Fixpoint nest (decorators : list dyn) (op : Operation) : Operation :=
  match decorators with
  | [] => op
  | outer :: rest => outer (fun w => nest rest op w)
  end.

Record Chain : Type := mkChain { decorators : list dyn }.

Definition chain_new : Chain := mkChain [].

Definition with_shared (c : Chain) (d : dyn) : Chain := mkChain (decorators c ++ [d]).

Definition with_decorator {D} `{Decorator D} (c : Chain) (d : D) : Chain :=
  with_shared c (into_dyn d).

Definition chain_execute (c : Chain) (op : Operation) : Operation := nest (decorators c) op.

#[global] Instance Chain_Decorator : Decorator Chain := fun c op => nest (decorators c) op.

(** [from_fn]: a bare function used as a decorator. *)
Record FnDecorator : Type := from_fn { fn_call : Operation -> Operation }.

#[global] Instance FnDecorator_Decorator : Decorator FnDecorator := fun d op => fn_call d op.

(** ** Fallback *)

Record Fallback : Type := mkFallback {
  handler : ResilienceError E -> Operation;
  catches : ResilienceError E -> bool
}.

Definition fallback_new_async (h : ResilienceError E -> Operation) : Fallback :=
  mkFallback h (fun _ => true).

Definition fallback_new (h : ResilienceError E -> Result unit (ResilienceError E)) : Fallback :=
  mkFallback (fun err w => (h err, w)) (fun _ => true).

Definition fallback_recover : Fallback := fallback_new (fun _ => Ok tt).

Definition fallback_on (f : Fallback) (predicate : ResilienceError E -> bool) : Fallback :=
  mkFallback (handler f) predicate.

#[global] Instance Fallback_Decorator : Decorator Fallback := fun f op w =>
  match op w with
  | (Ok tt, w') => (Ok tt, w')
  | (Err err, w') => if catches f err then handler f err w' else (Err err, w')
  end.

(** ** Timeout

    [timeout budget op] is tokio's combinator: [None] when the budget elapsed
    first and the inner future was dropped. *)
Variable tokio_timeout : Z -> Operation -> W -> option (Result unit (ResilienceError E)) * W.

Definition timeout_execute (budget : Z) (op : Operation) : Operation := fun w =>
  if budget =? 0 then op w
  else match tokio_timeout budget op w with
       | (Some result, w') => (result, w')
       | (None, w') => (Err Timeout, w')
       end.

(** ** The circuit breaker as a decorator

    [get] and [put] locate the breaker's state in the world; [clock] reads
    the time. The panic of [allow] is unreachable (see
    [reachable_well_formed]) and rendered as the gate staying closed. *)
Variables (get : W -> BreakerInner) (put : BreakerInner -> W -> W) (clock : W -> Z).

Definition breaker_call (cb : CircuitBreaker) (op : Operation) : Operation := fun w =>
  match allow cb (clock w) (get w) with
  | None => (Err CircuitOpen, w)
  | Some (false, s) => (Err CircuitOpen, put s w)
  | Some (true, s) =>
      let '(result, w') := op (put s w) in
      (result, put (record cb (is_err result) (clock w') (get w')) w')
  end.

End Chain.
Arguments Operation : clear implicits.
Arguments dyn : clear implicits.

(** * Composition laws *)

Lemma nest_app {W E} (ds1 ds2 : list (dyn W E)) op :
  nest (ds1 ++ ds2) op = nest ds1 (nest ds2 op).
Proof. induction ds1 as [|d ds1 IH]; simpl; [done|]. by rewrite IH. Qed.

(** A chain is a decorator whose nesting is composition: appending a
    decorator makes it the innermost wrapper, an empty chain runs the
    operation directly, and a chain used as one decorator of another chain
    acts as if its own decorators stood in its place. *)
Theorem chain_is_composition {W E} (c inner : @Chain W E) (d : dyn W E) op :
  chain_execute chain_new op = op /\
  chain_execute (with_shared c d) op = chain_execute c (d op) /\
  chain_execute (with_shared (with_decorator c inner) d) op =
    nest (decorators c ++ decorators inner ++ [d]) op.
Proof.
  unfold chain_execute, with_decorator, with_shared. simpl. split; [done|].
  split; [by rewrite nest_app|]. by rewrite <- app_assoc, !nest_app.
Qed.

(** A decorator that appends a mark before and after the inner call. *)
Definition recording {W E A} (log : A -> W -> W) (pre post : A) : dyn W E := fun op w =>
  let '(r, w') := op (log pre w) in (r, log post w').

(** Leftmost is outermost: over a world that is a log, a chain of recording
    decorators leaves all the entry marks in chain order, then whatever the
    operation logged, then the exit marks in reverse order, and returns the
    operation's result. *)
Theorem chain_runs_left_to_right {E A} (marks : list (A * A)) (op : Operation (list A) E) w r w' :
  (forall w0, op w0 = (r, w0 ++ w')) ->
  nest (map (fun m => recording (fun a l => l ++ [a]) (fst m) (snd m)) marks) op w =
    (r, w ++ map fst marks ++ w' ++ rev (map snd marks)).
Proof.
  intros H. revert w. induction marks as [|[pre post] ms IH]; intros w; simpl.
  - by rewrite H, app_nil_r.
  - unfold recording at 1. rewrite IH. by rewrite <- !app_assoc.
Qed.

Lemma chain_runs_left_to_right_witness :
  nest (map (fun m => recording (fun a l => l ++ [a]) (fst m) (snd m)) [(1, 10); (2, 20)])
    (fun w => (Ok tt : Result unit (ResilienceError unit), w ++ [99])) []
  = (Ok tt, [1; 2; 99; 20; 10]).
Proof.
  apply (chain_runs_left_to_right [(1, 10); (2, 20)]
    (fun w => (Ok tt : Result unit (ResilienceError unit), w ++ [99])) [] (Ok tt) [99]).
  reflexivity.
Defined.

(** Graceful degradation around an open breaker: a fallback that catches
    [CircuitOpen], outside a breaker whose open duration has not elapsed,
    never runs the guarded operation, leaves the breaker's state alone and
    answers with its handler; without the matching predicate the
    [CircuitOpen] sentinel reaches the caller. *)
Theorem fallback_covers_open_breaker {W E} get put clock (cb : CircuitBreaker)
    (f : @Fallback W E) op w t :
  (forall v, put (get v) v = v) ->
  state (get w) = Open -> opened_at (get w) = Some t ->
  duration_since (clock w) t < open_duration cb ->
  nest [into_dyn f; breaker_call get put clock cb] op w =
    if catches f CircuitOpen then handler f CircuitOpen w else (Err CircuitOpen, w).
Proof.
  intros L S O D. cbn [nest]. unfold into_dyn, call, Fallback_Decorator, breaker_call.
  unfold allow, promote. rewrite S, O, (proj2 (Z.leb_gt _ _)) by lia. by rewrite S, L.
Qed.

Lemma fallback_covers_open_breaker_witness :
  let s := mkInner Open [] (Some 0) [] 0 0 in
  nest [into_dyn (fallback_recover (W := BreakerInner) (E := unit));
        breaker_call id (fun x _ => x) (fun _ => 7) (fst (new demo_config))]
       (fun w => (Err Timeout, initial)) s
  = (Ok tt, s).
Proof.
  apply (fallback_covers_open_breaker id (fun x _ => x) (fun _ => 7) (fst (new demo_config))
    (fallback_recover (W := BreakerInner) (E := unit)) (fun w => (Err Timeout, initial))
    (mkInner Open [] (Some 0) [] 0 0) 0); reflexivity.
Defined.

(** The breaker as a decorator records each admitted call exactly once:
    a rejected call never runs the operation; an admitted one runs it once,
    hands back its result unchanged and records it as a failure exactly when
    the operation returned an error. *)
Theorem breaker_call_outcome {W E} get put clock (cb : CircuitBreaker) (op : Operation W E) w :
  breaker_inv cb (get w) ->
  exists admitted s, allow cb (clock w) (get w) = Some (admitted, s) /\
    breaker_call get put clock cb op w =
      if admitted
      then let '(r, w') := op (put s w) in
           (r, put (if is_err r then on_failure cb (clock w') (get w')
                    else on_success cb (clock w') (get w')) w')
      else (Err CircuitOpen, put s w).
Proof.
  intros I. destruct (allow_total cb (clock w) _ I) as (b & s & A). exists b, s. split; [done|].
  unfold breaker_call. rewrite A. destruct b; [|done]. destruct (op _) as [r w'].
  by destruct (is_err r).
Qed.

Lemma breaker_call_outcome_witness :
  exists admitted s, allow (fst (new demo_config)) 3 initial = Some (admitted, s) /\
    breaker_call id (fun x _ => x) (fun _ => 3) (fst (new demo_config))
      (fun w => (Err (CircuitBreaker.Operation tt), w)) initial =
      if admitted
      then (Err (CircuitBreaker.Operation tt), on_failure (fst (new demo_config)) 3 s)
      else (Err CircuitOpen, s).
Proof.
  apply (breaker_call_outcome id (fun x _ => x) (fun _ => 3) (fst (new demo_config))
           (fun w => (Err (CircuitBreaker.Operation tt), w)) initial).
  apply initial_inv, new_params.
Defined.
