(* ===== verification/RateLimiter.v ===== *)
(** The token bucket of [crates/resilience/src/rate_limiter.rs] and the
    semaphore bulkhead of [crates/resilience/src/bulkhead.rs].

    The bucket counts in binary64 as the code does. The bulkhead is written
    against the class [Semaphore], the documented interface of tokio's
    semaphore. *)
From Stdlib Require Import ZArith List Lia.
From stdpp Require Import base decidable list relations.
From S2P Require Import Prelude CircuitBreaker.

#[global] Open Scope Z_scope.

(** * The token bucket *)
Module TokenBucket.

Record Bucket : Type := mkBucket { tokens : f64; last_tick : Z }.

Record RateLimiter : Type := mkLimiter { rate : f64; burst : f64 }.

Definition new (r : f64) (b : Z) (now : Z) : RateLimiter * Bucket :=
  (mkLimiter r (f64_of_Z b), mkBucket (f64_of_Z b) now).

(** Credits the tokens accrued since the last tick, capped at [burst]. *)
Definition refill (rl : RateLimiter) (now : Z) (b : Bucket) : Bucket :=
  let elapsed := as_secs_f64 (duration_since now (last_tick b)) in
  let t := f64_add (tokens b) (f64_mul elapsed (rate rl)) in
  mkBucket (if f64_lt (burst rl) t then burst rl else t) now.

Definition allow (rl : RateLimiter) (now : Z) (b : Bucket) : bool * Bucket :=
  let b := refill rl now b in
  if f64_lt (tokens b) (f64_of_Z 1) then (false, b)
  else (true, mkBucket (f64_sub (tokens b) (f64_of_Z 1)) (last_tick b)).

Definition execute {T E W} (rl : RateLimiter) (now : Z) (b : Bucket)
    (op : W -> Result T (ResilienceError E) * W) (w : W)
  : Result T (ResilienceError E) * Bucket * W :=
  match allow rl now b with
  | (false, b') => (Err RateLimited, b', w)
  | (true, b') => let '(r, w') := op w in (r, b', w')
  end.

(** One pass of [wait]'s loop: either the token is taken ([None]) or the
    duration to sleep before the next pass ([Some]). *)
Definition wait_pass (rl : RateLimiter) (now : Z) (b : Bucket) : Bucket * option Z :=
  let b := refill rl now b in
  if f64_le (f64_of_Z 1) (tokens b)
  then (mkBucket (f64_sub (tokens b) (f64_of_Z 1)) (last_tick b), None)
  else let need := f64_sub (f64_of_Z 1) (tokens b) in
       (b, Some match try_from_secs_f64 (f64_div need (rate rl)) with
                | Some d => d
                | None => from_millis 1
                end).

(** [wait]: [clock] gives the instant of each pass and [others] what other
    callers do to the bucket during each sleep. [None]: still waiting after
    [fuel] passes. *)
Fixpoint wait (fuel : nat) (rl : RateLimiter) (clock : nat -> Z -> Z)
    (others : nat -> Bucket -> Bucket) (now : Z) (b : Bucket) : option (Z * Bucket) :=
  match fuel with
  | O => None
  | S f =>
      match wait_pass rl now b with
      | (b', None) => Some (now, b')
      | (b', Some d) => wait f rl clock others (clock f (now + d)) (others f b')
      end
  end.

(** A sequence of [allow] calls at given instants: the number admitted. *)
Fixpoint admitted (rl : RateLimiter) (times : list Z) (b : Bucket) : nat * Bucket :=
  match times with
  | [] => (0%nat, b)
  | now :: times' =>
      let '(ok, b') := allow rl now b in
      let '(n, b'') := admitted rl times' b' in
      ((if ok then S n else n), b'')
  end.

End TokenBucket.

Import TokenBucket.

Lemma f64_lt_irrefl x : f64_lt x x = false.
Proof.
  unfold f64_lt, SpecFloat.SFltb. destruct x as [[]|[]| |s m e]; try done. simpl.
  destruct s; rewrite ?Z.compare_refl; unfold Pos.compare; by rewrite ?Pos.compare_cont_refl.
Qed.

(** After every refill the token count is not above the burst, and [allow]
    admits a call exactly when the refilled count is not below one token, taking
    one token; a denied call keeps the refilled count. *)
Theorem allow_binary64 (rl : RateLimiter) now b :
  let b1 := refill rl now b in
  f64_lt (burst rl) (tokens b1) = false /\ last_tick b1 = now /\
  allow rl now b =
    if f64_lt (tokens b1) (f64_of_Z 1) then (false, b1)
    else (true, mkBucket (f64_sub (tokens b1) (f64_of_Z 1)) now).
Proof.
  split; [|done]. simpl. set (t := f64_add _ _). destruct (f64_lt (burst rl) t) eqn:E; [apply f64_lt_irrefl|done].
Qed.

(** A third of a token a second, rounded to binary64, makes a whole token in
    three seconds: with a burst of one, calls at 0, 1, 2 and 3 seconds admit
    two, and the rate times the time is less than one. *)
Definition third : f64 := f64_div (f64_of_Z 1) (f64_of_Z 3).
Example rounding_admits_early :
  let '(rl, b) := TokenBucket.new third 1 0 in
  fst (admitted rl [0; 1 * NANOS_PER_SEC; 2 * NANOS_PER_SEC; 3 * NANOS_PER_SEC] b) = 2%nat.
Proof. vm_compute. reflexivity. Qed.

(** * The bulkhead *)

(** tokio's [Semaphore], by its documentation: [try_acquire] takes a permit
    iff one is available; dropping the permit returns it. *)
Class Semaphore (S : Type) : Type := {
  sem_new : nat -> S;
  available_permits : S -> nat;
  try_acquire : S -> option S;
  release : S -> S;
  available_new n : available_permits (sem_new n) = n;
  available_acquire s s' : try_acquire s = Some s' -> available_permits s = Datatypes.S (available_permits s');
  acquire_none s : try_acquire s = None <-> available_permits s = 0%nat;
  available_release s : available_permits (release s) = Datatypes.S (available_permits s)
}.

#[refine] #[export] Instance nat_semaphore : Semaphore nat := {
  sem_new n := n;
  available_permits n := n;
  try_acquire n := match n with O => None | Datatypes.S k => Some k end;
  release n := Datatypes.S n
}.
Proof.
  - done.
  - intros [|k] s'; [done|]. by intros [= <-].
  - by intros [].
  - done.
Defined.

Section Bulkhead.
Context {P : Type} `{Semaphore P}.

Record Bulkhead : Type := mkBulkhead { sem : P; max_concurrent : nat }.

Definition bulkhead_new (max : nat) : Bulkhead :=
  let m := Nat.max max 1 in mkBulkhead (sem_new m) m.

Definition available_slots (b : Bulkhead) : nat := available_permits (sem b).

Definition with_sem (b : Bulkhead) (s : P) : Bulkhead := mkBulkhead s (max_concurrent b).

(** A bulkhead together with the calls inside it: [running] calls hold a
    permit, [waiting] ones are queued in [execute]. *)
Record Site : Type := mkSite { bulkhead : Bulkhead; running : nat; waiting : nat }.

(** The steps of [execute] and [try_execute] as seen by the bulkhead; [leave]
    is the permit's drop, which runs when the operation returns and when its
    future is dropped. *)
Inductive site_step : Site -> Site -> Prop :=
| step_enter b r w : site_step (mkSite b r w) (mkSite b r (Datatypes.S w))
| step_acquire b r w s :
    try_acquire (sem b) = Some s ->
    site_step (mkSite b r (Datatypes.S w)) (mkSite (with_sem b s) (Datatypes.S r) w)
| step_cancel b r w : site_step (mkSite b r (Datatypes.S w)) (mkSite b r w)
| step_try b r w s :
    try_acquire (sem b) = Some s ->
    site_step (mkSite b r w) (mkSite (with_sem b s) (Datatypes.S r) w)
| step_leave b r w :
    site_step (mkSite b (Datatypes.S r) w) (mkSite (with_sem b (release (sem b))) r w).

(** [try_execute] run to completion: [BulkheadFull] without a free slot. *)
Definition try_execute {T E W} (b : Bulkhead) (op : W -> Result T (ResilienceError E) * W) (w : W)
  : Result T (ResilienceError E) * Bulkhead * W :=
  match try_acquire (sem b) with
  | Some s => let '(r, w') := op w in (r, with_sem b (release s), w')
  | None => (Err BulkheadFull, b, w)
  end.

Definition site_inv (x : Site) : Prop :=
  (available_slots (bulkhead x) + running x = max_concurrent (bulkhead x))%nat.

Lemma site_step_inv x y : site_inv x -> site_step x y ->
  site_inv y /\ max_concurrent (bulkhead y) = max_concurrent (bulkhead x).
Proof.
  intros I St. destruct St as [b r w|b r w s A|b r w|b r w s A|b r w];
    unfold site_inv, available_slots in *; simpl in *; try (split; done).
  - apply available_acquire in A. split; [lia|done].
  - apply available_acquire in A. split; [lia|done].
  - rewrite available_release. split; [lia|done].
Qed.

Lemma bulkhead_reachable max x :
  rtc site_step (mkSite (bulkhead_new max) 0 0) x ->
  site_inv x /\ max_concurrent (bulkhead x) = Nat.max max 1.
Proof.
  set (s0 := mkSite _ _ _). assert (site_inv s0 /\ max_concurrent (bulkhead s0) = Nat.max max 1) as B.
  { split; [|done]. unfold site_inv, available_slots. simpl. rewrite available_new. lia. }
  clearbody s0. revert B. intros B R. revert B.
  induction R as [|a b c Hs _ IH]; [done|]. intros [I M].
  destruct (site_step_inv _ _ I Hs) as [I' M']. apply IH. split; [done|congruence].
Qed.

End Bulkhead.
Arguments Bulkhead : clear implicits.
Arguments Site : clear implicits.

(** The concurrency cap: however callers enter, wait, are cancelled and
    leave, a bulkhead built for [max] calls never has more than
    [max(max, 1)] of them inside, its free slots plus the running calls are
    that cap, and a non-blocking call is refused exactly when the cap is
    reached, without running its operation. *)
Theorem bulkhead_cap {P} `{Semaphore P} {T E W} max (x : Site P)
    (op : W -> Result T (ResilienceError E) * W) w :
  rtc site_step (mkSite (bulkhead_new max) 0 0) x ->
  (running x <= Nat.max max 1)%nat /\
  (available_slots (bulkhead x) + running x = Nat.max max 1)%nat /\
  (running x = Nat.max max 1 <-> try_execute (bulkhead x) op w = (Err BulkheadFull, bulkhead x, w)
                                 /\ try_acquire (sem (bulkhead x)) = None).
Proof.
  intros R. destruct (bulkhead_reachable _ _ R) as [I M]. unfold site_inv in I.
  rewrite M in I. split; [lia|]. split; [done|].
  unfold try_execute. rewrite acquire_none. unfold available_slots in I. split.
  - intros F. assert (available_permits (sem (bulkhead x)) = 0%nat) as Z by lia.
    rewrite (proj2 (acquire_none _) Z). by split.
  - intros [_ Z]. lia.
Qed.

Lemma bulkhead_cap_witness :
  let x := mkSite (mkBulkhead 0%nat 1) 1 0 in
  let op := fun w : nat => (Ok tt : Result unit (ResilienceError unit), w) in
  (running x <= Nat.max 0 1)%nat /\
  (available_slots (bulkhead x) + running x = Nat.max 0 1)%nat /\
  (running x = Nat.max 0 1 <-> try_execute (bulkhead x) op 5%nat = (Err BulkheadFull, bulkhead x, 5%nat)
                               /\ try_acquire (sem (bulkhead x)) = None).
Proof.
  apply (bulkhead_cap 0 (mkSite (mkBulkhead 0%nat 1) 1 0)
           (fun w : nat => (Ok tt : Result unit (ResilienceError unit), w)) 5%nat).
  eapply rtc_l; [|apply rtc_refl]. apply (step_try (mkBulkhead 1%nat 1) 0 0 0%nat). reflexivity.
Defined.
