(* ===== verification/Retry.v ===== *)
(** The retry combinator of [crates/resilience/src/retry.rs].

    [powi] (LLVM's intrinsic, whose last bits the standard library leaves
    unspecified) and the jitter source are parameters. The operation is a
    state transformer over a world [W]; the sleeps between attempts are
    returned as the list of durations slept. *)
From Stdlib Require Import ZArith List Lia Floats.SpecFloat.
From stdpp Require Import base decidable list.
From S2P Require Import Prelude CircuitBreaker.

Definition DEFAULT_MAX_ATTEMPTS : nat := 3.

Record RetryConfig : Type := mkRetryConfig {
  max_attempts : nat;
  delay : Z;
  backoff : f64;
  max_delay : option Z;
  jitter : f64
}.

Definition RetryConfig_default : RetryConfig :=
  mkRetryConfig DEFAULT_MAX_ATTEMPTS 0 (f64_of_Z 1) None (f64_of_Z 0).

Section Retry.
Variable powi : f64 -> Z -> f64.

(** [attempt as i32]. *)
Definition as_i32 (n : nat) : Z :=
  let r := Z.of_nat n mod 2 ^ 32 in if r <? 2 ^ 31 then r else r - 2 ^ 32.

Definition wait_with (c : RetryConfig) (attempt : nat) (sample : f64) : Z :=
  let base := as_secs_f64 (delay c) in
  let computed := f64_mul base (powi (backoff c) (as_i32 attempt)) in
  let computed :=
    if f64_eq (jitter c) (f64_of_Z 0) then computed
    else f64_add computed (f64_mul sample computed) in
  let capped :=
    match max_delay c with
    | Some cap => f64_min computed (as_secs_f64 cap)
    | None => computed
    end in
  let secs := f64_max capped (f64_of_Z 0) in
  if f64_is_finite secs
  then match try_from_secs_f64 secs with Some d => d | None => 0 end
  else 0.

Context {W T E : Type}.

Record Retry : Type := mkRetry {
  config : RetryConfig;
  retry_on : ResilienceError E -> bool;
  jitter_fn : nat -> f64 -> f64
}.

Definition with_config (r : Retry) (c : RetryConfig) : Retry :=
  mkRetry c (retry_on r) (jitter_fn r).

Definition from_config (default_jitter : nat -> f64 -> f64) (c : RetryConfig) : Retry :=
  mkRetry (mkRetryConfig (if (max_attempts c <? 1)%nat then 1 else max_attempts c)
             (delay c) (backoff c) (max_delay c) (jitter c))
          (fun _ => true) default_jitter.

Definition set_max_attempts (r : Retry) (attempts : nat) : Retry :=
  let c := config r in
  with_config r (mkRetryConfig (Nat.max attempts 1) (delay c) (backoff c) (max_delay c) (jitter c)).

Definition set_jitter (r : Retry) (j : f64) : Retry :=
  let c := config r in
  with_config r (mkRetryConfig (max_attempts c) (delay c) (backoff c) (max_delay c)
                   (f64_clamp j (f64_of_Z 0) (f64_of_Z 1))).

Definition set_retry_on (r : Retry) (predicate : ResilienceError E -> bool) : Retry :=
  mkRetry (config r) predicate (jitter_fn r).

Definition delay_for (r : Retry) (attempt : nat) : Z := wait_with (config r) attempt (f64_of_Z 0).







End Retry.
Arguments Retry : clear implicits.


(** An uncapped backoff that outgrows the range of [Duration] (or of
    binary64) is slept as zero: without [max_delay] and jitter, when
    [delay * backoff^attempt] is infinite or does not convert to a
    [Duration], the wait is [Duration::ZERO], so the retries that should be
    the most spaced out follow each other immediately. *)
Theorem overflowing_backoff_waits_zero powi c attempt sample :
  max_delay c = None -> f64_eq (jitter c) (f64_of_Z 0) = true ->
  let computed := f64_mul (as_secs_f64 (delay c)) (powi (backoff c) (as_i32 attempt)) in
  f64_lt (f64_of_Z 0) computed = true -> try_from_secs_f64 computed = None ->
  wait_with powi c attempt sample = 0.
Proof.
  intros M J computed P N. unfold wait_with. rewrite M, J. fold computed.
  assert (f64_max computed (f64_of_Z 0) = computed) as ->.
  { unfold f64_max. destruct computed as [[]|[]| |[] ? ?]; simpl in *; try done. }
  rewrite N. by destruct (f64_is_finite computed).
Qed.

(** Repeated multiplication: one admissible [powi]. *)
Definition powi_mul (x : f64) (n : Z) : f64 :=
  Nat.iter (Z.to_nat n) (f64_mul x) (f64_of_Z 1).

Lemma overflowing_backoff_waits_zero_witness :
  wait_with powi_mul (mkRetryConfig 100 (from_secs 1) (f64_of_Z 2) None (f64_of_Z 0)) 64 (f64_of_Z 0) = 0.
Proof.
  apply overflowing_backoff_waits_zero; vm_compute; reflexivity.
Defined.

Example backoff_doubles :
  map (fun a => wait_with powi_mul
         (mkRetryConfig 100 (from_millis 100) (f64_of_Z 2) None (f64_of_Z 0)) a (f64_of_Z 0))
    [0; 1; 2; 63]%nat
  = [from_millis 100; from_millis 200; from_millis 400; 922337203685477632000000000].
Proof. vm_compute. reflexivity. Qed.

