(* ===== verification/Str.v ===== *)
(** Rust strings as sequences of Unicode scalar values, with the [str]
    methods the sources use: splitting, searching, trimming, prefix and suffix
    stripping, decimal printing and [i64] parsing, and the round-trip lemmas
    about them. *)
From Stdlib Require Import ZArith NArith List Lia Ascii String.
From stdpp Require Import base decidable list.
From S2P Require Import Prelude.

Definition char : Type := N.
Definition str : Type := list char.

#[export] Instance char_eq_dec : EqDecision char := N.eq_dec.
#[export] Instance str_eq_dec : EqDecision str := list_eq_dec.

(** An ASCII literal. *)
Definition lit (s : String.string) : str := map N_of_ascii (String.list_ascii_of_string s).
Definition chr (a : Ascii.ascii) : char := N_of_ascii a.
Arguments lit s%_string_scope.
Arguments chr a%_char_scope.

Definition str_eqb (a b : str) : bool := bool_decide (a = b).

Definition is_digit (c : char) : bool := (48 <=? c)%N && (c <=? 57)%N.

(** [char::is_whitespace]: the Unicode White_Space property. *)
Definition is_whitespace (c : char) : bool :=
  ((9 <=? c)%N && (c <=? 13)%N) || (c =? 32)%N || (c =? 133)%N || (c =? 160)%N ||
  (c =? 5760)%N || ((8192 <=? c)%N && (c <=? 8202)%N) || (c =? 8232)%N || (c =? 8233)%N ||
  (c =? 8239)%N || (c =? 8287)%N || (c =? 12288)%N.

(** [s.split(c)]: always at least one part. *)
Fixpoint split (c : char) (s : str) : list str :=
  match s with
  | [] => [[]]
  | x :: s' =>
      if (x =? c)%N then [] :: split c s'
      else match split c s' with
           | [] => [[x]]
           | p :: ps => (x :: p) :: ps
           end
  end.

(** [parts.join(sep)]. *)
Fixpoint join (sep : str) (parts : list str) : str :=
  match parts with
  | [] => []
  | [p] => p
  | p :: ps => p ++ sep ++ join sep ps
  end.

(** [s.split_once(c)]. *)
Fixpoint split_once (c : char) (s : str) : option (str * str) :=
  match s with
  | [] => None
  | x :: s' =>
      if (x =? c)%N then Some ([], s')
      else (fun '(a, b) => (x :: a, b)) <$> split_once c s'
  end.

(** [s.rsplit_once(c)]: the text around the last occurrence. *)
Fixpoint rsplit_once (c : char) (s : str) : option (str * str) :=
  match s with
  | [] => None
  | x :: s' =>
      match rsplit_once c s' with
      | Some (a, b) => Some (x :: a, b)
      | None => if (x =? c)%N then Some ([], s') else None
      end
  end.

Definition to_ascii_lowercase : str -> str :=
  map (fun c => if (65 <=? c)%N && (c <=? 90)%N then (c + 32)%N else c).

(** [s.eq_ignore_ascii_case(t)]. *)
Definition eq_ignore_ascii_case (s t : str) : bool := str_eqb (to_ascii_lowercase s) (to_ascii_lowercase t).

(** [s.lines()]: a final empty line is dropped, and the carriage return before
    a line feed. *)
Definition strip_cr (s : str) : str :=
  match rev s with c :: r => if (c =? 13)%N then rev r else s | [] => s end.
Fixpoint terminated (l : list str) : list str :=
  match l with
  | [] => []
  | [x] => match x with [] => [] | _ => [x] end
  | x :: l => strip_cr x :: terminated l
  end.
Definition lines (s : str) : list str := terminated (split 10%N s).

Definition contains (c : char) (s : str) : bool := existsb (N.eqb c) s.

(** [s.strip_prefix(p)] and [s.strip_suffix(p)]. *)
Fixpoint strip_prefix (p s : str) : option str :=
  match p, s with
  | [], _ => Some s
  | x :: p', y :: s' => if (x =? y)%N then strip_prefix p' s' else None
  | _ :: _, [] => None
  end.

Definition strip_suffix (p s : str) : option str :=
  @rev char <$> strip_prefix (rev p) (rev s).

Definition starts_with (p s : str) : bool :=
  match strip_prefix p s with Some _ => true | None => false end.

(** [s.find(pat)]: the position of the first occurrence. *)
Fixpoint find (pat s : str) : option nat :=
  if starts_with pat s then Some 0%nat
  else match s with
       | [] => None
       | _ :: s' => S <$> find pat s'
       end.

(** [s.replace(from, to)] for a single character and a string. *)
Definition replace_char (from : char) (to : str) (s : str) : str :=
  flat_map (fun c => if (c =? from)%N then to else [c]) s.

(** The longest prefix of characters satisfying [p]. *)
Fixpoint span (p : char -> bool) (s : str) : str * str :=
  match s with
  | [] => ([], [])
  | c :: s' => if p c then let '(a, b) := span p s' in (c :: a, b) else ([], s)
  end.

Fixpoint trim_start (s : str) : str :=
  match s with
  | c :: s' => if is_whitespace c then trim_start s' else s
  | [] => []
  end.

Definition trim_end (s : str) : str := rev (trim_start (rev s)).
Definition trim (s : str) : str := trim_end (trim_start s).

(** [s.split_whitespace()]: the maximal runs of non-white-space characters. *)
Fixpoint split_whitespace_aux (word : str) (s : str) : list str :=
  let flush := match word with [] => [] | _ => [rev word] end in
  match s with
  | [] => flush
  | c :: s' =>
      if is_whitespace c then flush ++ split_whitespace_aux [] s'
      else split_whitespace_aux (c :: word) s'
  end.
Definition split_whitespace (s : str) : list str := split_whitespace_aux [] s.

(** * Numbers *)

Definition I64_MIN : Z := - 2 ^ 63.
Definition I64_MAX : Z := 2 ^ 63 - 1.
Definition U32_MAX : Z := 2 ^ 32 - 1.

Definition digit_value (c : char) : Z := Z.of_N c - 48.
Definition digit_char (d : Z) : char := Z.to_N (d + 48).

Fixpoint parse_digits (s : str) (acc : Z) : option Z :=
  match s with
  | [] => Some acc
  | c :: s' => if is_digit c then parse_digits s' (acc * 10 + digit_value c) else None
  end.

Definition parse_unsigned (s : str) : option Z :=
  match s with [] => None | _ => parse_digits s 0 end.

Definition in_i64 (z : Z) : bool := (I64_MIN <=? z) && (z <=? I64_MAX).

(** [s.parse::<i64>()]: an optional sign, then at least one digit, in range. *)
Definition parse_i64 (s : str) : option Z :=
  let z := match s with
           | c :: s' =>
               if (c =? 45)%N then Z.opp <$> parse_unsigned s'
               else if (c =? 43)%N then parse_unsigned s'
               else parse_unsigned s
           | [] => None
           end in
  match z with
  | Some z => if in_i64 z then Some z else None
  | None => None
  end.

(** Decimal rendering of a non-negative integer. *)
Fixpoint show_aux (fuel : nat) (n : Z) (acc : str) : str :=
  match fuel with
  | O => acc
  | S f => if n <? 10 then digit_char n :: acc
           else show_aux f (n / 10) (digit_char (n mod 10) :: acc)
  end.
Definition show (n : Z) : str := show_aux (S (Z.to_nat (Z.log2 n))) n [].

(** * Lemmas: numbers *)

Lemma digit_char_spec d : 0 <= d < 10 ->
  is_digit (digit_char d) = true /\ digit_value (digit_char d) = d.
Proof.
  intros D. unfold is_digit, digit_value, digit_char. split; [|lia].
  apply andb_true_iff. split; apply N.leb_le; lia.
Qed.


(** The digits printed are parsed back on top of a zero accumulator. *)
Lemma parse_show_aux fuel n acc :
  0 <= n -> n < 2 ^ Z.of_nat fuel -> (1 <= fuel)%nat ->
  parse_digits (show_aux fuel n acc) 0 = parse_digits acc n.
Proof.
  revert n acc. induction fuel as [|fuel IH]; intros n acc N L F; [lia|]. simpl.
  destruct (Z.ltb_spec n 10).
  - simpl. destruct (digit_char_spec n) as [-> ->]; [lia|]. f_equal; lia.
  - assert (fuel <> 0%nat) as NZ by (intros ->; simpl in L; lia).
    assert (n / 10 < 2 ^ Z.of_nat fuel) as L'.
    { rewrite Nat2Z.inj_succ, Z.pow_succ_r in L by lia.
      apply Z.div_lt_upper_bound; lia. }
    rewrite IH by (try apply Z.div_pos; lia). simpl.
    destruct (digit_char_spec (n mod 10)) as [-> ->]; [by apply Z.mod_pos_bound|].
    f_equal. pose proof (Z.div_mod n 10). lia.
Qed.

Lemma show_aux_nonempty fuel n acc : (1 <= fuel)%nat -> show_aux fuel n acc <> [].
Proof.
  revert n acc. induction fuel as [|fuel IH]; intros n acc F; [lia|]. simpl.
  destruct (n <? 10); [done|]. destruct fuel; [done|]. apply IH. lia.
Qed.

Lemma show_fuel n : 0 <= n -> n < 2 ^ Z.of_nat (S (Z.to_nat (Z.log2 n))).
Proof.
  intros N. rewrite Nat2Z.inj_succ, Z2Nat.id by apply Z.log2_nonneg.
  destruct (Z.eq_dec n 0) as [->|]; [done|]. apply Z.log2_spec. lia.
Qed.

Lemma show_nonempty n : show n <> [].
Proof. apply show_aux_nonempty. lia. Qed.

Lemma show_aux_digits fuel n acc :
  0 <= n -> Forall (fun c => is_digit c = true) acc ->
  Forall (fun c => is_digit c = true) (show_aux fuel n acc).
Proof.
  revert n acc. induction fuel as [|fuel IH]; intros n acc N A; [done|]. simpl.
  destruct (Z.ltb_spec n 10).
  - constructor; [|done]. apply digit_char_spec. lia.
  - apply IH; [apply Z.div_pos; lia|]. constructor; [|done].
    apply digit_char_spec, Z.mod_pos_bound. lia.
Qed.

Lemma show_digits n : 0 <= n -> Forall (fun c => is_digit c = true) (show n).
Proof. intros. by apply show_aux_digits. Qed.

Lemma parse_unsigned_show n : 0 <= n -> parse_unsigned (show n) = Some n.
Proof.
  intros N. unfold parse_unsigned. pose proof (show_nonempty n).
  destruct (show n) eqn:E; [done|]. rewrite <- E. unfold show.
  by rewrite parse_show_aux by (try apply show_fuel; lia).
Qed.

Lemma parse_i64_show n : 0 <= n <= I64_MAX -> parse_i64 (show n) = Some n.
Proof.
  intros [N M]. pose proof (show_digits n N) as D. pose proof (parse_unsigned_show n N) as P.
  unfold parse_i64. destruct (show n) as [|c s] eqn:E; [by apply show_nonempty in E|].
  inversion D as [|? ? Dc]; subst. unfold is_digit in Dc. apply andb_true_iff in Dc as [D1 D2].
  apply N.leb_le in D1, D2.
  rewrite (proj2 (N.eqb_neq c 45)), (proj2 (N.eqb_neq c 43)) by lia. rewrite P. simpl.
  unfold in_i64. rewrite (proj2 (Z.leb_le _ _)), (proj2 (Z.leb_le _ _)); [done|done|].
  unfold I64_MIN. lia.
Qed.

(** * Lemmas: splitting *)

Lemma split_no_sep c s : ~ In c s -> split c s = [s].
Proof.
  induction s as [|x s IH]; simpl; intros N; [done|].
  rewrite (proj2 (N.eqb_neq x c)) by tauto. by rewrite IH by tauto.
Qed.

Lemma split_cons_sep c p s : ~ In c p -> split c (p ++ c :: s) = p :: split c s.
Proof.
  induction p as [|x p IH]; simpl; intros N; [by rewrite N.eqb_refl|].
  rewrite (proj2 (N.eqb_neq x c)) by tauto. by rewrite IH by tauto.
Qed.

Lemma split_join c parts :
  parts <> [] -> Forall (fun p => ~ In c p) parts -> split c (join [c] parts) = parts.
Proof.
  induction parts as [|p ps IH]; intros N F; [done|]. inversion F as [|? ? Fp Fps]; subst.
  destruct ps as [|q qs]; [by apply split_no_sep|].
  change (join [c] (p :: q :: qs)) with (p ++ c :: join [c] (q :: qs)).
  by rewrite split_cons_sep, IH by done.
Qed.

Lemma split_once_sep c a b : ~ In c a -> split_once c (a ++ c :: b) = Some (a, b).
Proof.
  induction a as [|x a IH]; simpl; intros N; [by rewrite N.eqb_refl|].
  rewrite (proj2 (N.eqb_neq x c)) by tauto. by rewrite IH by tauto.
Qed.

Lemma split_once_none c s : ~ In c s -> split_once c s = None.
Proof.
  induction s as [|x s IH]; simpl; intros N; [done|].
  rewrite (proj2 (N.eqb_neq x c)) by tauto. by rewrite IH by tauto.
Qed.

Lemma rsplit_once_none c s : ~ In c s -> rsplit_once c s = None.
Proof.
  induction s as [|x s IH]; simpl; intros N; [done|]. rewrite IH by tauto.
  by rewrite (proj2 (N.eqb_neq x c)) by tauto.
Qed.

Lemma rsplit_once_sep c a b : ~ In c b -> rsplit_once c (a ++ c :: b) = Some (a, b).
Proof.
  intros N. induction a as [|x a IH]; simpl; [|by rewrite IH].
  by rewrite rsplit_once_none, N.eqb_refl.
Qed.

Lemma contains_spec c s : contains c s = true <-> In c s.
Proof.
  unfold contains. rewrite existsb_exists. split.
  - intros (x & I & E). by apply N.eqb_eq in E as ->.
  - intros I. exists c. by rewrite N.eqb_refl.
Qed.

Lemma contains_false c s : contains c s = false <-> ~ In c s.
Proof. rewrite <- contains_spec. by destruct (contains c s). Qed.

Lemma not_in_digits c s :
  is_digit c = false -> Forall (fun x => is_digit x = true) s -> ~ In c s.
Proof. intros D F I. rewrite List.Forall_forall in F. rewrite (F c I) in D. done. Qed.

Lemma span_app p s rest : forallb p s = true -> (forall c, head rest = Some c -> p c = false) -> span p (s ++ rest) = (s, rest).
Proof.
  intros F R. induction s as [|c s IH]; simpl in *.
  - destruct rest as [|c r]; [done|]. simpl. by rewrite R.
  - apply andb_true_iff in F as [-> F]. by rewrite IH.
Qed.

Lemma strip_prefix_app p s : strip_prefix p (p ++ s) = Some s.
Proof. induction p as [|x p IH]; simpl; [done|]. by rewrite N.eqb_refl. Qed.

Lemma strip_prefix_Some p s r : strip_prefix p s = Some r <-> s = p ++ r.
Proof.
  split; [|intros ->; apply strip_prefix_app]. revert s.
  induction p as [|x p IH]; intros s; simpl; [congruence|].
  destruct s as [|y s]; [done|]. destruct (N.eqb_spec x y) as [->|]; [|done].
  intros H. by rewrite (IH _ H).
Qed.

Lemma strip_suffix_Some p s r : strip_suffix p s = Some r <-> s = r ++ p.
Proof.
  unfold strip_suffix. split.
  - destruct (strip_prefix (rev p) (rev s)) as [q|] eqn:E; [|done]. intros [= <-].
    apply strip_prefix_Some in E. apply (f_equal (@rev char)) in E.
    by rewrite rev_involutive, rev_app_distr, rev_involutive in E.
  - intros ->. rewrite rev_app_distr, strip_prefix_app. cbn. by rewrite rev_involutive.
Qed.

(** * Lemmas: white space *)

Definition no_whitespace (s : str) : Prop := Forall (fun c => is_whitespace c = false) s.

Lemma split_whitespace_aux_word word s rest :
  no_whitespace s ->
  split_whitespace_aux word (s ++ rest) = split_whitespace_aux (rev s ++ word) rest.
Proof.
  revert word. induction s as [|c s IH]; intros word N; [done|]. inversion N; subst. simpl.
  rewrite H1, IH by done. by rewrite <- app_assoc.
Qed.

(** Non-empty words joined by single spaces are split back. *)
Lemma split_whitespace_join words :
  Forall (fun w => w <> [] /\ no_whitespace w) words ->
  split_whitespace (join [32%N] words) = words.
Proof.
  unfold split_whitespace. induction words as [|w ws IH]; intros F; [done|].
  inversion F as [|? ? [Nw Ww] Fws]; subst. destruct ws as [|v vs].
  - simpl. rewrite <- (app_nil_r w) at 1. rewrite split_whitespace_aux_word by done.
    rewrite app_nil_r. simpl. rewrite rev_involutive.
    destruct (rev w) eqn:E; [|done]. apply (f_equal (@rev char)) in E.
    by rewrite rev_involutive in E.
  - change (join [32%N] (w :: v :: vs)) with (w ++ 32%N :: join [32%N] (v :: vs)).
    rewrite split_whitespace_aux_word by done. rewrite app_nil_r. cbn [split_whitespace_aux].
    change (is_whitespace 32%N) with true. cbn match. rewrite IH by done.
    rewrite rev_involutive. destruct (rev w) eqn:E; [|done].
    apply (f_equal (@rev char)) in E. by rewrite rev_involutive in E.
Qed.

Lemma trim_start_id s : (forall c, head s = Some c -> is_whitespace c = false) -> trim_start s = s.
Proof. destruct s as [|c s]; simpl; intros H; [done|]. by rewrite H. Qed.

(** A string that neither starts nor ends with white space is its own trim. *)
Lemma trim_id s :
  (forall c, head s = Some c -> is_whitespace c = false) ->
  (forall c, head (rev s) = Some c -> is_whitespace c = false) -> trim s = s.
Proof.
  intros H T. unfold trim, trim_end. rewrite (trim_start_id s) by done.
  rewrite trim_start_id by done. apply rev_involutive.
Qed.

Lemma replace_char_id c to s : ~ In c s -> replace_char c to s = s.
Proof.
  induction s as [|x s IH]; simpl; intros N; [done|].
  rewrite (proj2 (N.eqb_neq x c)) by tauto. simpl. by rewrite IH by tauto.
Qed.

(** A join of non-empty words starts with the first and ends with the last. *)
Lemma join_last sep words :
  words <> [] -> exists p w, join sep words = p ++ w /\ In w words.
Proof.
  induction words as [|w ws IH]; intros N; [done|]. destruct ws as [|v vs].
  - exists [], w. simpl. auto.
  - destruct IH as (p & x & E & I); [done|].
    exists (w ++ sep ++ p), x. change (join sep (w :: v :: vs)) with (w ++ sep ++ join sep (v :: vs)).
    rewrite E, <- !app_assoc. split; [done|]. by right.
Qed.

Lemma head_app_nonempty {A} (a b : list A) : a <> [] -> head (a ++ b) = head a.
Proof. by destruct a. Qed.

Lemma head_in {A} (a : list A) x : head a = Some x -> In x a.
Proof. destruct a; simpl; [done|]. intros [= ->]. auto. Qed.

Lemma rev_nonempty {A} (a : list A) : a <> [] -> rev a <> [].
Proof. intros N E. apply (f_equal (@rev A)) in E. by rewrite rev_involutive in E. Qed.

Lemma trim_join words :
  Forall (fun w => w <> [] /\ no_whitespace w) words ->
  trim (join [32%N] words) = join [32%N] words.
Proof.
  intros F. destruct words as [|w ws] eqn:Ew; [done|].
  assert (forall v c, In v words -> In c v -> is_whitespace c = false) as WS.
  { intros v c Iv Ic. subst. rewrite List.Forall_forall in F. destruct (F v Iv) as [_ W].
    unfold no_whitespace in W. rewrite List.Forall_forall in W. auto. }
  rewrite <- Ew in *. apply trim_id; intros c Hc.
  - assert (In c w) as Ic.
    { apply head_in. subst. inversion F as [|? ? [N _] _]; subst.
      rewrite <- Hc. symmetry. destruct ws as [|u us]; [done|].
      change (join [32%N] (w :: u :: us)) with (w ++ [32%N] ++ join [32%N] (u :: us)).
      by apply head_app_nonempty. }
    apply (WS w c); [subst; by left|done].
  - destruct (join_last [32%N] words) as (p & v & E & I); [by subst|].
    rewrite E, rev_app_distr, head_app_nonempty in Hc; cycle 1.
    { apply rev_nonempty. rewrite List.Forall_forall in F. by apply F. }
    apply (WS v c); [done|]. by apply in_rev, head_in.
Qed.

(** * Words and separators *)

Lemma split_nonempty c s : split c s <> [].
Proof. destruct s as [|x s]; simpl; [done|]. destruct (x =? c)%N; [done|]. by destruct (split c s). Qed.

Lemma split_app_sep c a b : split c (a ++ c :: b) = split c a ++ split c b.
Proof.
  induction a as [|x a IH]; simpl; [by rewrite N.eqb_refl|].
  destruct (x =? c)%N; [by rewrite IH|]. rewrite IH.
  pose proof (split_nonempty c a) as N. by destruct (split c a).
Qed.

Lemma join_split c s : join [c] (split c s) = s.
Proof.
  induction s as [|x s IH]; [done|]. simpl. pose proof (split_nonempty c s) as N.
  destruct (N.eqb_spec x c) as [->|_]; destruct (split c s) as [|p ps]; try done.
  - simpl in *. by rewrite <- IH.
  - destruct ps as [|p2 ps]; simpl in *; by rewrite <- IH.
Qed.

Lemma join_app sep a b : a <> [] -> b <> [] -> join sep (a ++ b) = join sep a ++ sep ++ join sep b.
Proof.
  intros Na Nb. induction a as [|x a IH]; [done|]. destruct a as [|y a]; simpl.
  - by destruct b.
  - simpl in IH. rewrite IH by done. by rewrite <- !app_assoc.
Qed.

Lemma split_words c s : Forall (fun w => ~ In c w) (split c s).
Proof.
  induction s as [|x s IH]; simpl; [apply List.Forall_cons; [by intros []|apply List.Forall_nil]|].
  destruct (N.eqb_spec x c) as [->|N]; [apply List.Forall_cons; [by intros []|done]|].
  destruct (split c s) as [|p ps].
  - apply List.Forall_cons; [intros [?|[]]; congruence|apply List.Forall_nil].
  - inversion IH; subst. apply List.Forall_cons; [|done]. intros [?|?]; [congruence|done].
Qed.

Lemma starts_with_word c w tail w2 r :
  ~ In c w -> ~ In c w2 -> w <> w2 -> r = [] \/ head r = Some c ->
  starts_with (w ++ c :: tail) (w2 ++ r) = false.
Proof.
  intros W W2 N R. unfold starts_with.
  destruct (strip_prefix (w ++ c :: tail) (w2 ++ r)) as [rest|] eqn:E; [|done].
  apply strip_prefix_Some in E. rewrite <- app_assoc in E. simpl in E.
  assert (split_once c (w2 ++ r) = Some (w, tail ++ rest)) as S by (rewrite E; by apply split_once_sep).
  destruct R as [->|R].
  - rewrite app_nil_r, split_once_none in S; done.
  - destruct r as [|c' r]; [done|]. injection R as ->. rewrite split_once_sep in S by done. by injection S.
Qed.

(** Searching for [_w_...] skips a text whose words are not [w]. *)
Lemma find_skip_word c w tail u r :
  ~ In c u -> find (c :: w ++ c :: tail) (u ++ r) = Nat.add (List.length u) <$> find (c :: w ++ c :: tail) r.
Proof.
  induction u as [|x u IH]; intros N; cbn [app List.length].
  - by destruct (find _ r).
  - cbn [find starts_with strip_prefix]. unfold starts_with. cbn [strip_prefix].
    destruct (N.eqb_spec c x) as [->|_]; [exfalso; apply N; by left|].
    rewrite IH by (intros I; apply N; by right). by destruct (find _ r).
Qed.

Lemma find_skip_words c w tail ws r :
  ~ In c w -> ws <> [] -> Forall (fun x => ~ In c x /\ x <> w) ws -> r = [] \/ head r = Some c ->
  find (c :: w ++ c :: tail) (join [c] ws ++ r) =
    Nat.add (List.length (join [c] ws)) <$> find (c :: w ++ c :: tail) r.
Proof.
  intros W N F R. induction F as [|u ws [Hu Nu] F IH]; [done|]. destruct ws as [|v ws].
  { by apply find_skip_word. }
  change (join [c] (u :: v :: ws)) with (u ++ c :: join [c] (v :: ws)).
  rewrite <- app_assoc, find_skip_word by done. cbn [app].
  assert (starts_with (c :: w ++ c :: tail) (c :: join [c] (v :: ws) ++ r) = false) as S.
  { unfold starts_with. cbn [strip_prefix]. rewrite N.eqb_refl. fold (starts_with (w ++ c :: tail) (join [c] (v :: ws) ++ r)).
    inversion F as [|? ? [Hv Nv] _]; subst. destruct ws as [|z ws].
    - by apply starts_with_word.
    - change (join [c] (v :: z :: ws)) with (v ++ c :: join [c] (z :: ws)). rewrite <- app_assoc.
      apply starts_with_word; auto. }
  cbn [find]. rewrite S. rewrite IH by done. rewrite !length_app. cbn [List.length].
  destruct (find (c :: w ++ c :: tail) r); simpl; [|done]. f_equal. lia.
Qed.
