(* ===== verification/Unicode.v ===== *)
(** What the crates use of Unicode and of UTF-8: the standard library's tables
    of letter case and of character classes, as parameters with what they say
    of ASCII, and the encoding. *)
From Stdlib Require Import Ascii String.
From Stdlib Require Import ZArith NArith List Lia.
From stdpp Require Import base decidable list.
From S2P Require Import Prelude Str.

(** * ASCII *)

(** [char::to_ascii_uppercase], and ASCII's classes. *)
Definition is_upper (c : char) : bool := (65 <=? c)%N && (c <=? 90)%N.
Definition is_lower (c : char) : bool := (97 <=? c)%N && (c <=? 122)%N.
Definition ascii_upper (c : char) : char := if is_lower c then (c - 32)%N else c.
Definition is_ascii_alphanumeric (c : char) : bool := is_digit c || is_upper c || is_lower c.
Definition upper_alnum (c : char) : bool := is_upper c || is_digit c.

(** * Letter case *)

(** The standard library's Unicode lower-casing is a parameter. *)
Class Lowercase : Type := { to_lowercase : str -> str }.

(** ASCII texts without capitals stay as they are. *)
Definition lower_ascii (c : char) : bool := (c <? 128)%N && negb (is_upper c).
Class LowercaseLaws `{Lowercase} : Prop := {
  to_lowercase_id : forall s, forallb lower_ascii s = true -> to_lowercase s = s
}.

(** [char::to_uppercase]. *)
Class Uppercase : Type := { to_upper : char -> str }.

(** [str::to_uppercase]. *)
Definition to_uppercase `{Uppercase} (s : str) : str := flat_map to_upper s.

(** Both on ASCII texts. *)
Definition ascii_uppercase : Uppercase :=
  {| to_upper := fun c => [ascii_upper c] |}.
Definition ascii_lowercase : Lowercase :=
  {| to_lowercase := map (fun c => if (65 <=? c)%N && (c <=? 90)%N then (c + 32)%N else c) |}.

Lemma ascii_lowercase_laws : @LowercaseLaws ascii_lowercase.
Proof.
  split. intros s. induction s as [|c s IH]; [done|]. simpl. intros [C S]%andb_true_iff.
  unfold lower_ascii, is_upper in C. apply andb_true_iff in C as [_ C%negb_true_iff]. rewrite C. f_equal. auto.
Qed.

(** * Character classes *)

(** The standard library's Unicode classes of characters, as far as the lexer
    relies on them: what they say of ASCII. *)
Class CharClasses : Type := {
  is_alphabetic : char -> bool;
  is_alphanumeric : char -> bool
}.

Definition is_ascii_letter (c : char) : bool := ((65 <=? c) && (c <=? 90) || (97 <=? c) && (c <=? 122))%N.

Class CharLaws `{CharClasses} : Prop := {
  ascii_alphabetic : forall c, (c < 128)%N -> is_alphabetic c = is_ascii_letter c;
  ascii_alphanumeric : forall c, (c < 128)%N -> is_alphanumeric c = is_ascii_letter c || is_digit c
}.

(** The classes of a text in ASCII. *)
Definition ascii_classes : CharClasses :=
  {| is_alphabetic := is_ascii_letter; is_alphanumeric c := is_ascii_letter c || is_digit c |}.
Lemma ascii_laws : @CharLaws ascii_classes.
Proof. by split. Qed.

(** * UTF-8 *)

(** [str::as_bytes]: the UTF-8 encoding. *)
Definition utf8 (c : char) : list N :=
  (if c <? 128 then [c]
   else if c <? 2048 then [192 + c / 64; 128 + c mod 64]
   else if c <? 65536 then [224 + c / 4096; 128 + c / 64 mod 64; 128 + c mod 64]
   else [240 + c / 262144; 128 + c / 4096 mod 64; 128 + c / 64 mod 64; 128 + c mod 64])%N.
Definition as_bytes (s : str) : list N := flat_map utf8 s.
Definition len (s : str) : nat := List.length (as_bytes s).

(** ASCII is its own encoding. *)
Lemma as_bytes_ascii s : Forall (fun c => (c < 128)%N) s -> as_bytes s = s.
Proof.
  induction 1 as [|c s C _ IH]; [done|]. unfold as_bytes in *. simpl. rewrite IH. unfold utf8.
  apply N.ltb_lt in C. by rewrite C.
Qed.
