(* ===== verification/Order.v ===== *)
(** Comparison functions as Rust's [Ord] and [sort_by] use them: total
    preorders, their closure under reversal and lexicographic combination,
    the comparison of binary64 numbers, and the stable sort. *)
From Stdlib Require Import ZArith NArith List Lia Sorting.Sorted Sorting.Permutation Floats.SpecFloat.
From stdpp Require Import base decidable list.
From S2P Require Import Prelude Str.

(** * Total preorders *)

Record total_preorder {A} (cmp : A -> A -> comparison) : Prop := {
  cmp_flip : forall a b, cmp b a = CompOpp (cmp a b);
  cmp_trans : forall a b c, cmp a b <> Gt -> cmp b c <> Gt -> cmp a c <> Gt
}.

(** [o.then_with(|| p)] and [o.reverse()]. *)
Definition then_cmp (o p : comparison) : comparison := match o with Eq => p | _ => o end.

Section Preorders.
Context {A : Type}.
Implicit Types cmp : A -> A -> comparison.

Lemma cmp_refl cmp a : total_preorder cmp -> cmp a a = Eq.
Proof. intros [F _]. specialize (F a a). by destruct (cmp a a). Qed.

Lemma cmp_eq_l cmp a b c : total_preorder cmp -> cmp a b = Eq -> cmp a c = cmp b c.
Proof.
  intros [F T] E. assert (cmp b a = Eq) as E' by (by rewrite F, E).
  pose proof (T a b c) as T1. pose proof (T b a c) as T2. pose proof (T c a b) as T3. pose proof (T c b a) as T4.
  rewrite E, E' in *. pose proof (F a c) as Fa. pose proof (F b c) as Fb.
  destruct (cmp a c), (cmp b c); simpl in *; rewrite ?Fa, ?Fb in *; try done; exfalso;
    first [by apply T1|by apply T2|by apply T3|by apply T4].
Qed.

Lemma preorder_reverse cmp : total_preorder cmp -> total_preorder (fun a b => CompOpp (cmp a b)).
Proof.
  intros [F T]. split; [by intros a b; rewrite F|]. intros a b c. rewrite <- !F. intros N1 N2. by apply (T c b a).
Qed.

Lemma preorder_then cmp1 cmp2 :
  total_preorder cmp1 -> total_preorder cmp2 -> total_preorder (fun a b => then_cmp (cmp1 a b) (cmp2 a b)).
Proof.
  intros P1 P2. pose proof P1 as [F1 T1]. pose proof P2 as [F2 T2]. split.
  - intros a b. rewrite F1, F2. by destruct (cmp1 a b).
  - intros a b c L1 L2. unfold then_cmp in *.
    destruct (cmp1 a b) eqn:E1; [| |done].
    + rewrite (cmp_eq_l cmp1 a b c P1 E1). destruct (cmp1 b c); [|done|done]. by apply (T2 a b c).
    + destruct (cmp1 b c) eqn:E2; [| |done].
      * assert (cmp1 a c = Lt) as ->; [|done].
        assert (cmp1 c b = Eq) as E3 by (by rewrite F1, E2).
        pose proof (cmp_eq_l cmp1 c b a P1 E3) as E4. rewrite (F1 a c), (F1 a b), E1 in E4.
        by destruct (cmp1 a c).
      * destruct (cmp1 a c) eqn:E3; [|done|].
        { exfalso. pose proof (cmp_eq_l cmp1 a c b P1 E3) as E4. rewrite E1, (F1 b c), E2 in E4. done. }
        exfalso. apply (T1 a b c); congruence.
Qed.

Lemma preorder_map {B} (f : B -> A) cmp : total_preorder cmp -> total_preorder (fun a b => cmp (f a) (f b)).
Proof. intros [F T]. split; [auto|]. intros a b c. apply T. Qed.

Lemma preorder_ext cmp1 cmp2 : (forall a b, cmp1 a b = cmp2 a b) -> total_preorder cmp2 -> total_preorder cmp1.
Proof. intros E [F T]. split; [intros a b; by rewrite !E|]. intros a b c. rewrite !E. apply T. Qed.

Lemma preorder_equal : total_preorder (fun _ _ : A => Eq).
Proof. by split. Qed.

End Preorders.

Lemma preorder_Z : total_preorder Z.compare.
Proof.
  split; [intros a b; apply Z.compare_antisym|]. intros a b c.
  destruct (Z.compare_spec a b), (Z.compare_spec b c), (Z.compare_spec a c); try done; lia.
Qed.

(** * Strings and booleans *)

(** [str]'s ordering: by scalar value, as UTF-8 orders bytes. *)
Fixpoint str_compare (a b : str) : comparison :=
  match a, b with
  | [], [] => Eq
  | [], _ => Lt
  | _, [] => Gt
  | x :: a', y :: b' => then_cmp (N.compare x y) (str_compare a' b')
  end.

Definition bool_compare (a b : bool) : comparison :=
  match a, b with false, true => Lt | true, false => Gt | _, _ => Eq end.

Lemma preorder_str : total_preorder str_compare.
Proof.
  split.
  - intros a. induction a as [|x a IH]; intros [|y b]; simpl; try done.
    rewrite N.compare_antisym, IH. by destruct (N.compare x y).
  - intros a. induction a as [|x a IH]; intros [|y b] [|z c]; simpl; try done.
    destruct (N.compare_spec x y), (N.compare_spec y z), (N.compare_spec x z); subst; simpl; try done; try lia.
    apply IH.
Qed.

Lemma preorder_bool : total_preorder bool_compare.
Proof. split; [by intros [] []|by intros [] [] []]. Qed.

(** * binary64 *)

(** [f64::partial_cmp]. *)
Definition f64_partial_cmp (x y : f64) : option comparison := SFcompare x y.

(** Sign class, exponent and mantissa, compared in that order. *)
Definition f64_key (x : f64) : Z * Z * Z :=
  match x with
  | S754_infinity true => (-2, 0, 0)
  | S754_finite true m e => (-1, - e, Z.neg m)
  | S754_infinity false => (2, 0, 0)
  | S754_finite false m e => (1, e, Z.pos m)
  | _ => (0, 0, 0)
  end.

Definition key_compare (a b : Z * Z * Z) : comparison :=
  then_cmp (Z.compare (fst (fst a)) (fst (fst b)))
    (then_cmp (Z.compare (snd (fst a)) (snd (fst b))) (Z.compare (snd a) (snd b))).

Lemma preorder_key : total_preorder key_compare.
Proof.
  apply (preorder_then (fun a b : Z * Z * Z => Z.compare (fst (fst a)) (fst (fst b)))).
  - apply (preorder_map (fun a : Z * Z * Z => fst (fst a))), preorder_Z.
  - apply (preorder_then (fun a b : Z * Z * Z => Z.compare (snd (fst a)) (snd (fst b)))).
    + apply (preorder_map (fun a : Z * Z * Z => snd (fst a))), preorder_Z.
    + apply (preorder_map (fun a : Z * Z * Z => snd a)), preorder_Z.
Qed.

Lemma f64_partial_cmp_key x y :
  f64_is_nan x = false -> f64_is_nan y = false -> f64_partial_cmp x y = Some (key_compare (f64_key x) (f64_key y)).
Proof.
  intros Nx Ny. unfold f64_partial_cmp, key_compare.
  destruct x as [sx|[]| |[] mx ex], y as [sy|[]| |[] my ey]; try done; cbn.
  - rewrite Z.compare_opp, (Z.compare_antisym ex ey). by destruct (Z.compare ex ey).
  - by destruct (Z.compare ex ey).
Qed.

(** Rounding an integer never gives NaN: the mantissa stays non-negative. *)
Lemma iter_pos_inv {B} (P : B -> Prop) (f : B -> B) n x :
  (forall y, P y -> P (f y)) -> P x -> P (SpecFloat.iter_pos f n x).
Proof. intros F. revert x. induction n as [n IH|n IH|]; simpl; auto. Qed.

Lemma shr_fexp_nonneg m e l : 0 <= m -> 0 <= shr_m (fst (shr_fexp f64_prec f64_emax m e l)).
Proof.
  intros M. unfold shr_fexp, shr.
  assert (0 <= shr_m (shr_record_of_loc m l)) as R by (by destruct l as [|[]]).
  destruct (_ - e) as [|n|n]; simpl; [done| |done]. apply (iter_pos_inv (fun r => 0 <= shr_m r)); [|done].
  intros [m0 r s] N. simpl in *. destruct m0 as [|[q|q|]|q]; simpl; lia.
Qed.

Lemma round_even_nonneg m l : 0 <= m -> 0 <= round_nearest_even m l.
Proof. intros M. destruct l as [|[]]; simpl; try lia. destruct (Z.even m); lia. Qed.

Lemma f64_of_Z_not_nan n : f64_is_nan (f64_of_Z n) = false.
Proof.
  assert (forall s m e, 0 <= m -> f64_is_nan (binary_round_aux f64_prec f64_emax s m e loc_Exact) = false) as Aux.
  { intros s m e M. unfold binary_round_aux. pose proof (shr_fexp_nonneg m e loc_Exact M) as N1.
    destruct (shr_fexp _ _ m e _) as [r1 e1]. simpl in N1.
    pose proof (shr_fexp_nonneg _ e1 loc_Exact (round_even_nonneg _ (loc_of_shr_record r1) N1)) as N2.
    destruct (shr_fexp _ _ _ e1 _) as [r2 e2]. simpl in N2.
    destruct (shr_m r2); [done|by destruct (_ <=? _)|lia]. }
  unfold f64_of_Z, binary_normalize, binary_round. destruct n as [|p|p]; [done| |];
    destruct (shl_align _ _ _); by apply Aux.
Qed.

(** * Stable sort *)

Section Sort.
Context {A : Type} (cmp : A -> A -> comparison).

(** [slice::sort_by], which is stable: an element moves left past strictly
    greater ones only. *)
Fixpoint insert_sorted (x : A) (l : list A) : list A :=
  match l with
  | [] => [x]
  | y :: l' => match cmp x y with Gt => y :: insert_sorted x l' | _ => x :: l end
  end.

Fixpoint sort_by (l : list A) : list A :=
  match l with
  | [] => []
  | x :: l' => insert_sorted x (sort_by l')
  end.

Lemma insert_sorted_permutation x l : Permutation (insert_sorted x l) (x :: l).
Proof.
  induction l as [|y l IH]; simpl; [done|]. destruct (cmp x y); try done.
  etransitivity; [by apply perm_skip, IH|apply perm_swap].
Qed.

Lemma sort_by_permutation l : Permutation (sort_by l) l.
Proof. induction l as [|x l IH]; simpl; [done|]. by rewrite insert_sorted_permutation, IH. Qed.

Hypothesis P : total_preorder cmp.

Abbreviation le := (fun a b => cmp a b <> Gt).

Lemma insert_sorted_sorted x l : StronglySorted le l -> StronglySorted le (insert_sorted x l).
Proof.
  destruct P as [F T]. induction l as [|y l IH]; intros S; simpl; [by repeat constructor|].
  pose proof S as S0. apply StronglySorted_inv in S as [S Fy].
  assert (cmp x y <> Gt -> StronglySorted le (x :: y :: l)) as Front.
  { intros L. constructor; [done|]. constructor; [done|]. rewrite List.Forall_forall in *.
    intros z I. apply (T x y z); auto. }
  destruct (cmp x y) eqn:E; [by apply Front|by apply Front|].
  constructor; [auto|]. eapply List.Forall_forall. intros z I.
  eapply Permutation_in in I; [|apply insert_sorted_permutation]. destruct I as [<-|I].
  - by rewrite F, E.
  - rewrite List.Forall_forall in Fy. auto.
Qed.

Lemma sort_by_sorted l : StronglySorted le (sort_by l).
Proof. induction l as [|x l IH]; simpl; [constructor|]. by apply insert_sorted_sorted. Qed.

Definition same (x y : A) : bool := match cmp x y with Eq => true | _ => false end.

Lemma insert_sorted_stable k x l :
  List.filter (same k) (insert_sorted x l) = List.filter (same k) (x :: l).
Proof.
  induction l as [|y l IH]; simpl; [done|]. destruct (cmp x y) eqn:E; try done. simpl in *. rewrite IH.
  unfold same in *. destruct (cmp k x) eqn:Ex, (cmp k y) eqn:Ey; try done.
  exfalso. pose proof (cmp_eq_l cmp k x y P Ex) as C. congruence.
Qed.

(** Elements that compare equal keep their order. *)
Lemma sort_by_stable k l : List.filter (same k) (sort_by l) = List.filter (same k) l.
Proof.
  induction l as [|x l IH]; [done|]. cbn [sort_by]. rewrite insert_sorted_stable. simpl. by rewrite IH.
Qed.

End Sort.

(** A filter keeps the order. *)
Lemma filter_sorted {A} (R : A -> A -> Prop) (p : A -> bool) l : StronglySorted R l -> StronglySorted R (List.filter p l).
Proof.
  induction 1 as [|x l S IH F]; simpl; [constructor|]. destruct (p x); [|done]. constructor; [done|].
  rewrite List.Forall_forall in *. intros y [I _]%filter_In. auto.
Qed.

Lemma filter_permutation {A} (p : A -> bool) l l' : Permutation l l' -> Permutation (List.filter p l) (List.filter p l').
Proof.
  induction 1 as [|x l l' _ IH|x y l|l l' l'' _ IH1 _ IH2]; simpl; [done| | |by etransitivity].
  - by destruct (p x); [apply perm_skip|].
  - destruct (p x), (p y); try done. apply perm_swap.
Qed.
