(* ===== verification/Cron.v ===== *)
(** Cron expressions: [crates/scheduling/src/cron.rs].

    The parser, the canonical printer and the searches for the next and the
    previous fire time. chrono's [DateTime] is the class [Chrono]; the class
    [FixedOffset] states what its documentation promises for zones whose
    offset never changes (UTC among them), and [UTC] is a computable instance
    on which the witnesses run. *)
From Stdlib Require Import Ascii String.
From Stdlib Require Import ZArith NArith List Lia Sorting.Sorted.
From stdpp Require Import base decidable list.
From S2P Require Import Prelude Str.

(** * Data *)

Definition MAX_SEARCH_MINUTES : nat := 366 * 24 * 60.

Inductive CronError : Type :=
| FieldCount (got : nat) (expr : str)
| BadStep (field : str) (part : str)
| BadRange (field : str) (part : str)
| BadValue (field : str) (part : str).

#[export] Instance CronError_eq_dec : EqDecision CronError.
Proof. solve_decision. Defined.

Record CronExpr : Type := mkCron {
  second : list Z;
  minute : list Z;
  hour : list Z;
  day_of_month : list Z;
  month : list Z;
  day_of_week : list Z
}.

#[export] Instance CronExpr_eq_dec : EqDecision CronExpr.
Proof. solve_decision. Defined.

(** * Parsing *)

Definition expand_macro (expr : str) : option str :=
  if str_eqb expr (lit "@hourly") then Some (lit "0 * * * *")
  else if str_eqb expr (lit "@daily") || str_eqb expr (lit "@midnight") then Some (lit "0 0 * * *")
  else if str_eqb expr (lit "@weekly") then Some (lit "0 0 * * 0")
  else if str_eqb expr (lit "@monthly") then Some (lit "0 0 1 * *")
  else if str_eqb expr (lit "@yearly") || str_eqb expr (lit "@annually") then Some (lit "0 0 1 1 *")
  else None.

(** [BTreeSet::insert] on the sorted list of its elements. *)
Fixpoint set_insert (v : Z) (l : list Z) : list Z :=
  match l with
  | [] => [v]
  | x :: l' => if v <? x then v :: l else if v =? x then l else x :: set_insert v l'
  end.

(** The loop [while v <= hi], leaving on the overflow of [v.checked_add(step)]. *)
Fixpoint step_values (fuel : nat) (v hi step : Z) (out : list Z) : list Z :=
  match fuel with
  | O => out
  | S f =>
      if v <=? hi then
        let out := set_insert v out in
        if v + step <=? U32_MAX then step_values f (v + step) hi step out else out
      else out
  end.

(** One iteration per value of the domain is enough, since [step >= 1]. *)
Definition step_loop (v hi step : Z) (out : list Z) : list Z :=
  step_values (S (Z.to_nat (hi - v))) v hi step out.

Definition parse_step (name raw : str) : Result (str * Z) CronError :=
  match split_once (chr "/") raw with
  | None => Ok (raw, 1)
  | Some (part, suffix) =>
      s <-? ok_or (parse_i64 suffix) (BadStep name raw);
      if s <=? 0 then Err (BadStep name raw)
      else Ok (part, if s <=? U32_MAX then s else U32_MAX)
  end.

Definition parse_part (lo hi : Z) (name raw : str) (out : list Z) : Result (list Z) CronError :=
  ps <-? parse_step name raw;
  let '(part, step) := ps in
  if str_eqb part (lit "*") then Ok (step_loop lo hi step out)
  else if contains (chr "-") part then
    let '(a_raw, b_raw) :=
      match split_once (chr "-") part with Some ab => ab | None => (part, []) end in
    a <-? ok_or (parse_i64 a_raw) (BadRange name part);
    b <-? ok_or (parse_i64 b_raw) (BadRange name part);
    if (a <? lo) || (hi <? b) || (b <? a) then Err (BadRange name part)
    else Ok (step_loop a b step out)
  else
    v <-? ok_or (parse_i64 part) (BadValue name part);
    if (v <? lo) || (hi <? v) then Err (BadValue name part)
    else Ok (set_insert v out).

Fixpoint parse_parts (lo hi : Z) (name : str) (raws : list str) (out : list Z)
  : Result (list Z) CronError :=
  match raws with
  | [] => Ok out
  | raw :: raws' => out <-? parse_part lo hi name raw out; parse_parts lo hi name raws' out
  end.

Definition parse_field (field : str) (lo hi : Z) (name : str) : Result (list Z) CronError :=
  parse_parts lo hi name (split (chr ",") field) [].

Definition parse_cron (expr : str) : Result CronExpr CronError :=
  let trimmed := trim expr in
  expanded <-?
    (if starts_with (lit "@") trimmed
     then ok_or (expand_macro trimmed) (BadValue (lit "macro") trimmed)
     else Ok trimmed);
  let normalized := replace_char (chr "?") (lit "*") expanded in
  match split_whitespace normalized with
  | [mi; h; dom; mo; dow] =>
      minute <-? parse_field mi 0 59 (lit "minute");
      hour <-? parse_field h 0 23 (lit "hour");
      day_of_month <-? parse_field dom 1 31 (lit "dom");
      month <-? parse_field mo 1 12 (lit "month");
      day_of_week <-? parse_field dow 0 6 (lit "dow");
      Ok (mkCron [0] minute hour day_of_month month day_of_week)
  | [s; mi; h; dom; mo; dow] =>
      second <-? parse_field s 0 59 (lit "second");
      minute <-? parse_field mi 0 59 (lit "minute");
      hour <-? parse_field h 0 23 (lit "hour");
      day_of_month <-? parse_field dom 1 31 (lit "dom");
      month <-? parse_field mo 1 12 (lit "month");
      day_of_week <-? parse_field dow 0 6 (lit "dow");
      Ok (mkCron second minute hour day_of_month month day_of_week)
  | fields => Err (FieldCount (List.length fields) expr)
  end.

(** * Printing *)

(** The inner [while]: extends a run as long as the next value follows on. *)
Fixpoint run_end (last : Z) (xs : list Z) : Z * list Z :=
  match xs with
  | x :: xs' => if x =? last + 1 then run_end x xs' else (last, xs)
  | [] => (last, [])
  end.

(** The parts pushed for one run: a range from three values on. *)
Definition render_run (start last : Z) : list str :=
  if start + 1 <? last then [show start ++ lit "-" ++ show last]
  else if last =? start + 1 then [show start; show last]
  else [show start].

(** The outer [while] over the runs of the sorted values. *)
Fixpoint render_runs (fuel : nat) (xs : list Z) : list str :=
  match fuel, xs with
  | S f, start :: rest =>
      let '(last, rest') := run_end start rest in
      render_run start last ++ render_runs f rest'
  | _, _ => []
  end.

Definition render_field (xs : list Z) (lo hi : Z) : str :=
  if (List.length xs =? 0)%nat || (Z.of_nat (List.length xs) =? hi - lo + 1) then lit "*"
  else join (lit ",") (render_runs (List.length xs) xs).

Definition cron_to_string (e : CronExpr) : str :=
  (if bool_decide (second e = [0]) then []
   else render_field (second e) 0 59 ++ lit " ") ++
  join (lit " ") [render_field (minute e) 0 59; render_field (hour e) 0 23;
                  render_field (day_of_month e) 1 31; render_field (month e) 1 12;
                  render_field (day_of_week e) 0 6].

(** * Evaluation *)

(** chrono's [DateTime<Tz>], as far as the evaluator uses it. *)
Class Chrono (D : Type) : Type := {
  t_minute : D -> Z;
  t_hour : D -> Z;
  t_day : D -> Z;
  t_month : D -> Z;
  t_weekday : D -> Z;
  t_second : D -> Z;
  t_nanosecond : D -> Z;
  with_second : Z -> D -> option D;
  with_nanosecond : Z -> D -> option D;
  add_minute : D -> option D;
  sub_minute : D -> option D;
  instant : D -> Z
}.

Definition is_restricted (xs : list Z) (lo hi : Z) : bool :=
  negb (Z.of_nat (List.length xs) =? hi - lo + 1).

Definition mem (v : Z) (xs : list Z) : bool := existsb (Z.eqb v) xs.

Section Evaluation.
Context {D : Type} `{Chrono D}.

Definition matches (e : CronExpr) (t : D) : bool :=
  if negb (mem (t_minute t) (minute e)) then false
  else if negb (mem (t_hour t) (hour e)) then false
  else if negb (mem (t_month t) (month e)) then false
  else
    let dom := mem (t_day t) (day_of_month e) in
    let dow := mem (t_weekday t) (day_of_week e) in
    if is_restricted (day_of_month e) 1 31 && is_restricted (day_of_week e) 0 6
    then dom || dow
    else dom && dow.

Fixpoint search_next (n : nat) (e : CronExpr) (t : D) : option D :=
  match n with
  | O => None
  | S n' =>
      if matches e t then
        match head (second e) with Some s => with_second s t | None => None end
      else
        match add_minute t with Some t' => search_next n' e t' | None => None end
  end.

Definition floor_minute (t : D) : option D :=
  match with_second 0 t with Some t' => with_nanosecond 0 t' | None => None end.

Definition next (e : CronExpr) (from : D) : option D :=
  match floor_minute from with
  | None => None
  | Some floor =>
      let later :=
        match add_minute floor with
        | Some t => search_next MAX_SEARCH_MINUTES e t
        | None => None
        end in
      if matches e floor then
        match List.find (fun s => t_second from <? s) (second e) with
        | Some s => with_second s floor
        | None => later
        end
      else later
  end.

Fixpoint search_prev (n : nat) (e : CronExpr) (t : D) : option D :=
  match n with
  | O => None
  | S n' =>
      if matches e t then
        match head (rev (second e)) with Some s => with_second s t | None => None end
      else
        match sub_minute t with Some t' => search_prev n' e t' | None => None end
  end.

Definition prev (e : CronExpr) (before : D) : option D :=
  match floor_minute before with
  | None => None
  | Some floor =>
      let cutoff := if 0 <? t_nanosecond before then t_second before + 1 else t_second before in
      let earlier :=
        match sub_minute floor with
        | Some t => search_prev MAX_SEARCH_MINUTES e t
        | None => None
        end in
      if matches e floor then
        match List.find (fun s => s <? cutoff) (rev (second e)) with
        | Some s => with_second s floor
        | None => earlier
        end
      else earlier
  end.

Fixpoint next_n (e : CronExpr) (n : nat) (cursor : D) : list D :=
  match n with
  | O => []
  | S n' => match next e cursor with Some t => t :: next_n e n' t | None => [] end
  end.

(** [next - after] in nanoseconds as [i64], then in seconds. *)
Definition seconds_until_next (e : CronExpr) (after : D) : option f64 :=
  match next e after with
  | None => None
  | Some t =>
      let delta := instant t - instant after in
      if in_i64 delta then Some (f64_div (f64_of_Z delta) (f64_of_Z 1000000000)) else None
  end.

End Evaluation.

Example parse_steps :
  parse_field (lit "0,15,30,45") 0 59 (lit "minute") = Ok [0; 15; 30; 45] /\
  parse_field (lit "*/15") 0 59 (lit "minute") = Ok [0; 15; 30; 45] /\
  parse_field (lit "9-17/2") 0 23 (lit "hour") = Ok [9; 11; 13; 15; 17] /\
  parse_field (lit "17-9") 1 31 (lit "dom") = Err (BadRange (lit "dom") (lit "17-9")).
Proof. vm_compute. auto. Qed.

Example print_and_parse :
  parse_cron (lit " 0 9-17/2 ? * 1-5 ") =
    Ok (mkCron [0] [0] [9; 11; 13; 15; 17] (map Z.of_nat (seq 1 31)) (map Z.of_nat (seq 1 12)) [1; 2; 3; 4; 5]).
Proof. vm_compute. reflexivity. Qed.

(** * Lemmas: value sets *)

Abbreviation sorted := (StronglySorted Z.lt).

(** A parsed field: strictly increasing, inside its domain, not empty. *)
Record field_ok (lo hi : Z) (xs : list Z) : Prop := {
  field_sorted : sorted xs;
  field_range : Forall (fun x => lo <= x <= hi) xs;
  field_nonempty : xs <> []
}.

Lemma set_insert_in v l x : In x (set_insert v l) <-> x = v \/ In x l.
Proof.
  induction l as [|y l IH]; simpl; [firstorder|].
  destruct (Z.ltb_spec v y); [simpl; firstorder|].
  destruct (Z.eqb_spec v y) as [->|]; simpl; [|rewrite IH]; firstorder.
Qed.

Lemma set_insert_sorted v l : sorted l -> sorted (set_insert v l).
Proof.
  induction l as [|y l IH]; simpl; intros S; [by repeat constructor|].
  apply StronglySorted_inv in S as [S F]. destruct (Z.ltb_spec v y).
  - constructor; [by constructor|]. constructor; [done|].
    eapply List.Forall_impl; [|exact F]. simpl. lia.
  - destruct (Z.eqb_spec v y) as [->|]; [by constructor|]. constructor; [by apply IH|].
    apply List.Forall_forall. intros x I. apply set_insert_in in I as [->|I]; [lia|].
    rewrite List.Forall_forall in F. auto.
Qed.

Lemma set_insert_nonempty v l : set_insert v l <> [].
Proof. destruct l as [|y l]; simpl; [done|]. destruct (v <? y); [done|]. by destruct (v =? y). Qed.

(** Strictly increasing lists are determined by their elements. *)
Lemma sorted_ext l1 l2 : sorted l1 -> sorted l2 -> (forall x, In x l1 <-> In x l2) -> l1 = l2.
Proof.
  revert l2. induction l1 as [|a l1 IH]; intros l2 S1 S2 E.
  { destruct l2 as [|b l2]; [done|]. exfalso. apply (E b). by left. }
  destruct l2 as [|b l2]; [exfalso; apply (E a); by left|].
  apply StronglySorted_inv in S1 as [S1 F1], S2 as [S2 F2].
  rewrite List.Forall_forall in F1, F2.
  assert (a = b) as ->.
  { destruct (proj1 (E a) (or_introl eq_refl)) as [->|I1]; [done|].
    destruct (proj2 (E b) (or_introl eq_refl)) as [->|I2]; [done|].
    specialize (F1 _ I2). specialize (F2 _ I1). lia. }
  f_equal. apply IH; [done|done|]. intros x. split; intros I.
  - destruct (proj1 (E x) (or_intror I)) as [->|]; [|done]. specialize (F1 _ I). lia.
  - destruct (proj2 (E x) (or_intror I)) as [->|]; [|done]. specialize (F2 _ I). lia.
Qed.

Lemma step_values_in fuel v hi step out x :
  1 <= step -> hi <= U32_MAX -> (hi - v < Z.of_nat fuel) ->
  In x (step_values fuel v hi step out) <->
  In x out \/ exists k, 0 <= k /\ x = v + k * step /\ x <= hi.
Proof.
  revert v out. induction fuel as [|fuel IH]; intros v out St U F; cbn [step_values].
  { split; [auto|]. intros [I|(k & K & E & L)]; [done|]. nia. }
  destruct (Z.leb_spec v hi) as [L|L]; cycle 1.
  { split; [auto|]. intros [I|(k & K & E & B)]; [done|]. nia. }
  assert (forall k, 0 <= k -> k = 0 \/ 0 <= k - 1) as C by (intros; lia).
  destruct (Z.leb_spec (v + step) U32_MAX).
  - rewrite IH by lia. rewrite set_insert_in. split.
    + intros [[->|I]|(k & K & E & B)]; [right; exists 0; lia|auto|right; exists (k + 1); lia].
    + intros [I|(k & K & E & B)]; [auto|]. destruct (C k K) as [->|K']; [left; left; lia|].
      right. exists (k - 1). lia.
  - rewrite set_insert_in. split.
    + intros [->|I]; [right; exists 0; lia|auto].
    + intros [I|(k & K & E & B)]; [auto|]. destruct (C k K) as [->|K']; [left; lia|]. nia.
Qed.

Lemma step_loop_in v hi step out x :
  1 <= step -> hi <= U32_MAX ->
  In x (step_loop v hi step out) <->
  In x out \/ exists k, 0 <= k /\ x = v + k * step /\ x <= hi.
Proof. intros. apply step_values_in; lia. Qed.

Lemma step_values_sorted fuel v hi step out : sorted out -> sorted (step_values fuel v hi step out).
Proof.
  revert v out. induction fuel as [|fuel IH]; intros v out S; cbn [step_values]; [done|].
  destruct (v <=? hi); [|done]. destruct (_ <=? _); [apply IH|]; by apply set_insert_sorted.
Qed.

(** * The meaning of a field

    What one comma-separated part stands for: a wildcard or a range walked
    with its step, or a single value (whose step has no effect). *)

Inductive denotes (lo hi : Z) (name raw : str) : Z -> Prop :=
| denotes_star step k :
    parse_step name raw = Ok (lit "*", step) -> 0 <= k -> lo + k * step <= hi ->
    denotes lo hi name raw (lo + k * step)
| denotes_range part step a_raw b_raw a b k :
    parse_step name raw = Ok (part, step) -> split_once (chr "-") part = Some (a_raw, b_raw) ->
    parse_i64 a_raw = Some a -> parse_i64 b_raw = Some b ->
    0 <= k -> a + k * step <= b -> denotes lo hi name raw (a + k * step)
| denotes_value part step v :
    parse_step name raw = Ok (part, step) -> ~ In (chr "-") part ->
    parse_i64 part = Some v -> denotes lo hi name raw v.

Lemma parse_step_positive name raw part step :
  parse_step name raw = Ok (part, step) -> 1 <= step <= U32_MAX.
Proof.
  unfold parse_step. destruct (split_once _ raw) as [[p s]|]; [|intros [= <- <-]; done].
  destruct (parse_i64 s) as [z|]; simpl; [|done].
  destruct (Z.leb_spec z 0); [done|]. intros [= <- <-]. destruct (Z.leb_spec z U32_MAX); [lia|done].
Qed.

Lemma split_once_contains c s : contains c s = true -> exists a b, split_once c s = Some (a, b).
Proof.
  rewrite contains_spec. induction s as [|x s IH]; [done|]. simpl. intros [->|I].
  - rewrite N.eqb_refl. eauto.
  - destruct (x =? c)%N; [eauto|]. destruct (IH I) as (a & b & ->). simpl. eauto.
Qed.

Lemma denotes_star_iff lo hi name raw step x :
  parse_step name raw = Ok (lit "*", step) ->
  denotes lo hi name raw x <-> exists k, 0 <= k /\ x = lo + k * step /\ x <= hi.
Proof.
  intros PS. split; [|intros (k & K & -> & B); by apply denotes_star].
  intros D. destruct D as [st k E K B|p st a b av bv k E SP|p st v E NI P]; rewrite PS in E.
  - injection E as <-. by exists k.
  - by injection E as <- <-.
  - by injection E as <- <-.
Qed.

Lemma denotes_range_iff lo hi name raw part step a_raw b_raw a b x :
  parse_step name raw = Ok (part, step) -> part <> lit "*" ->
  contains (chr "-") part = true -> split_once (chr "-") part = Some (a_raw, b_raw) ->
  parse_i64 a_raw = Some a -> parse_i64 b_raw = Some b ->
  denotes lo hi name raw x <-> exists k, 0 <= k /\ x = a + k * step /\ x <= b.
Proof.
  intros PS NS C SO PA PB. split; [|intros (k & K & -> & B); by eapply denotes_range].
  intros D. destruct D as [st k E K B|p st ar br av bv k E SP P1 P2 K B|p st v E NI P]; rewrite PS in E;
    injection E as E1 E2; subst.
  - done.
  - rewrite SO in SP. injection SP as <- <-. exists k. split; [done|]. split; congruence.
  - by apply contains_spec in C.
Qed.

Lemma denotes_value_iff lo hi name raw part step v x :
  parse_step name raw = Ok (part, step) -> part <> lit "*" ->
  contains (chr "-") part = false -> parse_i64 part = Some v ->
  denotes lo hi name raw x <-> x = v.
Proof.
  intros PS NS C%contains_false P. split; [|intros ->; by eapply denotes_value].
  intros D. destruct D as [st k E K B|p st ar br av bv k E SP P1 P2 K B|p st w E NI Pw];
    rewrite PS in E; injection E as E1 E2; subst.
  - done.
  - by rewrite split_once_none in SP.
  - congruence.
Qed.

(** What parsing one part does to the set accumulated so far. *)
Record part_ok (lo hi : Z) (P : Z -> Prop) (out out' : list Z) : Prop := {
  part_in : forall x, In x out' <-> In x out \/ P x;
  part_sorted : sorted out -> sorted out';
  part_nonempty : out' <> [];
  part_range : forall x, P x -> lo <= x <= hi
}.

Lemma step_loop_ok lo hi (P : Z -> Prop) a b step out :
  lo <= a <= b -> b <= hi -> 1 <= step -> 0 <= lo -> hi <= U32_MAX ->
  (forall x, P x <-> exists k, 0 <= k /\ x = a + k * step /\ x <= b) ->
  part_ok lo hi P out (step_loop a b step out).
Proof.
  intros AB H St L U PE. split.
  - intros x. rewrite PE. apply step_loop_in; lia.
  - apply step_values_sorted.
  - intros E. assert (In a (step_loop a b step out)) as I.
    { apply step_loop_in; [lia|lia|]. right. exists 0. lia. }
    by rewrite E in I.
  - intros x. rewrite PE. intros (k & ? & ? & ?). nia.
Qed.

Lemma parse_part_spec lo hi name raw out out' :
  0 <= lo <= hi -> hi <= U32_MAX -> parse_part lo hi name raw out = Ok out' ->
  part_ok lo hi (denotes lo hi name raw) out out'.
Proof.
  intros LH U. unfold parse_part. destruct (parse_step name raw) as [[part step]|] eqn:PS; [|done].
  pose proof (parse_step_positive _ _ _ _ PS) as St. cbn [result_bind].
  unfold str_eqb. case_bool_decide as Star; [subst part|].
  { intros [= <-]. apply step_loop_ok; try lia. intros x. by apply denotes_star_iff. }
  destruct (contains (chr "-") part) eqn:C.
  - destruct (split_once_contains _ _ C) as (a_raw & b_raw & SO). rewrite SO.
    destruct (parse_i64 a_raw) as [a|] eqn:PA; [|done].
    destruct (parse_i64 b_raw) as [b|] eqn:PB; [|done]. cbn [result_bind ok_or].
    destruct (Z.ltb_spec a lo); [done|]. destruct (Z.ltb_spec hi b); [done|].
    destruct (Z.ltb_spec b a); [done|]. intros [= <-].
    apply step_loop_ok; try lia. intros x. by eapply denotes_range_iff.
  - destruct (parse_i64 part) as [v|] eqn:P; [|done]. cbn [result_bind ok_or].
    destruct (Z.ltb_spec v lo); [done|]. destruct (Z.ltb_spec hi v); [done|]. intros [= <-].
    pose proof (fun x => denotes_value_iff lo hi name raw part step v x PS Star C P) as DE.
    split; [|apply set_insert_sorted|apply set_insert_nonempty|].
    + intros x. rewrite set_insert_in, DE. tauto.
    + intros x Hx%DE. lia.
Qed.

Lemma parse_parts_spec lo hi name raws out out' :
  0 <= lo <= hi -> hi <= U32_MAX -> raws <> [] -> parse_parts lo hi name raws out = Ok out' ->
  part_ok lo hi (fun x => exists raw, In raw raws /\ denotes lo hi name raw x) out out'.
Proof.
  intros LH U. revert out. induction raws as [|raw raws IH]; intros out N P; [done|]. cbn [parse_parts] in P.
  apply result_bind_ok in P as (out1 & P1 & P2).
  destruct (parse_part_spec _ _ _ _ _ _ LH U P1) as [I1 S1 N1 R1].
  destruct raws as [|raw2 raws].
  { injection P2 as <-. split; [|done|done|].
    - intros x. rewrite I1. split.
      + intros [?|?]; [auto|]. right. exists raw. simpl. auto.
      + intros [?|(r & [->|[]] & D)]; auto.
    - intros x (r & [->|[]] & D). auto. }
  destruct (IH out1 ltac:(done) P2) as [I2 S2 N2 R2]. split; [|auto|done|].
  - intros x. rewrite I2, I1. split.
    + intros [[?|?]|(r & Ir & D)]; [auto| |]; right; [exists raw|exists r]; simpl in *; auto.
    + intros [?|(r & [->|Ir] & D)]; [auto|auto|]. right. by exists r.
  - intros x (r & [->|Ir] & D); [auto|]. apply R2. by exists r.
Qed.

Lemma parse_field_ok field lo hi name xs :
  0 <= lo <= hi -> hi <= U32_MAX -> parse_field field lo hi name = Ok xs -> field_ok lo hi xs.
Proof.
  intros LH U P. destruct (parse_parts_spec _ _ _ _ _ _ LH U (split_nonempty _ _) P) as [I S N R].
  split; [apply S; constructor| |done]. apply List.Forall_forall. intros x Hx.
  apply I in Hx as [[]|Hx]. auto.
Qed.

(** What a parsed field contains: exactly the values its comma-separated
    parts denote - each wildcard or range walked in its step, each single
    value - in strictly increasing order, all within the field's domain, at
    least one of them. *)
Theorem parse_field_denotes field lo hi name xs :
  0 <= lo <= hi -> hi <= U32_MAX -> parse_field field lo hi name = Ok xs ->
  (forall x, In x xs <-> exists raw, In raw (split (chr ",") field) /\ denotes lo hi name raw x) /\
  field_ok lo hi xs.
Proof.
  intros LH U P. split; [|by eapply parse_field_ok].
  destruct (parse_parts_spec _ _ _ _ _ _ LH U (split_nonempty _ _) P) as [I _ _ _].
  intros x. rewrite I. split; [intros [[]|?]; done|auto].
Qed.

Lemma parse_field_denotes_witness :
  (forall x, In x [9; 11; 20] <->
     exists raw, In raw (split (chr ",") (lit "20,9-12/2")) /\ denotes 0 23 (lit "hour") raw x) /\
  field_ok 0 23 [9; 11; 20].
Proof.
  apply (parse_field_denotes (lit "20,9-12/2") 0 23 (lit "hour") [9; 11; 20]);
    [lia|vm_compute; congruence|vm_compute; reflexivity].
Defined.

(** * Printing and parsing back *)

Definition cron_char (c : char) : bool :=
  is_digit c || (c =? 42)%N || (c =? 44)%N || (c =? 45)%N.

Definition cron_word (w : str) : Prop := w <> [] /\ Forall (fun c => cron_char c = true) w.

Lemma cron_char_excludes c :
  cron_char c = true -> is_whitespace c = false /\ c <> 63%N /\ c <> 64%N.
Proof.
  unfold cron_char, is_digit, is_whitespace. intros C.
  repeat (apply orb_true_iff in C as [C|C]);
    [apply andb_true_iff in C as [C1%N.leb_le C2%N.leb_le]|apply N.eqb_eq in C; subst; by repeat split..].
  repeat split; try lia.
  repeat (apply orb_false_iff; split); try (apply N.eqb_neq; lia);
    apply andb_false_iff; (left; apply N.leb_gt; lia) || (right; apply N.leb_gt; lia).
Qed.

Lemma cron_word_show n : 0 <= n -> cron_word (show n).
Proof.
  intros N. split; [apply show_nonempty|]. eapply List.Forall_impl; [|by apply show_digits].
  unfold cron_char. simpl. intros c ->. done.
Qed.

Lemma cron_word_range a b : 0 <= a -> 0 <= b -> cron_word (show a ++ lit "-" ++ show b).
Proof.
  intros A B. destruct (cron_word_show a A) as [N1 F1], (cron_word_show b B) as [_ F2].
  split; [by destruct (show a)|]. apply List.Forall_app. split; [done|]. by constructor.
Qed.

Lemma run_end_spec last xs l rest :
  sorted (last :: xs) -> run_end last xs = (l, rest) ->
  last <= l /\ sorted rest /\ (List.length rest <= List.length xs)%nat /\
  (forall x, x = last \/ In x xs <-> last <= x <= l \/ In x rest) /\
  (l = last \/ In l xs) /\ (forall x, In x rest -> In x xs).
Proof.
  revert last. induction xs as [|x xs IH]; intros last S R; simpl in R.
  { injection R as <- <-. split_and!; try constructor; auto; try lia.
    - intros [->|[]]. left. lia.
    - intros [?|[]]. left. lia. }
  apply StronglySorted_inv in S as [S F]. destruct (Z.eqb_spec x (last + 1)) as [->|Ne].
  - destruct (IH _ S R) as (L & Sr & Len & I & M & Sub). simpl.
    split_and!; try done; try lia.
    + intros y. transitivity (y = last \/ (y = last + 1 \/ In y xs)).
      { split; (intros [?|[?|?]]; auto). }
      rewrite I. split; [intros [->|[?|?]]; auto; left; lia|].
      intros [?|?]; [|auto]. destruct (Z.eq_dec y last); [auto|]. right. left. lia.
    + destruct M as [->|]; auto.
    + auto.
  - injection R as <- <-. split_and!; try done; auto; try lia.
    intros y. split; (intros [?|?]; [left; lia|auto]).
Qed.

Lemma parse_step_plain name p : ~ In (chr "/") p -> parse_step name p = Ok (p, 1).
Proof. intros N. unfold parse_step. by rewrite split_once_none. Qed.

Lemma show_no_char n c : 0 <= n -> is_digit c = false -> ~ In c (show n).
Proof. intros N D. apply not_in_digits; [done|by apply show_digits]. Qed.

Lemma show_not_star n rest : 0 <= n -> str_eqb (show n ++ rest) (lit "*") = false.
Proof.
  intros N. unfold str_eqb. apply bool_decide_eq_false_2. intros E.
  assert (In 42%N (show n)) as I; [|by apply (show_no_char n 42%N N) in I].
  pose proof (show_nonempty n). destruct (show n) as [|c s]; [done|].
  injection E as -> _. by left.
Qed.

Lemma parse_part_value lo hi name n out :
  0 <= lo <= n -> n <= hi -> hi <= U32_MAX ->
  parse_part lo hi name (show n) out = Ok (set_insert n out).
Proof.
  intros L H U. unfold parse_part.
  rewrite parse_step_plain by (apply show_no_char; [lia|done]). cbn [result_bind].
  rewrite <- (app_nil_r (show n)) at 1. rewrite show_not_star by lia.
  rewrite (proj2 (contains_false _ _)) by (apply show_no_char; [lia|done]).
  rewrite parse_i64_show by (unfold I64_MAX, U32_MAX in *; lia). cbn [result_bind ok_or].
  by rewrite (proj2 (Z.ltb_ge _ _)), (proj2 (Z.ltb_ge _ _)) by lia.
Qed.

Lemma parse_part_range lo hi name a b out :
  0 <= lo <= a -> a <= b -> b <= hi -> hi <= U32_MAX ->
  parse_part lo hi name (show a ++ lit "-" ++ show b) out = Ok (step_loop a b 1 out).
Proof.
  intros L AB H U. unfold parse_part. rewrite parse_step_plain; cycle 1.
  { rewrite !in_app_iff. intros [I|[[I|[]]|I]]; [|discriminate|];
      (eapply show_no_char; [| |exact I]; [lia|done]). }
  cbn [result_bind]. rewrite show_not_star by lia.
  assert (contains (chr "-") (show a ++ lit "-" ++ show b) = true) as ->.
  { apply contains_spec, in_app_iff. right. by left. }
  change (lit "-" ++ show b) with (chr "-" :: show b).
  rewrite split_once_sep by (apply show_no_char; [lia|done]).
  rewrite !parse_i64_show by (unfold I64_MAX, U32_MAX in *; lia). cbn [result_bind ok_or].
  by rewrite (proj2 (Z.ltb_ge a lo)), (proj2 (Z.ltb_ge hi b)), (proj2 (Z.ltb_ge b a)) by lia.
Qed.

Lemma parse_parts_app lo hi name r1 r2 out :
  parse_parts lo hi name (r1 ++ r2) out =
  result_bind (parse_parts lo hi name r1 out) (parse_parts lo hi name r2).
Proof.
  revert out. induction r1 as [|r r1 IH]; intros out; simpl; [done|].
  destruct (parse_part lo hi name r out); simpl; [apply IH|done].
Qed.

(** One run of consecutive values, printed and parsed. *)
Lemma parse_run lo hi name start last out :
  0 <= lo <= start -> start <= last -> last <= hi -> hi <= U32_MAX ->
  exists out', parse_parts lo hi name (render_run start last) out = Ok out' /\
    (forall x, In x out' <-> In x out \/ start <= x <= last) /\ (sorted out -> sorted out').
Proof.
  intros L SL H U. unfold render_run. destruct (Z.ltb_spec (start + 1) last).
  - cbn [parse_parts]. rewrite parse_part_range by lia. eexists. split; [done|]. split.
    + intros x. rewrite step_loop_in by lia. split; [intros [?|(k & ? & ? & ?)]; [auto|right; lia]|].
      intros [?|?]; [auto|]. right. exists (x - start). lia.
    + apply step_values_sorted.
  - destruct (Z.eqb_spec last (start + 1)) as [->|]; cbn [parse_parts].
    + rewrite !parse_part_value by lia. cbn [result_bind]. rewrite parse_part_value by lia.
      eexists. split; [done|]. split.
      * intros x. rewrite !set_insert_in. split; [intros [->|[->|?]]|intros [?|?]]; auto; lia.
      * intros S. by apply set_insert_sorted, set_insert_sorted.
    + rewrite parse_part_value by lia. eexists. split; [done|]. split.
      * intros x. rewrite set_insert_in. split; [intros [->|?]|intros [?|?]]; auto; lia.
      * apply set_insert_sorted.
Qed.

Lemma render_runs_parse fuel xs lo hi name out :
  0 <= lo -> hi <= U32_MAX -> (List.length xs <= fuel)%nat ->
  sorted xs -> Forall (fun x => lo <= x <= hi) xs ->
  exists out', parse_parts lo hi name (render_runs fuel xs) out = Ok out' /\
    (forall x, In x out' <-> In x out \/ In x xs) /\ (sorted out -> sorted out').
Proof.
  intros L U. revert xs out. induction fuel as [|fuel IH]; intros xs out Len S F.
  { destruct xs; [|simpl in Len; lia]. exists out. simpl. split; [done|]. split; [tauto|done]. }
  destruct xs as [|start xs]; [exists out; simpl; split; [done|]; split; [tauto|done]|]. cbn [render_runs].
  destruct (run_end start xs) as [last rest] eqn:R.
  destruct (run_end_spec _ _ _ _ S R) as (SL & Sr & Lr & I & M & Sub).
  rewrite List.Forall_forall in F.
  assert (last <= hi) as LH.
  { destruct M as [->|M]; apply F; simpl; auto. }
  assert (lo <= start) as LS by (apply F; by left).
  destruct (parse_run lo hi name start last out) as (o1 & P1 & I1 & S1); try lia.
  destruct (IH rest o1) as (o2 & P2 & I2 & S2); [simpl in Len; lia|done| |].
  { apply List.Forall_forall. intros x Hx. apply F. right. by apply Sub. }
  exists o2. rewrite parse_parts_app, P1. cbn [result_bind]. split; [done|]. split; [|auto].
  intros x. rewrite I2, I1. simpl.
  assert (start = x \/ In x xs <-> x = start \/ In x xs) as E by (split; intros [?|?]; auto).
  rewrite E, I. tauto.
Qed.

Lemma render_runs_words fuel xs :
  sorted xs -> Forall (fun x => 0 <= x) xs -> Forall cron_word (render_runs fuel xs).
Proof.
  revert xs. induction fuel as [|fuel IH]; intros xs S F; [constructor|].
  destruct xs as [|start xs]; [constructor|]. cbn [render_runs].
  destruct (run_end start xs) as [last rest] eqn:R.
  destruct (run_end_spec _ _ _ _ S R) as (SL & Sr & _ & _ & _ & Sub).
  inversion F as [|? ? F0 Fx]; subst. apply List.Forall_app. split.
  - unfold render_run. destruct (_ <? _); [|destruct (_ =? _)]; repeat constructor;
      solve [apply cron_word_range; lia | apply cron_word_show; lia].
  - apply IH; [done|]. rewrite List.Forall_forall in *. auto.
Qed.

Lemma render_runs_nonempty fuel xs : xs <> [] -> (1 <= fuel)%nat -> render_runs fuel xs <> [].
Proof.
  intros N F. destruct fuel as [|fuel]; [lia|]. destruct xs as [|x xs]; [done|]. simpl.
  destruct (run_end x xs). unfold render_run. destruct (_ <? _); [done|]. by destruct (_ =? _).
Qed.

(** No comma inside a printed run. *)
Lemma render_runs_no_comma fuel xs :
  sorted xs -> Forall (fun x => 0 <= x) xs -> Forall (fun p => ~ In 44%N p) (render_runs fuel xs).
Proof.
  revert xs. induction fuel as [|fuel IH]; intros xs S F; [constructor|].
  destruct xs as [|start xs]; [constructor|]. cbn [render_runs].
  destruct (run_end start xs) as [last rest] eqn:R.
  destruct (run_end_spec _ _ _ _ S R) as (SL & Sr & _ & _ & _ & Sub).
  inversion F as [|? ? F0 Fx]; subst. apply List.Forall_app. split.
  - assert (~ In 44%N (show start)) as C1 by (by apply show_no_char).
    assert (~ In 44%N (show last)) as C2 by (apply show_no_char; [lia|done]).
    unfold render_run. destruct (_ <? _); [|destruct (_ =? _)]; repeat constructor; try done.
    rewrite !in_app_iff. intros [?|[[?|[]]|?]]; done.
  - apply IH; [done|]. rewrite List.Forall_forall in *. auto.
Qed.

Definition domain (lo hi : Z) : list Z := map (fun i => lo + Z.of_nat i) (seq 0 (Z.to_nat (hi - lo + 1))).

Lemma domain_in lo hi x : lo <= hi -> In x (domain lo hi) <-> lo <= x <= hi.
Proof.
  intros L. unfold domain. rewrite in_map_iff. split.
  - intros (i & <- & I). apply in_seq in I. lia.
  - intros H. exists (Z.to_nat (x - lo)). split; [lia|]. apply in_seq. lia.
Qed.

Lemma sorted_NoDup xs : sorted xs -> List.NoDup xs.
Proof.
  induction xs as [|x xs IH]; intros S; [constructor|].
  apply StronglySorted_inv in S as [S F]. constructor; [|auto].
  rewrite List.Forall_forall in F. intros I. specialize (F _ I). lia.
Qed.

(** A field as long as its domain holds the whole domain. *)
Lemma full_field lo hi xs x :
  lo <= hi -> field_ok lo hi xs -> Z.of_nat (List.length xs) = hi - lo + 1 ->
  lo <= x <= hi -> In x xs.
Proof.
  intros L [S R _] Len Hx. apply (@List.NoDup_length_incl _ xs (domain lo hi)).
  - by apply sorted_NoDup.
  - unfold domain. rewrite length_map, length_seq. lia.
  - intros y Hy. rewrite List.Forall_forall in R. by apply domain_in, R.
  - by apply domain_in.
Qed.

Lemma parse_render_field xs lo hi name :
  0 <= lo <= hi -> hi <= U32_MAX -> field_ok lo hi xs ->
  parse_field (render_field xs lo hi) lo hi name = Ok xs.
Proof.
  intros LH U F. pose proof F as [S R N]. unfold render_field, parse_field.
  destruct (Nat.eqb_spec (List.length xs) 0); [by destruct xs|]. cbn [orb].
  destruct (Z.eqb_spec (Z.of_nat (List.length xs)) (hi - lo + 1)) as [Len|Len].
  - change (split (chr ",") (lit "*")) with [lit "*"].
    assert (parse_parts lo hi name [lit "*"] [] = Ok (step_loop lo hi 1 [])) as -> by done.
    f_equal. apply sorted_ext; [apply step_values_sorted; constructor|done|].
    intros x. rewrite step_loop_in by lia. split.
    + intros [[]|(k & ? & ? & ?)]. eapply full_field; [|exact F|exact Len|]; lia.
    + intros I. right. exists (x - lo). rewrite List.Forall_forall in R. specialize (R _ I). lia.
  - assert (Forall (fun x => 0 <= x) xs) as P.
    { eapply List.Forall_impl; [|exact R]. simpl. lia. }
    rewrite split_join; [|apply render_runs_nonempty; [done|lia]|by apply render_runs_no_comma].
    destruct (render_runs_parse (List.length xs) xs lo hi name [])
      as (out & -> & I & So); [lia|lia|lia|done|done|].
    f_equal. apply sorted_ext; [apply So; constructor|done|]. intros x. rewrite I. simpl. tauto.
Qed.

Lemma join_cron_word parts :
  parts <> [] -> Forall cron_word parts -> cron_word (join (lit ",") parts).
Proof.
  induction parts as [|p ps IH]; intros N F; [done|]. inversion F as [|? ? [Np Fp] Fps]; subst.
  destruct ps as [|q qs]; [done|].
  change (join (lit ",") (p :: q :: qs)) with (p ++ 44%N :: join (lit ",") (q :: qs)).
  destruct (IH ltac:(done) Fps) as [_ Fr]. split; [by destruct p|].
  apply List.Forall_app. split; [done|]. by constructor.
Qed.

Lemma render_field_word xs lo hi : 0 <= lo -> field_ok lo hi xs -> cron_word (render_field xs lo hi).
Proof.
  intros L [S R N]. unfold render_field. destruct (_ || _) eqn:E; [split; [done|by repeat constructor]|].
  assert (Forall (fun x => 0 <= x) xs) as P.
  { eapply List.Forall_impl; [|exact R]. simpl. lia. }
  apply join_cron_word; [|by apply render_runs_words]. apply render_runs_nonempty; [done|].
  destruct xs; [done|]. simpl. lia.
Qed.

(** What parsing guarantees and printing preserves. *)
Record cron_ok (e : CronExpr) : Prop := {
  ok_second : field_ok 0 59 (second e);
  ok_minute : field_ok 0 59 (minute e);
  ok_hour : field_ok 0 23 (hour e);
  ok_dom : field_ok 1 31 (day_of_month e);
  ok_month : field_ok 1 12 (month e);
  ok_dow : field_ok 0 6 (day_of_week e)
}.

Lemma field_ok_zero : field_ok 0 59 [0].
Proof. split; [by repeat constructor|by repeat constructor|done]. Qed.

Ltac bind_ok H :=
  repeat (apply result_bind_ok in H as (? & ? & H)).

Lemma parse_cron_ok expr e : parse_cron expr = Ok e -> cron_ok e.
Proof.
  unfold parse_cron. intros P. apply result_bind_ok in P as (expanded & _ & P).
  destruct (split_whitespace _) as [|f1 [|f2 [|f3 [|f4 [|f5 [|f6 [|f7 fs]]]]]]]; try done;
    bind_ok P; injection P as <-;
    split; simpl; first [apply field_ok_zero|eapply parse_field_ok; [| |eassumption]; [lia|done]].
Qed.

(** Words of cron characters joined by spaces survive [parse_cron]'s
    normalisation: trimming, the macro test, the [?] replacement, splitting. *)
Lemma normalise_words words :
  words <> [] -> Forall cron_word words ->
  trim (join (lit " ") words) = join (lit " ") words /\
  starts_with (lit "@") (join (lit " ") words) = false /\
  replace_char (chr "?") (lit "*") (join (lit " ") words) = join (lit " ") words /\
  split_whitespace (join (lit " ") words) = words.
Proof.
  intros N F. change (lit " ") with [32%N].
  assert (Forall (fun w => w <> [] /\ no_whitespace w) words) as W.
  { eapply List.Forall_impl; [|exact F]. intros w [Nw Cw]. split; [done|].
    eapply List.Forall_impl; [|exact Cw]. intros c Hc. by apply cron_char_excludes in Hc as [? _]. }
  assert (Forall (fun c => c <> 63%N /\ c <> 64%N) (join [32%N] words)) as C.
  { clear N W. induction F as [|w ws [_ Hw] _ IH]; [constructor|].
    assert (Forall (fun c => c <> 63%N /\ c <> 64%N) w) as Cw.
    { eapply List.Forall_impl; [|exact Hw]. intros c Hc. by apply cron_char_excludes in Hc as [_ ?]. }
    destruct ws as [|v vs]; [done|].
    change (join [32%N] (w :: v :: vs)) with (w ++ 32%N :: join [32%N] (v :: vs)).
    apply List.Forall_app. split; [done|]. by constructor. }
  split_and!; [by apply trim_join| | |by apply split_whitespace_join].
  - destruct (join [32%N] words) as [|c s]; [done|]. inversion C as [|? ? [_ H] _]; subst.
    unfold starts_with. change (lit "@") with [64%N]. cbn [strip_prefix].
    by destruct (N.eqb_spec 64 c) as [<-|].
  - apply replace_char_id. intros I. rewrite List.Forall_forall in C. by destruct (C _ I).
Qed.

(** The canonical rendering parses back: printing a well-formed expression
    (what the parser produces) and parsing the text gives the same
    expression, for the 5-field form and the 6-field form with seconds. *)
Lemma cron_round_trip e : cron_ok e -> parse_cron (cron_to_string e) = Ok e.
Proof.
  intros [Os Omi Oh Od Omo Ow].
  pose proof (fun xs lo hi name (L : 0 <= lo <= hi) (U : hi <= U32_MAX) => parse_render_field xs lo hi name L U) as PR.
  pose proof (render_field_word _ 0 59 ltac:(lia) Os). pose proof (render_field_word _ 0 59 ltac:(lia) Omi).
  pose proof (render_field_word _ 0 23 ltac:(lia) Oh). pose proof (render_field_word _ 1 31 ltac:(lia) Od).
  pose proof (render_field_word _ 1 12 ltac:(lia) Omo). pose proof (render_field_word _ 0 6 ltac:(lia) Ow).
  unfold cron_to_string.
  set (ws := [render_field (minute e) 0 59; render_field (hour e) 0 23; render_field (day_of_month e) 1 31;
              render_field (month e) 1 12; render_field (day_of_week e) 0 6]).
  assert (Forall cron_word ws) as Fw by (by repeat (apply List.Forall_cons; [done|])).
  case_bool_decide as S0.
  - destruct (normalise_words ws ltac:(done) Fw) as (T & A & Q & SW).
    unfold parse_cron. cbn [app]. rewrite T, A. cbn [result_bind]. rewrite Q, SW. unfold ws.
    rewrite !PR by (done || lia). cbn [result_bind]. rewrite <- S0. by destruct e.
  - rewrite <- app_assoc.
    change (render_field (second e) 0 59 ++ lit " " ++ join (lit " ") ws)
      with (join (lit " ") (render_field (second e) 0 59 :: ws)).
    destruct (normalise_words (render_field (second e) 0 59 :: ws) ltac:(done) ltac:(by constructor))
      as (T & A & Q & SW).
    unfold parse_cron. rewrite T, A. cbn [result_bind]. rewrite Q, SW. unfold ws.
    rewrite !PR by (done || lia). cbn [result_bind]. by destruct e.
Qed.

Definition demo_cron : CronExpr :=
  mkCron [0; 30] [0] [9; 10; 11; 17] (domain 1 31) (domain 1 12) [1; 2; 3; 4; 5].

Example cron_rendered : cron_to_string demo_cron = lit "0,30 0 9-11,17 * * 1-5".
Proof. vm_compute. reflexivity. Qed.

(** Parsing is idempotent through the printer: whatever text parses, the
    canonical rendering of the result parses to the same expression, and that
    expression is well formed (every field strictly increasing, inside its
    domain, not empty). *)
Theorem parse_render_parse expr e :
  parse_cron expr = Ok e -> cron_ok e /\ parse_cron (cron_to_string e) = Ok e.
Proof. intros P. apply parse_cron_ok in P. split; [done|]. by apply cron_round_trip. Qed.

Lemma parse_render_parse_witness :
  let e := mkCron [0; 30] [0] [9; 10; 11; 17] (domain 1 31) (domain 1 12) [1; 2; 3; 4; 5] in
  parse_cron (lit "30,0 0 9-11,17 ? * 1-5/1") = Ok e /\ cron_ok e /\ parse_cron (cron_to_string e) = Ok e.
Proof.
  split; [vm_compute; reflexivity|].
  apply (parse_render_parse (lit "30,0 0 9-11,17 ? * 1-5/1")). vm_compute. reflexivity.
Defined.

(** * Searching for fire times *)

Definition MINUTE_NANOS : Z := 60 * NANOS_PER_SEC.

Definition minute_start {D} `{Chrono D} (t : D) : Z :=
  instant t - t_second t * NANOS_PER_SEC - t_nanosecond t.

Definition same_calendar {D} `{Chrono D} (t u : D) : Prop :=
  t_minute t = t_minute u /\ t_hour t = t_hour u /\ t_day t = t_day u /\
  t_month t = t_month u /\ t_weekday t = t_weekday u.

(** What chrono promises for a zone with a constant offset of whole minutes, on times that do
    not use its leap-second representation: instants of the same minute share
    their calendar fields, the setters move inside the minute and never fail
    there, and checked arithmetic fails only at the end of the range. *)
Class FixedOffset (D : Type) `{Chrono D} : Prop := {
  second_bounds : forall t : D, 0 <= t_second t < 60;
  nanosecond_bounds : forall t : D, 0 <= t_nanosecond t < NANOS_PER_SEC;
  minutes_aligned : forall t u : D, exists k, minute_start u = minute_start t + k * MINUTE_NANOS;
  minute_calendar : forall t u : D, minute_start t = minute_start u -> same_calendar t u;
  with_second_law : forall s (t : D), 0 <= s < 60 ->
    exists t', with_second s t = Some t' /\ minute_start t' = minute_start t /\
               t_second t' = s /\ t_nanosecond t' = t_nanosecond t;
  with_nanosecond_law : forall n (t : D), 0 <= n < NANOS_PER_SEC ->
    exists t', with_nanosecond n t = Some t' /\ minute_start t' = minute_start t /\
               t_second t' = t_second t /\ t_nanosecond t' = n;
  add_minute_law : forall t t' : D, add_minute t = Some t' ->
    minute_start t' = minute_start t + MINUTE_NANOS /\
    t_second t' = t_second t /\ t_nanosecond t' = t_nanosecond t;
  add_minute_end : forall t u : D, add_minute t = None -> instant u < instant t + MINUTE_NANOS;
  sub_minute_law : forall t t' : D, sub_minute t = Some t' ->
    minute_start t' = minute_start t - MINUTE_NANOS /\
    t_second t' = t_second t /\ t_nanosecond t' = t_nanosecond t;
  sub_minute_end : forall t u : D, t_second t = 0 -> t_nanosecond t = 0 -> sub_minute t = None ->
    minute_start t <= minute_start u
}.

(** A fire time: a whole second selected by the expression. *)
Definition fires {D} `{Chrono D} (e : CronExpr) (t : D) : Prop :=
  matches e t = true /\ In (t_second t) (second e) /\ t_nanosecond t = 0.

Definition on_minute {D} `{Chrono D} (t : D) : Prop := t_second t = 0 /\ t_nanosecond t = 0.

Lemma find_first {A} (R : A -> A -> Prop) f l s :
  StronglySorted R l -> List.find f l = Some s ->
  In s l /\ f s = true /\ forall x, In x l -> f x = true -> x = s \/ R s x.
Proof.
  induction l as [|a l IH]; intros S F; [done|]. simpl in F.
  apply StronglySorted_inv in S as [S Fa]. rewrite List.Forall_forall in Fa.
  destruct (f a) eqn:E.
  - injection F as <-. split_and!; [by left|done|]. intros x [->|I] _; auto.
  - destruct (IH S F) as (I & E1 & L). split_and!; [by right|done|].
    intros x [->|Ix] Ex; [congruence|auto].
Qed.

Lemma sorted_rev xs : sorted xs -> StronglySorted Z.gt (rev xs).
Proof.
  induction xs as [|x xs IH]; intros S; [constructor|]. simpl.
  apply StronglySorted_inv in S as [S F]. specialize (IH S).
  assert (Forall (fun y => x < y) (rev xs)) as Fr by (by apply List.Forall_rev).
  clear F S. induction (rev xs) as [|y ys IHy]; simpl; [by repeat constructor|].
  apply StronglySorted_inv in IH as [Sy Fy]. inversion Fr as [|? ? L Fr']; subst.
  constructor; [auto|]. apply List.Forall_app. split; [done|]. repeat constructor. lia.
Qed.

Section Search.
Context {D : Type} `{FixedOffset D}.
Implicit Types t u r : D.

Lemma instant_split t : instant t = minute_start t + t_second t * NANOS_PER_SEC + t_nanosecond t.
Proof. unfold minute_start. lia. Qed.

(** An instant lies inside its minute. *)
Lemma minute_bounds t : minute_start t <= instant t < minute_start t + MINUTE_NANOS.
Proof.
  rewrite instant_split. pose proof (second_bounds t). pose proof (nanosecond_bounds t).
  unfold MINUTE_NANOS, NANOS_PER_SEC in *. lia.
Qed.

(** Distinct minutes are at least a minute apart. *)
Lemma minute_after t u : minute_start t < minute_start u -> minute_start t + MINUTE_NANOS <= minute_start u.
Proof. destruct (minutes_aligned t u) as (k & ->). unfold MINUTE_NANOS, NANOS_PER_SEC. nia. Qed.

Lemma matches_minute e t u : minute_start t = minute_start u -> matches e t = matches e u.
Proof. intros E. destruct (minute_calendar t u E) as (A & B & C & F & G). unfold matches. by rewrite A, B, C, F, G. Qed.

Lemma on_minute_instant t : on_minute t -> instant t = minute_start t.
Proof. intros [S N]. rewrite instant_split, S, N. lia. Qed.

(** Setting a selected second of a matching minute gives a fire time there. *)
Lemma select_second e t s :
  cron_ok e -> on_minute t -> matches e t = true -> In s (second e) ->
  exists r, with_second s t = Some r /\ fires e r /\ minute_start r = minute_start t /\
            instant r = minute_start t + s * NANOS_PER_SEC.
Proof.
  intros [[_ R _] _ _ _ _ _] [S N] M I. rewrite List.Forall_forall in R.
  destruct (with_second_law s t) as (r & E & Mr & Sr & Nr); [specialize (R _ I); lia|].
  exists r. split_and!; [done| |done|].
  - split_and!; [by rewrite (matches_minute e r t)|by rewrite Sr|congruence].
  - rewrite instant_split, Mr, Sr, Nr, N. lia.
Qed.

(** A fire time of the minute [m] is [m] plus a selected second. *)
Lemma fires_instant e u : fires e u -> instant u = minute_start u + t_second u * NANOS_PER_SEC.
Proof. intros (_ & _ & N). rewrite instant_split, N. lia. Qed.

Lemma floor_minute_law t :
  exists f, floor_minute t = Some f /\ on_minute f /\ minute_start f = minute_start t.
Proof.
  unfold floor_minute. destruct (with_second_law 0 t) as (t1 & -> & M1 & S1 & _); [lia|].
  destruct (with_nanosecond_law 0 t1) as (t2 & -> & M2 & S2 & N2); [unfold NANOS_PER_SEC; lia|].
  exists t2. split_and!; [done|split; congruence|congruence].
Qed.

(** The forward search from the start of a minute. *)
Lemma search_next_spec e n t :
  cron_ok e -> on_minute t ->
  match search_next n e t with
  | Some r => fires e r /\ instant t <= instant r /\
              forall u, fires e u -> instant t <= instant u -> instant r <= instant u
  | None => forall u, fires e u -> instant t <= instant u ->
              instant t + Z.of_nat n * MINUTE_NANOS <= instant u
  end.
Proof.
  intros C. pose proof (ok_second _ C) as [Ss Rs Ns].
  revert t. induction n as [|n IH]; intros t O; [simpl; lia|]. cbn [search_next].
  pose proof (on_minute_instant t O) as It.
  destruct (matches e t) eqn:M.
  - destruct (second e) as [|s0 ss] eqn:Es; [done|]. cbn [head].
    destruct (select_second e t s0 C O M) as (r & -> & Fr & Mr & Ir); [rewrite Es; by left|].
    split_and!; [done|rewrite It; pose proof (minute_bounds r); lia|]. intros u Fu Lu.
    pose proof (minute_bounds u). pose proof (minute_bounds r).
    destruct (Z.eq_dec (minute_start u) (minute_start t)) as [Eu|Nu].
    + rewrite (fires_instant _ _ Fu), Ir, Eu. destruct Fu as (_ & Iu & _). rewrite Es in Iu.
      apply StronglySorted_inv in Ss as [_ Fs]. rewrite List.Forall_forall in Fs.
      destruct Iu as [<-|Iu]; [lia|]. specialize (Fs _ Iu). unfold NANOS_PER_SEC. lia.
    + assert (minute_start t < minute_start u) as L%minute_after; [|lia].
      destruct (Z.lt_ge_cases (minute_start t) (minute_start u)) as [|Lt]; [done|].
      assert (minute_start u < minute_start t) as L%minute_after; lia.
  - assert (forall u, fires e u -> instant t <= instant u -> instant t + MINUTE_NANOS <= instant u) as Skip.
    { intros u Fu Lu. pose proof (minute_bounds u).
      destruct (Z.lt_trichotomy (minute_start t) (minute_start u)) as [L|[E|L]].
      - apply minute_after in L. lia.
      - destruct Fu as (Mu & _ & _). rewrite (matches_minute e u t) in Mu by done. congruence.
      - apply minute_after in L. lia. }
    destruct (add_minute t) as [t'|] eqn:A.
    + destruct (add_minute_law _ _ A) as (Mt & St & Nt).
      assert (on_minute t') as O' by (destruct O; split; congruence).
      pose proof (on_minute_instant t' O') as It'. specialize (IH t' O').
      destruct (search_next n e t') as [r|].
      * destruct IH as (Fr & Lr & Min). split_and!; [done|unfold MINUTE_NANOS, NANOS_PER_SEC in *; lia|].
        intros u Fu Lu. apply Min; [done|]. specialize (Skip u Fu Lu). lia.
      * intros u Fu Lu. specialize (Skip u Fu Lu). specialize (IH u Fu ltac:(lia)). lia.
    + intros u Fu Lu. pose proof (add_minute_end t u A). specialize (Skip u Fu Lu). lia.
Qed.

(** Two instants of which the first's minute is not later than the second's. *)
Lemma minute_cases t u : (minute_start u = minute_start t \/
  minute_start t + MINUTE_NANOS <= minute_start u) \/ minute_start u + MINUTE_NANOS <= minute_start t.
Proof.
  destruct (Z.lt_ge_cases (minute_start t) (minute_start u)) as [L|L];
    destruct (Z.eq_dec (minute_start u) (minute_start t)) as [E|E]; auto.
  - left. right. by apply minute_after.
  - right. apply minute_after. lia.
Qed.

(** The backward search from the start of a minute: [n] minutes ending with it. *)
Lemma search_prev_spec e n t :
  cron_ok e -> on_minute t ->
  match search_prev n e t with
  | Some r => fires e r /\ instant r < instant t + MINUTE_NANOS /\
              forall u, fires e u -> instant u < instant t + MINUTE_NANOS -> instant u <= instant r
  | None => forall u, fires e u -> instant u < instant t + MINUTE_NANOS ->
              instant u + Z.of_nat n * MINUTE_NANOS < instant t + MINUTE_NANOS
  end.
Proof.
  intros C. pose proof (ok_second _ C) as [Ss Rs Ns]. apply sorted_rev in Ss.
  revert t. induction n as [|n IH]; intros t O; [simpl; lia|]. cbn [search_prev].
  pose proof (on_minute_instant t O) as It.
  destruct (matches e t) eqn:M.
  - destruct (rev (second e)) as [|s0 ss] eqn:Es.
    { apply (f_equal (@rev Z)) in Es. by rewrite rev_involutive in Es. }
    cbn [head]. assert (In s0 (second e)) as I0 by (rewrite in_rev, Es; by left).
    destruct (select_second e t s0 C O M I0) as (r & -> & Fr & Mr & Ir).
    pose proof (minute_bounds r). split_and!; [done|lia|]. intros u Fu Lu.
    pose proof (minute_bounds u). destruct (minute_cases t u) as [[Eu|L]|L]; [|lia|lia].
    rewrite (fires_instant _ _ Fu), Ir, Eu. destruct Fu as (_ & Iu & _).
    rewrite in_rev, Es in Iu. apply StronglySorted_inv in Ss as [_ Fs]. rewrite List.Forall_forall in Fs.
    destruct Iu as [<-|Iu]; [lia|]. specialize (Fs _ Iu). unfold NANOS_PER_SEC. lia.
  - assert (forall u, fires e u -> instant u < instant t + MINUTE_NANOS -> instant u < instant t) as Skip.
    { intros u Fu Lu. pose proof (minute_bounds u). destruct (minute_cases t u) as [[E|L]|L]; [|lia|lia].
      destruct Fu as (Mu & _ & _). rewrite (matches_minute e u t) in Mu by done. congruence. }
    destruct (sub_minute t) as [t'|] eqn:A.
    + destruct (sub_minute_law _ _ A) as (Mt & St & Nt).
      assert (on_minute t') as O' by (destruct O; split; congruence).
      pose proof (on_minute_instant t' O') as It'. specialize (IH t' O').
      destruct (search_prev n e t') as [r|].
      * destruct IH as (Fr & Lr & Max). split_and!; [done|unfold MINUTE_NANOS, NANOS_PER_SEC in *; lia|].
        intros u Fu Lu. apply Max; [done|]. specialize (Skip u Fu Lu). lia.
      * intros u Fu Lu. specialize (Skip u Fu Lu). specialize (IH u Fu ltac:(lia)). lia.
    + intros u Fu Lu. pose proof (sub_minute_end t u (proj1 O) (proj2 O) A). pose proof (minute_bounds u).
      specialize (Skip u Fu Lu). lia.
Qed.

(** What a search for the next fire time returns. *)
Definition next_spec e (from : D) (o : option D) : Prop :=
  match o with
  | Some r => fires e r /\ instant from < instant r /\
              forall u, fires e u -> instant from < instant u -> instant r <= instant u
  | None => forall u, fires e u -> instant from < instant u ->
              minute_start from + (1 + Z.of_nat MAX_SEARCH_MINUTES) * MINUTE_NANOS <= instant u
  end.

Lemma later_spec e f from :
  cron_ok e -> on_minute f -> minute_start f = minute_start from ->
  (forall u, fires e u -> instant from < instant u -> minute_start f + MINUTE_NANOS <= minute_start u) ->
  next_spec e from (match add_minute f with Some t => search_next MAX_SEARCH_MINUTES e t | None => None end).
Proof.
  intros C O Mf Skip. pose proof (minute_bounds from). pose proof (on_minute_instant f O).
  unfold next_spec. destruct (add_minute f) as [t|] eqn:A.
  - destruct (add_minute_law _ _ A) as (Mt & St & Nt).
    assert (on_minute t) as Ot by (destruct O; split; congruence).
    pose proof (on_minute_instant t Ot) as It.
    pose proof (search_next_spec e MAX_SEARCH_MINUTES t C Ot) as S.
    destruct (search_next _ e t) as [r|].
    + destruct S as (Fr & Lr & Min). split_and!; [done|lia|].
      intros u Fu Lu. apply Min; [done|]. specialize (Skip u Fu Lu). pose proof (minute_bounds u). lia.
    + intros u Fu Lu. specialize (Skip u Fu Lu). pose proof (minute_bounds u). specialize (S u Fu ltac:(lia)). lia.
  - intros u Fu Lu. pose proof (add_minute_end f u A). specialize (Skip u Fu Lu). pose proof (minute_bounds u). lia.
Qed.

Lemma next_meets_spec e from : cron_ok e -> next_spec e from (next e from).
Proof.
  intros C. pose proof (ok_second _ C) as [Ss Rs Ns]. unfold next.
  destruct (floor_minute_law from) as (f & -> & O & Mf).
  pose proof (second_bounds from). pose proof (nanosecond_bounds from).
  pose proof (instant_split from) as If. pose proof (minute_bounds from).
  assert (forall u, fires e u -> instant from < instant u -> (minute_start u = minute_start f -> False) ->
            minute_start f + MINUTE_NANOS <= minute_start u) as Other.
  { intros u Fu Lu Nu. pose proof (minute_bounds u). destruct (minute_cases f u) as [[E|L]|L]; [done|done|lia]. }
  destruct (matches e f) eqn:M.
  - destruct (List.find _ (second e)) as [s|] eqn:Fd.
    + destruct (find_first _ _ _ _ Ss Fd) as (Is & Ls%Z.ltb_lt & Min).
      destruct (select_second e f s C O M Is) as (r & -> & Fr & Mr & Ir).
      pose proof (minute_bounds r). split_and!; [done|unfold NANOS_PER_SEC in *; lia|].
      intros u Fu Lu. pose proof (minute_bounds u).
      destruct (minute_cases f u) as [[E|L]|L]; [|lia|lia].
      rewrite (fires_instant _ _ Fu), Ir, E. pose proof (fires_instant _ _ Fu) as Iu.
      destruct Fu as (_ & Su & _).
      assert (t_second u = s \/ s < t_second u) as [->|?]; [|lia|unfold NANOS_PER_SEC; lia].
      apply Min; [done|]. apply Z.ltb_lt. unfold NANOS_PER_SEC in *. lia.
    + apply later_spec; [done..|]. intros u Fu Lu. apply Other; [done..|]. intros E.
      pose proof (fires_instant _ _ Fu) as Iu. destruct Fu as (_ & Su & _).
      pose proof (List.find_none _ _ Fd _ Su) as Hs%Z.ltb_ge. unfold NANOS_PER_SEC in *. lia.
  - apply later_spec; [done..|]. intros u Fu Lu. apply Other; [done..|]. intros E.
    destruct Fu as (Mu & _ & _). rewrite (matches_minute e u f) in Mu by done. congruence.
Qed.

(** What a search for the previous fire time returns. *)
Definition prev_spec e (before : D) (o : option D) : Prop :=
  match o with
  | Some r => fires e r /\ instant r < instant before /\
              forall u, fires e u -> instant u < instant before -> instant u <= instant r
  | None => forall u, fires e u -> instant u < instant before ->
              instant u + Z.of_nat MAX_SEARCH_MINUTES * MINUTE_NANOS < minute_start before
  end.

Lemma earlier_spec e f before :
  cron_ok e -> on_minute f -> minute_start f = minute_start before ->
  (forall u, fires e u -> instant u < instant before -> instant u < minute_start f) ->
  prev_spec e before (match sub_minute f with Some t => search_prev MAX_SEARCH_MINUTES e t | None => None end).
Proof.
  intros C O Mf Skip. pose proof (minute_bounds before). pose proof (on_minute_instant f O).
  unfold prev_spec. destruct (sub_minute f) as [t|] eqn:A.
  - destruct (sub_minute_law _ _ A) as (Mt & St & Nt).
    assert (on_minute t) as Ot by (destruct O; split; congruence).
    pose proof (on_minute_instant t Ot) as It.
    pose proof (search_prev_spec e MAX_SEARCH_MINUTES t C Ot) as S.
    destruct (search_prev _ e t) as [r|].
    + destruct S as (Fr & Lr & Max). split_and!; [done|lia|].
      intros u Fu Lu. apply Max; [done|]. specialize (Skip u Fu Lu). lia.
    + intros u Fu Lu. specialize (Skip u Fu Lu). specialize (S u Fu ltac:(lia)). lia.
  - intros u Fu Lu. pose proof (sub_minute_end f u (proj1 O) (proj2 O) A). specialize (Skip u Fu Lu).
    pose proof (minute_bounds u). lia.
Qed.

Lemma prev_meets_spec e before : cron_ok e -> prev_spec e before (prev e before).
Proof.
  intros C. pose proof (ok_second _ C) as [Ss Rs Ns]. apply sorted_rev in Ss. unfold prev.
  destruct (floor_minute_law before) as (f & -> & O & Mf).
  pose proof (second_bounds before). pose proof (nanosecond_bounds before).
  pose proof (instant_split before) as If. pose proof (minute_bounds before).
  set (cutoff := if 0 <? t_nanosecond before then t_second before + 1 else t_second before).
  assert (forall s, s < cutoff <-> minute_start f + s * NANOS_PER_SEC < instant before) as Cut.
  { intros s. rewrite If, Mf. unfold cutoff, NANOS_PER_SEC in *. destruct (Z.ltb_spec 0 (t_nanosecond before)); lia. }
  assert (forall u, fires e u -> instant u < instant before -> (minute_start u = minute_start f -> False) ->
            instant u < minute_start f) as Other.
  { intros u Fu Lu Nu. pose proof (minute_bounds u). destruct (minute_cases f u) as [[E|L]|L]; [done|lia|lia]. }
  destruct (matches e f) eqn:M.
  - destruct (List.find _ (rev (second e))) as [s|] eqn:Fd.
    + destruct (find_first _ _ _ _ Ss Fd) as (Is & Ls%Z.ltb_lt & Max). apply in_rev in Is.
      destruct (select_second e f s C O M Is) as (r & -> & Fr & Mr & Ir).
      pose proof (minute_bounds r). split_and!; [done|rewrite Ir; by apply Cut|].
      intros u Fu Lu. pose proof (minute_bounds u).
      destruct (minute_cases f u) as [[E|L]|L]; [|lia|lia].
      rewrite (fires_instant _ _ Fu), E in Lu. apply Cut in Lu.
      rewrite (fires_instant _ _ Fu), Ir, E. destruct Fu as (_ & Su & _).
      assert (t_second u = s \/ s > t_second u) as [->|?]; [|lia|unfold NANOS_PER_SEC; lia].
      apply Max; [by apply in_rev in Su|]. by apply Z.ltb_lt.
    + apply earlier_spec; [done..|]. intros u Fu Lu. apply Other; [done..|]. intros E.
      rewrite (fires_instant _ _ Fu), E in Lu. apply Cut in Lu. destruct Fu as (_ & Su & _).
      apply in_rev in Su. pose proof (List.find_none _ _ Fd _ Su) as Hs%Z.ltb_ge. lia.
  - apply earlier_spec; [done..|]. intros u Fu Lu. apply Other; [done..|]. intros E.
    destruct Fu as (Mu & _ & _). rewrite (matches_minute e u f) in Mu by done. congruence.
Qed.

End Search.

(** * UTC *)

(** UTC times as nanoseconds since the epoch, without chrono's bound on the
    year: the proleptic Gregorian calendar in closed form. *)
Definition Utc : Type := Z.

Module Gregorian.
(** Month and day of a day number (days since 1970-01-01); the year starts in March. *)
Definition month_day (days : Z) : Z * Z :=
  let doe := (days + 719468) mod 146097 in
  let yoe := (doe - doe / 1460 + doe / 36524 - doe / 146096) / 365 in
  let doy := doe - (365 * yoe + yoe / 4 - yoe / 100) in
  let mp := (5 * doy + 2) / 153 in
  (if mp <? 10 then mp + 3 else mp - 9, doy - (153 * mp + 2) / 5 + 1).

Definition minutes (t : Utc) : Z := t / MINUTE_NANOS.
Definition days (t : Utc) : Z := minutes t / 1440.
Definition seconds (t : Utc) : Z := (t / NANOS_PER_SEC) mod 60.
Definition nanos (t : Utc) : Z := t mod NANOS_PER_SEC.
End Gregorian.

#[export] Instance utc_chrono : Chrono Utc := {
  t_minute t := Gregorian.minutes t mod 60;
  t_hour t := (Gregorian.minutes t / 60) mod 24;
  t_day t := snd (Gregorian.month_day (Gregorian.days t));
  t_month t := fst (Gregorian.month_day (Gregorian.days t));
  t_weekday t := (Gregorian.days t + 4) mod 7;
  t_second t := Gregorian.seconds t;
  t_nanosecond t := Gregorian.nanos t;
  with_second s t := if (0 <=? s) && (s <? 60) then Some (t + (s - Gregorian.seconds t) * NANOS_PER_SEC) else None;
  with_nanosecond n t := if (0 <=? n) && (n <? NANOS_PER_SEC) then Some (t + (n - Gregorian.nanos t)) else None;
  add_minute t := Some (t + MINUTE_NANOS);
  sub_minute t := Some (t - MINUTE_NANOS);
  instant t := t
}.

Lemma utc_parts (t : Utc) :
  t = Gregorian.minutes t * MINUTE_NANOS + Gregorian.seconds t * NANOS_PER_SEC + Gregorian.nanos t /\
  0 <= Gregorian.seconds t < 60 /\ 0 <= Gregorian.nanos t < NANOS_PER_SEC.
Proof.
  unfold Gregorian.minutes, Gregorian.seconds, Gregorian.nanos, MINUTE_NANOS, NANOS_PER_SEC.
  rewrite (Z.mul_comm 60), <- Z.div_div by lia.
  pose proof (Z.div_mod t 1000000000 ltac:(lia)). pose proof (Z.div_mod (t / 1000000000) 60 ltac:(lia)).
  pose proof (Z.mod_pos_bound t 1000000000 ltac:(lia)).
  pose proof (Z.mod_pos_bound (t / 1000000000) 60 ltac:(lia)). lia.
Qed.

(** The decomposition into minutes, seconds and nanoseconds is unique. *)
Lemma utc_unique (t : Utc) m s n :
  t = m * MINUTE_NANOS + s * NANOS_PER_SEC + n -> 0 <= s < 60 -> 0 <= n < NANOS_PER_SEC ->
  Gregorian.minutes t = m /\ Gregorian.seconds t = s /\ Gregorian.nanos t = n.
Proof.
  destruct (utc_parts t) as (E & Bs & Bn). intros E2 Bs2 Bn2.
  unfold MINUTE_NANOS, NANOS_PER_SEC in *.
  assert (Gregorian.minutes t = m) by lia. assert (Gregorian.seconds t = s) by lia. lia.
Qed.

Lemma utc_minute_start (t : Utc) : minute_start t = Gregorian.minutes t * MINUTE_NANOS.
Proof.
  destruct (utc_parts t) as (E & _). change (minute_start t)
    with (t - Gregorian.seconds t * NANOS_PER_SEC - Gregorian.nanos t). lia.
Qed.

#[export] Instance utc_fixed_offset : FixedOffset Utc.
Proof.
  assert (forall (t : Utc) m s n, 0 <= s < 60 -> 0 <= n < NANOS_PER_SEC ->
    let t' : Utc := m * MINUTE_NANOS + s * NANOS_PER_SEC + n in
    minute_start t' = m * MINUTE_NANOS /\ t_second t' = s /\ t_nanosecond t' = n) as Build.
  { intros t m s n Bs Bn t'. destruct (utc_unique t' m s n eq_refl Bs Bn) as (M & S & N).
    rewrite utc_minute_start, M. done. }
  split; intros t.
  - apply utc_parts.
  - apply utc_parts.
  - intros u. rewrite !utc_minute_start. exists (Gregorian.minutes u - Gregorian.minutes t). lia.
  - intros u. rewrite !utc_minute_start. intros E.
    assert (Gregorian.minutes t = Gregorian.minutes u) as M by (unfold MINUTE_NANOS, NANOS_PER_SEC in *; lia).
    unfold same_calendar. simpl. unfold Gregorian.days. rewrite M. done.
  - intros u Bs. destruct (utc_parts u) as (E & _ & Bn). simpl.
    rewrite (proj2 (Z.leb_le 0 t)), (proj2 (Z.ltb_lt t 60)) by lia. eexists. split; [done|].
    rewrite (utc_minute_start u).
    destruct (Build u (Gregorian.minutes u) t (Gregorian.nanos u) Bs Bn) as (B1 & B2 & B3).
    replace (u + (t - Gregorian.seconds u) * NANOS_PER_SEC)
      with (Gregorian.minutes u * MINUTE_NANOS + t * NANOS_PER_SEC + Gregorian.nanos u) by lia.
    exact (conj B1 (conj B2 B3)).
  - intros u Bn. destruct (utc_parts u) as (E & Bs & _). simpl.
    rewrite (proj2 (Z.leb_le 0 t)), (proj2 (Z.ltb_lt t NANOS_PER_SEC)) by lia. eexists. split; [done|].
    rewrite (utc_minute_start u).
    destruct (Build u (Gregorian.minutes u) (Gregorian.seconds u) t Bs Bn) as (B1 & B2 & B3).
    replace (u + (t - Gregorian.nanos u))
      with (Gregorian.minutes u * MINUTE_NANOS + Gregorian.seconds u * NANOS_PER_SEC + t) by lia.
    exact (conj B1 (conj B2 B3)).
  - intros t' [= <-]. destruct (utc_parts t) as (E & Bs & Bn). rewrite (utc_minute_start t).
    destruct (Build t (Gregorian.minutes t + 1) _ _ Bs Bn) as (B1 & B2 & B3).
    replace (t + MINUTE_NANOS) with ((Gregorian.minutes t + 1) * MINUTE_NANOS +
      Gregorian.seconds t * NANOS_PER_SEC + Gregorian.nanos t) by lia.
    split_and!; [rewrite B1; lia|exact B2|exact B3].
  - intros u [=].
  - intros t' [= <-]. destruct (utc_parts t) as (E & Bs & Bn). rewrite (utc_minute_start t).
    destruct (Build t (Gregorian.minutes t - 1) _ _ Bs Bn) as (B1 & B2 & B3).
    replace (t - MINUTE_NANOS) with ((Gregorian.minutes t - 1) * MINUTE_NANOS +
      Gregorian.seconds t * NANOS_PER_SEC + Gregorian.nanos t) by lia.
    split_and!; [rewrite B1; lia|exact B2|exact B3].
  - intros u _ _ [=].
Qed.

(** * Theorems: fire times *)

(** C37 The next fire time in a zone of constant offset is a fire time, lies
    strictly after the given instant, and is the earliest such; the answer
    none means that no instant of the following 366 days fires. *)
Theorem next_is_earliest {D} `{FixedOffset D} (e : CronExpr) (from : D) :
  cron_ok e ->
  match next e from with
  | Some r => fires e r /\ instant from < instant r /\
              forall u : D, fires e u -> instant from < instant u -> instant r <= instant u
  | None => forall u : D, fires e u -> instant from < instant u ->
              instant from + Z.of_nat MAX_SEARCH_MINUTES * MINUTE_NANOS < instant u
  end.
Proof.
  intros C. pose proof (next_meets_spec e from C) as S. unfold next_spec in S.
  destruct (next e from) as [r|]; [done|]. intros u Fu Lu. specialize (S u Fu Lu).
  pose proof (minute_bounds from). lia.
Qed.

(** The previous fire time in a zone of constant offset is a fire time,
    lies strictly before the given instant (sub-second parts included), and is
    the latest such; the answer none means that no instant of the preceding
    366 days fires. *)
Theorem prev_is_latest {D} `{FixedOffset D} (e : CronExpr) (before : D) :
  cron_ok e ->
  match prev e before with
  | Some r => fires e r /\ instant r < instant before /\
              forall u : D, fires e u -> instant u < instant before -> instant u <= instant r
  | None => forall u : D, fires e u -> instant u < instant before ->
              instant u < instant before - Z.of_nat MAX_SEARCH_MINUTES * MINUTE_NANOS
  end.
Proof.
  intros C. pose proof (prev_meets_spec e before C) as S. unfold prev_spec in S.
  destruct (prev e before) as [r|]; [done|]. intros u Fu Lu. specialize (S u Fu Lu).
  pose proof (minute_bounds before). lia.
Qed.

(** [next_n] returns fire times after the given instant, in strictly
    increasing order, without skipping any: a later fire time is either in the
    list or after all of it. *)
Theorem next_n_in_order {D} `{FixedOffset D} (e : CronExpr) (n : nat) (after : D) :
  cron_ok e ->
  StronglySorted Z.lt (map instant (next_n e n after)) /\
  Forall (fun r => fires e r /\ instant after < instant r) (next_n e n after) /\
  forall u : D, fires e u -> instant after < instant u ->
    In (instant u) (map instant (next_n e n after)) \/
    Forall (fun r => instant r < instant u) (next_n e n after).
Proof.
  intros C. revert after. induction n as [|n IH]; intros after.
  { simpl. split_and!; [constructor|constructor|right; constructor]. }
  cbn [next_n]. pose proof (next_meets_spec e after C) as S. unfold next_spec in S.
  destruct (next e after) as [r|].
  2:{ split_and!; [constructor|constructor|right; constructor]. }
  destruct S as (Fr & Lr & Min). destruct (IH r) as (So & Fo & All). cbn [map]. split_and!.
  - constructor; [done|]. apply List.Forall_map. eapply List.Forall_impl; [|exact Fo]. simpl. tauto.
  - constructor; [done|]. eapply List.Forall_impl; [|exact Fo]. simpl. intros x [? ?]. split; [done|lia].
  - intros u Fu Lu. specialize (Min u Fu Lu).
    destruct (Z.eq_dec (instant r) (instant u)) as [->|N]; [left; by left|].
    destruct (All u Fu ltac:(lia)) as [I|F]; [left; by right|]. right. constructor; [lia|done].
Qed.

(** 2026-06-09 12:02:45.5 UTC, a Tuesday. *)
Definition june_9 : Utc := 1781006565500000000.

Definition workday_cron : CronExpr :=
  mkCron [0; 30] [0] [9; 10; 11; 17] (domain 1 31) (domain 1 12) [1; 2; 3; 4; 5].

Lemma workday_ok : cron_ok workday_cron.
Proof. apply (parse_cron_ok (lit "0,30 0 9-11,17 * * 1-5")). vm_compute. reflexivity. Qed.

Lemma next_is_earliest_witness :
  fires workday_cron (1781024400000000000 : Utc) /\ june_9 < 1781024400000000000 /\
  forall u : Utc, fires workday_cron u -> june_9 < instant u -> 1781024400000000000 <= instant u.
Proof.
  assert (next workday_cron june_9 = Some (1781024400000000000 : Utc)) as E by (vm_compute; reflexivity).
  pose proof (next_is_earliest workday_cron june_9 workday_ok) as P. rewrite E in P. exact P.
Defined.

Lemma prev_is_latest_witness :
  fires workday_cron (1781002830000000000 : Utc) /\ 1781002830000000000 < june_9 /\
  forall u : Utc, fires workday_cron u -> instant u < june_9 -> instant u <= 1781002830000000000.
Proof.
  assert (prev workday_cron june_9 = Some (1781002830000000000 : Utc)) as E by (vm_compute; reflexivity).
  pose proof (prev_is_latest workday_cron june_9 workday_ok) as P. rewrite E in P. exact P.
Defined.

Lemma next_n_in_order_witness :
  next_n workday_cron 3 june_9 = ([1781024400000000000; 1781024430000000000; 1781082000000000000] : list Utc) /\
  StronglySorted Z.lt (map instant (next_n workday_cron 3 june_9)).
Proof. split; [vm_compute; reflexivity|]. apply (next_n_in_order workday_cron 3 june_9 workday_ok). Defined.
