(* ===== verification/Json.v ===== *)
(** The JSON values the data layer filters with.

    [serde_json::Value] and its [Number] and [Map] belong to the serde_json
    crate; they are the class [JsonValue], whose [view] and [inject] are the
    public enum seen from outside, with the laws the proofs rely on in
    [JsonLaws]. [json] is a concrete instance on which witnesses compute. *)
From Stdlib Require Import Ascii String.
From Stdlib Require Import ZArith NArith List Lia Floats.SpecFloat.
From stdpp Require Import base decidable list gmap.
From S2P Require Import Prelude Str.

(** The variants of [serde_json::Value] over its own number and map types. *)
Module Value.
Inductive t (V N M : Type) : Type :=
| Null
| Bool (b : bool)
| Number (n : N)
| String (s : str)
| Array (items : list V)
| Object (map : M).
Arguments Null {V N M}.
Arguments Bool {V N M} b.
Arguments Number {V N M} n.
Arguments String {V N M} s.
Arguments Array {V N M} items.
Arguments Object {V N M} map.
End Value.

Class JsonValue (V : Type) : Type := {
  Num : Type;
  Map : Type;
  view : V -> Value.t V Num Map;
  inject : Value.t V Num Map -> V;
  (** [PartialEq], [Number::as_f64], [Display] and [Value::from] of an integer. *)
  value_eqb : V -> V -> bool;
  as_f64 : Num -> option f64;
  value_to_string : V -> str;
  value_of_Z : Z -> V;
  map_new : Map;
  map_insert : str -> V -> Map -> Map;
  map_get : str -> Map -> option V;
  map_is_empty : Map -> bool
}.

Class JsonLaws (V : Type) `{JsonValue V} : Prop := {
  view_inject : forall s, view (inject s) = s;
  map_get_insert : forall k v m, map_get k (map_insert k v m) = Some v;
  map_get_insert_ne : forall k k' v m, k <> k' -> map_get k (map_insert k' v m) = map_get k m;
  map_get_new : forall k, map_get k map_new = None;
  map_is_empty_new : map_is_empty map_new = true;
  map_is_empty_insert : forall k v m, map_is_empty (map_insert k v m) = false
}.

(** Numbers have an [f64] value, and it is not NaN: serde_json's own
    guarantee without its arbitrary-precision feature. *)
Class JsonNumbers (V : Type) `{JsonValue V} : Prop := {
  number_value : forall n : Num, exists x, as_f64 n = Some x /\ f64_is_nan x = false
}.

(** [Value::from(f64)]: a number when finite, else null. *)
Class JsonFloats (V : Type) `{JsonValue V} : Type := {
  value_of_f64 : f64 -> V;
  value_of_f64_finite : forall x, f64_is_finite x = true ->
    exists n, view (value_of_f64 x) = Value.Number n /\ as_f64 n = Some x;
  value_of_f64_other : forall x, f64_is_finite x = false -> view (value_of_f64 x) = Value.Null
}.

(** [Map::iter]; a key stands in it once, and the first counts if it did not. *)
Class JsonEntries (V : Type) `{JsonValue V} : Type := {
  entries : Map -> list (str * V);
  entries_get : forall k m, map_get k m = (list_to_map (entries m) : gmap str V) !! k
}.

Section Operations.
Context {V : Type} `{JsonValue V}.

Definition json_null : V := inject Value.Null.
Definition json_string (s : str) : V := inject (Value.String s).
Definition json_array (l : list V) : V := inject (Value.Array l).
Definition json_object (m : Map) : V := inject (Value.Object m).

(** The literal [json!({ k: v })]. *)
Definition json_singleton (k : str) (v : V) : V := json_object (map_insert k v map_new).

(** [row.get(field)]. *)
Definition value_get (field : str) (row : V) : option V :=
  match view row with Value.Object m => map_get field m | _ => None end.

Definition value_is_null (v : V) : bool :=
  match view v with Value.Null => true | _ => false end.

(** [row.get(field).unwrap_or(&Value::Null)]. *)
Definition field_of (field : str) (row : V) : V :=
  match value_get field row with Some v => v | None => json_null end.

End Operations.

Section Laws.
Context {V : Type} `{JsonLaws V}.

Lemma value_get_singleton k (v : V) : value_get k (json_singleton k v) = Some v.
Proof. unfold value_get, json_singleton, json_object. by rewrite view_inject, map_get_insert. Qed.

Lemma value_get_singleton_ne k k' (v : V) : k <> k' -> value_get k (json_singleton k' v) = None.
Proof.
  intros N. unfold value_get, json_singleton, json_object.
  by rewrite view_inject, map_get_insert_ne, map_get_new.
Qed.
End Laws.

(** * A concrete instance

    Numbers are integers or finite floats, as serde_json keeps them apart. *)

Record finite : Type := mkFinite { float : f64; is_finite : f64_is_finite float = true }.

Inductive json : Type :=
| JNull
| JBool (b : bool)
| JNumber (n : Z)
| JFloat (x : finite)
| JString (s : str)
| JArray (l : list json)
| JObject (m : list (str * json)).

Fixpoint json_eqb (a b : json) : bool :=
  match a, b with
  | JNull, JNull => true
  | JBool x, JBool y => Bool.eqb x y
  | JNumber x, JNumber y => Z.eqb x y
  | JFloat x, JFloat y => f64_eq (float x) (float y)
  | JString x, JString y => str_eqb x y
  | JArray x, JArray y =>
      (fix go l1 l2 := match l1, l2 with
        | [], [] => true
        | v1 :: l1, v2 :: l2 => json_eqb v1 v2 && go l1 l2
        | _, _ => false end) x y
  | JObject x, JObject y =>
      (fix go l1 l2 := match l1, l2 with
        | [], [] => true
        | (k1, v1) :: l1, (k2, v2) :: l2 => str_eqb k1 k2 && json_eqb v1 v2 && go l1 l2
        | _, _ => false end) x y
  | _, _ => false
  end.

Fixpoint drop_zeros (s : str) : str :=
  match s with c :: s' => if (c =? 48)%N then drop_zeros s' else s | [] => [] end.

(** The exact decimal expansion of [m * 2^e]. *)
Definition float_to_string (x : f64) : str :=
  match x with
  | S754_finite s m e =>
      (if s then lit "-" else []) ++
      (if 0 <=? e then show (Z.shiftl (Z.pos m) e) ++ lit ".0"
       else let digits := show (Z.pos m * 5 ^ (- e)) in
            let padded := repeat 48%N (Z.to_nat (1 - e) - List.length digits) ++ digits in
            let whole := (List.length padded - Z.to_nat (- e))%nat in
            let fraction := rev (drop_zeros (rev (drop whole padded))) in
            take whole padded ++ lit "." ++ match fraction with [] => lit "0" | _ => fraction end)
  | _ => lit "0.0"
  end.

Fixpoint json_to_string (v : json) : str :=
  match v with
  | JNull => lit "null"
  | JBool true => lit "true"
  | JBool false => lit "false"
  | JNumber n => if n <? 0 then lit "-" ++ show (- n) else show n
  | JFloat x => float_to_string (float x)
  | JString s => [34%N] ++ s ++ [34%N]
  | JArray l => lit "[" ++ join (lit ",") (map json_to_string l) ++ lit "]"
  | JObject m =>
      lit "{" ++ join (lit ",") (map (fun '(k, v) => [34%N] ++ k ++ [34%N] ++ lit ":" ++ json_to_string v) m)
        ++ lit "}"
  end.

Fixpoint assoc_insert (k : str) (v : json) (m : list (str * json)) : list (str * json) :=
  match m with
  | [] => [(k, v)]
  | (k', v') :: m' => if str_eqb k k' then (k, v) :: m' else (k', v') :: assoc_insert k v m'
  end.

Fixpoint assoc_get (k : str) (m : list (str * json)) : option json :=
  match m with
  | [] => None
  | (k', v') :: m' => if str_eqb k k' then Some v' else assoc_get k m'
  end.

#[export] Instance json_value : JsonValue json := {
  Num := Z + finite;
  Map := list (str * json);
  view v := match v with
            | JNull => Value.Null
            | JBool b => Value.Bool b
            | JNumber n => Value.Number (inl n)
            | JFloat x => Value.Number (inr x)
            | JString s => Value.String s
            | JArray l => Value.Array l
            | JObject m => Value.Object m
            end;
  inject s := match s with
              | Value.Null => JNull
              | Value.Bool b => JBool b
              | Value.Number (inl n) => JNumber n
              | Value.Number (inr x) => JFloat x
              | Value.String s => JString s
              | Value.Array l => JArray l
              | Value.Object m => JObject m
              end;
  value_eqb := json_eqb;
  as_f64 n := Some (match n with inl z => f64_of_Z z | inr x => float x end);
  value_to_string := json_to_string;
  value_of_Z := JNumber;
  map_new := [];
  map_insert := assoc_insert;
  map_get := assoc_get;
  map_is_empty m := match m with [] => true | _ => false end
}.

#[export] Instance json_laws : JsonLaws json.
Proof.
  split; simpl.
  - by intros [| | [] | | |].
  - intros k v m. assert (str_eqb k k = true) as R by (by apply bool_decide_eq_true_2).
    induction m as [|[k' v'] m IH]; simpl; [by rewrite R|].
    destruct (str_eqb k k') eqn:E; simpl; [by rewrite R|by rewrite E].
  - intros k k' v m N. assert (str_eqb k k' = false) as R by (by apply bool_decide_eq_false_2).
    induction m as [|[k2 v2] m IH]; simpl; [by rewrite R|].
    destruct (str_eqb k' k2) eqn:E; simpl; [|by rewrite IH].
    apply bool_decide_eq_true in E. subst k2. by rewrite R.
  - done.
  - done.
  - intros k v [|[k' v'] m]; simpl; [done|]. by destruct (str_eqb k k').
Qed.

#[export, refine] Instance json_entries : JsonEntries json := { entries m := m }.
Proof.
  intros k m. cbn. induction m as [|[k' v] m IH]; cbn; [by rewrite lookup_empty|].
  unfold str_eqb. case_bool_decide as E; [subst k'; by rewrite lookup_insert_eq|]. by rewrite lookup_insert_ne by done.
Defined.

#[export, refine] Instance json_floats : JsonFloats json := {
  value_of_f64 x := match Bool.bool_dec (f64_is_finite x) true with
                    | left F => JFloat (mkFinite x F)
                    | right _ => JNull
                    end
}.
Proof.
  - intros x F. destruct (Bool.bool_dec _ _) as [F'|]; [|congruence]. by exists (inr (mkFinite x F')).
  - intros x F. by destruct (Bool.bool_dec _ _) as [F'|]; [congruence|].
Defined.

Example float_strings :
  map float_to_string [f64_div (f64_of_Z 5) (f64_of_Z 2); f64_div (f64_of_Z 1) (f64_of_Z 8); f64_of_Z 3]
  = [lit "2.5"; lit "0.125"; lit "3.0"].
Proof. vm_compute. reflexivity. Qed.
