(* ===== verification/StepContext.v ===== *)
(** The blackboard a run's steps share: [crates/orchestration/src/step_context.rs].

    The code keeps it behind a lock and hands out one shared handle; here it is
    the value behind the lock, and an accessor that writes returns the new one.
    A [BTreeMap] is a [gmap]: nothing here depends on its order. *)
From Stdlib Require Import Ascii String.
From Stdlib Require Import ZArith NArith List Lia.
From stdpp Require Import base decidable list gmap.
From S2P Require Import Prelude Str Order Json.

Record StepContext (V : Type) : Type := mkContext {
  results : gmap str V;
  variables : gmap str V;
  headers : gmap str str;
  input : V;
  correlation_id : str
}.
Arguments mkContext {V}. Arguments results {V} _. Arguments variables {V} _. Arguments headers {V} _.
Arguments input {V} _. Arguments correlation_id {V} _.

Section Context.
Context {V : Type} `{JsonValue V}.
Implicit Type ctx : StepContext V.

Definition context_new : StepContext V := mkContext ∅ ∅ ∅ json_null [].

Definition set_correlation_id (cid : str) ctx : StepContext V :=
  mkContext (results ctx) (variables ctx) (headers ctx) (input ctx) cid.
Definition set_input (v : V) ctx : StepContext V :=
  mkContext (results ctx) (variables ctx) (headers ctx) v (correlation_id ctx).
Definition with_input (v : V) : StepContext V := set_input v context_new.

(** A field of an object, [None] for anything else. *)
Definition read_field (value : V) (field : str) : option V := value_get field value.
Definition input_field (field : str) ctx : option V := read_field (input ctx) field.

Definition set_result (step : str) (result : V) ctx : StepContext V :=
  mkContext (<[step := result]> (results ctx)) (variables ctx) (headers ctx) (input ctx) (correlation_id ctx).
Definition result (step : str) ctx : option V := results ctx !! step.
Definition result_field (step field : str) ctx : option V := v ← results ctx !! step; read_field v field.
Definition has_result (step : str) ctx : bool := bool_decide (is_Some (results ctx !! step)).

Definition set_variable (key : str) (v : V) ctx : StepContext V :=
  mkContext (results ctx) (<[key := v]> (variables ctx)) (headers ctx) (input ctx) (correlation_id ctx).
Definition variable (key : str) ctx : option V := variables ctx !! key.

Definition set_header (name v : str) ctx : StepContext V :=
  mkContext (results ctx) (variables ctx) (<[name := v]> (headers ctx)) (input ctx) (correlation_id ctx).
Definition header (name : str) ctx : option str := headers ctx !! name.

(** * The durable snapshot *)

Context `{!JsonEntries V}.

(** [map.iter().collect()] into a JSON object, and back. *)
Definition object_of (m : gmap str V) : V := json_object (fold_right (fun '(k, v) => map_insert k v) map_new (map_to_list m)).
Definition as_object (v : V) : option (list (str * V)) :=
  match view v with Value.Object m => Some (entries m) | _ => None end.
Definition as_str (v : V) : option str := match view v with Value.String s => Some s | _ => None end.

Definition to_snapshot ctx : V :=
  json_object (
    map_insert (lit "correlation_id") (json_string (correlation_id ctx)) (
    map_insert (lit "input") (input ctx) (
    map_insert (lit "results") (object_of (results ctx)) (
    map_insert (lit "variables") (object_of (variables ctx)) (
    map_insert (lit "headers") (object_of (json_string <$> headers ctx)) map_new))))).

(** The field of the snapshot as a map; what was there stays when it is not one. *)
Definition restored_map (field : str) (snapshot : V) (old : gmap str V) : gmap str V :=
  match value_get field snapshot ≫= as_object with Some l => list_to_map l | None => old end.

Definition from_snapshot (snapshot : V) : StepContext V :=
  let ctx := context_new in
  let ctx := match value_get (lit "correlation_id") snapshot ≫= as_str with
             | Some cid => set_correlation_id cid ctx
             | None => ctx
             end in
  let ctx := match value_get (lit "input") snapshot with Some v => set_input v ctx | None => ctx end in
  mkContext (restored_map (lit "results") snapshot (results ctx))
    (restored_map (lit "variables") snapshot (variables ctx))
    (match value_get (lit "headers") snapshot ≫= as_object with
     | Some l => list_to_map (omap (fun '(k, v) => s ← as_str v; Some (k, s)) l)
     | None => headers ctx
     end)
    (input ctx) (correlation_id ctx).
End Context.

(** * The snapshot restores *)

Section Snapshot.
Context {V : Type} `{JsonEntries V} `{!JsonLaws V}.

Lemma get_fold (k : str) (l : list (str * V)) : map_get k (fold_right (fun '(k, v) => map_insert k v) map_new l) = (list_to_map l : gmap str V) !! k.
Proof.
  induction l as [|[k' v] l IH]; cbn [fold_right list_to_map foldr].
  - by rewrite map_get_new, lookup_empty.
  - destruct (decide (k = k')) as [->|N]; cbn.
    + by rewrite map_get_insert, lookup_insert_eq.
    + by rewrite map_get_insert_ne, IH, lookup_insert_ne by done.
Qed.

Lemma as_object_of (m : gmap str V) : exists l, as_object (object_of m) = Some l /\ (list_to_map l : gmap str V) = m.
Proof.
  unfold as_object, object_of, json_object. rewrite view_inject. eexists. split; [done|].
  apply map_eq. intros k. by rewrite <- entries_get, get_fold, list_to_map_to_list.
Qed.

Lemma restored_object (field : str) (snapshot : V) (m old : gmap str V) : value_get field snapshot = Some (object_of m) ->
  restored_map field snapshot old = m.
Proof. intros E. unfold restored_map. rewrite E. cbn. by destruct (as_object_of m) as (l & -> & <-). Qed.

Lemma get_omap (l : list (str * V)) (k : str) :
  (list_to_map l : gmap str V) !! k ≫= as_str =
  (list_to_map (omap (fun '(k, v) => s ← as_str v; Some (k, s)) l) : gmap str str) !! k \/
  exists v, (list_to_map l : gmap str V) !! k = Some v /\ as_str v = None.
Proof.
  induction l as [|[k' v] l IH]; cbn [list_to_map foldr omap list_omap]; [left; by rewrite lookup_empty|]. cbn.
  destruct (decide (k = k')) as [->|N].
  - rewrite lookup_insert_eq. cbn. destruct (as_str v) as [s|] eqn:E; [left|right; by exists v].
    cbn. by rewrite lookup_insert_eq.
  - rewrite lookup_insert_ne by done. destruct IH as [IH|IH]; [left|by right]. rewrite IH.
    destruct (as_str v); [|done]. cbn. by rewrite lookup_insert_ne by done.
Qed.

Lemma restored_headers (m : gmap str str) :
  exists l, as_object (object_of (json_string <$> m)) = Some l /\
    list_to_map (omap (fun '(k, v) => s ← as_str v; Some (k, s)) l) = m.
Proof.
  destruct (as_object_of (json_string <$> m)) as (l & -> & L). exists l. split; [done|].
  assert (forall s : str, as_str (json_string s : V) = Some s) as S by (intros s; unfold as_str, json_string; by rewrite view_inject).
  apply map_eq. intros k. destruct (get_omap l k) as [<-|(v & E & N)]; rewrite L, lookup_fmap in *; destruct (m !! k); cbn in *.
  - apply S.
  - done.
  - injection E as <-. by rewrite S in N.
  - done.
Qed.

Lemma snapshot_round_trip (ctx : StepContext V) : from_snapshot (to_snapshot ctx) = ctx.
Proof.
  unfold from_snapshot.
  assert (value_get (lit "correlation_id") (to_snapshot ctx) = Some (json_string (correlation_id ctx))) as ->.
  { unfold value_get, to_snapshot, json_object. by rewrite view_inject, map_get_insert. }
  assert (value_get (lit "input") (to_snapshot ctx) = Some (input ctx)) as ->.
  { unfold value_get, to_snapshot, json_object. by rewrite view_inject, map_get_insert_ne, map_get_insert by done. }
  rewrite (restored_object _ _ (results ctx)), (restored_object _ _ (variables ctx)).
  2: { unfold value_get, to_snapshot, json_object. by rewrite view_inject, !map_get_insert_ne, map_get_insert by done. }
  2: { unfold value_get, to_snapshot, json_object. by rewrite view_inject, !map_get_insert_ne, map_get_insert by done. }
  assert (value_get (lit "headers") (to_snapshot ctx) = Some (object_of (json_string <$> headers ctx))) as ->.
  { unfold value_get, to_snapshot, json_object. by rewrite view_inject, !map_get_insert_ne, map_get_insert by done. }
  cbn [mbind option_bind]. destruct (restored_headers (headers ctx)) as (l & -> & ->).
  unfold as_str, json_string. rewrite view_inject. by destruct ctx.
Qed.
End Snapshot.
