(* ===== verification/Condition.v ===== *)
(** Workflow conditions: [crates/orchestration/src/condition.rs] over the
    facts of [StepContext.v].

    A condition is text; it is split into tokens and evaluated while it is
    parsed, by precedence. The theorem: printing any expression tree and
    evaluating the text gives the truth of the tree's meaning. *)
From Stdlib Require Import Ascii String.
From Stdlib Require Import ZArith NArith List Lia Floats.SpecFloat.
From stdpp Require Import base decidable list gmap.
From S2P Require Import Prelude Str Unicode Order Json StepContext.

(** * Tokens *)

Inductive Tok : Type :=
| Ident (word : str)
| Str (s : str)
| Num (n : f64)
| TBool (b : bool)
| TNull
| LBracket | RBracket | LParen | RParen | Dot
| Op (op : str)
| And | Or | Not | In.

(** The messages of [ConditionError]. *)
Inductive ConditionError : Type :=
| UnterminatedString
| InvalidOperator (op : str)
| InvalidNumber (text : str)
| UnexpectedCharacter (c : char)
| TrailingTokens (expression : str)
| ExpectedInAfterNot
| ExpectedRParen
| UnexpectedToken (t : option Tok)
| ExpectedStringKey (t : option Tok)
| ExpectedRBracket
| UnknownNamespace (name : str)
| UnknownName (name : str)
| ExpectedFieldName (t : option Tok)
| UnsupportedOperator (op : str).

(** A decimal numeral's value, correctly rounded: [digits / 10^k]. *)
Definition decimal_f64 (negative : bool) (digits : Z) (k : Z) : f64 :=
  match digits with
  | Z.pos m => SFdiv f64_prec f64_emax (S754_finite negative m 0) (S754_finite false (Z.to_pos (10 ^ k)) 0)
  | _ => S754_zero negative
  end.

(** [str::parse::<f64>] on the texts the lexer hands it: digits and dots, at
    most one of which is accepted, after an optional minus sign. *)
Definition parse_f64 (text : str) : option f64 :=
  let '(negative, body) := match text with c :: s => if (c =? 45)%N then (true, s) else (false, text) | [] => (false, []) end in
  match split 46%N body with
  | [whole] => n ← parse_unsigned whole; Some (decimal_f64 negative n 0)
  | [whole; fraction] => n ← parse_unsigned (whole ++ fraction); Some (decimal_f64 negative n (Z.of_nat (List.length fraction)))
  | _ => None
  end.

Definition peek_digit (s : str) : bool := match s with c :: _ => is_digit c | [] => false end.

Section Lexer.
Context `{CharClasses}.

Definition keyword (word : str) : Tok :=
  if str_eqb word (lit "and") then And
  else if str_eqb word (lit "or") then Or
  else if str_eqb word (lit "not") then Not
  else if str_eqb word (lit "in") then In
  else if str_eqb word (lit "true") || str_eqb word (lit "True") then TBool true
  else if str_eqb word (lit "false") || str_eqb word (lit "False") then TBool false
  else if str_eqb word (lit "null") || str_eqb word (lit "None") then TNull
  else Ident word.

(** One token off a text that starts with [c], a character that is no
    whitespace; the rest of the text. *)
Definition next_token (c : char) (s : str) : Result (Tok * str) ConditionError :=
  if (c =? 91)%N then Ok (LBracket, s)
  else if (c =? 93)%N then Ok (RBracket, s)
  else if (c =? 40)%N then Ok (LParen, s)
  else if (c =? 41)%N then Ok (RParen, s)
  else if (c =? 46)%N then Ok (Dot, s)
  else if (c =? 39)%N || (c =? 34)%N then
    match span (fun x => negb (x =? c)%N) s with
    | (_, []) => Err UnterminatedString
    | (body, _ :: rest) => Ok (Str body, rest)
    end
  else if (c =? 61)%N || (c =? 33)%N || (c =? 60)%N || (c =? 62)%N then
    let '(op, rest) := match s with
                       | e :: s' => if (e =? 61)%N then ([c; e], s') else ([c], s)
                       | [] => ([c], s)
                       end in
    if str_eqb op (lit "=") || str_eqb op (lit "!") then Err (InvalidOperator op) else Ok (Op op, rest)
  else if is_digit c || (c =? 45)%N && peek_digit s then
    let '(tail, rest) := span (fun x => is_digit x || (x =? 46)%N) s in
    n <-? ok_or (parse_f64 (c :: tail)) (InvalidNumber (c :: tail)); Ok (Num n, rest)
  else if is_alphabetic c || (c =? 95)%N then
    let '(tail, rest) := span (fun x => is_alphanumeric x || (x =? 95)%N) s in
    Ok (keyword (c :: tail), rest)
  else Err (UnexpectedCharacter c).

(** Every turn of the loop consumes a character. *)
Fixpoint tokenize_loop (fuel : nat) (s : str) (out : list Tok) : Result (list Tok) ConditionError :=
  match fuel, s with
  | S n, c :: s' =>
      if is_whitespace c then tokenize_loop n s' out
      else tr <-? next_token c s'; let '(t, rest) := tr in tokenize_loop n rest (out ++ [t])
  | _, _ => Ok out
  end.

Definition tokenize (expr : str) : Result (list Tok) ConditionError := tokenize_loop (List.length expr) expr [].

End Lexer.

(** * Values *)

Section Values.
Context {V : Type} `{JsonValue V}.

Definition json_bool (b : bool) : V := inject (Value.Bool b).

Definition truthy (value : V) : bool :=
  match view value with
  | Value.Null => false
  | Value.Bool b => b
  | Value.Number n => match as_f64 n with Some f => negb (f64_eq f (f64_of_Z 0)) | None => true end
  | Value.String s => negb (List.length s =? 0)%nat
  | Value.Array a => negb (List.length a =? 0)%nat
  | Value.Object o => negb (map_is_empty o)
  end.

Definition json_eq (a b : V) : bool :=
  match view a, view b with
  | Value.Number x, Value.Number y =>
      match as_f64 x, as_f64 y with
      | Some x, Some y => f64_eq x y
      | None, None => true
      | _, _ => false
      end
  | _, _ => value_eqb a b
  end.

(** [needle in haystack]. *)
Definition json_contains (haystack needle : V) : bool :=
  match view haystack with
  | Value.Array items => existsb (fun item => json_eq item needle) items
  | Value.Object m => match view needle with Value.String k => bool_decide (is_Some (map_get k m)) | _ => false end
  | Value.String s => match view needle with Value.String n => bool_decide (is_Some (find n s)) | _ => false end
  | _ => false
  end.

Definition ordering (left right : V) : option comparison :=
  match view left, view right with
  | Value.Number a, Value.Number b =>
      match as_f64 a, as_f64 b with Some a, Some b => f64_partial_cmp a b | _, _ => None end
  | Value.String a, Value.String b => Some (str_compare a b)
  | _, _ => None
  end.

Definition compare (left : V) (op : str) (right : V) : Result bool ConditionError :=
  if str_eqb op (lit "==") then Ok (json_eq left right)
  else if str_eqb op (lit "!=") then Ok (negb (json_eq left right))
  else
    match ordering left right with
    | None => Ok false
    | Some ord =>
        if str_eqb op (lit "<") then Ok (match ord with Lt => true | _ => false end)
        else if str_eqb op (lit "<=") then Ok (match ord with Gt => false | _ => true end)
        else if str_eqb op (lit ">") then Ok (match ord with Gt => true | _ => false end)
        else if str_eqb op (lit ">=") then Ok (match ord with Lt => false | _ => true end)
        else Err (UnsupportedOperator op)
    end.

End Values.

(** * The parser

    The tokens not yet consumed are passed along; [None] stands for a parser
    that has run out of fuel, which [evaluate] never does. *)

Section Parser.
Context {V : Type} `{JsonFloats V} (ctx : StepContext V).

Definition Parsed : Type := option (Result (V * list Tok) ConditionError).

(** Sequencing of parsers. *)
Definition then_parse (p : Parsed) (k : V -> list Tok -> Parsed) : Parsed :=
  match p with
  | None => None
  | Some (Err e) => Some (Err e)
  | Some (Ok (v, ts)) => k v ts
  end.

Fixpoint parse_field_accessors (value : V) (ts : list Tok) : Result (V * list Tok) ConditionError :=
  match ts with
  | Dot :: Ident f :: ts' => parse_field_accessors (field_of f value) ts'
  | Dot :: ts' => Err (ExpectedFieldName (head ts'))
  | _ => Ok (value, ts)
  end.

Definition parse_lookup (name : str) (ts : list Tok) : Result (V * list Tok) ConditionError :=
  match ts with
  | LBracket :: Str key :: RBracket :: ts' =>
      if str_eqb name (lit "results") then Ok (default json_null (results ctx !! key), ts')
      else if str_eqb name (lit "variables") then Ok (default json_null (variables ctx !! key), ts')
      else if str_eqb name (lit "headers") then Ok (from_option json_string json_null (headers ctx !! key), ts')
      else if str_eqb name (lit "input") then Ok (field_of key (input ctx), ts')
      else Err (UnknownNamespace name)
  | LBracket :: Str key :: _ => Err ExpectedRBracket
  | LBracket :: ts' => Err (ExpectedStringKey (head ts'))
  | _ => if str_eqb name (lit "input") then Ok (input ctx, ts) else Err (UnknownName name)
  end.

(** One level of parenthesis nesting, over the parser of the groups inside. *)
Section Level.
Context (parse_group : list Tok -> Parsed).

Definition parse_operand (ts : list Tok) : Parsed :=
  then_parse
    match ts with
    | LParen :: ts' =>
        then_parse (parse_group ts') (fun inner ts'' =>
          match ts'' with RParen :: rest => Some (Ok (inner, rest)) | _ => Some (Err ExpectedRParen) end)
    | Str s :: ts' => Some (Ok (json_string s, ts'))
    | Num n :: ts' => Some (Ok (value_of_f64 n, ts'))
    | TBool b :: ts' => Some (Ok (json_bool b, ts'))
    | TNull :: ts' => Some (Ok (json_null, ts'))
    | Ident name :: ts' => Some (parse_lookup name ts')
    | ts' => Some (Err (UnexpectedToken (head ts')))
    end
    (fun base rest => Some (parse_field_accessors base rest)).

Definition parse_comparison (ts : list Tok) : Parsed :=
  then_parse (parse_operand ts) (fun left ts =>
    match ts with
    | Op op :: ts' => then_parse (parse_operand ts') (fun right rest =>
        Some (b <-? compare left op right; Ok (json_bool b, rest)))
    | In :: ts' => then_parse (parse_operand ts') (fun right rest =>
        Some (Ok (json_bool (json_contains right left), rest)))
    | Not :: In :: ts' => then_parse (parse_operand ts') (fun right rest =>
        Some (Ok (json_bool (negb (json_contains right left)), rest)))
    | Not :: _ => Some (Err ExpectedInAfterNot)
    | _ => Some (Ok (left, ts))
    end).

Fixpoint parse_not (ts : list Tok) : Parsed :=
  match ts with
  | Not :: ts' => then_parse (parse_not ts') (fun operand rest => Some (Ok (json_bool (negb (truthy operand)), rest)))
  | _ => parse_comparison ts
  end.

(** The [while] after the first operand; every turn consumes an [and]. *)
Fixpoint and_loop (fuel : nat) (left : V) (ts : list Tok) : Parsed :=
  match ts with
  | And :: ts' =>
      match fuel with
      | O => None
      | S n => then_parse (parse_not ts') (fun right rest => and_loop n (json_bool (truthy left && truthy right)) rest)
      end
  | _ => Some (Ok (left, ts))
  end.

Definition parse_and (ts : list Tok) : Parsed :=
  then_parse (parse_not ts) (fun left rest => and_loop (List.length rest) left rest).

Fixpoint or_loop (fuel : nat) (left : V) (ts : list Tok) : Parsed :=
  match ts with
  | Or :: ts' =>
      match fuel with
      | O => None
      | S n => then_parse (parse_and ts') (fun right rest => or_loop n (json_bool (truthy left || truthy right)) rest)
      end
  | _ => Some (Ok (left, ts))
  end.

End Level.

(** [fuel] bounds the nesting depth of the groups. *)
Fixpoint parse_or (fuel : nat) (ts : list Tok) : Parsed :=
  match fuel with
  | O => None
  | S n => then_parse (parse_and (parse_or n) ts) (fun left rest => or_loop (parse_or n) (List.length rest) left rest)
  end.

End Parser.

Definition evaluate {V} `{CharClasses} `{JsonFloats V} (expression : str) (ctx : StepContext V)
  : option (Result bool ConditionError) :=
  match tokenize expression with
  | Err e => Some (Err e)
  | Ok tokens =>
      match parse_or ctx (S (List.length tokens)) tokens with
      | None => None
      | Some (Err e) => Some (Err e)
      | Some (Ok (value, [])) => Some (Ok (truthy value))
      | Some (Ok (_, _)) => Some (Err (TrailingTokens expression))
      end
  end.

(** * Theorems: termination *)

Section Total.
Context {V : Type} `{JsonFloats V} (ctx : StepContext V).

(** A parser that has come to an end on [ts], having consumed [k] tokens at
    least. *)
Definition ends (k : nat) (p : Parsed (V := V)) (ts : list Tok) : Prop :=
  match p with
  | None => False
  | Some (Err _) => True
  | Some (Ok (_, rest)) => (k + List.length rest <= List.length ts)%nat
  end.

Lemma ends_then k j p f ts :
  ends k p ts ->
  (forall v rest, (k + List.length rest <= List.length ts)%nat -> ends j (f v rest) rest) -> ends (k + j) (then_parse p f) ts.
Proof.
  destruct p as [[[v rest]|e]|]; simpl; [|done|done]. intros L F. specialize (F v rest L).
  destruct (f v rest) as [[[v' rest']|e]|]; simpl in *; [lia|done|done].
Qed.

Lemma ends_weaken k j p ts : (j <= k)%nat -> ends k p ts -> ends j p ts.
Proof. destruct p as [[[v rest]|e]|]; simpl; [lia|done|done]. Qed.

Lemma ends_shift k p t ts : ends k p ts -> ends (S k) p (t :: ts).
Proof. destruct p as [[[v rest]|e]|]; simpl; [lia|done|done]. Qed.

Lemma field_accessors_end v ts : ends 0 (Some (parse_field_accessors v ts)) ts.
Proof.
  cut (forall n v ts, (List.length ts <= n)%nat -> ends 0 (Some (parse_field_accessors v ts)) ts).
  { intros G. by apply (G (List.length ts)). }
  clear v ts. induction n as [|n IH]; intros v [|[] ts] L; simpl in *; try lia.
  destruct ts as [|[] ts]; simpl in *; try done. specialize (IH (field_of word v) ts ltac:(lia)).
  destruct (parse_field_accessors _ ts) as [[v' r]|e]; simpl in *; [lia|done].
Qed.

Lemma lookup_ends name ts : ends 0 (Some (parse_lookup ctx name ts)) ts.
Proof.
  assert (forall ts', ends 0 (Some (if str_eqb name (lit "input") then Ok (input ctx, ts') else Err (UnknownName name))) ts') as I
    by (intros ts'; case_match; simpl; [lia|done]).
  unfold parse_lookup. destruct ts as [|[] ts]; try exact (I _).
  destruct ts as [|[] [|[] ts]]; try done. repeat case_match; simpl; try done; lia.
Qed.

(** The levels, over a group parser that ends on the tokens at hand. *)
Section Level.
Context (parse_group : list Tok -> Parsed (V := V)) (n : nat).
Hypothesis group_ends : forall ts, (List.length ts < n)%nat -> ends 0 (parse_group ts) ts.

Lemma operand_ends ts : (List.length ts <= n)%nat -> ends 1 (parse_operand ctx parse_group ts) ts.
Proof.
  intros L. unfold parse_operand. apply (ends_then 1 0); [|intros; apply field_accessors_end].
  destruct ts as [|t ts]; [done|]. simpl in L.
  destruct t; try (simpl; lia); try done; [apply ends_shift, lookup_ends|].
  apply ends_shift, (ends_then 0 0); [apply group_ends; lia|].
  intros v [|[] rest] _; simpl; try lia; done.
Qed.

Lemma comparison_ends ts : (List.length ts <= n)%nat -> ends 1 (parse_comparison ctx parse_group ts) ts.
Proof.
  intros L. unfold parse_comparison. apply (ends_then 1 0); [by apply operand_ends|]. intros left rest Lr.
  assert (forall t (k : V -> list Tok -> Parsed) ts', (List.length ts' < List.length rest)%nat ->
    (forall v r, ends 0 (k v r) r) -> ends 1 (then_parse (parse_operand ctx parse_group ts') k) (t :: ts')) as Right.
  { intros t k ts' L' K. apply ends_shift, (ends_weaken 1); [lia|]. apply (ends_then 1 0); [apply operand_ends; lia|auto]. }
  destruct rest as [|t rest]; [simpl; lia|]. destruct t; try (simpl; lia).
  - apply (ends_weaken 1); [lia|]. apply Right; [simpl; lia|]. intros v r. simpl.
    destruct (compare _ _ _); simpl; [lia|done].
  - destruct rest as [|[] rest]; try done. apply (ends_weaken 2); [lia|]. apply ends_shift.
    apply Right; [simpl; lia|]. intros v r. simpl. lia.
  - apply (ends_weaken 1); [lia|]. apply Right; [simpl; lia|]. intros v r. simpl. lia.
Qed.

Lemma not_ends ts : (List.length ts <= n)%nat -> ends 1 (parse_not ctx parse_group ts) ts.
Proof.
  induction ts as [|t ts IH]; intros L; [by apply comparison_ends|].
  destruct t; try by apply comparison_ends. cbn [parse_not]. simpl in L.
  apply (ends_weaken 2); [lia|]. apply ends_shift, (ends_then 1 0); [apply IH; lia|]. intros v r _. simpl. lia.
Qed.

Lemma and_loop_ends fuel left ts :
  (List.length ts <= fuel)%nat -> (List.length ts <= n)%nat -> ends 0 (and_loop ctx parse_group fuel left ts) ts.
Proof.
  revert left ts. induction fuel as [|fuel IH]; intros left [|t ts] F L; simpl in F, L; try lia; [simpl; lia..|].
  destruct t; try (simpl; lia). cbn [and_loop].
  apply (ends_weaken 1); [lia|]. apply ends_shift, (ends_weaken (1 + 0)); [lia|].
  apply ends_then; [apply not_ends; lia|]. intros v r Lr. apply IH; lia.
Qed.

Lemma and_ends ts : (List.length ts <= n)%nat -> ends 1 (parse_and ctx parse_group ts) ts.
Proof.
  intros L. unfold parse_and. apply (ends_then 1 0); [by apply not_ends|].
  intros v r Lr. apply and_loop_ends; lia.
Qed.

Lemma or_loop_ends fuel left ts :
  (List.length ts <= fuel)%nat -> (List.length ts <= n)%nat -> ends 0 (or_loop ctx parse_group fuel left ts) ts.
Proof.
  revert left ts. induction fuel as [|fuel IH]; intros left [|t ts] F L; simpl in F, L; try lia; [simpl; lia..|].
  destruct t; try (simpl; lia). cbn [or_loop].
  apply (ends_weaken 1); [lia|]. apply ends_shift, (ends_weaken (1 + 0)); [lia|].
  apply ends_then; [apply and_ends; lia|]. intros v r Lr. apply IH; lia.
Qed.

End Level.

(** One unit of fuel per token is enough. *)
Lemma or_ends fuel ts : (List.length ts < fuel)%nat -> ends 1 (parse_or ctx fuel ts) ts.
Proof.
  revert ts. induction fuel as [|fuel IH]; intros ts L; [lia|]. cbn [parse_or].
  assert (forall ts', (List.length ts' < fuel)%nat -> ends 0 (parse_or ctx fuel ts') ts') as G.
  { intros ts' L'. apply (ends_weaken 1); [lia|]. by apply IH. }
  apply (ends_then 1 0); [apply (and_ends _ _ G); lia|]. intros v r Lr. apply (or_loop_ends _ _ G); lia.
Qed.

End Total.

Lemma evaluate_total {V} `{CharClasses} `{JsonFloats V} expression (ctx : StepContext V) :
  evaluate expression ctx <> None.
Proof.
  unfold evaluate. destruct (tokenize expression) as [tokens|e]; [|done].
  pose proof (or_ends ctx (S (List.length tokens)) tokens ltac:(lia)) as E.
  destruct (parse_or ctx _ tokens) as [[[v [|]]|]|]; done.
Qed.

(** * Expression trees *)

Inductive Space : Type := Results | Variables | Headers | Input.
Inductive Comparator : Type := CEq | CNe | CLt | CLe | CGt | CGe.

Inductive expr : Type :=
| EStr (s : str)
| ENum (numeral : str)
| EBool (b : bool)
| ENull
| EInput
| ELookup (space : Space) (key : str)
| EField (e : expr) (field : str)
| ECmp (c : Comparator) (a b : expr)
| EIn (a b : expr)
| ENotIn (a b : expr)
| ENot (a : expr)
| EAnd (a b : expr)
| EOr (a b : expr).

Definition space_name (s : Space) : str :=
  match s with Results => lit "results" | Variables => lit "variables" | Headers => lit "headers" | Input => lit "input" end.
Definition comparator_text (c : Comparator) : str :=
  match c with
  | CEq => lit "==" | CNe => lit "!=" | CLt => lit "<" | CLe => lit "<=" | CGt => lit ">" | CGe => lit ">="
  end.

Section Meaning.
Context {V : Type} `{JsonFloats V} (ctx : StepContext V).

Definition lookup_meaning (s : Space) (key : str) : V :=
  match s with
  | Results => default json_null (results ctx !! key)
  | Variables => default json_null (variables ctx !! key)
  | Headers => from_option json_string json_null (headers ctx !! key)
  | Input => field_of key (input ctx)
  end.

(** Ordering a pair of values that have none is false. *)
Definition comparator_meaning (c : Comparator) (a b : V) : bool :=
  let holds p := match ordering a b with Some o => p o | None => false end in
  match c with
  | CEq => json_eq a b
  | CNe => negb (json_eq a b)
  | CLt => holds (fun o => match o with Lt => true | _ => false end)
  | CLe => holds (fun o => match o with Gt => false | _ => true end)
  | CGt => holds (fun o => match o with Gt => true | _ => false end)
  | CGe => holds (fun o => match o with Lt => false | _ => true end)
  end.

Fixpoint meaning (e : expr) : V :=
  match e with
  | EStr s => json_string s
  | ENum numeral => value_of_f64 (default S754_nan (parse_f64 numeral))
  | EBool b => json_bool b
  | ENull => json_null
  | EInput => input ctx
  | ELookup space key => lookup_meaning space key
  | EField e f => field_of f (meaning e)
  | ECmp c a b => json_bool (comparator_meaning c (meaning a) (meaning b))
  | EIn a b => json_bool (json_contains (meaning b) (meaning a))
  | ENotIn a b => json_bool (negb (json_contains (meaning b) (meaning a)))
  | ENot a => json_bool (negb (truthy (meaning a)))
  | EAnd a b => json_bool (truthy (meaning a) && truthy (meaning b))
  | EOr a b => json_bool (truthy (meaning a) || truthy (meaning b))
  end.

End Meaning.

(** A word of the text and the token it stands for. *)
Definition word : Type := str * Tok.

Definition w_open : word := (lit "(", LParen).
Definition w_close : word := (lit ")", RParen).
Definition w_str (s : str) : word := (lit "'" ++ s ++ lit "'", Str s).

(** How tightly the root of a tree binds: operands, comparisons, [not],
    [and], [or]. *)
Definition level (e : expr) : nat :=
  match e with
  | EOr _ _ => 0 | EAnd _ _ => 1 | ENot _ => 2 | ECmp _ _ _ | EIn _ _ | ENotIn _ _ => 3 | _ => 4
  end.

Definition grouped (p : nat) (e : expr) (ws : list word) : list word :=
  if (level e <? p)%nat then w_open :: ws ++ [w_close] else ws.

(** The words of a tree, parentheses where precedence asks for them. *)
Fixpoint words (e : expr) : list word :=
  match e with
  | EStr s => [w_str s]
  | ENum numeral => [(numeral, Num (default S754_nan (parse_f64 numeral)))]
  | EBool b => [(if b then lit "true" else lit "false", TBool b)]
  | ENull => [(lit "null", TNull)]
  | EInput => [(lit "input", Ident (lit "input"))]
  | ELookup s key => [(space_name s, Ident (space_name s)); (lit "[", LBracket); w_str key; (lit "]", RBracket)]
  | EField e f => grouped 4 e (words e) ++ [(lit ".", Dot); (f, Ident f)]
  | ECmp c a b => grouped 4 a (words a) ++ (comparator_text c, Op (comparator_text c)) :: grouped 4 b (words b)
  | EIn a b => grouped 4 a (words a) ++ (lit "in", In) :: grouped 4 b (words b)
  | ENotIn a b => grouped 4 a (words a) ++ (lit "not", Not) :: (lit "in", In) :: grouped 4 b (words b)
  | ENot a => (lit "not", Not) :: grouped 2 a (words a)
  | EAnd a b => grouped 1 a (words a) ++ (lit "and", And) :: grouped 2 b (words b)
  | EOr a b => grouped 0 a (words a) ++ (lit "or", Or) :: grouped 1 b (words b)
  end.

(** The text of a tree: its words, separated by spaces. *)
Definition text (e : expr) : str := join (lit " ") (map fst (words e)).

Definition ascii_word (s : str) : bool :=
  match s with
  | c :: s' => (is_ascii_letter c || (c =? 95)%N) && forallb (fun x => is_ascii_letter x || is_digit x || (x =? 95)%N) s'
  | [] => false
  end.

Definition numeral (s : str) : bool :=
  match s with
  | c :: s' => (is_digit c || (c =? 45)%N && peek_digit s') && forallb (fun x => is_digit x || (x =? 46)%N) s' &&
               bool_decide (is_Some (parse_f64 s))
  | [] => false
  end.

(** Trees whose leaves have a spelling: strings without a single quote,
    numerals, ASCII field names that are no keyword. *)
Fixpoint spelled `{CharClasses} (e : expr) : bool :=
  match e with
  | EStr s => negb (contains 39%N s)
  | ENum n => numeral n
  | EBool _ | ENull | EInput => true
  | ELookup _ key => negb (contains 39%N key)
  | EField e f => spelled e && ascii_word f && match keyword f with Ident _ => true | _ => false end
  | ENot a => spelled a
  | ECmp _ a b | EIn a b | ENotIn a b | EAnd a b | EOr a b => spelled a && spelled b
  end.

(** * Theorems: parsing *)

Section Parsing.
Context {V : Type} `{JsonFloats V} (ctx : StepContext V).

Definition toks (ws : list word) : list Tok := map snd ws.

(** What does not continue an operand, a comparison, an [and], an [or]. *)
Definition operand_stop (ts : list Tok) : bool := match ts with (Dot | LBracket) :: _ => false | _ => true end.
Definition cmp_stop (ts : list Tok) : bool :=
  match ts with (Dot | LBracket | Op _ | In | Not) :: _ => false | _ => true end.
Definition and_stop (ts : list Tok) : bool :=
  match ts with (Dot | LBracket | Op _ | In | Not | And) :: _ => false | _ => true end.
Definition or_stop (ts : list Tok) : bool :=
  match ts with (Dot | LBracket | Op _ | In | Not | And | Or) :: _ => false | _ => true end.

Definition parses (p : Parsed) (v : V) (rest : list Tok) : Prop := p = Some (Ok (v, rest)).

Lemma field_accessors_stop v ts : operand_stop ts = true -> parse_field_accessors v ts = Ok (v, ts).
Proof. by destruct ts as [|[] ts]. Qed.

Lemma comparison_of_operand sub ts v rest :
  cmp_stop rest = true -> parses (parse_operand ctx sub ts) v rest -> parses (parse_comparison ctx sub ts) v rest.
Proof. unfold parses, parse_comparison. intros S ->. simpl. by destruct rest as [|[] rest]. Qed.

Lemma not_of_comparison sub ts v rest :
  parses (parse_comparison ctx sub ts) v rest -> parses (parse_not ctx sub ts) v rest.
Proof. by destruct ts as [|[] ts]. Qed.

Lemma and_of_not sub ts v rest :
  parses (parse_not ctx sub ts) v rest -> parse_and ctx sub ts = and_loop ctx sub (List.length rest) v rest.
Proof. unfold parses, parse_and. by intros ->. Qed.

Lemma and_loop_stop sub fuel v rest : and_stop rest = true -> parses (and_loop ctx sub fuel v rest) v rest.
Proof. by destruct fuel, rest as [|[] rest]. Qed.

Lemma or_of_and k ts v rest :
  parses (parse_and ctx (parse_or ctx k) ts) v rest ->
  parse_or ctx (S k) ts = or_loop ctx (parse_or ctx k) (List.length rest) v rest.
Proof. unfold parses. cbn [parse_or]. by intros ->. Qed.

Lemma or_loop_stop sub fuel v rest : or_stop rest = true -> parses (or_loop ctx sub fuel v rest) v rest.
Proof. by destruct fuel, rest as [|[] rest]. Qed.

Lemma stops_weaken ts :
  (or_stop ts = true -> and_stop ts = true) /\ (and_stop ts = true -> cmp_stop ts = true) /\
  (cmp_stop ts = true -> operand_stop ts = true).
Proof. by destruct ts as [|[] ts]. Qed.

(** What parsing the words of [e] at its own level does, with group fuel [k]. *)
Definition at_level (e : expr) : Prop :=
  forall k rest, (List.length (words e) <= k)%nat ->
  let sub := parse_or ctx k in
  let ts := toks (words e) ++ rest in
  let v := meaning ctx e in
  match level e with
  | 4 => head rest <> Some LBracket -> parse_operand ctx sub ts = Some (parse_field_accessors v rest)
  | 3 => cmp_stop rest = true -> parses (parse_comparison ctx sub ts) v rest
  | 2 => cmp_stop rest = true -> parses (parse_not ctx sub ts) v rest
  | 1 => cmp_stop rest = true ->
      exists f, (List.length rest <= f)%nat /\ parse_and ctx sub ts = and_loop ctx sub f v rest
  | _ => and_stop rest = true ->
      exists f, (List.length rest <= f)%nat /\ parse_or ctx (S k) ts = or_loop ctx sub f v rest
  end%nat.

Lemma level_le e : (level e <= 4)%nat.
Proof. destruct e; simpl; lia. Qed.

Section Climb.
Context (e : expr) (E : at_level e) (k : nat) (rest : list Tok).
Hypothesis fuel : (List.length (words e) <= k)%nat.

Let ts := toks (words e) ++ rest.
Let v := meaning ctx e.

Lemma at_comparison : (3 <= level e)%nat -> cmp_stop rest = true -> parses (parse_comparison ctx (parse_or ctx k) ts) v rest.
Proof.
  intros L S. specialize (E k rest fuel). pose proof (level_le e). cbv zeta in E.
  destruct (level e) as [|[|[|[|[|]]]]] eqn:Le; try lia; [by apply E|].
  apply comparison_of_operand; [done|]. unfold parses, ts. rewrite E by (by destruct rest as [|[] ?]).
  f_equal. apply field_accessors_stop. by apply stops_weaken.
Qed.

Lemma at_not : (2 <= level e)%nat -> cmp_stop rest = true -> parses (parse_not ctx (parse_or ctx k) ts) v rest.
Proof.
  intros L S. destruct (Nat.eq_dec (level e) 2%nat) as [Le|N]; [|apply not_of_comparison, at_comparison; [lia|done]].
  specialize (E k rest fuel). rewrite Le in E. by apply E.
Qed.

Lemma at_and : (1 <= level e)%nat -> cmp_stop rest = true ->
  exists f, (List.length rest <= f)%nat /\ parse_and ctx (parse_or ctx k) ts = and_loop ctx (parse_or ctx k) f v rest.
Proof.
  intros L S. destruct (Nat.eq_dec (level e) 1%nat) as [Le|N].
  - specialize (E k rest fuel). rewrite Le in E. by apply E.
  - exists (List.length rest). split; [lia|]. apply and_of_not, at_not; [lia|done].
Qed.

Lemma at_or : and_stop rest = true ->
  exists f, (List.length rest <= f)%nat /\ parse_or ctx (S k) ts = or_loop ctx (parse_or ctx k) f v rest.
Proof.
  intros S. destruct (Nat.eq_dec (level e) 0%nat) as [Le|N].
  - specialize (E k rest fuel). rewrite Le in E. by apply E.
  - destruct at_and as (f & Lf & A); [lia|by apply stops_weaken|]. exists (List.length rest). split; [lia|].
    apply or_of_and. unfold parses. rewrite A. by apply and_loop_stop.
Qed.

End Climb.

(** A tree in a position of precedence [p]. *)
Lemma grouped_operand e k rest :
  at_level e -> (List.length (grouped 4 e (words e)) <= k)%nat -> head rest <> Some LBracket ->
  parse_operand ctx (parse_or ctx k) (toks (grouped 4 e (words e)) ++ rest) =
    Some (parse_field_accessors (meaning ctx e) rest).
Proof.
  intros E. unfold grouped. destruct (Nat.ltb_spec (level e) 4%nat) as [L|L]; intros F N.
  - simpl in F. rewrite length_app in F. destruct k as [|k]; [simpl in F; lia|]. simpl in F.
    destruct (at_or e E k (RParen :: rest)) as (f & _ & P); [lia|done|].
    unfold toks in *. cbn [map snd w_open app]. rewrite map_app, <- app_assoc. cbn [map snd w_close app].
    unfold parse_operand. change (@map (str * Tok) Tok) with (@map word Tok) in P |- *. rewrite P, or_loop_stop by done. done.
  - specialize (E k rest F). pose proof (level_le e). replace (level e) with 4%nat in E by lia. by apply E.
Qed.

Lemma paren_comparison p e k rest :
  at_level e -> (p <= 4)%nat -> (level e < p)%nat -> (List.length (grouped p e (words e)) <= k)%nat -> cmp_stop rest = true ->
  parses (parse_comparison ctx (parse_or ctx k) (toks (grouped p e (words e)) ++ rest)) (meaning ctx e) rest.
Proof.
  intros E Lp L F S. apply comparison_of_operand; [done|].
  assert (grouped p e (words e) = grouped 4 e (words e)) as Eg.
  { unfold grouped. rewrite (proj2 (Nat.ltb_lt _ _) L), (proj2 (Nat.ltb_lt (level e) 4%nat)) by lia. done. }
  rewrite Eg in F |- *. unfold parses. rewrite grouped_operand; [|done|done|by destruct rest as [|[] ?]].
  f_equal. apply field_accessors_stop. by apply stops_weaken.
Qed.

Lemma grouped_not e k rest :
  at_level e -> (List.length (grouped 2 e (words e)) <= k)%nat -> cmp_stop rest = true ->
  parses (parse_not ctx (parse_or ctx k) (toks (grouped 2 e (words e)) ++ rest)) (meaning ctx e) rest.
Proof.
  intros E F S. destruct (Nat.ltb_spec (level e) 2%nat) as [L|L].
  - apply not_of_comparison. apply paren_comparison; [done|lia|done|done|done].
  - unfold grouped in *. rewrite (proj2 (Nat.ltb_ge _ _) L) in F |- *. by apply at_not.
Qed.

Lemma grouped_and e k rest :
  at_level e -> (List.length (grouped 1 e (words e)) <= k)%nat -> cmp_stop rest = true ->
  exists f, (List.length rest <= f)%nat /\
    parse_and ctx (parse_or ctx k) (toks (grouped 1 e (words e)) ++ rest) = and_loop ctx (parse_or ctx k) f (meaning ctx e) rest.
Proof.
  intros E F S. destruct (Nat.ltb_spec (level e) 1%nat) as [L|L].
  - exists (List.length rest). split; [lia|]. apply and_of_not, not_of_comparison.
    apply paren_comparison; [done|lia|done|done|done].
  - unfold grouped in *. rewrite (proj2 (Nat.ltb_ge _ _) L) in F |- *. by apply at_and.
Qed.

Lemma operand_parses e k rest :
  at_level e -> (List.length (grouped 4 e (words e)) <= k)%nat -> operand_stop rest = true ->
  parses (parse_operand ctx (parse_or ctx k) (toks (grouped 4 e (words e)) ++ rest)) (meaning ctx e) rest.
Proof.
  intros E F S. unfold parses. rewrite grouped_operand; [|done|done|by destruct rest as [|[] ?]].
  f_equal. by apply field_accessors_stop.
Qed.

Lemma compare_meaning c (a b : V) : compare a (comparator_text c) b = Ok (comparator_meaning c a b).
Proof. destruct c; unfold compare, comparator_meaning; cbn; by destruct (ordering a b) as [[]|]. Qed.

Lemma lookup_parses s key ts :
  parse_lookup ctx (space_name s) (LBracket :: Str key :: RBracket :: ts) = Ok (lookup_meaning ctx s key, ts).
Proof. by destruct s. Qed.

Lemma toks_app a b : toks (a ++ b) = toks a ++ toks b.
Proof. apply map_app. Qed.
Lemma toks_cons w ws : toks (w :: ws) = snd w :: toks ws.
Proof. done. Qed.

Ltac peel := rewrite ?toks_app, ?toks_cons, <- ?app_assoc; cbn [snd app].
Ltac fits := rewrite ?length_app in *; simpl in *; lia.

Lemma at_level_binary k a rest w b :
  at_level a -> at_level b -> cmp_stop rest = true -> operand_stop (snd w :: toks (grouped 4 b (words b)) ++ rest) = true ->
  (List.length (grouped 4 a (words a) ++ w :: grouped 4 b (words b)) <= k)%nat ->
  parses (parse_operand ctx (parse_or ctx k) (toks (grouped 4 a (words a) ++ w :: grouped 4 b (words b)) ++ rest))
    (meaning ctx a) (snd w :: toks (grouped 4 b (words b)) ++ rest) /\
  parses (parse_operand ctx (parse_or ctx k) (toks (grouped 4 b (words b)) ++ rest)) (meaning ctx b) rest.
Proof.
  intros A B S So F. split.
  - peel. apply operand_parses; [done|fits|done].
  - apply operand_parses; [done|fits|by apply stops_weaken].
Qed.

Lemma all_levels e : at_level e.
Proof.
  induction e as [s|n|b| | |s key|e IH f|c a IHa b IHb|a IHa b IHb|a IHa b IHb|a IHa|a IHa b IHb|a IHa b IHb];
    intros k rest F; cbv zeta; cbn [level words] in *; intros S; try done.
  - unfold parse_operand. simpl. by destruct rest as [|[] rest].
  - unfold parse_operand. unfold toks. cbn [map snd w_str app]. by rewrite lookup_parses.
  - peel. rewrite grouped_operand; [done|done|fits|done].
  - destruct (at_level_binary k a rest (comparator_text c, Op (comparator_text c)) b) as [Pa Pb]; [done..|].
    unfold parses, parse_comparison in *. rewrite Pa. cbn [then_parse snd]. rewrite Pb. cbn [then_parse].
    by rewrite compare_meaning.
  - destruct (at_level_binary k a rest (lit "in", In) b) as [Pa Pb]; [done..|].
    unfold parses, parse_comparison in *. rewrite Pa. cbn [then_parse snd]. by rewrite Pb.
  - unfold parses, parse_comparison. peel. rewrite operand_parses; [|done|fits|done].
    cbn [then_parse]. rewrite operand_parses; [|done|fits|by apply stops_weaken]. done.
  - unfold parses. peel. cbn [parse_not]. rewrite grouped_not; [done|done|fits|done].
  - peel. destruct (grouped_and a k (And :: toks (grouped 2 b (words b)) ++ rest)) as (f & Lf & P); [done|fits|done|].
    simpl in Lf. destruct f as [|f]; [lia|]. exists f. rewrite P. cbn [and_loop].
    rewrite grouped_not; [|done|fits|done]. split; [fits|done].
  - change (grouped 0 a (words a)) with (words a) in *. peel.
    destruct (at_or a IHa k (Or :: toks (grouped 1 b (words b)) ++ rest)) as (f & Lf & P); [fits|done|].
    simpl in Lf. destruct f as [|f]; [lia|]. exists f. rewrite P. cbn [or_loop].
    destruct (grouped_and b k rest) as (g & Lg & Pb); [done|fits|by apply stops_weaken|].
    rewrite Pb, and_loop_stop by done. split; [fits|done].
Qed.

Lemma words_parse e : parse_or ctx (S (List.length (toks (words e)))) (toks (words e)) = Some (Ok (meaning ctx e, [])).
Proof.
  destruct (at_or e (all_levels e) (List.length (toks (words e))) []) as (f & _ & P).
  - unfold toks. by rewrite length_map.
  - done.
  - rewrite app_nil_r in P. rewrite P. by apply or_loop_stop.
Qed.

End Parsing.

(** * Theorems: the lexer *)

Section Lexing.
Context `{CharLaws}.

(** The end of the text, or a space. *)
Definition spaced (rest : str) : Prop := rest = [] \/ exists r, rest = 32%N :: r.

(** The word in front of a spaced rest is read as its token. *)
Definition lexes (w : word) : Prop := forall rest, spaced rest ->
  exists c s, fst w ++ rest = c :: s /\ is_whitespace c = false /\ next_token c s = Ok (snd w, rest).

Lemma spaced_head (p : char -> bool) rest : spaced rest -> p 32%N = false -> forall c, head rest = Some c -> p c = false.
Proof. intros [->|[r ->]] P c E; [done|]. by injection E as <-. Qed.

Ltac bool_to_prop := rewrite ?orb_true_iff, ?andb_true_iff, ?N.leb_le, ?N.eqb_eq.

Lemma word_start c : is_ascii_letter c || (c =? 95)%N = true ->
  ((65 <= c /\ c <= 90) \/ (97 <= c /\ c <= 122) \/ c = 95)%N.
Proof. unfold is_ascii_letter. bool_to_prop. lia. Qed.

Ltac decide_char := repeat match goal with
  | |- context [(?c =? ?k)%N] => first
      [rewrite (proj2 (N.eqb_neq c k)) by lia | rewrite (proj2 (N.eqb_eq c k)) by lia]
  | |- context [(?a <=? ?b)%N] => first
      [rewrite (proj2 (N.leb_gt a b)) by lia | rewrite (proj2 (N.leb_le a b)) by lia]
  end; cbn [orb andb negb].

Lemma lexes_ident s : ascii_word s = true -> lexes (s, keyword s).
Proof.
  destruct s as [|c s]; [done|]. intros [C F]%andb_true_iff rest Sp. exists c, (s ++ rest). split; [done|].
  pose proof (word_start c C) as R. split; [unfold is_whitespace; by decide_char|].
  assert (is_alphabetic c || (c =? 95)%N = true) as A by (by rewrite ascii_alphabetic by lia).
  unfold next_token, is_digit. rewrite A. decide_char.
  rewrite span_app; [done| |].
  - rewrite forallb_forall in F |- *. intros x I. specialize (F x I).
    rewrite ascii_alphanumeric; [done|]. revert F. unfold is_ascii_letter, is_digit. bool_to_prop. lia.
  - apply spaced_head; [done|]. by rewrite ascii_alphanumeric.
Qed.

Lemma lexes_str s : ~ List.In 39%N s -> lexes (w_str s).
Proof.
  intros N rest Sp. exists 39%N, (s ++ 39%N :: rest). split; [unfold w_str; simpl; by rewrite <- app_assoc|].
  split; [done|]. unfold next_token. change (39 =? 91)%N with false. change (39 =? 93)%N with false.
  change (39 =? 40)%N with false. change (39 =? 41)%N with false. change (39 =? 46)%N with false.
  change (39 =? 39)%N with true. cbn [orb].
  rewrite span_app; [done| |by intros c [= <-]].
  apply forallb_forall. intros x I. destruct (N.eqb_spec x 39%N) as [->|]; done.
Qed.

Lemma lexes_numeral s : numeral s = true -> lexes (s, Num (default S754_nan (parse_f64 s))).
Proof.
  destruct s as [|c s]; [done|]. intros [[C F]%andb_true_iff [x P]%bool_decide_eq_true]%andb_true_iff rest Sp.
  exists c, (s ++ rest). split; [done|].
  assert (is_digit c || (c =? 45)%N && peek_digit (s ++ rest) = true) as D.
  { apply orb_true_iff in C as [->|[-> K]%andb_true_iff]; [done|]. by destruct s as [|d s]; simpl in *; rewrite ?K, ?orb_true_r. }
  assert ((48 <= c /\ c <= 57) \/ c = 45)%N as R.
  { revert C. unfold is_digit. bool_to_prop. lia. }
  split; [unfold is_whitespace; by decide_char|].
  unfold next_token. rewrite D. decide_char.
  rewrite span_app; [|done|by apply spaced_head]. by rewrite P.
Qed.

Lemma lexes_comparator c : lexes (comparator_text c, Op (comparator_text c)).
Proof. intros rest [->|[r ->]]; destruct c; do 2 eexists; (split; [reflexivity|]); by split. Qed.

Lemma lexes_punctuation : lexes w_open /\ lexes w_close /\ lexes (lit ".", Dot) /\ lexes (lit "[", LBracket) /\ lexes (lit "]", RBracket).
Proof. split_and!; intros rest Sp; do 2 eexists; (split; [reflexivity|]); by split. Qed.

Lemma lexes_keywords : lexes (lit "and", And) /\ lexes (lit "or", Or) /\ lexes (lit "not", Not) /\ lexes (lit "in", In) /\
  lexes (lit "true", TBool true) /\ lexes (lit "false", TBool false) /\ lexes (lit "null", TNull) /\
  lexes (lit "input", Ident (lit "input")) /\ forall s, lexes (space_name s, Ident (space_name s)).
Proof.
  split_and!; try (apply lexes_ident; reflexivity). intros s. destruct s; apply lexes_ident; reflexivity.
Qed.

Lemma words_lex e : spelled e = true -> Forall lexes (words e).
Proof.
  destruct lexes_punctuation as (Lo & Lc & Ld & Lb & Lr).
  destruct lexes_keywords as (Ka & Ko & Kn & Ki & Kt & Kf & Ku & Kp & Ks).
  assert (forall p e, Forall lexes (words e) -> Forall lexes (grouped p e (words e))) as G.
  { intros p e' F. unfold grouped. case_match; [|done]. constructor; [done|]. apply Forall_app. by split; [|constructor]. }
  induction e; cbn [words spelled]; intros S; repeat (apply andb_true_iff in S as [S ?]);
    repeat first [apply Forall_app; split | constructor | apply G]; auto using lexes_comparator.
  - apply lexes_str. by apply contains_false, negb_true_iff.
  - by apply lexes_numeral.
  - by destruct b.
  - apply lexes_str. by apply contains_false, negb_true_iff.
  - pose proof (lexes_ident field) as L. destruct (keyword field) eqn:K; try done.
    assert (word0 = field) as -> by (unfold keyword in K; repeat case_match; congruence). by apply L.
Qed.

Lemma tokenize_words ws fuel out :
  Forall lexes ws -> (List.length (join (lit " ") (map fst ws)) <= fuel)%nat ->
  tokenize_loop fuel (join (lit " ") (map fst ws)) out = Ok (out ++ toks ws).
Proof.
  intros F. revert fuel out. induction F as [|w ws L F IH]; intros fuel out Le.
  { rewrite app_nil_r. by destruct fuel. }
  assert (exists rest, join (lit " ") (map fst (w :: ws)) = fst w ++ rest /\ spaced rest /\
    (rest = match ws with [] => [] | _ => 32%N :: join (lit " ") (map fst ws) end)) as (rest & E & Sp & Er).
  { destruct ws as [|w' ws']; [exists []; split_and!; [simpl; by rewrite app_nil_r|by left|done]|].
    eexists. split_and!; [reflexivity|right; by eexists|done]. }
  rewrite E in Le |- *. destruct (L rest Sp) as (c & s & Ec & Wc & T). rewrite Ec in Le |- *.
  destruct fuel as [|fuel]; [simpl in Le; lia|]. cbn [tokenize_loop]. rewrite Wc, T. cbn [result_bind].
  assert (List.length rest <= fuel)%nat as Lr.
  { destruct (fst w) as [|c' w']; [destruct Sp as [->|[r ->]]; [done|by injection Ec as <- _]|].
    apply (f_equal (@List.length char)) in Ec. rewrite length_app in Ec. simpl in Ec, Le. lia. }
  replace (out ++ toks (w :: ws)) with ((out ++ [snd w]) ++ toks ws) by (by rewrite <- app_assoc).
  subst rest. destruct ws as [|w' ws']; [destruct fuel; by rewrite app_nil_r|].
  destruct fuel as [|fuel]; [simpl in Lr; lia|]. cbn [tokenize_loop]. change (is_whitespace 32%N) with true. cbn iota.
  apply IH. simpl in Lr |- *. lia.
Qed.

(** C39 Evaluating always ends, and the text of an expression tree evaluates to the
    truth of what the tree means: lookups read the context, operators bind in
    the documented order and parentheses override it. The trees are those whose
    leaves can be written down: texts and keys without a single quote, numerals,
    and ASCII field names that are no keyword. *)
Theorem condition_evaluates {V} `{JsonFloats V} (ctx : StepContext V) :
  (forall expression, evaluate expression ctx <> None) /\
  (forall e, spelled e = true -> evaluate (text e) ctx = Some (Ok (truthy (meaning ctx e)))).
Proof.
  split; [intros expression; apply evaluate_total|]. intros e S. unfold evaluate, tokenize, text.
  rewrite tokenize_words; [|by apply words_lex|done]. cbn [app]. by rewrite words_parse.
Qed.

End Lexing.

(** * Witnesses *)

#[export] Existing Instances ascii_classes ascii_laws.

Definition demo_context : StepContext json :=
  mkContext (<[lit "charge" := JObject [(lit "status", JString (lit "ok")); (lit "total", JNumber 20)]]> ∅)
    (<[lit "dry_run" := JBool false]> ∅) ∅ JNull [].

(** [results['charge'].total >= 12.5 and not (variables['dry_run'] or 'x' in 'abc')]. *)
Definition demo_condition : expr :=
  EAnd (ECmp CGe (EField (ELookup Results (lit "charge")) (lit "total")) (ENum (lit "12.5")))
    (ENot (EOr (ELookup Variables (lit "dry_run")) (EIn (EStr (lit "x")) (EStr (lit "abc"))))).

Example demo_condition_text :
  text demo_condition =
    lit "results [ 'charge' ] . total >= 12.5 and not ( variables [ 'dry_run' ] or 'x' in 'abc' )".
Proof. vm_compute. reflexivity. Qed.

Lemma condition_evaluates_witness :
  spelled demo_condition = true /\ evaluate (text demo_condition) demo_context = Some (Ok true).
Proof.
  destruct (condition_evaluates demo_context) as [_ M]. split; [vm_compute; reflexivity|].
  rewrite M by (vm_compute; reflexivity). vm_compute. reflexivity.
Defined.

(** Text as people write it; a malformed one is an error. *)
Example conditions_evaluated :
  map (fun s => evaluate s demo_context)
    [lit "results['charge'].status=='ok'and -1<0"; lit "true or"; lit "1.2.3"; lit "headers['h']"]
  = [Some (Ok true); Some (Err (UnexpectedToken None)); Some (Err (InvalidNumber (lit "1.2.3"))); Some (Ok false)].
Proof. vm_compute. reflexivity. Qed.
