(* ===== verification/Dialect.v ===== *)
(** SQL dialects: [crates/data/src/dialect.rs].

    The trait is a record of operations; [DialectLaws] states what the
    renderers need from an implementation (how many argument slots an [IN]
    takes, and which placeholders a lexer finds in each piece of text), and
    the three shipped dialects discharge it. *)
From Stdlib Require Import Ascii String.
From Stdlib Require Import ZArith NArith List Lia.
From stdpp Require Import base decidable list.
From S2P Require Import Prelude Str.

Definition dquote : char := 34%N.

Record SqlDialect : Type := {
  placeholder : nat -> str;
  quote_ident : str -> str;
  render_in : str -> nat -> nat -> str;
  in_arg_count : nat -> nat;
  expands_in_list : bool;
  ilike : str -> str -> str
}.

(** Shared [IN (?, ...)] expansion of the dialects without array parameters. *)
Definition render_in_expanded (placeholder : nat -> str) (field : str) (start n_args : nat) : str :=
  field ++ lit " IN (" ++ join (lit ", ") (map (fun i => placeholder (start + i)%nat) (seq 0 n_args)) ++ lit ")".

(** An identifier between quote characters, embedded ones doubled. *)
Definition quote_with (q : char) (id : str) : str := [q] ++ replace_char q [q; q] id ++ [q].

Definition dollar_placeholder (n : nat) : str := lit "$" ++ show (Z.of_nat n).
Definition question_placeholder (_ : nat) : str := lit "?".
Definition lower_like (field_q ph : str) : str :=
  lit "LOWER(" ++ field_q ++ lit ") LIKE LOWER(" ++ ph ++ lit ")".

Definition PostgresDialect : SqlDialect := {|
  placeholder := dollar_placeholder;
  quote_ident := quote_with dquote;
  render_in field start _ := field ++ lit " = ANY(" ++ dollar_placeholder start ++ lit ")";
  in_arg_count _ := 1%nat;
  expands_in_list := false;
  ilike field_q ph := field_q ++ lit " ILIKE " ++ ph
|}.

Definition MySqlDialect : SqlDialect := {|
  placeholder := question_placeholder;
  quote_ident := quote_with (chr "`");
  render_in := render_in_expanded question_placeholder;
  in_arg_count n := n;
  expands_in_list := true;
  ilike := lower_like
|}.

Definition SqliteDialect : SqlDialect := {|
  placeholder := question_placeholder;
  quote_ident := quote_with dquote;
  render_in := render_in_expanded question_placeholder;
  in_arg_count n := n;
  expands_in_list := true;
  ilike := lower_like
|}.

(** * Reading SQL text back *)

(** Reads a quoted identifier: the text between quotes, doubled quotes undone. *)
Fixpoint unquote (q : char) (s : str) : option (str * str) :=
  match s with
  | c :: s' =>
      if (c =? q)%N then
        match s' with
        | c' :: s'' => if (c' =? q)%N then (fun '(id, r) => (q :: id, r)) <$> unquote q s'' else Some ([], s')
        | [] => Some ([], [])
        end
      else (fun '(id, r) => (c :: id, r)) <$> unquote q s'
  | [] => None
  end.

Definition read_ident (q : char) (s : str) : option (str * str) :=
  match s with c :: s' => if (c =? q)%N then unquote q s' else None | [] => None end.

(** The number a text starts with. *)
Fixpoint leading_number (s : str) (acc : Z) : Z :=
  match s with
  | c :: s' => if is_digit c then leading_number s' (acc * 10 + digit_value c) else acc
  | [] => acc
  end.

(** The bind placeholders outside quoted identifiers, in order: [None] for
    [?], the number for [$n]. *)
Fixpoint scan (q : char) (quoted : bool) (s : str) : list (option Z) :=
  match s with
  | [] => []
  | c :: s' =>
      if (c =? q)%N then scan q (negb quoted) s'
      else if quoted then scan q quoted s'
      else if (c =? chr "?")%N then None :: scan q quoted s'
      else if (c =? chr "$")%N then Some (leading_number s' 0) :: scan q quoted s'
      else scan q quoted s'
  end.

(** * Lemmas *)

Definition digit_free_head (s : str) : Prop := forall c, head s = Some c -> is_digit c = false.

Lemma digit_free_app a b : digit_free_head a -> digit_free_head b -> digit_free_head (a ++ b).
Proof. destruct a; simpl; [done|]. unfold digit_free_head. simpl. auto. Qed.

(** A fragment with the placeholders [hs], wherever it is placed. *)
Record holes (q : char) (frag : str) (hs : list (option Z)) : Prop := {
  holes_head : digit_free_head frag;
  holes_scan : forall rest, digit_free_head rest -> scan q false (frag ++ rest) = hs ++ scan q false rest
}.

Lemma holes_app q a b ha hb : holes q a ha -> holes q b hb -> holes q (a ++ b) (ha ++ hb).
Proof.
  intros [Da Sa] [Db Sb]. split; [by apply digit_free_app|]. intros rest R.
  rewrite <- app_assoc, Sa, Sb, app_assoc; [done..|]. by apply digit_free_app.
Qed.

Lemma holes_nil q : holes q [] [].
Proof. by split. Qed.

Definition plain_char (q c : char) : bool :=
  negb (c =? q)%N && negb (c =? chr "?")%N && negb (c =? chr "$")%N.

Definition plain (q : char) (s : str) : bool :=
  forallb (plain_char q) s && match s with c :: _ => negb (is_digit c) | [] => true end.

(** Literal SQL text holds no placeholder. *)
Lemma holes_plain q s : plain q s = true -> holes q s [].
Proof.
  intros P. unfold plain in P. apply andb_true_iff in P as [P Hd]. split.
  - intros c E. destruct s; [done|]. injection E as ->. by apply negb_true_iff.
  - intros rest _. clear Hd. induction s as [|c s IH]; [done|]. simpl in P.
    apply andb_true_iff in P as [Pc P]. unfold plain_char in Pc.
    apply andb_true_iff in Pc as [Pc P3%negb_true_iff]. apply andb_true_iff in Pc as [P1%negb_true_iff P2%negb_true_iff].
    cbn [app scan]. rewrite P1, P2, P3. by apply IH.
Qed.

Lemma scan_quoted q id rest :
  scan q true (replace_char q [q; q] id ++ rest) = scan q true rest.
Proof.
  induction id as [|c id IH]; [done|]. unfold replace_char in *. simpl.
  destruct (N.eqb_spec c q) as [->|N]; simpl.
  - rewrite N.eqb_refl. simpl. exact IH.
  - rewrite (proj2 (N.eqb_neq c q) N). exact IH.
Qed.

Lemma holes_quote q id : is_digit q = false -> holes q (quote_with q id) [].
Proof.
  intros Q. unfold quote_with. split; [by intros c [= <-]|]. intros rest _. simpl. rewrite N.eqb_refl.
  cbn [negb]. rewrite <- app_assoc, scan_quoted. simpl. by rewrite N.eqb_refl.
Qed.

Lemma leading_number_stop acc rest :
  digit_free_head rest -> leading_number rest acc = acc.
Proof. intros D. destruct rest as [|c r]; [done|]. simpl. by rewrite (D c). Qed.

Lemma leading_number_digits ds acc rest z :
  parse_digits ds acc = Some z -> digit_free_head rest -> leading_number (ds ++ rest) acc = z.
Proof.
  revert acc. induction ds as [|c ds IH]; intros acc P D; simpl in *.
  - injection P as <-. by apply leading_number_stop.
  - destruct (is_digit c); [|done]. by apply IH.
Qed.

Lemma scan_digits q ds rest :
  is_digit q = false -> Forall (fun c => is_digit c = true) ds ->
  scan q false (ds ++ rest) = scan q false rest.
Proof.
  intros Q F. induction F as [|c ds D F IH]; [done|]. cbn [app scan].
  destruct (N.eqb_spec c q) as [->|_]; [congruence|].
  destruct (N.eqb_spec c (chr "?")) as [->|_]; [done|].
  destruct (N.eqb_spec c (chr "$")) as [->|_]; [done|]. exact IH.
Qed.

Lemma holes_dollar q n :
  is_digit q = false -> q <> chr "$" -> holes q (dollar_placeholder n) [Some (Z.of_nat n)].
Proof.
  intros Q NQ. split; [by intros c [= <-]|]. intros rest D. unfold dollar_placeholder.
  change (lit "$") with [chr "$"]. cbn [app scan].
  rewrite (proj2 (N.eqb_neq (chr "$") q)) by congruence. cbn [N.eqb Pos.eqb].
  rewrite scan_digits; [|done|apply show_digits; lia]. f_equal. f_equal.
  pose proof (parse_unsigned_show (Z.of_nat n) ltac:(lia)) as P. unfold parse_unsigned in P.
  destruct (show (Z.of_nat n)) eqn:E; [done|]. by apply leading_number_digits.
Qed.

Lemma holes_question q n : q <> chr "?" -> holes q (question_placeholder n) [None].
Proof.
  intros NQ. split; [by intros c [= <-]|]. intros rest D. unfold question_placeholder.
  change (lit "?") with [chr "?"]. cbn [app scan].
  by rewrite (proj2 (N.eqb_neq (chr "?") q)) by congruence.
Qed.

Lemma holes_join q sep parts hs :
  holes q sep [] -> Forall2 (holes q) parts hs -> holes q (join sep parts) (concat hs).
Proof.
  intros S F. induction F as [|p h parts hs P F IH]; [apply holes_nil|].
  destruct F as [|p2 h2 parts hs P2 F]; simpl; [by rewrite app_nil_r|].
  apply holes_app; [done|]. by apply (holes_app q sep _ []).
Qed.

Lemma holes_in_expanded q ph hole field start n :
  plain q (lit " IN (") = true -> plain q (lit ", ") = true -> plain q (lit ")") = true ->
  (forall i, holes q (ph i) [hole i]) -> holes q field [] ->
  holes q (render_in_expanded ph field start n) (map hole (seq start n)).
Proof.
  intros P1 P2 P3 PH F. unfold render_in_expanded.
  rewrite <- (app_nil_l (map hole _)), <- (app_nil_r (map hole _)).
  apply holes_app; [done|]. apply (holes_app q _ _ []); [by apply holes_plain|].
  apply holes_app; [|by apply holes_plain].
  replace (map hole (seq start n)) with (concat (map (fun i => [hole (start + i)%nat]) (seq 0 n))).
  - apply holes_join; [by apply holes_plain|]. induction (seq 0 n); simpl; constructor; auto.
  - replace (seq start n) with (seq (start + 0) n) by (f_equal; lia). generalize 0%nat at 1 2.
    induction n as [|n IH]; intros k; [done|]. simpl. f_equal. rewrite IH. do 2 f_equal. lia.
Qed.

(** * What the renderers rely on *)

Class DialectLaws (d : SqlDialect) : Type := {
  quote : char;
  hole : nat -> option Z;
  in_slots : forall n, in_arg_count d n = if expands_in_list d then n else 1%nat;
  quote_ident_nonempty : forall id, quote_ident d id <> [];
  render_in_nonempty : forall field start n, field <> [] -> render_in d field start n <> [];
  ilike_nonempty : forall field ph, field <> [] -> ilike d field ph <> [];
  placeholder_holes : forall n, holes quote (placeholder d n) [hole n];
  quote_ident_holes : forall id, holes quote (quote_ident d id) [];
  render_in_holes : forall field start n, holes quote field [] ->
    holes quote (render_in d field start n) (map hole (seq start (in_arg_count d n)));
  ilike_holes : forall field ph h, holes quote field [] -> holes quote ph h ->
    holes quote (ilike d field ph) h;
  sql_plain : forallb (plain quote) (map lit [" AND "; " OR "; "("; ")"; "NOT "; " = "; " <> "; " < "; " <= ";
    " > "; " >= "; " LIKE "; " IS NULL"]%string) = true;
  quote_ident_reads_back : forall id rest, head rest <> Some quote ->
    read_ident quote (quote_ident d id ++ rest) = Some (id, rest)
}.

Lemma quote_with_reads_back q id rest :
  head rest <> Some q -> read_ident q (quote_with q id ++ rest) = Some (id, rest).
Proof.
  intros R. unfold quote_with, read_ident. simpl. rewrite N.eqb_refl, <- app_assoc.
  change ([q] ++ rest) with (q :: rest). induction id as [|c id IH]; unfold replace_char in *; simpl.
  - rewrite N.eqb_refl. destruct rest as [|r rest]; [done|]. destruct (N.eqb_spec r q) as [->|]; done.
  - destruct (N.eqb_spec c q) as [->|N]; simpl.
    + rewrite !N.eqb_refl, IH. done.
    + by rewrite (proj2 (N.eqb_neq c q) N), IH.
Qed.

Lemma holes_lower_like q field ph h :
  plain q (lit "LOWER(") = true -> plain q (lit ") LIKE LOWER(") = true -> plain q (lit ")") = true ->
  holes q field [] -> holes q ph h -> holes q (lower_like field ph) h.
Proof.
  intros P1 P2 P3 F P. unfold lower_like. apply (holes_app q _ _ []); [by apply holes_plain|].
  apply (holes_app q _ _ []); [done|]. apply (holes_app q _ _ []); [by apply holes_plain|].
  rewrite <- (app_nil_r h). apply holes_app; [done|by apply holes_plain].
Qed.

#[export] Instance postgres_laws : DialectLaws PostgresDialect.
Proof.
  apply (Build_DialectLaws PostgresDialect dquote (fun n => Some (Z.of_nat n)));
    cbn [placeholder quote_ident render_in in_arg_count expands_in_list ilike PostgresDialect MySqlDialect SqliteDialect].
  - done.
  - done.
  - by intros [].
  - by intros [].
  - intros n. by apply holes_dollar.
  - intros id. by apply holes_quote.
  - intros field start n F. cbn [seq map]. apply (holes_app dquote _ _ []); [done|].
    apply (holes_app dquote _ _ []); [by apply holes_plain|]. rewrite <- (app_nil_r [_]).
    apply holes_app; [by apply holes_dollar|by apply holes_plain].
  - intros field ph h F P. apply (holes_app dquote _ _ []); [done|].
    apply (holes_app dquote _ _ []); [by apply holes_plain|done].
  - done.
  - intros id rest. apply quote_with_reads_back.
Defined.

#[export] Instance mysql_laws : DialectLaws MySqlDialect.
Proof.
  apply (Build_DialectLaws MySqlDialect (chr "`") (fun _ => None));
    cbn [placeholder quote_ident render_in in_arg_count expands_in_list ilike PostgresDialect MySqlDialect SqliteDialect].
  - done.
  - done.
  - by intros [].
  - done.
  - intros n. by apply holes_question.
  - intros id. by apply holes_quote.
  - intros field start n F. apply holes_in_expanded; try done. intros i. by apply holes_question.
  - intros field ph h. by apply holes_lower_like.
  - done.
  - intros id rest. apply quote_with_reads_back.
Defined.

#[export] Instance sqlite_laws : DialectLaws SqliteDialect.
Proof.
  apply (Build_DialectLaws SqliteDialect dquote (fun _ => None));
    cbn [placeholder quote_ident render_in in_arg_count expands_in_list ilike PostgresDialect MySqlDialect SqliteDialect].
  - done.
  - done.
  - by intros [].
  - done.
  - intros n. by apply holes_question.
  - intros id. by apply holes_quote.
  - intros field start n F. apply holes_in_expanded; try done. intros i. by apply holes_question.
  - intros field ph h. by apply holes_lower_like.
  - done.
  - intros id rest. apply quote_with_reads_back.
Defined.
