(* ===== verification/Filter.v ===== *)
(** The filter DSL: [crates/data/src/filter.rs].

    Predicates, sorts and paging, rendered to parameterised SQL for a dialect
    and to a MongoDB filter document. Rendering threads the bound arguments
    and the 1-based placeholder index as explicit state; [usize] indices are
    [nat] (they count values held in memory), page and size are [Z] with the
    64-bit wrap-around of a release build. *)
From Stdlib Require Import Ascii String.
From Stdlib Require Import ZArith NArith List Lia.
From stdpp Require Import base decidable list.
From S2P Require Import Prelude Str Json Dialect.

Inductive Op : Type := Eq | Ne | Lt | Lte | Gt | Gte | Like | ILike | In | IsNil.

#[export] Instance Op_eq_dec : EqDecision Op.
Proof. solve_decision. Defined.

Definition op_as_str (op : Op) : str :=
  match op with
  | Eq => lit "eq" | Ne => lit "ne" | Lt => lit "lt" | Lte => lit "lte" | Gt => lit "gt"
  | Gte => lit "gte" | Like => lit "like" | ILike => lit "ilike" | In => lit "in" | IsNil => lit "isnil"
  end.

Inductive Direction : Type := Asc | Desc.

Definition direction_as_str (d : Direction) : str :=
  match d with Asc => lit "asc" | Desc => lit "desc" end.

Record Sort : Type := mkSort { sort_field : str; direction : Direction }.

Definition usize_mul (a b : Z) : Z := (a * b) mod 2 ^ 64.

(** Translation of a [LIKE] pattern to an anchored regular expression. *)
Definition regex_special : str := lit ".^$*+?()[]{}|\".

Definition regex_char (c : char) : str :=
  if (c =? chr "%")%N then lit ".*"
  else if (c =? chr "_")%N then lit "."
  else if existsb (N.eqb c) regex_special then [chr "\"; c]
  else [c].

Definition regex_of_pattern (text : str) : str := lit "^" ++ flat_map regex_char text ++ lit "$".

Section Filter.
Context {V : Type} `{JsonValue V}.

Record Predicate : Type := mkPredicate { field : str; op : Op; value : V }.

Definition is_nil (f : str) : Predicate := mkPredicate f IsNil json_null.

Record Filter : Type := mkFilter {
  predicates : list Predicate;
  sorts : list Sort;
  page : Z;
  size : Z
}.

Definition filter_new : Filter := mkFilter [] [] 0 0.
Definition add (f : Filter) (p : Predicate) : Filter :=
  mkFilter (predicates f ++ [p]) (sorts f) (page f) (size f).
Definition where_eq (f : Filter) (fd : str) (v : V) : Filter := add f (mkPredicate fd Eq v).
Definition order_by (f : Filter) (fd : str) (d : Direction) : Filter :=
  mkFilter (predicates f) (sorts f ++ [mkSort fd d]) (page f) (size f).
Definition paged (f : Filter) (pg sz : Z) : Filter := mkFilter (predicates f) (sorts f) pg sz.

(** The argument vector and the next placeholder index. *)
Definition Binder : Type := list V * nat.

Definition bind_one (b : Binder) (v : V) : Binder := (fst b ++ [v], S (snd b)).

(** [field <sep> placeholder], pushing the value. *)
Definition compare_clause (d : SqlDialect) (sep : str) (p : Predicate) (b : Binder) : str * Binder :=
  (quote_ident d (field p) ++ sep ++ placeholder d (snd b), bind_one b (value p)).

Definition in_list_len (v : V) : nat :=
  match view v with Value.Array items => List.length items | _ => 1%nat end.

Definition in_list_args (d : SqlDialect) (v : V) : list V :=
  if expands_in_list d
  then match view v with Value.Array items => items | _ => [v] end
  else [v].

Definition render_predicate_sql (p : Predicate) (d : SqlDialect) (b : Binder) : str * Binder :=
  let field_q := quote_ident d (field p) in
  match op p with
  | Eq => compare_clause d (lit " = ") p b
  | Ne => compare_clause d (lit " <> ") p b
  | Lt => compare_clause d (lit " < ") p b
  | Lte => compare_clause d (lit " <= ") p b
  | Gt => compare_clause d (lit " > ") p b
  | Gte => compare_clause d (lit " >= ") p b
  | Like => compare_clause d (lit " LIKE ") p b
  | ILike => (ilike d field_q (placeholder d (snd b)), bind_one b (value p))
  | In =>
      let n_args := in_list_len (value p) in
      (render_in d field_q (snd b) n_args,
       (fst b ++ in_list_args d (value p), (snd b + in_arg_count d n_args)%nat))
  | IsNil => (field_q ++ lit " IS NULL", b)
  end.

Fixpoint render_predicates (ps : list Predicate) (d : SqlDialect) (b : Binder) : list str * Binder :=
  match ps with
  | [] => ([], b)
  | p :: ps' =>
      let '(s, b) := render_predicate_sql p d b in
      let '(ss, b) := render_predicates ps' d b in
      (s :: ss, b)
  end.

Definition order_item (d : SqlDialect) (fd : str) (dir : Direction) : str :=
  quote_ident d fd ++ lit " " ++ match dir with Asc => lit "ASC" | Desc => lit "DESC" end.

Definition filter_to_sql_with (f : Filter) (d : SqlDialect) : str * list V :=
  let '(parts, (args, _)) := render_predicates (predicates f) d ([], 1%nat) in
  let where_part :=
    match parts with [] => [] | _ => lit " WHERE " ++ join (lit " AND ") parts end in
  let order_part :=
    match sorts f with
    | [] => []
    | ss => lit " ORDER BY " ++ join (lit ", ") (map (fun s => order_item d (sort_field s) (direction s)) ss)
    end in
  let page_part :=
    if 0 <? size f
    then lit " LIMIT " ++ show (size f) ++ lit " OFFSET " ++ show (usize_mul (page f) (size f))
    else [] in
  (where_part ++ order_part ++ page_part, args).

Definition filter_to_sql (f : Filter) : str * list V := filter_to_sql_with f PostgresDialect.

(** * The MongoDB document *)

Definition like_to_regex (pattern : V) : str :=
  regex_of_pattern (match view pattern with Value.String s => s | _ => value_to_string pattern end).

Definition mongo_clause (fd operator : str) (v : V) : V := json_singleton fd (json_singleton operator v).

Definition predicate_to_mongo (p : Predicate) : V :=
  match op p with
  | Eq => mongo_clause (field p) (lit "$eq") (value p)
  | Ne => mongo_clause (field p) (lit "$ne") (value p)
  | Lt => mongo_clause (field p) (lit "$lt") (value p)
  | Lte => mongo_clause (field p) (lit "$lte") (value p)
  | Gt => mongo_clause (field p) (lit "$gt") (value p)
  | Gte => mongo_clause (field p) (lit "$gte") (value p)
  | Like => mongo_clause (field p) (lit "$regex") (json_string (like_to_regex (value p)))
  | ILike =>
      json_singleton (field p)
        (json_object (map_insert (lit "$options") (json_string (lit "i"))
          (map_insert (lit "$regex") (json_string (like_to_regex (value p))) map_new)))
  | In => mongo_clause (field p) (lit "$in") (value p)
  | IsNil => mongo_clause (field p) (lit "$eq") json_null
  end.

Definition combine_mongo_and (clauses : list V) : V :=
  match clauses with
  | [] => json_object map_new
  | [c] => c
  | _ => json_singleton (lit "$and") (json_array clauses)
  end.

Definition filter_to_mongo (f : Filter) : V :=
  combine_mongo_and (map predicate_to_mongo (predicates f)).

Definition mongo_sort_of (ss : list (str * Direction)) : V :=
  json_object (fold_left (fun m '(fd, d) =>
    map_insert fd (value_of_Z (match d with Asc => 1 | Desc => -1 end)) m) ss map_new).

Definition mongo_sort (f : Filter) : V :=
  mongo_sort_of (map (fun s => (sort_field s, direction s)) (sorts f)).

End Filter.
Arguments Predicate V : clear implicits.
Arguments Filter V : clear implicits.
Arguments Binder V : clear implicits.

(** * Lemmas: argument alignment *)

Section Alignment.
Context {V : Type} `{JsonValue V} (d : SqlDialect) `{L : DialectLaws d}.

(** The next index follows the arguments bound so far. *)
Definition aligned (b : Binder V) : Prop := snd b = S (List.length (fst b)).

(** [frag] holds exactly the placeholders of the arguments [b'] has over [b]. *)
Record renders (frag : str) (b b' : Binder V) : Prop := {
  renders_aligned : aligned b';
  renders_args : exists new, fst b' = fst b ++ new;
  renders_holes : holes quote frag (map hole (seq (snd b) (snd b' - snd b)))
}.

Lemma renders_le frag b b' : aligned b -> renders frag b b' -> (snd b <= snd b')%nat.
Proof. intros A [A' [new E] _]. unfold aligned in *. rewrite A, A', E, length_app. lia. Qed.

Lemma renders_nil b : aligned b -> renders [] b b.
Proof.
  intros A. split; [done|exists []; by rewrite app_nil_r|]. rewrite Nat.sub_diag. apply holes_nil.
Qed.

Lemma renders_app s1 s2 b b1 b2 :
  aligned b -> renders s1 b b1 -> renders s2 b1 b2 -> renders (s1 ++ s2) b b2.
Proof.
  intros A R1 R2. pose proof (renders_le _ _ _ A R1) as L1.
  pose proof (renders_le _ _ _ (renders_aligned _ _ _ R1) R2) as L2.
  destruct R1 as [A1 [n1 E1] H1], R2 as [A2 [n2 E2] H2]. split; [done| |].
  - exists (n1 ++ n2). by rewrite E2, E1, app_assoc.
  - replace (snd b2 - snd b)%nat with ((snd b1 - snd b) + (snd b2 - snd b1))%nat by lia.
    rewrite seq_app, map_app. replace (snd b + (snd b1 - snd b))%nat with (snd b1) by lia.
    by apply holes_app.
Qed.

Lemma renders_holes_nil s b : aligned b -> holes quote s [] -> renders s b b.
Proof.
  intros A P. split; [done|exists []; by rewrite app_nil_r|]. by rewrite Nat.sub_diag.
Qed.

Lemma sql_literal s :
  List.In s (map lit [" AND "; " OR "; "("; ")"; "NOT "; " = "; " <> "; " < "; " <= ";
    " > "; " >= "; " LIKE "; " IS NULL"]%string) -> holes quote s [].
Proof.
  intros I. apply holes_plain. pose proof sql_plain as P. rewrite forallb_forall in P. by apply P.
Qed.

Lemma renders_literal s b :
  aligned b ->
  List.In s (map lit [" AND "; " OR "; "("; ")"; "NOT "; " = "; " <> "; " < "; " <= ";
    " > "; " >= "; " LIKE "; " IS NULL"]%string) -> renders s b b.
Proof. intros A I. apply renders_holes_nil; [done|by apply sql_literal]. Qed.

Lemma bind_one_renders s b v :
  aligned b -> holes quote s [hole (snd b)] -> renders s b (bind_one b v).
Proof.
  intros A P. split.
  - unfold aligned, bind_one in *. simpl. rewrite length_app. simpl. lia.
  - by exists [v].
  - unfold bind_one. simpl. replace (S (snd b) - snd b)%nat with 1%nat by lia. done.
Qed.

Lemma compare_clause_renders sep p b :
  aligned b ->
  List.In sep (map lit [" AND "; " OR "; "("; ")"; "NOT "; " = "; " <> "; " < "; " <= ";
    " > "; " >= "; " LIKE "; " IS NULL"]%string) ->
  renders (fst (compare_clause d sep p b)) b (snd (compare_clause d sep p b)).
Proof.
  intros A I. apply bind_one_renders; [done|]. apply (holes_app quote _ _ []); [apply quote_ident_holes|].
  apply (holes_app quote _ _ []); [by apply sql_literal|apply placeholder_holes].
Qed.

Lemma in_list_args_length v :
  List.length (in_list_args d v) = in_arg_count d (in_list_len v).
Proof.
  rewrite in_slots. unfold in_list_args, in_list_len.
  destruct (expands_in_list d); [|done]. by destruct (view v).
Qed.

(** Rendering a predicate keeps placeholders and arguments in step. *)
Lemma render_predicate_renders p b :
  aligned b -> renders (fst (render_predicate_sql p d b)) b (snd (render_predicate_sql p d b)).
Proof.
  intros A. unfold render_predicate_sql.
  destruct (op p); try (apply compare_clause_renders; [done|simpl; tauto]); simpl.
  - apply bind_one_renders; [done|]. apply ilike_holes; [apply quote_ident_holes|apply placeholder_holes].
  - split; simpl.
    + unfold aligned in *. simpl. rewrite length_app, in_list_args_length. lia.
    + by eexists.
    + replace (snd b + in_arg_count d (in_list_len (value p)) - snd b)%nat
        with (in_arg_count d (in_list_len (value p))) by lia.
      apply render_in_holes, quote_ident_holes.
  - apply renders_holes_nil; [done|]. apply (holes_app quote _ _ []); [apply quote_ident_holes|].
    apply sql_literal. simpl. tauto.
Qed.

(** A fragment without text binds no argument. *)
Lemma renders_empty b b' : aligned b -> renders [] b b' -> b' = b.
Proof.
  intros A [A' [new E] [_ S]]. specialize (S [] ltac:(done)). simpl in S.
  rewrite app_nil_r in S. symmetry in S. apply map_eq_nil in S.
  assert (snd b' - snd b = 0)%nat as Z0 by (by destruct (snd b' - snd b)%nat).
  destruct b as [args i], b' as [args' i']. simpl in *. unfold aligned in *. simpl in *.
  subst args'. rewrite length_app in A'. destruct new; simpl in *; [|lia]. rewrite app_nil_r in *.
  f_equal. lia.
Qed.

End Alignment.
