(* ===== verification/Specification.v ===== *)
(** Composable query predicates: [crates/data/src/specification.rs].

    The tree and its combinators, its evaluation against a JSON row, and its
    three lowerings (SQL for a dialect, a flat [Filter], a MongoDB document)
    with the theorems that they agree. *)
From Stdlib Require Import Ascii String.
From Stdlib Require Import ZArith NArith List Lia Floats.SpecFloat.
From stdpp Require Import base decidable list.
From S2P Require Import Prelude Str Unicode Json Order Dialect Filter.

(** * [LIKE] *)

(** The suffixes [&text[i..]] for [i] in [0..=len]. *)
Fixpoint suffixes (text : str) : list str :=
  text :: match text with [] => [] | _ :: t => suffixes t end.

Fixpoint like_match_chars (text pat : str) {struct pat} : bool :=
  match pat with
  | [] => match text with [] => true | _ => false end
  | c :: rest =>
      if (c =? chr "%")%N then existsb (fun t => like_match_chars t rest) (suffixes text)
      else if (c =? chr "_")%N then
        match text with [] => false | _ :: t => like_match_chars t rest end
      else
        match text with [] => false | x :: t => (x =? c)%N && like_match_chars t rest end
  end.

Definition is_lt (o : comparison) : bool := match o with Datatypes.Lt => true | _ => false end.
Definition is_gt (o : comparison) : bool := match o with Datatypes.Gt => true | _ => false end.
Definition is_le (o : comparison) : bool := negb (is_gt o).
Definition is_ge (o : comparison) : bool := negb (is_lt o).

Section Specification.
Context {V : Type} `{JsonValue V} `{Lowercase}.

Inductive Specification : Type :=
| All
| Pred (p : Predicate V)
| And (children : list Specification)
| Or (children : list Specification)
| Not (inner : Specification).

Definition spec_eq (fd : str) (v : V) : Specification := Pred (mkPredicate fd Eq v).

(** * Combinators *)

Definition spec_and (a b : Specification) : Specification :=
  match a, b with
  | All, rhs => rhs
  | lhs, All => lhs
  | And a, And b => And (a ++ b)
  | And a, rhs => And (a ++ [rhs])
  | lhs, And b => And (lhs :: b)
  | lhs, rhs => And [lhs; rhs]
  end.

Definition spec_or (a b : Specification) : Specification :=
  match a, b with
  | All, rhs => rhs
  | lhs, All => lhs
  | Or a, Or b => Or (a ++ b)
  | Or a, rhs => Or (a ++ [rhs])
  | lhs, Or b => Or (lhs :: b)
  | lhs, rhs => Or [lhs; rhs]
  end.

Definition spec_not (a : Specification) : Specification :=
  match a with
  | All => All
  | Not inner => inner
  | other => Not other
  end.

(** * Evaluation in memory *)

Definition json_cmp (a b : V) : option comparison :=
  match view a, view b with
  | Value.Number x, Value.Number y =>
      match as_f64 x, as_f64 y with Some x, Some y => f64_partial_cmp x y | _, _ => None end
  | Value.String x, Value.String y => Some (str_compare x y)
  | _, _ => None
  end.

Definition like_match (actual pattern : V) (case_insensitive : bool) : bool :=
  match view actual, view pattern with
  | Value.String text, Value.String pat =>
      if case_insensitive then like_match_chars (to_lowercase text) (to_lowercase pat)
      else like_match_chars text pat
  | _, _ => false
  end.

Definition ordered (test : comparison -> bool) (a b : V) : bool :=
  match json_cmp a b with Some o => test o | None => false end.

Definition eval_predicate (p : Predicate V) (row : V) : bool :=
  let actual := field_of (field p) row in
  match op p with
  | Eq => value_eqb actual (value p)
  | Ne => negb (value_eqb actual (value p))
  | Lt => ordered is_lt actual (value p)
  | Lte => ordered is_le actual (value p)
  | Gt => ordered is_gt actual (value p)
  | Gte => ordered is_ge actual (value p)
  | Like => like_match actual (value p) false
  | ILike => like_match actual (value p) true
  | In => match view (value p) with Value.Array items => existsb (fun i => value_eqb i actual) items | _ => false end
  | IsNil => value_is_null actual
  end.

Fixpoint eval (s : Specification) (row : V) : bool :=
  match s with
  | All => true
  | Pred p => eval_predicate p row
  | And children => forallb (fun c => eval c row) children
  | Or children => existsb (fun c => eval c row) children
  | Not inner => negb (eval inner row)
  end.

(** The entity has been serialised; only objects can match. *)
Definition spec_matches (s : Specification) (entity : option V) : bool :=
  match entity with
  | Some v => match view v with Value.Object _ => eval s v | _ => false end
  | None => false
  end.

(** * Lowering to a flat filter *)

Fixpoint is_conjunction (s : Specification) : bool :=
  match s with
  | All => true
  | Pred _ => true
  | And children => forallb is_conjunction children
  | Or _ | Not _ => false
  end.

Fixpoint collect_predicates (s : Specification) : list (Predicate V) :=
  match s with
  | All => []
  | Pred p => [p]
  | And children => flat_map collect_predicates children
  | Or _ | Not _ => []
  end.

Definition spec_to_filter (s : Specification) : option (Filter V) :=
  if is_conjunction s then Some (mkFilter (collect_predicates s) [] 0 0) else None.

(** * Lowering to SQL *)

Definition is_empty (s : str) : bool := match s with [] => true | _ => false end.

(** The parts the children render to, the empty ones dropped. *)
Definition render_parts (render : Specification -> Binder V -> str * Binder V) :=
  fix go (children : list Specification) (b : Binder V) : list str * Binder V :=
    match children with
    | [] => ([], b)
    | c :: cs =>
        let '(s, b) := render c b in
        let '(ss, b) := go cs b in
        (if is_empty s then ss else s :: ss, b)
    end.

Definition join_parts (joiner : str) (parts : list str) : str :=
  match parts with
  | [] => []
  | [p] => p
  | _ => lit "(" ++ join (lit " " ++ joiner ++ lit " ") parts ++ lit ")"
  end.

Fixpoint render (d : SqlDialect) (s : Specification) (b : Binder V) : str * Binder V :=
  match s with
  | All => ([], b)
  | Pred p => render_predicate_sql p d b
  | And children =>
      let '(parts, b) := render_parts (render d) children b in (join_parts (lit "AND") parts, b)
  | Or children =>
      let '(parts, b) := render_parts (render d) children b in (join_parts (lit "OR") parts, b)
  | Not inner =>
      let '(inner_sql, b) := render d inner b in
      (if is_empty inner_sql then [] else lit "NOT " ++ inner_sql, b)
  end.

Definition spec_to_sql_with (s : Specification) (d : SqlDialect) : str * list V :=
  let '(sql, (args, _)) := render d s ([], 1%nat) in (sql, args).

Definition spec_to_sql (s : Specification) : str * list V := spec_to_sql_with s PostgresDialect.

(** * Lowering to MongoDB *)

Definition is_empty_mongo (doc : V) : bool :=
  match view doc with Value.Object m => map_is_empty m | _ => false end.

Definition non_empty_mongo_children (to_mongo : Specification -> V) (children : list Specification) : list V :=
  List.filter (fun doc => negb (is_empty_mongo doc)) (map to_mongo children).

Fixpoint to_mongo (s : Specification) : V :=
  match s with
  | All => json_object map_new
  | Pred p => predicate_to_mongo p
  | And children => combine_mongo_and (non_empty_mongo_children to_mongo children)
  | Or children =>
      match non_empty_mongo_children to_mongo children with
      | [] => json_object map_new
      | [c] => c
      | clauses => json_singleton (lit "$or") (json_array clauses)
      end
  | Not inner =>
      let doc := to_mongo inner in
      if is_empty_mongo doc then json_object map_new
      else json_singleton (lit "$nor") (json_array [doc])
  end.

(** Induction over the tree with the hypothesis for every child. *)
Lemma specification_ind' (P : Specification -> Prop) :
  P All -> (forall p, P (Pred p)) ->
  (forall cs, Forall P cs -> P (And cs)) -> (forall cs, Forall P cs -> P (Or cs)) ->
  (forall s, P s -> P (Not s)) -> forall s, P s.
Proof.
  intros A Pr An Or' No. fix IH 1. intros [|p|cs|cs|s].
  - exact A.
  - apply Pr.
  - apply An. induction cs; constructor; auto.
  - apply Or'. induction cs; constructor; auto.
  - apply No, IH.
Qed.

End Specification.
Arguments Specification V : clear implicits.

(** * Theorems: the combinators *)

Section Theorems.
Context {V : Type} `{JsonLaws V} `{Lowercase}.
Implicit Types (s : Specification V) (row : V).

Definition is_all s : bool := match s with All => true | _ => false end.

Lemma eval_spec_and a b row : eval (spec_and a b) row = eval a row && eval b row.
Proof.
  assert (forall x, x && true = x) as T by (by intros []).
  destruct a, b; simpl; rewrite ?forallb_app; simpl; rewrite ?T, ?andb_true_r; done.
Qed.

Lemma eval_spec_or a b row :
  eval (spec_or a b) row =
    (if is_all a then eval b row else if is_all b then eval a row else eval a row || eval b row).
Proof. destruct a, b; simpl; rewrite ?existsb_app; simpl; rewrite ?orb_false_r; done. Qed.

Lemma eval_spec_not a row : eval (spec_not a) row = (if is_all a then true else negb (eval a row)).
Proof. destruct a; simpl; try done. by rewrite negb_involutive. Qed.

(** The combinators mean what their names say on every row, and [all]
    is absorbed: it is the identity of [and], it drops out of [or] (so
    [or(all, b)] is [b]) and of [not]. *)
Theorem combinators_evaluate a b row :
  eval (spec_and a b) row = eval a row && eval b row /\
  eval (spec_or a b) row =
    (if is_all a then eval b row else if is_all b then eval a row else eval a row || eval b row) /\
  eval (spec_not a) row = (if is_all a then true else negb (eval a row)).
Proof. split_and!; [apply eval_spec_and|apply eval_spec_or|apply eval_spec_not]. Qed.

(** Trees put together by hand escape the absorption: a literal [Or] holding
    [All], or a literal [Not] of it, renders as if the no-op were not there
    while the evaluation counts it. *)
Lemma hand_built_diverges d p row :
  (spec_to_sql_with (Or [All; Pred p]) d = spec_to_sql_with (Pred p) d /\ eval (Or [All; Pred p]) row = true) /\
  (spec_to_sql_with (Not All) d = spec_to_sql_with All d /\ eval (Not All) row = false) /\
  (spec_to_sql_with (Or []) d = spec_to_sql_with All d /\ eval (Or []) row = false).
Proof.
  unfold spec_to_sql_with. simpl. split_and!; try done.
  destruct (render_predicate_sql p d _) as [sql [args i]] eqn:R. unfold is_empty. by destruct sql.
Qed.

(** A tree without a no-op node: what the combinators build, [all] apart. *)
Fixpoint solid s : bool :=
  match s with
  | All => false
  | Pred _ => true
  | And cs | Or cs => negb (List.length cs =? 0)%nat && forallb solid cs
  | Not c => solid c
  end.

(** Trees made with the public constructors and combinators. *)
Inductive built : Specification V -> Prop :=
| built_all : built All
| built_pred p : built (Pred p)
| built_and a b : built a -> built b -> built (spec_and a b)
| built_or a b : built a -> built b -> built (spec_or a b)
| built_not a : built a -> built (spec_not a).

Definition all_solid (cs : list (Specification V)) : bool :=
  negb (List.length cs =? 0)%nat && forallb solid cs.

Lemma all_solid_app a b : all_solid a = true -> all_solid b = true -> all_solid (a ++ b) = true.
Proof.
  unfold all_solid. rewrite !andb_true_iff, length_app, forallb_app, andb_true_iff.
  intros [A1 A2] [B1 B2]. split_and!; [|done|done].
  by destruct a.
Qed.

Lemma all_solid_one s : solid s = true -> all_solid [s] = true.
Proof. intros S. unfold all_solid. simpl. by rewrite S. Qed.

Lemma solid_and a b : solid a = true -> solid b = true -> solid (spec_and a b) = true.
Proof.
  intros A B. pose proof (all_solid_one a A) as A1. pose proof (all_solid_one b B) as B1.
  assert (forall x y, all_solid x = true -> all_solid y = true -> solid (And (x ++ y)) = true) as App
    by exact all_solid_app.
  destruct a as [|p|ca|ca|ia], b as [|q|cb|cb|ib]; try done; simpl spec_and;
    first [by apply (App [_] [_])|by apply (App _ [_])|by apply (App [_] _)|by apply App].
Qed.

Lemma solid_or a b : solid a = true -> solid b = true -> solid (spec_or a b) = true.
Proof.
  intros A B. pose proof (all_solid_one a A) as A1. pose proof (all_solid_one b B) as B1.
  assert (forall x y, all_solid x = true -> all_solid y = true -> solid (Or (x ++ y)) = true) as App
    by exact all_solid_app.
  destruct a as [|p|ca|ca|ia], b as [|q|cb|cb|ib]; try done; simpl spec_or;
    first [by apply (App [_] [_])|by apply (App _ [_])|by apply (App [_] _)|by apply App].
Qed.

Lemma built_solid s : built s -> s = All \/ solid s = true.
Proof.
  induction 1 as [|p|a b _ [->|A] _ [->|B]|a b _ [->|A] _ [->|B]|a _ [->|A]]; simpl; auto.
  - right. by destruct a.
  - right. by apply solid_and.
  - right. by destruct a.
  - right. by apply solid_or.
  - right. by destruct a.
Qed.

(** * Theorems: the flat filter *)

Lemma eval_conjunction s row :
  is_conjunction s = true -> eval s row = forallb (fun p => eval_predicate p row) (collect_predicates s).
Proof.
  induction s as [|p|cs IH|cs IH|s IH] using specification_ind'; simpl; intros C; try done.
  - by rewrite andb_true_r.
  - rewrite forallb_forall in C. induction IH as [|c cs E IH IHcs]; [done|]. simpl.
    rewrite forallb_app, E by (apply C; by left). f_equal. apply IHcs. intros x I. apply C. by right.
Qed.

Lemma render_predicates_app ps qs d b :
  snd (render_predicates (ps ++ qs) d b) = snd (render_predicates qs d (snd (render_predicates ps d b))).
Proof.
  revert b. induction ps as [|p ps IH]; intros b; [done|]. simpl.
  destruct (render_predicate_sql p d b) as [s b1]. specialize (IH b1).
  destruct (render_predicates (ps ++ qs) d b1), (render_predicates ps d b1). exact IH.
Qed.

(** A conjunction binds its leaves left to right. *)
Lemma render_conjunction d s b :
  is_conjunction s = true -> snd (render d s b) = snd (render_predicates (collect_predicates s) d b).
Proof.
  revert b. induction s as [|p|cs IH|cs IH|s IH] using specification_ind'; simpl; intros b C; try done.
  - by destruct (render_predicate_sql p d b).
  - assert (snd (render_parts (render d) cs b) = snd (render_predicates (flat_map collect_predicates cs) d b)) as E.
    2:{ destruct (render_parts (render d) cs b). exact E. }
    rewrite forallb_forall in C. revert b. induction IH as [|c cs E IH IHcs]; intros b; [done|]. simpl.
    rewrite render_predicates_app. rewrite <- E by (apply C; by left).
    destruct (render d c b) as [t b1]. simpl. rewrite <- IHcs by (intros x I; apply C; by right).
    by destruct (render_parts (render d) cs b1).
Qed.

(** A specification lowers to a flat filter exactly when it is a
    conjunction, and then the filter's AND-joined predicates select the same
    rows and bind the same arguments, in the same order, in every dialect. *)
Theorem to_filter_agrees s :
  match spec_to_filter s with
  | Some f =>
      is_conjunction s = true /\ sorts f = [] /\ size f = 0 /\
      (forall row, eval s row = forallb (fun p => eval_predicate p row) (predicates f)) /\
      (forall d, snd (spec_to_sql_with s d) = snd (filter_to_sql_with f d))
  | None => is_conjunction s = false
  end.
Proof.
  unfold spec_to_filter. destruct (is_conjunction s) eqn:C; [|done]. split_and!; [done..| |].
  - intros row. by apply eval_conjunction.
  - intros d. pose proof (render_conjunction d s ([], 1%nat) C) as E.
    unfold spec_to_sql_with, filter_to_sql_with. simpl.
    destruct (render d s _) as [sql [args i]], (render_predicates _ d _) as [parts [args' i']].
    simpl in *. congruence.
Qed.

(** * Theorems: SQL *)

Section Rendering.
Context (d : SqlDialect) `{L : DialectLaws d}.

(** The children's non-empty parts, in sequence. *)
Inductive renders_parts : list str -> Binder V -> Binder V -> Prop :=
| renders_parts_nil b : renders_parts [] b b
| renders_parts_cons p ps b b1 b2 :
    renders d p b b1 -> renders_parts ps b1 b2 -> renders_parts (p :: ps) b b2.

Lemma join_renders sep ps b b' :
  aligned b -> (forall b : Binder V, aligned b -> renders d sep b b) -> renders_parts ps b b' -> renders d (join sep ps) b b'.
Proof.
  intros A Sep R. induction R as [b|p ps b b1 b2 P R IH]; [by apply renders_nil|].
  pose proof (renders_aligned _ _ _ _ P) as A1. specialize (IH A1).
  destruct R as [|p2 ps b1 b2 b3 P2 R]; [done|].
  eapply renders_app; [done|exact P|]. eapply renders_app; [done|by apply Sep|exact IH].
Qed.

Lemma join_parts_renders joiner ps b b' :
  aligned b -> joiner = lit "AND" \/ joiner = lit "OR" ->
  renders_parts ps b b' -> renders d (join_parts joiner ps) b b'.
Proof.
  intros A J R.
  assert (forall b : Binder V, aligned b -> renders d (lit " " ++ joiner ++ lit " ") b b) as Sep.
  { intros b0 A0. apply renders_literal; [done|]. destruct J as [-> | ->]; simpl; tauto. }
  pose proof (join_renders _ _ _ _ A Sep R) as Jn. unfold join_parts.
  destruct ps as [|p [|p2 ps]]; [done|done|].
  eapply renders_app; [done| |eapply renders_app; [done|exact Jn|]].
  - apply renders_literal; [done|simpl; tauto].
  - apply renders_literal; [by eapply renders_aligned|simpl; tauto].
Qed.

Lemma render_renders s b : aligned b -> renders d (fst (render d s b)) b (snd (render d s b)).
Proof.
  assert (forall cs, Forall (fun s => forall b, aligned b -> renders d (fst (render d s b)) b (snd (render d s b))) cs ->
    forall b, aligned b -> renders_parts (fst (render_parts (render d) cs b)) b (snd (render_parts (render d) cs b))) as Parts.
  { induction 1 as [|c cs E _ IH]; intros b0 A; [constructor|]. simpl. specialize (E b0 A).
    destruct (render d c b0) as [t b1]. simpl in E. specialize (IH b1 (renders_aligned _ _ _ _ E)).
    destruct (render_parts (render d) cs b1) as [ts b2]. simpl in *.
    destruct t as [|x t]; simpl; [|by econstructor]. by rewrite (renders_empty _ _ _ A E) in *. }
  revert b. induction s as [|p|cs IH|cs IH|s IH] using specification_ind'; intros b A; simpl.
  - by apply renders_nil.
  - by apply render_predicate_renders.
  - specialize (Parts cs IH b A). destruct (render_parts (render d) cs b). apply join_parts_renders; auto.
  - specialize (Parts cs IH b A). destruct (render_parts (render d) cs b). apply join_parts_renders; auto.
  - specialize (IH b A). destruct (render d s b) as [t b']. simpl in *. destruct t as [|x t]; [done|].
    eapply (renders_app d (lit "NOT ")); [done| |exact IH]. apply renders_literal; [done|simpl; tauto].
Qed.

End Rendering.

(** Placeholders and bound arguments stay in step through the whole tree,
    in every dialect that keeps the trait's promises: outside quoted
    identifiers the text holds one placeholder per bound value, numbered from
    1 in order (for a dialect that numbers them). *)
Theorem sql_placeholders_match d `{L : DialectLaws d} s :
  scan quote false (fst (spec_to_sql_with s d)) =
  map hole (seq 1 (List.length (snd (spec_to_sql_with s d)))).
Proof.
  destruct (render_renders d s ([], 1%nat) eq_refl) as [A _ [_ S]]. unfold spec_to_sql_with.
  destruct (render d s ([], 1%nat)) as [sql [args i]]. unfold aligned in A. simpl in *.
  specialize (S [] ltac:(done)). rewrite !app_nil_r in S. rewrite S, A. by rewrite Nat.sub_succ, Nat.sub_0_r.
Qed.

(** Trees that differ in their values only ([IN] lists of the same length). *)
Definition same_predicate (p q : Predicate V) : Prop :=
  field p = field q /\ op p = op q /\ (op p = In -> in_list_len (value p) = in_list_len (value q)).

Inductive same_shape : Specification V -> Specification V -> Prop :=
| shape_all : same_shape All All
| shape_pred p q : same_predicate p q -> same_shape (Pred p) (Pred q)
| shape_and cs ds : Forall2 same_shape cs ds -> same_shape (And cs) (And ds)
| shape_or cs ds : Forall2 same_shape cs ds -> same_shape (Or cs) (Or ds)
| shape_not a b : same_shape a b -> same_shape (Not a) (Not b).

(** The text of a fragment and the index after it. *)
Definition text_of {A} (r : A * Binder V) : A * nat := (fst r, snd (snd r)).

Lemma render_predicate_shape d p q b c :
  same_predicate p q -> snd b = snd c ->
  text_of (render_predicate_sql p d b) = text_of (render_predicate_sql q d c).
Proof.
  intros (F & O & L) I. unfold render_predicate_sql, compare_clause, text_of. rewrite F, <- O.
  destruct (op p); simpl; rewrite ?I; try done. by rewrite L.
Qed.

Lemma render_shape d s t b c :
  same_shape s t -> snd b = snd c -> text_of (render d s b) = text_of (render d t c).
Proof.
  assert (forall cs, Forall (fun s => forall t b c, same_shape s t -> snd b = snd c ->
            text_of (render d s b) = text_of (render d t c)) cs ->
    forall ds b c, Forall2 same_shape cs ds -> snd b = snd c ->
            text_of (render_parts (render d) cs b) = text_of (render_parts (render d) ds c)) as Parts.
  { induction 1 as [|x cs E _ IH]; intros ds b0 c0 F I; inversion F as [|? y ? ds' S Fs]; subst.
    { unfold text_of. simpl. by rewrite I. }
    specialize (E y b0 c0 S I). unfold text_of in *. simpl.
    destruct (render d x b0) as [tx bx], (render d y c0) as [ty by']. simpl in E. injection E as -> I'.
    specialize (IH ds' bx by' Fs I').
    destruct (render_parts (render d) cs bx), (render_parts (render d) ds' by'). simpl in *.
    by injection IH as -> ->. }
  revert t b c. induction s as [|p|cs IH|cs IH|s IH] using specification_ind'; intros t b c S I;
    inversion S as [|? q Sp|? ds F|? ds F|? t' St]; subst; simpl.
  - unfold text_of. simpl. by rewrite I.
  - by apply render_predicate_shape.
  - specialize (Parts cs IH ds b c F I). unfold text_of in *.
    destruct (render_parts (render d) cs b), (render_parts (render d) ds c). simpl in *.
    by injection Parts as -> ->.
  - specialize (Parts cs IH ds b c F I). unfold text_of in *.
    destruct (render_parts (render d) cs b), (render_parts (render d) ds c). simpl in *.
    by injection Parts as -> ->.
  - specialize (IH t' b c St I). unfold text_of in *.
    destruct (render d s b), (render d t' c). simpl in *. by injection IH as -> ->.
Qed.

(** No injection through values: the SQL text is a function of the tree's
    fields, operators and [IN] lengths alone; whatever the bound values are,
    the text is the same and they only travel in the argument vector. *)
Theorem values_never_in_sql d s t :
  same_shape s t -> fst (spec_to_sql_with s d) = fst (spec_to_sql_with t d).
Proof.
  intros S. pose proof (render_shape d s t ([], 1%nat) ([], 1%nat) S eq_refl) as E.
  unfold spec_to_sql_with, text_of in *.
  destruct (render d s _) as [x [? ?]], (render d t _) as [y [? ?]]. simpl in *. congruence.
Qed.

(** * Theorems: the meaning of the SQL text *)

(** Three-valued conjunction, disjunction and negation ([None] is unknown). *)
Definition sql_not (a : option bool) : option bool := negb <$> a.
Definition sql_and (a b : option bool) : option bool :=
  match a, b with
  | Some false, _ | _, Some false => Some false
  | Some true, Some true => Some true
  | _, _ => None
  end.
Definition sql_or (a b : option bool) : option bool := sql_not (sql_and (sql_not a) (sql_not b)).

(** The truth value of a condition with its bound arguments, for a given
    meaning of the leaf clauses: a parenthesised chain of one connective, a
    negated factor, or a leaf. *)
Inductive sql_truth (leaf : str -> list V -> option bool) : str -> list V -> option bool -> Prop :=
| truth_leaf clause args : sql_truth leaf clause args (leaf clause args)
| truth_and parts argss vs :
    sql_truths leaf parts argss vs ->
    sql_truth leaf (lit "(" ++ join (lit " AND ") parts ++ lit ")") (concat argss)
      (fold_right sql_and (Some true) vs)
| truth_or parts argss vs :
    sql_truths leaf parts argss vs ->
    sql_truth leaf (lit "(" ++ join (lit " OR ") parts ++ lit ")") (concat argss)
      (fold_right sql_or (Some false) vs)
| truth_not part args v :
    sql_truth leaf part args v -> sql_truth leaf (lit "NOT " ++ part) args (sql_not v)
with sql_truths (leaf : str -> list V -> option bool) : list str -> list (list V) -> list (option bool) -> Prop :=
| truths_nil : sql_truths leaf [] [] []
| truths_cons part args v parts argss vs :
    sql_truth leaf part args v -> sql_truths leaf parts argss vs ->
    sql_truths leaf (part :: parts) (args :: argss) (v :: vs).

Fixpoint leaves s : list (Predicate V) :=
  match s with
  | All => []
  | Pred p => [p]
  | And cs | Or cs => flat_map leaves cs
  | Not c => leaves c
  end.

Lemma sql_and_all bs : fold_right sql_and (Some true) (map Some bs) = Some (forallb id bs).
Proof. induction bs as [|[] bs IH]; simpl; [done| |done]. rewrite IH. by destruct (forallb id bs). Qed.

Lemma sql_or_any bs : fold_right sql_or (Some false) (map Some bs) = Some (existsb id bs).
Proof. induction bs as [|[] bs IH]; simpl; [done| |]; rewrite IH; by destruct (existsb id bs). Qed.

Section SqlMeaning.
Context (d : SqlDialect) `{L : DialectLaws d} (leaf : str -> list V -> option bool) (row : V).

(** The server evaluates the clause of [p], at any placeholder index, to the
    predicate's value on the row. *)
Definition leaf_agrees (p : Predicate V) : Prop :=
  forall b : Binder V, exists new, fst (snd (render_predicate_sql p d b)) = fst b ++ new /\
    leaf (fst (render_predicate_sql p d b)) new = Some (eval_predicate p row).

Lemma clause_nonempty p b : fst (render_predicate_sql p d b) <> [].
Proof.
  pose proof (quote_ident_nonempty (field p)) as Q. unfold render_predicate_sql, compare_clause.
  destruct (op p); simpl; try (by destruct (quote_ident d (field p))).
  - by apply ilike_nonempty.
  - by apply render_in_nonempty.
Qed.

(** [frag] adds the arguments [new] and has the truth value [v]. *)
Definition means (r : str * Binder V) (b : Binder V) (v : bool) : Prop :=
  fst r <> [] /\ exists new, fst (snd r) = fst b ++ new /\ sql_truth leaf (fst r) new (Some v).

Lemma parts_mean cs b :
  Forall (fun s => solid s = true -> Forall leaf_agrees (leaves s) ->
            forall b, means (render d s b) b (eval s row)) cs ->
  forallb solid cs = true -> Forall leaf_agrees (flat_map leaves cs) ->
  exists argss, fst (snd (render_parts (render d) cs b)) = fst b ++ concat argss /\
    List.length (fst (render_parts (render d) cs b)) = List.length cs /\
    sql_truths leaf (fst (render_parts (render d) cs b)) argss (map Some (map (fun c => eval c row) cs)).
Proof.
  intros IH. revert b. induction IH as [|c cs Ec IH IHcs]; intros b S F.
  { exists []. simpl. rewrite app_nil_r. split_and!; [done|done|constructor]. }
  simpl in S, F |- *. apply andb_true_iff in S as [Sc S]. apply List.Forall_app in F as [Fc F].
  destruct (Ec Sc Fc b) as (N & new & E & T). destruct (render d c b) as [t b1]. simpl in *.
  destruct (IHcs b1 S F) as (argss & E2 & Ln & Ts).
  destruct (render_parts (render d) cs b1) as [ts b2]. simpl in *.
  exists (new :: argss). destruct t as [|x t]; [done|]. simpl. split_and!.
  - by rewrite E2, E, app_assoc.
  - by rewrite Ln.
  - by constructor.
Qed.

Lemma joined_truth cs (parts : list str) argss vs sql_op unit joiner :
  sql_truths leaf parts argss vs -> List.length parts = List.length cs -> cs <> ([] : list (Specification V)) ->
  (forall v, sql_op v unit = v) ->
  sql_truth leaf (lit "(" ++ join (lit " " ++ joiner ++ lit " ") parts ++ lit ")") (concat argss)
    (fold_right sql_op unit vs) ->
  sql_truth leaf (join_parts joiner parts) (concat argss) (fold_right sql_op unit vs) /\ parts <> [].
Proof.
  intros T Ln N U J. destruct parts as [|p [|p2 ps]]; [by destruct cs| |done].
  split; [|done]. inversion T as [|? args v ? ? ? Tv Tn]; subst. inversion Tn; subst. simpl.
  by rewrite app_nil_r, U.
Qed.

Lemma join_parts_nonempty joiner parts :
  parts <> [] -> (forall p, List.In p parts -> p <> []) -> join_parts joiner parts <> [].
Proof. intros N F. destruct parts as [|p [|p2 ps]]; [done| |done]. simpl. apply F. by left. Qed.

Lemma render_parts_nonempty cs b p : List.In p (fst (render_parts (render d) cs b)) -> p <> [].
Proof.
  revert b. induction cs as [|c cs IH]; intros b; [done|]. simpl.
  destruct (render d c b) as [t b1]. specialize (IH b1).
  destruct (render_parts (render d) cs b1) as [ts b2]. simpl in *.
  destruct t as [|x t]; simpl; [done|]. intros [<-|I]; [done|auto].
Qed.

Lemma sql_value_op_unit : (forall v, sql_and v (Some true) = v) /\ (forall v, sql_or v (Some false) = v).
Proof. split; by intros [[]|]. Qed.

Lemma render_means s :
  solid s = true -> Forall leaf_agrees (leaves s) -> forall b, means (render d s b) b (eval s row).
Proof.
  destruct sql_value_op_unit as [U1 U2].
  induction s as [|p|cs IH|cs IH|s IH] using specification_ind'; intros S F b; [done| | | |]; simpl in *.
  - inversion F as [|? ? A _]; subst. destruct (A b) as (new & E & T). split; [apply clause_nonempty|].
    exists new. split; [done|]. rewrite <- T. constructor.
  - apply andb_true_iff in S as [N S]. assert (cs <> []) as Ne by (by destruct cs).
    destruct (parts_mean cs b IH S F) as (argss & E & Ln & T).
    pose proof (render_parts_nonempty cs b) as Pn.
    destruct (render_parts (render d) cs b) as [parts b1]. simpl in *.
    pose proof (truth_and _ _ _ _ T) as J.
    destruct (joined_truth cs parts argss _ sql_and _ (lit "AND") T Ln Ne U1 J) as [J' Np].
    split; [by apply join_parts_nonempty|]. exists (concat argss). split; [done|].
    rewrite sql_and_all in J'. cbn [fst]. replace (forallb (fun c => eval c row) cs)
      with (forallb id (map (fun c => eval c row) cs)); [done|]. clear. induction cs; simpl; congruence.
  - apply andb_true_iff in S as [N S]. assert (cs <> []) as Ne by (by destruct cs).
    destruct (parts_mean cs b IH S F) as (argss & E & Ln & T).
    pose proof (render_parts_nonempty cs b) as Pn.
    destruct (render_parts (render d) cs b) as [parts b1]. simpl in *.
    pose proof (truth_or _ _ _ _ T) as J.
    destruct (joined_truth cs parts argss _ sql_or _ (lit "OR") T Ln Ne U2 J) as [J' Np].
    split; [by apply join_parts_nonempty|]. exists (concat argss). split; [done|].
    rewrite sql_or_any in J'. cbn [fst]. replace (existsb (fun c => eval c row) cs)
      with (existsb id (map (fun c => eval c row) cs)); [done|]. clear. induction cs; simpl; congruence.
  - destruct (IH S F b) as (N & new & E & T). destruct (render d s b) as [t b1]. simpl in *.
    destruct t as [|x t]; [done|]. simpl is_empty. split; [done|]. exists new. split; [done|].
    by apply (truth_not leaf (x :: t) new (Some (eval s row))).
Qed.

End SqlMeaning.

(** C29 The SQL text of a combinator-built specification means what the
    in-memory evaluation computes: for every reading of the leaf clauses
    (each with the arguments it binds) that agrees with [eval_predicate] on
    the row, the condition, read with SQL's precedence and three-valued
    connectives, has the value of [eval]; the no-op specification gives the
    empty text and no argument. *)
Theorem sql_means_eval d `{L : DialectLaws d} leaf row s :
  built s -> Forall (leaf_agrees d leaf row) (leaves s) ->
  (s = All /\ spec_to_sql_with s d = ([], [])) \/
  sql_truth leaf (fst (spec_to_sql_with s d)) (snd (spec_to_sql_with s d)) (Some (eval s row)).
Proof.
  intros B F. destruct (built_solid s B) as [->|S]; [by left|]. right.
  destruct (render_means d leaf row s S F ([], 1%nat)) as (_ & new & E & T). unfold spec_to_sql_with.
  destruct (render d s ([], 1%nat)) as [sql [args i]]. simpl in *. by subst args.
Qed.

(** * Theorems: the meaning of the MongoDB document *)

(** What a filter document selects, for a given meaning of the field clauses. *)
Inductive mongo_selects (leaf : V -> bool) : V -> bool -> Prop :=
| selects_everything doc : is_empty_mongo doc = true -> mongo_selects leaf doc true
| selects_and docs bs :
    Forall2 (mongo_selects leaf) docs bs ->
    mongo_selects leaf (json_singleton (lit "$and") (json_array docs)) (forallb id bs)
| selects_or docs bs :
    Forall2 (mongo_selects leaf) docs bs ->
    mongo_selects leaf (json_singleton (lit "$or") (json_array docs)) (existsb id bs)
| selects_nor docs bs :
    Forall2 (mongo_selects leaf) docs bs ->
    mongo_selects leaf (json_singleton (lit "$nor") (json_array docs)) (negb (existsb id bs))
| selects_field doc :
    is_empty_mongo doc = false ->
    Forall (fun k => value_get k doc = None) (map lit ["$and"; "$or"; "$nor"]%string) ->
    mongo_selects leaf doc (leaf doc).

Lemma singleton_not_empty k v : is_empty_mongo (json_singleton k v) = false.
Proof. unfold is_empty_mongo, json_singleton, json_object. by rewrite view_inject, map_is_empty_insert. Qed.

Lemma new_object_empty : is_empty_mongo (json_object map_new) = true.
Proof. unfold is_empty_mongo, json_object. by rewrite view_inject, map_is_empty_new. Qed.

Lemma predicate_to_mongo_singleton p : exists v, predicate_to_mongo p = json_singleton (field p) v.
Proof. unfold predicate_to_mongo, mongo_clause. destruct (op p); by eexists. Qed.

(** A field name that is not one of the connectives. *)
Definition plain_field (p : Predicate V) : Prop := ~ List.In (field p) (map lit ["$and"; "$or"; "$nor"]%string).

Lemma predicate_selects leaf p :
  plain_field p -> mongo_selects leaf (predicate_to_mongo p) (leaf (predicate_to_mongo p)).
Proof.
  intros P. destruct (predicate_to_mongo_singleton p) as (v & ->).
  apply selects_field; [apply singleton_not_empty|]. rewrite List.Forall_forall. intros k I.
  apply value_get_singleton_ne. intros ->. by apply P.
Qed.

Lemma solid_lowers s : solid s = true -> is_empty_mongo (to_mongo s) = false.
Proof.
  assert (forall cs, Forall (fun s => solid s = true -> is_empty_mongo (to_mongo s) = false) cs ->
            forallb solid cs = true -> non_empty_mongo_children to_mongo cs = map to_mongo cs) as Keep.
  { unfold non_empty_mongo_children. induction 1 as [|c cs E _ IH]; simpl; [done|].
    intros [Sc S]%andb_true_iff. rewrite E by done. simpl. by rewrite IH. }
  induction s as [|p|cs IH|cs IH|s IH] using specification_ind'; intros S; [done| | | |]; simpl in *.
  - destruct (predicate_to_mongo_singleton p) as (v & ->). apply singleton_not_empty.
  - apply andb_true_iff in S as [N S]. rewrite Keep by done.
    destruct IH as [|c cs Ec _]; [done|]. destruct cs as [|c2 cs]; simpl in *.
    + apply Ec. by apply andb_true_iff in S as [? _].
    + apply singleton_not_empty.
  - apply andb_true_iff in S as [N S]. rewrite Keep by done.
    destruct IH as [|c cs Ec _]; [done|]. destruct cs as [|c2 cs]; simpl in *.
    + apply Ec. by apply andb_true_iff in S as [? _].
    + apply singleton_not_empty.
  - rewrite IH by done. apply singleton_not_empty.
Qed.

Lemma solid_children_kept cs :
  forallb solid cs = true -> non_empty_mongo_children to_mongo cs = map to_mongo cs.
Proof.
  unfold non_empty_mongo_children. induction cs as [|c cs IH]; simpl; [done|].
  intros [Sc S]%andb_true_iff. rewrite solid_lowers by done. simpl. by rewrite IH.
Qed.

Lemma solid_selects leaf row s :
  solid s = true -> Forall plain_field (leaves s) ->
  Forall (fun p => leaf (predicate_to_mongo p) = eval_predicate p row) (leaves s) ->
  mongo_selects leaf (to_mongo s) (eval s row).
Proof.
  assert (forall cs, Forall (fun s => solid s = true -> Forall plain_field (leaves s) ->
            Forall (fun p => leaf (predicate_to_mongo p) = eval_predicate p row) (leaves s) ->
            mongo_selects leaf (to_mongo s) (eval s row)) cs ->
          forallb solid cs = true -> Forall plain_field (flat_map leaves cs) ->
          Forall (fun p => leaf (predicate_to_mongo p) = eval_predicate p row) (flat_map leaves cs) ->
          Forall2 (mongo_selects leaf) (map to_mongo cs) (map (fun c => eval c row) cs)) as Children.
  { induction 1 as [|c cs E _ IH]; simpl; [constructor|].
    intros [Sc S]%andb_true_iff [P1 P2]%List.Forall_app [A1 A2]%List.Forall_app. constructor; auto. }
  induction s as [|p|cs IH|cs IH|s IH] using specification_ind'; intros S P A; [done| | | |]; simpl in *.
  - inversion A as [|? ? E _]; subst. inversion P; subst. rewrite <- E. by apply predicate_selects.
  - apply andb_true_iff in S as [N S]. rewrite solid_children_kept by done.
    pose proof (Children cs IH S P A) as F. replace (forallb (fun c => eval c row) cs)
      with (forallb id (map (fun c => eval c row) cs)) by (clear; induction cs; simpl; congruence).
    destruct cs as [|c [|c2 cs]]; simpl in *; [done| |exact (selects_and leaf _ _ F)].
    rewrite andb_true_r. by inversion F.
  - apply andb_true_iff in S as [N S]. rewrite solid_children_kept by done.
    pose proof (Children cs IH S P A) as F. replace (existsb (fun c => eval c row) cs)
      with (existsb id (map (fun c => eval c row) cs)) by (clear; induction cs; simpl; congruence).
    destruct cs as [|c [|c2 cs]]; simpl in *; [done| |exact (selects_or leaf _ _ F)].
    rewrite orb_false_r. by inversion F.
  - rewrite solid_lowers by done. specialize (IH S P A).
    replace (negb (eval s row)) with (negb (existsb id [eval s row])) by (simpl; by rewrite orb_false_r).
    apply selects_nor. by repeat constructor.
Qed.

(** The MongoDB document of a combinator-built specification selects what
    the in-memory evaluation selects, for every reading of the field clauses
    that agrees with [eval_predicate] on the row, as long as no field is named
    like one of the three connectives. *)
Theorem mongo_means_eval leaf row s :
  built s -> Forall plain_field (leaves s) ->
  Forall (fun p => leaf (predicate_to_mongo p) = eval_predicate p row) (leaves s) ->
  mongo_selects leaf (to_mongo s) (eval s row).
Proof.
  intros B P A. destruct (built_solid s B) as [->|S]; [|by apply solid_selects].
  apply selects_everything, new_object_empty.
Qed.

End Theorems.

(** * [LIKE] and its regular expression *)

(** The atoms of the expressions [like_to_regex] writes, as PCRE reads them. *)
Inductive atom : Type := ALit (c : char) | ADot | ADotStar.

Fixpoint regex_atoms (s : str) : list atom :=
  match s with
  | [] => []
  | c :: s' =>
      if (c =? chr "\")%N then
        match s' with c' :: s'' => ALit c' :: regex_atoms s'' | [] => [ALit c] end
      else if (c =? chr ".")%N then
        match s' with
        | c' :: s'' => if (c' =? chr "*")%N then ADotStar :: regex_atoms s'' else ADot :: regex_atoms s'
        | [] => [ADot]
        end
      else ALit c :: regex_atoms s'
  end.

Definition newline : char := 10%N.

(** Suffixes reachable without consuming a newline, which [.] does not match. *)
Fixpoint line_suffixes (text : str) : list str :=
  text :: match text with
          | [] => []
          | c :: t => if (c =? newline)%N then [] else line_suffixes t
          end.

(** [$] without options: the end of the text, or before a final newline. *)
Definition at_end (text : str) : bool :=
  match text with [] => true | [c] => (c =? newline)%N | _ => false end.

Fixpoint atoms_match (atoms : list atom) (text : str) : bool :=
  match atoms with
  | [] => at_end text
  | ALit c :: r => match text with [] => false | x :: t => (x =? c)%N && atoms_match r t end
  | ADot :: r => match text with [] => false | x :: t => negb (x =? newline)%N && atoms_match r t end
  | ADotStar :: r => existsb (fun t => atoms_match r t) (line_suffixes text)
  end.

(** Matching an expression anchored at both ends. *)
Definition anchored_match (regex text : str) : option bool :=
  match strip_prefix (lit "^") regex with
  | Some r => match strip_suffix (lit "$") r with
              | Some body => Some (atoms_match (regex_atoms body) text)
              | None => None
              end
  | None => None
  end.

Definition atom_of (c : char) : atom :=
  if (c =? chr "%")%N then ADotStar else if (c =? chr "_")%N then ADot else ALit c.

Lemma regex_char_head c s : head (regex_char c ++ s) <> Some (chr "*").
Proof.
  unfold regex_char. destruct (N.eqb_spec c (chr "%")); [done|]. destruct (N.eqb_spec c (chr "_")); [done|].
  destruct (existsb (N.eqb c) regex_special) eqn:E; [done|]. intros [= ->]. done.
Qed.

Lemma regex_atoms_dot s : head s <> Some (chr "*") -> regex_atoms (chr "." :: s) = ADot :: regex_atoms s.
Proof.
  intros Hd. destruct s as [|x r]; [done|].
  change (regex_atoms (chr "." :: x :: r))
    with (if (x =? chr "*")%N then ADotStar :: regex_atoms r else ADot :: regex_atoms (x :: r)).
  destruct (N.eqb_spec x (chr "*")) as [->|_]; done.
Qed.

Lemma regex_atoms_pattern pat : regex_atoms (flat_map regex_char pat) = map atom_of pat.
Proof.
  induction pat as [|c pat IH]; [done|]. cbn [flat_map map]. unfold atom_of, regex_char at 1.
  destruct (N.eqb_spec c (chr "%")) as [->|N1]; [cbn; by rewrite IH|].
  destruct (N.eqb_spec c (chr "_")) as [->|N2].
  - change (lit "." ++ flat_map regex_char pat) with (chr "." :: flat_map regex_char pat).
    rewrite regex_atoms_dot, IH; [done|]. destruct pat as [|c2 pat]; [done|]. apply regex_char_head.
  - destruct (existsb (N.eqb c) regex_special) eqn:E; [cbn; by rewrite IH|].
    cbn [app regex_atoms]. rewrite IH.
    destruct (N.eqb_spec c (chr "\")) as [->|_]; [done|].
    destruct (N.eqb_spec c (chr ".")) as [->|_]; [done|]. done.
Qed.

Lemma line_suffixes_no_newline text : ~ List.In newline text -> line_suffixes text = suffixes text.
Proof.
  induction text as [|c t IH]; intros N; [done|]. simpl in *.
  destruct (N.eqb_spec c newline) as [->|_]; [exfalso; auto|]. rewrite IH; [done|]. auto.
Qed.

Lemma suffixes_no_newline text t : ~ List.In newline text -> List.In t (suffixes text) -> ~ List.In newline t.
Proof.
  induction text as [|c text IH]; simpl; [intros N [<-|[]]; done|]. intros N [<-|I]; [done|]. apply IH; auto.
Qed.

Lemma existsb_ext_in {A} (f g : A -> bool) l : (forall x, List.In x l -> f x = g x) -> existsb f l = existsb g l.
Proof. induction l as [|a l IH]; intros E; [done|]. simpl. rewrite E by (by left). f_equal. apply IH. intros x I. apply E. by right. Qed.

Lemma atoms_match_like pat text :
  ~ List.In newline text -> atoms_match (map atom_of pat) text = like_match_chars text pat.
Proof.
  revert text. induction pat as [|c pat IH]; intros text N; cbn [map atoms_match like_match_chars].
  - destruct text as [|x [|y t]]; simpl; try done. destruct (N.eqb_spec x newline) as [->|]; [|done].
    exfalso. apply N. by left.
  - unfold atom_of. destruct (c =? chr "%")%N.
    + rewrite line_suffixes_no_newline by done. apply existsb_ext_in. intros t I.
      apply IH. by eapply suffixes_no_newline.
    + destruct (c =? chr "_")%N; destruct text as [|x t]; try done; rewrite IH by (intros I; apply N; by right).
      * destruct (N.eqb_spec x newline) as [->|]; [|done]. exfalso. apply N. by left.
      * done.
Qed.

Lemma anchored_match_pattern pat text :
  anchored_match (regex_of_pattern pat) text = Some (atoms_match (map atom_of pat) text).
Proof.
  unfold anchored_match, regex_of_pattern. rewrite strip_prefix_app.
  assert (strip_suffix (lit "$") (flat_map regex_char pat ++ lit "$") = Some (flat_map regex_char pat)) as ->
    by (by apply strip_suffix_Some).
  by rewrite regex_atoms_pattern.
Qed.

(** The regular expression a [LIKE] pattern lowers to, read with PCRE's
    rules, matches the same newline-free texts as the in-memory matcher. *)
Theorem like_regex_agrees {V} `{JsonLaws V} (pat text : str) :
  ~ List.In newline text ->
  anchored_match (like_to_regex (json_string pat)) text = Some (like_match_chars text pat).
Proof.
  intros N. unfold like_to_regex, json_string. rewrite view_inject.
  rewrite anchored_match_pattern. f_equal. by apply atoms_match_like.
Qed.

(** With a newline the two backends differ, in both directions: [a%]
    matches a two-line text in memory and not as a regular expression, and
    [a] matches a text with a trailing newline as a regular expression and not
    in memory. *)
Theorem like_regex_newline {V} `{JsonLaws V} :
  (like_match_chars [97; newline; 98]%N (lit "a%") = true /\
   anchored_match (like_to_regex (json_string (lit "a%"))) [97; newline; 98]%N = Some false) /\
  (like_match_chars [97; newline]%N (lit "a") = false /\
   anchored_match (like_to_regex (json_string (lit "a"))) [97; newline]%N = Some true).
Proof.
  unfold like_to_regex, json_string. rewrite !view_inject. vm_compute. auto.
Qed.

(** The wildcards, declaratively. *)
Inductive like : str -> str -> Prop :=
| like_end : like [] []
| like_percent prefix text pat : like text pat -> like (prefix ++ text) (chr "%" :: pat)
| like_underscore x text pat : like text pat -> like (x :: text) (chr "_" :: pat)
| like_char c text pat : c <> chr "%" -> c <> chr "_" -> like text pat -> like (c :: text) (c :: pat).

Lemma suffixes_spec text t : List.In t (suffixes text) <-> exists prefix, text = prefix ++ t.
Proof.
  induction text as [|c text IH]; simpl.
  - split; [intros [<-|[]]; by exists []|]. intros ([|] & E); [by left|done].
  - rewrite IH. split.
    + intros [<-|(p & ->)]; [by exists []|by exists (c :: p)].
    + intros ([|x p] & E); [by left|]. right. exists p. by injection E.
Qed.

(** The in-memory matcher decides SQL's [LIKE]. *)
Theorem like_match_chars_correct text pat : like_match_chars text pat = true <-> like text pat.
Proof.
  split.
  - revert text. induction pat as [|c pat IH]; intros text E; cbn [like_match_chars] in E.
    { destruct text; [constructor|done]. }
    destruct (N.eqb_spec c (chr "%")) as [->|N1].
    { apply existsb_exists in E as (t & (prefix & ->)%suffixes_spec & E). constructor. auto. }
    destruct (N.eqb_spec c (chr "_")) as [->|N2]; (destruct text as [|x text]; [done|]).
    { constructor. auto. }
    apply andb_true_iff in E as [->%N.eqb_eq E]. constructor; auto.
  - induction 1 as [|prefix text pat _ IH|x text pat _ IH|c text pat N1 N2 _ IH]; [done| |done|].
    + cbn [like_match_chars]. apply existsb_exists. exists text. split; [|done]. apply suffixes_spec. by exists prefix.
    + cbn [like_match_chars]. rewrite (proj2 (N.eqb_neq _ _) N1), (proj2 (N.eqb_neq _ _) N2), N.eqb_refl. done.
Qed.

(** * Witnesses *)

#[local] Existing Instance ascii_lowercase.

(** [role = "admin" OR NOT (age IN (1, 2))]. *)
Definition demo_role : Predicate json := mkPredicate (lit "role") Eq (JString (lit "admin")).
Definition demo_age : Predicate json := mkPredicate (lit "age") In (JArray [JNumber 1; JNumber 2]).
Definition demo_spec : Specification json := spec_or (Pred demo_role) (spec_not (Pred demo_age)).
Definition demo_row : json := JObject [(lit "role", JString (lit "user")); (lit "age", JNumber 3)].

Example demo_sql_mysql :
  spec_to_sql_with demo_spec MySqlDialect =
    (lit "(`role` = ? OR NOT `age` IN (?, ?))", [JString (lit "admin"); JNumber 1; JNumber 2]).
Proof. vm_compute. reflexivity. Qed.

Lemma demo_built : built demo_spec.
Proof. apply built_or; [apply built_pred|apply built_not, built_pred]. Qed.

Lemma sql_placeholders_match_witness :
  scan dquote false (fst (spec_to_sql demo_spec)) = [Some 1; Some 2] /\
  scan (chr "`") false (fst (spec_to_sql_with demo_spec MySqlDialect)) = [None; None; None].
Proof.
  split.
  - exact (sql_placeholders_match PostgresDialect demo_spec).
  - exact (sql_placeholders_match MySqlDialect demo_spec).
Defined.

Lemma values_never_in_sql_witness :
  let evil := spec_or (spec_eq (lit "role") (JString (lit "x' OR 1=1 --")))
                (spec_not (Pred (mkPredicate (lit "age") In (JArray [JNull; JString (lit "?")])))) in
  fst (spec_to_sql_with evil SqliteDialect) = fst (spec_to_sql_with demo_spec SqliteDialect).
Proof.
  intros evil. apply (values_never_in_sql SqliteDialect evil demo_spec). simpl.
  constructor. constructor; [by constructor|]. constructor; [|constructor]. constructor. by constructor.
Defined.

(** A reading of the two leaf clauses in MySQL's dialect. *)
Definition demo_leaf (clause : str) (args : list json) : option bool :=
  match args with
  | [v] => Some (json_eqb (field_of (lit "role") demo_row) v)
  | _ => Some (existsb (fun i => json_eqb i (field_of (lit "age") demo_row)) args)
  end.

Lemma sql_means_eval_witness :
  sql_truth demo_leaf (lit "(`role` = ? OR NOT `age` IN (?, ?))")
    [JString (lit "admin"); JNumber 1; JNumber 2] (Some true).
Proof.
  destruct (sql_means_eval MySqlDialect demo_leaf demo_row demo_spec demo_built) as [[E _]|T].
  - repeat constructor; intros b; eexists; (split; [reflexivity|]); vm_compute; reflexivity.
  - discriminate E.
  - exact T.
Defined.

Definition demo_mongo_leaf (doc : json) : bool :=
  if json_eqb doc (predicate_to_mongo demo_role) then eval_predicate demo_role demo_row
  else eval_predicate demo_age demo_row.

Lemma mongo_means_eval_witness : mongo_selects demo_mongo_leaf (to_mongo demo_spec) true.
Proof.
  assert (eval demo_spec demo_row = true) as E by (vm_compute; reflexivity). rewrite <- E.
  apply (mongo_means_eval demo_mongo_leaf demo_row demo_spec demo_built).
  - repeat constructor; vm_compute; intros [?|[?|[?|[]]]]; discriminate.
  - repeat constructor; vm_compute; reflexivity.
Defined.

Lemma like_regex_agrees_witness :
  ~ List.In newline (lit "100%") /\
  anchored_match (like_to_regex (json_string (V := json) (lit "1_0%"))) (lit "100%") = Some true.
Proof.
  assert (~ List.In newline (lit "100%")) as N by (vm_compute; intros [?|[?|[?|[?|[]]]]]; discriminate).
  split; [exact N|]. rewrite (like_regex_agrees (V := json) (lit "1_0%") (lit "100%") N). vm_compute. reflexivity.
Defined.

Lemma like_regex_newline_witness :
  anchored_match (like_to_regex (json_string (V := json) (lit "a"))) [97; newline]%N = Some true.
Proof. apply (like_regex_newline (V := json)). Defined.

Lemma combinators_evaluate_witness :
  eval (spec_and demo_spec All) demo_row = true /\ eval (spec_or All (Pred demo_role)) demo_row = false.
Proof.
  destruct (combinators_evaluate demo_spec All demo_row) as (-> & _ & _).
  destruct (combinators_evaluate All (Pred demo_role) demo_row) as (_ & -> & _). vm_compute. auto.
Defined.

Lemma to_filter_agrees_witness :
  (exists f, spec_to_filter (spec_and (Pred demo_role) (Pred demo_age)) = Some f /\
     forall row, eval (spec_and (Pred demo_role) (Pred demo_age)) row
                 = forallb (fun p => eval_predicate p row) (predicates f)) /\
  is_conjunction demo_spec = false.
Proof.
  split.
  - eexists. split; [reflexivity|]. intros row.
    destruct (to_filter_agrees (spec_and (Pred demo_role) (Pred demo_age))) as (_ & _ & _ & Ev & _). apply Ev.
  - exact (to_filter_agrees demo_spec).
Defined.
