(* ===== verification/QueryParser.v ===== *)
(** Derived query methods: [crates/data/src/query_parser.rs].

    The parser of method names ([find_by_name_and_age_greater_than]), the
    lowering of a parsed query with its arguments to a [Specification], and
    its execution paths: SQL statement, MongoDB document, in-memory
    evaluation with ordering. *)
From Stdlib Require Import Ascii String.
From Stdlib Require Import ZArith NArith List Lia Sorting.Sorted Sorting.Permutation Floats.SpecFloat.
From stdpp Require Import base decidable list.
From S2P Require Import Prelude Str Unicode Json Order Dialect Filter Specification.

(** * Data *)

Inductive QueryPrefix : Type := Find | Count | Exists | Delete.

Definition prefix_as_str (p : QueryPrefix) : str :=
  match p with
  | Find => lit "find_by" | Count => lit "count_by" | Exists => lit "exists_by" | Delete => lit "delete_by"
  end.

Module QueryOperator.
Inductive t : Type :=
| Eq | Not | Gt | Lt | Gte | Lte | Between | Like | Containing | In | IsNull | IsNotNull.
End QueryOperator.

#[export] Instance QueryOperator_eq_dec : EqDecision QueryOperator.t.
Proof. solve_decision. Defined.

Definition operator_as_str (o : QueryOperator.t) : str :=
  match o with
  | QueryOperator.Eq => lit "eq" | QueryOperator.Not => lit "not" | QueryOperator.Gt => lit "gt"
  | QueryOperator.Lt => lit "lt" | QueryOperator.Gte => lit "gte" | QueryOperator.Lte => lit "lte"
  | QueryOperator.Between => lit "between" | QueryOperator.Like => lit "like"
  | QueryOperator.Containing => lit "containing" | QueryOperator.In => lit "in"
  | QueryOperator.IsNull => lit "is_null" | QueryOperator.IsNotNull => lit "is_not_null"
  end.

Definition arity (o : QueryOperator.t) : nat :=
  match o with
  | QueryOperator.IsNull | QueryOperator.IsNotNull => 0
  | QueryOperator.Between => 2
  | _ => 1
  end.

(** Operator suffixes, longest first. *)
Definition OPERATORS : list (str * QueryOperator.t) :=
  [(lit "_greater_than_equal", QueryOperator.Gte);
   (lit "_less_than_equal", QueryOperator.Lte);
   (lit "_greater_than", QueryOperator.Gt);
   (lit "_less_than", QueryOperator.Lt);
   (lit "_is_not_null", QueryOperator.IsNotNull);
   (lit "_is_null", QueryOperator.IsNull);
   (lit "_containing", QueryOperator.Containing);
   (lit "_between", QueryOperator.Between);
   (lit "_not", QueryOperator.Not);
   (lit "_like", QueryOperator.Like);
   (lit "_in", QueryOperator.In)].

Record FieldPredicate : Type := mkFieldPredicate { fp_field : str; operator : QueryOperator.t }.
Record OrderClause : Type := mkOrderClause { oc_field : str; oc_direction : Direction }.

Record ParsedQuery : Type := mkParsedQuery {
  prefix : QueryPrefix;
  query_predicates : list FieldPredicate;
  connectors : list str;
  order_clauses : list OrderClause
}.

Inductive QueryParseError : Type := UnknownPrefix (name : str).

Inductive QueryBindError : Type := ArgumentCount (expected got : nat).

(** * Parsing *)

Definition PREFIXES : list (str * QueryPrefix) :=
  [(lit "find_by_", Find); (lit "count_by_", Count); (lit "exists_by_", Exists); (lit "delete_by_", Delete)].

Fixpoint find_map {A B} (f : A -> option B) (l : list A) : option B :=
  match l with
  | [] => None
  | a :: l' => match f a with Some b => Some b | None => find_map f l' end
  end.

Definition is_direction (part : str) : bool := str_eqb part (lit "asc") || str_eqb part (lit "desc").

(** The inner [while]: the parts before the next direction. *)
Fixpoint span_field (parts : list str) : list str * list str :=
  match parts with
  | [] => ([], [])
  | p :: ps => if is_direction p then ([], parts) else let '(f, r) := span_field ps in (p :: f, r)
  end.

Fixpoint parse_order_parts (fuel : nat) (parts : list str) : list OrderClause :=
  match fuel, parts with
  | O, _ | _, [] => []
  | S n, _ =>
      let '(field_parts, rest) := span_field parts in
      let field := join (lit "_") field_parts in
      let '(dir, rest) :=
        match rest with
        | [] => (Asc, [])
        | p :: ps => (if str_eqb p (lit "desc") then Desc else Asc, ps)
        end in
      let clauses := parse_order_parts n rest in
      if is_empty field then clauses else mkOrderClause field dir :: clauses
  end.

(** Every iteration consumes a part. *)
Definition parse_order (order_body : str) : list OrderClause :=
  let parts := split (chr "_") order_body in parse_order_parts (List.length parts) parts.

Definition parse_single_predicate (segment : str) : FieldPredicate :=
  match find_map (fun '(suffix, o) => (fun f => mkFieldPredicate f o) <$> strip_suffix suffix segment) OPERATORS with
  | Some p => p
  | None => mkFieldPredicate segment QueryOperator.Eq
  end.

Definition next_connector (rest : str) : option (nat * str * str) :=
  match find (lit "_and_") rest, find (lit "_or_") rest with
  | Some a, Some o => if (a <? o)%nat then Some (a, lit "_and_", lit "and") else Some (o, lit "_or_", lit "or")
  | Some a, None => Some (a, lit "_and_", lit "and")
  | None, Some o => Some (o, lit "_or_", lit "or")
  | None, None => None
  end.

Fixpoint parse_predicates_loop (fuel : nat) (rest : str) : list FieldPredicate * list str :=
  match fuel with
  | O => ([], [])
  | S n =>
      match next_connector rest with
      | Some (pos, token, connector) =>
          let '(ps, cs) := parse_predicates_loop n (drop (pos + List.length token) rest) in
          (parse_single_predicate (take pos rest) :: ps, connector :: cs)
      | None => ([parse_single_predicate rest], [])
      end
  end.

(** Every iteration but the last consumes a connector. *)
Definition parse_predicates (body : str) : list FieldPredicate * list str :=
  if is_empty body then ([], []) else parse_predicates_loop (S (List.length body)) body.

Definition parse_prefix (method_name : str) : option (QueryPrefix * str) :=
  find_map (fun '(p, kind) => (fun rest => (kind, rest)) <$> strip_prefix p method_name) PREFIXES.

Definition parse (method_name : str) : Result ParsedQuery QueryParseError :=
  pb <-? ok_or (parse_prefix method_name) (UnknownPrefix method_name);
  let '(kind, body) := pb in
  let '(body, orders) :=
    match find (lit "_order_by_") body with
    | Some idx => (take idx body, parse_order (drop (idx + List.length (lit "_order_by_")) body))
    | None => (body, [])
    end in
  let '(ps, cs) := parse_predicates body in
  Ok (mkParsedQuery kind ps cs orders).

(** * Lowering *)

Definition arg_count (q : ParsedQuery) : nat :=
  list_sum (map (fun p => arity (operator p)) (query_predicates q)).

Section Lowering.
Context {V : Type} `{JsonValue V} `{Lowercase}.

Definition get_arg (args : list V) (i : nat) : V := match nth_error args i with Some v => v | None => json_null end.

Definition take1 (fd : str) (o : Op) (args : list V) (idx : nat) : Specification V * nat :=
  (Pred (mkPredicate fd o (get_arg args idx)), S idx).

(** [%value%] for a string argument. *)
Definition containing_pattern (v : V) : V :=
  match view v with
  | Value.String s => json_string (lit "%" ++ s ++ lit "%")
  | _ => v
  end.

Definition predicate_to_spec (p : FieldPredicate) (args : list V) (idx : nat) : Specification V * nat :=
  let fd := fp_field p in
  match operator p with
  | QueryOperator.Eq => take1 fd Eq args idx
  | QueryOperator.Not => take1 fd Ne args idx
  | QueryOperator.Gt => take1 fd Gt args idx
  | QueryOperator.Lt => take1 fd Lt args idx
  | QueryOperator.Gte => take1 fd Gte args idx
  | QueryOperator.Lte => take1 fd Lte args idx
  | QueryOperator.Like => take1 fd Like args idx
  | QueryOperator.In => take1 fd In args idx
  | QueryOperator.Containing =>
      (Pred (mkPredicate fd Like (containing_pattern (get_arg args idx))), S idx)
  | QueryOperator.Between =>
      (spec_and (Pred (mkPredicate fd Gte (get_arg args idx))) (Pred (mkPredicate fd Lte (get_arg args (S idx)))),
       S (S idx))
  | QueryOperator.IsNull => (Pred (is_nil fd), idx)
  | QueryOperator.IsNotNull => (spec_not (Pred (is_nil fd)), idx)
  end.

Fixpoint predicates_to_specs (ps : list FieldPredicate) (args : list V) (idx : nat) : list (Specification V) :=
  match ps with
  | [] => []
  | p :: ps' => let '(s, idx) := predicate_to_spec p args idx in s :: predicates_to_specs ps' args idx
  end.

Definition connect (acc : Specification V) (cs : str * Specification V) : Specification V :=
  let '(connector, s) := cs in
  if str_eqb connector (lit "or") then spec_or acc s else spec_and acc s.

Definition to_specification (q : ParsedQuery) (args : list V) : Result (Specification V) QueryBindError :=
  let expected := arg_count q in
  if negb (List.length args =? expected)%nat then Err (ArgumentCount expected (List.length args))
  else
    match predicates_to_specs (query_predicates q) args 0 with
    | [] => Ok All
    | acc :: specs => Ok (fold_left connect (combine (connectors q) specs) acc)
    end.

Definition sort_clauses (q : ParsedQuery) : list Sort :=
  map (fun o => mkSort (oc_field o) (oc_direction o)) (order_clauses q).

Definition query_to_filter (q : ParsedQuery) (args : list V) : Result (option (Filter V)) QueryBindError :=
  s <-? to_specification q args;
  Ok ((fun f => mkFilter (predicates f) (sort_clauses q) (page f) (size f)) <$> spec_to_filter s).

Definition query_to_mongo (q : ParsedQuery) (args : list V) : Result V QueryBindError :=
  s <-? to_specification q args; Ok (to_mongo s).

Definition query_mongo_sort (q : ParsedQuery) : V :=
  mongo_sort_of (map (fun o => (oc_field o, oc_direction o)) (order_clauses q)).

Record DerivedSql : Type := mkDerivedSql { ds_prefix : QueryPrefix; sql : str; ds_args : list V }.

Definition query_to_sql (q : ParsedQuery) (d : SqlDialect) (table : str) (args : list V)
  : Result DerivedSql QueryBindError :=
  s <-? to_specification q args;
  let '(frag, bound) := spec_to_sql_with s d in
  let where_clause := if is_empty frag then [] else lit " WHERE " ++ frag in
  let table_q := quote_ident d table in
  let text :=
    match prefix q with
    | Find =>
        lit "SELECT * FROM " ++ table_q ++ where_clause ++
        match order_clauses q with
        | [] => []
        | os => lit " ORDER BY " ++ join (lit ", ") (map (fun o => order_item d (oc_field o) (oc_direction o)) os)
        end
    | Count => lit "SELECT COUNT(*) FROM " ++ table_q ++ where_clause
    | Exists =>
        lit "SELECT CASE WHEN EXISTS(SELECT 1 FROM " ++ table_q ++ where_clause ++ lit ") THEN 1 ELSE 0 END"
    | Delete => lit "DELETE FROM " ++ table_q ++ where_clause
    end in
  Ok (mkDerivedSql (prefix q) text bound).

(** * In-memory execution *)

Definition type_rank (v : V) : Z :=
  match view v with
  | Value.Null => 4 | Value.Bool _ => 0 | Value.Number _ => 1 | Value.String _ => 2 | _ => 3
  end.

Definition number_or_nan (n : Num) : f64 := match as_f64 n with Some x => x | None => S754_nan end.

Definition json_order (a b : V) : comparison :=
  match view a, view b with
  | Value.Number x, Value.Number y =>
      match f64_partial_cmp (number_or_nan x) (number_or_nan y) with Some o => o | None => Datatypes.Eq end
  | Value.String x, Value.String y => str_compare x y
  | Value.Bool x, Value.Bool y => bool_compare x y
  | Value.Null, Value.Null => Datatypes.Eq
  | Value.Null, _ => Datatypes.Gt
  | _, Value.Null => Datatypes.Lt
  | _, _ => Z.compare (type_rank a) (type_rank b)
  end.

(** The entities are serialised by serde: [to_value]. *)
Context {T : Type} (to_value : T -> option V).

Definition clause_compare (c : OrderClause) (a b : T) : comparison :=
  let field_in t := field_of (oc_field c) (match to_value t with Some v => v | None => json_null end) in
  let o := json_order (field_in a) (field_in b) in
  match oc_direction c with Asc => o | Desc => CompOpp o end.

Fixpoint clauses_compare (cs : list OrderClause) (a b : T) : comparison :=
  match cs with
  | [] => Datatypes.Eq
  | c :: cs' =>
      match clause_compare c a b with
      | Datatypes.Eq => clauses_compare cs' a b
      | o => o
      end
  end.

Definition apply_order (q : ParsedQuery) (matched : list T) : list T :=
  match order_clauses q with
  | [] => matched
  | cs => sort_by (clauses_compare cs) matched
  end.

Definition evaluate (q : ParsedQuery) (entities : list T) (args : list V) : Result (list T) QueryBindError :=
  s <-? to_specification q args;
  Ok (apply_order q (List.filter (fun e => spec_matches s (to_value e)) entities)).

Definition count (q : ParsedQuery) (entities : list T) (args : list V) : Result nat QueryBindError :=
  s <-? to_specification q args;
  Ok (List.length (List.filter (fun e => spec_matches s (to_value e)) entities)).

Definition exists_ (q : ParsedQuery) (entities : list T) (args : list V) : Result bool QueryBindError :=
  s <-? to_specification q args;
  Ok (existsb (fun e => spec_matches s (to_value e)) entities).

End Lowering.

Example parse_example :
  parse (lit "find_by_status_and_age_greater_than_equal_or_deleted_at_is_null_order_by_name_desc_age") =
    Ok (mkParsedQuery Find
          [mkFieldPredicate (lit "status") QueryOperator.Eq;
           mkFieldPredicate (lit "age") QueryOperator.Gte;
           mkFieldPredicate (lit "deleted_at") QueryOperator.IsNull]
          [lit "and"; lit "or"]
          [mkOrderClause (lit "name") Desc; mkOrderClause (lit "age") Asc]).
Proof. vm_compute. reflexivity. Qed.

(** * Theorems: lowering *)

Section Meaning.
Context {V : Type} `{JsonValue V} `{Lowercase}.

(** The arguments of each predicate, left to right. *)
Fixpoint arg_slices (ps : list FieldPredicate) (args : list V) : list (list V) :=
  match ps with
  | [] => []
  | p :: ps' => take (arity (operator p)) args :: arg_slices ps' (drop (arity (operator p)) args)
  end.

(** What a parsed predicate asks of a row, given its arguments. *)
Definition predicate_meaning (row : V) (p : FieldPredicate) (args : list V) : bool :=
  let actual := field_of (fp_field p) row in
  match operator p, args with
  | QueryOperator.Eq, [v] => value_eqb actual v
  | QueryOperator.Not, [v] => negb (value_eqb actual v)
  | QueryOperator.Gt, [v] => ordered is_gt actual v
  | QueryOperator.Lt, [v] => ordered is_lt actual v
  | QueryOperator.Gte, [v] => ordered is_ge actual v
  | QueryOperator.Lte, [v] => ordered is_le actual v
  | QueryOperator.Between, [lo; hi] => ordered is_ge actual lo && ordered is_le actual hi
  | QueryOperator.Like, [v] => like_match actual v false
  | QueryOperator.Containing, [v] => like_match actual (containing_pattern v) false
  | QueryOperator.In, [v] =>
      match view v with Value.Array items => existsb (fun i => value_eqb i actual) items | _ => false end
  | QueryOperator.IsNull, [] => value_is_null actual
  | QueryOperator.IsNotNull, [] => negb (value_is_null actual)
  | _, _ => false
  end.

(** Left-associative combination of the predicates' truth values. *)
Definition connect_bool (acc : bool) (cb : str * bool) : bool :=
  let '(connector, b) := cb in if str_eqb connector (lit "or") then acc || b else acc && b.

Definition query_meaning (row : V) (q : ParsedQuery) (args : list V) : bool :=
  match zip_with (predicate_meaning row) (query_predicates q) (arg_slices (query_predicates q) args) with
  | [] => true
  | b :: bs => fold_left connect_bool (combine (connectors q) bs) b
  end.

Lemma get_arg_drop args i v rest : drop i args = v :: rest -> get_arg args i = v /\ drop (S i) args = rest.
Proof.
  unfold get_arg. revert i. induction args as [|a args IH]; intros [|i] E; simpl in *; try done.
  - injection E as -> ->. by rewrite drop_0.
  - by apply IH.
Qed.

Lemma predicate_to_spec_meaning p args i row :
  (i + arity (operator p) <= List.length args)%nat ->
  solid (fst (predicate_to_spec p args i)) = true /\
  snd (predicate_to_spec p args i) = (i + arity (operator p))%nat /\
  eval (fst (predicate_to_spec p args i)) row = predicate_meaning row p (take (arity (operator p)) (drop i args)).
Proof.
  intros L. assert (List.length (drop i args) = (List.length args - i)%nat) as Ln by apply length_drop.
  unfold predicate_to_spec, take1, predicate_meaning.
  destruct (operator p); simpl in L, Ln |- *;
    try (destruct (drop i args) as [|v rest] eqn:D; simpl in Ln; [lia|];
         destruct (get_arg_drop _ _ _ _ D) as [-> D2]; simpl);
    try (split_and!; [done|lia|done]).
  - destruct rest as [|hi rest]; simpl in Ln; [lia|]. destruct (get_arg_drop _ _ _ _ D2) as [-> _]. simpl.
    split_and!; [done|lia|by rewrite andb_true_r].
Qed.

Lemma predicates_to_specs_meaning ps args i row :
  (i + list_sum (map (fun p => arity (operator p)) ps) <= List.length args)%nat ->
  forallb solid (predicates_to_specs ps args i) = true /\
  map (fun s => eval s row) (predicates_to_specs ps args i) =
    zip_with (predicate_meaning row) ps (arg_slices ps (drop i args)).
Proof.
  revert i. induction ps as [|p ps IH]; intros i L; [done|]. cbn [map list_sum fold_right] in L.
  change (fold_right Nat.add 0%nat) with list_sum in L.
  destruct (predicate_to_spec_meaning p args i row) as (S & I & E); [lia|]. cbn [predicates_to_specs].
  destruct (predicate_to_spec p args i) as [s j]. simpl in S, I, E. subst j.
  destruct (IH (i + arity (operator p))%nat) as [Ss Es]; [lia|]. simpl. rewrite S, Ss, E, Es. split; [done|].
  by rewrite drop_drop.
Qed.

Lemma fold_connect_meaning row cs acc specs :
  solid acc = true -> forallb solid specs = true ->
  eval (fold_left connect (combine cs specs) acc) row =
  fold_left connect_bool (combine cs (map (fun s => eval s row) specs)) (eval acc row).
Proof.
  revert acc specs. induction cs as [|c cs IH]; intros acc [|s specs] A S; try done. simpl in S |- *.
  apply andb_true_iff in S as [S1 S]. rewrite IH; [|destruct (str_eqb c (lit "or")); [by apply solid_or|by apply solid_and]|done].
  f_equal. destruct (str_eqb c (lit "or")).
  - rewrite eval_spec_or. destruct acc, s; done.
  - apply eval_spec_and.
Qed.

(** Binding arguments to a parsed query fails exactly when their number is
    not the total arity, and otherwise gives a specification that selects a
    row when the left-to-right combination of the predicates does, each
    predicate reading its own arguments in order. *)
Theorem query_evaluates q args :
  match to_specification q args with
  | Err e => e = ArgumentCount (arg_count q) (List.length args) /\ List.length args <> arg_count q
  | Ok s => List.length args = arg_count q /\ forall row, eval s row = query_meaning row q args
  end.
Proof.
  unfold to_specification. destruct (Nat.eqb_spec (List.length args) (arg_count q)) as [E|N]; simpl; [|done].
  pose proof (fun row => predicates_to_specs_meaning (query_predicates q) args 0 row) as M.
  unfold arg_count in E. destruct (predicates_to_specs (query_predicates q) args 0) as [|acc specs];
    (split; [done|]); intros row; destruct (M row) as [S Em]; try lia; unfold query_meaning;
    rewrite drop_0 in Em; rewrite <- Em; [done|]. simpl in S |- *. apply andb_true_iff in S as [S1 S].
  by apply fold_connect_meaning.
Qed.

End Meaning.

(** * Theorems: ordering *)

Section Ordering.
Context {V : Type} `{JsonLaws V} `{!JsonNumbers V} `{Lowercase}.

Lemma number_or_nan_value (n : Num) : f64_is_nan (number_or_nan n) = false.
Proof. unfold number_or_nan. destruct (number_value n) as (x & -> & N). exact N. Qed.

Definition view_number (v : V) : Z * Z * Z :=
  match view v with Value.Number n => f64_key (number_or_nan n) | _ => (0, 0, 0) end.
Definition view_string (v : V) : str := match view v with Value.String s => s | _ => [] end.
Definition view_bool (v : V) : bool := match view v with Value.Bool b => b | _ => false end.

(** The order compares the type ranks first and the contents next. *)
Lemma json_order_lexicographic (a b : V) :
  json_order a b =
  then_cmp (Z.compare (type_rank a) (type_rank b))
    (then_cmp (key_compare (view_number a) (view_number b))
      (then_cmp (str_compare (view_string a) (view_string b)) (bool_compare (view_bool a) (view_bool b)))).
Proof.
  unfold json_order, type_rank, view_number, view_string, view_bool.
  destruct (view a) as [|x|x|x|x|x], (view b) as [|y|y|y|y|y]; try done.
  - rewrite f64_partial_cmp_key by apply number_or_nan_value. simpl. by destruct (key_compare _ _).
  - simpl. by destruct (str_compare x y).
Qed.

Lemma preorder_json : total_preorder (json_order : V -> V -> comparison).
Proof.
  eapply preorder_ext; [apply json_order_lexicographic|].
  apply (preorder_then (fun a b : V => Z.compare (type_rank a) (type_rank b)));
    [apply (preorder_map type_rank), preorder_Z|].
  apply (preorder_then (fun a b : V => key_compare (view_number a) (view_number b)));
    [apply (preorder_map view_number), preorder_key|].
  apply (preorder_then (fun a b : V => str_compare (view_string a) (view_string b)));
    [apply (preorder_map view_string), preorder_str|apply (preorder_map view_bool), preorder_bool].
Qed.

Context {T : Type} (to_value : T -> option V).

Lemma preorder_clause c : total_preorder (clause_compare to_value c).
Proof.
  unfold clause_compare.
  pose proof (preorder_map (fun t => field_of (oc_field c) (match to_value t with Some v => v | None => json_null end))
    json_order preorder_json) as P.
  destruct (oc_direction c); [exact P|by apply preorder_reverse in P].
Qed.

Lemma preorder_clauses cs : total_preorder (clauses_compare to_value cs).
Proof.
  induction cs as [|c cs IH]; [apply preorder_equal|].
  eapply preorder_ext; [|apply (preorder_then (clause_compare to_value c) _ (preorder_clause c) IH)].
  intros a b. simpl. unfold then_cmp. by destruct (clause_compare to_value c a b).
Qed.

(** Running a query in memory returns the matching entities, each as often
    as it occurs, in an order consistent with the order-by clauses and stable
    among equals; [count] and [exists] report on the same rows. *)
Theorem evaluate_filters_and_sorts q entities args s :
  to_specification q args = Ok s ->
  let matching := List.filter (fun e => spec_matches s (to_value e)) entities in
  exists out,
    evaluate to_value q entities args = Ok out /\
    Permutation out matching /\
    StronglySorted (fun a b => clauses_compare to_value (order_clauses q) a b <> Datatypes.Gt) out /\
    (forall k, List.filter (same (clauses_compare to_value (order_clauses q)) k) out =
               List.filter (same (clauses_compare to_value (order_clauses q)) k) matching) /\
    count to_value q entities args = Ok (List.length out) /\
    exists_ to_value q entities args = Ok (negb (List.length out =? 0)%nat).
Proof.
  intros E matching. unfold evaluate, count, exists_. rewrite E. cbn [result_bind]. fold matching.
  pose proof (preorder_clauses (order_clauses q)) as P.
  assert (apply_order to_value q matching = sort_by (clauses_compare to_value (order_clauses q)) matching \/
          apply_order to_value q matching = matching /\ order_clauses q = []) as A.
  { unfold apply_order. destruct (order_clauses q); auto. }
  assert (Permutation (apply_order to_value q matching) matching) as Pm.
  { destruct A as [-> | [-> _]]; [apply sort_by_permutation|done]. }
  exists (apply_order to_value q matching). split_and!; [done|done| | | |].
  - destruct A as [-> | [-> ->]]; [by apply sort_by_sorted|]. clear.
    induction matching; constructor; [done|]. by apply List.Forall_forall.
  - intros k. destruct A as [-> | [-> _]]; [by apply sort_by_stable|done].
  - by rewrite (Permutation_length Pm).
  - f_equal. rewrite (Permutation_length Pm). unfold matching. clear.
    induction entities as [|e es IH]; [done|]. simpl. by destruct (spec_matches s (to_value e)).
Qed.

End Ordering.

#[export] Instance json_numbers : JsonNumbers json.
Proof.
  split. intros [n|[x F]]; eexists; (split; [done|]); [apply f64_of_Z_not_nan|]. by destruct x.
Qed.

(** * Theorems: parsing *)

Abbreviation underscore := (chr "_").

(** The words of the operator suffixes, connectors and order-by clauses. *)
Definition RESERVED : list str :=
  map lit ["and"; "or"; "order"; "asc"; "desc"; "greater"; "less"; "than"; "equal"; "is"; "not"; "null";
           "containing"; "between"; "like"; "in"]%string.

(** A field name none of whose underscore-separated words is empty or reserved. *)
Definition name_word (w : str) : Prop := w <> [] /\ ~ List.In w RESERVED.
Definition field_name (f : str) : Prop := Forall name_word (split underscore f).

Definition operator_words (o : QueryOperator.t) : list str :=
  match o with
  | QueryOperator.Eq => []
  | QueryOperator.Not => [lit "not"]
  | QueryOperator.Gt => [lit "greater"; lit "than"]
  | QueryOperator.Lt => [lit "less"; lit "than"]
  | QueryOperator.Gte => [lit "greater"; lit "than"; lit "equal"]
  | QueryOperator.Lte => [lit "less"; lit "than"; lit "equal"]
  | QueryOperator.Between => [lit "between"]
  | QueryOperator.Like => [lit "like"]
  | QueryOperator.Containing => [lit "containing"]
  | QueryOperator.In => [lit "in"]
  | QueryOperator.IsNull => [lit "is"; lit "null"]
  | QueryOperator.IsNotNull => [lit "is"; lit "not"; lit "null"]
  end.

Definition segment_words (p : FieldPredicate) : list str :=
  split underscore (fp_field p) ++ operator_words (operator p).

Fixpoint body_words (ps : list FieldPredicate) (cs : list str) : list str :=
  match ps, cs with
  | p :: ps', c :: cs' => segment_words p ++ c :: body_words ps' cs'
  | p :: _, [] => segment_words p
  | [], _ => []
  end.

Definition order_words (cs : list OrderClause) : list str :=
  flat_map (fun c => split underscore (oc_field c) ++ [direction_as_str (oc_direction c)]) cs.

(** The method name of a query: what a programmer would write for it. *)
Definition method_name (q : ParsedQuery) : str :=
  prefix_as_str (prefix q) ++ lit "_" ++
  join (lit "_") (body_words (query_predicates q) (connectors q)) ++
  match order_clauses q with
  | [] => []
  | cs => lit "_order_by_" ++ join (lit "_") (order_words cs)
  end.

Record well_formed (q : ParsedQuery) : Prop := {
  wf_predicates : query_predicates q <> [];
  wf_connectors : S (List.length (connectors q)) = List.length (query_predicates q);
  wf_connector : Forall (fun c => c = lit "and" \/ c = lit "or") (connectors q);
  wf_fields : Forall (fun p => field_name (fp_field p)) (query_predicates q);
  wf_orders : Forall (fun c => field_name (oc_field c)) (order_clauses q)
}.

(** ** Operator suffixes *)

Definition OPERATOR_WORDS : list (list str * QueryOperator.t) :=
  map (fun o => (operator_words o, o))
    [QueryOperator.Gte; QueryOperator.Lte; QueryOperator.Gt; QueryOperator.Lt; QueryOperator.IsNotNull;
     QueryOperator.IsNull; QueryOperator.Containing; QueryOperator.Between; QueryOperator.Not;
     QueryOperator.Like; QueryOperator.In].

Lemma operators_words :
  OPERATORS = map (fun '(k, o) => (underscore :: join (lit "_") k, o)) OPERATOR_WORDS.
Proof. vm_compute. reflexivity. Qed.

(** The suffix [k] cannot end a name whose operator words are [ow]: they
    differ, or [k] would reach into the field's words (both lists reversed). *)
Fixpoint clash (rk row : list str) : bool :=
  match rk, row with
  | [], _ => false
  | a :: _, [] => bool_decide (a ∈ RESERVED)
  | a :: rk', b :: row' => if bool_decide (a = b) then clash rk' row' else true
  end.

Fixpoint select (ow : list str) (table : list (list str * QueryOperator.t)) : option QueryOperator.t :=
  match table with
  | [] => Some QueryOperator.Eq
  | (k, o) :: table' =>
      if bool_decide (k = ow) then Some o
      else if clash (rev k) (rev ow) then select ow table' else None
  end.

Lemma select_operator o : select (operator_words o) OPERATOR_WORDS = Some o.
Proof. destruct o; vm_compute; reflexivity. Qed.

Lemma clash_sound rk row ws ru :
  clash rk row = true -> Forall name_word ws -> row ++ rev ws = rk ++ ru -> False.
Proof.
  revert row. induction rk as [|a rk IH]; intros row C F E; [done|]. simpl in C.
  destruct row as [|b row]; simpl in E.
  - apply bool_decide_eq_true, list_elem_of_In in C.
    assert (List.In a ws) as I by (apply in_rev; rewrite E; by left).
    rewrite List.Forall_forall in F. by destruct (F _ I).
  - injection E as -> E. rewrite bool_decide_eq_true_2 in C by done. by apply (IH row).
Qed.

Lemma split_join_words ws : ws <> [] -> Forall (fun w => ~ List.In underscore w) ws ->
  split underscore (join (lit "_") ws) = ws.
Proof. intros N F. by apply split_join. Qed.

Lemma join_split_field f : join (lit "_") (split underscore f) = f.
Proof. apply (join_split underscore). Qed.

(** Stripping a suffix of words off a text of words. *)
Lemma strip_words k ts :
  k <> [] -> ts <> [] -> Forall (fun w => ~ List.In underscore w) (k ++ ts) ->
  match strip_suffix (underscore :: join (lit "_") k) (join (lit "_") ts) with
  | Some f => ts = split underscore f ++ k
  | None => forall u, u <> [] -> ts <> u ++ k
  end.
Proof.
  intros Nk Nt F. apply List.Forall_app in F as [Fk Ft].
  destruct (strip_suffix _ _) as [f|] eqn:E.
  - apply strip_suffix_Some in E. rewrite <- (split_join_words ts), E by done.
    rewrite split_app_sep. by rewrite (split_join_words k).
  - intros u Nu ->. assert (strip_suffix (underscore :: join (lit "_") k) (join (lit "_") (u ++ k)) =
      Some (join (lit "_") u)) as E2; [|congruence].
    apply strip_suffix_Some. by rewrite join_app.
Qed.

Lemma select_strips table ow ws o :
  select ow table = Some o -> (o = QueryOperator.Eq -> ow = []) -> ws <> [] -> Forall name_word ws ->
  Forall (fun w => ~ List.In underscore w) (ws ++ ow) ->
  Forall (fun '(k, o) => k <> [] /\ o <> QueryOperator.Eq /\ Forall (fun w => ~ List.In underscore w) k) table ->
  let text := join (lit "_") (ws ++ ow) in
  match find_map (fun '(suffix, o) => (fun f => mkFieldPredicate f o) <$> strip_suffix suffix text)
          (map (fun '(k, o) => (underscore :: join (lit "_") k, o)) table) with
  | Some p => p
  | None => mkFieldPredicate text QueryOperator.Eq
  end = mkFieldPredicate (join (lit "_") ws) o.
Proof.
  intros S Eq0 N F W T text. assert (ws ++ ow <> []) as Nt by (by destruct ws).
  induction T as [|[k o2] table (Nk & No & Wk) T IH]; cbn [map find_map select] in *.
  { injection S as <-. unfold text. by rewrite (Eq0 eq_refl), app_nil_r. }
  pose proof (strip_words k (ws ++ ow) Nk Nt) as St. fold text in St.
  destruct (strip_suffix (underscore :: join (lit "_") k) text) as [f|]; cbn [fmap option_fmap option_map].
  - assert (ws ++ ow = split underscore f ++ k) as E by (apply St, List.Forall_app; done).
    case_bool_decide as Ek.
    + injection S as <-. subst k. apply app_inv_tail in E. subst ws. by rewrite join_split_field.
    + revert S. destruct (clash _ _) eqn:C; [intros S; exfalso|done].
      apply (clash_sound (rev k) (rev ow) ws (rev (split underscore f)) C F).
      by rewrite <- !rev_app_distr, E.
  - assert (k <> ow) as Ek.
    { intros ->. apply (St (proj2 (List.Forall_app _ _ _) (conj Wk W)) ws N eq_refl). }
    rewrite bool_decide_eq_false_2 in S by done. revert S. destruct (clash _ _); [|done]. by apply IH.
Qed.

Lemma parse_segment p :
  field_name (fp_field p) -> parse_single_predicate (join (lit "_") (segment_words p)) = p.
Proof.
  intros F. unfold parse_single_predicate, segment_words. rewrite operators_words.
  pose proof (select_strips OPERATOR_WORDS (operator_words (operator p)) (split underscore (fp_field p))
    (operator p) (select_operator _)) as S. cbv zeta in S. rewrite S.
  - rewrite join_split_field. by destruct p.
  - by intros ->.
  - apply split_nonempty.
  - exact F.
  - apply List.Forall_app. split; [apply split_words|].
    destruct (operator p); repeat (apply List.Forall_cons || apply List.Forall_nil); vm_compute; tauto || intuition congruence.
  - vm_compute. repeat (apply List.Forall_cons || apply List.Forall_nil); split_and!; try discriminate.
    all: repeat (apply List.Forall_cons || apply List.Forall_nil); intuition congruence.
Qed.

(** ** Connectors *)

Lemma segment_words_nonempty p : segment_words p <> [].
Proof.
  unfold segment_words. pose proof (split_nonempty underscore (fp_field p)).
  by destruct (split underscore (fp_field p)).
Qed.

Lemma operator_words_plain o :
  Forall (fun w => ~ List.In underscore w /\ w <> lit "and" /\ w <> lit "or" /\ w <> lit "order") (operator_words o).
Proof.
  destruct o; repeat (apply List.Forall_cons || apply List.Forall_nil); split_and!; vm_compute;
    intuition congruence.
Qed.

Lemma field_words_plain f :
  field_name f ->
  Forall (fun w => ~ List.In underscore w /\ w <> lit "and" /\ w <> lit "or" /\ w <> lit "order") (split underscore f).
Proof.
  unfold field_name. intros F. pose proof (split_words underscore f) as U.
  rewrite List.Forall_forall in *. intros w I. destruct (F w I) as [_ R].
  split_and!; [by apply U| | |]; intros ->; apply R; vm_compute; tauto.
Qed.

Lemma segment_words_plain p :
  field_name (fp_field p) ->
  Forall (fun w => ~ List.In underscore w /\ w <> lit "and" /\ w <> lit "or" /\ w <> lit "order") (segment_words p).
Proof. intros F. apply List.Forall_app. split; [by apply field_words_plain|apply operator_words_plain]. Qed.

(** Searching for [_w_...] in a text that starts with words other than [w]. *)
Lemma find_in_words w tail ws r :
  ~ List.In underscore w -> ws <> [] -> Forall (fun x => ~ List.In underscore x /\ x <> w) ws ->
  r = [] \/ head r = Some underscore ->
  find (underscore :: w ++ underscore :: tail) (join (lit "_") ws ++ r) =
    Nat.add (List.length (join (lit "_") ws)) <$> find (underscore :: w ++ underscore :: tail) r.
Proof. apply find_skip_words. Qed.

Lemma find_at_start pat s : find pat (pat ++ s) = Some 0%nat.
Proof. unfold find. destruct (pat ++ s) eqn:E; rewrite <- E; unfold starts_with; by rewrite strip_prefix_app. Qed.

Lemma find_nil_none c s : find (c :: s) [] = None.
Proof. done. Qed.

Lemma find_other c w tail r :
  ~ List.In c w -> find (c :: w ++ c :: tail) (c :: r) <> Some 0%nat \/ exists rest, r = w ++ c :: tail ++ rest.
Proof.
  intros W. cbn [find]. destruct (starts_with (c :: w ++ c :: tail) (c :: r)) eqn:E.
  - right. unfold starts_with in E. destruct (strip_prefix _ _) as [rest|] eqn:S; [|done].
    apply strip_prefix_Some in S. injection S as ->. exists rest. by rewrite <- app_assoc.
  - left. by destruct (find _ r).
Qed.

(** The words of one segment hold no connector; the next connector is found
    right after them. *)
Lemma next_connector_found ws c r :
  ws <> [] -> (c = lit "and" \/ c = lit "or") ->
  Forall (fun w => ~ List.In underscore w /\ w <> lit "and" /\ w <> lit "or" /\ w <> lit "order") ws ->
  next_connector (join (lit "_") ws ++ lit "_" ++ c ++ lit "_" ++ r) =
    Some (List.length (join (lit "_") ws), lit "_" ++ c ++ lit "_", c).
Proof.
  intros N C F.
  assert (Forall (fun x => ~ List.In underscore x /\ x <> lit "and") ws) as Fa
    by (eapply List.Forall_impl; [|exact F]; simpl; tauto).
  assert (Forall (fun x => ~ List.In underscore x /\ x <> lit "or") ws) as Fo
    by (eapply List.Forall_impl; [|exact F]; simpl; tauto).
  assert (~ List.In underscore (lit "and")) as Ua by (vm_compute; intuition congruence).
  assert (~ List.In underscore (lit "or")) as Uo by (vm_compute; intuition congruence).
  unfold next_connector.
  change (lit "_and_") with (underscore :: lit "and" ++ underscore :: []).
  change (lit "_or_") with (underscore :: lit "or" ++ underscore :: []).
  rewrite (find_in_words _ [] ws) by auto. rewrite (find_in_words _ [] ws) by auto.
  destruct C as [-> | ->].
  - change (lit "_" ++ lit "and" ++ lit "_" ++ r) with ((underscore :: lit "and" ++ [underscore]) ++ r).
    rewrite find_at_start. cbn [fmap option_fmap option_map]. rewrite Nat.add_0_r.
    destruct (find_other underscore (lit "or") [] (lit "and" ++ underscore :: r) Uo) as [O|(rest & O)]; [|discriminate O].
    change ((underscore :: lit "and" ++ [underscore]) ++ r) with (underscore :: lit "and" ++ underscore :: r).
    destruct (find _ _) as [[|k]|]; [done| |done]. cbn [fmap option_fmap option_map].
    by rewrite (proj2 (Nat.ltb_lt _ _)) by lia.
  - change (lit "_" ++ lit "or" ++ lit "_" ++ r) with ((underscore :: lit "or" ++ [underscore]) ++ r).
    rewrite (find_at_start (underscore :: lit "or" ++ [underscore])). cbn [fmap option_fmap option_map].
    rewrite Nat.add_0_r.
    destruct (find _ _) as [k|]; cbn [fmap option_fmap option_map]; [|done].
    by rewrite (proj2 (Nat.ltb_ge _ _)) by lia.
Qed.

Lemma next_connector_none ws :
  ws <> [] -> Forall (fun w => ~ List.In underscore w /\ w <> lit "and" /\ w <> lit "or" /\ w <> lit "order") ws ->
  next_connector (join (lit "_") ws) = None.
Proof.
  intros N F. rewrite <- (app_nil_r (join _ _)).
  assert (Forall (fun x => ~ List.In underscore x /\ x <> lit "and") ws) as Fa
    by (eapply List.Forall_impl; [|exact F]; simpl; tauto).
  assert (Forall (fun x => ~ List.In underscore x /\ x <> lit "or") ws) as Fo
    by (eapply List.Forall_impl; [|exact F]; simpl; tauto).
  unfold next_connector.
  change (lit "_and_") with (underscore :: lit "and" ++ underscore :: []).
  change (lit "_or_") with (underscore :: lit "or" ++ underscore :: []).
  rewrite !find_in_words; try done; auto; vm_compute; intuition congruence.
Qed.

Lemma body_words_nonempty p ps cs : body_words (p :: ps) cs <> [].
Proof. pose proof (segment_words_nonempty p) as N. destruct cs; simpl; [done|]. by destruct (segment_words p). Qed.

Lemma body_words_join p ps c cs :
  ps <> [] ->
  join (lit "_") (body_words (p :: ps) (c :: cs)) =
    join (lit "_") (segment_words p) ++ lit "_" ++ c ++ lit "_" ++ join (lit "_") (body_words ps cs).
Proof.
  intros N. cbn [body_words]. rewrite join_app by (done || apply segment_words_nonempty).
  destruct ps as [|p2 ps]; [done|]. pose proof (body_words_nonempty p2 ps cs) as Nb.
  do 2 f_equal. by destruct (body_words (p2 :: ps) cs).
Qed.

Lemma parse_predicates_loop_words fuel ps cs :
  ps <> [] -> S (List.length cs) = List.length ps -> Forall (fun c => c = lit "and" \/ c = lit "or") cs ->
  Forall (fun p => field_name (fp_field p)) ps -> (List.length cs < fuel)%nat ->
  parse_predicates_loop fuel (join (lit "_") (body_words ps cs)) = (ps, cs).
Proof.
  revert ps cs. induction fuel as [|fuel IH]; intros ps cs N L C F Fu; [lia|].
  destruct ps as [|p ps]; [done|]. inversion F as [|? ? Fp Fps]; subst.
  pose proof (segment_words_plain p Fp) as Pl. pose proof (segment_words_nonempty p) as Np.
  destruct cs as [|c cs].
  - destruct ps; [|done]. cbn [body_words parse_predicates_loop].
    rewrite next_connector_none by done. by rewrite parse_segment.
  - destruct ps as [|p2 ps]; [done|]. inversion C as [|? ? Cc Ccs]; subst.
    rewrite body_words_join by done. cbn [parse_predicates_loop].
    rewrite next_connector_found by done. cbv zeta.
    set (seg := join (lit "_") (segment_words p)). set (rest := join (lit "_") (body_words (p2 :: ps) cs)).
    assert (drop (List.length seg + List.length (lit "_" ++ c ++ lit "_")) (seg ++ lit "_" ++ c ++ lit "_" ++ rest) = rest) as ->.
    { replace (seg ++ lit "_" ++ c ++ lit "_" ++ rest) with ((seg ++ (lit "_" ++ c ++ lit "_")) ++ rest)
        by (by rewrite <- !app_assoc). rewrite <- length_app. apply drop_app_length. }
    rewrite take_app_length. unfold seg, rest. rewrite IH; [|done|simpl in *; lia|done|done|simpl in *; lia].
    by rewrite parse_segment.
Qed.

(** ** Order-by clauses *)

Lemma name_word_not_direction w : name_word w -> is_direction w = false.
Proof.
  intros [_ R]. unfold is_direction. apply orb_false_iff. split; apply bool_decide_eq_false_2; intros ->;
    apply R; vm_compute; tauto.
Qed.

Lemma span_field_words ws d rest :
  Forall name_word ws -> is_direction d = true -> span_field (ws ++ d :: rest) = (ws, d :: rest).
Proof.
  intros F D. induction F as [|w ws Hw F IH]; simpl; [by rewrite D|].
  rewrite name_word_not_direction by done. by rewrite IH.
Qed.

Lemma parse_order_words cs fuel :
  Forall (fun c => field_name (oc_field c)) cs -> (List.length (order_words cs) <= fuel)%nat ->
  parse_order_parts fuel (order_words cs) = cs.
Proof.
  intros F. revert fuel. induction F as [|c cs Fc F IH]; intros fuel L; [by destruct fuel|].
  cbn [order_words flat_map] in *. fold (order_words cs) in *. rewrite <- app_assoc in *. cbn [app] in *.
  destruct fuel as [|fuel]; [rewrite length_app in L; simpl in L; lia|].
  assert (split underscore (oc_field c) <> []) as N by apply split_nonempty.
  destruct (split underscore (oc_field c)) as [|w ws] eqn:E; [done|].
  assert (is_direction (direction_as_str (oc_direction c)) = true) as D by (by destruct (oc_direction c)).
  unfold parse_order_parts. fold parse_order_parts. cbn [app].
  change (w :: ws ++ ?x) with ((w :: ws) ++ x).
  unfold field_name in Fc. rewrite E in Fc. rewrite span_field_words by done.
  rewrite <- E, join_split_field. rewrite IH by (rewrite length_app in L; simpl in L; lia).
  assert (is_empty (oc_field c) = false) as ->.
  { destruct (oc_field c); [|done]. injection E as <- <-. inversion Fc as [|? ? [W _] _]. done. }
  destruct c as [f []]; done.
Qed.

Lemma order_words_words cs :
  Forall (fun c => field_name (oc_field c)) cs -> Forall (fun w => ~ List.In underscore w) (order_words cs).
Proof.
  induction 1 as [|c cs _ _ IH]; [apply List.Forall_nil|]. cbn [order_words flat_map].
  rewrite <- app_assoc. apply List.Forall_app. split; [apply split_words|]. apply List.Forall_cons; [|done].
  destruct (oc_direction c); vm_compute; intuition congruence.
Qed.

Lemma body_words_plain ps cs :
  Forall (fun p => field_name (fp_field p)) ps -> Forall (fun c => c = lit "and" \/ c = lit "or") cs ->
  Forall (fun w => ~ List.In underscore w /\ w <> lit "order") (body_words ps cs).
Proof.
  intros F. revert cs. induction F as [|p ps Fp F IH]; intros cs C; [apply List.Forall_nil|].
  assert (Forall (fun w => ~ List.In underscore w /\ w <> lit "order") (segment_words p)) as S.
  { eapply List.Forall_impl; [|by apply segment_words_plain]. simpl. tauto. }
  destruct C as [|c cs Cc C]; [done|]. cbn [body_words]. apply List.Forall_app. split; [done|].
  apply List.Forall_cons; [|by apply IH]. destruct Cc as [-> | ->]; split; vm_compute; intuition congruence.
Qed.

Lemma join_length ws : (List.length ws <= S (List.length (join (lit "_") ws)))%nat.
Proof.
  induction ws as [|w ws IH]; [simpl; lia|]. destruct ws as [|v ws]; [simpl; lia|].
  change (join (lit "_") (w :: v :: ws)) with (w ++ lit "_" ++ join (lit "_") (v :: ws)).
  rewrite !length_app. simpl in *. lia.
Qed.

Lemma body_words_length ps cs :
  S (List.length cs) = List.length ps -> (List.length cs < List.length (body_words ps cs))%nat.
Proof.
  revert cs. induction ps as [|p ps IH]; intros cs El; [done|]. pose proof (segment_words_nonempty p) as Np.
  destruct cs as [|c cs]; cbn [body_words]; [destruct (segment_words p); [done|simpl; lia]|].
  rewrite length_app. simpl in El |- *. specialize (IH cs ltac:(lia)). lia.
Qed.

Lemma body_nonempty ps cs :
  ps <> [] -> Forall (fun p => field_name (fp_field p)) ps ->
  is_empty (join (lit "_") (body_words ps cs)) = false.
Proof.
  intros N F. destruct F as [|p ps Fp F]; [done|]. unfold field_name in Fp.
  pose proof (split_nonempty underscore (fp_field p)) as Ns.
  assert (exists w ws, body_words (p :: ps) cs = w :: ws /\ w <> []) as (w & ws & -> & Nw).
  { destruct (split underscore (fp_field p)) as [|w ws] eqn:S; [done|].
    inversion Fp as [|? ? [Nw _] _]; subst.
    destruct cs; cbn [body_words]; unfold segment_words; rewrite S; simpl; by do 2 eexists. }
  destruct w as [|x w]; [done|]. by destruct ws.
Qed.

(** The predicate part reads back; the fuel exceeds the number of connectors. *)
Lemma parse_predicates_words ps cs :
  ps <> [] -> S (List.length cs) = List.length ps -> Forall (fun c => c = lit "and" \/ c = lit "or") cs ->
  Forall (fun p => field_name (fp_field p)) ps ->
  parse_predicates (join (lit "_") (body_words ps cs)) = (ps, cs).
Proof.
  intros N L C F. unfold parse_predicates. rewrite body_nonempty by done.
  apply parse_predicates_loop_words; try done.
  pose proof (body_words_length ps cs L). pose proof (join_length (body_words ps cs)). lia.
Qed.

Lemma parse_prefix_name k rest : parse_prefix (prefix_as_str k ++ lit "_" ++ rest) = Some (k, rest).
Proof. by destruct k. Qed.

(** C40 Round trip: the parser reads a query back from its method name, for
    every prefix, operator, connector and order-by direction, as long as no
    word of a field name is one of the language's own words. *)
Theorem parse_method_name q : well_formed q -> parse (method_name q) = Ok q.
Proof.
  intros [N L C F O]. unfold parse, method_name.
  set (body := join (lit "_") (body_words (query_predicates q) (connectors q))).
  set (orders := match order_clauses q with [] => [] | cs => lit "_order_by_" ++ join (lit "_") (order_words cs) end).
  rewrite parse_prefix_name.
  cbn [ok_or result_bind].
  assert (orders = [] \/ head orders = Some underscore) as Ho
    by (unfold orders; destruct (order_clauses q); auto).
  assert (body_words (query_predicates q) (connectors q) <> []) as Nb.
  { destruct (query_predicates q); [done|]. apply body_words_nonempty. }
  change (find (lit "_order_by_")) with (find (underscore :: lit "order" ++ underscore :: lit "by_")).
  unfold body at 1. rewrite find_in_words; [|vm_compute; intuition congruence|done|by apply body_words_plain|done].
  fold body. assert (parse_predicates body = (query_predicates q, connectors q)) as P
    by (by apply parse_predicates_words).
  unfold orders. destruct (order_clauses q) as [|o os] eqn:Eo.
  - cbn. rewrite app_nil_r, P. destruct q; simpl in *; congruence.
  - rewrite (find_at_start (underscore :: lit "order" ++ underscore :: lit "by_")).
    cbn [fmap option_fmap option_map]. rewrite Nat.add_0_r, take_app_length, P.
    rewrite <- length_app, app_assoc, drop_app_length. unfold parse_order.
    rewrite split_join_words; [|cbn [order_words flat_map]; by destruct (split underscore (oc_field o))|by apply order_words_words].
    rewrite parse_order_words by done. destruct q; simpl in *; congruence.
Qed.

(** * Witnesses *)

#[local] Instance no_lowercase : Lowercase := {| to_lowercase := fun s => s |}.

Definition demo_query : ParsedQuery :=
  mkParsedQuery Delete
    [mkFieldPredicate (lit "status") QueryOperator.Eq;
     mkFieldPredicate (lit "created_at") QueryOperator.Between;
     mkFieldPredicate (lit "name") QueryOperator.IsNotNull]
    [lit "or"; lit "and"]
    [mkOrderClause (lit "name") Desc; mkOrderClause (lit "age") Asc].

Lemma demo_query_well_formed : well_formed demo_query.
Proof.
  assert (forall f, Forall name_word (split underscore f) -> field_name f) as B by done.
  split; [discriminate|reflexivity| | |]; cbn;
    repeat (apply List.Forall_cons || apply List.Forall_nil); auto;
    split; vm_compute; intuition congruence.
Qed.

Lemma parse_method_name_witness :
  parse (lit "delete_by_status_or_created_at_between_and_name_is_not_null_order_by_name_desc_age_asc") = Ok demo_query.
Proof. exact (parse_method_name demo_query demo_query_well_formed). Defined.

Definition people : list json :=
  map (fun '(n, a) => JObject [(lit "name", JString (lit n)); (lit "age", JNumber a)])
    [("bo", 41); ("al", 30); ("cy", 30); ("di", 17)]%string.

Definition adults : ParsedQuery :=
  mkParsedQuery Find [mkFieldPredicate (lit "age") QueryOperator.Gte] [] [mkOrderClause (lit "age") Asc].

Example adults_found :
  evaluate Some adults people [JNumber 18] =
    Ok (map (fun i => nth i people JNull) [1; 2; 0]%nat).
Proof. vm_compute. reflexivity. Qed.

Lemma evaluate_filters_and_sorts_witness :
  exists out,
    evaluate Some adults people [JNumber 18] = Ok out /\ List.length out = 3%nat /\
    count Some adults people [JNumber 18] = Ok (List.length out).
Proof.
  assert (to_specification adults [JNumber 18] = Ok (Pred (mkPredicate (lit "age") Gte (JNumber 18)))) as E
    by (vm_compute; reflexivity).
  destruct (evaluate_filters_and_sorts Some adults people [JNumber 18] _ E) as (out & Ev & P & _ & _ & C & _).
  exists out. split; [exact Ev|]. split; [|exact C]. rewrite (Permutation_length P). vm_compute. reflexivity.
Defined.

(** Left to right, without precedence: [(a or b) and c]. *)
Lemma query_evaluates_witness :
  exists s, to_specification demo_query [JString (lit "new"); JNumber 1; JNumber 2] = Ok s /\
    eval s (JObject [(lit "status", JString (lit "new"))]) = false.
Proof.
  pose proof (query_evaluates demo_query [JString (lit "new"); JNumber 1; JNumber 2]) as M.
  destruct (to_specification demo_query _) as [s|e] eqn:S.
  - exists s. split; [reflexivity|]. destruct M as [_ M]. rewrite M. vm_compute. reflexivity.
  - destruct M as [_ N]. destruct N. reflexivity.
Defined.
