(* ===== verification/StepInvoker.v ===== *)
(** Invocation of one orchestration step under its retry policy:
    [crates/orchestration/src/step_invoker.rs], with the [RetryPolicy] of
    [model.rs] and the listener hooks of [observability.rs] the engines call.

    Step bodies are closures of the user's over a world [U] (which holds the
    shared [StepContext]); an error is a boxed error value. tokio's timeout
    and sleep and the system clock are the class [Runtime]. *)
From Stdlib Require Import Ascii String.
From Stdlib Require Import ZArith NArith List Lia Floats.SpecFloat.
From stdpp Require Import base decidable list.
From S2P Require Import Prelude Str.

(** * Data *)

Record RetryPolicy : Type := mkRetryPolicy {
  max_attempts : Z;
  backoff_ms : Z;
  timeout_ms : Z;
  jitter : bool;
  jitter_factor : f64
}.

Definition RetryPolicy_default : RetryPolicy := mkRetryPolicy 1 0 0 false (f64_of_Z 0).

(** [BoxError]: a user's error, a boxed message, or a boxed invoker error. *)
Inductive BoxError (E : Type) : Type :=
| BoxUser (e : E)
| BoxMessage (message : str)
| BoxInvoke (err : StepInvokeError E)
with StepInvokeError (E : Type) : Type :=
| Failed (step : str) (attempts : Z) (source : BoxError E)
| TimedOut (step : str) (timeout_ms : Z) (attempts : Z).
Arguments BoxUser {E} e.
Arguments BoxMessage {E} message.
Arguments BoxInvoke {E} err.
Arguments Failed {E} step attempts source.
Arguments TimedOut {E} step timeout_ms attempts.

Definition error_attempts {E} (err : StepInvokeError E) : Z :=
  match err with Failed _ attempts _ | TimedOut _ _ attempts => attempts end.

Definition is_timeout {E} (err : StepInvokeError E) : bool :=
  match err with TimedOut _ _ _ => true | Failed _ _ _ => false end.

Definition into_source {E} (err : StepInvokeError E) : option (BoxError E) :=
  match err with Failed _ _ source => Some source | TimedOut _ _ _ => None end.

Inductive AttemptError (E : Type) : Type :=
| AttemptFailed (source : BoxError E)
| AttemptTimedOut.
Arguments AttemptFailed {E} source.
Arguments AttemptTimedOut {E}.

(** A step body: the future an action returns, run to completion. *)
Definition Action (U E : Type) : Type := U -> Result unit (BoxError E) * U.

(** [tokio::time::timeout] (none when the time is up, the future being
    dropped), [tokio::time::sleep], the nanoseconds within the second of the
    wall clock, and [Utc::now]. *)
Class Runtime (U E : Type) : Type := {
  timeout : Z -> Action U E -> U -> option (Result unit (BoxError E)) * U;
  sleep : Z -> U -> U;
  subsec_nanos : U -> Z;
  utc_now : U -> Z
}.

Section Invoke.
Context {U E : Type} `{Runtime U E}.

Definition run_attempt (timeout_ms : Z) (action : Action U E) (u : U) : Result unit (AttemptError E) * U :=
  if timeout_ms =? 0 then
    let '(r, u) := action u in (map_err AttemptFailed r, u)
  else
    match timeout (from_millis timeout_ms) action u with
    | (Some r, u) => (map_err AttemptFailed r, u)
    | (None, u) => (Err AttemptTimedOut, u)
    end.

Definition compute_backoff (policy : RetryPolicy) (attempt : Z) (u : U) : Z :=
  if backoff_ms policy =? 0 then 0
  else
    let exponent := Z.min (Z.max 0 (attempt - 1)) 20 in
    let base := saturating_mul (backoff_ms policy) (Z.shiftl 1 exponent) in
    let millis := f64_of_Z base in
    let millis :=
      if jitter policy && f64_lt (f64_of_Z 0) (jitter_factor policy) then
        let frac := f64_div (f64_of_Z (subsec_nanos u mod 1000)) (f64_of_Z 1000) in
        f64_add millis (f64_mul (f64_mul (f64_of_Z base) (jitter_factor policy)) frac)
      else millis in
    from_millis (f64_to_u64 millis).

(** The pause after a failed attempt that is not the last. *)
Definition pause (policy : RetryPolicy) (attempt : Z) (u : U) : U :=
  let delay := compute_backoff policy attempt u in
  if 0 <? delay then sleep delay u else u.

Definition final_failure (step : str) (policy : RetryPolicy) (max_attempts : Z) (last : AttemptError E)
  : StepInvokeError E :=
  match last with
  | AttemptTimedOut => TimedOut step (timeout_ms policy) max_attempts
  | AttemptFailed source => Failed step max_attempts source
  end.

(** The attempts from number [attempt] on, [n] of them left after it. *)
Fixpoint invoke_loop (n : nat) (step : str) (policy : RetryPolicy) (action : Action U E) (attempt : Z) (u : U)
  : Result unit (StepInvokeError E) * U :=
  match run_attempt (timeout_ms policy) action u with
  | (Ok _, u) => (Ok tt, u)
  | (Err err, u) =>
      match n with
      | O => (Err (final_failure step policy (Z.max 1 (max_attempts policy)) err), u)
      | S n' => invoke_loop n' step policy action (attempt + 1) (pause policy attempt u)
      end
  end.

Definition invoke_with_policy (step : str) (policy : RetryPolicy) (action : Action U E) (u : U)
  : Result unit (StepInvokeError E) * U :=
  invoke_loop (Z.to_nat (Z.max 1 (max_attempts policy) - 1)) step policy action 1 u.

(** The cause attached to an engine's error: the original one when the policy
    makes a single attempt without timeout. *)
Definition unwrap_invoke_cause (fallback : str) (retry : RetryPolicy) (err : StepInvokeError E) : BoxError E :=
  if (Z.max 1 (max_attempts retry) =? 1) && (timeout_ms retry =? 0) then
    match into_source err with
    | Some source => source
    | None => BoxMessage fallback
    end
  else BoxInvoke err.

(** * Theorems *)

(** The backoff stops growing at the twenty-first attempt. *)
Lemma backoff_capped policy attempt u :
  21 <= attempt -> compute_backoff policy attempt u = compute_backoff policy 21 u.
Proof. intros L. unfold compute_backoff. by replace (Z.min (Z.max 0 (attempt - 1)) 20) with 20 by lia. Qed.

(** Attempts in sequence, with the pause of each failed one before the next. *)
Inductive attempts (policy : RetryPolicy) (action : Action U E) :
  Z -> U -> list (Result unit (AttemptError E)) -> U -> Prop :=
| attempts_last n u r u' :
    run_attempt (timeout_ms policy) action u = (r, u') -> attempts policy action n u [r] u'
| attempts_next n u e u1 rs u' :
    run_attempt (timeout_ms policy) action u = (Err e, u1) ->
    attempts policy action (n + 1) (pause policy n u1) rs u' ->
    attempts policy action n u (Err e :: rs) u'.

Lemma invoke_loop_spec n step policy action a u r u' :
  invoke_loop n step policy action a u = (r, u') ->
  exists rs last, attempts policy action a u (rs ++ [last]) u' /\
    Forall (fun r => is_err r = true) rs /\ (List.length rs <= n)%nat /\
    match r with
    | Ok _ => last = Ok tt
    | Err err => exists e, last = Err e /\ List.length rs = n /\
                   err = final_failure step policy (Z.max 1 (max_attempts policy)) e
    end.
Proof.
  revert a u. induction n as [|n IH]; intros a u L; cbn [invoke_loop] in L;
    destruct (run_attempt (timeout_ms policy) action u) as [[[]|e] u1] eqn:R.
  - injection L as <- <-. exists [], (Ok tt). split_and!; [by apply attempts_last|constructor|done|done].
  - injection L as <- <-. exists [], (Err e). split_and!; [by apply attempts_last|constructor|done|].
    by exists e.
  - injection L as <- <-. exists [], (Ok tt). split_and!; [by apply attempts_last|constructor|simpl; lia|done].
  - destruct (IH _ _ L) as (rs & last & A & F & Ln & M). exists (Err e :: rs), last.
    split_and!; [by eapply attempts_next|by constructor|simpl; lia|].
    destruct r as [|err]; [done|]. destruct M as (e' & -> & El & ->). exists e'. simpl. auto.
Qed.

(** A step is attempted until it first succeeds, at least once and at most
    [max(1, max_attempts)] times, with the computed pause after every failed
    attempt but the last; the invocation succeeds exactly when its last
    attempt does, and otherwise reports the number of attempts and the last
    failure (a timeout as such). *)
Theorem invoke_contract step policy action u r u' :
  invoke_with_policy step policy action u = (r, u') ->
  exists rs last, attempts policy action 1 u (rs ++ [last]) u' /\
    Forall (fun r => is_err r = true) rs /\
    Z.of_nat (List.length (rs ++ [last])) <= Z.max 1 (max_attempts policy) /\
    match r with
    | Ok _ => last = Ok tt
    | Err err => exists e, last = Err e /\
                   Z.of_nat (List.length (rs ++ [last])) = Z.max 1 (max_attempts policy) /\
                   error_attempts err = Z.max 1 (max_attempts policy) /\
                   is_timeout err = match e with AttemptTimedOut => true | AttemptFailed _ => false end /\
                   into_source err = match e with AttemptTimedOut => None | AttemptFailed s => Some s end
    end.
Proof.
  intros I. destruct (invoke_loop_spec _ _ _ _ _ _ _ _ I) as (rs & last & A & F & L & M).
  exists rs, last. rewrite length_app. simpl. split_and!; [done|done|lia|].
  destruct r as [|err]; [done|]. destruct M as (e & -> & El & ->). exists e.
  split_and!; [done|lia|by destruct e..].
Qed.

End Invoke.

(** A runtime whose world is a list of clock readings and attempts: a body
    that reads [true] off the world hangs and times out. *)
#[local] Instance demo_runtime : Runtime (list Z) unit :=
  {| timeout ms action u :=
       match u with
       | z :: _ => if z <? 0 then (None, tail u) else (fun '(r, u') => (Some r, u')) (action u)
       | [] => (fun '(r, u') => (Some r, u')) (action u)
       end;
     sleep d u := u;
     subsec_nanos u := 0;
     utc_now u := 0 |}.

(** Fails on an odd number, succeeds on an even one; negative ones time out. *)
Definition demo_action : Action (list Z) unit := fun u =>
  match u with
  | z :: u' => (if Z.even z then Ok tt else Err (BoxUser tt), u')
  | [] => (Ok tt, [])
  end.

Lemma invoke_contract_witness :
  exists rs last,
    attempts (mkRetryPolicy 3 10 50 false (f64_of_Z 0)) demo_action 1 [1; -1; 4; 9] (rs ++ [last]) [9] /\
    last = Ok tt.
Proof.
  destruct (invoke_contract (lit "s") (mkRetryPolicy 3 10 50 false (f64_of_Z 0)) demo_action [1; -1; 4; 9] (Ok tt) [9])
    as (rs & last & A & _ & _ & M).
  - vm_compute. reflexivity.
  - exists rs, last. split; [exact A|exact M].
Defined.
