(* ===== verification/Closure.v ===== *)
(** Depth-first walks that collect what is reachable: the loop several
    components write over a stack and a set, with the closure it computes. *)
From Stdlib Require Import ZArith NArith List Lia.
From stdpp Require Import base decidable list gmap.
From S2P Require Import Prelude.

Section Walk.
Context {A : Type} `{Countable A}.
Variable next : A -> list A.

(** The loop over a stack; [None] when the fuel runs out. *)
Fixpoint walk (fuel : nat) (stack : list A) (visited : gset A) : option (gset A) :=
  match fuel with
  | O => None
  | S fuel =>
      match stack with
      | [] => Some visited
      | x :: stack =>
          if decide (x ∈ visited) then walk fuel stack visited
          else walk fuel (next x ++ stack) ({[x]} ∪ visited)
      end
  end.

Definition leads_to (x y : A) : Prop := y ∈ next x.

(** What the pushes can still add: the successors of what is not visited yet. *)
Definition unvisited (visited : gset A) (support : list A) : nat :=
  sum_list_with (fun x => if decide (x ∈ visited) then 0%nat else List.length (next x)) support.

Lemma unvisited_mono v1 v2 l : v1 ⊆ v2 -> (unvisited v2 l <= unvisited v1 l)%nat.
Proof.
  intros S. unfold unvisited. induction l as [|x l IH]; simpl; [lia|].
  destruct (decide (x ∈ v2)), (decide (x ∈ v1)); try lia. exfalso. set_solver.
Qed.

Lemma unvisited_take visited x support : x ∉ visited -> (x ∈ support \/ next x = []) ->
  (unvisited ({[x]} ∪ visited) support + List.length (next x) <= unvisited visited support)%nat.
Proof.
  intros N [I|E].
  - apply elem_of_Permutation in I as [l P]. unfold unvisited. rewrite !(sum_list_with_Permutation_proper _ _ _ P). simpl.
    destruct (decide (x ∈ {[x]} ∪ visited)); [|set_solver]. destruct (decide (x ∈ visited)); [done|].
    pose proof (unvisited_mono visited ({[x]} ∪ visited) l ltac:(set_solver)) as M. unfold unvisited in M. lia.
  - rewrite E. pose proof (unvisited_mono visited ({[x]} ∪ visited) support ltac:(set_solver)). simpl. lia.
Qed.

Lemma walk_total fuel stack visited support : (forall x, x ∈ support \/ next x = []) ->
  (List.length stack + unvisited visited support < fuel)%nat -> is_Some (walk fuel stack visited).
Proof.
  intros Su. revert stack visited. induction fuel as [|fuel IH]; intros stack visited L; [lia|]. cbn [walk].
  destruct stack as [|x stack]; [by eexists|]. simpl in L. destruct (decide (x ∈ visited)) as [I|N].
  - apply IH. lia.
  - apply IH. rewrite length_app. pose proof (unvisited_take visited x support N (Su x)). lia.
Qed.

(** The result holds the stack and is closed; and nothing else gets in. *)
Lemma walk_spec fuel stack visited v : walk fuel stack visited = Some v ->
  (forall x y, x ∈ visited -> leads_to x y -> y ∈ visited \/ y ∈ stack) ->
  (visited ⊆ v /\ (forall x, x ∈ stack -> x ∈ v) /\ (forall x y, x ∈ v -> leads_to x y -> y ∈ v)) /\
  (forall P : A -> Prop, (forall x y, P x -> leads_to x y -> P y) -> (forall x, x ∈ visited -> P x) ->
     (forall x, x ∈ stack -> P x) -> forall x, x ∈ v -> P x).
Proof.
  revert stack visited. induction fuel as [|fuel IH]; intros stack visited; cbn [walk]; [done|].
  destruct stack as [|x stack].
  - intros [= <-] C. split; [|by intros P _ Hv _]. split; [done|]. split; [intros y I; by apply elem_of_nil in I|].
    intros y z I D. destruct (C y z I D) as [?|F]; [done|by apply elem_of_nil in F].
  - destruct (decide (x ∈ visited)) as [I|N]; intros R C.
    + apply IH in R as ((S & Q & Cl) & Mn).
      * split; [|intros P Cp Hv Hq; apply (Mn P Cp Hv); intros y Iy; apply Hq; by right].
        split; [done|]. split; [|done]. intros y [->|Iy]%elem_of_cons; [by apply S|auto].
      * intros y z Iy D. destruct (C y z Iy D) as [?|[->|?]%elem_of_cons]; auto.
    + apply IH in R as ((S & Q & Cl) & Mn).
      * split.
        { split; [set_solver|]. split; [|done]. intros y [->|Iy]%elem_of_cons; [set_solver|].
          apply Q, elem_of_app. by right. }
        intros P Cp Hv Hq. apply (Mn P Cp).
        { intros y [->%elem_of_singleton|Iy]%elem_of_union; [apply Hq; by left|auto]. }
        intros y [Iy|Iy]%elem_of_app; [|apply Hq; by right]. apply (Cp x y); [apply Hq; by left|done].
      * intros y z [->%elem_of_singleton|Iy]%elem_of_union D; [right; apply elem_of_app; by left|].
        destruct (C y z Iy D) as [?|[->|?]%elem_of_cons]; [left; set_solver|left; set_solver|right; apply elem_of_app; by right].
Qed.

(** From nothing visited, the walk ends with what the stack reaches. *)
Lemma walk_reaches fuel stack support : (forall x, x ∈ support \/ next x = []) ->
  (List.length stack + sum_list_with (fun x => List.length (next x)) support < fuel)%nat ->
  exists v, walk fuel stack ∅ = Some v /\ forall x, x ∈ v <-> exists s, s ∈ stack /\ rtc leads_to s x.
Proof.
  intros Su L. destruct (walk_total fuel stack ∅ support Su) as [v W].
  { assert (unvisited ∅ support <= sum_list_with (fun x => List.length (next x)) support)%nat; [|lia].
    unfold unvisited. clear. induction support as [|x l IH]; simpl; [lia|]. destruct (decide (x ∈ (∅ : gset A))); lia. }
  exists v. split; [done|]. apply walk_spec in W as ((_ & Q & Cl) & Mn); [|intros x y I; by apply not_elem_of_empty in I].
  intros x. split.
  - apply (Mn (fun x => exists s, s ∈ stack /\ rtc leads_to s x)).
    + intros a b (s & I & T) D. exists s. split; [done|]. by eapply rtc_r.
    + intros a I. by apply not_elem_of_empty in I.
    + intros a I. exists a. split; [done|apply rtc_refl].
  - intros (s & I & T). apply Q in I. clear Q Mn. induction T as [|a b c D _ IH]; [done|]. apply IH. by apply (Cl a).
Qed.
End Walk.
