(* ===== verification/Kahn.v ===== *)
(** Kahn's algorithm, as the engines that order a dependency graph run it: a
    table of in-degrees, a table of dependents, and the loop invariant both
    the layered variant of the sagas and the ready-set variant of the plugins
    keep. *)
From Stdlib Require Import ZArith List Lia Sorting.Permutation.
From stdpp Require Import base decidable list.
From S2P Require Import Prelude.

(** The edges out of a completed step: those that reach in-degree zero join
    the next layer. *)
Fixpoint relax (ds : list nat) (in_degree next : list nat) : list nat * list nat :=
  match ds with
  | [] => (in_degree, next)
  | d :: ds' =>
      let in_degree := alter pred d in_degree in
      relax ds' in_degree (if (default 0%nat (in_degree !! d) =? 0)%nat then next ++ [d] else next)
  end.

Abbreviation count := (count_occ Nat.eq_dec).

Lemma count_pos l x : In x l <-> (1 <= count l x)%nat.
Proof. rewrite (count_occ_In Nat.eq_dec). lia. Qed.

Lemma NoDup_below n l : List.NoDup l -> Forall (fun i => (i < n)%nat) l -> (List.length l <= n)%nat.
Proof.
  intros N F. rewrite <- (length_seq n 0). apply List.NoDup_incl_length; [done|].
  intros x I. rewrite List.Forall_forall in F. apply in_seq. specialize (F x I). lia.
Qed.

Lemma NoDup_full n l :
  List.NoDup l -> Forall (fun i => (i < n)%nat) l -> List.length l = n -> Permutation l (seq 0 n).
Proof.
  intros N F L. apply Permutation.NoDup_Permutation_bis; [done|rewrite length_seq; lia|].
  intros x I. rewrite List.Forall_forall in F. apply in_seq. specialize (F x I). lia.
Qed.

(** ** The tables

    One entry of the in-degrees and of the dependents per named dependency:
    [(i, j)] when [i] depends on [j]. *)
Definition Graph : Type := list nat * list (list nat).
Definition add_edge (i j : nat) (g : Graph) : Graph :=
  (alter S i (fst g), alter (fun l => l ++ [i]) j (snd g)).

Lemma fold_edges_spec n edges (g : Graph) :
  List.length (fst g) = n -> List.length (snd g) = n ->
  Forall (fun e => (fst e < n)%nat /\ (snd e < n)%nat) edges ->
  let g' := fold_left (fun g e => add_edge (fst e) (snd e) g) edges g in
  List.length (fst g') = n /\ List.length (snd g') = n /\
  (forall d, (d < n)%nat ->
     default 0%nat (fst g' !! d) = (default 0%nat (fst g !! d) + count (map fst edges) d)%nat) /\
  (forall j d, (j < n)%nat ->
     count (default [] (snd g' !! j)) d =
     (count (default [] (snd g !! j)) d + count (map snd (List.filter (fun e => (fst e =? d)%nat) edges)) j)%nat).
Proof.
  intros L1 L2 F. revert g L1 L2. induction F as [|[i j] edges [Bi Bj] F IH]; intros g L1 L2; simpl.
  { split_and!; intros; simpl; try done; lia. }
  destruct (IH (add_edge i j g)) as (M1 & M2 & D & C); [by simpl; rewrite length_alter|by simpl; rewrite length_alter|].
  simpl in Bi, Bj. split_and!; [done|done| |].
  - intros d Dn. rewrite D by done. simpl. destruct (Nat.eq_dec i d) as [->|N].
    + rewrite list_lookup_alter_eq. destruct (lookup_lt_is_Some_2 (fst g) d ltac:(lia)) as [x ->]. simpl. lia.
    + by rewrite list_lookup_alter_ne.
  - intros j' d Jn. rewrite C by done. simpl. destruct (Nat.eq_dec j j') as [->|N].
    + rewrite list_lookup_alter_eq. destruct (lookup_lt_is_Some_2 (snd g) j' ltac:(lia)) as [x ->]. simpl.
      rewrite count_occ_app. simpl. destruct (Nat.eq_dec i d) as [->|Nd].
      * rewrite Nat.eqb_refl. simpl. destruct (Nat.eq_dec j' j'); [lia|done].
      * destruct (Nat.eqb_spec i d); [done|]. lia.
    + rewrite list_lookup_alter_ne by done. destruct (i =? d)%nat; [|done]. simpl.
      by destruct (Nat.eq_dec j j').
Qed.

Section Kahn.
Context (n : nat) (deps : nat -> list nat) (dependents : list (list nat)).

(** The loops that build the graph count a dependency as often as it is named. *)
Hypothesis dependents_count : forall i d, (i < n)%nat -> count (default [] (dependents !! i)) d =
  if (d <? n)%nat then count (deps d) i else 0%nat.

Definition pending (done : list nat) (d : nat) : nat :=
  List.length (List.filter (fun j => negb (bool_decide (j ∈ done))) (deps d)).

(** Every element comes after its dependencies. *)
Definition respects (order : list nat) : Prop :=
  forall l1 i l2, order = l1 ++ i :: l2 -> forall j, In j (deps i) -> In j l1.

(** The loop invariant: [done] completed, [ready] to complete in this layer,
    [next] in the following one, the edges to [queue] still to be counted. *)
Record kahn (done ready queue in_degree next : list nat) : Prop := {
  k_nodup : List.NoDup (done ++ ready ++ next);
  k_bound : Forall (fun i => (i < n)%nat) (done ++ ready ++ next);
  k_length : List.length in_degree = n;
  k_degree : forall d, (d < n)%nat -> ~ In d done -> in_degree !! d = Some (pending done d + count queue d)%nat;
  k_zero : forall d, (d < n)%nat -> ~ In d done -> in_degree !! d = Some 0%nat <-> In d (ready ++ next);
  k_respects : respects done;
  k_queue : forall d, In d queue -> (d < n)%nat /\ ~ In d done
}.

(** Counting one edge off. *)
Lemma relax_one d queue done ready in_degree next :
  kahn done ready (d :: queue) in_degree next ->
  let in_degree' := alter pred d in_degree in
  kahn done ready queue in_degree'
    (if (default 0%nat (in_degree' !! d) =? 0)%nat then next ++ [d] else next).
Proof.
  intros [ND B Ln Dg Ze Re Qu] in_degree'. unfold in_degree'.
  destruct (Qu d ltac:(by left)) as [Dn Dd].
  pose proof (Dg d Dn Dd) as Ed. cbn [count_occ] in Ed. destruct (Nat.eq_dec d d) as [_|]; [|done].
  assert (~ In d (ready ++ next)) as Nr by (rewrite <- (Ze d Dn Dd), Ed; intros [= ?]; lia).
  rewrite list_lookup_alter_eq, Ed. cbn [fmap option_fmap option_map default].
  set (c := (pending done d + count queue d)%nat).
  replace (pred (pending done d + S (count queue d)))%nat with c by (unfold c; lia).
  change (id c) with c.
  assert (forall x, (x < n)%nat -> ~ In x done ->
            alter pred d in_degree !! x = Some (pending done x + count queue x)%nat) as Dg'.
  { intros x Xn Xd. destruct (Nat.eq_dec d x) as [<-|Nx].
    - rewrite list_lookup_alter_eq, Ed. simpl. f_equal. lia.
    - rewrite list_lookup_alter_ne by done. rewrite (Dg x Xn Xd). cbn [count_occ].
      by destruct (Nat.eq_dec d x). }
  assert (forall x, x <> d -> (x < n)%nat -> ~ In x done ->
            alter pred d in_degree !! x = Some 0%nat <-> In x (ready ++ next)) as Ze'.
  { intros x Nx Xn Xd. rewrite list_lookup_alter_ne by done. by apply Ze. }
  assert (alter pred d in_degree !! d = Some c) as Ec by (rewrite list_lookup_alter_eq, Ed; simpl; f_equal; unfold c; lia).
  assert (forall x, In x queue -> (x < n)%nat /\ ~ In x done) as Qu' by (intros x I; apply Qu; by right).
  destruct (Nat.eqb_spec c 0) as [C|C].
  - split; try done.
    + rewrite !app_assoc. eapply Permutation_NoDup; [apply Permutation_cons_append|].
      rewrite <- !app_assoc. constructor; [|done]. rewrite in_app_iff. tauto.
    + rewrite !app_assoc, <- (app_assoc done). apply List.Forall_app. split; [done|by repeat constructor].
    + by rewrite length_alter.
    + intros x Xn Xd. rewrite app_assoc, in_app_iff. destruct (Nat.eq_dec x d) as [->|Nx].
      * rewrite Ec, C. simpl. tauto.
      * rewrite Ze' by done. simpl. split; [auto|]. intros [?|[?|[]]]; [done|congruence].
  - split; try done.
    + by rewrite length_alter.
    + intros x Xn Xd. destruct (Nat.eq_dec x d) as [->|Nx]; [|by apply Ze'].
      rewrite Ec. split; [intros [= ?]; lia|done].
Qed.

Lemma relax_kahn queue done ready in_degree next :
  kahn done ready queue in_degree next ->
  kahn done ready [] (fst (relax queue in_degree next)) (snd (relax queue in_degree next)).
Proof.
  revert in_degree next. induction queue as [|d queue IH]; intros in_degree next K; [done|].
  cbn [relax]. by apply IH, relax_one.
Qed.

Lemma filter_split (i : nat) done l :
  ~ In i done ->
  List.length (List.filter (fun j => negb (bool_decide (j ∈ done))) l) =
  (List.length (List.filter (fun j => negb (bool_decide (j ∈ done ++ [i]))) l) + count l i)%nat.
Proof.
  intros N. induction l as [|j l IH]; [done|]. simpl.
  assert (bool_decide (j ∈ done ++ [i]) = bool_decide (j ∈ done) || bool_decide (j = i)) as ->.
  { rewrite <- bool_decide_or. apply bool_decide_ext. by rewrite elem_of_app, list_elem_of_singleton. }
  destruct (Nat.eq_dec j i) as [->|Nj].
  - rewrite (bool_decide_eq_false_2 (i ∈ done)) by (by rewrite list_elem_of_In).
    rewrite (bool_decide_eq_true_2 (i = i)) by done. simpl. lia.
  - rewrite (bool_decide_eq_false_2 (j = i)) by done. rewrite orb_false_r.
    destruct (bool_decide (j ∈ done)); simpl; lia.
Qed.

Lemma pending_zero done i : pending done i = 0%nat -> forall j, In j (deps i) -> In j done.
Proof.
  unfold pending. intros P j I. destruct (decide (j ∈ done)) as [E|E]; [by apply list_elem_of_In|].
  exfalso. assert (In j (List.filter (fun j => negb (bool_decide (j ∈ done))) (deps i))) as F.
  { apply filter_In. split; [done|]. by rewrite bool_decide_eq_false_2. }
  by destruct (List.filter _ _).
Qed.

Lemma respects_snoc done i : respects done -> (forall j, In j (deps i) -> In j done) -> respects (done ++ [i]).
Proof.
  intros R D l1 x l2 E j I. destruct (list_eq_dec l2 []) as [->|N].
  - apply app_inj_tail in E as [-> ->]. by apply D.
  - destruct (exists_last N) as (l2' & y & ->). rewrite app_comm_cons, app_assoc in E.
    apply app_inj_tail in E as [-> ->]. by eapply R.
Qed.

Lemma kahn_take done i ready in_degree next :
  kahn done (i :: ready) [] in_degree next ->
  kahn (done ++ [i]) ready (default [] (dependents !! i)) in_degree next.
Proof.
  intros [ND B Ln Dg Ze Re Qu].
  assert (In i (done ++ (i :: ready) ++ next)) as Ii by (rewrite !in_app_iff; simpl; tauto).
  assert (i < n)%nat as Bi by (rewrite List.Forall_forall in B; by apply B).
  assert (~ In i done) as Ni.
  { intros I. simpl in ND. apply List.NoDup_remove_2 in ND. rewrite in_app_iff in ND. tauto. }
  assert (pending done i = 0%nat) as P0.
  { pose proof (proj2 (Ze i Bi Ni) ltac:(by left)) as Z. rewrite (Dg i Bi Ni) in Z. simpl in Z. injection Z. lia. }
  pose proof (pending_zero _ _ P0) as Pd.
  split; try done.
  - by rewrite <- app_assoc.
  - by rewrite <- app_assoc.
  - intros d Dn Dd. rewrite in_app_iff in Dd. rewrite (Dg d Dn) by tauto. f_equal. cbn [count_occ].
    rewrite dependents_count by done. rewrite (proj2 (Nat.ltb_lt d n)) by done.
    unfold pending. rewrite (filter_split i) by done. lia.
  - intros d Dn Dd. rewrite in_app_iff in Dd. rewrite (Ze d Dn) by tauto. simpl.
    split; [intros [->|?]; [|done]|auto]. exfalso. apply Dd. simpl. auto.
  - by apply respects_snoc.
  - intros d I. apply count_pos in I. rewrite dependents_count in I by done.
    destruct (Nat.ltb_spec d n) as [Dn|]; [|lia]. split; [done|]. apply count_pos in I.
    rewrite in_app_iff. intros [Id|[->|[]]].
    + apply in_split in Id as (l1 & l2 & E). apply Ni. rewrite E, in_app_iff. left. by eapply Re.
    + by apply Pd in I.
Qed.

(** The invariant does not depend on the order of what is ready. *)
Lemma kahn_permute done r1 r2 n1 n2 queue in_degree :
  Permutation (r1 ++ n1) (r2 ++ n2) -> kahn done r1 queue in_degree n1 -> kahn done r2 queue in_degree n2.
Proof.
  intros P [ND B Ln Dg Ze Re Qu]. split; try done.
  - eapply Permutation_NoDup; [|exact ND]. by apply Permutation_app_head.
  - eapply Permutation_Forall; [|exact B]. by apply Permutation_app_head.
  - intros d Dn Dd. rewrite (Ze d Dn Dd). split; apply Permutation_in; [done|by symmetry].
Qed.

(** Nothing done yet: the in-degrees count the dependencies. *)
Lemma kahn_start in_degree ready : List.length in_degree = n ->
  (forall d, (d < n)%nat -> in_degree !! d = Some (List.length (deps d))) ->
  List.NoDup ready -> (forall d, In d ready <-> (d < n)%nat /\ in_degree !! d = Some 0%nat) ->
  kahn [] ready [] in_degree [].
Proof.
  intros Ln Dg Nd Rd. split; simpl; rewrite ?app_nil_r; try done.
  - apply List.Forall_forall. intros d I. by apply Rd.
  - intros d Ld _. rewrite Dg by done. f_equal. unfold pending.
    rewrite (forallb_filter_id _ (deps d)); [lia|]. apply forallb_forall. intros x _.
    rewrite bool_decide_eq_false_2; [done|]. apply not_elem_of_nil.
  - intros d Ld _. rewrite Rd. tauto.
  - intros l1 i l2 Eo. by destruct l1.
Qed.

(** A completed run: everything, or a remainder in which every element waits
    for another one. *)
Lemma kahn_stuck done in_degree :
  kahn done [] [] in_degree [] -> forall d, (d < n)%nat -> ~ In d done -> exists j, In j (deps d) /\ ~ In j done.
Proof.
  intros [ND B Ln Dg Ze Re Qu] d Dn Dd.
  destruct (List.filter (fun j => negb (bool_decide (j ∈ done))) (deps d)) as [|j js] eqn:F.
  - exfalso. destruct (proj1 (Ze d Dn Dd)). rewrite (Dg d Dn Dd). unfold pending. by rewrite F.
  - assert (In j (List.filter (fun j => negb (bool_decide (j ∈ done))) (deps d))) as I by (rewrite F; by left).
    apply filter_In in I as [I N]. exists j. split; [done|]. apply negb_true_iff, bool_decide_eq_false in N.
    by rewrite <- list_elem_of_In.
Qed.

(** If a topological order exists, nothing is left over. *)
Lemma kahn_complete done in_degree order :
  kahn done [] [] in_degree [] -> Permutation order (seq 0 n) -> respects order -> List.length done = n.
Proof.
  intros K P R. destruct (List.Forall_dec (fun x => In x done) (fun x => in_dec Nat.eq_dec x done) order) as [A|A];
    rewrite List.Forall_forall in A.
  - apply Nat.le_antisymm.
    + pose proof (k_nodup _ _ _ _ _ K) as ND. pose proof (k_bound _ _ _ _ _ K) as B.
      simpl in ND, B. rewrite app_nil_r in ND, B. by apply NoDup_below.
    + rewrite <- (length_seq n 0). apply List.NoDup_incl_length; [apply seq_NoDup|].
      intros x I. apply A. eapply Permutation_in; [symmetry; exact P|done].
  - exfalso.
    assert (exists l1 x l2, order = l1 ++ x :: l2 /\ ~ In x done /\ forall y, In y l1 -> In y done) as (l1 & x & l2 & E & Nx & F).
    { clear -A. induction order as [|y order IH]; [exfalso; by apply A|].
      destruct (in_dec Nat.eq_dec y done) as [I|I].
      - destruct IH as (l1 & x & l2 & -> & Nx & F); [intros F; apply A; intros z [->|?]; auto|].
        exists (y :: l1), x, l2. split_and!; [done|done|]. intros z [->|?]; auto.
      - exists [], y, order. split_and!; [done|done|intros z []]. }
    assert (x < n)%nat as Xn.
    { assert (In x (seq 0 n)) as I by (eapply Permutation_in; [exact P|]; rewrite E, in_app_iff; simpl; auto).
      apply in_seq in I. lia. }
    destruct (kahn_stuck _ _ K x Xn Nx) as (j & Ij & Nj). apply Nj, F. by eapply R.
Qed.

End Kahn.

