(* ===== verification/SagaOrder.v ===== *)
(** Sagas and their execution order: the data model and [execution_order] of
    [crates/orchestration/src/saga.rs].

    Steps run in insertion order, or, as soon as one declares a dependency, in
    the topological order Kahn's algorithm finds; the theorem states that an
    order is returned exactly when there is one. *)
From Stdlib Require Import Ascii String.
From Stdlib Require Import ZArith NArith List Lia Sorting.Sorted Sorting.Permutation.
From stdpp Require Import base decidable list gmap.
From S2P Require Import Prelude Str Order Kahn StepInvoker.

(** * Data *)

Inductive CompensationPolicy : Type :=
| BestEffort | StopOnError | RetryWithBackoff | CircuitBreaker | BestEffortParallel | GroupedParallel.

#[export] Instance CompensationPolicy_eq_dec : EqDecision CompensationPolicy.
Proof. solve_decision. Defined.

Definition CIRCUIT_BREAKER_THRESHOLD : nat := 3.

Record Step (U E : Type) : Type := mkStep {
  name : str;
  execute : Action U E;
  compensate_body : option (Action U E);
  retry : RetryPolicy;
  group : option str;
  depends_on : list str
}.
Arguments mkStep {U E}.
Arguments name {U E} _.
Arguments execute {U E} _.
Arguments compensate_body {U E} _.
Arguments retry {U E} _.
Arguments group {U E} _.
Arguments depends_on {U E} _.

Inductive SagaStatus : Type := Completed | Compensated | Failed.

(** The messages of [SagaError::Definition]. *)
Inductive DefinitionError : Type :=
| DuplicateStep (step : str)
| UnknownDependency (step dep : str)
| SelfDependency (step : str)
| DependencyCycle.

Inductive SagaError (E : Type) : Type :=
| StepError (step : str) (source : BoxError E)
| CompensationError (step : str) (original : SagaError E) (compensate : BoxError E)
| Cancelled
| Definition_ (message : DefinitionError).
Arguments StepError {E} step source.
Arguments CompensationError {E} step original compensate.
Arguments Cancelled {E}.
Arguments Definition_ {E} message.

Definition is_compensation_error {E} (e : SagaError E) : bool :=
  match e with CompensationError _ _ _ => true | _ => false end.

Record Outcome (E : Type) : Type := mkOutcome {
  saga : str;
  status : SagaStatus;
  steps_executed : list str;
  steps_rolled : list str;
  error : option (SagaError E);
  started_at : Z;
  finished_at : Z
}.
Arguments mkOutcome {E}.
Arguments saga {E} _.
Arguments status {E} _.
Arguments steps_executed {E} _.
Arguments steps_rolled {E} _.
Arguments error {E} _.

Record Saga (U E : Type) : Type := mkSaga {
  saga_name : str;
  steps : list (Step U E);
  policy : CompensationPolicy
}.
Arguments mkSaga {U E}.
Arguments saga_name {U E} _.
Arguments steps {U E} _.
Arguments policy {U E} _.

(** The listener hooks a saga fires. *)
Inductive Event (E : Type) : Type :=
| on_start
| on_completed (success : bool)
| on_step_started (step : str)
| on_step_success (step : str) (attempts : Z)
| on_step_failed (step : str) (message : SagaError E) (attempts : Z)
| on_compensation_started
| on_step_compensated (step : str) (error : option (BoxError E)).
Arguments on_start {E}.
Arguments on_completed {E} success.
Arguments on_step_started {E} step.
Arguments on_step_success {E} step attempts.
Arguments on_step_failed {E} step message attempts.
Arguments on_compensation_started {E}.
Arguments on_step_compensated {E} step error.

(** * Construction *)

Section Build.
Context {U E : Type}.

Definition step_new (n : str) (ex : Action U E) : Step U E := mkStep n ex None RetryPolicy_default None [].
Definition with_compensation (s : Step U E) (c : Action U E) : Step U E :=
  mkStep (name s) (execute s) (Some c) (retry s) (group s) (depends_on s).
Definition with_retry (s : Step U E) (r : RetryPolicy) : Step U E :=
  mkStep (name s) (execute s) (compensate_body s) r (group s) (depends_on s).
Definition with_group (s : Step U E) (g : str) : Step U E :=
  mkStep (name s) (execute s) (compensate_body s) (retry s) (Some g) (depends_on s).
Definition with_depends_on (s : Step U E) (deps : list str) : Step U E :=
  mkStep (name s) (execute s) (compensate_body s) (retry s) (group s) deps.

Definition saga_new (n : str) : Saga U E := mkSaga n [] BestEffort.
Definition set_policy (s : Saga U E) (p : CompensationPolicy) : Saga U E := mkSaga (saga_name s) (steps s) p.
Definition add_step (s : Saga U E) (st : Step U E) : Saga U E :=
  mkSaga (saga_name s) (steps s ++ [st]) (policy s).

(** * Execution order *)

(** The map from step names to positions, refusing duplicates. *)
Fixpoint index_names (ss : list (Step U E)) (i : nat) (index : gmap str nat)
  : Result (gmap str nat) DefinitionError :=
  match ss with
  | [] => Ok index
  | s :: ss' =>
      match index !! name s with
      | Some _ => Err (DuplicateStep (name s))
      | None => index_names ss' (S i) (<[name s := i]> index)
      end
  end.

(** The in-degrees and the dependents of every step. *)

Fixpoint add_deps (s : str) (i : nat) (deps : list str) (index : gmap str nat) (g : Graph)
  : Result Graph DefinitionError :=
  match deps with
  | [] => Ok g
  | dep :: deps' =>
      match index !! dep with
      | None => Err (UnknownDependency s dep)
      | Some di =>
          if (di =? i)%nat then Err (SelfDependency s)
          else add_deps s i deps' index (alter S i (fst g), alter (fun l => l ++ [i]) di (snd g))
      end
  end.

Fixpoint add_edges (ss : list (Step U E)) (i : nat) (index : gmap str nat) (g : Graph)
  : Result Graph DefinitionError :=
  match ss with
  | [] => Ok g
  | s :: ss' => g <-? add_deps (name s) i (depends_on s) index g; add_edges ss' (S i) index g
  end.

Fixpoint process_layer (ready : list nat) (dependents : list (list nat)) (order in_degree next : list nat)
  : list nat * list nat * list nat :=
  match ready with
  | [] => (order, in_degree, next)
  | i :: ready' =>
      let '(in_degree, next) := relax (default [] (dependents !! i)) in_degree next in
      process_layer ready' dependents (order ++ [i]) in_degree next
  end.

(** The [while] over the layers; every layer completes a step. *)
Fixpoint layers (fuel : nat) (ready : list nat) (dependents : list (list nat)) (order in_degree : list nat)
  : list nat :=
  match fuel, ready with
  | O, _ | _, [] => order
  | S fuel', _ =>
      let '(order, in_degree, next) :=
        process_layer (sort_by Nat.compare ready) dependents order in_degree [] in
      layers fuel' next dependents order in_degree
  end.

Definition execution_order (sg : Saga U E) : Result (list nat) DefinitionError :=
  let n := List.length (steps sg) in
  if forallb (fun s => (List.length (depends_on s) =? 0)%nat) (steps sg) then Ok (seq 0 n)
  else
    index <-? index_names (steps sg) 0 ∅;
    g <-? add_edges (steps sg) 0 index (replicate n 0%nat, replicate n []);
    let '(in_degree, dependents) := g in
    let ready := List.filter (fun i => (default 0%nat (in_degree !! i) =? 0)%nat) (seq 0 n) in
    let order := layers (S n) ready dependents [] in_degree in
    if negb (List.length order =? n)%nat then Err DependencyCycle else Ok order.

End Build.

Definition null_step {U E} : Step U E := step_new [] (fun u => (Ok tt, u)).
Definition step_at {U E} (sg : Saga U E) (i : nat) : Step U E := nth i (steps sg) null_step.

(** * The layers keep Kahn's invariant *)

Section Layers.
Context (n : nat) (deps : nat -> list nat) (dependents : list (list nat)).
Hypothesis dependents_count : forall i d, (i < n)%nat -> count (default [] (dependents !! i)) d =
  if (d <? n)%nat then count (deps d) i else 0%nat.
Abbreviation kahn := (kahn n deps).

Lemma process_layer_kahn ready done in_degree next :
  kahn done ready [] in_degree next ->
  let '(done', in_degree', next') := process_layer ready dependents done in_degree next in
  kahn done' [] [] in_degree' next' /\ List.length done' = (List.length done + List.length ready)%nat.
Proof.
  revert done in_degree next. induction ready as [|i ready IH]; intros done in_degree next K; cbn [process_layer].
  { split; [done|simpl; lia]. }
  pose proof (relax_kahn _ _ _ _ _ _ _ (kahn_take _ _ _ dependents_count _ _ _ _ _ K)) as K2.
  destruct (relax (default [] (dependents !! i)) in_degree next) as [in_degree2 next2]. simpl in K2.
  specialize (IH _ _ _ K2).
  destruct (process_layer ready dependents (done ++ [i]) in_degree2 next2) as [[done' in_degree'] next'].
  destruct IH as [K' L']. split; [done|]. rewrite L', length_app. simpl. lia.
Qed.

Lemma kahn_sorted done in_degree next :
  kahn done next [] in_degree [] -> kahn done (sort_by Nat.compare next) [] in_degree [].
Proof. apply kahn_permute. rewrite !app_nil_r. symmetry. apply sort_by_permutation. Qed.

Lemma layers_kahn fuel ready done in_degree :
  kahn done ready [] in_degree [] -> (n - List.length done < fuel)%nat ->
  exists in_degree', kahn (layers fuel ready dependents done in_degree) [] [] in_degree' [].
Proof.
  revert ready done in_degree. induction fuel as [|fuel IH]; intros ready done in_degree K L; [lia|].
  destruct ready as [|r ready]; [by exists in_degree|]. cbn [layers].
  pose proof (process_layer_kahn _ _ _ _ (kahn_sorted _ _ _ K)) as P.
  destruct (process_layer (sort_by Nat.compare (r :: ready)) dependents done in_degree []) as [[done' in_degree'] next'].
  destruct P as [K' L'].
  rewrite (Permutation_length (sort_by_permutation Nat.compare (r :: ready))) in L'. simpl in L'.
  apply IH.
  - destruct K' as [ND B Ln Dg Ze Re Qu]. simpl in *. by split; rewrite ?app_nil_r.
  - pose proof (NoDup_below n (done ++ (r :: ready) ++ []) (k_nodup _ _ _ _ _ _ _ K) (k_bound _ _ _ _ _ _ _ K)) as Le.
    rewrite !length_app in Le. simpl in Le. lia.
Qed.

End Layers.

(** * The graph of a saga *)

Section Graph.
Context {U E : Type} (sg : Saga U E).
Implicit Types (ss : list (Step U E)) (s : Step U E).

Lemma index_names_spec ss i index :
  match index_names ss i index with
  | Ok idx =>
      (forall k s, ss !! k = Some s -> idx !! name s = Some (i + k)%nat) /\
      (forall nm k, idx !! nm = Some k ->
         index !! nm = Some k \/ exists k' s, k = (i + k')%nat /\ ss !! k' = Some s /\ name s = nm) /\
      (forall nm k, index !! nm = Some k -> idx !! nm = Some k)
  | Err e =>
      exists k s, ss !! k = Some s /\ e = DuplicateStep (name s) /\
        (is_Some (index !! name s) \/ exists k' s', (k' < k)%nat /\ ss !! k' = Some s' /\ name s' = name s)
  end.
Proof.
  revert i index. induction ss as [|s ss IH]; intros i index; cbn [index_names].
  { split_and!; [done|auto|done]. }
  destruct (index !! name s) as [x|] eqn:L.
  { exists 0%nat, s. split_and!; [done|done|left; by exists x]. }
  specialize (IH (S i) (<[name s:=i]> index)). destruct (index_names ss (S i) _) as [idx|e].
  - destruct IH as (A & B & C). split_and!.
    + intros [|k] s' G; simpl in G.
      * injection G as <-. rewrite (C (name s) i); [f_equal; lia|apply lookup_insert_eq].
      * rewrite (A k s' G). f_equal. lia.
    + intros nm k G. destruct (B nm k G) as [I|(k' & s' & -> & G' & N)].
      * destruct (decide (name s = nm)) as [<-|Ne].
        -- rewrite lookup_insert_eq in I. injection I as <-. right. exists 0%nat, s. split_and!; [lia|done|done].
        -- rewrite lookup_insert_ne in I by done. by left.
      * right. exists (S k'), s'. split_and!; [lia|done|done].
    + intros nm k G. apply C. rewrite lookup_insert_ne; [done|]. intros <-. congruence.
  - destruct IH as (k & s' & G & -> & D). exists (S k), s'. split_and!; [done|done|].
    destruct D as [[x I]|(k' & s2 & Lt & G2 & N)].
    + destruct (decide (name s = name s')) as [Eq|Ne].
      * right. exists 0%nat, s. split_and!; [lia|done|done].
      * rewrite lookup_insert_ne in I by done. left. by exists x.
    + right. exists (S k'), s2. split_and!; [lia|done|done].
Qed.

(** The positions of the dependencies of a step. *)
Definition dep_indices (index : gmap str nat) (deps : list str) : list nat := omap (fun dep => index !! dep) deps.

Lemma add_deps_spec nm i deps index g :
  (i < List.length (fst g))%nat ->
  (forall dep j, index !! dep = Some j -> (j < List.length (snd g))%nat) ->
  match add_deps nm i deps index g with
  | Ok g' =>
      List.length (fst g') = List.length (fst g) /\ List.length (snd g') = List.length (snd g) /\
      Forall (fun dep => exists j, index !! dep = Some j /\ j <> i) deps /\
      (forall d x, fst g !! d = Some x ->
         fst g' !! d = Some (if (d =? i)%nat then x + List.length (dep_indices index deps) else x)%nat) /\
      (forall j d, count (default [] (snd g' !! j)) d =
         (count (default [] (snd g !! j)) d + (if (d =? i)%nat then count (dep_indices index deps) j else 0))%nat)
  | Err e => exists dep, In dep deps /\
      ((e = UnknownDependency nm dep /\ index !! dep = None) \/ (e = SelfDependency nm /\ index !! dep = Some i))
  end.
Proof.
  intros Hi Hx. revert g Hi Hx. induction deps as [|dep deps IH]; intros g Hi Hx; cbn [add_deps].
  { split_and!; try done.
    - intros d x ->. simpl. f_equal. destruct (d =? i)%nat; lia.
    - intros j d. simpl. destruct (d =? i)%nat; lia. }
  destruct (index !! dep) as [di|] eqn:L.
  2:{ exists dep. split; [by left|]. by left. }
  destruct (Nat.eqb_spec di i) as [->|Ne].
  { exists dep. split; [by left|]. by right. }
  specialize (IH (alter S i (fst g), alter (fun l => l ++ [i]) di (snd g))). cbn [fst snd] in IH.
  rewrite !length_alter in IH. specialize (IH Hi Hx).
  destruct (add_deps nm i deps index _) as [g'|e].
  2:{ destruct IH as (dep' & I & C). exists dep'. split; [by right|done]. }
  destruct IH as (L1 & L2 & F & A & C). split_and!; try done.
  - constructor; [by exists di|done].
  - intros d x G. cbn [dep_indices omap list_omap]. rewrite L. cbn [List.length].
    destruct (Nat.eqb_spec d i) as [->|Nd].
    + rewrite (A i (S x)); [rewrite Nat.eqb_refl; f_equal; unfold dep_indices; lia|].
      by rewrite list_lookup_alter_eq, G.
    + rewrite (A d x); [by rewrite (proj2 (Nat.eqb_neq _ _) Nd)|]. by rewrite list_lookup_alter_ne by done.
  - intros j d. rewrite C. cbn [dep_indices omap list_omap]. rewrite L. cbn [count_occ].
    destruct (Nat.eq_dec j di) as [->|Nj].
    + rewrite list_lookup_alter_eq. destruct (lookup_lt_is_Some_2 (snd g) di (Hx dep di L)) as [l Gl].
      rewrite Gl. simpl. rewrite count_occ_app. simpl.
      destruct (Nat.eq_dec di di) as [_|]; [|done].
      destruct (Nat.eqb_spec d i) as [->|Nd]; [destruct (Nat.eq_dec i i); [|done]; unfold dep_indices; lia|].
      destruct (Nat.eq_dec i d); [congruence|lia].
    + rewrite list_lookup_alter_ne by done. destruct (Nat.eq_dec di j); [congruence|]. unfold dep_indices. lia.
Qed.

Definition deps_at (index : gmap str nat) (d : nat) : list nat := dep_indices index (depends_on (step_at sg d)).

Lemma drop_step_at i s ss : drop i (steps sg) = s :: ss -> step_at sg i = s /\ (i < List.length (steps sg))%nat /\ drop (S i) (steps sg) = ss.
Proof.
  intros D. assert (steps sg !! i = Some s) as L by (by rewrite <- (Nat.add_0_r i), <- lookup_drop, D).
  split_and!.
  - unfold step_at. by apply nth_lookup_Some.
  - by eapply lookup_lt_Some.
  - rewrite <- Nat.add_1_r, <- drop_drop, D. done.
Qed.

Lemma add_edges_spec index ss i g :
  ss = drop i (steps sg) ->
  List.length (fst g) = List.length (steps sg) -> List.length (snd g) = List.length (steps sg) ->
  (forall dep j, index !! dep = Some j -> (j < List.length (steps sg))%nat) ->
  match add_edges ss i index g with
  | Ok g' =>
      List.length (fst g') = List.length (steps sg) /\ List.length (snd g') = List.length (steps sg) /\
      (forall d, (i <= d)%nat -> Forall (fun dep => exists j, index !! dep = Some j /\ j <> d) (depends_on (step_at sg d))) /\
      (forall d x, fst g !! d = Some x ->
         fst g' !! d = Some (if (i <=? d)%nat then x + List.length (deps_at index d) else x)%nat) /\
      (forall j d, count (default [] (snd g' !! j)) d =
         (count (default [] (snd g !! j)) d + (if (i <=? d)%nat then count (deps_at index d) j else 0))%nat)
  | Err e => exists d dep, (d < List.length (steps sg))%nat /\ In dep (depends_on (step_at sg d)) /\
      ((e = UnknownDependency (name (step_at sg d)) dep /\ index !! dep = None) \/
       (e = SelfDependency (name (step_at sg d)) /\ index !! dep = Some d))
  end.
Proof.
  intros E0 L1 L2 Hx. revert i g E0 L1 L2. induction ss as [|s ss IH]; intros i g E0 L1 L2; cbn [add_edges].
  - assert (forall d, (i <= d)%nat -> step_at sg d = null_step) as Out.
    { intros d Ld. unfold step_at. apply nth_overflow.
      assert (List.length (drop i (steps sg)) = 0)%nat as Z by (by rewrite <- E0). rewrite length_drop in Z. lia. }
    split_and!; try done.
    + intros d Ld. by rewrite Out.
    + intros d x G. rewrite G. destruct (Nat.leb_spec i d) as [Ld|]; [|done].
      unfold deps_at. rewrite Out by done. simpl. f_equal. lia.
    + intros j d. destruct (Nat.leb_spec i d) as [Ld|]; [|lia]. unfold deps_at. rewrite Out by done. simpl. lia.
  - destruct (drop_step_at i s ss (eq_sym E0)) as (Es & Li & Ed).
    pose proof (add_deps_spec (name s) i (depends_on s) index g) as A.
    rewrite L1, L2 in A. specialize (A Li Hx).
    destruct (add_deps (name s) i (depends_on s) index g) as [g1|e]; cbn [result_bind].
    2:{ destruct A as (dep & I & C). exists i, dep. by rewrite Es. }
    destruct A as (M1 & M2 & F & A & C).
    specialize (IH (S i) g1 (eq_sym Ed) ltac:(lia) ltac:(lia)).
    destruct (add_edges ss (S i) index g1) as [g'|e]; [|done].
    destruct IH as (N1 & N2 & F' & A' & C'). split_and!; [done|done| | |].
    + intros d Ld. destruct (Nat.eq_dec d i) as [->|Nd]; [by rewrite Es|apply F'; lia].
    + intros d x G. rewrite (A' d _ (A d x G)). f_equal. unfold deps_at.
      destruct (Nat.eqb_spec d i) as [->|Nd].
      * rewrite Nat.leb_refl. rewrite (proj2 (Nat.leb_gt (S i) i)) by lia. by rewrite Es.
      * destruct (Nat.leb_spec i d), (Nat.leb_spec (S i) d); try lia; done.
    + intros j d. rewrite C', C. unfold deps_at. destruct (Nat.eqb_spec d i) as [->|Nd].
      * rewrite Nat.leb_refl. rewrite (proj2 (Nat.leb_gt (S i) i)) by lia. rewrite Es. lia.
      * destruct (Nat.leb_spec i d), (Nat.leb_spec (S i) d); lia.
Qed.

(** An order of all steps in which each follows the steps it depends on. *)
Definition topological (order : list nat) : Prop :=
  Permutation order (seq 0 (List.length (steps sg))) /\
  forall l1 i l2, order = l1 ++ i :: l2 ->
    forall dep, In dep (depends_on (step_at sg i)) -> exists j, In j l1 /\ name (step_at sg j) = dep.

Lemma step_at_lookup i s : steps sg !! i = Some s -> step_at sg i = s.
Proof. intros L. unfold step_at. by apply nth_lookup_Some. Qed.

Lemma lookup_step_at i : (i < List.length (steps sg))%nat -> steps sg !! i = Some (step_at sg i).
Proof. intros L. destruct (lookup_lt_is_Some_2 (steps sg) i L) as [s G]. by rewrite (step_at_lookup i s G). Qed.

(** The index of a saga with unique names. *)
Record index_ok (index : gmap str nat) : Prop := {
  index_of : forall i, (i < List.length (steps sg))%nat -> index !! name (step_at sg i) = Some i;
  of_index : forall nm i, index !! nm = Some i -> (i < List.length (steps sg))%nat /\ name (step_at sg i) = nm
}.

Lemma index_names_ok index : index_names (steps sg) 0 ∅ = Ok index -> index_ok index.
Proof.
  intros I. pose proof (index_names_spec (steps sg) 0 ∅) as S. rewrite I in S.
  destruct S as (A & B & _). split.
  - intros i L. by rewrite (A i _ (lookup_step_at i L)).
  - intros nm i L. destruct (B nm i L) as [L'|(k & s & -> & G & <-)]; [by rewrite lookup_empty in L'|].
    simpl. split; [by eapply lookup_lt_Some|]. by rewrite (step_at_lookup k s G).
Qed.

Lemma dep_indices_in index deps j : In j (dep_indices index deps) <-> exists dep, In dep deps /\ index !! dep = Some j.
Proof.
  unfold dep_indices. rewrite <- list_elem_of_In, list_elem_of_omap. split; intros (dep & I & L); exists dep;
    (split; [by apply list_elem_of_In|done]).
Qed.

(** With all dependencies known, the two notions of order agree. *)
Lemma topological_respects index order :
  index_ok index ->
  (forall d, Forall (fun dep => exists j, index !! dep = Some j /\ j <> d) (depends_on (step_at sg d))) ->
  topological order <-> Permutation order (seq 0 (List.length (steps sg))) /\ respects (deps_at index) order.
Proof.
  intros [Of Ix] K. unfold topological. split; intros [P R]; (split; [done|]).
  - intros l1 i l2 Eo j Ij. apply dep_indices_in in Ij as (dep & Id & L).
    destruct (R l1 i l2 Eo dep Id) as (j' & Ij' & N). destruct (Ix dep j L) as [Lj Nj].
    assert (j' < List.length (steps sg))%nat as Lj'.
    { assert (In j' (seq 0 (List.length (steps sg)))) as S.
      { eapply Permutation_in; [exact P|]. rewrite Eo, in_app_iff. auto. }
      apply in_seq in S. lia. }
    pose proof (Of j' Lj') as O'. rewrite N, L in O'. injection O' as ->. done.
  - intros l1 i l2 Eo dep Id. specialize (K i). rewrite List.Forall_forall in K. destruct (K dep Id) as (j & L & _).
    exists j. split; [|by apply Ix]. apply (R l1 i l2 Eo). apply dep_indices_in. by exists dep.
Qed.

End Graph.

Section Correct.
Context {U E : Type} (sg : Saga U E).

Lemma topological_insertion :
  forallb (fun s => (List.length (depends_on s) =? 0)%nat) (steps sg) = true ->
  topological sg (seq 0 (List.length (steps sg))).
Proof.
  intros F. split; [done|]. intros l1 i l2 Eo dep I. exfalso. rewrite forallb_forall in F.
  assert (i < List.length (steps sg))%nat as L.
  { assert (In i (seq 0 (List.length (steps sg)))) as S by (rewrite Eo, in_app_iff; simpl; auto).
    apply in_seq in S. lia. }
  assert (In (step_at sg i) (steps sg)) as S by (by apply nth_In).
  apply F in S. by destruct (depends_on (step_at sg i)).
Qed.

(** The state before the first layer satisfies the loop invariant. *)
Lemma kahn_initial index g :
  (forall dep j, index !! dep = Some j -> (j < List.length (steps sg))%nat) ->
  add_edges (steps sg) 0 index (replicate (List.length (steps sg)) 0%nat, replicate (List.length (steps sg)) []) = Ok g ->
  let n := List.length (steps sg) in
  let ready := List.filter (fun i => (default 0%nat (fst g !! i) =? 0)%nat) (seq 0 n) in
  (forall d, Forall (fun dep => exists j, index !! dep = Some j /\ j <> d) (depends_on (step_at sg d))) /\
  (forall i d, (i < n)%nat -> count (default [] (snd g !! i)) d =
     if (d <? n)%nat then count (deps_at sg index d) i else 0%nat) /\
  kahn n (deps_at sg index) [] ready [] (fst g) [].
Proof.
  intros Hx Eg n ready.
  pose proof (add_edges_spec sg index (steps sg) 0
    (replicate n 0%nat, replicate n []) eq_refl ltac:(simpl; by rewrite length_replicate)
    ltac:(simpl; by rewrite length_replicate) Hx) as S.
  fold n in Eg. rewrite Eg in S. destruct S as (L1 & L2 & K & A & C).
  assert (forall d, (d < n)%nat -> fst g !! d = Some (List.length (deps_at sg index d))) as Dg.
  { intros d Ld. rewrite (A d 0%nat); [done|]. simpl. by apply lookup_replicate_2. }
  split_and!.
  - intros d. apply K. lia.
  - intros i d Li. rewrite C. simpl. rewrite lookup_replicate_2 by done. simpl.
    destruct (Nat.ltb_spec d n) as [|Ld]; [done|]. unfold deps_at, step_at.
    by rewrite nth_overflow by (unfold n in Ld; lia).
  - apply kahn_start; [done|done|by apply List.NoDup_filter, seq_NoDup|].
    intros d. unfold ready. rewrite filter_In, in_seq. split.
    + intros [Ld Z%Nat.eqb_eq]. split; [lia|]. rewrite Dg in Z |- * by lia. simpl in Z. by rewrite <- Z.
    + intros [Ld Z]. rewrite Z. split; [lia|done].
Qed.

Lemma definition_error_no_order index e :
  index_ok sg index ->
  (exists d dep, (d < List.length (steps sg))%nat /\ In dep (depends_on (step_at sg d)) /\
      ((e = UnknownDependency (name (step_at sg d)) dep /\ index !! dep = None) \/
       (e = SelfDependency (name (step_at sg d)) /\ index !! dep = Some d))) ->
  forall order, ~ topological sg order.
Proof.
  intros [Of Ix] (d & dep & Ld & Id & C) order [P R].
  assert (In d order) as Io by (eapply Permutation_in; [symmetry; exact P|]; apply in_seq; lia).
  apply in_split in Io as (l1 & l2 & Eo). destruct (R l1 d l2 Eo dep Id) as (j & Ij & N).
  assert (j < List.length (steps sg))%nat as Lj.
  { assert (In j (seq 0 (List.length (steps sg)))) as S by (eapply Permutation_in; [exact P|]; rewrite Eo, in_app_iff; auto).
    apply in_seq in S. lia. }
  pose proof (Of j Lj) as O. rewrite N in O. destruct C as [[_ C]|[_ C]]; [congruence|].
  assert (j = d) as -> by congruence.
  assert (List.NoDup order) as ND by (eapply Permutation_NoDup; [symmetry; exact P|apply seq_NoDup]).
  rewrite Eo in ND. apply List.NoDup_remove_2 in ND. apply ND, in_app_iff. auto.
Qed.

(** C3 The execution order: when one is returned it contains every step
    exactly once, each after all the steps it depends on; an error is returned
    only for a duplicate step name or when no such order exists (an unknown
    dependency, a step depending on itself, or a cycle). *)
Theorem execution_order_topological :
  match execution_order sg with
  | Ok order => topological sg order
  | Err (DuplicateStep nm) => exists i j, (i < j < List.length (steps sg))%nat /\
      name (step_at sg i) = nm /\ name (step_at sg j) = nm
  | Err _ => forall order, ~ topological sg order
  end.
Proof.
  unfold execution_order. destruct (forallb _ (steps sg)) eqn:F; [by apply topological_insertion|].
  destruct (index_names (steps sg) 0 ∅) as [index|e] eqn:Ix; cbn [result_bind].
  2:{ pose proof (index_names_spec (steps sg) 0 ∅) as S. rewrite Ix in S.
      destruct S as (k & s & G & -> & [[x L]|(k' & s' & Lt & G' & N)]); [by rewrite lookup_empty in L|].
      exists k', k. rewrite (step_at_lookup sg k s G), (step_at_lookup sg k' s' G').
      split_and!; [done|by eapply lookup_lt_Some|done|done]. }
  pose proof (index_names_ok sg index Ix) as Ok_. pose proof Ok_ as [Of Ixn].
  assert (forall dep j, index !! dep = Some j -> (j < List.length (steps sg))%nat) as Hx by (intros dep j L; by eapply Ixn).
  destruct (add_edges (steps sg) 0 index _) as [[in_degree dependents]|e] eqn:Eg; cbn [result_bind].
  2:{ pose proof (add_edges_spec sg index (steps sg) 0
        (replicate (List.length (steps sg)) 0%nat, replicate (List.length (steps sg)) []) eq_refl
        ltac:(simpl; by rewrite length_replicate) ltac:(simpl; by rewrite length_replicate) Hx) as S.
      rewrite Eg in S. pose proof (definition_error_no_order index e Ok_ S) as No.
      destruct S as (d & dep & _ & _ & [[-> _]|[-> _]]); exact No. }
  destruct (kahn_initial index _ Hx Eg) as (K & Cn & K0). cbn [fst snd] in *.
  destruct (layers_kahn _ _ _ Cn (S (List.length (steps sg))) _ _ _ K0 ltac:(simpl; lia)) as [deg Kf].
  set (order := layers _ _ _ _ _) in *. pose proof Kf as [ND B _ _ _ Re _]. simpl in ND, B. rewrite app_nil_r in ND, B.
  destruct (Nat.eqb_spec (List.length order) (List.length (steps sg))) as [L|L]; cbn [negb].
  - apply (topological_respects sg index order Ok_ K). split; [by apply NoDup_full|done].
  - intros order' T. apply (topological_respects sg index order' Ok_ K) in T as [P R].
    apply L. by eapply kahn_complete.
Qed.

End Correct.

Example order_example :
  let st n deps := with_depends_on (step_new (lit n) (fun u : unit => (Ok tt : Result unit (BoxError unit), u))) (map lit deps) in
  execution_order (mkSaga (lit "s") [st "ship" ["pay"; "pack"]; st "pay" []; st "pack" ["pay"]; st "audit" []]%string BestEffort)
    = Ok [1; 3; 2; 0]%nat.
Proof. vm_compute. reflexivity. Qed.
