(* ===== verification/Validator.v ===== *)
(** Start-up validation of workflow and saga graphs:
    [crates/orchestration/src/validator.rs].

    A graph is the [BTreeMap] from node names to dependency lists, given by its
    entries in key order. The theorem: for graphs whose dependency lists have
    no repetition, validation reports nothing exactly when the graph is
    non-empty, closed and can be ordered; a repeated dependency makes it report
    a cycle that is not there. *)
From Stdlib Require Import Ascii String.
From Stdlib Require Import ZArith NArith List Lia Sorting.Permutation.
From stdpp Require Import base decidable list gmap.
From S2P Require Import Prelude Str.

(** * Data *)

Inductive IssueLevel : Type := Warning | Error.

#[export] Instance IssueLevel_eq_dec : EqDecision IssueLevel.
Proof. solve_decision. Defined.

(** The messages [validate_dag] formats. *)
Inductive Message : Type :=
| NoSteps
| DependsOnUnknown (node dep : str)
| DependencyCycle (nodes : list str).

Record ValidationIssue : Type := mkIssue { target : str; issue_level : IssueLevel; message : Message }.

(** [ValidationReport]: its issues. *)
Definition ValidationReport : Type := list ValidationIssue.

Definition has_errors (r : ValidationReport) : bool := existsb (fun i => bool_decide (issue_level i = Error)) r.
Definition report_is_empty (r : ValidationReport) : bool := (List.length r =? 0)%nat.

(** [ValidationError]: the targets and messages it joins. *)
Definition ValidationError : Type := list (str * Message).

Definition raise_if_errors (r : ValidationReport) : Result unit ValidationError :=
  if has_errors r then
    Err (map (fun i => (target i, message i)) (List.filter (fun i => bool_decide (issue_level i = Error)) r))
  else Ok tt.

Record OrchestrationValidator : Type := mkValidator { fail_on_warning : bool }.

Definition fail_if_needed (v : OrchestrationValidator) (r : ValidationReport) : Result unit ValidationError :=
  if fail_on_warning v && negb (report_is_empty r) then Err (map (fun i => (target i, message i)) r)
  else raise_if_errors r.

(** * Validation *)

Definition Graph : Type := list (str * list str).

Definition mem (x : str) (l : list str) : bool := existsb (str_eqb x) l.

Implicit Types (graph : Graph) (remaining : gmap str nat).

(** The nodes of no unsatisfied dependency, in key order. *)
Definition ready_nodes graph remaining : list str :=
  List.filter (fun n => bool_decide (remaining !! n = Some 0%nat)) (map fst graph).

(** Drops [node] and resolves one dependency of each dependent. *)
Definition resolve graph (node : str) remaining : gmap str nat :=
  fold_left (fun remaining '(dependent, deps) => if mem node deps then alter pred dependent remaining else remaining)
    graph (delete node remaining).

(** The [loop]; each round that goes on drops a node. *)
Fixpoint drain (fuel : nat) graph remaining : gmap str nat :=
  match fuel, ready_nodes graph remaining with
  | O, _ | _, [] => remaining
  | S n, ready => drain n graph (fold_left (fun remaining node => resolve graph node remaining) ready remaining)
  end.

Definition initial_degrees graph : gmap str nat :=
  list_to_map (map (fun '(n, deps) => (n, List.length deps)) graph).

Definition first_cycle graph : option (list str) :=
  let remaining := drain (S (List.length graph)) graph (initial_degrees graph) in
  match List.filter (fun n => bool_decide (is_Some (remaining !! n))) (map fst graph) with
  | [] => None
  | nodes => Some nodes
  end.

Definition unknown_dependencies (t : str) graph : list ValidationIssue :=
  flat_map (fun '(node, deps) =>
    omap (fun dep => if mem dep (map fst graph) then None else Some (mkIssue t Error (DependsOnUnknown node dep))) deps)
    graph.

Definition validate_dag (t : str) graph : ValidationReport :=
  match graph with
  | [] => [mkIssue t Error NoSteps]
  | _ =>
      let report := unknown_dependencies t graph in
      if has_errors report then report
      else match first_cycle graph with
           | Some cycle => report ++ [mkIssue t Error (DependencyCycle cycle)]
           | None => report
           end
  end.

(** * Theorems *)

Lemma mem_spec x l : mem x l = true <-> In x l.
Proof.
  unfold mem. rewrite existsb_exists. split.
  - intros (y & I & E%bool_decide_eq_true). by subst.
  - intros I. exists x. split; [done|]. by apply bool_decide_eq_true.
Qed.

(** An order of the nodes in which each comes after its dependencies. *)
Definition ordered graph (order : list str) : Prop :=
  Permutation order (map fst graph) /\
  forall node deps before after, In (node, deps) graph -> order = before ++ node :: after ->
    Forall (fun d => In d before) deps.

Lemma list_app_snoc_inv {A} (l : list A) x before y after : l ++ [x] = before ++ y :: after ->
  (after = [] /\ before = l /\ y = x) \/ exists after', l = before ++ y :: after' /\ after = after' ++ [x].
Proof.
  intros E. destruct (List.exists_last (l := y :: after) ltac:(done)) as (a & z & Ea). rewrite Ea, app_assoc in E.
  apply app_inj_tail in E as [-> ->]. destruct a as [|y' a]; simpl in Ea; injection Ea as -> ->.
  - left. by rewrite app_nil_r.
  - right. by exists a.
Qed.

Section Drain.
Context (graph : Graph).
Hypothesis keys : List.NoDup (map fst graph).
Hypothesis simple : Forall (fun '(_, deps) => List.NoDup deps) graph.
Hypothesis closed : Forall (fun '(_, deps) => Forall (fun d => In d (map fst graph)) deps) graph.

Definition unsatisfied remaining (deps : list str) : nat :=
  List.length (List.filter (fun d => bool_decide (is_Some (remaining !! d))) deps).

(** The degrees count the dependencies that remain; the nodes dropped so far
    come in an order that respects the dependencies. *)
Record drained (order : list str) remaining : Prop := {
  dr_keys : forall n, is_Some (remaining !! n) <-> In n (map fst graph) /\ ~ In n order;
  dr_degree : forall n deps, In (n, deps) graph -> forall d, remaining !! n = Some d -> d = unsatisfied remaining deps;
  dr_nodup : List.NoDup order;
  dr_known : forall n, In n order -> In n (map fst graph);
  dr_order : forall n deps before after, In (n, deps) graph -> order = before ++ n :: after ->
    Forall (fun d => In d before) deps
}.

Lemma entry_unique n deps deps' : In (n, deps) graph -> In (n, deps') graph -> deps = deps'.
Proof.
  clear simple closed. induction graph as [|[m ds] g IH]; simpl in *; [done|]. inversion keys as [|? ? Ni Nd]; subst.
  intros [[= <- <-]|I] [[= <-]|I']; auto.
  - destruct Ni. by apply (in_map fst) in I'.
  - subst. destruct Ni. by apply (in_map fst) in I.
Qed.

Lemma initial_drained : drained [] (initial_degrees graph).
Proof.
  assert (forall n d, initial_degrees graph !! n = Some d <-> exists deps, In (n, deps) graph /\ d = List.length deps) as L.
  { intros n d. unfold initial_degrees. rewrite <- elem_of_list_to_map.
    - rewrite list_elem_of_In, in_map_iff. split; [intros ([m ds] & [= <- <-] & I); eauto|intros (ds & I & ->); by exists (n, ds)].
    - apply NoDup_ListNoDup. rewrite map_map. erewrite map_ext; [exact keys|]. by intros []. }
  assert (forall n, is_Some (initial_degrees graph !! n) <-> In n (map fst graph)) as K.
  { intros n. rewrite in_map_iff. split.
    - intros [d (ds & I & _)%L]. by exists (n, ds).
    - intros ([m ds] & <- & I). exists (List.length ds). apply L. eauto. }
  split; try done.
  - intros n. rewrite K. simpl. tauto.
  - intros n deps I d (deps' & I' & ->)%L. rewrite (entry_unique _ _ _ I' I). unfold unsatisfied.
    rewrite List.forallb_filter_id; [done|]. apply forallb_forall. intros x Ix. apply bool_decide_eq_true, K.
    rewrite List.Forall_forall in closed. specialize (closed _ I). rewrite List.Forall_forall in closed. auto.
  - constructor.
  - by intros n deps [].
Qed.

Lemma fold_resolve_lookup node g remaining n :
  List.NoDup (map fst g) ->
  fold_left (fun remaining '(dependent, deps) => if mem node deps then alter pred dependent remaining else remaining)
    g remaining !! n =
  match List.find (fun '(m, _) => str_eqb m n) g with
  | Some (_, deps) => if mem node deps then pred <$> remaining !! n else remaining !! n
  | None => remaining !! n
  end.
Proof.
  revert remaining. induction g as [|[m deps] g IH]; intros remaining Nd; [done|]. inversion Nd as [|? ? Ni Nd']; subst.
  simpl. rewrite IH by done. unfold str_eqb at 2. case_bool_decide as E; subst.
  - assert (List.find (fun '(m, _) => str_eqb m n) g = None) as ->.
    { destruct (List.find _ g) as [[m' ds]|] eqn:F; [|done]. apply find_some in F as [I E%bool_decide_eq_true]. subst.
      destruct Ni. by apply (in_map fst) in I. }
    destruct (mem node deps); [by rewrite lookup_alter_eq|done].
  - destruct (mem node deps); [by rewrite lookup_alter_ne|done].
Qed.

Lemma resolve_lookup node remaining n deps : In (n, deps) graph -> n <> node ->
  resolve graph node remaining !! n = (if mem node deps then pred <$> remaining !! n else remaining !! n).
Proof.
  intros I N. unfold resolve. rewrite fold_resolve_lookup by done. rewrite lookup_delete_ne by done.
  destruct (List.find _ graph) as [[m ds]|] eqn:F.
  - apply find_some in F as [I' E%bool_decide_eq_true]. subst. by rewrite (entry_unique _ _ _ I I').
  - apply (find_none _ _ F) in I. simpl in I. by apply bool_decide_eq_false in I.
Qed.

Lemma resolve_keys node remaining n : is_Some (resolve graph node remaining !! n) <-> n <> node /\ is_Some (remaining !! n).
Proof.
  unfold resolve. rewrite fold_resolve_lookup by done.
  destruct (decide (n = node)) as [->|N].
  - rewrite lookup_delete_eq. destruct (List.find _ graph) as [[m ds]|]; [destruct (mem node ds)|]; simpl; split; try tauto; by intros [].
  - rewrite lookup_delete_ne by done. destruct (List.find _ graph) as [[m ds]|]; [destruct (mem node ds)|];
      rewrite ?fmap_is_Some; tauto.
Qed.

Lemma unsatisfied_resolve node remaining deps : List.NoDup deps -> is_Some (remaining !! node) ->
  unsatisfied (resolve graph node remaining) deps =
    if mem node deps then pred (unsatisfied remaining deps) else unsatisfied remaining deps.
Proof.
  intros Nd S.
  assert (forall d, bool_decide (is_Some (resolve graph node remaining !! d)) =
                    negb (str_eqb node d) && bool_decide (is_Some (remaining !! d))) as K.
  { intros d. unfold str_eqb. rewrite <- bool_decide_not, <- bool_decide_and. apply bool_decide_ext. rewrite resolve_keys.
    split; intros [? ?]; split; congruence || done. }
  unfold unsatisfied. induction Nd as [|d deps Ni Nd IH]; [done|]. cbn [List.filter mem existsb]. rewrite K.
  fold (mem node deps). destruct (str_eqb node d) eqn:E; cbn [negb andb orb].
  - apply bool_decide_eq_true in E. subst d. rewrite bool_decide_eq_true_2 by done. rewrite IH.
    destruct (mem node deps) eqn:M; [|done]. by apply mem_spec in M.
  - destruct (bool_decide (is_Some (remaining !! d))); cbn [List.length]; rewrite IH; [|done].
    destruct (mem node deps) eqn:M; [|done]. apply mem_spec in M.
    match goal with |- context [List.length ?l] => assert (In node l) as I;
      [apply filter_In; split; [done|by apply bool_decide_eq_true]|revert I; destruct l; [intros []|reflexivity]] end.
Qed.

Lemma unsatisfied_zero remaining deps :
  unsatisfied remaining deps = 0%nat <-> Forall (fun d => remaining !! d = None) deps.
Proof.
  unfold unsatisfied. induction deps as [|d deps IH]; simpl; [by split|]. rewrite List.Forall_cons_iff, <- IH.
  destruct (remaining !! d) eqn:L; [rewrite bool_decide_eq_true_2 by done|rewrite bool_decide_eq_false_2 by (by intros [])];
    simpl; intuition congruence.
Qed.

Lemma deps_of n : In n (map fst graph) -> exists deps, In (n, deps) graph.
Proof. intros ([m ds] & <- & I)%in_map_iff. by exists ds. Qed.

Lemma resolve_drained order remaining node :
  drained order remaining -> remaining !! node = Some 0%nat -> drained (order ++ [node]) (resolve graph node remaining).
Proof.
  intros D Z. pose proof D as [K Dg Nd Kn Or].
  assert (is_Some (remaining !! node)) as S by eauto. destruct (proj1 (K node) S) as [In_ No].
  split.
  - intros n. rewrite resolve_keys, K, in_app_iff. simpl. intuition congruence.
  - intros n deps I d L. assert (n <> node) as N by (apply (resolve_keys node remaining n); eauto).
    rewrite (resolve_lookup _ _ _ _ I N) in L. rewrite unsatisfied_resolve; [|by eapply (proj1 (List.Forall_forall _ _) simple (n, deps))|done].
    destruct (mem node deps); [|by apply (Dg n)]. destruct (remaining !! n) as [d'|] eqn:L'; [|done].
    injection L as <-. by rewrite (Dg n deps I d' L').
  - apply List.NoDup_app; [done|repeat constructor; simpl; tauto|]. intros x I [<-|[]]. done.
  - intros n [I|[<-|[]]]%in_app_iff; auto.
  - intros n deps before after I E. destruct (list_app_snoc_inv order node before n after E) as [(-> & -> & ->)|(after' & E' & ->)].
    + pose proof (Dg node deps I 0%nat Z) as U. symmetry in U. apply unsatisfied_zero in U.
      rewrite List.Forall_forall in U |- *. intros d Id. specialize (U d Id).
      pose proof (proj1 (List.Forall_forall _ _) closed _ I) as C. simpl in C. rewrite List.Forall_forall in C.
      destruct (List.in_dec (fun a b => decide (a = b)) d order) as [|N]; [done|].
      destruct (proj2 (K d)) as [? L]; [by split; [apply C|]|congruence].
    + by eapply Or.
Qed.

Lemma fold_drained ready order remaining :
  drained order remaining -> List.NoDup ready -> Forall (fun n => remaining !! n = Some 0%nat) ready ->
  drained (order ++ ready) (fold_left (fun remaining node => resolve graph node remaining) ready remaining).
Proof.
  revert order remaining. induction ready as [|node ready IH]; intros order remaining D Nd F; [by rewrite app_nil_r|].
  inversion Nd as [|? ? Ni Nd']; subst. apply List.Forall_cons_iff in F as [Z F].
  simpl. replace (order ++ node :: ready) with ((order ++ [node]) ++ ready) by (by rewrite <- app_assoc).
  apply IH; [by apply resolve_drained|done|]. rewrite List.Forall_forall in F |- *. intros n I.
  pose proof (F n I) as Zn. destruct (deps_of n) as [deps Id]; [apply (dr_keys _ _ D); eauto|].
  rewrite (resolve_lookup _ _ _ deps Id) by (by intros ->). rewrite Zn. by destruct (mem node deps).
Qed.

Lemma drain_drained fuel order remaining :
  drained order remaining -> (List.length graph < fuel + List.length order)%nat ->
  exists order', drained order' (drain fuel graph remaining) /\ ready_nodes graph (drain fuel graph remaining) = [].
Proof.
  revert order remaining. induction fuel as [|fuel IH]; intros order remaining D L.
  { pose proof (List.NoDup_incl_length (dr_nodup _ _ D) (dr_known _ _ D)) as B. rewrite length_map in B. lia. }
  cbn [drain]. destruct (ready_nodes graph remaining) as [|node ready] eqn:R; [by exists order|]. rewrite <- R.
  apply (IH (order ++ ready_nodes graph remaining)).
  - apply fold_drained; [done|by apply List.NoDup_filter|]. apply List.Forall_forall.
    intros n [_ Z%bool_decide_eq_true]%filter_In. exact Z.
  - rewrite length_app, R. simpl. lia.
Qed.

Lemma first_cycle_none : first_cycle graph = None <-> exists order, ordered graph order.
Proof.
  unfold first_cycle.
  destruct (drain_drained (S (List.length graph)) [] _ initial_drained ltac:(simpl; lia)) as (order & D & R).
  set (remaining := drain _ _ _) in *. destruct (List.filter _ (map fst graph)) as [|n nodes] eqn:F.
  - split; [|done]. intros _. exists order. split; [|exact (dr_order _ _ D)].
    apply Permutation.NoDup_Permutation; [exact (dr_nodup _ _ D)|exact keys|]. intros n. split; [apply (dr_known _ _ D)|].
    intros I. destruct (List.in_dec (fun a b => decide (a = b)) n order) as [|N]; [done|].
    assert (In n []) as []. rewrite <- F. apply filter_In. split; [done|]. apply bool_decide_eq_true, (dr_keys _ _ D). by split.
  - split; [done|]. intros (o & P & O). exfalso.
    assert (In n (n :: nodes)) as I by (by left). rewrite <- F in I. apply filter_In in I as [Ik S].
    destruct (first_such (fun m => bool_decide (is_Some (remaining !! m))) o n) as (before & m & after & E & Sm & Fb).
    { eapply Permutation_in; [symmetry; exact P|done]. } { done. }
    apply bool_decide_eq_true in Sm as [d L].
    destruct (deps_of m) as [deps Id]; [eapply Permutation_in; [exact P|]; rewrite E; apply in_elt|].
    assert (d = 0%nat) as ->.
    { rewrite (dr_degree _ _ D m deps Id d L). apply unsatisfied_zero. pose proof (O _ _ _ _ Id E) as B.
      rewrite List.Forall_forall in B, Fb |- *. intros x Ix. specialize (Fb x (B x Ix)).
      apply bool_decide_eq_false in Fb. by apply eq_None_not_Some. }
    assert (In m []) as []. rewrite <- R. apply filter_In. split; [by apply (in_map fst) in Id|]. by apply bool_decide_eq_true.
Qed.

End Drain.

Lemma unknown_dependencies_nil t graph :
  unknown_dependencies t graph = [] <-> Forall (fun '(_, deps) => Forall (fun d => In d (map fst graph)) deps) graph.
Proof.
  unfold unknown_dependencies. generalize (map fst graph) as known. intros known.
  induction graph as [|[n deps] g IH]; simpl; [by split|]. rewrite List.Forall_cons_iff, <- IH.
  assert (omap (fun dep => if mem dep known then None else Some (mkIssue t Error (DependsOnUnknown n dep))) deps = [] <->
          Forall (fun d => In d known) deps) as <-.
  { clear. induction deps as [|d deps IH]; simpl; [by split|]. rewrite List.Forall_cons_iff, <- mem_spec.
    destruct (mem d known); [tauto|]. split; [done|]. by intros [? _]. }
  split; [by intros [-> ->]%app_eq_nil|by intros [-> ->]].
Qed.

Lemma unknown_has_errors t graph : has_errors (unknown_dependencies t graph) = negb (report_is_empty (unknown_dependencies t graph)).
Proof.
  unfold unknown_dependencies, has_errors, report_is_empty. generalize (map fst graph) as known. intros known.
  assert (forall n deps (out : list ValidationIssue),
    out = omap (fun dep => if mem dep known then None else Some (mkIssue t Error (DependsOnUnknown n dep))) deps ->
    existsb (fun i => bool_decide (issue_level i = Error)) out = negb (List.length out =? 0)%nat) as O.
  { intros n deps. induction deps as [|d deps IH]; intros out ->; [done|]. simpl. destruct (mem d known); [by apply IH|done]. }
  induction graph as [|[n deps] g IH]; [done|]. simpl. rewrite existsb_app, length_app, IH, (O n deps _ eq_refl).
  by destruct (omap _ deps), (flat_map _ g).
Qed.

(** Validation is sound and complete for graphs without repeated
    dependencies: it reports nothing exactly when there is a node, every
    dependency is declared and the nodes can be ordered with each after its
    dependencies; and what it reports makes enforcement fail. *)
Theorem validate_dag_correct v t graph :
  List.NoDup (map fst graph) -> Forall (fun '(_, deps) => List.NoDup deps) graph ->
  (validate_dag t graph = [] <->
   graph <> [] /\ Forall (fun '(_, deps) => Forall (fun d => In d (map fst graph)) deps) graph /\
   exists order, ordered graph order) /\
  (fail_if_needed v (validate_dag t graph) = Ok tt <-> validate_dag t graph = []).
Proof.
  intros Nd Sm. unfold validate_dag. destruct graph as [|e g].
  { split; [split; [done|by intros [? _]]|]. unfold fail_if_needed. by destruct (_ && _). }
  set (graph := e :: g) in *. pose proof (unknown_dependencies_nil t graph) as U. rewrite unknown_has_errors.
  destruct (unknown_dependencies t graph) as [|i issues] eqn:Eu; simpl.
  - pose proof (proj1 U eq_refl) as C. pose proof (first_cycle_none graph Nd Sm C) as F.
    destruct (first_cycle graph) as [cycle|].
    + split; [|unfold fail_if_needed; by destruct (_ && _)]. split; [done|]. intros (_ & _ & O). by apply F in O.
    + split; [|unfold fail_if_needed; by rewrite andb_false_r]. split; [|done]. intros _. split_and!; [done|done|by apply F].
  - split; [split; [done|intros (_ & C & _); by apply U in C]|]. split; [|done].
    pose proof (unknown_has_errors t graph) as He. rewrite Eu in He.
    unfold fail_if_needed, raise_if_errors. rewrite He. by destruct (_ && _).
Qed.

(** A dependency listed twice is counted twice and resolved once: a graph that
    can be ordered is reported as a cycle. *)
Lemma repeated_dependency_rejected :
  let graph := [(lit "a", []); (lit "b", [lit "a"; lit "a"])] in
  validate_dag (lit "w") graph = [mkIssue (lit "w") Error (DependencyCycle [lit "b"])] /\
  ordered graph [lit "a"; lit "b"].
Proof.
  intros graph. split; [vm_compute; reflexivity|]. split; [done|].
  intros n deps before after [[= <- <-]|[[= <- <-]|[]]] E; [done|].
  destruct before as [|x [|y before]]; [discriminate| |]; injection E as -> E; [|by destruct before].
  repeat constructor.
Qed.

Lemma validate_dag_correct_witness :
  let graph := [(lit "pack", [lit "pay"]); (lit "pay", []); (lit "ship", [lit "pack"; lit "pay"])] in
  validate_dag (lit "order") graph = [] /\ exists order, ordered graph order.
Proof.
  intros graph. assert (validate_dag (lit "order") graph = []) as E by (vm_compute; reflexivity). split; [exact E|].
  destruct (validate_dag_correct (mkValidator true) (lit "order") graph) as [[V _] _].
  - repeat constructor; simpl; intuition discriminate.
  - repeat constructor; simpl; intuition discriminate.
  - apply V. exact E.
Defined.
