(* ===== verification/Saga.v ===== *)
(** The saga engine: the run and the compensation of
    [crates/orchestration/src/saga.rs].

    A failing step triggers the compensation of the executed ones under one of
    six policies. The run threads the user's world (step bodies, shared
    context, clock) and the log of the listener hooks it fires; the hooks'
    measured durations and the correlation id are left out, and where the code
    passes a rendered error message the model keeps the error it renders.
    [futures::future::join_all] is the class [JoinAll]: any interleaving of
    the compensations it is given. *)
From Stdlib Require Import Ascii String.
From Stdlib Require Import ZArith NArith List Lia Sorting.Permutation.
From stdpp Require Import base decidable list relations.
From S2P Require Import Prelude Str StepInvoker SagaOrder.

(** * Compensation *)

(** The user's world and the hooks fired so far. *)
Record RunState (U E : Type) : Type := mkRun { world : U; events : list (Event E) }.
Arguments mkRun {U E}.
Arguments world {U E} _.
Arguments events {U E} _.

Definition emit {U E} (e : Event E) (st : RunState U E) : RunState U E := mkRun (world st) (events st ++ [e]).

(** A compensation under way: not started, its body run, its hook fired. *)
Inductive Task (U E : Type) : Type :=
| Todo (step : str) (body : Action U E)
| Ran (step : str) (r : Result unit (BoxError E))
| Done (step : str) (r : Result unit (BoxError E)).
Arguments Todo {U E} step body.
Arguments Ran {U E} step r.
Arguments Done {U E} step r.

Definition error_of {T E} (r : Result T E) : option E := match r with Ok _ => None | Err e => Some e end.

(** One step of one task. *)
Inductive task_step {U E} : Task U E -> RunState U E -> Task U E -> RunState U E -> Prop :=
| task_run step body st r u :
    body (world st) = (r, u) -> task_step (Todo step body) st (Ran step r) (mkRun u (events st))
| task_report step r st :
    task_step (Ran step r) st (Done step r) (emit (on_step_compensated step (error_of r)) st).

(** Any of the tasks steps. *)
Inductive tasks_step {U E} : list (Task U E) * RunState U E -> list (Task U E) * RunState U E -> Prop :=
| tasks_pick l1 t t' l2 st st' :
    task_step t st t' st' -> tasks_step (l1 ++ t :: l2, st) (l1 ++ t' :: l2, st').

(** [futures::future::join_all]: runs the futures concurrently and returns
    their results in the order given. *)
Class JoinAll (U E : Type) : Type := {
  join_all : list (str * Action U E) -> RunState U E -> list (Result unit (BoxError E)) * RunState U E;
  join_all_interleaves : forall tasks st,
    rtc tasks_step (map (fun '(s, b) => Todo s b) tasks, st)
      (zip_with Done (map fst tasks) (fst (join_all tasks st)), snd (join_all tasks st)) /\
    List.length (fst (join_all tasks st)) = List.length tasks
}.

Section Run.
Context {U E : Type} `{Runtime U E} `{JoinAll U E} (sg : Saga U E).

(** [step.compensate.as_ref().expect(..)]: the order holds compensable steps. *)
Definition compensation_of (i : nat) : Action U E :=
  match compensate_body (step_at sg i) with Some body => body | None => fun u => (Ok tt, u) end.

Definition run_compensation (i : nat) (st : RunState U E) : Result str (BoxError E) * RunState U E :=
  let step := step_at sg i in
  let body := compensation_of i in
  let '(result, u) :=
    if bool_decide (policy sg = RetryWithBackoff) then
      let '(r, u) := invoke_with_policy (name step) (retry step) body (world st) in
      (map_err (unwrap_invoke_cause (lit "step failed") (retry step)) r, u)
    else body (world st) in
  let st := emit (on_step_compensated (name step) (error_of result)) (mkRun u (events st)) in
  (match result with Ok _ => Ok (name step) | Err e => Err e end, st).

(** The loop of [compensate_sequential]; the accumulators are the rolled
    names, the first error and the consecutive failures. *)
Fixpoint sequential_loop (order : list nat) (rolled : list str) (first_err : option (BoxError E))
    (consecutive : nat) (st : RunState U E) : list str * option (BoxError E) * RunState U E :=
  match order with
  | [] => (rolled, first_err, st)
  | i :: order' =>
      match run_compensation i st with
      | (Ok name, st) => sequential_loop order' (rolled ++ [name]) first_err 0 st
      | (Err err, st) =>
          if bool_decide (policy sg = StopOnError) then (rolled, Some err, st)
          else
            let consecutive := S consecutive in
            let first_err := match first_err with None => Some err | e => e end in
            if bool_decide (policy sg = CircuitBreaker) && (CIRCUIT_BREAKER_THRESHOLD <=? consecutive)%nat
            then (rolled, first_err, st)
            else sequential_loop order' rolled first_err consecutive st
      end
  end.

Definition compensate_sequential (order : list nat) (st : RunState U E) :=
  sequential_loop order [] None 0 st.

Fixpoint collect_compensations (results : list (Result str (BoxError E))) : list str * option (BoxError E) :=
  match results with
  | [] => ([], None)
  | Ok n :: rs => let '(rolled, err) := collect_compensations rs in (n :: rolled, err)
  | Err e :: rs => let '(rolled, _) := collect_compensations rs in (rolled, Some e)
  end.

(** [join_all] of the compensations of a batch; the parallel policies run the
    bodies directly. *)
Definition compensate_batch (batch : list nat) (st : RunState U E)
  : list str * option (BoxError E) * RunState U E :=
  let tasks := map (fun i => (name (step_at sg i), compensation_of i)) batch in
  let '(results, st) := join_all tasks st in
  let named := zip_with (fun i (r : Result unit (BoxError E)) =>
                 match r with Ok _ => Ok (name (step_at sg i)) | Err e => Err e end) batch results in
  (collect_compensations named, st).

(** The next batch of [compensate_grouped]: a maximal run of one group label,
    or a single ungrouped step. *)
Fixpoint span_group (g : option str) (order : list nat) : list nat * list nat :=
  match order with
  | [] => ([], [])
  | i :: order' =>
      if bool_decide (group (step_at sg i) = g) then let '(b, rest) := span_group g order' in (i :: b, rest)
      else ([], order)
  end.

Definition next_batch (i : nat) (order : list nat) : list nat * list nat :=
  match group (step_at sg i) with
  | None => ([i], order)
  | Some g => let '(b, rest) := span_group (Some g) order in (i :: b, rest)
  end.

Fixpoint grouped_loop (fuel : nat) (order : list nat) (rolled : list str) (first_err : option (BoxError E))
    (st : RunState U E) : list str * option (BoxError E) * RunState U E :=
  match fuel, order with
  | O, _ | _, [] => (rolled, first_err, st)
  | S fuel', i :: order' =>
      let '(batch, rest) := next_batch i order' in
      let '(names, err, st) := compensate_batch batch st in
      grouped_loop fuel' rest (rolled ++ names) (match first_err with None => err | e => e end) st
  end.

(** Every batch consumes a step. *)
Definition compensate_grouped (order : list nat) (st : RunState U E) :=
  grouped_loop (List.length order) order [] None st.

Definition has_compensation (i : nat) : bool :=
  match compensate_body (step_at sg i) with Some _ => true | None => false end.

Definition compensation_order (executed : list nat) : list nat :=
  List.filter has_compensation (rev executed).

Definition compensate (executed : list nat) (st : RunState U E)
  : list str * option (BoxError E) * RunState U E :=
  let st := match executed with [] => st | _ => emit on_compensation_started st end in
  let order := compensation_order executed in
  match policy sg with
  | BestEffort | StopOnError | RetryWithBackoff | CircuitBreaker => compensate_sequential order st
  | BestEffortParallel => compensate_batch order st
  | GroupedParallel => compensate_grouped order st
  end.

(** * The run *)

(** [Result<Outcome, SagaFailure>]: the outcome is always there. *)
Definition RunResult : Type := (Outcome E * option (SagaError E)) * RunState U E.

Definition finish (status : SagaStatus) (executed_names rolled : list str) (err shown : option (SagaError E))
    (started : Z) (st : RunState U E) : RunResult :=
  let outcome := mkOutcome (saga_name sg) status executed_names rolled shown started (utc_now (world st)) in
  (outcome, err, emit (on_completed (match err with None => true | Some _ => false end)) st).

Fixpoint run_steps (token : U -> bool) (started : Z) (order executed : list nat) (executed_names : list str)
    (st : RunState U E) : RunResult :=
  match order with
  | [] => finish Completed executed_names [] None None started st
  | i :: order' =>
      let step := step_at sg i in
      if token (world st) then finish Failed executed_names [] (Some Cancelled) (Some Cancelled) started st
      else
        let st := emit (on_step_started (name step)) st in
        match invoke_with_policy (name step) (retry step) (execute step) (world st) with
        | (Err invoke_err, u) =>
            let st := mkRun u (events st) in
            let cause := unwrap_invoke_cause (lit "step failed") (retry step) invoke_err in
            let step_error := StepError (name step) cause in
            let st := emit (on_step_failed (name step) step_error (error_attempts invoke_err)) st in
            let '(steps_rolled, failure, st) := compensate executed st in
            let err :=
              match failure, policy sg with
              | Some c, StopOnError => CompensationError (name step) step_error c
              | _, _ => step_error
              end in
            finish Compensated executed_names steps_rolled (Some err) (Some step_error) started st
        | (Ok _, u) =>
            let st := emit (on_step_success (name step) 1) (mkRun u (events st)) in
            run_steps token started order' (executed ++ [i]) (executed_names ++ [name step]) st
        end
  end.

Definition run_inner (token : U -> bool) (u : U) : RunResult :=
  let started := utc_now u in
  let st := mkRun u [on_start] in
  match execution_order sg with
  | Err message => finish Failed [] [] (Some (Definition_ message)) (Some (Definition_ message)) started st
  | Ok order => run_steps token started order [] [] st
  end.

End Run.

(** * What a rollback does *)

Section Rollback.
Context {U E : Type} `{Runtime U E} `{JoinAll U E} (sg : Saga U E).

Implicit Types (st : RunState U E) (rs : list (nat * Result unit (BoxError E))).

(** The hook fired for the compensation of step [i]. *)
Definition report (ir : nat * Result unit (BoxError E)) : Event E :=
  on_step_compensated (name (step_at sg (fst ir))) (error_of (snd ir)).

(** The names of the compensations that succeeded and the first failure. *)
Definition rolled_names rs : list str :=
  omap (fun '(i, r) => match r with Ok _ => Some (name (step_at sg i)) | Err _ => None end) rs.

Fixpoint first_failure rs : option (BoxError E) :=
  match rs with
  | [] => None
  | (_, Err e) :: _ => Some e
  | (_, Ok _) :: rs' => first_failure rs'
  end.

Definition or_else {A} (a b : option A) : option A := match a with None => b | x => x end.

(** Consecutive failures at the end of the results. *)
Definition failures (c : nat) rs : nat := fold_left (fun c ir => if is_err (snd ir) then S c else 0%nat) rs c.

(** Whether the policy stops the rollback after these results. *)
Definition halts (c : nat) rs : bool :=
  match policy sg with
  | StopOnError => match last rs with Some (_, r) => is_err r | None => false end
  | CircuitBreaker => (CIRCUIT_BREAKER_THRESHOLD <=? failures c rs)%nat && match last rs with Some (_, r) => is_err r | None => false end
  | _ => false
  end.

(** The body the compensation of step [i] runs: under the retrying policy, the
    invocation under the step's retry policy. *)
Definition compensation_action (i : nat) : Action U E :=
  let step := step_at sg i in
  if bool_decide (policy sg = RetryWithBackoff) then
    fun u => let '(r, u) := invoke_with_policy (name step) (retry step) (compensation_of sg i) u in
             (map_err (unwrap_invoke_cause (lit "step failed") (retry step)) r, u)
  else compensation_of sg i.

(** A batch runs all its compensations, interleaved, to the given results. *)
Definition batch_run rs st st' : Prop :=
  rtc tasks_step (map (fun ir => Todo (name (step_at sg (fst ir))) (compensation_action (fst ir))) rs, st)
    (map (fun ir => Done (name (step_at sg (fst ir))) (snd ir)) rs, st').

Inductive batches_run : list (list (nat * Result unit (BoxError E))) -> RunState U E -> RunState U E -> Prop :=
| batches_nil st : batches_run [] st st
| batches_cons rs bs st st1 st2 : batch_run rs st st1 -> batches_run bs st1 st2 -> batches_run (rs :: bs) st st2.

Lemma run_compensation_spec i st :
  exists r st', run_compensation sg i st =
    (match r with Ok _ => Ok (name (step_at sg i)) | Err e => Err e end, st') /\ batch_run [(i, r)] st st'.
Proof.
  assert (run_compensation sg i st =
    let '(r, u) := compensation_action i (world st) in
    (match r with Ok _ => Ok (name (step_at sg i)) | Err e => Err e end, emit (report (i, r)) (mkRun u (events st)))) as ->.
  { unfold run_compensation, compensation_action, report. case_bool_decide; [|done].
    by destruct (invoke_with_policy _ _ _ _) as [r u]. }
  destruct (compensation_action i (world st)) as [r u] eqn:B. exists r, (emit (report (i, r)) (mkRun u (events st))).
  split; [done|]. unfold batch_run. cbn [map fst snd].
  eapply rtc_l; [eapply (tasks_pick [] _ _ []), task_run, B|]. apply rtc_once. eapply (tasks_pick [] _ _ []), task_report.
Qed.

Lemma failures_app c rs ir : failures c (rs ++ [ir]) = if is_err (snd ir) then S (failures c rs) else 0%nat.
Proof. unfold failures. by rewrite fold_left_app. Qed.

Lemma sequential_loop_spec order rolled err c st :
  (policy sg = StopOnError -> err = None) ->
  exists rs rest st',
    sequential_loop sg order rolled err c st = (rolled ++ rolled_names rs, or_else err (first_failure rs), st') /\
    order = map fst rs ++ rest /\
    batches_run (map (fun ir => [ir]) rs) st st' /\
    (rest <> [] -> halts c rs = true) /\
    (forall a b, rs = a ++ b -> b <> [] -> halts c a = false).
Proof.
  revert rolled err c st. induction order as [|i order IH]; intros rolled err c st S; cbn [sequential_loop].
  { exists [], [], st. unfold rolled_names. simpl. rewrite !app_nil_r. split_and!; try done.
    - by destruct err.
    - constructor.
    - intros [|] b Eq; [by destruct b|done]. }
  assert (halts c [] = false) as Hnil by (unfold halts; destruct (policy sg); try done; by rewrite andb_false_r).
  destruct (run_compensation_spec i st) as (r & st1 & -> & B). destruct r as [[]|e].
  - destruct (IH (rolled ++ [name (step_at sg i)]) err 0%nat st1 S)
      as (rs & rest & st' & -> & -> & Br & Ha & Nh).
    assert (forall x, x <> [] -> halts c ((i, Ok tt) :: x) = halts 0 x) as Hc by (by intros [|]).
    assert (halts c [(i, Ok tt)] = false) as Hone by (unfold halts; destruct (policy sg); try done; by rewrite andb_false_r).
    exists ((i, Ok tt) :: rs), rest, st'. split_and!.
    + unfold rolled_names. simpl. by rewrite <- app_assoc.
    + done.
    + by eapply batches_cons.
    + intros R. specialize (Ha R). destruct rs; [|by rewrite Hc]. 
      unfold halts in Ha |- *. destruct (policy sg); try done; by rewrite andb_false_r in Ha.
    + intros [|x a] b Eq Nb; [done|]. simpl in Eq. injection Eq as <- Eq.
      destruct a as [|y a]; [done|]. rewrite Hc by done. by eapply Nh.
  - case_bool_decide as P.
    { exists [(i, Err e)], order, st1. unfold rolled_names. simpl.
      rewrite (S P), app_nil_r. split_and!; try done.
      - eapply batches_cons; [exact B|constructor].
      - intros _. unfold halts. by rewrite P.
      - intros [|x a] b Eq Nb; [done|]. simpl in Eq. injection Eq as _ Eq. by destruct a, b. }
    assert (match err with None => Some e | e0 => e0 end = or_else err (Some e)) as -> by done.
    destruct (bool_decide (policy sg = CircuitBreaker) && _) eqn:Q.
    { apply andb_true_iff in Q as [Pc%bool_decide_eq_true Q].
      exists [(i, Err e)], order, st1. unfold rolled_names. simpl.
      rewrite app_nil_r. split_and!; try done.
      - eapply batches_cons; [exact B|constructor].
      - intros _. unfold halts. rewrite Pc. cbn [failures fold_left snd is_err is_ok negb last]. by rewrite Q.
      - intros [|x a] b Eq Nb; [done|]. simpl in Eq. injection Eq as _ Eq. by destruct a, b. }
    destruct (IH rolled (or_else err (Some e)) (Datatypes.S c) st1 ltac:(done))
      as (rs & rest & st' & -> & -> & Br & Ha & Nh).
    assert (forall x, x <> [] -> halts c ((i, Err e) :: x) = halts (Datatypes.S c) x) as Hc by (by intros [|]).
    assert (halts c [(i, Err e)] = false) as Hone.
    { unfold halts. destruct (policy sg); try done. cbn. rewrite andb_true_r.
      by rewrite bool_decide_eq_true_2 in Q. }
    exists ((i, Err e) :: rs), rest, st'. split_and!.
    + unfold rolled_names. simpl. by destruct err.
    + done.
    + by eapply batches_cons.
    + intros R. specialize (Ha R). destruct rs; [|by rewrite Hc].
      unfold halts in Ha |- *. destruct (policy sg); try done; by rewrite andb_false_r in Ha.
    + intros [|x a] b Eq Nb; [done|]. simpl in Eq. injection Eq as <- Eq.
      destruct a as [|y a]; [done|]. rewrite Hc by done. by eapply Nh.
Qed.

(** ** Concurrent batches *)

Definition task_event (t : Task U E) : option (Event E) :=
  match t with Done s r => Some (on_step_compensated s (error_of r)) | _ => None end.

(** Whatever the interleaving, each finished task has fired its hook once. *)
Lemma interleaving_events ts st ts' st' :
  rtc tasks_step (ts, st) (ts', st') -> omap task_event ts = [] ->
  exists evs, events st' = events st ++ evs /\ Permutation evs (omap task_event ts').
Proof.
  intros R Z. cut (forall z, rtc tasks_step (ts, st) z ->
    exists evs, events (snd z) = events st ++ evs /\ Permutation evs (omap task_event (fst z))).
  { intros G. exact (G _ R). }
  clear R ts' st'. apply rtc_ind_r.
  - exists []. rewrite app_nil_r. cbn [fst snd]. by rewrite Z.
  - intros [ty sy] z _ S (evs & Ev & P). cbn [fst snd] in *.
    inversion S as [l1 t t' l2 s1 s2 T]; subst. cbn [fst snd] in *.
    rewrite omap_app in P |- *. cbn [omap list_omap] in P |- *.
    inversion T as [step body s u B|step r s]; subst; cbn [task_event] in P |- *; simpl.
    + by exists evs.
    + exists (evs ++ [on_step_compensated step (error_of r)]). split; [by rewrite Ev, app_assoc|].
      rewrite <- Permutation_cons_append, P. apply Permutation_middle.
Qed.

Lemma batch_run_events rs st st' :
  batch_run rs st st' -> exists evs, events st' = events st ++ evs /\ Permutation evs (map report rs).
Proof.
  intros R. destruct (interleaving_events _ _ _ _ R) as (evs & Ev & P); [clear; by induction rs|].
  exists evs. split; [done|]. rewrite P. apply Permutation_refl'. clear. induction rs as [|ir rs IH]; simpl; [done|by f_equal].
Qed.

Lemma rolled_names_app rs1 rs2 : rolled_names (rs1 ++ rs2) = rolled_names rs1 ++ rolled_names rs2.
Proof. unfold rolled_names. by rewrite omap_app. Qed.

Lemma first_failure_app rs1 rs2 : first_failure (rs1 ++ rs2) = or_else (first_failure rs1) (first_failure rs2).
Proof. induction rs1 as [|[i [[]|e]] rs1 IH]; done. Qed.

Lemma collect_named batch (results : list (Result unit (BoxError E))) :
  collect_compensations (zip_with (fun i (r : Result unit (BoxError E)) =>
      match r with Ok _ => Ok (name (step_at sg i)) | Err e => Err e end) batch results) =
  (rolled_names (zip batch results), first_failure (zip batch results)).
Proof.
  revert results. induction batch as [|i batch IH]; intros [|r results]; try done. simpl.
  destruct r as [[]|e]; simpl; by rewrite IH.
Qed.

Lemma compensate_batch_spec batch st :
  policy sg <> RetryWithBackoff ->
  exists rs st',
    compensate_batch sg batch st = (rolled_names rs, first_failure rs, st') /\
    map fst rs = batch /\ batch_run rs st st'.
Proof.
  intros N. unfold compensate_batch. set (tasks := map _ batch).
  destruct (join_all_interleaves tasks st) as [R L].
  destruct (join_all tasks st) as [results st'] eqn:J. cbn [fst snd] in R, L.
  assert (List.length results = List.length batch) as Lb by (by rewrite L; unfold tasks; rewrite length_map).
  exists (zip batch results), st'. rewrite collect_named. split_and!; [done|rewrite fst_zip; [done|lia]|].
  unfold batch_run, tasks in *. rewrite map_map in R. cbn [fst] in R.
  assert (compensation_action = compensation_of sg) as ->
    by (unfold compensation_action; by rewrite bool_decide_eq_false_2).
  match goal with |- rtc _ (?ts, _) (?ds, _) => match type of R with rtc _ (?ts', _) (?ds', _) =>
    assert (ts = ts' /\ ds = ds') as [-> ->]; [|exact R] end end.
  clear -Lb. revert results Lb. induction batch as [|i batch IH]; intros [|r results] Lb; try done.
  simpl in *. destruct (IH results ltac:(lia)) as [E1 E2]. split; f_equal; [exact E1|exact E2].
Qed.

(** ** Groups *)

Definition one_group (batch : list nat) : Prop :=
  (exists i, batch = [i]) \/ exists g, Forall (fun i => group (step_at sg i) = Some g) batch.

Lemma span_group_spec g order batch rest :
  span_group sg g order = (batch, rest) -> order = batch ++ rest /\ Forall (fun i => group (step_at sg i) = g) batch.
Proof.
  revert batch. induction order as [|i order IH]; intros batch S; simpl in S; [by injection S as <- <-|].
  case_bool_decide as G; [|by injection S as <- <-].
  destruct (span_group sg g order) as [b r]. injection S as <- <-.
  destruct (IH b eq_refl) as [-> F]. split; [done|]. by constructor.
Qed.

Lemma next_batch_spec i order batch rest :
  next_batch sg i order = (batch, rest) -> i :: order = batch ++ rest /\ one_group batch /\ batch <> [].
Proof.
  unfold next_batch. destruct (group (step_at sg i)) as [g|] eqn:G.
  - destruct (span_group sg (Some g) order) as [b r] eqn:S. intros [= <- <-].
    destruct (span_group_spec _ _ _ _ S) as [-> F]. split_and!; [done| |done]. right. exists g. by constructor.
  - intros [= <- <-]. split_and!; [done| |done]. left. by exists i.
Qed.

(** The hooks of consecutive batches: in any order within a batch. *)
Definition batch_events (batches : list (list (nat * Result unit (BoxError E)))) (evs : list (Event E)) : Prop :=
  exists evss, evs = concat evss /\ Forall2 (fun b ev => Permutation ev (map report b)) batches evss.

Lemma batches_run_events batches st st' :
  batches_run batches st st' -> exists evs, events st' = events st ++ evs /\ batch_events batches evs.
Proof.
  induction 1 as [st|rs bs st st1 st2 R _ (evs & Ev & evss & -> & F)].
  - exists []. rewrite app_nil_r. split; [done|]. by exists [].
  - destruct (batch_run_events _ _ _ R) as (evs1 & Ev1 & P). exists (evs1 ++ concat evss).
    split; [by rewrite Ev, Ev1, app_assoc|]. exists (evs1 :: evss). split; [done|]. by constructor.
Qed.

Lemma grouped_loop_spec fuel order rolled err st :
  policy sg <> RetryWithBackoff -> (List.length order <= fuel)%nat ->
  exists batches st',
    grouped_loop sg fuel order rolled err st =
      (rolled ++ rolled_names (concat batches), or_else err (first_failure (concat batches)), st') /\
    map fst (concat batches) = order /\ batches_run batches st st' /\ Forall (fun b => one_group (map fst b)) batches.
Proof.
  intros Np. revert order rolled err st. induction fuel as [|fuel IH]; intros order rolled err st L.
  { destruct order; [|simpl in L; lia]. exists [], st. simpl. unfold rolled_names. simpl. rewrite !app_nil_r.
    split_and!; [by destruct err|done|constructor|constructor]. }
  destruct order as [|i order]; cbn [grouped_loop].
  { exists [], st. simpl. unfold rolled_names. simpl. rewrite !app_nil_r.
    split_and!; [by destruct err|done|constructor|constructor]. }
  destruct (next_batch sg i order) as [batch rest] eqn:N.
  destruct (next_batch_spec _ _ _ _ N) as (Eo & G & Ne).
  destruct (compensate_batch_spec batch st Np) as (rs & st1 & -> & Fr & R1).
  assert (List.length rest <= fuel)%nat as Lr.
  { apply (f_equal (@List.length nat)) in Eo. rewrite length_app in Eo. simpl in Eo, L. destruct batch; [done|]. simpl in Eo. lia. }
  destruct (IH rest (rolled ++ rolled_names rs) (or_else err (first_failure rs)) st1 Lr)
    as (batches & st' & Eq & Fb & R & Fg).
  change (match err with None => first_failure rs | e => e end) with (or_else err (first_failure rs)). rewrite Eq.
  exists (rs :: batches), st'. cbn [concat]. split_and!.
  - rewrite rolled_names_app, first_failure_app, <- app_assoc. by destruct err.
  - rewrite map_app, Fr, Fb. done.
  - by eapply batches_cons.
  - constructor; [by rewrite Fr|done].
Qed.

Lemma concat_singletons {A} (l : list A) : concat (map (fun x => [x]) l) = l.
Proof. induction l; simpl; congruence. Qed.

Definition sequential_policy : bool :=
  match policy sg with BestEffort | StopOnError | RetryWithBackoff | CircuitBreaker => true | _ => false end.

(** The state a rollback starts from. *)
Definition compensating (executed : list nat) (st : RunState U E) : RunState U E :=
  match executed with [] => st | _ => emit on_compensation_started st end.

(** The rollback of the executed steps, policy by policy. *)
Definition rollback_contract (executed : list nat) (st : RunState U E)
    (out : list str * option (BoxError E) * RunState U E) : Prop :=
  exists batches rest,
    let rs := concat batches in
    compensation_order sg executed = map fst rs ++ rest /\
    fst out = (rolled_names rs, first_failure rs) /\
    batches_run batches (compensating executed st) (snd out) /\
    (exists evs, events (snd out) = events (compensating executed st) ++ evs /\ batch_events batches evs) /\
    (rest <> [] -> halts 0 rs = true) /\
    (forall a b, rs = a ++ b -> b <> [] -> halts 0 a = false) /\
    (sequential_policy = true -> Forall (fun b => exists ir, b = [ir]) batches) /\
    (policy sg = BestEffortParallel -> List.length batches = 1%nat) /\
    (policy sg = GroupedParallel -> Forall (fun b => one_group (map fst b)) batches).

Lemma compensate_meets_contract executed st : rollback_contract executed st (compensate sg executed st).
Proof.
  unfold compensate. fold (compensating executed st). set (st0 := compensating executed st).
  assert (sequential_policy = true ->
    rollback_contract executed st (compensate_sequential sg (compensation_order sg executed) st0)) as Seq.
  { intros Sp. destruct (sequential_loop_spec (compensation_order sg executed) [] None 0 st0 ltac:(done))
      as (rs & rest & st' & Eq & O & R & Ha & Nh).
    exists (map (fun ir => [ir]) rs), rest. unfold compensate_sequential. rewrite Eq, concat_singletons.
    split_and!; try done.
    - by apply batches_run_events.
    - intros _. apply List.Forall_map, List.Forall_forall. intros ir _. by exists ir.
    - intros P. unfold sequential_policy in Sp. by rewrite P in Sp.
    - intros P. unfold sequential_policy in Sp. by rewrite P in Sp. }
  assert (forall rs, sequential_policy = false -> halts 0 rs = false) as Par
    by (intros rs; unfold sequential_policy, halts; by destruct (policy sg)).
  unfold sequential_policy in *.
  destruct (policy sg) eqn:P; try by apply Seq.
  - destruct (compensate_batch_spec (compensation_order sg executed) st0) as (rs & st' & -> & Fr & R); [by rewrite P|].
    assert (batches_run [rs] st0 st') as R1 by (eapply batches_cons; [exact R|constructor]).
    exists [rs], []. cbn [concat]. cbv zeta. rewrite !app_nil_r, Fr. split_and!; try done.
    + by apply batches_run_events.
    + intros a b _ _. by apply Par.
    + intros S. unfold sequential_policy in S. by rewrite P in S.
    + intros G. congruence.
  - unfold compensate_grouped.
    destruct (grouped_loop_spec _ (compensation_order sg executed) [] None st0 ltac:(by rewrite P) (le_n _))
      as (batches & st' & -> & Fb & R & Fg).
    exists batches, []. cbv zeta. rewrite app_nil_r, Fb. split_and!; try done.
    + by apply batches_run_events.
    + intros a b _ _. by apply Par.
    + intros S. unfold sequential_policy in S. by rewrite P in S.
    + intros G. congruence.
Qed.

End Rollback.

(** * Theorems *)

Section Theorems.
Context {U E : Type} `{Runtime U E} `{JoinAll U E} (sg : Saga U E).

(** The hooks of the steps that succeeded. *)
Definition forward_events (done : list nat) : list (Event E) :=
  flat_map (fun i => [on_step_started (name (step_at sg i)); on_step_success (name (step_at sg i)) 1]) done.

(** The steps [done] run in sequence and succeed, the token unset before each. *)
Inductive steps_run (token : U -> bool) : list nat -> U -> U -> Prop :=
| steps_nil u : steps_run token [] u u
| steps_cons i done u u1 u2 :
    token u = false ->
    invoke_with_policy (name (step_at sg i)) (retry (step_at sg i)) (execute (step_at sg i)) u = (Ok tt, u1) ->
    steps_run token done u1 u2 -> steps_run token (i :: done) u u2.

(** The error of a run whose step [i] failed with [source], after the rollback. *)
Definition final_error (i : nat) (source : BoxError E) (failure : option (BoxError E)) : SagaError E :=
  let step_error := StepError (name (step_at sg i)) source in
  match failure with
  | Some c => if bool_decide (policy sg = StopOnError)
              then CompensationError (name (step_at sg i)) step_error c else step_error
  | None => step_error
  end.

(** How a run over [order] from the world [u0] ends. *)
Inductive run_ends (token : U -> bool) (order : list nat) (log0 : list (Event E)) (u0 : U) : RunResult (U := U) (E := E) -> Prop :=
| ends_completed o u :
    steps_run token order u0 u ->
    status o = Completed -> steps_executed o = map (fun i => name (step_at sg i)) order -> steps_rolled o = [] ->
    error o = None ->
    run_ends token order log0 u0 (o, None, mkRun u (log0 ++ forward_events order ++ [on_completed true]))
| ends_cancelled done rest o u :
    order = done ++ rest -> rest <> [] -> steps_run token done u0 u -> token u = true ->
    status o = Failed -> steps_executed o = map (fun i => name (step_at sg i)) done -> steps_rolled o = [] ->
    error o = Some Cancelled ->
    run_ends token order log0 u0 (o, Some Cancelled, mkRun u (log0 ++ forward_events done ++ [on_completed false]))
| ends_compensated done i rest o u u' err out :
    let step := step_at sg i in
    let source := unwrap_invoke_cause (lit "step failed") (retry step) err in
    order = done ++ i :: rest -> steps_run token done u0 u -> token u = false ->
    invoke_with_policy (name step) (retry step) (execute step) u = (Err err, u') ->
    out = compensate sg done (mkRun u' (log0 ++ forward_events done ++
      [on_step_started (name step); on_step_failed (name step) (StepError (name step) source) (error_attempts err)])) ->
    status o = Compensated -> steps_executed o = map (fun i => name (step_at sg i)) done ->
    steps_rolled o = fst (fst out) -> error o = Some (StepError (name step) source) ->
    run_ends token order log0 u0
      (o, Some (final_error i source (snd (fst out))), emit (on_completed false) (snd out)).

Lemma steps_run_snoc token done i u u1 u2 :
  steps_run token done u u1 -> token u1 = false ->
  invoke_with_policy (name (step_at sg i)) (retry (step_at sg i)) (execute (step_at sg i)) u1 = (Ok tt, u2) ->
  steps_run token (done ++ [i]) u u2.
Proof. induction 1; intros T I; simpl; econstructor; eauto. constructor. Qed.

Lemma forward_events_snoc done i :
  forward_events (done ++ [i]) = forward_events done ++
    [on_step_started (name (step_at sg i)); on_step_success (name (step_at sg i)) 1].
Proof. unfold forward_events. rewrite flat_map_app. simpl. done. Qed.

Lemma run_steps_spec token started log0 u0 order executed st :
  steps_run token executed u0 (world st) ->
  events st = log0 ++ forward_events executed ->
  run_ends token (executed ++ order) log0 u0
    (run_steps sg token started order executed (map (fun i => name (step_at sg i)) executed) st).
Proof.
  revert executed st. induction order as [|i order IH]; intros executed st R Ev; cbn [run_steps].
  { rewrite app_nil_r. unfold finish, emit. cbn [world events]. rewrite Ev, <- app_assoc. by apply ends_completed. }
  destruct (token (world st)) eqn:T.
  { unfold finish, emit. cbn [world events]. rewrite Ev, <- app_assoc.
    by apply (ends_cancelled _ _ _ _ executed (i :: order)). }
  unfold emit at 1. cbn [world]. destruct (invoke_with_policy _ _ _ _) as [[[]|err] u] eqn:I.
  - unfold emit. cbn [world events]. rewrite Ev, <- !app_assoc. cbn [app].
    replace (executed ++ i :: order) with ((executed ++ [i]) ++ order) by (by rewrite <- app_assoc).
    replace (map (fun i => name (step_at sg i)) executed ++ [name (step_at sg i)])
      with (map (fun i => name (step_at sg i)) (executed ++ [i])) by (by rewrite map_app).
    apply IH; cbn [events world]; [by eapply steps_run_snoc|by rewrite forward_events_snoc].
  - unfold emit at 1 2. cbn [world events]. rewrite Ev, <- !app_assoc. cbn [app].
    set (source := unwrap_invoke_cause _ _ err).
    destruct (compensate sg executed _) as [[rolled failure] st'] eqn:C. unfold finish. cbn [fst snd].
    assert (match failure, policy sg with
            | Some c, StopOnError => CompensationError (name (step_at sg i)) (StepError (name (step_at sg i)) source) c
            | _, _ => StepError (name (step_at sg i)) source end = final_error i source failure) as ->.
    { unfold final_error. destruct failure; [|done]. by destruct (policy sg). }
    by apply (ends_compensated token (executed ++ i :: order) log0 u0 executed i order _ (world st) u err (rolled, failure, st')).
Qed.

(** C1 A saga run: an invalid definition fails before any step runs;
    otherwise the steps run in execution order, each from the world the one
    before left, and the run ends in one of three ways: all succeeded and the
    saga is completed; the token was cancelled before a step, and nothing is
    compensated; or a step failed, and exactly the steps executed before it
    are handed to the rollback, whose failure becomes the run's error under
    stop-on-error only. The hooks fired are exactly those of what happened. *)
Theorem saga_run token u :
  match execution_order sg with
  | Ok order => run_ends token order [on_start] u (run_inner sg token u)
  | Err m => exists o, run_inner sg token u = (o, Some (Definition_ m), mkRun u [on_start; on_completed false]) /\
      status o = Failed /\ steps_executed o = [] /\ steps_rolled o = [] /\ error o = Some (Definition_ m)
  end.
Proof.
  unfold run_inner. destruct (execution_order sg) as [order|m].
  - apply (run_steps_spec token _ [on_start] u order []); [constructor|by rewrite app_nil_r].
  - eexists. unfold finish, emit. simpl. by split_and!.
Qed.

(** C2 The rollback: the compensations of the executed steps run in reverse
    order of execution, each at most once and each reported to the listener
    exactly once - one at a time under the sequential policies (through the
    step's retry policy under the retrying one), in one concurrent batch or in
    batches of one group label under the parallel ones, whatever the
    interleaving inside a batch; the rolled names are those that succeeded and
    the error is the first failure. None is left out, except that
    stop-on-error stops at the first failure and the circuit breaker at the
    first point with three consecutive failures. *)
Theorem saga_rollback executed st :
  exists batches rest,
    let rs := concat batches in
    let '(rolled, err, st') := compensate sg executed st in
    List.filter (has_compensation sg) (rev executed) = map fst rs ++ rest /\
    (rolled, err) = (rolled_names sg rs, first_failure rs) /\
    batches_run sg batches (compensating executed st) st' /\
    (exists evs, events st' = events (compensating executed st) ++ evs /\ batch_events sg batches evs) /\
    (rest <> [] -> halts sg 0 rs = true) /\
    (forall a b, rs = a ++ b -> b <> [] -> halts sg 0 a = false) /\
    (sequential_policy sg = true -> Forall (fun b => exists ir, b = [ir]) batches) /\
    (policy sg = BestEffortParallel -> List.length batches = 1%nat) /\
    (policy sg = GroupedParallel -> Forall (fun b => one_group sg (map fst b)) batches).
Proof.
  destruct (compensate_meets_contract sg executed st) as (batches & rest & C). exists batches, rest.
  by destruct (compensate sg executed st) as [[rolled err] st'].
Qed.

End Theorems.

(** * An executor and a run *)

(** Runs the futures one after the other: one admissible interleaving. *)
Fixpoint in_order {U E} (tasks : list (str * Action U E)) (st : RunState U E)
  : list (Result unit (BoxError E)) * RunState U E :=
  match tasks with
  | [] => ([], st)
  | (s, body) :: tasks' =>
      let '(r, u) := body (world st) in
      let '(rs, st') := in_order tasks' (emit (on_step_compensated s (error_of r)) (mkRun u (events st))) in
      (r :: rs, st')
  end.

Lemma in_order_interleaves {U E} (tasks : list (str * Action U E)) st (before : list (Task U E)) :
  rtc tasks_step (before ++ map (fun '(s, b) => Todo s b) tasks, st)
    (before ++ zip_with Done (map fst tasks) (fst (in_order tasks st)), snd (in_order tasks st)) /\
  List.length (fst (in_order tasks st)) = List.length tasks.
Proof.
  revert st before. induction tasks as [|[s body] tasks IH]; intros st before; [done|]. cbn [in_order map].
  destruct (body (world st)) as [r u] eqn:B.
  destruct (IH (emit (on_step_compensated s (error_of r)) (mkRun u (events st))) (before ++ [Done s r])) as [R L].
  destruct (in_order tasks _) as [rs st']. cbn [fst snd zip_with List.length] in *.
  split; [|by rewrite L]. rewrite <- !app_assoc in R. cbn [app] in R.
  eapply rtc_l; [apply tasks_pick, task_run, B|]. eapply rtc_l; [apply tasks_pick, task_report|]. exact R.
Qed.

#[export] Instance in_order_join {U E} : JoinAll U E :=
  {| join_all := in_order;
     join_all_interleaves := fun tasks st => in_order_interleaves tasks st [] |}.

(** Worlds that record the bodies run; no timeouts. *)
#[local] Instance log_runtime : Runtime (list Z) unit :=
  {| timeout _ action u := let '(r, u) := action u in (Some r, u);
     sleep _ u := u; subsec_nanos _ := 0; utc_now u := Z.of_nat (List.length u) |}.

Definition body (n : Z) (ok : bool) : Action (list Z) unit :=
  fun log => (if ok then Ok tt else Err (BoxUser tt), log ++ [n]).

Definition demo_saga (p : CompensationPolicy) : Saga (list Z) unit :=
  mkSaga (lit "order")
    [with_compensation (step_new (lit "reserve") (body 1 true)) (body (-1) true);
     step_new (lit "audit") (body 2 true);
     with_compensation (step_new (lit "charge") (body 3 true)) (body (-3) false);
     step_new (lit "ship") (body 4 false)] p.

Example best_effort_run :
  let '(o, err, st) := run_inner (demo_saga BestEffort) (fun _ => false) [] in
  world st = [1; 2; 3; 4; -3; -1] /\ status o = Compensated /\ steps_rolled o = [lit "reserve"] /\
  err = Some (StepError (lit "ship") (BoxUser tt)).
Proof. vm_compute. auto. Qed.

Example stop_on_error_run :
  let '(o, err, st) := run_inner (demo_saga StopOnError) (fun _ => false) [] in
  world st = [1; 2; 3; 4; -3] /\ steps_rolled o = [] /\
  err = Some (CompensationError (lit "ship") (StepError (lit "ship") (BoxUser tt)) (BoxUser tt)).
Proof. vm_compute. auto. Qed.

Lemma saga_run_witness :
  let run := run_inner (demo_saga StopOnError) (fun _ => false) [] in
  run_ends (demo_saga StopOnError) (fun _ => false) [0; 1; 2; 3]%nat [on_start] [] run /\
  world (snd run) = [1; 2; 3; 4; -3].
Proof. split; [exact (saga_run (demo_saga StopOnError) (fun _ => false) [])|vm_compute; reflexivity]. Defined.

Lemma saga_rollback_witness :
  exists batches,
    map fst (concat batches) = [2; 0]%nat /\
    batches_run (demo_saga BestEffort) batches (mkRun [] [on_compensation_started]) (mkRun [-3; -1]
      [on_compensation_started; on_step_compensated (lit "charge") (Some (BoxUser tt));
       on_step_compensated (lit "reserve") None]).
Proof.
  destruct (saga_rollback (demo_saga BestEffort) [0; 1; 2]%nat (mkRun [] [])) as (batches & rest & F & _ & R & _ & Ha & _).
  exists batches. split; [|exact R].
  destruct rest as [|i rest]; [rewrite app_nil_r in F; symmetry; exact F|]. by specialize (Ha ltac:(done)).
Defined.
