(* ===== verification/Tcc.v ===== *)
(** The Try-Confirm-Cancel engine: [crates/orchestration/src/tcc.rs].

    The try phase runs the participants in order; a failing try cancels the
    tried ones in reverse, otherwise every participant is confirmed. The run
    threads the user's world and the log of the listener hooks, as the saga
    engine's model does; a failed confirm does not stop the phase. *)
From Stdlib Require Import Ascii String.
From Stdlib Require Import ZArith NArith List Lia.
From stdpp Require Import base decidable list.
From S2P Require Import Prelude Str StepInvoker.

Inductive TccPhase : Type := Try | Confirm | Cancel.

Record TccParticipant (U E : Type) : Type := mkParticipant {
  participant_name : str;
  try_action : Action U E;
  confirm_action : Action U E;
  cancel_action : option (Action U E);
  participant_retry : RetryPolicy
}.
Arguments mkParticipant {U E}.
Arguments participant_name {U E} _.
Arguments try_action {U E} _.
Arguments confirm_action {U E} _.
Arguments cancel_action {U E} _.
Arguments participant_retry {U E} _.

Record Tcc (U E : Type) : Type := mkTcc { tcc_name : str; participants : list (TccParticipant U E) }.
Arguments mkTcc {U E}.
Arguments tcc_name {U E} _.
Arguments participants {U E} _.

Inductive TccError (E : Type) : Type :=
| TryError (tcc : str) (participant : str) (source : BoxError E)
| ConfirmErrors (failures : list (str * BoxError E)).
Arguments TryError {E} tcc participant source.
Arguments ConfirmErrors {E} failures.

Module TccEvent.
Inductive t (E : Type) : Type :=
| on_start
| on_phase_started (phase : TccPhase)
| on_phase_completed (phase : TccPhase)
| on_phase_failed (phase : TccPhase) (messages : list (str * BoxError E))
| on_participant_started (phase : TccPhase) (participant : str)
| on_participant_success (phase : TccPhase) (participant : str)
| on_participant_failed (phase : TccPhase) (participant : str) (error : BoxError E)
| on_completed (success : bool).
Arguments on_start {E}.
Arguments on_phase_started {E} phase.
Arguments on_phase_completed {E} phase.
Arguments on_phase_failed {E} phase messages.
Arguments on_participant_started {E} phase participant.
Arguments on_participant_success {E} phase participant.
Arguments on_participant_failed {E} phase participant error.
Arguments on_completed {E} success.
End TccEvent.
Import TccEvent.

Section Tcc.
Context {U E : Type} `{Runtime U E}.
Implicit Types (p : TccParticipant U E).

Definition participant_new (n : str) (try confirm : Action U E) : TccParticipant U E :=
  mkParticipant n try confirm None RetryPolicy_default.
Definition with_cancel p (c : Action U E) : TccParticipant U E :=
  mkParticipant (participant_name p) (try_action p) (confirm_action p) (Some c) (participant_retry p).
Definition with_retry p (r : RetryPolicy) : TccParticipant U E :=
  mkParticipant (participant_name p) (try_action p) (confirm_action p) (cancel_action p) r.
Definition tcc_new (n : str) : Tcc U E := mkTcc n [].
Definition add_participant (t : Tcc U E) p : Tcc U E := mkTcc (tcc_name t) (participants t ++ [p]).

(** The user's world and the hooks fired so far. *)
Definition TccState : Type := U * list (TccEvent.t E).
Definition emit (st : TccState) (e : TccEvent.t E) : TccState := (fst st, snd st ++ [e]).

(** One phase of one participant, with its hooks. *)
Definition run_phase (phase : TccPhase) p (action : Action U E) (st : TccState)
  : option (BoxError E) * TccState :=
  let st := emit st (on_participant_started phase (participant_name p)) in
  match invoke_with_policy (participant_name p) (participant_retry p) action (fst st) with
  | (Err invoke_err, u) =>
      let source := unwrap_invoke_cause (lit "participant failed") (participant_retry p) invoke_err in
      (Some source, emit (u, snd st) (on_participant_failed phase (participant_name p) source))
  | (Ok _, u) => (None, emit (u, snd st) (on_participant_success phase (participant_name p)))
  end.

(** The loop of [cancel_tried] over the tried participants, reversed. *)
Fixpoint cancel_loop (tried : list (TccParticipant U E)) (st : TccState) : TccState :=
  match tried with
  | [] => st
  | p :: tried' =>
      match cancel_action p with
      | None => cancel_loop tried' st
      | Some cancel =>
          let st := emit st (on_participant_started Cancel (participant_name p)) in
          match cancel (fst st) with
          | (Ok _, u) => cancel_loop tried' (emit (u, snd st) (on_participant_success Cancel (participant_name p)))
          | (Err err, u) => cancel_loop tried' (emit (u, snd st) (on_participant_failed Cancel (participant_name p) err))
          end
      end
  end.

Definition cancel_tried (tried : list (TccParticipant U E)) (st : TccState) : TccState :=
  let st := match tried with [] => st | _ => emit st (on_phase_started Cancel) end in
  cancel_loop (rev tried) st.

(** The confirm phase: every participant, failures collected. *)
Fixpoint confirm_loop (ps : list (TccParticipant U E)) (failures : list (str * BoxError E)) (st : TccState)
  : list (str * BoxError E) * TccState :=
  match ps with
  | [] => (failures, st)
  | p :: ps' =>
      match run_phase Confirm p (confirm_action p) st with
      | (Some source, st) => confirm_loop ps' (failures ++ [(participant_name p, source)]) st
      | (None, st) => confirm_loop ps' failures st
      end
  end.

Definition confirm_phase (tried : list (TccParticipant U E)) (st : TccState) : Result unit (TccError E) * TccState :=
  let '(failures, st) := confirm_loop tried [] (emit st (on_phase_started Confirm)) in
  match failures with
  | [] => (Ok tt, emit (emit st (on_phase_completed Confirm)) (on_completed true))
  | _ => (Err (ConfirmErrors failures), emit (emit st (on_phase_failed Confirm failures)) (on_completed false))
  end.

Fixpoint try_loop (tcc : str) (ps tried : list (TccParticipant U E)) (st : TccState)
  : Result unit (TccError E) * TccState :=
  match ps with
  | [] => confirm_phase tried (emit st (on_phase_completed Try))
  | p :: ps' =>
      match run_phase Try p (try_action p) st with
      | (Some source, st) =>
          let st := emit st (on_phase_failed Try [(participant_name p, source)]) in
          let st := cancel_tried tried st in
          (Err (TryError tcc (participant_name p) source), emit st (on_completed false))
      | (None, st) => try_loop tcc ps' (tried ++ [p]) st
      end
  end.

Definition run_inner (t : Tcc U E) (u : U) : Result unit (TccError E) * TccState :=
  try_loop (tcc_name t) (participants t) [] (emit (emit (u, []) on_start) (on_phase_started Try)).

(** * Theorems *)

(** Right-nested concatenations, literal lists unfolded. *)
Ltac norm_app := repeat (rewrite <- !app_assoc; cbn [app]); cbn [app].
Ltac norm_app_in D := repeat (rewrite <- !app_assoc in D; cbn [app] in D); cbn [app] in D.

(** The hooks of one participant's phase and its failure. *)
Definition phase_events (phase : TccPhase) p (failure : option (BoxError E)) : list (TccEvent.t E) :=
  [on_participant_started phase (participant_name p);
   match failure with
   | None => on_participant_success phase (participant_name p)
   | Some e => on_participant_failed phase (participant_name p) e
   end].

Definition phases_events (phase : TccPhase) (rs : list (TccParticipant U E * option (BoxError E))) : list (TccEvent.t E) :=
  flat_map (fun '(p, r) => phase_events phase p r) rs.

Definition has_cancel p : bool := match cancel_action p with Some _ => true | None => false end.

Definition failed_of (rs : list (TccParticipant U E * option (BoxError E))) : list (str * BoxError E) :=
  omap (fun '(p, r) => (fun e => (participant_name p, e)) <$> r) rs.

(** One participant's phase on the world: tries and confirms go through the
    participant's retry policy, a cancel is run once. *)
Definition phase_run (phase : TccPhase) p (u : U) : option (BoxError E) * U :=
  let invoke action :=
    let '(r, u) := invoke_with_policy (participant_name p) (participant_retry p) action u in
    (match r with
     | Ok _ => None
     | Err e => Some (unwrap_invoke_cause (lit "participant failed") (participant_retry p) e)
     end, u) in
  match phase with
  | Try => invoke (try_action p)
  | Confirm => invoke (confirm_action p)
  | Cancel =>
      match cancel_action p with
      | None => (None, u)
      | Some cancel => let '(r, u) := cancel u in (match r with Ok _ => None | Err e => Some e end, u)
      end
  end.

(** The participants' phases in sequence, with their results. *)
Inductive phases_run (phase : TccPhase) : list (TccParticipant U E * option (BoxError E)) -> U -> U -> Prop :=
| phases_nil u : phases_run phase [] u u
| phases_cons p r rs u u1 u2 :
    phase_run phase p u = (r, u1) -> phases_run phase rs u1 u2 -> phases_run phase ((p, r) :: rs) u u2.

Lemma phases_run_snoc phase rs p r u u1 u2 :
  phases_run phase rs u u1 -> phase_run phase p u1 = (r, u2) -> phases_run phase (rs ++ [(p, r)]) u u2.
Proof. induction 1; intros P; simpl; econstructor; eauto. constructor. Qed.

Lemma run_phase_spec phase p action st :
  phase = Try /\ action = try_action p \/ phase = Confirm /\ action = confirm_action p ->
  exists r u, run_phase phase p action st = (r, (u, snd st ++ phase_events phase p r)) /\
    phase_run phase p (fst st) = (r, u).
Proof.
  intros K. unfold run_phase, phase_run, emit, phase_events. cbn [fst snd].
  destruct K as [[-> ->]|[-> ->]]; destruct (invoke_with_policy _ _ _ _) as [[[]|e] u];
    first [exists None, u; by rewrite <- app_assoc | eexists (Some _), u; by rewrite <- app_assoc].
Qed.

Lemma cancel_loop_spec tried st :
  exists rs, map fst rs = List.filter has_cancel tried /\
    snd (cancel_loop tried st) = snd st ++ phases_events Cancel rs /\
    phases_run Cancel rs (fst st) (fst (cancel_loop tried st)).
Proof.
  revert st. induction tried as [|p tried IH]; intros st; cbn [cancel_loop].
  { exists []. simpl. rewrite app_nil_r. split_and!; [done..|constructor]. }
  cbn [List.filter]. unfold has_cancel at 1.
  destruct (cancel_action p) as [cancel|] eqn:C; [|apply IH]. unfold emit. cbn [fst snd].
  destruct (cancel (fst st)) as [[[]|e] u] eqn:R.
  - destruct (IH (u, (snd st ++ [on_participant_started Cancel (participant_name p)]) ++
      [on_participant_success Cancel (participant_name p)])) as (rs & F & Ev & Ru).
    exists ((p, None) :: rs). split_and!; [by rewrite <- F|rewrite Ev; simpl; by rewrite <- !app_assoc|].
    eapply phases_cons; [|exact Ru]. simpl. by rewrite C, R.
  - destruct (IH (u, (snd st ++ [on_participant_started Cancel (participant_name p)]) ++
      [on_participant_failed Cancel (participant_name p) e])) as (rs & F & Ev & Ru).
    exists ((p, Some e) :: rs). split_and!; [by rewrite <- F|rewrite Ev; simpl; by rewrite <- !app_assoc|].
    eapply phases_cons; [|exact Ru]. simpl. by rewrite C, R.
Qed.

Lemma confirm_loop_spec ps failures st :
  exists rs, map fst rs = ps /\
    fst (confirm_loop ps failures st) = failures ++ failed_of rs /\
    snd (snd (confirm_loop ps failures st)) = snd st ++ phases_events Confirm rs /\
    phases_run Confirm rs (fst st) (fst (snd (confirm_loop ps failures st))).
Proof.
  revert failures st. induction ps as [|p ps IH]; intros failures st; cbn [confirm_loop].
  { exists []. simpl. rewrite !app_nil_r. split_and!; [done..|constructor]. }
  destruct (run_phase_spec Confirm p (confirm_action p) st ltac:(auto)) as (r & u & -> & P).
  set (st1 := (u, snd st ++ phase_events Confirm p r)).
  assert (match r with
          | Some source => confirm_loop ps (failures ++ [(participant_name p, source)]) st1
          | None => confirm_loop ps failures st1
          end = confirm_loop ps (failures ++ failed_of [(p, r)]) st1) as ->
    by (destruct r; simpl; by rewrite ?app_nil_r).
  destruct (IH (failures ++ failed_of [(p, r)]) st1) as (rs & <- & Fa & Ev & Ru).
  exists ((p, r) :: rs). rewrite Fa, Ev. unfold st1. cbn [fst snd]. split_and!; [done| | |].
  - unfold failed_of. by rewrite <- app_assoc, <- omap_app.
  - by rewrite <- app_assoc.
  - by eapply phases_cons.
Qed.

Definition all_ok (ps : list (TccParticipant U E)) : list (TccParticipant U E * option (BoxError E)) :=
  map (fun p => (p, None)) ps.

(** How a run from the world [u0] ends, with the hooks it has fired. *)
Inductive tcc_ends (t : Tcc U E) (u0 : U) : Result unit (TccError E) * TccState -> Prop :=
| ends_confirmed rs u1 u2 :
    phases_run Try (all_ok (participants t)) u0 u1 -> phases_run Confirm rs u1 u2 ->
    map fst rs = participants t -> failed_of rs = [] ->
    tcc_ends t u0 (Ok tt, (u2,
      [on_start; on_phase_started Try] ++ phases_events Try (all_ok (participants t)) ++
      [on_phase_completed Try; on_phase_started Confirm] ++ phases_events Confirm rs ++
      [on_phase_completed Confirm; on_completed true]))
| ends_confirm_failed rs u1 u2 :
    phases_run Try (all_ok (participants t)) u0 u1 -> phases_run Confirm rs u1 u2 ->
    map fst rs = participants t -> failed_of rs <> [] ->
    tcc_ends t u0 (Err (ConfirmErrors (failed_of rs)), (u2,
      [on_start; on_phase_started Try] ++ phases_events Try (all_ok (participants t)) ++
      [on_phase_completed Try; on_phase_started Confirm] ++ phases_events Confirm rs ++
      [on_phase_failed Confirm (failed_of rs); on_completed false]))
| ends_cancelled tried p rest e rs u1 u2 :
    participants t = tried ++ p :: rest -> phases_run Try (all_ok tried ++ [(p, Some e)]) u0 u1 ->
    map fst rs = List.filter has_cancel (rev tried) -> phases_run Cancel rs u1 u2 ->
    tcc_ends t u0 (Err (TryError (tcc_name t) (participant_name p) e), (u2,
      [on_start; on_phase_started Try] ++ phases_events Try (all_ok tried) ++
      phase_events Try p (Some e) ++ [on_phase_failed Try [(participant_name p, e)]] ++
      match tried with [] => [] | _ => [on_phase_started Cancel] end ++ phases_events Cancel rs ++
      [on_completed false])).

Lemma confirm_phase_spec t u0 st :
  phases_run Try (all_ok (participants t)) u0 (fst st) ->
  snd st = [on_start; on_phase_started Try] ++ phases_events Try (all_ok (participants t)) ++ [on_phase_completed Try] ->
  tcc_ends t u0 (confirm_phase (participants t) st).
Proof.
  intros Rt Es. unfold confirm_phase.
  destruct (confirm_loop_spec (participants t) [] (emit st (on_phase_started Confirm))) as (rs & M & Fa & Ec & Rc).
  destruct (confirm_loop _ [] _) as [failures [u evs]]. unfold emit in *. cbn [fst snd app] in *. subst failures evs.
  rewrite Es. destruct (failed_of rs) as [|f fs] eqn:Ef.
  - pose proof (ends_confirmed t u0 rs _ u Rt Rc M Ef) as D. norm_app_in D. norm_app. exact D.
  - pose proof (ends_confirm_failed t u0 rs _ u Rt Rc M ltac:(by rewrite Ef)) as D. rewrite Ef in D.
    norm_app_in D. norm_app. exact D.
Qed.

Lemma cancel_tried_spec tried st :
  exists rs, map fst rs = List.filter has_cancel (rev tried) /\
    snd (cancel_tried tried st) =
      snd st ++ match tried with [] => [] | _ => [on_phase_started Cancel] end ++ phases_events Cancel rs /\
    phases_run Cancel rs (fst st) (fst (cancel_tried tried st)).
Proof.
  unfold cancel_tried. set (st2 := match tried with [] => st | _ => emit st (on_phase_started Cancel) end).
  destruct (cancel_loop_spec (rev tried) st2) as (rs & M & Ev & R). exists rs. split_and!; [done| |].
  - rewrite Ev. unfold st2, emit. destruct tried; [done|]. cbn [snd]. by rewrite <- app_assoc.
  - unfold st2, emit in R |- *. by destruct tried.
Qed.

Lemma try_loop_spec t u0 ps tried st :
  participants t = tried ++ ps -> phases_run Try (all_ok tried) u0 (fst st) ->
  snd st = [on_start; on_phase_started Try] ++ phases_events Try (all_ok tried) ->
  tcc_ends t u0 (try_loop (tcc_name t) ps tried st).
Proof.
  revert tried st. induction ps as [|p ps IH]; intros tried st P Rt Ev; cbn [try_loop].
  - rewrite app_nil_r in P. subst tried. apply confirm_phase_spec; [exact Rt|].
    unfold emit. cbn [snd]. by rewrite Ev, <- app_assoc.
  - destruct (run_phase_spec Try p (try_action p) st ltac:(auto)) as (r & u & -> & R).
    pose proof (phases_run_snoc _ _ _ _ _ _ _ Rt R) as Rt1. destruct r as [e|].
    + destruct (cancel_tried_spec tried (emit (u, snd st ++ phase_events Try p (Some e))
        (on_phase_failed Try [(participant_name p, e)]))) as (rs & M & Ec & Rc).
      unfold emit in *. destruct (cancel_tried tried _) as [u2 evs]. cbn [fst snd] in *. subst evs. rewrite Ev.
      pose proof (ends_cancelled t u0 tried p ps e rs u u2 P Rt1 M Rc) as D.
      norm_app_in D. norm_app. exact D.
    + apply IH; [by rewrite <- app_assoc| |].
      * unfold all_ok in *. by rewrite map_app.
      * cbn [snd]. rewrite Ev. unfold phases_events, all_ok. rewrite map_app, flat_map_app. simpl. by rewrite <- ?app_assoc.
Qed.

(** C4 A TCC run: tries run in order, each from the world the one before
    left; if all succeed every participant is confirmed in order, failed
    confirms being collected without stopping the phase, and the run succeeds
    exactly when none failed; if a try fails, the participants tried before
    it, and no other, are cancelled in reverse order when they have a cancel
    action, nothing is confirmed, and the error is the try's whatever the
    cancellations do. The hooks fired are exactly those of what happened. *)
Theorem tcc_run t u : tcc_ends t u (run_inner t u).
Proof. by apply (try_loop_spec t u (participants t) []); [|constructor|]. Qed.

End Tcc.

(** A world that records the bodies run; no timeouts. *)
#[local] Instance tcc_runtime : Runtime (list Z) unit :=
  {| timeout _ action u := let '(r, u) := action u in (Some r, u);
     sleep _ u := u; subsec_nanos _ := 0; utc_now u := Z.of_nat (List.length u) |}.

Definition demo_participant (n : Z) (try_ok confirm_ok : bool) : TccParticipant (list Z) unit :=
  let act k (ok : bool) : Action (list Z) unit := fun log => (if ok then Ok tt else Err (BoxUser tt), log ++ [k]) in
  with_cancel (participant_new (lit "p") (act n try_ok) (act (10 * n) confirm_ok)) (act (- n) false).

Lemma tcc_run_witness :
  let t := mkTcc (lit "book") [demo_participant 1 true true; demo_participant 2 true true; demo_participant 3 false true] in
  tcc_ends t [] (run_inner t []) /\ fst (snd (run_inner t [])) = [1; 2; 3; -2; -1].
Proof. intros t. split; [exact (tcc_run t [])|vm_compute; reflexivity]. Defined.
