(* ===== verification/Workflow.v ===== *)
(** The workflow engine: [crates/orchestration/src/workflow.rs].

    Nodes run in waves, each wave the nodes whose dependencies are done; within
    a wave they run concurrently, a failing one keeps the others from starting,
    and a failed wave rolls back the completed nodes in reverse order of
    completion. Fire-and-forget nodes are spawned and count as done at once.

    The run threads the user's world (node bodies, the shared step context and
    the cancellation token), the log of the listener hooks, and the state the
    engine shares between the futures of a wave. The tasks of a wave and the
    spawned ones take turns in any way: tokio and [join_all] are the class
    [Scheduler], whose laws say that what they do is an interleaving. *)
From Stdlib Require Import Ascii String.
From Stdlib Require Import ZArith NArith List Lia Sorting.Permutation.
From stdpp Require Import base decidable list gmap relations.
From S2P Require Import Prelude Str Unicode Json StepContext Condition StepInvoker SagaOrder.

(** * Data *)

Record Node (U E : Type) : Type := mkNode {
  node_name : str;
  node_depends_on : list str;
  body : Action U E;
  node_compensate : option (Action U E);
  condition : option str;
  fire_and_forget : bool
}.
Arguments mkNode {U E}.
Arguments node_name {U E} _.
Arguments node_depends_on {U E} _.
Arguments body {U E} _.
Arguments node_compensate {U E} _.
Arguments condition {U E} _.
Arguments fire_and_forget {U E} _.

Inductive WorkflowError (E : Type) : Type :=
| DuplicateNode (node : str)
| UnknownNode (node dependency : str)
| NoProgress
| NodeError (node : str) (source : BoxError E)
| RunCancelled
| Multiple (errors : list (WorkflowError E)).
Arguments DuplicateNode {E} node.
Arguments UnknownNode {E} node dependency.
Arguments NoProgress {E}.
Arguments NodeError {E} node source.
Arguments RunCancelled {E}.
Arguments Multiple {E} errors.

(** [WorkflowError::join]. *)
Definition join_errors {E} (errors : list (WorkflowError E)) : WorkflowError E :=
  match errors with [e] => e | _ => Multiple errors end.

Record Workflow (U E : Type) : Type := mkWorkflow {
  workflow_name : str;
  nodes : list (Node U E);
  workflow_policy : CompensationPolicy
}.
Arguments mkWorkflow {U E}.
Arguments workflow_name {U E} _.
Arguments nodes {U E} _.
Arguments workflow_policy {U E} _.

(** The listener hooks a workflow fires; durations and the correlation id are
    left out, an error stands for its text. *)
Module WorkflowEvent.
Inductive t (E : Type) : Type :=
| on_start
| on_completed (success : bool)
| on_step_started (node : str)
| on_step_success (node : str) (attempts : Z)
| on_step_failed (node : str) (error : BoxError E) (attempts : Z)
| on_step_skipped (node : str)
| on_compensation_started
| on_step_compensated (node : str) (error : option (BoxError E)).
Arguments on_start {E}.
Arguments on_completed {E} success.
Arguments on_step_started {E} node.
Arguments on_step_success {E} node attempts.
Arguments on_step_failed {E} node error attempts.
Arguments on_step_skipped {E} node.
Arguments on_compensation_started {E}.
Arguments on_step_compensated {E} node error.
End WorkflowEvent.
Import WorkflowEvent.

(** * Construction *)

Section Build.
Context {U E : Type}.
Implicit Types n : Node U E.

Definition node_new (nm : str) (run : Action U E) : Node U E := mkNode nm [] run None None false.
Definition node_depends n (deps : list str) : Node U E :=
  mkNode (node_name n) (node_depends_on n ++ deps) (body n) (node_compensate n) (condition n) (fire_and_forget n).
Definition node_with_compensation n (c : Action U E) : Node U E :=
  mkNode (node_name n) (node_depends_on n) (body n) (Some c) (condition n) (fire_and_forget n).
Definition when n (c : str) : Node U E :=
  mkNode (node_name n) (node_depends_on n) (body n) (node_compensate n) (Some c) (fire_and_forget n).
Definition node_fire_and_forget n : Node U E :=
  mkNode (node_name n) (node_depends_on n) (body n) (node_compensate n) (condition n) true.

Definition is_compensatable n : bool := match node_compensate n with Some _ => true | None => false end.

Definition workflow_new (nm : str) : Workflow U E := mkWorkflow nm [] BestEffort.
Definition add_node (w : Workflow U E) n : Workflow U E :=
  mkWorkflow (workflow_name w) (nodes w ++ [n]) (workflow_policy w).
Definition set_workflow_policy (w : Workflow U E) (p : CompensationPolicy) : Workflow U E :=
  mkWorkflow (workflow_name w) (nodes w) p.

End Build.

(** * The state of a run *)

(** The internal token, the completed nodes in order of completion, and the
    spawned tasks: the bodies of those that have not run. *)
Record WfState (U E : Type) : Type := mkWf {
  world : U;
  log : list (WorkflowEvent.t E);
  internal : bool;
  completed_order : list str;
  async_tasks : list (option (Action U E))
}.
Arguments mkWf {U E}.
Arguments world {U E} _.
Arguments log {U E} _.
Arguments internal {U E} _.
Arguments completed_order {U E} _.
Arguments async_tasks {U E} _.

Definition emit {U E} (e : WorkflowEvent.t E) (st : WfState U E) : WfState U E :=
  mkWf (world st) (log st ++ [e]) (internal st) (completed_order st) (async_tasks st).
Definition set_world {U E} (u : U) (st : WfState U E) : WfState U E :=
  mkWf u (log st) (internal st) (completed_order st) (async_tasks st).
Definition complete {U E} (n : Node U E) (st : WfState U E) : WfState U E :=
  mkWf (world st) (log st) (internal st)
    (if is_compensatable n then completed_order st ++ [node_name n] else completed_order st) (async_tasks st).
Definition cancel_internal {U E} (st : WfState U E) : WfState U E :=
  mkWf (world st) (log st) true (completed_order st) (async_tasks st).
Definition spawn {U E} (b : Action U E) (st : WfState U E) : WfState U E :=
  mkWf (world st) (log st) (internal st) (completed_order st) (async_tasks st ++ [Some b]).

(** How a node of a wave ends. *)
Inductive NodeOutcome (E : Type) : Type :=
| WasCancelled | WasSkipped | HasSucceeded | HasFailed (source : BoxError E).
Arguments WasCancelled {E}.
Arguments WasSkipped {E}.
Arguments HasSucceeded {E}.
Arguments HasFailed {E} source.

(** The future of a wave's node: not polled, its started hook fired, its body
    run, the hook of its result fired, finished. *)
Inductive NodeTask (E : Type) : Type :=
| Waiting | Running | BodyRun (r : Result unit (BoxError E)) | Reported (r : Result unit (BoxError E))
| Finished (o : NodeOutcome E).
Arguments Waiting {E}.
Arguments Running {E}.
Arguments BodyRun {E} r.
Arguments Reported {E} r.
Arguments Finished {E} o.

Definition result_of {U E} (n : Node U E) (o : NodeOutcome E) : Result str (WorkflowError E) :=
  match o with
  | WasCancelled => Err RunCancelled
  | WasSkipped | HasSucceeded => Ok (node_name n)
  | HasFailed source => Err (NodeError (node_name n) source)
  end.

(** Reading the shared step context off the world. *)
Class Shared (V U : Type) : Type := { context_of : U -> StepContext V }.

Section Steps.
Context {V U E : Type} `{CharClasses} `{JsonFloats V} `{!Shared V U} (token : U -> bool).

(** A malformed condition fails closed. *)
Definition condition_holds (n : Node U E) (u : U) : bool :=
  match condition n with
  | None => true
  | Some expression =>
      match evaluate expression (context_of u) with Some (Ok b) => b | _ => false end
  end.

(** The future of node [n], from one point where it can be suspended to the
    next. *)
Inductive node_step (n : Node U E) : NodeTask E -> WfState U E -> NodeTask E -> WfState U E -> Prop :=
| node_cancelled st :
    token (world st) || internal st = true -> node_step n Waiting st (Finished WasCancelled) st
| node_skipped st :
    token (world st) || internal st = false -> condition_holds n (world st) = false ->
    node_step n Waiting st (Finished WasSkipped) (emit (on_step_skipped (node_name n)) st)
| node_started st :
    token (world st) || internal st = false -> condition_holds n (world st) = true ->
    node_step n Waiting st Running (emit (on_step_started (node_name n)) st)
| node_body st r u :
    body n (world st) = (r, u) -> node_step n Running st (BodyRun r) (set_world u st)
| node_success st :
    node_step n (BodyRun (Ok tt)) st (Reported (Ok tt)) (emit (on_step_success (node_name n) 1) st)
| node_failed st source :
    node_step n (BodyRun (Err source)) st (Reported (Err source)) (emit (on_step_failed (node_name n) source 1) st)
| node_completed st :
    node_step n (Reported (Ok tt)) st (Finished HasSucceeded) (complete n st)
| node_aborted st source :
    node_step n (Reported (Err source)) st (Finished (HasFailed source)) (cancel_internal st).

(** A spawned task runs; its result is dropped. *)
Inductive async_step : WfState U E -> WfState U E -> Prop :=
| async_runs u l i c a1 b a2 r u' :
    b u = (r, u') -> async_step (mkWf u l i c (a1 ++ Some b :: a2)) (mkWf u' l i c (a1 ++ None :: a2)).

(** Any task of the wave, or any spawned one, takes a step. *)
Inductive wave_step : list (Node U E * NodeTask E) * WfState U E -> list (Node U E * NodeTask E) * WfState U E -> Prop :=
| wave_node l1 n t t' l2 st st' :
    node_step n t st t' st' -> wave_step (l1 ++ (n, t) :: l2, st) (l1 ++ (n, t') :: l2, st')
| wave_async ts st st' : async_step st st' -> wave_step (ts, st) (ts, st').

End Steps.

(** [join_all] over a wave, what spawned tasks do while the run awaits
    something else, and awaiting them all. *)
Class Scheduler (V U E : Type) `{CharClasses} `{JsonFloats V} `{!Shared V U} : Type := {
  join_wave : (U -> bool) -> list (Node U E) -> WfState U E -> list (NodeOutcome E) * WfState U E;
  background : WfState U E -> WfState U E;
  join_async : WfState U E -> WfState U E;
  join_wave_interleaves : forall token ns st,
    List.length (fst (join_wave token ns st)) = List.length ns /\
    rtc (wave_step token) (map (fun n => (n, Waiting)) ns, st)
      (zip ns (map Finished (fst (join_wave token ns st))), snd (join_wave token ns st));
  background_interleaves : forall st, rtc async_step st (background st);
  join_async_interleaves : forall st, rtc async_step st (join_async st) /\ Forall (fun t => t = None) (async_tasks (join_async st))
}.

(** * The run *)

Section Run.
Context {V U E : Type} `{CharClasses} `{JsonFloats V} `{!Shared V U} `{!Scheduler V U E} (w : Workflow U E).

(** The names in declaration order, refusing the first repeated one. *)
Fixpoint check_names (ns : list (Node U E)) (names : gset str) : Result (gset str) (WorkflowError E) :=
  match ns with
  | [] => Ok names
  | n :: ns' =>
      if bool_decide (node_name n ∈ names) then Err (DuplicateNode (node_name n))
      else check_names ns' ({[node_name n]} ∪ names)
  end.

Definition unknown_dependency (names : gset str) (n : Node U E) : option (WorkflowError E) :=
  (fun d => UnknownNode (node_name n) d) <$> List.find (fun d => bool_decide (d ∉ names)) (node_depends_on n).

Definition check (ns : list (Node U E)) : option (WorkflowError E) :=
  match check_names ns ∅ with
  | Err e => Some e
  | Ok names => head (omap (unknown_dependency names) ns)
  end.

Definition is_ready (done : gset str) (n : Node U E) : bool :=
  forallb (fun d => bool_decide (d ∈ done)) (node_depends_on n).

(** The ready nodes: the fire-and-forget ones are skipped or spawned and are
    done; the others make up the wave. *)
Fixpoint dispatch (ready : list (Node U E)) (done : gset str) (blocking : list (Node U E)) (st : WfState U E)
  : gset str * list (Node U E) * WfState U E :=
  match ready with
  | [] => (done, blocking, st)
  | n :: ready' =>
      if fire_and_forget n then
        if negb (condition_holds n (world st))
        then dispatch ready' ({[node_name n]} ∪ done) blocking (emit (on_step_skipped (node_name n)) st)
        else dispatch ready' ({[node_name n]} ∪ done) blocking (spawn (body n) st)
      else dispatch ready' done (blocking ++ [n]) st
  end.

Fixpoint collect (results : list (Result str (WorkflowError E))) (done : gset str) (errors : list (WorkflowError E))
  : gset str * list (WorkflowError E) :=
  match results with
  | [] => (done, errors)
  | Ok name :: rs => collect rs ({[name]} ∪ done) errors
  | Err e :: rs => collect rs done (errors ++ [e])
  end.

Definition find_node (name : str) : option (Node U E) := List.find (fun n => str_eqb (node_name n) name) (nodes w).

(** The loop of [compensate], over the completed nodes, last first. *)
Fixpoint compensate_loop (names : list str) (st : WfState U E) : WfState U E :=
  match names with
  | [] => st
  | name :: names' =>
      match n ← find_node name; node_compensate n with
      | None => compensate_loop names' st
      | Some c =>
          let st := background st in
          match c (world st) with
          | (Ok _, u) => compensate_loop names' (emit (on_step_compensated name None) (set_world u st))
          | (Err err, u) =>
              let st := emit (on_step_compensated name (Some err)) (set_world u st) in
              if bool_decide (workflow_policy w = StopOnError) then st else compensate_loop names' st
          end
      end
  end.

Definition compensate (st : WfState U E) : WfState U E :=
  let order := completed_order st in
  compensate_loop (rev order) (match order with [] => st | _ => emit on_compensation_started st end).

(** The [while] over the waves; [None] is a run out of fuel. *)
Fixpoint run_waves (fuel : nat) (token : U -> bool) (pending : list (Node U E)) (done : gset str) (st : WfState U E)
  : option (Result unit (WorkflowError E) * WfState U E) :=
  match pending with
  | [] => Some (Ok tt, emit (on_completed true) (join_async st))
  | _ =>
      match fuel with
      | O => None
      | S fuel' =>
          let ready := List.filter (is_ready done) pending in
          let still_pending := List.filter (fun n => negb (is_ready done n)) pending in
          match ready with
          | [] => Some (Err NoProgress, emit (on_completed false) (compensate st))
          | _ =>
              let '(done, blocking, st) := dispatch ready done [] st in
              let '(outcomes, st) := join_wave token blocking st in
              match collect (zip_with result_of blocking outcomes) done [] with
              | (done, []) => run_waves fuel' token still_pending done st
              | (_, errors) => Some (Err (join_errors errors), emit (on_completed false) (join_async (compensate st)))
              end
          end
      end
  end.

(** Every wave takes a node. *)
Definition run_inner (token : U -> bool) (u : U) : option (Result unit (WorkflowError E) * WfState U E) :=
  let st := mkWf u [on_start] false [] [] in
  match check (nodes w) with
  | Some e => Some (Err e, emit (on_completed false) st)
  | None => run_waves (List.length (nodes w)) token (nodes w) ∅ st
  end.

End Run.

(** * Theorems: one wave *)

#[local] Abbreviation In := List.In.

(** The node a forward hook is about. *)
Definition about {E} (e : WorkflowEvent.t E) : option str :=
  match e with
  | on_step_started n | on_step_success n _ | on_step_failed n _ _ | on_step_skipped n => Some n
  | _ => None
  end.

(** The forward hooks about one node. *)
Definition hooks {E} (name : str) (evs : list (WorkflowEvent.t E)) : list (WorkflowEvent.t E) :=
  List.filter (fun e => bool_decide (about e = Some name)) evs.

Lemma hooks_app {E} name (a b : list (WorkflowEvent.t E)) : hooks name (a ++ b) = hooks name a ++ hooks name b.
Proof. apply List.filter_app. Qed.

Lemma hooks_in {E} name (evs : list (WorkflowEvent.t E)) e : In e (hooks name evs) <-> In e evs /\ about e = Some name.
Proof. unfold hooks. by rewrite filter_In, bool_decide_eq_true. Qed.

Lemma hooks_one {E} name (e : WorkflowEvent.t E) : hooks name [e] = if bool_decide (about e = Some name) then [e] else [].
Proof. done. Qed.

Definition outcome_hooks {E} (name : str) (o : NodeOutcome E) : list (WorkflowEvent.t E) :=
  match o with
  | WasCancelled => []
  | WasSkipped => [on_step_skipped name]
  | HasSucceeded => [on_step_started name; on_step_success name 1]
  | HasFailed source => [on_step_started name; on_step_failed name source 1]
  end.

Definition task_hooks {E} (name : str) (t : NodeTask E) : list (WorkflowEvent.t E) :=
  match t with
  | Waiting => []
  | Running | BodyRun _ => [on_step_started name]
  | Reported (Ok _) => [on_step_started name; on_step_success name 1]
  | Reported (Err source) => [on_step_started name; on_step_failed name source 1]
  | Finished o => outcome_hooks name o
  end.

Section Wave.
Context {V U E : Type} `{CharClasses} `{JsonFloats V} `{!Shared V U} (token : U -> bool).
Implicit Types (st : WfState U E) (ts : list (Node U E * NodeTask E)).

Lemma async_step_frame st st' : async_step st st' ->
  log st' = log st /\ internal st' = internal st /\ completed_order st' = completed_order st.
Proof. by destruct 1. Qed.

Lemma async_steps_frame st st' : rtc async_step st st' ->
  log st' = log st /\ internal st' = internal st /\ completed_order st' = completed_order st.
Proof.
  induction 1 as [|a b c S _ (L & I & C)]; [done|]. apply async_step_frame in S as (L' & I' & C').
  split_and!; congruence.
Qed.
(** Where a wave has got to from [st0]: the hooks fired since, the nodes
    completed since, and why nodes were cancelled. *)
Record wave_progress st0 ts st : Prop := {
  wp_log : exists hist, log st = log st0 ++ hist /\
    (forall n t, In (n, t) ts -> hooks (node_name n) hist = task_hooks (node_name n) t) /\
    (forall e, In e hist -> exists n t, In (n, t) ts /\ about e = Some (node_name n));
  wp_completed : exists comp, completed_order st = completed_order st0 ++ comp /\ List.NoDup comp /\
    forall nm, In nm comp <-> exists n, In (n, Finished HasSucceeded) ts /\ is_compensatable n = true /\ nm = node_name n;
  wp_internal : internal st = true -> internal st0 = true \/ exists n source, In (n, Finished (HasFailed source)) ts;
  wp_cancelled : forall n, In (n, Finished WasCancelled) ts ->
    (exists u, token u = true) \/ internal st0 = true \/ exists n source, In (n, Finished (HasFailed source)) ts
}.

Definition task_names ts : list str := map (fun p => node_name (fst p)) ts.

Lemma replace_in {A} (l1 l2 : list A) x y z : In z (l1 ++ y :: l2) <-> z = y \/ (In z (l1 ++ x :: l2) /\ (In z l1 \/ In z l2)).
Proof. rewrite !in_app_iff. simpl. intuition congruence. Qed.

Lemma names_middle l1 n (t : NodeTask E) l2 :
  List.NoDup (task_names (l1 ++ (n, t) :: l2)) ->
  forall m s, In (m, s) l1 \/ In (m, s) l2 -> node_name m <> node_name n.
Proof.
  unfold task_names. rewrite map_app. simpl. intros Nd%List.NoDup_remove_2 m s I Eq. apply Nd.
  rewrite in_app_iff, <- Eq. destruct I as [I|I]; [left|right]; by apply (in_map (fun p => node_name (fst p))) in I.
Qed.

(** The hooks a step of node [n]'s future fires are the difference between
    those of its stages. *)
Lemma node_step_log n t st t' st' : node_step token n t st t' st' ->
  exists evs, log st' = log st ++ evs /\ task_hooks (node_name n) t' = task_hooks (node_name n) t ++ evs /\
    Forall (fun e => about e = Some (node_name n)) evs.
Proof.
  destruct 1; simpl; try (exists []; rewrite ?app_nil_r; by split_and!); eexists; (split; [reflexivity|]);
    (split; [reflexivity|by repeat constructor]).
Qed.

Lemma hooks_other name name' (evs : list (WorkflowEvent.t E)) :
  Forall (fun e => about e = Some name') evs -> hooks name evs = if bool_decide (name = name') then evs else [].
Proof.
  induction 1 as [|e evs A _ IH]; [by case_bool_decide|]. unfold hooks in *. simpl. rewrite IH, A.
  repeat case_bool_decide; congruence.
Qed.

Lemma progress_log st0 l1 n t t' l2 st st' :
  List.NoDup (task_names (l1 ++ (n, t) :: l2)) -> node_step token n t st t' st' ->
  wave_progress st0 (l1 ++ (n, t) :: l2) st ->
  exists hist, log st' = log st0 ++ hist /\
    (forall m s, In (m, s) (l1 ++ (n, t') :: l2) -> hooks (node_name m) hist = task_hooks (node_name m) s) /\
    (forall e, In e hist -> exists m s, In (m, s) (l1 ++ (n, t') :: l2) /\ about e = Some (node_name m)).
Proof.
  intros Nd S [(hist & L & P & A) _ _ _]. destruct (node_step_log _ _ _ _ _ S) as (evs & L' & T & F).
  exists (hist ++ evs). split; [by rewrite L', L, app_assoc|]. split.
  - intros m s I. rewrite hooks_app, (hooks_other _ _ _ F).
    apply (replace_in l1 l2 (n, t)) in I as [[= -> ->]|[I I']].
    + rewrite bool_decide_eq_true_2 by done. by rewrite T, (P n t) by apply in_elt.
    + rewrite bool_decide_eq_false_2 by (by eapply names_middle). by rewrite app_nil_r, (P m s).
  - intros e [I|I]%in_app_iff.
    + destruct (A e I) as (m & s & Im & Ae). destruct (decide (node_name m = node_name n)) as [Eq|N].
      * exists n, t'. split; [apply in_elt|congruence].
      * exists m, s. split; [|done]. apply in_app_iff in Im as [Im|[[= -> ->]|Im]]; [|done|];
          apply in_app_iff; [by left|right; by right].
    + exists n, t'. split; [apply in_elt|]. rewrite List.Forall_forall in F. auto.
Qed.

(** A finished task stays. *)
Lemma finished_stays n t st t' st' l1 l2 m o : node_step token n t st t' st' ->
  In (m, Finished o) (l1 ++ (n, t) :: l2) -> In (m, Finished o) (l1 ++ (n, t') :: l2).
Proof.
  intros S I. rewrite in_app_iff in *. destruct I as [I|[[= -> ->]|I]]; [by left|inversion S|right; by right].
Qed.

(** What a step adds to the finished tasks. *)
Lemma finished_new n t st t' st' l1 l2 m o : node_step token n t st t' st' ->
  In (m, Finished o) (l1 ++ (n, t') :: l2) ->
  In (m, Finished o) (l1 ++ (n, t) :: l2) \/ (m = n /\ t' = Finished o).
Proof.
  intros S I. rewrite in_app_iff in *. destruct I as [I|[[= -> ->]|I]]; [left; by left|by right|left; right; by right].
Qed.

Lemma progress_step st0 l1 n t t' l2 st st' :
  List.NoDup (task_names (l1 ++ (n, t) :: l2)) -> node_step token n t st t' st' ->
  wave_progress st0 (l1 ++ (n, t) :: l2) st -> wave_progress st0 (l1 ++ (n, t') :: l2) st'.
Proof.
  intros Nd S W. split; [by eapply progress_log| | |].
  - destruct W as [_ (comp & C & Ndc & M) _ _].
    assert (forall st'', completed_order st'' = completed_order st -> t' <> Finished HasSucceeded ->
      exists comp0, completed_order st'' = completed_order st0 ++ comp0 /\ List.NoDup comp0 /\
      forall nm, In nm comp0 <-> exists m, In (m, Finished HasSucceeded) (l1 ++ (n, t') :: l2) /\ is_compensatable m = true /\ nm = node_name m)
      as Same.
    { intros st'' Eq Nt. exists comp. split; [by rewrite Eq|]. split; [done|]. intros nm. rewrite M.
      split; intros (m & I & Cm & En); exists m; (split; [|done]).
      - by eapply finished_stays.
      - by destruct (finished_new _ _ _ _ _ _ _ _ _ S I) as [|[-> ->]]. }
    pose proof S as S'. destruct S'; try (by apply Same).
    unfold complete. cbn [completed_order]. destruct (is_compensatable n) eqn:Cn.
    + exists (comp ++ [node_name n]). split; [by rewrite C, app_assoc|]. split.
      * apply List.NoDup_app; [done|repeat constructor; simpl; tauto|]. intros x Ix [<-|[]].
        apply M in Ix as (m & Im & _ & Eq). apply in_app_iff in Im as [Im|[[=]|Im]];
          eapply names_middle; try exact Nd; eauto.
      * intros nm. rewrite in_app_iff, M. split.
        -- intros [(m & I & Cm & En)|[<-|[]]]; [exists m; split; [by eapply finished_stays|done]|].
           exists n. split; [apply in_elt|done].
        -- intros (m & I & Cm & ->). destruct (finished_new _ _ _ _ _ _ _ _ _ S I) as [I'|[-> _]]; [left; eauto|right; by left].
    + exists comp. split_and!; [done|done|]. intros nm. rewrite M.
      split; intros (m & I & Cm & En); exists m; (split; [|done]).
      * by eapply finished_stays.
      * destruct (finished_new _ _ _ _ _ _ _ _ _ S I) as [|[-> _]]; congruence.
  - intros I. destruct W as [_ _ Wi _].
    assert (internal st = true -> internal st0 = true \/ exists m source, In (m, Finished (HasFailed source)) (l1 ++ (n, t') :: l2)) as Keep.
    { intros I'. destruct (Wi I') as [|(m & src & Im)]; [by left|]. right. exists m, src. by eapply finished_stays. }
    pose proof S as S'. destruct S'; try (by apply Keep). right. exists n, source. apply in_elt.
  - intros m Im. destruct W as [_ _ Wi Wc].
    assert ((exists m source, In (m, Finished (HasFailed source)) (l1 ++ (n, t) :: l2)) ->
            exists m source, In (m, Finished (HasFailed source)) (l1 ++ (n, t') :: l2)) as Keep
      by (intros (m' & src & I'); exists m', src; by eapply finished_stays).
    destruct (finished_new _ _ _ _ _ _ _ _ _ S Im) as [I'|[-> ->]].
    + destruct (Wc m I') as [?|[?|?]]; auto.
    + inversion S as [st1 T| | | | | | |]; subst. apply orb_true_iff in T as [T|T]; [left; by eexists|].
      destruct (Wi T) as [?|?]; auto.
Qed.

Lemma progress_frame st0 ts st st' : log st' = log st -> internal st' = internal st ->
  completed_order st' = completed_order st -> wave_progress st0 ts st -> wave_progress st0 ts st'.
Proof. intros L I C [Wl Wc Wi Wd]. split; rewrite ?L, ?C, ?I; done. Qed.

Lemma wave_steps_progress st0 ts ts' st st' :
  List.NoDup (task_names ts) -> wave_progress st0 ts st -> rtc (wave_step token) (ts, st) (ts', st') ->
  wave_progress st0 ts' st'.
Proof.
  intros Nd W R. cut (task_names (fst (ts', st')) = task_names ts /\ wave_progress st0 (fst (ts', st')) (snd (ts', st'))).
  { by intros [_ P]. }
  revert R. generalize (ts', st'). apply rtc_ind_r; [by split|].
  intros y z _ S [En P]. destruct S as [l1 n t t' l2 s s' S|ts1 s s' S]; cbn [fst snd] in *.
  - split; [rewrite <- En; unfold task_names; by rewrite !map_app|].
    eapply progress_step; [|exact S|exact P]. by rewrite En.
  - split; [done|]. apply async_step_frame in S as (L & I & C). by eapply progress_frame.
Qed.

End Wave.

(** * Theorems: the pieces of a run *)

Section Pieces.
Context {V U E : Type} `{CharClasses} `{JsonFloats V} `{!Shared V U} `{!Scheduler V U E} (w : Workflow U E).
Implicit Types (st : WfState U E) (n : Node U E).

Definition names (ns : list (Node U E)) : list str := map node_name ns.

Lemma check_names_spec ns seen :
  match check_names ns seen with
  | Ok all => List.NoDup (names ns) /\ (forall d, In d (names ns) -> d ∉ seen) /\ (forall d, d ∈ all <-> d ∈ seen \/ In d (names ns))
  | Err e => exists before n after, ns = before ++ n :: after /\ e = DuplicateNode (node_name n) /\
      (node_name n ∈ seen \/ In (node_name n) (names before))
  end.
Proof.
  revert seen. induction ns as [|n ns IH]; intros seen; simpl.
  { split; [constructor|]. split; [done|]. intros d. naive_solver. }
  case_bool_decide as D; [by exists [], n, ns; split_and!; [..|left]|].
  specialize (IH ({[node_name n]} ∪ seen)). destruct (check_names ns _) as [all|e].
  - destruct IH as (Nd & Ds & A). split_and!.
    + constructor; [|done]. intros I. specialize (Ds _ I). set_solver.
    + intros d [<-|I]; [done|]. specialize (Ds _ I). set_solver.
    + intros d. rewrite A. set_solver.
  - destruct IH as (b & m & a & -> & -> & S). exists (n :: b), m, a. split_and!; [done|done|].
    destruct S as [S|S]; [|right; by right]. apply elem_of_union in S as [S%elem_of_singleton|S]; [right; left; done|by left].
Qed.

Lemma dispatch_spec ready done blocking st :
  let '(done', blocking', st') := dispatch ready done blocking st in
  blocking' = blocking ++ List.filter (fun n => negb (fire_and_forget n)) ready /\
  (forall d, d ∈ done' <-> d ∈ done \/ In d (names (List.filter fire_and_forget ready))) /\
  internal st' = internal st /\ completed_order st' = completed_order st /\
  log st' = log st ++ map (fun n => on_step_skipped (node_name n))
    (List.filter (fun n => fire_and_forget n && negb (condition_holds n (world st))) ready).
Proof.
  revert done blocking st. induction ready as [|n ready IH]; intros done blocking st; cbn [dispatch].
  { simpl. rewrite !app_nil_r. split_and!; try done. intros d. naive_solver. }
  cbn [List.filter]. destruct (fire_and_forget n) eqn:F; cbn [negb andb].
  - destruct (condition_holds n (world st)) eqn:C; cbn [negb].
    + specialize (IH ({[node_name n]} ∪ done) blocking (spawn (body n) st)).
      destruct (dispatch ready _ blocking _) as [[d' b'] st']. destruct IH as (-> & D & I & Co & L).
      split_and!; [done| |done|done|done]. intros d. rewrite D. simpl. set_solver.
    + specialize (IH ({[node_name n]} ∪ done) blocking (emit (on_step_skipped (node_name n)) st)).
      destruct (dispatch ready _ blocking _) as [[d' b'] st']. destruct IH as (-> & D & I & Co & L).
      split_and!; [done| |done|done|]; [intros d; rewrite D; simpl; set_solver|].
      rewrite L. unfold emit. cbn [log world]. by rewrite <- app_assoc.
  - specialize (IH done (blocking ++ [n]) st). destruct (dispatch ready done _ st) as [[d' b'] st'].
    destruct IH as (-> & D & I & Co & L). split_and!; try done. by rewrite <- app_assoc.
Qed.

Definition wave_errors (ns : list (Node U E)) (outcomes : list (NodeOutcome E)) : list (WorkflowError E) :=
  omap (fun '(n, o) => match result_of n o with Err e => Some e | Ok _ => None end) (zip ns outcomes).

Lemma collect_spec ns outcomes done errors :
  List.length outcomes = List.length ns ->
  exists done', collect (zip_with result_of ns outcomes) done errors = (done', errors ++ wave_errors ns outcomes) /\
    (wave_errors ns outcomes = [] -> forall d, d ∈ done' <-> d ∈ done \/ In d (names ns)).
Proof.
  revert outcomes done errors. induction ns as [|n ns IH]; intros [|o outcomes] done errors L; simpl in L; try lia.
  { exists done. split; [simpl; by rewrite app_nil_r|]. simpl. tauto. }
  injection L as L. cbn [zip_with collect].
  assert (wave_errors (n :: ns) (o :: outcomes) =
    match result_of n o with Err e => [e] | Ok _ => [] end ++ wave_errors ns outcomes) as -> by (by destruct o).
  destruct (result_of n o) as [nm|e] eqn:R; cbn [app].
  - assert (nm = node_name n) as -> by (destruct o; simpl in R; congruence).
    destruct (IH outcomes ({[node_name n]} ∪ done) errors L) as (d' & -> & D). exists d'.
    split; [done|]. intros W d. rewrite (D W). simpl. rewrite elem_of_union, elem_of_singleton. intuition.
  - destruct (IH outcomes done (errors ++ [e]) L) as (d' & -> & D). exists d'. split; [by rewrite <- app_assoc|done].
Qed.

Lemma wave_finishes token ns st outcomes st' :
  List.NoDup (names ns) -> join_wave token ns st = (outcomes, st') ->
  List.length outcomes = List.length ns /\ wave_progress token st (zip ns (map Finished outcomes)) st'.
Proof.
  intros Nd J. destruct (join_wave_interleaves token ns st) as [L R]. rewrite J in L, R. cbn [fst snd] in L, R.
  split; [done|]. eapply wave_steps_progress; [|..|exact R].
  - unfold task_names. rewrite map_map. exact Nd.
  - assert (forall n t, In (n, t) (map (fun n => (n, Waiting)) ns) -> t = (Waiting : NodeTask E)) as W
      by (intros n t (m & [= _ <-] & _)%in_map_iff; done).
    split.
    + exists []. rewrite app_nil_r. split; [done|]. split; [|done]. intros n t I. by rewrite (W _ _ I).
    + exists []. rewrite app_nil_r. split; [done|]. split; [constructor|]. intros nm. split; [done|]. by intros (n & I%W & _).
    + by left.
    + intros n I. by apply W in I.
Qed.

(** The rollback, compensation by compensation, from a state to a state. *)
Inductive rolled_back : list (str * Result unit (BoxError E)) -> WfState U E -> WfState U E -> Prop :=
| rolled_nil st : rolled_back [] st st
| rolled_cons name n c r u rs st st1 st2 :
    find_node w name = Some n -> node_compensate n = Some c ->
    rtc async_step st st1 -> c (world st1) = (r, u) ->
    rolled_back rs (emit (on_step_compensated name (match r with Ok _ => None | Err e => Some e end)) (set_world u st1)) st2 ->
    rolled_back ((name, r) :: rs) st st2.

Definition report (nr : str * Result unit (BoxError E)) : WorkflowEvent.t E :=
  on_step_compensated (fst nr) (match snd nr with Ok _ => None | Err e => Some e end).

(** Stop-on-error has met an error. *)
Definition stopped (rs : list (str * Result unit (BoxError E))) : Prop :=
  workflow_policy w = StopOnError /\ exists rs' name e, rs = rs' ++ [(name, Err e)].

Lemma compensate_loop_spec nms st :
  (forall nm, In nm nms -> exists n c, find_node w nm = Some n /\ node_compensate n = Some c) ->
  exists rs rest, rolled_back rs st (compensate_loop w nms st) /\ nms = map fst rs ++ rest /\
    (rest <> [] -> stopped rs) /\
    log (compensate_loop w nms st) = log st ++ map report rs.
Proof.
  revert st. induction nms as [|nm nms IH]; intros st F; cbn [compensate_loop].
  { exists [], []. simpl. rewrite app_nil_r. split_and!; [apply rolled_nil|done..]. }
  destruct (F nm (or_introl eq_refl)) as (n & c & Fn & Cn). rewrite Fn. simpl. rewrite Cn.
  pose proof (background_interleaves st) as B. pose proof (async_steps_frame _ _ B) as (Lb & _ & _).
  assert (forall nm', In nm' nms -> exists n c, find_node w nm' = Some n /\ node_compensate n = Some c) as F' by (intros; apply F; by right).
  destruct (c (world (background st))) as [[[]|e] u] eqn:C.
  - destruct (IH (emit (on_step_compensated nm None) (set_world u (background st))) F') as (rs & rest & R & -> & S & L).
    exists ((nm, Ok tt) :: rs), rest. split_and!; [by eapply (rolled_cons nm n c (Ok tt))|done| |].
    + intros Nr. destruct (S Nr) as (P & rs' & nm' & e & ->). split; [done|]. by exists ((nm, Ok tt) :: rs'), nm', e.
    + rewrite L. unfold emit, set_world. cbn [log]. rewrite Lb. simpl. by rewrite <- app_assoc.
  - set (st1 := emit (on_step_compensated nm (Some e)) (set_world u (background st))).
    assert (log st1 = log st ++ [report (nm, Err e)]) as L1 by (unfold st1, emit, set_world; cbn [log]; by rewrite Lb).
    case_bool_decide as P.
    + exists [(nm, Err e)], nms. split_and!; [eapply (rolled_cons nm n c (Err e)); [done..|apply rolled_nil]|done| |done].
      intros _. split; [done|]. by exists [], nm, e.
    + destruct (IH st1 F') as (rs & rest & R & -> & S & L).
      exists ((nm, Err e) :: rs), rest. split_and!; [by eapply (rolled_cons nm n c (Err e))|done| |].
      * intros Nr. by destruct (S Nr).
      * rewrite L, L1. simpl. by rewrite <- app_assoc.
Qed.

End Pieces.

(** * Theorems: the run *)

Lemma app_split {A} (x y a b : list A) e : x ++ y = a ++ e :: b ->
  (exists b', x = a ++ e :: b' /\ b = b' ++ y) \/ (exists a', y = a' ++ e :: b /\ a = x ++ a').
Proof.
  revert a. induction x as [|z x IH]; intros a Eq; [right; by exists a|].
  destruct a as [|z' a]; injection Eq as -> Eq; [left; by exists x|].
  destruct (IH a Eq) as [(b' & -> & ->)|(a' & -> & ->)]; [left; by exists b'|right; by exists a'].
Qed.

Lemma nodup_app_inv {A} (a b : list A) : List.NoDup (a ++ b) ->
  List.NoDup a /\ List.NoDup b /\ forall x, In x a -> ~ In x b.
Proof.
  induction a as [|x a IH]; simpl; intros Nd; [by split_and!; [constructor|..]|].
  inversion Nd as [|? ? Ni Nd']; subst. destruct (IH Nd') as (Na & Nb & D). rewrite in_app_iff in Ni.
  split_and!; [constructor; tauto|done|]. intros y [->|I]; [tauto|by apply D].
Qed.

Section Theorems.
Context {V U E : Type} `{CharClasses} `{JsonFloats V} `{!Shared V U} `{!Scheduler V U E} (w : Workflow U E).
Implicit Types (st : WfState U E) (n : Node U E) (evs : list (WorkflowEvent.t E)).

(** A dependency is settled: it was spawned or skipped as a fire-and-forget
    node, or it has succeeded or been skipped. *)
Definition settled evs (d : str) : Prop :=
  (exists n, In n (nodes w) /\ node_name n = d /\ fire_and_forget n = true) \/
  In (on_step_success d 1) evs \/ In (on_step_skipped d) evs.

Lemma settled_app evs more d : settled evs d -> settled (evs ++ more) d.
Proof. unfold settled. rewrite !in_app_iff. tauto. Qed.

(** The hooks fired about one node. *)
Definition node_hooks n (h : list (WorkflowEvent.t E)) : Prop :=
  if fire_and_forget n then h = [] \/ h = [on_step_skipped (node_name n)]
  else exists o, h = outcome_hooks (node_name n) o.

(** The forward part of a run that has dispatched the nodes [ran]. *)
Record forward (ran : list (Node U E)) evs st : Prop := {
  fw_log : log st = on_start :: evs;
  fw_nodes : incl ran (nodes w);
  fw_about : forall e, In e evs -> exists n, In n ran /\ about e = Some (node_name n);
  fw_hooks : forall n, In n ran -> node_hooks n (hooks (node_name n) evs);
  fw_order : forall n a b, In n (nodes w) -> evs = a ++ on_step_started (node_name n) :: b ->
    Forall (settled a) (node_depends_on n);
  fw_distinct : List.NoDup (completed_order st);
  fw_completed : forall nm, In nm (completed_order st) <->
    exists n, In n ran /\ is_compensatable n = true /\ nm = node_name n /\ In (on_step_success nm 1) evs
}.

Section Unique.
Hypothesis unique : List.NoDup (names (nodes w)).

Lemma unique_node n m : In n (nodes w) -> In m (nodes w) -> node_name n = node_name m -> n = m.
Proof.
  clear -unique. unfold names in unique. induction (nodes w) as [|x ns IH]; simpl in *; [done|].
  inversion unique as [|? ? Ni Nd]; subst. intros [->|I] [->|J] Eq; auto.
  - destruct Ni. rewrite Eq. by apply in_map.
  - destruct Ni. rewrite <- Eq. by apply in_map.
Qed.

Lemma hooks_none nm evs (ns : list (Node U E)) :
  (forall e, In e evs -> exists n, In n ns /\ about e = Some (node_name n)) -> ~ In nm (names ns) -> hooks nm evs = [].
Proof.
  intros A N. destruct (hooks nm evs) as [|e h] eqn:Hk; [done|].
  assert (In e (hooks nm evs)) as [I Ae]%hooks_in by (rewrite Hk; by left).
  destruct (A e I) as (n & In_ & An). destruct N. rewrite Ae in An. injection An as ->. by apply in_map.
Qed.

Lemma hooks_skipped (p : Node U E -> bool) (ns : list (Node U E)) n : List.NoDup (names ns) -> In n ns ->
  hooks (node_name n) (map (fun n => on_step_skipped (node_name n)) (List.filter p ns)) =
    (if p n then [on_step_skipped (E := E) (node_name n)] else []).
Proof.
  set (skips l := map (fun n => on_step_skipped (E := E) (node_name n)) l).
  induction ns as [|m ns IH]; intros Nd I; [done|]. inversion Nd as [|? ? Ni Nd']; subst. cbn [List.filter].
  assert (hooks (node_name m) (skips (List.filter p ns)) = []) as None_.
  { apply (hooks_none _ _ ns); [|done]. intros e (x & <- & [Ix _]%filter_In)%in_map_iff. by exists x. }
  destruct I as [->|I].
  - destruct (p n); [|exact None_]. unfold skips, hooks in *. simpl. rewrite bool_decide_eq_true_2 by done. by rewrite None_.
  - assert (node_name n <> node_name m) as N by (intros Eq; apply Ni; rewrite <- Eq; by apply in_map).
    destruct (p m); [|by apply IH]. unfold skips, hooks in *. simpl. rewrite bool_decide_eq_false_2 by congruence. by apply IH.
Qed.

Lemma zip_finished (ns : list (Node U E)) (outcomes : list (NodeOutcome E)) n t :
  In (n, t) (zip ns (map Finished outcomes)) <-> exists o, In (n, o) (zip ns outcomes) /\ t = Finished o.
Proof.
  revert outcomes. induction ns as [|x ns IH]; intros [|o outs]; simpl; try (split; [done|by intros (? & [] & _)]).
  rewrite IH. split.
  - intros [[= -> <-]|(o' & I & ->)]; [exists o|exists o']; split; auto.
  - intros (o' & [[= -> ->]|I] & ->); [by left|right; by exists o'].
Qed.

Lemma zip_total (ns : list (Node U E)) (outcomes : list (NodeOutcome E)) n :
  List.length outcomes = List.length ns -> In n ns -> exists o, In (n, o) (zip ns outcomes).
Proof.
  revert outcomes. induction ns as [|x ns IH]; intros [|o outs] L I; simpl in *; try done.
  destruct I as [->|I]; [exists o; by left|]. destruct (IH outs ltac:(lia) I) as [o' I']. exists o'. by right.
Qed.

Lemma names_filter (p : Node U E -> bool) (ns : list (Node U E)) : List.NoDup (names ns) -> List.NoDup (names (List.filter p ns)).
Proof.
  unfold names. induction ns as [|x ns IH]; intros Nd; simpl; [constructor|]. inversion Nd as [|? ? Ni Nd']; subst.
  destruct (p x); [|by apply IH]. simpl. constructor; [|by apply IH]. intros I. apply Ni. revert I. apply incl_map, incl_filter.
Qed.

(** What the wave of the nodes [ready] adds to a run. *)
Record extension (ready : list (Node U E)) (results : list (Node U E * NodeOutcome E)) st more st2 : Prop := {
  ex_log : log st2 = log st ++ more;
  ex_about : forall e, In e more -> exists n, In n ready /\ about e = Some (node_name n);
  ex_results : forall n o, In (n, o) results -> hooks (node_name n) more = outcome_hooks (node_name n) o;
  ex_total : forall n, In n ready -> fire_and_forget n = false -> exists o, In (n, o) results;
  ex_async : forall n, In n ready -> fire_and_forget n = true ->
    hooks (node_name n) more = [] \/ hooks (node_name n) more = [on_step_skipped (node_name n)];
  ex_completed : exists comp, completed_order st2 = completed_order st ++ comp /\ List.NoDup comp /\
    forall nm, In nm comp <-> exists n, In n ready /\ is_compensatable n = true /\ nm = node_name n /\ In (on_step_success nm 1) more
}.

Lemma success_outcome n o : In (on_step_success (node_name n) 1) (outcome_hooks (node_name n) o) <-> o = HasSucceeded (E := E).
Proof. destruct o; simpl; intuition congruence. Qed.

Section Extend.
Context (token : U -> bool) (ready blocking : list (Node U E)) (done done' : gset str) (st st1 st2 : WfState U E)
        (outcomes : list (NodeOutcome E)).
Hypothesis ready_names : List.NoDup (names ready).
Hypothesis dispatched : dispatch ready done [] st = (done', blocking, st1).
Hypothesis joined : join_wave token blocking st1 = (outcomes, st2).

Let skips := map (fun n => on_step_skipped (E := E) (node_name n))
  (List.filter (fun n => fire_and_forget n && negb (condition_holds n (world st))) ready).

Lemma blocking_nodes : blocking = List.filter (fun n => negb (fire_and_forget n)) ready.
Proof. pose proof (dispatch_spec ready done [] st) as D. rewrite dispatched in D. by destruct D as (-> & _). Qed.

Lemma blocking_in n : In n blocking <-> In n ready /\ fire_and_forget n = false.
Proof. by rewrite blocking_nodes, filter_In, negb_true_iff. Qed.

Lemma blocking_hooks (hist : list (WorkflowEvent.t E)) n : (forall e, In e hist -> exists m, In m blocking /\ about e = Some (node_name m)) ->
  In n ready -> fire_and_forget n = true -> hooks (node_name n) hist = [].
Proof.
  intros A I F. apply (hooks_none _ _ blocking A). intros (m & Em & Im)%in_map_iff. rewrite blocking_nodes in Im.
  clear -Em Im I F ready_names. induction ready as [|x r IH]; [done|]. inversion ready_names as [|? ? Ni Nd]; subst.
  cbn [List.filter] in Im. destruct I as [->|I].
  - rewrite F in Im. simpl in Im. apply Ni. rewrite <- Em. apply in_map. by apply filter_In in Im as [Im _].
  - destruct (fire_and_forget x) eqn:Fx; simpl in Im; [by apply IH|]. destruct Im as [->|Im]; [|by apply IH].
    apply Ni. rewrite Em. by apply in_map.
Qed.

Lemma wave_extension :
  exists more, extension ready (zip blocking outcomes) st more st2 /\
    wave_progress token st1 (zip blocking (map Finished outcomes)) st2 /\ List.length outcomes = List.length blocking.
Proof.
  pose proof (dispatch_spec ready done [] st) as D. rewrite dispatched in D. destruct D as (_ & _ & Int & Co & Lg).
  fold skips in Lg.
  destruct (wave_finishes token blocking st1 outcomes st2) as [Ln Wp]; [rewrite blocking_nodes; by apply names_filter|done|].
  pose proof Wp as [(hist & L2 & Hh & Ah) (comp & C2 & Ndc & Mc) _ _].
  assert (forall n o, In (n, o) (zip blocking outcomes) -> In n blocking) as Zb by (intros n o I; by apply in_combine_l in I).
  assert (forall e, In e hist -> exists n, In n blocking /\ about e = Some (node_name n)) as Ab.
  { intros e I. destruct (Ah e I) as (n & t & (o & Io & _)%zip_finished & Ae). exists n. split; [by eapply Zb|done]. }
  assert (forall n o, In (n, o) (zip blocking outcomes) -> hooks (node_name n) (skips ++ hist) = outcome_hooks (node_name n) o) as Ho.
  { intros n o I. pose proof (Zb _ _ I) as [Ir Fn]%blocking_in. rewrite hooks_app.
    rewrite (Hh n (Finished o)) by (apply zip_finished; eauto). unfold skips. rewrite hooks_skipped by done. by rewrite Fn. }
  exists (skips ++ hist). split_and!; [|done|done]. split.
  - by rewrite L2, Lg, app_assoc.
  - intros e [I|I]%in_app_iff.
    + apply in_map_iff in I as (n & <- & [I _]%filter_In). by exists n.
    + destruct (Ab e I) as (n & [Ib _]%blocking_in & Ae). by exists n.
  - done.
  - intros n I F. apply zip_total; [done|]. by apply blocking_in.
  - intros n I F. rewrite hooks_app, (blocking_hooks hist), app_nil_r by done. unfold skips. rewrite hooks_skipped by done.
    case_match; [by right|by left].
  - exists comp. rewrite C2, Co. split_and!; [done|done|]. intros nm. rewrite Mc. split.
    + intros (n & (o & Io & [= <-])%zip_finished & Cn & ->). exists n.
      pose proof (proj1 (blocking_in n) (Zb _ _ Io)) as [Ir _]. split_and!; [done..|].
      apply (hooks_in (node_name n)). rewrite (Ho _ _ Io). simpl. auto.
    + intros (n & I & Cn & -> & S). exists n. split; [|done]. apply zip_finished. exists HasSucceeded. split; [|done].
      assert (In (on_step_success (node_name n) 1) (hooks (node_name n) (skips ++ hist))) as S' by (by apply hooks_in).
      destruct (fire_and_forget n) eqn:F.
      * rewrite hooks_app, (blocking_hooks hist), app_nil_r in S' by done. unfold skips in S'. rewrite hooks_skipped in S' by done.
        case_match; simpl in S'; intuition congruence.
      * destruct (zip_total blocking outcomes n Ln) as [o Io]; [by apply blocking_in|].
        rewrite (Ho _ _ Io) in S'. apply success_outcome in S' as ->. done.
Qed.

End Extend.

(** The hooks of the earlier nodes and of the wave's do not mix. *)
Lemma hooks_extended ran ready evs st results more st2 :
  forward ran evs st -> extension ready results st more st2 -> List.NoDup (names (ran ++ ready)) ->
  (forall n, In n ran -> hooks (node_name n) more = []) /\ (forall n, In n ready -> hooks (node_name n) evs = []).
Proof.
  intros Fw Ex Nd. unfold names in Nd. rewrite map_app in Nd. apply nodup_app_inv in Nd as (_ & _ & Disj). split; intros n I.
  - apply (hooks_none _ _ ready (ex_about _ _ _ _ _ Ex)). intros Ir. eapply Disj; [by apply in_map|exact Ir].
  - apply (hooks_none _ _ ran (fw_about _ _ _ Fw)). intros Ir. eapply Disj; [exact Ir|by apply in_map].
Qed.

(** The forward part goes on with a wave whose dependencies are settled. *)
Lemma forward_extends ran ready results evs st more st2 :
  forward ran evs st -> List.NoDup (names (ran ++ ready)) -> incl ready (nodes w) ->
  (forall n, In n ready -> Forall (settled evs) (node_depends_on n)) ->
  extension ready results st more st2 -> forward (ran ++ ready) (evs ++ more) st2.
Proof.
  intros Fw Nd Sub Dp Ex. destruct (hooks_extended _ _ _ _ _ _ _ Fw Ex Nd) as [Hm He].
  destruct Ex as [Lg Ab Re To As (comp & Co & Ndc & Mc)].
  unfold names in Nd. rewrite map_app in Nd. apply nodup_app_inv in Nd as (Ndr & Ndy & Disj). fold (names ran) (names ready) in *.
  assert (forall n e, In n ran -> In e more -> about e <> Some (node_name n)) as Nm.
  { intros n e I J A. assert (In e (hooks (node_name n) more)) as K by (by apply hooks_in). by rewrite Hm in K. }
  assert (forall n e, In n ready -> In e evs -> about e <> Some (node_name n)) as Ne.
  { intros n e I J A. assert (In e (hooks (node_name n) evs)) as K by (by apply hooks_in). by rewrite He in K. }
  split.
  - by rewrite Lg, (fw_log _ _ _ Fw).
  - apply incl_app; [exact (fw_nodes _ _ _ Fw)|done].
  - intros e [I|I]%in_app_iff; [destruct (fw_about _ _ _ Fw e I) as (n & ? & ?)|destruct (Ab e I) as (n & ? & ?)];
      exists n; (split; [apply in_app_iff; tauto|done]).
  - intros n [I|I]%in_app_iff; rewrite hooks_app.
    + rewrite Hm, app_nil_r by done. by apply (fw_hooks _ _ _ Fw).
    + rewrite He by done. unfold node_hooks. simpl. destruct (fire_and_forget n) eqn:F; [by apply As|].
      destruct (To n I F) as [o Io]. exists o. by apply Re.
  - intros n a b In_ Eq. apply app_split in Eq as [(b' & Eq & _)|(a' & Eq & ->)]; [by eapply (fw_order _ _ _ Fw)|].
    destruct (Ab (on_step_started (node_name n))) as (m & Im & [= Em]); [rewrite Eq; apply in_elt|].
    assert (n = m) as -> by (apply unique_node; auto). eapply List.Forall_impl; [|by apply Dp]. intros d. apply settled_app.
  - rewrite Co. apply List.NoDup_app; [exact (fw_distinct _ _ _ Fw)|done|].
    intros nm (n & In_ & _ & -> & _)%(fw_completed _ _ _ Fw) (m & Im & _ & Em & _)%Mc.
    eapply Disj; [by apply in_map, In_|]. rewrite Em. by apply in_map.
  - intros nm. rewrite Co, in_app_iff, (fw_completed _ _ _ Fw), Mc. setoid_rewrite in_app_iff. split.
    + intros [(n & I & Cn & -> & S)|(n & I & Cn & -> & S)]; exists n; tauto.
    + intros (n & [I|I] & Cn & -> & [S|S]); [left; by exists n| | |right; by exists n]; exfalso;
        [by eapply (Nm n _ I S)|by eapply (Ne n _ I S)].
Qed.

(** ** The waves *)

(** A node that was awaited has succeeded or been skipped. *)
Definition finished_well evs n : Prop :=
  fire_and_forget n = false ->
  hooks (node_name n) evs = [on_step_skipped (node_name n)] \/
  hooks (node_name n) evs = [on_step_started (node_name n); on_step_success (node_name n) 1].

(** An order of the nodes in which each comes after its dependencies. *)
Definition ordered (order : list (Node U E)) : Prop :=
  Permutation order (nodes w) /\
  forall n a b, order = a ++ n :: b -> Forall (fun d => In d (names a)) (node_depends_on n).

Record between_waves (ran pending : list (Node U E)) (done : gset str) evs st : Prop := {
  bw_forward : forward ran evs st;
  bw_nodes : Permutation (ran ++ pending) (nodes w);
  bw_done : forall d, d ∈ done <-> In d (names ran);
  bw_internal : internal st = false;
  bw_well : Forall (finished_well evs) ran;
  bw_ordered : forall n a b, ran = a ++ n :: b -> Forall (fun d => In d (names a)) (node_depends_on n)
}.

Lemma done_settled ran pending done evs st d : between_waves ran pending done evs st -> d ∈ done -> settled evs d.
Proof.
  intros B D. apply (bw_done _ _ _ _ _ B) in D. apply in_map_iff in D as (n & <- & I).
  destruct (fire_and_forget n) eqn:F.
  - left. exists n. split_and!; [|done|done]. by apply (fw_nodes _ _ _ (bw_forward _ _ _ _ _ B)).
  - right. pose proof (proj1 (List.Forall_forall _ _) (bw_well _ _ _ _ _ B) n I F) as W.
    destruct W as [W|W]; [right|left]; apply (hooks_in (node_name n)); rewrite W; simpl; auto.
Qed.

Lemma is_ready_spec done n : is_ready done n = true <-> Forall (fun d => d ∈ done) (node_depends_on n).
Proof.
  unfold is_ready. rewrite forallb_forall, List.Forall_forall. by setoid_rewrite bool_decide_eq_true.
Qed.

Lemma partition_permutation (p : Node U E -> bool) (l : list (Node U E)) :
  Permutation (List.filter p l ++ List.filter (fun n => negb (p n)) l) l.
Proof.
  induction l as [|x l IH]; [done|]. simpl. destruct (p x); simpl; [by constructor|].
  rewrite <- Permutation_middle. by constructor.
Qed.

(** Why each error of a failed wave is there. *)
Definition justified (token : U -> bool) evs (e : WorkflowError E) : Prop :=
  match e with
  | NodeError nm source => In (on_step_failed nm source 1) evs
  | RunCancelled => (exists u, token u = true) \/ exists nm source, In (on_step_failed nm source 1) evs
  | _ => False
  end.

Lemma wave_errors_in (ns : list (Node U E)) (outcomes : list (NodeOutcome E)) e :
  In e (wave_errors ns outcomes) <-> exists n o, In (n, o) (zip ns outcomes) /\ result_of n o = Err e.
Proof.
  unfold wave_errors. rewrite <- list_elem_of_In, list_elem_of_omap. split.
  - intros ([n o] & I%list_elem_of_In & R). exists n, o. split; [done|]. by destruct (result_of n o); simplify_eq/=.
  - intros (n & o & I & R). exists (n, o). split; [by apply list_elem_of_In|]. by rewrite R.
Qed.

(** One turn of the loop. *)
Lemma next_wave token ran pending done evs st done' blocking st1 outcomes st2 :
  between_waves ran pending done evs st ->
  let ready := List.filter (is_ready done) pending in
  let still := List.filter (fun n => negb (is_ready done n)) pending in
  dispatch ready done [] st = (done', blocking, st1) -> join_wave token blocking st1 = (outcomes, st2) ->
  exists evs2 done2,
    collect (zip_with result_of blocking outcomes) done' [] = (done2, wave_errors blocking outcomes) /\
    forward (ran ++ ready) evs2 st2 /\ Forall (justified token evs2) (wave_errors blocking outcomes) /\
    (wave_errors blocking outcomes = [] -> between_waves (ran ++ ready) still done2 evs2 st2).
Proof.
  intros B ready still Di J. pose proof (partition_permutation (is_ready done) pending) as Pp. fold ready still in Pp.
  assert (Permutation ((ran ++ ready) ++ still) (nodes w)) as Pn by (by rewrite <- app_assoc, Pp, (bw_nodes _ _ _ _ _ B)).
  assert (List.NoDup (names (ran ++ ready))) as Nd.
  { apply (nodup_app_inv _ (names still)). unfold names. rewrite <- map_app.
    eapply Permutation_NoDup; [|exact unique]. symmetry. by apply Permutation_map. }
  assert (incl ready (nodes w)) as Sub.
  { intros n I. eapply Permutation_in; [exact Pn|]. rewrite !in_app_iff. tauto. }
  assert (forall n, In n ready -> Forall (fun d => d ∈ done) (node_depends_on n)) as Dr
    by (intros n [_ R%is_ready_spec]%filter_In; exact R).
  assert (List.NoDup (names ready)) as Ndy by (unfold names in *; rewrite map_app in Nd; by apply nodup_app_inv in Nd as (_ & ? & _)).
  destruct (wave_extension token ready blocking done done' st st1 st2 outcomes Ndy Di J) as (more & Ex & Wp & Ln).
  pose proof (dispatch_spec ready done [] st) as D. rewrite Di in D. destruct D as (Eb & Dd & Int & _).
  destruct (collect_spec blocking outcomes done' [] Ln) as (done2 & Co & Cd). cbn [app] in *.
  assert (forward (ran ++ ready) (evs ++ more) st2) as Fw2.
  { eapply forward_extends; try done; [exact (bw_forward _ _ _ _ _ B)|].
    intros n I. eapply List.Forall_impl; [|by apply Dr]. intros d. by eapply done_settled. }
  assert (forall n source, In (n, HasFailed source) (zip blocking outcomes) -> In (on_step_failed (node_name n) source 1) (evs ++ more)) as Fl.
  { intros n source I. apply in_app_iff. right. apply (hooks_in (node_name n)). rewrite (ex_results _ _ _ _ _ Ex _ _ I). simpl. auto. }
  exists (evs ++ more), done2. split_and!; [done|done| |].
  - apply List.Forall_forall. intros e (n & o & I & R)%wave_errors_in. destruct o; simplify_eq/=; [|by apply Fl].
    destruct (wp_cancelled _ _ _ _ Wp n) as [?|[C|(m & src & (o & Im & [= <-])%zip_finished)]].
    + apply zip_finished. eauto.
    + by left.
    + rewrite Int, (bw_internal _ _ _ _ _ B) in C. done.
    + right. exists (node_name m), src. by apply Fl.
  - intros We. split; [done|done| | | |].
    + intros d. rewrite (Cd We), Dd, (bw_done _ _ _ _ _ B). unfold names. rewrite map_app, in_app_iff, Eb.
      assert (In d (map node_name ready) <-> In d (map node_name (List.filter fire_and_forget ready)) \/
        In d (map node_name (List.filter (fun n => negb (fire_and_forget n)) ready))) as ->; [|tauto].
      rewrite <- in_app_iff, <- map_app. split; apply Permutation_in; [symmetry|]; apply Permutation_map, partition_permutation.
    + destruct (internal st2) eqn:I2; [|done]. destruct (wp_internal _ _ _ _ Wp I2) as [C|(m & src & (o & Im & [= <-])%zip_finished)].
      * by rewrite Int, (bw_internal _ _ _ _ _ B) in C.
      * assert (In (NodeError (node_name m) src) []) as []. rewrite <- We. apply wave_errors_in. eauto.
    + destruct (hooks_extended _ _ _ _ _ _ _ (bw_forward _ _ _ _ _ B) Ex Nd) as [Hm He].
      pose proof (proj1 (List.Forall_forall _ _) (bw_well _ _ _ _ _ B)) as W.
      apply List.Forall_forall. unfold finished_well. intros n [I|I]%in_app_iff F; rewrite hooks_app.
      * rewrite Hm, app_nil_r by done. by apply W.
      * rewrite He by done. destruct (ex_total _ _ _ _ _ Ex n I F) as [o Io]. simpl. rewrite (ex_results _ _ _ _ _ Ex _ _ Io).
        destruct o; [|by left|by right|]; exfalso;
          (eapply (in_nil (A := WorkflowError E)); rewrite <- We; apply wave_errors_in; eauto).
    + intros n a b Eq. apply app_split in Eq as [(b' & Eq & _)|(a' & Eq & ->)]; [by eapply (bw_ordered _ _ _ _ _ B)|].
      eapply List.Forall_impl; [|apply Dr; rewrite Eq; apply in_elt]. intros d I%(bw_done _ _ _ _ _ B).
      unfold names in *. rewrite map_app, in_app_iff. by left.
Qed.

(** Nothing ready while nodes are pending: there is no order. *)
Lemma stuck_no_order ran pending done evs st order :
  between_waves ran pending done evs st -> pending <> [] -> List.filter (is_ready done) pending = [] -> ~ ordered order.
Proof.
  intros B Ne R [P O].
  assert (forall n, In n order <-> In n ran \/ In n pending) as M.
  { intros n. rewrite <- in_app_iff. split; apply Permutation_in; [|symmetry]; by rewrite P, (bw_nodes _ _ _ _ _ B). }
  assert (List.NoDup (names (ran ++ pending))) as Nd.
  { eapply Permutation_NoDup; [|exact unique]. symmetry. apply Permutation_map, (bw_nodes _ _ _ _ _ B). }
  unfold names in Nd. rewrite map_app in Nd. apply nodup_app_inv in Nd as (_ & _ & Disj).
  destruct pending as [|p ps] eqn:Ep; [done|]. rewrite <- Ep in *.
  destruct (first_such (fun n => bool_decide (node_name n ∉ done)) order p) as (a & n & b & -> & Nn & Fa).
  { apply M. right. rewrite Ep. by left. }
  { apply bool_decide_eq_true. intros D. apply (bw_done _ _ _ _ _ B) in D. eapply Disj; [exact D|]. rewrite Ep. by left. }
  apply bool_decide_eq_true in Nn.
  assert (In n pending) as I.
  { destruct (proj1 (M n)) as [I|I]; [apply in_elt| |done]. destruct Nn. apply (bw_done _ _ _ _ _ B). by apply in_map. }
  assert (In n []) as []. rewrite <- R. apply filter_In. split; [done|]. apply is_ready_spec.
  eapply List.Forall_impl; [|exact (O n a b eq_refl)]. intros d (m & <- & Im)%in_map_iff.
  rewrite List.Forall_forall in Fa. specialize (Fa m Im). apply bool_decide_eq_false, dec_stable in Fa. exact Fa.
Qed.

(** ** How a run ends *)

(** The rollback of the nodes that completed in [st]: last first, each
    compensated at most once and reported once, none left out unless
    stop-on-error met an error. *)
Definition rollback st st' : Prop :=
  exists rs rest,
    rolled_back w rs (match completed_order st with [] => st | _ => emit on_compensation_started st end) st' /\
    rev (completed_order st) = map fst rs ++ rest /\ (rest <> [] -> stopped w rs) /\
    log st' = log st ++ match completed_order st with [] => [] | _ => [on_compensation_started] end ++ map report rs.

Lemma find_node_unique n : In n (nodes w) -> find_node w (node_name n) = Some n.
Proof.
  intros I. unfold find_node. destruct (List.find _ (nodes w)) as [m|] eqn:F.
  - apply find_some in F as [Im Eq%bool_decide_eq_true]. f_equal. by apply unique_node.
  - apply (find_none _ _ F) in I. by apply bool_decide_eq_false in I.
Qed.

Lemma compensate_rolls_back ran evs st : forward ran evs st -> rollback st (compensate w st).
Proof.
  intros Fw. unfold rollback, compensate. set (st0 := match completed_order st with [] => st | _ => _ end).
  destruct (compensate_loop_spec w (rev (completed_order st)) st0) as (rs & rest & R & Eq & S & L).
  { intros nm I%in_rev. apply (fw_completed _ _ _ Fw) in I as (n & I & C & -> & _).
    unfold is_compensatable in C. destruct (node_compensate n) as [c|] eqn:Cn; [|done].
    exists n, c. split; [|done]. by apply find_node_unique, (fw_nodes _ _ _ Fw). }
  exists rs, rest. split_and!; [done|done|done|]. rewrite L. unfold st0.
  destruct (completed_order st); [done|]. unfold emit. cbn [log]. by rewrite <- app_assoc.
Qed.

Inductive run_ends (token : U -> bool) : Result unit (WorkflowError E) * WfState U E -> Prop :=
| ends_completed ran evs st st' :
    forward ran evs st -> Forall (finished_well evs) ran -> ordered ran -> rtc async_step st st' ->
    Forall (fun t => t = None) (async_tasks st') ->
    run_ends token (Ok tt, emit (on_completed true) st')
| ends_stuck ran evs st st' :
    forward ran evs st -> (forall order, ~ ordered order) -> rollback st st' ->
    run_ends token (Err NoProgress, emit (on_completed false) st')
| ends_failed ran evs st st' st'' errors :
    forward ran evs st -> errors <> [] -> Forall (justified token evs) errors -> rollback st st' ->
    rtc async_step st' st'' -> Forall (fun t => t = None) (async_tasks st'') ->
    run_ends token (Err (join_errors errors), emit (on_completed false) st'').

Lemma run_waves_ends fuel token ran pending done evs st :
  between_waves ran pending done evs st -> (List.length pending <= fuel)%nat ->
  exists out, run_waves w fuel token pending done st = Some out /\ run_ends token out.
Proof.
  revert ran pending done evs st. induction fuel as [|fuel IH]; intros ran pending done evs st B L;
    destruct pending as [|p ps] eqn:Ep; simpl in L; try lia.
  1,2: destruct (join_async_interleaves st) as [Ra Na]; eexists; split; [reflexivity|];
    eapply (ends_completed _ ran evs); [exact (bw_forward _ _ _ _ _ B)|exact (bw_well _ _ _ _ _ B)| |exact Ra|exact Na];
    split; [rewrite <- (bw_nodes _ _ _ _ _ B); by rewrite app_nil_r|exact (bw_ordered _ _ _ _ _ B)].
  cbn [run_waves]. rewrite <- Ep in *. destruct (List.filter (is_ready done) pending) as [|r rs] eqn:R.
  - eexists. split; [reflexivity|]. eapply ends_stuck; [exact (bw_forward _ _ _ _ _ B)| |by eapply compensate_rolls_back, bw_forward].
    intros order. eapply stuck_no_order; [exact B|by rewrite Ep|exact R].
  - rewrite <- R. destruct (dispatch (List.filter (is_ready done) pending) done [] st) as [[done' blocking] st1] eqn:Di.
    destruct (join_wave token blocking st1) as [outcomes st2] eqn:J.
    destruct (next_wave token ran pending done evs st done' blocking st1 outcomes st2 B Di J) as (evs2 & done2 & Co & Fw & Ju & Nx).
    rewrite Co. destruct (wave_errors blocking outcomes) as [|e es] eqn:We.
    + eapply IH; [by apply Nx|]. pose proof (Permutation_length (partition_permutation (is_ready done) pending)) as Lp.
      rewrite length_app, R in Lp. rewrite Ep in Lp at 2. simpl in Lp. lia.
    + destruct (join_async_interleaves (compensate w st2)) as [Ra Na]. eexists. split; [reflexivity|].
      eapply (ends_failed _ (ran ++ List.filter (is_ready done) pending) evs2); [exact Fw|done|exact Ju| |exact Ra|exact Na].
      by eapply compensate_rolls_back.
Qed.

End Unique.

(** What is wrong with a definition the run refuses. *)
Definition ill_formed (e : WorkflowError E) : Prop :=
  match e with
  | DuplicateNode nm => exists a n b, nodes w = a ++ n :: b /\ node_name n = nm /\ In nm (names a)
  | UnknownNode nm d => exists n, In n (nodes w) /\ node_name n = nm /\ In d (node_depends_on n) /\ ~ In d (names (nodes w))
  | _ => False
  end.

Lemma check_spec :
  match check (nodes w) with
  | Some e => ill_formed e
  | None => List.NoDup (names (nodes w))
  end.
Proof.
  unfold check. pose proof (check_names_spec (nodes w) ∅) as C. destruct (check_names (nodes w) ∅) as [all|e].
  - destruct C as (Nd & _ & A). destruct (head _) as [e|] eqn:Hd; [|done].
    destruct (omap _ (nodes w)) as [|x l] eqn:Om; [done|]. simpl in Hd. injection Hd as ->.
    assert (e ∈ omap (unknown_dependency all) (nodes w)) as I by (rewrite Om; by left).
    apply list_elem_of_omap in I as (n & I%list_elem_of_In & Un). unfold unknown_dependency in Un.
    destruct (List.find _ (node_depends_on n)) as [d|] eqn:F; [|done]. injection Un as <-.
    apply find_some in F as [Id Nd'%bool_decide_eq_true]. exists n. split_and!; try done. intros J. apply Nd', A. by right.
  - destruct C as (a & n & b & Eq & -> & [S|S]); [by apply elem_of_empty in S|]. by exists a, n, b.
Qed.

Lemma before_waves u : between_waves [] (nodes w) ∅ [] (mkWf u [on_start] false [] []).
Proof.
  assert (forall A (e : A) a b, [] = a ++ e :: b -> False) as Nil by (by intros A e [|? a] b).
  split; simpl; [split; simpl| | | | |]; try done.
  - apply incl_nil_l.
  - intros n a b _ Eq. by apply Nil in Eq.
  - constructor.
  - intros nm. split; [done|]. by intros (n & [] & _).
  - intros n a b Eq. by apply Nil in Eq.
Qed.

(** C5 Every run of a workflow ends, whatever the interleaving of its tasks. An
    ill-formed definition is refused before any node starts. Otherwise the run
    either completes every node, in an order that respects the dependencies,
    each awaited node skipped or succeeded; or stops because there is no such
    order; or stops at a wave with errors, each of them a node's failure or a
    cancellation that the caller's token or a failed node accounts for. In the
    last two cases the compensatable nodes that completed are rolled back, last
    completed first. *)
Theorem workflow_run token u :
  match check (nodes w) with
  | Some e => ill_formed e /\ run_inner w token u = Some (Err e, mkWf u [on_start; on_completed false] false [] [])
  | None => exists out, run_inner w token u = Some out /\ run_ends token out
  end.
Proof.
  unfold run_inner. pose proof check_spec as C. destruct (check (nodes w)) as [e|]; [done|].
  apply (run_waves_ends C _ token [] (nodes w) ∅ []); [apply before_waves|done].
Qed.

Lemma started_once ran evs st n a b : List.NoDup (names (nodes w)) -> forward ran evs st -> In n (nodes w) ->
  evs = a ++ on_step_started (node_name n) :: b -> ~ In (on_step_started (node_name n)) (a ++ b).
Proof.
  intros Nd Fw I Eq.
  assert (In n ran) as Ir.
  { destruct (fw_about _ _ _ Fw (on_step_started (node_name n))) as (m & Im & [= Em]); [rewrite Eq; apply in_elt|].
    rewrite (unique_node Nd n m); [done|done|by apply (fw_nodes _ _ _ Fw)|done]. }
  pose proof (fw_hooks _ _ _ Fw n Ir) as Hk. rewrite Eq in Hk.
  assert (forall e : WorkflowEvent.t E, about e = Some (node_name n) -> In e (a ++ b) -> In e (hooks (node_name n) a ++ hooks (node_name n) b)) as K.
  { intros e A J. rewrite in_app_iff in *. rewrite !hooks_in. tauto. }
  intros J. apply (K (on_step_started (node_name n)) eq_refl) in J. change (on_step_started (node_name n) :: b) with ([on_step_started (E := E) (node_name n)] ++ b) in Hk.
  rewrite !hooks_app, hooks_one, bool_decide_eq_true_2 in Hk by done. unfold node_hooks in Hk.
  destruct (hooks (node_name n) a) as [|x la]; simpl in *.
  - destruct (fire_and_forget n); [by destruct Hk as [[=]|[=]]|]. destruct Hk as [o Hk].
    destruct o; try discriminate; injection Hk as Hk; rewrite Hk in J; by destruct J as [[=]|[]].
  - destruct (fire_and_forget n); [destruct Hk as [[=]|[= _ Hk]]; by destruct la|]. destruct Hk as [o Hk].
    destruct o; try discriminate; injection Hk as _ Hk; destruct la as [|? [|]]; discriminate.
Qed.

(** The hooks after the forward part of a run. *)
Lemma run_ends_log token out : run_ends token out -> exists ran evs st tail,
  forward ran evs st /\ log (snd out) = on_start :: evs ++ tail /\
  forall nm, ~ In (on_step_started nm) tail.
Proof.
  intros [ran evs st st' Fw _ _ R _|ran evs st st' Fw _ (rs & rest & _ & _ & _ & L)|ran evs st st' st'' errors Fw _ _ (rs & rest & _ & _ & _ & L) R _];
    exists ran, evs, st; cbn [snd emit log]; pose proof (fw_log _ _ _ Fw) as Lf; try (apply async_steps_frame in R as (Lr & _ & _)).
  - exists [on_completed true]. split_and!; [done|by rewrite Lr, Lf|]. by intros nm [[=]|[]].
  - eexists. split_and!; [done|rewrite L, Lf; simpl; by rewrite <- !app_assoc|].
    intros nm I. rewrite !in_app_iff in I. destruct I as [I|[(x & [=] & _)%in_map_iff|[[=]|[]]]].
    revert I. destruct (completed_order st); simpl; [done|by intros [[=]|[]]].
  - eexists. split_and!; [done|rewrite Lr, L, Lf; simpl; by rewrite <- !app_assoc|].
    intros nm I. rewrite !in_app_iff in I. destruct I as [I|[(x & [=] & _)%in_map_iff|[[=]|[]]]].
    revert I. destruct (completed_order st); simpl; [done|by intros [[=]|[]]].
Qed.

(** C6 In whatever order the tasks of a wave take their turns, no node starts
    twice, and when a node starts every one of its dependencies has succeeded
    or been skipped, or is a fire-and-forget node. *)
Theorem workflow_order token u result st n before after :
  run_inner w token u = Some (result, st) -> In n (nodes w) ->
  log st = before ++ on_step_started (node_name n) :: after ->
  ~ In (on_step_started (node_name n)) (before ++ after) /\ Forall (settled before) (node_depends_on n).
Proof.
  intros R I Eq. unfold run_inner in R. pose proof check_spec as C. destruct (check (nodes w)) as [e|].
  { injection R as _ <-. simpl in Eq. destruct before as [|? [|? [|]]]; simplify_eq/=. }
  destruct (run_waves_ends C (List.length (nodes w)) token [] (nodes w) ∅ [] (mkWf u [on_start] false [] [])) as (out & R' & Re);
    [apply before_waves|done|].
  rewrite R in R'. injection R' as <-. destruct (run_ends_log _ _ Re) as (ran & evs & st0 & tail & Fw & L & T).
  cbn [snd] in L. rewrite L in Eq. destruct before as [|e before]; [discriminate|]. injection Eq as <- Eq.
  apply app_split in Eq as [(b' & -> & ->)|(a' & Eq & ->)]; [|destruct (T (node_name n)); rewrite Eq; apply in_elt].
  pose proof (fw_order _ _ _ Fw n before b' I eq_refl) as O. split.
  - pose proof (started_once _ _ _ n before b' C Fw I eq_refl) as N. simpl. rewrite !in_app_iff in *.
    intros [[=]|[J|[J|J]]]; [tauto|tauto|by apply T in J].
  - eapply List.Forall_impl; [|exact O]. intros d. unfold settled. simpl. tauto.
Qed.

End Theorems.

(** * A scheduler and a run *)

Section InOrder.
Context {V U E : Type} `{CharClasses} `{JsonFloats V} `{!Shared V U}.
Implicit Types st : WfState U E.

(** One node's future, without interruption. *)
Definition run_node (token : U -> bool) (n : Node U E) st : NodeOutcome E * WfState U E :=
  if token (world st) || internal st then (WasCancelled, st)
  else if condition_holds n (world st) then
    let st := emit (on_step_started (node_name n)) st in
    match body n (world st) with
    | (Ok _, u) => (HasSucceeded, complete n (emit (on_step_success (node_name n) 1) (set_world u st)))
    | (Err source, u) => (HasFailed source, cancel_internal (emit (on_step_failed (node_name n) source 1) (set_world u st)))
    end
  else (WasSkipped, emit (on_step_skipped (node_name n)) st).

Fixpoint wave_in_order (token : U -> bool) (ns : list (Node U E)) st : list (NodeOutcome E) * WfState U E :=
  match ns with
  | [] => ([], st)
  | n :: ns' =>
      let '(o, st) := run_node token n st in
      let '(os, st) := wave_in_order token ns' st in (o :: os, st)
  end.

Fixpoint async_in_order (tasks : list (option (Action U E))) (u : U) : U :=
  match tasks with
  | [] => u
  | None :: ts => async_in_order ts u
  | Some b :: ts => async_in_order ts (snd (b u))
  end.

Definition join_in_order st : WfState U E :=
  mkWf (async_in_order (async_tasks st) (world st)) (log st) (internal st) (completed_order st)
    (map (fun _ => None) (async_tasks st)).

Lemma run_node_steps token n st l1 l2 :
  rtc (wave_step token) (l1 ++ (n, Waiting) :: l2, st)
    (l1 ++ (n, Finished (fst (run_node token n st))) :: l2, snd (run_node token n st)).
Proof.
  unfold run_node. destruct (token (world st) || internal st) eqn:T; [by apply rtc_once, wave_node, node_cancelled|].
  destruct (condition_holds n (world st)) eqn:C; [|by apply rtc_once, wave_node, node_skipped].
  eapply rtc_l; [by apply wave_node, node_started|].
  destruct (body n _) as [[[]|source] u] eqn:B; (eapply rtc_l; [eapply wave_node, node_body, B|]);
    (eapply rtc_l; [apply wave_node; constructor|]); apply rtc_once, wave_node; constructor.
Qed.

Lemma wave_in_order_steps token ns st l1 :
  List.length (fst (wave_in_order token ns st)) = List.length ns /\
  rtc (wave_step token) (l1 ++ map (fun n => (n, Waiting)) ns, st)
    (l1 ++ zip ns (map Finished (fst (wave_in_order token ns st))), snd (wave_in_order token ns st)).
Proof.
  revert st l1. induction ns as [|n ns IH]; intros st l1; [split; [done|apply rtc_refl]|].
  cbn [wave_in_order]. pose proof (run_node_steps token n st l1 (map (fun n => (n, Waiting)) ns)) as R.
  destruct (run_node token n st) as [o st1]. cbn [fst snd] in R.
  destruct (IH st1 (l1 ++ [(n, Finished o)])) as [L R2]. destruct (wave_in_order token ns st1) as [os st2]. cbn [fst snd] in *.
  split; [simpl; by rewrite L|]. etransitivity; [exact R|]. rewrite <- !app_assoc in R2. exact R2.
Qed.

Lemma join_in_order_steps a1 tasks u l i c :
  rtc async_step (mkWf u l i c (map (fun _ : option (Action U E) => None) a1 ++ tasks))
    (mkWf (async_in_order tasks u) l i c (map (fun _ => None) (a1 ++ tasks))).
Proof.
  revert a1 u. induction tasks as [|[b|] tasks IH]; intros a1 u; cbn [async_in_order].
  - rewrite !app_nil_r. apply rtc_refl.
  - destruct (b u) as [r u'] eqn:B. cbn [snd]. eapply rtc_l; [eapply async_runs, B|].
    specialize (IH (a1 ++ [None]) u'). rewrite map_app, <- !app_assoc in IH. rewrite map_app in *. exact IH.
  - specialize (IH (a1 ++ [None]) u). rewrite map_app, <- !app_assoc in IH. rewrite map_app in *. exact IH.
Qed.

#[export, refine] Instance in_order_scheduler : Scheduler V U E := {
  join_wave := wave_in_order;
  background st := st;
  join_async := join_in_order
}.
Proof.
  - intros token ns st. exact (wave_in_order_steps token ns st []).
  - intros st. apply rtc_refl.
  - intros [u l i c a]. split; [exact (join_in_order_steps [] a u l i c)|].
    apply List.Forall_map, List.Forall_forall. done.
Defined.

End InOrder.

(** A world that records the bodies run, with a fixed context. *)
#[local] Instance demo_shared : Shared json (list Z) := {| context_of _ := demo_context |}.

Definition demo_body (k : Z) (ok : bool) : Action (list Z) unit :=
  fun u => (if ok then Ok tt else Err (BoxUser tt), u ++ [k]).

(** [ship] needs [pay] and [pack]; [audit] is skipped; [mail] is fire-and-forget. *)
Definition demo_workflow (ok : bool) : Workflow (list Z) unit :=
  mkWorkflow (lit "order")
    [node_depends (node_new (lit "ship") (demo_body 3 ok)) [lit "pay"; lit "pack"; lit "mail"];
     node_with_compensation (node_new (lit "pay") (demo_body 1 true)) (demo_body (-1) true);
     node_with_compensation (node_depends (node_new (lit "pack") (demo_body 2 true)) [lit "pay"]) (demo_body (-2) false);
     when (node_new (lit "audit") (demo_body 9 true)) (lit "variables['dry_run']");
     node_fire_and_forget (node_new (lit "mail") (demo_body 7 true))] BestEffort.

Lemma workflow_run_witness :
  exists st, run_inner (demo_workflow false) (fun _ => false) [] =
      Some (Err (NodeError (lit "ship") (BoxUser tt)), st) /\ world st = [1; 2; 3; -2; -1; 7] /\
    run_ends (demo_workflow false) (fun _ => false) (Err (NodeError (lit "ship") (BoxUser tt)), st).
Proof.
  pose proof (workflow_run (demo_workflow false) (fun _ => false) []) as M.
  destruct (check (nodes (demo_workflow false))) as [e|] eqn:C; [discriminate C|].
  destruct M as ([r st] & R & Re). vm_compute in R. injection R as <- <-.
  eexists. split; [vm_compute; reflexivity|]. split; [reflexivity|exact Re].
Defined.

Lemma workflow_order_witness :
  exists result st before after, run_inner (demo_workflow true) (fun _ => false) [] = Some (result, st) /\
    log st = before ++ on_step_started (lit "ship") :: after /\
    Forall (settled (demo_workflow true) before) [lit "pay"; lit "pack"; lit "mail"].
Proof.
  destruct (run_inner (demo_workflow true) (fun _ => false) []) as [[r st]|] eqn:R; [|vm_compute in R; discriminate R].
  pose proof R as R'. vm_compute in R'. injection R' as Er Es.
  exists r, st, (take 6 (log st)), (drop 7 (log st)).
  assert (log st = take 6 (log st) ++ on_step_started (lit "ship") :: drop 7 (log st)) as Eq by (subst st; reflexivity).
  split; [reflexivity|]. split; [exact Eq|].
  destruct (workflow_order (demo_workflow true) (fun _ => false) [] r st
    (node_depends (node_new (lit "ship") (demo_body 3 true)) [lit "pay"; lit "pack"; lit "mail"])
    (take 6 (log st)) (drop 7 (log st)) R) as [_ S].
  - by left.
  - exact Eq.
  - exact S.
Defined.
