(* ===== verification/Executions.v ===== *)
(** Executions that outlive their process: the state of [model.rs], the
    persistence port and its in-process adapter of [persistence.rs], the
    recovery of [recovery.rs], the durable contexts of [workflow_advanced.rs]
    and the dead letters of [dlq.rs], all of [crates/orchestration/src/].

    Instants are chrono's: [date_sub], what subtracting a duration gives, is a
    class. The adapter's critical sections are functions of its map and of the
    clock; a recovery pass awaits between them, so concurrent passes are a step
    relation. *)
From Stdlib Require Import Ascii String.
From Stdlib Require Import ZArith NArith List Lia Sorting.Sorted Sorting.Permutation.
From stdpp Require Import base decidable list gmap relations.
From S2P Require Import Prelude Str Order Json StepContext.

(** * The state of an execution *)

Module Status.
Inductive t : Type :=
| Pending | Running | Waiting | Suspended | Completed | Failed | Cancelled | TimedOut
| Trying | Confirming | Confirmed | Canceling | Canceled | Compensating | Compensated.

#[global] Instance status_eq_dec : EqDecision t.
Proof. solve_decision. Defined.

Definition ALL : list t :=
  [Pending; Running; Waiting; Suspended; Completed; Failed; Cancelled; TimedOut;
   Trying; Confirming; Confirmed; Canceling; Canceled; Compensating; Compensated].

Definition is_terminal (s : t) : bool :=
  match s with
  | Completed | Failed | Cancelled | TimedOut | Confirmed | Canceled | Compensated => true
  | _ => false
  end.

Definition as_str (s : t) : str :=
  match s with
  | Pending => lit "PENDING" | Running => lit "RUNNING" | Waiting => lit "WAITING"
  | Suspended => lit "SUSPENDED" | Completed => lit "COMPLETED" | Failed => lit "FAILED"
  | Cancelled => lit "CANCELLED" | TimedOut => lit "TIMED_OUT" | Trying => lit "TRYING"
  | Confirming => lit "CONFIRMING" | Confirmed => lit "CONFIRMED" | Canceling => lit "CANCELING"
  | Canceled => lit "CANCELED" | Compensating => lit "COMPENSATING" | Compensated => lit "COMPENSATED"
  end.

Definition parse (s : str) : option t := List.find (fun status => str_eqb (as_str status) s) ALL.

Lemma parse_as_str s : parse (as_str s) = Some s.
Proof. by destruct s. Qed.
End Status.

Module Pattern.
Inductive t : Type := Saga | Workflow | Tcc.
#[global] Instance pattern_eq_dec : EqDecision t.
Proof. solve_decision. Defined.
Definition as_str (p : t) : str :=
  match p with Saga => lit "SAGA" | Workflow => lit "WORKFLOW" | Tcc => lit "TCC" end.
End Pattern.

Record ExecutionState (V : Type) : Type := mkExecution {
  exec_id : str;
  exec_name : str;
  pattern : Pattern.t;
  status : Status.t;
  started_at : Z;
  updated_at : Z;
  completed_at : option Z;
  payload : V
}.
Arguments mkExecution {V}. Arguments exec_id {V}. Arguments exec_name {V}. Arguments pattern {V}. Arguments status {V}.
Arguments started_at {V}. Arguments updated_at {V}. Arguments completed_at {V}. Arguments payload {V}.

Section State.
Context {V : Type}.
Implicit Type s : ExecutionState V.

Definition execution_new `{JsonValue V} (cid name : str) (p : Pattern.t) (now : Z) : ExecutionState V :=
  mkExecution cid name p Status.Pending now now None (json_object map_new).

Definition with_status (st : Status.t) s : ExecutionState V :=
  mkExecution (exec_id s) (exec_name s) (pattern s) st (started_at s) (updated_at s) (completed_at s) (payload s).
Definition with_payload (v : V) s : ExecutionState V :=
  mkExecution (exec_id s) (exec_name s) (pattern s) (status s) (started_at s) (updated_at s) (completed_at s) v.

Definition exec_is_terminal s : bool := Status.is_terminal (status s).

Definition touch (now : Z) s : ExecutionState V :=
  mkExecution (exec_id s) (exec_name s) (pattern s) (status s) (started_at s) now (completed_at s) (payload s).

Definition transition (st : Status.t) (now : Z) s : ExecutionState V :=
  mkExecution (exec_id s) (exec_name s) (pattern s) st (started_at s) now
    (if Status.is_terminal st then Some now else completed_at s) (payload s).

Record ExecutionFilter : Type := mkFilter { by_status : option Status.t; by_pattern : option Pattern.t }.
Definition filter_all : ExecutionFilter := mkFilter None None.
Definition filter_status (st : Status.t) (f : ExecutionFilter) : ExecutionFilter := mkFilter (Some st) (by_pattern f).
Definition filter_pattern (p : Pattern.t) (f : ExecutionFilter) : ExecutionFilter := mkFilter (by_status f) (Some p).

Definition filter_matches (f : ExecutionFilter) s : bool :=
  match by_status f with Some st => bool_decide (status s = st) | None => true end &&
  match by_pattern f with Some p => bool_decide (pattern s = p) | None => true end.
End State.

(** chrono's subtraction of a duration from an instant: a panic out of range. *)
Class DateArith : Type := {
  date_sub : Z -> Z -> option Z;
  date_sub_exact : forall t d c, date_sub t d = Some c -> c = t - d
}.

(** * The persistence port *)

Definition PersistenceError : Type := str.

Record PersistenceProvider (V W : Type) : Type := mkProvider {
  save : ExecutionState V -> M W (Result unit PersistenceError);
  load : str -> M W (Result (option (ExecutionState V)) PersistenceError);
  list_executions : ExecutionFilter -> M W (Result (list (ExecutionState V)) PersistenceError);
  list_stale : Z -> M W (Result (list (ExecutionState V)) PersistenceError);
  claim_stale : str -> Z -> Status.t -> M W (Result (option (ExecutionState V)) PersistenceError);
  delete_execution : str -> M W (Result bool PersistenceError);
  cleanup : Z -> M W (Result nat PersistenceError);
  is_healthy : M W bool
}.
Arguments mkProvider {V W}. Arguments save {V W}. Arguments load {V W}. Arguments list_executions {V W}.
Arguments list_stale {V W}. Arguments claim_stale {V W}. Arguments delete_execution {V W}. Arguments cleanup {V W}.
Arguments is_healthy {V W}.

(** A row that may be claimed: still running, and last touched before [before]. *)
Definition is_stale {V} (before : Z) (s : ExecutionState V) : bool := negb (exec_is_terminal s) && (updated_at s <? before).

(** The port's own [claim_stale]: load, check, save. *)
Definition default_claim_stale {V W} (utc_now : W -> Z)
    (load : str -> M W (Result (option (ExecutionState V)) PersistenceError))
    (save : ExecutionState V -> M W (Result unit PersistenceError))
    (cid : str) (before : Z) (claimed : Status.t) : M W (Result (option (ExecutionState V)) PersistenceError) :=
  let? found := load cid in
  match found with
  | None => ret (Ok None)
  | Some s =>
      if exec_is_terminal s || (before <=? updated_at s) then ret (Ok None)
      else fun w =>
        let s := transition claimed (utc_now w) s in
        (let? _ := save s in ret (Ok (Some s))) w
  end.

Definition default_is_healthy {W} : M W bool := ret true.

(** ** In process *)

Abbreviation Executions V := (gmap str (ExecutionState V)).

(** A map lists its values in an order of its own. *)
Class Values (V : Type) : Type := {
  values : Executions V -> list (ExecutionState V);
  values_all : forall m, values m ≡ₚ map snd (map_to_list m)
}.

Section Memory.
Context {V : Type} `{Values V} `{DateArith}.
Implicit Type m : Executions V.

Definition memory_save (s : ExecutionState V) m : Executions V := <[exec_id s := s]> m.
Definition memory_load (cid : str) m : option (ExecutionState V) := m !! cid.
Definition memory_list (f : ExecutionFilter) m : list (ExecutionState V) :=
  sort_by (fun a b => Z.compare (started_at a) (started_at b)) (List.filter (filter_matches f) (values m)).
Definition memory_list_stale (before : Z) m : list (ExecutionState V) := List.filter (is_stale before) (values m).

(** One critical section. *)
Definition memory_claim (cid : str) (before : Z) (claimed : Status.t) (now : Z) m
  : option (ExecutionState V) * Executions V :=
  match m !! cid with
  | None => (None, m)
  | Some s =>
      if exec_is_terminal s || (before <=? updated_at s) then (None, m)
      else let s := transition claimed now s in (Some s, <[cid := s]> m)
  end.

Definition memory_delete (cid : str) m : bool * Executions V := (bool_decide (is_Some (m !! cid)), delete cid m).

Definition expired (cutoff : Z) (s : ExecutionState V) : bool :=
  exec_is_terminal s && (default (updated_at s) (completed_at s) <? cutoff).

Definition memory_cleanup (older_than now : Z) m : option (nat * Executions V) :=
  cutoff ← date_sub now older_than;
  let doomed := map exec_id (List.filter (expired cutoff) (values m)) in
  Some (List.length doomed, fold_left (fun m cid => delete cid m) doomed m).

(** The world of the adapter: its map, the clock, and the rest. *)
Record MemoryWorld (U : Type) : Type := mkWorld { store : Executions V; now : Z; user : U }.

Definition set_store {U : Type} (m : Executions V) (w : MemoryWorld U) : MemoryWorld U := mkWorld U m (now U w) (user U w).

Definition MemoryPersistence {U : Type} : PersistenceProvider V (MemoryWorld U) :=
  mkProvider
    (fun s w => Some (Ok tt, set_store (memory_save s (store U w)) w))
    (fun cid w => Some (Ok (memory_load cid (store U w)), w))
    (fun f w => Some (Ok (memory_list f (store U w)), w))
    (fun before w => Some (Ok (memory_list_stale before (store U w)), w))
    (fun cid before claimed w =>
       let '(r, m) := memory_claim cid before claimed (now U w) (store U w) in Some (Ok r, set_store m w))
    (fun cid w => let '(b, m) := memory_delete cid (store U w) in Some (Ok b, set_store m w))
    (fun older_than w => '(n, m) ← memory_cleanup older_than (now U w) (store U w); Some (Ok n, set_store m w))
    default_is_healthy.
End Memory.
Arguments mkWorld {V U}. Arguments store {V U}. Arguments now {V U}. Arguments user {V U}.

(** * Recovery *)

Inductive RecoveryAction : Type := MarkFailed | Resume | Compensate | Skip.
#[export] Instance RecoveryAction_eq_dec : EqDecision RecoveryAction.
Proof. solve_decision. Defined.

(** A handler acts on the world and may fail. *)
Definition RecoveryHandler (V W E : Type) : Type := ExecutionState V -> M W (Result unit E).

Record RecoveryService (V W E : Type) : Type := mkRecovery {
  persistence : PersistenceProvider V W;
  stale_threshold : Z;
  retention_period : Z;
  decider : option (ExecutionState V -> RecoveryAction);
  resume : option (RecoveryHandler V W E);
  compensate : option (RecoveryHandler V W E)
}.
Arguments mkRecovery {V W E}. Arguments persistence {V W E}. Arguments stale_threshold {V W E}.
Arguments retention_period {V W E}. Arguments decider {V W E}. Arguments resume {V W E}. Arguments compensate {V W E}.

Definition HOUR : Z := 3600 * NANOS_PER_SEC.

Definition recovery_new {V W E} (p : PersistenceProvider V W) : RecoveryService V W E :=
  mkRecovery p HOUR (7 * 24 * HOUR) None None None.

Section Recovery.
Context {V W E : Type} `{DateArith}.
Variable utc_now : W -> Z.
Variable r : RecoveryService V W E.

Definition find_stale : M W (Result (list (ExecutionState V)) PersistenceError) := fun w =>
  cutoff ← date_sub (utc_now w) (stale_threshold r);
  list_stale (persistence r) cutoff w.

Definition action_for (candidate : ExecutionState V) : RecoveryAction :=
  match decider r with Some d => d candidate | None => MarkFailed end.

(** The marker a row is claimed with; [Skip] claims nothing. *)
Definition claim_status (a : RecoveryAction) : option Status.t :=
  match a with
  | Skip => None
  | MarkFailed => Some Status.Failed
  | Resume => Some Status.Running
  | Compensate => Some Status.Compensating
  end.

(** The handler of an action, and the status its success leads to. *)
Definition handler_of (a : RecoveryAction) : option (option (RecoveryHandler V W E) * Status.t) :=
  match a with
  | Resume => Some (resume r, Status.Completed)
  | Compensate => Some (compensate r, Status.Compensated)
  | MarkFailed | Skip => None
  end.

(** A missing handler counts as a failed one. *)
Definition run_handler (h : option (RecoveryHandler V W E)) (s : ExecutionState V) : M W bool :=
  match h with
  | Some h => let! outcome := h s in ret (is_ok outcome)
  | None => ret false
  end.

(** What follows a claim. *)
Definition settle_claim (a : RecoveryAction) (s : ExecutionState V) : M W (Result unit PersistenceError) :=
  match handler_of a with
  | None => ret (Ok tt)
  | Some (h, done) =>
      let! ok := run_handler h s in
      fun w => save (persistence r) (transition (if ok then done else Status.Failed) (utc_now w) s) w
  end.

Fixpoint recover_loop (cutoff : Z) (stale : list (ExecutionState V)) (recovered : nat)
  : M W (Result nat PersistenceError) :=
  match stale with
  | [] => ret (Ok recovered)
  | candidate :: stale =>
      let action := action_for candidate in
      match claim_status action with
      | None => recover_loop cutoff stale recovered
      | Some claimed =>
          let? won := claim_stale (persistence r) (exec_id candidate) cutoff claimed in
          match won with
          | None => recover_loop cutoff stale recovered
          | Some s =>
              let? _ := settle_claim action s in
              recover_loop cutoff stale (S recovered)
          end
      end
  end.

Definition recover_stale : M W (Result nat PersistenceError) := fun w =>
  cutoff ← date_sub (utc_now w) (stale_threshold r);
  (let? stale := list_stale (persistence r) cutoff in recover_loop cutoff stale 0) w.

Definition recovery_cleanup : M W (Result nat PersistenceError) := cleanup (persistence r) (retention_period r).
End Recovery.

(** * Durable contexts *)

Section Durable.
Context {V W : Type} `{JsonEntries V}.
Variable utc_now : W -> Z.
Variable p : PersistenceProvider V W.

Definition suspend (name : str) (ctx : StepContext V) : M W (Result unit PersistenceError) := fun w =>
  save p (with_payload (to_snapshot ctx)
    (with_status Status.Suspended (execution_new (correlation_id ctx) name Pattern.Workflow (utc_now w)))) w.

Definition resume_context (cid : str) : M W (Result (option (StepContext V)) PersistenceError) :=
  let? found := load p cid in
  ret (Ok match found with Some s => Some (from_snapshot (payload s)) | None => None end).
End Durable.

(** * Several passes at once

    A recovery pass is between two of its awaits: before it lists the stale
    rows, before its next claim, or inside a handler. *)

Record Pass (V : Type) : Type := mkPass {
  start : Z;
  cutoff : Z;
  queue : option (list (ExecutionState V));
  busy : option (RecoveryAction * ExecutionState V)
}.
Arguments mkPass {V}. Arguments start {V}. Arguments cutoff {V}. Arguments queue {V}. Arguments busy {V}.

(** A claim that was won: whose pass had started when, and when it was made. *)
Record Claim : Type := mkClaim { claim_id : str; pass_start : Z; claim_time : Z }.

Record Site (V : Type) : Type := mkSite { rows : Executions V; clock : Z; passes : list (Pass V); claims : list Claim }.
Arguments mkSite {V}. Arguments rows {V}. Arguments clock {V}. Arguments passes {V}. Arguments claims {V}.

Section Passes.
Context {V : Type} `{Values V} `{DateArith}.
Variable threshold : Z.
Variable action_of : ExecutionState V -> RecoveryAction.
Implicit Types (row candidate : ExecutionState V) (m : Executions V) (s : Site V) (p : Pass V) (c d : Claim).

(** The row of a claim, and what is left of the pass. *)
Definition claim_next (candidate : ExecutionState V) (rest : list (ExecutionState V)) (p : Pass V) (s : Site V)
  : Executions V * Pass V * list Claim :=
  match claim_status (action_of candidate) with
  | None => (rows s, mkPass (start p) (cutoff p) (Some rest) None, [])
  | Some claimed =>
      let '(won, m) := memory_claim (exec_id candidate) (cutoff p) claimed (clock s) (rows s) in
      match won with
      | None => (m, mkPass (start p) (cutoff p) (Some rest) None, [])
      | Some row =>
          (m, mkPass (start p) (cutoff p) (Some rest)
                (match action_of candidate with MarkFailed => None | a => Some (a, row) end),
           [mkClaim (exec_id candidate) (start p) (clock s)])
      end
  end.

Inductive site_step (s : Site V) : Site V -> Prop :=
| site_tick t : clock s <= t -> site_step s (mkSite (rows s) t (passes s) (claims s))
| site_begin (c : Z) : date_sub (clock s) threshold = Some c ->
    site_step s (mkSite (rows s) (clock s) (passes s ++ [mkPass (clock s) c None None]) (claims s))
| site_list i p : passes s !! i = Some p -> queue p = None ->
    site_step s (mkSite (rows s) (clock s)
      (<[i := mkPass (start p) (cutoff p) (Some (memory_list_stale (cutoff p) (rows s))) None]> (passes s)) (claims s))
| site_claim i p candidate rest m p' cs : passes s !! i = Some p -> queue p = Some (candidate :: rest) -> busy p = None ->
    claim_next candidate rest p s = (m, p', cs) ->
    site_step s (mkSite m (clock s) (<[i := p']> (passes s)) (claims s ++ cs))
| site_settle i p a row (ok : bool) : passes s !! i = Some p -> busy p = Some (a, row) ->
    site_step s (mkSite
      (memory_save (transition (if ok then match a with Resume => Status.Completed | _ => Status.Compensated end
                                else Status.Failed) (clock s) row) (rows s))
      (clock s) (<[i := mkPass (start p) (cutoff p) (queue p) None]> (passes s)) (claims s))
| site_touch row : clock s <= updated_at row -> site_step s (mkSite (memory_save row (rows s)) (clock s) (passes s) (claims s))
| site_delete cid : site_step s (mkSite (snd (memory_delete cid (rows s))) (clock s) (passes s) (claims s)).

(** A claimed row, if it is still there, was touched no earlier than its last
    claim, and every pass keeps the cutoff it began with. *)
Record apart (s : Site V) : Prop := {
  touched : forall c row, c ∈ claims s -> rows s !! claim_id c = Some row -> claim_time c <= updated_at row;
  past : forall c, c ∈ claims s -> claim_time c <= clock s;
  cutoffs : forall p, p ∈ passes s -> cutoff p = start p - threshold;
  separated : forall l1 c l2 d l3, claims s = l1 ++ c :: l2 ++ d :: l3 -> claim_id c = claim_id d ->
    claim_time c + threshold < pass_start d
}.

Lemma apart_rows (m : Executions V) (s : Site V) : apart s ->
  (forall k row, m !! k = Some row -> rows s !! k = Some row \/ clock s <= updated_at row) ->
  forall ps : list (Pass V), (forall p, p ∈ ps -> cutoff p = start p - threshold) -> apart (mkSite m (clock s) ps (claims s)).
Proof.
  intros [T P C S] M ps Ps. split; cbn; try done. intros c row I R. destruct (M _ _ R) as [R'|L]; [by apply (T c)|].
  specialize (P c I). lia.
Qed.

Lemma cutoffs_insert s i p : apart s -> cutoff p = start p - threshold ->
  forall q, q ∈ <[i := p]> (passes s) -> cutoff q = start q - threshold.
Proof.
  intros A E q I. apply list_elem_of_lookup in I as [j L]. destruct (decide (i = j)) as [<-|N].
  - destruct (decide (i < List.length (passes s))%nat).
    + rewrite list_lookup_insert_eq in L by done. by injection L as <-.
    + rewrite list_insert_ge in L by lia. apply (cutoffs s A), list_elem_of_lookup. by exists i.
  - rewrite list_lookup_insert_ne in L by done. apply (cutoffs s A), list_elem_of_lookup. by exists j.
Qed.

Lemma save_touches row (m : Executions V) t : t <= updated_at row -> forall k r,
  memory_save row m !! k = Some r -> m !! k = Some r \/ t <= updated_at r.
Proof.
  intros L k r. unfold memory_save. destruct (decide (k = exec_id row)) as [->|N].
  - rewrite lookup_insert_eq. intros [= <-]. by right.
  - rewrite lookup_insert_ne by done. by left.
Qed.

(** Two claims of one row in a log with one more claim at its end. *)
Lemma split_snoc {A} (l l1 l2 l3 : list A) (x c d : A) : l ++ [x] = l1 ++ c :: l2 ++ d :: l3 ->
  (exists l3', l = l1 ++ c :: l2 ++ d :: l3') \/ (c ∈ l /\ d = x).
Proof.
  intros E. destruct l3 as [|y l3] using rev_ind.
  - right. assert (l ++ [x] = (l1 ++ c :: l2) ++ [d]) as E' by (by rewrite E, <- app_assoc).
    apply app_inj_tail in E' as [-> ->]. split; [|done]. apply elem_of_app. right. by left.
  - left. exists l3. assert (l ++ [x] = (l1 ++ c :: l2 ++ d :: l3) ++ [y]) as E'.
    { rewrite E, <- !app_assoc. cbn. by rewrite <- app_assoc. }
    by apply app_inj_tail in E' as [-> _].
Qed.

Lemma claim_keeps s candidate rest p m p' cs : apart s -> p ∈ passes s ->
  claim_next candidate rest p s = (m, p', cs) ->
  cutoff p' = start p' - threshold /\ apart (mkSite m (clock s) (passes s) (claims s ++ cs)).
Proof.
  intros A I. unfold claim_next, memory_claim. pose proof (cutoffs s A p I) as C.
  assert (apart (mkSite (rows s) (clock s) (passes s) (claims s ++ []))) as A0 by (rewrite app_nil_r; by destruct s).
  destruct (claim_status (action_of candidate)) as [claimed|]; [|by intros [= <- <- <-]].
  destruct (rows s !! exec_id candidate) as [row|] eqn:R; [|by intros [= <- <- <-]].
  destruct (exec_is_terminal row || (cutoff p <=? updated_at row)) eqn:B; [by intros [= <- <- <-]|].
  intros [= <- <- <-]. split; [done|]. apply orb_false_iff in B as [_ B]. apply Z.leb_gt in B.
  destruct A as [T P Cs S]. split; cbn.
  - intros c r Ic. destruct (decide (claim_id c = exec_id candidate)) as [->|N].
    + rewrite lookup_insert_eq. intros [= <-]. cbn. apply elem_of_app in Ic as [Ic|Ic]; [by apply P|].
      by apply list_elem_of_singleton in Ic as ->.
    + rewrite lookup_insert_ne by done. apply elem_of_app in Ic as [Ic|Ic]; [by apply T|]. by apply list_elem_of_singleton in Ic as ->.
  - intros c [Ic| ->%list_elem_of_singleton]%elem_of_app; [by apply P|done].
  - done.
  - intros l1 c l2 d l3 E Eq. apply split_snoc in E as [[l3' E]|[Ic ->]]; [by apply (S l1 c l2 d l3')|].
    cbn in *. specialize (T c row Ic). rewrite Eq in T. specialize (T R). rewrite C in B. lia.
Qed.

Lemma step_apart s s' : apart s -> site_step s s' -> apart s'.
Proof.
  intros A St. destruct St as [t L|c D|i p Lp Q|i p x rest m p' cs Lp Q B E|i p a row ok Lp B|row L|cid].
  - destruct A as [T P C S]. split; cbn; try done. intros c I. specialize (P c I). lia.
  - apply apart_rows; [done|by left|]. intros p [I| ->%list_elem_of_singleton]%elem_of_app; [by apply (cutoffs s A)|].
    cbn. by apply date_sub_exact in D.
  - apply apart_rows; [done|by left|]. apply cutoffs_insert; [done|]. cbn. apply (cutoffs s A), list_elem_of_lookup. by exists i.
  - assert (p ∈ passes s) as I by (apply list_elem_of_lookup; by exists i).
    destruct (claim_keeps s x rest p m p' cs A I E) as [C [T P _ S]]. split; cbn; try done.
    by apply (cutoffs_insert s i p' A).
  - apply apart_rows; [done| |].
    + by apply save_touches.
    + apply cutoffs_insert; [done|]. cbn. apply (cutoffs s A), list_elem_of_lookup. by exists i.
  - apply apart_rows; [done|by apply save_touches|apply (cutoffs s A)].
  - apply apart_rows; [done| |apply (cutoffs s A)]. intros k r. cbn. intros R. left.
    by apply lookup_delete_Some in R as [_ R].
Qed.

(** C35 However many recovery passes run at once, between updates and deletions
    of others, an execution is claimed twice only when the second pass started
    more than the stale threshold after the first claim. Passes that overlap
    therefore never both run its handler, unless a handler takes longer than
    the threshold. The store is the in-process one, its clock never goes back,
    and what others save is stamped with the time of saving or later. *)
Theorem recovery_claims_apart (m : Executions V) (t : Z) (s : Site V) :
  rtc site_step (mkSite m t [] []) s ->
  forall l1 c l2 d l3, claims s = l1 ++ c :: l2 ++ d :: l3 -> claim_id c = claim_id d ->
  claim_time c + threshold < pass_start d.
Proof.
  intros R. cut (apart s); [by intros []|].
  assert (apart (mkSite m t [] [])) as A0.
  { split; cbn.
    - intros c row I. by apply elem_of_nil in I.
    - intros c I. by apply elem_of_nil in I.
    - intros p I. by apply elem_of_nil in I.
    - intros l1 c l2 d l3 E. by destruct l1. }
  revert A0. generalize (mkSite m t [] []) R. clear. intros s0 R. induction R as [|s1 s2 s3 St _ IH]; [done|].
  intros A. apply IH. by eapply step_apart.
Qed.
End Passes.

(** * One pass, on its own *)

(** Rows stand under their own id; every operation of the adapter keeps it. *)
Definition keyed {V} (m : Executions V) : Prop := forall (k : str) s, m !! k = Some s -> exec_id s = k.

Section Rows.
Context {V : Type} `{Values V} `{DateArith}.
Implicit Types (m : Executions V) (s : ExecutionState V).

Lemma values_in m s : s ∈ values m <-> exists k : str, m !! k = Some s.
Proof.
  rewrite values_all, list_elem_of_fmap. split.
  - intros ([k s'] & -> & I). exists k. by apply elem_of_map_to_list in I.
  - intros [k L]. exists (k, s). split; [done|]. by apply elem_of_map_to_list.
Qed.

Lemma filter_values_in (p : ExecutionState V -> bool) m s : keyed m ->
  s ∈ List.filter p (values m) <-> m !! exec_id s = Some s /\ p s = true.
Proof.
  intros K. rewrite list_elem_of_In, filter_In, <- list_elem_of_In, values_in. split; intros [L P]; (split; [|done]).
  - destruct L as [k L]. by rewrite (K k s L).
  - by exists (exec_id s).
Qed.

Lemma state_ids_nodup (l : list (ExecutionState V)) m : keyed m -> l ⊆+ map snd (map_to_list m) -> NoDup (map exec_id l).
Proof.
  intros K S. apply (fmap_submseteq exec_id), submseteq_Permutation in S as [rest P].
  cut (NoDup (map exec_id l ++ rest)); [by intros [N _]%NoDup_app|]. rewrite <- P.
  assert (exec_id <$> (map snd (map_to_list m)) = map fst (map_to_list m)) as ->; [|apply NoDup_fst_map_to_list].
  change (exec_id <$> ?l) with (map exec_id l). rewrite map_map. apply map_ext_in. intros [k s] I. cbn. apply K.
  apply list_elem_of_In, elem_of_map_to_list in I. done.
Qed.

Lemma filter_submseteq {A} (p : A -> bool) (l : list A) : List.filter p l ⊆+ l.
Proof. induction l as [|x l IH]; [done|]. cbn. destruct (p x); by constructor. Qed.

Lemma filter_ids_nodup (p : ExecutionState V -> bool) m : keyed m -> NoDup (map exec_id (List.filter p (values m))).
Proof.
  intros K. apply (state_ids_nodup _ m K). rewrite <- values_all. apply filter_submseteq.
Qed.

Lemma memory_save_keyed s m : keyed m -> keyed (memory_save s m).
Proof. intros K k s'. unfold memory_save. intros [[<- <-]|[_ L]]%lookup_insert_Some; [done|by apply K]. Qed.

Lemma memory_claim_keyed (cid : str) before claimed t m : keyed m -> keyed (snd (memory_claim cid before claimed t m)).
Proof.
  intros K. unfold memory_claim. destruct (m !! cid) as [s|] eqn:L; [|done]. destruct (_ || _); [done|].
  cbn. intros k s' [[<- <-]|[_ L']]%lookup_insert_Some; [apply (K _ _ L)|by apply K].
Qed.

Lemma fold_delete (l : list str) m (k : str) :
  fold_left (fun m cid => delete cid m) l m !! k = if bool_decide (k ∈ l) then None else m !! k.
Proof.
  revert m. induction l as [|x l IH]; intros m; cbn [fold_left]; [done|]. rewrite IH.
  destruct (decide (k = x)) as [->|N].
  - rewrite (bool_decide_eq_true_2 (x ∈ x :: l)) by (by left). case_bool_decide; [done|by rewrite lookup_delete_eq].
  - rewrite lookup_delete_ne by done. assert (bool_decide (k ∈ x :: l) = bool_decide (k ∈ l)) as ->; [|done].
    apply bool_decide_ext. rewrite elem_of_cons. tauto.
Qed.

(** Cleaning up removes the finished executions past the retention, counts
    them, and touches nothing else. *)
Lemma memory_cleanup_spec older_than t m c : keyed m -> date_sub t older_than = Some c ->
  exists m', memory_cleanup older_than t m = Some (List.length (List.filter (expired c) (values m)), m') /\
    forall k : str, m' !! k = match m !! k with Some s => if expired c s then None else Some s | None => None end.
Proof.
  intros K D. unfold memory_cleanup. rewrite D. cbn. eexists. split; [by rewrite length_map|].
  intros k. rewrite fold_delete. destruct (m !! k) as [s|] eqn:L; [|by case_bool_decide].
  assert (k ∈ map exec_id (List.filter (expired c) (values m)) <-> expired c s = true) as E.
  { rewrite list_elem_of_fmap. setoid_rewrite (filter_values_in _ m _ K). split.
    - intros (s' & -> & L' & P). rewrite L in L'. by injection L' as ->.
    - intros P. exists s. pose proof (K _ _ L) as <-. done. }
  destruct (expired c s).
  - by rewrite bool_decide_eq_true_2 by (by apply E).
  - by rewrite bool_decide_eq_false_2 by (by rewrite E).
Qed.
End Rows.

Section Settles.
Context {V U E : Type} `{Values V} `{DateArith}.
Variable r : RecoveryService V (MemoryWorld (V:=V) U) E.
Implicit Types (s : ExecutionState V) (w : MemoryWorld (V:=V) U).

(** A handler that ends and leaves the persisted rows alone. *)
Definition quiet_handler (h : option (RecoveryHandler V (MemoryWorld (V:=V) U) E)) : Prop :=
  match h with
  | Some h => forall s w, exists b w', h s w = Some (b, w') /\ store w' = store w
  | None => True
  end.

(** What becomes of a row under an action. *)
Definition settled (a : RecoveryAction) s s' : Prop :=
  match a with
  | Skip => s' = s
  | MarkFailed => exists t, s' = transition Status.Failed t s
  | Resume => exists t t' (ok : bool), s' = transition (if ok then Status.Completed else Status.Failed) t' (transition Status.Running t s)
  | Compensate => exists t t' (ok : bool),
      s' = transition (if ok then Status.Compensated else Status.Failed) t' (transition Status.Compensating t s)
  end.

Definition acted s : bool := negb (bool_decide (action_for r s = Skip)).

Hypothesis in_memory : persistence r = MemoryPersistence.
Hypothesis quiet_resume : quiet_handler (resume r).
Hypothesis quiet_compensate : quiet_handler (compensate r).

Lemma run_handler_quiet h s w : quiet_handler h -> exists b w', run_handler h s w = Some (b, w') /\ store w' = store w.
Proof.
  destruct h as [h|]; intros Q; [|by exists false, w]. destruct (Q s w) as (b & w' & E' & S).
  exists (is_ok b), w'. split; [|done]. unfold run_handler, bind. by rewrite E'.
Qed.

(** A claimed row is settled; the other rows stay. *)
Lemma settle_claim_spec a claimed s t w : claim_status a = Some claimed -> store w !! exec_id s = Some (transition claimed t s) ->
  exists w', settle_claim now r a (transition claimed t s) w = Some (Ok tt, w') /\
    (exists s', store w' !! exec_id s = Some s' /\ settled a s s') /\
    forall k : str, k <> exec_id s -> store w' !! k = store w !! k.
Proof.
  assert (forall h (c done_ : Status.t), quiet_handler h ->
    exists w' t' (ok : bool), (let! ok := run_handler h (transition c t s) in
       fun w => save (persistence r) (transition (if ok then done_ else Status.Failed) (now w) (transition c t s)) w) w = Some (Ok tt, w') /\
      store w' = <[exec_id s := transition (if ok then done_ else Status.Failed) t' (transition c t s)]> (store w)) as Hr.
  { intros h c d Q. destruct (run_handler_quiet h (transition c t s) w Q) as (b & w1 & E1 & S1).
    unfold bind. rewrite E1, in_memory. eexists _, (now w1), b. split; [done|]. cbn. unfold memory_save. cbn. by rewrite S1. }
  intros C L. unfold settle_claim. destruct a; cbn in C; try done; injection C as <-; cbn [handler_of].
  - exists w. split; [done|]. split; [|done]. exists (transition Status.Failed t s). split; [done|by exists t].
  - destruct (Hr (resume r) Status.Running Status.Completed quiet_resume) as (w' & t' & ok & -> & S). exists w'.
    split; [done|]. rewrite S. split; [eexists; split; [apply lookup_insert_eq|by exists t, t', ok]|].
    intros k N. by rewrite lookup_insert_ne by congruence.
  - destruct (Hr (compensate r) Status.Compensating Status.Compensated quiet_compensate) as (w' & t' & ok & -> & S). exists w'.
    split; [done|]. rewrite S. split; [eexists; split; [apply lookup_insert_eq|by exists t, t', ok]|].
    intros k N. by rewrite lookup_insert_ne by congruence.
Qed.

(** A claim of a row that is still stale wins. *)
Lemma claim_wins c claimed s w : store w !! exec_id s = Some s -> is_stale c s = true ->
  claim_stale (persistence r) (exec_id s) c claimed w =
  Some (Ok (Some (transition claimed (now w) s)), set_store (<[exec_id s := transition claimed (now w) s]> (store w)) w).
Proof.
  intros L St. rewrite in_memory. cbn. unfold memory_claim. rewrite L.
  unfold is_stale in St. apply andb_true_iff in St as [T B]. apply negb_true_iff in T. rewrite T.
  apply Z.ltb_lt in B. by rewrite (proj2 (Z.leb_gt c (updated_at s))) by lia.
Qed.

Lemma recover_loop_spec c l n w : NoDup (map exec_id l) ->
  (forall s, s ∈ l -> store w !! exec_id s = Some s /\ is_stale c s = true) ->
  exists w', recover_loop now r c l n w = Some (Ok (n + List.length (List.filter acted l))%nat, w') /\
    (forall s, s ∈ l -> exists s', store w' !! exec_id s = Some s' /\ settled (action_for r s) s s') /\
    forall k : str, k ∉ map exec_id l -> store w' !! k = store w !! k.
Proof.
  revert n w. induction l as [|s l IH]; intros n w N A; cbn [recover_loop map List.filter].
  { exists w. rewrite Nat.add_0_r. split; [done|]. split; [intros s I; by apply elem_of_nil in I|done]. }
  apply NoDup_cons in N as [Ns N]. destruct (A s ltac:(by left)) as [L St].
  assert (forall x, x ∈ l -> exec_id x <> exec_id s) as Ne.
  { intros x I E'. apply Ns. rewrite <- E'. apply list_elem_of_fmap. by exists x. }
  destruct (claim_status (action_for r s)) as [claimed|] eqn:C.
  - assert (acted s = true) as -> by (unfold acted; by destruct (action_for r s)).
    unfold try_ at 1, bind at 1. rewrite (claim_wins c claimed s w L St). cbv beta iota.
    destruct (settle_claim_spec _ claimed s (now w) (set_store (<[exec_id s := transition claimed (now w) s]> (store w)) w) C)
      as (w1 & E1 & (s1 & L1 & S1) & O1); [apply lookup_insert_eq|].
    unfold try_, bind. rewrite E1. destruct (IH (S n) w1 N) as (w' & -> & P & O).
    { intros x I. rewrite O1 by (by apply Ne). cbn. rewrite lookup_insert_ne by (intros Q; by apply (Ne x I)). apply A. by right. }
    exists w'. split; [do 2 f_equal; cbn [List.length]; f_equal; lia|]. split.
    + intros x [->|I]%elem_of_cons; [|by apply P]. exists s1. by rewrite O.
    + intros k K. rewrite not_elem_of_cons in K. destruct K as [K1 K2]. rewrite O, O1 by done. cbn.
      by rewrite lookup_insert_ne by congruence.
  - assert (action_for r s = Skip) as Sk by (by destruct (action_for r s)).
    assert (acted s = false) as -> by (unfold acted; by rewrite Sk).
    destruct (IH n w N) as (w' & -> & P & O); [intros x I; apply A; by right|].
    exists w'. split; [done|]. split.
    + intros x [->|I]%elem_of_cons; [|by apply P]. exists s. rewrite O by done. rewrite Sk. done.
    + intros k K. rewrite not_elem_of_cons in K. apply O, K.
Qed.

(** A recovery pass over the in-process store acts once on every stale
    execution its decider does not skip, counts exactly those, and leaves every
    other row as it was: a stale row ends failed, or completed or compensated by
    its handler, failed when the handler fails or is missing. *)
Theorem recover_stale_settles w c : keyed (store w) -> date_sub (now w) (stale_threshold r) = Some c ->
  exists w', recover_stale now r w =
      Some (Ok (List.length (List.filter acted (memory_list_stale c (store w)))), w') /\
    forall k : str, match store w !! k with
      | None => store w' !! k = None
      | Some s => exists s', store w' !! k = Some s' /\ if is_stale c s then settled (action_for r s) s s' else s' = s
      end.
Proof.
  intros K D. unfold recover_stale. rewrite D. cbn. unfold try_, bind. rewrite in_memory. cbn.
  destruct (recover_loop_spec c (memory_list_stale c (store w)) 0 w) as (w' & E1 & P & O).
  { by apply filter_ids_nodup. }
  { intros s I. by apply (filter_values_in _ _ s K) in I. }
  exists w'. rewrite E1. split; [done|]. intros k. destruct (store w !! k) as [s|] eqn:L.
  - pose proof (K _ _ L) as <-. destruct (is_stale c s) eqn:St.
    + apply P. by apply (filter_values_in _ _ s K).
    + exists s. split; [|done]. rewrite O; [done|]. intros (x & X & I)%list_elem_of_fmap.
      apply (filter_values_in _ _ x K) in I as [Lx Sx]. rewrite <- X, L in Lx. injection Lx as ->. congruence.
  - rewrite O; [done|]. intros (x & -> & I)%list_elem_of_fmap. apply (filter_values_in _ _ x K) in I as [Lx _]. congruence.
Qed.
End Settles.

(** * Durable contexts come back *)

(** A provider that gives back what it last saved under an id. *)
Class KeepsExecutions {V W} (p : PersistenceProvider V W) : Prop :=
  saved_loads : forall s w w', save p s w = Some (Ok tt, w') -> exists w'', load p (exec_id s) w' = Some (Ok (Some s), w'').

#[export] Instance memory_keeps_executions {V U} `{Values V} `{DateArith} :
  KeepsExecutions (MemoryPersistence (V:=V) (U:=U)).
Proof.
  intros s w w' [= <-]. eexists. cbn. unfold memory_load, memory_save. by rewrite lookup_insert_eq.
Qed.

Section DurableRoundTrip.
Context {V W : Type} `{JsonEntries V} `{!JsonLaws V}.
Variable p : PersistenceProvider V W.
Context `{!KeepsExecutions p}.

(** A suspended run resumes with the context it was suspended with: its
    results, variables, headers, input and correlation id, whatever provider
    keeps its rows. *)
Theorem suspended_context_resumes utc_now (name : str) (ctx : StepContext V) w w' :
  suspend utc_now p name ctx w = Some (Ok tt, w') ->
  exists w'', resume_context p (correlation_id ctx) w' = Some (Ok (Some ctx), w'').
Proof.
  unfold suspend. intros S. apply saved_loads in S as [w'' L]. exists w''. unfold resume_context, try_, bind.
  cbn in L. rewrite L. cbn. by rewrite snapshot_round_trip.
Qed.
End DurableRoundTrip.

(** * Concrete runs *)

#[export] Instance plain_dates : DateArith.
Proof. refine {| date_sub := fun t d => Some (t - d) |}. by intros t d c [= <-]. Defined.

#[export] Instance listed_values V : Values V := {| values m := map snd (map_to_list m); values_all m := reflexivity _ |}.

Definition stuck (cid : str) (t : Z) : ExecutionState Z := mkExecution cid (lit "order") Pattern.Saga Status.Running t t None 0.
Definition two_stuck : Executions Z := memory_save (stuck (lit "a") 0) (memory_save (stuck (lit "b") 90) ∅).
Definition demo_recovery : RecoveryService Z (MemoryWorld (V:=Z) unit) unit :=
  mkRecovery MemoryPersistence 20 1000 (Some (fun _ => Resume)) (Some (fun _ => ret (Ok tt))) None.

Lemma recover_stale_settles_witness :
  exists w', recover_stale now demo_recovery (mkWorld two_stuck 100 tt) = Some (Ok 1%nat, w') /\
    (exists s', store w' !! lit "a" = Some s' /\ settled Resume (stuck (lit "a") 0) s') /\
    store w' !! lit "b" = Some (stuck (lit "b") 90).
Proof.
  destruct (recover_stale_settles demo_recovery eq_refl) with (w := mkWorld (U:=unit) two_stuck 100 tt) (c := 80)
    as (w' & R & P).
  - intros s w. by eexists _, w.
  - done.
  - do 2 apply memory_save_keyed. intros k s L. by rewrite lookup_empty in L.
  - done.
  - exists w'. split; [exact R|]. split.
    + pose proof (P (lit "a")) as Pa. assert (two_stuck !! lit "a" = Some (stuck (lit "a") 0)) as L by (vm_compute; reflexivity).
      cbn [store] in Pa. rewrite L in Pa. exact Pa.
    + pose proof (P (lit "b")) as Pb. assert (two_stuck !! lit "b" = Some (stuck (lit "b") 90)) as L by (vm_compute; reflexivity).
      cbn [store] in Pb. rewrite L in Pb. destruct Pb as (s' & -> & S). cbn in S. by rewrite S.
Defined.

Example recovered_is_completed :
  (match recover_stale now demo_recovery (mkWorld two_stuck 100 tt) with
   | Some (r, w) => (r, map status (memory_list filter_all (store w)))
   | None => (Ok O, [])
   end) = (Ok 1%nat, [Status.Completed; Status.Running]).
Proof. vm_compute. reflexivity. Qed.

Lemma suspended_context_resumes_witness :
  let ctx := set_result (lit "hold") (JNumber 7) (set_correlation_id (lit "run-1") context_new) in
  let p := MemoryPersistence (V:=json) (U:=unit) in
  exists w' w'', suspend now p (lit "order") ctx (mkWorld ∅ 5 tt) = Some (Ok tt, w') /\
    resume_context p (lit "run-1") w' = Some (Ok (Some ctx), w'').
Proof.
  intros ctx p. eexists. destruct (suspended_context_resumes p now (lit "order") ctx (mkWorld ∅ 5 tt) _ eq_refl) as [w'' R].
  exists w''. split; [reflexivity|exact R].
Defined.

(** ** A handler slower than the threshold runs twice *)

Definition resume_all (s : ExecutionState Z) : RecoveryAction := Resume.
Definition slow_row : Executions Z := memory_save (stuck (lit "a") 0) ∅.
Definition claimed_at (t : Z) : ExecutionState Z := transition Status.Running t (stuck (lit "a") 0).

Definition first_pass : Pass Z := mkPass 100 80 (Some []) (Some (Resume, claimed_at 100)).
Definition second_pass : Pass Z := mkPass 130 110 (Some []) (Some (Resume, claimed_at 130)).
Definition first_claim : Claim := mkClaim (lit "a") 100 100.
Definition second_claim : Claim := mkClaim (lit "a") 130 130.
Definition once_claimed : Executions Z := <[lit "a" := claimed_at 100]> slow_row.

Lemma first_claims : site_step 20 resume_all (mkSite slow_row 100 [mkPass 100 80 (Some [stuck (lit "a") 0]) None] [])
  (mkSite once_claimed 100 [first_pass] [first_claim]).
Proof.
  apply (site_claim 20 resume_all (mkSite slow_row 100 [mkPass 100 80 (Some [stuck (lit "a") 0]) None] []) 0 (mkPass 100 80 (Some [stuck (lit "a") 0]) None) (stuck (lit "a") 0) [] once_claimed first_pass
    [first_claim]); [done..|]. vm_compute. reflexivity.
Qed.

Lemma second_claims : site_step 20 resume_all
  (mkSite once_claimed 130 [first_pass; mkPass 130 110 (Some [claimed_at 100]) None] [first_claim])
  (mkSite (<[lit "a" := claimed_at 130]> once_claimed) 130 [first_pass; second_pass] [first_claim; second_claim]).
Proof.
  apply (site_claim 20 resume_all
    (mkSite once_claimed 130 [first_pass; mkPass 130 110 (Some [claimed_at 100]) None] [first_claim]) 1 (mkPass 130 110 (Some [claimed_at 100]) None) (claimed_at 100) []
    (<[lit "a" := claimed_at 130]> once_claimed) second_pass [second_claim]); [done..|]. vm_compute. reflexivity.
Qed.

Lemma pass_lists t ps c m l cs (i : nat) : ps !! i = Some (mkPass t c None None) -> memory_list_stale c m = l ->
  site_step 20 resume_all (mkSite m t ps cs) (mkSite m t (<[i := mkPass t c (Some l) None]> ps) cs).
Proof. intros L <-. by apply (site_list 20 resume_all (mkSite m t ps cs) i (mkPass t c None None)). Qed.

(** With a threshold of 20, the pass that starts at 100 claims the row; while
    its handler still runs, the pass that starts at 130 claims it again. *)
Example slow_handler_runs_twice :
  exists s, rtc (site_step 20 resume_all) (mkSite slow_row 100 [] []) s /\
    passes s = [first_pass; second_pass] /\ claims s = [first_claim; second_claim].
Proof.
  exists (mkSite (<[lit "a" := claimed_at 130]> once_claimed) 130 [first_pass; second_pass] [first_claim; second_claim]).
  split; [|by split].
  eapply rtc_l; [by apply (site_begin 20 resume_all (mkSite slow_row 100 [] []) 80)|]. cbn.
  eapply rtc_l; [by apply (pass_lists 100 [mkPass 100 80 None None] 80 slow_row [stuck (lit "a") 0] [] 0); vm_compute|]. cbn.
  eapply rtc_l; [exact first_claims|].
  eapply rtc_l; [by apply (site_tick 20 resume_all (mkSite once_claimed 100 [first_pass] [first_claim]) 130)|]. cbn.
  eapply rtc_l; [by apply (site_begin 20 resume_all (mkSite once_claimed 130 [first_pass] [first_claim]) 110)|]. cbn.
  eapply rtc_l.
  { by apply (pass_lists 130 [first_pass; mkPass 130 110 None None] 110 once_claimed [claimed_at 100] [first_claim] 1); vm_compute. }
  cbn. eapply rtc_l; [exact second_claims|]. apply rtc_refl.
Qed.

Lemma recovery_claims_apart_witness :
  exists s, rtc (site_step 20 resume_all) (mkSite slow_row 100 [] []) s /\
    claims s = [first_claim; second_claim] /\ 100 + 20 < 130.
Proof.
  destruct slow_handler_runs_twice as (s & R & _ & C). exists s. split; [exact R|]. split; [exact C|].
  exact (recovery_claims_apart 20 resume_all slow_row 100 s R [] _ [] _ [] C eq_refl).
Defined.
