(* ===== verification/DeadLetters.v ===== *)
(** Dead letters: the failures kept for review by
    [crates/orchestration/src/dlq.rs].

    The store is a port; the in-process one keeps a map by entry id. The id and
    the instant of an entry come from the [uuid] and [chrono] crates: the
    service takes them from the world. *)
From Stdlib Require Import Ascii String.
From Stdlib Require Import ZArith NArith List Lia Sorting.Sorted Sorting.Permutation.
From stdpp Require Import base decidable list gmap.
From S2P Require Import Prelude Str Order Json.

Record DeadLetterEntry (V : Type) : Type := mkEntry {
  entry_id : str;
  execution_name : str;
  letter_correlation : str;
  step_id : option str;
  error_type : str;
  error_message : str;
  timestamp : Z;
  retry_count : Z;
  letter_input : V
}.
Arguments mkEntry {V}. Arguments entry_id {V}. Arguments execution_name {V}. Arguments letter_correlation {V}.
Arguments step_id {V}. Arguments error_type {V}. Arguments error_message {V}. Arguments timestamp {V}.
Arguments retry_count {V}. Arguments letter_input {V}.

(** What [capture] is told: an entry without its id, instant and count. *)
Record DeadLetterCapture (V : Type) : Type := mkCapture {
  cap_name : str;
  cap_correlation : str;
  cap_step : option str;
  cap_type : str;
  cap_message : str;
  cap_input : V
}.
Arguments mkCapture {V}. Arguments cap_name {V}. Arguments cap_correlation {V}. Arguments cap_step {V}.
Arguments cap_type {V}. Arguments cap_message {V}. Arguments cap_input {V}.

Record DeadLetterFilter : Type := mkLetterFilter { by_name : option str; by_correlation : option str }.
Definition letters_all : DeadLetterFilter := mkLetterFilter None None.
Definition letters_of (name : str) (f : DeadLetterFilter) : DeadLetterFilter := mkLetterFilter (Some name) (by_correlation f).
Definition letters_in (cid : str) (f : DeadLetterFilter) : DeadLetterFilter := mkLetterFilter (by_name f) (Some cid).

Definition LetterError : Type := str.

Record DeadLetterStore (V W : Type) : Type := mkLetterStore {
  store_add : DeadLetterEntry V -> M W (Result unit LetterError);
  store_get : str -> M W (Result (option (DeadLetterEntry V)) LetterError);
  store_list : DeadLetterFilter -> M W (Result (list (DeadLetterEntry V)) LetterError);
  store_remove : str -> M W (Result bool LetterError);
  store_clear : M W (Result nat LetterError);
  store_count : M W (Result nat LetterError)
}.
Arguments mkLetterStore {V W}. Arguments store_add {V W}. Arguments store_get {V W}. Arguments store_list {V W}.
Arguments store_remove {V W}. Arguments store_clear {V W}. Arguments store_count {V W}.

Abbreviation Letters V := (gmap str (DeadLetterEntry V)).

Class LetterValues (V : Type) : Type := {
  letters : Letters V -> list (DeadLetterEntry V);
  letters_any_order : forall m, letters m ≡ₚ map snd (map_to_list m)
}.

Section Letters.
Context {V : Type} `{JsonValue V} `{!LetterValues V}.
Implicit Types (e : DeadLetterEntry V) (m : Letters V).

Definition capture_new (name cid msg : str) : DeadLetterCapture V := mkCapture name cid None (lit "Error") msg json_null.
Definition capture_type (ty : str) (c : DeadLetterCapture V) : DeadLetterCapture V :=
  mkCapture (cap_name c) (cap_correlation c) (cap_step c) ty (cap_message c) (cap_input c).
Definition capture_step (step : str) (c : DeadLetterCapture V) : DeadLetterCapture V :=
  mkCapture (cap_name c) (cap_correlation c) (Some step) (cap_type c) (cap_message c) (cap_input c).
Definition capture_input (v : V) (c : DeadLetterCapture V) : DeadLetterCapture V :=
  mkCapture (cap_name c) (cap_correlation c) (cap_step c) (cap_type c) (cap_message c) v.

Definition letter_matches (f : DeadLetterFilter) e : bool :=
  match by_name f with Some n => str_eqb (execution_name e) n | None => true end &&
  match by_correlation f with Some c => str_eqb (letter_correlation e) c | None => true end.

(** Newest first. *)
Definition newest_first (a b : DeadLetterEntry V) : comparison := Z.compare (timestamp b) (timestamp a).
Definition memory_letters (f : DeadLetterFilter) m : list (DeadLetterEntry V) :=
  sort_by newest_first (List.filter (letter_matches f) (letters m)).

Definition MemoryDeadLetterStore {U : Type} : DeadLetterStore V (Letters V * U) :=
  mkLetterStore
    (fun e '(m, u) => Some (Ok tt, (<[entry_id e := e]> m, u)))
    (fun id '(m, u) => Some (Ok (m !! id), (m, u)))
    (fun f '(m, u) => Some (Ok (memory_letters f m), (m, u)))
    (fun id '(m, u) => Some (Ok (bool_decide (is_Some (m !! id))), (delete id m, u)))
    (fun '(m, u) => Some (Ok (size m), (∅, u)))
    (fun '(m, u) => Some (Ok (size m), (m, u))).

(** * The service *)

Section Service.
Context {W : Type}.
Variable store : DeadLetterStore V W.
Variables (new_id : W -> str) (letter_now : W -> Z).

Definition capture (c : DeadLetterCapture V) : M W (Result (DeadLetterEntry V) LetterError) := fun w =>
  let e := mkEntry (new_id w) (cap_name c) (cap_correlation c) (cap_step c) (cap_type c) (cap_message c)
             (letter_now w) 0 (cap_input c) in
  (let? _ := store_add store e in ret (Ok e)) w.

(** The count is a [u32]. *)
Definition retried e : DeadLetterEntry V :=
  mkEntry (entry_id e) (execution_name e) (letter_correlation e) (step_id e) (error_type e) (error_message e)
    (timestamp e) (u32 (retry_count e + 1)) (letter_input e).

Definition mark_retried (id : str) : M W (Result bool LetterError) :=
  let? found := store_get store id in
  match found with
  | None => ret (Ok false)
  | Some e => let? _ := store_add store (retried e) in ret (Ok true)
  end.
End Service.

(** * Lemmas *)

Lemma preorder_newest : total_preorder newest_first.
Proof.
  apply (preorder_ext _ (fun a b => CompOpp (Z.compare (timestamp a) (timestamp b)))).
  - intros a b. apply Z.compare_antisym.
  - apply (preorder_reverse (fun a b => Z.compare (timestamp a) (timestamp b))), (preorder_map timestamp), preorder_Z.
Qed.

(** A listing holds the entries that match, the newest first. *)
Lemma memory_letters_spec f m :
  Permutation (memory_letters f m) (List.filter (letter_matches f) (letters m)) /\
  StronglySorted (fun a b => timestamp b <= timestamp a) (memory_letters f m).
Proof.
  split; [apply sort_by_permutation|]. pose proof (sort_by_sorted newest_first preorder_newest (List.filter (letter_matches f) (letters m))) as S.
  exact S.
Qed.
End Letters.
