(* ===== verification/Signals.v ===== *)
(** Signals to waiting workflows: [crates/orchestration/src/signal.rs].

    A waiter holds the receiving half of a tokio oneshot channel, the service
    the sending half. A channel is known by its index in [channels]; what tokio
    promises of it is its four states: no value yet, a value sent, the sender
    dropped, the receiver dropped. Each method holds the lock and is one
    transition; dropping a receiver is a transition of its own. *)
From Stdlib Require Import Ascii String.
From Stdlib Require Import ZArith NArith List Lia Sorting.Sorted Sorting.Permutation.
From stdpp Require Import base decidable list gmap.
From S2P Require Import Prelude Str Order.

Inductive Channel (V : Type) : Type :=
| Waiting
| Received (v : V)
| Cancelled
| Dropped.
Arguments Waiting {V}. Arguments Received {V}. Arguments Cancelled {V}. Arguments Dropped {V}.

Inductive SignalError : Type := WaitCancelled (correlation_id signal : str).

Section Signals.
Context {V : Type}.

Record SignalService : Type := mkSignals {
  waiters : gmap str (gmap str (list nat));
  delivered : gmap str (gmap str V);
  channels : list (Channel V)
}.
Implicit Type s : SignalService.

Definition signals_new : SignalService := mkSignals ∅ ∅ [].

(** [tx.send]: accepted unless the receiver is gone. *)
Definition send (tx : nat) (v : V) (cs : list (Channel V)) : bool * list (Channel V) :=
  match cs !! tx with
  | Some Waiting => (true, <[tx := Received v]> cs)
  | _ => (false, cs)
  end.

(** Dropping the sender wakes a receiver that still waits. *)
Definition drop_sender (cs : list (Channel V)) (tx : nat) : list (Channel V) :=
  match cs !! tx with Some Waiting => <[tx := Cancelled]> cs | _ => cs end.

Definition drop_receiver (rx : nat) s : SignalService :=
  mkSignals (waiters s) (delivered s) (alter (fun _ => Dropped) rx (channels s)).

(** Removing an entry of an inner map, and the inner map once it is empty. *)
Definition remove_in {A} (cid signal : str) (m : gmap str (gmap str A)) : gmap str (gmap str A) :=
  match m !! cid with
  | None => m
  | Some inner =>
      let inner := delete signal inner in
      if bool_decide (inner = ∅) then delete cid m else <[cid := inner]> m
  end.
Definition insert_in {A} (cid signal : str) (a : A) (m : gmap str (gmap str A)) : gmap str (gmap str A) :=
  <[cid := <[signal := a]> (default ∅ (m !! cid))]> m.
Definition lookup_in {A} (cid signal : str) (m : gmap str (gmap str A)) : option A := inner ← m !! cid; inner !! signal.

Definition parked (cid signal : str) (ws : gmap str (gmap str (list nat))) : list nat := default [] (lookup_in cid signal ws).

Definition subscribe (cid signal : str) s : nat * SignalService :=
  let rx := List.length (channels s) in
  match lookup_in cid signal (delivered s) with
  | Some payload => (rx, mkSignals (waiters s) (remove_in cid signal (delivered s)) (channels s ++ [Received payload]))
  | None =>
      (rx, mkSignals (insert_in cid signal (parked cid signal (waiters s) ++ [rx]) (waiters s)) (delivered s)
             (channels s ++ [Waiting]))
  end.

(** What [wait_for] makes of its channel; [None] while it is parked. *)
Definition wait_result (cid signal : str) (rx : nat) s : option (Result V SignalError) :=
  match channels s !! rx with
  | Some (Received v) => Some (Ok v)
  | Some Cancelled => Some (Err (WaitCancelled cid signal))
  | _ => None
  end.

Fixpoint send_all (senders : list nat) (v : V) (consumed : bool) (cs : list (Channel V)) : bool * list (Channel V) :=
  match senders with
  | [] => (consumed, cs)
  | tx :: senders => let '(ok, cs) := send tx v cs in send_all senders v (consumed || ok) cs
  end.

Definition deliver (cid signal : str) (payload : V) s : bool * SignalService :=
  let senders := parked cid signal (waiters s) in
  let ws := remove_in cid signal (waiters s) in
  let '(consumed, cs) := send_all senders payload false (channels s) in
  if consumed then (true, mkSignals ws (delivered s) cs)
  else (false, mkSignals ws (insert_in cid signal payload (delivered s)) cs).

Definition list_active s : list str :=
  sort_by str_compare (elements (dom (waiters s) ∪ dom (delivered s) : gset str)).

(** Every sender of the execution is dropped. *)
Definition senders_of (cid : str) (ws : gmap str (gmap str (list nat))) : list nat :=
  concat (map snd (map_to_list (default ∅ (ws !! cid)))).

Definition unregister (cid : str) s : SignalService :=
  mkSignals (delete cid (waiters s)) (delete cid (delivered s)) (fold_left drop_sender (senders_of cid (waiters s)) (channels s)).

(** * The contract: one mailbox per execution and signal

    A channel belongs to a mailbox; a payload goes to all that wait at it, or
    else stays until one comes. *)
Record Mailboxes : Type := mkBoxes { boxes : list ((str * str) * Channel V); kept : gmap (str * str) V }.
Implicit Type b : Mailboxes.

Definition waits_at (k : str * str) (c : (str * str) * Channel V) : bool :=
  bool_decide (fst c = k) && match snd c with Waiting => true | _ => false end.

Definition box_subscribe (cid signal : str) b : Mailboxes :=
  match kept b !! (cid, signal) with
  | Some v => mkBoxes (boxes b ++ [((cid, signal), Received v)]) (delete (cid, signal) (kept b))
  | None => mkBoxes (boxes b ++ [((cid, signal), Waiting)]) (kept b)
  end.

Definition hand (k : str * str) (v : V) (c : (str * str) * Channel V) : (str * str) * Channel V :=
  if waits_at k c then (fst c, Received v) else c.

Definition box_deliver (cid signal : str) (v : V) b : bool * Mailboxes :=
  if existsb (waits_at (cid, signal)) (boxes b) then (true, mkBoxes (map (hand (cid, signal) v) (boxes b)) (kept b))
  else (false, mkBoxes (boxes b) (<[(cid, signal) := v]> (kept b))).

Definition cancel (cid : str) (c : (str * str) * Channel V) : (str * str) * Channel V :=
  match snd c with Waiting => if bool_decide (fst (fst c) = cid) then (fst c, Cancelled) else c | _ => c end.

Definition box_unregister (cid : str) b : Mailboxes :=
  mkBoxes (map (cancel cid) (boxes b)) (filter (fun kv => fst (fst kv) <> cid) (kept b)).

Definition box_drop (rx : nat) b : Mailboxes := mkBoxes (alter (fun c => (fst c, Dropped)) rx (boxes b)) (kept b).

(** A call, and what the caller sees of it. *)
Inductive Call : Type :=
| Subscribe (cid signal : str)
| Deliver (cid signal : str) (v : V)
| Unregister (cid : str)
| DropReceiver (rx : nat).

Definition run_call (c : Call) s : option bool * SignalService :=
  match c with
  | Subscribe cid signal => (None, snd (subscribe cid signal s))
  | Deliver cid signal v => let '(consumed, s) := deliver cid signal v s in (Some consumed, s)
  | Unregister cid => (None, unregister cid s)
  | DropReceiver rx => (None, drop_receiver rx s)
  end.

Definition box_call (c : Call) b : option bool * Mailboxes :=
  match c with
  | Subscribe cid signal => (None, box_subscribe cid signal b)
  | Deliver cid signal v => let '(consumed, b) := box_deliver cid signal v b in (Some consumed, b)
  | Unregister cid => (None, box_unregister cid b)
  | DropReceiver rx => (None, box_drop rx b)
  end.

Fixpoint run_calls (cs : list Call) s : list (option bool) * SignalService :=
  match cs with
  | [] => ([], s)
  | c :: cs => let '(o, s) := run_call c s in let '(os, s) := run_calls cs s in (o :: os, s)
  end.

Fixpoint box_calls (cs : list Call) b : list (option bool) * Mailboxes :=
  match cs with
  | [] => ([], b)
  | c :: cs => let '(o, b) := box_call c b in let '(os, b) := box_calls cs b in (o :: os, b)
  end.

(** * Nested maps *)

Section Nested.
Context {A : Type}.
Implicit Type m : gmap str (gmap str A).

Lemma lookup_insert_in (cid cid' signal signal' : str) (a : A) m :
  lookup_in cid' signal' (insert_in cid signal a m) =
  if bool_decide ((cid', signal') = (cid, signal)) then Some a else lookup_in cid' signal' m.
Proof.
  unfold lookup_in, insert_in. destruct (decide (cid' = cid)) as [->|N].
  - rewrite lookup_insert_eq. cbn. destruct (decide (signal' = signal)) as [->|N].
    + by rewrite lookup_insert_eq, bool_decide_eq_true_2.
    + rewrite lookup_insert_ne by done. rewrite bool_decide_eq_false_2 by congruence.
      destruct (m !! cid); [done|apply lookup_empty].
  - rewrite lookup_insert_ne by done. by rewrite bool_decide_eq_false_2 by congruence.
Qed.

Lemma lookup_remove_in (cid cid' signal signal' : str) m :
  lookup_in cid' signal' (remove_in cid signal m) =
  if bool_decide ((cid', signal') = (cid, signal)) then None else lookup_in cid' signal' m.
Proof.
  unfold lookup_in, remove_in. destruct (m !! cid) as [inner|] eqn:L.
  2: { case_bool_decide as E; [|done]. injection E as -> ->. by rewrite L. }
  assert ((if bool_decide (delete signal inner = ∅) then delete cid m else <[cid := delete signal inner]> m) !! cid' ≫=
          (fun i : gmap str A => i !! signal') = if decide (cid' = cid) then delete signal inner !! signal' else m !! cid' ≫= (fun i => i !! signal')) as E.
  { case_bool_decide as E; destruct (decide (cid' = cid)) as [->|N].
    - by rewrite lookup_delete_eq, E, lookup_empty.
    - by rewrite lookup_delete_ne.
    - by rewrite lookup_insert_eq.
    - by rewrite lookup_insert_ne. }
  unfold mbind in *. rewrite E. destruct (decide (cid' = cid)) as [->|N].
  - destruct (decide (signal' = signal)) as [->|N].
    + by rewrite lookup_delete_eq, bool_decide_eq_true_2.
    + rewrite lookup_delete_ne, bool_decide_eq_false_2 by congruence. by rewrite L.
  - by rewrite bool_decide_eq_false_2 by congruence.
Qed.

Lemma lookup_delete_outer (cid cid' signal : str) m :
  lookup_in cid' signal (delete cid m) = if bool_decide (cid' = cid) then None else lookup_in cid' signal m.
Proof.
  unfold lookup_in. case_bool_decide as E; [subst cid'; by rewrite lookup_delete_eq|]. by rewrite lookup_delete_ne.
Qed.
End Nested.

(** * Channels *)

Definition is_waiting (c : option (Channel V)) : bool := match c with Some Waiting => true | _ => false end.

Lemma send_all_spec (senders : list nat) v ok cs :
  fst (send_all senders v ok cs) = ok || existsb (fun tx => is_waiting (cs !! tx)) senders /\
  forall r, snd (send_all senders v ok cs) !! r =
    if bool_decide (r ∈ senders) && is_waiting (cs !! r) then Some (Received v) else cs !! r.
Proof.
  revert ok cs. induction senders as [|tx senders IH]; intros ok cs; cbn [send_all existsb].
  { rewrite orb_false_r. split; [done|]. intros r. by rewrite bool_decide_eq_false_2 by apply not_elem_of_nil. }
  unfold send. destruct (is_waiting (cs !! tx)) eqn:W.
  - destruct (cs !! tx) as [[]|] eqn:L; try done. clear W. destruct (IH (ok || true) (<[tx := Received v]> cs)) as [-> R].
    split; [by destruct ok|]. intros r. rewrite R. clear R IH.
    assert (tx < List.length cs)%nat as Lt by (by eapply lookup_lt_Some).
    destruct (decide (r = tx)) as [->|N].
    + rewrite list_lookup_insert_eq by done. cbn. rewrite andb_false_r, L.
      by rewrite bool_decide_eq_true_2 by (by left).
    + rewrite list_lookup_insert_ne by done.
      by rewrite (bool_decide_ext (r ∈ tx :: senders) (r ∈ senders)) by (rewrite elem_of_cons; tauto).
  - assert ((match cs !! tx with Some Waiting => (true, <[tx:=Received v]> cs) | _ => (false, cs) end) = (false, cs)) as ->
      by (by destruct (cs !! tx) as [[]|]).
    destruct (IH (ok || false) cs) as [-> R]. split; [by destruct ok|]. intros r. rewrite R.
    destruct (decide (r = tx)) as [->|N]; [by rewrite W, !andb_false_r|].
    by rewrite (bool_decide_ext (r ∈ tx :: senders) (r ∈ senders)) by (rewrite elem_of_cons; tauto).
Qed.

Lemma drop_senders_spec (txs : list nat) cs r :
  fold_left drop_sender txs cs !! r = if bool_decide (r ∈ txs) && is_waiting (cs !! r) then Some Cancelled else cs !! r.
Proof.
  revert cs. induction txs as [|tx txs IH]; intros cs; cbn [fold_left].
  { by rewrite bool_decide_eq_false_2 by apply not_elem_of_nil. }
  rewrite IH. unfold drop_sender. destruct (is_waiting (cs !! tx)) eqn:W.
  - destruct (cs !! tx) as [[]|] eqn:L; try done. clear W. assert (tx < List.length cs)%nat as Lt by (by eapply lookup_lt_Some).
    destruct (decide (r = tx)) as [->|N].
    + rewrite list_lookup_insert_eq by done. cbn. rewrite andb_false_r, L. by rewrite bool_decide_eq_true_2 by (by left).
    + rewrite list_lookup_insert_ne by done.
      by rewrite (bool_decide_ext (r ∈ tx :: txs) (r ∈ txs)) by (rewrite elem_of_cons; tauto).
  - assert ((match cs !! tx with Some Waiting => <[tx:=Cancelled]> cs | _ => cs end) = cs) as ->
      by (by destruct (cs !! tx) as [[]|]).
    destruct (decide (r = tx)) as [->|N]; [by rewrite W, !andb_false_r|].
    by rewrite (bool_decide_ext (r ∈ tx :: txs) (r ∈ txs)) by (rewrite elem_of_cons; tauto).
Qed.

(** * The service keeps the mailboxes *)

Record holds s b : Prop := {
  same_channels : channels s = map snd (boxes b);
  registered : forall cid signal r, r ∈ parked cid signal (waiters s) ->
    exists c, boxes b !! r = Some ((cid, signal), c) /\ (c = Waiting \/ c = Dropped);
  waiting_parked : forall r cid signal, boxes b !! r = Some ((cid, signal), Waiting) -> r ∈ parked cid signal (waiters s);
  buffered : forall cid signal, lookup_in cid signal (delivered s) = kept b !! (cid, signal)
}.

Lemma parked_insert_in (cid cid' signal signal' : str) l ws :
  parked cid' signal' (insert_in cid signal l ws) = if bool_decide ((cid', signal') = (cid, signal)) then l else parked cid' signal' ws.
Proof. unfold parked. rewrite lookup_insert_in. by case_bool_decide. Qed.

Lemma parked_remove_in (cid cid' signal signal' : str) ws :
  parked cid' signal' (remove_in cid signal ws) = if bool_decide ((cid', signal') = (cid, signal)) then [] else parked cid' signal' ws.
Proof. unfold parked. rewrite lookup_remove_in. by case_bool_decide. Qed.

Lemma lookup_snoc {A} (l : list A) x r y : (l ++ [x]) !! r = Some y -> l !! r = Some y \/ (r = List.length l /\ x = y).
Proof.
  intros L. apply lookup_app_Some in L as [L|[Ge L]]; [by left|right].
  destruct (r - List.length l)%nat eqn:E; [|by destruct n]. injection L as <-. split; [lia|done].
Qed.

Lemma subscribe_holds s b (cid signal : str) : holds s b -> holds (snd (subscribe cid signal s)) (box_subscribe cid signal b).
Proof.
  intros [C Rg Wp Bf]. unfold subscribe, box_subscribe. rewrite Bf.
  assert (List.length (channels s) = List.length (boxes b)) as Len by (by rewrite C, length_map).
  destruct (kept b !! (cid, signal)) as [v|] eqn:K; cbn [snd]; split; cbn.
  - by rewrite C, map_app.
  - intros cid' signal' r I. destruct (Rg _ _ _ I) as (c & L & S). exists c. split; [|done].
    by rewrite lookup_app_l by (by eapply lookup_lt_Some).
  - intros r cid' signal' [L|[_ [=]]]%lookup_snoc. by apply Wp.
  - intros cid' signal'. rewrite lookup_remove_in. case_bool_decide as E.
    + injection E as -> ->. by rewrite lookup_delete_eq.
    + by rewrite lookup_delete_ne, Bf by congruence.
  - by rewrite C, map_app.
  - intros cid' signal' r. rewrite parked_insert_in. case_bool_decide as E.
    + injection E as -> ->. intros [I|I]%elem_of_app.
      * destruct (Rg _ _ _ I) as (c & L & S). exists c. split; [|done].
        by rewrite lookup_app_l by (by eapply lookup_lt_Some).
      * apply list_elem_of_singleton in I as ->. exists Waiting. split; [|by left]. rewrite Len. by apply list_lookup_middle.
    + intros I. destruct (Rg _ _ _ I) as (c & L & S). exists c. split; [|done].
      by rewrite lookup_app_l by (by eapply lookup_lt_Some).
  - intros r cid' signal' L. rewrite parked_insert_in. apply lookup_snoc in L as [L|[-> E]].
    + apply Wp in L. case_bool_decide as E; [|done]. injection E as -> ->. apply elem_of_app. by left.
    + injection E as -> ->. rewrite bool_decide_eq_true_2 by done. apply elem_of_app. right. rewrite Len. by left.
  - done.
Qed.

(** The senders registered at a mailbox find those that wait there. *)
Lemma parked_waits s b (cid signal : str) r : holds s b ->
  bool_decide (r ∈ parked cid signal (waiters s)) && is_waiting (channels s !! r) =
  match boxes b !! r with Some c => waits_at (cid, signal) c | None => false end.
Proof.
  intros [C Rg Wp _]. rewrite C, list_lookup_fmap. destruct (boxes b !! r) as [[k c]|] eqn:L; cbn; [|by rewrite andb_false_r].
  unfold waits_at. cbn. destruct k as [cid' signal']. case_bool_decide as I.
  - destruct (Rg _ _ _ I) as (c' & L' & _). rewrite L in L'. injection L' as -> -> ->.
    rewrite (bool_decide_eq_true_2 (_ = _)) by done. by destruct c'.
  - case_bool_decide as E; [|done]. injection E as -> ->. destruct c; try done. by apply Wp in L.
Qed.

Lemma existsb_lookup {A} (p : A -> bool) l : existsb p l = true <-> exists r x, l !! r = Some x /\ p x = true.
Proof.
  rewrite existsb_exists. split.
  - intros (x & I & P). apply list_elem_of_In, list_elem_of_lookup in I as [r L]. by exists r, x.
  - intros (r & x & L & P). exists x. split; [|done]. apply list_elem_of_In, list_elem_of_lookup. by exists r.
Qed.

Lemma deliver_holds s b (cid signal : str) v : holds s b ->
  fst (deliver cid signal v s) = fst (box_deliver cid signal v b) /\
  holds (snd (deliver cid signal v s)) (snd (box_deliver cid signal v b)).
Proof.
  intros Ho. pose proof Ho as [C Rg Wp Bf]. unfold deliver, box_deliver.
  pose proof (send_all_spec (parked cid signal (waiters s)) v false (channels s)) as [Ok Ch].
  destruct (send_all _ v false _) as [consumed cs]. cbn [fst snd] in Ok, Ch.
  assert (consumed = existsb (waits_at (cid, signal)) (boxes b)) as ->.
  { rewrite Ok. cbn [orb]. apply eq_true_iff_eq. rewrite existsb_exists, existsb_lookup. split.
    - intros (r & I & W). pose proof (parked_waits s b cid signal r Ho) as Q. rewrite W, andb_true_r in Q.
      rewrite bool_decide_eq_true_2 in Q by (by apply list_elem_of_In). destruct (boxes b !! r) as [c|] eqn:L; [|done]. by exists r, c.
    - intros (r & c & L & W). pose proof (parked_waits s b cid signal r Ho) as Q. rewrite L, W in Q.
      apply andb_true_iff in Q as [I%bool_decide_eq_true W']. exists r. split; [by apply list_elem_of_In|done]. }
  assert (cs = map snd (map (hand (cid, signal) v) (boxes b))) as ->.
  { apply list_eq. intros r. rewrite Ch, (parked_waits s b cid signal r Ho), C, !list_lookup_fmap.
    destruct (boxes b !! r) as [c|]; [|done]. cbn. unfold hand. by destruct (waits_at _ c). }
  assert (Hr : forall r k c, map (hand (cid, signal) v) (boxes b) !! r = Some (k, c) -> c <> Received v ->
    boxes b !! r = Some (k, c) /\ (k = (cid, signal) -> c <> Waiting)).
  { intros r k c. rewrite list_lookup_fmap. destruct (boxes b !! r) as [[k' c']|]; [|done]. cbn. unfold hand, waits_at. cbn.
    intros [= E] N. destruct (bool_decide (k' = (cid, signal)) && match c' with Waiting => true | _ => false end) eqn:W.
    - injection E as <- <-. done.
    - injection E as <- <-. split; [done|]. intros -> ->. rewrite bool_decide_eq_true_2 in W; done. }
  destruct (existsb (waits_at (cid, signal)) (boxes b)) eqn:Ex; cbn [fst snd]; (split; [done|]); split; cbn.
  - done.
  - intros cid' signal' r. rewrite parked_remove_in. case_bool_decide as E; [intros I; by apply elem_of_nil in I|].
    intros I. destruct (Rg _ _ _ I) as (c & L & S). exists c. split; [|done]. rewrite list_lookup_fmap, L. cbn.
    unfold hand, waits_at. cbn. by rewrite bool_decide_eq_false_2.
  - intros r cid' signal' L. rewrite parked_remove_in. apply Hr in L as [L N]; [|done]. case_bool_decide as E; [|by apply Wp].
    by destruct (N E).
  - done.
  - rewrite map_map. apply map_ext_in. intros c I. unfold hand. destruct (waits_at _ c) eqn:W; [|done].
    exfalso. apply not_true_iff_false in Ex. apply Ex, existsb_exists. by exists c.
  - intros cid' signal' r. rewrite parked_remove_in. case_bool_decide as E; [intros I; by apply elem_of_nil in I|]. apply Rg.
  - intros r cid' signal' L. rewrite parked_remove_in. case_bool_decide as E; [|by apply Wp]. injection E as -> ->. exfalso.
    apply not_true_iff_false in Ex. apply Ex, existsb_lookup. exists r, ((cid, signal), Waiting). split; [done|].
    unfold waits_at. cbn. by rewrite bool_decide_eq_true_2.
  - intros cid' signal'. rewrite lookup_insert_in. case_bool_decide as E.
    + injection E as -> ->. by rewrite lookup_insert_eq.
    + by rewrite lookup_insert_ne, Bf by congruence.
Qed.

Lemma senders_of_in (cid : str) ws r : r ∈ senders_of cid ws <-> exists signal, r ∈ parked cid signal ws.
Proof.
  unfold senders_of, parked, lookup_in. rewrite list_elem_of_In, in_concat. split.
  - intros (l & Il & I). apply list_elem_of_In, list_elem_of_fmap in Il as ([signal l'] & -> & L).
    apply elem_of_map_to_list in L. exists signal. destruct (ws !! cid); cbn in L; [|by rewrite lookup_empty in L]. cbn in *. rewrite L.
    by apply list_elem_of_In.
  - intros (signal & I). destruct (ws !! cid) as [inner|]; cbn in *; [|by apply elem_of_nil in I].
    destruct (inner !! signal) as [l|] eqn:L; cbn in *; [|by apply elem_of_nil in I]. exists l.
    split; apply list_elem_of_In; [|done]. apply list_elem_of_fmap. exists (signal, l). split; [done|by apply elem_of_map_to_list].
Qed.

Lemma unregister_holds s b (cid : str) : holds s b -> holds (unregister cid s) (box_unregister cid b).
Proof.
  intros Ho. pose proof Ho as [C Rg Wp Bf]. unfold unregister, box_unregister. split; cbn.
  - apply list_eq. intros r. rewrite drop_senders_spec, C, !list_lookup_fmap.
    destruct (boxes b !! r) as [[[cid' signal'] c]|] eqn:L; cbn; [|by rewrite andb_false_r].
    unfold cancel. cbn. destruct c; try (by rewrite andb_false_r). rewrite andb_true_r. case_bool_decide as I.
    + apply senders_of_in in I as [signal I]. destruct (Rg _ _ _ I) as (c' & L' & _). rewrite L in L'. injection L' as -> _ _.
      by rewrite bool_decide_eq_true_2.
    + rewrite bool_decide_eq_false_2; [done|]. intros ->. apply I, senders_of_in. exists signal'. by apply Wp.
  - intros cid' signal' r. unfold parked. rewrite lookup_delete_outer. case_bool_decide as E; [intros I; by apply elem_of_nil in I|].
    intros I. destruct (Rg _ _ _ I) as (c & L & S). exists c. split; [|done]. rewrite list_lookup_fmap, L. cbn. f_equal.
    unfold cancel. cbn. destruct c; try done. by rewrite bool_decide_eq_false_2.
  - intros r cid' signal'. rewrite list_lookup_fmap. destruct (boxes b !! r) as [[[cid0 signal0] c]|] eqn:L; [|done]. cbn.
    unfold cancel. cbn. destruct c; try done. case_bool_decide as E; [done|]. intros [= -> ->]. unfold parked.
    rewrite lookup_delete_outer, bool_decide_eq_false_2 by done. by apply Wp.
  - intros cid' signal'. rewrite lookup_delete_outer. case_bool_decide as E.
    + subst cid'. symmetry. apply map_lookup_filter_None. right. cbn. intros v _ N. by apply N.
    + rewrite Bf. destruct (kept b !! (cid', signal')) as [v|] eqn:K; symmetry.
      * apply map_lookup_filter_Some. by split.
      * apply map_lookup_filter_None. by left.
Qed.

Lemma drop_holds s b rx : holds s b -> holds (drop_receiver rx s) (box_drop rx b).
Proof.
  intros [C Rg Wp Bf]. unfold drop_receiver, box_drop.
  assert (forall r, alter (fun c : (str * str) * Channel V => (fst c, Dropped)) rx (boxes b) !! r =
    (if bool_decide (r = rx) then (fun c => (fst c, Dropped)) <$> boxes b !! r else boxes b !! r)) as Al.
  { intros r. case_bool_decide as E; [subst r; apply list_lookup_alter_eq|by apply list_lookup_alter_ne]. }
  split; cbn.
  - rewrite C. apply list_eq. intros r. rewrite list_lookup_fmap, Al. destruct (decide (rx = r)) as [->|N].
    + rewrite list_lookup_alter_eq, list_lookup_fmap, bool_decide_eq_true_2 by done. by destruct (boxes b !! r).
    + rewrite list_lookup_alter_ne, list_lookup_fmap by done. by rewrite bool_decide_eq_false_2 by congruence.
  - intros cid signal r I. destruct (Rg _ _ _ I) as (c & L & S). rewrite Al, L. case_bool_decide; cbn.
    + exists Dropped. auto.
    + exists c. auto.
  - intros r cid signal. rewrite Al. case_bool_decide; [by destruct (boxes b !! r)|]. apply Wp.
  - done.
Qed.

Lemma call_holds c s b : holds s b -> fst (run_call c s) = fst (box_call c b) /\ holds (snd (run_call c s)) (snd (box_call c b)).
Proof.
  intros Ho. destruct c as [cid signal|cid signal v|cid|rx]; cbn.
  - split; [done|by apply subscribe_holds].
  - pose proof (deliver_holds s b cid signal v Ho) as [E Ho'].
    destruct (deliver cid signal v s), (box_deliver cid signal v b). cbn in *. by subst.
  - split; [done|by apply unregister_holds].
  - split; [done|by apply drop_holds].
Qed.

(** ** What is listed *)

Definition tidy s : Prop :=
  (forall (cid : str) inner, waiters s !! cid = Some inner -> inner <> ∅) /\
  (forall (cid signal : str) l, lookup_in cid signal (waiters s) = Some l -> l <> []) /\
  (forall (cid : str) inner, delivered s !! cid = Some inner -> inner <> ∅).

Lemma insert_in_tidy {A} (cid signal : str) (a : A) m : (forall (c : str) inner, m !! c = Some inner -> inner <> ∅) ->
  forall (c : str) inner, insert_in cid signal a m !! c = Some inner -> inner <> ∅.
Proof.
  intros T c inner. unfold insert_in. intros [[<- <-]|[_ L]]%lookup_insert_Some; [|by apply (T c)]. apply insert_non_empty.
Qed.

Lemma remove_in_tidy {A} (cid signal : str) (m : gmap str (gmap str A)) : (forall (c : str) inner, m !! c = Some inner -> inner <> ∅) ->
  forall (c : str) inner, remove_in cid signal m !! c = Some inner -> inner <> ∅.
Proof.
  intros T c inner. unfold remove_in. destruct (m !! cid) as [i|] eqn:L; [|apply T]. case_bool_decide as E.
  - intros [_ L']%lookup_delete_Some. by apply (T c).
  - intros [[<- <-]|[_ L']]%lookup_insert_Some; [done|by apply (T c)].
Qed.

Lemma call_tidy c s : tidy s -> tidy (snd (run_call c s)).
Proof.
  intros (Tw & Tl & Td). destruct c as [cid signal|cid signal v|cid|rx]; cbn; try done.
  - unfold subscribe. destruct (lookup_in cid signal (delivered s)); cbn; split_and!; cbn; try done.
    + by apply remove_in_tidy.
    + by apply insert_in_tidy.
    + intros cid' signal' l. rewrite lookup_insert_in. case_bool_decide; [|apply Tl]. intros [= <-]. by destruct (parked _ _ _).
  - unfold deliver. destruct (send_all _ _ _ _) as [[] cs]; cbn; split_and!; cbn; try done;
      try by apply remove_in_tidy.
    + intros cid' signal' l. rewrite lookup_remove_in. case_bool_decide; [done|apply Tl].
    + intros cid' signal' l. rewrite lookup_remove_in. case_bool_decide; [done|apply Tl].
    + by apply insert_in_tidy.
  - split_and!; cbn.
    + intros c inner [_ L]%lookup_delete_Some. by apply (Tw c).
    + intros cid' signal' l. rewrite lookup_delete_outer. case_bool_decide; [done|apply Tl].
    + intros c inner [_ L]%lookup_delete_Some. by apply (Td c).
Qed.

Lemma tidy_dom {A} (m : gmap str (gmap str A)) (cid : str) : (forall (c : str) inner, m !! c = Some inner -> inner <> ∅) ->
  cid ∈ dom m <-> exists signal a, lookup_in cid signal m = Some a.
Proof.
  intros T. rewrite elem_of_dom. unfold lookup_in. split.
  - intros [inner L]. rewrite L. cbn. destruct (map_choose inner (T _ _ L)) as (signal & a & I). by exists signal, a.
  - intros (signal & a & L). destruct (m !! cid); [by eexists|done].
Qed.

Lemma list_active_spec s (cid : str) : tidy s -> cid ∈ list_active s <->
  (exists signal l, lookup_in cid signal (waiters s) = Some l) \/ (exists signal v, lookup_in cid signal (delivered s) = Some v).
Proof.
  intros (Tw & _ & Td). unfold list_active. rewrite sort_by_permutation, elem_of_elements, elem_of_union.
  by rewrite (tidy_dom _ cid Tw), (tidy_dom _ cid Td).
Qed.

Lemma run_calls_hold cs s b : holds s b -> tidy s ->
  fst (run_calls cs s) = fst (box_calls cs b) /\ holds (snd (run_calls cs s)) (snd (box_calls cs b)) /\ tidy (snd (run_calls cs s)).
Proof.
  revert s b. induction cs as [|c cs IH]; intros s b Ho T; [done|]. cbn [run_calls box_calls].
  pose proof (call_holds c s b Ho) as [E Ho']. pose proof (call_tidy c s T) as T'.
  destruct (run_call c s) as [o s'], (box_call c b) as [o' b']. cbn [fst snd] in *. subst o'.
  specialize (IH s' b' Ho' T'). destruct (run_calls cs s'), (box_calls cs b'). cbn [fst snd] in *. destruct IH as (-> & ?). done.
Qed.

(** C36 Whatever callers do, the service acts as one mailbox per execution and
    signal: a delivery answers whether anyone waits there and reaches every one
    of them, or else is kept for the next who comes; cancelling an execution
    wakes its waiters and empties its mailboxes. The executions listed as active
    are those with a payload kept or a registered waiter, all with one that
    still waits among them. *)
Theorem signals_refine_mailboxes (cs : list Call) :
  let '(os, s) := run_calls cs signals_new in
  let '(os', b) := box_calls cs (mkBoxes [] ∅) in
  os = os' /\ channels s = map snd (boxes b) /\
  (forall cid, cid ∈ list_active s ->
     (exists signal v, kept b !! (cid, signal) = Some v) \/
     exists r signal c, boxes b !! r = Some ((cid, signal), c) /\ (c = Waiting \/ c = Dropped)) /\
  (forall cid signal v, kept b !! (cid, signal) = Some v -> cid ∈ list_active s) /\
  (forall cid signal r, boxes b !! r = Some ((cid, signal), Waiting) -> cid ∈ list_active s).
Proof.
  assert (holds signals_new (mkBoxes [] ∅)) as Ho.
  { split; cbn; try done. intros cid signal r I. by apply elem_of_nil in I. }
  assert (tidy signals_new) as T by (split_and!; cbn; done).
  destruct (run_calls_hold cs _ _ Ho T) as (E & [C Rg Wp Bf] & T').
  destruct (run_calls cs signals_new) as [os s], (box_calls cs _) as [os' b]. cbn [fst snd] in *.
  split_and!; [done|done|..].
  - intros cid I. apply (list_active_spec s cid T') in I as [(signal & l & L)|(signal & v & L)].
    + right. destruct l as [|r l]; [by apply (proj1 (proj2 T')) in L|].
      destruct (Rg cid signal r) as (c & Lc & S); [unfold parked; rewrite L; by left|]. by exists r, signal, c.
    + left. exists signal, v. by rewrite <- Bf.
  - intros cid signal v K. apply (list_active_spec s cid T'). right. exists signal, v. by rewrite Bf.
  - intros cid signal r L. apply (list_active_spec s cid T'). left. apply Wp in L. unfold parked in L. exists signal.
    destruct (lookup_in cid signal (waiters s)) as [l|]; [by exists l|by apply elem_of_nil in L].
Qed.
End Signals.
Arguments SignalService : clear implicits. Arguments Mailboxes : clear implicits. Arguments Call : clear implicits.

(** A payload that comes first waits for its receiver. *)
Example early_signal_is_kept :
  let '(_, s) := run_calls [Deliver (lit "o-1") (lit "approved") true; Subscribe (lit "o-1") (lit "approved")] signals_new in
  wait_result (lit "o-1") (lit "approved") 0 s = Some (Ok true).
Proof. vm_compute. reflexivity. Qed.

(** A waiter that gave up stays registered: its execution is still listed. *)
Example abandoned_wait_is_listed :
  let '(_, s) := run_calls (V:=bool) [Subscribe (lit "o-1") (lit "approved"); DropReceiver 0] signals_new in
  list_active s = [lit "o-1"].
Proof. vm_compute. reflexivity. Qed.
