(* ===== verification/Composition.v ===== *)
(** Sagas composed as a graph: [crates/orchestration/src/saga_composition.rs].

    A composition names sagas, what each depends on and how the results of one
    become the input of another. The compositor runs the sagas layer by layer,
    those of a layer concurrently, and undoes the completed ones when one fails.

    A saga is the one of [SagaOrder.v], over a world that holds its step context
    next to the rest; it runs by [Saga.run_inner]. What [join_all] makes of the
    sagas of a layer is the class [JoinSagas]. A [BTreeMap] is read in the order
    of its keys. *)
From Stdlib Require Import Ascii String.
From Stdlib Require Import ZArith NArith List Lia Sorting.Sorted Sorting.Permutation.
From stdpp Require Import base decidable list gmap.
From S2P Require Import Prelude Str Order Json StepContext StepInvoker SagaOrder Saga.

(** * Compositions *)

Record SagaDataFlow : Type := mkFlow { source_saga : str; source_step : option str; target_key : option str }.

Record CompositionEntry : Type := mkCompEntry { entry_saga : str; entry_depends_on : list str; data_flows : list SagaDataFlow }.

Record SagaComposition : Type := mkComposition { composition_name : str; entries_of : gmap str CompositionEntry }.

(** The entries of a [BTreeMap], in the order of its keys. *)
Definition in_key_order {A} (m : gmap str A) : list (str * A) :=
  sort_by (fun a b => str_compare (fst a) (fst b)) (map_to_list m).

Definition deps (c : SagaComposition) : list (str * list str) :=
  map (fun '(name, entry) => (name, entry_depends_on entry)) (in_key_order (entries_of c)).

Inductive CompositionError : Type :=
| EmptyComposition (composition : str)
| UnknownEntryDependency (composition entry dependency : str)
| UnknownDataFlowSource (composition entry source : str)
| CompositionCycle (composition : str).

(** * Layers *)

Definition is_ready (done : gset str) (nd : str * list str) : bool := forallb (fun dep => bool_decide (dep ∈ done)) (snd nd).

(** The loop of [compute_layers]; [None] when the fuel runs out. *)
Fixpoint layers_loop (fuel : nat) (remaining : list (str * list str)) (done : gset str) (layers : list (list str))
  : option (Result (list (list str)) unit) :=
  match fuel with
  | O => None
  | S fuel =>
      match remaining with
      | [] => Some (Ok layers)
      | _ =>
          let ready := map fst (List.filter (is_ready done) remaining) in
          match ready with
          | [] => Some (Err tt)
          | _ => layers_loop fuel (List.filter (fun nd => negb (bool_decide (fst nd ∈ ready))) remaining)
                   (list_to_set ready ∪ done) (layers ++ [ready])
          end
      end
  end.

(** Every pass but the last takes a name out. *)
Definition compute_layers (d : list (str * list str)) : option (Result (list (list str)) unit) :=
  layers_loop (S (List.length d)) d ∅ [].

(** * Validation and the builder *)

Fixpoint check_dependencies (c : SagaComposition) (name : str) (l : list str) : Result unit CompositionError :=
  match l with
  | [] => Ok tt
  | dep :: l =>
      match entries_of c !! dep with
      | Some _ => check_dependencies c name l
      | None => Err (UnknownEntryDependency (composition_name c) name dep)
      end
  end.

Fixpoint check_flows (c : SagaComposition) (name : str) (l : list SagaDataFlow) : Result unit CompositionError :=
  match l with
  | [] => Ok tt
  | flow :: l =>
      match entries_of c !! source_saga flow with
      | Some _ => check_flows c name l
      | None => Err (UnknownDataFlowSource (composition_name c) name (source_saga flow))
      end
  end.

Fixpoint check_entries (c : SagaComposition) (l : list (str * CompositionEntry)) : Result unit CompositionError :=
  match l with
  | [] => Ok tt
  | (name, entry) :: l =>
      _ <-? check_dependencies c name (entry_depends_on entry);
      _ <-? check_flows c name (data_flows entry);
      check_entries c l
  end.

Definition validate (c : SagaComposition) : option (Result unit CompositionError) :=
  if bool_decide (entries_of c = ∅) then Some (Err (EmptyComposition (composition_name c)))
  else
    match check_entries c (in_key_order (entries_of c)) with
    | Err e => Some (Err e)
    | Ok _ =>
        layered ← compute_layers (deps c);
        Some (match layered with Ok _ => Ok tt | Err _ => Err (CompositionCycle (composition_name c)) end)
    end.

Definition entry_new (saga : str) : CompositionEntry := mkCompEntry saga [] [].
Definition entry_dependencies (names : list str) (e : CompositionEntry) : CompositionEntry :=
  mkCompEntry (entry_saga e) names (data_flows e).
Definition entry_flow (source : str) (step key : option str) (e : CompositionEntry) : CompositionEntry :=
  mkCompEntry (entry_saga e) (entry_depends_on e) (data_flows e ++ [mkFlow source step key]).
Definition builder_new (name : str) : SagaComposition := mkComposition name ∅.
Definition add_entry (e : CompositionEntry) (c : SagaComposition) : SagaComposition :=
  mkComposition (composition_name c) (<[entry_saga e := e]> (entries_of c)).
Definition build (c : SagaComposition) : option (Result SagaComposition CompositionError) :=
  checked ← validate c; Some (match checked with Ok _ => Ok c | Err e => Err e end).

(** * Running a composition *)

Section Compose.
Context {V U E : Type} `{JsonEntries V}.

(** A saga's run: the outcome of one that is registered. *)
Inductive SagaRun : Type :=
| Ran (o : Outcome E)
| NotRegistered.

Definition run_status (r : SagaRun) : SagaStatus := match r with Ran o => status o | NotRegistered => Failed end.

Definition is_completed (r : SagaRun) : bool := match run_status r with Completed => true | _ => false end.

Inductive CompositionFailure : Type :=
| LayersFailed
| SagaFailed (saga : str) (run : SagaRun).

Record CompositionContext : Type := mkCompContext {
  ctx_correlation : str;
  ctx_composition : str;
  saga_results : gmap str SagaRun;
  saga_step_results : gmap str (gmap str V);
  saga_inputs : gmap str V;
  completed_sagas : list str;
  compensated_sagas : list str;
  comp_error : option CompositionFailure
}.
Implicit Types ctx : CompositionContext.

Definition comp_context_new (cid name : str) : CompositionContext := mkCompContext cid name ∅ ∅ ∅ [] [] None.

Definition is_success ctx : bool := match comp_error ctx with None => true | Some _ => false end.

(** ** The input of a saga *)

Definition flow_value (flow : SagaDataFlow) ctx : option V :=
  match source_step flow with
  | Some step => results ← saga_step_results ctx !! source_saga flow; results !! step
  | None => object_of <$> saga_step_results ctx !! source_saga flow
  end.

Definition merge_flow ctx (resolved : Map) (flow : SagaDataFlow) : Map :=
  match flow_value flow ctx with
  | None => resolved
  | Some value =>
      match target_key flow, view value with
      | Some key, _ => map_insert key value resolved
      | None, Value.Object obj => fold_left (fun m '(k, v) => map_insert k v m) (entries obj) resolved
      | None, _ => map_insert (source_saga flow) value resolved
      end
  end.

Definition resolve_input (entry : CompositionEntry) ctx (initial : V) : V :=
  match data_flows entry with
  | [] => initial
  | _ =>
      let resolved := match view initial with Value.Object m => m | _ => map_new end in
      json_object (fold_left (merge_flow ctx) (data_flows entry) resolved)
  end.

(** ** The compositor *)

(** The sagas' world: what is shared, and the step context of the one that runs. *)
Abbreviation World := (U * StepContext V)%type.

Record Registered : Type := mkRegistered {
  reg_saga : Saga World E;
  undo : option (StepContext V -> U -> Result unit (BoxError E) * U)
}.

Definition SagaCompositor : Type := gmap str Registered.
Definition compositor_new : SagaCompositor := ∅.
Definition register (name : str) (sg : Saga World E) (c : SagaCompositor) : SagaCompositor := <[name := mkRegistered sg None]> c.
Definition register_with_undo (name : str) (sg : Saga World E) (f : StepContext V -> U -> Result unit (BoxError E) * U)
    (c : SagaCompositor) : SagaCompositor := <[name := mkRegistered sg (Some f)]> c.

Context `{Runtime World E} `{!JoinAll World E}.

(** [Saga::run_with_context]: no cancellation, and no listener. *)
Definition run_with_context (sg : Saga World E) (ctx : StepContext V) (u : U) : (Outcome E * StepContext V) * U :=
  let '(outcome, _, st) := run_inner sg (fun _ => false) (u, ctx) in
  let '(u, ctx) := world st in
  ((outcome, ctx), u).

(** The future of one saga of a layer. *)
Definition SagaFuture : Type := U -> (str * SagaRun * gmap str V) * U.

Definition saga_future (c : SagaCompositor) (cid name : str) (input : V) : SagaFuture := fun u =>
  let step_ctx := set_correlation_id cid (with_input input) in
  match c !! name with
  | Some reg => let '((outcome, step_ctx), u) := run_with_context (reg_saga reg) step_ctx u in
                ((name, Ran outcome, results step_ctx), u)
  | None => ((name, NotRegistered, results step_ctx), u)
  end.

(** [join_all] of a layer: one result per future, in their order; alone, a
    future just runs. *)
Class JoinSagas : Type := {
  join_sagas : list (str * SagaFuture) -> U -> list (SagaRun * gmap str V) * U;
  join_sagas_length : forall fs u, List.length (fst (join_sagas fs u)) = List.length fs;
  join_sagas_one : forall name f u, join_sagas [(name, f)] u = let '((_, r, m), u) := f u in ([(r, m)], u)
}.
Context `{!JoinSagas}.

(** Hooks of the composition's listener. *)
Inductive CompEvent : Type :=
| comp_compensation_started
| comp_step_compensated (saga : str) (error : option (BoxError E)).

(** Preparing a layer resolves each saga's input from what is known so far;
    the names of a layer are keys of the composition. *)
Fixpoint prepare_layer (c : SagaCompositor) (comp : SagaComposition) (initial : V) (layer : list str) ctx
  : list (str * SagaFuture) * CompositionContext :=
  match layer with
  | [] => ([], ctx)
  | name :: layer =>
      let input := match entries_of comp !! name with Some e => resolve_input e ctx initial | None => initial end in
      let ctx := mkCompContext (ctx_correlation ctx) (ctx_composition ctx) (saga_results ctx) (saga_step_results ctx)
                   (<[name := input]> (saga_inputs ctx)) (completed_sagas ctx) (compensated_sagas ctx) (comp_error ctx) in
      let '(futures, ctx) := prepare_layer c comp initial layer ctx in
      ((name, saga_future c (ctx_correlation ctx) name input) :: futures, ctx)
  end.

(** Recording stops at the first saga that did not complete: [true]. *)
Fixpoint record_results (l : list (str * (SagaRun * gmap str V))) ctx : bool * CompositionContext :=
  match l with
  | [] => (false, ctx)
  | (name, (run, steps)) :: l =>
      let failed := negb (is_completed run) in
      let ctx := mkCompContext (ctx_correlation ctx) (ctx_composition ctx) (<[name := run]> (saga_results ctx))
                   (<[name := steps]> (saga_step_results ctx)) (saga_inputs ctx) (completed_sagas ctx ++ [name])
                   (compensated_sagas ctx) (if failed then Some (SagaFailed name run) else comp_error ctx) in
      if failed then (true, ctx) else record_results l ctx
  end.

Fixpoint run_layers (c : SagaCompositor) (comp : SagaComposition) (initial : V) (layers : list (list str)) ctx (u : U)
  : CompositionContext * U :=
  match layers with
  | [] => (ctx, u)
  | layer :: layers =>
      let '(futures, ctx) := prepare_layer c comp initial layer ctx in
      let '(results, u) := join_sagas futures u in
      let '(failed, ctx) := record_results (combine layer results) ctx in
      if failed then (ctx, u) else run_layers c comp initial layers ctx u
  end.

Definition push_compensated (name : str) ctx : CompositionContext :=
  mkCompContext (ctx_correlation ctx) (ctx_composition ctx) (saga_results ctx) (saga_step_results ctx) (saga_inputs ctx)
    (completed_sagas ctx) (compensated_sagas ctx ++ [name]) (comp_error ctx).

(** A context with the results the saga left. *)
Definition undo_context ctx (name : str) : StepContext V :=
  match saga_step_results ctx !! name with
  | Some results => fold_left (fun step_ctx '(step, value) => set_result step value step_ctx) (in_key_order results) context_new
  | None => context_new
  end.

Fixpoint undo_sagas (c : SagaCompositor) (names : list str) ctx (log : list CompEvent) (u : U)
  : CompositionContext * list CompEvent * U :=
  match names with
  | [] => (ctx, log, u)
  | name :: names =>
      let '(log, u) :=
        match c !! name ≫= undo with
        | Some f => let '(r, u) := f (undo_context ctx name) u in (log ++ [comp_step_compensated name (error_of r)], u)
        | None => (log, u)
        end in
      undo_sagas c names (push_compensated name ctx) log u
  end.

Definition to_compensate ctx : list str :=
  List.filter (fun name => match saga_results ctx !! name with
                           | Some run => is_completed run
                           | None => false
                           end) (completed_sagas ctx).

Definition execute_with_listener (c : SagaCompositor) (comp : SagaComposition) (cid : str) (initial : V) (u : U)
  : option (CompositionContext * list CompEvent * U) :=
  let ctx := comp_context_new cid (composition_name comp) in
  layered ← compute_layers (deps comp);
  match layered with
  | Err _ =>
      Some (mkCompContext cid (composition_name comp) ∅ ∅ ∅ [] [] (Some LayersFailed), [], u)
  | Ok layers =>
      let '(ctx, u) := run_layers c comp initial layers ctx u in
      match comp_error ctx with
      | None => Some (ctx, [], u)
      | Some _ => Some (undo_sagas c (rev (to_compensate ctx)) ctx [comp_compensation_started] u)
      end
  end.
End Compose.

(** * Layers are right *)

(** Every name stands after what it depends on. *)
Definition in_dependency_order (d : list (str * list str)) (l : list str) : Prop :=
  forall a n b ds x, l = a ++ n :: b -> (n, ds) ∈ d -> x ∈ ds -> x ∈ a.

Lemma filter_partition {A} (p : A -> bool) (l : list A) :
  Permutation l (List.filter p l ++ List.filter (fun x => negb (p x)) l).
Proof.
  induction l as [|x l IH]; [done|]. cbn. destruct (p x); cbn; [by constructor|].
  rewrite <- Permutation_middle. by constructor.
Qed.

Lemma nodup_fst_unique {A B} (l : list (A * B)) a b b' : NoDup (map fst l) -> (a, b) ∈ l -> (a, b') ∈ l -> b = b'.
Proof.
  induction l as [|[a0 b0] l IH]; cbn; [intros _ I; by apply elem_of_nil in I|]. intros [N Nd]%NoDup_cons.
  assert (forall c, (a0, c) ∈ l -> False) as F.
  { intros c I. apply N, list_elem_of_fmap. by exists (a0, c). }
  intros [[= -> ->]|I]%elem_of_cons [[= ]|I']%elem_of_cons; subst; try done; try (by exfalso; eapply F). by apply IH.
Qed.

Lemma order_extends d l ready : in_dependency_order d l ->
  (forall n ds x, n ∈ ready -> (n, ds) ∈ d -> x ∈ ds -> x ∈ l) -> in_dependency_order d (l ++ ready).
Proof.
  intros O R a n b ds x E I X. apply app_eq_app in E as (k & [[-> E]|[-> E]]).
  - destruct k as [|y k].
    + cbn in E. subst ready. rewrite app_nil_r in *. apply (R n ds x); [by left|done|done].
    + injection E as -> ->. by apply (O a y k ds x).
  - apply elem_of_app. left. apply (R n ds x); [|done|done]. rewrite E. apply elem_of_app. right. by left.
Qed.

Lemma forallb_false_exists (done : gset str) (ds : list str) : forallb (fun dep => bool_decide (dep ∈ done)) ds = false ->
  exists x, x ∈ ds /\ x ∉ done.
Proof.
  induction ds as [|y ds IH]; cbn; [done|]. case_bool_decide as I; cbn.
  - intros Nr. destruct (IH Nr) as (x & X & N). exists x. split; [by right|done].
  - intros _. exists y. split; [by left|done].
Qed.

Section LayersRight.
Variable d : list (str * list str).
Hypothesis names_distinct : NoDup (map fst d).

Definition stuck (l : list str) : Prop :=
  l <> [] /\ forall n, n ∈ l -> exists ds x, (n, ds) ∈ d /\ x ∈ ds /\ (x ∈ l \/ x ∉ map fst d).

Lemma ready_names done remaining : (forall nd, nd ∈ remaining -> nd ∈ d) -> forall nd, nd ∈ remaining ->
  fst nd ∈ map fst (List.filter (is_ready done) remaining) <-> is_ready done nd = true.
Proof.
  intros S nd I. rewrite list_elem_of_fmap. split.
  - intros (nd' & E & I'). apply list_elem_of_In, filter_In in I' as [I' R]. apply list_elem_of_In in I'.
    destruct nd as [n ds], nd' as [n' ds']. cbn in E. subst n'.
    by rewrite (nodup_fst_unique d n ds ds' names_distinct (S _ I) (S _ I')).
  - intros R. exists nd. split; [done|]. by apply list_elem_of_In, filter_In; rewrite <- list_elem_of_In.
Qed.

Lemma remaining_filter done remaining : (forall nd, nd ∈ remaining -> nd ∈ d) ->
  List.filter (fun nd => negb (bool_decide (fst nd ∈ map fst (List.filter (is_ready done) remaining)))) remaining =
  List.filter (fun nd => negb (is_ready done nd)) remaining.
Proof.
  intros S. apply filter_ext_in. intros nd I. f_equal. apply list_elem_of_In in I.
  pose proof (ready_names done remaining S nd I) as R. destruct (is_ready done nd).
  - apply bool_decide_eq_true. by apply R.
  - apply bool_decide_eq_false. intros F. by apply R in F.
Qed.

Lemma ready_entry_spec done n ds : is_ready done (n, ds) = true <-> forall x, x ∈ ds -> x ∈ done.
Proof.
  unfold is_ready. cbn. rewrite forallb_forall. setoid_rewrite bool_decide_eq_true. setoid_rewrite <- list_elem_of_In. done.
Qed.

Lemma layers_loop_spec fuel remaining done layers :
  (List.length remaining < fuel)%nat -> (forall nd, nd ∈ remaining -> nd ∈ d) ->
  (forall x, x ∈ done <-> x ∈ concat layers) -> Permutation (concat layers ++ map fst remaining) (map fst d) ->
  in_dependency_order d (concat layers) ->
  exists r, layers_loop fuel remaining done layers = Some r /\
    match r with
    | Ok layers => Permutation (concat layers) (map fst d) /\ in_dependency_order d (concat layers)
    | Err _ => exists l, stuck l
    end.
Proof.
  revert remaining done layers. induction fuel as [|fuel IH]; intros remaining done layers L S D P O; [lia|].
  cbn [layers_loop]. destruct (decide (remaining = [])) as [->|Ne].
  { exists (Ok layers). cbn in P. rewrite app_nil_r in P. done. }
  assert (forall A (x y : A), match remaining with [] => x | _ => y end = y) as -> by (by destruct remaining).
  pose proof (remaining_filter done remaining S) as F. pose proof (ready_names done remaining S) as Rn.
  assert (Pr : Permutation remaining (List.filter (is_ready done) remaining ++ List.filter (fun nd => negb (is_ready done nd)) remaining))
    by apply filter_partition.
  destruct (map fst (List.filter (is_ready done) remaining)) as [|n0 ready'] eqn:Ready.
  - exists (Err tt). split; [done|]. exists (map fst remaining). apply map_eq_nil in Ready. split; [by destruct remaining|].
    intros n (nd & -> & I)%list_elem_of_fmap. destruct nd as [n ds]. cbn.
    assert (is_ready done (n, ds) = false) as Nr.
    { apply not_true_iff_false. intros R. assert (In (n, ds) (List.filter (is_ready done) remaining)) as I'.
      { apply filter_In. split; [by apply list_elem_of_In|done]. }
      by rewrite Ready in I'. }
    unfold is_ready in Nr. cbn in Nr. apply forallb_false_exists in Nr as (x & X & Nx).
    exists ds, x. split; [by apply S|]. split; [done|]. destruct (decide (x ∈ map fst d)) as [Id|Id]; [left|by right].
    rewrite <- P in Id. apply elem_of_app in Id as [Id|Id]; [|done]. exfalso. apply Nx. by apply D.
  - rewrite <- Ready in *. rewrite F. set (ready := map fst (List.filter (is_ready done) remaining)) in *.
    assert (concat (layers ++ [ready]) = concat layers ++ ready) as C by (by rewrite concat_app; cbn; rewrite app_nil_r).
    apply IH; rewrite ?C.
    + apply Permutation_length in Pr. rewrite length_app in Pr.
      assert (List.length (List.filter (is_ready done) remaining) <> 0%nat) as Nz.
      { intros Z. apply length_zero_iff_nil in Z. unfold ready in Ready. by rewrite Z in Ready. }
      lia.
    + intros nd I. apply S. apply list_elem_of_In, filter_In in I as [I _]. by apply list_elem_of_In.
    + intros x. rewrite elem_of_union, elem_of_list_to_set, D, elem_of_app. tauto.
    + rewrite <- P, <- app_assoc. apply Permutation_app_head. rewrite (Permutation_map fst Pr) at 1. by rewrite map_app.
    + apply order_extends; [done|]. intros n ds x I Id X. apply D. revert x X. apply (ready_entry_spec done n ds).
      apply list_elem_of_fmap in I as ([n' ds'] & -> & I). apply list_elem_of_In, filter_In in I as [I R].
      apply list_elem_of_In, S in I. by rewrite (nodup_fst_unique d _ ds ds' names_distinct Id I).
Qed.

(** Layering always ends. It succeeds with an order of all the sagas in
    which each stands after everything it depends on, and fails only on a real
    obstacle: sagas each of which depends on another of them, or on a name that
    is not there. *)
Theorem compute_layers_correct : exists r, compute_layers d = Some r /\
  match r with
  | Ok layers => Permutation (concat layers) (map fst d) /\ in_dependency_order d (concat layers)
  | Err _ => exists l, stuck l
  end.
Proof.
  unfold compute_layers. apply layers_loop_spec; try done.
  - lia.
  - intros x. rewrite elem_of_empty. cbn. by rewrite elem_of_nil.
  - intros a n b ds x E. by destruct a.
Qed.
End LayersRight.

(** * Running settles the sagas *)

Section Settled.
Context {V U E : Type} `{JsonEntries V} `{Runtime (U * StepContext V) E} `{!JoinAll (U * StepContext V) E}
  `{!JoinSagas (V:=V) (U:=U) (E:=E)}.
Variable c : SagaCompositor (V:=V) (U:=U) (E:=E).
Implicit Types (ctx : CompositionContext (V:=V) (E:=E)) (run : SagaRun (E:=E)).

Definition completed_in ctx (name : str) : Prop :=
  exists run, saga_results ctx !! name = Some run /\ is_completed run = true.

(** What running layers leaves alone. *)
Definition same_progress ctx ctx' : Prop :=
  saga_results ctx' = saga_results ctx /\ completed_sagas ctx' = completed_sagas ctx /\
  compensated_sagas ctx' = compensated_sagas ctx /\ comp_error ctx' = comp_error ctx.

Lemma prepare_layer_spec comp initial layer ctx :
  let '(fs, ctx') := prepare_layer c comp initial layer ctx in map fst fs = layer /\ same_progress ctx ctx'.
Proof.
  revert ctx. induction layer as [|name layer IH]; intros ctx; cbn [prepare_layer]; [by split_and!|].
  match goal with |- context [prepare_layer c comp initial layer ?x] => specialize (IH x); destruct (prepare_layer c comp initial layer x) as [fs ctx'] end.
  destruct IH as [<- (A & B & C & D)]. cbn in *. split; [done|]. by split_and!.
Qed.

Lemma record_results_spec l ctx : comp_error ctx = None -> NoDup (map fst l) -> (forall n, n ∈ map fst l -> n ∉ completed_sagas ctx) ->
  (forall n, n ∈ completed_sagas ctx -> completed_in ctx n) ->
  let '(failed, ctx') := record_results l ctx in
  compensated_sagas ctx' = compensated_sagas ctx /\
  exists done rest, map fst l = done ++ rest /\ (forall n, n ∈ completed_sagas ctx ++ done -> completed_in ctx' n) /\
    if failed : bool then
      exists name run rest', rest = name :: rest' /\ completed_sagas ctx' = completed_sagas ctx ++ done ++ [name] /\
        comp_error ctx' = Some (SagaFailed name run) /\ saga_results ctx' !! name = Some run /\ is_completed run = false
    else rest = [] /\ completed_sagas ctx' = completed_sagas ctx ++ done /\ comp_error ctx' = None.
Proof.
  revert ctx. induction l as [|[name [run steps]] l IH]; intros ctx E0 N D Ok; cbn [record_results map fst].
  { split; [done|]. exists [], []. rewrite !app_nil_r. split; [done|]. split; [exact Ok|done]. }
  apply NoDup_cons in N as [Nn N].
  assert (forall n, n ∈ completed_sagas ctx -> n <> name) as Dn by (intros n I ->; apply (D name); [by left|done]).
  destruct (is_completed run) eqn:R; cbn [negb].
  - match goal with |- context [record_results l ?x] => specialize (IH x); destruct (record_results l x) as [failed ctx'] end.
    cbn [comp_error completed_sagas compensated_sagas] in IH. destruct IH as [Cp (dn & rest & Eq & Okd & Out)]; [by rewrite E0|done|..].
    + intros n I [I'|I']%elem_of_app; [apply (D n); [by right|done]|]. apply list_elem_of_singleton in I' as ->. done.
    + intros n [I| ->%list_elem_of_singleton]%elem_of_app; unfold completed_in; cbn.
      * rewrite lookup_insert_ne by (intros Q; by apply (Dn n I)). by apply Ok.
      * exists run. by rewrite lookup_insert_eq.
    + split; [done|]. exists (name :: dn), rest. split; [cbn; by f_equal|]. split.
      { intros n I. apply Okd. rewrite <- app_assoc. exact I. }
      destruct failed.
      * destruct Out as (nm & rn & rest' & -> & Cs & Ce & Lk & Nc). exists nm, rn, rest'. rewrite Cs, <- app_assoc. done.
      * destruct Out as (-> & Cs & Ce). rewrite Cs, <- app_assoc. done.
  - cbn [compensated_sagas]. split; [done|]. exists [], (name :: map fst l). split; [done|]. split.
    + rewrite app_nil_r. intros n I. unfold completed_in. cbn. rewrite lookup_insert_ne by (intros Q; by apply (Dn n I)). by apply Ok.
    + exists name, run, (map fst l). cbn. rewrite lookup_insert_eq. done.
Qed.

(** The layers end in one of two ways. *)
Definition layers_end (order : list str) ctx : Prop :=
  compensated_sagas ctx = [] /\
  match comp_error ctx with
  | None => completed_sagas ctx = order /\ forall n, n ∈ order -> completed_in ctx n
  | Some LayersFailed => False
  | Some (SagaFailed name run) => exists done rest, order = done ++ name :: rest /\ completed_sagas ctx = done ++ [name] /\
      saga_results ctx !! name = Some run /\ is_completed run = false /\ forall n, n ∈ done -> completed_in ctx n
  end.

Lemma map_fst_combine {A B} (l : list A) (l' : list B) : List.length l = List.length l' -> map fst (combine l l') = l.
Proof. revert l'. induction l as [|x l IH]; intros [|y l'] L; cbn in *; try done. f_equal. apply IH. lia. Qed.

Lemma run_layers_spec comp initial layers ctx u :
  comp_error ctx = None -> compensated_sagas ctx = [] -> NoDup (completed_sagas ctx ++ concat layers) ->
  (forall n, n ∈ completed_sagas ctx -> completed_in ctx n) ->
  layers_end (completed_sagas ctx ++ concat layers) (fst (run_layers c comp initial layers ctx u)).
Proof.
  revert ctx u. induction layers as [|layer layers IH]; intros ctx u E0 C0 N Ok; cbn [run_layers concat].
  { rewrite app_nil_r in *. cbn. split; [done|]. rewrite E0. done. }
  pose proof (prepare_layer_spec comp initial layer ctx) as P. destruct (prepare_layer c comp initial layer ctx) as [fs ctx1].
  cbn in P. destruct P as [F (Sr & Cs & Cp & Ce)]. pose proof (join_sagas_length fs u) as L. destruct (join_sagas fs u) as [results u1]. cbn in L.
  assert (map fst (combine layer results) = layer) as Mc by (apply map_fst_combine; rewrite <- F, length_map; done).
  cbn [concat] in N. apply NoDup_app in N as (N1 & D & N2). pose proof N2 as (Nl & Dl & N3)%NoDup_app.
  pose proof (record_results_spec (combine layer results) ctx1) as R. rewrite Mc, Cs, Ce in R.
  destruct (record_results (combine layer results) ctx1) as [failed ctx2].
  destruct R as [Cp2 (dn & rest & Eq & Okd & Out)]; [done|done| | |].
  { intros n I I'. apply (D n I'). apply elem_of_app. by left. }
  { intros n I. unfold completed_in. rewrite Sr. by apply Ok. }
  destruct failed.
  - cbn [fst]. destruct Out as (name & run & rest' & -> & Cs2 & Ce2 & Lk & Nc). split; [by rewrite Cp2, Cp|]. rewrite Ce2.
    exists (completed_sagas ctx ++ dn), (rest' ++ concat layers). split; [rewrite Eq, <- !app_assoc; done|].
    split; [by rewrite Cs2, app_assoc|]. split; [done|]. split; [done|exact Okd].
  - destruct Out as (-> & Cs2 & Ce2). rewrite app_nil_r in Eq. subst dn. specialize (IH ctx2 u1 Ce2).
    rewrite Cs2, <- app_assoc in IH. apply IH; [by rewrite Cp2, Cp| |exact Okd].
    apply NoDup_app. split; [done|]. split; [done|by apply NoDup_app].
Qed.

Definition has_undo (name : str) : bool := match c !! name ≫= undo with Some _ => true | None => false end.

Definition undone (log : list (CompEvent (E:=E))) : list str :=
  omap (fun e => match e with comp_step_compensated n _ => Some n | comp_compensation_started => None end) log.

Lemma undone_app l1 l2 : undone (l1 ++ l2) = undone l1 ++ undone l2.
Proof. apply omap_app. Qed.

Lemma undo_sagas_spec names ctx log u : let '(ctx', log', _) := undo_sagas c names ctx log u in
  saga_results ctx' = saga_results ctx /\ completed_sagas ctx' = completed_sagas ctx /\ comp_error ctx' = comp_error ctx /\
  compensated_sagas ctx' = compensated_sagas ctx ++ names /\ undone log' = undone log ++ List.filter has_undo names.
Proof.
  revert ctx log u. induction names as [|name names IH]; intros ctx log u; cbn [undo_sagas List.filter].
  { rewrite !app_nil_r. by split_and!. }
  unfold has_undo at 1. destruct (c !! name ≫= undo) as [f|].
  - destruct (f (undo_context ctx name) u) as [r u1]. specialize (IH (push_compensated name ctx) (log ++ [comp_step_compensated name (error_of r)]) u1).
    destruct (undo_sagas _ _ _ _ _) as [[ctx' log'] u']. destruct IH as (A & B & C & D & F). cbn in *. split_and!; try done.
    + by rewrite D, <- app_assoc.
    + rewrite F, undone_app, <- app_assoc. done.
  - specialize (IH (push_compensated name ctx) log u).
    destruct (undo_sagas _ _ _ _ _) as [[ctx' log'] u']. destruct IH as (A & B & C & D & F). cbn in *. split_and!; try done.
    by rewrite D, <- app_assoc.
Qed.

Lemma to_compensate_spec ctx done name run : completed_sagas ctx = done ++ [name] -> saga_results ctx !! name = Some run ->
  is_completed run = false -> (forall n, n ∈ done -> completed_in ctx n) -> to_compensate ctx = done.
Proof.
  intros Cs L Nc Ok. unfold to_compensate. rewrite Cs, List.filter_app. cbn. rewrite L, Nc, app_nil_r. clear Cs.
  induction done as [|n dn IH]; [done|]. cbn. destruct (Ok n ltac:(by left)) as (r & -> & ->). f_equal. apply IH.
  intros m I. apply Ok. by right.
Qed.

Lemma in_key_order_keys {A} (m : gmap str A) : Permutation (map fst (in_key_order m)) (map fst (map_to_list m)).
Proof. unfold in_key_order. by rewrite sort_by_permutation. Qed.

Lemma deps_distinct comp : NoDup (map fst (deps comp)).
Proof.
  assert (map fst (deps comp) = map fst (in_key_order (entries_of comp))) as ->.
  { unfold deps. rewrite map_map. apply map_ext. by intros [? ?]. }
  rewrite in_key_order_keys. apply NoDup_fst_map_to_list.
Qed.

(** A composition always ends, in one of three ways. All its sagas ran, in
    dependency order, and completed. Or one did not complete: those recorded
    before it, in that order, all completed, and exactly they are compensated,
    newest first, each registered undo being run in that order. Or the
    dependencies cannot be layered, and no saga runs. *)
Theorem composition_settles comp cid initial u : exists ctx log u',
  execute_with_listener c comp cid initial u = Some (ctx, log, u') /\
  match comp_error ctx with
  | Some LayersFailed => compute_layers (deps comp) = Some (Err tt) /\ completed_sagas ctx = [] /\ compensated_sagas ctx = [] /\ u' = u
  | None => exists layers, compute_layers (deps comp) = Some (Ok layers) /\ completed_sagas ctx = concat layers /\
      in_dependency_order (deps comp) (concat layers) /\ (forall n, n ∈ concat layers -> completed_in ctx n) /\
      compensated_sagas ctx = [] /\ log = []
  | Some (SagaFailed name run) => exists layers done rest, compute_layers (deps comp) = Some (Ok layers) /\
      in_dependency_order (deps comp) (concat layers) /\ concat layers = done ++ name :: rest /\
      completed_sagas ctx = done ++ [name] /\ is_completed run = false /\ (forall n, n ∈ done -> completed_in ctx n) /\
      compensated_sagas ctx = rev done /\ undone log = List.filter has_undo (rev done)
  end.
Proof.
  unfold execute_with_listener.
  assert (exists r, compute_layers (deps comp) = Some r /\ match r with
    | Ok layers => Permutation (concat layers) (map fst (deps comp)) /\ in_dependency_order (deps comp) (concat layers)
    | Err _ => True end) as (r & R & O).
  { unfold compute_layers. destruct (layers_loop_spec (deps comp) (deps_distinct comp) (S (List.length (deps comp))) (deps comp) ∅ [])
      as (r & -> & O); try done.
    - lia.
    - intros x. rewrite elem_of_empty. cbn. by rewrite elem_of_nil.
    - intros a n b ds x E'. by destruct a.
    - exists r. split; [done|]. by destruct r. }
  rewrite R. destruct r as [layers|[]]; cbn [mbind option_bind].
  2: { eexists _, _, _. split; [done|]. cbn. done. }
  destruct O as [P O].
  pose proof (run_layers_spec comp initial layers (comp_context_new cid (composition_name comp)) u) as L.
  cbn [comp_context_new completed_sagas comp_error compensated_sagas app] in L.
  destruct L as [Cp L]; [done|done|rewrite P; apply deps_distinct|intros n I; by apply elem_of_nil in I|].
  destruct (run_layers c comp initial layers _ u) as [ctx u1]. cbn [fst] in *.
  destruct (comp_error ctx) as [[|name run]|] eqn:Ce; [done| |].
  - destruct L as (dn & rest & Eq & Cs & Lk & Nc & Okd). rewrite (to_compensate_spec ctx dn name run Cs Lk Nc Okd).
    pose proof (undo_sagas_spec (rev dn) ctx [comp_compensation_started] u1) as Un.
    destruct (undo_sagas c (rev dn) ctx [comp_compensation_started] u1) as [[ctx' log] u'].
    destruct Un as (Sr & Cs' & Ce' & Cp' & Ud). eexists _, _, _. split; [done|]. rewrite Ce', Ce. exists layers, dn, rest.
    split; [done|]. split; [done|]. split; [done|]. split; [by rewrite Cs'|]. split; [done|].
    split; [intros n I; unfold completed_in; rewrite Sr; by apply Okd|]. split; [by rewrite Cp', Cp|exact Ud].
  - destruct L as [Cs Okd]. eexists _, _, _. split; [done|]. rewrite Ce. exists layers. done.
Qed.
End Settled.

(** * Concrete compositions *)

Section Samples.
Abbreviation Log := (list Z).

#[local] Instance sample_runtime : Runtime (Log * StepContext json) unit :=
  {| timeout _ action u := let '(r, u) := action u in (Some r, u);
     sleep _ u := u; subsec_nanos _ := 0; utc_now u := Z.of_nat (List.length (fst u)) |}.

(** One after the other. *)
Fixpoint in_turn (fs : list (str * SagaFuture (V:=json) (U:=Log) (E:=unit))) (u : Log) : list (SagaRun (E:=unit) * gmap str json) * Log :=
  match fs with
  | [] => ([], u)
  | (_, f) :: fs => let '((_, r, m), u) := f u in let '(rs, u) := in_turn fs u in ((r, m) :: rs, u)
  end.

Lemma in_turn_length fs u : List.length (fst (in_turn fs u)) = List.length fs.
Proof.
  revert u. induction fs as [|[n f] fs IH]; intros u; [done|]. cbn. destruct (f u) as [[[? r] m] u1].
  specialize (IH u1). destruct (in_turn fs u1). cbn in *. by rewrite IH.
Qed.

#[local] Instance turns : JoinSagas (V:=json) (U:=Log) (E:=unit).
Proof.
  refine {| join_sagas := in_turn; join_sagas_length := in_turn_length |}.
  intros n f u. cbn. by destruct (f u) as [[[? r] m] u1].
Defined.

(** A saga of one step that writes its number and its result, or fails. *)
Definition one_step (n : Z) (ok : bool) : Saga (Log * StepContext json) unit :=
  mkSaga (lit "s") [step_new (lit "go") (fun '(log, ctx) =>
    (if ok then Ok tt else Err (BoxUser tt), (log ++ [n], set_result (lit "go") (JNumber n) ctx)))] BestEffort.
Definition undoing (n : Z) (_ : StepContext json) (log : Log) : Result unit (BoxError unit) * Log := (Ok tt, log ++ [- n]).

Definition entry (name : str) (needs : list str) : CompositionEntry := entry_dependencies needs (entry_new name).

Definition shop : SagaComposition :=
  add_entry (entry (lit "charge") [lit "reserve"]) (add_entry (entry (lit "reserve") [])
    (add_entry (entry (lit "notify") [lit "charge"]) (builder_new (lit "shop")))).

Definition shop_sagas (notify_ok : bool) : SagaCompositor :=
  register_with_undo (lit "reserve") (one_step 1 true) (undoing 1)
    (register_with_undo (lit "charge") (one_step 2 true) (undoing 2)
      (register (lit "notify") (one_step 3 notify_ok) compositor_new)).

Definition summary (r : option (CompositionContext (V:=json) (E:=unit) * list (CompEvent (E:=unit)) * Log)) :=
  option_map (fun '(ctx, _, log) => (map fst (map_to_list (saga_results ctx)), completed_sagas ctx, compensated_sagas ctx, log)) r.

Example shop_layers : compute_layers (deps shop) = Some (Ok [[lit "reserve"]; [lit "charge"]; [lit "notify"]]).
Proof. vm_compute. reflexivity. Qed.

Example shop_builds : match build shop with Some (Ok _) => true | _ => false end = true.
Proof. vm_compute. reflexivity. Qed.

Lemma compute_layers_correct_witness : NoDup (map fst (deps shop)) /\
  exists layers, compute_layers (deps shop) = Some (Ok layers) /\ in_dependency_order (deps shop) (concat layers).
Proof.
  split; [apply deps_distinct|]. destruct (compute_layers_correct (deps shop) (deps_distinct shop)) as (r & R & O).
  rewrite shop_layers in R. injection R as <-. eexists. split; [exact shop_layers|apply O].
Defined.

(** The failed saga is among the "completed" ones; its predecessors are undone. *)
Example failed_saga_is_listed :
  option_map (fun '(_, l, c, log) => (l, c, log)) (summary (execute_with_listener (shop_sagas false) shop (lit "c") JNull [])) =
  Some ([lit "reserve"; lit "charge"; lit "notify"], [lit "charge"; lit "reserve"], [1; 2; 3; -2; -1]).
Proof. vm_compute. reflexivity. Qed.

(** Two sagas of one layer: the one that fails first in the order of names
    hides the other, which ran and completed and is never undone. *)
Definition pair_of_sagas : SagaComposition := add_entry (entry (lit "a") []) (add_entry (entry (lit "b") []) (builder_new (lit "pair"))).
Definition pair_sagas : SagaCompositor :=
  register (lit "a") (one_step 1 false) (register_with_undo (lit "b") (one_step 2 true) (undoing 2) compositor_new).

Example concurrent_success_is_not_undone :
  summary (execute_with_listener pair_sagas pair_of_sagas (lit "c") JNull []) = Some ([lit "a"], [lit "a"], [], [1; 2]).
Proof. vm_compute. reflexivity. Qed.
End Samples.
