(* ===== verification/Cache.v ===== *)
(** The cache crate: [adapter.rs], [memory.rs], [fallback.rs], [noop.rs],
    [typed.rs] and [manager.rs] of [crates/cache/src/].

    The port [Adapter] is a record of operations over a world; the in-process
    adapter is the module [Memory]. Each of its critical sections (the code
    under one acquisition of the write lock) is a function of the state; the
    access stamp is taken before the lock, so in the concurrent reading a call
    is two transitions. The map's iteration order is the class [HashIter].
    Instants are nanoseconds; a panic of [Instant + Duration] is [None]. *)
From Stdlib Require Import Ascii String.
From Stdlib Require Import ZArith NArith List Lia Sorting.Sorted Floats.SpecFloat.
From stdpp Require Import base decidable list gmap.
From S2P Require Import Prelude Str.

Definition INSTANT_MAX : Z := 2 ^ 63 * NANOS_PER_SEC - 1.

(** [Instant::now() + d] panics when the sum is not representable. *)
Definition instant_add (now d : Z) : option Z :=
  if now + d <=? INSTANT_MAX then Some (now + d) else None.

(** [CacheError]; the payload of [Codec] is serde_json's error. *)
Inductive CacheError (J : Type) : Type :=
| NotFound
| Codec (e : J)
| Backend (msg : str).
Arguments NotFound {J}.
Arguments Codec {J} e.
Arguments Backend {J} msg.

Definition is_not_found {J} (e : CacheError J) : bool :=
  match e with NotFound => true | _ => false end.

Record CacheStats : Type := mkStats {
  stats_size : Z;
  stats_hits : Z;
  stats_misses : Z;
  stats_evictions : Z;
  hit_rate : f64
}.

Definition from_counters (size hits misses evictions : Z) : CacheStats :=
  let requests := u64 (hits + misses) in
  mkStats size hits misses evictions
    (if requests =? 0 then S754_zero false
     else f64_div (f64_of_Z hits) (f64_of_Z requests)).

Definition requests (s : CacheStats) : Z := u64 (stats_hits s + stats_misses s).

(** * The port *)

Record Adapter (W J : Type) : Type := mkAdapter {
  get : str -> M W (Result bytes (CacheError J));
  set : str -> bytes -> option Z -> M W (Result unit (CacheError J));
  delete_key : str -> M W (Result unit (CacheError J));
  clear_all : M W (Result unit (CacheError J));
  name : str;
  health_check : M W (Result unit (CacheError J));
  set_if_absent : str -> bytes -> option Z -> M W (Result bool (CacheError J));
  exists_key : str -> M W (Result bool (CacheError J));
  delete_prefix : str -> M W (Result Z (CacheError J));
  stats : M W (option CacheStats)
}.
Arguments get {W J} a. Arguments set {W J} a. Arguments delete_key {W J} a.
Arguments clear_all {W J} a. Arguments name {W J} a. Arguments health_check {W J} a.
Arguments set_if_absent {W J} a. Arguments exists_key {W J} a.
Arguments delete_prefix {W J} a. Arguments stats {W J} a.

(** The trait's default methods, over the ones an implementation gives. *)
Section Defaults.
Context {W J : Type}.

Definition default_exists (get : str -> M W (Result bytes (CacheError J))) (key : str)
  : M W (Result bool (CacheError J)) :=
  let! r := get key in
  match r with
  | Ok _ => ret (Ok true)
  | Err e => if is_not_found e then ret (Ok false) else ret (Err e)
  end.

Definition default_set_if_absent (exists_ : str -> M W (Result bool (CacheError J)))
    (set : str -> bytes -> option Z -> M W (Result unit (CacheError J)))
    (key : str) (value : bytes) (ttl : option Z) : M W (Result bool (CacheError J)) :=
  let? present := exists_ key in
  if present then ret (Ok false)
  else let? _ := set key value ttl in ret (Ok true).

Definition default_delete_prefix (_ : str) : M W (Result Z (CacheError J)) :=
  ret (Err (Backend (lit "delete_prefix unsupported by this adapter"))).

Definition default_stats : M W (option CacheStats) := ret None.

Definition NoOpAdapter : Adapter W J :=
  let get := fun _ => ret (Err NotFound) in
  let set := fun _ _ _ => ret (Ok tt) in
  let exists_ := default_exists get in
  mkAdapter W J get set (fun _ => ret (Ok tt)) (ret (Ok tt)) (lit "noop") (ret (Ok tt))
    (default_set_if_absent exists_ set) exists_ default_delete_prefix default_stats.
End Defaults.

(** * The process-global adapter *)

(** [OnceLock::set]: the first registration wins. *)
Definition register_cache {A} (adapter : A) (cell : option A) : bool * option A :=
  match cell with
  | None => (true, Some adapter)
  | Some _ => (false, cell)
  end.

Definition cache_adapter {A} (cell : option A) : option A := cell.

(** * The in-process adapter *)

Module Memory.

Record MemEntry : Type := mkEntry {
  value : bytes;
  exp : option Z;
  last_access : Z
}.

Definition expired (now : Z) (e : MemEntry) : bool :=
  match exp e with Some d => d <? now | None => false end.

Record MemoryAdapter : Type := mkMem {
  entries : gmap str MemEntry;
  max_entries : option nat;
  access_seq : Z;
  hits : Z;
  misses : Z;
  evictions : Z
}.

Definition new : MemoryAdapter := mkMem ∅ None 0 0 0 0.

Definition with_max_entries (max : nat) : MemoryAdapter :=
  mkMem ∅ (if (0 <? max)%nat then Some max else None) 0 0 0 0.

(** Functional updates of the record's fields. *)
Definition set_entries (m : gmap str MemEntry) (s : MemoryAdapter) : MemoryAdapter :=
  mkMem m (max_entries s) (access_seq s) (hits s) (misses s) (evictions s).
Definition add_hit (s : MemoryAdapter) : MemoryAdapter :=
  mkMem (entries s) (max_entries s) (access_seq s) (u64 (hits s + 1)) (misses s) (evictions s).
Definition add_miss (s : MemoryAdapter) : MemoryAdapter :=
  mkMem (entries s) (max_entries s) (access_seq s) (hits s) (u64 (misses s + 1)) (evictions s).
Definition add_evictions (n : Z) (s : MemoryAdapter) : MemoryAdapter :=
  mkMem (entries s) (max_entries s) (access_seq s) (hits s) (misses s) (u64 (evictions s + n)).

(** Iterating a [HashMap] visits every entry once, in an unspecified order. *)
Class HashIter : Type := {
  iter : gmap str MemEntry -> list (str * MemEntry);
  iter_all : forall m, iter m ≡ₚ map_to_list m
}.

(** [Iterator::min_by_key]: the first of the minimal elements. *)
Fixpoint min_by_key {A} (key : A -> Z) (l : list A) : option A :=
  match l with
  | [] => None
  | x :: l' =>
      match min_by_key key l' with
      | Some y => if key x <=? key y then Some x else Some y
      | None => Some x
      end
  end.

Section Operations.
Context `{HashIter}.

Definition next_seq (s : MemoryAdapter) : Z * MemoryAdapter :=
  (access_seq s,
   mkMem (entries s) (max_entries s) (u64 (access_seq s + 1)) (hits s) (misses s) (evictions s)).

(** One pass of the [while] loop of [enforce_bound]: [None] leaves it. *)
Definition evict_one (max : nat) (s : MemoryAdapter) : option MemoryAdapter :=
  if (max <? size (entries s))%nat then
    match fst <$> min_by_key (fun p => last_access (snd p)) (iter (entries s)) with
    | Some k => Some (add_evictions 1 (set_entries (delete k (entries s)) s))
    | None => None
    end
  else None.

Fixpoint enforce_loop (fuel max : nat) (s : MemoryAdapter) : MemoryAdapter :=
  match fuel with
  | O => s
  | S f => match evict_one max s with Some s' => enforce_loop f max s' | None => s end
  end.

(** The number of entries bounds the passes. *)
Definition enforce_bound (s : MemoryAdapter) : MemoryAdapter :=
  match max_entries s with
  | None => s
  | Some max => enforce_loop (size (entries s)) max s
  end.

(** The critical section of [get], with its stamp and its clock reading. *)
Definition get_locked {J} (key : str) (seq now : Z) (s : MemoryAdapter)
  : Result bytes (CacheError J) * MemoryAdapter :=
  match entries s !! key with
  | None => (Err NotFound, add_miss s)
  | Some e =>
      if negb (expired now e) then
        (Ok (value e),
         add_hit (set_entries (<[key := mkEntry (value e) (exp e) seq]> (entries s)) s))
      else (Err NotFound, add_miss (add_evictions 1 (set_entries (delete key (entries s)) s)))
  end.

Definition get {J} (key : str) (now : Z) (s : MemoryAdapter)
  : Result bytes (CacheError J) * MemoryAdapter :=
  let '(seq, s) := next_seq s in get_locked key seq now s.

(** [ttl.filter(|d| !d.is_zero()).map(|d| Instant::now() + d)]. *)
Definition deadline (ttl : option Z) (now : Z) : option (option Z) :=
  match ttl with
  | Some d => if d =? 0 then Some None else Some <$> instant_add now d
  | None => Some None
  end.

Definition set_locked (key : str) (v : bytes) (exp : option Z) (seq : Z) (s : MemoryAdapter)
  : MemoryAdapter :=
  enforce_bound (set_entries (<[key := mkEntry v exp seq]> (entries s)) s).

Definition set (key : str) (v : bytes) (ttl : option Z) (now : Z) (s : MemoryAdapter)
  : option MemoryAdapter :=
  exp ← deadline ttl now;
  let '(seq, s) := next_seq s in Some (set_locked key v exp seq s).

Definition delete_key (key : str) (s : MemoryAdapter) : MemoryAdapter :=
  let s' := set_entries (delete key (entries s)) s in
  match entries s !! key with Some _ => add_evictions 1 s' | None => s' end.

Definition clear_all (s : MemoryAdapter) : MemoryAdapter := set_entries ∅ s.

(** [set_if_absent] reads the clock to look for a live entry and again for
    the deadline. *)
Definition set_if_absent_locked (key : str) (v : bytes) (ttl : option Z) (seq now now' : Z)
    (s : MemoryAdapter) : option (bool * MemoryAdapter) :=
  let write s :=
    exp ← deadline ttl now'; Some (true, set_locked key v exp seq s) in
  match entries s !! key with
  | Some e => if negb (expired now e) then Some (false, s) else write (add_evictions 1 s)
  | None => write s
  end.

Definition set_if_absent (key : str) (v : bytes) (ttl : option Z) (now now' : Z)
    (s : MemoryAdapter) : option (bool * MemoryAdapter) :=
  let '(seq, s) := next_seq s in set_if_absent_locked key v ttl seq now now' s.

Definition exists_key (key : str) (now : Z) (s : MemoryAdapter) : bool * MemoryAdapter :=
  match entries s !! key with
  | None => (false, s)
  | Some e =>
      if negb (expired now e) then (true, s)
      else (false, add_evictions 1 (set_entries (delete key (entries s)) s))
  end.

Definition delete_prefix (prefix : str) (s : MemoryAdapter) : Z * MemoryAdapter :=
  let matches := List.filter (starts_with prefix) (map fst (iter (entries s))) in
  let removed := u64 (Z.of_nat (List.length matches)) in
  (removed,
   add_evictions removed (set_entries (fold_left (fun m k => delete k m) matches (entries s)) s)).

(** [keys], [stats] and [len]: the clock is read once per entry. *)
Definition keys (clock : str -> Z) (s : MemoryAdapter) : list str :=
  map fst (List.filter (fun p => negb (expired (clock (fst p)) (snd p))) (iter (entries s))).

Definition stats (clock : str -> Z) (s : MemoryAdapter) : CacheStats :=
  from_counters (u64 (Z.of_nat (List.length (keys clock s)))) (hits s) (misses s) (evictions s).

Definition len (s : MemoryAdapter) : nat := size (entries s).
Definition is_empty (s : MemoryAdapter) : bool := (len s =? 0)%nat.
End Operations.

(** The trait implementation, over a world that shows a clock. *)
Definition adapter `{HashIter} {J} : Adapter (Z * MemoryAdapter) J :=
  mkAdapter _ J
    (fun key '(now, s) => let '(r, s) := get key now s in Some (r, (now, s)))
    (fun key v ttl '(now, s) => s ← set key v ttl now s; Some (Ok tt, (now, s)))
    (fun key '(now, s) => Some (Ok tt, (now, delete_key key s)))
    (fun '(now, s) => Some (Ok tt, (now, clear_all s)))
    (lit "memory") (ret (Ok tt))
    (fun key v ttl '(now, s) =>
       '(b, s) ← set_if_absent key v ttl now now s; Some (Ok b, (now, s)))
    (fun key '(now, s) => let '(b, s) := exists_key key now s in Some (Ok b, (now, s)))
    (fun prefix '(now, s) => let '(n, s) := delete_prefix prefix s in Some (Ok n, (now, s)))
    (fun '(now, s) => Some (Some (stats (fun _ => now) s), (now, s))).

(** ** The abstract cache: a list of keys from the most to the least recently
    used, cut at the bound. *)

Record Lru : Type := mkLru {
  recent : list (str * (bytes * option Z));
  lru_hits : Z;
  lru_misses : Z;
  lru_evictions : Z
}.

Definition lru_new : Lru := mkLru [] 0 0 0.

Definition lru_find (k : str) (l : list (str * (bytes * option Z))) : option (bytes * option Z) :=
  snd <$> List.find (fun p => str_eqb (fst p) k) l.
Definition lru_remove (k : str) (l : list (str * (bytes * option Z))) :=
  List.filter (fun p => negb (str_eqb (fst p) k)) l.
Definition lru_live (now : Z) (v : bytes * option Z) : bool :=
  match snd v with Some d => now <=? d | None => true end.
Definition lru_cut (bound : option nat) (l : list (str * (bytes * option Z))) :=
  match bound with Some n => take n l | None => l end.
Definition lru_cut_off (bound : option nat) (l : list (str * (bytes * option Z))) : Z :=
  match bound with Some n => Z.of_nat (List.length l - n) | None => 0 end.

Definition lru_write (bound : option nat) (k : str) (v : bytes) (exp : option Z) (a : Lru) : Lru :=
  let l := (k, (v, exp)) :: lru_remove k (recent a) in
  mkLru (lru_cut bound l) (lru_hits a) (lru_misses a) (u64 (lru_evictions a + lru_cut_off bound l)).

(** The calls, with their clock readings. *)
Inductive Call : Type :=
| CGet (k : str) (now : Z)
| CSet (k : str) (v : bytes) (ttl : option Z) (now : Z)
| CDelete (k : str)
| CClear
| CSetIfAbsent (k : str) (v : bytes) (ttl : option Z) (now now' : Z)
| CExists (k : str) (now : Z)
| CDeletePrefix (prefix : str).

Inductive Reply : Type :=
| RBytes (r : option bytes)
| RUnit
| RBool (b : bool)
| RCount (n : Z).

Definition lru_call (bound : option nat) (c : Call) (a : Lru) : option (Reply * Lru) :=
  let l := recent a in
  match c with
  | CGet k now =>
      match lru_find k l with
      | None => Some (RBytes None, mkLru l (lru_hits a) (u64 (lru_misses a + 1)) (lru_evictions a))
      | Some v =>
          if lru_live now v then
            Some (RBytes (Some (fst v)),
                  mkLru ((k, v) :: lru_remove k l) (u64 (lru_hits a + 1)) (lru_misses a) (lru_evictions a))
          else
            Some (RBytes None,
                  mkLru (lru_remove k l) (lru_hits a) (u64 (lru_misses a + 1)) (u64 (lru_evictions a + 1)))
      end
  | CSet k v ttl now => exp ← deadline ttl now; Some (RUnit, lru_write bound k v exp a)
  | CDelete k =>
      Some (RUnit, mkLru (lru_remove k l) (lru_hits a) (lru_misses a)
                     (match lru_find k l with Some _ => u64 (lru_evictions a + 1) | None => lru_evictions a end))
  | CClear => Some (RUnit, mkLru [] (lru_hits a) (lru_misses a) (lru_evictions a))
  | CSetIfAbsent k v ttl now now' =>
      match lru_find k l with
      | Some e =>
          if lru_live now e then Some (RBool false, a)
          else exp ← deadline ttl now';
               Some (RBool true, lru_write bound k v exp
                      (mkLru l (lru_hits a) (lru_misses a) (u64 (lru_evictions a + 1))))
      | None => exp ← deadline ttl now'; Some (RBool true, lru_write bound k v exp a)
      end
  | CExists k now =>
      match lru_find k l with
      | None => Some (RBool false, a)
      | Some e =>
          if lru_live now e then Some (RBool true, a)
          else Some (RBool false, mkLru (lru_remove k l) (lru_hits a) (lru_misses a) (u64 (lru_evictions a + 1)))
      end
  | CDeletePrefix prefix =>
      let n := u64 (Z.of_nat (List.length (List.filter (fun p => starts_with prefix (fst p)) l))) in
      Some (RCount n,
            mkLru (List.filter (fun p => negb (starts_with prefix (fst p))) l)
              (lru_hits a) (lru_misses a) (u64 (lru_evictions a + n)))
  end.

Section Calls.
Context `{HashIter}.

(** The adapter's answer to a call; the error type plays no part. *)
Definition mem_call (c : Call) (s : MemoryAdapter) : option (Reply * MemoryAdapter) :=
  match c with
  | CGet k now =>
      let '(r, s) := get (J := unit) k now s in
      Some (RBytes (match r with Ok v => Some v | Err _ => None end), s)
  | CSet k v ttl now => s ← set k v ttl now s; Some (RUnit, s)
  | CDelete k => Some (RUnit, delete_key k s)
  | CClear => Some (RUnit, clear_all s)
  | CSetIfAbsent k v ttl now now' => '(b, s) ← set_if_absent k v ttl now now' s; Some (RBool b, s)
  | CExists k now => let '(b, s) := exists_key k now s in Some (RBool b, s)
  | CDeletePrefix prefix => let '(n, s) := delete_prefix prefix s in Some (RCount n, s)
  end.
End Calls.

Fixpoint run {S} (call : Call -> S -> option (Reply * S)) (cs : list Call) (s : S)
  : option (list Reply * S) :=
  match cs with
  | [] => Some ([], s)
  | c :: cs' =>
      '(r, s') ← call c s; '(rs, s'') ← run call cs' s'; Some (r :: rs, s'')
  end.

(** A cache reads as the list of its keys by decreasing access stamp. *)
Definition younger (p q : str * MemEntry) : Prop := last_access (snd q) < last_access (snd p).
Definition erase (p : str * MemEntry) : str * (bytes * option Z) :=
  (fst p, (value (snd p), exp (snd p))).

Record recency (s : MemoryAdapter) (al : list (str * MemEntry)) : Prop := {
  recency_nodup : NoDup (map fst al);
  recency_entries : entries s = list_to_map al;
  recency_sorted : StronglySorted younger al;
  recency_seq : Forall (fun p => last_access (snd p) < access_seq s) al
}.

Definition lru_view (s : MemoryAdapter) (a : Lru) : Prop :=
  (exists al, recency s al /\ recent a = map erase al) /\
  lru_hits a = hits s /\ lru_misses a = misses s /\ lru_evictions a = evictions s.

(** ** Association lists and their maps *)

Definition is_key {A} (k : str) (p : str * A) : bool := str_eqb (fst p) k.
Definition not_key {A} (k : str) (p : str * A) : bool := negb (str_eqb (fst p) k).

Lemma str_eqb_spec a b : str_eqb a b = true <-> a = b.
Proof. unfold str_eqb. apply bool_decide_eq_true. Qed.

Lemma str_eqb_false a b : str_eqb a b = false <-> a <> b.
Proof. unfold str_eqb. apply bool_decide_eq_false. Qed.

Section Assoc.
Context {A : Type}.
Implicit Types al : list (str * A).

Lemma lookup_assoc al k :
  (list_to_map al : gmap str A) !! k = snd <$> List.find (is_key k) al.
Proof.
  induction al as [|[k' v] al IH]; simpl; [apply lookup_empty|].
  unfold is_key at 1. simpl. destruct (str_eqb k' k) eqn:E.
  - apply str_eqb_spec in E as ->. by rewrite lookup_insert_eq.
  - apply str_eqb_false in E. by rewrite lookup_insert_ne.
Qed.

Lemma find_filter_key (q : str -> bool) al k :
  List.find (is_key k) (List.filter (fun p => q (fst p)) al) =
  if q k then List.find (is_key k) al else None.
Proof.
  induction al as [|[k' v] al IH]; simpl; [by destruct (q k)|].
  unfold is_key in *. simpl. destruct (q k') eqn:Q; simpl; rewrite IH;
    destruct (str_eqb k' k) eqn:E; try done; apply str_eqb_spec in E; subst; by rewrite Q.
Qed.

Lemma delete_assoc al k :
  delete k (list_to_map al : gmap str A) = list_to_map (List.filter (not_key k) al).
Proof.
  apply map_eq. intros i. rewrite lookup_assoc.
  change (List.filter (not_key k) al) with (List.filter (fun p => negb (str_eqb (fst p) k)) al).
  rewrite (find_filter_key (fun i => negb (str_eqb i k))).
  destruct (str_eqb i k) eqn:E.
  - apply str_eqb_spec in E as ->. apply lookup_delete_eq.
  - apply str_eqb_false in E. rewrite lookup_delete_ne by done. apply lookup_assoc.
Qed.

Lemma delete_all_assoc (ks : list str) al :
  fold_left (fun m k => delete k m) ks (list_to_map al : gmap str A) =
  list_to_map (List.filter (fun p => negb (existsb (str_eqb (fst p)) ks)) al).
Proof.
  revert al. induction ks as [|k ks IH]; intros al; simpl.
  - f_equal. induction al; simpl; congruence.
  - rewrite delete_assoc, IH. f_equal. induction al as [|[k' v] al IHl]; simpl; [done|].
    unfold not_key at 1. simpl.
    destruct (str_eqb k' k) eqn:E; simpl; [exact IHl|].
    destruct (existsb (str_eqb k') ks); simpl; congruence.
Qed.

Lemma nodup_filter_keys (q : str * A -> bool) al : NoDup (map fst al) -> NoDup (map fst (List.filter q al)).
Proof.
  induction al as [|p al IH]; simpl; [done|]. intros [N D]%NoDup_cons.
  destruct (q p); simpl; [|by apply IH]. apply NoDup_cons. split; [|by apply IH].
  intros I. apply N. apply list_elem_of_In in I. apply list_elem_of_In.
  apply in_map_iff in I as (x & <- & I). apply filter_In in I as [I _]. by apply in_map.
Qed.

Lemma sorted_filter (R : str * A -> str * A -> Prop) (q : str * A -> bool) al :
  StronglySorted R al -> StronglySorted R (List.filter q al).
Proof.
  induction 1 as [|p al S IH F]; simpl; [constructor|].
  destruct (q p); [|done]. constructor; [done|].
  rewrite List.Forall_forall in *. intros x I. apply F. by apply filter_In in I as [I _].
Qed.

Lemma forall_filter (P : str * A -> Prop) (q : str * A -> bool) al :
  Forall P al -> Forall P (List.filter q al).
Proof. rewrite !List.Forall_forall. intros F x I. apply F. by apply filter_In in I as [I _]. Qed.

Lemma not_in_filter_key al k : ~ List.In k (map fst (List.filter (not_key k) al)).
Proof.
  intros I. apply in_map_iff in I as ([k' v] & E & I). apply filter_In in I as [_ I].
  simpl in E. subst. unfold not_key in I. simpl in I.
  by rewrite (proj2 (str_eqb_spec k k) eq_refl) in I.
Qed.
End Assoc.

Lemma min_by_key_spec {A} (key : A -> Z) l x : min_by_key key l = Some x ->
  List.In x l /\ forall y, List.In y l -> key x <= key y.
Proof.
  revert x. induction l as [|a l IH]; intros x; simpl; [done|].
  destruct (min_by_key key l) as [y|] eqn:M.
  - destruct (IH y eq_refl) as [I B].
    destruct (Z.leb_spec (key a) (key y)); intros [= <-].
    + split; [by left|]. intros z [->|I']; [lia|]. specialize (B z I'). lia.
    + split; [by right|]. intros z [->|I']; [lia|]. by apply B.
  - intros [= <-]. split; [by left|]. destruct l as [|b l]; [|simpl in M].
    + intros y [->|[]]. lia.
    + destruct (min_by_key key l); [by destruct (_ <=? _)|done].
Qed.

Lemma min_by_key_some {A} (key : A -> Z) l : l <> [] -> exists x, min_by_key key l = Some x.
Proof.
  destruct l as [|a l]; [done|]. intros _. simpl.
  destruct (min_by_key key l); [destruct (_ <=? _)|]; eauto.
Qed.

(** ** Each primitive change of the map, seen through [recency] *)

Lemma recency_same s s' al : entries s = entries s' -> access_seq s <= access_seq s' ->
  recency s al -> recency s' al.
Proof.
  intros E Q [N M S F]. split; [done|congruence|done|].
  eapply List.Forall_impl; [|exact F]. simpl. lia.
Qed.

Lemma recency_lookup s al k : recency s al -> entries s !! k = snd <$> List.find (is_key k) al.
Proof. intros R. rewrite (recency_entries _ _ R). apply lookup_assoc. Qed.

Lemma recency_filter s al (q : str * MemEntry -> bool) :
  recency s al -> recency (set_entries (list_to_map (List.filter q al)) s) (List.filter q al).
Proof.
  intros [N M S F]. split; simpl; [by apply nodup_filter_keys|done|by apply sorted_filter|by apply forall_filter].
Qed.

Lemma recency_delete s al k :
  recency s al -> recency (set_entries (delete k (entries s)) s) (List.filter (not_key k) al).
Proof.
  intros R. rewrite (recency_entries _ _ R), delete_assoc. by apply recency_filter.
Qed.

Lemma recency_put s al k v e seq s' :
  recency s al -> access_seq s <= seq -> seq < access_seq s' ->
  entries s' = <[k := mkEntry v e seq]> (entries s) ->
  recency s' ((k, mkEntry v e seq) :: List.filter (not_key k) al).
Proof.
  intros R Q Q' E. destruct (recency_filter s al (not_key k) R) as [N M S F]. simpl in *.
  split; simpl.
  - apply NoDup_cons. split; [|done]. intros I. apply list_elem_of_In in I. by apply not_in_filter_key in I.
  - by rewrite E, (recency_entries _ _ R), <- delete_assoc, insert_delete_eq.
  - constructor; [done|]. eapply List.Forall_impl; [|exact F]. unfold younger. simpl. intros p. lia.
  - constructor; simpl; [done|]. eapply List.Forall_impl; [|exact F]. simpl. intros p. lia.
Qed.

Lemma recency_size s al : recency s al -> size (entries s) = List.length al.
Proof.
  intros R. rewrite (recency_entries _ _ R).
  apply map_size_list_to_map. exact (recency_nodup _ _ R).
Qed.

Lemma last_split {A} (l : list A) n : (n < List.length l)%nat -> exists l' x, l = l' ++ [x] /\ List.length l' = pred (List.length l).
Proof.
  intros L. destruct (exists_last (l := l)) as (l' & x & E); [destruct l; simpl in L; [lia|done]|].
  exists l', x. split; [done|]. rewrite E, length_app. simpl. lia.
Qed.

Section Eviction.
Context `{HashIter}.

Lemma recency_iter s al : recency s al -> iter (entries s) ≡ₚ al.
Proof.
  intros R. rewrite iter_all, (recency_entries _ _ R).
  apply map_to_list_to_map. exact (recency_nodup _ _ R).
Qed.

(** The victim is the least recently used key. *)
Lemma victim_last s al x : recency s (al ++ [x]) ->
  fst <$> min_by_key (fun p => last_access (snd p)) (iter (entries s)) = Some (fst x).
Proof.
  intros R. pose proof (recency_iter _ _ R) as P.
  destruct (min_by_key_some (fun p => last_access (snd p)) (iter (entries s))) as [y Y].
  { intros E. rewrite E in P. apply Permutation_nil in P. by destruct al. }
  rewrite Y. destruct (min_by_key_spec _ _ _ Y) as [I B].
  assert (Hx : last_access (snd y) <= last_access (snd x)).
  { apply B. eapply Permutation_in; [symmetry; exact P|]. apply in_or_app. right. by left. }
  eapply Permutation_in in I; [|exact P]. apply in_app_or in I as [I|[->|[]]]; [|done].
  exfalso. pose proof (recency_sorted _ _ R) as S. clear - I S Hx.
  induction al as [|z al IH]; [done|]. inversion S as [|? ? S' F]; subst.
  destruct I as [->|I]; [|by apply IH].
  rewrite List.Forall_forall in F. specialize (F x). unfold younger in F.
  assert (last_access (snd x) < last_access (snd y)); [|lia].
  apply F. apply in_or_app. right. by left.
Qed.

Lemma not_key_last (al : list (str * MemEntry)) x :
  NoDup (map fst (al ++ [x])) -> List.filter (not_key (fst x)) (al ++ [x]) = al.
Proof.
  rewrite map_app, List.filter_app. intros (_ & D & _)%NoDup_app. simpl.
  unfold not_key at 2. rewrite (proj2 (str_eqb_spec _ _) eq_refl). simpl. rewrite app_nil_r.
  induction al as [|y al IH]; simpl; [done|].
  unfold not_key at 1. rewrite (proj2 (str_eqb_false (fst y) (fst x))).
  - simpl. f_equal. apply IH. intros z Z. apply D. simpl. by constructor 2.
  - intros E. apply (D (fst y)); [by constructor 1|]. rewrite E. constructor 1.
Qed.

(** One pass drops the last entry while there are too many, and nothing else. *)
Lemma evict_one_spec max s al : recency s al ->
  match evict_one max s with
  | Some s' =>
      (max < List.length al)%nat /\
      exists al' x, al = al' ++ [x] /\ recency s' al' /\
        s' = add_evictions 1 (set_entries (delete (fst x) (entries s)) s)
  | None => (List.length al <= max)%nat
  end.
Proof.
  intros R. unfold evict_one. rewrite (recency_size _ _ R).
  destruct (Nat.ltb_spec max (List.length al)) as [Lt|Ge]; [|done].
  destruct (last_split al max Lt) as (al' & x & -> & _).
  rewrite (victim_last _ _ _ R). simpl. split; [done|]. exists al', x. split; [done|]. split; [|done].
  rewrite <- (not_key_last al' x) by exact (recency_nodup _ _ R).
  eapply recency_same; [..|exact (recency_delete _ _ (fst x) R)]; simpl; [done|lia].
Qed.

(** The loop leaves the [max] most recent entries, and is then at its exit. *)
Lemma enforce_loop_spec fuel max s s' al : recency s al -> (List.length al <= fuel + max)%nat ->
  0 <= evictions s < 2 ^ 64 -> enforce_loop fuel max s = s' ->
  recency s' (take max al) /\ max_entries s' = max_entries s /\ access_seq s' = access_seq s /\
  hits s' = hits s /\ misses s' = misses s /\
  evictions s' = u64 (evictions s + Z.of_nat (List.length al - max)) /\
  evict_one max s' = None.
Proof.
  assert (Exit : forall s al, recency s al -> (List.length al <= max)%nat -> 0 <= evictions s < 2 ^ 64 ->
    recency s (take max al) /\ evictions s = u64 (evictions s + Z.of_nat (List.length al - max)) /\
    evict_one max s = None).
  { clear. intros s al R L B. rewrite take_ge by lia. split; [done|]. split.
    - replace (List.length al - max)%nat with 0%nat by lia. unfold u64. rewrite Z.mod_small; lia.
    - pose proof (evict_one_spec max s al R) as V. destruct (evict_one max s); [lia|done]. }
  revert s al. induction fuel as [|fuel IH]; intros s al R L B E; simpl in E.
  { subst s'. destruct (Exit s al R) as (? & ? & ?); [lia|done|done]. }
  pose proof (evict_one_spec max s al R) as V.
  destruct (evict_one max s) as [s1|] eqn:Ev.
  - destruct V as (Lt & al' & x & -> & R1 & ->). rewrite length_app in *. simpl in *.
    destruct (IH _ al' R1) as (R2 & E1 & E2 & E3 & E4 & E5 & E6); [lia| |exact E|].
    { simpl. apply Z.mod_pos_bound. lia. }
    rewrite take_app_le by lia. simpl in *. do 5 (split; [done|]). split; [|done].
    rewrite E5. unfold u64. rewrite Z.add_mod_idemp_l by lia. f_equal. lia.
  - subst s'. destruct (Exit s al R) as (? & ? & ?); done.
Qed.
End Eviction.

(** ** Every call refines the abstract one *)

Lemma lru_find_erase k al :
  lru_find k (map erase al) = (fun e => (value e, exp e)) <$> (snd <$> List.find (is_key k) al).
Proof.
  unfold lru_find. induction al as [|[k' e] al IH]; simpl; [done|].
  unfold is_key at 1. simpl. by destruct (str_eqb k' k).
Qed.

Lemma lru_remove_erase k al : lru_remove k (map erase al) = map erase (List.filter (not_key k) al).
Proof.
  unfold lru_remove. induction al as [|[k' e] al IH]; simpl; [done|].
  unfold not_key at 1. simpl. destruct (str_eqb k' k); simpl; [done|]. by rewrite IH.
Qed.

Lemma filter_erase (q : str -> bool) al :
  List.filter (fun p => q (fst p)) (map erase al) = map erase (List.filter (fun p => q (fst p)) al).
Proof. induction al as [|[k' e] al IH]; simpl; [done|]. destruct (q k'); simpl; by rewrite IH. Qed.

Lemma lru_live_expired now e : lru_live now (value e, exp e) = negb (expired now e).
Proof.
  unfold lru_live, expired. simpl. destruct (exp e) as [d|]; [|done].
  destruct (Z.leb_spec now d), (Z.ltb_spec d now); simpl; auto; lia.
Qed.

Lemma length_filter_perm {A} (q : A -> bool) l l' :
  Permutation l l' -> List.length (List.filter q l) = List.length (List.filter q l').
Proof.
  induction 1; simpl; auto.
  - destruct (q x); simpl; auto.
  - destruct (q y), (q x); simpl; auto.
  - congruence.
Qed.

(** What is carried along a run. *)
Record sim (s : MemoryAdapter) (a : Lru) : Prop := {
  sim_view : lru_view s a;
  sim_evictions : 0 <= evictions s < 2 ^ 64
}.

Lemma sim_intro s a al : recency s al -> recent a = map erase al -> lru_hits a = hits s ->
  lru_misses a = misses s -> lru_evictions a = evictions s -> 0 <= evictions s < 2 ^ 64 -> sim s a.
Proof. intros R E Hh Hm He B. split; [|done]. split; [by exists al|done]. Qed.

Section Refinement.
Context `{HashIter}.

Lemma prefix_matches prefix s al : recency s al ->
  let matches := List.filter (starts_with prefix) (map fst (iter (entries s))) in
  List.length matches = List.length (List.filter (fun p => starts_with prefix (fst p)) al) /\
  recency (set_entries (fold_left (fun m k => delete k m) matches (entries s)) s)
    (List.filter (fun p => negb (starts_with prefix (fst p))) al).
Proof.
  intros R matches. pose proof (recency_iter _ _ R) as P. split.
  - unfold matches. rewrite (length_filter_perm _ _ (map fst al)).
    + clear. induction al as [|[k e] al IH]; simpl; [done|]. destruct (starts_with prefix k); simpl; auto.
    + by apply Permutation_map.
  - rewrite (recency_entries _ _ R), delete_all_assoc.
    assert (E : List.filter (fun p => negb (existsb (str_eqb (fst p)) matches)) al =
                List.filter (fun p => negb (starts_with prefix (fst p))) al).
    { apply filter_ext_in. intros [k e] I. simpl. f_equal. apply eq_true_iff_eq.
      rewrite existsb_exists. split.
      - intros (k' & I' & ->%str_eqb_spec). by apply filter_In in I' as [_ I'].
      - intros Sw. exists k. split; [|by apply str_eqb_spec]. apply filter_In. split; [|done].
        apply in_map_iff. exists (k, e). split; [done|]. eapply Permutation_in; [symmetry; exact P|done]. }
    rewrite E. by apply recency_filter.
Qed.

(** A write puts its key in front and cuts the list at the bound. *)
Lemma write_refines k v e seq s a al :
  recency s al -> recent a = map erase al -> lru_hits a = hits s -> lru_misses a = misses s ->
  lru_evictions a = evictions s -> 0 <= evictions s < 2 ^ 64 ->
  Forall (fun p => last_access (snd p) < seq) al -> seq < access_seq s ->
  let s' := set_locked k v e seq s in
  sim s' (lru_write (max_entries s) k v e a) /\
  max_entries s' = max_entries s /\ access_seq s' = access_seq s.
Proof.
  intros R E Hh Hm He B F Q. unfold set_locked, lru_write. cbn zeta.
  set (s1 := set_entries _ s).
  assert (R1 : recency s1 ((k, mkEntry v e seq) :: List.filter (not_key k) al)).
  { destruct R as [N En S _]. apply (recency_put
      (mkMem (entries s) (max_entries s) seq (hits s) (misses s) (evictions s)) al); simpl; [by split|lia|lia|done]. }
  rewrite E, lru_remove_erase.
  change ((k, (v, e)) :: map erase (List.filter (not_key k) al))
    with (map erase ((k, mkEntry v e seq) :: List.filter (not_key k) al)).
  set (al1 := _ :: _) in *. unfold enforce_bound. change (max_entries s1) with (max_entries s).
  destruct (max_entries s) as [n|] eqn:Mx; unfold lru_cut, lru_cut_off; cycle 1.
  { split; [|done]. apply sim_intro with al1; simpl; try done.
    rewrite He, Z.add_0_r. unfold u64. by rewrite Z.mod_small. }
  destruct (enforce_loop_spec (size (entries s1)) n s1 (enforce_loop (size (entries s1)) n s1) al1 R1) as (R2 & E1 & E2 & E3 & E4 & E5 & _);
    [rewrite (recency_size _ _ R1); lia|exact B|reflexivity|].
  split; [|by rewrite E1, E2]. apply sim_intro with (take n al1).
  - exact R2.
  - exact (firstn_map erase n al1).
  - by rewrite E3.
  - by rewrite E4.
  - rewrite E5. cbn [lru_evictions]. by rewrite He, length_map.
  - rewrite E5. apply u64_range.
Qed.

Definition refines (s : MemoryAdapter) (bound : option nat)
    (r : option (Reply * MemoryAdapter)) (r' : option (Reply * Lru)) : Prop :=
  match r, r' with
  | Some (x, s'), Some (x', a') =>
      x = x' /\ sim s' a' /\ max_entries s' = bound /\ access_seq s <= access_seq s' <= access_seq s + 1
  | None, None => True
  | _, _ => False
  end.

Lemma stamped s al : recency s al -> 0 <= access_seq s < 2 ^ 64 - 1 ->
  let s' := snd (next_seq s) in
  recency s' al /\ access_seq s' = access_seq s + 1 /\
  Forall (fun p => last_access (snd p) < access_seq s) al.
Proof.
  intros R B. simpl. assert (Q : u64 (access_seq s + 1) = access_seq s + 1) by (apply Z.mod_small; lia).
  split; [|split; [done|exact (recency_seq _ _ R)]]. eapply recency_same; [..|exact R]; simpl; [done|lia].
Qed.

(** The state a lookup leaves when it finds an expired entry. *)
Lemma sim_drop s a al k h m ev : recency s al -> recent a = map erase al ->
  0 <= ev < 2 ^ 64 ->
  sim (mkMem (delete k (entries s)) (max_entries s) (access_seq s) h m ev)
      (mkLru (lru_remove k (recent a)) h m ev).
Proof.
  intros R E B. apply sim_intro with (List.filter (not_key k) al); simpl; try done.
  - eapply recency_same; [..|exact (recency_delete _ _ k R)]; simpl; [done|lia].
  - by rewrite E, lru_remove_erase.
Qed.

Lemma get_refines s a al k now : recency s al -> recent a = map erase al -> lru_hits a = hits s ->
  lru_misses a = misses s -> lru_evictions a = evictions s -> 0 <= evictions s < 2 ^ 64 ->
  0 <= access_seq s < 2 ^ 64 - 1 ->
  refines s (max_entries s) (mem_call (CGet k now) s) (lru_call (max_entries s) (CGet k now) a).
Proof.
  intros R E Hh Hm He B Q. destruct (stamped s al R Q) as (R1 & Q1 & F).
  simpl in R1, Q1. cbn [mem_call lru_call]. unfold get, next_seq, get_locked. cbn [entries].
  rewrite E, lru_find_erase, (recency_lookup _ _ k R).
  destruct (List.find (is_key k) al) as [[k' e]|] eqn:Fd; simpl.
  - rewrite lru_live_expired. destruct (negb (expired now e)); simpl.
    + split; [done|]. split; [|split; [done|lia]].
      apply sim_intro with ((k, mkEntry (value e) (exp e) (access_seq s)) :: List.filter (not_key k) al); simpl; try congruence; try done.
      * eapply (recency_put s); [exact R|lia|simpl; lia|done].
      * unfold erase at 1. simpl. by rewrite lru_remove_erase.
    + split; [done|]. split; [|split; [done|lia]]. rewrite <- E, Hh, Hm, He.
      unfold add_miss, add_evictions, set_entries. simpl.
      exact (sim_drop (mkMem (entries s) (max_entries s) (u64 (access_seq s + 1)) (hits s) (misses s) (evictions s))
               a al k _ _ _ R1 E (u64_range _)).
  - split; [done|]. split; [|split; [done|lia]].
    apply sim_intro with al; simpl; try congruence. eapply recency_same; [..|exact R1]; simpl; [done|lia].
Qed.

Lemma write_call_refines s s1 a k v e al :
  recency s al -> recent a = map erase al -> lru_hits a = hits s ->
  lru_misses a = misses s -> lru_evictions a = evictions s -> 0 <= evictions s < 2 ^ 64 ->
  0 <= access_seq s1 < 2 ^ 64 - 1 -> entries s = entries s1 -> max_entries s = max_entries s1 ->
  access_seq s = access_seq s1 + 1 -> Forall (fun p => last_access (snd p) < access_seq s1) al ->
  forall r, refines s1 (max_entries s1) (Some (r, set_locked k v e (access_seq s1) s))
    (Some (r, lru_write (max_entries s1) k v e a)).
Proof.
  intros R E Hh Hm He B Q En Mx Sq F r. rewrite <- Mx.
  destruct (write_refines k v e (access_seq s1) s a al) as (S & M & A); try done; [lia|].
  split; [done|]. split; [exact S|]. split; [done|]. rewrite A. lia.
Qed.

Lemma set_if_absent_refines s a al k v ttl now now' : recency s al -> recent a = map erase al ->
  lru_hits a = hits s -> lru_misses a = misses s -> lru_evictions a = evictions s ->
  0 <= evictions s < 2 ^ 64 -> 0 <= access_seq s < 2 ^ 64 - 1 ->
  refines s (max_entries s) (mem_call (CSetIfAbsent k v ttl now now') s)
    (lru_call (max_entries s) (CSetIfAbsent k v ttl now now') a).
Proof.
  intros R E Hh Hm He B Q. destruct (stamped s al R Q) as (R1 & Q1 & F). simpl in R1, Q1.
  cbn [mem_call lru_call]. unfold set_if_absent, next_seq, set_if_absent_locked. cbn [entries].
  rewrite E, lru_find_erase, (recency_lookup _ _ k R).
  destruct (List.find (is_key k) al) as [[k' e]|] eqn:Fd; simpl.
  - rewrite lru_live_expired. destruct (negb (expired now e)); simpl.
    + split; [done|]. split; [|split; [done|lia]]. apply sim_intro with al; simpl; try done.
    + destruct (deadline ttl now') as [x|]; simpl; [|done].
      eapply (write_call_refines (add_evictions 1 (snd (next_seq s))) s); simpl; try done;
        [eapply recency_same; [..|exact R1]; simpl; [done|lia] | congruence | apply u64_range].
  - destruct (deadline ttl now') as [x|]; simpl; [|done].
    eapply (write_call_refines (snd (next_seq s)) s); simpl; done.
Qed.

Lemma call_refines s a c : sim s a -> 0 <= access_seq s < 2 ^ 64 - 1 ->
  refines s (max_entries s) (mem_call c s) (lru_call (max_entries s) c a).
Proof.
  intros [((al & R & E) & Hh & Hm & He) B] Q. destruct c as [k now|k v ttl now|k| |k v ttl now now'|k now|prefix0].
  - by eapply get_refines.
  - cbn [mem_call lru_call]. unfold set. destruct (deadline ttl now) as [x|]; simpl; [|done].
    destruct (stamped s al R Q) as (R1 & Q1 & F).
    eapply (write_call_refines (snd (next_seq s)) s); simpl; done.
  - cbn [mem_call lru_call refines]. unfold delete_key.
    rewrite E, lru_find_erase, (recency_lookup _ _ k R), <- E, Hh, Hm, He.
    destruct (List.find (is_key k) al) as [p|]; simpl; (split; [done|]; split; [|split; [done|lia]]).
    + apply (sim_drop s a al); [done|done|apply u64_range].
    + by apply (sim_drop s a al).
  - cbn [mem_call lru_call refines]. split; [done|]. split; [|simpl; split; [done|lia]].
    apply sim_intro with []; simpl; try done. split; simpl; [constructor|done|constructor|constructor].
  - by eapply set_if_absent_refines.
  - cbn [mem_call lru_call refines]. unfold exists_key.
    rewrite E, lru_find_erase, (recency_lookup _ _ k R), <- E.
    destruct (List.find (is_key k) al) as [[k' e]|]; simpl.
    + rewrite lru_live_expired. destruct (negb (expired now e)); simpl; (split; [done|]; split; [|split; [done|lia]]).
      * by apply sim_intro with al.
      * rewrite Hh, Hm, He. apply (sim_drop s a al); [done|done|apply u64_range].
    + split; [done|]. split; [|split; [done|lia]]. by apply sim_intro with al.
  - cbn [mem_call lru_call refines]. unfold delete_prefix.
    destruct (prefix_matches prefix0 s al R) as [L R']. rewrite L.
    rewrite E, (filter_erase (starts_with prefix0)), length_map.
    split; [done|]. split; [|simpl; split; [done|lia]].
    eapply sim_intro; [eapply recency_same; [..|exact R']; simpl; [done|lia]|..]; simpl;
      [by rewrite (filter_erase (fun k => negb (starts_with prefix0 k)))|done|done|congruence|apply u64_range].
Qed.

Lemma run_refines cs s a : sim s a -> 0 <= access_seq s ->
  access_seq s + Z.of_nat (List.length cs) < 2 ^ 64 ->
  match run mem_call cs s, run (lru_call (max_entries s)) cs a with
  | Some (rs, s'), Some (rs', a') => rs = rs' /\ sim s' a'
  | None, None => True
  | _, _ => False
  end.
Proof.
  revert s a. induction cs as [|c cs IH]; intros s a S P L; simpl; [by split|].
  simpl in L. pose proof (call_refines s a c S ltac:(lia)) as C. unfold refines in C.
  destruct (mem_call c s) as [[r s1]|], (lru_call (max_entries s) c a) as [[r' a1]|]; try done.
  destruct C as (<- & S1 & Mx & Q). simpl. rewrite <- Mx. specialize (IH s1 a1 S1 ltac:(lia) ltac:(lia)).
  rewrite Mx in *. destruct (run mem_call cs s1) as [[rs s2]|], (run _ cs a1) as [[rs' a2]|]; try done.
  destruct IH as [<- S2]. done.
Qed.
End Refinement.

(** C9 The in-process cache is a bounded recency list: from the empty cache, any
    sequence of fewer than 2^64 calls - with any instants, whatever order the
    map iterates in - gives exactly the answers of the abstract cache (a read
    or a write moves its key to the front, a write beyond the bound drops the
    least recently used keys, an expired entry is dropped when it is looked
    at, and takes its place in the bound until then), panics exactly when it
    does, and ends in a state that reads, by decreasing access stamp, as the
    abstract list, with the same hit, miss and eviction counters. *)
Theorem memory_refines_lru `{HashIter} max cs : Z.of_nat (List.length cs) < 2 ^ 64 ->
  match run mem_call cs (with_max_entries max),
        run (lru_call (max_entries (with_max_entries max))) cs lru_new with
  | Some (rs, s), Some (rs', a) => rs = rs' /\ lru_view s a
  | None, None => True
  | _, _ => False
  end.
Proof.
  intros L.
  assert (S : sim (with_max_entries max) lru_new).
  { apply sim_intro with []; simpl; try done; try lia. split; simpl; constructor. }
  pose proof (run_refines cs _ _ S ltac:(simpl; lia) ltac:(simpl; lia)) as R.
  destruct (run mem_call cs _) as [[rs s]|], (run _ cs lru_new) as [[rs' a]|]; try done.
  destruct R as [<- S']. split; [done|apply S'].
Qed.

(** ** Concurrent callers

    A caller first takes its stamp, later its critical section runs with it;
    in between others may take stamps and run. A configuration is the
    adapter and the stamps taken by callers that wait for the lock; a waiting
    caller may also be dropped. *)

Section Concurrency.
Context `{HashIter}.

Inductive step : MemoryAdapter * gset Z -> MemoryAdapter * gset Z -> Prop :=
| step_stamp s P : access_seq s < 2 ^ 64 - 1 ->
    step (s, P) (snd (next_seq s), {[access_seq s]} ∪ P)
| step_cancel s P seq : seq ∈ P -> step (s, P) (s, P ∖ {[seq]})
| step_get s P k seq now : seq ∈ P ->
    step (s, P) (snd (get_locked (J := unit) k seq now s), P ∖ {[seq]})
| step_set s P k v exp seq : seq ∈ P -> step (s, P) (set_locked k v exp seq s, P ∖ {[seq]})
| step_set_if_absent s P k v ttl seq now now' b s' : seq ∈ P ->
    set_if_absent_locked k v ttl seq now now' s = Some (b, s') -> step (s, P) (s', P ∖ {[seq]})
| step_delete s P k : step (s, P) (delete_key k s, P)
| step_clear s P : step (s, P) (clear_all s, P)
| step_exists s P k now : step (s, P) (snd (exists_key k now s), P)
| step_delete_prefix s P prefix : step (s, P) (snd (delete_prefix prefix s), P).

Inductive reachable (max : nat) : MemoryAdapter * gset Z -> Prop :=
| reachable_new : reachable max (with_max_entries max, ∅)
| reachable_step c c' : reachable max c -> step c c' -> reachable max c'.
End Concurrency.

(** The map's stamps are pairwise distinct, below the counter and taken by no
    waiting caller; and the bound holds. *)
Record consistent (m : gmap str MemEntry) (seq : Z) (P : gset Z) : Prop := {
  stamps_distinct : forall k k' e e', m !! k = Some e -> m !! k' = Some e' ->
    last_access e = last_access e' -> k = k';
  stamps_used : forall k e, m !! k = Some e -> last_access e < seq /\ last_access e ∉ P;
  stamps_pending : forall q, q ∈ P -> q < seq
}.

Definition within_bound (s : MemoryAdapter) : Prop :=
  match max_entries s with Some n => (size (entries s) <= n)%nat | None => True end.

Record cache_invariant (max : nat) (c : MemoryAdapter * gset Z) : Prop := {
  inv_max : max_entries (fst c) = max_entries (with_max_entries max);
  inv_consistent : consistent (entries (fst c)) (access_seq (fst c)) (snd c);
  inv_seq : 0 <= access_seq (fst c) < 2 ^ 64;
  inv_bound : within_bound (fst c)
}.

Lemma consistent_sub m m' seq P P' : m' ⊆ m -> P' ⊆ P -> consistent m seq P -> consistent m' seq P'.
Proof.
  intros Sub SubP [D U Q]. split.
  - intros k k' e e' E E'. apply (D k k' e e'); by eapply lookup_weaken.
  - intros k e E. destruct (U k e) as [L N]; [by eapply lookup_weaken|]. split; [done|set_solver].
  - intros q I. apply Q. set_solver.
Qed.

Lemma consistent_put m seq P k v e q : q ∈ P -> consistent m seq P ->
  consistent (<[k := mkEntry v e q]> m) seq (P ∖ {[q]}).
Proof.
  intros I [D U Q]. split.
  - intros k1 k2 e1 e2 E1 E2.
    destruct (decide (k = k1)) as [<-|N1], (decide (k = k2)) as [<-|N2]; simplify_map_eq; try done.
    + intros ->. destruct (U k2 e2 E2) as [_ N]. done.
    + intros X. destruct (U k1 e1 E1) as [_ N]. by rewrite X in N.
    + by apply D.
  - intros k1 e1 E1. destruct (decide (k = k1)) as [<-|N1].
    + simplify_map_eq. split; [by apply Q|set_solver].
    + simplify_map_eq. destruct (U k1 e1 E1). split; [done|set_solver].
  - intros q' I'. apply Q. set_solver.
Qed.

Section Preservation.
Context `{HashIter}.

Lemma evict_one_some max s : (max < size (entries s))%nat ->
  exists k e, entries s !! k = Some e /\
    evict_one max s = Some (add_evictions 1 (set_entries (delete k (entries s)) s)).
Proof.
  intros L. unfold evict_one. destruct (Nat.ltb_spec max (size (entries s))); [|lia].
  destruct (min_by_key_some (fun p => last_access (snd p)) (iter (entries s))) as [[k e] M].
  { intros E. pose proof (iter_all (entries s)) as P. rewrite E in P. apply Permutation_nil in P.
    rewrite <- length_map_to_list, P in L. simpl in L. lia. }
  rewrite M. simpl. exists k, e. split; [|done].
  apply elem_of_map_to_list. rewrite <- iter_all. apply list_elem_of_In. by apply min_by_key_spec in M as [I _].
Qed.

Lemma evict_one_none max s : (size (entries s) <= max)%nat -> evict_one max s = None.
Proof. intros L. unfold evict_one. by destruct (Nat.ltb_spec max (size (entries s))); [lia|]. Qed.

Lemma size_delete_some (m : gmap str MemEntry) k e : m !! k = Some e -> size m = S (size (delete k m)).
Proof. intros E. rewrite map_size_delete, E. assert (size m <> 0)%nat; [|lia]. intros Z. apply map_size_empty_inv in Z. by rewrite Z, lookup_empty in E. Qed.

(** The loop ends by its own test, whatever the state: each pass removes one
    entry, so [size] passes are enough. *)
Lemma enforce_loop_ends fuel max s : (size (entries s) <= fuel + max)%nat ->
  let s' := enforce_loop fuel max s in
  evict_one max s' = None /\ (size (entries s') <= max)%nat /\ entries s' ⊆ entries s /\
  max_entries s' = max_entries s /\ access_seq s' = access_seq s.
Proof.
  revert s. induction fuel as [|fuel IH]; intros s L; cbn zeta; cbn [enforce_loop].
  { rewrite evict_one_none by lia. auto. }
  destruct (Nat.le_gt_cases (size (entries s)) max) as [Le|Gt].
  { rewrite (evict_one_none max s Le). rewrite evict_one_none by lia. auto. }
  destruct (evict_one_some max s Gt) as (k & e & E & Ev). rewrite Ev.
  destruct (IH (add_evictions 1 (set_entries (delete k (entries s)) s))) as (X & B & Sub & M & A).
  { simpl. rewrite (size_delete_some _ _ _ E) in L. lia. }
  repeat split; try done. etrans; [exact Sub|]. apply delete_subseteq.
Qed.

Lemma enforce_bound_ends s :
  let s' := enforce_bound s in
  within_bound s' /\ entries s' ⊆ entries s /\ max_entries s' = max_entries s /\ access_seq s' = access_seq s.
Proof.
  unfold enforce_bound, within_bound. destruct (max_entries s) as [n|] eqn:M; cbn zeta; [|by rewrite M].
  destruct (enforce_loop_ends (size (entries s)) n s) as (_ & B & Sub & M' & A); [lia|].
  rewrite M', M. done.
Qed.

(** Entries only go away, and no stamp is used. *)
Lemma inv_shrink max s s' P P' : cache_invariant max (s, P) -> entries s' ⊆ entries s -> P' ⊆ P ->
  max_entries s' = max_entries s -> access_seq s' = access_seq s -> cache_invariant max (s', P').
Proof.
  intros [M C Q B] Sub SubP M' A'. simpl in *. split; simpl.
  - congruence.
  - rewrite A'. by eapply consistent_sub.
  - by rewrite A'.
  - unfold within_bound in *. rewrite M'. destruct (max_entries s) as [n|]; [|done].
    pose proof (map_subseteq_size _ _ Sub). lia.
Qed.

Lemma inv_write max s P k v e q : cache_invariant max (s, P) -> q ∈ P ->
  cache_invariant max (set_locked k v e q s, P ∖ {[q]}).
Proof.
  intros [M C Q B] I. simpl in *. unfold set_locked.
  destruct (enforce_bound_ends (set_entries (<[k := mkEntry v e q]> (entries s)) s)) as (B' & Sub & M' & A').
  split; simpl; [by rewrite M'| |by rewrite A'|done].
  rewrite A'. eapply consistent_sub; [exact Sub|reflexivity|]. simpl. by apply consistent_put.
Qed.

Lemma fold_delete_sub (ks : list str) (m : gmap str MemEntry) : fold_left (fun m k => delete k m) ks m ⊆ m.
Proof. revert m. induction ks as [|k ks IH]; intros m; simpl; [done|]. etrans; [apply IH|apply delete_subseteq]. Qed.

Lemma step_preserves max c c' : cache_invariant max c -> step c c' -> cache_invariant max c'.
Proof.
  intros I St. destruct St.
  - destruct I as [M [D U Q] S B]. simpl in *.
    assert (A : u64 (access_seq s + 1) = access_seq s + 1) by (apply Z.mod_small; lia).
    split; simpl; [done| |lia|done]. rewrite A. split; [done| |].
    + intros k e E. destruct (U k e E) as [L N]. split; [lia|]. intros [X%elem_of_singleton|X]%elem_of_union; [lia|done].
    + intros q [X%elem_of_singleton|X]%elem_of_union; [lia|]. specialize (Q q X). lia.
  - eapply inv_shrink; [exact I|done|set_solver|done|done].
  - unfold get_locked. destruct (entries s !! k) as [e|] eqn:E; simpl.
    + destruct (negb (expired now e)); simpl; [|eapply inv_shrink; [exact I|apply delete_subseteq|set_solver|done|done]].
      destruct I as [M C S B]. simpl in *. split; simpl; [done|by apply consistent_put|done|].
      unfold within_bound in *. simpl. destruct (max_entries s) as [n|]; [|done].
      by rewrite map_size_insert_Some by (by exists e).
    + eapply inv_shrink; [exact I|done|set_solver|done|done].
  - by apply inv_write.
  - unfold set_if_absent_locked in *. destruct (entries s !! k) as [e|] eqn:E.
    + destruct (negb (expired now e)); [simplify_eq; eapply inv_shrink; [exact I|done|set_solver|done|done]|].
      destruct (deadline ttl now') as [x|]; simplify_eq/=. apply inv_write; [|done].
      by eapply inv_shrink.
    + destruct (deadline ttl now') as [x|]; simplify_eq/=. by apply inv_write.
  - unfold delete_key. destruct (entries s !! k); (eapply inv_shrink; [exact I|apply delete_subseteq|done|done|done]).
  - eapply inv_shrink; [exact I|apply map_empty_subseteq|done|done|done].
  - unfold exists_key. destruct (entries s !! k) as [e|]; simpl; [|done].
    destruct (negb (expired now e)); simpl; [done|]. eapply inv_shrink; [exact I|apply delete_subseteq|done|done|done].
  - eapply inv_shrink; [exact I|apply fold_delete_sub|done|done|done].
Qed.
End Preservation.

(** With distinct stamps the victim does not depend on the iteration order. *)
Lemma victim_unique (i j : HashIter) s seq P : consistent (entries s) seq P ->
  fst <$> min_by_key (fun p => last_access (snd p)) (iter (HashIter := i) (entries s)) =
  fst <$> min_by_key (fun p => last_access (snd p)) (iter (HashIter := j) (entries s)).
Proof.
  intros C. pose proof (iter_all (HashIter := i) (entries s)) as Pi. pose proof (iter_all (HashIter := j) (entries s)) as Pj.
  assert (Pij : iter (HashIter := i) (entries s) ≡ₚ iter (HashIter := j) (entries s)) by by rewrite Pi, Pj.
  destruct (min_by_key _ (iter (HashIter := i) _)) as [[k e]|] eqn:Mi; cycle 1.
  { destruct (iter (HashIter := i) (entries s)) eqn:N; [|by destruct (min_by_key_some (fun p => last_access (snd p)) (p :: l)) as [? ?]; [done|congruence]].
    apply Permutation_nil in Pij. by rewrite Pij. }
  destruct (min_by_key _ (iter (HashIter := j) _)) as [[k' e']|] eqn:Mj; cycle 1.
  { destruct (iter (HashIter := j) (entries s)) eqn:N; [|by destruct (min_by_key_some (fun p => last_access (snd p)) (p :: l)) as [? ?]; [done|congruence]].
    symmetry in Pij. apply Permutation_nil in Pij. by rewrite Pij in Mi. }
  apply min_by_key_spec in Mi as [Ii Bi], Mj as [Ij Bj]. simpl. f_equal.
  assert (L1 := Bi (k', e') ltac:(by rewrite Pij)). assert (L2 := Bj (k, e) ltac:(by rewrite <- Pij)). simpl in *.
  apply (stamps_distinct _ _ _ C k k' e e'); [| |lia];
    apply elem_of_map_to_list; [rewrite <- Pi|rewrite <- Pj]; by apply list_elem_of_In.
Qed.

(** However callers interleave - taking stamps, waiting, being dropped, running
    their critical sections in any order and with any clock readings - the
    cache never exceeds its bound, no two entries carry the same access stamp,
    none carries the stamp of a waiting caller, and so the entry the eviction
    picks is determined by the state, whatever order the map iterates in. *)
Theorem reachable_cache (i j : HashIter) max s P : reachable (H := i) max (s, P) ->
  within_bound s /\ max_entries s = max_entries (with_max_entries max) /\
  (forall k k' e e', entries s !! k = Some e -> entries s !! k' = Some e' ->
     last_access e = last_access e' -> k = k') /\
  (forall k e, entries s !! k = Some e -> last_access e ∉ P) /\
  forall n, evict_one (H := i) n s = evict_one (H := j) n s.
Proof.
  intros R. assert (I : cache_invariant max (s, P)).
  { remember (s, P) as c. clear Heqc s P j. induction R as [|c c' R IH St]; [|by eapply step_preserves].
    split; simpl; [done| |lia|].
    - split; simpl; intros; by rewrite ?lookup_empty in *.
    - unfold within_bound. simpl. destruct (0 <? max)%nat; [|done]. simpl. rewrite map_size_empty. lia. }
  destruct I as [M C Q B]. simpl in *. split; [done|]. split; [done|].
  split; [apply C|]. split; [intros k e E; by apply (stamps_used _ _ _ C k e E)|].
  intros n. unfold evict_one. by rewrite (victim_unique i j s _ _ C).
Qed.
End Memory.

(** * The fallback adapter *)

Section Fallback.
Context {W1 W2 J : Type}.

(** Every error but [NotFound] counts as a transport failure. *)
Definition is_transport (err : CacheError J) : bool := negb (is_not_found err).

Record FallbackAdapter : Type := mkFallbackAdapter {
  primary : Adapter W1 J;
  secondary : Adapter W2 J
}.

Variable self : FallbackAdapter.

Definition fallback_get (key : str) : M (W1 * W2) (Result bytes (CacheError J)) :=
  let! r := on_fst (get (primary self) key) in
  match r with
  | Ok v => ret (Ok v)
  | Err err =>
      if negb (is_not_found err) && negb (is_transport err) then ret (Err err)
      else on_snd (get (secondary self) key)
  end.

(** The shape of [set], [delete] and [clear]. *)
Definition on_both (c1 : M W1 (Result unit (CacheError J))) (c2 : M W2 (Result unit (CacheError J)))
  : M (W1 * W2) (Result unit (CacheError J)) :=
  let! r := on_fst c1 in
  match r with
  | Err err => if negb (is_transport err) then ret (Err err) else on_snd c2
  | Ok _ => on_snd c2
  end.

Definition fallback_set (key : str) (value : bytes) (ttl : option Z) :=
  on_both (set (primary self) key value ttl) (set (secondary self) key value ttl).
Definition fallback_delete (key : str) :=
  on_both (delete_key (primary self) key) (delete_key (secondary self) key).
Definition fallback_clear := on_both (clear_all (primary self)) (clear_all (secondary self)).

Definition fallback_name : str :=
  lit "fallback(" ++ name (primary self) ++ lit "+" ++ name (secondary self) ++ lit ")".

Definition fallback_health_check : M (W1 * W2) (Result unit (CacheError J)) :=
  let! r := on_fst (health_check (primary self)) in
  if is_ok r then ret (Ok tt) else on_snd (health_check (secondary self)).

Definition fallback_set_if_absent (key : str) (value : bytes) (ttl : option Z)
  : M (W1 * W2) (Result bool (CacheError J)) :=
  let! r := on_fst (set_if_absent (primary self) key value ttl) in
  let rest stored :=
    let? stored' := on_snd (set_if_absent (secondary self) key value ttl) in
    ret (Ok (stored || stored')) in
  match r with
  | Ok stored => rest stored
  | Err err => if is_transport err then rest false else ret (Err err)
  end.

Definition fallback_exists (key : str) : M (W1 * W2) (Result bool (CacheError J)) :=
  let! r := on_fst (exists_key (primary self) key) in
  match r with
  | Ok true => ret (Ok true)
  | Ok false => on_snd (exists_key (secondary self) key)
  | Err err => if is_transport err then on_snd (exists_key (secondary self) key) else ret (Err err)
  end.

Definition fallback_delete_prefix (prefix : str) : M (W1 * W2) (Result Z (CacheError J)) :=
  let! r := on_fst (delete_prefix (primary self) prefix) in
  let rest n :=
    let? n' := on_snd (delete_prefix (secondary self) prefix) in ret (Ok (u64 (n + n'))) in
  match r with
  | Ok n => rest n
  | Err err => if is_transport err then rest 0 else ret (Err err)
  end.

Definition fallback_stats : M (W1 * W2) (option CacheStats) :=
  let! r := on_fst (stats (primary self)) in
  match r with Some s => ret (Some s) | None => on_snd (stats (secondary self)) end.

Definition Fallback_Adapter : Adapter (W1 * W2) J :=
  mkAdapter _ J fallback_get fallback_set fallback_delete fallback_clear fallback_name
    fallback_health_check fallback_set_if_absent fallback_exists fallback_delete_prefix fallback_stats.
End Fallback.
Arguments FallbackAdapter : clear implicits.

(** * The typed facade *)

Section Typed.
Context {W J T : Type}.
Variable adapter : Adapter W J.
(** [serde_json::to_vec] and [from_slice] at [T]. *)
Variable to_vec : T -> Result bytes J.
Variable from_slice : bytes -> Result T J.

Definition typed_get (key : str) : M W (Result T (CacheError J)) :=
  let? raw := get adapter key in ret (map_err Codec (from_slice raw)).

Definition typed_set (key : str) (v : T) (ttl : option Z) : M W (Result unit (CacheError J)) :=
  match map_err Codec (to_vec v) with
  | Ok raw => set adapter key raw ttl
  | Err e => ret (Err e)
  end.

Definition typed_put (key : str) (v : T) (ttl : option Z) : M W (Result T (CacheError J)) :=
  let? _ := typed_set key v ttl in ret (Ok v).

Definition typed_delete (key : str) : M W (Result unit (CacheError J)) := delete_key adapter key.
Definition typed_delete_prefix (prefix : str) : M W (Result Z (CacheError J)) :=
  delete_prefix adapter prefix.

Definition typed_get_or_set (key : str) (ttl : option Z) (loader : M W (Result T (CacheError J)))
  : M W (Result T (CacheError J)) :=
  let! r := typed_get key in
  match r with
  | Ok v => ret (Ok v)
  | Err err =>
      if negb (is_not_found err) then ret (Err err)
      else
        let? loaded := loader in
        let! _ := typed_set key loaded ttl in
        ret (Ok loaded)
  end.
End Typed.

(** * What the fallback adapter promises *)

(** A store that answers for its contents when it is up, and fails without
    touching them when it is down. *)
Class KeyValue {W J} (A : Adapter W J) (up down : W -> Prop) (contents : W -> gmap str bytes) : Prop := {
  get_up : forall k w, up w -> exists w',
    get A k w = Some (ok_or (contents w !! k) NotFound, w') /\ contents w' = contents w;
  set_up : forall k v w, up w -> exists w',
    set A k v None w = Some (Ok tt, w') /\ contents w' = <[k := v]> (contents w);
  delete_up : forall k w, up w -> exists w',
    delete_key A k w = Some (Ok tt, w') /\ contents w' = delete k (contents w);
  get_down : forall k w, down w -> exists msg w',
    get A k w = Some (Err (Backend msg), w') /\ contents w' = contents w;
  set_down : forall k v w, down w -> exists msg w',
    set A k v None w = Some (Err (Backend msg), w') /\ contents w' = contents w;
  delete_down : forall k w, down w -> exists msg w',
    delete_key A k w = Some (Err (Backend msg), w') /\ contents w' = contents w
}.

Inductive KvCall : Type :=
| KvGet (k : str)
| KvSet (k : str) (v : bytes)
| KvDelete (k : str).

Inductive KvReply (J : Type) : Type :=
| KvBytes (r : Result bytes (CacheError J))
| KvUnit (r : Result unit (CacheError J)).
Arguments KvBytes {J} r.
Arguments KvUnit {J} r.

Definition kv_call {W J} (A : Adapter W J) (c : KvCall) : M W (KvReply J) :=
  match c with
  | KvGet k => let! r := get A k in ret (KvBytes r)
  | KvSet k v => let! r := set A k v None in ret (KvUnit r)
  | KvDelete k => let! r := delete_key A k in ret (KvUnit r)
  end.

(** The single map the calls are meant to act on. *)
Definition kv_after (c : KvCall) (m : gmap str bytes) : gmap str bytes :=
  match c with
  | KvGet _ => m
  | KvSet k v => <[k := v]> m
  | KvDelete k => delete k m
  end.

Definition kv_reply {J : Type} (c : KvCall) (m : gmap str bytes) : KvReply J :=
  match c with
  | KvGet k => KvBytes (ok_or (m !! k) NotFound)
  | KvSet _ _ | KvDelete _ => KvUnit (Ok tt)
  end.

Fixpoint kv_replies {J : Type} (cs : list KvCall) (m : gmap str bytes) : list (KvReply J) :=
  match cs with
  | [] => []
  | c :: cs' => kv_reply c m :: kv_replies cs' (kv_after c m)
  end.

Section FallbackSpec.
Context {W1 W2 J : Type} (A1 : Adapter W1 J) (A2 : Adapter W2 J).
Context (up1 down1 : W1 -> Prop) (up2 down2 : W2 -> Prop).
Context (contents1 : W1 -> gmap str bytes) (contents2 : W2 -> gmap str bytes).
Context `{!KeyValue A1 up1 down1 contents1} `{!KeyValue A2 up2 down2 contents2}.
Let fb : Adapter (W1 * W2) J := Fallback_Adapter (mkFallbackAdapter A1 A2).

(** What the primary holds, the secondary holds too. *)
Definition coherent (w : W1 * W2) : Prop := contents1 w.1 ⊆ contents2 w.2.

(** The primary does not keep an old value of the key a call writes. *)
Definition written_through (c : KvCall) (w : W1 * W2) : Prop :=
  match c with
  | KvGet _ => True
  | KvSet k v => up1 w.1 \/ contents1 w.1 !! k = None \/ contents1 w.1 !! k = Some v
  | KvDelete k => up1 w.1 \/ contents1 w.1 !! k = None
  end.

Lemma fallback_call c w : coherent w -> up1 w.1 \/ down1 w.1 -> up2 w.2 ->
  exists w', kv_call fb c w = Some (kv_reply c (contents2 w.2), w') /\
    contents2 w'.2 = kv_after c (contents2 w.2) /\
    (written_through c w -> coherent w').
Proof.
  destruct w as [w1 w2]. unfold coherent. simpl. intros Co UD U2.
  destruct c as [k|k v|k]; simpl; unfold fallback_get, fallback_set, fallback_delete, on_both, bind, on_fst, on_snd, ret;
    simpl; unfold is_transport.
  - destruct (get_up k w2 U2) as (w2' & G2 & C2).
    destruct UD as [U|D].
    + destruct (get_up k w1 U) as (w1' & G1 & C1). rewrite G1.
      destruct (contents1 w1 !! k) as [v|] eqn:L; simpl.
      * pose proof (lookup_weaken _ _ _ _ L Co) as L2. rewrite L2. exists (w1', w2). simpl. by rewrite C1.
      * rewrite G2. exists (w1', w2'). simpl. by rewrite C1, C2.
    + destruct (get_down k w1 D) as (msg & w1' & G1 & C1). rewrite G1. simpl. rewrite G2.
      exists (w1', w2'). simpl. by rewrite C1, C2.
  - destruct (set_up k v w2 U2) as (w2' & G2 & C2).
    destruct UD as [U|D].
    + destruct (set_up k v w1 U) as (w1' & G1 & C1). rewrite G1, G2. exists (w1', w2'). simpl.
      split; [done|]. split; [done|]. intros _. rewrite C1, C2. by apply insert_mono.
    + destruct (set_down k v w1 D) as (msg & w1' & G1 & C1). rewrite G1. simpl. rewrite G2.
      exists (w1', w2'). simpl. split; [done|]. split; [done|]. rewrite C1, C2.
      intros T. apply map_subseteq_spec. intros i x L. destruct (decide (k = i)) as [<-|N].
      * rewrite lookup_insert_eq. destruct T as [T|[T|T]]; try congruence.
        destruct (get_up k w1 T) as (? & X & _), (get_down k w1 D) as (? & ? & Y & _).
        rewrite X in Y. by destruct (contents1 w1 !! k).
      * rewrite lookup_insert_ne by done. by eapply lookup_weaken.
  - destruct (delete_up k w2 U2) as (w2' & G2 & C2).
    destruct UD as [U|D].
    + destruct (delete_up k w1 U) as (w1' & G1 & C1). rewrite G1, G2. exists (w1', w2'). simpl.
      split; [done|]. split; [done|]. intros _. rewrite C1, C2. by apply delete_mono.
    + destruct (delete_down k w1 D) as (msg & w1' & G1 & C1). rewrite G1. simpl. rewrite G2.
      exists (w1', w2'). simpl. split; [done|]. split; [done|]. rewrite C1, C2.
      intros T. apply map_subseteq_spec. intros i x L. destruct (decide (k = i)) as [<-|N].
      * destruct T as [T|T]; [|congruence].
        destruct (get_up k w1 T) as (? & X & _), (get_down k w1 D) as (? & ? & Y & _).
        rewrite X in Y. by destruct (contents1 w1 !! k).
      * rewrite lookup_delete_ne by done. by eapply lookup_weaken.
Qed.

(** Runs of calls between which the stores may go down and come back, with
    their contents unchanged; the secondary is up at every call. *)
Inductive fallback_runs : list KvCall -> W1 * W2 -> list (KvReply J) -> W1 * W2 -> Prop :=
| runs_nil w : fallback_runs [] w [] w
| runs_cons c cs w w1 r w2 rs w3 :
    contents1 w1.1 = contents1 w.1 -> contents2 w1.2 = contents2 w.2 ->
    up1 w1.1 \/ down1 w1.1 -> up2 w1.2 -> written_through c w1 ->
    kv_call fb c w1 = Some (r, w2) -> fallback_runs cs w2 rs w3 ->
    fallback_runs (c :: cs) w (r :: rs) w3.

Lemma fallback_runs_spec cs w rs w' : coherent w -> fallback_runs cs w rs w' ->
  rs = kv_replies cs (contents2 w.2) /\ contents2 w'.2 = fold_left (fun m c => kv_after c m) cs (contents2 w.2) /\
  coherent w'.
Proof.
  intros Co R. induction R as [w|c cs w w1 r w2 rs w3 E1 E2 UD U2 T C R IH]; [done|].
  assert (Co1 : coherent w1) by (unfold coherent; by rewrite E1, E2).
  destruct (fallback_call c w1 Co1 UD U2) as (w2' & C' & S & T'). rewrite C in C'. injection C' as -> ->.
  specialize (IH (T' T)) as (-> & Sp & Co'). simpl. rewrite <- E2, <- S. done.
Qed.
End FallbackSpec.

(** The in-process adapter without a bound is such a store; what it holds is
    its live entries. *)
Definition memory_contents (w : Z * Memory.MemoryAdapter) : gmap str bytes :=
  omap (fun e => if Memory.expired w.1 e then None else Some (Memory.value e)) (Memory.entries w.2).

Lemma omap_delete_expired (now : Z) (m : gmap str Memory.MemEntry) k e :
  m !! k = Some e -> Memory.expired now e = true ->
  omap (fun e => if Memory.expired now e then None else Some (Memory.value e)) (delete k m) =
  omap (fun e => if Memory.expired now e then None else Some (Memory.value e)) m.
Proof.
  intros L X. apply map_eq. intros i. rewrite !lookup_omap. destruct (decide (k = i)) as [<-|N].
  - by rewrite lookup_delete_eq, L; simpl; rewrite X.
  - by rewrite lookup_delete_ne.
Qed.

#[export] Instance memory_key_value `{Memory.HashIter} {J} :
  KeyValue (Memory.adapter (J := J)) (fun w => Memory.max_entries w.2 = None) (fun _ => False) memory_contents.
Proof.
  split; try done; unfold memory_contents; intros.
  - destruct w as [now s]. simpl in *. unfold Memory.get, Memory.next_seq, Memory.get_locked. simpl.
    rewrite lookup_omap. destruct (Memory.entries s !! k) as [e|] eqn:L; simpl; [|by eexists].
    destruct (Memory.expired now e) eqn:X; simpl; eexists; (split; [done|]); simpl.
    + by eapply omap_delete_expired.
    + apply map_eq. intros i. rewrite !lookup_omap. destruct (decide (k = i)) as [<-|N]; simplify_map_eq; [|done].
      unfold Memory.expired in *. simpl. by rewrite X.
  - destruct w as [now s]. simpl in *. unfold Memory.set, Memory.next_seq, Memory.set_locked, Memory.enforce_bound. simpl.
    rewrite H0. eexists. split; [done|]. simpl. apply map_eq. intros i. rewrite lookup_omap.
    destruct (decide (k = i)) as [<-|N]; simplify_map_eq; by rewrite ?lookup_omap.
  - destruct w as [now s]. simpl in *. eexists. split; [done|]. simpl. unfold Memory.delete_key.
    apply map_eq. intros i. rewrite lookup_omap.
    assert (E : Memory.entries (match Memory.entries s !! k with
                | Some _ => Memory.add_evictions 1 (Memory.set_entries (delete k (Memory.entries s)) s)
                | None => Memory.set_entries (delete k (Memory.entries s)) s end) = delete k (Memory.entries s))
      by by destruct (Memory.entries s !! k).
    rewrite E. destruct (decide (k = i)) as [<-|N]; simplify_map_eq; by rewrite ?lookup_omap.
Qed.

(** A store that can be unreachable: one admissible backend. *)
Definition flaky {J} : Adapter (bool * gmap str bytes) J :=
  let down {A} : Result A (CacheError J) := Err (Backend (lit "unreachable")) in
  let update (f : gmap str bytes -> gmap str bytes) : M (bool * gmap str bytes) (Result unit (CacheError J)) :=
    fun w => Some (if w.1 then (Ok tt, (w.1, f w.2)) else (down, w)) in
  let get : str -> M (bool * gmap str bytes) (Result bytes (CacheError J)) := fun k w =>
    Some (if w.1 then ok_or (w.2 !! k) NotFound else down, w) in
  let set := fun k v (_ : option Z) => update <[k := v]> in
  let exists_ := default_exists get in
  mkAdapter _ J get set (fun k => update (delete k)) (update (fun _ => ∅))
    (lit "flaky") (update id) (default_set_if_absent exists_ set) exists_
    default_delete_prefix default_stats.

#[export] Instance flaky_key_value {J} :
  KeyValue (flaky (J := J)) (fun w => w.1 = true) (fun w => w.1 = false) snd.
Proof. split; intros; destruct w as [[] m]; simpl in *; try done; eauto. Qed.

(** As long as no write finds the primary down while it still holds another
    value of the key, the two stores behind a fallback adapter are one map:
    whatever the primary's outages, every read returns what the last write of
    its key left (or [NotFound]), every write reports success, and the
    secondary's contents are that map. Every call returns, provided the
    secondary is up. *)
Theorem fallback_is_one_map {W1 W2 J} (A1 : Adapter W1 J) (A2 : Adapter W2 J)
    up1 down1 up2 down2 contents1 contents2
    `{!KeyValue A1 up1 down1 contents1} `{!KeyValue A2 up2 down2 contents2} cs w rs w' :
  coherent contents1 contents2 w ->
  fallback_runs A1 A2 up1 down1 up2 contents1 contents2 cs w rs w' ->
  rs = kv_replies cs (contents2 w.2) /\
  contents2 w'.2 = fold_left (fun m c => kv_after c m) cs (contents2 w.2) /\
  coherent contents1 contents2 w' /\
  forall c, up1 w'.1 \/ down1 w'.1 -> up2 w'.2 ->
    exists r w'', kv_call (Fallback_Adapter (mkFallbackAdapter A1 A2)) c w' = Some (r, w'').
Proof.
  intros Co R. edestruct @fallback_runs_spec as (E & S & Co'); [..|exact R|]; try done.
  split; [done|]. split; [done|]. split; [done|]. intros c UD U2.
  edestruct @fallback_call as (w'' & C & _); [..|exact Co'|exact UD|exact U2|]; eauto.
Qed.

(** An outage of the primary is survived: a write, then the primary goes down
    and the secondary answers. *)
Lemma fallback_is_one_map_witness :
  let k := lit "user" in let v := [Byte.x41] in
  let A := flaky (J := unit) in
  let fb := Fallback_Adapter (mkFallbackAdapter A A) in
  exists w1 w2,
    kv_call fb (KvSet k v) ((true, ∅), (true, ∅)) = Some (KvUnit (Ok tt), w1) /\
    kv_call fb (KvGet k) ((false, w1.1.2), w1.2) = Some (KvBytes (Ok v), w2) /\
    coherent (W1 := bool * gmap str bytes) (W2 := bool * gmap str bytes) snd snd w2.
Proof.
  intros k v A fb. do 2 eexists. split; [reflexivity|]. split; [reflexivity|].
  eapply (fallback_is_one_map A A _ _ _ _ snd snd [KvSet k v; KvGet k] ((true, ∅), (true, ∅))
            [KvUnit (Ok tt); KvBytes (Ok v)]); [done|].
  eapply runs_cons; [reflexivity|reflexivity|by left|done|by left|reflexivity|].
  eapply (runs_cons _ _ _ _ _ _ _ _ _ _ ((false, _), (true, _))); [reflexivity|reflexivity|by right|done|done|reflexivity|].
  apply runs_nil.
Defined.

(** What the hypothesis excludes: a delete that finds the primary down reports
    success, and the key is back when the primary is. *)
Example fallback_delete_comes_back :
  let k := lit "session" in let v := [Byte.x41] in
  let fb := Fallback_Adapter (mkFallbackAdapter (flaky (J := unit)) flaky) in
  exists w,
    kv_call fb (KvDelete k) ((false, {[k := v]}), (true, {[k := v]})) = Some (KvUnit (Ok tt), w) /\
    kv_call fb (KvGet k) ((true, w.1.2), w.2) = Some (KvBytes (Ok v), ((true, w.1.2), w.2)).
Proof. eexists. split; vm_compute; reflexivity. Qed.

(** [get_or_set]: a hit is returned without running the loader; a read error
    other than a miss, and a loader error, are returned and nothing is
    written; on a miss the loaded value is written and returned even when the
    write fails. *)
Lemma typed_get_or_set_cases {W J T} (A : Adapter W J) to_vec (from_slice : bytes -> Result T J) key ttl loader w r w1 :
  typed_get A from_slice key w = Some (r, w1) ->
  typed_get_or_set A to_vec from_slice key ttl loader w =
    match r with
    | Err NotFound =>
        match loader w1 with
        | Some (Ok v, w2) =>
            match typed_set A to_vec key v ttl w2 with Some (_, w3) => Some (Ok v, w3) | None => None end
        | Some (Err e, w2) => Some (Err e, w2)
        | None => None
        end
    | _ => Some (r, w1)
    end.
Proof.
  intros G. unfold typed_get_or_set, bind, try_, ret. rewrite G. destruct r as [v|e]; [done|].
  destruct e; simpl; try done. unfold bind, ret. by destruct (loader w1) as [[[v|e] w2]|].
Qed.

(** * Examples *)

#[export, refine] Instance in_key_order : Memory.HashIter := { Memory.iter := map_to_list }.
Proof. done. Defined.

(** A bound of two: reading [a] makes [b] the victim. *)
Definition lru_calls : list Memory.Call :=
  let a := lit "a" in let b := lit "b" in let c := lit "c" in
  [Memory.CSet a [Byte.x01] None 0; Memory.CSet b [Byte.x02] (Some 10) 0; Memory.CGet a 1;
   Memory.CSet c [Byte.x03] None 2; Memory.CGet b 3; Memory.CGet a 3; Memory.CExists c 4].

Lemma memory_refines_lru_witness :
  match Memory.run Memory.mem_call lru_calls (Memory.with_max_entries 2) with
  | Some (rs, s) =>
      rs = [Memory.RUnit; Memory.RUnit; Memory.RBytes (Some [Byte.x01]); Memory.RUnit;
            Memory.RBytes None; Memory.RBytes (Some [Byte.x01]); Memory.RBool true] /\
      exists a, Memory.lru_view s a
  | None => False
  end.
Proof.
  pose proof (Memory.memory_refines_lru 2 lru_calls ltac:(vm_compute; reflexivity)) as R.
  destruct (Memory.run Memory.mem_call lru_calls (Memory.with_max_entries 2)) as [[rs s]|] eqn:E.
  - destruct (Memory.run (Memory.lru_call (Memory.max_entries (Memory.with_max_entries 2))) lru_calls Memory.lru_new) as [[rs' a]|] eqn:E'; [|done].
    destruct R as [-> V]. split; [|by exists a]. vm_compute in E'. by injection E' as <- _.
  - destruct (Memory.run (Memory.lru_call _) lru_calls Memory.lru_new) as [[rs' a]|] eqn:E'; [done|vm_compute in E'; discriminate].
Defined.

(** Two callers take stamps 0 and 1; the later one writes first. *)
Lemma reachable_cache_witness :
  let s := Memory.set_locked (lit "a") [Byte.x01] None 0 (Memory.set_locked (lit "b") [Byte.x02] None 1
             (snd (Memory.next_seq (snd (Memory.next_seq (Memory.with_max_entries 1)))))) in
  Memory.within_bound s /\ (fst <$> map_to_list (Memory.entries s)) = [lit "b"].
Proof.
  intros s. split; [|vm_compute; reflexivity].
  assert (R : Memory.reachable 1 (s, ((({[1]} ∪ ({[0]} ∪ ∅)) ∖ {[1]}) ∖ {[0]} : gset Z))).
  { apply Memory.reachable_step with (Memory.set_locked (lit "b") [Byte.x02] None 1
             (snd (Memory.next_seq (snd (Memory.next_seq (Memory.with_max_entries 1))))), ({[1]} ∪ ({[0]} ∪ ∅)) ∖ {[1]});
      [|apply Memory.step_set; set_solver].
    apply Memory.reachable_step with (snd (Memory.next_seq (snd (Memory.next_seq (Memory.with_max_entries 1)))), {[1]} ∪ ({[0]} ∪ ∅));
      [|apply Memory.step_set; set_solver].
    apply Memory.reachable_step with (snd (Memory.next_seq (Memory.with_max_entries 1)), {[0]} ∪ ∅);
      [|by apply (Memory.step_stamp (snd (Memory.next_seq (Memory.with_max_entries 1))))].
    apply Memory.reachable_step with (Memory.with_max_entries 1, ∅); [apply Memory.reachable_new|].
    by apply (Memory.step_stamp (Memory.with_max_entries 1)). }
  by destruct (Memory.reachable_cache in_key_order in_key_order 1 s _ R) as [B _].
Defined.
