(* ===== verification/EventStore.v ===== *)
(** The event store of [crates/eventsourcing/src/]: [aggregate.rs],
    [snapshot.rs], [upcaster.rs], [projection.rs] and [error.rs].

    The port [EventStore] is a record of operations over a world; the
    in-process store is the module [MemoryStore], one function of
    [MemoryState] per operation (each runs under the lock). Projections act on
    a read model of their own; the runner's world is the pair of both. A
    clock reading is an argument. [V] stands for [serde_json::Value]. *)
From Stdlib Require Import Ascii String.
From Stdlib Require Import ZArith NArith List Lia FinFun.
From stdpp Require Import base decidable list gmap.
From S2P Require Import Prelude Str.

Inductive EventSourcingError : Type :=
| Concurrency
| AggregateNotFound
| ProjectionFailed (msg : str).

Record DomainEvent (V : Type) : Type := mkEvent {
  aggregate_id : str;
  aggregate_type : str;
  version : Z;
  event_type : str;
  time : Z;
  payload : bytes;
  metadata : list (str * V);
  tenant_id : option str
}.
Arguments mkEvent {V}. Arguments aggregate_id {V} d. Arguments aggregate_type {V} d.
Arguments version {V} d. Arguments event_type {V} d. Arguments time {V} d.
Arguments payload {V} d. Arguments metadata {V} d. Arguments tenant_id {V} d.

(** * Aggregates *)

Record AggregateRoot (V : Type) : Type := mkRoot {
  root_id : str;
  root_type : str;
  root_version : Z;
  root_tenant : option str;
  uncommitted : list (DomainEvent V)
}.
Arguments mkRoot {V}. Arguments root_id {V} a. Arguments root_type {V} a.
Arguments root_version {V} a. Arguments root_tenant {V} a. Arguments uncommitted {V} a.

Section Aggregates.
Context {V : Type}.
Implicit Types (r : AggregateRoot V) (e : DomainEvent V).

Definition root_default : AggregateRoot V := mkRoot [] [] 0 None [].

Definition root_new (id aggregate_type : str) : AggregateRoot V :=
  mkRoot id aggregate_type 0 None [].

Definition with_tenant (tenant : str) r : AggregateRoot V :=
  mkRoot (root_id r) (root_type r) (root_version r) (Some tenant) (uncommitted r).

Definition raise (event_type : str) (payload : bytes) (now : Z) r : AggregateRoot V :=
  let v := i64 (root_version r + 1) in
  mkRoot (root_id r) (root_type r) v (root_tenant r)
    (uncommitted r ++
     [mkEvent (root_id r) (root_type r) v event_type now payload [] (root_tenant r)]).

Definition take_uncommitted r : list (DomainEvent V) * AggregateRoot V :=
  (uncommitted r, mkRoot (root_id r) (root_type r) (root_version r) (root_tenant r) []).

Definition clear r : AggregateRoot V := snd (take_uncommitted r).

(** * Upcasters *)

Record EventUpcaster : Type := mkUpcaster {
  applies_to : DomainEvent V -> bool;
  upcast : DomainEvent V -> DomainEvent V
}.

Definition NoOpUpcaster : EventUpcaster := mkUpcaster (fun _ => false) (fun e => e).

Definition apply_upcasters (upcasters : list EventUpcaster) e : DomainEvent V :=
  fold_left (fun e u => if applies_to u e then upcast u e else e) upcasters e.
End Aggregates.
Arguments EventUpcaster : clear implicits.

(** * The port *)

Record StreamedEvent (V : Type) : Type := mkStreamed {
  event_id : str;
  event : DomainEvent V
}.
Arguments mkStreamed {V}. Arguments event_id {V} s. Arguments event {V} s.

Record EventStore (W V : Type) : Type := mkStore {
  append : str -> Z -> list (DomainEvent V) -> M W (Result unit EventSourcingError);
  load : str -> M W (Result (list (DomainEvent V)) EventSourcingError);
  load_after : str -> Z -> M W (Result (list (DomainEvent V)) EventSourcingError);
  stream_all : option str -> Z -> option str -> M W (Result (list (StreamedEvent V)) EventSourcingError)
}.
Arguments mkStore {W V}. Arguments append {W V} e. Arguments load {W V} e.
Arguments load_after {W V} e. Arguments stream_all {W V} e.

Definition default_stream_all {W V} (_ : option str) (_ : Z) (_ : option str)
  : M W (Result (list (StreamedEvent V)) EventSourcingError) := ret (Ok []).

(** * The in-process store *)

Module MemoryStore.
Section Store.
Context {V : Type}.

Record MemoryState : Type := mkState {
  streams : gmap str (list (DomainEvent V));
  all : list (str * DomainEvent V);
  next_seq : Z
}.

Definition new : MemoryState := mkState ∅ [] 0.

(** [format!("{:020}", n)]. *)
Definition zero_padded (n : Z) : str :=
  let d := show n in repeat (digit_char 0) (20 - List.length d) ++ d.

Definition push_event (aggregate_id : str) (s : MemoryState) (e : DomainEvent V) : MemoryState :=
  mkState (<[aggregate_id := default [] (streams s !! aggregate_id) ++ [e]]> (streams s))
          (all s ++ [(zero_padded (next_seq s), e)])
          (u64 (next_seq s + 1)).

Definition head_version (aggregate_id : str) (s : MemoryState) : Z :=
  match streams s !! aggregate_id with Some l => Z.of_nat (List.length l) | None => 0 end.

Definition append (aggregate_id : str) (expected_version : Z) (events : list (DomainEvent V))
    (s : MemoryState) : Result unit EventSourcingError * MemoryState :=
  match events with
  | [] => (Ok tt, s)
  | _ =>
      if negb (expected_version =? head_version aggregate_id s) then (Err Concurrency, s)
      else (Ok tt, fold_left (push_event aggregate_id) events s)
  end.

Variable upcasters : list (EventUpcaster V).

Definition load (aggregate_id : str) (s : MemoryState)
  : Result (list (DomainEvent V)) EventSourcingError :=
  match streams s !! aggregate_id with
  | Some (e :: l) => Ok (map (apply_upcasters upcasters) (e :: l))
  | _ => Err AggregateNotFound
  end.

Definition load_after (aggregate_id : str) (since_version : Z) (s : MemoryState)
  : list (DomainEvent V) :=
  match streams s !! aggregate_id with
  | Some l => map (apply_upcasters upcasters) (List.filter (fun e => since_version <? version e) l)
  | None => []
  end.

(** [iter().position(..)]. *)
Fixpoint position {A} (p : A -> bool) (l : list A) : option nat :=
  match l with
  | [] => None
  | x :: l' => if p x then Some O else S <$> position p l'
  end.

Definition wanted (tenant : option str) (e : DomainEvent V) : bool :=
  match tenant with
  | Some t => bool_decide (tenant_id e = Some t)
  | None => true
  end.

(** The loop over the log, [taken] events being in the page already. *)
Fixpoint page (limit : Z) (tenant : option str) (taken : Z) (l : list (str * DomainEvent V))
  : list (StreamedEvent V) :=
  match l with
  | [] => []
  | (event_id, event) :: l' =>
      if negb (wanted tenant event) then page limit tenant taken l'
      else
        mkStreamed event_id (apply_upcasters upcasters event)
        :: if limit <=? taken + 1 then [] else page limit tenant (taken + 1) l'
  end.

Definition stream_all (after_event_id : option str) (limit : Z) (tenant : option str)
    (s : MemoryState) : list (StreamedEvent V) :=
  match after_event_id with
  | None => page limit tenant 0 (all s)
  | Some cursor =>
      match position (fun p => str_eqb (fst p) cursor) (all s) with
      | Some idx => page limit tenant 0 (drop (idx + 1) (all s))
      | None => []
      end
  end.

Definition store : EventStore MemoryState V :=
  mkStore (fun id expected events => total (append id expected events))
          (fun id => total (fun s => (load id s, s)))
          (fun id since => total (fun s => (Ok (load_after id since s), s)))
          (fun cursor limit tenant => total (fun s => (Ok (stream_all cursor limit tenant s), s))).
End Store.
Arguments MemoryState : clear implicits.
End MemoryStore.

(** * Snapshots *)

Record Snapshot : Type := mkSnapshot {
  snap_aggregate_id : str;
  snap_aggregate_type : str;
  snap_version : Z;
  snap_payload : bytes
}.

Record SnapshotStore (W : Type) : Type := mkSnapshots {
  latest : str -> M W (Result (option Snapshot) EventSourcingError);
  save_snapshot : Snapshot -> M W (Result unit EventSourcingError)
}.
Arguments mkSnapshots {W}. Arguments latest {W} s. Arguments save_snapshot {W} s.

Definition MemorySnapshotStore : SnapshotStore (gmap str Snapshot) :=
  mkSnapshots (fun id => total (fun m => (Ok (m !! id), m)))
              (fun s => total (fun m => (Ok tt, <[snap_aggregate_id s := s]> m))).

(** * Projections *)

Record Projection (R V : Type) : Type := mkProjection {
  projection_name : str;
  projection_apply : DomainEvent V -> M R (Result unit EventSourcingError)
}.
Arguments mkProjection {R V}. Arguments projection_name {R V} p. Arguments projection_apply {R V} p.

Definition FunctionProjection {R V} (name : str)
    (handler : DomainEvent V -> M R (Result unit EventSourcingError)) : Projection R V :=
  mkProjection name handler.

Section Runner.
Context {S R V : Type}.

(** [ProjectionRunner]: the registered projections, in order. *)
Definition ProjectionRunner : Type := list (Projection R V).
Definition register (p : Projection R V) (r : ProjectionRunner) : ProjectionRunner := r ++ [p].

Fixpoint runner_apply (ps : ProjectionRunner) (e : DomainEvent V)
  : M R (Result unit EventSourcingError) :=
  match ps with
  | [] => ret (Ok tt)
  | p :: ps' => let? _ := projection_apply p e in runner_apply ps' e
  end.

Fixpoint apply_events (ps : ProjectionRunner) (events : list (DomainEvent V))
  : M R (Result unit EventSourcingError) :=
  match events with
  | [] => ret (Ok tt)
  | e :: events' => let? _ := runner_apply ps e in apply_events ps events'
  end.

Variable store : EventStore S V.

Definition replay (ps : ProjectionRunner) (aggregate_id : str)
  : M (S * R) (Result unit EventSourcingError) :=
  let? events := on_fst (load store aggregate_id) in on_snd (apply_events ps events).

(** The loop of [drive_once] over the page it fetched. *)
Fixpoint drive_batch (ps : ProjectionRunner) (batch : list (StreamedEvent V)) (cursor : option str)
  : M R (option str * option EventSourcingError) :=
  match batch with
  | [] => ret (cursor, None)
  | streamed :: batch' =>
      let! r := runner_apply ps (event streamed) in
      match r with
      | Ok _ => drive_batch ps batch' (Some (event_id streamed))
      | Err err => ret (cursor, Some err)
      end
  end.

Definition drive_once (ps : ProjectionRunner) (after_event_id : option str) (batch_size : Z)
    (tenant : option str)
  : M (S * R) (Result (option str * option EventSourcingError) EventSourcingError) :=
  let? batch := on_fst (stream_all store after_event_id batch_size tenant) in
  let! r := on_snd (drive_batch ps batch after_event_id) in
  ret (Ok r).

(** The loop of [replay_all]; [None] is running out of fuel. *)
Fixpoint replay_loop (fuel : nat) (ps : ProjectionRunner) (cursor : option str) (batch_size : Z)
    (tenant : option str) : M (S * R) (option (Result (option str) EventSourcingError)) :=
  match fuel with
  | O => ret None
  | Datatypes.S fuel' =>
      let! r := drive_once ps cursor batch_size tenant in
      match r with
      | Err err => ret (Some (Err err))
      | Ok (_, Some err) => ret (Some (Err err))
      | Ok (next, None) =>
          if bool_decide (next = cursor) then ret (Some (Ok cursor))
          else replay_loop fuel' ps next batch_size tenant
      end
  end.

Definition replay_all (fuel : nat) (ps : ProjectionRunner) (start_after : option str)
    (batch_size : Z) (tenant : option str) :=
  replay_loop fuel ps start_after (Z.max batch_size 1) tenant.
End Runner.

(** * The log's cursors *)

Section Lists.
Context {A : Type}.

Lemma filter_middle (w : A -> bool) l a x b : List.filter w l = a ++ x :: b ->
  exists p q, l = p ++ x :: q /\ List.filter w p = a /\ List.filter w q = b.
Proof.
  revert a. induction l as [|y l IH]; intros a; simpl; [by destruct a|].
  destruct (w y) eqn:Wy.
  - destruct a as [|a0 a]; simpl; intros [= -> E].
    + by exists [], l.
    + destruct (IH a E) as (p & q & -> & <- & <-). exists (a0 :: p), q. simpl. by rewrite Wy.
  - intros E. destruct (IH a E) as (p & q & -> & <- & <-). exists (y :: p), q. simpl. by rewrite Wy.
Qed.

Lemma position_app (p : A -> bool) l x r :
  Forall (fun y => p y = false) l -> p x = true ->
  MemoryStore.position p (l ++ x :: r) = Some (List.length l).
Proof. induction 1 as [|y l Y F IH]; simpl; intros X; [by rewrite X|]. rewrite Y, IH by done. done. Qed.

Lemma drop_app_one (l r : list A) x : drop (List.length l + 1) (l ++ x :: r) = r.
Proof. induction l; simpl; auto. Qed.
End Lists.

Lemma str_eqb_true a b : str_eqb a b = true <-> a = b.
Proof. apply bool_decide_eq_true. Qed.

Lemma position_id {B} (l r : list (str * B)) x :
  NoDup (map fst (l ++ x :: r)) ->
  MemoryStore.position (fun p => str_eqb (fst p) (fst x)) (l ++ x :: r) = Some (List.length l).
Proof.
  intros N. apply position_app; [|by apply str_eqb_true].
  rewrite map_app in N. apply NoDup_app in N as (_ & D & _). apply List.Forall_forall.
  intros y I. apply bool_decide_eq_false. intros E. apply (D (fst y)).
  - apply list_elem_of_In. by apply in_map.
  - rewrite E. simpl. constructor 1.
Qed.

Section Cursors.
Context {V : Type}.
Implicit Types s : MemoryStore.MemoryState V.

(** The events a cursor still has to see. *)
Definition after (cursor : option str) s : list (str * DomainEvent V) :=
  match cursor with
  | None => MemoryStore.all s
  | Some c =>
      match MemoryStore.position (fun p => str_eqb (fst p) c) (MemoryStore.all s) with
      | Some i => drop (i + 1) (MemoryStore.all s)
      | None => []
      end
  end.

Definition pending (cursor : option str) (tenant : option str) s : list (str * DomainEvent V) :=
  List.filter (fun p => MemoryStore.wanted tenant (snd p)) (after cursor s).

Definition streamed (ups : list (EventUpcaster V)) (p : str * DomainEvent V) : StreamedEvent V :=
  mkStreamed (fst p) (apply_upcasters ups (snd p)).

(** Moving the cursor to an event leaves what follows it. *)
Lemma pending_after cursor tenant s a x b : NoDup (map fst (MemoryStore.all s)) ->
  pending cursor tenant s = a ++ x :: b ->
  pending (Some (fst x)) tenant s = b /\ cursor <> Some (fst x).
Proof.
  intros N E. apply filter_middle in E as (p & q & E & _ & Q).
  assert (H : exists l1, MemoryStore.all s = l1 ++ p ++ x :: q /\ forall c, cursor = Some c -> List.In c (map fst l1)).
  { unfold after in E. destruct cursor as [c|]; [|by exists []].
    destruct (MemoryStore.position _ _) as [i|] eqn:Pos; [|by destruct p].
    exists (take (i + 1) (MemoryStore.all s)). rewrite <- E, take_drop. split; [done|].
    intros c' [= ->]. clear - Pos. revert i Pos. generalize (MemoryStore.all s) as l.
    induction l as [|y l IH]; simpl; intros i Pos; [done|].
    destruct (str_eqb (fst y) c') eqn:Y.
    - injection Pos as <-. simpl. left. by apply str_eqb_true.
    - destruct (MemoryStore.position _ l) as [j|]; [|done]. injection Pos as <-. simpl. right. by apply IH. }
  destruct H as (l1 & All & Cur). rewrite app_assoc in All. split.
  - unfold pending, after. rewrite All, position_id, drop_app_one by (by rewrite <- All). done.
  - intros ->. specialize (Cur _ eq_refl). rewrite All, <- app_assoc, !map_app in N.
    apply NoDup_app in N as (_ & D & _). apply (D (fst x)); [by apply list_elem_of_In|].
    apply elem_of_app. right. simpl. constructor 1.
Qed.

(** A page holds the first wanted events: up to the limit, and one even when
    the limit is zero. *)
Lemma page_spec ups limit tenant taken (l : list (str * DomainEvent V)) :
  MemoryStore.page ups limit tenant taken l =
  map (streamed ups) (take (Z.to_nat (Z.max 1 (limit - taken)))
    (List.filter (fun p => MemoryStore.wanted tenant (snd p)) l)).
Proof.
  revert taken. induction l as [|[i e] l IH]; intros taken; simpl; [by rewrite firstn_nil|].
  destruct (MemoryStore.wanted tenant e); simpl; [|apply IH].
  replace (Z.to_nat (Z.max 1 (limit - taken))) with (S (Z.to_nat (Z.max 1 (limit - taken) - 1))) by lia.
  simpl. f_equal. destruct (Z.leb_spec limit (taken + 1)).
  - by replace (Z.to_nat (Z.max 1 (limit - taken) - 1)) with 0%nat by lia.
  - rewrite IH. do 2 f_equal. lia.
Qed.

Lemma stream_all_spec ups cursor limit tenant s :
  MemoryStore.stream_all ups cursor limit tenant s =
  map (streamed ups) (take (Z.to_nat (Z.max 1 limit)) (pending cursor tenant s)).
Proof.
  unfold MemoryStore.stream_all, pending, after. destruct cursor as [c|].
  - destruct (MemoryStore.position _ _); [|by rewrite firstn_nil]. rewrite page_spec. do 3 f_equal. lia.
  - rewrite page_spec. do 3 f_equal. lia.
Qed.
End Cursors.

(** * What a runner does with a batch *)

Section Batches.
Context {R V : Type} (ps : ProjectionRunner (R := R) (V := V)).
Implicit Types (batch : list (StreamedEvent V)) (r : R).

(** The cursor after the events of a batch. *)
Fixpoint last_id (cursor : option str) batch : option str :=
  match batch with [] => cursor | e :: batch' => last_id (Some (event_id e)) batch' end.

Lemma drive_batch_spec batch cursor r :
  match apply_events ps (map event batch) r with
  | Some (Ok _, r') => drive_batch ps batch cursor r = Some ((last_id cursor batch, None), r')
  | Some (Err err, r') =>
      exists done failed rest r1, batch = done ++ failed :: rest /\
        apply_events ps (map event done) r = Some (Ok tt, r1) /\
        runner_apply ps (event failed) r1 = Some (Err err, r') /\
        drive_batch ps batch cursor r = Some ((last_id cursor done, Some err), r')
  | None => drive_batch ps batch cursor r = None
  end.
Proof.
  revert cursor r. induction batch as [|e batch IH]; intros cursor r; simpl; [done|].
  unfold try_, bind, ret. destruct (runner_apply ps (event e) r) as [[[[]|err] r1]|] eqn:A; simpl; [| |done].
  - specialize (IH (Some (event_id e)) r1). destruct (apply_events ps (map event batch) r1) as [[[?|err] r']|]; [exact IH| |exact IH].
    destruct IH as (dn & failed & rest & r2 & -> & D & F & E). exists (e :: dn), failed, rest, r2.
    simpl. unfold try_, bind. by rewrite A.
  - exists [], e, batch, r. done.
Qed.

Lemma apply_events_app es1 es2 r :
  apply_events ps (es1 ++ es2) r =
  match apply_events ps es1 r with
  | Some (Ok _, r') => apply_events ps es2 r'
  | Some (Err e, r') => Some (Err e, r')
  | None => None
  end.
Proof.
  revert r. induction es1 as [|e es1 IH]; intros r; simpl; [done|]. unfold try_, bind.
  by destruct (runner_apply ps e r) as [[[[]|err] r1]|].
Qed.

Lemma last_id_cases cursor batch : batch = [] /\ last_id cursor batch = cursor \/
  exists l e, batch = l ++ [e] /\ last_id cursor batch = Some (event_id e).
Proof.
  revert cursor. induction batch as [|e batch IH]; intros cursor; [by left|]. right. simpl.
  destruct (IH (Some (event_id e))) as [[-> ->]|(l & x & -> & ->)]; [by exists [], e|by exists (e :: l), x].
Qed.
End Batches.

(** * Replaying the whole log *)

Section Replay.
Context {R V : Type} (ps : ProjectionRunner (R := R) (V := V)) (ups : list (EventUpcaster V)).
Implicit Types (s : MemoryStore.MemoryState V) (r : R).

Let store := MemoryStore.store ups.

Lemma map_event_streamed (l : list (str * DomainEvent V)) :
  map event (map (streamed ups) l) = map (fun p => apply_upcasters ups (snd p)) l.
Proof. rewrite map_map. done. Qed.

(** One call of [drive_once]: it applies the first pending events, moves the
    cursor past exactly the ones applied, and hands back the error that
    stopped it; the failed event is the first one still pending. *)
Lemma drive_once_spec cursor n tenant s r : NoDup (map fst (MemoryStore.all s)) ->
  let todo := take (Z.to_nat (Z.max 1 n)) (pending cursor tenant s) in
  match apply_events ps (map (fun p => apply_upcasters ups (snd p)) todo) r with
  | Some (Ok _, r') =>
      exists next, drive_once store ps cursor n tenant (s, r) = Some (Ok (next, None), (s, r')) /\
        pending next tenant s = drop (List.length todo) (pending cursor tenant s) /\
        (next = cursor <-> pending cursor tenant s = []) /\
        next = last_id cursor (map (streamed ups) todo)
  | Some (Err err, r') =>
      exists next k p, drive_once store ps cursor n tenant (s, r) = Some (Ok (next, Some err), (s, r')) /\
        pending next tenant s = p :: drop (S k) (pending cursor tenant s) /\
        pending cursor tenant s !! k = Some p
  | None => drive_once store ps cursor n tenant (s, r) = None
  end.
Proof.
  intros N todo. pose proof (drive_batch_spec ps (map (streamed ups) todo) cursor r) as D.
  rewrite map_event_streamed in D. unfold drive_once, try_, bind, on_fst, on_snd, ret. simpl.
  rewrite stream_all_spec. fold todo.
  set (P := pending cursor tenant s) in *.
  assert (T : P = todo ++ drop (List.length todo) P).
  { unfold todo. rewrite length_take. destruct (Nat.le_gt_cases (Z.to_nat (Z.max 1 n)) (List.length P)).
    - rewrite Nat.min_l by done. by rewrite take_drop.
    - rewrite Nat.min_r by lia. rewrite drop_ge, take_ge, app_nil_r by lia. done. }
  destruct (apply_events ps _ r) as [[[u|err] r']|] eqn:A; [| |by rewrite D].
  - rewrite D. eexists. split; [done|].
    destruct (last_id_cases cursor (map (streamed ups) todo)) as [[E ->]|(l & e & E & ->)].
    + apply map_eq_nil in E. rewrite E. simpl. split; [done|]. split; [|done]. split; [|done].
      intros _. unfold todo in E. destruct P; [done|]. destruct (Z.to_nat (Z.max 1 n)) eqn:Z0; [lia|done].
    + apply map_eq_app in E as (l1 & l2 & E & <- & E2). apply map_eq_cons in E2 as (x & l3 & -> & <- & E3).
      apply map_eq_nil in E3 as ->. rewrite E, <- app_assoc in T. simpl in T.
      destruct (pending_after cursor tenant s l1 x _ N T) as [X Y]. split; [by rewrite E|]. split; [|done].
      split; [by intros <-|]. fold P. rewrite T. by destruct l1.
  - destruct D as (dn & failed & rest & r1 & E & A1 & F & D). rewrite D.
    apply map_eq_app in E as (l1 & l2 & E & <- & E2). apply map_eq_cons in E2 as (x & l3 & -> & <- & <-).
    exists (last_id cursor (map (streamed ups) l1)), (List.length l1), x. split; [done|].
    assert (TP : P = l1 ++ x :: (l3 ++ drop (List.length todo) P)).
    { rewrite T at 1. rewrite E, <- app_assoc. done. }
    assert (K : P !! List.length l1 = Some x) by (rewrite TP; by apply list_lookup_middle).
    assert (Dr : drop (S (List.length l1)) P = l3 ++ drop (List.length todo) P).
    { rewrite TP at 1. rewrite <- Nat.add_1_r. apply drop_app_one. }
    split; [|done]. rewrite Dr.
    destruct (last_id_cases cursor (map (streamed ups) l1)) as [[E1 ->]|(l & e & E1 & ->)].
    + apply map_eq_nil in E1 as ->. done.
    + apply map_eq_app in E1 as (m1 & m2 & -> & <- & E2). apply map_eq_cons in E2 as (y & m3 & -> & <- & E3).
      apply map_eq_nil in E3 as ->. rewrite <- app_assoc in TP.
      by apply (pending_after cursor tenant s m1 y _ N).
Qed.

Lemma last_id_app cursor (a b : list (StreamedEvent V)) : last_id cursor (a ++ b) = last_id (last_id cursor a) b.
Proof. revert cursor. induction a; simpl; auto. Qed.
End Replay.

(** Replaying the log from a cursor ends, whatever the page size, with at most
    one page per pending event and one more; it applies exactly the wanted
    events that follow the cursor, in the order they were appended, each once,
    brought up to date by the upcasters; the read model, the error or panic
    that stops it, are those of applying that list of events, the store is
    untouched, and the cursor returned is the last one applied. *)
Theorem replay_all_once {R V} (ps : ProjectionRunner (R := R) (V := V)) ups
    (s : MemoryStore.MemoryState V) r start size tenant fuel :
  NoDup (map fst (MemoryStore.all s)) ->
  (List.length (pending start tenant s) < fuel)%nat ->
  replay_all (MemoryStore.store ups) fuel ps start size tenant (s, r) =
  match apply_events ps (map (fun p => apply_upcasters ups (snd p)) (pending start tenant s)) r with
  | Some (Ok _, r') =>
      Some (Some (Ok (last_id start (map (streamed ups) (pending start tenant s)))), (s, r'))
  | Some (Err e, r') => Some (Some (Err e), (s, r'))
  | None => None
  end.
Proof.
  intros N. unfold replay_all. generalize (Z.max size 1) as n. intros n.
  revert start r. induction fuel as [|fuel IH]; intros start r L; [lia|]. cbn [replay_loop].
  pose proof (drive_once_spec ps ups start n tenant s r N) as D. cbn zeta in D.
  set (P := pending start tenant s) in *. set (k := Z.to_nat (Z.max 1 n)) in *.
  set (f := fun p : str * DomainEvent V => apply_upcasters ups (snd p)) in *.
  assert (AE : apply_events ps (map f P) r =
    match apply_events ps (map f (take k P)) r with
    | Some (Ok _, r') => apply_events ps (map f (drop k P)) r'
    | Some (Err e, r') => Some (Err e, r')
    | None => None
    end) by (rewrite <- apply_events_app, <- map_app, take_drop; done).
  rewrite AE. clear AE. unfold bind at 1.
  destruct (apply_events ps (map f (take k P)) r) as [[[u|err] r']|]; [| |by rewrite D].
  - destruct D as (next & -> & Pn & C & Nx). case_bool_decide as B.
    + rewrite (proj1 C B). by rewrite drop_nil.
    + assert (Pn' : pending next tenant s = drop k P).
      { rewrite Pn, length_take. destruct (Nat.le_gt_cases k (List.length P)).
        - by rewrite Nat.min_l.
        - by rewrite Nat.min_r, !drop_ge by lia. }
      assert (P <> []) by (intros E; apply B, C, E).
      rewrite IH, Pn'.
      * fold f. rewrite Nx, <- last_id_app, <- map_app, take_drop. done.
      * rewrite Pn', length_drop. destruct P; [done|]. simpl in *. unfold k. lia.
  - by destruct D as (next & j & p & -> & _ & _).
Qed.

(** * Appending: the store as a commit log *)

Lemma parse_zeros n d acc : acc = 0 -> parse_digits (repeat (digit_char 0) n ++ d) acc = parse_digits d 0.
Proof.
  intros ->. induction n as [|n IH]; [done|]. cbn [repeat app parse_digits].
  destruct (digit_char_spec 0) as [-> ->]; [lia|]. exact IH.
Qed.

Lemma zero_padded_inj a b : 0 <= a -> 0 <= b -> MemoryStore.zero_padded a = MemoryStore.zero_padded b -> a = b.
Proof.
  intros A B E. apply (f_equal (fun s => parse_digits s 0)) in E. unfold MemoryStore.zero_padded in E.
  rewrite !parse_zeros in E by done.
  pose proof (parse_unsigned_show a A) as Pa. pose proof (parse_unsigned_show b B) as Pb.
  unfold parse_unsigned in *. pose proof (show_nonempty a). pose proof (show_nonempty b).
  destruct (show a), (show b); try done. rewrite Pa, Pb in E. by injection E.
Qed.

Definition ids (n : nat) : list str := map (fun i => MemoryStore.zero_padded (Z.of_nat i)) (seq 0 n).

Lemma ids_nodup n : NoDup (ids n).
Proof.
  apply NoDup_ListNoDup, Finite.Injective_map_NoDup; [|apply seq_NoDup].
  intros i j E. apply zero_padded_inj in E; lia.
Qed.

Lemma ids_S n : ids (S n) = ids n ++ [MemoryStore.zero_padded (Z.of_nat n)].
Proof. unfold ids. rewrite seq_S, map_app. done. Qed.

Section CommitLog.
Context {V : Type}.
Implicit Types (s : MemoryStore.MemoryState V) (es : list (DomainEvent V)).

(** The abstract store: the accepted batches, in the order they were accepted. *)
Definition Log : Type := list (str * list (DomainEvent V)).
Definition Attempt : Type := str * Z * list (DomainEvent V).

Definition committed (id : str) (log : Log) : list (DomainEvent V) :=
  concat (map snd (List.filter (fun b => str_eqb (fst b) id) log)).

Definition log_append (log : Log) (a : Attempt) : Result unit EventSourcingError * Log :=
  let '(id, expected, es) := a in
  match es with
  | [] => (Ok tt, log)
  | _ => if expected =? Z.of_nat (List.length (committed id log))
         then (Ok tt, log ++ [(id, es)]) else (Err Concurrency, log)
  end.

Definition mem_append s (a : Attempt) : Result unit EventSourcingError * MemoryStore.MemoryState V :=
  let '(id, expected, es) := a in MemoryStore.append id expected es s.

Fixpoint attempts {S} (f : S -> Attempt -> Result unit EventSourcingError * S) (l : list Attempt) (s : S)
  : list (Result unit EventSourcingError) * S :=
  match l with
  | [] => ([], s)
  | a :: l' => let '(r, s') := f s a in let '(rs, s'') := attempts f l' s' in (r :: rs, s'')
  end.

Record represents s (log : Log) : Prop := {
  rep_streams : forall id, default [] (MemoryStore.streams s !! id) = committed id log;
  rep_all : map snd (MemoryStore.all s) = concat (map snd log);
  rep_ids : map fst (MemoryStore.all s) = ids (List.length (MemoryStore.all s));
  rep_seq : MemoryStore.next_seq s = Z.of_nat (List.length (MemoryStore.all s))
}.

Lemma committed_app id a b : committed id (a ++ b) = committed id a ++ committed id b.
Proof. unfold committed. by rewrite List.filter_app, map_app, concat_app. Qed.

Lemma committed_one id id' es : committed id [(id', es)] = if str_eqb id' id then es else [].
Proof. unfold committed. simpl. destruct (str_eqb id' id); simpl; by rewrite ?app_nil_r. Qed.

Lemma head_version_spec s log id : represents s log ->
  MemoryStore.head_version id s = Z.of_nat (List.length (committed id log)).
Proof.
  intros R. rewrite <- (rep_streams _ _ R). unfold MemoryStore.head_version.
  by destruct (MemoryStore.streams s !! id).
Qed.

Lemma push_streams id es s id' :
  default [] (MemoryStore.streams (fold_left (MemoryStore.push_event id) es s) !! id') =
  default [] (MemoryStore.streams s !! id') ++ if str_eqb id id' then es else [].
Proof.
  revert s. induction es as [|e es IH]; intros s; simpl; [destruct (str_eqb id id'); by rewrite app_nil_r|].
  rewrite IH. simpl. destruct (str_eqb id id') eqn:E.
  - apply str_eqb_true in E as ->. rewrite lookup_insert_eq. simpl. by rewrite <- app_assoc.
  - apply bool_decide_eq_false in E. by rewrite lookup_insert_ne.
Qed.

(** Pushing a batch: the log grows by it, the ids go on. *)
Lemma push_events_spec id es s : MemoryStore.next_seq s = Z.of_nat (List.length (MemoryStore.all s)) ->
  map fst (MemoryStore.all s) = ids (List.length (MemoryStore.all s)) ->
  MemoryStore.next_seq s + Z.of_nat (List.length es) < 2 ^ 64 ->
  let s' := fold_left (MemoryStore.push_event id) es s in
  map snd (MemoryStore.all s') = map snd (MemoryStore.all s) ++ es /\
  map fst (MemoryStore.all s') = ids (List.length (MemoryStore.all s')) /\
  MemoryStore.next_seq s' = Z.of_nat (List.length (MemoryStore.all s')).
Proof.
  revert s. induction es as [|e es IH]; intros s Q I B; simpl.
  { by rewrite app_nil_r. }
  simpl in B. destruct (IH (MemoryStore.push_event id s e)) as (S2 & S3 & S4).
  - simpl. rewrite length_app, u64_id by lia. simpl. lia.
  - simpl. rewrite map_app, length_app, Nat.add_1_r, ids_S, I, Q. done.
  - simpl. rewrite u64_id by lia. lia.
  - split; [|done]. rewrite S2. simpl. by rewrite map_app, <- app_assoc.
Qed.

Lemma append_represents s log a : represents s log ->
  MemoryStore.next_seq s + Z.of_nat (List.length (snd a)) < 2 ^ 64 ->
  fst (mem_append s a) = fst (log_append log a) /\
  represents (snd (mem_append s a)) (snd (log_append log a)) /\
  MemoryStore.next_seq (snd (mem_append s a)) <= MemoryStore.next_seq s + Z.of_nat (List.length (snd a)).
Proof.
  intros R B. destruct a as [[id expected] es]. simpl in *. unfold MemoryStore.append.
  destruct es as [|e es]; [simpl; repeat split; try done; try apply R; lia|].
  rewrite (head_version_spec _ _ _ R). destruct (expected =? _) eqn:X; cbn [negb fst snd]; [|repeat split; try done; try apply R; lia].
  destruct (push_events_spec id (e :: es) s (rep_seq _ _ R) (rep_ids _ _ R) B) as (S2 & S3 & S4).
  split; [done|]. split; [split; try done|].
  - intros id'. by rewrite push_streams, (rep_streams _ _ R), committed_app, committed_one.
  - rewrite S2, (rep_all _ _ R), map_app, concat_app. simpl. by rewrite app_nil_r.
  - rewrite S4, (rep_seq _ _ R).
    apply (f_equal (@List.length _)) in S2. rewrite length_app, !length_map in S2. rewrite S2. lia.
Qed.

Definition batch_sizes (l : list Attempt) : Z := fold_right (fun a n => Z.of_nat (List.length (snd a)) + n) 0 l.

Lemma attempts_represent l s log : represents s log ->
  MemoryStore.next_seq s + batch_sizes l < 2 ^ 64 ->
  fst (attempts mem_append l s) = fst (attempts log_append l log) /\
  represents (snd (attempts mem_append l s)) (snd (attempts log_append l log)).
Proof.
  revert s log. induction l as [|a l IH]; intros s log R B; simpl; [done|]. simpl in B.
  assert (0 <= batch_sizes l) by (clear; induction l; simpl; lia).
  destruct (append_represents s log a R) as (E & R1 & Q); [lia|].
  destruct (mem_append s a) as [r s1], (log_append log a) as [r' log1]. simpl in *. subst r'.
  destruct (IH s1 log1 R1) as [E2 R2]; [lia|].
  destruct (attempts mem_append l s1), (attempts log_append l log1). simpl in *. by subst.
Qed.

(** Once a stream is longer than a version, no batch expecting that version
    is accepted any more. *)
Lemma stale_rejected l log id v : v < Z.of_nat (List.length (committed id log)) ->
  forall j es, l !! j = Some (id, v, es) -> es <> [] ->
  fst (attempts log_append l log) !! j = Some (Err Concurrency).
Proof.
  revert log. induction l as [|a l IH]; intros log L j es J N; [done|]. simpl.
  destruct (log_append log a) as [r log1] eqn:A. destruct (attempts log_append l log1) as [rs log2] eqn:At.
  destruct j as [|j]; simpl in J.
  - injection J as ->. simpl in A. destruct es; [done|]. simpl. destruct (Z.eqb_spec v (Z.of_nat (List.length (committed id log)))); [lia|].
    by injection A as <- <-.
  - simpl. specialize (IH log1). rewrite At in IH. apply (IH) with (es := es); try done.
    destruct a as [[id' v'] [|e' es']]; simpl in A; [by injection A as <- <-|].
    destruct (v' =? _); injection A as <- <-; [|done]. rewrite committed_app, length_app. lia.
Qed.

Lemma single_winner l log i j id v es es' : (i < j)%nat ->
  l !! i = Some (id, v, es) -> l !! j = Some (id, v, es') -> es <> [] -> es' <> [] ->
  fst (attempts log_append l log) !! i = Some (Ok tt) ->
  fst (attempts log_append l log) !! j = Some (Err Concurrency).
Proof.
  revert log i j. induction l as [|a l IH]; intros log i j L I J N N' W; [done|].
  destruct j as [|j]; [lia|]. simpl in *. destruct (log_append log a) as [r log1] eqn:A.
  destruct (attempts log_append l log1) as [rs log2] eqn:At. simpl in *. destruct i as [|i]; simpl in *.
  - injection I as ->. injection W as ->. destruct es as [|e es]; [done|]. simpl in A.
    destruct (Z.eqb_spec v (Z.of_nat (List.length (committed id log)))); [|done]. injection A as <-.
    pose proof (stale_rejected l (log ++ [(id, e :: es)]) id v) as St. rewrite At in St. eapply St; [|done|done].
    rewrite committed_app, committed_one, length_app. rewrite (proj2 (str_eqb_true id id) eq_refl). simpl. lia.
  - specialize (IH log1 i j ltac:(lia) I J N N'). rewrite At in IH. by apply IH.
Qed.

Lemma represents_new : represents MemoryStore.new [].
Proof. split; simpl; try done. Qed.
End CommitLog.

(** C7 Optimistic concurrency: the store is an append-only log of accepted
    batches. Under any sequence of append attempts by any writers, from the
    empty store and with fewer than 2^64 events in all, the answers are those
    of the log - a batch is accepted exactly when the stream is as long as the
    writer expects -, each stream is the concatenation of its accepted
    batches, the global log of all of them, its cursors are pairwise
    distinct, and of two writers that expect the same version of a stream
    only the first accepted one wins. *)
Theorem append_refines_commit_log {V} (l : list (Attempt (V := V))) : batch_sizes l < 2 ^ 64 ->
  let '(rs, s) := attempts mem_append l MemoryStore.new in
  let '(rs', log) := attempts log_append l [] in
  rs = rs' /\
  (forall id, default [] (MemoryStore.streams s !! id) = committed id log) /\
  map snd (MemoryStore.all s) = concat (map snd log) /\
  NoDup (map fst (MemoryStore.all s)) /\
  forall i j id v es es', (i < j)%nat -> l !! i = Some (id, v, es) -> l !! j = Some (id, v, es') ->
    es <> [] -> es' <> [] -> rs !! i = Some (Ok tt) -> rs !! j = Some (Err Concurrency).
Proof.
  intros B. destruct (attempts_represent l MemoryStore.new [] represents_new B) as [E R].
  pose proof (single_winner l []) as W.
  destruct (attempts mem_append l MemoryStore.new) as [rs s], (attempts log_append l []) as [rs' log].
  simpl in *. subst rs'. split; [done|]. split; [apply R|]. split; [apply R|].
  split; [rewrite (rep_ids _ _ R); apply ids_nodup|]. intros. by eapply W.
Qed.

(** * Examples *)

Definition sample_event (id : str) (v : Z) (tenant : option str) : DomainEvent unit :=
  mkEvent id (lit "Order") v (lit "Placed") 0 [] [] tenant.

(** Two writers loaded [o-1] at version 0; the second to append loses. *)
Definition race : list (Attempt (V := unit)) :=
  let o1 := lit "o-1" in let o2 := lit "o-2" in
  [(o1, 0, [sample_event o1 1 (Some (lit "a")); sample_event o1 2 None]);
   (o2, 0, [sample_event o2 1 (Some (lit "a"))]);
   (o1, 0, [sample_event o1 1 None]);
   (o1, 2, [sample_event o1 3 (Some (lit "b"))])].

Definition race_store : MemoryStore.MemoryState unit := snd (attempts mem_append race MemoryStore.new).

Lemma append_refines_commit_log_witness :
  let '(rs, s) := attempts mem_append race MemoryStore.new in
  rs = [Ok tt; Ok tt; Err Concurrency; Ok tt] /\ NoDup (map fst (MemoryStore.all s)).
Proof.
  pose proof (append_refines_commit_log race ltac:(vm_compute; reflexivity)) as R.
  destruct (attempts mem_append race MemoryStore.new) as [rs s] eqn:E.
  destruct (attempts log_append race []) as [rs' log] eqn:L. destruct R as (-> & _ & _ & N & _).
  split; [|exact N]. vm_compute in L. by injection L as <- _.
Defined.

(** A projection that keeps the versions it saw, and fails on version 3. *)
Definition seen : Projection (list Z) unit :=
  FunctionProjection (lit "seen") (fun e r =>
    Some (if version e =? 3 then (Err (ProjectionFailed (lit "boom")), r) else (Ok tt, r ++ [version e]))).

Lemma replay_all_once_witness :
  replay_all (MemoryStore.store []) 3 [seen] None 1 (Some (lit "a")) (race_store, []) =
    Some (Some (Ok (Some (MemoryStore.zero_padded 2))), (race_store, [1; 1])) /\
  replay_all (MemoryStore.store []) 9 [seen] (Some (MemoryStore.zero_padded 0)) 2 None (race_store, []) =
    Some (Some (Err (ProjectionFailed (lit "boom"))), (race_store, [2; 1])).
Proof.
  assert (N : NoDup (map fst (MemoryStore.all race_store))).
  { apply NoDup_ListNoDup. by vm_compute; repeat constructor; intros H; repeat destruct H as [H|H]. }
  split; (rewrite replay_all_once; [vm_compute; reflexivity | exact N | vm_compute; lia]).
Defined.

(** A page asked to hold no event holds one. *)
Example stream_all_limit_zero :
  map event_id (MemoryStore.stream_all [] None 0 None race_store) = [MemoryStore.zero_padded 0].
Proof. vm_compute. reflexivity. Qed.
