(* ===== verification/Repository.v ===== *)
(** The event-sourced repository of [crates/eventsourcing/src/repository.rs]:
    loading by snapshot and replay, saving with optimistic concurrency and the
    snapshot policy.

    The trait [EventSourcedAggregate] is a class: a domain aggregate is its
    embedded root next to the state its hooks act on. The repository is
    written against the ports of [EventStore.v]; the theorems are about it over
    the in-process store and snapshots. [debug] is [str]'s Debug rendering. *)
From Stdlib Require Import Ascii String.
From Stdlib Require Import ZArith NArith List Lia.
From stdpp Require Import base decidable list gmap.
From S2P Require Import Prelude Str EventStore.

Class EventSourcedAggregate (St V : Type) : Type := {
  AGGREGATE_TYPE : str;
  default_root : AggregateRoot V;
  default_state : St;
  apply_event : DomainEvent V -> St -> Result St EventSourcingError;
  snapshot_payload : St -> Result bytes EventSourcingError;
  restore_snapshot : bytes -> St -> Result St EventSourcingError
}.

(** The trait's default snapshot hooks. *)
Definition default_snapshot_payload {St} (_ : St) : Result bytes EventSourcingError := Ok [].
Definition default_restore_snapshot {St} (_ : bytes) (st : St) : Result St EventSourcingError := Ok st.

Section Repository.
Context {W St V : Type} `{EventSourcedAggregate St V}.
Variable debug : str -> str.

Record Aggregate : Type := mkAggregate {
  root : AggregateRoot V;
  state : St
}.

Definition set_version (v : Z) (r : AggregateRoot V) : AggregateRoot V :=
  mkRoot (root_id r) (root_type r) v (root_tenant r) (uncommitted r).

Record EventSourcedRepository : Type := mkRepository {
  store : EventStore W V;
  snapshots : option (SnapshotStore W);
  snapshot_interval : Z
}.

Definition repository_new (store : EventStore W V) : EventSourcedRepository :=
  mkRepository store None 100.

Definition with_snapshots (store : EventStore W V) (snapshots : SnapshotStore W) (interval : Z)
  : EventSourcedRepository := mkRepository store (Some snapshots) (Z.max interval 1).

Definition id_mismatch (id : str) (e : DomainEvent V) : EventSourcingError :=
  ProjectionFailed (lit "firefly/eventsourcing: replayed event aggregate_id " ++
    debug (aggregate_id e) ++ lit " != loaded aggregate " ++ debug id).
Definition type_mismatch (e : DomainEvent V) : EventSourcingError :=
  ProjectionFailed (lit "firefly/eventsourcing: replayed event aggregate_type " ++
    debug (aggregate_type e) ++ lit " != " ++ debug AGGREGATE_TYPE).

(** The loop over the loaded events. *)
Fixpoint replay_events (id : str) (events : list (DomainEvent V)) (a : Aggregate)
  : Result Aggregate EventSourcingError :=
  match events with
  | [] => Ok a
  | e :: events' =>
      if negb (str_eqb (aggregate_id e) id) then Err (id_mismatch id e)
      else if negb (bool_decide (aggregate_type e = [])) && negb (str_eqb (aggregate_type e) AGGREGATE_TYPE)
      then Err (type_mismatch e)
      else
        st <-? apply_event e (state a);
        replay_events id events' (mkAggregate (set_version (version e) (root a)) st)
  end.

Definition blank (id : str) : Aggregate :=
  mkAggregate (mkRoot id AGGREGATE_TYPE (root_version default_root) (root_tenant default_root)
                 (uncommitted default_root)) default_state.


(** The latest snapshot on top of the blank aggregate, and the version to
    replay from. *)
Definition restore_latest (self : EventSourcedRepository) (id : str)
  : M W (Result (Aggregate * Z) EventSourcingError) :=
  match snapshots self with
  | None => ret (Ok (blank id, 0))
  | Some sn =>
      let? o := latest sn id in
      match o with
      | None => ret (Ok (blank id, 0))
      | Some snap =>
          ret (st <-? restore_snapshot (snap_payload snap) (state (blank id));
               Ok (mkAggregate (set_version (snap_version snap) (root (blank id))) st, snap_version snap))
      end
  end.

Definition repo_load (self : EventSourcedRepository) (id : str)
  : M W (Result (option Aggregate) EventSourcingError) :=
  let? p := restore_latest self id in
  let? events := load_after (store self) id (snd p) in
  if bool_decide (events = []) && (snd p =? 0) then ret (Ok None)
  else ret (a <-? replay_events id events (fst p); Ok (Some a)).

(** [save] also hands back the aggregate it mutates. *)
Definition repo_save (self : EventSourcedRepository) (a : Aggregate)
  : M W (Result unit EventSourcingError * Aggregate) :=
  let pending := i64 (Z.of_nat (List.length (uncommitted (root a)))) in
  if pending =? 0 then ret (Ok tt, a)
  else
    let id := root_id (root a) in
    let new_version := root_version (root a) in
    let expected := i64 (new_version - pending) in
    let '(events, r) := take_uncommitted (root a) in
    let a' := mkAggregate r (state a) in
    let! res := append (store self) id expected events in
    match res with
    | Err e => ret (Err e, a')
    | Ok _ =>
        match snapshots self with
        | None => ret (Ok tt, a')
        | Some sn =>
            if Z.quot expected (snapshot_interval self) <? Z.quot new_version (snapshot_interval self) then
              match snapshot_payload (state a') with
              | Err e => ret (Err e, a')
              | Ok payload =>
                  let! res := save_snapshot sn (mkSnapshot id AGGREGATE_TYPE new_version payload) in
                  ret (res, a')
              end
            else ret (Ok tt, a')
        end
    end.
End Repository.
Arguments Aggregate : clear implicits.
Arguments EventSourcedRepository : clear implicits.

(** * Over the in-process stores *)

Definition lift_store {S T V} (s : EventStore S V) : EventStore (S * T) V :=
  mkStore (fun id v es => on_fst (append s id v es)) (fun id => on_fst (load s id))
          (fun id v => on_fst (load_after s id v)) (fun c n t => on_fst (stream_all s c n t)).

Definition lift_snapshots {S T} (s : SnapshotStore T) : SnapshotStore (S * T) :=
  mkSnapshots (fun id => on_snd (latest s id)) (fun x => on_snd (save_snapshot s x)).

(** What the hooks of a well-behaved aggregate satisfy: folding an event does
    not depend on the root (by construction), a snapshot of any state
    restores it, and the default root has nothing to commit. *)
Class AggregateLaws (St V : Type) `{EventSourcedAggregate St V} : Prop := {
  snapshot_restores : forall st : St, exists p,
    snapshot_payload st = Ok p /\ restore_snapshot p default_state = Ok st;
  default_uncommitted : uncommitted default_root = [];
  default_version : root_version default_root = 0
}.

(** Upcasters rewrite type and payload of an event, never its place. *)
Definition keeps_place {V} (ups : list (EventUpcaster V)) : Prop :=
  forall e, let e' := apply_upcasters ups e in
    aggregate_id e' = aggregate_id e /\ aggregate_type e' = aggregate_type e /\ version e' = version e.

Section OverMemory.
Context {St V : Type} `{AggregateLaws St V}.
Variables (debug : str -> str) (ups : list (EventUpcaster V)).
Hypothesis ups_keep : keeps_place ups.
Variable interval : Z.

Definition World : Type := MemoryStore.MemoryState V * gmap str Snapshot.

Definition repository : EventSourcedRepository World V :=
  with_snapshots (lift_store (MemoryStore.store ups)) (lift_snapshots MemorySnapshotStore) interval.

Definition stream (w : World) (id : str) : list (DomainEvent V) :=
  default [] (MemoryStore.streams w.1 !! id).
Arguments stream : simpl never.

(** The state a list of stored events leads to. *)
Fixpoint fold_events (es : list (DomainEvent V)) (st : St) : Result St EventSourcingError :=
  match es with
  | [] => Ok st
  | e :: es' => st' <-? apply_event (apply_upcasters ups e) st; fold_events es' st'
  end.

(** Events in their place: [n+1], [n+2], ... of the stream of [id]. *)
Fixpoint in_place (id : str) (n : Z) (es : list (DomainEvent V)) : Prop :=
  match es with
  | [] => True
  | e :: es' =>
      aggregate_id e = id /\ (aggregate_type e = [] \/ aggregate_type e = AGGREGATE_TYPE) /\
      version e = n + 1 /\ in_place id (n + 1) es'
  end.

(** Every stream is in place and folds; every snapshot holds the state of a
    non-empty prefix of its stream. *)
Record consistent (w : World) : Prop := {
  streams_short : forall id, Z.of_nat (List.length (stream w id)) < 2 ^ 63;
  streams_in_place : forall id, in_place id 0 (stream w id);
  streams_fold : forall id, exists st, fold_events (stream w id) default_state = Ok st;
  snapshots_hold : forall id snap, w.2 !! id = Some snap ->
    exists k st, snap_version snap = Z.of_nat k /\ (0 < k <= List.length (stream w id))%nat /\
      fold_events (take k (stream w id)) default_state = Ok st /\
      restore_snapshot (snap_payload snap) default_state = Ok st
}.

(** A live aggregate: loaded at version [n] of its stream, with its buffered
    events in place after it and a state that follows from both. *)
Definition tracks (w : World) (n : nat) (a : Aggregate St V) : Prop :=
  let id := root_id (root a) in
  (n <= List.length (stream w id))%nat /\
  root_version (root a) = Z.of_nat n + Z.of_nat (List.length (uncommitted (root a))) /\
  in_place id (Z.of_nat n) (uncommitted (root a)) /\
  (root_type (root a) = [] \/ root_type (root a) = AGGREGATE_TYPE) /\
  root_version (root a) < 2 ^ 63 /\
  fold_events (take n (stream w id) ++ uncommitted (root a)) default_state = Ok (state a).

Lemma fold_events_app es1 es2 st :
  fold_events (es1 ++ es2) st = (st' <-? fold_events es1 st; fold_events es2 st').
Proof.
  revert st. induction es1 as [|e es1 IH]; intros st; simpl; [done|].
  by destruct (apply_event _ st); simpl.
Qed.

Lemma in_place_app id n es1 es2 :
  in_place id n (es1 ++ es2) <-> in_place id n es1 /\ in_place id (n + Z.of_nat (List.length es1)) es2.
Proof.
  revert n. induction es1 as [|e es1 IH]; intros n; simpl; [rewrite Z.add_0_r; tauto|].
  rewrite IH. replace (n + 1 + Z.of_nat (List.length es1)) with (n + Z.of_nat (S (List.length es1))) by lia. tauto.
Qed.

(** Loading after version [k] is dropping the first [k] events. *)
Lemma filter_in_place id n k es : in_place id n es ->
  List.filter (fun e => n + Z.of_nat k <? version e) es = drop k es.
Proof.
  revert n k. induction es as [|e es IH]; intros n k; simpl; [by rewrite drop_nil|].
  intros (_ & _ & Ve & P). rewrite Ve. destruct k as [|k]; simpl.
  - rewrite (proj2 (Z.ltb_lt _ _)) by lia. f_equal. rewrite <- (drop_0 es) at 2. rewrite <- (IH (n + 1) 0%nat P).
    apply filter_ext_in. intros e' I. simpl.
    assert (n + 1 < version e'); [|by rewrite !(proj2 (Z.ltb_lt _ _)) by lia].
    clear - P I. revert n P. induction es as [|x es IH]; intros n; [done|]. simpl. intros (_ & _ & Vx & P).
    destruct I as [->|I]; [lia|]. specialize (IH I (n + 1) P). lia.
  - rewrite (proj2 (Z.ltb_ge _ _)) by lia. rewrite <- (IH (n + 1) k P).
    apply filter_ext. intros e'. f_equal. lia.
Qed.

Lemma replay_in_place id n es (a : Aggregate St V) st : in_place id n es -> root_version (root a) = n ->
  fold_events es (state a) = Ok st ->
  replay_events debug id (map (apply_upcasters ups) es) a =
    Ok (mkAggregate (set_version (n + Z.of_nat (List.length es)) (root a)) st).
Proof.
  revert n a. induction es as [|e es IH]; intros n a P Vn F; simpl in *.
  - injection F as <-. destruct a as [[] ?]. simpl in *. rewrite Z.add_0_r, <- Vn. done.
  - destruct P as (I & T & Ve & P). destruct (ups_keep e) as (Ui & Ut & Uv).
    rewrite Ui, I, (proj2 (str_eqb_true id id) eq_refl), Ut. simpl.
    replace (negb (bool_decide (aggregate_type e = [])) && negb (str_eqb (aggregate_type e) AGGREGATE_TYPE)) with false; cycle 1.
    { destruct T as [->| ->]; simpl; [done|]. rewrite (proj2 (str_eqb_true _ _) eq_refl). by destruct (bool_decide _). }
    destruct (apply_event (apply_upcasters ups e) (state a)) as [st1|]; simpl in *; [|done].
    rewrite (IH (n + 1)); [|done|simpl; lia|done]. do 2 f_equal. unfold set_version. simpl. f_equal. lia.
Qed.

(** The aggregate a stream leads to. *)
Definition loaded (id : str) (n : nat) (st : St) : Aggregate St V :=
  mkAggregate (mkRoot id AGGREGATE_TYPE (Z.of_nat n) (root_tenant default_root) []) st.

(** The events after version [k], folded over the state at [k]. *)
Lemma replay_rest w id k st0 st (a : Aggregate St V) : consistent w -> (k <= List.length (stream w id))%nat ->
  fold_events (take k (stream w id)) default_state = Ok st0 ->
  fold_events (stream w id) default_state = Ok st -> root_version (root a) = Z.of_nat k -> state a = st0 ->
  MemoryStore.load_after ups id (Z.of_nat k) w.1 = map (apply_upcasters ups) (drop k (stream w id)) /\
  replay_events debug id (map (apply_upcasters ups) (drop k (stream w id))) a =
    Ok (mkAggregate (set_version (Z.of_nat k + Z.of_nat (List.length (stream w id) - k)) (root a)) st).
Proof.
  intros C K F0 F Va Sa. pose proof (streams_in_place _ C id) as P. split.
  - rewrite <- (filter_in_place id 0 k _ P). unfold MemoryStore.load_after, stream.
    by destruct (MemoryStore.streams w.1 !! id).
  - rewrite <- length_drop. apply replay_in_place; [|done|].
    + rewrite <- (take_drop k (stream w id)) in P. apply in_place_app in P as [_ P].
      by rewrite length_take, Nat.min_l in P by done.
    + rewrite <- (take_drop k (stream w id)), fold_events_app, F0 in F. by rewrite Sa.
Qed.

Lemma repo_load_spec w id : consistent w ->
  exists st, fold_events (stream w id) default_state = Ok st /\
  repo_load debug repository id w =
    Some (Ok (if bool_decide (stream w id = []) then None else Some (loaded id (List.length (stream w id)) st)), w).
Proof.
  intros C. destruct (streams_fold _ C id) as [st F]. exists st. split; [done|].
  destruct w as [s m]. unfold repo_load, restore_latest, try_, bind, on_fst, on_snd, ret. simpl.
  destruct (m !! id) as [snap|] eqn:Sn; simpl.
  - destruct (snapshots_hold _ C id snap Sn) as (k & st0 & Vk & [Lo Hi] & F0 & Re). rewrite Re. simpl.
    destruct (replay_rest (s, m) id k st0 st
      (mkAggregate (set_version (snap_version snap) (root (blank id))) st0) C Hi F0 F Vk eq_refl) as [La Rp].
    simpl in La. rewrite Vk, La, Bool.andb_comm, (proj2 (Z.eqb_neq (Z.of_nat k) 0)) by lia. simpl.
    rewrite Vk in Rp. simpl in Rp. rewrite Rp. simpl.
    rewrite bool_decide_eq_false_2 by (intros E; rewrite E in Hi; simpl in Hi; lia).
    unfold loaded, set_version. simpl. rewrite default_uncommitted. do 6 f_equal. lia.
  - destruct (replay_rest (s, m) id 0%nat default_state st (blank id) C (Nat.le_0_l _) eq_refl F default_version eq_refl)
      as [La Rp]. rewrite drop_0 in La, Rp. change (MemoryStore.load_after ups id 0 s = map (apply_upcasters ups) (stream (s, m) id)) in La.
    rewrite La, Bool.andb_true_r.
    case_bool_decide as B.
    + apply map_eq_nil in B. by rewrite bool_decide_eq_true_2.
    + rewrite bool_decide_eq_false_2 by (by intros E; rewrite E in B).
      rewrite Rp. simpl. unfold loaded, set_version. simpl. rewrite default_uncommitted. do 6 f_equal. lia.
Qed.

Lemma append_nonempty id v (es : list (DomainEvent V)) s : es <> [] ->
  MemoryStore.append id v es s =
  if negb (v =? MemoryStore.head_version id s) then (Err Concurrency, s)
  else (Ok tt, fold_left (MemoryStore.push_event id) es s).
Proof. by destruct es. Qed.

(** What a successful save does to the stores. *)
Definition saved (w : World) (id : str) (es : list (DomainEvent V)) (m' : gmap str Snapshot) : World :=
  (fold_left (MemoryStore.push_event id) es w.1, m').

Lemma stream_saved w id es m' id' :
  stream (saved w id es m') id' = if str_eqb id id' then stream w id' ++ es else stream w id'.
Proof. unfold stream, saved. simpl. rewrite push_streams. by destruct (str_eqb id id'); rewrite ?app_nil_r. Qed.

Lemma tracks_saved w n a id es m' : tracks w n a -> tracks (saved w id es m') n a.
Proof.
  intros (Le & Ve & P & T & B & F). unfold tracks. rewrite stream_saved.
  destruct (str_eqb id (root_id (root a))); [|done].
  rewrite length_app, take_app_le by done. repeat split; try done. lia.
Qed.

(** The snapshots after a save at the head: the old ones, and perhaps one of
    the whole stream. *)
Lemma consistent_saved w n a m' : consistent w -> tracks w n a ->
  n = List.length (stream w (root_id (root a))) ->
  (forall id snap, m' !! id = Some snap -> w.2 !! id = Some snap \/
     id = root_id (root a) /\ snap_version snap = root_version (root a) /\
     restore_snapshot (snap_payload snap) default_state = Ok (state a) /\ uncommitted (root a) <> []) ->
  consistent (saved w (root_id (root a)) (uncommitted (root a)) m').
Proof.
  intros C (Le & Ve & P & T & B & F) N Sn. rewrite take_ge in F by lia. split; intros id.
  - rewrite stream_saved. destruct (str_eqb _ id) eqn:E; [|apply (streams_short _ C)].
    apply str_eqb_true in E as <-. rewrite length_app. lia.
  - rewrite stream_saved. destruct (str_eqb _ id) eqn:E; [|apply (streams_in_place _ C)].
    apply str_eqb_true in E as <-. apply in_place_app. split; [apply (streams_in_place _ C)|]. by rewrite Z.add_0_l, <- N.
  - rewrite stream_saved. destruct (str_eqb _ id) eqn:E; [|apply (streams_fold _ C)].
    apply str_eqb_true in E as <-. by exists (state a).
  - intros snap L. simpl in L. rewrite stream_saved. destruct (Sn id snap L) as [Old|(-> & V0 & Re & NE)].
    + destruct (snapshots_hold _ C id snap Old) as (k & st & V0 & K & Fk & Re). exists k, st.
      destruct (str_eqb _ id); [|done]. rewrite length_app, take_app_le by lia. repeat split; try done; lia.
    + exists (List.length (stream w (root_id (root a)) ++ uncommitted (root a))), (state a).
      rewrite (proj2 (str_eqb_true _ _) eq_refl), take_ge, length_app by done. repeat split; try done; try lia.
      destruct (uncommitted (root a)); [done|]. simpl. lia.
Qed.

(** The aggregate [save] leaves. *)
Definition drained (a : Aggregate St V) : Aggregate St V := mkAggregate (clear (root a)) (state a).

Lemma head_version_stream (w : World) id :
  MemoryStore.head_version id w.1 = Z.of_nat (List.length (stream w id)).
Proof. unfold MemoryStore.head_version, stream. by destruct (MemoryStore.streams w.1 !! id). Qed.

Lemma pending_count (a : Aggregate St V) : 0 <= root_version (root a) - Z.of_nat (List.length (uncommitted (root a))) ->
  root_version (root a) < 2 ^ 63 -> uncommitted (root a) <> [] ->
  i64 (Z.of_nat (List.length (uncommitted (root a)))) = Z.of_nat (List.length (uncommitted (root a))) /\
  (Z.of_nat (List.length (uncommitted (root a))) =? 0) = false /\
  i64 (root_version (root a) - Z.of_nat (List.length (uncommitted (root a)))) =
    root_version (root a) - Z.of_nat (List.length (uncommitted (root a))).
Proof.
  intros Lo Hi E. assert (0 < List.length (uncommitted (root a)))%nat by (destruct (uncommitted (root a)); simpl; [done|lia]).
  rewrite !i64_id by lia. split; [done|]. split; [|done]. apply Z.eqb_neq. lia.
Qed.

(** A save away from the head is refused; nothing is stored, and the buffer is
    empty all the same. *)
Lemma repo_save_stale w a : uncommitted (root a) <> [] ->
  0 <= root_version (root a) - Z.of_nat (List.length (uncommitted (root a))) -> root_version (root a) < 2 ^ 63 ->
  root_version (root a) - Z.of_nat (List.length (uncommitted (root a))) <>
    Z.of_nat (List.length (stream w (root_id (root a)))) ->
  repo_save repository a w = Some ((Err Concurrency, drained a), w).
Proof.
  intros E Lo Hi Ne. destruct (pending_count a Lo Hi E) as (Pn & Nz & Ex).
  unfold repo_save. rewrite Pn, Nz, Ex. unfold take_uncommitted, bind, ret.
  cbn [store repository with_snapshots lift_store append].
  pose proof (head_version_stream w (root_id (root a))) as HV. destruct w as [s m]. unfold on_fst.
  cbn [MemoryStore.store append]. unfold total. rewrite append_nonempty by exact E. simpl in HV. rewrite HV.
  rewrite (proj2 (Z.eqb_neq _ _)) by exact Ne. done.
Qed.

(** A save at the head stores the buffer; a snapshot it takes is of the
    aggregate as it is. *)
Lemma repo_save_head w a : uncommitted (root a) <> [] -> root_version (root a) < 2 ^ 63 ->
  root_version (root a) =
    Z.of_nat (List.length (stream w (root_id (root a)))) + Z.of_nat (List.length (uncommitted (root a))) ->
  exists m', repo_save repository a w =
      Some ((Ok tt, drained a), saved w (root_id (root a)) (uncommitted (root a)) m') /\
    forall id snap, m' !! id = Some snap -> w.2 !! id = Some snap \/
     id = root_id (root a) /\ snap_version snap = root_version (root a) /\
     restore_snapshot (snap_payload snap) default_state = Ok (state a) /\ uncommitted (root a) <> [].
Proof.
  intros E Hi Ve. destruct (pending_count a ltac:(lia) Hi E) as (Pn & Nz & Ex).
  unfold repo_save. rewrite Pn, Nz, Ex. unfold take_uncommitted, bind, ret.
  cbn [store repository with_snapshots lift_store append].
  pose proof (head_version_stream w (root_id (root a))) as HV. destruct w as [s m]. unfold on_fst.
  cbn [MemoryStore.store append]. unfold total. rewrite append_nonempty by exact E. simpl in HV.
  rewrite HV, (proj2 (Z.eqb_eq _ _)) by lia.
  cbn [negb snapshots repository with_snapshots lift_snapshots]. destruct (_ <? _); [|by exists m; split; auto].
  destruct (snapshot_restores (state a)) as (p & Sp & Re). cbn [state]. rewrite Sp.
  unfold on_snd. cbn [save_snapshot MemorySnapshotStore]. unfold total.
  exists (<[root_id (root a) := mkSnapshot (root_id (root a)) AGGREGATE_TYPE (root_version (root a)) p]> m).
  split; [done|]. intros id' snap L. destruct (decide (root_id (root a) = id')) as [<-|Ne]; simplify_map_eq; [|by left].
  right. by repeat split.
Qed.

Lemma repo_save_spec w n a : consistent w -> tracks w n a ->
  let id := root_id (root a) in let es := uncommitted (root a) in
  if bool_decide (es = []) then repo_save repository a w = Some ((Ok tt, a), w)
  else if bool_decide (n = List.length (stream w id)) then
    exists m', repo_save repository a w = Some ((Ok tt, drained a), saved w id es m') /\
      consistent (saved w id es m') /\ tracks (saved w id es m') (n + List.length es) (drained a)
  else repo_save repository a w = Some ((Err Concurrency, drained a), w).
Proof.
  intros C Tr id es. pose proof Tr as (Le & Ve & P & T & B & F). fold id in Le, P, F. fold es in Ve, P, F.
  case_bool_decide as E; [unfold repo_save; fold es; by rewrite E|]. case_bool_decide as Hn.
  - destruct (repo_save_head w a E B) as (m' & S & Sn); [fold id es; lia|]. exists m'. split; [exact S|].
    split; [by apply (consistent_saved w n a)|].
    unfold tracks. simpl. rewrite stream_saved, (proj2 (str_eqb_true _ _) eq_refl). fold id.
    rewrite length_app, app_nil_r, take_ge by (rewrite length_app; lia).
    rewrite take_ge in F by lia. repeat split; try done; simpl in *; lia.
  - apply repo_save_stale; [done|fold es; lia|done|fold id es; lia].
Qed.

(** Clients create, load, change and save aggregates in any order; one whose
    save is refused discards its copy. *)
Inductive client_step : World * gmap nat (Aggregate St V) -> World * gmap nat (Aggregate St V) -> Prop :=
| step_create w cl c id :
    client_step (w, cl) (w, <[c := mkAggregate (root_new id AGGREGATE_TYPE) default_state]> cl)
| step_load w cl c id a w' : repo_load debug repository id w = Some (Ok (Some a), w') ->
    client_step (w, cl) (w', <[c := a]> cl)
| step_raise w cl c a ty p now st' : cl !! c = Some a -> root_version (root a) < 2 ^ 63 - 1 ->
    apply_event (apply_upcasters ups (mkEvent (root_id (root a)) (root_type (root a))
      (root_version (root a) + 1) ty now p [] (root_tenant (root a)))) (state a) = Ok st' ->
    client_step (w, cl) (w, <[c := mkAggregate (raise ty p now (root a)) st']> cl)
| step_save w cl c a a' w' : cl !! c = Some a ->
    repo_save repository a w = Some ((Ok tt, a'), w') -> client_step (w, cl) (w', <[c := a']> cl)
| step_refused w cl c a err a' w' : cl !! c = Some a ->
    repo_save repository a w = Some ((Err err, a'), w') -> client_step (w, cl) (w', delete c cl).

Inductive clients_reach : World * gmap nat (Aggregate St V) -> Prop :=
| reach_start : clients_reach ((MemoryStore.new, ∅), ∅)
| reach_step x y : clients_reach x -> client_step x y -> clients_reach y.

Record sound (x : World * gmap nat (Aggregate St V)) : Prop := {
  sound_world : consistent x.1;
  sound_clients : forall c a, x.2 !! c = Some a -> exists n, tracks x.1 n a
}.

Lemma tracks_loaded w id st : consistent w -> fold_events (stream w id) default_state = Ok st ->
  tracks w (List.length (stream w id)) (loaded id (List.length (stream w id)) st).
Proof.
  intros C F. unfold tracks, loaded. simpl. rewrite app_nil_r, take_ge by done.
  repeat split; try done; [lia|auto|apply (streams_short _ C)].
Qed.

Lemma tracks_raise w n a ty p now st' : tracks w n a -> root_version (root a) < 2 ^ 63 - 1 ->
  apply_event (apply_upcasters ups (mkEvent (root_id (root a)) (root_type (root a))
      (root_version (root a) + 1) ty now p [] (root_tenant (root a)))) (state a) = Ok st' ->
  tracks w n (mkAggregate (raise ty p now (root a)) st').
Proof.
  intros (Le & Ve & P & T & B & F) Hi Ap. unfold tracks, raise. simpl. rewrite i64_id by lia.
  rewrite length_app. simpl. repeat split; try done; try lia.
  - apply in_place_app. split; [done|]. simpl. repeat split; try done. lia.
  - rewrite app_assoc, fold_events_app, F. simpl. by rewrite Ap.
Qed.

Lemma sound_insert w cl c n a : sound (w, cl) -> tracks w n a -> sound (w, <[c := a]> cl).
Proof.
  intros [C T] Tr. split; [done|]. intros c' a' L. simpl in *.
  destruct (decide (c = c')) as [<-|Ne]; simplify_map_eq; eauto.
Qed.

Lemma sound_step x y : sound x -> client_step x y -> sound y.
Proof.
  intros So Stp. destruct Stp as [w cl c id|w cl c id a w' L|w cl c a ty p now st' L Hi Ap|w cl c a a' w' L Sv|w cl c a err a' w' L Sv].
  - apply sound_insert with 0%nat; [done|]. unfold tracks. simpl. repeat split; try done; [lia|auto].
  - destruct So as [C T]. simpl in *. destruct (repo_load_spec w id C) as (st & F & Ld). rewrite Ld in L.
    case_bool_decide; simplify_eq. eapply sound_insert; [by split|by apply tracks_loaded].
  - destruct (sound_clients _ So c a L) as [n Tr]. eapply sound_insert; [done|by apply tracks_raise].
  - destruct (sound_clients _ So c a L) as [n Tr]. destruct So as [C T]. simpl in *.
    pose proof (repo_save_spec w n a C Tr) as S. cbn zeta in S. rewrite Sv in S.
    case_bool_decide; [simplify_eq; by eapply sound_insert|]. case_bool_decide; [|done].
    destruct S as (m' & [= -> ->] & C' & Tr'). eapply sound_insert; [|exact Tr']. split; [done|].
    intros c' b L'. destruct (T c' b L') as [n' Tb]. exists n'. by apply tracks_saved.
  - destruct (sound_clients _ So c a L) as [n Tr]. destruct So as [C T]. simpl in *.
    pose proof (repo_save_spec w n a C Tr) as S. cbn zeta in S. rewrite Sv in S.
    case_bool_decide; [done|]. case_bool_decide; [by destruct S as (m' & ? & _)|]. simplify_eq.
    split; [done|]. intros c' b L'. simpl in L'. apply lookup_delete_Some in L' as [_ L']. by apply (T c').
Qed.

Lemma sound_reach x : clients_reach x -> sound x.
Proof.
  induction 1 as [|x y R IH Stp]; [|by eapply sound_step]. split; [split|]; simpl.
  - intros id. unfold stream. simpl. by rewrite lookup_empty.
  - intros id. unfold stream. simpl. by rewrite lookup_empty.
  - intros id. exists default_state. unfold stream. simpl. by rewrite lookup_empty.
  - intros id snap L. by rewrite lookup_empty in L.
  - intros c a L. by rewrite lookup_empty in L.
Qed.

(** C8 Whatever the interleaving of clients that create, load, change and save
    aggregates - a refused one discarding its copy -, every stream holds its
    events in their place and folds, and loading an aggregate always gives
    the fold of its whole stream at its last version, although it starts from
    the latest snapshot; every live aggregate is a prefix of its stream
    followed by its own buffered events, and saving it either stores exactly
    those events at the head of the stream or, when another client got there
    first, is refused and changes nothing. The store and the snapshots are the
    in-process ones; upcasters leave an event's place alone; and the aggregate
    keeps what its trait asks: a snapshot of any state restores it, and a new
    root has version zero and nothing to commit. *)
Theorem clients_see_history w cl : clients_reach (w, cl) ->
  (forall id, exists st, fold_events (stream w id) default_state = Ok st /\
     repo_load debug repository id w =
       Some (Ok (if bool_decide (stream w id = []) then None
                 else Some (loaded id (List.length (stream w id)) st)), w)) /\
  (forall id, in_place id 0 (stream w id)) /\
  forall c a, cl !! c = Some a ->
    let id := root_id (root a) in
    exists n, (n <= List.length (stream w id))%nat /\
      fold_events (take n (stream w id) ++ uncommitted (root a)) default_state = Ok (state a) /\
      (uncommitted (root a) <> [] ->
       if bool_decide (n = List.length (stream w id)) then
         exists w', repo_save repository a w = Some ((Ok tt, drained a), w') /\
           (forall id', stream w' id' = if str_eqb id id' then stream w id ++ uncommitted (root a) else stream w id')
       else repo_save repository a w = Some ((Err Concurrency, drained a), w)).
Proof.
  intros R. apply sound_reach in R as [C T]. simpl in *. split; [intros id; by apply repo_load_spec|].
  split; [apply (streams_in_place _ C)|]. intros c a L. destruct (T c a L) as [n Tr].
  pose proof (repo_save_spec w n a C Tr) as S. cbn zeta in S. set (id := root_id (root a)) in *.
  pose proof Tr as (Le & _ & _ & _ & _ & F). fold id in Le, F. exists n. split; [done|]. split; [done|]. intros E.
  rewrite bool_decide_eq_false_2 in S by done. destruct (bool_decide (n = _)); [|exact S].
  destruct S as (m' & S & _). eexists. split; [exact S|]. intros id'. rewrite stream_saved.
  destruct (str_eqb id id') eqn:I; [|done]. by apply str_eqb_true in I as <-.
Qed.

(** Saving and loading back: when no other client has written since it was
    loaded, an aggregate with buffered events is saved, its buffer is empty
    afterwards, and loading its id gives an aggregate with the same state and
    the same version. *)
Theorem save_then_load w cl c a : clients_reach (w, cl) -> cl !! c = Some a ->
  uncommitted (root a) <> [] ->
  root_version (root a) = Z.of_nat (List.length (stream w (root_id (root a)))) +
    Z.of_nat (List.length (uncommitted (root a))) ->
  exists a' w' b, repo_save repository a w = Some ((Ok tt, a'), w') /\
    uncommitted (root a') = [] /\
    repo_load debug repository (root_id (root a)) w' = Some (Ok (Some b), w') /\
    state b = state a /\ root_version (root b) = root_version (root a).
Proof.
  intros R L E Ve. apply sound_reach in R as [C T]. simpl in *. destruct (T c a L) as [n Tr].
  pose proof Tr as (Le & Vn & P & Ty & B & F).
  assert (N : n = List.length (stream w (root_id (root a)))) by lia.
  destruct (repo_save_head w a E B Ve) as (m' & S & Sn).
  pose proof (consistent_saved w n a m' C Tr N Sn) as C'.
  destruct (repo_load_spec _ (root_id (root a)) C') as (st & F' & Ld).
  exists (drained a). eexists. eexists. split; [exact S|]. split; [done|].
  rewrite stream_saved, (proj2 (str_eqb_true _ _) eq_refl) in *.
  rewrite bool_decide_eq_false_2 in Ld by (intros X; apply app_eq_nil in X as [_ X]; done).
  split; [exact Ld|]. simpl. rewrite length_app. rewrite take_ge, F' in F by lia. injection F as ->. split; [done|lia].
Qed.

(** A refused save drops the events for good: the error leaves the store as
    it was but the aggregate's buffer empty and its version advanced; saving
    the same aggregate again reports success and stores nothing; and once the
    other writer's events bring the stream to that version, the aggregate's
    next events are accepted although it has never seen the other writer's
    events and its state contains the lost ones. *)
Theorem refused_save_drops_events w a : uncommitted (root a) <> [] ->
  0 <= root_version (root a) - Z.of_nat (List.length (uncommitted (root a))) ->
  root_version (root a) < 2 ^ 63 - 1 ->
  root_version (root a) - Z.of_nat (List.length (uncommitted (root a))) <>
    Z.of_nat (List.length (stream w (root_id (root a)))) ->
  exists a', repo_save repository a w = Some ((Err Concurrency, a'), w) /\
    state a' = state a /\ root_version (root a') = root_version (root a) /\
    repo_save repository a' w = Some ((Ok tt, a'), w) /\
    (Z.of_nat (List.length (stream w (root_id (root a)))) = root_version (root a) ->
     forall ty p now, let b := mkAggregate (raise ty p now (root a')) (state a') in
     exists b' w', repo_save repository b w = Some ((Ok tt, b'), w') /\
       stream w' (root_id (root a)) = stream w (root_id (root a)) ++ uncommitted (root b)).
Proof.
  intros E Lo Hi Ne. exists (drained a). split; [apply repo_save_stale; try done; lia|].
  split; [done|]. split; [done|]. split; [done|]. intros Hd ty p now b.
  destruct (repo_save_head w b) as (m' & S & _).
  - done.
  - unfold b. simpl. rewrite i64_id; lia.
  - unfold b. simpl. rewrite i64_id; lia.
  - eexists. eexists. split; [exact S|]. rewrite stream_saved. simpl. by rewrite (proj2 (str_eqb_true _ _) eq_refl).
Qed.
End OverMemory.

(** * A sample aggregate: a counter whose events add the length of their
    payload. *)

#[export] Instance counter : EventSourcedAggregate nat unit := {
  AGGREGATE_TYPE := lit "Counter";
  default_root := root_default;
  default_state := 0%nat;
  apply_event := fun e st =>
    if str_eqb (event_type e) (lit "Added") then Ok (st + List.length (payload e))%nat
    else Err (ProjectionFailed (lit "no handler"));
  snapshot_payload := fun st => Ok (repeat Byte.x00 st);
  restore_snapshot := fun p _ => Ok (List.length p)
}.

#[export] Instance counter_laws : AggregateLaws nat unit.
Proof. split; try done. intros st. eexists. split; [done|]. simpl. by rewrite repeat_length. Qed.

Lemma no_upcasters : keeps_place (V := unit) [].
Proof. done. Qed.

Definition added (n : nat) (a : Aggregate nat unit) : Aggregate nat unit :=
  mkAggregate (raise (lit "Added") (repeat Byte.x01 n) 0 (root a)) (state a + n)%nat.

Definition fresh : Aggregate nat unit := mkAggregate (root_new (lit "c-1") AGGREGATE_TYPE) default_state.

(** One client creates a counter and adds three events; snapshots are taken
    every two. *)
Definition edited : Aggregate nat unit := added 7 (added 5 (added 1 fresh)).

Lemma edited_reachable :
  clients_reach (St := nat) id [] 2 ((MemoryStore.new, ∅), <[0%nat := edited]> ∅).
Proof.
  assert (Raise : forall n b, root_version (root b) < 2 ^ 63 - 1 ->
    clients_reach (St := nat) id [] 2 ((MemoryStore.new, ∅), <[0%nat := b]> ∅) ->
    clients_reach (St := nat) id [] 2 ((MemoryStore.new, ∅), <[0%nat := added n b]> ∅)).
  { intros n b B R.
    replace (<[0%nat := added n b]> ∅) with (<[0%nat := added n b]> (<[0%nat := b]> (∅ : gmap nat (Aggregate nat unit))))
      by apply insert_insert_eq.
    eapply reach_step; [exact R|].
    apply step_raise; [by rewrite lookup_insert_eq|done|]. simpl. by rewrite repeat_length. }
  apply Raise; [done|]. apply Raise; [done|]. apply Raise; [done|].
  eapply reach_step; [apply reach_start|]. apply step_create.
Qed.

Lemma save_then_load_witness :
  exists a' w' b, repo_save (repository [] 2) edited (MemoryStore.new, ∅) = Some ((Ok tt, a'), w') /\
    repo_load (St := nat) id (repository [] 2) (lit "c-1") w' = Some (Ok (Some b), w') /\
    state b = 13%nat /\ root_version (root b) = 3.
Proof.
  destruct (save_then_load (St := nat) id [] no_upcasters 2 (MemoryStore.new, ∅) (<[0%nat := edited]> ∅) 0 edited)
    as (a' & w' & b & Sv & _ & Ld & St & Ve); [exact edited_reachable|apply lookup_insert_eq|done|reflexivity|].
  exists a', w', b. split; [exact Sv|]. split; [exact Ld|]. split; [exact St|exact Ve].
Defined.

Lemma clients_see_history_witness :
  let w : World := (MemoryStore.new, ∅) in
  repo_load (St := nat) id (repository [] 2) (lit "c-9") w = Some (Ok None, w) /\
  exists w', repo_save (repository [] 2) edited w = Some ((Ok tt, drained edited), w').
Proof.
  intros w. destruct (clients_see_history (St := nat) id [] no_upcasters 2 w (<[0%nat := edited]> ∅) edited_reachable)
    as (Ld & _ & Cl).
  destruct (Ld (lit "c-9")) as (st & _ & L). split; [exact L|].
  destruct (Cl 0%nat edited (lookup_insert_eq _ _ _)) as (n & Le & _ & Sv). simpl in Le.
  assert (n = 0)%nat as -> by (vm_compute in Le; lia).
  destruct (Sv ltac:(done)) as (w' & S & _). by exists w'.
Defined.

(** Two clients load the same counter; the second to save is refused, tries
    again, and goes on. *)
Lemma refused_save_drops_events_witness :
  exists w a', repo_save (repository [] 100) (added 4 fresh) (MemoryStore.new, ∅) = Some ((Ok tt, drained (added 4 fresh)), w) /\
    repo_save (repository [] 100) (added 9 fresh) w = Some ((Err Concurrency, a'), w) /\
    repo_save (repository [] 100) a' w = Some ((Ok tt, a'), w) /\
    exists b' w', repo_save (repository [] 100) (added 1 a') w = Some ((Ok tt, b'), w') /\
      state b' = 10%nat /\
      match repo_load (St := nat) id (repository [] 100) (lit "c-1") w' with
      | Some (Ok (Some b), _) => state b = 5%nat
      | _ => False
      end.
Proof.
  eexists. exists (drained (added 9 fresh)). split; [vm_compute; reflexivity|].
  match goal with |- repo_save _ _ ?w = _ /\ _ =>
    destruct (refused_save_drops_events [] 100 w (added 9 fresh)) as (a' & S1 & _ & _ & S2 & _);
      [done|vm_compute; done|vm_compute; done|vm_compute; done|]
  end.
  assert (E : a' = drained (added 9 fresh)) by (vm_compute in S1; injection S1 as <-; reflexivity).
  rewrite E in S1, S2. split; [exact S1|]. split; [exact S2|].
  eexists. eexists. split; [vm_compute; reflexivity|]. split; vm_compute; reflexivity.
Defined.

(** The trait's default snapshot hooks do not satisfy the laws: with them a
    snapshot forgets the state it stands for. *)
Example default_hooks_lose_state :
  exists st, forall p, default_snapshot_payload (St := nat) st = Ok p ->
    default_restore_snapshot p 0%nat <> Ok st.
Proof. exists 1%nat. by intros p [= <-]. Qed.
