(* ===== verification/Outbox.v ===== *)
(** The transactional outbox of [crates/eventsourcing/src/outbox.rs].

    The records are shared between the enqueuers and one relay task; each
    access holds a mutex, so the relay's loop is a step relation: a scan takes
    the pending records, then each of them is published in turn while other
    tasks may enqueue. A record's handle is its index. The sink answers as it
    likes; what it was asked to publish, and its answers, are the log. *)
From Stdlib Require Import Ascii String.
From Stdlib Require Import ZArith NArith List Lia Sorting.Sorted.
From stdpp Require Import base decidable list.
From S2P Require Import Prelude Str EventStore.

Section Outbox.
Context {V : Type}.

Record RecordState : Type := mkRecord {
  record_id : str;
  record_event : DomainEvent V;
  attempts : Z;
  delivered : bool;
  last_error : option str
}.

Variable max_attempts : Z.

(** [enqueue], with the UUID it draws. *)
Definition enqueue (uuid : str) (event : DomainEvent V) (records : list RecordState) : list RecordState :=
  records ++ [mkRecord uuid event 0 false None].

Definition is_pending (s : RecordState) : bool := negb (delivered s) && (attempts s <? max_attempts).
Definition is_dead_letter (s : RecordState) : bool := negb (delivered s) && (max_attempts <=? attempts s).

(** [snapshot], the handles of the records a predicate accepts. *)
Definition snapshot (predicate : RecordState -> bool) (records : list RecordState) : list nat :=
  map fst (List.filter (fun p => predicate (snd p)) (combine (seq 0 (List.length records)) records)).

Definition pending_records (records : list RecordState) : list nat := snapshot is_pending records.
Definition dead_letters (records : list RecordState) : list nat := snapshot is_dead_letter records.

(** What the relay does to a record after the sink's answer. *)
Definition settle (answer : Result unit str) (s : RecordState) : RecordState :=
  match answer with
  | Ok _ => mkRecord (record_id s) (record_event s) (attempts s) true (last_error s)
  | Err err => mkRecord (record_id s) (record_event s) (u32 (attempts s + 1)) (delivered s) (Some err)
  end.

(** Where the relay task is: waiting for its next tick, or with the records of
    its last scan still to publish. *)
Inductive relay : Type :=
| Waiting
| Publishing (pending : list nat).

Record system : Type := mkSystem {
  records : list RecordState;
  task : relay;
  log : list (nat * DomainEvent V * Result unit str)
}.

Definition start : system := mkSystem [] Waiting [].

Inductive relay_step : system -> system -> Prop :=
| step_enqueue s uuid event :
    relay_step s (mkSystem (enqueue uuid event (records s)) (task s) (log s))
| step_scan rs l : relay_step (mkSystem rs Waiting l) (mkSystem rs (Publishing (pending_records rs)) l)
| step_publish rs i r rest l answer : rs !! i = Some r ->
    relay_step (mkSystem rs (Publishing (i :: rest)) l)
               (mkSystem (alter (settle answer) i rs) (Publishing rest) (l ++ [(i, record_event r, answer)]))
| step_tick rs l : relay_step (mkSystem rs (Publishing []) l) (mkSystem rs Waiting l).

Inductive outbox_reaches : system -> Prop :=
| reaches_start : outbox_reaches start
| reaches_step s s' : outbox_reaches s -> relay_step s s' -> outbox_reaches s'.

(** The log's entries of a record. *)
Definition answers (i : nat) (l : list (nat * DomainEvent V * Result unit str)) : list (Result unit str) :=
  map snd (List.filter (fun p => (fst (fst p) =? i)%nat) l).

Hypothesis max_u32 : 0 <= max_attempts < 2 ^ 32.

(** What was sent for a record: failed attempts, counted, then the delivery. *)
Definition record_ok (l : list (nat * DomainEvent V * Result unit str)) (i : nat) (r : RecordState) : Prop :=
  (exists fs, answers i l = fs ++ (if delivered r then [Ok tt] else []) /\
     Forall (fun a => is_ok a = false) fs /\ attempts r = Z.of_nat (List.length fs) /\ attempts r <= max_attempts) /\
  Forall (fun p => fst (fst p) = i -> snd (fst p) = record_event r) l.

Record outbox_ok (s : system) : Prop := {
  ok_records : forall i r, records s !! i = Some r -> record_ok (log s) i r;
  ok_log : Forall (fun p => (fst (fst p) < List.length (records s))%nat) (log s);
  ok_pending : match task s with
               | Waiting => True
               | Publishing p => StronglySorted lt p /\
                   Forall (fun i => exists r, records s !! i = Some r /\ is_pending r = true) p
               end
}.

Lemma in_snapshot predicate rs i :
  List.In i (snapshot predicate rs) <-> exists r, rs !! i = Some r /\ predicate r = true.
Proof.
  unfold snapshot. rewrite in_map_iff.
  assert (G : forall k, List.In (i, k) (combine (seq 0 (List.length rs)) rs) <-> rs !! i = Some k).
  { intros k.
    assert (H : forall n j, List.In (j, k) (combine (seq n (List.length rs)) rs) <-> (n <= j)%nat /\ rs !! (j - n)%nat = Some k).
    { induction rs as [|r rs IH]; intros n j; simpl; [split; [done|intros [_ ?]; by rewrite lookup_nil in *]|].
      rewrite IH. split.
      - intros [[= -> ->]|[L E]]; [by rewrite Nat.sub_diag|]. split; [lia|].
        by replace (j - n)%nat with (S (j - S n)) by lia.
      - intros [L E]. destruct (decide (n = j)) as [->|Ne].
        + rewrite Nat.sub_diag in E. injection E as ->. by left.
        + right. split; [lia|]. by replace (j - n)%nat with (S (j - S n)) in E by lia. }
    specialize (H 0%nat i). rewrite Nat.sub_0_r in H. rewrite H. split; [by intros [_ ?]|by split; [lia|]]. }
  split.
  - intros ([j r] & <- & I). apply filter_In in I as [I P]. exists r. split; [by apply G|done].
  - intros (r & L & P). exists (i, r). split; [done|]. apply filter_In. split; [by apply G|done].
Qed.

Lemma snapshot_sorted predicate rs : StronglySorted lt (snapshot predicate rs).
Proof.
  unfold snapshot. generalize 0%nat as n. induction rs as [|r rs IH]; intros n; simpl; [constructor|].
  assert (F : forall m, (n < m)%nat -> Forall (lt n)
    (map fst (List.filter (fun p => predicate (snd p)) (combine (seq m (List.length rs)) rs)))).
  { clear. intros m L. apply List.Forall_forall. intros x I. apply in_map_iff in I as ([y r] & <- & I).
    apply filter_In in I as [I _]. apply in_combine_l in I. apply in_seq in I. simpl. lia. }
  destruct (predicate r); simpl; [|apply IH]. constructor; [apply IH|]. apply F. lia.
Qed.

Lemma answers_app i l1 l2 : answers i (l1 ++ l2) = answers i l1 ++ answers i l2.
Proof. unfold answers. by rewrite List.filter_app, map_app. Qed.

Lemma answers_one i j e a : answers i [(j, e, a)] = if (j =? i)%nat then [a] else [].
Proof. unfold answers. simpl. by destruct (j =? i)%nat. Qed.

Lemma answers_fresh i l : Forall (fun p => (fst (fst p) < i)%nat) l -> answers i l = [].
Proof.
  induction 1 as [|p l B F IH]; [done|]. unfold answers in *. simpl.
  by rewrite (proj2 (Nat.eqb_neq _ _)) by lia.
Qed.

(** The sink's answer keeps the account of the record it is about, and of no other. *)
Lemma settle_ok l i r answer : record_ok l i r -> is_pending r = true ->
  record_ok (l ++ [(i, record_event r, answer)]) i (settle answer r).
Proof.
  intros [(fs & A & Fs & At & Le) Ev] P. unfold is_pending in P. apply andb_true_iff in P as [D L].
  apply negb_true_iff in D. apply Z.ltb_lt in L. rewrite D, app_nil_r in A. split.
  - rewrite answers_app, answers_one, Nat.eqb_refl, A. destruct answer as [[]|err]; simpl.
    + exists fs. done.
    + exists (fs ++ [Err err]). rewrite D, app_nil_r, length_app. unfold u32. rewrite Z.mod_small by lia.
      simpl. split; [done|]. split; [|lia]. apply Forall_app. by split; [|constructor].
  - apply Forall_app. split; [by destruct answer|]. constructor; [|done]. by destruct answer.
Qed.

Lemma settle_other l i j r e answer : i <> j -> record_ok l i r -> record_ok (l ++ [(j, e, answer)]) i r.
Proof.
  intros Ne [(fs & A & H) Ev]. split.
  - exists fs. rewrite answers_app, answers_one, (proj2 (Nat.eqb_neq _ _)), app_nil_r by done. done.
  - apply Forall_app. split; [done|]. constructor; [|done]. simpl. by intros ->.
Qed.

Lemma outbox_step_ok s s' : outbox_ok s -> relay_step s s' -> outbox_ok s'.
Proof.
  intros [R L P] St. destruct St as [s uuid event|rs l|rs i r rest l answer E|rs l]; simpl in *.
  - split; simpl.
    + intros i r E. unfold enqueue in E. apply lookup_app_Some in E as [E|[Le E]]; [by apply R|].
      apply list_lookup_singleton_Some in E as [E <-].
      assert (F : Forall (fun p => (fst (fst p) < i)%nat) (log s)).
      { eapply List.Forall_impl; [|exact L]. simpl. intros. lia. }
      split.
      * exists []. rewrite answers_fresh by done. simpl. repeat split; try done. lia.
      * eapply List.Forall_impl; [|exact F]. simpl. intros p B Eq. lia.
    + eapply List.Forall_impl; [|exact L]. simpl. intros p B. unfold enqueue. rewrite length_app. lia.
    + destruct (task s) as [|p]; [done|]. destruct P as [S F]. split; [done|].
      eapply List.Forall_impl; [|exact F]. simpl. intros i (r & E & Pd). exists r. split; [|done].
      by apply lookup_app_l_Some.
  - split; simpl; [done|done|]. split; [apply snapshot_sorted|]. apply List.Forall_forall. intros i I. by apply in_snapshot.
  - destruct P as [S F]. inversion F as [|? ? (r' & E' & Pd) F']; subst. rewrite E in E'. injection E' as <-.
    inversion S as [|? ? S' Lt]; subst. split; simpl.
    + intros j r' E'. destruct (decide (i = j)) as [<-|Ne].
      * rewrite list_lookup_alter_eq, E in E'. injection E' as <-. by apply settle_ok; [apply R|].
      * rewrite list_lookup_alter_ne in E' by done. by apply settle_other; [|apply R].
    + rewrite length_alter. apply Forall_app. split; [done|]. constructor; [|done]. simpl. by apply lookup_lt_Some in E.
    + split; [done|]. rewrite List.Forall_forall in *. intros j I. destruct (F' j I) as (r' & E' & Pd').
      exists r'. split; [|done]. rewrite list_lookup_alter_ne; [done|]. specialize (Lt j I). lia.
  - split; simpl; done.
Qed.
End Outbox.

(** At-least-once delivery, bounded: whatever the sink answers and whenever
    events are enqueued, what was sent for a record is a run of failures - as
    many as its counter says and never more than [max_attempts] - followed by
    its one delivery if it is marked delivered, and it was always the record's
    own event; a record that is neither delivered nor out of attempts is in
    the relay's next scan; the dead letters are exactly the undelivered
    records whose [max_attempts] sends all failed; and a scan is published in
    the order of enqueuing, every record of it still pending when its turn
    comes. *)
Theorem outbox_delivers {V} max_attempts (s : system (V := V)) : 0 <= max_attempts < 2 ^ 32 ->
  outbox_reaches max_attempts s ->
  (forall i r, records s !! i = Some r ->
    exists fs, answers i (log s) = fs ++ (if delivered r then [Ok tt] else []) /\
      Forall (fun a => is_ok a = false) fs /\
      attempts r = Z.of_nat (List.length fs) /\ attempts r <= max_attempts /\
      (forall p, List.In p (log s) -> fst (fst p) = i -> snd (fst p) = record_event r) /\
      (delivered r = false -> attempts r < max_attempts -> List.In i (pending_records max_attempts (records s))) /\
      (List.In i (dead_letters max_attempts (records s)) <->
         delivered r = false /\ Z.of_nat (List.length fs) = max_attempts)) /\
  match task s with
  | Waiting => True
  | Publishing p => StronglySorted lt p /\
      Forall (fun i => exists r, records s !! i = Some r /\ is_pending max_attempts r = true) p
  end.
Proof.
  intros B R. assert (O : outbox_ok max_attempts s).
  { induction R as [|s s' R IH St]; [|by eapply outbox_step_ok]. split; simpl; [by intros i r E; rewrite lookup_nil in E|done|done]. }
  destruct O as [Rs L P]. split; [|exact P]. intros i r E. destruct (Rs i r E) as [(fs & A & F & At & Le) Ev].
  exists fs. do 4 (split; [done|]). split; [|split].
  - intros p I. by rewrite List.Forall_forall in Ev; apply Ev.
  - intros D Lt. apply in_snapshot. exists r. split; [done|]. unfold is_pending. rewrite D. simpl. by apply Z.ltb_lt.
  - unfold dead_letters. rewrite in_snapshot, E. unfold is_dead_letter. split.
    + intros (r' & [= <-] & X). apply andb_true_iff in X as [D X]. apply negb_true_iff in D. apply Z.leb_le in X. split; [done|lia].
    + intros [D X]. exists r. split; [done|]. rewrite D. simpl. apply Z.leb_le. lia.
Qed.

(** One failure, one enqueue while the sink is busy, then the delivery. *)
Lemma outbox_delivers_witness :
  let e := sample_event (lit "o-1") 1 None in
  let r := mkRecord (lit "u1") e 1 true (Some (lit "down")) in
  let r2 := mkRecord (lit "u2") e 0 false None in
  let s := mkSystem [r; r2] (Publishing [1%nat]) [(0%nat, e, Err (lit "down")); (0%nat, e, Ok tt)] in
  outbox_reaches 5 s /\ answers 0 (log s) = [Err (lit "down"); Ok tt] /\ List.In 1%nat (pending_records 5 (records s)).
Proof.
  intros e r r2 s.
  assert (R : outbox_reaches 5 s).
  { eapply reaches_step; [|apply (step_publish 5 [mkRecord (lit "u1") e 1 false (Some (lit "down")); r2] 0
      (mkRecord (lit "u1") e 1 false (Some (lit "down"))) [1%nat] [(0%nat, e, Err (lit "down"))] (Ok tt)); done].
    eapply reaches_step; [|apply (step_scan 5 [mkRecord (lit "u1") e 1 false (Some (lit "down")); r2])].
    eapply reaches_step; [|apply step_tick].
    eapply reaches_step; [|apply (step_publish 5 [mkRecord (lit "u1") e 0 false None; r2] 0
      (mkRecord (lit "u1") e 0 false None) [] [] (Err (lit "down"))); done].
    eapply reaches_step; [|apply (step_enqueue 5 (mkSystem [mkRecord (lit "u1") e 0 false None] (Publishing [0%nat]) []) (lit "u2") e)].
    eapply reaches_step; [|apply (step_scan 5 [mkRecord (lit "u1") e 0 false None])].
    eapply reaches_step; [apply reaches_start|]. apply (step_enqueue 5 start (lit "u1") e). }
  destruct (outbox_delivers 5 s ltac:(lia) R) as [A _].
  destruct (A 1%nat r2 eq_refl) as (fs & _ & _ & _ & _ & _ & P & _).
  split; [exact R|]. split; [reflexivity|]. apply P; [reflexivity|reflexivity].
Defined.
