(* ===== verification/Validators.v ===== *)
(** The input validators of [crates/validators/src/]: [lib.rs] and the
    violation set of [bean.rs].

    Every validator is a function from the text to [Result]. Not under
    [crates/] and so parameters: Unicode's upper-casing table and the
    [regex] crate (class [TextTables], with what the proofs use of them in
    [TextLaws]) and chrono's parsers (class [Dates]). *)
From Stdlib Require Import Ascii String.
From Stdlib Require Import ZArith NArith List Lia Floats.SpecFloat.
From stdpp Require Import base decidable list.
From S2P Require Import Prelude Str Unicode Order.

Inductive ValidationError : Type := Invalid (reason : str).

Definition reason (e : ValidationError) : str := let '(Invalid r) := e in r.
Definition invalid {T} (r : str) : Result T ValidationError := Err (Invalid r).

Class TextTables : Type := {
  (** [char::to_uppercase]. *)
  upper_casing :: Uppercase;
  (** [Regex::new(pattern)] matches somewhere in the text. *)
  is_match : str -> str -> bool
}.

Class TextLaws `{TextTables} : Prop := {
  upper_ascii : forall c, (c < 128)%N -> to_upper c = [ascii_upper c];
  (** [^[A-Z0-9]+$]: one or more of these characters and nothing else. *)
  iban_char_re : forall s,
    is_match (lit "^[A-Z0-9]+$") s = match s with [] => false | _ => forallb upper_alnum s end
}.

(** [s.replace(cs, "")]. *)
Definition remove (cs : list char) (s : str) : str :=
  List.filter (fun c => negb (existsb (N.eqb c) cs)) s.

(** [n.contains(len)] of an inclusive range. *)
Definition within (lo hi n : nat) : bool := (lo <=? n)%nat && (n <=? hi)%nat.

Definition IBAN_COUNTRY_LENGTHS : list (str * nat) :=
  map (fun p => (lit (fst p), snd p))
    [("AD", 24); ("AE", 23); ("AL", 28); ("AT", 20); ("AZ", 28); ("BA", 20); ("BE", 16); ("BG", 22);
     ("BH", 22); ("BR", 29); ("CH", 21); ("CR", 22); ("CY", 28); ("CZ", 24); ("DE", 22); ("DK", 18);
     ("DO", 28); ("EE", 20); ("ES", 24); ("FI", 18); ("FO", 18); ("FR", 27); ("GB", 22); ("GE", 22);
     ("GI", 23); ("GL", 18); ("GR", 27); ("GT", 28); ("HR", 21); ("HU", 28); ("IE", 22); ("IL", 23);
     ("IS", 26); ("IT", 27); ("JO", 30); ("KW", 30); ("KZ", 20); ("LB", 28); ("LC", 32); ("LI", 21);
     ("LT", 20); ("LU", 20); ("LV", 21); ("MC", 27); ("MD", 24); ("ME", 22); ("MK", 19); ("MR", 27);
     ("MT", 31); ("MU", 30); ("NL", 18); ("NO", 15); ("PK", 24); ("PL", 28); ("PS", 29); ("PT", 25);
     ("QA", 29); ("RO", 24); ("RS", 22); ("SA", 24); ("SC", 31); ("SE", 24); ("SI", 19); ("SK", 24);
     ("SM", 27); ("ST", 25); ("SV", 28); ("TL", 23); ("TN", 24); ("TR", 26); ("UA", 29); ("VA", 22);
     ("VG", 24); ("XK", 20)]%string%nat.

(** The halving search of [slice::binary_search_by], over [n] elements from
    [lo]; half of them are gone after each probe. *)
Fixpoint search (fuel lo n : nat) (country : str) : option nat :=
  match fuel with
  | O => None
  | S f =>
      if (n =? 0)%nat then None
      else
        let mid := (lo + n / 2)%nat in
        match IBAN_COUNTRY_LENGTHS !! mid with
        | None => None
        | Some (code, _) =>
            match str_compare code country with
            | Eq => Some mid
            | Lt => search f (mid + 1) (n - n / 2 - 1) country
            | Gt => search f lo (n / 2) country
            end
        end
  end.

Definition iban_country_length (country : str) : option nat :=
  i ← search (S (List.length IBAN_COUNTRY_LENGTHS)) 0 (List.length IBAN_COUNTRY_LENGTHS) country;
  snd <$> IBAN_COUNTRY_LENGTHS !! i.

Section Text.
Context `{TextTables}.


(** The streaming pass: the remainder so far, [None] at a character outside
    the alphabet. *)
Fixpoint mod97 (bytes : list N) (rem : Z) : option Z :=
  match bytes with
  | [] => Some rem
  | b :: bytes' =>
      if is_digit b then mod97 bytes' (u32 (rem * 10 + (Z.of_N b - 48)) mod 97)
      else if is_upper b then mod97 bytes' (u32 (rem * 100 + (Z.of_N b - 65) + 10) mod 97)
      else None
  end.

Definition validate_iban (s : str) : Result unit ValidationError :=
  let input := to_uppercase (remove [32%N] s) in
  if (len input <? 4)%nat then invalid (lit "iban: too short")
  else if negb (is_match (lit "^[A-Z0-9]+$") input) then invalid (lit "iban: alphabet")
  else
    let country := take 2 (as_bytes input) in
    match iban_country_length country with
    | None => invalid (lit "iban: unknown country " ++ country)
    | Some want =>
        if negb (len input =? want)%nat then
          invalid (lit "iban: length " ++ show (Z.of_nat (len input)) ++ lit ", want " ++
                   show (Z.of_nat want) ++ lit " for " ++ country)
        else
          match mod97 (drop 4 (as_bytes input) ++ take 4 (as_bytes input)) 0 with
          | None => invalid (lit "iban: alphabet")
          | Some rem => if negb (rem =? 1) then invalid (lit "iban: mod-97 mismatch") else Ok tt
          end
    end.

Definition validate_bic (s : str) : Result unit ValidationError :=
  let input := to_uppercase (remove [32%N] s) in
  if negb (is_match (lit "^[A-Z]{4}[A-Z]{2}[A-Z0-9]{2}([A-Z0-9]{3})?$") input)
  then invalid (lit "bic: format") else Ok tt.

(** The loop of [validate_luhn] over the bytes from the last to the first. *)
Fixpoint luhn_sum (bytes : list N) (sum : Z) (double : bool) : option Z :=
  match bytes with
  | [] => Some sum
  | c :: bytes' =>
      if negb (is_digit c) then None
      else
        let d := Z.of_N c - 48 in
        let d := if double then (if 9 <? d * 2 then d * 2 - 9 else d * 2) else d in
        luhn_sum bytes' (u32 (sum + d)) (negb double)
  end.

Definition validate_luhn (s : str) : Result unit ValidationError :=
  let clean := remove [32%N; 45%N] s in
  if (len clean <? 2)%nat then invalid (lit "luhn: too short")
  else
    match luhn_sum (rev (as_bytes clean)) 0 false with
    | None => invalid (lit "luhn: non-digit")
    | Some sum => if negb (sum mod 10 =? 0) then invalid (lit "luhn: checksum") else Ok tt
    end.

Definition validate_credit_card (s : str) : Result unit ValidationError :=
  let clean := remove [32%N; 45%N] s in
  if negb (within 12 19 (len clean)) then invalid (lit "credit-card: length") else validate_luhn clean.

Definition validate_phone_e164 (s : str) : Result unit ValidationError :=
  if negb (is_match (lit "^\+[1-9][0-9]{6,14}$") s) then invalid (lit "phone: not E.164") else Ok tt.

Definition validate_currency (s : str) : Result unit ValidationError :=
  if negb (is_match (lit "^[A-Z]{3}$") s) then invalid (lit "currency: format") else Ok tt.

(** ** Email *)

(** The rest of the text after the closing quote. *)
Fixpoint quoted_string_end (escaped : bool) (s : str) : option str :=
  match s with
  | [] => None
  | c :: s' =>
      if escaped then quoted_string_end false s'
      else if (c =? 92)%N then quoted_string_end true s'
      else if (c =? 34)%N then Some s'
      else quoted_string_end false s'
  end.

Definition is_atext (c : char) : bool :=
  is_ascii_alphanumeric c || contains c (lit "!#$%&'*+-/=?^_`{|}~") || (128 <=? c)%N.

Definition is_dot_atom (s : str) : bool :=
  match s with
  | [] => false
  | _ => forallb (fun label => match label with [] => false | _ => forallb is_atext label end) (split 46%N s)
  end.

(** [char::is_control]: category Cc. *)
Definition is_control (c : char) : bool := (c <? 32)%N || ((127 <=? c)%N && (c <? 160)%N).

Definition validate_email_domain (domain : str) : Result unit str :=
  match strip_prefix [91%N] domain with
  | Some rest =>
      match strip_suffix [93%N] rest with
      | None => Err (lit "malformed domain literal")
      | Some inner =>
          if match inner with [] => true | _ => false end ||
             existsb (fun c => (c =? 91)%N || (c =? 93)%N || (c =? 92)%N || is_control c) inner
          then Err (lit "malformed domain literal") else Ok tt
      end
  | None => if negb (is_dot_atom domain) then Err (lit "malformed domain") else Ok tt
  end.

Definition parse_addr_spec (addr : str) : Result unit str :=
  domain <-? match strip_prefix [34%N] addr with
             | Some rest =>
                 rest <-? ok_or (quoted_string_end false rest) (lit "unterminated quoted string in local part");
                 ok_or (strip_prefix [64%N] rest) (lit "missing '@' after quoted local part")
             | None =>
                 p <-? ok_or (rsplit_once 64%N addr) (lit "missing '@' or angle-addr");
                 if negb (is_dot_atom (fst p)) then Err (lit "malformed local part") else Ok (snd p)
             end;
  validate_email_domain domain.

Definition validate_email (s : str) : Result unit ValidationError :=
  match trim s with
  | [] => invalid (lit "email: empty address")
  | trimmed =>
      addr <-? match strip_suffix [62%N] trimmed with
               | Some stripped =>
                   match rsplit_once 60%N stripped with
                   | Some (_, addr) => Ok addr
                   | None => invalid (lit "email: unmatched angle bracket")
                   end
               | None => Ok trimmed
               end;
      match parse_addr_spec addr with
      | Ok _ => Ok tt
      | Err r => invalid (lit "email: " ++ r)
      end
  end.

(** ** Passwords *)

Record PasswordPolicy : Type := mkPolicy {
  min_length : nat;
  require_upper : bool;
  require_lower : bool;
  require_digit : bool;
  require_symbol : bool
}.

Definition PasswordPolicy_default : PasswordPolicy := mkPolicy 12 true true true true.

Definition validate_password (s : str) (p : PasswordPolicy) : Result unit ValidationError :=
  if (len s <? min_length p)%nat then
    invalid (lit "password: length < " ++ show (Z.of_nat (min_length p)))
  else if require_upper p && negb (is_match (lit "\p{Lu}") s) then invalid (lit "password: needs upper-case")
  else if require_lower p && negb (is_match (lit "\p{Ll}") s) then invalid (lit "password: needs lower-case")
  else if require_digit p && negb (is_match (lit "\p{Nd}") s) then invalid (lit "password: needs digit")
  else if require_symbol p && negb (is_match (lit "[\p{P}\p{S}]") s) then invalid (lit "password: needs symbol")
  else Ok tt.

(** ** Identifiers *)

Definition validate_sort_code (s : str) : Result unit ValidationError :=
  if negb (is_match (lit "^[0-9]{2}-?[0-9]{2}-?[0-9]{2}$") (trim s))
  then invalid (lit "sort-code: format") else Ok tt.

Definition validate_vat (s : str) : Result unit ValidationError :=
  let input := to_uppercase (remove [32%N] s) in
  if negb (is_match (lit "^[A-Z]{2}[A-Z0-9]{2,12}$") input) then invalid (lit "vat: format") else Ok tt.

Definition DNI_LETTERS : list N := lit "TRWAGMYFPDXBNJZSQVHLCKE".

(** The digits' loop of [spanish_check]. *)
Fixpoint dni_number (digits : list N) (n : Z) : option Z :=
  match digits with
  | [] => Some n
  | d :: digits' =>
      if negb (is_digit d) then None else dni_number digits' (u32 (u32 (n * 10) + (Z.of_N d - 48)))
  end.

(** The digit a foreigner's prefix letter stands for. *)
Definition nie_prefix (c : N) : option N :=
  if (c =? 88)%N then Some 48%N else if (c =? 89)%N then Some 49%N
  else if (c =? 90)%N then Some 50%N else None.

(** The letter check, on nine bytes. *)
Definition dni_checksum (input : list N) : Result unit ValidationError :=
  match input !! 8%nat, dni_number (take 8 input) 0 with
  | _, None => invalid (lit "dni: digits")
  | letter, Some n =>
      if negb (bool_decide (DNI_LETTERS !! Z.to_nat (n mod 23) = letter))
      then invalid (lit "dni: checksum") else Ok tt
  end.

Definition spanish_check (s : str) (nie : bool) : Result unit ValidationError :=
  let input := as_bytes (to_uppercase (remove [32%N] s)) in
  if nie then
    if negb (List.length input =? 9)%nat then invalid (lit "nie: length")
    else
      match input with
      | c :: rest =>
          match nie_prefix c with
          | Some d => dni_checksum (d :: rest)
          | None => invalid (lit "nie: prefix")
          end
      | [] => invalid (lit "nie: prefix")
      end
  else if negb (List.length input =? 9)%nat then invalid (lit "dni: length")
  else dni_checksum input.

Definition validate_dni (s : str) : Result unit ValidationError := spanish_check s false.
Definition validate_nie (s : str) : Result unit ValidationError := spanish_check s true.
Definition validate_nif (s : str) : Result unit ValidationError :=
  if is_ok (validate_dni s) then Ok tt else validate_nie s.

Definition validate_ssn (s : str) : Result unit ValidationError :=
  if negb (is_match (lit "^[0-9]{3}-?[0-9]{2}-?[0-9]{4}$") (trim s)) then invalid (lit "ssn: format") else Ok tt.

Definition validate_bsb (s : str) : Result unit ValidationError :=
  if negb (is_match (lit "^[0-9]{3}-?[0-9]{3}$") (trim s)) then invalid (lit "bsb: format") else Ok tt.

(** ** Banking predicates *)

Definition validate_cvv (s : str) : Result unit ValidationError :=
  if negb (within 3 4 (len s)) || negb (forallb is_digit (as_bytes s))
  then invalid (lit "invalid CVV") else Ok tt.

Definition validate_pin_with_length (s : str) (length : nat) : Result unit ValidationError :=
  if (match s with [] => true | _ => false end) || negb (len s =? length)%nat ||
     negb (forallb is_digit (as_bytes s))
  then invalid (lit "invalid pin") else Ok tt.

Definition validate_pin (s : str) : Result unit ValidationError := validate_pin_with_length s 4.

(** The integer part of a finite [f64], as [trunc().abs()] prints it. *)
Definition trunc_abs (x : f64) : Z :=
  match x with
  | S754_finite _ m e => if 0 <=? e then Z.pos m * 2 ^ e else Z.pos m / 2 ^ (- e)
  | _ => 0
  end.

Definition validate_amount_with (value : f64) (allow_zero : bool) (max_digits : nat)
  : Result unit ValidationError :=
  if negb (f64_is_finite value) || f64_lt value (f64_of_Z 0) ||
     (f64_eq value (f64_of_Z 0) && negb allow_zero)
  then invalid (lit "invalid amount")
  else
    let integer_part := show (trunc_abs value) in
    if (max_digits <? len integer_part)%nat then invalid (lit "invalid amount") else Ok tt.

Definition validate_amount (value : f64) : Result unit ValidationError :=
  validate_amount_with value false 18.

Definition validate_account_number (s : str) : Result unit ValidationError :=
  if negb (within 6 34 (len s)) || negb (forallb is_ascii_alphanumeric (as_bytes s))
  then invalid (lit "invalid account number") else Ok tt.

Definition validate_interest_rate_within (value min_pct max_pct : f64) : Result unit ValidationError :=
  if negb (f64_le min_pct value && f64_le value max_pct)
  then invalid (lit "interest rate out of range") else Ok tt.

Definition validate_interest_rate (value : f64) : Result unit ValidationError :=
  validate_interest_rate_within value (f64_of_Z 0) (f64_of_Z 100).

Definition validate_national_id (s : str) : Result unit ValidationError :=
  let normalised := to_uppercase (remove [32%N; 45%N] s) in
  if negb (within 5 20 (len normalised)) || (match normalised with [] => true | _ => false end) ||
     negb (forallb is_ascii_alphanumeric (as_bytes normalised))
  then invalid (lit "invalid national id") else Ok tt.

Definition validate_tax_id (s : str) : Result unit ValidationError :=
  if negb (is_match (lit "^[A-Z0-9]{3,20}$") (to_uppercase s)) then invalid (lit "invalid tax id") else Ok tt.
End Text.

(** ** Dates *)

(** [chrono]'s parsers: whether the whole text matches the format. *)
Class Dates : Type := {
  naive_date : str -> str -> bool;
  date_time : str -> str -> bool;
  naive_date_time : str -> str -> bool
}.

Section Dates.
Context `{Dates}.

Definition validate_date_with_format (s fmt : str) : Result unit ValidationError :=
  if negb (naive_date s fmt) then invalid (lit "invalid date") else Ok tt.

Definition validate_date (s : str) : Result unit ValidationError :=
  validate_date_with_format s (lit "%Y-%m-%d").

Definition DATETIME_OFFSET_FORMATS : list str :=
  [lit "%Y-%m-%dT%H:%M:%S%.f%:z"; lit "%Y-%m-%d %H:%M:%S%.f%:z";
   lit "%Y-%m-%dT%H:%M%:z"; lit "%Y-%m-%d %H:%M%:z"].
Definition DATETIME_NAIVE_FORMATS : list str :=
  [lit "%Y-%m-%dT%H:%M:%S%.f"; lit "%Y-%m-%d %H:%M:%S%.f"; lit "%Y-%m-%dT%H:%M"; lit "%Y-%m-%d %H:%M"].

Definition validate_datetime (s : str) : Result unit ValidationError :=
  let normalised := match strip_suffix [90%N] s with
                    | Some stripped => stripped ++ lit "+00:00"
                    | None => s
                    end in
  let ok := existsb (date_time normalised) DATETIME_OFFSET_FORMATS ||
            existsb (naive_date_time normalised) DATETIME_NAIVE_FORMATS ||
            naive_date normalised (lit "%Y-%m-%d") in
  if negb ok then invalid (lit "invalid datetime") else Ok tt.
End Dates.

(** * The violation set of a validated bean *)

Module Bean.
Record FieldError : Type := mkFieldError {
  field : str;
  code : str;
  message : str
}.

Definition to_string (e : FieldError) : str :=
  field e ++ lit ": " ++ message e ++ lit " (" ++ code e ++ lit ")".

Definition ValidationErrors : Type := list FieldError.
Definition new : ValidationErrors := [].
Definition push (error : FieldError) (es : ValidationErrors) : ValidationErrors := es ++ [error].
Definition is_empty (es : ValidationErrors) : bool := match es with [] => true | _ => false end.
Definition into_result (es : ValidationErrors) : Result unit ValidationErrors :=
  if is_empty es then Ok tt else Err es.
Definition errors_to_string (es : ValidationErrors) : str :=
  lit "validation failed: " ++ join (lit "; ") (map to_string es).
(** The detail of the problem the set is rendered as. *)
Definition problem_detail (es : ValidationErrors) : str :=
  match es with
  | [e] => to_string e
  | _ => show (Z.of_nat (List.length es)) ++ lit " fields failed validation"
  end.
End Bean.

(** * The country table *)

Lemma str_compare_eq a b : str_compare a b = Eq -> a = b.
Proof.
  revert b. induction a as [|x a IH]; intros [|y b]; simpl; try done.
  destruct (N.compare_spec x y) as [->| |]; simpl; try done. intros E. by rewrite (IH b E).
Qed.

Lemma search_found fuel lo n country i : search fuel lo n country = Some i ->
  exists want, IBAN_COUNTRY_LENGTHS !! i = Some (country, want).
Proof.
  revert lo n. induction fuel as [|fuel IH]; intros lo n; cbn [search]; [done|].
  destruct (n =? 0)%nat; [done|].
  destruct (IBAN_COUNTRY_LENGTHS !! (lo + n / 2)%nat) as [[code want]|] eqn:L; [|done].
  destruct (str_compare code country) eqn:C; [|by apply IH|by apply IH].
  intros [= <-]. apply str_compare_eq in C as <-. by exists want.
Qed.

(** The search finds exactly what the table holds. *)
Lemma iban_country_length_spec country want :
  iban_country_length country = Some want <-> List.In (country, want) IBAN_COUNTRY_LENGTHS.
Proof.
  split.
  - unfold iban_country_length. destruct (search _ _ _ _) as [i|] eqn:F; cbn [mbind option_bind]; [|done].
    destruct (search_found _ _ _ _ _ F) as [w L]. rewrite L. cbn [fmap option_fmap option_map snd].
    intros [= <-]. apply list_elem_of_In. by eapply list_elem_of_lookup_2.
  - intros I.
    assert (A : forallb (fun p => bool_decide (iban_country_length (fst p) = Some (snd p))) IBAN_COUNTRY_LENGTHS = true)
      by (vm_compute; reflexivity).
    rewrite forallb_forall in A. specialize (A _ I). by apply bool_decide_eq_true in A.
Qed.

(** * Numerals

    A text of digits and letters as a decimal number, a letter standing for
    the two digits of its place in the alphabet plus ten. *)

Definition base (b : N) : Z := if is_digit b then 10 else 100.
Definition value (b : N) : Z := if is_digit b then Z.of_N b - 48 else Z.of_N b - 65 + 10.
Definition numeral_from (n : Z) (l : list N) : Z := fold_left (fun n b => n * base b + value b) l n.
Definition numeral (l : list N) : Z := numeral_from 0 l.
Definition weight (l : list N) : Z := fold_right (fun b w => base b * w) 1 l.

Lemma numeral_from_app n a b : numeral_from n (a ++ b) = numeral_from (numeral_from n a) b.
Proof. apply fold_left_app. Qed.

Lemma numeral_from_weight n l : numeral_from n l = n * weight l + numeral l.
Proof.
  unfold numeral. revert n. induction l as [|b l IH]; intros n; simpl; [lia|].
  rewrite IH, (IH (0 * base b + value b)). lia.
Qed.

Lemma weight_power l : exists k, 0 <= k /\ weight l = 10 ^ k.
Proof.
  induction l as [|b l (k & K & E)]; [by exists 0|]. simpl. rewrite E. unfold base. destruct (is_digit b).
  - exists (1 + k). split; [lia|]. by rewrite Z.pow_add_r.
  - exists (2 + k). split; [lia|]. by rewrite Z.pow_add_r.
Qed.

Lemma numeral_mod l m n : 1 < m -> numeral_from n l mod m = numeral_from (n mod m) l mod m.
Proof.
  intros M. rewrite !(numeral_from_weight _ l).
  rewrite Z.add_mod, Z.mul_mod by lia. symmetry. rewrite Z.add_mod, Z.mul_mod by lia. by rewrite Z.mod_mod by lia.
Qed.

(** Ten is invertible modulo [m]: a place value cancels. *)
Lemma place_cancel m u k d : 1 < m -> (10 * u) mod m = 1 -> 0 <= k -> (10 ^ k * d) mod m = 0 -> d mod m = 0.
Proof.
  intros M U K. revert k K d.
  apply (natlike_ind (fun k => forall d, (10 ^ k * d) mod m = 0 -> d mod m = 0)).
  { intros d. by rewrite Z.pow_0_r, Z.mul_1_l. }
  intros k K IH d D. apply IH. rewrite Z.pow_succ_r in D by lia.
  apply Z.mod_divide in D as [q D]; [|lia]. apply Z.mod_divide; [lia|].
  exists (u * q - 10 * u / m * (10 ^ k * d)). pose proof (Z.div_mod (10 * u) m ltac:(lia)) as DM.
  rewrite U in DM. set (x := 10 ^ k * d) in *. set (w := 10 * u / m) in *.
  assert (10 * x = q * m) as Dx by (unfold x; lia).
  assert (u * (q * m) = x * (m * w + 1)) by (rewrite <- Dx, <- DM; lia). lia.
Qed.

(** Changing the middle of a numeral without changing its width changes its
    remainder, unless the middles themselves agree modulo [m]. *)
Lemma numeral_change m u a mid mid' b : 1 < m -> (10 * u) mod m = 1 -> weight mid = weight mid' ->
  numeral (a ++ mid ++ b) mod m = numeral (a ++ mid' ++ b) mod m ->
  (numeral mid - numeral mid') mod m = 0.
Proof.
  intros M U W E. unfold numeral in E. rewrite !numeral_from_app in E.
  rewrite !(numeral_from_weight (numeral_from _ _) b), !(numeral_from_weight (numeral_from 0 a)), <- W in E.
  destruct (weight_power b) as (k & K & Wb). rewrite Wb in E.
  apply (place_cancel m u k); [done|done|done|].
  apply Z.mod_divide; [lia|]. apply Z.mod_divide; [lia|].
  assert (X : 10 ^ k * (numeral mid - numeral mid') =
    (numeral_from 0 a * weight mid + numeral mid) * 10 ^ k + numeral b -
    ((numeral_from 0 a * weight mid + numeral mid') * 10 ^ k + numeral b)) by lia.
  rewrite X, Zminus_mod, E, Z.sub_diag. by apply Z.mod_0_l; lia.
Qed.

(** A slip of the pen: one character replaced by another of its kind, or two
    neighbours of one kind swapped. *)
Inductive slip : list N -> list N -> Prop :=
| slip_replace x y : is_digit x = is_digit y -> x <> y -> slip [x] [y]
| slip_swap x y : is_digit x = is_digit y -> x <> y -> slip [x; y] [y; x].

Lemma digit_range x : is_digit x = true -> (48 <= x <= 57)%N.
Proof. unfold is_digit. intros D. apply andb_true_iff in D as [A B]. apply N.leb_le in A, B. lia. Qed.

Lemma upper_range x : is_upper x = true -> (65 <= x <= 90)%N.
Proof. unfold is_upper. intros D. apply andb_true_iff in D as [A B]. apply N.leb_le in A, B. lia. Qed.

Lemma upper_alnum_cases x : upper_alnum x = true ->
  is_digit x = true /\ (48 <= x <= 57)%N \/ is_digit x = false /\ (65 <= x <= 90)%N.
Proof.
  unfold upper_alnum. intros U. destruct (is_digit x) eqn:D; [left; split; [done|by apply digit_range]|].
  right. split; [done|]. rewrite Bool.orb_false_r in U. by apply upper_range.
Qed.

Lemma slip_weight mid mid' : slip mid mid' -> weight mid = weight mid'.
Proof. destruct 1 as [x y K N|x y K N]; simpl; unfold base; rewrite K; by destruct (is_digit y). Qed.

(** No slip goes unnoticed modulo 97, nor, among digits, modulo 23. *)
Lemma slip_97 mid mid' : slip mid mid' ->
  Forall (fun c => upper_alnum c = true) mid -> Forall (fun c => upper_alnum c = true) mid' ->
  (numeral mid - numeral mid') mod 97 <> 0.
Proof.
  intros Sl F F' E. apply Z.mod_divide in E as [q E]; [|lia].
  destruct Sl as [x y K N|x y K N]; unfold numeral, numeral_from in E; cbn [fold_left] in E; unfold value, base in E;
    inversion F as [|? ? Ux Gx]; inversion F' as [|? ? Uy Gy]; subst;
    apply upper_alnum_cases in Ux as [[Dx Bx]|[Dx Bx]], Uy as [[Dy By]|[Dy By]]; try congruence;
    rewrite ?Dx, ?Dy in E; lia.
Qed.

Lemma slip_23 mid mid' : slip mid mid' ->
  Forall (fun c => is_digit c = true) mid -> Forall (fun c => is_digit c = true) mid' ->
  (numeral mid - numeral mid') mod 23 <> 0.
Proof.
  intros Sl F F' E. apply Z.mod_divide in E as [q E]; [|lia].
  destruct Sl as [x y K N|x y K N]; unfold numeral, numeral_from in E; cbn [fold_left] in E; unfold value, base in E;
    inversion F as [|? ? Ux Gx]; inversion F' as [|? ? Uy Gy]; subst;
    rewrite ?Ux, ?Uy in E; apply digit_range in Ux, Uy; lia.
Qed.

Lemma slip_length mid mid' : slip mid mid' -> List.length mid = List.length mid'.
Proof. by destruct 1. Qed.

(** * Bytes of ASCII texts *)

Lemma upper_alnum_ascii s : Forall (fun c => upper_alnum c = true) s -> as_bytes s = s.
Proof.
  intros F. apply as_bytes_ascii. eapply Forall_impl; [exact F|]. intros c U.
  apply upper_alnum_cases in U as [[_ B]|[_ B]]; lia.
Qed.

Lemma digits_ascii s : Forall (fun c => is_digit c = true) s -> as_bytes s = s.
Proof. intros F. apply as_bytes_ascii. eapply Forall_impl; [exact F|]. intros c U%digit_range. lia. Qed.

Lemma upper_not_digit x : is_upper x = true -> is_digit x = false.
Proof. intros U%upper_range. destruct (is_digit x) eqn:D; [|done]. apply digit_range in D. lia. Qed.

Lemma u32_id z : 0 <= z < 2 ^ 32 -> u32 z = z.
Proof. intros B. by apply Z.mod_small. Qed.

(** * The IBAN remainder *)

(** The streaming pass is the remainder of the whole number. *)
Lemma mod97_numeral bytes rem : Forall (fun c => upper_alnum c = true) bytes -> 0 <= rem < 97 ->
  mod97 bytes rem = Some (numeral_from rem bytes mod 97).
Proof.
  intros F. revert rem. induction F as [|b bytes U _ IH]; intros rem R; cbn [mod97].
  { unfold numeral_from. simpl. by rewrite Z.mod_small. }
  change (numeral_from rem (b :: bytes)) with (numeral_from (rem * base b + value b) bytes).
  rewrite (numeral_mod _ 97) by lia. unfold base, value.
  apply upper_alnum_cases in U as [[D B]|[D B]]; rewrite D.
  - rewrite IH by (apply Z.mod_pos_bound; lia). by rewrite u32_id by lia.
  - assert (is_upper b = true) as ->
      by (unfold is_upper; apply andb_true_iff; split; apply N.leb_le; lia).
    rewrite IH by (apply Z.mod_pos_bound; lia). rewrite u32_id by lia. by rewrite Z.add_assoc.
Qed.

Lemma rotated_alphabet (P : N -> Prop) input : Forall P input -> Forall P (drop 4 input ++ take 4 input).
Proof. intros F. apply Forall_app. split; [by apply Forall_drop|by apply Forall_take]. Qed.

Definition alphabet_ok (input : list N) : Prop :=
  input <> [] /\ Forall (fun c => upper_alnum c = true) input.

Section IbanLaws.
Context `{TextTables} {LAWS : TextLaws}.

Lemma iban_alphabet input :
  is_match (lit "^[A-Z0-9]+$") input = true <-> alphabet_ok input.
Proof.
  rewrite iban_char_re. unfold alphabet_ok. destruct input as [|c s]; [split; [done|by intros [? _]]|].
  rewrite forallb_forall, <- List.Forall_forall. split; [done|by intros [_ ?]].
Qed.

Lemma table_lengths country want : List.In (country, want) IBAN_COUNTRY_LENGTHS -> (15 <= want)%nat.
Proof.
  intros I. assert (A : forallb (fun p => 15 <=? snd p)%nat IBAN_COUNTRY_LENGTHS = true) by reflexivity.
  rewrite forallb_forall in A. apply A in I. by apply Nat.leb_le in I.
Qed.

Lemma iban_accepts (s : str) :
  let input : list N := to_uppercase (remove [32%N] s) in
  validate_iban s = Ok tt <->
  (alphabet_ok input /\
   List.In (take 2 input, List.length input) IBAN_COUNTRY_LENGTHS /\
   numeral (drop 4 input ++ take 4 input) mod 97 = 1).
Proof.
  intros input. unfold validate_iban. fold input. split.
  - destruct (len input <? 4)%nat; [done|].
    destruct (is_match _ _) eqn:M; cbn [negb]; [|done]. apply iban_alphabet in M as A.
    unfold len. rewrite (upper_alnum_ascii input) by apply A.
    destruct (iban_country_length _) as [want|] eqn:C; [|done]. apply iban_country_length_spec in C.
    match goal with |- context [(?n =? want)%nat] => destruct (Nat.eqb_spec n want) as [<-|] end; [|done].
    rewrite mod97_numeral; [|by apply rotated_alphabet, A|lia].
    match goal with |- context [(?r =? 1)] => destruct (Z.eqb_spec r 1) end; [done|done].
  - intros (A & C & R). pose proof (table_lengths _ _ C) as L15.
    apply iban_country_length_spec in C. apply iban_alphabet in A as M. unfold len. rewrite M.
    rewrite (upper_alnum_ascii input) by apply A.
    destruct (Nat.ltb_spec (List.length input) 4); [lia|]. cbn [negb]. rewrite C, Nat.eqb_refl. cbn [negb].
    rewrite mod97_numeral; [|by apply rotated_alphabet, A|lia].
    fold (numeral (drop 4 input ++ take 4 input)). by rewrite R.
Qed.

(** The IBAN check accepts exactly what ISO 13616 asks for: once spaces
    are gone and letters are upper case, only [A-Z0-9], a country of the
    table with its length, and, read as one number with the first four
    characters moved to the end and letters as two digits, remainder 1 on
    division by 97. The 32-bit streaming pass and the big number agree. *)
Theorem validate_iban_correct (s : str) :
  let input : list N := to_uppercase (remove [32%N] s) in
  validate_iban s = Ok tt <->
  (alphabet_ok input /\
   List.In (take 2 input, List.length input) IBAN_COUNTRY_LENGTHS /\
   numeral (drop 4 input ++ take 4 input) mod 97 = 1).
Proof. apply iban_accepts. Qed.

(** Moving the first four characters to the end keeps a middle together when
    it does not straddle them. *)
Lemma rotate_middle (a mid b : list N) :
  (List.length a <> 3)%nat \/ List.length mid = 1%nat -> (List.length mid <= 2)%nat ->
  exists p q, forall mid', List.length mid = List.length mid' ->
    drop 4 (a ++ mid' ++ b) ++ take 4 (a ++ mid' ++ b) = p ++ mid' ++ q.
Proof.
  intros A M. destruct (Nat.le_gt_cases 4 (List.length a)) as [L|L].
  - exists (drop 4 a), (b ++ take 4 a). intros mid' _.
    by rewrite drop_app_le, take_app_le, <- !app_assoc by lia.
  - exists (drop (4 - List.length a - List.length mid) b ++ a), (take (4 - List.length a - List.length mid) b).
    intros mid' E. rewrite !drop_app, !take_app, (drop_ge a), (take_ge a), (drop_ge mid'), (take_ge mid') by lia.
    by rewrite E, <- !app_assoc.
Qed.

(** A slip of the pen never turns one valid IBAN into another: replacing
    one character by another of its kind, or swapping two neighbours of one
    kind (other than the last check digit and the first character of the
    account), makes the check fail. *)
Theorem iban_detects_slips (s s' : str) (a b mid mid' : list N)
  (S : to_uppercase (remove [32%N] s) = a ++ mid ++ b)
  (S' : to_uppercase (remove [32%N] s') = a ++ mid' ++ b)
  (Sl : slip mid mid') (A : (List.length a <> 3)%nat \/ List.length mid = 1%nat)
  (V : validate_iban s = Ok tt) :
  validate_iban s' <> Ok tt.
Proof.
  intros V'. apply iban_accepts in V as ((_ & F) & _ & R), V' as ((_ & F') & _ & R').
  rewrite S in F, R. rewrite S' in F', R'. pose proof (slip_length _ _ Sl) as L.
  destruct (rotate_middle a mid b A) as (p & q & E); [by destruct Sl; simpl; lia|].
  rewrite E in R by done. rewrite E in R' by done.
  apply Forall_app in F as [_ [F _]%Forall_app], F' as [_ [F' _]%Forall_app].
  apply (slip_97 mid mid' Sl F F'). apply (numeral_change 97 68 p mid mid' q); [lia|done| |congruence].
  by apply slip_weight.
Qed.
End IbanLaws.

(** * The Luhn sum *)

(** One digit's share of the sum. *)
Definition luhn_digit (double : bool) (c : N) : Z :=
  let d := Z.of_N c - 48 in
  if double then (if 9 <? d * 2 then d * 2 - 9 else d * 2) else d.

Fixpoint luhn_total (double : bool) (l : list N) : Z :=
  match l with
  | [] => 0
  | c :: l' => luhn_digit double c + luhn_total (negb double) l'
  end.

Lemma luhn_digit_range double c : is_digit c = true -> 0 <= luhn_digit double c <= 9.
Proof.
  intros D%digit_range. unfold luhn_digit. cbn zeta. destruct double; [|lia].
  destruct (Z.ltb_spec 9 ((Z.of_N c - 48) * 2)); lia.
Qed.

Lemma luhn_sum_total l sum double : Forall (fun c => is_digit c = true) l ->
  0 <= sum -> sum + 9 * Z.of_nat (List.length l) < 2 ^ 32 ->
  luhn_sum l sum double = Some (sum + luhn_total double l).
Proof.
  intros F. revert sum double. induction F as [|c l D F IH]; intros sum double S B; cbn [luhn_sum luhn_total].
  { by rewrite Z.add_0_r. }
  rewrite D. cbn [negb]. fold (luhn_digit double c). pose proof (luhn_digit_range double c D) as R.
  cbn [List.length] in B. rewrite u32_id by lia. rewrite IH by lia. f_equal. lia.
Qed.

Fixpoint alternate (n : nat) (double : bool) : bool :=
  match n with O => double | S n => alternate n (negb double) end.

Lemma luhn_total_app a b double :
  luhn_total double (a ++ b) = luhn_total double a + luhn_total (alternate (List.length a) double) b.
Proof. revert double. induction a as [|c a IH]; intros double; simpl; [lia|]. rewrite IH. lia. Qed.

(** A [0] next to a [9]. *)
Definition zero_nine (mid : list N) : bool := bool_decide (mid = [48; 57]%N) || bool_decide (mid = [57; 48]%N).

Definition digits : list N := [48; 49; 50; 51; 52; 53; 54; 55; 56; 57]%N.

Lemma digit_in c : is_digit c = true -> List.In c digits.
Proof. intros D%digit_range. unfold digits. simpl. lia. Qed.

Lemma slip_luhn mid mid' double : slip mid mid' ->
  Forall (fun c => is_digit c = true) mid -> Forall (fun c => is_digit c = true) mid' ->
  ((luhn_total double (rev mid) - luhn_total double (rev mid')) mod 10 =? 0) = zero_nine mid.
Proof.
  intros Sl F F'.
  assert (T : forallb (fun x => forallb (fun y => forallb (fun d =>
      bool_decide (x = y) ||
      (negb ((luhn_total d [x] - luhn_total d [y]) mod 10 =? 0) &&
       bool_decide (((luhn_total d [y; x] - luhn_total d [x; y]) mod 10 =? 0) = zero_nine [x; y])))
      [false; true]) digits) digits = true) by (vm_compute; reflexivity).
  assert (X : forall x y, is_digit x = true -> is_digit y = true -> x <> y ->
      ((luhn_total double [x] - luhn_total double [y]) mod 10 =? 0) = false /\
      ((luhn_total double [y; x] - luhn_total double [x; y]) mod 10 =? 0) = zero_nine [x; y]).
  { intros x y Dx%digit_in Dy%digit_in N. rewrite forallb_forall in T. apply T in Dx as Tx.
    rewrite forallb_forall in Tx. apply Tx in Dy as Ty. rewrite forallb_forall in Ty.
    specialize (Ty double ltac:(destruct double; simpl; tauto)).
    rewrite bool_decide_eq_false_2 in Ty by done. apply andb_true_iff in Ty as [T1 T2].
    apply negb_true_iff in T1. by apply bool_decide_eq_true in T2. }
  destruct Sl as [x y K N|x y K N]; inversion F as [|? ? Dx Gx]; inversion F' as [|? ? Dy Gy]; subst; simpl rev.
  - destruct (X x y) as [E _]; [done|done|done|]. etransitivity; [exact E|]. unfold zero_nine.
    by rewrite !bool_decide_eq_false_2.
  - inversion Gx as [|? ? Dy' _]; subst. by apply X.
Qed.

Lemma luhn_swap_mod x z m m' : (x + (m + z)) mod 10 = 0 ->
  ((x + (m' + z)) mod 10 =? 0) = ((m - m') mod 10 =? 0).
Proof.
  intros E. apply Bool.eq_iff_eq_true. rewrite !Z.eqb_eq.
  pose proof (Z.div_mod (x + (m + z)) 10). pose proof (Z.div_mod (x + (m' + z)) 10).
  pose proof (Z.div_mod (m - m') 10). pose proof (Z.mod_pos_bound (x + (m' + z)) 10).
  pose proof (Z.mod_pos_bound (m - m') 10). lia.
Qed.

Section Luhn.
Context `{TextTables}.

Lemma luhn_ok (s : str) : let clean : list N := remove [32%N; 45%N] s in
  Forall (fun c => is_digit c = true) clean -> (2 <= List.length clean)%nat ->
  9 * Z.of_nat (List.length clean) < 2 ^ 32 ->
  validate_luhn s = if luhn_total false (rev clean) mod 10 =? 0 then Ok tt else invalid (lit "luhn: checksum").
Proof.
  intros clean F L B. unfold validate_luhn. fold clean. unfold len. rewrite (digits_ascii clean F).
  destruct (Nat.ltb_spec (List.length clean) 2) as [X|X]; [lia|].
  rewrite luhn_sum_total; [|by apply Forall_rev|lia|rewrite length_rev; lia]. rewrite Z.add_0_l.
  by destruct (_ =? 0).
Qed.

(** The Luhn check finds every slip but one: replacing a digit in a
    number that passes, or swapping two neighbours, makes it fail with the
    checksum error, except that a [09] written [90], or the other way round,
    still passes. *)
Theorem luhn_detects_slips (s s' : str) (a b mid mid' : list N)
  (S : remove [32%N; 45%N] s = a ++ mid ++ b) (S' : remove [32%N; 45%N] s' = a ++ mid' ++ b)
  (Sl : slip mid mid') (F : Forall (fun c => is_digit c = true) (a ++ mid ++ b))
  (F' : Forall (fun c => is_digit c = true) mid')
  (B : 9 * Z.of_nat (List.length (a ++ mid ++ b)) < 2 ^ 32) (V : validate_luhn s = Ok tt) :
  validate_luhn s' = if zero_nine mid then Ok tt else invalid (lit "luhn: checksum").
Proof.
  assert (L : List.length (a ++ mid' ++ b) = List.length (a ++ mid ++ b))
    by (rewrite !length_app, (slip_length _ _ Sl); done).
  assert (G : Forall (fun c => is_digit c = true) (a ++ mid' ++ b)).
  { apply Forall_app in F as [Fa [_ Fb]%Forall_app]. by apply Forall_app; split; [|apply Forall_app]. }
  assert (Two : (2 <= List.length (a ++ mid ++ b))%nat).
  { unfold validate_luhn in V. rewrite S in V. unfold len in V. rewrite (digits_ascii _ F) in V.
    destruct (Nat.ltb_spec (List.length (a ++ mid ++ b)) 2); [done|lia]. }
  rewrite luhn_ok in V; rewrite S in *; [|done|done|done].
  rewrite luhn_ok; rewrite S'; [|done|lia|lia].
  rewrite !rev_app_distr, <- !app_assoc, !luhn_total_app in *.
  rewrite !length_rev in *. rewrite <- (slip_length _ _ Sl).
  set (d := alternate (List.length b) false) in *. set (d2 := alternate (List.length mid) d) in *.
  apply Forall_app in F as [_ [Fm _]%Forall_app].
  rewrite <- (slip_luhn mid mid' d Sl Fm F').
  destruct (Z.eqb_spec ((luhn_total false (rev b) + (luhn_total d (rev mid) + luhn_total d2 (rev a))) mod 10) 0)
    as [E|]; [|done].
  apply (luhn_swap_mod (luhn_total false (rev b)) (luhn_total d2 (rev a)) _ (luhn_total d (rev mid'))) in E.
  by rewrite E.
Qed.
End Luhn.

(** * The DNI letter *)

Lemma dni_number_numeral (l : list N) n : Forall (fun c => is_digit c = true) l -> 0 <= n ->
  (n + 1) * 10 ^ Z.of_nat (List.length l) <= 2 ^ 32 -> dni_number l n = Some (numeral_from n l).
Proof.
  intros F. revert n. induction F as [|d l D F IH]; intros n N B; cbn [dni_number]; [done|].
  rewrite D. cbn [negb]. change (numeral_from n (d :: l)) with (numeral_from (n * base d + value d) l).
  unfold base, value. rewrite D. apply digit_range in D. cbn [List.length] in B.
  rewrite Nat2Z.inj_succ, Z.pow_succ_r in B by lia.
  pose proof (Z.pow_pos_nonneg 10 (Z.of_nat (List.length l)) ltac:(lia) ltac:(lia)).
  assert (n * 10 + 10 <= 2 ^ 32) by nia.
  rewrite !u32_id by (rewrite ?u32_id; lia). apply IH; [lia|]. nia.
Qed.

Lemma dni_number_digits (l : list N) n v : dni_number l n = Some v -> Forall (fun c => is_digit c = true) l.
Proof.
  revert n. induction l as [|d l IH]; intros n; cbn [dni_number]; [constructor|].
  destruct (is_digit d) eqn:D; cbn [negb]; [|done]. intros E. constructor; [done|by eapply IH].
Qed.

(** The letters of the table are distinct, and letters. *)
Lemma dni_letter_unique i j c : DNI_LETTERS !! i = Some c -> DNI_LETTERS !! j = Some c -> i = j.
Proof. apply NoDup_lookup. by apply (bool_decide_unpack (NoDup DNI_LETTERS)); vm_compute. Qed.

Lemma dni_letter_no_digit i c : DNI_LETTERS !! i = Some c -> is_digit c = false.
Proof.
  intros L%list_elem_of_lookup_2. apply list_elem_of_In in L.
  assert (A : forallb (fun c => negb (is_digit c)) DNI_LETTERS = true) by reflexivity.
  rewrite forallb_forall in A. by apply A, negb_true_iff in L.
Qed.

Lemma dni_accepts (input : list N) : List.length input = 9%nat -> dni_checksum input = Ok tt ->
  exists l c, input = l ++ [c] /\ Forall (fun d => is_digit d = true) l /\
    DNI_LETTERS !! Z.to_nat (numeral l mod 23) = Some c.
Proof.
  intros L. destruct input as [|c l _] using rev_ind; [done|]. rewrite length_app in L. simpl in L.
  assert (L8 : List.length l = 8%nat) by lia. unfold dni_checksum.
  rewrite (take_app_length' l [c] 8), lookup_app_r, L8, Nat.sub_diag by lia. cbn [lookup list_lookup].
  destruct (dni_number l 0) as [n|] eqn:D; [|done]. apply dni_number_digits in D as F.
  rewrite dni_number_numeral in D; [|done|lia|by rewrite L8]. injection D as <-. fold (numeral l).
  destruct (bool_decide_reflect (DNI_LETTERS !! Z.to_nat (numeral l mod 23) = Some c)); [|done].
  intros _. by exists l, c.
Qed.

(** Two numbers with the same letter agree modulo 23. *)
Lemma dni_same_letter l l' c : DNI_LETTERS !! Z.to_nat (numeral l mod 23) = Some c ->
  DNI_LETTERS !! Z.to_nat (numeral l' mod 23) = Some c -> numeral l mod 23 = numeral l' mod 23.
Proof.
  intros T T'. pose proof (dni_letter_unique _ _ _ T T') as E.
  pose proof (Z.mod_pos_bound (numeral l) 23). pose proof (Z.mod_pos_bound (numeral l') 23). lia.
Qed.

Section Dni.
Context `{TextTables}.

(** A slip of the pen never turns one valid DNI into another, wherever it
    falls: the letter check fails. *)
Theorem dni_detects_slips (s s' : str) (a b mid mid' : list N)
  (S : as_bytes (to_uppercase (remove [32%N] s)) = a ++ mid ++ b)
  (S' : as_bytes (to_uppercase (remove [32%N] s')) = a ++ mid' ++ b)
  (Sl : slip mid mid') (V : validate_dni s = Ok tt) :
  validate_dni s' <> Ok tt.
Proof.
  intros V'. unfold validate_dni, spanish_check in V, V'. rewrite S in V. rewrite S' in V'. simpl negb in V, V'.
  destruct (Nat.eqb_spec (List.length (a ++ mid ++ b)) 9) as [L|]; [|done].
  destruct (Nat.eqb_spec (List.length (a ++ mid' ++ b)) 9) as [L'|]; [|done].
  apply dni_accepts in V as (l & c & E & F & T), V' as (l' & c' & E' & F' & T'); [|done|done].
  destruct b as [|b0 b _] using rev_ind.
  - rewrite app_nil_r in E, E'. destruct Sl as [x y K N|x y K N].
    + apply app_inj_2 in E as [-> [= ->]], E' as [-> [= ->]]; [|done|done]. congruence.
    + change [x; y] with ([x] ++ [y]) in E. rewrite app_assoc in E.
      apply app_inj_2 in E as [<- [= ->]]; [|done]. apply dni_letter_no_digit in T.
      apply Forall_app in F as [_ F]. inversion F; subst. congruence.
  - rewrite !app_assoc in E, E'. apply app_inj_2 in E as [<- [= ->]], E' as [<- [= ->]]; [|done|done].
    rewrite <- !app_assoc in *. pose proof (dni_same_letter _ _ _ T T') as M.
    apply Forall_app in F as [_ [F _]%Forall_app], F' as [_ [F' _]%Forall_app].
    apply (slip_23 mid mid' Sl F F'). apply (numeral_change 23 7 a mid mid' b); [lia|done| |done].
    by apply slip_weight.
Qed.
End Dni.

(** * Concrete tables and inputs *)

Instance ascii_tables : TextTables := {|
  upper_casing := ascii_uppercase;
  is_match := fun _ s => match s with [] => false | _ => forallb upper_alnum s end
|}.

Instance ascii_text_laws : TextLaws.
Proof. by split. Qed.

Lemma validate_iban_correct_witness :
  validate_iban (lit "gb82 west 1234 5698 7654 32") = Ok tt /\
  numeral (drop 4 (lit "GB82WEST12345698765432") ++ take 4 (lit "GB82WEST12345698765432")) mod 97 = 1.
Proof.
  assert (V : validate_iban (lit "gb82 west 1234 5698 7654 32") = Ok tt) by (vm_compute; reflexivity).
  split; [exact V|]. apply validate_iban_correct in V as (_ & _ & R). exact R.
Defined.

Lemma iban_detects_slips_witness :
  validate_iban (lit "DE89 3704 0044 0532 0130 00") = Ok tt /\
  validate_iban (lit "DE89370400440532013001") <> Ok tt.
Proof.
  split; [vm_compute; reflexivity|].
  apply (iban_detects_slips (lit "DE89 3704 0044 0532 0130 00") _ (lit "DE8937040044053201300") []
    (lit "0") (lit "1")); try (vm_compute; reflexivity).
  - by apply slip_replace.
  - by right.
Defined.

Lemma luhn_detects_slips_witness :
  validate_luhn (lit "4539 1488 0343 6467") = Ok tt /\
  validate_luhn (lit "4539-1488-0343-6476") = invalid (lit "luhn: checksum").
Proof.
  split; [vm_compute; reflexivity|].
  refine (luhn_detects_slips (lit "4539 1488 0343 6467") (lit "4539-1488-0343-6476") (lit "45391488034364") [] (lit "67") (lit "76")
    eq_refl eq_refl _ _ _ _ _); try (vm_compute; reflexivity).
  - by apply slip_swap.
  - by apply Forall_forall; intros c I; vm_compute in I; repeat (apply elem_of_cons in I as [->|I]; [done|]);
      apply elem_of_nil in I.
  - by repeat constructor.
Defined.

Lemma dni_detects_slips_witness :
  validate_dni (lit "12345678Z") = Ok tt /\ validate_dni (lit "12345687Z") <> Ok tt.
Proof.
  split; [vm_compute; reflexivity|].
  apply (dni_detects_slips (lit "12345678Z") _ (lit "123456") (lit "Z") (lit "78") (lit "87"));
    try (vm_compute; reflexivity).
  by apply slip_swap.
Defined.

(** The swap the Luhn check misses. *)
Example luhn_misses_09 : validate_luhn (lit "091") = validate_luhn (lit "901").
Proof. reflexivity. Qed.
