(* ===== verification/RuleEngine.v ===== *)
(** The rule engine of [crates/rule-engine/src/]: the rule language
    ([models.rs]), the evaluator ([core.rs]) and the linter ([validation.rs]).

    Facts and operands are serde_json values: the class [JsonValue] with, in
    [JsonTree], what this crate uses of the crate besides. The [regex] crate is
    the class [Regexes]; [debug] is [str]'s Debug rendering. *)
From Stdlib Require Import Ascii String.
From Stdlib Require Import ZArith NArith List Lia Sorting.Permutation Sorting.Sorted Floats.SpecFloat.
From stdpp Require Import base decidable list.
From S2P Require Import Prelude Str Order Json.

(** [Number::is_f64], [Number::as_i64], [Map::len] and a map's iteration.
    [height] bounds how deep a value nests. *)
Class JsonTree (V : Type) `{JsonValue V} : Type := {
  is_f64 : Num -> bool;
  as_i64 : Num -> option Z;
  map_len : Map -> nat;
  map_entries : Map -> list (str * V);
  height : V -> nat
}.

Class JsonTreeLaws (V : Type) `{JsonTree V} : Prop := {
  height_item : forall v items x, view v = Value.Array items -> List.In x items -> (height x < height v)%nat;
  height_entry : forall v m k x, view v = Value.Object m -> List.In (k, x) (map_entries m) ->
    (height x < height v)%nat
}.

(** [Regex::new], the compiled expression being its [is_match]. *)
Class Regexes : Type := { regex_new : str -> Result (str -> bool) str }.

(** * The rule language *)

Module Op.
Inductive t : Type :=
| Eq | Ne | Lt | Lte | Gt | Gte | In | NotIn | Contains | StartsWith | EndsWith | Matches
| IsNull | IsNotNull | Between | NotContains | Exists | IsEmpty
| Other (s : str).

#[global] Instance op_eq_dec : EqDecision t.
Proof. solve_decision. Defined.

Definition ALL : list t :=
  [Eq; Ne; Lt; Lte; Gt; Gte; In; NotIn; Contains; StartsWith; EndsWith; Matches;
   IsNull; IsNotNull; Between; NotContains; Exists; IsEmpty].

Definition as_str (op : t) : str :=
  match op with
  | Eq => lit "eq" | Ne => lit "ne" | Lt => lit "lt" | Lte => lit "lte" | Gt => lit "gt" | Gte => lit "gte"
  | In => lit "in" | NotIn => lit "notIn" | Contains => lit "contains"
  | StartsWith => lit "startsWith" | EndsWith => lit "endsWith" | Matches => lit "matches"
  | IsNull => lit "isNull" | IsNotNull => lit "isNotNull" | Between => lit "between"
  | NotContains => lit "notContains" | Exists => lit "exists" | IsEmpty => lit "isEmpty"
  | Other s => s
  end.

(** [match s] with string patterns: the first arm whose patterns include it. *)
Definition arms : list (list str * t) :=
  [([lit "eq"], Eq); ([lit "ne"], Ne); ([lit "lt"], Lt); ([lit "lte"], Lte); ([lit "gt"], Gt);
   ([lit "gte"], Gte); ([lit "in"], In); ([lit "notIn"; lit "not_in"], NotIn);
   ([lit "contains"], Contains); ([lit "startsWith"; lit "starts_with"], StartsWith);
   ([lit "endsWith"; lit "ends_with"], EndsWith); ([lit "matches"; lit "regex"], Matches);
   ([lit "isNull"; lit "is_null"], IsNull); ([lit "isNotNull"; lit "is_not_null"], IsNotNull);
   ([lit "between"], Between); ([lit "notContains"; lit "not_contains"], NotContains);
   ([lit "exists"], Exists); ([lit "isEmpty"; lit "is_empty"], IsEmpty)].

Definition from (s : str) : t :=
  match List.find (fun arm => existsb (str_eqb s) (fst arm)) arms with
  | Some (_, op) => op
  | None => Other s
  end.
End Op.

Section Rules.
Context {V : Type} `{JsonTree V}.

Record Condition : Type := mkCondition { path : str; op : Op.t; value : V }.

(** Several branches of a node may be set at once. *)
Inductive Logic : Type := mkLogic
  (all : list Logic) (any : list Logic) (not : option Logic) (cond : option Condition).

Definition logic_all (l : Logic) := let 'mkLogic all _ _ _ := l in all.
Definition logic_any (l : Logic) := let 'mkLogic _ any _ _ := l in any.
Definition logic_not (l : Logic) := let 'mkLogic _ _ not _ := l in not.
Definition logic_cond (l : Logic) := let 'mkLogic _ _ _ cond := l in cond.

Definition Logic_default : Logic := mkLogic [] [] None None.
Definition cond (path : str) (op : Op.t) (v : V) : Logic := mkLogic [] [] None (Some (mkCondition path op v)).
Definition all (items : list Logic) : Logic := mkLogic items [] None None.
Definition any (items : list Logic) : Logic := mkLogic [] items None None.
Definition not (inner : Logic) : Logic := mkLogic [] [] (Some inner) None.

Record Action : Type := mkAction { action_type : str; params : Map }.

Record Rule : Type := mkRule {
  id : str;
  description : str;
  priority : Z;
  enabled : bool;
  when : Logic;
  then_ : list Action;
  otherwise : list Action
}.

Definition rule_new (id : str) (when : Logic) : Rule := mkRule id [] 0 true when [] [].

Record RuleSet : Type := mkRuleSet { name : str; version : str; rules : list Rule }.

(** The fact a rule set is judged against: a JSON object. *)
Definition Fact : Type := Map.

Record Verdict : Type := mkVerdict { matched : list str; actions : list Action }.
Definition Verdict_default : Verdict := mkVerdict [] [].

(** * Evaluation *)

Inductive EvalError : Type :=
| UnknownOp (name : str)
| BadRegex (e : str)
| BadBetween (value : str)
| NonNumericCompare (op : Op.t) (left right : str)
| RuleFailed (id : str) (source : EvalError).

Inductive EvaluationMode : Type := All | FirstMatch.

Fixpoint descend (parts : list str) (current : V) : option V :=
  match parts with
  | [] => Some current
  | part :: parts => next ← value_get part current; descend parts next
  end.

(** [parts.next()] of a split is never [None]. *)
Definition lookup (fact : Fact) (path : str) : option V :=
  match split 46%N path with
  | [] => None
  | part :: parts => current ← map_get part fact; descend parts current
  end.

Definition is_null (v : option V) : bool :=
  match v with None => true | Some v => value_is_null v end.

(** [Option<f64>]'s equality. *)
Definition opt_f64_eq (a b : option f64) : bool :=
  match a, b with
  | Some x, Some y => f64_eq x y
  | None, None => true
  | _, _ => false
  end.

Fixpoint zip_all (f : V -> V -> bool) (l1 l2 : list V) : bool :=
  match l1, l2 with
  | x :: l1, y :: l2 => f x y && zip_all f l1 l2
  | _, _ => true
  end.

Fixpoint deep_eq_fuel (fuel : nat) (fact operand : V) : bool :=
  match fuel with
  | O => false
  | S fuel =>
      match view fact, view operand with
      | Value.Number f, Value.Number o => is_f64 o && opt_f64_eq (as_f64 f) (as_f64 o)
      | Value.Array f, Value.Array o =>
          (List.length f =? List.length o)%nat && zip_all (deep_eq_fuel fuel) f o
      | Value.Object f, Value.Object o =>
          (map_len f =? map_len o)%nat &&
          forallb (fun '(k, fv) => match map_get k o with
                                   | Some ov => deep_eq_fuel fuel fv ov
                                   | None => false
                                   end) (map_entries f)
      | _, _ => value_eqb fact operand
      end
  end.

Definition go_deep_eq (fact operand : V) : bool := deep_eq_fuel (S (height fact)) fact operand.

Definition or_null (v : option V) : V := match v with Some v => v | None => json_null end.

Definition deep_eq (v : option V) (operand : V) : bool := go_deep_eq (or_null v) operand.
End Rules.

Arguments Condition V : clear implicits.
Arguments Logic V : clear implicits.
Arguments Action V {_} : rename.
Arguments Rule V {_} : rename.
Arguments RuleSet V {_} : rename.
Arguments Fact V {_} : rename.
Arguments Verdict V {_} : rename.

Definition is_some {A} (o : option A) : bool := match o with Some _ => true | None => false end.

(** * Shortest decimals

    [format!("{f:e}")] for a finite nonzero [m * 2^e]: the fewest significant
    digits that read back as the same number. *)

Definition strip_zeros (s : str) : str := rev (drop_zeros (rev s)).

(** [10^k <= num/den < 10^(k+1)]. *)
Definition decimal_exponent (num den : Z) : Z :=
  if den <=? num then Z.of_nat (List.length (show (num / den))) - 1
  else let c := Z.of_nat (List.length (show (den / num))) in
       if den <=? num * 10 ^ (c - 1) then - (c - 1) else - c.

(** Whether the decimal [c * 10^q] reads back as [m * 2^e], where
    [a / b = m * 2^e / 10^q]: it lies within half a unit of the last binary
    place, a tie going to an even [m], and below a power of two the unit is
    half as large. *)
Definition reads_back (m e a b c : Z) : bool :=
  let d := Z.abs (c * b - a) in
  let w := if (c * b <? a) && (m =? 2 ^ 52) && (-1074 <? e) then 4 else 2 in
  (w * m * d <? a) || ((w * m * d =? a) && Z.even m).

(** With [n], [n + 1], ... significant digits. *)
Fixpoint shortest (fuel : nat) (n m e num den k : Z) : str * Z :=
  let q := k - n + 1 in
  let a := if 0 <=? q then num else num * 10 ^ (- q) in
  let b := if 0 <=? q then den * 10 ^ q else den in
  let d := a / b in
  let near := if (2 * (a mod b) <? b) || ((2 * (a mod b) =? b) && Z.even d) then d else d + 1 in
  let far := if near =? d then d + 1 else d in
  let found c := (strip_zeros (show c), q + Z.of_nat (List.length (show c)) - 1) in
  if reads_back m e a b near then found near
  else match fuel with
       | O => found near
       | S fuel => if reads_back m e a b far then found far else shortest fuel (n + 1) m e num den k
       end.

(** The significant digits and the decimal exponent. *)
Definition lower_exp (m e : Z) : str * Z :=
  let num := if 0 <=? e then m * 2 ^ e else m in
  let den := if 0 <=? e then 1 else 2 ^ (- e) in
  shortest 17 1 m e num den (decimal_exponent num den).

Example lower_exp_examples :
  map (fun x => match x with S754_finite _ m e => lower_exp (Z.pos m) e | _ => ([], 0) end)
    [f64_div (f64_of_Z 1) (f64_of_Z 10); f64_of_Z 1500; f64_div (f64_of_Z 1) (f64_of_Z 3);
     S754_finite false 1 (-1074); f64_of_Z 1000000]
  = [(lit "1", -1); (lit "15", 3); (lit "3333333333333333", -1); (lit "5", -324); (lit "1", 6)].
Proof. vm_compute. reflexivity. Qed.

(** [{:02}]. *)
Definition pad2 (n : Z) : str := if n <? 10 then 48%N :: show n else show n.

Definition go_float_text (f : f64) : str :=
  match f with
  | S754_nan => lit "NaN"
  | S754_infinity false => lit "+Inf"
  | S754_infinity true => lit "-Inf"
  | S754_zero true => lit "-0"
  | S754_zero false => lit "0"
  | S754_finite neg m e =>
      let '(digits, exp) := lower_exp (Z.pos m) e in
      let sign := if neg then lit "-" else [] in
      if negb ((-4 <=? exp) && (exp <? 6)) then
        let mantissa := match digits with
                        | d :: x :: ds => d :: lit "." ++ x :: ds
                        | _ => digits
                        end in
        sign ++ mantissa ++ lit "e" ++ (if exp <? 0 then lit "-" else lit "+") ++ pad2 (Z.abs exp)
      else
        let point := exp + 1 in
        if point <=? 0 then sign ++ lit "0." ++ repeat 48%N (Z.to_nat (Z.abs point)) ++ digits
        else if (List.length digits <=? Z.to_nat point)%nat
        then sign ++ digits ++ repeat 48%N (Z.to_nat point - List.length digits)
        else sign ++ take (Z.to_nat point) digits ++ lit "." ++ drop (Z.to_nat point) digits
  end.

(** The examples of the function's documentation. *)
Example go_float_text_examples :
  map go_float_text
    [f64_of_Z 1500; f64_div (f64_of_Z 1) (f64_of_Z 10000); f64_of_Z 1000000;
     f64_div (f64_of_Z 1) (f64_of_Z 100000); f64_div (f64_of_Z (-5)) (f64_of_Z 2); f64_of_Z 1234567]
  = [lit "1500"; lit "0.0001"; lit "1e+06"; lit "1e-05"; lit "-2.5"; lit "1.234567e+06"].
Proof. vm_compute. reflexivity. Qed.

Section Evaluation.
Context {V : Type} `{JsonTree V, Regexes}.

Definition to_text (v : option V) : str :=
  match v with
  | None => []
  | Some v =>
      match view v with
      | Value.Null => []
      | Value.String s => s
      | Value.Bool b => if b then lit "true" else lit "false"
      | Value.Number n =>
          match as_f64 n with
          | Some f => if is_f64 n then go_float_text f else value_to_string v
          | None => value_to_string v
          end
      | _ => value_to_string v
      end
  end.

Definition value_text (v : V) : str := to_text (Some v).

Definition json_type_name (v : option V) : str :=
  match v with
  | None => lit "null"
  | Some v =>
      match view v with
      | Value.Null => lit "null"
      | Value.Bool _ => lit "bool"
      | Value.Number _ => lit "number"
      | Value.String _ => lit "string"
      | Value.Array _ => lit "array"
      | Value.Object _ => lit "object"
      end
  end.

Definition to_f64 (v : option V) : option f64 :=
  match v with
  | Some v => match view v with Value.Number n => as_f64 n | _ => None end
  | None => None
  end.

Definition compare_num (a : option V) (b : V) (op : Op.t) : Result bool EvalError :=
  match to_f64 a, to_f64 (Some b) with
  | Some af, Some bf =>
      match op with
      | Op.Lt => Ok (f64_lt af bf)
      | Op.Lte => Ok (f64_le af bf)
      | Op.Gt => Ok (f64_lt bf af)
      | Op.Gte => Ok (f64_le bf af)
      | _ => Err (UnknownOp (Op.as_str op))
      end
  | _, _ => Err (NonNumericCompare op (json_type_name a) (json_type_name (Some b)))
  end.

Definition in_list (operand : V) (v : option V) : bool :=
  match view operand with
  | Value.Array items => existsb (go_deep_eq (or_null v)) items
  | _ => false
  end.

(** [s.contains(sub)]. *)
Definition contains_str (sub s : str) : bool := is_some (find sub s).

Definition contains (haystack : option V) (needle : V) : bool :=
  match haystack with
  | Some v =>
      match view v with
      | Value.String s => contains_str (value_text needle) s
      | Value.Array items => existsb (fun x => go_deep_eq x needle) items
      | _ => false
      end
  | None => false
  end.

Definition str_le (a b : str) : bool := match str_compare a b with Gt => false | _ => true end.

Definition as_string (v : V) : option str := match view v with Value.String s => Some s | _ => None end.

Definition between (fact : option V) (operand : V) : Result bool EvalError :=
  match view operand with
  | Value.Array [lo; hi] =>
      if is_null fact then Ok false
      else
        match to_f64 fact, to_f64 (Some lo), to_f64 (Some hi) with
        | Some f, Some l, Some h => Ok (f64_le l f && f64_le f h)
        | _, _, _ =>
            match fact ≫= as_string, as_string lo, as_string hi with
            | Some f, Some l, Some h => Ok (str_le l f && str_le f h)
            | _, _, _ =>
                Err (NonNumericCompare Op.Between (json_type_name fact) (json_type_name (Some lo)))
            end
        end
  | _ => Err (BadBetween (value_to_string operand))
  end.

Definition is_empty (fact : option V) : bool :=
  match fact with
  | None => true
  | Some v =>
      match view v with
      | Value.Null => true
      | Value.String s => match s with [] => true | _ => false end
      | Value.Array a => match a with [] => true | _ => false end
      | Value.Object o => map_is_empty o
      | _ => false
      end
  end.

Definition eval_cond (cond : Condition V) (fact : Fact V) : Result bool EvalError :=
  let found := lookup fact (path cond) in
  let value := value cond in
  match op cond with
  | Op.IsNull => Ok (is_null found)
  | Op.IsNotNull => Ok (negb (is_null found))
  | Op.Eq => Ok (deep_eq found value)
  | Op.Ne => Ok (negb (deep_eq found value))
  | Op.Lt | Op.Lte | Op.Gt | Op.Gte => compare_num found value (op cond)
  | Op.In => Ok (in_list value found)
  | Op.NotIn => Ok (negb (in_list value found))
  | Op.Contains => Ok (contains found value)
  | Op.NotContains => Ok (negb (is_null found) && negb (contains found value))
  | Op.StartsWith => Ok (starts_with (value_text value) (to_text found))
  | Op.EndsWith => Ok (is_some (strip_suffix (value_text value) (to_text found)))
  | Op.Matches =>
      match regex_new (value_text value) with
      | Ok re => Ok (re (to_text found))
      | Err e => Err (BadRegex e)
      end
  | Op.Between => between found value
  | Op.Exists => Ok (negb (is_null found))
  | Op.IsEmpty => Ok (is_empty found)
  | Op.Other name => Err (UnknownOp name)
  end.

(** The loops of [eval] over the branches of a node. *)
Section Branches.
Context {A : Type} (ev : A -> Result bool EvalError).
Fixpoint all_of (items : list A) : Result bool EvalError :=
  match items with
  | [] => Ok true
  | sub :: items => b <-? ev sub; if negb b then Ok false else all_of items
  end.
Fixpoint any_of (items : list A) : Result bool EvalError :=
  match items with
  | [] => Ok false
  | sub :: items => b <-? ev sub; if b then Ok true else any_of items
  end.
End Branches.

Fixpoint eval (logic : Logic V) (fact : Fact V) {struct logic} : Result bool EvalError :=
  match logic with
  | mkLogic all any not cond =>
      match cond, all, any, not with
      | Some cond, _, _, _ => eval_cond cond fact
      | None, _ :: _, _, _ => all_of (fun sub => eval sub fact) all
      | None, [], _ :: _, _ => any_of (fun sub => eval sub fact) any
      | None, [], [], Some inner => b <-? eval inner fact; Ok (negb b)
      | None, [], [], None => Ok true
      end
  end.

(** Descending priority. *)
Definition by_priority (a b : Rule V) : comparison := CompOpp (priority a ?= priority b).

(** The loop over the sorted rules. *)
Fixpoint fire (mode : EvaluationMode) (fact : Fact V) (rules : list (Rule V)) (verdict : Verdict V)
  : Result (Verdict V) EvalError :=
  match rules with
  | [] => Ok verdict
  | rule :: rules =>
      if negb (enabled rule) then fire mode fact rules verdict
      else
        ok <-? map_err (RuleFailed (id rule)) (eval (when rule) fact);
        if ok then
          let verdict := mkVerdict (matched verdict ++ [id rule]) (actions verdict ++ then_ rule) in
          match mode with FirstMatch => Ok verdict | All => fire mode fact rules verdict end
        else fire mode fact rules (mkVerdict (matched verdict) (actions verdict ++ otherwise rule))
  end.

Definition evaluate_with_mode (set : RuleSet V) (fact : Fact V) (mode : EvaluationMode)
  : Result (Verdict V) EvalError :=
  fire mode fact (sort_by by_priority (rules set)) Verdict_default.

Definition evaluate_sync (set : RuleSet V) (fact : Fact V) : Result (Verdict V) EvalError :=
  evaluate_with_mode set fact All.
End Evaluation.

(** * The linter *)

Definition KNOWN_ACTION_TYPES : list str :=
  [lit "set"; lit "increment"; lit "log"; lit "call"; lit "calculate"].
Definition TARGET_REQUIRED : list str := [lit "set"; lit "increment"].

Section Validation.
Context {V : Type} `{JsonValue V}.
Variable debug : str -> str.

Definition is_nil {A} (l : list A) : bool := match l with [] => true | _ => false end.
Definition member (s : str) (l : list str) : bool := existsb (str_eqb s) l.

Definition check_condition_op (op : Op.t) (value : V) (rule_id : str) : list str :=
  match op with
  | Op.Other name => [lit "rule " ++ debug rule_id ++ lit ": unknown operator " ++ debug name]
  | Op.Between =>
      match view value with
      | Value.Array [_; _] => []
      | _ => [lit "rule " ++ debug rule_id ++ lit ": 'between' value must be a 2-element list, got " ++
              value_to_string value]
      end
  | _ => []
  end.

Definition branches (l : Logic V) : nat :=
  (Nat.b2n (is_some (logic_cond l)) + Nat.b2n (negb (is_nil (logic_all l))) +
   Nat.b2n (negb (is_nil (logic_any l))) + Nat.b2n (is_some (logic_not l)))%nat.

Fixpoint check_logic (logic : Logic V) (rule_id : str) {struct logic} : list str :=
  (if (1 <? branches logic)%nat
   then [lit "rule " ++ debug rule_id ++ lit ": ambiguous logic node sets " ++
         show (Z.of_nat (branches logic)) ++
         lit " branches; exactly one of cond/all/any/not is expected"]
   else []) ++
  match logic with
  | mkLogic all any not cond =>
      match cond with Some cond => check_condition_op (op cond) (value cond) rule_id | None => [] end ++
      flat_map (fun sub => check_logic sub rule_id) all ++
      flat_map (fun sub => check_logic sub rule_id) any ++
      match not with Some inner => check_logic inner rule_id | None => [] end
  end.

(** [action.params.get("target").and_then(Value::as_str)]. *)
Definition target_of (action : Action V) : option str := map_get (lit "target") (params action) ≫= as_string.

Definition has_target (action : Action V) : bool :=
  match target_of action with Some (_ :: _) => true | _ => false end.

Definition check_action (action : Action V) (rule_id branch : str) : list str :=
  (if negb (member (action_type action) KNOWN_ACTION_TYPES)
   then [lit "rule " ++ debug rule_id ++ lit " (" ++ branch ++ lit "): unknown action type " ++
         debug (action_type action)]
   else []) ++
  (if member (action_type action) TARGET_REQUIRED && negb (has_target action)
   then [lit "rule " ++ debug rule_id ++ lit " (" ++ branch ++ lit "): '" ++ action_type action ++
         lit "' action missing 'target'"]
   else []).

(** [seen] holds the ids met so far. *)
Fixpoint check_rules (seen : list str) (rules : list (Rule V)) : list str :=
  match rules with
  | [] => []
  | rule :: rules =>
      (if member (id rule) seen then [lit "duplicate rule id " ++ debug (id rule)] else []) ++
      check_logic (when rule) (id rule) ++
      flat_map (fun a => check_action a (id rule) (lit "then")) (then_ rule) ++
      flat_map (fun a => check_action a (id rule) (lit "otherwise")) (otherwise rule) ++
      check_rules (id rule :: seen) rules
  end.

Definition check (ruleset : RuleSet V) : list str := check_rules [] (rules ruleset).
Definition validate_ruleset (ruleset : RuleSet V) : list str := check ruleset.

Record RuleValidationError : Type := mkRuleValidationError { ruleset_name : str; issues : list str }.

Definition assert_valid (ruleset : RuleSet V) : Result unit RuleValidationError :=
  match check ruleset with
  | [] => Ok tt
  | issues => Err (mkRuleValidationError (name ruleset) issues)
  end.
End Validation.

(** * Facts about the rule language *)

Section LogicInduction.
Context {V : Type} (P : Logic V -> Prop).
Hypothesis Node : forall all any not cond,
  Forall P all -> Forall P any -> (forall inner, not = Some inner -> P inner) -> P (mkLogic all any not cond).

Fixpoint logic_ind' (l : Logic V) : P l :=
  match l with
  | mkLogic all any not cond =>
      let each := fix each (l : list (Logic V)) : Forall P l :=
        match l with [] => Forall_nil_2 _ | x :: l => Forall_cons_2 _ _ _ (logic_ind' x) (each l) end in
      Node all any not cond (each all) (each any)
        (match not as n return forall inner, n = Some inner -> P inner with
         | Some i => fun inner E => match E in _ = o return match o with Some j => P j | None => True end with
                                    | eq_refl => logic_ind' i
                                    end
         | None => fun inner E => match E with eq_refl => I end
         end)
  end.
End LogicInduction.

(** Writing an operator and reading it back. *)
Lemma op_from_as_str op : List.In op Op.ALL -> Op.from (Op.as_str op) = op.
Proof.
  intros I. assert (A : forallb (fun o => bool_decide (Op.from (Op.as_str o) = o)) Op.ALL = true)
    by (vm_compute; reflexivity).
  rewrite forallb_forall in A. apply A in I. by apply bool_decide_eq_true in I.
Qed.

Lemma forallb_ext_in {A} (f g : A -> bool) l : (forall x, List.In x l -> f x = g x) -> forallb f l = forallb g l.
Proof.
  induction l as [|x l IH]; intros E; [done|]. simpl. rewrite (E x) by (by left). f_equal.
  apply IH. intros y I. apply E. by right.
Qed.

Section DeepEq.
Context {V : Type} `{JsonTreeLaws V}.

(** The fuel of [go_deep_eq] is enough: more changes nothing. *)
Lemma deep_eq_fuel_enough n1 n2 (fact operand : V) :
  (height fact < n1)%nat -> (height fact < n2)%nat ->
  deep_eq_fuel n1 fact operand = deep_eq_fuel n2 fact operand.
Proof.
  revert n2 fact operand. induction n1 as [|n1 IH]; intros [|n2] fact operand L1 L2; try lia. cbn [deep_eq_fuel].
  destruct (view fact) as [| | | |f|f] eqn:Vf, (view operand) as [| | | |o|o]; try done; f_equal.
  - assert (A : forall x, List.In x f -> (height x < height fact)%nat)
      by (intros x I; by apply (height_item fact f)).
    clear Vf. revert o. induction f as [|x f IHf]; intros [|y o]; cbn [zip_all]; try done.
    pose proof (A x (or_introl eq_refl)). rewrite (IH n2) by lia. f_equal.
    apply IHf. intros z I. apply A. by right.
  - apply forallb_ext_in. intros [k v] I. destruct (map_get k o); [|done].
    pose proof (height_entry fact f k v Vf I). apply IH; lia.
Qed.
End DeepEq.

Section EvaluationLaws.
Context {V : Type} `{JsonTree V, Regexes}.

(** ** Firing order *)

Lemma priority_preorder : total_preorder (by_priority (V := V)).
Proof. unfold by_priority. apply preorder_reverse. apply (preorder_map priority), preorder_Z. Qed.

Lemma sort_priority_stable p (l : list (Rule V)) :
  List.filter (fun r => priority r =? p) (sort_by by_priority l) = List.filter (fun r => priority r =? p) l.
Proof.
  set (k := mkRule [] [] p true Logic_default [] []).
  assert (E : forall l : list (Rule V), List.filter (fun r => priority r =? p) l = List.filter (same by_priority k) l).
  { intros m. apply List.filter_ext. intros r. unfold same, by_priority. simpl.
    destruct (Z.compare_spec p (priority r)); simpl; [by apply Z.eqb_eq|apply Z.eqb_neq; lia..]. }
  rewrite !E. apply sort_by_stable, priority_preorder.
Qed.

Lemma filter_filter_comm {A} (p q : A -> bool) l :
  List.filter p (List.filter q l) = List.filter q (List.filter p l).
Proof.
  induction l as [|x l IH]; [done|]. simpl.
  destruct (p x) eqn:P, (q x) eqn:Q; simpl; rewrite ?P, ?Q; congruence.
Qed.

Lemma sorted_weaken {A} (R Q : A -> A -> Prop) l :
  (forall a b, R a b -> Q a b) -> StronglySorted R l -> StronglySorted Q l.
Proof.
  intros I. induction 1 as [|x l S IH F]; constructor; [done|].
  rewrite List.Forall_forall in *. auto.
Qed.

(** The rules in the order the loop meets them, without the disabled ones. *)
Definition firing_order (set : RuleSet V) : list (Rule V) :=
  List.filter enabled (sort_by by_priority (rules set)).

Lemma firing_order_spec (set : RuleSet V) :
  Permutation (firing_order set) (List.filter enabled (rules set)) /\
  StronglySorted (fun a b => priority b <= priority a) (firing_order set) /\
  (forall p, List.filter (fun r => priority r =? p) (firing_order set) =
             List.filter (fun r => priority r =? p) (List.filter enabled (rules set))).
Proof.
  unfold firing_order. split; [apply filter_permutation, sort_by_permutation|]. split.
  - apply filter_sorted. eapply sorted_weaken; [|apply sort_by_sorted, priority_preorder].
    unfold by_priority. intros a b C. destruct (Z.compare_spec (priority a) (priority b)); simpl in C; [lia|done|lia].
  - intros p. by rewrite filter_filter_comm, sort_priority_stable, filter_filter_comm.
Qed.

(** ** The loop *)

(** What a rule judged to [b] contributes. *)
Definition ids_of (fired : list (Rule V * bool)) : list str :=
  map (fun p => id (fst p)) (List.filter snd fired).
Definition actions_of (fired : list (Rule V * bool)) : list (Action V) :=
  flat_map (fun p : Rule V * bool => if snd p then then_ (fst p) else otherwise (fst p)) fired.

(** [All] judges every rule; [FirstMatch] stops after one that matches. *)
Definition stops_right (mode : EvaluationMode) (fired : list (Rule V * bool)) (rest : list (Rule V)) : Prop :=
  match mode with
  | All => rest = []
  | FirstMatch =>
      exists missed, Forall (fun p => snd p = false) missed /\
        (fired = missed /\ rest = [] \/ exists r, fired = missed ++ [(r, true)])
  end.

Lemma stops_right_missed mode r fired rest : stops_right mode fired rest ->
  stops_right mode ((r, false) :: fired) rest.
Proof.
  destruct mode; simpl; [done|]. intros (m & F & S). exists ((r, false) :: m). split; [by constructor|].
  destruct S as [[-> ->]|[r' ->]]; [by left|]. right. by exists r'.
Qed.

Lemma fire_ok mode fact l v v' : fire mode fact l v = Ok v' ->
  exists fired rest, List.filter enabled l = map fst fired ++ rest /\
    Forall (fun p => eval (when (fst p)) fact = Ok (snd p)) fired /\
    matched v' = matched v ++ ids_of fired /\ actions v' = actions v ++ actions_of fired /\
    stops_right mode fired rest.
Proof.
  revert v. induction l as [|r l IH]; intros v; cbn [fire].
  { intros [= <-]. exists [], []. unfold ids_of, actions_of. simpl. rewrite !app_nil_r.
    repeat split; [constructor|]. destruct mode; [done|]. exists []. split; [constructor|by left]. }
  simpl List.filter. destruct (enabled r) eqn:En; cbn [negb]; [|apply IH].
  destruct (eval (when r) fact) as [b|e] eqn:Er; cbn [map_err result_bind]; [|done].
  assert (Go : forall v1, matched v1 = matched v ++ ids_of [(r, b)] ->
      actions v1 = actions v ++ actions_of [(r, b)] ->
      (forall fired rest, stops_right mode fired rest -> stops_right mode ((r, b) :: fired) rest) ->
      fire mode fact l v1 = Ok v' ->
      exists fired rest, r :: List.filter enabled l = map fst fired ++ rest /\
        Forall (fun p => eval (when (fst p)) fact = Ok (snd p)) fired /\
        matched v' = matched v ++ ids_of fired /\ actions v' = actions v ++ actions_of fired /\
        stops_right mode fired rest).
  { intros v1 M1 A1 St E1. destruct (IH v1 E1) as (fired & rest & Ef & F & M & A & S).
    exists ((r, b) :: fired), rest. split; [by simpl; rewrite Ef|]. split; [by constructor|].
    rewrite M, A, M1, A1. unfold ids_of, actions_of. simpl.
    destruct b; simpl; rewrite <- !app_assoc, ?app_nil_r; by auto. }
  destruct b.
  - destruct mode.
    + apply Go; simpl; [done|by rewrite app_nil_r|done].
    + intros [= <-]. exists [(r, true)], (List.filter enabled l). unfold ids_of, actions_of. simpl.
      rewrite app_nil_r. split; [done|]. split; [by repeat constructor|]. split; [done|]. split; [done|].
      exists []. split; [constructor|]. right. by exists r.
  - apply Go; simpl; [by rewrite app_nil_r|by rewrite app_nil_r|]. intros fired rest. apply stops_right_missed.
Qed.

Lemma fire_err mode fact l v e : fire mode fact l v = Err e ->
  exists before r after e', List.filter enabled l = before ++ r :: after /\
    Forall (fun r => exists b, eval (when r) fact = Ok b /\ (mode = FirstMatch -> b = false)) before /\
    eval (when r) fact = Err e' /\ e = RuleFailed (id r) e'.
Proof.
  revert v. induction l as [|r l IH]; intros v; cbn [fire]; [done|].
  simpl List.filter. destruct (enabled r); cbn [negb]; [|apply IH].
  destruct (eval (when r) fact) as [b|e'] eqn:Er; cbn [map_err result_bind].
  - assert (Go : forall v1, (mode = FirstMatch -> b = false) -> fire mode fact l v1 = Err e ->
      exists before r' after e', r :: List.filter enabled l = before ++ r' :: after /\
        Forall (fun r => exists b, eval (when r) fact = Ok b /\ (mode = FirstMatch -> b = false)) before /\
        eval (when r') fact = Err e' /\ e = RuleFailed (id r') e').
    { intros v1 Bm E1. destruct (IH v1 E1) as (before & r' & after & e' & Ef & F & X & Y).
      exists (r :: before), r', after, e'. split; [by simpl; rewrite Ef|]. split; [|done].
      constructor; [by exists b|done]. }
    destruct b; [destruct mode; [by apply Go|done]|by apply Go].
  - intros [= <-]. exists [], r, (List.filter enabled l), e'. split; [done|]. by split; [constructor|].
Qed.

(** Evaluating a rule set judges its enabled rules in descending
    priority, ties in document order, and does nothing else: the verdict lists
    the ids of the rules that hold and, in the same order, the [then] actions
    of those and the [otherwise] actions of the others. In [All] mode every
    rule is judged; in [FirstMatch] mode the judging ends with the first rule
    that holds. An error is the first failing rule's, under its id, and only
    when no earlier rule ended the evaluation. *)
Theorem verdict_in_priority_order (set : RuleSet V) (fact : Fact V) (mode : EvaluationMode) :
  exists order,
    Permutation order (List.filter enabled (rules set)) /\
    StronglySorted (fun a b => priority b <= priority a) order /\
    (forall p, List.filter (fun r => priority r =? p) order =
               List.filter (fun r => priority r =? p) (List.filter enabled (rules set))) /\
    match evaluate_with_mode set fact mode with
    | Ok v =>
        exists fired rest, order = map fst fired ++ rest /\
          Forall (fun p => eval (when (fst p)) fact = Ok (snd p)) fired /\
          matched v = ids_of fired /\ actions v = actions_of fired /\ stops_right mode fired rest
    | Err e =>
        exists before r after e', order = before ++ r :: after /\
          Forall (fun r => exists b, eval (when r) fact = Ok b /\ (mode = FirstMatch -> b = false)) before /\
          eval (when r) fact = Err e' /\ e = RuleFailed (id r) e'
    end.
Proof.
  exists (firing_order set). destruct (firing_order_spec set) as (P & S & St).
  split; [done|]. split; [done|]. split; [done|].
  unfold evaluate_with_mode. destruct (fire _ _ _ _) as [v|e] eqn:E.
  - by apply fire_ok in E.
  - by apply fire_err in E.
Qed.

(** ** What the linter rules out *)

(** The conditions of a logic tree. *)
Fixpoint conditions (l : Logic V) : list (Condition V) :=
  match l with
  | mkLogic all any not cond =>
      match cond with Some c => [c] | None => [] end ++
      flat_map conditions all ++ flat_map conditions any ++
      match not with Some inner => conditions inner | None => [] end
  end.

(** The errors a well-formed condition still has on a fact: its regular
    expression does not compile; one of the two sides of an ordering is not a
    number; the three sides of a [between] are neither all numbers nor all
    strings. Any of these sides can be the rule's own operand. *)
Definition run_time_error (fact : Fact V) (c : Condition V) (e : EvalError) : Prop :=
  let found := lookup fact (path c) in
  match op c with
  | Op.Lt | Op.Lte | Op.Gt | Op.Gte =>
      e = NonNumericCompare (op c) (json_type_name found) (json_type_name (Some (value c))) /\
      (to_f64 found = None \/ to_f64 (Some (value c)) = None)
  | Op.Between => exists lo hi,
      view (value c) = Value.Array [lo; hi] /\ is_null found = false /\
      e = NonNumericCompare Op.Between (json_type_name found) (json_type_name (Some lo)) /\
      (to_f64 found = None \/ to_f64 (Some lo) = None \/ to_f64 (Some hi) = None) /\
      (found ≫= as_string = None \/ as_string lo = None \/ as_string hi = None)
  | Op.Matches => exists m, regex_new (value_text (value c)) = Err m /\ e = BadRegex m
  | _ => False
  end.

Lemma check_condition_sound debug c fact e rid :
  check_condition_op debug (op c) (value c) rid = [] -> eval_cond c fact = Err e -> run_time_error fact c e.
Proof.
  unfold eval_cond, run_time_error. cbn zeta. destruct (op c) eqn:Eo; cbn [check_condition_op]; try done; intros Ch.
  1-4: unfold compare_num; destruct (to_f64 (lookup _ _)); [destruct (to_f64 (Some _)); [done|]|];
    intros [= <-]; (split; [done|]); auto.
  - destruct (regex_new _) as [re|m]; [done|]. intros [= <-]. by exists m.
  - unfold between. destruct (view (value c)) as [| | | |[|x [|y [|? ?]]]|]; try done.
    destruct (is_null _); [done|]. intros E. exists x, y.
    destruct (to_f64 (lookup fact (path c))), (to_f64 (Some x)), (to_f64 (Some y)); try done;
      destruct (lookup fact (path c) ≫= as_string), (as_string x), (as_string y); try done;
      injection E as <-; auto 10.
Qed.

Lemma all_of_err {A} (ev : A -> Result bool EvalError) l e : all_of ev l = Err e -> exists x, List.In x l /\ ev x = Err e.
Proof.
  induction l as [|x l IH]; cbn [all_of]; [done|]. destruct (ev x) as [[|]|e'] eqn:E; cbn [result_bind negb]; try done.
  - intros (y & I & Ey)%IH. exists y. by split; [right|].
  - intros [= <-]. exists x. by split; [left|].
Qed.

Lemma any_of_err {A} (ev : A -> Result bool EvalError) l e : any_of ev l = Err e -> exists x, List.In x l /\ ev x = Err e.
Proof.
  induction l as [|x l IH]; cbn [any_of]; [done|]. destruct (ev x) as [[|]|e'] eqn:E; cbn [result_bind]; try done.
  - intros (y & I & Ey)%IH. exists y. by split; [right|].
  - intros [= <-]. exists x. by split; [left|].
Qed.

Lemma flat_map_nil {A B} (f : A -> list B) l x : flat_map f l = [] -> List.In x l -> f x = [].
Proof. induction l as [|y l IH]; [done|]. intros [E1 E2]%app_nil. intros [<-|I]; [done|auto]. Qed.

Lemma check_logic_sound debug rid (l : Logic V) fact e :
  check_logic debug l rid = [] -> eval l fact = Err e ->
  exists c, List.In c (conditions l) /\ run_time_error fact c e.
Proof.
  revert e. induction l as [ls ms nt cd Hls Hms Hnt] using logic_ind'. intros e.
  cbn [check_logic eval conditions]. intros [_ [Cc [Ca [Cy Cn]%app_nil]%app_nil]%app_nil]%app_nil.
  destruct cd as [c|]; [intros E; exists c; split; [by left|by apply check_condition_sound with debug rid]|].
  rewrite Forall_forall in Hls, Hms. cbn [app].
  destruct ls as [|l0 ls]; [destruct ms as [|m0 ms]; [destruct nt as [inner|]; [|done]|]|].
  - destruct (eval inner fact) as [|e'] eqn:E; cbn [result_bind]; [done|]. intros [= <-]. by apply (Hnt inner).
  - intros (x & I & E)%any_of_err. destruct (Hms x ltac:(by apply list_elem_of_In) e) as (c & Ic & R);
      [by apply (flat_map_nil _ _ x Cy)|done|].
    exists c. split; [|done]. apply in_app_iff. right. apply in_app_iff. left. apply in_flat_map. by exists x.
  - intros (x & I & E)%all_of_err. destruct (Hls x ltac:(by apply list_elem_of_In) e) as (c & Ic & R);
      [by apply (flat_map_nil _ _ x Ca)|done|].
    exists c. split; [|done]. apply in_app_iff. left. apply in_flat_map. by exists x.
Qed.

Lemma member_spec s l : member s l = true <-> List.In s l.
Proof.
  unfold member. rewrite existsb_exists. split.
  - intros (x & I & E). unfold str_eqb in E. apply bool_decide_eq_true in E. by subst.
  - intros I. exists s. split; [done|]. by apply bool_decide_eq_true_2.
Qed.

(** A clean set: distinct ids, clean logic, clean actions. *)
Definition clean_rule debug (r : Rule V) : Prop :=
  check_logic debug (when r) (id r) = [] /\
  (forall a, List.In a (then_ r) -> check_action debug a (id r) (lit "then") = []) /\
  (forall a, List.In a (otherwise r) -> check_action debug a (id r) (lit "otherwise") = []).

Lemma check_rules_clean debug seen l : check_rules debug seen l = [] ->
  Forall (clean_rule debug) l /\ List.NoDup (map id l) /\ (forall r, List.In r l -> ~ List.In (id r) seen).
Proof.
  revert seen. induction l as [|r l IH]; intros seen; cbn [check_rules]; [by repeat constructor|].
  intros [D [L [T [O R]%app_nil]%app_nil]%app_nil]%app_nil.
  apply IH in R as (F & N & S). split; [|split].
  - constructor; [|done]. split; [done|]. split; intros a I; [by apply (flat_map_nil _ _ _ T)|by apply (flat_map_nil _ _ _ O)].
  - simpl. constructor; [|done]. intros (r' & E & I)%in_map_iff. apply (S r' I). left. congruence.
  - intros r' [<-|I]; [|intros I'; apply (S r' I); by right].
    destruct (member (id r) seen) eqn:M; [done|]. intros I%member_spec. congruence.
Qed.
End EvaluationLaws.
