(* ===== verification/RuleActions.v ===== *)
(** Running what a verdict asks for: the action handlers of
    [crates/rule-engine/src/actions.rs] and the service of [service.rs].

    A handler returns its result next to the facts it leaves behind, since a
    custom one may write before it fails. Integer sums wrap as the release
    profile's do. *)
From Stdlib Require Import Ascii String.
From Stdlib Require Import ZArith NArith List Lia Sorting.Permutation Floats.SpecFloat.
From stdpp Require Import base decidable list gmap.
From S2P Require Import Prelude Str Order Json RuleEngine.

Inductive ActionError : Type :=
| Unsupported (action_type : str)
| MissingParam (action_type param : str)
| NonNumericIncrement
| Custom (e : str).

Definition action_error_to_string (e : ActionError) : str :=
  match e with
  | Unsupported t => lit "unsupported action type '" ++ t ++ lit "'; register a handler for it"
  | MissingParam t p => t ++ lit " action missing '" ++ p ++ lit "'"
  | NonNumericIncrement => lit "increment: non-numeric value"
  | Custom e => e
  end.

Section Actions.
Context {V : Type} `{JsonTree V} `{!JsonFloats V}.

Definition ActionHandler : Type := Action V -> Fact V -> Result unit ActionError * Fact V.

Definition require_target (action : Action V) (action_type : str) : Result str ActionError :=
  ok_or (target_of action) (MissingParam action_type (lit "target")).

Definition read_path (facts : Fact V) (path : str) : option V :=
  match split 46%N path with
  | [] => None
  | part :: parts => current ← map_get part facts; descend parts current
  end.

(** The object under [part]: the entry when it is one, else a fresh object. *)
Definition child (part : str) (m : Fact V) : Fact V :=
  match map_get part m with
  | Some v => match view v with Value.Object o => o | _ => map_new end
  | None => map_new
  end.

Fixpoint write_parts (part : str) (parts : list str) (value : V) (m : Fact V) : Fact V :=
  match parts with
  | [] => map_insert part value m
  | next :: parts => map_insert part (json_object (write_parts next parts value (child part m))) m
  end.

Definition write_path (facts : Fact V) (path : str) (value : V) : Fact V :=
  match split 46%N path with
  | [] => facts
  | part :: parts => write_parts part parts value facts
  end.

Definition py_truthy (v : V) : bool :=
  match view v with
  | Value.Null => false
  | Value.Bool b => b
  | Value.Number n => match as_f64 n with Some f => negb (f64_eq f (f64_of_Z 0)) | None => false end
  | Value.String s => negb (is_nil s)
  | Value.Array a => negb (is_nil a)
  | Value.Object o => negb (map_is_empty o)
  end.

Definition py_or (v default : V) : V := if py_truthy v then v else default.

Definition numeric_operand (v : V) : Result (option Z * f64) ActionError :=
  match view v with
  | Value.Bool b => let i := Z.b2z b in Ok (Some i, f64_of_Z i)
  | Value.Number n =>
      match as_i64 n with
      | Some i => Ok (Some i, f64_of_Z i)
      | None => f <-? ok_or (as_f64 n) NonNumericIncrement; Ok (None, f)
      end
  | _ => Err NonNumericIncrement
  end.

Definition add_numeric (current by_ : V) : Result V ActionError :=
  a <-? numeric_operand current;
  b <-? numeric_operand by_;
  match fst a, fst b with
  | Some x, Some y => Ok (value_of_Z (i64 (x + y)))
  | _, _ => Ok (value_of_f64 (f64_add (snd a) (snd b)))
  end.

Definition set_handler : ActionHandler := fun action facts =>
  match require_target action (lit "set") with
  | Err e => (Err e, facts)
  | Ok target => (Ok tt, write_path facts target (or_null (map_get (lit "value") (params action))))
  end.

Definition increment_handler : ActionHandler := fun action facts =>
  match require_target action (lit "increment") with
  | Err e => (Err e, facts)
  | Ok target =>
      let current := py_or (or_null (read_path facts target)) (value_of_Z 0) in
      let by_ := py_or (or_null (map_get (lit "value") (params action))) (value_of_Z 1) in
      match add_numeric current by_ with
      | Err e => (Err e, facts)
      | Ok sum => (Ok tt, write_path facts target sum)
      end
  end.

Definition log_handler : ActionHandler := fun _ facts => (Ok tt, facts).

(** ** The registry *)

Definition ActionRegistry : Type := gmap str ActionHandler.
Definition empty : ActionRegistry := ∅.
Definition register (action_type : str) (handler : ActionHandler) (r : ActionRegistry) : ActionRegistry :=
  <[action_type := handler]> r.
Definition with_builtins : ActionRegistry :=
  register (lit "log") log_handler
    (register (lit "increment") increment_handler (register (lit "set") set_handler empty)).
Definition contains (action_type : str) (r : ActionRegistry) : bool := is_some (r !! action_type).

Definition apply (r : ActionRegistry) : ActionHandler := fun action facts =>
  match r !! action_type action with
  | Some handler => handler action facts
  | None => (Err (Unsupported (action_type action)), facts)
  end.

Record ActionOutcome : Type := mkOutcome { executed : list (Action V); error : option str }.

(** The loop, with the actions executed and the errors so far. *)
Fixpoint execute_loop (r : ActionRegistry) (actions executed : list (Action V)) (errors : list str) (facts : Fact V)
  : list (Action V) * list str * Fact V :=
  match actions with
  | [] => (executed, errors, facts)
  | action :: actions =>
      match apply r action facts with
      | (Ok _, facts) => execute_loop r actions (executed ++ [action]) errors facts
      | (Err e, facts) =>
          execute_loop r actions executed
            (errors ++ [action_type action ++ lit ": " ++ action_error_to_string e]) facts
      end
  end.

Definition execute (r : ActionRegistry) (actions : list (Action V)) (facts : Fact V) : ActionOutcome * Fact V :=
  let '(executed, errors, facts) := execute_loop r actions [] [] facts in
  (mkOutcome executed (match errors with [] => None | _ => Some (join (lit "; ") errors) end), facts).

(** ** The service *)

(** The trait [Evaluator], whose default ignores the mode. *)
Record Evaluator : Type := mkEvaluator {
  evaluator_evaluate : RuleSet V -> Fact V -> Result (Verdict V) EvalError;
  evaluator_with_mode : RuleSet V -> Fact V -> EvaluationMode -> Result (Verdict V) EvalError
}.

Definition default_with_mode (evaluate : RuleSet V -> Fact V -> Result (Verdict V) EvalError)
  (set : RuleSet V) (fact : Fact V) (_ : EvaluationMode) : Result (Verdict V) EvalError := evaluate set fact.

Definition AstEvaluator `{Regexes} : Evaluator := mkEvaluator evaluate_sync evaluate_with_mode.

(** [MemoryRuleSetRepository]: one map behind a lock, each operation atomic. *)
Definition Repository : Type := gmap str (RuleSet V).
Definition save (ruleset : RuleSet V) (store : Repository) : Repository := <[name ruleset := ruleset]> store.
Definition get (name : str) (store : Repository) : option (RuleSet V) := store !! name.
Definition list_ (store : Repository) : list (RuleSet V) := map snd (map_to_list store).
Definition delete_ (name : str) (store : Repository) : bool * Repository :=
  (is_some (store !! name), delete name store).

Inductive ServiceError : Type :=
| RuleSetNotFound (name : str)
| Eval (e : EvalError).

Record EvaluationOutcome : Type := mkEvaluationOutcome {
  verdict : Verdict V;
  facts : Fact V;
  actions_executed : list (Action V);
  outcome_error : option str
}.

(** The four counters, by rule set. *)
Record RuleEngineMetrics : Type := mkMetrics {
  evaluations : gmap str f64;
  matched_total : gmap str f64;
  actions_fired : gmap str f64;
  errors : gmap str f64
}.

Definition inc_by (label : str) (x : f64) (counter : gmap str f64) : gmap str f64 :=
  <[label := f64_add (default (f64_of_Z 0) (counter !! label)) x]> counter.
Definition inc (label : str) : gmap str f64 -> gmap str f64 := inc_by label (f64_of_Z 1).

Definition record (name : str) (o : EvaluationOutcome) (m : RuleEngineMetrics) : RuleEngineMetrics :=
  mkMetrics
    (inc name (evaluations m))
    (if negb (is_nil (matched (verdict o))) then inc name (matched_total m) else matched_total m)
    (if negb (is_nil (actions_executed o))
     then inc_by name (f64_of_Z (Z.of_nat (List.length (actions_executed o)))) (actions_fired m)
     else actions_fired m)
    (if is_some (outcome_error o) then inc name (errors m) else errors m).

Record RuleEngineService : Type := mkService {
  repository : Repository;
  evaluator : Evaluator;
  registry : ActionRegistry;
  mode : EvaluationMode;
  metrics : option RuleEngineMetrics
}.

Definition in_memory_with_registry `{Regexes} (r : ActionRegistry) : RuleEngineService :=
  mkService ∅ AstEvaluator r All None.
Definition in_memory `{Regexes} : RuleEngineService := in_memory_with_registry with_builtins.

Definition with_mode (mode : EvaluationMode) (s : RuleEngineService) : RuleEngineService :=
  mkService (repository s) (evaluator s) (registry s) mode (metrics s).

Definition service_register (ruleset : RuleSet V) (s : RuleEngineService) : RuleEngineService :=
  mkService (save ruleset (repository s)) (evaluator s) (registry s) (mode s) (metrics s).

Definition evaluate (ruleset : RuleSet V) (fact : Fact V) (s : RuleEngineService)
  : Result EvaluationOutcome EvalError * RuleEngineService :=
  match evaluator_with_mode (evaluator s) ruleset fact (mode s) with
  | Err e => (Err e, s)
  | Ok verdict =>
      let '(outcome, facts) := execute (registry s) (actions verdict) fact in
      let outcome := mkEvaluationOutcome verdict facts (executed outcome) (error outcome) in
      (Ok outcome,
       mkService (repository s) (evaluator s) (registry s) (mode s)
         (record (name ruleset) outcome <$> metrics s))
  end.

Definition evaluate_by_name (name : str) (fact : Fact V) (s : RuleEngineService)
  : Result EvaluationOutcome ServiceError * RuleEngineService :=
  match get name (repository s) with
  | None => (Err (RuleSetNotFound name), s)
  | Some ruleset => let '(r, s) := evaluate ruleset fact s in (map_err Eval r, s)
  end.
End Actions.

Arguments ActionHandler V {_} : rename.
Arguments ActionRegistry V {_} : rename.

(** * Writing and reading paths *)

Section Paths.
Context {V : Type} `{JsonTree V} `{!JsonLaws V}.

(** [read_path] below a map. *)
Definition read_parts (part : str) (parts : list str) (m : Fact V) : option V :=
  current ← map_get part m; descend parts current.

Lemma read_path_parts part parts facts path : split 46%N path = part :: parts ->
  read_path facts path = read_parts part parts facts.
Proof. intros E. unfold read_path. by rewrite E. Qed.

Lemma read_parts_next part next parts (m : Fact V) :
  read_parts part (next :: parts) m = (current ← map_get part m; next ← value_get next current; descend parts next).
Proof. done. Qed.

Lemma read_parts_child part next parts (m : Fact V) :
  read_parts part (next :: parts) m = read_parts next parts (child part m).
Proof.
  unfold read_parts, child. destruct (map_get part m) as [v|]; cbn [mbind option_bind descend].
  - unfold value_get. destruct (view v); cbn [mbind option_bind]; try done; by rewrite map_get_new.
  - by rewrite map_get_new.
Qed.

Lemma read_write part parts v (m : Fact V) : read_parts part parts (write_parts part parts v m) = Some v.
Proof.
  revert part m. induction parts as [|next parts IH]; intros part m; cbn [write_parts].
  - unfold read_parts. by rewrite map_get_insert.
  - rewrite read_parts_child. unfold child. rewrite map_get_insert. unfold json_object. by rewrite view_inject.
Qed.

(** Two paths neither of which continues the other. *)
Inductive diverge : list str -> list str -> Prop :=
| diverge_here x y l l' : x <> y -> diverge (x :: l) (y :: l')
| diverge_later x l l' : diverge l l' -> diverge (x :: l) (x :: l').

Lemma read_write_diverge part parts q qs v (m : Fact V) : diverge (part :: parts) (q :: qs) ->
  read_parts q qs (write_parts part parts v m) = read_parts q qs m.
Proof.
  revert part q qs m. induction parts as [|next parts IH]; intros part q qs m D; inversion D as [? ? ? ? N|? ? ? D']; subst.
  - unfold read_parts. cbn [write_parts]. by rewrite map_get_insert_ne.
  - inversion D'.
  - unfold read_parts. cbn [write_parts]. by rewrite map_get_insert_ne.
  - destruct qs as [|q' qs]; [inversion D'|]. rewrite !read_parts_child, <- (IH next q' qs (child q m)); [|done].
    unfold child at 1. cbn [write_parts]. rewrite map_get_insert. unfold json_object. by rewrite view_inject.
Qed.
End Paths.

Section ActionLaws.
Context {V : Type} `{JsonTree V} `{!JsonFloats V}.

(** A [set] action does what a later condition reads: it succeeds, the
    target path then resolves to the written value, whatever was in the way of
    it, and every path that neither continues the target nor is continued by
    it resolves as before. *)
Theorem set_then_lookup `{!JsonLaws V} (action : Action V) (facts : Fact V) (target : str)
  (A : action_type action = lit "set")
  (T : target_of action = Some target) :
  exists facts', apply with_builtins action facts = (Ok tt, facts') /\
    lookup facts' target = Some (or_null (map_get (lit "value") (params action))) /\
    forall q, diverge (split 46%N target) (split 46%N q) -> lookup facts' q = lookup facts q.
Proof.
  unfold apply. rewrite A.
  change (with_builtins !! lit "set") with (Some (set_handler : ActionHandler V)). unfold set_handler.
  unfold require_target. rewrite T. cbn [ok_or].
  eexists. split; [reflexivity|]. unfold write_path.
  destruct (split 46%N target) as [|part parts] eqn:E; [by apply split_nonempty in E|]. split.
  - change (lookup ?f target) with (read_path f target). by rewrite (read_path_parts _ _ _ _ E), read_write.
  - intros q D. change (lookup ?f q) with (read_path f q).
    destruct (split 46%N q) as [|p ps] eqn:Eq; [by apply split_nonempty in Eq|].
    by rewrite !(read_path_parts _ _ _ _ Eq), read_write_diverge.
Qed.

(** ** Isolation *)

(** Whether the handlers of a registry leave the facts alone when they fail. *)
Definition fails_clean (r : ActionRegistry V) : Prop :=
  forall action facts e facts', apply r action facts = (Err e, facts') -> facts' = facts.

Lemma builtins_cases (t : str) (h : ActionHandler V) : with_builtins !! t = Some h ->
  t = lit "set" /\ h = set_handler \/ t = lit "increment" /\ h = increment_handler \/
  t = lit "log" /\ h = log_handler.
Proof.
  unfold with_builtins, register, empty. intros E.
  apply (lookup_insert_Some (M:=gmap str)) in E as [[<- <-]|[_ E]]; [by right; right|].
  apply (lookup_insert_Some (M:=gmap str)) in E as [[<- <-]|[_ E]]; [by right; left|].
  apply (lookup_insert_Some (M:=gmap str)) in E as [[<- <-]|[_ E]]; [by left|]. discriminate E.
Qed.

Lemma builtins_fail_clean : fails_clean with_builtins.
Proof.
  intros action facts e facts'. unfold apply.
  destruct (with_builtins !! action_type action) as [h|] eqn:E; [|by intros [= _ <-]].
  apply builtins_cases in E as [[_ ->]|[[_ ->]|[_ ->]]]; [| |done].
  - unfold set_handler. destruct (require_target _ _); [done|by intros [= _ <-]].
  - unfold increment_handler. cbn zeta. destruct (require_target _ _); [|by intros [= _ <-]].
    destruct (add_numeric _ _); [done|by intros [= _ <-]].
Qed.

Lemma execute_loop_spec (r : ActionRegistry V) acts facts : fails_clean r -> forall ex errs ex' errs' facts',
  execute_loop r acts ex errs facts = (ex', errs', facts') ->
  exists new newerrs, ex' = ex ++ new /\ errs' = errs ++ newerrs /\
    sublist new acts /\ (List.length acts = List.length new + List.length newerrs)%nat /\
    forall ex0 errs0, execute_loop r new ex0 errs0 facts = (ex0 ++ new, errs0, facts').
Proof.
  intros C. revert facts. induction acts as [|a acts IH]; intros facts ex errs ex' errs' facts'; cbn [execute_loop].
  { intros [= <- <- <-]. exists [], []. rewrite !app_nil_r. repeat split; [constructor|].
    intros ex0 errs0. by rewrite app_nil_r. }
  destruct (apply r a facts) as [[[]|e] facts1] eqn:E.
  - intros (new & newerrs & -> & -> & S & L & R)%IH. exists (a :: new), newerrs. rewrite <- app_assoc.
    split; [done|]. split; [done|]. split; [by constructor|]. split; [simpl; lia|].
    intros ex0 errs0. cbn [execute_loop]. by rewrite E, R, <- app_assoc.
  - intros (new & newerrs & -> & -> & S & L & R)%IH. eexists new, (_ :: newerrs). rewrite <- app_assoc.
    split; [done|]. split; [done|]. split; [by constructor|]. split; [simpl; lia|].
    intros ex0 errs0. apply C in E as ->. apply R.
Qed.

Lemma sublist_full {A} (l1 l2 : list A) : sublist l1 l2 -> List.length l1 = List.length l2 -> l1 = l2.
Proof.
  induction 1 as [|x l1 l2 S IH|x l1 l2 S IH]; simpl; intros L; [done|f_equal; apply IH; lia|].
  apply sublist_length in S. lia.
Qed.

(** A failing action is as if it had not been there: the run reports no
    error exactly when every action was executed, the executed actions are
    those of the list in its order, and running only them on the same facts
    executes all of them, without error, to the same facts. *)
Theorem failing_actions_isolated (r : ActionRegistry V) (acts : list (Action V)) (facts : Fact V)
  (C : fails_clean r) :
  let '(outcome, facts') := execute r acts facts in
  sublist (executed outcome) acts /\
  (error outcome = None <-> executed outcome = acts) /\
  execute r (executed outcome) facts = (mkOutcome (executed outcome) None, facts').
Proof.
  unfold execute. destruct (execute_loop r acts [] [] facts) as [[ex errs] facts'] eqn:E.
  apply execute_loop_spec in E as (new & newerrs & -> & -> & S & L & R); [|done]. cbn [executed error app].
  split; [done|]. split; [|by rewrite R].
  destruct newerrs as [|e newerrs]; simpl in L.
  - split; [|done]. intros _. apply sublist_full; [done|lia].
  - split; [done|]. intros ->. lia.
Qed.

(** ** Clean rule sets *)

Lemma add_numeric_error (a b : V) e : add_numeric a b = Err e -> e = NonNumericIncrement.
Proof.
  assert (N : forall v e, numeric_operand v = Err e -> e = NonNumericIncrement).
  { intros v e1. unfold numeric_operand. destruct (view v) as [| |n| | |]; try done; try by intros [= <-].
    destruct (as_i64 n); [done|]. destruct (as_f64 n); [done|]. by intros [= <-]. }
  unfold add_numeric. destruct (numeric_operand a) as [x|e1] eqn:Ea; cbn [result_bind].
  - destruct (numeric_operand b) as [y|e2] eqn:Eb; cbn [result_bind].
    + by destruct (fst x), (fst y).
    + intros [= <-]. by apply N in Eb.
  - intros [= <-]. by apply N in Ea.
Qed.

(** An action the linter passed fails, with the built-in handlers, only by
    being of a type left to custom handlers, or on a value it cannot add to. *)
Lemma clean_action_errors debug (a : Action V) rid branch facts e facts' :
  check_action debug a rid branch = [] -> apply with_builtins a facts = (Err e, facts') ->
  e = NonNumericIncrement \/
  exists t, e = Unsupported t /\ (t = lit "call" \/ t = lit "calculate").
Proof.
  unfold check_action. intros [K T]%app_nil E.
  assert (List.In (action_type a) KNOWN_ACTION_TYPES) as Kn.
  { apply member_spec. by destruct (member (action_type a) KNOWN_ACTION_TYPES). }
  assert (Tg : List.In (action_type a) TARGET_REQUIRED -> exists s, target_of a = Some s).
  { intros M%member_spec. rewrite M in T. unfold has_target in T.
    destruct (target_of a) as [s|]; [by exists s|done]. }
  unfold apply in E. destruct (with_builtins !! action_type a) as [h|] eqn:Eh.
  - apply builtins_cases in Eh as [[Et ->]|[[Et ->]|[Et ->]]]; [| |done].
    + destruct Tg as [s Es]; [rewrite Et; by left|]. unfold set_handler, require_target in E. by rewrite Es in E.
    + destruct Tg as [s Es]; [rewrite Et; by right; left|].
      unfold increment_handler, require_target in E. rewrite Es in E. cbn [ok_or] in E.
      destruct (add_numeric _ _) as [|e'] eqn:Ea; [done|]. injection E as <- <-. left.
      by apply add_numeric_error in Ea.
  - injection E as <- <-. right. exists (action_type a). split; [done|].
    destruct Kn as [K1|[K1|[K1|[K1|[K1|[]]]]]]; rewrite <- K1 in Eh |- *; [done|done|done|by left|by right].
Qed.

Lemma nodup_map_filter {A B} (f : A -> B) p l : List.NoDup (map f l) -> List.NoDup (map f (List.filter p l)).
Proof.
  induction l as [|x l IH]; simpl; [done|]. rewrite List.NoDup_cons_iff. intros [N D].
  destruct (p x); [|auto]. simpl. constructor; [|auto]. intros (y & E & [I _]%filter_In)%in_map_iff.
  apply N. rewrite <- E. by apply in_map.
Qed.

Lemma ids_of_in (fired : list (Rule V * bool)) i : List.In i (ids_of fired) -> List.In i (map id (map fst fired)).
Proof.
  unfold ids_of. rewrite map_map. intros (p & <- & [I _]%filter_In)%in_map_iff. apply in_map_iff. by exists p.
Qed.

Lemma ids_of_nodup (fired : list (Rule V * bool)) rest :
  List.NoDup (map id (map fst fired ++ rest)) -> List.NoDup (ids_of fired).
Proof.
  induction fired as [|[r b] fired IH]; [constructor|]. simpl. rewrite List.NoDup_cons_iff. intros [N D].
  unfold ids_of. simpl. destruct b; [|auto]. simpl. constructor; [|auto].
  intros I. apply N. rewrite map_app, in_app_iff. left. by apply ids_of_in.
Qed.

Lemma actions_of_in (fired : list (Rule V * bool)) a : List.In a (actions_of fired) ->
  exists r, List.In r (map fst fired) /\ (List.In a (then_ r) \/ List.In a (otherwise r)).
Proof.
  unfold actions_of. intros ([r b] & I & A)%in_flat_map. exists r. simpl in A. split.
  - apply in_map_iff. by exists (r, b).
  - destruct b; auto.
Qed.

(** C11 A rule set the linter has nothing to say about goes wrong only where
    the linter does not look. On any fact and in either mode the evaluation
    reports no rule twice, and if it fails it fails under the id of a rule, at
    one of that rule's conditions: its regular expression does not compile; or
    it is an ordering of which the fact's value or the rule's own operand is
    not a number; or a [between] over three values, the fact's and the rule's
    two bounds, that are neither all numbers nor all strings. It never fails on
    an unknown operator or on a [between] operand that is not a list of two.
    With the built-in handlers an action of the verdict never lacks its target
    and is never of an unknown type, other than the two left to custom handlers. *)
Theorem linted_rules_run `{Regexes} (debug : str -> str) (set : RuleSet V) (fact : Fact V) (mode : EvaluationMode)
  (L : validate_ruleset debug set = []) :
  match evaluate_with_mode set fact mode with
  | Err e => exists r c e', List.In r (rules set) /\ List.In c (conditions (when r)) /\
      e = RuleFailed (id r) e' /\ run_time_error fact c e'
  | Ok v =>
      List.NoDup (matched v) /\
      forall a facts e facts', List.In a (actions v) -> apply with_builtins a facts = (Err e, facts') ->
        e = NonNumericIncrement \/ exists t, e = Unsupported t /\ (t = lit "call" \/ t = lit "calculate")
  end.
Proof.
  apply check_rules_clean in L as (C & N & _). rewrite Forall_forall in C.
  assert (Sub : forall r, List.In r (firing_order set) -> List.In r (rules set)).
  { intros r [I _]%filter_In. eapply Permutation_in; [apply sort_by_permutation|exact I]. }
  assert (Nd : List.NoDup (map id (firing_order set))).
  { apply nodup_map_filter. eapply Permutation_NoDup; [|exact N].
    apply Permutation_map. symmetry. apply sort_by_permutation. }
  unfold evaluate_with_mode. destruct (fire _ _ _ _) as [v|e] eqn:E.
  - apply fire_ok in E as (fired & rest & Ef & _ & M & A & _). fold (firing_order set) in Ef. split.
    + rewrite M. rewrite Ef in Nd. by apply (ids_of_nodup fired rest).
    + intros a facts e facts' I. rewrite A in I. apply actions_of_in in I as (r & Ir & Ia).
      destruct (C r) as (_ & T & O).
      { apply list_elem_of_In, Sub. rewrite Ef. apply in_app_iff. by left. }
      destruct Ia as [I|I]; [by apply clean_action_errors with debug (id r) (lit "then"), T|
                             by apply clean_action_errors with debug (id r) (lit "otherwise"), O].
  - apply fire_err in E as (before & r & after & e' & Ef & _ & Er & ->).
    assert (I : List.In r (rules set)).
    { apply Sub. unfold firing_order. rewrite Ef. apply in_app_iff. right. by left. }
    destruct (C r) as (Cl & _); [by apply list_elem_of_In|].
    destruct (check_logic_sound debug (id r) (when r) fact e' Cl Er) as (c & Ic & R). by exists r, c, e'.
Qed.
End ActionLaws.

(** * Concrete values and rule sets *)

Fixpoint json_height (v : json) : nat :=
  match v with
  | JArray l => S (fold_right (fun x h => Nat.max (json_height x) h) O l)
  | JObject m => S (fold_right (fun '(_, x) h => Nat.max (json_height x) h) O m)
  | _ => O
  end.

Instance json_tree : JsonTree json := {
  is_f64 n := match n with inl _ => false | inr _ => true end;
  as_i64 n := match n with inl z => if in_i64 z then Some z else None | inr _ => None end;
  map_len := @List.length (str * json);
  map_entries m := m;
  height := json_height
}.

Instance json_tree_laws : JsonTreeLaws json.
Proof.
  split.
  - intros [| b|n|f|s|l|m] items x; simpl; try done. intros [= <-] I. apply Nat.lt_succ_r.
    induction l as [|y l IH]; [done|]. simpl. destruct I as [->|I]; [lia|]. specialize (IH I). lia.
  - intros [| b|n|f|s|l|m] m' k x; simpl; try done. intros [= <-] I. apply Nat.lt_succ_r.
    induction m as [|[k' y] m IH]; [done|]. simpl. destruct I as [[= -> ->]|I]; [lia|]. specialize (IH I). lia.
Qed.

Instance no_regexes : Regexes := { regex_new := fun _ => Err (lit "not here") }.

Section Witnesses.
Let debug (s : str) : str := [34%N] ++ s ++ [34%N].
Let half : json := value_of_f64 (f64_div (f64_of_Z 1) (f64_of_Z 2)).

Definition set_action (target : str) (v : json) : Action json :=
  mkAction (lit "set") [(lit "target", JString target); (lit "value", v)].

Definition orders : RuleSet json :=
  mkRuleSet (lit "orders") (lit "1")
    [mkRule (lit "small") [] 0 true (cond (lit "order.amount") Op.Lt (JNumber 10)) []
       [mkAction (lit "increment") [(lit "target", JString (lit "big"))]];
     mkRule (lit "vip") [] 5 true
       (all [cond (lit "order.amount") Op.Gte (JNumber 1000); cond (lit "order.country") Op.In (JArray [JString (lit "ES")])])
       [set_action (lit "user.tier") (JString (lit "vip"))] []].

Definition order_fact (amount : json) : Fact json :=
  [(lit "order", JObject [(lit "amount", amount); (lit "country", JString (lit "ES"))])].

Lemma linted_rules_run_witness :
  validate_ruleset debug orders = [] /\
  (exists v, evaluate_with_mode orders (order_fact (JNumber 1500)) All = Ok v /\ matched v = [lit "vip"] /\
     List.NoDup (matched v)) /\
  (exists r c e', List.In r (rules orders) /\ List.In c (conditions (when r)) /\
     evaluate_with_mode orders (order_fact (JBool true)) All = Err (RuleFailed (id r) e') /\
     run_time_error (order_fact (JBool true)) c e').
Proof.
  split; [reflexivity|]. split.
  - pose proof (linted_rules_run debug orders (order_fact (JNumber 1500)) All eq_refl) as T.
    destruct (evaluate_with_mode orders (order_fact (JNumber 1500)) All) as [v|e] eqn:E; [|discriminate E].
    exists v. split; [done|]. destruct T as [N _]. split; [|exact N]. injection E as <-. reflexivity.
  - pose proof (linted_rules_run debug orders (order_fact (JBool true)) All eq_refl) as T.
    destruct (evaluate_with_mode orders (order_fact (JBool true)) All) as [v|e] eqn:E; [discriminate E|].
    destruct T as (r & c & e' & I & Ic & -> & R). by exists r, c, e'.
Defined.

(** The linter does not look into operands: these two rules pass it, and fail on
    every fact that has a number there. *)
Example operands_are_not_linted :
  let rs c := mkRuleSet (lit "orders") (lit "1") [mkRule (lit "r") [] 0 true c [] []] in
  let below := rs (cond (lit "order.amount") Op.Lt (JString (lit "x"))) in
  let within := rs (cond (lit "order.amount") Op.Between (JArray [JNull; JString (lit "x")])) in
  (validate_ruleset debug below, validate_ruleset debug within) = ([], []) /\
  evaluate_with_mode below (order_fact (JNumber 5)) All
    = Err (RuleFailed (lit "r") (NonNumericCompare Op.Lt (lit "number") (lit "string"))) /\
  evaluate_with_mode within (order_fact (JNumber 5)) All
    = Err (RuleFailed (lit "r") (NonNumericCompare Op.Between (lit "number") (lit "null"))).
Proof. repeat split. Qed.

Lemma set_then_lookup_witness : exists facts',
  apply with_builtins (set_action (lit "order.tag.name") half) (order_fact (JNumber 7)) = (Ok tt, facts') /\
  lookup facts' (lit "order.tag.name") = Some half /\ lookup facts' (lit "order.amount") = Some (JNumber 7).
Proof.
  destruct (set_then_lookup (set_action (lit "order.tag.name") half) (order_fact (JNumber 7)) (lit "order.tag.name")
    eq_refl eq_refl) as (facts' & A & R & F).
  exists facts'. split; [exact A|]. split; [exact R|]. rewrite F; [reflexivity|].
  apply diverge_later, diverge_here. discriminate.
Defined.

Lemma failing_actions_isolated_witness :
  let acts := [mkAction (lit "teleport") []; set_action (lit "a") (JNumber 1); mkAction (lit "set") []] in
  let '(outcome, facts') := execute with_builtins acts [] in
  executed outcome = [set_action (lit "a") (JNumber 1)] /\
  execute with_builtins (executed outcome) [] = (mkOutcome (executed outcome) None, facts').
Proof.
  intros acts. pose proof (failing_actions_isolated with_builtins acts [] builtins_fail_clean) as T.
  destruct (execute with_builtins acts []) as [outcome facts'] eqn:E. destruct T as (_ & _ & R).
  split; [|exact R]. injection E as <- <-. reflexivity.
Defined.

(** Adding one to the largest integer wraps around. *)
Example increment_wraps :
  increment_handler (mkAction (lit "increment") [(lit "target", JString (lit "n"))]) [(lit "n", JNumber I64_MAX)]
  = (Ok tt, [(lit "n", JNumber I64_MIN)]).
Proof. reflexivity. Qed.

(** [FirstMatch] stops at the highest priority that holds; [All] goes on. *)
Example first_match_stops :
  option_map matched (match evaluate_with_mode orders (order_fact (JNumber 1500)) FirstMatch with Ok v => Some v | _ => None end)
  = Some [lit "vip"].
Proof. reflexivity. Qed.
End Witnesses.
