(* ===== verification/Plugins.v ===== *)
(** Plugins: the dependency order of [crates/plugins/src/resolve.rs], the
    ordered registry of [lib.rs], the manager of [manager.rs] and the extension
    points of [extension.rs].

    The start and stop hooks of a plugin belong to the application: they act on
    a world [W] and may fail. *)
From Stdlib Require Import Ascii String.
From Stdlib Require Import ZArith NArith List Lia Sorting.Sorted Sorting.Permutation.
From stdpp Require Import base decidable list gmap.
From S2P Require Import Prelude Str Order Kahn.

Inductive ResolutionError : Type :=
| MissingDependency (plugin missing : str)
| Cycle.

(** * The dependency order *)

(** The map from a name to its first index. *)
Fixpoint index_of (nodes : list (str * list str)) (i : nat) (index : gmap str nat) : gmap str nat :=
  match nodes with
  | [] => index
  | (name, _) :: nodes =>
      index_of nodes (S i) (match index !! name with Some _ => index | None => <[name := i]> index end)
  end.

(** The inner loop over one plugin's dependencies, and the loop over the plugins. *)
Fixpoint count_deps (name : str) (i : nat) (deps : list str) (index : gmap str nat) (g : Graph)
  : Result Graph ResolutionError :=
  match deps with
  | [] => Ok g
  | dep :: deps =>
      match index !! dep with
      | None => Err (MissingDependency name dep)
      | Some dep_idx => count_deps name i deps index (add_edge i dep_idx g)
      end
  end.

Fixpoint count_all (nodes : list (str * list str)) (i : nat) (index : gmap str nat) (g : Graph)
  : Result Graph ResolutionError :=
  match nodes with
  | [] => Ok g
  | (name, deps) :: nodes => g <-? count_deps name i deps index g; count_all nodes (S i) index g
  end.

(** [BTreeSet<usize>], as the sorted list of its elements. *)
Fixpoint ready_insert (v : nat) (l : list nat) : list nat :=
  match l with
  | [] => [v]
  | x :: l' => if (v <? x)%nat then v :: l else if (v =? x)%nat then l else x :: ready_insert v l'
  end.

(** The edges out of the plugin just placed. *)
Fixpoint release (ds in_degree ready : list nat) : list nat * list nat :=
  match ds with
  | [] => (in_degree, ready)
  | d :: ds =>
      let in_degree := alter pred d in_degree in
      release ds in_degree (if (default 0%nat (in_degree !! d) =? 0)%nat then ready_insert d ready else ready)
  end.

(** The loop that takes the smallest ready index; it places one plugin a turn. *)
Fixpoint place (fuel : nat) (ready : list nat) (dependents : list (list nat)) (ordered in_degree : list nat)
  : list nat :=
  match fuel, ready with
  | O, _ | _, [] => ordered
  | S fuel, current :: ready =>
      let '(in_degree, ready) := release (default [] (dependents !! current)) in_degree ready in
      place fuel ready dependents (ordered ++ [current]) in_degree
  end.

Definition topological_order (nodes : list (str * list str)) : Result (list nat) ResolutionError :=
  let n := List.length nodes in
  g <-? count_all nodes 0 (index_of nodes 0 ∅) (replicate n 0%nat, replicate n []);
  let '(in_degree, dependents) := g in
  let ready := List.filter (fun i => (default 0%nat (in_degree !! i) =? 0)%nat) (seq 0 n) in
  let ordered := place (S n) ready dependents [] in_degree in
  if negb (List.length ordered =? n)%nat then Err Cycle else Ok ordered.

(** ** The index and the tables *)

Lemma index_of_keeps nodes i index dep j : index !! dep = Some j -> index_of nodes i index !! dep = Some j.
Proof.
  revert i index. induction nodes as [|[name deps] nodes IH]; intros i index L; [done|]. cbn [index_of].
  apply IH. destruct (index !! name) eqn:N; [done|]. rewrite lookup_insert_ne; [done|congruence].
Qed.

Lemma index_of_in nodes i index dep j : index_of nodes i index !! dep = Some j ->
  index !! dep = Some j \/ exists k deps, nodes !! k = Some (dep, deps) /\ j = (i + k)%nat.
Proof.
  revert i index. induction nodes as [|[name deps] nodes IH]; intros i index; cbn [index_of]; [by left|].
  intros [L|(k & ds & G & ->)]%IH.
  - destruct (index !! name) as [x|] eqn:N; [by left|].
    destruct (decide (name = dep)) as [->|Ne]; [|rewrite lookup_insert_ne in L by done; by left].
    rewrite lookup_insert_eq in L. injection L as <-. right. exists O, deps. split; [done|lia].
  - right. exists (S k), ds. split; [done|lia].
Qed.

Lemma index_of_found nodes i index dep k deps : nodes !! k = Some (dep, deps) ->
  is_Some (index_of nodes i index !! dep).
Proof.
  revert i index k. induction nodes as [|[name ds] nodes IH]; intros i index k G; [done|]. cbn [index_of].
  destruct k as [|k]; [|by eapply IH]. injection G as -> ->.
  destruct (index !! dep) as [x|] eqn:N; [exists x|exists i]; apply index_of_keeps; [done|apply lookup_insert_eq].
Qed.

(** The edges out of plugin [i], and of the plugins from [i] on. *)
Definition edges_of (index : gmap str nat) (i : nat) (deps : list str) : list (nat * nat) :=
  map (fun j => (i, j)) (omap (fun dep => index !! dep) deps).

Fixpoint all_edges (index : gmap str nat) (i : nat) (nodes : list (str * list str)) : list (nat * nat) :=
  match nodes with
  | [] => []
  | (_, deps) :: nodes => edges_of index i deps ++ all_edges index (S i) nodes
  end.

Abbreviation add_edges g0 edges := (fold_left (fun g e => add_edge (fst e) (snd e) g) edges g0).

Lemma count_deps_spec name i deps index g :
  match count_deps name i deps index g with
  | Ok g' => g' = add_edges g (edges_of index i deps) /\ Forall (fun dep => is_Some (index !! dep)) deps
  | Err e => exists dep, In dep deps /\ index !! dep = None /\ e = MissingDependency name dep
  end.
Proof.
  revert g. induction deps as [|dep deps IH]; intros g; cbn [count_deps]; [by split; [|constructor]|].
  unfold edges_of. cbn [omap list_omap]. destruct (index !! dep) as [j|] eqn:L.
  - specialize (IH (add_edge i j g)). destruct (count_deps _ _ _ _ _) as [g'|e].
    + destruct IH as [-> F]. split; [done|]. by constructor; [exists j|].
    + destruct IH as (d & I & N & ->). exists d. by split; [right|].
  - exists dep. by split; [left|].
Qed.

Lemma count_all_spec nodes i index g :
  match count_all nodes i index g with
  | Ok g' => g' = add_edges g (all_edges index i nodes) /\
      Forall (fun nd => Forall (fun dep => is_Some (index !! dep)) (snd nd)) nodes
  | Err e => exists name deps dep, In (name, deps) nodes /\ In dep deps /\ index !! dep = None /\
      e = MissingDependency name dep
  end.
Proof.
  revert i g. induction nodes as [|[name deps] nodes IH]; intros i g; cbn [count_all all_edges]; [by split; [|constructor]|].
  pose proof (count_deps_spec name i deps index g) as S. destruct (count_deps _ _ _ _ _) as [g1|e]; cbn [result_bind].
  - destruct S as [-> F]. specialize (IH (S i) (add_edges g (edges_of index i deps))).
    destruct (count_all _ _ _ _) as [g2|e].
    + destruct IH as [-> F']. split; [by rewrite fold_left_app|by constructor].
    + destruct IH as (nm & ds & dep & I & R). exists nm, ds, dep. split; [by right|done].
  - destruct S as (dep & I & N & ->). exists name, deps, dep. by split; [left|].
Qed.

Lemma filter_edges index d i deps : List.filter (fun e => (fst e =? d)%nat) (edges_of index i deps) =
  if (i =? d)%nat then edges_of index i deps else [].
Proof.
  unfold edges_of. induction (omap (fun dep => index !! dep) deps) as [|j js IH]; simpl; [by destruct (i =? d)%nat|].
  rewrite IH. by destruct (i =? d)%nat.
Qed.

Lemma filter_all_edges index d nodes i : List.filter (fun e => (fst e =? d)%nat) (all_edges index i nodes) =
  if (i <=? d)%nat then match nodes !! (d - i)%nat with Some (_, deps) => edges_of index d deps | None => [] end else [].
Proof.
  revert i. induction nodes as [|[name deps] nodes IH]; intros i; cbn [all_edges]; [by destruct (i <=? d)%nat|].
  rewrite List.filter_app, filter_edges, IH. destruct (Nat.eqb_spec i d) as [->|N].
  - rewrite (proj2 (Nat.leb_gt (S d) d)), Nat.leb_refl, Nat.sub_diag by lia. by rewrite app_nil_r.
  - destruct (Nat.leb_spec (S i) d), (Nat.leb_spec i d); try lia; [|done].
    by replace (d - i)%nat with (S (d - S i)) by lia.
Qed.

Lemma count_filter (es : list (nat * nat)) d :
  count (map fst es) d = List.length (List.filter (fun e => (fst e =? d)%nat) es).
Proof.
  induction es as [|[i j] es IH]; [done|]. simpl. destruct (Nat.eq_dec i d) as [->|N].
  - rewrite Nat.eqb_refl. simpl. by rewrite IH.
  - by rewrite (proj2 (Nat.eqb_neq i d)).
Qed.

Section Resolve.
Context (nodes : list (str * list str)).
Abbreviation n := (List.length nodes).
Abbreviation index := (index_of nodes 0 ∅).

(** The indices plugin [d] waits for. *)
Definition dependency_indices (d : nat) : list nat :=
  match nodes !! d with Some (_, deps) => omap (fun dep => index !! dep) deps | None => [] end.

Lemma index_bound dep j : index !! dep = Some j -> (j < n)%nat /\ exists deps, nodes !! j = Some (dep, deps).
Proof.
  intros [L|(k & deps & G & ->)]%index_of_in; [by rewrite lookup_empty in L|].
  split; [by eapply lookup_lt_Some|by exists deps].
Qed.

Lemma edges_snd d deps : map snd (edges_of index d deps) = omap (fun dep => index !! dep) deps.
Proof. unfold edges_of. rewrite map_map. simpl. apply map_id. Qed.

Lemma edges_bound : Forall (fun e => (fst e < n)%nat /\ (snd e < n)%nat) (all_edges index 0 nodes).
Proof.
  assert (G : forall l i, (i + List.length l <= n)%nat ->
    Forall (fun e => (fst e < n)%nat /\ (snd e < n)%nat) (all_edges index i l)).
  { intros l. induction l as [|[name deps] l IH]; intros i B; cbn [all_edges]; [constructor|]. simpl in B.
    apply Forall_app. split; [|apply IH; lia]. unfold edges_of. rewrite Forall_map. apply Forall_forall.
    intros j (dep & _ & L)%list_elem_of_omap. apply index_bound in L as [L _]. simpl. lia. }
  apply G. lia.
Qed.

Lemma tables_spec in_degree dependents :
  (in_degree, dependents) = add_edges (replicate n 0%nat, replicate n []) (all_edges index 0 nodes) ->
  List.length in_degree = n /\
  (forall d, (d < n)%nat -> in_degree !! d = Some (List.length (dependency_indices d))) /\
  (forall i d, (i < n)%nat -> count (default [] (dependents !! i)) d =
     if (d <? n)%nat then count (dependency_indices d) i else 0%nat).
Proof.
  intros E. destruct (fold_edges_spec n (all_edges index 0 nodes) (replicate n 0%nat, replicate n [])) as (L1 & _ & D & C);
    [by simpl; rewrite length_replicate|by simpl; rewrite length_replicate|apply edges_bound|].
  rewrite <- E in L1, D, C. simpl in L1, D, C. split_and!; [done| |].
  - intros d Ld. specialize (D d Ld). rewrite lookup_replicate_2 in D by done. simpl in D.
    destruct (lookup_lt_is_Some_2 in_degree d ltac:(lia)) as [x X]. rewrite X in *. simpl in D. f_equal. rewrite D.
    rewrite count_filter, filter_all_edges. simpl. rewrite Nat.sub_0_r. unfold dependency_indices.
    destruct (nodes !! d) as [[nm deps]|]; [|done]. unfold edges_of. by rewrite length_map.
  - intros i d Li. rewrite C, lookup_replicate_2 by done. simpl.
    rewrite filter_all_edges. simpl. rewrite Nat.sub_0_r. unfold dependency_indices.
    destruct (nodes !! d) as [[nm deps]|] eqn:G.
    + apply lookup_lt_Some in G. rewrite (proj2 (Nat.ltb_lt d n)) by done. by rewrite edges_snd.
    + by destruct (d <? n)%nat.
Qed.

(** ** The ready set *)

Abbreviation increasing := (StronglySorted lt).

Lemma ready_insert_in v l x : In x (ready_insert v l) <-> x = v \/ In x l.
Proof.
  induction l as [|y l IH]; simpl; [firstorder|].
  destruct (Nat.ltb_spec v y); [simpl; firstorder|].
  destruct (Nat.eqb_spec v y) as [->|]; simpl; [|rewrite IH]; firstorder.
Qed.

Lemma ready_insert_increasing v l : increasing l -> increasing (ready_insert v l).
Proof.
  induction l as [|y l IH]; simpl; intros S; [by repeat constructor|].
  apply StronglySorted_inv in S as [S F]. destruct (Nat.ltb_spec v y).
  - constructor; [by constructor|]. constructor; [done|]. eapply List.Forall_impl; [|exact F]. simpl. lia.
  - destruct (Nat.eqb_spec v y) as [->|]; [by constructor|]. constructor; [by apply IH|].
    apply List.Forall_forall. intros x I. apply ready_insert_in in I as [->|I]; [lia|].
    rewrite List.Forall_forall in F. auto.
Qed.

Lemma ready_insert_permutation v l : ~ In v l -> Permutation (l ++ [v]) (ready_insert v l).
Proof.
  induction l as [|y l IH]; intros N; simpl; [done|]. destruct (Nat.ltb_spec v y).
  - change (y :: l ++ [v]) with ((y :: l) ++ [v]). symmetry. apply Permutation_cons_append.
  - destruct (Nat.eqb_spec v y) as [->|]; [exfalso; apply N; by left|].
    apply perm_skip, IH. intros I. apply N. by right.
Qed.

Lemma seq_increasing a k : increasing (seq a k).
Proof.
  revert a. induction k as [|k IH]; intros a; simpl; constructor; [apply IH|].
  apply List.Forall_forall. intros x I%in_seq. lia.
Qed.

Lemma filter_increasing p l : increasing l -> increasing (List.filter p l).
Proof.
  induction 1 as [|x l S IH F]; simpl; [constructor|]. destruct (p x); [|done]. constructor; [done|].
  rewrite List.Forall_forall in *. intros y [I _]%filter_In. auto.
Qed.

Section Place.
Context (dependents : list (list nat)).
Hypothesis dependents_count : forall i d, (i < n)%nat -> count (default [] (dependents !! i)) d =
  if (d <? n)%nat then count (dependency_indices d) i else 0%nat.
Abbreviation kahn := (kahn n dependency_indices).

Lemma release_kahn queue done in_degree ready : kahn done [] queue in_degree ready -> increasing ready ->
  let '(in_degree', ready') := release queue in_degree ready in
  kahn done [] [] in_degree' ready' /\ increasing ready'.
Proof.
  revert in_degree ready. induction queue as [|d queue IH]; intros in_degree ready K S; [done|]. cbn [release].
  pose proof (relax_one _ _ _ _ _ _ _ _ K) as K'. cbn zeta in K'. apply IH.
  - destruct (default 0%nat (alter pred d in_degree !! d) =? 0)%nat; [|done].
    eapply kahn_permute; [|exact K']. simpl. apply ready_insert_permutation.
    pose proof (k_nodup _ _ _ _ _ _ _ K') as N. simpl in N. rewrite app_assoc in N.
    intros I. apply (List.NoDup_remove_2 (done ++ ready) [] d N). rewrite app_nil_r, in_app_iff. by right.
  - destruct (_ =? 0)%nat; [by apply ready_insert_increasing|done].
Qed.

(** Every placed index is the smallest of those whose dependencies were placed. *)
Definition smallest_first (order : list nat) : Prop :=
  forall l1 i l2, order = l1 ++ i :: l2 -> forall j, (j < n)%nat -> ~ In j l1 ->
    (forall x, In x (dependency_indices j) -> In x l1) -> (i <= j)%nat.

Lemma pending_none done j : (forall x, In x (dependency_indices j) -> In x done) ->
  pending dependency_indices done j = 0%nat.
Proof.
  intros A. unfold pending. destruct (List.filter _ _) as [|x l] eqn:F; [done|].
  assert (I : In x (x :: l)) by (by left). rewrite <- F in I. apply filter_In in I as [I N].
  apply negb_true_iff, bool_decide_eq_false in N. by apply A, list_elem_of_In in I.
Qed.

Lemma place_kahn fuel ready done in_degree : kahn done ready [] in_degree [] -> increasing ready ->
  smallest_first done -> (n - List.length done < fuel)%nat ->
  exists in_degree', kahn (place fuel ready dependents done in_degree) [] [] in_degree' [] /\
    smallest_first (place fuel ready dependents done in_degree).
Proof.
  revert ready done in_degree. induction fuel as [|fuel IH]; intros ready done in_degree K S G L; [lia|].
  destruct ready as [|i ready]; cbn [place]; [by exists in_degree|].
  pose proof (kahn_take _ _ _ dependents_count _ _ _ _ _ K) as K1.
  apply StronglySorted_inv in S as [S F].
  assert (K2 : kahn (done ++ [i]) [] (default [] (dependents !! i)) in_degree ready).
  { eapply kahn_permute; [|exact K1]. by rewrite app_nil_r. }
  pose proof (release_kahn _ _ _ _ K2 S) as R. destruct (release _ _ _) as [in_degree' ready']. destruct R as [K3 S3].
  apply IH.
  - eapply kahn_permute; [|exact K3]. by rewrite app_nil_r.
  - done.
  - intros l1 x l2 E j Ln Nj A. destruct (list_eq_dec l2 []) as [->|N].
    + apply app_inj_tail in E as [<- <-].
      assert (J : In j ((i :: ready) ++ [])).
      { apply (k_zero _ _ _ _ _ _ _ K j Ln Nj). rewrite (k_degree _ _ _ _ _ _ _ K j Ln Nj). simpl.
        by rewrite pending_none. }
      rewrite app_nil_r in J. destruct J as [->|J]; [lia|]. rewrite List.Forall_forall in F. apply F in J. lia.
    + destruct (exists_last N) as (l2' & y & ->). rewrite app_comm_cons, app_assoc in E.
      apply app_inj_tail in E as [-> ->]. by apply (G l1 x l2' eq_refl).
  - pose proof (NoDup_below n (done ++ (i :: ready) ++ []) (k_nodup _ _ _ _ _ _ _ K) (k_bound _ _ _ _ _ _ _ K)) as Le.
    rewrite !length_app in *. simpl in *. lia.
Qed.
End Place.

Lemma topological_order_spec :
  match topological_order nodes with
  | Ok order => Permutation order (seq 0 n) /\ respects dependency_indices order /\ smallest_first order /\
      (forall name deps dep, In (name, deps) nodes -> In dep deps -> is_Some (index !! dep))
  | Err (MissingDependency plugin missing) =>
      (exists deps, In (plugin, deps) nodes /\ In missing deps) /\ forall deps, ~ In (missing, deps) nodes
  | Err Cycle => forall order, Permutation order (seq 0 n) -> ~ respects dependency_indices order
  end.
Proof.
  unfold topological_order. pose proof (count_all_spec nodes 0 index (replicate n 0%nat, replicate n [])) as S.
  destruct (count_all _ _ _ _) as [[in_degree dependents]|e]; cbn [result_bind].
  - destruct S as [E Res]. apply tables_spec in E as (L & D & C).
    set (ready := List.filter _ _).
    assert (K : kahn n dependency_indices [] ready [] in_degree []).
    { apply kahn_start; [done|done|apply List.NoDup_filter, seq_NoDup|]. intros d. unfold ready.
      rewrite filter_In, in_seq. split.
      - intros [Ld Z%Nat.eqb_eq]. split; [lia|]. rewrite D in Z |- * by lia. simpl in Z. by rewrite Z.
      - intros [Ld Z]. rewrite Z. split; [lia|done]. }
    destruct (place_kahn dependents C (Datatypes.S n) ready [] in_degree K) as (deg & Kf & G);
      [apply filter_increasing, seq_increasing|by intros []|simpl; lia|].
    set (order := place _ _ _ _ _) in *. pose proof Kf as [ND B _ _ _ Re _]. simpl in ND, B. rewrite app_nil_r in ND, B.
    destruct (Nat.eqb_spec (List.length order) n) as [Ln|Ln]; cbn [negb].
    + split; [by apply NoDup_full|]. split; [done|]. split; [done|]. intros name deps dep I Id.
      rewrite List.Forall_forall in Res. specialize (Res _ I). simpl in Res. rewrite List.Forall_forall in Res. auto.
    + intros order' P R. apply Ln. by eapply kahn_complete.
  - destruct S as (name & deps & dep & I & Id & N & ->). split; [by exists deps|].
    intros ds I2. apply list_elem_of_In, list_elem_of_lookup in I2 as [k G].
    destruct (index_of_found nodes 0 ∅ dep k ds G) as [x X]. congruence.
Qed.
(** The start order of plugins is the greedy topological one: when it is
    returned it holds every plugin once, each after everything it depends on (which are all there),
    and each the earliest registered of those that could come next, so without
    dependencies it is the registration order; a missing dependency is
    reported only for a name no plugin has, and a cycle only when no order
    exists. *)
Theorem topological_order_correct :
  match topological_order nodes with
  | Ok order => Permutation order (seq 0 n) /\ respects dependency_indices order /\ smallest_first order /\
      (forall name deps dep, In (name, deps) nodes -> In dep deps -> is_Some (index !! dep))
  | Err (MissingDependency plugin missing) =>
      (exists deps, In (plugin, deps) nodes /\ In missing deps) /\ forall deps, ~ In (missing, deps) nodes
  | Err Cycle => forall order, Permutation order (seq 0 n) -> ~ respects dependency_indices order
  end.
Proof. apply topological_order_spec. Qed.
End Resolve.

Example order_by_registration :
  topological_order (map (fun p => (lit (fst p), map lit (snd p)))
    [("web", ["db"; "log"]); ("db", []); ("audit", ["web"]); ("log", [])]%string) = Ok [1; 3; 0; 2]%nat.
Proof. vm_compute. reflexivity. Qed.
