(* ===== verification/PluginManager.v ===== *)
(** Running plugins: the registry of [crates/plugins/src/lib.rs], the manager of
    [manager.rs] and the extension points of [extension.rs].

    The start and stop hooks of a plugin belong to the application: they act on
    a world [W] and may fail with an [E]. An operation runs from its state and
    world to a result, with [None] for a panic; the manager's are modelled as
    one caller at a time makes them, since the lock is not held over the hooks. *)
From Stdlib Require Import Ascii String.
From Stdlib Require Import ZArith NArith List Lia Sorting.Sorted Sorting.Permutation.
From stdpp Require Import base decidable list gmap.
From S2P Require Import Prelude Str Order Closure Kahn Plugins.

Inductive PluginState : Type := Loaded | Started | Stopped | Failed.

#[export] Instance PluginState_eq_dec : EqDecision PluginState.
Proof. solve_decision. Defined.

Definition as_str (s : PluginState) : str :=
  match s with
  | Loaded => lit "LOADED" | Started => lit "STARTED" | Stopped => lit "STOPPED" | Failed => lit "FAILED"
  end.

Inductive PluginError (E : Type) : Type :=
| Start (name : str) (source : E)
| Stop (name : str) (source : E)
| Resolution (e : ResolutionError)
| Aggregate (errors : list (PluginError E)).
Arguments Start {E} name source.
Arguments Stop {E} name source.
Arguments Resolution {E} e.
Arguments Aggregate {E} errors.

Section Plugins.
Context {W E : Type}.

Record Plugin : Type := mkPlugin {
  name : str;
  depends_on : list str;
  start : W -> Result unit E * W;
  stop : W -> Result unit E * W
}.

(** * The registry *)

Record Registry : Type := mkRegistry {
  plugins : list Plugin;
  started : list Plugin;
  states : gmap str PluginState
}.

Definition registry_new : Registry := mkRegistry [] [] ∅.

(** The slot of the first plugin of that name, else a new one. *)
Fixpoint replace_or_push (p : Plugin) (l : list Plugin) : list Plugin :=
  match l with
  | [] => [p]
  | q :: l => if str_eqb (name q) (name p) then p :: l else q :: replace_or_push p l
  end.

Definition register (p : Plugin) (r : Registry) : Registry :=
  mkRegistry (replace_or_push p (plugins r)) (started r) (<[name p := Loaded]> (states r)).

Definition names (r : Registry) : list str := map name (plugins r).
Definition state (nm : str) (r : Registry) : option PluginState := states r !! nm.

(** The loop of [stop_started], from the last plugin back, with the errors and
    the states so far. *)
Fixpoint stop_loop (l : list Plugin) (errors : list (PluginError E)) (st : gmap str PluginState) (w : W)
  : list (PluginError E) * gmap str PluginState * W :=
  match l with
  | [] => (errors, st, w)
  | p :: l =>
      match stop p w with
      | (Err err, w) => stop_loop l (errors ++ [Stop (name p) err]) (<[name p := Failed]> st) w
      | (Ok _, w) => stop_loop l errors (<[name p := Stopped]> st) w
      end
  end.

Definition stop_started (started : list Plugin) (st : gmap str PluginState) (w : W)
  : option (PluginError E) * gmap str PluginState * W :=
  let '(errors, st, w) := stop_loop (rev started) [] st w in
  (match errors with
   | [] => None
   | [e] => Some e
   | _ => Some (Aggregate errors)
   end, st, w).

(** The start error joined with those of the rollback. *)
Definition joined_error (start_err : PluginError E) (stop_err : option (PluginError E)) : PluginError E :=
  match stop_err with
  | None => start_err
  | Some (Aggregate stops) => Aggregate (start_err :: stops)
  | Some stop_err => Aggregate [start_err; stop_err]
  end.

Fixpoint start_loop (snapshot : list Plugin) (order : list nat) (started : list Plugin)
    (st : gmap str PluginState) (w : W)
  : option (Result unit (PluginError E) * list Plugin * gmap str PluginState * W) :=
  match order with
  | [] => Some (Ok tt, started, st, w)
  | idx :: order =>
      match snapshot !! idx with
      | None => None
      | Some p =>
          match start p w with
          | (Err err, w) =>
              let '(stop_err, st, w) := stop_started started (<[name p := Failed]> st) w in
              Some (Err (joined_error (Start (name p) err) stop_err), [], st, w)
          | (Ok _, w) => start_loop snapshot order (started ++ [p]) (<[name p := Started]> st) w
          end
      end
  end.

Definition registry_start_all (r : Registry) (w : W) : option (Result unit (PluginError E) * Registry * W) :=
  let snapshot := plugins r in
  match topological_order (map (fun p => (name p, depends_on p)) snapshot) with
  | Err e => Some (Err (Resolution e), mkRegistry (plugins r) [] (states r), w)
  | Ok order =>
      '(res, started, st, w) ← start_loop snapshot order [] (states r) w;
      Some (res, mkRegistry (plugins r) started st, w)
  end.

Definition registry_stop_all (r : Registry) (w : W) : Result unit (PluginError E) * Registry * W :=
  let '(err, st, w) := stop_started (started r) (states r) w in
  (match err with None => Ok tt | Some e => Err e end, mkRegistry (plugins r) [] st, w).

(** * The manager *)

Record PluginDescriptor : Type := mkDescriptor {
  d_id : str;
  d_depends_on : list str;
  d_state : PluginState;
  loaded_at : Z;
  last_state_change : Z;
  failed_reason : option str
}.

Record Entry : Type := mkEntry { plugin : Plugin; descriptor : PluginDescriptor }.

Record Inner : Type := mkInner {
  entries : gmap str Entry;
  order : list str;
  all_started : bool
}.

Definition manager_new : Inner := mkInner ∅ [] false.

(** [Utc::now], read off the world, and a hook error's text. *)
Variable utc_now : W -> Z.
Variable error_text : E -> str.

Definition add (p : Plugin) (m : Inner) (w : W) : Inner :=
  let now := utc_now w in
  let order := if decide (is_Some (entries m !! name p)) then order m else order m ++ [name p] in
  mkInner (<[name p := mkEntry p (mkDescriptor (name p) (depends_on p) Loaded now now None)]> (entries m))
          order (all_started m).

Definition get_plugin (id : str) (m : Inner) : option PluginDescriptor := descriptor <$> entries m !! id.
Definition list_plugins (m : Inner) : list PluginDescriptor := omap (fun id => get_plugin id m) (order m).

Definition nodes (m : Inner) : list (str * list str) :=
  omap (fun id => (fun e => (id, d_depends_on (descriptor e))) <$> entries m !! id) (order m).

(** The indices are into the nodes; one out of range would panic. *)
Definition full_order (m : Inner) : option (Result (list str) ResolutionError) :=
  match topological_order (nodes m) with
  | Err e => Some (Err e)
  | Ok order => Ok <$> mapM (fun i => fst <$> nodes m !! i) order
  end.

Definition depends_of (m : Inner) (id : str) : list str :=
  match entries m !! id with Some e => d_depends_on (descriptor e) | None => [] end.

(** The loop over the queue, which is popped at its end: [queue.extend] puts
    the names in front of the stack, the last one first. *)
Definition deps_loop (fuel : nat) (m : Inner) : list str -> gset str -> option (gset str) :=
  walk (fun dep => rev (depends_of m dep)) fuel.

(** All the dependency names there are bound the pushes. *)
Definition deps_total (m : Inner) : nat :=
  sum_list_with (fun id => List.length (depends_of m id)) (map fst (map_to_list (entries m))).

Definition transitive_deps (m : Inner) (id : str) : option (gset str) :=
  deps_loop (S (List.length (depends_of m id) + deps_total m)) m (rev (depends_of m id)) ∅.

(** One sweep over the entries: what it adds, and whether it added anything. *)
Fixpoint sweep (id : str) (es : list (str * Entry)) (dependents : gset str) (changed : bool) : gset str * bool :=
  match es with
  | [] => (dependents, changed)
  | (_, entry) :: es =>
      let pid := d_id (descriptor entry) in
      if decide (pid ∈ dependents) then sweep id es dependents changed
      else
        let deps := d_depends_on (descriptor entry) in
        if bool_decide (id ∈ deps) || existsb (fun d => bool_decide (d ∈ dependents)) deps
        then sweep id es ({[pid]} ∪ dependents) true
        else sweep id es dependents changed
  end.

Fixpoint dependents_loop (fuel : nat) (m : Inner) (id : str) (dependents : gset str) : option (gset str) :=
  match fuel with
  | O => None
  | S fuel =>
      let '(dependents, changed) := sweep id (map_to_list (entries m)) dependents false in
      if changed then dependents_loop fuel m id dependents else Some dependents
  end.

(** Every sweep but the last adds an entry. *)
Definition transitive_dependents (m : Inner) (id : str) : option (gset str) :=
  dependents_loop (S (S (size (entries m)))) m id ∅.

Definition transition (s : PluginState) (reason : option str) (now : Z) (e : Entry) : Entry :=
  let d := descriptor e in
  mkEntry (plugin e) (mkDescriptor (d_id d) (d_depends_on d) s (loaded_at d) now reason).

(** [if let Some(entry) = entries.get_mut(id)]. *)
Definition set_state (id : str) (s : PluginState) (reason : option str) (m : Inner) (w : W) : Inner :=
  mkInner (alter (transition s reason (utc_now w)) id (entries m)) (order m) (all_started m).

Definition set_started (b : bool) (m : Inner) : Inner := mkInner (entries m) (order m) b.

Fixpoint run_start (ids : list str) (m : Inner) (w : W) : Result unit (PluginError E) * Inner * W :=
  match ids with
  | [] => (Ok tt, m, w)
  | id :: ids =>
      match entries m !! id with
      | None => run_start ids m w
      | Some e =>
          if decide (d_state (descriptor e) = Started) then run_start ids m w
          else
            match start (plugin e) w with
            | (Err err, w) => (Err (Start id err), set_state id Failed (Some (error_text err)) m w, w)
            | (Ok _, w) => run_start ids (set_state id Started None m w) w
            end
      end
  end.

Fixpoint run_stop (ids : list str) (m : Inner) (w : W) : Result unit (PluginError E) * Inner * W :=
  match ids with
  | [] => (Ok tt, m, w)
  | id :: ids =>
      match entries m !! id with
      | None => run_stop ids m w
      | Some e =>
          if decide (d_state (descriptor e) = Stopped \/ d_state (descriptor e) = Loaded) then run_stop ids m w
          else
            match stop (plugin e) w with
            | (Err err, w) => (Err (Stop id err), set_state id Failed (Some (error_text err)) m w, w)
            | (Ok _, w) => run_stop ids (set_state id Stopped None m w) w
            end
      end
  end.

Definition unknown (id : str) : PluginError E := Resolution (MissingDependency id id).

Definition start_plugin (id : str) (m : Inner) (w : W) : option (Result unit (PluginError E) * Inner * W) :=
  match entries m !! id with
  | None => Some (Err (unknown id), m, w)
  | Some _ =>
      full ← full_order m;
      match full with
      | Err e => Some (Err (Resolution e), m, w)
      | Ok full =>
          deps ← transitive_deps m id;
          Some (run_start (List.filter (fun pid => bool_decide (pid ∈ ({[id]} ∪ deps : gset str))) full) m w)
      end
  end.

Definition stop_plugin (id : str) (m : Inner) (w : W) : option (Result unit (PluginError E) * Inner * W) :=
  match entries m !! id with
  | None => Some (Err (unknown id), m, w)
  | Some _ =>
      full ← full_order m;
      match full with
      | Err e => Some (Err (Resolution e), m, w)
      | Ok full =>
          deps ← transitive_dependents m id;
          Some (run_stop (List.filter (fun pid => bool_decide (pid ∈ ({[id]} ∪ deps : gset str))) (rev full)) m w)
      end
  end.

Definition start_all (m : Inner) (w : W) : option (Result unit (PluginError E) * Inner * W) :=
  if all_started m then Some (Ok tt, m, w)
  else
    full ← full_order m;
    match full with
    | Err e => Some (Err (Resolution e), m, w)
    | Ok full =>
        match run_start full m w with
        | (Err e, m, w) => Some (Err e, m, w)
        | (Ok _, m, w) => Some (Ok tt, set_started true m, w)
        end
    end.

Definition stop_all (m : Inner) (w : W) : option (Result unit (PluginError E) * Inner * W) :=
  if negb (all_started m) then Some (Ok tt, m, w)
  else
    full ← full_order m;
    match full with
    | Err e => Some (Err (Resolution e), m, w)
    | Ok full =>
        match run_stop (rev full) m w with
        | (Err e, m, w) => Some (Err e, m, w)
        | (Ok _, m, w) => Some (Ok tt, set_started false m, w)
        end
    end.

Definition remove (id : str) (m : Inner) (w : W) : bool * Inner * W :=
  match entries m !! id with
  | None => (false, m, w)
  | Some e =>
      let w := if decide (d_state (descriptor e) = Started) then snd (stop (plugin e) w) else w in
      (true, mkInner (delete id (entries m)) (List.filter (fun pid => negb (str_eqb pid id)) (order m)) (all_started m), w)
  end.

Fixpoint remove_each (ids : list str) (m : Inner) (w : W) : Inner * W :=
  match ids with
  | [] => (m, w)
  | id :: ids => let '(_, m, w) := remove id m w in remove_each ids m w
  end.

Definition unload_all (m : Inner) (w : W) : option (Result unit (PluginError E) * Inner * W) :=
  full ← full_order m;
  match full with
  | Err e => Some (Err (Resolution e), m, w)
  | Ok full => let '(m, w) := remove_each (rev full) m w in Some (Ok tt, set_started false m, w)
  end.
End Plugins.
Arguments Plugin : clear implicits.
Arguments Registry : clear implicits.
Arguments Entry : clear implicits.
Arguments Inner : clear implicits.

(** * The closures *)

Section Closures.
Context {W E : Type}.
Implicit Type m : Inner W E.

(** [y] is named by [x]. *)
Definition depends m (x y : str) : Prop := y ∈ depends_of m x.

Lemma elem_of_rev (x : str) l : x ∈ rev l <-> x ∈ l.
Proof. by rewrite !list_elem_of_In, <- in_rev. Qed.

Lemma transitive_deps_spec m id : exists v, transitive_deps m id = Some v /\
  forall x, x ∈ v <-> tc (depends m) id x.
Proof.
  set (next := fun dep => rev (depends_of m dep)).
  assert (Ld : forall x y, leads_to next x y <-> depends m x y) by (intros x y; apply elem_of_rev).
  assert (Rt : forall x y, rtc (leads_to next) x y <-> rtc (depends m) x y).
  { intros x y. split; induction 1 as [|a b c D _ IH]; [apply rtc_refl| |apply rtc_refl|]; (eapply rtc_l; [by apply Ld|done]). }
  destruct (walk_reaches next (S (List.length (depends_of m id) + deps_total m)) (rev (depends_of m id))
    (map fst (map_to_list (entries m)))) as (v & Wk & R).
  - intros x. unfold next, depends_of. destruct (entries m !! x) as [e|] eqn:L; [left|by right].
    apply list_elem_of_fmap. exists (x, e). split; [done|]. by apply elem_of_map_to_list.
  - rewrite length_rev. unfold deps_total, next.
    induction (map fst (map_to_list (entries m))) as [|x l IH]; simpl; [lia|]. rewrite length_rev. lia.
  - exists v. split; [exact Wk|]. intros x. rewrite R. split.
    + intros (s & I & T). rewrite elem_of_rev in I. apply Rt in T. by apply (tc_rtc_r (R := depends m) id s); [apply tc_once|].
    + intros T. destruct T as [a b D|a b c D T]; exists b; (split; [by rewrite elem_of_rev|apply Rt]); [apply rtc_refl|by apply tc_rtc].
Qed.

(** Entries are filed under their own id. *)
Definition filed m : Prop := forall k e, entries m !! k = Some e -> d_id (descriptor e) = k.

(** Whether an entry depends on [id] or on something in [v]. *)
Definition touches (id : str) (v : gset str) (e : Entry W E) : Prop :=
  id ∈ d_depends_on (descriptor e) \/ exists d, d ∈ d_depends_on (descriptor e) /\ d ∈ v.

Lemma touches_spec id v (e : Entry W E) :
  bool_decide (id ∈ d_depends_on (descriptor e)) || existsb (fun d => bool_decide (d ∈ v)) (d_depends_on (descriptor e)) = true
  <-> touches id v e.
Proof.
  unfold touches. rewrite orb_true_iff, bool_decide_eq_true, existsb_exists.
  apply or_iff_compat_l. split; intros (d & I & D); exists d.
  - split; [by apply list_elem_of_In|by apply bool_decide_eq_true in D].
  - split; [by apply list_elem_of_In|by apply bool_decide_eq_true_2].
Qed.

Lemma sweep_spec id es v changed v' changed' :
  sweep id es v changed = (v', changed') ->
  v ⊆ v' /\
  (changed' = false -> changed = false /\ v' = v /\
     forall k e, In (k, e) es -> touches id v e -> d_id (descriptor e) ∈ v) /\
  (changed = false -> changed' = true -> v' <> v) /\
  (forall P : str -> Prop, (forall x, x ∈ v -> P x) ->
     (forall k e u, In (k, e) es -> (forall x, x ∈ u -> P x) -> touches id u e -> P (d_id (descriptor e))) ->
     forall x, x ∈ v' -> P x).
Proof.
  revert v changed. induction es as [|[k e] es IH]; intros v changed; cbn [sweep].
  { intros [= -> ->]. split; [done|]. split; [by intros ->; split_and!; [| |intros k e []]|]. split; [congruence|]. auto. }
  destruct (decide (d_id (descriptor e) ∈ v)) as [I|N].
  { intros (S & F & C & Pr)%IH. split; [done|]. split; [|split; [done|]].
    - intros E'. destruct (F E') as (? & ? & A). split_and!; [done|done|]. intros k' e' [[= <- <-]|I']; [done|by apply (A k')].
    - intros P Hv Ht. apply (Pr P Hv). intros k' e' u I'. apply (Ht k'). by right. }
  destruct (bool_decide _ || existsb _ _) eqn:T.
  - apply touches_spec in T. intros (S & F & C & Pr)%IH. split; [set_solver|]. split; [|split].
    + intros E'. by destruct (F E').
    + intros _ _ ->. apply N. set_solver.
    + intros P Hv Ht. apply (Pr P).
      * intros x [->%elem_of_singleton|Ix]%elem_of_union; [|auto]. apply (Ht k e v); [by left|done|done].
      * intros k' e' u I'. apply (Ht k'). by right.
  - assert (Nt : ~ touches id v e) by (rewrite <- touches_spec; congruence).
    intros (S & F & C & Pr)%IH. split; [done|]. split; [|split; [done|]].
    + intros E'. destruct (F E') as (? & ? & A). split_and!; [done|done|]. intros k' e' [[= <- <-]|I']; [done|by apply (A k')].
    + intros P Hv Ht. apply (Pr P Hv). intros k' e' u I'. apply (Ht k'). by right.
Qed.

Lemma dependents_loop_spec fuel m id v0 : filed m -> v0 ⊆ dom (entries m) ->
  (size (entries m) < fuel + size v0)%nat -> (forall x, x ∈ v0 -> tc (depends m) x id) ->
  exists v, dependents_loop fuel m id v0 = Some v /\ (forall x, x ∈ v -> tc (depends m) x id) /\
    forall k e, entries m !! k = Some e -> touches id v e -> k ∈ v.
Proof.
  intros Fd. revert v0. induction fuel as [|fuel IH]; intros v0 Sub L T.
  { pose proof (subseteq_size _ _ Sub) as Sz. rewrite size_dom in Sz. lia. }
  cbn [dependents_loop]. destruct (sweep id (map_to_list (entries m)) v0 false) as [v1 changed] eqn:Sw.
  apply sweep_spec in Sw as (S & F & C & Pr).
  assert (T1 : forall x, x ∈ v1 -> tc (depends m) x id).
  { apply (Pr (fun x => tc (depends m) x id)); [done|]. intros k e u I%list_elem_of_In%elem_of_map_to_list Hu. rewrite (Fd k e I).
    assert (D : forall y, y ∈ d_depends_on (descriptor e) -> depends m k y) by (intros y; unfold depends, depends_of; by rewrite I).
    intros [Ii|(d & Id & Iu)]; [by apply tc_once, D|]. eapply tc_l; [by apply D|by apply Hu]. }
  assert (Sub1 : v1 ⊆ dom (entries m)).
  { intros y Iy. apply (Pr (fun x => x ∈ dom (entries m))); [intros z Iz; by apply Sub| |done].
    intros k e u I%list_elem_of_In%elem_of_map_to_list _ _. rewrite (Fd k e I). by apply elem_of_dom_2 in I. }
  destruct changed.
  - apply IH; [done| |done].
    assert (SS : v0 ⊂ v1).
    { split; [done|]. intros S'. apply C; [done|done|]. by apply (anti_symm (⊆)). }
    apply subset_size in SS. lia.
  - exists v1. split; [done|]. split; [done|]. destruct F as (_ & -> & A); [done|].
    intros k e Lk Tk. rewrite <- (Fd k e Lk). apply (A k e); [|done]. by apply list_elem_of_In, elem_of_map_to_list.
Qed.

Lemma transitive_dependents_spec m id : filed m -> exists v, transitive_dependents m id = Some v /\
  forall x, x ∈ v <-> tc (depends m) x id.
Proof.
  intros Fd. destruct (dependents_loop_spec (S (S (size (entries m)))) m id ∅ Fd) as (v & R & T & Cl);
    [set_solver|lia|set_solver|].
  exists v. split; [exact R|]. intros x. split; [apply T|].
  assert (D : forall a b, depends m a b -> exists e, entries m !! a = Some e /\ b ∈ d_depends_on (descriptor e)).
  { intros a b. unfold depends, depends_of. destruct (entries m !! a) as [e|]; [by exists e|]. intros I. by apply elem_of_nil in I. }
  induction 1 as [a b H|a b c H _ IH].
  - destruct (D a b H) as (e & La & Ib). apply (Cl a e La). by left.
  - destruct (D a b H) as (e & La & Ib). apply (Cl a e La). right. by exists b; split; [|apply IH].
Qed.
End Closures.

(** * The manager's invariant *)

Section Manager.
Context {W E : Type} (utc_now : W -> Z) (error_text : E -> str).
Implicit Type m : Inner W E.

Definition running m (id : str) : Prop :=
  exists e, entries m !! id = Some e /\ d_state (descriptor e) = Started.

(** The order lists the entries, each filed under its id, without repeats. *)
Record well_formed m : Prop := {
  wf_filed : filed m;
  wf_order : List.NoDup (order m);
  wf_listed : forall id, In id (order m) <-> is_Some (entries m !! id)
}.

(** Whatever runs, what it depends on runs. *)
Definition supported m : Prop := forall id dep, running m id -> depends m id dep -> running m dep.

(** The states changed of some of [ids] only. *)
Record only_states (ids : list str) m m' : Prop := {
  os_order : order m' = order m;
  os_depends : forall id, depends_of m' id = depends_of m id;
  os_listed : forall id, is_Some (entries m' !! id) <-> is_Some (entries m !! id);
  os_filed : filed m -> filed m';
  os_other : forall id, ~ In id ids -> entries m' !! id = entries m !! id
}.

Lemma only_states_refl ids m : only_states ids m m.
Proof. by split. Qed.

Lemma only_states_trans ids1 ids2 m1 m2 m3 : only_states ids1 m1 m2 -> only_states ids2 m2 m3 ->
  only_states (ids1 ++ ids2) m1 m3.
Proof.
  intros [O1 D1 L1 F1 X1] [O2 D2 L2 F2 X2]. split; [congruence|..].
  - intros id. by rewrite D2.
  - intros id. by rewrite L2.
  - auto.
  - intros id N. rewrite in_app_iff in N. rewrite X2, X1; tauto.
Qed.

Lemma only_states_one id ids m m' : only_states [id] m m' -> only_states (id :: ids) m m'.
Proof. intros O. exact (only_states_trans [id] ids m m' m' O (only_states_refl ids m')). Qed.

Lemma set_state_only id s reason m w : only_states [id] m (set_state utc_now id s reason m w).
Proof.
  assert (Al : forall x e', alter (transition s reason (utc_now w)) id (entries m) !! x = Some e' ->
    exists e, entries m !! x = Some e /\ d_id (descriptor e') = d_id (descriptor e) /\
      d_depends_on (descriptor e') = d_depends_on (descriptor e)).
  { intros x e'. destruct (decide (id = x)) as [<-|N]; [rewrite lookup_alter_eq|rewrite lookup_alter_ne by done].
    - destruct (entries m !! id) as [e|]; [|done]. intros [= <-]. by exists e.
    - intros L. by exists e'. }
  split; simpl; [done|..].
  - intros x. unfold depends_of. simpl.
    destruct (decide (id = x)) as [<-|N]; [rewrite lookup_alter_eq|by rewrite lookup_alter_ne].
    by destruct (entries m !! id).
  - intros x. destruct (decide (id = x)) as [<-|N]; [rewrite lookup_alter_eq|by rewrite lookup_alter_ne].
    by rewrite fmap_is_Some.
  - intros Fd k e' L. simpl in L. apply Al in L as (e & L & -> & _). by apply Fd.
  - intros x N. apply lookup_alter_ne. intros ->. apply N. by left.
Qed.

Lemma set_state_running id s reason m w x : is_Some (entries m !! id) ->
  running (set_state utc_now id s reason m w) x <-> if decide (x = id) then s = Started else running m x.
Proof.
  intros [e L]. unfold running. simpl. destruct (decide (x = id)) as [->|N].
  - rewrite lookup_alter_eq, L. simpl. split; [by intros (e' & [= <-] & Q)|]. intros ->. by eexists.
  - by rewrite lookup_alter_ne by done.
Qed.

Lemma only_states_wf ids m m' : only_states ids m m' -> well_formed m -> well_formed m'.
Proof.
  intros [O D L F _] [Fd N Ls]. split; [auto|by rewrite O|]. intros id. by rewrite O, Ls, L.
Qed.

(** Starting a list in which everything comes after what it depends on, other
    than what has been started before. *)
Lemma run_start_spec before ids m w : supported m -> (forall x, In x before -> running m x) ->
  (forall l1 x l2, ids = l1 ++ x :: l2 ->
     is_Some (entries m !! x) /\ forall dep, depends m x dep -> In dep (before ++ l1)) ->
  let '(r, m', _) := run_start utc_now error_text ids m w in
  supported m' /\ only_states ids m m' /\ all_started m' = all_started m /\
  (forall x, running m x -> running m' x) /\ (r = Ok tt -> forall x, In x ids -> running m' x).
Proof.
  revert before m w. induction ids as [|id ids IH]; intros before m w Su Be Or; cbn [run_start].
  { split_and!; [done|apply only_states_refl|done|auto|intros _ x []]. }
  destruct (Or [] id ids eq_refl) as [[e L] De]. rewrite L.
  assert (Go : forall m1 w1, supported m1 -> only_states [id] m m1 -> all_started m1 = all_started m ->
    (forall x, running m x -> running m1 x) -> running m1 id ->
    let '(r, m', _) := run_start utc_now error_text ids m1 w1 in
    supported m' /\ only_states (id :: ids) m m' /\ all_started m' = all_started m /\
    (forall x, running m x -> running m' x) /\ (r = Ok tt -> forall x, In x (id :: ids) -> running m' x)).
  { intros m1 w1 Su1 Os As Mo Ri. specialize (IH (before ++ [id]) m1 w1 Su1).
    destruct (run_start _ _ ids m1 w1) as [[r m'] w']. destruct IH as (Su' & Os' & As' & Mo' & Ok').
    - intros x [I|[<-|[]]]%in_app_iff; auto.
    - intros l1 x l2 ->. destruct (Or (id :: l1) x l2 eq_refl) as [Lx Dx]. split; [by apply Os|].
      intros dep. unfold depends. rewrite (os_depends _ _ _ Os). intros D. rewrite <- app_assoc. by apply Dx.
    - split; [done|]. split; [by apply (only_states_trans [id] ids m m1 m')|]. split; [congruence|]. split; [auto|].
      intros R x [<-|I]; auto. }
  destruct (decide (d_state (descriptor e) = Started)) as [St|St].
  { apply Go; [done|apply only_states_refl|done|auto|by exists e]. }
  destruct (start (plugin e) w) as [[[]|err] w1].
  - apply Go; [|apply set_state_only|done| |].
    + intros x dep. rewrite !set_state_running by done. unfold depends. rewrite (os_depends _ _ _ (set_state_only id Started None m w1)).
      destruct (decide (dep = id)) as [->|Nd]; [done|]. destruct (decide (x = id)) as [->|Nx]; [|by apply Su].
      intros _ D. apply Be. specialize (De dep D). by rewrite app_nil_r in De.
    + intros x R. rewrite set_state_running by done. by destruct (decide (x = id)).
    + rewrite set_state_running by done. by rewrite decide_True.
  - assert (Nr : ~ running m id) by (intros (e' & L' & S'); congruence).
    split_and!; [|apply only_states_one, set_state_only|done| |done].
    + intros x dep. rewrite !set_state_running by done. unfold depends.
      rewrite (os_depends _ _ _ (set_state_only id Failed _ m w1)).
      destruct (decide (x = id)) as [->|Nx]; [done|]. intros R D. pose proof (Su x dep R D) as Rd.
      destruct (decide (dep = id)) as [->|Nd]; [done|done].
    + intros x R. rewrite set_state_running by done. destruct (decide (x = id)) as [->|]; [done|done].
Qed.

(** Stopping a list in which everything running comes before what it depends on. *)
Lemma run_stop_spec before ids m w : supported m -> (forall x, In x before -> ~ running m x) ->
  (forall l1 x l2, ids = l1 ++ x :: l2 -> is_Some (entries m !! x) /\
     forall y, running m y -> depends m y x -> In y (before ++ l1)) ->
  let '(r, m', _) := run_stop utc_now error_text ids m w in
  supported m' /\ only_states ids m m' /\ all_started m' = all_started m /\
  (forall x, running m' x -> running m x) /\ (r = Ok tt -> forall x, In x ids -> ~ running m' x).
Proof.
  revert before m w. induction ids as [|id ids IH]; intros before m w Su Be Or; cbn [run_stop].
  { split_and!; [done|apply only_states_refl|done|auto|intros _ x []]. }
  destruct (Or [] id ids eq_refl) as [[e L] De]. rewrite L.
  assert (Go : forall m1 w1, supported m1 -> only_states [id] m m1 -> all_started m1 = all_started m ->
    (forall x, running m1 x -> running m x) -> ~ running m1 id ->
    let '(r, m', _) := run_stop utc_now error_text ids m1 w1 in
    supported m' /\ only_states (id :: ids) m m' /\ all_started m' = all_started m /\
    (forall x, running m' x -> running m x) /\ (r = Ok tt -> forall x, In x (id :: ids) -> ~ running m' x)).
  { intros m1 w1 Su1 Os As Mo Ri. specialize (IH (before ++ [id]) m1 w1 Su1).
    destruct (run_stop _ _ ids m1 w1) as [[r m'] w']. destruct IH as (Su' & Os' & As' & Mo' & Ok').
    - intros x [I|[<-|[]]]%in_app_iff; [|done]. intros R. by apply (Be x I), Mo.
    - intros l1 x l2 ->. destruct (Or (id :: l1) x l2 eq_refl) as [Lx Dx]. split; [by apply Os|].
      intros y R. unfold depends. rewrite (os_depends _ _ _ Os). intros D. rewrite <- app_assoc. apply Dx; auto.
    - split; [done|]. split; [by apply (only_states_trans [id] ids m m1 m')|]. split; [congruence|]. split; [auto|].
      intros R x [<-|I]; auto. }
  assert (Stp : forall s reason w1, s <> Started -> let m1 := set_state utc_now id s reason m w1 in
    supported m1 /\ (forall x, running m1 x -> running m x) /\ ~ running m1 id).
  { intros s reason w1 Ns. cbn zeta. split; [|split].
    - intros x dep. rewrite !set_state_running by done. unfold depends.
      rewrite (os_depends _ _ _ (set_state_only id s reason m w1)).
      destruct (decide (x = id)) as [->|Nx]; [done|]. intros R D. destruct (decide (dep = id)) as [->|Nd]; [|by apply (Su x)].
      exfalso. apply (Be x); [|done]. specialize (De x R D). by rewrite app_nil_r in De.
    - intros x. rewrite set_state_running by done. by destruct (decide (x = id)).
    - rewrite set_state_running by done. by rewrite decide_True. }
  destruct (decide (d_state (descriptor e) = Stopped \/ d_state (descriptor e) = Loaded)) as [St|St].
  { apply Go; [done|apply only_states_refl|done|auto|]. intros (e' & L' & S'). rewrite L in L'. injection L' as <-.
    rewrite S' in St. by destruct St. }
  destruct (stop (plugin e) w) as [[[]|err] w1].
  - destruct (Stp Stopped None w1) as (Su1 & Mo1 & Nr1); [done|]. apply Go; [done|apply set_state_only|done|done|done].
  - destruct (Stp Failed (Some (error_text err)) w1) as (Su1 & Mo1 & Nr1); [done|].
    split_and!; [done|apply only_states_one, set_state_only|done|done|done].
Qed.
(** ** The full order *)

Lemma nodes_listed m : well_formed m -> nodes m = map (fun id => (id, depends_of m id)) (order m).
Proof.
  intros [_ _ Ls]. unfold nodes. assert (F : Forall (fun id => is_Some (entries m !! id)) (order m)).
  { apply Forall_forall. intros id I. by apply Ls, list_elem_of_In. }
  clear Ls. induction F as [|id l [e L] _ IH]; [done|]. simpl. rewrite L. simpl.
  unfold depends_of at 1. rewrite L. f_equal. exact IH.
Qed.

Lemma map_nth_seq (l : list str) d : map (fun i => nth i l d) (seq 0 (List.length l)) = l.
Proof.
  induction l as [|x l IH]; [done|]. simpl. f_equal. rewrite <- seq_shift, map_map. exact IH.
Qed.

Lemma full_order_spec m : well_formed m ->
  match full_order m with
  | None => False
  | Some (Err _) => True
  | Some (Ok full) => Permutation full (order m) /\
      forall l1 x l2, full = l1 ++ x :: l2 -> forall dep, depends m x dep -> In dep l1
  end.
Proof.
  intros Wf. unfold full_order. pose proof (topological_order_spec (nodes m)) as T.
  destruct (topological_order (nodes m)) as [o|e]; [|done]. destruct T as (P & R & _ & Res).
  pose proof (nodes_listed m Wf) as N. set (f := fun i => nth i (order m) []).
  assert (Ln : List.length (nodes m) = List.length (order m)) by (by rewrite N, length_map). rewrite Ln in P.
  assert (Lk : forall i, (i < List.length (order m))%nat -> nodes m !! i = Some (f i, depends_of m (f i))).
  { intros i L. rewrite N, list_lookup_fmap. unfold f.
    destruct (nth_lookup_or_length (order m) i []) as [->|]; [done|lia]. }
  assert (M : mapM (fun i => fst <$> nodes m !! i) o = Some (map f o)).
  { assert (F : Forall (fun i => (i < List.length (order m))%nat) o).
    { apply List.Forall_forall. intros i I. assert (In i (seq 0 (List.length (order m)))) as S by (by eapply Permutation_in).
      apply in_seq in S. lia. }
    clear P R. induction F as [|i o L _ IH]; [done|]. cbn [mapM]. rewrite Lk by done. simpl. by rewrite IH. }
  rewrite M. simpl. split.
  - rewrite (Permutation_map f P). unfold f. by rewrite map_nth_seq.
  - intros l1 x l2 Ex dep D.
    apply map_eq_app in Ex as (o1 & o2 & -> & <- & Ex). apply map_eq_cons in Ex as (i & o3 & -> & <- & <-).
    assert (Li : (i < List.length (order m))%nat).
    { assert (In i (seq 0 (List.length (order m)))) as S by (eapply Permutation_in; [exact P|]; apply in_app_iff; right; by left).
      apply in_seq in S. lia. }
    specialize (Lk i Li) as Li'.
    destruct (Res (f i) (depends_of m (f i)) dep) as [j J];
      [by eapply list_elem_of_In, list_elem_of_lookup_2|by apply list_elem_of_In|].
    pose proof (index_bound (nodes m) dep j J) as (Bj & deps & Nj). rewrite Ln in Bj. rewrite (Lk j Bj) in Nj. injection Nj as Ef _.
    assert (I : In j o1).
    { apply (R o1 i o3 eq_refl). unfold dependency_indices. rewrite Li'. apply list_elem_of_In, list_elem_of_omap.
      by exists dep. }
    rewrite <- Ef. by apply in_map.
Qed.

(** Sublists of the full order: a set closed downwards keeps what its members
    depend on in front of them. *)
Lemma filter_in_front {A} (p : A -> bool) full l1 x l2 : List.filter p full = l1 ++ x :: l2 ->
  exists f1 f2, full = f1 ++ x :: f2 /\ List.filter p f1 = l1 /\ p x = true.
Proof.
  revert l1. induction full as [|y full IH]; intros l1; simpl; [by destruct l1|]. destruct (p y) eqn:Py.
  - destruct l1 as [|z l1]; intros [= -> Ex].
    + by exists [], full.
    + apply IH in Ex as (f1 & f2 & -> & <- & Px). exists (z :: f1), f2. simpl. by rewrite Py.
  - intros Ex. apply IH in Ex as (f1 & f2 & -> & <- & Px). exists (y :: f1), f2. simpl. by rewrite Py.
Qed.
Lemma full_order_nodup m full : well_formed m -> Permutation full (order m) -> List.NoDup full.
Proof. intros Wf P. eapply Permutation_NoDup; [symmetry; exact P|apply Wf]. Qed.

Lemma full_order_in m full x : well_formed m -> Permutation full (order m) -> In x full <-> is_Some (entries m !! x).
Proof. intros Wf P. rewrite <- (wf_listed m Wf). split; apply Permutation_in; [done|by symmetry]. Qed.

(** Reversed, what depends on something comes in front of it. *)
Lemma rev_in_front m full f1 x f2 y : well_formed m -> Permutation full (order m) ->
  (forall l1 x l2, full = l1 ++ x :: l2 -> forall dep, depends m x dep -> In dep l1) ->
  rev full = f1 ++ x :: f2 -> is_Some (entries m !! y) -> depends m y x -> In y f1.
Proof.
  intros Wf P R Er Ly D. pose proof (full_order_nodup m full Wf P) as N.
  assert (Ef : full = rev f2 ++ x :: rev f1).
  { rewrite <- (rev_involutive full), Er, rev_app_distr. simpl. by rewrite <- app_assoc. }
  apply (full_order_in m full y Wf P) in Ly. rewrite Ef in N. apply List.NoDup_remove_2 in N as N2.
  rewrite Ef, in_app_iff in Ly. destruct Ly as [I|[<-|I]].
  - exfalso. apply in_split in I as (a & b & Ea). rewrite Ea in Ef.
    assert (In x a) as Ia by (apply (R a y (b ++ x :: rev f1)); [by rewrite Ef, <- app_assoc|done]).
    apply N2. rewrite in_app_iff, Ea, in_app_iff. by left; left.
  - exfalso. apply N2. rewrite in_app_iff. left. by apply (R (rev f2) x (rev f1)).
  - by apply in_rev in I.
Qed.

(** ** The operations *)

Definition chosen (id : str) (v : gset str) (x : str) : bool := bool_decide (x ∈ ({[id]} ∪ v : gset str)).

Lemma chosen_tc (R : str -> str -> Prop) id v x : (forall y, y ∈ v <-> tc R id y) -> chosen id v x = true <-> rtc R id x.
Proof.
  intros V. unfold chosen. rewrite bool_decide_eq_true, elem_of_union, elem_of_singleton, V, rtc_tc.
  split; intros [->|T]; auto.
Qed.

Lemma chosen_tc_back (R : str -> str -> Prop) id v x : (forall y, y ∈ v <-> tc R y id) -> chosen id v x = true <-> rtc R x id.
Proof.
  intros V. unfold chosen. rewrite bool_decide_eq_true, elem_of_union, elem_of_singleton, V, rtc_tc. done.
Qed.

Definition keeps m m' : Prop := well_formed m' /\ supported m'.

Lemma start_plugin_spec id m w : well_formed m -> supported m ->
  exists r m' w', start_plugin utc_now error_text id m w = Some (r, m', w') /\ keeps m m' /\
    (r = Ok tt -> forall x, rtc (depends m) id x -> running m' x) /\
    (forall x, ~ rtc (depends m) id x -> entries m' !! x = entries m !! x).
Proof.
  intros Wf Su. unfold start_plugin. destruct (entries m !! id) as [e|] eqn:L; [|by eexists _, _, _].
  pose proof (full_order_spec m Wf) as F. destruct (full_order m) as [[full|e']|]; [|by eexists _, _, _|done].
  destruct F as [P R]. simpl. destruct (transitive_deps_spec m id) as (v & -> & V). simpl.
  set (ids := List.filter _ full).
  pose proof (run_start_spec [] ids m w Su ltac:(intros x [])) as S.
  destruct (run_start _ _ ids m w) as [[r m'] w']. destruct S as (Su' & Os & _ & _ & Ok').
  - intros l1 x l2 Ex. apply filter_in_front in Ex as (f1 & f2 & Ef & <- & Px). split.
    + apply (full_order_in m full x Wf P). rewrite Ef, in_app_iff. right. by left.
    + intros dep D. simpl. apply filter_In. split; [by apply (R f1 x f2)|].
      apply (chosen_tc (depends m) id v dep V). apply (chosen_tc (depends m) id v x V) in Px. by eapply rtc_r.
  - exists r, m', w'. split; [done|]. split; [by split; [apply (only_states_wf ids m)|]|]. split.
    + intros E0 x T. apply Ok'; [done|]. apply filter_In. split; [|by apply (chosen_tc (depends m) id v x V)].
      apply (full_order_in m full x Wf P). apply rtc_inv_r in T as [<-|(y & _ & D)]; [by eexists|].
      assert (In y full) as Iy.
      { apply (full_order_in m full y Wf P). unfold depends, depends_of in D.
        destruct (entries m !! y); [by eexists|by apply elem_of_nil in D]. }
      apply in_split in Iy as (a & b & Ef). apply (full_order_in m full x Wf P). rewrite Ef, in_app_iff. left. by apply (R a y b).
    + intros x T. apply (os_other _ _ _ Os). intros [_ C]%filter_In. by apply (chosen_tc (depends m) id v x V) in C.
Qed.

Lemma stop_plugin_spec id m w : well_formed m -> supported m ->
  exists r m' w', stop_plugin utc_now error_text id m w = Some (r, m', w') /\ keeps m m' /\
    (r = Ok tt -> forall x, rtc (depends m) x id -> ~ running m' x) /\
    (forall x, ~ rtc (depends m) x id -> entries m' !! x = entries m !! x).
Proof.
  intros Wf Su. unfold stop_plugin. destruct (entries m !! id) as [e|] eqn:L; [|by eexists _, _, _].
  pose proof (full_order_spec m Wf) as F. destruct (full_order m) as [[full|e']|]; [|by eexists _, _, _|done].
  destruct F as [P R]. simpl. destruct (transitive_dependents_spec m id (wf_filed m Wf)) as (v & -> & V). simpl.
  set (ids := List.filter _ (rev full)).
  pose proof (run_stop_spec [] ids m w Su ltac:(intros x [])) as S.
  destruct (run_stop _ _ ids m w) as [[r m'] w']. destruct S as (Su' & Os & _ & Mo & Ok').
  - intros l1 x l2 Ex. apply filter_in_front in Ex as (f1 & f2 & Ef & <- & Px). split.
    + apply (full_order_in m full x Wf P), in_rev. rewrite Ef, in_app_iff. right. by left.
    + intros y (ey & Ly & _) D. simpl. apply filter_In. split; [by apply (rev_in_front m full f1 x f2)|].
      apply (chosen_tc_back (depends m) id v y V). apply (chosen_tc_back (depends m) id v x V) in Px. by eapply rtc_l.
  - exists r, m', w'. split; [done|]. split; [by split; [apply (only_states_wf ids m)|]|]. split.
    + intros E0 x T Rx. apply (Ok' E0 x); [|done]. apply filter_In. split; [|by apply (chosen_tc_back (depends m) id v x V)].
      apply Mo in Rx as (ex & Lx & _). by apply in_rev; rewrite rev_involutive; apply (full_order_in m full x Wf P); eexists.
    + intros x T. apply (os_other _ _ _ Os). intros [_ C]%filter_In. by apply (chosen_tc_back (depends m) id v x V) in C.
Qed.

Lemma set_started_keeps b m m' : keeps m m' -> keeps m (set_started b m').
Proof. intros [[Fd N Ls] Su]. by split; [split|]. Qed.

Lemma start_all_spec m w : well_formed m -> supported m ->
  exists r m' w', start_all utc_now error_text m w = Some (r, m', w') /\ keeps m m'.
Proof.
  intros Wf Su. unfold start_all. destruct (all_started m); [by eexists _, _, _|].
  pose proof (full_order_spec m Wf) as F. destruct (full_order m) as [[full|e']|]; [|by eexists _, _, _|done].
  destruct F as [P R]. simpl. pose proof (run_start_spec [] full m w Su ltac:(intros x [])) as S.
  destruct (run_start _ _ full m w) as [[r m'] w']. destruct S as (Su' & Os & _).
  - intros l1 x l2 Ex. split; [|by apply (R l1 x l2)].
    apply (full_order_in m full x Wf P). rewrite Ex, in_app_iff. right. by left.
  - assert (K : keeps m m') by (by split; [apply (only_states_wf full m)|]).
    destruct r as [[]|]; eexists _, _, _; [by split; [|apply set_started_keeps]|done].
Qed.

Lemma stop_all_spec m w : well_formed m -> supported m ->
  exists r m' w', stop_all utc_now error_text m w = Some (r, m', w') /\ keeps m m'.
Proof.
  intros Wf Su. unfold stop_all. destruct (all_started m); [|by eexists _, _, _].
  pose proof (full_order_spec m Wf) as F. destruct (full_order m) as [[full|e']|]; [|by eexists _, _, _|done].
  destruct F as [P R]. simpl. pose proof (run_stop_spec [] (rev full) m w Su ltac:(intros x [])) as S.
  destruct (run_stop _ _ (rev full) m w) as [[r m'] w']. destruct S as (Su' & Os & _).
  - intros l1 x l2 Ex. split.
    + apply (full_order_in m full x Wf P), in_rev. rewrite Ex, in_app_iff. right. by left.
    + intros y (ey & Ly & _) D. by apply (rev_in_front m full l1 x l2).
  - assert (K : keeps m m') by (by split; [apply (only_states_wf (rev full) m)|]).
    destruct r as [[]|]; eexists _, _, _; [by split; [|apply set_started_keeps]|done].
Qed.

Lemma add_keeps p m w : well_formed m -> supported m -> entries m !! name p = None ->
  keeps m (add utc_now p m w).
Proof.
  intros [Fd N Ls] Su Nw. unfold add. rewrite decide_False by (rewrite Nw; by intros []).
  set (e := mkEntry p _). split; [split; simpl|].
  - intros k e'. simpl. destruct (decide (name p = k)) as [<-|Ne]; [rewrite lookup_insert_eq; by intros [= <-]|].
    rewrite lookup_insert_ne by done. apply Fd.
  - eapply Permutation_NoDup; [apply Permutation_cons_append|]. constructor; [|done].
    intros I%Ls. rewrite Nw in I. by destruct I.
  - intros id. rewrite in_app_iff, Ls. destruct (decide (name p = id)) as [<-|Ne].
    + rewrite lookup_insert_eq. simpl. split; [by eexists|auto].
    + rewrite lookup_insert_ne by done. simpl. split; [by intros [?|[?|[]]]|auto].
  - assert (Rn : forall id, running (mkInner (<[name p:=e]> (entries m)) (order m ++ [name p]) (all_started m)) id <->
      running m id).
    { intros id. unfold running. simpl. destruct (decide (name p = id)) as [<-|Ne].
      - rewrite lookup_insert_eq, Nw. split; [by intros (e' & [= <-] & ?)|by intros (e' & ? & _)].
      - by rewrite lookup_insert_ne. }
    intros id dep. rewrite !Rn. intros R. unfold depends, depends_of. simpl.
    rewrite lookup_insert_ne; [by apply Su|]. intros <-. destruct R as (e' & L & _). congruence.
Qed.

Lemma remove_spec id m w b m' w' : remove id m w = (b, m', w') -> well_formed m ->
  well_formed m' /\ (forall x, x <> id -> entries m' !! x = entries m !! x) /\ entries m' !! id = None.
Proof.
  unfold remove. destruct (entries m !! id) as [e|] eqn:L; intros [= <- <- <-] Wf; [|done].
  destruct Wf as [Fd N Ls]. split; [|split; simpl; [intros x Ne; by apply lookup_delete_ne|apply lookup_delete_eq]].
  split; simpl.
  - intros k e'. simpl. rewrite lookup_delete_Some. intros [_ L']. by apply Fd.
  - by apply List.NoDup_filter.
  - intros x. rewrite filter_In, Ls. unfold str_eqb. rewrite negb_true_iff, bool_decide_eq_false.
    destruct (decide (id = x)) as [<-|Ne]; [rewrite lookup_delete_eq|rewrite lookup_delete_ne by done].
    + split; [by intros [_ []]|by intros []].
    + split; [by intros []|]. intros S. by split; [|congruence].
Qed.

Lemma remove_keeps id m w b m' w' : remove id m w = (b, m', w') -> well_formed m -> supported m ->
  (forall y, running m y -> ~ depends m y id) -> keeps m m'.
Proof.
  intros Rm Wf Su Fr. apply remove_spec in Rm as (Wf' & X & Y); [|done]. split; [done|].
  intros x dep Rx. assert (Ne : x <> id) by (intros ->; destruct Rx as (e & L & _); congruence).
  unfold depends, depends_of, running in *. rewrite X in Rx |- * by done. intros D.
  rewrite X; [by apply (Su x)|]. intros ->. by apply (Fr x).
Qed.

Lemma remove_each_spec ids m w m' w' : remove_each ids m w = (m', w') -> well_formed m ->
  well_formed m' /\ forall x, is_Some (entries m' !! x) -> is_Some (entries m !! x) /\ ~ In x ids.
Proof.
  revert m w. induction ids as [|id ids IH]; intros m w; cbn [remove_each]; [intros [= -> ->] Wf; split; [done|]; intros x S; split; [done|by intros []]|].
  destruct (remove id m w) as [[b m1] w1] eqn:Rm. intros Re Wf. apply remove_spec in Rm as (Wf1 & X & Y); [|done].
  apply IH in Re as (Wf' & Ls); [|done]. split; [done|]. intros x Sx. apply Ls in Sx as [S1 N1].
  destruct (decide (x = id)) as [->|Ne]; [rewrite Y in S1; by destruct S1|]. rewrite X in S1 by done.
  split; [done|]. intros [->|I]; [done|auto].
Qed.

Lemma unload_all_spec m w : well_formed m -> supported m ->
  exists r m' w', unload_all m w = Some (r, m', w') /\ keeps m m'.
Proof.
  intros Wf Su. unfold unload_all. pose proof (full_order_spec m Wf) as F.
  destruct (full_order m) as [[full|e']|]; [|by eexists _, _, _|done]. destruct F as [P _]. simpl.
  destruct (remove_each (rev full) m w) as [m' w'] eqn:Re. apply remove_each_spec in Re as (Wf' & Ls); [|done].
  eexists _, _, _. split; [done|]. apply set_started_keeps. split; [done|].
  intros x dep (e & L & _) _. exfalso. destruct (Ls x) as [S N]; [by eexists|].
  apply N. rewrite <- in_rev. by apply (full_order_in m full x Wf P).
Qed.
End Manager.

(** * What the manager's callers can do *)

Section Steps.
Context {W E : Type} (utc_now : W -> Z) (error_text : E -> str).
Implicit Type m : Inner W E.

(** New plugins are added; a plugin is removed when nothing that runs depends
    on it. The world moves on its own. *)
Inductive step : Inner W E * W -> Inner W E * W -> Prop :=
| step_world m w w' : step (m, w) (m, w')
| step_add p m w : entries m !! name p = None -> step (m, w) (add utc_now p m w, w)
| step_start id m w r m' w' : start_plugin utc_now error_text id m w = Some (r, m', w') -> step (m, w) (m', w')
| step_stop id m w r m' w' : stop_plugin utc_now error_text id m w = Some (r, m', w') -> step (m, w) (m', w')
| step_start_all m w r m' w' : start_all utc_now error_text m w = Some (r, m', w') -> step (m, w) (m', w')
| step_stop_all m w r m' w' : stop_all utc_now error_text m w = Some (r, m', w') -> step (m, w) (m', w')
| step_remove id m w b m' w' : (forall y, running m y -> ~ depends m y id) ->
    remove id m w = (b, m', w') -> step (m, w) (m', w')
| step_unload m w r m' w' : unload_all m w = Some (r, m', w') -> step (m, w) (m', w').

Lemma step_keeps s s' : step s s' -> well_formed (fst s) -> supported (fst s) -> keeps (fst s) (fst s').
Proof.
  destruct 1 as [m w w'|p m w Nw|id m w r m' w' R|id m w r m' w' R|m w r m' w' R|m w r m' w' R|id m w b m' w' Fr R|m w r m' w' R];
    simpl; intros Wf Su.
  - done.
  - by apply add_keeps.
  - destruct (start_plugin_spec utc_now error_text id m w Wf Su) as (? & ? & ? & Q & K & _). congruence.
  - destruct (stop_plugin_spec utc_now error_text id m w Wf Su) as (? & ? & ? & Q & K & _). congruence.
  - destruct (start_all_spec utc_now error_text m w Wf Su) as (? & ? & ? & Q & K). congruence.
  - destruct (stop_all_spec utc_now error_text m w Wf Su) as (? & ? & ? & Q & K). congruence.
  - by eapply remove_keeps.
  - destruct (unload_all_spec m w Wf Su) as (? & ? & ? & Q & K). congruence.
Qed.

Lemma manager_new_keeps : well_formed (manager_new : Inner W E) /\ supported (manager_new : Inner W E).
Proof.
  split; [split; simpl|].
  - intros k e L. simpl in L. by rewrite lookup_empty in L.
  - constructor.
  - intros id. rewrite lookup_empty. split; [intros []|by intros []].
  - intros id dep (e & L & _). simpl in L. by rewrite lookup_empty in L.
Qed.

Lemma steps_keep s s' : rtc step s s' -> well_formed (fst s) /\ supported (fst s) -> well_formed (fst s') /\ supported (fst s').
Proof. induction 1 as [|x y z St _ IH]; [done|]. intros [Wf Su]. apply IH. by apply (step_keeps x y). Qed.

(** However plugins are added, started, stopped and removed, a running
    plugin never loses what it depends on: in every state the manager reaches,
    the plugins a running one depends on run. From there starting a plugin
    always returns, touches nothing but the plugin and what it transitively
    depends on and, on success, has all of those running; stopping one always
    returns, touches nothing but it and what transitively depends on it and,
    on success, has none of those running. *)
Theorem plugins_run_supported w0 m w (R : rtc step (manager_new, w0) (m, w)) :
  (forall id dep, running m id -> depends m id dep -> running m dep) /\
  (forall id, exists r m' w', start_plugin utc_now error_text id m w = Some (r, m', w') /\
     (r = Ok tt -> forall x, rtc (depends m) id x -> running m' x) /\
     (forall x, ~ rtc (depends m) id x -> entries m' !! x = entries m !! x)) /\
  (forall id, exists r m' w', stop_plugin utc_now error_text id m w = Some (r, m', w') /\
     (r = Ok tt -> forall x, rtc (depends m) x id -> ~ running m' x) /\
     (forall x, ~ rtc (depends m) x id -> entries m' !! x = entries m !! x)).
Proof.
  destruct (steps_keep _ _ R manager_new_keeps) as [Wf Su]. split; [exact Su|]. split; intros id.
  - destruct (start_plugin_spec utc_now error_text id m w Wf Su) as (r & m' & w' & Q & _ & A). by exists r, m', w'.
  - destruct (stop_plugin_spec utc_now error_text id m w Wf Su) as (r & m' & w' & Q & _ & A). by exists r, m', w'.
Qed.
End Steps.

(** * Examples: the world is the log of the hooks *)

Definition logged (nm : string) (deps : list string) (ok : bool) : Plugin (list string) string :=
  mkPlugin (lit nm) (map lit deps)
    (fun w => (if ok then Ok tt else Err "boom"%string, w ++ [nm ++ " up"]%string))
    (fun w => (Ok tt, w ++ [nm ++ " down"]%string)).

(** A database, what uses it, and a plugin on its own. *)
Definition three_plugins : Inner (list string) string :=
  add (fun _ => 0) (logged "web"%string ["db"]%string true)
    (add (fun _ => 0) (logged "log"%string [] true)
       (add (fun _ => 0) (logged "db"%string [] true) manager_new []) []) [].

Example start_pulls_dependencies :
  (fun x => (fst (fst x), snd x)) <$> start_plugin (fun _ => 0) lit (lit "web") three_plugins []
    = Some (Ok tt, ["db up"; "web up"]%string).
Proof. vm_compute. reflexivity. Qed.

Example stop_takes_dependents :
  (x ← start_all (fun _ => 0) lit three_plugins []; stop_plugin (fun _ => 0) lit (lit "db") (snd (fst x)) (snd x))
    ≫= (fun x => Some (fst (fst x), drop 3 (snd x))) = Some (Ok tt, ["web down"; "db down"]%string).
Proof. vm_compute. reflexivity. Qed.

Example plugins_run_supported_witness :
  rtc (step (fun _ => 0) lit) (manager_new, []) (three_plugins, []) /\
  forall id, exists r m' w', start_plugin (fun _ => 0) lit id three_plugins [] = Some (r, m', w').
Proof.
  assert (R : rtc (step (fun _ => 0) lit) (manager_new, []) (three_plugins, [])).
  { eapply rtc_l; [apply (step_add _ _ (logged "db"%string [] true)); reflexivity|].
    eapply rtc_l; [apply (step_add _ _ (logged "log"%string [] true)); vm_compute; reflexivity|].
    eapply rtc_l; [apply (step_add _ _ (logged "web"%string ["db"%string] true)); vm_compute; reflexivity|].
    apply rtc_refl. }
  split; [exact R|]. intros id.
  destruct (proj1 (proj2 (plugins_run_supported (fun _ => 0) lit [] three_plugins [] R)) id) as (r & m' & w' & Q & _).
  exists r, m', w'. exact Q.
Defined.

(** Removing a plugin asks nothing of what runs on it. *)
Example remove_leaves_dependents_running :
  (x ← start_all (fun _ => 0) lit three_plugins [];
   let '(_, m, _) := remove (lit "db") (snd (fst x)) (snd x) in
   Some (get_plugin (lit "db") m, d_state <$> get_plugin (lit "web") m)) = Some (None, Some Started).
Proof. vm_compute. reflexivity. Qed.

(** Nor does adding over one that runs, whose stop hook is never run. *)
Example add_forgets_running_plugin :
  (x ← start_all (fun _ => 0) lit three_plugins [];
   let m := add (fun _ => 0) (logged "db"%string [] true) (snd (fst x)) (snd x) in
   Some (d_state <$> get_plugin (lit "db") m, d_state <$> get_plugin (lit "web") m, drop 3 (snd x)))
    = Some (Some Loaded, Some Started, []).
Proof. vm_compute. reflexivity. Qed.

(** After a start sweep that fails halfway the stop sweep does nothing. *)
Example failed_start_all_never_stopped :
  let m := add (fun _ => 0) (logged "web"%string ["db"%string] false)
             (add (fun _ => 0) (logged "db"%string [] true) manager_new []) [] in
  (x ← start_all (fun _ => 0) lit m []; y ← stop_all (fun _ => 0) lit (snd (fst x)) (snd x);
   Some (fst (fst y), snd y, d_state <$> get_plugin (lit "db") (snd (fst y))))
    = Some (Ok tt, ["db up"; "web up"]%string, Some Started).
Proof. vm_compute. reflexivity. Qed.

(** A second sweep of the registry runs every start hook again; one that does
    not resolve forgets what runs. *)
Example registry_sweeps_again :
  let r := register (logged "db"%string [] true) registry_new in
  let late := register (logged "web"%string ["gone"%string] true) in
  (x ← registry_start_all r []; y ← registry_start_all (snd (fst x)) (snd x);
   z ← registry_start_all (late (snd (fst y))) (snd y);
   Some (snd y, snd (registry_stop_all (snd (fst z)) [])))
    = Some (["db up"; "db up"]%string, []).
Proof. vm_compute. reflexivity. Qed.

(** * Extension points

    An extension is a value behind a shared pointer: its type, its address and
    itself. *)
Section Extensions.
Context {T X : Type} `{EqDecision T}.

Record Extension : Type := mkExtension { type_id : T; address : Z; instance : X }.

Inductive ExtensionError : Type :=
| DoesNotImplement (point : str)
| PointNotRegistered (point : str)
| NoExtensions (point : str).

Record ExtensionRegistry : Type := mkExtensions {
  extensions : gmap str (list (Z * Extension));
  points : gmap str T
}.

Definition extensions_new : ExtensionRegistry := mkExtensions ∅ ∅.

Definition register_extension_point (point_id : str) (point : T) (r : ExtensionRegistry) : ExtensionRegistry :=
  mkExtensions (extensions r) (<[point_id := point]> (points r)).

Definition has_extension_point (point_id : str) (r : ExtensionRegistry) : bool :=
  bool_decide (is_Some (points r !! point_id)).

(** Descending priority, stable. *)
Definition by_priority (a b : Z * Extension) : comparison := CompOpp (fst a ?= fst b).

Definition register_with_priority (point_id : str) (x : Extension) (priority : Z) (r : ExtensionRegistry)
  : Result unit ExtensionError * ExtensionRegistry :=
  let refused := match points r !! point_id with Some t => negb (bool_decide (t = type_id x)) | None => false end in
  if refused then (Err (DoesNotImplement point_id), r)
  else
    let entries := default [] (extensions r !! point_id) ++ [(priority, x)] in
    (Ok tt, mkExtensions (<[point_id := sort_by by_priority entries]> (extensions r)) (points r)).

Definition register_extension (point_id : str) (x : Extension) (r : ExtensionRegistry) :=
  register_with_priority point_id x 0 r.

(** The position of the first extension at that address. *)
Fixpoint position_at (a : Z) (l : list (Z * Extension)) : option nat :=
  match l with
  | [] => None
  | (_, x) :: l => if address x =? a then Some O else S <$> position_at a l
  end.

Definition unregister (point_id : str) (a : Z) (r : ExtensionRegistry) : bool * ExtensionRegistry :=
  match extensions r !! point_id with
  | None => (false, r)
  | Some l =>
      match position_at a l with
      | None => (false, r)
      | Some pos => (true, mkExtensions (<[point_id := take pos l ++ drop (S pos) l]> (extensions r)) (points r))
      end
  end.

Definition get_extensions (point_id : str) (r : ExtensionRegistry) : list Extension :=
  map snd (default [] (extensions r !! point_id)).

Definition get_as (t : T) (point_id : str) (r : ExtensionRegistry) : list Extension :=
  List.filter (fun x => bool_decide (type_id x = t)) (get_extensions point_id r).

Definition get_extension (point_id : str) (r : ExtensionRegistry) : Result Extension ExtensionError :=
  if negb (has_extension_point point_id r) then Err (PointNotRegistered point_id)
  else match default [] (extensions r !! point_id) with
       | (_, x) :: _ => Ok x
       | [] => Err (NoExtensions point_id)
       end.
End Extensions.

(** * Starting and stopping a registry *)

Section RegistryHooks.
Context {W E : Type}.
Implicit Types (p : Plugin W E) (l : list (Plugin W E)) (r : Registry W E) (st : gmap str PluginState).

(** Starting a list in order, up to the first failure. *)
Fixpoint starts l (w : W) : list (Plugin W E) * option (Plugin W E * E) * W :=
  match l with
  | [] => ([], None, w)
  | p :: l =>
      match start p w with
      | (Err err, w) => ([], Some (p, err), w)
      | (Ok _, w) => let '(done, failed, w) := starts l w in (p :: done, failed, w)
      end
  end.

(** Stopping all of a list in order, whatever fails. *)
Fixpoint stops l (w : W) : list (PluginError E) * W :=
  match l with
  | [] => ([], w)
  | p :: l =>
      let '(res, w) := stop p w in
      let '(errors, w) := stops l w in
      (match res with Err err => Stop (name p) err :: errors | Ok _ => errors end, w)
  end.

(** One error as it is, several as an aggregate. *)
Definition joined (errors : list (PluginError E)) : option (PluginError E) :=
  match errors with [] => None | [e] => Some e | _ => Some (Aggregate errors) end.

Definition in_states (ok : list PluginState) l st : Prop :=
  Forall (fun p => exists s, st !! name p = Some s /\ s ∈ ok) l.

Lemma in_states_insert ok l st nm s : s ∈ ok -> in_states ok l st -> in_states ok l (<[nm := s]> st).
Proof.
  intros I F. eapply Forall_impl; [exact F|]. intros p (s' & L & I'). destruct (decide (nm = name p)) as [->|N].
  - exists s. by rewrite lookup_insert_eq.
  - exists s'. by rewrite lookup_insert_ne.
Qed.

Lemma stop_loop_spec l errors st w : exists st',
  stop_loop l errors st w = (errors ++ fst (stops l w), st', snd (stops l w)) /\
  in_states [Stopped; Failed] l st' /\
  forall l0, in_states [Stopped; Failed] l0 st -> in_states [Stopped; Failed] l0 st'.
Proof.
  revert errors st w. induction l as [|p l IH]; intros errors st w; cbn [stop_loop stops].
  { exists st. simpl. rewrite app_nil_r. split; [done|]. split; [constructor|auto]. }
  assert (Go : forall s es w1, s ∈ [Stopped; Failed] -> exists st',
    stop_loop l es (<[name p := s]> st) w1 = (es ++ fst (stops l w1), st', snd (stops l w1)) /\
    in_states [Stopped; Failed] (p :: l) st' /\
    forall l0, in_states [Stopped; Failed] l0 st -> in_states [Stopped; Failed] l0 st').
  { intros s es w1 I. destruct (IH es (<[name p := s]> st) w1) as (st' & -> & A & B). exists st'. split; [done|]. split.
    - assert (in_states [Stopped; Failed] [p] st') as F; [|constructor; [by inversion F|done]].
      apply B. constructor; [|constructor]. exists s. by rewrite lookup_insert_eq.
    - intros l0 In0. by apply B, in_states_insert. }
  destruct (stop p w) as [[u|err] w1].
  - destruct (Go Stopped errors w1) as (st' & -> & R); [by left|]. exists st'. by destruct (stops l w1).
  - destruct (Go Failed (errors ++ [Stop (name p) err]) w1) as (st' & -> & R); [by right; left|].
    exists st'. destruct (stops l w1). simpl. by rewrite <- app_assoc.
Qed.

Lemma stop_started_spec l st w : exists st',
  stop_started l st w = (joined (fst (stops (rev l) w)), st', snd (stops (rev l) w)) /\
  in_states [Stopped; Failed] l st' /\
  forall l0, in_states [Stopped; Failed] l0 st -> in_states [Stopped; Failed] l0 st'.
Proof.
  unfold stop_started. destruct (stop_loop_spec (rev l) [] st w) as (st' & -> & A & B). exists st'. split; [done|].
  split; [|done]. unfold in_states. rewrite <- (rev_involutive l). by apply Forall_rev.
Qed.

Lemma stops_are_stops l w e : e ∈ fst (stops l w) -> exists nm err, e = Stop nm err.
Proof.
  revert w. induction l as [|p l IH]; intros w; simpl; [intros I; by apply elem_of_nil in I|].
  destruct (stop p w) as [[u|err] w1]; specialize (IH w1); destruct (stops l w1) as [errors w2]; simpl; [done|].
  intros [->|I]%elem_of_cons; [by eexists _, _|auto].
Qed.

Lemma joined_error_spec e l w : Some (joined_error e (joined (fst (stops l w)))) = joined (e :: fst (stops l w)).
Proof.
  pose proof (stops_are_stops l w) as S. destruct (fst (stops l w)) as [|a [|b errors]]; [done| |done].
  destruct (S a) as (nm & err & ->); [by left|]. done.
Qed.

(** What the loop of [start_all] does, as the plain runs of the hooks. *)
Lemma start_loop_spec snapshot order ps : mapM (fun i => snapshot !! i) order = Some ps ->
  forall before st w, in_states [Started] before st -> exists st',
  let '(done, failed, w1) := starts ps w in
  match failed with
  | None => start_loop snapshot order before st w = Some (Ok tt, before ++ ps, st', w1) /\
      done = ps /\ in_states [Started] (before ++ ps) st'
  | Some (p, err) => exists e,
      joined (Start (name p) err :: fst (stops (rev (before ++ done)) w1)) = Some e /\
      start_loop snapshot order before st w = Some (Err e, [], st', snd (stops (rev (before ++ done)) w1)) /\
      in_states [Stopped; Failed] (before ++ done ++ [p]) st'
  end.
Proof.
  revert ps. induction order as [|i order IH]; intros ps.
  { intros [= <-] before st w I. exists st. simpl. by rewrite app_nil_r. }
  cbn [mapM]. intros Q. apply bind_Some in Q as (p & Lp & Q). apply bind_Some in Q as (ps' & M & [= <-]).
  intros before st w I. cbn [starts start_loop]. rewrite Lp. destruct (start p w) as [[u|err] w1].
  - destruct (IH ps' M (before ++ [p]) (<[name p := Started]> st) w1) as [st' R].
    { apply Forall_app. split; [apply in_states_insert; [by left|done]|]. constructor; [|constructor].
      exists Started. rewrite lookup_insert_eq. split; [done|by left]. }
    exists st'. destruct (starts ps' w1) as [[done failed] w2]. destruct failed as [[q err]|].
    + destruct R as (e & J & R & S). rewrite <- !app_assoc in *. by exists e.
    + destruct R as (R & -> & S). rewrite <- !app_assoc in *. done.
  - destruct (stop_started_spec before (<[name p := Failed]> st) w1) as (st' & -> & A & B).
    exists st'. simpl. rewrite app_nil_r. eexists. split; [symmetry; apply joined_error_spec|]. split; [done|].
    apply Forall_app. split; [done|]. apply (B [p]). constructor; [|constructor].
    exists Failed. rewrite lookup_insert_eq. split; [done|by right; left].
Qed.

(** The plugins in start order: all of them. *)
Lemma order_plugins l o : topological_order (map (fun p => (name p, depends_on p)) l) = Ok o ->
  exists ps, mapM (fun i => l !! i) o = Some ps /\ Permutation ps l.
Proof.
  intros T. pose proof (topological_order_spec (map (fun p => (name p, depends_on p)) l)) as S. rewrite T in S.
  destruct S as (P & _). rewrite length_map in P. clear T.
  assert (M : forall l' : list nat, Forall (fun i => (i < List.length l)%nat) l' ->
    exists ps, mapM (fun i => l !! i) l' = Some ps /\ map Some ps = map (fun i => l !! i) l').
  { intros l'. induction 1 as [|i l' B _ (ps & M & R)]; [by exists []|]. apply lookup_lt_is_Some_2 in B as [p Lp].
    exists (p :: ps). cbn [mapM map]. rewrite Lp. simpl. rewrite M, R. done. }
  destruct (M o) as (ps & -> & R).
  { apply List.Forall_forall. intros i I. assert (In i (seq 0 (List.length l))) as I' by (by eapply Permutation_in).
    apply in_seq in I'. lia. }
  exists ps. split; [done|].
  assert (Q : Permutation (map Some ps) (map Some l)).
  { rewrite R, (Permutation_map (fun i => l !! i) P).
    replace (map (fun i => l !! i) (seq 0 (List.length l))) with (map Some l); [done|]. clear.
    induction l as [|p l IH]; [done|]. simpl. f_equal. rewrite IH at 1. by rewrite <- seq_shift, map_map. }
  apply (Permutation_flat_map (fun o => match o with Some p => [p] | None => [] end)) in Q.
  assert (C : forall l0 : list (Plugin W E), flat_map (fun o => match o with Some p => [p] | None => [] end) (map Some l0) = l0)
    by (intros l0; induction l0; simpl; congruence).
  by rewrite !C in Q.
Qed.

(** The start sweep of the registry is all or nothing: when the order does
    not resolve, no hook runs; otherwise the start hooks of all the plugins
    run in that order, and either all succeed, the plugins are all
    marked started and remembered in start order, or the first failure ends
    the sweep, the stop hooks of the ones already started run in reverse
    order, whatever they return, the error is the start error joined with
    theirs, and nothing is left started. *)
Theorem registry_all_or_nothing r w :
  match topological_order (map (fun p => (name p, depends_on p)) (plugins r)) with
  | Err e => registry_start_all r w = Some (Err (Resolution e), mkRegistry (plugins r) [] (states r), w)
  | Ok order => exists ps st, mapM (fun i => plugins r !! i) order = Some ps /\ Permutation ps (plugins r) /\
      let '(done, failed, w1) := starts ps w in
      match failed with
      | None => registry_start_all r w = Some (Ok tt, mkRegistry (plugins r) ps st, w1) /\
                in_states [Started] (plugins r) st
      | Some (p, err) => exists e,
          joined (Start (name p) err :: fst (stops (rev done) w1)) = Some e /\
          registry_start_all r w = Some (Err e, mkRegistry (plugins r) [] st, snd (stops (rev done) w1)) /\
          in_states [Stopped; Failed] (done ++ [p]) st
      end
  end.
Proof.
  unfold registry_start_all. destruct (topological_order _) as [o|e] eqn:T; [|done].
  destruct (order_plugins (plugins r) o T) as (ps & M & P).
  destruct (start_loop_spec (plugins r) o ps M [] (states r) w) as [st R]; [constructor|].
  exists ps, st. split; [done|]. split; [done|]. destruct (starts ps w) as [[done failed] w1]. destruct failed as [[p err]|].
  - destruct R as (e & J & -> & S). by exists e.
  - destruct R as (-> & _ & S). split; [done|]. unfold in_states. by rewrite <- P.
Qed.

(** And stopping runs every remembered plugin's hook, last started first. *)
Lemma registry_stop_all_spec r w : exists st,
  registry_stop_all r w =
    (match joined (fst (stops (rev (started r)) w)) with None => Ok tt | Some e => Err e end,
     mkRegistry (plugins r) [] st, snd (stops (rev (started r)) w)) /\
  in_states [Stopped; Failed] (started r) st.
Proof.
  unfold registry_stop_all. destruct (stop_started_spec (started r) (states r) w) as (st & -> & A & _). by exists st.
Qed.
End RegistryHooks.
