(* ===== verification/Session.v ===== *)
(** Sessions and where they are kept: [SessionInner] of
    [crates/session/src/session.rs] and the store port of [store.rs] with its
    in-memory implementation and its bridge to a cache adapter. *)
From Stdlib Require Import Ascii String.
From Stdlib Require Import ZArith NArith List Lia Sorting.Permutation.
From stdpp Require Import base decidable list gmap.
From S2P Require Import Prelude Str Order Json.
From S2P Require Cache.

Section Session.
Context {V : Type} `{JsonValue V}.

(** [HashMap<String, Value>]. *)
Definition SessionData : Type := gmap str V.

Definition CREATED_AT_KEY : str := lit "_created_at".
Definition LAST_ACCESSED_KEY : str := lit "_last_accessed".

Record SessionInner : Type := mkSession {
  id : str;
  previous_id : option str;
  is_new : bool;
  invalidated : bool;
  modified : bool;
  data : SessionData
}.

(** The clock read, [now_millis()], is an argument. *)
Definition session_new (now : Z) (id : str) : SessionInner :=
  let data := <[LAST_ACCESSED_KEY := value_of_Z now]> (<[CREATED_AT_KEY := value_of_Z now]> ∅) in
  mkSession id None true false true data.

Definition session_load (now : Z) (id : str) (data : SessionData) : SessionInner :=
  let data := match data !! CREATED_AT_KEY with
              | Some _ => data
              | None => <[CREATED_AT_KEY := value_of_Z now]> data
              end in
  mkSession id None false false false (<[LAST_ACCESSED_KEY := value_of_Z now]> data).

(** [Value::as_i64]; [None] for what is not a number. *)
Definition value_as_i64 (as_i64 : Num -> option Z) (v : V) : option Z :=
  match view v with Value.Number n => as_i64 n | _ => None end.

(** [millis_to_datetime], over [DateTime::from_timestamp_millis]. *)
Definition millis_to_datetime {T} (as_i64 : Num -> option Z) (from_timestamp_millis : Z -> option T) (v : V) : option T :=
  value_as_i64 as_i64 v ≫= from_timestamp_millis.

Definition created_at {T} (as_i64 : Num -> option Z) (from_timestamp_millis : Z -> option T) (s : SessionInner) : option T :=
  data s !! CREATED_AT_KEY ≫= millis_to_datetime as_i64 from_timestamp_millis.
Definition last_accessed {T} (as_i64 : Num -> option Z) (from_timestamp_millis : Z -> option T) (s : SessionInner) : option T :=
  data s !! LAST_ACCESSED_KEY ≫= millis_to_datetime as_i64 from_timestamp_millis.

(** Over [serde_json::from_value] at the type asked for. *)
Definition attribute {T E} (from_value : V -> Result T E) (name : str) (s : SessionInner) : option T :=
  data s !! name ≫= (fun v => match from_value v with Ok t => Some t | Err _ => None end).

Definition attribute_value (name : str) (s : SessionInner) : option V := data s !! name.

Definition set_attribute_value (name : str) (v : V) (s : SessionInner) : SessionInner :=
  mkSession (id s) (previous_id s) (is_new s) (invalidated s) true (<[name := v]> (data s)).

(** Over [serde_json::to_value]; nothing changes when it fails. *)
Definition set_attribute {T E} (to_value : T -> Result V E) (name : str) (t : T) (s : SessionInner)
  : Result unit E * SessionInner :=
  match to_value t with
  | Ok json => (Ok tt, set_attribute_value name json s)
  | Err e => (Err e, s)
  end.

Definition remove_attribute (name : str) (s : SessionInner) : SessionInner :=
  match data s !! name with
  | Some _ => mkSession (id s) (previous_id s) (is_new s) (invalidated s) true (delete name (data s))
  | None => s
  end.

Definition attribute_names (s : SessionInner) : list str :=
  sort_by str_compare
    (List.filter (fun k => negb (starts_with (lit "_") k)) (map fst (map_to_list (data s)))).

(** The fresh id, a UUID, is an argument. *)
Definition rotate_id (fresh : str) (s : SessionInner) : SessionInner :=
  if invalidated s then s
  else mkSession fresh (Some (id s)) (is_new s) (invalidated s) true (data s).

Definition invalidate (s : SessionInner) : SessionInner :=
  mkSession (id s) (previous_id s) (is_new s) true true (data s).

(** * The store port *)

Inductive SessionStoreError (J : Type) : Type :=
| Codec (e : J)
| Backend (msg : str).

Record SessionStore (W J : Type) : Type := mkStore {
  store_get : str -> M W (Result (option SessionData) (SessionStoreError J));
  store_save : str -> SessionData -> Z -> M W (Result unit (SessionStoreError J));
  store_delete : str -> M W (Result unit (SessionStoreError J));
  store_exists : str -> M W (Result bool (SessionStoreError J))
}.

(** The trait's default. *)
Definition default_exists {W J} (get : str -> M W (Result (option SessionData) (SessionStoreError J)))
    (session_id : str) : M W (Result bool (SessionStoreError J)) :=
  let? found := get session_id in ret (Ok (bool_decide (is_Some found))).

(** * The in-memory store, over a world that shows the monotonic clock *)

Record Entry : Type := mkEntry { entry_data : SessionData; expires_at : Z }.

Abbreviation Entries := (gmap str Entry).

(** What a read finds; an entry past its deadline is dropped on the way. *)
Definition memory_find (session_id : str) (now : Z) (entries : Entries) : option Entry * Entries :=
  match entries !! session_id with
  | None => (None, entries)
  | Some e => if expires_at e <? now then (None, delete session_id entries) else (Some e, entries)
  end.

Definition MemorySessionStore {J} : SessionStore (Z * Entries) J :=
  mkStore _ _
    (fun sid '(now, es) => let '(e, es) := memory_find sid now es in Some (Ok (entry_data <$> e), (now, es)))
    (fun sid data ttl '(now, es) =>
       deadline ← Cache.instant_add now ttl;
       Some (Ok tt, (now, <[sid := mkEntry data deadline]> es)))
    (fun sid '(now, es) => Some (Ok tt, (now, delete sid es)))
    (fun sid '(now, es) => let '(e, es) := memory_find sid now es in Some (Ok (bool_decide (is_Some e)), (now, es))).

Definition sweep (now : Z) (entries : Entries) : nat * Entries :=
  let kept := filter (fun e => now < expires_at (snd e)) entries in
  ((size entries - size kept)%nat, kept).

Definition memory_len (entries : Entries) : nat := size entries.
Definition memory_is_empty (entries : Entries) : bool := (memory_len entries =? 0)%nat.

(** * The bridge to a cache *)

Definition DEFAULT_CACHE_PREFIX : str := lit "firefly:session:".

Definition map_cache_err {J} (e : Cache.CacheError J) : SessionStoreError J :=
  match e with
  | Cache.NotFound => Backend J (lit "not found")
  | Cache.Codec e => Codec J e
  | Cache.Backend msg => Backend J msg
  end.

Section Bridge.
Context {W J : Type}.
Variable adapter : Cache.Adapter W J.
Variable prefix : str.
(** [serde_json::to_vec] and [from_slice] at [SessionData]. *)
Variable to_vec : SessionData -> Result bytes J.
Variable from_slice : bytes -> Result SessionData J.

Definition cache_key (session_id : str) : str := prefix ++ session_id.

Definition cache_get (session_id : str) : M W (Result (option SessionData) (SessionStoreError J)) :=
  let! r := Cache.get adapter (cache_key session_id) in
  ret match r with
      | Ok raw => match from_slice raw with Ok d => Ok (Some d) | Err e => Err (Codec J e) end
      | Err Cache.NotFound => Ok None
      | Err (Cache.Codec e) => Err (Codec J e)
      | Err (Cache.Backend msg) => Err (Backend J msg)
      end.

Definition CacheSessionStore : SessionStore W J :=
  mkStore W J
    cache_get
    (fun sid data ttl =>
       match to_vec data with
       | Err e => ret (Err (Codec J e))
       | Ok raw => let! r := Cache.set adapter (cache_key sid) raw (Some ttl) in ret (map_err map_cache_err r)
       end)
    (fun sid => let! r := Cache.delete_key adapter (cache_key sid) in ret (map_err map_cache_err r))
    (fun sid => let! r := Cache.exists_key adapter (cache_key sid) in ret (map_err map_cache_err r)).
End Bridge.
End Session.
Arguments SessionData V : clear implicits.
Arguments SessionInner V : clear implicits.
Arguments Entry V : clear implicits.
Abbreviation Entries V := (gmap str (Entry V)).
Arguments SessionStore V W J : clear implicits.
Arguments store_get {V W J} s. Arguments store_save {V W J} s.
Arguments store_delete {V W J} s. Arguments store_exists {V W J} s.
Arguments mkStore {V W J}.

(** * What the session layer relies on

    [live w sid] is what the store answers for [sid] in [w]; [good] is an
    invariant of the store and [fits] says that a time to live can be added to
    the clock. *)
Class KeepsSessions {V W J} `{JsonValue V} (S : SessionStore V W J) (good : W -> Prop) (fits : Z -> W -> Prop)
    (live : W -> str -> option (SessionData V)) : Prop := {
  get_live : forall sid w, good w -> exists w', store_get S sid w = Some (Ok (live w sid), w') /\
    good w' /\ (forall x, live w' x = live w x) /\ (forall ttl, fits ttl w -> fits ttl w');
  save_live : forall sid d ttl w, good w -> fits ttl w -> exists w', store_save S sid d ttl w = Some (Ok tt, w') /\
    good w' /\ live w' sid = Some d /\ (forall x, x <> sid -> live w' x = live w x);
  delete_live : forall sid w, good w -> exists w', store_delete S sid w = Some (Ok tt, w') /\
    good w' /\ live w' sid = None /\ (forall x, x <> sid -> live w' x = live w x) /\
    (forall ttl, fits ttl w -> fits ttl w');
  exists_live : forall sid w, good w -> exists w',
    store_exists S sid w = Some (Ok (bool_decide (is_Some (live w sid))), w') /\
    good w' /\ (forall x, live w' x = live w x)
}.

Section MemoryKeeps.
Context {V J : Type} `{JsonValue V}.

Definition memory_live (w : Z * Entries V) (sid : str) : option (SessionData V) :=
  entry_data <$> fst (memory_find sid (fst w) (snd w)).
Definition clock_fits {A} (ttl : Z) (w : Z * A) : Prop := 0 <= ttl /\ fst w + ttl <= Cache.INSTANT_MAX.

Lemma memory_find_same (sid : str) (now : Z) (es es' : Entries V) : es !! sid = es' !! sid ->
  fst (memory_find sid now es) = fst (memory_find sid now es').
Proof. unfold memory_find. intros ->. by destruct (es' !! sid) as [e|]; [destruct (expires_at e <? now)|]. Qed.

Lemma memory_find_keeps (sid sid' : str) (now : Z) (es es' : Entries V) r : memory_find sid now es = (r, es') ->
  fst (memory_find sid' now es') = fst (memory_find sid' now es).
Proof.
  unfold memory_find at 1. destruct (es !! sid) as [e|] eqn:L; [|by intros [= _ <-]].
  destruct (expires_at e <? now) eqn:X; intros [= _ <-]; [|done].
  destruct (decide (sid' = sid)) as [->|N]; [|by apply memory_find_same, lookup_delete_ne].
  unfold memory_find. by rewrite lookup_delete_eq, L, X.
Qed.

#[export] Instance memory_keeps_sessions :
  KeepsSessions (MemorySessionStore : SessionStore V (Z * Entries V) J) (fun _ => True) clock_fits memory_live.
Proof.
  split; simpl.
  - intros sid [now es] _. destruct (memory_find sid now es) as [r es'] eqn:F. exists (now, es'). unfold memory_live. simpl.
    rewrite F. split; [done|]. split; [done|]. split; [|done]. intros x. by rewrite (memory_find_keeps sid x now es es' r F).
  - intros sid d ttl [now es] _ [T Fi]. simpl in Fi. unfold Cache.instant_add.
    destruct (Z.leb_spec (now + ttl) Cache.INSTANT_MAX); [|lia]. simpl. eexists. split; [done|]. split; [done|].
    unfold memory_live. simpl. split.
    { unfold memory_find. rewrite lookup_insert_eq. simpl. by destruct (Z.ltb_spec (now + ttl) now); [lia|]. }
    intros x N. f_equal. by apply memory_find_same, lookup_insert_ne.
  - intros sid [now es] _. eexists. split; [done|]. unfold memory_live. simpl. split; [done|]. split; [|split; [|done]].
    + unfold memory_find. by rewrite lookup_delete_eq.
    + intros x N. f_equal. by apply memory_find_same, lookup_delete_ne.
  - intros sid [now es] _. destruct (memory_find sid now es) as [r es'] eqn:F. exists (now, es'). unfold memory_live. simpl.
    rewrite F. split; [by destruct r|]. split; [done|]. intros x.
    by rewrite (memory_find_keeps sid x now es es' r F).
Qed.

(** A session saved now is found until its time to live has passed. *)
Lemma memory_live_until now ttl sid (d : SessionData V) es : 0 <= ttl -> now + ttl <= Cache.INSTANT_MAX ->
  exists es', store_save (MemorySessionStore : SessionStore V _ J) sid d ttl (now, es) = Some (Ok tt, (now, es')) /\
    forall later, memory_live (later, es') sid = if later <=? now + ttl then Some d else None.
Proof.
  intros T Fi. simpl. unfold Cache.instant_add. destruct (Z.leb_spec (now + ttl) Cache.INSTANT_MAX); [|lia].
  simpl. eexists. split; [done|]. intros later. unfold memory_live, memory_find. simpl. rewrite lookup_insert_eq. simpl.
  destruct (Z.ltb_spec (now + ttl) later), (Z.leb_spec later (now + ttl)); done || lia.
Qed.
End MemoryKeeps.

(** The bridge over the unbounded in-process cache keeps sessions too. *)
Section BridgeKeeps.
Context {V J : Type} `{JsonValue V} `{Cache.Memory.HashIter}.
Variable prefix : str.
Variable to_vec : SessionData V -> Result bytes J.
Variable from_slice : bytes -> Result (SessionData V) J.
Hypothesis decodes : forall d, exists raw, to_vec d = Ok raw /\ from_slice raw = Ok d.

Definition decoded (now : Z) (e : option Cache.Memory.MemEntry) : option (SessionData V) :=
  match e with
  | Some e => if Cache.Memory.expired now e then None
              else match from_slice (Cache.Memory.value e) with Ok d => Some d | Err _ => None end
  | None => None
  end.
Lemma cache_key_inj x y : cache_key prefix x = cache_key prefix y -> x = y.
Proof. apply app_inv_head. Qed.

Definition bridge_live (w : Z * Cache.Memory.MemoryAdapter) (sid : str) : option (SessionData V) :=
  decoded (fst w) (Cache.Memory.entries (snd w) !! cache_key prefix sid).
Definition bridge_good (w : Z * Cache.Memory.MemoryAdapter) : Prop :=
  Cache.Memory.max_entries (snd w) = None /\
  forall sid e, Cache.Memory.entries (snd w) !! cache_key prefix sid = Some e -> is_ok (from_slice (Cache.Memory.value e)) = true.

Lemma bridge_delete now s sid s' : bridge_good (now, s) -> Cache.Memory.max_entries s' = Cache.Memory.max_entries s ->
  Cache.Memory.entries s' = delete (cache_key prefix sid) (Cache.Memory.entries s) ->
  bridge_good (now, s') /\ bridge_live (now, s') sid = None /\
  forall x, x <> sid -> bridge_live (now, s') x = bridge_live (now, s) x.
Proof.
  intros [Mx G] Em Ee. unfold bridge_good, bridge_live. simpl in *. rewrite Em, Ee. split_and!; [done| | |].
  - intros x e. rewrite lookup_delete_Some. intros [_ L]. by apply (G x).
  - by rewrite lookup_delete_eq.
  - intros x N. by rewrite lookup_delete_ne by (intros E; by apply cache_key_inj in E).
Qed.

Lemma bridge_put now s sid s' e : bridge_good (now, s) -> Cache.Memory.max_entries s' = Cache.Memory.max_entries s ->
  Cache.Memory.entries s' = <[cache_key prefix sid := e]> (Cache.Memory.entries s) ->
  is_ok (from_slice (Cache.Memory.value e)) = true ->
  bridge_good (now, s') /\ bridge_live (now, s') sid = decoded now (Some e) /\
  forall x, x <> sid -> bridge_live (now, s') x = bridge_live (now, s) x.
Proof.
  intros [Mx G] Em Ee De. unfold bridge_good, bridge_live. simpl in *. rewrite Em, Ee. split_and!; [done| | |].
  - intros x e'. destruct (decide (x = sid)) as [->|N].
    + rewrite lookup_insert_eq. by intros [= <-].
    + rewrite lookup_insert_ne by (intros E; by apply cache_key_inj in E). apply G.
  - by rewrite lookup_insert_eq.
  - intros x N. by rewrite lookup_insert_ne by (intros E; by apply cache_key_inj in E).
Qed.

Lemma bridge_live_at now s sid e : Cache.Memory.entries s !! cache_key prefix sid = e ->
  bridge_live (now, s) sid = decoded now e.
Proof. intros <-. done. Qed.

Lemma bridge_decodes now s sid e : bridge_good (now, s) -> Cache.Memory.entries s !! cache_key prefix sid = Some e ->
  exists d, from_slice (Cache.Memory.value e) = Ok d.
Proof. intros [_ G] L. specialize (G sid e L). destruct (from_slice _) as [d|]; [by exists d|done]. Qed.

Abbreviation bridge := (CacheSessionStore Cache.Memory.adapter prefix to_vec from_slice).

(** Reading drops an expired entry, or stamps a live one: the same is live. *)
Lemma bridge_get sid now s : bridge_good (now, s) -> exists s',
  store_get bridge sid (now, s) = Some (Ok (bridge_live (now, s) sid), (now, s')) /\
  bridge_good (now, s') /\ forall x, bridge_live (now, s') x = bridge_live (now, s) x.
Proof.
  intros G. simpl. unfold cache_get, bind. simpl. unfold Cache.Memory.get, Cache.Memory.get_locked. simpl.
  destruct (Cache.Memory.entries s !! cache_key prefix sid) as [e|] eqn:L; rewrite (bridge_live_at now s sid _ L); simpl; [|eexists; split; [reflexivity|split; [exact G|intros x; reflexivity]]].
  assert (Same : forall s', (forall x, x <> sid -> bridge_live (now, s') x = bridge_live (now, s) x) ->
    bridge_live (now, s') sid = decoded now (Some e) -> forall x, bridge_live (now, s') x = bridge_live (now, s) x).
  { intros s' O N x. destruct (decide (x = sid)) as [->|]; [|by apply O]. by rewrite N, (bridge_live_at now s sid _ L). }
  destruct (bridge_decodes now s sid e G L) as [d Fs]. destruct (Cache.Memory.expired now e) eqn:X; simpl.
  - eexists. split; [done|]. edestruct (bridge_delete now s sid) as (G' & N & O);
      [exact G| | |split; [exact G'|apply Same; [exact O|]]]; [done|done|]. rewrite N. simpl. by rewrite X.
  - rewrite Fs. eexists. split; [done|]. edestruct (bridge_put now s sid) as (G' & N & O);
      [exact G| | | |split; [exact G'|apply Same; [exact O|]]]; [done|done|simpl; by rewrite Fs|].
    rewrite N. unfold decoded. simpl. done.
Qed.

Lemma bridge_save sid d ttl now s : bridge_good (now, s) -> clock_fits ttl (now, s) -> exists s',
  store_save bridge sid d ttl (now, s) = Some (Ok tt, (now, s')) /\ bridge_good (now, s') /\
  bridge_live (now, s') sid = Some d /\ forall x, x <> sid -> bridge_live (now, s') x = bridge_live (now, s) x.
Proof.
  intros G [T Fi]. simpl in Fi. simpl. destruct (decodes d) as (raw & -> & Fs). unfold bind. simpl.
  unfold Cache.Memory.set, Cache.Memory.deadline, Cache.instant_add.
  assert (exists exp, (if ttl =? 0 then Some None else Some <$> (if now + ttl <=? Cache.INSTANT_MAX then Some (now + ttl) else None))
    = Some exp /\ forall v q, Cache.Memory.expired now (Cache.Memory.mkEntry v exp q) = false) as (exp & -> & X).
  { destruct (Z.eqb_spec ttl 0); [by exists None|]. destruct (Z.leb_spec (now + ttl) Cache.INSTANT_MAX); [|lia].
    exists (Some (now + ttl)). split; [done|]. intros v q. unfold Cache.Memory.expired. simpl. apply Z.ltb_ge. lia. }
  simpl. unfold Cache.Memory.set_locked, Cache.Memory.enforce_bound. simpl.
  rewrite (proj1 G : Cache.Memory.max_entries s = None). eexists. split; [done|].
  edestruct (bridge_put now s sid) as (G' & N & O); [exact G| | | |split; [exact G'|split; [|exact O]]];
    [symmetry; apply G|done|simpl; by rewrite Fs|]. rewrite N. unfold decoded. rewrite X. simpl. by rewrite Fs.
Qed.

Lemma bridge_remove sid now s : bridge_good (now, s) -> exists s',
  store_delete bridge sid (now, s) = Some (Ok tt, (now, s')) /\ bridge_good (now, s') /\
  bridge_live (now, s') sid = None /\ forall x, x <> sid -> bridge_live (now, s') x = bridge_live (now, s) x.
Proof.
  intros G. exists (Cache.Memory.delete_key (cache_key prefix sid) s). split; [done|].
  apply bridge_delete; [exact G| |]; unfold Cache.Memory.delete_key;
    by destruct (Cache.Memory.entries s !! cache_key prefix sid) eqn:L.
Qed.

Lemma bridge_exists sid now s : bridge_good (now, s) -> exists s',
  store_exists bridge sid (now, s) = Some (Ok (bool_decide (is_Some (bridge_live (now, s) sid))), (now, s')) /\
  bridge_good (now, s') /\ forall x, bridge_live (now, s') x = bridge_live (now, s) x.
Proof.
  intros G. simpl. unfold bind. simpl. unfold Cache.Memory.exists_key.
  destruct (Cache.Memory.entries s !! cache_key prefix sid) as [e|] eqn:L; rewrite (bridge_live_at now s sid _ L); simpl; [|eexists; split; [reflexivity|split; [exact G|intros x; reflexivity]]].
  destruct (bridge_decodes now s sid e G L) as [d Fs]. destruct (Cache.Memory.expired now e) eqn:X; simpl.
  - eexists. split; [done|]. edestruct (bridge_delete now s sid) as (G' & N & O); [exact G| | |split; [exact G'|]]; [done|done|].
    intros x. destruct (decide (x = sid)) as [->|]; [|by apply O]. rewrite N, (bridge_live_at now s sid _ L). simpl. by rewrite X.
  - rewrite Fs. eexists. split; [reflexivity|]. split; [exact G|intros x; reflexivity].
Qed.

#[export] Instance bridge_keeps_sessions : KeepsSessions bridge bridge_good clock_fits bridge_live.
Proof.
  split.
  - intros sid [now s] G. destruct (bridge_get sid now s G) as (s' & ? & ? & ?). by exists (now, s').
  - intros sid d ttl [now s] G F. destruct (bridge_save sid d ttl now s G F) as (s' & ? & ? & ? & ?). by exists (now, s').
  - intros sid [now s] G. destruct (bridge_remove sid now s G) as (s' & ? & ? & ? & ?). by exists (now, s').
  - intros sid [now s] G. destruct (bridge_exists sid now s G) as (s' & ? & ? & ?). by exists (now, s').
Qed.
End BridgeKeeps.
