(* ===== verification/SessionLayer.v ===== *)
(** The session middleware: [layer.rs], [signing.rs] and [config.rs] of
    [crates/session/src].

    A request is what the layer reads of it: the two headers, [None] when
    absent or not visible ASCII, and the scheme of its URI. HMAC-SHA256,
    base64url and the header-value check belong to other crates and are
    parameters; so are the clock and the source of fresh ids, which the world
    supplies. *)
From Stdlib Require Import Ascii String.
From Stdlib Require Import ZArith NArith List Lia.
From stdpp Require Import base decidable list gmap.
From S2P Require Import Prelude Str Json Session.

(** * Configuration *)

Inductive SameSite : Type := Strict | Lax | NoSameSite.

Definition same_site_as_str (s : SameSite) : str :=
  match s with Strict => lit "Strict" | Lax => lit "Lax" | NoSameSite => lit "None" end.

Record SessionConfig : Type := mkConfig {
  cookie_name : str;
  path : str;
  domain : option str;
  secure : bool;
  http_only : bool;
  same_site : SameSite;
  idle_timeout_seconds : Z;
  absolute_timeout_seconds : option Z
}.

Definition DEFAULT_COOKIE_NAME : str := lit "PYFLY_SESSION".
Definition DEFAULT_TTL_SECONDS : Z := 1800.

Definition config_default : SessionConfig :=
  mkConfig DEFAULT_COOKIE_NAME (lit "/") None false true Lax DEFAULT_TTL_SECONDS None.

Definition idle_timeout (c : SessionConfig) : Z := from_secs (idle_timeout_seconds c).
Definition absolute_timeout (c : SessionConfig) : option Z := from_secs <$> absolute_timeout_seconds c.

Record Request : Type := mkRequest {
  cookie : option str;
  forwarded_proto : option str;
  scheme : option str
}.

Record Response (R : Type) : Type := mkResponse { set_cookies : list str; rest : R }.
Arguments mkResponse {R}. Arguments set_cookies {R}. Arguments rest {R}.

(** * Cookies *)

(** The pairs of the header in turn. *)
Fixpoint find_pair (name : str) (pairs : list str) : option str :=
  match pairs with
  | [] => None
  | p :: pairs =>
      match split_once 61%N (trim p) with
      | Some (k, v) => if str_eqb (trim k) name then Some (trim v) else find_pair name pairs
      | None => find_pair name pairs
      end
  end.

Definition cookie_value (req : Request) (name : str) : option str :=
  header ← cookie req; find_pair name (split 59%N header).

Definition request_is_secure (req : Request) : bool :=
  match forwarded_proto req with
  | Some ((_ :: _) as forwarded) =>
      match split 44%N forwarded with
      | first :: _ => str_eqb (to_ascii_lowercase (trim first)) (lit "https")
      | [] => false
      end
  | _ => bool_decide (scheme req = Some (lit "https"))
  end.

Definition build_set_cookie (value : str) (c : SessionConfig) (sec : bool) : str :=
  cookie_name c ++ lit "=" ++ value ++ lit "; Path=" ++ path c ++
  match domain c with Some d => lit "; Domain=" ++ d | None => [] end ++
  lit "; Max-Age=" ++ show (idle_timeout_seconds c) ++
  lit "; SameSite=" ++ same_site_as_str (same_site c) ++
  (if http_only c then lit "; HttpOnly" else []) ++
  (if sec then lit "; Secure" else []).

Definition build_delete_cookie (c : SessionConfig) : str :=
  cookie_name c ++ lit "=" ++ lit "; Path=" ++ path c ++
  match domain c with Some d => lit "; Domain=" ++ d | None => [] end ++
  lit "; Max-Age=0".

(** * Signing *)

(** [Hmac<Sha256>] under a key and base64url without padding. *)
Class Signatures : Type := {
  hmac : bytes -> str -> bytes;
  encode : bytes -> str;
  decode : str -> option bytes
}.

(** base64url decodes what it encodes, in an alphabet of letters, digits, [-] and [_]. *)
Class SignatureLaws `{Signatures} : Prop := {
  decode_encode : forall b, decode (encode b) = Some b;
  encode_alphabet : forall b c, In c (encode b) -> is_whitespace c = false /\ c <> 59%N /\ c <> 46%N
}.

#[export] Instance byte_decision : EqDecision Byte.byte := Byte.byte_eq_dec.

Section Signing.
Context `{Signatures}.

Definition mac (key : bytes) (id : str) : str := encode (hmac key id).
Definition sign (key : bytes) (session_id : str) : str := session_id ++ lit "." ++ mac key session_id.

Definition verify (key : bytes) (value : str) : option str :=
  '(id, sig) ← rsplit_once 46%N value;
  provided ← decode sig;
  if bool_decide (provided = hmac key id) then Some id else None.

Definition extract_cookie_id (req : Request) (name : str) (signer : option bytes) : option str :=
  raw ← cookie_value req name;
  match signer with Some key => verify key raw | None => Some raw end.
End Signing.

(** * The middleware *)

Section Layer.
Context {V W J R : Type} `{JsonValue V} `{Signatures}.
Variable store : SessionStore V W J.
Variable config : SessionConfig.
Variable signer : option bytes.
(** The clock in milliseconds, [Number::as_i64], fresh UUIDs and
    [HeaderValue::from_str]. *)
Variable now_millis : W -> Z * W.
Variable as_i64 : Num -> option Z.
Variable new_session_id : W -> str * W.
Variable header_ok : str -> bool.

Definition absolute_timeout_exceeded (data : SessionData V) : M W bool :=
  match absolute_timeout config with
  | None => ret false
  | Some max =>
      match data !! CREATED_AT_KEY ≫= value_as_i64 as_i64 with
      | None => ret false
      | Some created_ms =>
          let! now := total now_millis in
          let age_ms := i64 (now - created_ms) in
          ret ((0 <=? age_ms) && (max <? from_millis age_ms))
      end
  end.

(** [Session::new(SessionInner::new(new_session_id()))]. *)
Definition fresh_session : M W (SessionInner V) :=
  let! sid := total new_session_id in
  let! now := total now_millis in
  ret (session_new now sid).

Definition load_or_create (cookie_id : option str) : M W (SessionInner V) :=
  match cookie_id with
  | None => fresh_session
  | Some sid =>
      let! found := store_get store sid in
      match found with
      | Ok (Some data) =>
          let! exceeded := absolute_timeout_exceeded data in
          if exceeded then let! _ := store_delete store sid in fresh_session
          else let! now := total now_millis in ret (session_load now sid data)
      | _ => fresh_session
      end
  end.

(** Store failures are ignored. *)
Definition persist (s : SessionInner V) : M W unit :=
  let! _ := match previous_id s with
            | Some prev => if str_eqb prev (id s) then ret (Ok tt) else store_delete store prev
            | None => ret (Ok tt)
            end in
  if invalidated s then let! _ := store_delete store (id s) in ret tt
  else if modified s then let! _ := store_save store (id s) (data s) (idle_timeout config) in ret tt
  else ret tt.

Definition session_header (s : SessionInner V) (is_secure : bool) : str :=
  if invalidated s then build_delete_cookie config
  else build_set_cookie (match signer with Some key => sign key (id s) | None => id s end)
         config (secure config || is_secure).

Definition decorate_response (resp : Response R) (s : SessionInner V) (is_secure : bool) : Response R :=
  let header := session_header s is_secure in
  if header_ok header then mkResponse (set_cookies resp ++ [header]) (rest resp) else resp.

(** [SessionService::call]. The handler gets the session, and the layer what
    the handler made of it. *)
Definition call (handler : Request -> SessionInner V -> M W (Response R * SessionInner V)) (req : Request)
  : M W (Response R) :=
  let is_secure := request_is_secure req in
  let cookie_id := extract_cookie_id req (cookie_name config) signer in
  let! session := load_or_create cookie_id in
  let! out := handler req session in
  let '(resp, session) := out in
  let! _ := persist session in
  ret (decorate_response resp session is_secure).

(** What a handler does with its session, one call at a time. *)
Inductive Access : Type :=
| SetAttribute (name : str) (v : V)
| RemoveAttribute (name : str)
| RotateId
| Invalidate.

Definition access (a : Access) (s : SessionInner V) : M W (SessionInner V) :=
  match a with
  | SetAttribute name v => ret (set_attribute_value name v s)
  | RemoveAttribute name => ret (remove_attribute name s)
  | RotateId => if invalidated s then ret s else let! fresh := total new_session_id in ret (rotate_id fresh s)
  | Invalidate => ret (invalidate s)
  end.

Fixpoint accesses (l : list Access) (s : SessionInner V) : M W (SessionInner V) :=
  match l with
  | [] => ret s
  | a :: l => let! s := access a s in accesses l s
  end.
End Layer.

(** * Cookies come back *)

(** What a cookie's value may hold: no white space and no semicolon. *)
Definition cookie_text (s : str) : Prop := Forall (fun c => is_whitespace c = false /\ c <> 59%N) s.

Lemma cookie_text_trim s : cookie_text s -> trim s = s.
Proof.
  intros F. unfold cookie_text in F. rewrite List.Forall_forall in F. apply trim_id; intros c E; apply head_in in E.
  - by apply F.
  - apply in_rev in E. by apply F.
Qed.

Lemma cookie_text_semicolon s : cookie_text s -> ~ In 59%N s.
Proof. intros F I. unfold cookie_text in F. rewrite List.Forall_forall in F. by apply F in I as [_ ?]. Qed.

(** The browser keeps the pair in front of the attributes, and sends the pairs
    it has with ["; "] between them. *)
Definition kept_pair (set_cookie : str) : str := hd [] (split 59%N set_cookie).
Definition cookie_header (pairs : list str) : str := join (lit "; ") pairs.

(** Whether a pair is for the cookie of that name. *)
Definition names_cookie (name p : str) : Prop :=
  exists k v, split_once 61%N (trim p) = Some (k, v) /\ trim k = name.

Lemma trim_space p : trim (32%N :: p) = trim p.
Proof. done. Qed.

Lemma split_cookie_header ps : ps <> [] -> Forall (fun p => ~ In 59%N p) ps ->
  exists q qs, split 59%N (cookie_header ps) = q :: qs /\ map trim (q :: qs) = map trim ps.
Proof.
  intros N F. unfold cookie_header. induction F as [|p ps Np F IH]; [done|]. destruct ps as [|p2 ps].
  - exists p, []. simpl. by rewrite split_no_sep.
  - destruct IH as (q & qs & E & T); [done|].
    change (join (lit "; ") (p :: p2 :: ps)) with (p ++ 59%N :: (32%N :: join (lit "; ") (p2 :: ps))).
    rewrite split_cons_sep by done. change (split 59%N (32%N :: join (lit "; ") (p2 :: ps))) with
      (match split 59%N (join (lit "; ") (p2 :: ps)) with [] => [[32%N]] | a :: l => (32%N :: a) :: l end).
    rewrite E. exists p, ((32%N :: q) :: qs). split; [done|]. simpl map in *. by rewrite trim_space, T.
Qed.

Lemma find_pair_trim name l l' : map trim l = map trim l' -> find_pair name l = find_pair name l'.
Proof.
  revert l'. induction l as [|p l IH]; intros [|p' l'] E; try done. simpl in *. injection E as -> E.
  by rewrite (IH l' E).
Qed.

Lemma find_pair_skip name before l : Forall (fun p => ~ names_cookie name p) before ->
  find_pair name (before ++ l) = find_pair name l.
Proof.
  induction 1 as [|p before N _ IH]; [done|]. simpl. destruct (split_once 61%N (trim p)) as [[k v]|] eqn:E; [|done].
  unfold str_eqb. rewrite bool_decide_eq_false_2; [done|]. intros T. apply N. by exists k, v.
Qed.

Lemma find_pair_here name p l k v : split_once 61%N (trim p) = Some (k, v) -> trim k = name ->
  find_pair name (p :: l) = Some (trim v).
Proof. intros E T. simpl. rewrite E. unfold str_eqb. by rewrite bool_decide_eq_true_2. Qed.

(** A cookie the browser sends back is read back, whatever else it sends. *)
Lemma cookie_read_back name value before after req :
  cookie_text name -> ~ In 61%N name -> cookie_text value ->
  Forall (fun p => ~ In 59%N p) (before ++ after) -> Forall (fun p => ~ names_cookie name p) before ->
  cookie req = Some (cookie_header (before ++ (name ++ lit "=" ++ value) :: after)) ->
  cookie_value req name = Some value.
Proof.
  intros Tn Ne Tv Fs Fb C. unfold cookie_value. rewrite C.
  change (find_pair name (split 59%N (cookie_header (before ++ (name ++ lit "=" ++ value) :: after))) = Some value).
  assert (Tp : cookie_text (name ++ lit "=" ++ value)).
  { apply Forall_app. split; [done|]. by constructor. }
  destruct (split_cookie_header (before ++ (name ++ lit "=" ++ value) :: after)) as (q & qs & -> & T).
  - by destruct before.
  - apply Forall_app in Fs as [F1 F2]. apply Forall_app. split; [done|]. constructor; [|done].
    by apply cookie_text_semicolon.
  - rewrite (find_pair_trim name _ _ T), find_pair_skip by done.
    rewrite (find_pair_here name _ after name value); [by rewrite cookie_text_trim| |by apply cookie_text_trim].
    rewrite (cookie_text_trim _ Tp). by apply split_once_sep.
Qed.

Lemma kept_pair_set_cookie value c sec : cookie_text (cookie_name c) -> cookie_text value ->
  kept_pair (build_set_cookie value c sec) = cookie_name c ++ lit "=" ++ value.
Proof.
  intros Tn Tv. unfold kept_pair, build_set_cookie.
  rewrite !app_assoc, <- (app_assoc _ (lit "; Path=")), <- !app_assoc.
  match goal with |- hd [] (split _ (?a ++ ?b ++ ?v ++ lit "; Path=" ++ ?r)) = _ =>
    replace (a ++ b ++ v ++ lit "; Path=" ++ r) with ((a ++ b ++ v) ++ 59%N :: (lit " Path=" ++ r))
      by (rewrite <- !app_assoc; done) end.
  rewrite split_cons_sep; [done|]. rewrite !in_app_iff. intros [I|[I|I]].
  - by apply cookie_text_semicolon in I.
  - destruct I as [?|[]]. done.
  - by apply cookie_text_semicolon in I.
Qed.

Section SigningLaws.
Context `{SignatureLaws}.

(** A signature verifies, and only the signature does. *)
Lemma verify_sign key id : verify key (sign key id) = Some id.
Proof.
  unfold verify, sign. change (id ++ lit "." ++ mac key id) with (id ++ 46%N :: mac key id).
  rewrite rsplit_once_sep.
  - simpl. unfold mac. rewrite decode_encode. simpl. by rewrite bool_decide_eq_true_2.
  - intros I. by apply encode_alphabet in I as (_ & _ & ?).
Qed.

Lemma sign_text key id : cookie_text id -> cookie_text (sign key id).
Proof.
  intros T. apply Forall_app. split; [done|]. constructor; [done|]. apply List.Forall_forall. intros c I.
  apply encode_alphabet in I. tauto.
Qed.
End SigningLaws.

(** What verifies carries the signature. *)
Lemma verify_genuine `{Signatures} key value id : verify key value = Some id ->
  exists sig, rsplit_once 46%N value = Some (id, sig) /\ decode sig = Some (hmac key id).
Proof.
  unfold verify. destruct (rsplit_once 46%N value) as [[i sig]|]; [|done]. simpl.
  destruct (decode sig) as [b|] eqn:D; [|done]. simpl. destruct (bool_decide_reflect (b = hmac key i)) as [->|]; [|done].
  intros [= ->]. by exists sig.
Qed.

(** Keys that start with an underscore are not attributes. *)
Lemma hidden_names {V} (s : SessionInner V) :
  (forall k v, data s !! k = Some v -> starts_with (lit "_") k = true) -> attribute_names s = [].
Proof.
  intros K. unfold attribute_names.
  assert (F : Forall (fun p => starts_with (lit "_") (fst p) = true) (map_to_list (data s))).
  { apply List.Forall_forall. intros [k v] I. apply list_elem_of_In, (elem_of_map_to_list (M := gmap str)) in I. by apply (K k v). }
  induction F as [|p l E _ IH]; [done|]. simpl. by rewrite E.
Qed.

Lemma new_session_names {V} `{JsonValue V} now id : attribute_names (session_new now id) = [].
Proof.
  apply hidden_names. intros k v L. unfold session_new in L. cbn [data] in L.
  apply (lookup_insert_Some (M := gmap str)) in L as [[<- _]|[_ L]]; [by vm_compute|].
  by apply (lookup_insert_Some (M := gmap str)) in L as [[<- _]|[_ L]]; [vm_compute|].
Qed.

(** * The middleware over a store that keeps sessions *)

(** A world whose clock and ids leave the store alone. *)
Definition quiet {V W} (good : W -> Prop) (fits : Z -> W -> Prop) (live : W -> str -> option (SessionData V)) (w w' : W) : Prop :=
  good w' /\ (forall x, live w' x = live w x) /\ forall ttl, fits ttl w -> fits ttl w'.

Class QuietClock {V W} (good : W -> Prop) (fits : Z -> W -> Prop) (live : W -> str -> option (SessionData V))
    (now_millis : W -> Z * W) (new_session_id : W -> str * W) : Prop := {
  clock_quiet : forall w, good w -> quiet good fits live w (snd (now_millis w));
  ids_quiet : forall w, good w -> quiet good fits live w (snd (new_session_id w))
}.

Section Middleware.
Context {V W J R : Type} `{JsonValue V} `{Signatures}.
Context (store : SessionStore V W J) (good : W -> Prop) (fits : Z -> W -> Prop) (live : W -> str -> option (SessionData V)).
Context (now_millis : W -> Z * W) (new_session_id : W -> str * W).
Context `{!KeepsSessions store good fits live} `{!QuietClock good fits live now_millis new_session_id}.
Context (config : SessionConfig) (signer : option bytes) (as_i64 : Num -> option Z) (header_ok : str -> bool).
Implicit Types (s : SessionInner V) (w : W).

Abbreviation quiet := (quiet good fits live).
Abbreviation load_or_create := (load_or_create store config now_millis as_i64 new_session_id).
Abbreviation persist := (persist store config).
Abbreviation decorate := (decorate_response config signer header_ok).
Abbreviation call := (call (R := R) store config signer now_millis as_i64 new_session_id header_ok).
Abbreviation accesses := (accesses (V := V) new_session_id).

Lemma quiet_refl w : good w -> quiet w w.
Proof. done. Qed.

Lemma quiet_trans w1 w2 w3 : quiet w1 w2 -> quiet w2 w3 -> quiet w1 w3.
Proof. intros (_ & L1 & F1) (G & L2 & F2). split; [done|]. split; [intros x; by rewrite L2|auto]. Qed.

(** ** Persisting *)

(** What the store answers after [persist]. *)
Definition settled (L : str -> option (SessionData V)) s (x : str) : option (SessionData V) :=
  if decide (x = id s) then (if invalidated s then None else if modified s then Some (data s) else L x)
  else if decide (previous_id s = Some x) then None else L x.

Lemma retire_spec s w : good w -> fits (idle_timeout config) w -> exists r w',
  (match previous_id s with
   | Some prev => if str_eqb prev (id s) then ret (Ok tt) else store_delete store prev
   | None => ret (Ok tt)
   end) w = Some (r, w') /\ good w' /\ fits (idle_timeout config) w' /\
  forall x, live w' x = if decide (x <> id s /\ previous_id s = Some x) then None else live w x.
Proof.
  intros G F. assert (Nothing : (forall x, previous_id s = Some x -> x = id s) ->
    forall x, live w x = if decide (x <> id s /\ previous_id s = Some x) then None else live w x).
  { intros P x. destruct (decide _) as [[N E]|]; [|done]. by apply P in E. }
  destruct (previous_id s) as [prev|]; [|exists (Ok tt), w; split_and!; [done|done|done|by apply Nothing]].
  unfold str_eqb. destruct (bool_decide_reflect (prev = id s)) as [->|N].
  - exists (Ok tt), w. split_and!; [done|done|done|]. apply Nothing. congruence.
  - destruct (delete_live prev w G) as (w' & -> & G' & L & O & Fi). exists (Ok tt), w'. split_and!; [done|done|auto|].
    intros x. destruct (decide _) as [[Ne [= ->]]|Ne]; [done|]. apply O. intros ->. by apply Ne.
Qed.

Lemma persist_spec s w : good w -> fits (idle_timeout config) w -> exists w',
  persist s w = Some (tt, w') /\ good w' /\ forall x, live w' x = settled (live w) s x.
Proof.
  intros G F. unfold SessionLayer.persist. destruct (retire_spec s w G F) as (r & w1 & E & G1 & F1 & L1).
  unfold bind at 1. rewrite E. unfold settled.
  assert (Else : forall x, x <> id s -> live w1 x = if decide (previous_id s = Some x) then None else live w x).
  { intros x N. rewrite L1. by destruct (decide (x <> id s /\ previous_id s = Some x)) as [[_ ?]|?],
      (decide (previous_id s = Some x)) as [?|?]; try done; exfalso; auto. }
  assert (Same : live w1 (id s) = live w (id s)) by (rewrite L1; by destruct (decide _) as [[]|]).
  destruct (invalidated s); [|destruct (modified s)]; unfold bind.
  - destruct (delete_live (id s) w1 G1) as (w2 & -> & G2 & L2 & O2 & _). exists w2. split; [done|]. split; [done|].
    intros x. destruct (decide (x = id s)) as [->|N]; [done|]. by rewrite O2, Else.
  - destruct (save_live (id s) (data s) (idle_timeout config) w1 G1 F1) as (w2 & -> & G2 & L2 & O2). exists w2.
    split; [done|]. split; [done|]. intros x. destruct (decide (x = id s)) as [->|N]; [done|]. by rewrite O2, Else.
  - exists w1. split; [done|]. split; [done|]. intros x. destruct (decide (x = id s)) as [->|N]; [done|]. by apply Else.
Qed.

(** ** Loading *)

Lemma fresh_spec w : good w -> exists sid now w', fresh_session now_millis new_session_id w = Some (session_new now sid, w') /\
  quiet w w' /\ sid = fst (new_session_id w).
Proof.
  intros G. unfold fresh_session, bind, total, ret. destruct (new_session_id w) as [sid w1] eqn:E1.
  destruct (now_millis w1) as [now w2] eqn:E2. exists sid, now, w2. split; [done|].
  pose proof (ids_quiet w G) as Q1. rewrite E1 in Q1. pose proof (clock_quiet w1 (proj1 Q1)) as Q2. rewrite E2 in Q2.
  split; [by eapply quiet_trans|done].
Qed.

Lemma exceeded_spec (d : SessionData V) w : good w -> exists b w',
  absolute_timeout_exceeded config now_millis as_i64 d w = Some (b, w') /\ quiet w w'.
Proof.
  intros G. unfold absolute_timeout_exceeded. destruct (absolute_timeout config) as [max|]; [|by exists false, w].
  destruct (_ ≫= _) as [created|]; [|by exists false, w]. unfold bind, total, ret.
  destruct (now_millis w) as [now w1] eqn:E1. eexists _, w1. split; [done|].
  pose proof (clock_quiet w G) as Q. by rewrite E1 in Q.
Qed.

(** The session of a request is the live one its cookie names, within its
    absolute lifetime, or a new one. *)
Lemma load_spec cid w : good w -> exists s w', load_or_create cid w = Some (s, w') /\
  good w' /\ (forall ttl, fits ttl w -> fits ttl w') /\
  ((exists sid d now w1, cid = Some sid /\ live w sid = Some d /\ s = session_load now sid d /\ quiet w w' /\
      quiet w w1 /\ exists w2, absolute_timeout_exceeded config now_millis as_i64 d w1 = Some (false, w2)) \/
   (exists sid now w0, s = session_new now sid /\ sid = fst (new_session_id w0)) /\ forall x, live w' x = live w x \/ cid = Some x /\ live w' x = None).
Proof.
  intros G. assert (Fresh : forall w1, good w1 -> (forall ttl, fits ttl w -> fits ttl w1) ->
    (forall x, live w1 x = live w x \/ cid = Some x /\ live w1 x = None) ->
    exists s w', fresh_session now_millis new_session_id w1 = Some (s, w') /\ good w' /\ (forall ttl, fits ttl w -> fits ttl w') /\
    (exists sid now w0, s = session_new now sid /\ sid = fst (new_session_id w0)) /\ forall x, live w' x = live w x \/ cid = Some x /\ live w' x = None).
  { intros w1 G1 F1 L1. destruct (fresh_spec w1 G1) as (sid & now & w' & -> & (G' & L' & F') & Es). exists (session_new now sid), w'.
    split; [done|]. split; [done|]. split; [auto|]. split; [by exists sid, now, w1|]. intros x. rewrite L'. apply L1. }
  unfold SessionLayer.load_or_create. destruct cid as [sid|].
  2:{ destruct (Fresh w) as (s & w' & ? & ? & ? & ?); [done|auto|auto|]. exists s, w'. auto. }
  unfold bind at 1. destruct (get_live sid w G) as (w1 & -> & G1 & L1 & F1).
  assert (Q1 : quiet w w1) by (by split_and!). destruct (live w sid) as [d|] eqn:Ld.
  2:{ destruct (Fresh w1) as (s & w' & ? & ? & ? & ?); [done|auto|intros x; left; apply L1|]. exists s, w'. auto. }
  unfold bind at 1. destruct (exceeded_spec d w1 G1) as (b & w2 & Ex & Q2). rewrite Ex. destruct b.
  - unfold bind at 1. destruct Q2 as (G2 & L2 & F2). destruct (delete_live sid w2 G2) as (w3 & -> & G3 & L3 & O3 & F3).
    destruct (Fresh w3) as (s & w' & ? & ? & ? & ?); [done|auto| |exists s, w'; auto].
    intros x. destruct (decide (x = sid)) as [->|N]; [by right|left]. by rewrite O3, L2, L1.
  - unfold bind, total, ret. destruct (now_millis w2) as [now w3] eqn:E3. exists (session_load now sid d), w3.
    pose proof (clock_quiet w2 (proj1 Q2)) as Q3. rewrite E3 in Q3.
    assert (Q : quiet w w3) by (eapply quiet_trans; [exact Q1|]; by eapply quiet_trans).
    split; [done|]. split; [apply Q|]. split; [apply Q|]. left. exists sid, d, now, w1. split_and!; try done. by exists w2.
Qed.

(** ** What a handler's calls make of the session *)

(** The ids drawn by the rotations, none after an invalidation. *)
Fixpoint drawn (l : list (Access (V := V))) (inv : bool) w : list str :=
  match l with
  | [] => []
  | RotateId :: l => if inv then drawn l inv w else let '(sid, w) := new_session_id w in sid :: drawn l inv w
  | Invalidate :: l => drawn l true w
  | _ :: l => drawn l inv w
  end.

Definition invalidates (l : list (Access (V := V))) : bool :=
  existsb (fun a => match a with Invalidate => true | _ => false end) l.

Definition access_data (d : SessionData V) (a : Access (V := V)) : SessionData V :=
  match a with
  | SetAttribute name v => <[name := v]> d
  | RemoveAttribute name => delete name d
  | RotateId | Invalidate => d
  end.

(** The ids [chain] a session went through, from its first. *)
Definition went_through (chain : list str) s s' : Prop :=
  exists before, id s :: chain = before ++ [id s'] /\
    (chain = [] -> previous_id s' = previous_id s) /\
    (forall b x, before = b ++ [x] -> previous_id s' = Some x).

Lemma went_refl s s' : id s' = id s -> previous_id s' = previous_id s -> went_through [] s s'.
Proof. intros E P. exists []. rewrite E. split_and!; [done|done|]. intros b x Eb. by destruct b. Qed.

Lemma went_step s fresh chain s1 s' : id s1 = fresh -> previous_id s1 = Some (id s) -> went_through chain s1 s' ->
  went_through (fresh :: chain) s s'.
Proof.
  intros <- P1 (before & E & N & P). exists (id s :: before). split; [by rewrite E|]. split; [done|].
  intros b x Eb. destruct b as [|y b].
  - injection Eb as <- ->. rewrite <- P1. apply N. by injection E.
  - injection Eb as _ ->. by eapply P.
Qed.

Lemma accesses_spec l s w : good w -> exists s' w', accesses l s w = Some (s', w') /\ quiet w w' /\
  went_through (drawn l (invalidated s) w) s s' /\ invalidated s' = invalidated s || invalidates l /\
  data s' = fold_left access_data l (data s) /\ is_new s' = is_new s /\
  (modified s' = false -> modified s = false /\ drawn l (invalidated s) w = [] /\ data s' = data s).
Proof.
  revert s w. induction l as [|a l IH]; intros s w G.
  { exists s, w. split; [done|]. split; [done|]. split; [by apply went_refl|]. simpl. by rewrite orb_false_r. }
  assert (Keep : forall s1, access new_session_id a s w = Some (s1, w) -> id s1 = id s -> previous_id s1 = previous_id s ->
    is_new s1 = is_new s -> drawn (a :: l) (invalidated s) w = drawn l (invalidated s1) w ->
    invalidated s1 || invalidates l = invalidated s || invalidates (a :: l) ->
    data s1 = access_data (data s) a -> (modified s1 = false -> modified s = false /\ data s1 = data s) ->
    exists s' w', accesses (a :: l) s w = Some (s', w') /\ quiet w w' /\
      went_through (drawn (a :: l) (invalidated s) w) s s' /\ invalidated s' = invalidated s || invalidates (a :: l) /\
      data s' = fold_left access_data (a :: l) (data s) /\ is_new s' = is_new s /\
      (modified s' = false -> modified s = false /\ drawn (a :: l) (invalidated s) w = [] /\ data s' = data s)).
  { intros s1 A Ei Ep En Ed Ev Edat Em. destruct (IH s1 w G) as (s' & w' & Ra & Q & (before & Ec & Nc & Pc) & Iv & Dt & Nw & Md).
    exists s', w'. cbn [SessionLayer.accesses]. unfold bind. rewrite A. split; [done|]. split; [done|].
    rewrite Ed, <- Ev. split; [|split; [done|]].
    { unfold went_through. rewrite <- Ei, <- Ep. by exists before. }
    simpl. rewrite <- Edat. split; [done|]. split; [congruence|].
    intros M. destruct (Md M) as (M1 & D1 & E1). destruct (Em M1). split_and!; [done|done|congruence]. }
  destruct a as [name v|name| |].
  - by apply (Keep (set_attribute_value name v s)).
  - assert (Rm : remove_attribute name s = s /\ data s !! name = None \/
                remove_attribute name s = mkSession (id s) (previous_id s) (is_new s) (invalidated s) true (delete name (data s))).
    { unfold remove_attribute. destruct (data s !! name) eqn:L; auto. }
    apply (Keep (remove_attribute name s)); [done|..]; (destruct Rm as [[-> L]| ->]; [|done]); try done.
    symmetry. exact (delete_id (M := gmap str) (data s) name L).
  - destruct (invalidated s) eqn:Is.
    + apply (Keep s); simpl; rewrite ?Is; done.
    + cbn [SessionLayer.accesses access drawn]. rewrite Is. unfold bind, total, ret.
      destruct (new_session_id w) as [sid w1] eqn:E1. pose proof (ids_quiet w G) as Q1. rewrite E1 in Q1. simpl in Q1.
      assert (Rot : rotate_id sid s = mkSession sid (Some (id s)) (is_new s) false true (data s)) by (unfold rotate_id; by rewrite Is).
      rewrite Rot. set (s1 := mkSession _ _ _ _ _ _).
      destruct (IH s1 w1 (proj1 Q1)) as (s' & w' & Ra & Q & Wt & Iv & Dt & Nw & Md). exists s', w'.
      split; [exact Ra|]. split; [exact (quiet_trans _ _ _ Q1 Q)|]. split; [exact (went_step s sid _ s1 s' eq_refl eq_refl Wt)|]. split_and!; [done|done|done|].
      intros M. by destruct (Md M).
  - apply (Keep (invalidate s)); try done. simpl. by rewrite orb_true_r.
Qed.

(** ** Requests *)

Lemma call_steps handler req w s1 w1 resp s w2 :
  load_or_create (extract_cookie_id req (cookie_name config) signer) w = Some (s1, w1) ->
  handler req s1 w1 = Some ((resp, s), w2) -> good w2 -> fits (idle_timeout config) w2 ->
  exists w3, call handler req w = Some (decorate resp s (request_is_secure req), w3) /\ good w3 /\
    forall x, live w3 x = settled (live w2) s x.
Proof.
  intros Ld Hd G F. destruct (persist_spec s w2 G F) as (w3 & P & G3 & L3). exists w3.
  unfold SessionLayer.call, bind. rewrite Ld, Hd, P. done.
Qed.

Lemma resumed_quiet sid w now d w1 : good w -> load_or_create (Some sid) w = Some (session_load now sid d, w1) -> quiet w w1.
Proof.
  intros G Ld. destruct (load_spec (Some sid) w G) as (s & w' & Q & _ & _ & [(? & ? & ? & ? & _ & _ & _ & Qu & _)|((? & ? & ? & -> & _) & _)]);
    rewrite Ld in Q; [apply Some_inj, (f_equal snd) in Q; simpl in Q; by rewrite Q|].
  apply Some_inj, (f_equal (fun p => is_new (fst p))) in Q. done.
Qed.

(** What [settled] makes of the id a session started from. *)
Lemma settled_first L s s' chain d : went_through chain s s' -> List.NoDup (id s :: chain) -> L (id s) = Some d ->
  settled L s' (id s) =
    match chain with
    | [] => if invalidated s' then None else if modified s' then Some (data s') else Some d
    | [_] => None
    | _ => Some d
    end.
Proof.
  intros (before & E & _ & P) N Ls. unfold settled. destruct chain as [|x [|y chain]].
  - assert (id s = id s') as <- by (destruct before as [|? [|]]; by injection E). by rewrite decide_True, Ls.
  - destruct before as [|b [|? before]]; [done| |by destruct before]. injection E as <- ->. apply List.NoDup_cons_iff in N as [N _].
    rewrite decide_False by (intros E; apply N; left; congruence). by rewrite decide_True by (by apply (P [])).
  - destruct before as [|b before]; [done|]. injection E as <- E. apply List.NoDup_cons_iff in N as [N _].
    rewrite E in N. rewrite in_app_iff in N. rewrite decide_False by (intros Es; apply N; rewrite Es; right; by left).
    destruct (exists_last (l := before)) as (b & z & ->); [by intros ->|].
    rewrite decide_False; [done|]. rewrite (P (id s :: b) z eq_refl). intros [= ->]. apply N. left. apply in_app_iff. right. by left.
Qed.

(** And of the others. *)
Lemma settled_rest L s s' chain : went_through chain s s' -> chain <> [] ->
  last chain = Some (id s') /\ (forall x, ~ In x (id s :: chain) -> settled L s' x = L x) /\
  settled L s' (id s') = if invalidated s' then None else if modified s' then Some (data s') else L (id s').
Proof.
  intros (before & E & _ & P) N. split; [|split].
  - destruct before as [|b before]; [by injection E as _ ->|]. injection E as _ ->. by rewrite last_snoc.
  - intros x. rewrite E, in_app_iff. intros Nx. unfold settled. rewrite decide_False by (intros ->; apply Nx; right; by left).
    destruct before as [|b before] using rev_ind; [by injection E as _ ->|].
    rewrite decide_False; [done|]. rewrite (P before b eq_refl). intros [= ->]. apply Nx. left. apply in_app_iff. right. by left.
  - unfold settled. by rewrite decide_True.
Qed.

(** C14 What a request leaves in the store of the session its cookie names,
    whatever the handler sets, removes, rotates and invalidates, when fresh ids
    do not repeat: with one rotation the old id no longer resolves, and the
    new one, which the cookie carries, holds the handler's data; after an
    invalidation nothing is left under the final id; without rotation the
    entry is updated, or left alone if nothing changed; with two rotations or
    more the id the request came with still resolves, to what it held before;
    no other session is touched. *)
Theorem request_settles_session l resp req w sid d now w1
    (G : good w) (F : fits (idle_timeout config) w) (C : extract_cookie_id req (cookie_name config) signer = Some sid)
    (Ls : live w sid = Some d) (Ld : load_or_create (Some sid) w = Some (session_load now sid d, w1))
    (N : List.NoDup (sid :: drawn l false w1)) :
  exists s w', call (fun _ s => let! s := accesses l s in ret (resp, s)) req w
      = Some (decorate resp s (request_is_secure req), w') /\
    data s = fold_left access_data l (data (session_load now sid d)) /\ invalidated s = invalidates l /\
    (modified s = false -> data s = data (session_load now sid d)) /\
    live w' sid = match drawn l false w1 with
                  | [] => if invalidates l then None else if modified s then Some (data s) else Some d
                  | [_] => None
                  | _ => Some d
                  end /\
    (drawn l false w1 <> [] -> last (drawn l false w1) = Some (id s) /\
       live w' (id s) = if invalidates l then None else Some (data s)) /\
    forall x, ~ In x (sid :: drawn l false w1) -> live w' x = live w x.
Proof.
  pose proof (resumed_quiet sid w now d w1 G Ld) as Q1. destruct Q1 as (G1 & L1 & F1).
  destruct (accesses_spec l (session_load now sid d) w1 G1) as (s & w2 & A & (G2 & L2 & F2) & Wt & Iv & Dt & _ & Md).
  simpl in Iv, Dt, Md. change (invalidated (session_load now sid d)) with false in Wt.
  assert (Lw : forall x, live w2 x = live w x) by (intros x; by rewrite L2, L1).
  rewrite <- C in Ld. destruct (call_steps (fun _ s => let! s := accesses l s in ret (resp, s)) req w _ w1 resp s w2 Ld)
    as (w3 & Ca & _ & L3); [by unfold bind; rewrite A|done|by apply F2, F1|].
  exists s, w3. split; [exact Ca|]. split; [exact Dt|]. split; [exact Iv|]. split; [by intros M; destruct (Md M) as (_ & _ & ?)|].
  split; [|split].
  - rewrite L3, <- Iv. apply (settled_first (live w2) (session_load now sid d) s _ d Wt N). by rewrite Lw.
  - intros Nd. destruct (settled_rest (live w2) _ s _ Wt Nd) as (La & _ & St). split; [done|]. rewrite L3, St, Iv.
    destruct (invalidates l); [done|]. destruct (modified s); [done|]. by destruct (Md eq_refl) as (_ & ? & _).
  - intros x Nx. rewrite L3, <- Lw. destruct (drawn l false w1) as [|y r] eqn:Ed.
    + unfold settled. destruct Wt as (before & E & Pn & _). assert (id s = sid) as -> by (destruct before as [|? [|]]; by injection E).
      rewrite decide_False by (intros ->; apply Nx; by left). by rewrite (Pn eq_refl).
    + by apply (settled_rest (live w2) _ s _ Wt).
Qed.

Lemma session_header_live s sec : invalidated s = false -> session_header config signer s sec =
  build_set_cookie (match signer with Some key => sign key (id s) | None => id s end) config (secure config || sec).
Proof. unfold session_header. by intros ->. Qed.

Lemma load_live sid w d : good w -> live w sid = Some d ->
  (forall w1, exists w2, absolute_timeout_exceeded config now_millis as_i64 d w1 = Some (false, w2)) ->
  exists now w', load_or_create (Some sid) w = Some (session_load now sid d, w').
Proof.
  intros G Ls Ex. unfold SessionLayer.load_or_create, bind at 1. destruct (get_live sid w G) as (w1 & -> & _). rewrite Ls.
  destruct (Ex w1) as [w2 E]. unfold bind at 1. rewrite E. unfold bind, total. destruct (now_millis w2) as [now w3]. by eexists _, _.
Qed.

(** A session survives the way to the browser and back: after a request
    whose handler changed the session and did not invalidate it, the
    response's last Set-Cookie header is the session's; a browser that sends
    that cookie back, among any others of different names, signed or not,
    resumes the session with exactly the data the handler left, as long as
    the store still holds it and it is within its absolute lifetime. *)
Theorem session_survives `{!SignatureLaws} handler req w s1 w1 resp s w2
    (Ld : load_or_create (extract_cookie_id req (cookie_name config) signer) w = Some (s1, w1))
    (Hd : handler req s1 w1 = Some ((resp, s), w2)) (G : good w2) (F : fits (idle_timeout config) w2)
    (Iv : invalidated s = false) (Md : modified s = true)
    (Tn : cookie_text (cookie_name config)) (Nn : ~ In 61%N (cookie_name config)) (Ti : cookie_text (id s))
    (Ho : header_ok (session_header config signer s (request_is_secure req)) = true) :
  exists resp' w3, call handler req w = Some (resp', w3) /\ good w3 /\
    let set_cookie := session_header config signer s (request_is_secure req) in
    set_cookies resp' = set_cookies resp ++ [set_cookie] /\
    forall req' before after w4, good w4 -> live w4 (id s) = live w3 (id s) ->
      cookie req' = Some (cookie_header (before ++ kept_pair set_cookie :: after)) ->
      Forall (fun p => ~ In 59%N p) (before ++ after) ->
      Forall (fun p => ~ names_cookie (cookie_name config) p) before ->
      (forall w5, exists w6, absolute_timeout_exceeded config now_millis as_i64 (data s) w5 = Some (false, w6)) ->
      exists now w5, load_or_create (extract_cookie_id req' (cookie_name config) signer) w4
        = Some (session_load now (id s) (data s), w5).
Proof.
  destruct (call_steps handler req w s1 w1 resp s w2 Ld Hd G F) as (w3 & Ca & G3 & L3).
  exists (decorate resp s (request_is_secure req)), w3. split; [done|]. split; [done|]. cbv zeta. split.
  { unfold decorate_response. by rewrite Ho. }
  intros req' before after w4 G4 L4 Ck Fs Fb Ex. rewrite L3 in L4. unfold settled in L4. rewrite decide_True, Iv, Md in L4 by done.
  set (value := match signer with Some key => sign key (id s) | None => id s end).
  assert (Tv : cookie_text value) by (unfold value; destruct signer; [by apply sign_text|done]).
  rewrite (session_header_live s _ Iv) in Ck. fold value in Ck. rewrite kept_pair_set_cookie in Ck by done.
  replace (extract_cookie_id req' (cookie_name config) signer) with (Some (id s)); [by apply load_live|].
  unfold extract_cookie_id. rewrite (cookie_read_back (cookie_name config) value before after req') by done. simpl.
  unfold value. destruct signer; [by rewrite verify_sign|done].
Qed.

(** No cookie conjures up a session: the session a handler gets is new,
    under a fresh id and with nothing in it but its time stamps, or it is the
    one the store holds for the id in the request's cookie, within its
    absolute lifetime, and, when a signer is configured, that cookie carries
    the signature of that id under the key. *)
Theorem resumed_session_is_genuine req w s w' (G : good w)
    (Ld : load_or_create (extract_cookie_id req (cookie_name config) signer) w = Some (s, w')) :
  (is_new s = true /\ attribute_names s = [] /\ exists w0, id s = fst (new_session_id w0)) \/
  (is_new s = false /\ exists d now raw w1 w2, live w (id s) = Some d /\ s = session_load now (id s) d /\
     cookie_value req (cookie_name config) = Some raw /\
     absolute_timeout_exceeded config now_millis as_i64 d w1 = Some (false, w2) /\
     match signer with
     | Some key => exists sig, rsplit_once 46%N raw = Some (id s, sig) /\ decode sig = Some (hmac key (id s))
     | None => raw = id s
     end).
Proof.
  destruct (load_spec (extract_cookie_id req (cookie_name config) signer) w G) as (s' & w1 & Q & _ & _ & Cases).
  rewrite Ld in Q. injection Q as <- <-.
  destruct Cases as [(sid & d & now & w2 & Ci & Ls & -> & _ & _ & w3 & Ex)|((sid & now & w0 & -> & Es) & _)].
  - right. split; [done|]. unfold extract_cookie_id in Ci.
    destruct (cookie_value req (cookie_name config)) as [raw|] eqn:Cv; [|done]. simpl in Ci.
    exists d, now, raw, w2, w3. split_and!; try done. destruct signer as [key|]; [|by injection Ci].
    by apply verify_genuine.
  - left. split; [done|]. split; [apply new_session_names|by exists w0].
Qed.
End Middleware.

(** * A concrete world: the in-memory store, a clock and a list of ids to come *)

Definition store_on_fst {V W1 W2 J} (S : SessionStore V W1 J) : SessionStore V (W1 * W2) J :=
  mkStore (fun sid => on_fst (store_get S sid)) (fun sid d ttl => on_fst (store_save S sid d ttl))
    (fun sid => on_fst (store_delete S sid)) (fun sid => on_fst (store_exists S sid)).

#[export] Instance fst_keeps_sessions {V W1 W2 J} `{JsonValue V} (S : SessionStore V W1 J) good fits live
  `{!KeepsSessions S good fits live} :
  KeepsSessions (store_on_fst S : SessionStore V (W1 * W2) J)
    (fun w => good (fst w)) (fun t w => fits t (fst w)) (fun w => live (fst w)).
Proof.
  split; simpl.
  - intros sid [w u] G. destruct (get_live sid w G) as (w' & E & R). exists (w', u). unfold on_fst. by rewrite E.
  - intros sid d t [w u] G F. destruct (save_live sid d t w G F) as (w' & E & R). exists (w', u). unfold on_fst. by rewrite E.
  - intros sid [w u] G. destruct (delete_live sid w G) as (w' & E & R). exists (w', u). unfold on_fst. by rewrite E.
  - intros sid [w u] G. destruct (exists_live sid w G) as (w' & E & R). exists (w', u). unfold on_fst. by rewrite E.
Qed.

Definition World : Type := (Z * Entries json) * (Z * list str).
Definition world_millis (w : World) : Z * World := (fst (snd w), w).
Definition world_ids (w : World) : str * World := (hd [] (snd (snd w)), (fst w, (fst (snd w), tl (snd (snd w))))).
Definition memory_store : SessionStore json World unit := store_on_fst MemorySessionStore.
Definition world_live (w : World) : str -> option (SessionData json) := memory_live (fst w).
Definition world_fits (t : Z) (w : World) : Prop := clock_fits t (fst w).

#[export] Instance world_keeps : KeepsSessions memory_store (fun _ => True) world_fits world_live.
Proof. exact (fst_keeps_sessions MemorySessionStore (fun _ => True) clock_fits memory_live). Qed.

#[export] Instance world_quiet : QuietClock (fun _ => True) world_fits world_live world_millis world_ids.
Proof. by split. Qed.

Definition json_as_i64 (n : Num (V := json)) : option Z :=
  match n with inl z => if in_i64 z then Some z else None | inr _ => None end.

(** Two letters a byte, and the key in front of the text for a signature. *)
Definition letters (b : Byte.byte) : str := [97 + Byte.to_N b / 16; 97 + Byte.to_N b mod 16]%N.
Fixpoint unletters (s : str) : option bytes :=
  match s with
  | [] => Some []
  | a :: b :: s => x ← Byte.of_N ((a - 97) * 16 + (b - 97))%N; cons x <$> unletters s
  | _ => None
  end.

#[export] Instance toy_signatures : Signatures := {|
  hmac key id := key ++ flat_map (fun c => match Byte.of_N c with Some b => [b] | None => [] end) id;
  encode := flat_map letters;
  decode := unletters
|}.

#[export] Instance toy_signature_laws : SignatureLaws.
Proof.
  split.
  - intros b. change (decode (encode b)) with (unletters (flat_map letters b)).
    induction b as [|x b IH]; [done|]. simpl. rewrite IH. by destruct x.
  - intros b c I. apply in_flat_map in I as (x & _ & I).
    assert (F : Forall (fun c => is_whitespace c = false /\ c <> 59%N /\ c <> 46%N) (letters x)) by (destruct x; repeat constructor; done).
    rewrite List.Forall_forall in F. by apply F.
Qed.

Definition key : bytes := [Byte.x4b].
Definition started : World := ((0, ∅), (1000, [lit "a1"; lit "b2"; lit "c3"])).
Definition request (c : option str) : Request := mkRequest c None (Some (lit "https")).
Definition handled (l : list (Access (V := json))) (_ : Request) (s : SessionInner json) : M World (Response unit * SessionInner json) :=
  let! s := accesses world_ids l s in ret (mkResponse [] tt, s).
Definition serve (l : list Access) (c : option str) : M World (Response unit) :=
  call memory_store config_default (Some key) world_millis json_as_i64 world_ids (fun _ => true) (handled l) (request c).
Definition login : list (Access (V := json)) := [SetAttribute (lit "user") (JString (lit "ann"))].

Example first_response :
  (fun x => map (fun c => bool_decide (kept_pair c = lit "PYFLY_SESSION=" ++ sign key (lit "a1"))) (set_cookies (fst x)))
    <$> serve login None started = Some [true].
Proof. vm_compute. reflexivity. Qed.

(** The user attribute under an id. *)
Definition user_of (w : World) (sid : str) : option json := world_live w sid ≫= (fun d => d !! lit "user").

(** A rotation at login retires the old id; two in one request leave it. *)
Example rotation_retires_once :
  let sent := Some (lit "PYFLY_SESSION=" ++ sign key (lit "a1")) in
  (x ← serve login None started; y ← serve [RotateId] sent (snd x); Some (map (user_of (snd y)) [lit "a1"; lit "b2"; lit "c3"]))
    = Some [None; Some (JString (lit "ann")); None] /\
  (x ← serve login None started; y ← serve [RotateId; RotateId] sent (snd x); Some (map (user_of (snd y)) [lit "a1"; lit "b2"; lit "c3"]))
    = Some [Some (JString (lit "ann")); None; Some (JString (lit "ann"))].
Proof. split; vm_compute; reflexivity. Qed.

(** A request that only reads does not slide the store's deadline. *)
Example reading_does_not_slide :
  let at_ (t : Z) (w : World) : World := ((from_secs t, snd (fst w)), snd w) in
  let sent := Some (lit "PYFLY_SESSION=" ++ sign key (lit "a1")) in
  (x ← serve login None started; y ← serve [] sent (at_ 1700 (snd x)); Some (user_of (at_ 1801 (snd y)) (lit "a1"))) = Some None.
Proof. vm_compute. reflexivity. Qed.

(** After the login, at the same instant. *)
Definition logged_in : World := match serve login None started with Some (_, w) => w | None => started end.
Definition ann : SessionData json :=
  <[lit "user" := JString (lit "ann")]> (data (session_new 1000 (lit "a1"))).
Definition signed (sid : str) : Request := request (Some (lit "PYFLY_SESSION=" ++ sign key sid)).

Example request_settles_session_witness : exists w' : World,
  world_live w' (lit "a1") = None /\ world_live w' (lit "b2") = Some ann.
Proof.
  destruct (request_settles_session (R := unit) memory_store (fun _ => True) world_fits world_live world_millis world_ids
    config_default (Some key) json_as_i64 (fun _ => true) [RotateId] (mkResponse [] tt) (signed (lit "a1")) logged_in
    (lit "a1") ann 1000 logged_in) as (s & w' & _ & D & _ & _ & L & N & _).
  - exact I.
  - split; vm_compute; discriminate.
  - vm_compute. reflexivity.
  - vm_compute. reflexivity.
  - vm_compute. reflexivity.
  - vm_compute. repeat constructor; simpl; intuition discriminate.
  - exists w'. split; [exact L|]. destruct N as [La Lv]; [vm_compute; discriminate|].
    assert (E : id s = lit "b2") by (vm_compute in La; by injection La). rewrite E in Lv.
    rewrite Lv. f_equal. rewrite D. vm_compute. reflexivity.
Defined.

Example session_survives_witness :
  exists now w5, load_or_create memory_store config_default world_millis json_as_i64 world_ids
    (extract_cookie_id (request (Some (cookie_header [lit "theme=dark"; lit "PYFLY_SESSION=" ++ sign key (lit "a1"); lit "lang=es"])))
       DEFAULT_COOKIE_NAME (Some key)) logged_in = Some (session_load now (lit "a1") ann, w5).
Proof.
  set (s := mkSession (lit "a1") None true false true ann : SessionInner json).
  assert (Tx : forall t, forallb (fun c => negb (is_whitespace c) && negb (c =? 59)%N) t = true -> cookie_text t).
  { intros t B. apply List.Forall_forall. intros c I. rewrite forallb_forall in B. apply B, andb_true_iff in I as [A C].
    apply negb_true_iff in A, C. apply N.eqb_neq in C. done. }
  assert (Ld : load_or_create memory_store config_default world_millis json_as_i64 world_ids
    (extract_cookie_id (request None) (cookie_name config_default) (Some key)) started
    = Some (session_new 1000 (lit "a1"), ((0, ∅), (1000, [lit "b2"; lit "c3"]))))
    by (vm_compute; reflexivity).
  destruct (session_survives (R := unit) memory_store (fun _ => True) world_fits world_live world_millis world_ids
    config_default (Some key) json_as_i64 (fun _ => true) (handled login) (request None) started
    _ _ (mkResponse [] tt) s ((0, ∅), (1000, [lit "b2"; lit "c3"])) Ld) as (resp & w3 & Ca & _ & _ & K).
  - vm_compute. reflexivity.
  - exact I.
  - split; vm_compute; discriminate.
  - reflexivity.
  - reflexivity.
  - apply Tx. vm_compute. reflexivity.
  - vm_compute. intuition discriminate.
  - apply Tx. vm_compute. reflexivity.
  - reflexivity.
  - assert (E : w3 = logged_in) by (unfold logged_in, serve; by rewrite Ca).
    apply (K _ [lit "theme=dark"] [lit "lang=es"] logged_in); [exact I|by rewrite E|vm_compute; reflexivity| | |].
    + constructor; [vm_compute; intuition discriminate|]. constructor; [vm_compute; intuition discriminate|constructor].
    + constructor; [|constructor]. intros (k & v & Sp & T). vm_compute in Sp. injection Sp as <- <-. vm_compute in T. discriminate.
    + intros w5. by exists w5.
Defined.

Example resumed_session_is_genuine_witness : exists s w',
  load_or_create memory_store config_default world_millis json_as_i64 world_ids
    (extract_cookie_id (signed (lit "a1")) (cookie_name config_default) (Some key)) logged_in = Some (s, w') /\
  is_new s = false /\ world_live logged_in (id s) = Some ann.
Proof.
  eexists _, _. split; [vm_compute; reflexivity|]. split; [reflexivity|].
  edestruct (resumed_session_is_genuine memory_store (fun _ => True) world_fits world_live world_millis world_ids
    config_default (Some key) json_as_i64 (signed (lit "a1")) logged_in) as [(Nw & _)|(_ & d & now & raw & w1 & w2 & L & _)];
    [exact I|vm_compute; reflexivity|discriminate Nw|].
  vm_compute. reflexivity.
Defined.
