(* ===== verification/SessionLimit.v ===== *)
(** The limit on a principal's concurrent sessions:
    [crates/session/src/concurrency.rs].

    The registry is a port of its own, next to the session store; both act on
    one world. *)
From Stdlib Require Import Ascii String.
From Stdlib Require Import ZArith NArith List Lia Sorting.Sorted Sorting.Permutation.
From stdpp Require Import base decidable list gmap.
From S2P Require Import Prelude Str Order Json Session.

Inductive Strategy : Type := EvictOldest | RejectNew.

#[export] Instance Strategy_eq_dec : EqDecision Strategy.
Proof. solve_decision. Defined.

Definition from_str_lenient (s : str) : Strategy :=
  if str_eqb s (lit "reject-new") then RejectNew else EvictOldest.

(** [max_sessions] is an [i32]; negative means unlimited. *)
Record ConcurrencyPolicy : Type := mkPolicy { max_sessions : Z; strategy : Strategy }.

Definition policy_default : ConcurrencyPolicy := mkPolicy (-1) EvictOldest.

Record SessionRegistry (W : Type) : Type := mkRegistry {
  register : str -> str -> Z -> M W unit;
  deregister : str -> str -> M W unit;
  list_sessions : str -> M W (list (str * Z));
  count : str -> M W nat
}.
Arguments register {W} s. Arguments deregister {W} s. Arguments list_sessions {W} s. Arguments count {W} s.

Definition default_count {W} (list_sessions : str -> M W (list (str * Z))) (principal : str) : M W nat :=
  let! l := list_sessions principal in ret (List.length l).

(** ** The in-process registry *)

Definition by_age (a b : str * Z) : comparison := then_cmp (snd a ?= snd b) (str_compare (fst a) (fst b)).
Definition oldest_first (m : gmap str Z) : list (str * Z) := sort_by by_age (map_to_list m).

Abbreviation Buckets := (gmap str (gmap str Z)).
Definition bucket (principal : str) (m : Buckets) : gmap str Z := default ∅ (m !! principal).

Definition MemorySessionRegistry : SessionRegistry Buckets :=
  mkRegistry Buckets
    (fun principal sid created_at m => Some (tt, <[principal := <[sid := created_at]> (bucket principal m)]> m))
    (fun principal sid m =>
       Some (tt, match m !! principal with
                 | None => m
                 | Some sessions =>
                     let sessions := delete sid sessions in
                     if decide (sessions = ∅) then delete principal m else <[principal := sessions]> m
                 end))
    (fun principal m => Some (oldest_first (bucket principal m), m))
    (fun principal m => Some (size (bucket principal m), m)).

(** ** The controller *)

Section Controller.
Context {V W J : Type}.
Variable registry : SessionRegistry W.
Variable policy : ConcurrencyPolicy.
Variable session_store : option (SessionStore V W J).

(** The loop over the sessions to evict; a failing store is only logged. *)
Fixpoint evict (principal : str) (l : list (str * Z)) : M W unit :=
  match l with
  | [] => ret tt
  | (sid, _) :: l =>
      let! _ := match session_store with
                | Some store => let! _ := store_delete store sid in ret tt
                | None => ret tt
                end in
      let! _ := deregister registry principal sid in
      evict principal l
  end.

(** What [on_login] does once it has listed the other sessions. *)
Definition admit_login (principal session_id : str) (created_at : Z) (existing : list (str * Z)) : M W bool :=
  let cap := Z.to_nat (max_sessions policy) in
  if (List.length existing <? cap)%nat then
    let! _ := register registry principal session_id created_at in ret true
  else if decide (strategy policy = RejectNew) then ret false
  else
    let to_evict := (List.length existing + 1 - cap)%nat in
    let! _ := evict principal (take to_evict existing) in
    let! _ := register registry principal session_id created_at in ret true.

Definition other_sessions (principal session_id : str) : M W (list (str * Z)) :=
  let! l := list_sessions registry principal in
  ret (List.filter (fun p => negb (str_eqb (fst p) session_id)) l).

Definition on_login (principal session_id : str) (created_at : Z) : M W bool :=
  if max_sessions policy <? 0 then
    let! _ := register registry principal session_id created_at in ret true
  else
    let! existing := other_sessions principal session_id in
    admit_login principal session_id created_at existing.

Definition on_logout (principal session_id : str) : M W unit := deregister registry principal session_id.
End Controller.

(** * What the controller relies on *)

(** A registry that keeps a set of sessions per principal, a store that always
    answers, and neither disturbing the other; [good] says that the store
    works, and [live] what it then holds. *)
Class KeepsBuckets {V W J} (registry : SessionRegistry W) (session_store : option (SessionStore V W J))
    (sessions : W -> str -> gmap str Z) (good : W -> Prop) (live : W -> str -> option (SessionData V)) : Prop := {
  register_adds : forall p sid t w, exists w', register registry p sid t w = Some (tt, w') /\
    (forall q, sessions w' q = if decide (q = p) then <[sid := t]> (sessions w p) else sessions w q) /\
    (good w -> good w') /\ forall x, live w' x = live w x;
  deregister_drops : forall p sid w, exists w', deregister registry p sid w = Some (tt, w') /\
    (forall q, sessions w' q = if decide (q = p) then delete sid (sessions w p) else sessions w q) /\
    (good w -> good w') /\ forall x, live w' x = live w x;
  list_shows : forall p w, exists w', list_sessions registry p w = Some (oldest_first (sessions w p), w') /\
    (forall q, sessions w' q = sessions w q) /\ (good w -> good w') /\ forall x, live w' x = live w x;
  count_counts : forall p w, exists w', count registry p w = Some (size (sessions w p), w') /\
    (forall q, sessions w' q = sessions w q) /\ (good w -> good w') /\ forall x, live w' x = live w x;
  store_answers : forall store sid w, session_store = Some store -> exists r w', store_delete store sid w = Some (r, w') /\
    (forall q, sessions w' q = sessions w q) /\
    (good w -> good w' /\ live w' sid = None /\ forall x, x <> sid -> live w' x = live w x)
}.

(** ** The order of eviction *)

Lemma preorder_age : total_preorder by_age.
Proof. apply preorder_then; [apply (preorder_map snd), preorder_Z|apply (preorder_map fst), preorder_str]. Qed.

Lemma oldest_first_in m sid t : In (sid, t) (oldest_first m) <-> m !! sid = Some t.
Proof.
  unfold oldest_first. split.
  - intros I. eapply Permutation_in in I; [|apply sort_by_permutation]. by apply list_elem_of_In, elem_of_map_to_list in I.
  - intros L. eapply Permutation_in; [symmetry; apply sort_by_permutation|]. by apply list_elem_of_In, elem_of_map_to_list.
Qed.

Lemma oldest_first_nodup m : NoDup (map fst (oldest_first m)).
Proof. unfold oldest_first. rewrite sort_by_permutation. apply NoDup_fst_map_to_list. Qed.

Lemma oldest_first_length m : List.length (oldest_first m) = size m.
Proof. unfold oldest_first. rewrite (Permutation_length (sort_by_permutation _ _)). apply length_map_to_list. Qed.

Lemma sorted_split {A} (R : A -> A -> Prop) n l x y : StronglySorted R l -> In x (take n l) -> In y (drop n l) -> R x y.
Proof.
  revert n. induction l as [|a l IH]; intros [|n] S; simpl; try done. apply StronglySorted_inv in S as [S F].
  intros [<-|I] J; [|by apply (IH n)]. rewrite List.Forall_forall in F. apply F. rewrite <- (take_drop n l). apply in_app_iff. by right.
Qed.

(** The sessions of a principal other than one. *)
Definition others (m : gmap str Z) (sid : str) : list (str * Z) :=
  List.filter (fun p => negb (str_eqb (fst p) sid)) (oldest_first m).

Lemma others_in m sid x t : In (x, t) (others m sid) <-> m !! x = Some t /\ x <> sid.
Proof.
  unfold others. rewrite filter_In, oldest_first_in. simpl. unfold str_eqb. by rewrite negb_true_iff, bool_decide_eq_false.
Qed.

Lemma others_nodup m sid : NoDup (map fst (others m sid)).
Proof.
  unfold others. pose proof (oldest_first_nodup m) as N. induction (oldest_first m) as [|p l IH]; [done|].
  simpl in *. apply NoDup_cons in N as [Np N]. destruct (negb _); simpl; [|auto]. apply NoDup_cons. split; [|auto].
  rewrite list_elem_of_In, in_map_iff in *. intros (q & E & [I _]%filter_In). apply Np. by exists q.
Qed.

(** Taking sessions out one after the other. *)
Definition without (l : list (str * Z)) (m : gmap str Z) : gmap str Z := fold_left (fun m p => delete (fst p) m) l m.

Lemma without_lookup l m x : without l m !! x = if decide (x ∈ map fst l) then None else m !! x.
Proof.
  unfold without. revert m. induction l as [|[y t] l IH]; intros m; [done|]. simpl fold_left. rewrite IH. simpl map.
  destruct (decide (x ∈ map fst l)) as [I|N]; [by rewrite decide_True by (by right)|].
  destruct (decide (y = x)) as [->|Ne]; [by rewrite lookup_delete_eq, decide_True by (by left)|].
  rewrite lookup_delete_ne by done. rewrite decide_False; [done|]. by intros [?|?]%elem_of_cons.
Qed.

Lemma size_bounded (m : gmap str Z) (l : list str) : (forall x, is_Some (m !! x) -> In x l) -> (size m <= List.length l)%nat.
Proof.
  intros S. rewrite <- length_map_to_list, <- (length_map fst). apply NoDup_incl_length.
  - apply NoDup_ListNoDup, NoDup_fst_map_to_list.
  - intros x I. apply in_map_iff in I as ([y t] & <- & I). apply S. exists t. by apply elem_of_map_to_list, list_elem_of_In.
Qed.

(** * What a login does *)

Section Logins.
Context {V W J : Type} (registry : SessionRegistry W) (policy : ConcurrencyPolicy) (session_store : option (SessionStore V W J)).
Context (sessions : W -> str -> gmap str Z) (good : W -> Prop) (live : W -> str -> option (SessionData V)).
Context `{!KeepsBuckets registry session_store sessions good live}.

Abbreviation on_login := (on_login registry policy session_store).
Abbreviation evict := (evict registry session_store).
Abbreviation cap := (Z.to_nat (max_sessions policy)).

(** What the store holds once the sessions [gone] were deleted from it. *)
Definition deleted (gone : list (str * Z)) (L : str -> option (SessionData V)) (x : str) : option (SessionData V) :=
  match session_store with
  | Some _ => if decide (x ∈ map fst gone) then None else L x
  | None => L x
  end.

Lemma deleted_none L x : deleted [] L x = L x.
Proof. unfold deleted. destruct session_store; [|done]. case_decide as I; [by apply elem_of_nil in I|done]. Qed.

Lemma evict_spec p l w : exists w', evict p l w = Some (tt, w') /\
  (forall q, sessions w' q = if decide (q = p) then without l (sessions w p) else sessions w q) /\
  (good w -> good w' /\ forall x, live w' x = deleted l (live w) x).
Proof.
  revert w. induction l as [|[sid t] l IH]; intros w.
  { exists w. split; [done|]. split; [intros q; by destruct (decide (q = p)) as [->|]|]. intros G. split; [done|].
    intros x. by rewrite deleted_none. }
  assert (D : exists w1, (match session_store with
     | Some store => let! _ := store_delete store sid in ret tt
     | None => ret tt end) w = Some (tt, w1) /\ (forall q, sessions w1 q = sessions w q) /\
     (good w -> good w1 /\ forall x, live w1 x = deleted [(sid, t)] (live w) x)).
  { unfold deleted. destruct session_store as [store|] eqn:Es; [|by exists w].
    destruct (store_answers store sid w eq_refl) as (r & w1 & E & Sw & G). exists w1. unfold bind. rewrite E.
    split; [done|]. split; [done|]. intros Gw. destruct (G Gw) as (G1 & N & O). split; [done|]. intros x. simpl.
    destruct (decide (x ∈ [sid])) as [->%list_elem_of_singleton|Nx]; [done|]. apply O. intros ->. apply Nx. by left. }
  destruct D as (w1 & E1 & S1 & G1). destruct (deregister_drops p sid w1) as (w2 & E2 & S2 & G2 & L2).
  destruct (IH w2) as (w3 & E3 & S3 & G3). exists w3. cbn [SessionLimit.evict]. unfold bind at 1. rewrite E1. unfold bind. rewrite E2.
  split; [exact E3|]. split.
  - intros q. rewrite S3, !S2, !S1. destruct (decide (q = p)) as [->|]; [|done]. rewrite decide_True by done. done.
  - intros Gw. destruct (G1 Gw) as [Gw1 L1]. destruct (G3 (G2 Gw1)) as [Gw3 L3]. split; [done|]. intros x.
    rewrite L3. unfold deleted in *. specialize (L1 x). rewrite <- L2 in L1. destruct session_store; [|done]. simpl in *.
    rewrite L1. destruct (decide (x ∈ map fst l)) as [I|N]; [by rewrite decide_True by (by right)|].
    destruct (decide (x ∈ [sid])) as [->%list_elem_of_singleton|Nx]; [by rewrite decide_True by (by left)|].
    rewrite decide_False; [done|]. intros [->|I]%elem_of_cons; [apply Nx; by left|done].
Qed.

(** How many of the other sessions go. *)
Definition surplus (o : list (str * Z)) : nat :=
  if (max_sessions policy <? 0) || (List.length o <? cap)%nat then 0 else (List.length o + 1 - cap)%nat.

Definition refused (o : list (str * Z)) : bool :=
  negb ((max_sessions policy <? 0) || (List.length o <? cap)%nat) && bool_decide (strategy policy = RejectNew).

Lemma on_login_spec p sid t w : let o := others (sessions w p) sid in exists w',
  on_login p sid t w = Some (negb (refused o), w') /\
  (forall q, sessions w' q = if decide (q = p) then
      (if refused o then sessions w p else <[sid := t]> (without (take (surplus o) o) (sessions w p))) else sessions w q) /\
  (good w -> good w' /\ forall x, live w' x = if refused o then live w x else deleted (take (surplus o) o) (live w) x).
Proof.
  set (o := others (sessions w p) sid). assert (Reg : forall w1 k, k = 0%nat -> (forall q, sessions w1 q = sessions w q) ->
    (good w -> good w1 /\ forall x, live w1 x = live w x) ->
    exists w', (let! _ := register registry p sid t in ret true) w1 = Some (true, w') /\
    (forall q, sessions w' q = if decide (q = p) then <[sid := t]> (without (take k o) (sessions w p)) else sessions w q) /\
    (good w -> good w' /\ forall x, live w' x = deleted (take k o) (live w) x)).
  { intros w1 k -> S1 G1. destruct (register_adds p sid t w1) as (w' & E & S' & G' & L'). exists w'. unfold bind. rewrite E.
    split; [done|]. split; [intros q; rewrite S'; destruct (decide (q = p)); by rewrite S1|]. intros G.
    destruct (G1 G) as [Gw1 L1]. split; [auto|]. intros x. by rewrite L', L1, deleted_none. }
  unfold SessionLimit.on_login, refused, surplus. destruct (max_sessions policy <? 0); simpl.
  { by apply (Reg w 0%nat). }
  unfold other_sessions. destruct (list_shows p w) as (w1 & E1 & S1 & G1 & L1). unfold bind at 1 2. rewrite E1. simpl.
  change (List.filter _ _) with o. unfold admit_login. destruct (List.length o <? cap)%nat eqn:Lt; simpl.
  { apply (Reg w1 0%nat); auto. }
  destruct (decide (strategy policy = RejectNew)) as [Rj|Rj].
  { rewrite bool_decide_eq_true_2 by done. exists w1. split; [done|]. split; [|auto]. intros q. rewrite S1.
    by destruct (decide (q = p)) as [->|]. }
  rewrite bool_decide_eq_false_2 by done. simpl.
  destruct (evict_spec p (take (List.length o + 1 - cap) o) w1) as (w2 & E2 & S2 & G2).
  destruct (register_adds p sid t w2) as (w' & E & S' & G' & L'). exists w'. unfold bind. rewrite E2, E.
  split; [done|]. split.
  - intros q. rewrite S', !S2, !S1. destruct (decide (q = p)); [|done]. by rewrite decide_True.
  - intros G. destruct (G2 (G1 G)) as [Gw2 L2]. split; [auto|]. intros x. rewrite L', L2. unfold deleted.
    destruct session_store; by rewrite L1.
Qed.

Lemma on_logout_spec p sid w : exists w', on_logout registry p sid w = Some (tt, w') /\
  forall q, sessions w' q = if decide (q = p) then delete sid (sessions w p) else sessions w q.
Proof. destruct (deregister_drops p sid w) as (w' & E & S & _). by exists w'. Qed.

(** The sessions after a login that went through. *)
Lemma admitted_in m sid t k x tx : let o := others m sid in
  <[sid := t]> (without (take k o) m) !! x = Some tx <-> (x = sid /\ tx = t) \/ In (x, tx) (drop k o).
Proof.
  intros o. assert (Nd : NoDup (map fst (take k o ++ drop k o))) by (rewrite take_drop; apply others_nodup).
  rewrite map_app, NoDup_app in Nd. destruct Nd as (_ & Dj & _).
  destruct (decide (sid = x)) as [<-|N].
  - rewrite lookup_insert_eq. split; [intros [= ->]; by left|]. intros [[_ ->]|I]; [done|].
    assert (In (sid, tx) o) as Io by (rewrite <- (take_drop k o); apply in_app_iff; by right). by apply others_in in Io as [_ ?].
  - rewrite lookup_insert_ne, without_lookup by done. destruct (decide (x ∈ map fst (take k o))) as [I|I].
    + split; [done|]. intros [[-> _]|Id]; [done|]. exfalso. apply (Dj x I). apply list_elem_of_In, in_map_iff. by exists (x, tx).
    + split.
      * intros L. right. assert (In (x, tx) o) as Io by (apply others_in; done). rewrite <- (take_drop k o) in Io.
        apply in_app_iff in Io as [It|?]; [|done]. exfalso. apply I. apply list_elem_of_In, in_map_iff. by exists (x, tx).
      * intros [[-> _]|Id]; [done|]. assert (In (x, tx) o) as Io by (rewrite <- (take_drop k o); apply in_app_iff; by right).
        by apply others_in in Io as [? _].
Qed.

Lemma kept_count o : 0 <= max_sessions policy -> (List.length (drop (surplus o) o) < Nat.max 1 cap)%nat.
Proof.
  intros P. unfold surplus. rewrite (proj2 (Z.ltb_ge _ _)) by lia. simpl.
  destruct (Nat.ltb_spec (List.length o) cap); rewrite length_drop; lia.
Qed.

Lemma login_size m sid t : 0 <= max_sessions policy ->
  (size (<[sid := t]> (without (take (surplus (others m sid)) (others m sid)) m)) <= Nat.max 1 cap)%nat.
Proof.
  intros P. pose proof (kept_count (others m sid) P) as K. set (o := others m sid) in *.
  transitivity (List.length (sid :: map fst (drop (surplus o) o))); [|simpl; rewrite length_map; lia].
  apply size_bounded. intros x [tx L]. apply (admitted_in m sid t (surplus o)) in L as [[-> _]|I]; [by left|].
  right. apply in_map_iff. by exists (x, tx).
Qed.

(** A login over the limit costs exactly the oldest sessions: a login
    always answers; it is refused only under the rejecting strategy and when
    the principal's other sessions fill the limit, and then changes nothing.
    Otherwise the principal's sessions are the new one and those kept: no
    session goes while the new one fits, and when it does not, as many go as
    needed, each at least as old as every one kept, and the store no longer
    holds any of them. At most the limit stay (one, if the limit is
    zero), and other principals keep theirs. *)
Theorem login_evicts_oldest p sid t w : exists b w', on_login p sid t w = Some (b, w') /\
  (forall q, q <> p -> sessions w' q = sessions w q) /\
  let o := others (sessions w p) sid in
  let full := (0 <=? max_sessions policy) && (cap <=? List.length o)%nat in
  b = negb (full && bool_decide (strategy policy = RejectNew)) /\
  if b then
    exists gone kept, o = gone ++ kept /\ List.length gone = (if full then Nat.min (List.length o) (List.length o + 1 - cap) else 0)%nat /\
      (forall x tx, sessions w' p !! x = Some tx <-> (x = sid /\ tx = t) \/ In (x, tx) kept) /\
      (forall old new, In old gone -> In new kept -> by_age old new <> Gt) /\
      (0 <= max_sessions policy -> (size (sessions w' p) <= Nat.max 1 cap)%nat) /\
      (good w -> good w' /\ forall x, live w' x = deleted gone (live w) x)
  else sessions w' p = sessions w p /\ (good w -> good w' /\ forall x, live w' x = live w x).
Proof.
  destruct (on_login_spec p sid t w) as (w' & E & S & G). exists (negb (refused (others (sessions w p) sid))), w'.
  split; [exact E|]. split; [intros q N; by rewrite S, decide_False|]. cbv zeta.
  set (o := others (sessions w p) sid) in *.
  assert (Full : (0 <=? max_sessions policy) && (cap <=? List.length o)%nat
    = negb ((max_sessions policy <? 0) || (List.length o <? cap)%nat)).
  { by rewrite negb_orb, Z.leb_antisym, Nat.leb_antisym. }
  rewrite Full. split; [done|]. rewrite S, decide_True in * by done. destruct (refused o) eqn:Rf; simpl; [by split|].
  exists (take (surplus o) o), (drop (surplus o) o). split; [by rewrite take_drop|]. split.
  { rewrite length_take. unfold surplus. destruct (max_sessions policy <? 0) eqn:Mx; simpl; [lia|].
    destruct (Nat.ltb_spec (List.length o) cap); simpl; [lia|].
    lia. }
  split; [intros x tx; apply admitted_in|]. split.
  { intros old new. apply (sorted_split (fun a b => by_age a b <> Gt)). apply filter_sorted, sort_by_sorted, preorder_age. }
  split; [apply login_size|done].
Qed.

(** A client's call on the controller. *)
Inductive Call : Type :=
| Login (principal session_id : str) (created_at : Z)
| Logout (principal session_id : str).

Definition make (c : Call) : M W unit :=
  match c with
  | Login p sid t => let! _ := on_login p sid t in ret tt
  | Logout p sid => on_logout registry p sid
  end.

Fixpoint makes (l : list Call) : M W unit :=
  match l with [] => ret tt | c :: l => let! _ := make c in makes l end.

Lemma make_capped c w : 0 <= max_sessions policy -> (forall q, (size (sessions w q) <= Nat.max 1 cap)%nat) ->
  exists w', make c w = Some (tt, w') /\ forall q, (size (sessions w' q) <= Nat.max 1 cap)%nat.
Proof.
  intros P B. destruct c as [p sid t|p sid]; simpl.
  - destruct (on_login_spec p sid t w) as (w' & E & S & _). exists w'. unfold bind. rewrite E. split; [done|]. intros q.
    rewrite S. destruct (decide (q = p)) as [->|]; [|done]. destruct (refused _); [done|]. by apply login_size.
  - destruct (on_logout_spec p sid w) as (w' & E & S). exists w'. split; [done|]. intros q. rewrite S.
    destruct (decide (q = p)) as [->|]; [|done]. etransitivity; [|apply (B p)].
    rewrite <- !size_dom, dom_delete_L. apply subseteq_size. set_solver.
Qed.

(** The limit is an invariant of logins and logouts made one after the
    other: whatever calls are made, by whichever principals, from a state that
    respects it, they all return and no principal ever has more sessions than
    the limit (one, if the limit is zero). *)
Theorem sessions_capped calls w (P : 0 <= max_sessions policy)
    (B : forall q, (size (sessions w q) <= Nat.max 1 cap)%nat) :
  exists w', makes calls w = Some (tt, w') /\ forall q, (size (sessions w' q) <= Nat.max 1 cap)%nat.
Proof.
  revert w B. induction calls as [|c calls IH]; intros w B; [by exists w|].
  destruct (make_capped c w P B) as (w1 & E & B1). destruct (IH w1 B1) as (w' & E' & B'). exists w'.
  split; [|done]. simpl. unfold bind. by rewrite E.
Qed.
End Logins.

(** * The in-process registry, without a store and next to one *)

#[export] Instance memory_keeps_buckets {V J} :
  KeepsBuckets MemorySessionRegistry (None : option (SessionStore V Buckets J)) (fun m p => bucket p m)
    (fun _ => True) (fun _ _ => None).
Proof.
  assert (B : forall p q (b : gmap str Z) (m : Buckets), bucket q (<[p := b]> m : Buckets) = if decide (q = p) then b else bucket q m).
  { intros p q b m. unfold bucket. destruct (decide (q = p)) as [->|]; [by rewrite lookup_insert_eq|].
    by rewrite lookup_insert_ne. }
  split.
  - intros p sid t m. eexists. split; [done|]. split; [|done]. intros q. apply B.
  - intros p sid m. eexists. split; [done|]. split; [|done]. intros q. destruct (m !! p) as [b|] eqn:L.
    + assert (Eb : bucket p m = b) by (unfold bucket; by rewrite L). rewrite Eb. cbv zeta. destruct (decide (delete sid b = ∅)) as [->|]; [|by rewrite B].
      unfold bucket. destruct (decide (q = p)) as [->|]; [by rewrite lookup_delete_eq|by rewrite lookup_delete_ne].
    + destruct (decide (q = p)) as [->|]; [|done]. unfold bucket. by rewrite L.
  - intros p m. by exists m.
  - intros p m. by exists m.
  - done.
Qed.

Definition registry_on_fst {W1 W2} (r : SessionRegistry W1) : SessionRegistry (W1 * W2) :=
  mkRegistry _ (fun p sid t => on_fst (register r p sid t)) (fun p sid => on_fst (deregister r p sid))
    (fun p => on_fst (list_sessions r p)) (fun p => on_fst (count r p)).
Definition store_on_snd {V W1 W2 J} (S : SessionStore V W2 J) : SessionStore V (W1 * W2) J :=
  mkStore (fun sid => on_snd (store_get S sid)) (fun sid d ttl => on_snd (store_save S sid d ttl))
    (fun sid => on_snd (store_delete S sid)) (fun sid => on_snd (store_exists S sid)).

(** Any store that keeps sessions does beside it. *)
#[export] Instance pair_keeps_buckets {V J W} `{JsonValue V} (S : SessionStore V W J) good fits live
  `{!KeepsSessions S good fits live} (always : forall w, good w) :
  KeepsBuckets (registry_on_fst MemorySessionRegistry) (Some (store_on_snd S)) (fun w p => bucket p (fst w))
    (fun w => good (snd w)) (fun w => live (snd w)).
Proof.
  pose proof (memory_keeps_buckets (V := V) (J := J)) as K.
  split.
  - intros p sid t [m w]. destruct (register_adds p sid t m) as (m' & E & Sm & _). injection E as <-.
    eexists (_, w). split; [reflexivity|]. split; [exact Sm|done].
  - intros p sid [m w]. destruct (deregister_drops p sid m) as (m' & E & Sm & _). injection E as <-.
    eexists (_, w). split; [reflexivity|]. split; [exact Sm|done].
  - intros p [m w]. by exists (m, w).
  - intros p [m w]. by exists (m, w).
  - intros store sid [m w] [= <-]. destruct (delete_live sid w (always w)) as (w' & E & G & N & O & _).
    exists (Ok tt), (m, w'). simpl. unfold on_snd. by rewrite E.
Qed.

Definition ann : str := lit "ann".
Definition two : ConcurrencyPolicy := mkPolicy 2 EvictOldest.
Definition logins : list Call :=
  [Login ann (lit "s1") 10; Login ann (lit "s2") 20; Login ann (lit "s3") 30].

Example third_login_evicts_first :
  (fun x => oldest_first (bucket ann (snd x))) <$> makes (V := unit) (J := unit) MemorySessionRegistry two None logins ∅
    = Some [(lit "s2", 20); (lit "s3", 30)].
Proof. vm_compute. reflexivity. Qed.

Example sessions_capped_witness : exists w',
  makes (V := unit) (J := unit) MemorySessionRegistry two None logins ∅ = Some (tt, w') /\ (size (bucket ann w') <= 2)%nat.
Proof.
  destruct (sessions_capped (V := unit) (J := unit) MemorySessionRegistry two None (fun m p => bucket p m) (fun _ => True)
    (fun _ _ => None) logins ∅) as (w' & E & B); [discriminate| |exists w'; split; [exact E|exact (B ann)]].
  intros q. unfold bucket. rewrite lookup_empty. change (size (∅ : gmap str Z) <= 2)%nat. rewrite map_size_empty. lia.
Defined.

Definition full_house : Buckets := {[ann := {[lit "s1" := 10; lit "s2" := 20]}]}.

Example login_evicts_oldest_witness : exists w',
  on_login (V := unit) (J := unit) MemorySessionRegistry two None ann (lit "s3") 30 full_house = Some (true, w') /\
  bucket ann w' !! lit "s3" = Some 30 /\ (size (bucket ann w') <= 2)%nat.
Proof.
  destruct (login_evicts_oldest (V := unit) (J := unit) MemorySessionRegistry two None (fun m p => bucket p m) (fun _ => True)
    (fun _ _ => None) ann (lit "s3") 30 full_house) as (b & w' & E & _ & B & C).
  vm_compute in B. subst b. destruct C as (gone & kept & _ & _ & In_ & _ & Sz & _). exists w'.
  split; [exact E|]. split.
  - apply (proj2 (In_ (lit "s3") 30)). left. by split.
  - assert (Two : 0 <= max_sessions two) by (simpl; lia). exact (Sz Two).
Defined.

(** With a limit of zero the evicting strategy still admits a session. *)
Example zero_admits_one :
  (fun x => oldest_first (bucket ann (snd x))) <$>
    makes (V := unit) (J := unit) MemorySessionRegistry (mkPolicy 0 EvictOldest) None logins ∅ = Some [(lit "s3", 30)].
Proof. vm_compute. reflexivity. Qed.

(** Two logins that both list the sessions before either registers its own
    both go through. *)
Example concurrent_logins_exceed_limit :
  let reg := MemorySessionRegistry in
  let one := mkPolicy 1 RejectNew in
  (a ← other_sessions reg ann (lit "s1") ∅; b ← other_sessions reg ann (lit "s2") (snd a);
   x ← admit_login (V := unit) (J := unit) reg one None ann (lit "s1") 10 (fst a) (snd b);
   y ← admit_login (V := unit) (J := unit) reg one None ann (lit "s2") 11 (fst b) (snd x);
   Some (fst x, fst y, oldest_first (bucket ann (snd y)))) = Some (true, true, [(lit "s1", 10); (lit "s2", 11)]).
Proof. vm_compute. reflexivity. Qed.
