(* ===== verification/Transactional.v ===== *)
(** Transactions and the events bound to them:
    [crates/transactional/src/lib.rs], [manager.rs] and [events.rs].

    The database port and the transaction manager are behind traits: their
    implementations are parameters. A closure can unwind, so the computations
    of [with_tx] say how they end; the asynchronous orchestrator is in the
    monad of the other files. *)
From Stdlib Require Import Ascii String.
From Stdlib Require Import ZArith NArith List Lia.
From stdpp Require Import base decidable list.
From S2P Require Import Prelude Str.

(** * The database port *)

Inductive TxError (X : Type) : Type :=
| Begin (e : TxError X)
| Commit (e : TxError X)
| RollbackFailed (source rollback : TxError X)
| Database (message : str)
| Application (e : X).
Arguments Begin {X} e. Arguments Commit {X} e. Arguments RollbackFailed {X} source rollback.
Arguments Database {X} message. Arguments Application {X} e.

Inductive SqlValue : Type :=
| Null
| Integer (n : Z)
| Real (x : f64)
| Text (s : str)
| Blob (b : bytes).

Record Row : Type := mkRow { columns : list str; values : list SqlValue }.

(** The position of the first column of that name. *)
Fixpoint position (column : str) (cols : list str) : option nat :=
  match cols with
  | [] => None
  | c :: cols => if str_eqb c column then Some O else S <$> position column cols
  end.

Definition row_get (column : str) (r : Row) : option SqlValue :=
  idx ← position column (columns r); values r !! idx.
Definition row_get_index (index : nat) (r : Row) : option SqlValue := values r !! index.
Definition row_len (r : Row) : nat := List.length (values r).
Definition row_is_empty (r : Row) : bool := (row_len r =? 0)%nat.

(** How a call ends: it returns, or it unwinds. *)
Inductive Outcome (A : Type) : Type :=
| Returned (a : A)
| Panicked.
Arguments Returned {A} a. Arguments Panicked {A}.

Section Port.
Context {W X : Type}.

Record Executor : Type := mkExecutor {
  execute : str -> list SqlValue -> W -> Result Z (TxError X) * W;
  query : str -> list SqlValue -> W -> Result (list Row) (TxError X) * W
}.

(** The default [query_row]. *)
Definition query_row (e : Executor) (sql : str) (params : list SqlValue) (w : W)
  : Result (option Row) (TxError X) * W :=
  match query e sql params w with
  | (Ok rows, w) => (Ok (head rows), w)
  | (Err err, w) => (Err err, w)
  end.

(** A transaction: its statements, and how it is settled. *)
Record Transaction : Type := mkTransaction {
  tx_executor : Executor;
  commit : W -> Result unit (TxError X) * W;
  rollback : W -> Result unit (TxError X) * W
}.

Record Db : Type := mkDb {
  db_executor : Executor;
  begin : W -> Result Transaction (TxError X) * W
}.

(** [TxContext]: the transaction in flight, if any. *)
Definition TxContext : Type := option Transaction.
Definition root : TxContext := None.
Definition in_transaction (ctx : TxContext) : bool := bool_decide (is_Some ctx).

Inductive Conn : Type :=
| Tx (tx : Transaction)
| OnDb (db : Executor).

Definition conn_executor (c : Conn) : Executor := match c with Tx tx => tx_executor tx | OnDb db => db end.

Definition exec (ctx : TxContext) (db : Executor) : Conn :=
  match ctx with Some tx => Tx tx | None => OnDb db end.

(** [with_tx]. When the closure unwinds, dropping the guard rolls back, and
    what the rollback returns is ignored. *)
Definition with_tx {T} (ctx : TxContext) (db : Db) (f : TxContext -> W -> Outcome (Result T (TxError X)) * W) (w : W)
  : Outcome (Result T (TxError X)) * W :=
  if in_transaction ctx then f ctx w
  else
    match begin db w with
    | (Err e, w) => (Returned (Err (Begin e)), w)
    | (Ok tx, w) =>
        match f (Some tx) w with
        | (Panicked, w) => let '(_, w) := rollback tx w in (Panicked, w)
        | (Returned (Ok value), w) =>
            match commit tx w with
            | (Ok _, w) => (Returned (Ok value), w)
            | (Err err, w) => (Returned (Err (Commit err)), w)
            end
        | (Returned (Err err), w) =>
            match rollback tx w with
            | (Ok _, w) => (Returned (Err err), w)
            | (Err rb, w) => (Returned (Err (RollbackFailed err rb)), w)
            end
        end
    end.
End Port.
Arguments Executor : clear implicits. Arguments Transaction : clear implicits.
Arguments Db : clear implicits. Arguments TxContext : clear implicits.

(** * The orchestrator *)

Inductive Propagation : Type := Required | RequiresNew | Nested | Supports | NotSupported | Mandatory | Never.

Inductive Isolation : Type := DefaultLevel | ReadUncommitted | ReadCommitted | RepeatableRead | Serializable.

Definition sql_level (i : Isolation) : option str :=
  match i with
  | DefaultLevel => None
  | ReadUncommitted => Some (lit "READ UNCOMMITTED")
  | ReadCommitted => Some (lit "READ COMMITTED")
  | RepeatableRead => Some (lit "REPEATABLE READ")
  | Serializable => Some (lit "SERIALIZABLE")
  end.

Record TxOptions : Type := mkOptions {
  propagation : Propagation;
  isolation : Isolation;
  read_only : bool;
  timeout : option Z
}.

Definition options_default : TxOptions := mkOptions Required DefaultLevel false None.
Definition with_propagation (p : Propagation) (o : TxOptions) : TxOptions := mkOptions p (isolation o) (read_only o) (timeout o).
Definition with_isolation (i : Isolation) (o : TxOptions) : TxOptions := mkOptions (propagation o) i (read_only o) (timeout o).
Definition set_read_only (o : TxOptions) : TxOptions := mkOptions (propagation o) (isolation o) true (timeout o).
Definition with_timeout (t : Z) (o : TxOptions) : TxOptions := mkOptions (propagation o) (isolation o) (read_only o) (Some t).
Definition required : TxOptions := options_default.
Definition requires_new : TxOptions := with_propagation RequiresNew options_default.
Definition nested : TxOptions := with_propagation Nested options_default.

Inductive TransactionPhase : Type := BeforeCommit | AfterCommit | AfterRollback | AfterCompletion.

#[export] Instance TransactionPhase_eq_dec : EqDecision TransactionPhase.
Proof. solve_decision. Defined.

Section Orchestrator.
Context {W X Event : Type}.

(** The task: its event buffer, when a transaction scope is active, and the
    rest of the world. *)
Record Task : Type := mkTask { buffer : option (list Event); world : W }.

Record Listener : Type := mkListener { phase : option TransactionPhase; dispatcher : Event -> M Task unit }.

(** The registry's entry for the type of an event, in registration order. *)
Variable listeners_for : Event -> list Listener.

Definition is_immediate (l : Listener) : bool := match phase l with None => true | Some _ => false end.
Definition is_bound (l : Listener) : bool := negb (is_immediate l).
Definition in_phase (p : TransactionPhase) (l : Listener) : bool := bool_decide (phase l = Some p).
(** The phases that stand for a commit when there is no transaction. *)
Definition committed_phase (l : Listener) : bool :=
  in_phase BeforeCommit l || in_phase AfterCommit l || in_phase AfterCompletion l.

(** Awaiting dispatchers one after the other. *)
Fixpoint dispatch_all (l : list (Event * Listener)) : M Task unit :=
  match l with
  | [] => ret tt
  | (e, l0) :: l => let! _ := dispatcher l0 e in dispatch_all l
  end.

Definition with_listeners (keep : Listener -> bool) (e : Event) : list (Event * Listener) :=
  map (pair e) (List.filter keep (listeners_for e)).

Definition publish_event (e : Event) : M Task unit :=
  let listeners := listeners_for e in
  match listeners with
  | [] => ret tt
  | _ =>
      let! _ := dispatch_all (with_listeners is_immediate e) in
      if negb (existsb is_bound listeners) then ret tt
      else fun t =>
        match buffer t with
        | Some buf => Some (tt, mkTask (Some (buf ++ [e])) (world t))
        | None => dispatch_all (with_listeners committed_phase e) t
        end
  end.

Definition tx_scope_active (t : Task) : bool := bool_decide (is_Some (buffer t)).

(** The buffer of the scope goes away with it. *)
Definition with_tx_scope {A} (f : M Task A) : M Task A := fun t =>
  match f (mkTask (Some []) (world t)) with
  | Some (a, t') => Some (a, mkTask (buffer t) (world t'))
  | None => None
  end.

Definition dispatch_phase (p : TransactionPhase) : M Task unit := fun t =>
  match buffer t with
  | None => Some (tt, t)
  | Some events => dispatch_all (flat_map (with_listeners (in_phase p)) events) t
  end.

(** The outcome of an operation: the user's result, and whether to roll back. *)
Record TxOutcome (A : Type) : Type := mkOutcome { value : A; rolled_back : bool }.
Arguments mkOutcome {A}. Arguments value {A}. Arguments rolled_back {A}.

Definition outcome_of {R E} (result : Result R E) : TxOutcome (Result R E) := mkOutcome result (is_err result).

(** The manager runs the operation it is handed, or fails. *)
Definition TransactionManager : Type :=
  forall A, TxOptions -> M Task (Result (TxOutcome A) (TxError X)) -> M Task (Result (TxOutcome A) (TxError X)).

Definition LocalTransactionManager : TransactionManager := fun A _ op => op.

Section Calls.
Context {R E : Type}.
Variable of_tx_error : TxError X -> E.

Definition operation (owns_scope : bool) (should_rollback : E -> bool) (f : M Task (Result R E))
  : M Task (Result (TxOutcome (Result R E)) (TxError X)) :=
  let! result := f in
  let rolled_back := match result with Ok _ => false | Err e => should_rollback e end in
  let! _ := if owns_scope && negb rolled_back then dispatch_phase BeforeCommit else ret tt in
  ret (Ok (mkOutcome result rolled_back)).

Definition completion (executed : Result (TxOutcome (Result R E)) (TxError X)) : M Task unit :=
  let committed := match executed with Ok outcome => negb (rolled_back outcome) | Err _ => false end in
  let! _ := dispatch_phase (if committed then AfterCommit else AfterRollback) in
  dispatch_phase AfterCompletion.

Definition transactional_with_on (manager : TransactionManager) (opts : TxOptions) (should_rollback : E -> bool)
    (f : M Task (Result R E)) : M Task (Result R E) := fun t =>
  let owns_scope := negb (tx_scope_active t) in
  let run :=
    let! executed := manager (Result R E) opts (operation owns_scope should_rollback f) in
    let! _ := if owns_scope then completion executed else ret tt in
    ret match executed with Ok outcome => value outcome | Err tx_err => Err (of_tx_error tx_err) end in
  (if owns_scope then with_tx_scope run else run) t.

Definition transactional_on (manager : TransactionManager) (opts : TxOptions) (f : M Task (Result R E)) :=
  transactional_with_on manager opts (fun _ => true) f.

(** Over the process-wide manager, if one is registered. *)
Definition transactional_with (manager : option TransactionManager) (opts : TxOptions) (should_rollback : E -> bool)
    (f : M Task (Result R E)) : M Task (Result R E) :=
  match manager with
  | Some manager => transactional_with_on manager opts should_rollback f
  | None => f
  end.

Definition transactional (manager : option TransactionManager) (opts : TxOptions) (f : M Task (Result R E)) :=
  transactional_with manager opts (fun _ => true) f.
End Calls.
End Orchestrator.
Arguments Task : clear implicits. Arguments Listener : clear implicits.

(** [register_transaction_manager]: the first registration wins. *)
Definition register_transaction_manager {A} (manager : A) (cell : option A) : bool * option A :=
  match cell with
  | None => (true, Some manager)
  | Some _ => (false, cell)
  end.

(** * [with_tx] runs its closure atomically *)

(** A database with durable contents [durable]; [inside tx w d] says that the
    transaction is open and sees [d]. Opening shows the durable contents and
    changes nothing; a commit makes what is seen durable, a failed one or a
    rollback, even one that reports an error, leaves the durable contents. *)
Class Transactions {W X D} (db : Db W X) (durable : W -> D) (inside : Transaction W X -> W -> D -> Prop) : Prop := {
  begin_opens : forall w tx w', begin db w = (Ok tx, w') -> durable w' = durable w /\ inside tx w' (durable w);
  begin_fails : forall w e w', begin db w = (Err e, w') -> durable w' = durable w;
  commit_keeps : forall tx w d w', inside tx w d -> commit tx w = (Ok tt, w') -> durable w' = d;
  commit_fails : forall tx w d e w', inside tx w d -> commit tx w = (Err e, w') -> durable w' = durable w;
  rollback_drops : forall tx w d r w', inside tx w d -> rollback tx w = (r, w') -> durable w' = durable w
}.

(** The closure does [body] to what its transaction sees, and nothing else. *)
Definition implements {W X D T} (durable : W -> D) (inside : Transaction W X -> W -> D -> Prop)
    (f : TxContext W X -> W -> Outcome (Result T (TxError X)) * W) (body : D -> Outcome (Result T (TxError X)) * D) : Prop :=
  forall tx w d, inside tx w d ->
    let '(o, w') := f (Some tx) w in
    fst (body d) = o /\ durable w' = durable w /\ inside tx w' (snd (body d)).

(** C15 [with_tx] makes its closure atomic. When the transaction cannot be
    opened the closure does not run, the error is the one of opening and nothing
    else happens. Otherwise the closure runs inside it, and it is settled at
    once: committed when the closure returns Ok, rolled back when it fails or
    unwinds. The closure's effect is durable as a whole, and its value returned,
    exactly when the commit succeeds; in every other case the durable contents
    are what they were and the outcome is the commit's error, the closure's,
    joined with the rollback's if that fails too, or the panic. A nested call
    joins the transaction it finds. The database keeps the laws above, and the
    closure touches the world through its transaction only. *)
Theorem with_tx_atomic {W X D T} (db : Db W X) (durable : W -> D) (inside : Transaction W X -> W -> D -> Prop)
    `{!Transactions db durable inside} f (body : D -> Outcome (Result T (TxError X)) * D) w
    (F : implements durable inside f body) :
  let '(o, w') := with_tx root db f w in
  match begin db w with
  | (Err e, w1) => o = Returned (Err (Begin e)) /\ w' = w1 /\ durable w' = durable w
  | (Ok tx, w1) =>
      let '(_, w2) := f (Some tx) w1 in
      match body (durable w) with
      | (Returned (Ok v), d) =>
          match commit tx w2 with
          | (Ok _, w3) => o = Returned (Ok v) /\ w' = w3 /\ durable w' = d
          | (Err e, w3) => o = Returned (Err (Commit e)) /\ w' = w3 /\ durable w' = durable w
          end
      | (Returned (Err err), _) =>
          match rollback tx w2 with
          | (Ok _, w3) => o = Returned (Err err) /\ w' = w3 /\ durable w' = durable w
          | (Err rb, w3) => o = Returned (Err (RollbackFailed err rb)) /\ w' = w3 /\ durable w' = durable w
          end
      | (Panicked, _) => o = Panicked /\ w' = snd (rollback tx w2) /\ durable w' = durable w
      end
  end /\
  forall tx, with_tx (Some tx) db f w = f (Some tx) w.
Proof.
  unfold with_tx. simpl. destruct (begin db w) as [[tx|e] w1] eqn:B.
  2:{ split; [|done]. split; [done|]. split; [done|]. by apply (begin_fails w e). }
  apply begin_opens in B as [D1 I1]. specialize (F tx w1 (durable w) I1). destruct (f (Some tx) w1) as [o1 w2].
  destruct (body (durable w)) as [b d]. simpl in F. destruct F as (-> & D2 & I2).
  assert (forall r w3, rollback tx w2 = (r, w3) -> durable w3 = durable w) as Dropped.
  { intros r w3 C. rewrite (rollback_drops tx w2 d r w3 I2 C). congruence. }
  destruct o1 as [[v|err]|].
  - destruct (commit tx w2) as [[[]|e] w3] eqn:C; (split; [|done]); (split; [done|]); (split; [done|]).
    + by apply (commit_keeps tx w2 d).
    + rewrite (commit_fails tx w2 d e w3 I2 C). congruence.
  - destruct (rollback tx w2) as [[[]|rb] w3] eqn:C; (split; [|done]); (split; [done|]); (split; [done|]); by eapply Dropped.
  - destruct (rollback tx w2) as [r w3] eqn:C; (split; [|done]); (split; [done|]); (split; [done|]); by eapply Dropped.
Qed.

(** * When bound listeners run *)

(** What a listener does to the world, and that this is all it does: it returns
    and leaves the buffer of the task alone. *)
Definition heard {W Event} (l : Listener W Event) (e : Event) (w : W) : W :=
  match dispatcher l e (mkTask None w) with Some (_, t) => world t | None => w end.
Definition plain {W Event} (l : Listener W Event) : Prop :=
  forall e t, dispatcher l e t = Some (tt, mkTask (buffer t) (heard l e (world t))).

(** The listeners of the kept kind hear of the events, in order of publication
    and, for each event, of registration. *)
Definition notify {W Event} (listeners_for : Event -> list (Listener W Event)) (keep : Listener W Event -> bool)
    (events : list Event) (w : W) : W :=
  fold_left (fun w '(e, l) => heard l e w) (flat_map (with_listeners listeners_for keep) events) w.

Section Phases.
Context {W X Event R E : Type}.
(** A manager that does something to the world before the operation and after
    it, according to its outcome, and may fail at both. *)
Variable before : TxOptions -> W -> Result unit (TxError X) * W.
Variable settle : TxOptions -> bool -> W -> Result unit (TxError X) * W.
Variable of_tx_error : TxError X -> E.
Variable should_rollback : E -> bool.

Definition bracketing : @TransactionManager W X Event := fun A opts op t =>
  match before opts (world t) with
  | (Err e, w) => Some (Err e, mkTask (buffer t) w)
  | (Ok _, w) =>
      match op (mkTask (buffer t) w) with
      | Some (Ok outcome, t') =>
          match settle opts (rolled_back A outcome) (world t') with
          | (Ok _, w) => Some (Ok outcome, mkTask (buffer t') w)
          | (Err e, w) => Some (Err e, mkTask (buffer t') w)
          end
      | other => other
      end
  end.

(** A program inside a transactional call: it publishes, works, and calls
    further transactional code, and what it does next may depend on what the
    work and the calls return. *)
Inductive Body : Type :=
| Done (result : Result R E)
| Publish (e : Event) (k : Body)
| Work {B : Type} (u : W -> B * W) (k : B -> Body)
| Call (opts : TxOptions) (inner : Body) (k : Result R E -> Body).

Definition rolls_back (result : Result R E) : bool := match result with Ok _ => false | Err e => should_rollback e end.

Section Run.
Variable listeners_for : Event -> list (Listener W Event).

Fixpoint run_body (b : Body) : M (Task W Event) (Result R E) :=
  match b with
  | Done result => ret result
  | Publish e k => let! _ := publish_event listeners_for e in run_body k
  | Work u k => fun t => let '(x, w) := u (world t) in run_body (k x) (mkTask (buffer t) w)
  | Call opts inner k =>
      let! r := transactional_with_on listeners_for of_tx_error bracketing opts should_rollback (run_body inner) in
      run_body (k r)
  end.
End Run.

(** The same as a function of the world, inside a scope: the result, the events
    left to the end of the transaction and the world. [now] is what the
    immediate listeners do with an event, [queues] whether it waits for others. *)
Section Effect.
Variables (now : Event -> W -> W) (queues : Event -> bool).

Fixpoint effect (b : Body) (w : W) : Result R E * list Event * W :=
  match b with
  | Done result => (result, [], w)
  | Publish e k =>
      let '(r, events, w) := effect k (now e w) in (r, (if queues e then [e] else []) ++ events, w)
  | Work u k => let '(x, w) := u w in effect (k x) w
  | Call opts inner k =>
      match before opts w with
      | (Err e, w) => effect (k (Err (of_tx_error e))) w
      | (Ok _, w) =>
          let '(r, events, w) := effect inner w in
          match settle opts (rolls_back r) w with
          | (Ok _, w) => let '(r', later, w) := effect (k r) w in (r', events ++ later, w)
          | (Err e, w) => let '(r', later, w) := effect (k (Err (of_tx_error e))) w in (r', events ++ later, w)
          end
      end
  end.
End Effect.

Section Listeners.
Variable listeners_for : Event -> list (Listener W Event).
Hypothesis all_plain : forall e, Forall plain (listeners_for e).
Abbreviation immediately := (fun e : Event => notify listeners_for is_immediate [e]).
Abbreviation bound := (fun e : Event => existsb is_bound (listeners_for e)).
Abbreviation call opts b :=
  (transactional_with_on listeners_for of_tx_error bracketing opts should_rollback (run_body listeners_for b)).

Lemma dispatch_all_acts (l : list (Event * Listener W Event)) (t : Task W Event) : Forall (fun '(_, l0) => plain l0) l ->
  dispatch_all l t = Some (tt, mkTask (buffer t) (fold_left (fun w '(e, l0) => heard l0 e w) l (world t))).
Proof.
  intros F. revert t. induction F as [|[e l0] l P _ IH]; intros t; [by destruct t|]. simpl. unfold bind.
  by rewrite P, IH.
Qed.

Lemma with_listeners_plain keep events : Forall (fun '(_, l0) => plain l0) (flat_map (with_listeners listeners_for keep) events).
Proof.
  apply List.Forall_forall. intros [e l] I. apply in_flat_map in I as (e' & _ & I). apply in_map_iff in I as (l' & [= -> ->] & I).
  apply filter_In in I as [I _]. by apply (proj1 (List.Forall_forall _ _) (all_plain e)).
Qed.

Lemma dispatch_phase_acts p events w :
  dispatch_phase listeners_for p (mkTask (Some events) w)
  = Some (tt, mkTask (Some events) (notify listeners_for (in_phase p) events w)).
Proof. unfold dispatch_phase. cbn [buffer]. by rewrite dispatch_all_acts by apply with_listeners_plain. Qed.

Lemma publish_in_scope e buf w :
  publish_event listeners_for e (mkTask (Some buf) w) =
    Some (tt, mkTask (Some (buf ++ if bound e then [e] else [])) (immediately e w)).
Proof.
  unfold publish_event, notify. cbn [flat_map]. rewrite app_nil_r. destruct (listeners_for e) as [|l ls] eqn:L.
  { unfold with_listeners. rewrite L. simpl. by rewrite app_nil_r. }
  rewrite <- L. unfold bind. pose proof (with_listeners_plain is_immediate [e]) as F. simpl in F. rewrite app_nil_r in F.
  rewrite dispatch_all_acts by done. cbn [buffer world]. destruct (existsb is_bound (listeners_for e)); simpl; [done|].
  by rewrite app_nil_r.
Qed.

(** Inside a scope the program runs in place, nested calls included, and its
    bound events queue up. *)
Lemma run_body_effect b buf w :
  run_body listeners_for b (mkTask (Some buf) w) =
    let '(r, events, w') := effect immediately bound b w in Some (r, mkTask (Some (buf ++ events)) w').
Proof.
  revert buf w. induction b as [r|e k IH|B u k IH|opts inner IHi k IH]; intros buf w; cbn [run_body effect].
  - by rewrite app_nil_r.
  - unfold bind. rewrite publish_in_scope, IH. destruct (effect _ _ k _) as [[r events] w']. by rewrite <- app_assoc.
  - cbn [world buffer]. destruct (u w) as [x w1]. apply IH.
  - unfold bind at 1. unfold transactional_with_on, tx_scope_active. cbn [buffer].
    rewrite bool_decide_eq_true_2 by done. cbn [negb]. unfold bind at 1, bracketing. cbn [world buffer].
    destruct (before opts w) as [[[]|e] w1]; [|apply IH]. unfold operation, bind. rewrite IHi.
    destruct (effect _ _ inner w1) as [[r events] w2]. cbn [andb]. unfold ret. cbn [rolled_back world buffer]. fold (rolls_back r).
    destruct (settle opts (rolls_back r) w2) as [[[]|e] w3]; cbn [value]; rewrite IH;
      destruct (effect _ _ _ w3) as [[r' later] w4]; by rewrite <- app_assoc.
Qed.

Lemma notify_none (keep : Listener W Event -> bool) w : notify listeners_for keep [] w = w.
Proof. reflexivity. Qed.

(** What a call outside any scope does. *)
Lemma outermost_outcome opts b w :
  call opts b (mkTask None w) = Some
    match before opts w with
    | (Err e, w) => (Err (of_tx_error e), mkTask None w)
    | (Ok _, w) =>
        let '(r, events, w) := effect immediately bound b w in
        match settle opts (rolls_back r) (if rolls_back r then w else notify listeners_for (in_phase BeforeCommit) events w) with
        | (Ok _, w) => (r, mkTask None (notify listeners_for (in_phase AfterCompletion) events
                             (notify listeners_for (in_phase (if rolls_back r then AfterRollback else AfterCommit)) events w)))
        | (Err e, w) => (Err (of_tx_error e), mkTask None (notify listeners_for (in_phase AfterCompletion) events
                             (notify listeners_for (in_phase AfterRollback) events w)))
        end
    end.
Proof.
  unfold transactional_with_on, tx_scope_active. cbn [buffer]. rewrite bool_decide_eq_false_2 by (by intros []).
  cbn [negb]. unfold with_tx_scope. cbn [buffer world]. unfold bind at 1, bracketing. cbn [buffer world].
  destruct (before opts w) as [[[]|e] w1].
  2:{ unfold completion, bind, ret. by rewrite !dispatch_phase_acts. }
  unfold operation, bind at 1. rewrite run_body_effect. destruct (effect _ _ b w1) as [[r events] w2]. cbn [app andb].
  fold (rolls_back r). unfold completion, bind, ret. destruct (rolls_back r) eqn:Rb; cbn [negb].
  - cbn [rolled_back world buffer].
    destruct (settle opts true w2) as [[[]|e] w3]; cbn [rolled_back negb]; by rewrite !dispatch_phase_acts.
  - rewrite dispatch_phase_acts. cbn [rolled_back world buffer].
    destruct (settle opts false _) as [[[]|e] w3]; cbn [rolled_back negb]; by rewrite !dispatch_phase_acts.
Qed.

(** Events bound to a transaction follow the outermost call: its nested
    calls run in place, publish nothing of their own at their end, whatever
    their result, and leave their events to the outermost. When that one
    succeeds, or fails with an error that does not roll back, the listeners
    of all bound events are notified in order of publication and
    registration: those of the commit phase inside the transaction, then,
    once the manager has committed, the ones after commit and after completion;
    when it rolls back, and when the manager fails to, only those after
    rollback and after completion; when the manager cannot begin, the program
    does not run and nobody is notified. The scope is gone at the end. *)
Theorem events_follow_outermost opts b w :
  call opts b (mkTask None w) = Some
    match before opts w with
    | (Err e, w) => (Err (of_tx_error e), mkTask None w)
    | (Ok _, w) =>
        let '(r, events, w) := effect immediately bound b w in
        match settle opts (rolls_back r) (if rolls_back r then w else notify listeners_for (in_phase BeforeCommit) events w) with
        | (Ok _, w) => (r, mkTask None (notify listeners_for (in_phase AfterCompletion) events
                             (notify listeners_for (in_phase (if rolls_back r then AfterRollback else AfterCommit)) events w)))
        | (Err e, w) => (Err (of_tx_error e), mkTask None (notify listeners_for (in_phase AfterCompletion) events
                             (notify listeners_for (in_phase AfterRollback) events w)))
        end
    end.
Proof. apply outermost_outcome. Qed.
End Listeners.
End Phases.
Arguments Body : clear implicits.

(** * Examples *)

(** A database whose contents are a list of numbers: the durable ones and,
    while a transaction is open, the ones it sees. *)
Definition Store : Type := list Z * option (list Z).
Definition insert_into (tx : bool) : Executor Store str :=
  mkExecutor
    (fun _ params w =>
       match params, w with
       | [Integer n], (d, Some seen) => if tx then (Ok 1, (d, Some (seen ++ [n]))) else (Ok 1, (d ++ [n], Some seen))
       | [Integer n], (d, None) => (Ok 1, (d ++ [n], None))
       | _, _ => (Err (Database (lit "bad statement")), w)
       end)
    (fun _ _ w => (Ok [], w)).
Definition the_tx : Transaction Store str :=
  mkTransaction (insert_into true)
    (fun '(d, seen) => (Ok tt, (default d seen, None)))
    (fun '(d, _) => (Ok tt, (d, None))).
Definition numbers : Db Store str :=
  mkDb (insert_into false)
    (fun '(d, seen) => match seen with
                       | None => (Ok the_tx, (d, Some d))
                       | Some _ => (Err (Database (lit "busy")), (d, seen))
                       end).
Definition sees (tx : Transaction Store str) (w : Store) (d : list Z) : Prop := tx = the_tx /\ snd w = Some d.

#[export] Instance numbers_transactions : Transactions numbers fst sees.
Proof.
  split.
  - intros [d [seen|]] tx w'; simpl; [done|]. by intros [= <- <-].
  - intros [d [seen|]] e w'; simpl; [by intros [= _ <-]|done].
  - intros tx [d o] d0 w' [-> E]. simpl in *. subst o. by intros [= <-].
  - intros tx [d o] d0 e w' [-> E]. done.
  - intros tx [d o] d0 r w' [-> E]. simpl. by intros [= _ <-].
Qed.

(** Two inserts through the ambient executor, and then a failure or none. *)
Definition two_inserts (fails : bool) (ctx : TxContext Store str) (w : Store) : Outcome (Result unit (TxError str)) * Store :=
  let e := conn_executor (exec ctx (db_executor numbers)) in
  let '(_, w) := execute e (lit "INSERT") [Integer 1] w in
  let '(_, w) := execute e (lit "INSERT") [Integer 2] w in
  (Returned (if fails then Err (Application (lit "no")) else Ok tt), w).

Example with_tx_commits_or_not :
  with_tx root numbers (two_inserts false) ([], None) = (Returned (Ok tt), ([1; 2], None)) /\
  with_tx root numbers (two_inserts true) ([], None) = (Returned (Err (Application (lit "no"))), ([], None)).
Proof. by split. Qed.

Example with_tx_atomic_witness :
  fst (snd (with_tx root numbers (two_inserts true) ([7], None))) = [7].
Proof.
  pose proof (with_tx_atomic numbers fst sees (two_inserts true)
    (fun d => (Returned (Err (Application (lit "no"))), d ++ [1] ++ [2])) ([7], None)) as A.
  destruct (with_tx root numbers (two_inserts true) ([7], None)) as [o w'] eqn:E.
  destruct A as [(_ & _ & D) _].
  - intros tx [d0 o0] d [-> S]. simpl in S. subst o0. simpl. split; [reflexivity|]. split; [reflexivity|]. split; [reflexivity|].
    simpl. by rewrite <- app_assoc.
  - exact D.
Defined.

(** Listeners that write down when they hear of what: event 1 has one in each
    phase and an immediate one. *)
Definition note (name : string) (p : option TransactionPhase) : Listener (list string) nat :=
  mkListener p (fun e t => Some (tt, mkTask (buffer t) (world t ++ [name]))).
Definition diary (e : nat) : list (Listener (list string) nat) :=
  match e with
  | 1%nat => [note "now" None; note "after" (Some AfterCommit); note "before" (Some BeforeCommit);
              note "undone" (Some AfterRollback); note "finally" (Some AfterCompletion)]
  | _ => []
  end.

Lemma diary_plain e : Forall plain (diary e).
Proof. destruct e as [|[|e]]; repeat constructor. Qed.

(** A manager that notes what it does; its commit can fail. *)
Definition log_begin (_ : TxOptions) (w : list string) : Result unit (TxError unit) * list string :=
  (Ok tt, w ++ ["begin"%string]).
Definition log_settle (fails : bool) (_ : TxOptions) (rb : bool) (w : list string) : Result unit (TxError unit) * list string :=
  if fails && negb rb then (Err (Application tt), w ++ ["commit failed"%string])
  else (Ok tt, w ++ [if rb then "rollback"%string else "commit"%string]).

(** A nested call that fails and is forgiven, inside one that succeeds. *)
Definition nested_failure : Body (list string) nat unit unit :=
  Call required (Publish 1%nat (Done (Err tt))) (fun _ => Done (Ok tt)).

Definition diary_call (fails : bool) (b : Body (list string) nat unit unit) : option (list string) :=
  (fun x => world (snd x)) <$>
    transactional_with_on diary (fun _ => tt) (bracketing log_begin (log_settle fails)) required (fun _ => true)
      (run_body log_begin (log_settle fails) (fun _ => tt) (fun _ => true) diary b) (mkTask None []).

Example events_follow_outermost_witness :
  diary_call false nested_failure
    = Some ["begin"; "begin"; "now"; "rollback"; "before"; "commit"; "after"; "finally"]%string.
Proof.
  unfold diary_call. rewrite (events_follow_outermost log_begin (log_settle false) (fun _ => tt) (fun _ => true) diary diary_plain).
  vm_compute. reflexivity.
Defined.

Example failed_commit_is_a_rollback :
  diary_call true (Publish 1%nat (Done (Ok tt)))
    = Some ["begin"; "now"; "before"; "commit failed"; "undone"; "finally"]%string.
Proof. vm_compute. reflexivity. Qed.

(** An event that a listener publishes after the commit is queued on the
    transaction that is over: its own after-commit listener never runs. *)
Example late_event_is_lost :
  let second (e : nat) := match e with 2%nat => [note "second" (Some AfterCommit)] | _ => [] end in
  let chain (e : nat) := match e with
                         | 1%nat => [mkListener (Some AfterCommit) (fun _ => publish_event second 2%nat)]
                         | _ => second e
                         end in
  (fun x => world (snd x)) <$>
    transactional_with_on chain (fun _ : TxError unit => tt) LocalTransactionManager required (fun _ => true)
      (let! _ := publish_event chain 1%nat in ret (Ok tt : Result unit unit)) (mkTask None []) = Some [].
Proof. vm_compute. reflexivity. Qed.

(** An inner transaction of its own commits, the outer one rolls back: the
    listeners of what the inner one published hear of a rollback only. *)
Example independent_commit_reported_undone :
  diary_call false (Call requires_new (Publish 1%nat (Done (Ok tt))) (fun _ => Done (Err tt)))
    = Some ["begin"; "begin"; "now"; "commit"; "rollback"; "undone"; "finally"]%string.
Proof. vm_compute. reflexivity. Qed.
