(* ===== verification/Globs.v ===== *)
(** The globset crate: patterns of names, as the code uses them. [debug] renders
    a string with the escapes its Unicode tables ask for. *)
From Stdlib Require Import ZArith NArith List.
From S2P Require Import Prelude Str.

Class Globs : Type := {
  Glob : Type;
  build : str -> Result Glob str;
  is_match : Glob -> str -> bool;
  debug : str -> str
}.
