(* ===== verification/Access.v ===== *)
(** Who may do what: the principal of [crates/security/src/authentication.rs],
    the role hierarchy of [role_hierarchy.rs], the guards of [guards.rs] and
    the URL rules of [filter_chain.rs].

    Glob patterns belong to the globset crate and are a class. *)
From Stdlib Require Import Ascii String.
From Stdlib Require Import ZArith NArith List Lia Sorting.Sorted Sorting.Permutation.
From stdpp Require Import base decidable list gmap.
From S2P Require Import Prelude Str Order Json Closure Globs.

(** * The principal *)

Definition ANONYMOUS_ID : str := lit "anonymous".
Definition ROLE_PREFIX : str := lit "ROLE_".
Definition REMEMBERED_CLAIM : str := lit "firefly:remembered".

Record Authentication (V : Type) : Type := mkAuthentication {
  principal : str;
  username : str;
  roles : list str;
  authorities : list str;
  claims : gmap str V
}.
Arguments mkAuthentication {V}. Arguments principal {V}. Arguments username {V}. Arguments roles {V}.
Arguments authorities {V}. Arguments claims {V}.

(** What each role implies at once. *)
Abbreviation RoleHierarchy := (gmap str (gset str)).

Section Principal.
Context {V : Type} `{JsonValue V}.
Implicit Type auth : Authentication V.

Definition mem (x : str) (l : list str) : bool := existsb (str_eqb x) l.

Definition has_role (role : str) auth : bool :=
  let prefixed := ROLE_PREFIX ++ role in
  existsb (fun r => str_eqb r role || str_eqb r prefixed) (roles auth) ||
  existsb (fun a => str_eqb a prefixed) (authorities auth).

Definition has_any_role (wanted : list str) auth : bool := existsb (fun want => has_role want auth) wanted.

Definition has_authority (authority : str) auth : bool :=
  existsb (fun a => str_eqb a authority) (authorities auth) || has_role authority auth.

Definition has_any_authority (wanted : list str) auth : bool := existsb (fun want => has_authority want auth) wanted.

Definition anonymous : Authentication V := mkAuthentication ANONYMOUS_ID [] [] [] ∅.

Definition is_authenticated auth : bool :=
  negb (bool_decide (principal auth = [])) && negb (str_eqb (principal auth) ANONYMOUS_ID).

Definition is_remembered auth : bool :=
  match claims auth !! REMEMBERED_CLAIM with
  | Some v => match view v with Value.Bool b => b | _ => false end
  | None => false
  end.

Definition is_fully_authenticated auth : bool := is_authenticated auth && negb (is_remembered auth).

(** [Unauthenticated] and [Forbidden] are the ones the guards raise. *)
Inductive SecurityError : Type :=
| Unauthenticated
| Forbidden
| MalformedHeader
| Verification (msg : str).

(** * Guards *)

Record AuthorizationGuard : Type := mkGuard { predicate : Authentication V -> bool; permit_anonymous : bool }.

Definition require (p : Authentication V -> bool) : AuthorizationGuard := mkGuard p false.
Definition check (g : AuthorizationGuard) auth : bool := predicate g auth.

Definition authorize (g : AuthorizationGuard) (auth : option (Authentication V)) : Result unit SecurityError :=
  if permit_anonymous g then Ok tt
  else
    match auth with
    | None => Err Unauthenticated
    | Some auth =>
        if bool_decide (principal auth = []) || str_eqb (principal auth) ANONYMOUS_ID then Err Unauthenticated
        else if check g auth then Ok tt
        else Err Forbidden
    end.

Definition guard_and (g h : AuthorizationGuard) : AuthorizationGuard := require (fun auth => check g auth && check h auth).
Definition guard_or (g h : AuthorizationGuard) : AuthorizationGuard := require (fun auth => check g auth || check h auth).
Definition guard_not (g : AuthorizationGuard) : AuthorizationGuard := require (fun auth => negb (check g auth)).
Definition authenticated_guard : AuthorizationGuard := require (fun _ => true).
Definition permit_all : AuthorizationGuard := mkGuard (fun _ => true) true.
Definition deny_all : AuthorizationGuard := require (fun _ => false).
Definition has_role_guard (role : str) : AuthorizationGuard := require (has_role role).
Definition has_any_role_guard (l : list str) : AuthorizationGuard := require (fun auth => existsb (fun r => has_role r auth) l).
Definition has_authority_guard (a : str) : AuthorizationGuard := require (has_authority a).
Definition has_any_authority_guard (l : list str) : AuthorizationGuard :=
  require (fun auth => existsb (fun a => has_authority a auth) l).

(** * The role hierarchy *)

Definition hierarchy_new : RoleHierarchy := ∅.

Definition implied (h : RoleHierarchy) (role : str) : gset str := default ∅ (h !! role).

Definition add_implication (higher lower : str) (h : RoleHierarchy) : RoleHierarchy :=
  <[higher := {[lower]} ∪ implied h higher]> h.

Definition from_line (h : RoleHierarchy) (raw : str) : RoleHierarchy :=
  match split_once 62%N (trim raw) with
  | None => h
  | Some (higher, lower) =>
      let higher := trim higher in
      let lower := trim lower in
      if negb (bool_decide (higher = [])) && negb (bool_decide (lower = [])) then add_implication higher lower h else h
  end.

Definition from_string (spec : str) : RoleHierarchy :=
  fold_left from_line (lines (replace_char 59%N [10%N] spec)) hierarchy_new.

(** The implied roles of a role are pushed in the order of a hash set; every
    order gives the same set. *)
Definition expand_loop (h : RoleHierarchy) (fuel : nat) : list str -> gset str -> option (gset str) :=
  walk (fun role => elements (implied h role)) fuel.

(** The implications there are bound the pushes. *)
Definition expand_fuel (h : RoleHierarchy) (roles : list str) : nat :=
  S (List.length roles + sum_list_with (fun role => List.length (elements (implied h role))) (map fst (map_to_list h))).

Definition expand (h : RoleHierarchy) (roles : list str) : option (gset str) :=
  expand_loop h (expand_fuel h roles) (rev roles) ∅.

(** The ordered set, as the list it collects to. *)
Definition in_order (s : gset str) : list str := sort_by str_compare (elements s).

Definition expand_authentication (h : RoleHierarchy) auth : option (Authentication V) :=
  expanded ← expand h (roles auth);
  Some (mkAuthentication (principal auth) (username auth) (in_order expanded) (authorities auth) (claims auth)).
End Principal.
Arguments AuthorizationGuard : clear implicits.

(** * URL rules *)

Record Rule : Type := mkRule {
  method : option str;
  prefix : str;
  pattern : option str;
  rule_roles : list str;
  rule_authorities : list str;
  allow : bool;
  deny : bool;
  catch_all : bool
}.

Definition rule_default : Rule := mkRule None [] None [] [] false false false.

Definition method_matches (r : Rule) (m : str) : bool :=
  match method r with Some wanted => eq_ignore_ascii_case wanted m | None => true end.

Definition prefix_matches (path prefix : str) : bool :=
  match prefix with
  | [] => true
  | _ =>
      match strip_prefix prefix path with
      | Some rest => bool_decide (rest = []) || starts_with (lit "/") rest || bool_decide (last prefix = Some 47%N)
      | None => false
      end
  end.

Section Rules.
Context {V : Type} `{JsonValue V} `{Globs}.

Record CompiledRule : Type := mkCompiled { rule : Rule; glob : option Glob }.

Definition rule_matches (c : CompiledRule) (m path : str) : bool :=
  if negb (method_matches (rule c) m) then false
  else if catch_all (rule c) then true
  else match glob c with
       | Some g => is_match g path
       | None => prefix_matches path (prefix (rule c))
       end.

Record FilterChain : Type := mkChain { rules : list Rule; hierarchy : option RoleHierarchy }.

Definition chain_new : FilterChain := mkChain [] None.
Definition push_rule (r : Rule) (c : FilterChain) : FilterChain := mkChain (rules c ++ [r]) (hierarchy c).

Definition permit (p : str) : FilterChain -> FilterChain := push_rule (mkRule None p None [] [] true false false).
Definition permit_method (m p : str) : FilterChain -> FilterChain := push_rule (mkRule (Some m) p None [] [] true false false).
Definition permit_pattern (p : str) : FilterChain -> FilterChain := push_rule (mkRule None [] (Some p) [] [] true false false).
Definition require_roles (p : str) (l : list str) : FilterChain -> FilterChain := push_rule (mkRule None p None l [] false false false).
Definition require_pattern (p : str) (l : list str) : FilterChain -> FilterChain := push_rule (mkRule None [] (Some p) l [] false false false).
Definition require_authority (p : str) (l : list str) : FilterChain -> FilterChain := push_rule (mkRule None [] (Some p) [] l false false false).
Definition authenticated (p : str) : FilterChain -> FilterChain := push_rule (mkRule None [] (Some p) [] [] false false false).
Definition deny_pattern (p : str) : FilterChain -> FilterChain := push_rule (mkRule None [] (Some p) [] [] false true false).
Definition any_request_permit : FilterChain -> FilterChain := push_rule (mkRule None [] None [] [] true false true).
Definition any_request_authenticated : FilterChain -> FilterChain := push_rule (mkRule None [] None [] [] false false true).
Definition any_request_deny : FilterChain -> FilterChain := push_rule (mkRule None [] None [] [] false true true).
Definition with_role_hierarchy (h : RoleHierarchy) (c : FilterChain) : FilterChain := mkChain (rules c) (Some h).

Definition compile_glob (pattern : str) : Result Glob SecurityError :=
  match build pattern with
  | Ok g => Ok g
  | Err e => Err (Verification (lit "invalid glob pattern " ++ debug pattern ++ lit ": " ++ e))
  end.

(** Compiling stops at the first invalid pattern. *)
Fixpoint compile_rules (l : list Rule) : Result (list CompiledRule) SecurityError :=
  match l with
  | [] => Ok []
  | r :: l =>
      g <-? match pattern r with
            | Some p => g <-? compile_glob p; Ok (Some g)
            | None => Ok None
            end;
      rest <-? compile_rules l;
      Ok (mkCompiled r g :: rest)
  end.

Definition try_layer (c : FilterChain) : Result (list CompiledRule * option RoleHierarchy) SecurityError :=
  l <-? compile_rules (rules c); Ok (l, hierarchy c).

Inductive Verdict : Type :=
| Pass
| Unauthorized
| Refused (detail : str).

(** The request: method, path and the authentication attached to it. *)
Record Request : Type := mkRequest { req_method : str; req_path : str; req_auth : option (Authentication V) }.

Definition role_matches (rule_role : str) (effective_roles : gset str) (authorities : list str) : bool :=
  let prefixed := ROLE_PREFIX ++ rule_role in
  bool_decide (rule_role ∈ effective_roles) || bool_decide (prefixed ∈ effective_roles) ||
  existsb (fun a => str_eqb a prefixed) authorities.

Definition effective_roles (h : option RoleHierarchy) (auth : Authentication V) : option (gset str) :=
  match h with
  | Some h => expand h (roles auth)
  | None => Some (list_to_set (roles auth))
  end.

(** What the first rule that matches makes of the request. *)
Definition judge (r : Rule) (h : option RoleHierarchy) (req : Request) : option Verdict :=
  if allow r then Some Pass
  else if deny r then Some (Refused (lit "access denied"))
  else
    match req_auth req with
    | None => Some Unauthorized
    | Some auth =>
        if bool_decide (principal auth = []) || str_eqb (principal auth) ANONYMOUS_ID then Some Unauthorized
        else
          effective ← effective_roles h auth;
          if negb (bool_decide (rule_roles r = [])) &&
             negb (existsb (fun x => role_matches x effective (authorities auth)) (rule_roles r))
          then Some (Refused (lit "required role missing"))
          else if negb (bool_decide (rule_authorities r = [])) &&
                  negb (existsb (fun a => bool_decide (a ∈ effective) || existsb (fun have => str_eqb have a) (authorities auth))
                         (rule_authorities r))
          then Some (Refused (lit "required authority missing"))
          else Some Pass
    end.

Fixpoint decide_loop (l : list CompiledRule) (h : option RoleHierarchy) (req : Request) : option (option Verdict) :=
  match l with
  | [] => Some None
  | c :: l =>
      if negb (rule_matches c (req_method req) (req_path req)) then decide_loop l h req
      else Some <$> judge (rule c) h req
  end.

Definition decide (l : list CompiledRule) (h : option RoleHierarchy) (req : Request) : option Verdict :=
  v ← decide_loop l h req;
  match v with
  | Some v => Some v
  | None =>
      if bool_decide (List.length l = 0%nat) then Some Pass
      else Some (Refused (lit "Access to this resource is denied (no matching security rule)."))
  end.
End Rules.

(** * The closure of a hierarchy *)

Definition implies (h : RoleHierarchy) (higher lower : str) : Prop := lower ∈ implied h higher.

Lemma implied_none h role : h !! role = None -> implied h role = ∅.
Proof. intros E. unfold implied. by rewrite E. Qed.

Lemma implied_add higher lower h role :
  implied (add_implication higher lower h) role = if str_eqb role higher then {[lower]} ∪ implied h higher else implied h role.
Proof.
  unfold add_implication, implied at 1. destruct (str_eqb role higher) eqn:D; apply bool_decide_eq_true in D as -> || apply bool_decide_eq_false in D.
  - by rewrite lookup_insert_eq.
  - by rewrite lookup_insert_ne by congruence.
Qed.

Lemma leads_to_implies h a b : leads_to (fun role => elements (implied h role)) a b <-> implies h a b.
Proof. unfold leads_to, implies. apply elem_of_elements. Qed.

Lemma rtc_implies h a b : rtc (leads_to (fun role => elements (implied h role))) a b <-> rtc (implies h) a b.
Proof.
  split; induction 1 as [|x y z S _ IH]; try apply rtc_refl;
    (eapply rtc_l; [|exact IH]); by apply leads_to_implies in S || apply leads_to_implies.
Qed.

Lemma expand_spec h l : exists s, expand h l = Some s /\ forall r, r ∈ s <-> exists g, g ∈ l /\ rtc (implies h) g r.
Proof.
  unfold expand, expand_loop.
  destruct (walk_reaches (fun role => elements (implied h role)) (expand_fuel h l) (rev l) (map fst (map_to_list h)))
    as (s & -> & S).
  - intros r. destruct (h !! r) as [i|] eqn:E.
    + left. apply list_elem_of_fmap. exists (r, i). split; [done|]. by apply elem_of_map_to_list.
    + right. by rewrite implied_none, elements_empty.
  - rewrite length_rev. unfold expand_fuel. lia.
  - exists s. split; [done|]. intros r. rewrite S. split; intros (g & I & T); exists g; (split; [|by apply rtc_implies]);
      by apply list_elem_of_In, in_rev; rewrite ?rev_involutive; apply list_elem_of_In.
Qed.

(** * What a rule asks for *)

Section Decision.
Context {V : Type} `{JsonValue V} `{Globs}.
Implicit Type auth : Authentication V.

Definition genuine auth : Prop := principal auth <> [] /\ principal auth <> ANONYMOUS_ID.

(** A role is held directly or implied by one that is. *)
Definition holds (h : option RoleHierarchy) auth (role : str) : Prop :=
  exists g, g ∈ roles auth /\ match h with Some h => rtc (implies h) g role | None => g = role end.

Definition role_granted (h : option RoleHierarchy) auth (role : str) : Prop :=
  holds h auth role \/ holds h auth (ROLE_PREFIX ++ role) \/ ROLE_PREFIX ++ role ∈ authorities auth.

Definition authority_granted (h : option RoleHierarchy) auth (a : str) : Prop := holds h auth a \/ a ∈ authorities auth.

(** A rule that is neither open nor closed admits who it names. *)
Definition satisfies (r : Rule) (h : option RoleHierarchy) auth : Prop :=
  (rule_roles r = [] \/ exists role, role ∈ rule_roles r /\ role_granted h auth role) /\
  (rule_authorities r = [] \/ exists a, a ∈ rule_authorities r /\ authority_granted h auth a).

(** What the first rule that matches promises. *)
Definition verdict_of (r : Rule) (h : option RoleHierarchy) (req : Request (V:=V)) (v : Verdict) : Prop :=
  match v with
  | Pass => allow r = true \/ (deny r = false /\ exists auth, req_auth req = Some auth /\ genuine auth /\ satisfies r h auth)
  | Unauthorized => allow r = false /\ deny r = false /\ forall auth, req_auth req = Some auth -> ~ genuine auth
  | Refused _ => allow r = false /\
      (deny r = true \/ exists auth, req_auth req = Some auth /\ genuine auth /\ ~ satisfies r h auth)
  end.

Lemma genuine_spec auth : bool_decide (principal auth = []) || str_eqb (principal auth) ANONYMOUS_ID = false <-> genuine auth.
Proof. unfold genuine, str_eqb. rewrite orb_false_iff, !bool_decide_eq_false. done. Qed.

Lemma effective_spec (h : option RoleHierarchy) auth : exists s, effective_roles h auth = Some s /\ forall r, r ∈ s <-> holds h auth r.
Proof.
  destruct h as [h|]; cbn [effective_roles].
  - apply expand_spec.
  - exists (list_to_set (roles auth)). split; [done|]. intros r. rewrite elem_of_list_to_set. unfold holds.
    split; [intros I; by exists r|by intros (g & I & <-)].
Qed.

Lemma some_of {A} `{EqDecision A} (l : list A) (P : A -> Prop) (p : A -> bool) : (forall x, p x = true <-> P x) ->
  negb (bool_decide (l = [])) && negb (existsb p l) = false <-> (l = [] \/ exists x, x ∈ l /\ P x).
Proof.
  intros S. rewrite andb_false_iff, !negb_false_iff, bool_decide_eq_true, existsb_exists.
  split; (intros [?|(x & I & Q)]; [by left|right; exists x]); split; try apply list_elem_of_In; try apply S; done.
Qed.

Lemma role_matches_spec (h : option RoleHierarchy) auth (s : gset str) : (forall r, r ∈ s <-> holds h auth r) ->
  forall role, role_matches role s (authorities auth) = true <-> role_granted h auth role.
Proof.
  intros S role. unfold role_matches, role_granted. rewrite !orb_true_iff, !bool_decide_eq_true, !S, existsb_exists.
  assert ((exists x, In x (authorities auth) /\ str_eqb x (ROLE_PREFIX ++ role) = true) <-> ROLE_PREFIX ++ role ∈ authorities auth) as ->; [|tauto].
  split; [intros (x & I & E); apply bool_decide_eq_true in E as <-; by apply list_elem_of_In|].
  intros I. exists (ROLE_PREFIX ++ role). split; [by apply list_elem_of_In|by apply bool_decide_eq_true].
Qed.

Lemma authority_matches_spec (h : option RoleHierarchy) auth (s : gset str) : (forall r, r ∈ s <-> holds h auth r) ->
  forall a, bool_decide (a ∈ s) || existsb (fun have => str_eqb have a) (authorities auth) = true <-> authority_granted h auth a.
Proof.
  intros S a. unfold authority_granted. rewrite orb_true_iff, bool_decide_eq_true, S, existsb_exists.
  split; (intros [?|I]; [by left|right]).
  - destruct I as (x & I & E). apply bool_decide_eq_true in E as <-. by apply list_elem_of_In.
  - exists a. split; [by apply list_elem_of_In|by apply bool_decide_eq_true].
Qed.

Lemma judge_spec r h req : exists v, judge r h req = Some v /\ verdict_of r h req v.
Proof.
  unfold judge. destruct (allow r) eqn:A; [eexists; split; [done|by left]|].
  destruct (deny r) eqn:D; [eexists; split; [done|]; split; [done|by left]|].
  destruct (req_auth req) as [auth|] eqn:Q.
  2: { eexists. split; [done|]. cbn. rewrite Q. by repeat split. }
  destruct (_ || _) eqn:G.
  { eexists. split; [done|]. cbn. rewrite Q. split; [done|]. split; [done|]. intros a [= <-] N.
    apply genuine_spec in N. congruence. }
  apply genuine_spec in G. destruct (effective_spec h auth) as (s & -> & S). cbn [mbind option_bind].
  pose proof (some_of (rule_roles r) _ _ (role_matches_spec h auth s S)) as R.
  pose proof (some_of (rule_authorities r) _ _ (authority_matches_spec h auth s S)) as U.
  destruct (negb (bool_decide (rule_roles r = [])) && _) eqn:ER.
  { eexists. split; [done|]. split; [done|]. right. exists auth. split; [done|]. split; [done|].
    intros [X _]. apply R in X. congruence. }
  destruct (negb (bool_decide (rule_authorities r = [])) && _) eqn:EU.
  { eexists. split; [done|]. split; [done|]. right. exists auth. split; [done|]. split; [done|].
    intros [_ X]. apply U in X. congruence. }
  eexists. split; [done|]. right. split; [done|]. exists auth. split; [done|]. split; [done|]. split; [by apply R|by apply U].
Qed.

Lemma decide_loop_spec l h req :
  match list_find (fun c => rule_matches c (req_method req) (req_path req) = true) l with
  | Some (_, c) => exists v, decide_loop l h req = Some (Some v) /\ verdict_of (rule c) h req v
  | None => decide_loop l h req = Some None
  end.
Proof.
  induction l as [|c l IH]; [done|]. cbn [list_find decide_loop].
  case_decide as E.
  - rewrite E. cbn [negb]. destruct (judge_spec (rule c) h req) as (v & -> & V'). by exists v.
  - apply not_true_is_false in E. rewrite E. cbn [negb]. destruct (list_find _ l) as [[i d]|]; exact IH.
Qed.

(** The role hierarchy always expands, cycles included, and to exactly the
    roles the given ones reach through the declared implications. *)
Theorem hierarchy_closure (h : RoleHierarchy) (l : list str) :
  exists s, expand h l = Some s /\ forall r, r ∈ s <-> exists g, g ∈ l /\ rtc (implies h) g r.
Proof. apply expand_spec. Qed.

(** C12 The URL rules always reach a verdict, and the right one: the first
    rule that matches the method and the path decides. It passes a request when
    it is open, or not closed and the request carries a genuine principal that
    holds a required role (directly, through the hierarchy, under the [ROLE_]
    prefix or as an authority) and a required authority; it answers 401 only
    where no genuine principal is attached and 403 only where the rule is closed
    or the principal lacks what is required. With no rule that matches, the
    request is refused, unless there is no rule at all. *)
Theorem access_decided (l : list CompiledRule) (h : option RoleHierarchy) (req : Request (V:=V)) :
  exists v, decide l h req = Some v /\
    match list_find (fun c => rule_matches c (req_method req) (req_path req) = true) l with
    | Some (_, c) => verdict_of (rule c) h req v
    | None => if bool_decide (l = []) then v = Pass else exists why, v = Refused why
    end.
Proof.
  unfold decide. pose proof (decide_loop_spec l h req) as S. destruct (list_find _ l) as [[i c]|].
  - destruct S as (v & -> & S). by exists v.
  - rewrite S. destruct l as [|c l]; [by exists Pass|]. eexists. split; [done|]. by eexists.
Qed.
End Decision.

(** A prefix rule covers whole path segments: what follows the prefix is nothing
    or a new segment. *)
Lemma prefix_matches_spec (path p : str) : prefix_matches path p = true <->
  p = [] \/ exists rest, path = p ++ rest /\ (rest = [] \/ starts_with (lit "/") rest = true \/ last p = Some 47%N).
Proof.
  destruct p as [|c p]; [split; [by left|done]|]. unfold prefix_matches.
  destruct (strip_prefix (c :: p) path) as [rest|] eqn:E.
  - apply strip_prefix_Some in E as ->. rewrite !orb_true_iff, !bool_decide_eq_true. split.
    + intros [[?|?]|?]; right; exists rest; auto.
    + intros [?|(r & E & O)]; [done|]. apply app_inv_head in E as <-. tauto.
  - split; [done|]. intros [?|(rest & -> & _)]; [done|].
    by rewrite strip_prefix_app in E.
Qed.

(** * Concrete principals *)

Section Samples.
Local Instance exact_globs : Globs := {| Glob := str; build := fun p => Ok p; is_match := str_eqb; debug := fun p => p |}.

Definition holder (l : list str) : Authentication json := mkAuthentication (lit "ann") (lit "ann") l [] ∅.
Definition get_from (path : str) (a : option (Authentication json)) : Request := mkRequest (lit "GET") path a.

Definition area : FilterChain :=
  with_role_hierarchy (from_string (lit "ADMIN > MANAGER ; MANAGER > USER"))
    (require_roles (lit "/api") [lit "USER"] (permit (lit "/health") chain_new)).
Definition area_verdict (req : Request (V:=json)) : option Verdict :=
  match try_layer area with Ok (l, h) => decide l h req | Err _ => None end.

Example hierarchy_reaches_user : area_verdict (get_from (lit "/api/x") (Some (holder [lit "ADMIN"]))) = Some Pass.
Proof. vm_compute. reflexivity. Qed.

Example neighbour_is_not_covered :
  area_verdict (get_from (lit "/apis") (Some (holder [lit "ADMIN"]))) =
  Some (Refused (lit "Access to this resource is denied (no matching security rule).")).
Proof. vm_compute. reflexivity. Qed.

(** The hierarchy names roles without the prefix: a principal that carries
    [ROLE_ADMIN] has the role [ADMIN] for a rule, not what [ADMIN] implies. *)
Example prefixed_role_implies_nothing :
  has_role (lit "ADMIN") (holder [lit "ROLE_ADMIN"]) = true /\
  area_verdict (get_from (lit "/api/x") (Some (holder [lit "ROLE_ADMIN"]))) = Some (Refused (lit "required role missing")).
Proof. split; vm_compute; reflexivity. Qed.
End Samples.
