(* ===== verification/Acl.v ===== *)
(** Access-control lists per object: [crates/security/src/acl.rs], and the
    evaluator port of [permission.rs] they implement. *)
From Stdlib Require Import Ascii String.
From Stdlib Require Import ZArith NArith List Lia.
From stdpp Require Import base decidable list gmap.
From S2P Require Import Prelude Str Order Json Closure Access.

Definition MAX_INHERITANCE_DEPTH : nat := 32.

(** * Permissions *)

(** The mask, a 32-bit integer. *)
Record Permission : Type := mkPermission { mask : Z }.
#[export] Instance Permission_eq_dec : EqDecision Permission.
Proof. solve_decision. Defined.

Definition READ : Permission := mkPermission 1.
Definition WRITE : Permission := mkPermission 2.
Definition CREATE : Permission := mkPermission 4.
Definition DELETE : Permission := mkPermission 8.
Definition ADMINISTRATION : Permission := mkPermission 16.

Definition from_mask (m : Z) : Permission := mkPermission m.
Definition permission_union (p q : Permission) : Permission := mkPermission (Z.lor (mask p) (mask q)).
Definition permission_contains (p required : Permission) : bool :=
  negb (mask required =? 0) && (Z.land (mask p) (mask required) =? mask required).

Definition from_name (name : str) : option Permission :=
  let n := to_ascii_lowercase (trim name) in
  if str_eqb n (lit "read") then Some READ
  else if str_eqb n (lit "write") then Some WRITE
  else if str_eqb n (lit "create") then Some CREATE
  else if str_eqb n (lit "delete") then Some DELETE
  else if str_eqb n (lit "administration") || str_eqb n (lit "admin") then Some ADMINISTRATION
  else None.

(** * The lists *)

Inductive Sid : Type :=
| Principal (name : str)
| Authority (name : str).
#[export] Instance Sid_eq_dec : EqDecision Sid.
Proof. solve_decision. Defined.

Record ObjectIdentity : Type := mkOid { object_type : str; identifier : str }.
#[export] Instance ObjectIdentity_eq_dec : EqDecision ObjectIdentity.
Proof. solve_decision. Defined.
Definition oid_key (o : ObjectIdentity) : str * str := (object_type o, identifier o).

Record AccessControlEntry : Type := mkAce { sid : Sid; permission : Permission; granting : bool }.

Record Acl : Type := mkAcl {
  object_identity : ObjectIdentity;
  owner : Sid;
  entries : list AccessControlEntry;
  parent : option ObjectIdentity;
  entries_inheriting : bool
}.

Definition acl_new (o : ObjectIdentity) (by_ : Sid) : Acl := mkAcl o by_ [] None false.
Definition push_entry (e : AccessControlEntry) (a : Acl) : Acl :=
  mkAcl (object_identity a) (owner a) (entries a ++ [e]) (parent a) (entries_inheriting a).
Definition grant (s : Sid) (p : Permission) : Acl -> Acl := push_entry (mkAce s p true).
Definition acl_deny (s : Sid) (p : Permission) : Acl -> Acl := push_entry (mkAce s p false).
Definition with_parent (o : ObjectIdentity) (inheriting : bool) (a : Acl) : Acl :=
  mkAcl (object_identity a) (owner a) (entries a) (Some o) inheriting.

Definition ace_applies (p : Permission) (sids : list Sid) (e : AccessControlEntry) : bool :=
  bool_decide (sid e ∈ sids) && permission_contains (permission e) p.

Fixpoint first_decision (p : Permission) (sids : list Sid) (l : list AccessControlEntry) : option bool :=
  match l with
  | [] => None
  | e :: l => if ace_applies p sids e then Some (granting e) else first_decision p sids l
  end.
Definition local_decision (a : Acl) (p : Permission) (sids : list Sid) : option bool := first_decision p sids (entries a).

(** * Lookup and inheritance *)

Class AclService : Type := read_acl : ObjectIdentity -> option Acl.

Section Granted.
Context `{AclService}.

Fixpoint granted_loop (hops : nat) (current : option Acl) (p : Permission) (sids : list Sid) : bool :=
  match hops with
  | O => false
  | S hops =>
      match current with
      | None => false
      | Some acl =>
          match local_decision acl p sids with
          | Some decision => decision
          | None =>
              match entries_inheriting acl, parent acl with
              | true, Some o => granted_loop hops (read_acl o) p sids
              | _, _ => false
              end
          end
      end
  end.

Definition is_granted (o : ObjectIdentity) (p : Permission) (sids : list Sid) : bool :=
  granted_loop MAX_INHERITANCE_DEPTH (read_acl o) p sids.
End Granted.

(** The store, keyed by type and identifier. *)
Abbreviation InMemoryAclService := (gmap (str * str) Acl).

Definition acl_save (a : Acl) (s : InMemoryAclService) : InMemoryAclService := <[oid_key (object_identity a) := a]> s.
Definition acl_delete (o : ObjectIdentity) (s : InMemoryAclService) : bool * InMemoryAclService :=
  (bool_decide (is_Some (s !! oid_key o)), delete (oid_key o) s).
Definition in_memory (s : InMemoryAclService) : AclService := fun o => s !! oid_key o.

(** * The evaluator *)

Section Evaluator.
Context {V : Type} `{JsonValue V}.
Implicit Type auth : Authentication V.

(** The port; a target is an object identity or a value of another type. *)
Class PermissionEvaluator (T : Type) : Type := {
  has_permission : Authentication V -> T -> str -> bool;
  has_permission_for_id : Authentication V -> str -> str -> str -> bool
}.

(** The process-wide evaluator, set once. *)
Definition set_permission_evaluator {E : Type} (slot : option E) (e : E) : Result unit E * option E :=
  match slot with
  | None => (Ok tt, Some e)
  | Some old => (Err e, Some old)
  end.
Definition process_has_permission {T} (slot : option (PermissionEvaluator T)) auth (target : T) (name : str) : bool :=
  match slot with Some e => @has_permission T e auth target name | None => false end.

Definition push_authority (sids : list Sid) (value : str) : list Sid :=
  if bool_decide (Authority value ∈ sids) then sids else sids ++ [Authority value].

Definition push_role (sids : list Sid) (role : str) : list Sid :=
  let sids := push_authority sids role in
  match strip_prefix ROLE_PREFIX role with
  | Some bare => push_authority sids bare
  | None => push_authority sids (ROLE_PREFIX ++ role)
  end.

Definition sids_for auth : list Sid :=
  let sids := if is_authenticated auth then [Principal (principal auth)] else [] in
  let sids := fold_left push_role (roles auth) sids in
  fold_left push_authority (authorities auth) sids.

Definition acl_decide `{AclService} auth (o : ObjectIdentity) (name : str) : bool :=
  match from_name name with
  | None => false
  | Some p => is_granted o p (sids_for auth)
  end.

Inductive Target : Type :=
| OfIdentity (o : ObjectIdentity)
| Foreign.

#[export] Instance AclPermissionEvaluator `{AclService} : PermissionEvaluator Target := {
  has_permission auth target name := match target with OfIdentity o => acl_decide auth o name | Foreign => false end;
  has_permission_for_id auth ty id name := acl_decide auth (mkOid ty id) name
}.
End Evaluator.

(** * What the lists promise *)

(** An entry concerns a request when it names one of the identities presented
    and holds every bit asked for; asking for nothing concerns no entry. *)
Definition concerns (presented : Sid -> Prop) (p : Permission) (e : AccessControlEntry) : Prop :=
  presented (sid e) /\ mask p <> 0 /\ forall i, 0 <= i -> Z.testbit (mask p) i = true -> Z.testbit (mask (permission e)) i = true.

Definition silent (presented : Sid -> Prop) (p : Permission) (a : Acl) : Prop :=
  Forall (fun e => ~ concerns presented p e) (entries a).

(** The first entry of the list that concerns the request. *)
Definition deciding (presented : Sid -> Prop) (p : Permission) (a : Acl) (e : AccessControlEntry) : Prop :=
  exists before after, entries a = before ++ e :: after /\ Forall (fun e => ~ concerns presented p e) before /\ concerns presented p e.

(** The list consulted after [n] hops: the one of the object, or past silent
    inheriting lists the one of an ancestor. *)
Inductive consults `{AclService} (presented : Sid -> Prop) (p : Permission) : nat -> ObjectIdentity -> Acl -> Prop :=
| consults_own o a : read_acl o = Some a -> consults presented p 0 o a
| consults_parent n o a up b : read_acl o = Some a -> silent presented p a -> entries_inheriting a = true ->
    parent a = Some up -> consults presented p n up b -> consults presented p (S n) o b.

Lemma mask_contains_spec p q : permission_contains p q = true <->
  mask q <> 0 /\ forall i, 0 <= i -> Z.testbit (mask q) i = true -> Z.testbit (mask p) i = true.
Proof.
  unfold permission_contains. rewrite andb_true_iff, negb_true_iff, Z.eqb_neq, Z.eqb_eq. split; intros [N E]; (split; [done|]).
  - intros i _ T. rewrite <- E, Z.land_spec in T. by apply andb_true_iff in T as [? _].
  - apply Z.bits_inj'. intros i I. rewrite Z.land_spec. specialize (E i I).
    destruct (Z.testbit (mask q) i); [by rewrite E|by rewrite andb_false_r].
Qed.

Section Laws.
Variable sids : list Sid.
Variable presented : Sid -> Prop.
Hypothesis presents : forall s, s ∈ sids <-> presented s.

Lemma ace_applies_spec p e : ace_applies p sids e = true <-> concerns presented p e.
Proof. unfold ace_applies, concerns. rewrite andb_true_iff, bool_decide_eq_true, mask_contains_spec, presents. reflexivity. Qed.

Lemma ace_applies_not p e : ace_applies p sids e = false <-> ~ concerns presented p e.
Proof. rewrite <- ace_applies_spec, not_true_iff_false. reflexivity. Qed.

Lemma first_decision_spec p l :
  match first_decision p sids l with
  | Some b => exists before e after, l = before ++ e :: after /\ Forall (fun e => ~ concerns presented p e) before /\
                concerns presented p e /\ granting e = b
  | None => Forall (fun e => ~ concerns presented p e) l
  end.
Proof.
  induction l as [|e l IH]; cbn [first_decision]; [by constructor|].
  destruct (ace_applies p sids e) eqn:A.
  - apply ace_applies_spec in A. by exists [], e, l.
  - apply ace_applies_not in A. destruct (first_decision p sids l) as [b|]; [|by constructor].
    destruct IH as (before & e' & after & -> & F & C & G). exists (e :: before), e', after.
    split; [done|]. split; [by constructor|done].
Qed.

(** Two splits at a first entry that concerns are one. *)
Lemma first_unique {A} (P : A -> Prop) (l1 l2 r1 r2 : list A) x y : l1 ++ x :: r1 = l2 ++ y :: r2 ->
  Forall (fun e => ~ P e) l1 -> Forall (fun e => ~ P e) l2 -> P x -> P y -> x = y.
Proof.
  revert l2. induction l1 as [|a l1 IH]; intros [|b l2]; cbn; intros [= E1 E2] F1 F2 X Y.
  - done.
  - subst b. by inversion F2.
  - subst a. by inversion F1.
  - inversion F1; inversion F2; subst. by apply (IH l2).
Qed.

Lemma decision_iff p a b : local_decision a p sids = Some b <-> exists e, deciding presented p a e /\ granting e = b.
Proof.
  unfold local_decision. pose proof (first_decision_spec p (entries a)) as S. split.
  - intros E. rewrite E in S. destruct S as (before & e & after & ? & ? & ? & ?). exists e. split; [by exists before, after|done].
  - intros (e & (before & after & E & F & C) & <-). destruct (first_decision p sids (entries a)) as [b|].
    + destruct S as (before' & e' & after' & E' & F' & C' & <-). rewrite E in E'.
      by rewrite (first_unique (concerns presented p) _ _ _ _ _ _ E' F F' C C').
    + rewrite E in S. apply Forall_app in S as [_ S]. by inversion S.
Qed.

Lemma silent_iff p a : local_decision a p sids = None <-> silent presented p a.
Proof.
  unfold local_decision, silent. pose proof (first_decision_spec p (entries a)) as S. split.
  - intros E. by rewrite E in S.
  - intros F. destruct (first_decision p sids (entries a)) as [b|]; [|done].
    destruct S as (before & e & after & E & _ & C & _). rewrite E in F. apply Forall_app in F as [_ F]. by inversion F.
Qed.

Lemma granted_loop_spec `{AclService} p hops o : granted_loop hops (read_acl o) p sids = true <->
  exists n a e, (n < hops)%nat /\ consults presented p n o a /\ deciding presented p a e /\ granting e = true.
Proof.
  revert o. induction hops as [|hops IH]; intros o; cbn [granted_loop].
  { split; [done|]. intros (n & _ & _ & L & _). lia. }
  destruct (read_acl o) as [a|] eqn:R.
  2: { split; [done|]. intros (n & b & e & _ & C & _). inversion C; congruence. }
  destruct (local_decision a p sids) as [d|] eqn:D.
  - assert (Dd := D). apply decision_iff in Dd as (e & De & Ge). split.
    + intros ->. exists 0%nat, a, e. split; [lia|]. split; [by constructor|done].
    + intros (n & b & e' & _ & C & D' & G). inversion C as [? ? R'|? ? a' ? ? R' Si]; subst.
      * rewrite R in R'. injection R' as <-. rewrite (proj2 (decision_iff p a true)) in D; [by injection D as <-|by exists e'].
      * rewrite R in R'. injection R' as <-. apply silent_iff in Si. congruence.
  - assert (~ exists e, deciding presented p a e) as N.
    { intros [e De]. rewrite (proj2 (decision_iff p a (granting e))) in D; [done|by exists e]. }
    assert (Si := D). apply silent_iff in Si. split.
    + destruct (entries_inheriting a) eqn:I; [|done]. destruct (parent a) as [up|] eqn:U; [|done].
      intros G. apply IH in G as (n & b & e & L & C & De & Ge). exists (S n), b, e.
      split; [lia|]. split; [by apply (consults_parent _ _ n o a up)|done].
    + intros (n & b & e & L & C & De & Ge). inversion C as [? ? R'|n' ? a' up ? R' _ I U C']; subst.
      * rewrite R in R'. injection R' as <-. exfalso. apply N. by exists e.
      * rewrite R in R'. injection R' as <-. rewrite I, U. apply IH. exists n', b, e. split; [lia|done].
Qed.
End Laws.

(** * What the evaluator promises *)

Section Evaluated.
Context {V : Type} `{JsonValue V}.
Implicit Type auth : Authentication V.

(** The identities a principal presents: itself once authenticated, and each
    role and authority, a role also with its prefix added or removed. *)
Definition presented_by auth (s : Sid) : Prop :=
  match s with
  | Principal n => is_authenticated auth = true /\ n = principal auth
  | Authority a => a ∈ roles auth \/ ROLE_PREFIX ++ a ∈ roles auth \/
      (exists role, role ∈ roles auth /\ strip_prefix ROLE_PREFIX role = None /\ a = ROLE_PREFIX ++ role) \/
      a ∈ authorities auth
  end.

Lemma push_authority_spec sids v s : s ∈ push_authority sids v <-> s ∈ sids \/ s = Authority v.
Proof.
  unfold push_authority. case_bool_decide as I; [|by rewrite elem_of_app, list_elem_of_singleton].
  split; [by left|]. by intros [?| ->].
Qed.

(** The identities a role adds. *)
Definition role_adds (role : str) (s : Sid) : Prop :=
  s = Authority role \/
  match strip_prefix ROLE_PREFIX role with Some bare => s = Authority bare | None => s = Authority (ROLE_PREFIX ++ role) end.

Lemma push_role_spec sids role s : s ∈ push_role sids role <-> s ∈ sids \/ role_adds role s.
Proof.
  unfold push_role, role_adds. destruct (strip_prefix ROLE_PREFIX role); rewrite !push_authority_spec; tauto.
Qed.

Lemma fold_adds {A} (f : list Sid -> A -> list Sid) (P : A -> Sid -> Prop) (l : list A) :
  (forall sids x s, s ∈ f sids x <-> s ∈ sids \/ P x s) ->
  forall sids s, s ∈ fold_left f l sids <-> s ∈ sids \/ exists x, x ∈ l /\ P x s.
Proof.
  intros F. induction l as [|x l IH]; intros sids s; cbn [fold_left].
  - split; [by left|]. intros [?|(x & I & _)]; [done|by apply elem_of_nil in I].
  - rewrite IH, F. setoid_rewrite elem_of_cons. split.
    + intros [[?|?]|(y & ? & ?)]; [by left|right; exists x; auto|right; exists y; auto].
    + intros [?|(y & [->|?] & ?)]; [auto|auto|right; by exists y].
Qed.

Lemma role_adds_spec role s : role_adds role s <->
  match s with
  | Principal _ => False
  | Authority a => a = role \/ role = ROLE_PREFIX ++ a \/ (strip_prefix ROLE_PREFIX role = None /\ a = ROLE_PREFIX ++ role)
  end.
Proof.
  unfold role_adds. destruct (strip_prefix ROLE_PREFIX role) as [bare|] eqn:E.
  - apply strip_prefix_Some in E as ->. destruct s as [n|a]; (split; [intros [[=]|[=]]; subst; auto|]); [done|].
    intros [->|[X|[? _]]]; [by left| |done]. apply app_inv_head in X as <-. by right.
  - destruct s as [n|a]; (split; [intros [[=]|[=]]; subst; auto|]); [done|].
    intros [->|[->|[_ ->]]]; [by left|by rewrite strip_prefix_app in E|by right].
Qed.

Lemma sids_for_spec auth s : s ∈ sids_for auth <-> presented_by auth s.
Proof.
  unfold sids_for. rewrite (fold_adds push_authority (fun v s => s = Authority v)), (fold_adds push_role role_adds).
  2: { intros. apply push_role_spec. }
  2: { intros. apply push_authority_spec. }
  setoid_rewrite role_adds_spec. destruct s as [n|a]; cbn [presented_by].
  - transitivity (Principal n ∈ (if is_authenticated auth then [Principal (principal auth)] else [])).
    { split; [intros [[?|(x & _ & [])]|(x & _ & [=])]; done|by left; left]. }
    destruct (is_authenticated auth); [rewrite list_elem_of_singleton|rewrite elem_of_nil].
    + split; [by intros [= ->]|by intros [_ ->]].
    + by split; [|intros [? _]].
  - assert (Authority a ∉ (if is_authenticated auth then [Principal (principal auth)] else [])) as N.
    { destruct (is_authenticated auth); [by intros I%list_elem_of_singleton|apply not_elem_of_nil]. }
    split.
    + intros [[?|(r & I & [->|[->|[? ->]]])]|(x & I & [= ->])]; auto; try done.
      right; right; left. by exists r.
    + intros [?|[?|[(r & ? & ? & ->)|?]]].
      * left; right. exists a; auto.
      * left; right. exists (ROLE_PREFIX ++ a); auto.
      * left; right. exists r; auto.
      * right. by exists a.
Qed.

(** C13 The access-control lists grant a permission exactly when the name is one
    of the known ones and, past at most 31 silent inheriting ancestors, a list
    is reached whose first entry that concerns the request grants: the entry
    names an identity the principal presents (itself only when it is
    authenticated, its roles with and without the prefix, its authorities) and
    holds every bit asked for. Everything else is denied: no list, no entry, a
    deny first, a chain that is cyclic or too deep, an unknown permission. *)
Theorem acl_evaluator_decides `{AclService} auth (ty id name : str) :
  @has_permission_for_id V Target _ auth ty id name = true <->
  exists p, from_name name = Some p /\
    exists n a e, (n < MAX_INHERITANCE_DEPTH)%nat /\ consults (presented_by auth) p n (mkOid ty id) a /\
      deciding (presented_by auth) p a e /\ granting e = true.
Proof.
  cbn [has_permission_for_id AclPermissionEvaluator]. unfold acl_decide.
  destruct (from_name name) as [p|]; [|split; [done|by intros (p & [=] & _)]].
  unfold is_granted. rewrite (granted_loop_spec (sids_for auth) (presented_by auth) (sids_for_spec auth)).
  split; [intros G; by exists p|by intros (q & [= <-] & G)].
Qed.
End Evaluated.

(** * Concrete lists *)

Definition account : ObjectIdentity := mkOid (lit "Account") (lit "1").
Definition branch : ObjectIdentity := mkOid (lit "Branch") (lit "1").
Definition user : Sid := Authority (lit "ROLE_USER").

Definition bank : InMemoryAclService :=
  acl_save (with_parent account true (grant user READ (acl_new branch (Principal (lit "root")))))
    (acl_save (with_parent branch true (acl_deny (Principal (lit "ann")) DELETE (acl_new account (Principal (lit "root"))))) ∅).

(** The parent decides what the account says nothing of, and a cycle ends. *)
Example inherited_read : is_granted (H:=in_memory bank) account READ [user] = true.
Proof. vm_compute. reflexivity. Qed.
Example cycle_denies : is_granted (H:=in_memory bank) account WRITE [user] = false.
Proof. vm_compute. reflexivity. Qed.

(** A deny of one bit that comes first does not stop a grant of both bits when
    both are asked for. *)
Example partial_deny_is_passed_over :
  let a := grant user (permission_union READ WRITE) (acl_deny user READ (acl_new account user)) in
  local_decision a READ [user] = Some false /\ local_decision a (permission_union READ WRITE) [user] = Some true.
Proof. vm_compute. split; reflexivity. Qed.
