(* ===== verification/Migrations.v ===== *)
(** The versioned-SQL migration runner: [crates/migrations], [migration.rs],
    [source.rs], [database.rs], [error.rs] and [runner.rs].

    The database is behind the port [Database]; the promise the runner relies
    on (transactions that take effect as a whole) is the class
    [Transactional], of which a small SQL store is an instance. The SHA-256
    digest and the file system are parameters. *)
From Stdlib Require Import Ascii String.
From Stdlib Require Import ZArith NArith List Lia Sorting.Sorted Permutation.
From stdpp Require Import base decidable list gmap.
From S2P Require Import Prelude Str Unicode Order.

(** * Migrations and their errors *)

Record Migration : Type := mkMigration {
  version : Z;
  description : str;
  filename : str;
  sql : str;
  m_checksum : str
}.

Definition DatabaseError : Type := str.

Inductive SqlValue : Type :=
| Int (n : Z)
| Text (s : str).

Inductive MigrationError (Io : Type) : Type :=
| ChecksumMismatch (version : Z) (filename : str)
| CreateTable (e : DatabaseError)
| Apply (version : Z) (filename : str) (source : DatabaseError)
| DbError (e : DatabaseError)
| IoError (e : Io).
Arguments ChecksumMismatch {Io} version filename. Arguments CreateTable {Io} e.
Arguments Apply {Io} version filename source. Arguments DbError {Io} e. Arguments IoError {Io} e.

(** * Migration file names *)

(** [[A-Za-z0-9_-]]. *)
Definition name_char (c : char) : bool :=
  is_digit c || ((65 <=? c) && (c <=? 90))%N || ((97 <=? c) && (c <=? 122))%N || (c =? 95)%N || (c =? 45)%N.

(** The longest run of ASCII digits in front. A [\d] that is no ASCII digit
    makes the later [parse] fail, so the name is ignored either way. *)
Fixpoint digits_prefix (s : str) : str * str :=
  match s with
  | c :: s' => if is_digit c then let '(d, r) := digits_prefix s' in (c :: d, r) else ([], s)
  | [] => ([], [])
  end.

(** [^V(\d+)__([A-Za-z0-9_-]+)\.sql$]: the digits end where the underscores
    begin, and no character of the description is a dot. *)
Definition name_captures (name : str) : option (str * str) :=
  rest ← strip_prefix (lit "V") name;
  let '(digits, rest) := digits_prefix rest in
  rest ← strip_prefix (lit "__") rest;
  desc ← strip_suffix (lit ".sql") rest;
  if negb (bool_decide (digits = [])) && negb (bool_decide (desc = [])) && forallb name_char desc
  then Some (digits, desc) else None.

Definition parse_name (name : str) : option (Z * str) :=
  '(digits, desc) ← name_captures name;
  version ← parse_i64 digits;
  Some (version, replace_char (chr "_") (lit " ") desc).

(** * Sources *)

Section Sources.
Context {Io : Type}.
(** [hex::encode(Sha256::digest(b))]. *)
Variable checksum : list N -> str.

Definition by_version (a b : Migration) : comparison := Z.compare (version a) (version b).

(** A directory as [read_dir] gives it: entries in any order, each of which may
    fail to be read. *)
Record DirEntry : Type := mkEntry {
  file_name : str;
  is_dir : Result bool Io;
  contents : Result (list N) Io
}.

Variable from_utf8_lossy : list N -> str.

Fixpoint dir_entries (l : list (Result DirEntry Io)) : Result (list Migration) (MigrationError Io) :=
  match l with
  | [] => Ok []
  | entry :: l =>
      entry <-? map_err IoError entry;
      dir <-? map_err IoError (is_dir entry);
      if dir : bool then dir_entries l
      else
        match parse_name (file_name entry) with
        | None => dir_entries l
        | Some (v, d) =>
            body <-? map_err IoError (contents entry);
            out <-? dir_entries l;
            Ok (mkMigration v d (file_name entry) (from_utf8_lossy body) (checksum body) :: out)
        end
  end.

(** [DirSource::list], over what [read_dir] returns. *)
Definition dir_list (read_dir : Result (list (Result DirEntry Io)) Io) : Result (list Migration) (MigrationError Io) :=
  entries <-? map_err IoError read_dir;
  out <-? dir_entries entries;
  Ok (sort_by by_version out).

(** [EmbeddedSource::list]. *)
Definition embedded_list (files : list (str * str)) : Result (list Migration) (MigrationError Io) :=
  Ok (sort_by by_version
        (omap (fun '(name, body) =>
           '(v, d) ← parse_name name;
           Some (mkMigration v d name body (checksum (as_bytes body)))) files)).

Definition fill_checksum (m : Migration) : Migration :=
  if bool_decide (m_checksum m = [])
  then mkMigration (version m) (description m) (filename m) (sql m) (checksum (as_bytes (sql m)))
  else m.

(** [SliceSource::list]. *)
Definition slice_list (items : list Migration) : Result (list Migration) (MigrationError Io) :=
  Ok (sort_by by_version (map fill_checksum items)).
End Sources.

(** * The port *)

Record Database (W : Type) : Type := mkDatabase {
  execute : str -> list SqlValue -> W -> Result unit DatabaseError * W;
  query : str -> W -> Result (list (list SqlValue)) DatabaseError * W;
  begin : W -> Result unit DatabaseError * W;
  commit : W -> Result unit DatabaseError * W;
  rollback : W -> Result unit DatabaseError * W
}.
Arguments execute {W}. Arguments query {W}. Arguments begin {W}. Arguments commit {W}. Arguments rollback {W}.

Definition DDL_CREATE : str := lit "
CREATE TABLE IF NOT EXISTS firefly_migrations (
    version     INTEGER     PRIMARY KEY,
    description TEXT        NOT NULL,
    filename    TEXT        NOT NULL,
    checksum    TEXT        NOT NULL,
    applied_at  TIMESTAMP   NOT NULL
)".
Definition INSERT_HISTORY : str :=
  lit "INSERT INTO firefly_migrations (version, description, filename, checksum, applied_at) VALUES (?, ?, ?, ?, ?)".
Definition SELECT_APPLIED : str := lit "SELECT version, checksum FROM firefly_migrations".

(** * The runner *)

Section Runner.
Context {W Io : Type} (db : Database W).
(** The clock, as RFC 3339 text. *)
Variable now : W -> str.
(** The Debug form of a row of another shape. *)
Variable shape_error : list SqlValue -> DatabaseError.

Definition exec_and_record (m : Migration) (w : W) : Result unit DatabaseError * W :=
  match execute db (sql m) [] w with
  | (Err e, w) => (Err e, w)
  | (Ok _, w) =>
      execute db INSERT_HISTORY
        [Int (version m); Text (description m); Text (filename m); Text (m_checksum m); Text (now w)] w
  end.

Definition apply_one (m : Migration) (w : W) : Result unit DatabaseError * W :=
  match begin db w with
  | (Err e, w) => (Err e, w)
  | (Ok _, w) =>
      match exec_and_record m w with
      | (Err e, w) => let '(_, w) := rollback db w in (Err e, w)
      | (Ok _, w) => commit db w
      end
  end.

Fixpoint applied_rows (rows : list (list SqlValue)) (out : gmap Z str) : Result (gmap Z str) (MigrationError Io) :=
  match rows with
  | [] => Ok out
  | [Int v; Text c] :: rows => applied_rows rows (<[v := c]> out)
  | other :: _ => Err (DbError (shape_error other))
  end.

Definition load_applied (w : W) : Result (gmap Z str) (MigrationError Io) * W :=
  match query db SELECT_APPLIED w with
  | (Err e, w) => (Err (DbError e), w)
  | (Ok rows, w) => (applied_rows rows ∅, w)
  end.

Fixpoint run_loop (applied : gmap Z str) (migs : list Migration) (w : W) : Result unit (MigrationError Io) * W :=
  match migs with
  | [] => (Ok tt, w)
  | m :: migs =>
      match applied !! version m with
      | Some recorded =>
          if bool_decide (recorded = m_checksum m) then run_loop applied migs w
          else (Err (ChecksumMismatch (version m) (filename m)), w)
      | None =>
          match apply_one m w with
          | (Err e, w) => (Err (Apply (version m) (filename m) e), w)
          | (Ok _, w) => run_loop applied migs w
          end
      end
  end.

(** [run]; [list] is the source's [list] method. *)
Definition run (list_ : W -> Result (list Migration) (MigrationError Io) * W) (w : W)
  : Result unit (MigrationError Io) * W :=
  match execute db DDL_CREATE [] w with
  | (Err e, w) => (Err (CreateTable e), w)
  | (Ok _, w) =>
      match list_ w with
      | (Err e, w) => (Err e, w)
      | (Ok migs, w) =>
          match load_applied w with
          | (Err e, w) => (Err e, w)
          | (Ok applied, w) => run_loop applied migs w
          end
      end
  end.

Record Status : Type := mkStatus { s_applied : list Migration; s_pending : list Migration }.

Definition is_applied (applied : gmap Z str) (m : Migration) : bool := bool_decide (is_Some (applied !! version m)).

Definition inspect (list_ : W -> Result (list Migration) (MigrationError Io) * W) (w : W)
  : Result Status (MigrationError Io) * W :=
  match list_ w with
  | (Err e, w) => (Err e, w)
  | (Ok migs, w) =>
      match load_applied w with
      | (Err e, w) => (Err e, w)
      | (Ok applied, w) =>
          (Ok (mkStatus (List.filter (is_applied applied) migs)
                        (List.filter (fun m => negb (is_applied applied m)) migs)), w)
      end
  end.
End Runner.

(** * What the database promises

    Statements act on the contents of the transaction in flight, or on the
    durable contents when there is none; a transaction becomes durable as a
    whole when it commits and not otherwise. Of SQL, only the meaning of the
    runner's own three statements is fixed. *)
Class Transactional {W} (db : Database W) : Type := {
  Contents : Type;
  durable : W -> Contents;
  working : W -> option Contents;
  effect : str -> list SqlValue -> Contents -> option Contents;
  history : Contents -> option (gmap Z str);
  begin_ok w w' : working w = None -> begin db w = (Ok tt, w') ->
    durable w' = durable w /\ working w' = Some (durable w);
  begin_err w e w' : working w = None -> begin db w = (Err e, w') ->
    durable w' = durable w /\ working w' = None;
  execute_alone_ok s ps w w' : working w = None -> execute db s ps w = (Ok tt, w') ->
    effect s ps (durable w) = Some (durable w') /\ working w' = None;
  execute_alone_err s ps w e w' : working w = None -> execute db s ps w = (Err e, w') ->
    durable w' = durable w /\ working w' = None;
  execute_tx_ok s ps w w' c : working w = Some c -> execute db s ps w = (Ok tt, w') ->
    durable w' = durable w /\ exists c', effect s ps c = Some c' /\ working w' = Some c';
  execute_tx_err s ps w e w' c : working w = Some c -> execute db s ps w = (Err e, w') ->
    durable w' = durable w /\ is_Some (working w');
  commit_ok w w' c : working w = Some c -> commit db w = (Ok tt, w') -> durable w' = c /\ working w' = None;
  commit_err w e w' c : working w = Some c -> commit db w = (Err e, w') -> durable w' = durable w;
  rollback_any w r w' c : working w = Some c -> rollback db w = (r, w') -> durable w' = durable w;
  create_creates c c' : effect DDL_CREATE [] c = Some c' ->
    history c' = Some (default ∅ (history c)) /\ (is_Some (history c) -> c' = c);
  insert_records v d f k t c c' : effect INSERT_HISTORY [Int v; Text d; Text f; Text k; Text t] c = Some c' ->
    exists h, history c = Some h /\ h !! v = None /\ history c' = Some (<[v := k]> h);
  select_ok w rows w' : working w = None -> query db SELECT_APPLIED w = (Ok rows, w') ->
    durable w' = durable w /\ working w' = None /\
    exists h l, history (durable w) = Some h /\ Permutation l (map_to_list h) /\
                rows = map (fun '(v, k) => [Int v; Text k]) l;
  select_err w e w' : working w = None -> query db SELECT_APPLIED w = (Err e, w') ->
    durable w' = durable w /\ working w' = None
}.

Lemma applied_rows_spec {Io} shape (l : list (Z * str)) (out : gmap Z str) :
  NoDup l.*1 -> (forall v k, (v, k) ∈ l -> out !! v = None) ->
  applied_rows (Io := Io) shape (map (fun '(v, k) => [Int v; Text k]) l) out = Ok (list_to_map l ∪ out).
Proof.
  revert out. induction l as [|[v k] l IH]; intros out ND D; simpl.
  { by rewrite (left_id_L ∅ (∪)). }
  apply NoDup_cons in ND as [N ND]. rewrite IH; [|done|].
  - f_equal. rewrite <- insert_union_l, insert_union_r; [done|]. by apply not_elem_of_list_to_map_1.
  - intros v' k' I. rewrite lookup_insert_ne; [by eapply D; right|].
    intros ->. apply N. apply list_elem_of_fmap. by exists (v', k').
Qed.

Section Correct.
Context {W Io : Type} (db : Database W) `{T : !Transactional db}.
Variable now : W -> str.
Variable shape_error : list SqlValue -> DatabaseError.

(** The contents after a migration: its body, then its row. *)
Definition migrated (m : Migration) (c c' : Contents) : Prop :=
  exists mid t, effect (sql m) [] c = Some mid /\
    effect INSERT_HISTORY [Int (version m); Text (description m); Text (filename m); Text (m_checksum m); Text t] mid
    = Some c'.

(** The contents after a list of migrations, run in order. *)
Inductive replay : list Migration -> Contents -> Contents -> Prop :=
| replay_nil c : replay [] c c
| replay_cons m ms c c1 c2 : migrated m c c1 -> replay ms c1 c2 -> replay (m :: ms) c c2.

(** The bodies leave the runner's table alone. *)
Definition keeps_history (m : Migration) : Prop :=
  forall c c', effect (sql m) [] c = Some c' -> history c' = history c.

(** A connection on which settling a transaction ends it, also when it fails. *)
Definition settling_ends : Prop := forall w w' r,
  commit db w = (r, w') \/ rollback db w = (r, w') -> working w' = None.

Lemma load_applied_spec w w' r : working w = None ->
  load_applied (Io := Io) db shape_error w = (r, w') ->
  durable w' = durable w /\ working w' = None /\
  match r with
  | Ok h => history (durable w) = Some h
  | Err e => exists d, e = DbError d
  end.
Proof.
  intros Wk. unfold load_applied. destruct (query db SELECT_APPLIED w) as [[rows|e] w1] eqn:Q; intros [= <- <-].
  - destruct (select_ok w rows w1 Wk Q) as (D & Wk1 & h & l & H & P & ->). repeat split; [done|done|].
    assert (NoDup l.*1) as ND by (rewrite P; apply NoDup_fst_map_to_list).
    rewrite applied_rows_spec; [|done|intros; apply lookup_empty].
    rewrite H, (right_id_L ∅ (∪)). f_equal. rewrite <- (list_to_map_to_list h) at 1.
    apply list_to_map_proper; [rewrite <- P; done|by symmetry].
  - destruct (select_err w e w1 Wk Q) as [D Wk1]. repeat split; [done|done|]. eauto.
Qed.

(** A migration takes effect as a whole or not at all. *)
Lemma apply_one_spec m w w' r : working w = None ->
  apply_one db now m w = (r, w') ->
  match r with
  | Ok _ => migrated m (durable w) (durable w') /\ working w' = None
  | Err _ => durable w' = durable w /\ (settling_ends -> working w' = None)
  end.
Proof.
  intros Wk. unfold apply_one. destruct (begin db w) as [[[]|e] w1] eqn:B.
  2:{ intros [= <- <-]. by destruct (begin_err _ _ _ Wk B). }
  destruct (begin_ok _ _ Wk B) as [D1 Wk1]. unfold exec_and_record.
  destruct (execute db (sql m) [] w1) as [[[]|e] w2] eqn:X1.
  - destruct (execute_tx_ok _ _ _ _ _ Wk1 X1) as (D2 & c2 & F1 & Wk2).
    destruct (execute db INSERT_HISTORY _ w2) as [[[]|e] w3] eqn:X2.
    + destruct (execute_tx_ok _ _ _ _ _ Wk2 X2) as (D3 & c3 & F2 & Wk3). intros C. destruct r as [[]|e].
      * destruct (commit_ok _ _ _ Wk3 C) as [<- Wk']. split; [|done]. by exists c2, (now w2).
      * rewrite (commit_err _ _ _ _ Wk3 C). split; [congruence|]. intros S. by eapply S; left.
    + destruct (execute_tx_err _ _ _ _ _ _ Wk2 X2) as (D3 & c3 & Wk3).
      destruct (rollback db w3) as [r' w4] eqn:R. intros [= <- <-].
      rewrite (rollback_any _ _ _ _ Wk3 R). split; [congruence|]. intros S. by eapply S; right.
  - destruct (execute_tx_err _ _ _ _ _ _ Wk1 X1) as (D2 & c2 & Wk2).
    destruct (rollback db w2) as [r' w4] eqn:R. intros [= <- <-].
    rewrite (rollback_any _ _ _ _ Wk2 R). split; [congruence|]. intros S. by eapply S; right.
Qed.

Lemma migrated_history m c c' : keeps_history m -> migrated m c c' ->
  exists h, history c = Some h /\ h !! version m = None /\ history c' = Some (<[version m := m_checksum m]> h).
Proof.
  intros K (mid & t & F1 & F2). apply insert_records in F2 as (h & H & N & H').
  exists h. by rewrite <- (K _ _ F1).
Qed.

(** How the loop ends: the migrations passed, the one it stopped at. *)
Definition stopped (applied : gmap Z str) (rest : list Migration) (r : Result unit (MigrationError Io)) : Prop :=
  match r with
  | Ok _ => rest = []
  | Err (ChecksumMismatch v f) =>
      exists m rest' k, rest = m :: rest' /\ v = version m /\ f = filename m /\
                        applied !! v = Some k /\ k <> m_checksum m
  | Err (Apply v f _) =>
      exists m rest', rest = m :: rest' /\ v = version m /\ f = filename m /\ applied !! v = None
  | Err _ => False
  end.

(** The migrations that were still to run when the run began. *)
Definition pending (applied : gmap Z str) (migs : list Migration) : list Migration :=
  List.filter (fun m => negb (is_applied applied m)) migs.

Lemma run_loop_spec applied migs w w' r h : working w = None ->
  Forall keeps_history migs -> history (durable w) = Some h -> applied ⊆ h ->
  run_loop db now applied migs w = (r, w') ->
  exists passed rest h', migs = passed ++ rest /\ stopped applied rest r /\
    replay (pending applied passed) (durable w) (durable w') /\
    history (durable w') = Some h' /\ h ⊆ h' /\
    Forall (fun m => h' !! version m = Some (m_checksum m)) passed /\
    (r = Ok tt \/ settling_ends -> working w' = None).
Proof.
  intros Wk K. revert w h Wk K. induction migs as [|m migs IH]; intros w h Wk K H Sub; simpl.
  { intros [= <- <-]. exists [], [], h. repeat split; try done. constructor. }
  apply Forall_cons in K as [Km K]. destruct (applied !! version m) as [k|] eqn:L.
  - destruct (bool_decide_reflect (k = m_checksum m)) as [->|N].
    + intros R. destruct (IH w h Wk K H Sub R) as (p & rest & h' & -> & St & Re & H' & Sub' & F & Wk').
      exists (m :: p), rest, h'. repeat split; try done.
      * unfold pending, is_applied. simpl. by rewrite L.
      * constructor; [|done]. eapply lookup_weaken; [exact L|]. by etransitivity.
    + intros [= <- <-]. exists [], (m :: migs), h. repeat split; try done; [|constructor].
      by exists m, migs, k.
  - destruct (apply_one db now m w) as [[[]|e] w1] eqn:A; apply (apply_one_spec _ _ _ _ Wk) in A.
    + destruct A as [Mg Wk1]. destruct (migrated_history _ _ _ Km Mg) as (h0 & H0 & N & H1).
      rewrite H in H0. injection H0 as <-. intros R.
      assert (h ⊆ <[version m := m_checksum m]> h) as Sub1 by by apply insert_subseteq.
      destruct (IH w1 _ Wk1 K H1 (transitivity Sub Sub1) R) as (p & rest & h' & -> & St & Re & H' & Sub' & F & Wk').
      exists (m :: p), rest, h'. repeat split; try done.
      * unfold pending, is_applied. simpl. rewrite L. simpl. econstructor; [exact Mg|done].
      * by etransitivity.
      * constructor; [|done]. eapply lookup_weaken; [|exact Sub']. apply lookup_insert_eq.
    + intros [= <- <-]. destruct A as [A Wk1]. exists [], (m :: migs), h. rewrite A. repeat split; try done.
      * by exists m, migs.
      * constructor.
      * by intros [?|S]; [|apply Wk1].
Qed.

Lemma run_loop_up_to_date applied migs w :
  Forall (fun m => applied !! version m = Some (m_checksum m)) migs ->
  run_loop (Io := Io) db now applied migs w = (Ok tt, w).
Proof. induction 1 as [|m migs L F IH]; simpl; [done|]. rewrite L. by rewrite bool_decide_eq_true_2. Qed.

(** What a run that began with the contents [c] did, by its result: the table
    could not be created, it could not be read, or the migrations in front of
    where it stopped are recorded, the pending ones having run once, in order. *)
Definition outcome (migs : list Migration) (c : Contents) (r : Result unit (MigrationError Io)) (c' : Contents) : Prop :=
  (c' = c /\ exists e, r = Err (CreateTable e)) \/
  exists c0, effect DDL_CREATE [] c = Some c0 /\
    ((c' = c0 /\ exists e, r = Err (DbError e)) \/
     exists h passed rest h', history c0 = Some h /\ migs = passed ++ rest /\ stopped h rest r /\
       replay (pending h passed) c0 c' /\ history c' = Some h' /\ h ⊆ h' /\
       Forall (fun m => h' !! version m = Some (m_checksum m)) passed).

Context (list_ : W -> Result (list Migration) (MigrationError Io) * W) (migs : list Migration).
Context (L : forall w, list_ w = (Ok migs, w)).

Lemma run_outcome w w' r : working w = None -> Forall keeps_history migs ->
  run db now shape_error list_ w = (r, w') ->
  outcome migs (durable w) r (durable w') /\ (r = Ok tt \/ settling_ends -> working w' = None).
Proof.
  intros Wk K. unfold run. destruct (execute db DDL_CREATE [] w) as [[[]|e] w1] eqn:X.
  2:{ intros [= <- <-]. destruct (execute_alone_err _ _ _ _ _ Wk X) as [-> Wk1].
      split; [left; by eauto|done]. }
  destruct (execute_alone_ok _ _ _ _ Wk X) as [F Wk1]. rewrite L.
  destruct (load_applied db shape_error w1) as [q w2] eqn:Q.
  destruct (load_applied_spec _ _ _ Wk1 Q) as (D & Wk2 & S). destruct q as [h|e].
  - intros R. rewrite <- D in S.
    destruct (run_loop_spec h migs w2 w' r h Wk2 K S ltac:(done) R) as (p & rest & h' & E & St & Re & H' & Sub & Fa & Wk').
    split; [|done]. right. exists (durable w1). split; [done|]. right. exists h, p, rest, h'.
    rewrite <- D. done.
  - intros [= <- <-]. destruct S as [d ->]. split; [|done]. right. exists (durable w1).
    split; [done|]. left. split; [done|]. eauto.
Qed.

(** A run over contents that record every migration changes nothing. *)
Lemma run_up_to_date w w' r h : working w = None -> history (durable w) = Some h ->
  Forall (fun m => h !! version m = Some (m_checksum m)) migs ->
  run db now shape_error list_ w = (r, w') ->
  durable w' = durable w /\ (r = Ok tt \/ exists e, r = Err (CreateTable e) \/ r = Err (DbError e)).
Proof.
  intros Wk H F. unfold run. destruct (execute db DDL_CREATE [] w) as [[[]|e] w1] eqn:X.
  2:{ intros [= <- <-]. destruct (execute_alone_err _ _ _ _ _ Wk X) as [-> _]. eauto. }
  destruct (execute_alone_ok _ _ _ _ Wk X) as [C Wk1]. apply create_creates in C as [_ C].
  rewrite L. destruct (load_applied db shape_error w1) as [q w2] eqn:Q.
  destruct (load_applied_spec _ _ _ Wk1 Q) as (D & Wk2 & S).
  rewrite (C ltac:(by eexists)) in D, S. destruct q as [h2|e].
  - rewrite H in S. injection S as <-. rewrite run_loop_up_to_date by done. intros [= <- <-]. eauto.
  - intros [= <- <-]. destruct S as [d ->]. eauto.
Qed.
End Correct.

(** C21 A run leaves the database as if the pending migrations in front of the
    point where it stopped had each run once, in the order listed, with their
    rows; a migration that fails leaves nothing behind, not even an open
    transaction, provided that settling one, well or badly, ends it; an edited
    one stops the run; and a run after a successful one changes nothing. The
    bodies of the migrations leave the runner's own table alone, and the run
    starts outside a transaction. *)
Theorem run_migrates {W Io} (db : Database W) `{T : !Transactional db} now shape_error
    (list_ : W -> Result (list Migration) (MigrationError Io) * W) (migs : list Migration) w w' r
    (L : forall w, list_ w = (Ok migs, w)) (K : Forall (keeps_history db) migs) (Wk : working w = None)
    (R : run db now shape_error list_ w = (r, w')) :
  outcome db migs (durable w) r (durable w') /\
  (r = Ok tt \/ settling_ends db -> working w' = None) /\
  (r = Ok tt -> forall r2 w2, run db now shape_error list_ w' = (r2, w2) ->
     durable w2 = durable w' /\ (r2 = Ok tt \/ exists e, r2 = Err (CreateTable e) \/ r2 = Err (DbError e))).
Proof.
  destruct (run_outcome db now shape_error list_ migs L w w' r Wk K R) as [O Wk']. split; [done|]. split; [done|].
  intros -> r2 w2 R2. specialize (Wk' (or_introl eq_refl)). destruct O as [[_ [e E]]|(c0 & F & [[_ [e E]]|O])]; [done..|].
  destruct O as (h & p & rest & h' & _ & E & St & _ & H' & _ & Fa). simpl in St. subst rest.
  rewrite app_nil_r in E. subst p.
  by eapply run_up_to_date; eauto.
Qed.

(** * A small store that keeps the promise *)

Record Store : Type := mkStore { table : option (gmap Z str); statements : list str }.
Record World : Type := mkWorld { saved : Store; open_ : option Store }.

(** [BAD] stands for a statement the engine refuses. *)
Definition store_effect (s : str) (ps : list SqlValue) (c : Store) : option Store :=
  if str_eqb s DDL_CREATE then
    Some (match table c with Some _ => c | None => mkStore (Some ∅) (statements c) end)
  else if str_eqb s INSERT_HISTORY then
    match ps, table c with
    | [Int v; _; _; Text k; _], Some h =>
        match h !! v with None => Some (mkStore (Some (<[v := k]> h)) (statements c)) | Some _ => None end
    | _, _ => None
    end
  else if str_eqb s (lit "BAD") then None
  else Some (mkStore (table c) (statements c ++ [s])).

Definition store_execute (s : str) (ps : list SqlValue) (w : World) : Result unit DatabaseError * World :=
  let c := default (saved w) (open_ w) in
  match store_effect s ps c, open_ w with
  | None, _ => (Err (lit "error"), w)
  | Some c, None => (Ok tt, mkWorld c None)
  | Some c, Some _ => (Ok tt, mkWorld (saved w) (Some c))
  end.

Definition store_query (s : str) (w : World) : Result (list (list SqlValue)) DatabaseError * World :=
  match table (default (saved w) (open_ w)) with
  | Some h => (Ok (map (fun '(v, k) => [Int v; Text k]) (map_to_list h)), w)
  | None => (Err (lit "no such table"), w)
  end.

Definition store_db : Database World :=
  mkDatabase World store_execute store_query
    (fun w => match open_ w with
              | None => (Ok tt, mkWorld (saved w) (Some (saved w)))
              | Some _ => (Err (lit "nested"), w)
              end)
    (fun w => match open_ w with
              | Some c => (Ok tt, mkWorld c None)
              | None => (Err (lit "no transaction"), w)
              end)
    (fun w => (Ok tt, mkWorld (saved w) None)).

#[local] Obligation Tactic := idtac.

#[export] Program Instance store_transactional : Transactional store_db :=
  {| Contents := Store; durable := saved; working := open_; effect := store_effect; history := table |}.
Next Obligation. intros [d o] w'; simpl. intros ->. by intros [= <-]. Qed.
Next Obligation. intros [d o] e w'; simpl. by intros ->. Qed.
Next Obligation.
  intros s ps [d o] w'; simpl. intros ->. unfold store_execute; simpl.
  destruct (store_effect s ps d); [|done]. by intros [= <-].
Qed.
Next Obligation.
  intros s ps [d o] e w'; simpl. intros ->. unfold store_execute; simpl.
  destruct (store_effect s ps d); [done|]. by intros [= _ <-].
Qed.
Next Obligation.
  intros s ps [d o] w' c; simpl. intros ->. unfold store_execute; simpl.
  destruct (store_effect s ps c) as [c'|]; [|done]. intros [= <-]. eauto.
Qed.
Next Obligation.
  intros s ps [d o] e w' c; simpl. intros ->. unfold store_execute; simpl.
  destruct (store_effect s ps c) as [c'|]; [done|]. intros [= _ <-]. eauto.
Qed.
Next Obligation. intros [d o] w' c; simpl. intros ->. by intros [= <-]. Qed.
Next Obligation. intros [d o] e w' c; simpl. by intros ->. Qed.
Next Obligation. intros [d o] r w' c; simpl. intros _. by intros [= _ <-]. Qed.
Next Obligation.
  intros c c'. unfold store_effect, str_eqb. rewrite bool_decide_eq_true_2 by done. intros [= <-].
  destruct c as [[h|] l]; simpl; split; try done.
Qed.
Next Obligation.
  intros v d f k t c c'. unfold store_effect, str_eqb. rewrite bool_decide_eq_false_2 by (vm_compute; discriminate).
  rewrite bool_decide_eq_true_2 by done. destruct (table c) as [h|]; [|done].
  destruct (h !! v) eqn:N; [done|]. intros [= <-]. by exists h.
Qed.
Next Obligation.
  intros [d o] rows w'; simpl. intros ->. unfold store_query; simpl. destruct (table d) as [h|] eqn:E; [|done].
  intros [= <- <-]; simpl. split; [done|]. split; [done|]. by exists h, (map_to_list h).
Qed.
Next Obligation.
  intros [d o] e w'; simpl. intros ->. unfold store_query; simpl. destruct (table d) as [h|] eqn:E; [done|].
  intros [= _ <-]. done.
Qed.

(** * The sources list in order, and the file-name convention *)

Lemma by_version_preorder : total_preorder by_version.
Proof. exact (preorder_map version _ preorder_Z). Qed.

Abbreviation in_order := (StronglySorted (fun a b => (version a <= version b)%Z)).

Lemma sort_in_order l : in_order (sort_by by_version l).
Proof.
  pose proof (sort_by_sorted by_version by_version_preorder l) as S.
  induction S as [|m l' _ IH F]; constructor; [done|].
  eapply List.Forall_impl; [|exact F]. intros x. unfold by_version. by rewrite Z.compare_le_iff.
Qed.

(** Files of one version keep the order they were found in. *)
Lemma dir_list_in_order {Io} checksum lossy (dir : Result (list (Result DirEntry Io)) Io) migs :
  dir_list checksum lossy dir = Ok migs -> in_order migs.
Proof.
  unfold dir_list. intros (entries & _ & R)%result_bind_ok.
  apply result_bind_ok in R as (out & _ & [= <-]). apply sort_in_order.
Qed.

Lemma digits_prefix_app d r : Forall (fun c => is_digit c = true) d ->
  (forall c, head r = Some c -> is_digit c = false) -> digits_prefix (d ++ r) = (d, r).
Proof.
  induction 1 as [|c d D F IH]; simpl.
  - destruct r as [|c r]; [done|]. intros H. simpl. by rewrite (H c).
  - intros H. by rewrite D, IH.
Qed.

Lemma parse_digits_zeros zeros s : parse_digits (repeat 48%N zeros ++ s) 0 = parse_digits s 0.
Proof. induction zeros as [|zeros IH]; [done|]. cbn [repeat app parse_digits]. exact IH. Qed.

Lemma parse_zero_digits zeros n : 0 <= n <= I64_MAX -> parse_i64 (repeat 48%N zeros ++ show n) = Some n.
Proof.
  intros R. destruct zeros as [|zeros]; [by apply parse_i64_show|].
  assert (parse_unsigned (repeat 48%N (S zeros) ++ show n) = Some n) as P.
  { unfold parse_unsigned. rewrite parse_digits_zeros. cbn [repeat app].
    pose proof (parse_unsigned_show n ltac:(lia)) as U. unfold parse_unsigned in U.
    by destruct (show n). }
  assert (in_i64 n = true) as B.
  { unfold in_i64. apply andb_true_iff. split; apply Z.leb_le; [unfold I64_MIN; lia|lia]. }
  unfold parse_i64. rewrite P. cbn [repeat app N.eqb Pos.eqb]. by rewrite B.
Qed.

(** The convention's names are the ones read, with any number of leading
    zeros. *)
Lemma parse_name_convention zeros n desc : 0 <= n <= I64_MAX ->
  desc <> [] -> Forall (fun c => name_char c = true) desc ->
  parse_name (lit "V" ++ (repeat 48%N zeros ++ show n) ++ lit "__" ++ desc ++ lit ".sql")
  = Some (n, replace_char (chr "_") (lit " ") desc).
Proof.
  intros R N F. pose proof (parse_zero_digits zeros n R) as P. unfold parse_name, name_captures. rewrite strip_prefix_app. cbn [mbind option_bind].
  rewrite digits_prefix_app.
  2:{ apply Forall_app. split; [|apply show_digits; lia]. by apply Forall_forall; intros c ->%list_elem_of_In%repeat_spec. }
  2:{ by intros c [= <-]. }
  rewrite strip_prefix_app. cbn [mbind option_bind].
  assert (strip_suffix (lit ".sql") (desc ++ lit ".sql") = Some desc) as -> by by apply strip_suffix_Some.
  cbn [mbind option_bind]. rewrite bool_decide_eq_false_2; [|intros [_ E]%app_eq_nil; by apply (show_nonempty n)].
  rewrite bool_decide_eq_false_2 by done. simpl.
  assert (forallb name_char desc = true) as ->; [|simpl; by rewrite P].
  by apply forallb_forall; intros c I; rewrite Forall_forall in F; apply F, list_elem_of_In.
Qed.

(** * A concrete run *)

Definition digest (b : list N) : str := show (Z.of_nat (List.length b)).
Definition shop_files : list (str * str) :=
  [(lit "V002__add_index.sql", lit "BAD"); (lit "README.md", lit "x"); (lit "V001__init.sql", lit "CREATE TABLE t")].
Definition shop_migs : list Migration :=
  Eval vm_compute in match embedded_list (Io := Empty_set) digest shop_files with Ok l => l | Err _ => [] end.
Definition shop_list (w : World) : Result (list Migration) (MigrationError Empty_set) * World := (Ok shop_migs, w).
Definition fresh : World := mkWorld (mkStore None []) None.

Example shop_versions : map version shop_migs = [1; 2].
Proof. reflexivity. Qed.

(** The second migration fails: the first stays applied. *)
Example failed_run : run store_db (fun _ => lit "now") (fun _ => lit "shape") shop_list fresh
  = (Err (Apply 2 (lit "V002__add_index.sql") (lit "error")),
     mkWorld (mkStore (Some {[1 := lit "14"]}) [lit "CREATE TABLE t"]) None).
Proof. vm_compute. reflexivity. Qed.

Lemma store_settling_ends : settling_ends store_db.
Proof. intros [d [c|]] w' r [E|E]; by injection E as _ <-. Qed.

Lemma shop_keeps_history : Forall (keeps_history store_db) shop_migs.
Proof.
  repeat constructor; intros c c' E; vm_compute in E; [|discriminate]. by injection E as <-.
Qed.

Lemma run_migrates_witness :
  let r : Result unit (MigrationError Empty_set) := Err (Apply 2 (lit "V002__add_index.sql") (lit "error")) in
  let w' := mkWorld (mkStore (Some {[1 := lit "14"]}) [lit "CREATE TABLE t"]) None in
  outcome store_db shop_migs (durable fresh) r (durable w') /\
  (r = Ok tt \/ settling_ends store_db -> working w' = None) /\
  (r = Ok tt -> forall r2 w2, run store_db (fun _ => lit "now") (fun _ => lit "shape") shop_list w' = (r2, w2) ->
     durable w2 = durable w' /\ (r2 = Ok tt \/ exists e, r2 = Err (CreateTable e) \/ r2 = Err (DbError e))).
Proof.
  apply (run_migrates store_db (fun _ => lit "now") (fun _ => lit "shape") shop_list shop_migs fresh
    (mkWorld (mkStore (Some {[1 := lit "14"]}) [lit "CREATE TABLE t"]) None) _
    (fun w => eq_refl) shop_keeps_history eq_refl failed_run).
Defined.
