(* ===== verification/Profiles.v ===== *)
(** Profile expressions: the second half of [crates/config/src/profile.rs].

    A boolean expression over profile names is split into tokens and evaluated
    while it is parsed; anything malformed is false. The theorem: the parser
    accepts exactly the expressions of the documented grammar, and gives them
    their value. *)
From Stdlib Require Import Ascii String.
From Stdlib Require Import ZArith NArith List Lia.
From stdpp Require Import base decidable list.
From S2P Require Import Prelude Str Unicode.

Inductive ProfileToken : Type := TAnd | TOr | TNot | TLParen | TRParen | Value (b : bool).

#[export] Instance ProfileToken_eq_dec : EqDecision ProfileToken.
Proof. solve_decision. Defined.

(** * The lexer *)

Section Profiles.
Context `{CharClasses} (active : list str).

Definition active_contains (name : str) : bool := bool_decide (name ∈ active).

Definition ident_char (c : char) : bool := is_alphanumeric c || (c =? 95)%N || (c =? 46)%N || (c =? 45)%N.

(** Every turn of the loop consumes a character. *)
Fixpoint tokenize_loop (fuel : nat) (s : str) (tokens : list ProfileToken) : option (list ProfileToken) :=
  match fuel, s with
  | S n, c :: s' =>
      if is_whitespace c then tokenize_loop n s' tokens
      else if (c =? 38)%N then tokenize_loop n s' (tokens ++ [TAnd])
      else if (c =? 124)%N then tokenize_loop n s' (tokens ++ [TOr])
      else if (c =? 33)%N then tokenize_loop n s' (tokens ++ [TNot])
      else if (c =? 40)%N then tokenize_loop n s' (tokens ++ [TLParen])
      else if (c =? 41)%N then tokenize_loop n s' (tokens ++ [TRParen])
      else if ident_char c then
        let '(ident, rest) := span ident_char s in
        tokenize_loop n rest (tokens ++ [Value (active_contains ident)])
      else None
  | _, _ => Some tokens
  end.

Definition tokenize_profile (expr : str) : option (list ProfileToken) := tokenize_loop (List.length expr) expr [].

(** * The parser *)

(** One level of grouping, over the parser of the groups inside. *)
Section Level.
Context (parse_group : list ProfileToken -> option (bool * list ProfileToken)).

Definition parse_primary (ts : list ProfileToken) : option (bool * list ProfileToken) :=
  match ts with
  | TLParen :: ts' =>
      '(value, rest) ← parse_group ts';
      match rest with TRParen :: rest => Some (value, rest) | _ => None end
  | Value v :: ts' => Some (v, ts')
  | _ => None
  end.

Fixpoint parse_unary (ts : list ProfileToken) : option (bool * list ProfileToken) :=
  match ts with
  | TNot :: ts' => '(v, rest) ← parse_unary ts'; Some (negb v, rest)
  | _ => parse_primary ts
  end.

(** The [while] after the first operand; every turn consumes an operator. *)
Fixpoint and_loop (fuel : nat) (value : bool) (ts : list ProfileToken) : option (bool * list ProfileToken) :=
  match ts, fuel with
  | TAnd :: ts', S n => '(rhs, rest) ← parse_unary ts'; and_loop n (value && rhs) rest
  | TAnd :: _, O => None
  | _, _ => Some (value, ts)
  end.

Definition parse_and (ts : list ProfileToken) : option (bool * list ProfileToken) :=
  '(value, rest) ← parse_unary ts; and_loop (List.length rest) value rest.

Fixpoint or_loop (fuel : nat) (value : bool) (ts : list ProfileToken) : option (bool * list ProfileToken) :=
  match ts, fuel with
  | TOr :: ts', S n => '(rhs, rest) ← parse_and ts'; or_loop n (value || rhs) rest
  | TOr :: _, O => None
  | _, _ => Some (value, ts)
  end.
End Level.

(** [fuel] bounds the nesting depth of the groups. *)
Fixpoint parse_or (fuel : nat) (ts : list ProfileToken) : option (bool * list ProfileToken) :=
  match fuel with
  | O => None
  | S n => '(value, rest) ← parse_and (parse_or n) ts; or_loop (parse_or n) (List.length rest) value rest
  end.

Definition eval_boolean_profile (expr : str) : bool :=
  match tokenize_profile expr with
  | None => false
  | Some tokens =>
      match parse_or (S (List.length tokens)) tokens with
      | Some (value, []) => value
      | _ => false
      end
  end.

(** * Single names, lists of names, and the choice between the forms *)

Definition matches_single (profile : str) : bool :=
  let profile := trim profile in
  match strip_prefix (lit "!") profile with
  | Some rest => negb (active_contains (trim rest))
  | None => active_contains profile
  end.

Definition matches_profile_expression (expr : str) : bool :=
  let expr := trim expr in
  if contains 38%N expr || contains 124%N expr || contains 40%N expr then eval_boolean_profile expr
  else if contains 44%N expr then
    existsb matches_single (List.filter (fun sub => negb (bool_decide (sub = []))) (map trim (split 44%N expr)))
  else matches_single expr.

Definition accepts_profiles (exprs : list str) : bool := existsb matches_profile_expression exprs.

End Profiles.

(** * The grammar *)

Inductive Rule : Type := OrRule | AndRule | UnaryRule | PrimaryRule.

(** [or := and ('|' and)*], [and := unary ('&' unary)*],
    [unary := '!' unary | primary], [primary := '(' or ')' | value], with the
    value of each phrase. *)
Inductive derives : Rule -> list ProfileToken -> bool -> Prop :=
| or_one l a : derives AndRule l a -> derives OrRule l a
| or_more l a r b : derives AndRule l a -> derives OrRule r b -> derives OrRule (l ++ TOr :: r) (a || b)
| and_one l a : derives UnaryRule l a -> derives AndRule l a
| and_more l a r b : derives UnaryRule l a -> derives AndRule r b -> derives AndRule (l ++ TAnd :: r) (a && b)
| unary_not l a : derives UnaryRule l a -> derives UnaryRule (TNot :: l) (negb a)
| unary_primary l a : derives PrimaryRule l a -> derives UnaryRule l a
| primary_group l a : derives OrRule l a -> derives PrimaryRule (TLParen :: l ++ [TRParen]) a
| primary_value a : derives PrimaryRule [Value a] a.

Create HintDb grammar.
#[export] Hint Constructors derives : grammar.

(** ** What the parser reads is a phrase *)

(** [p] reads phrases of the rule. *)
Definition sound (r : Rule) (p : list ProfileToken -> option (bool * list ProfileToken)) : Prop :=
  forall ts v rest, p ts = Some (v, rest) -> exists l, ts = l ++ rest /\ derives r l v.

Section Sound.
Context (sub : list ProfileToken -> option (bool * list ProfileToken)) (S : sound OrRule sub).

Lemma primary_sound : sound PrimaryRule (parse_primary sub).
Proof.
  intros ts v rest. destruct ts as [|[| | | | |b] ts]; simpl; try done.
  - destruct (sub ts) as [[v' rest']|] eqn:E; [|done]. simpl.
    destruct rest' as [|[| | | | |b] rest']; try done. intros [= <- <-].
    apply S in E as (l & -> & D). exists (TLParen :: l ++ [TRParen]).
    split; [by rewrite <- app_comm_cons, <- app_assoc|auto with grammar].
  - intros [= <- <-]. exists [Value b]. auto with grammar.
Qed.

Lemma unary_sound : sound UnaryRule (parse_unary sub).
Proof.
  intros ts. induction ts as [|t ts IH]; intros v rest; [done|].
  assert (parse_primary sub (t :: ts) = Some (v, rest) -> exists l, t :: ts = l ++ rest /\ derives UnaryRule l v) as P.
  { intros (l & E & D)%primary_sound. eauto with grammar. }
  destruct t; try exact P. simpl. destruct (parse_unary sub ts) as [[v' rest']|] eqn:E; [|done].
  intros [= <- <-]. destruct (IH _ _ eq_refl) as (l & -> & D). exists (TNot :: l). auto with grammar.
Qed.

(** What a loop adds to the value so far: nothing, or a phrase behind the
    operator. *)
Lemma and_loop_sound fuel value ts v rest : and_loop sub fuel value ts = Some (v, rest) ->
  (ts = rest /\ v = value) \/ exists l b, ts = TAnd :: l ++ rest /\ derives AndRule l b /\ v = value && b.
Proof.
  revert value ts. induction fuel as [|n IH]; intros value ts.
  - destruct ts as [|[]]; try done; intros [= <- <-]; auto.
  - destruct ts as [|[] ts]; try (intros [= <- <-]; by auto).
    simpl. destruct (parse_unary sub ts) as [[b rest']|] eqn:E; [|done]. simpl.
    apply unary_sound in E as (l & -> & D). intros [[-> ->]|(l' & b' & -> & D' & ->)]%IH; right.
    + exists l, b. auto with grammar.
    + exists (l ++ TAnd :: l'), (b && b'). rewrite <- app_assoc, andb_assoc. auto with grammar.
Qed.

Lemma and_sound : sound AndRule (parse_and sub).
Proof.
  intros ts v rest. unfold parse_and. destruct (parse_unary sub ts) as [[a rest']|] eqn:E; [|done]. simpl.
  apply unary_sound in E as (l & -> & D). intros [[-> ->]|(l' & b & -> & D' & ->)]%and_loop_sound.
  - eauto with grammar.
  - exists (l ++ TAnd :: l'). rewrite <- app_assoc. auto with grammar.
Qed.

Lemma or_loop_sound fuel value ts v rest : or_loop sub fuel value ts = Some (v, rest) ->
  (ts = rest /\ v = value) \/ exists l b, ts = TOr :: l ++ rest /\ derives OrRule l b /\ v = value || b.
Proof.
  revert value ts. induction fuel as [|n IH]; intros value ts.
  - destruct ts as [|[]]; try done; intros [= <- <-]; auto.
  - destruct ts as [|[] ts]; try (intros [= <- <-]; by auto).
    simpl. destruct (parse_and sub ts) as [[b rest']|] eqn:E; [|done]. simpl.
    apply and_sound in E as (l & -> & D). intros [[-> ->]|(l' & b' & -> & D' & ->)]%IH; right.
    + exists l, b. auto with grammar.
    + exists (l ++ TOr :: l'), (b || b'). rewrite <- app_assoc, orb_assoc. auto with grammar.
Qed.
End Sound.

Lemma or_sound fuel : sound OrRule (parse_or fuel).
Proof.
  induction fuel as [|n IH]; [done|]. intros ts v rest. simpl.
  destruct (parse_and (parse_or n) ts) as [[a rest']|] eqn:E; [|done]. simpl.
  apply (and_sound _ IH) in E as (l & -> & D). intros [[-> ->]|(l' & b & -> & D' & ->)]%(or_loop_sound _ IH).
  - eauto with grammar.
  - exists (l ++ TOr :: l'). rewrite <- app_assoc. auto with grammar.
Qed.

(** ** Every phrase is read *)

(** The token behind a phrase of the rule does not continue it. *)
Definition stops (r : Rule) (rest : list ProfileToken) : bool :=
  match r, rest with
  | OrRule, TOr :: _ | OrRule, TAnd :: _ | AndRule, TAnd :: _ => false
  | _, _ => true
  end.

(** The parsers read a phrase of the rule off the front of a text, given fuel
    for its length; the loops, a phrase behind their operator. *)
Definition complete (r : Rule) (l : list ProfileToken) (a : bool) : Prop :=
  forall n rest, (List.length l <= n)%nat -> stops r rest = true ->
  match r with
  | OrRule => parse_or (S n) (l ++ rest) = Some (a, rest) /\
      forall v fuel, (List.length (l ++ rest) < fuel)%nat -> or_loop (parse_or n) fuel v (TOr :: l ++ rest) = Some (v || a, rest)
  | AndRule => parse_and (parse_or n) (l ++ rest) = Some (a, rest) /\
      forall v fuel, (List.length (l ++ rest) < fuel)%nat -> and_loop (parse_or n) fuel v (TAnd :: l ++ rest) = Some (v && a, rest)
  | UnaryRule => parse_unary (parse_or n) (l ++ rest) = Some (a, rest)
  | PrimaryRule => parse_primary (parse_or n) (l ++ rest) = Some (a, rest)
  end.

Lemma profile_and_stop sub fuel v rest : stops AndRule rest = true -> and_loop sub fuel v rest = Some (v, rest).
Proof. by destruct fuel, rest as [|[]]. Qed.

Lemma profile_or_stop sub fuel v rest : stops OrRule rest = true -> or_loop sub fuel v rest = Some (v, rest).
Proof. by destruct fuel, rest as [|[]]. Qed.

Lemma stops_or_and rest : stops OrRule rest = true -> stops AndRule rest = true.
Proof. by destruct rest as [|[]]. Qed.

Ltac lengths := repeat (rewrite ?length_app in *; simpl in *); lia.

Lemma derives_complete r l a : derives r l a -> complete r l a.
Proof.
  induction 1 as [l a D IH|l a r b D IH D' IH'|l a D IH|l a r b D IH D' IH'|l a D IH|l a D IH|l a D IH|a];
    intros n rest L St; simpl in St.
  - destruct (IH n rest L (stops_or_and _ St)) as [P _]. split.
    + simpl. rewrite P. simpl. by apply profile_or_stop.
    + intros v [|fuel] F; [lia|]. simpl. rewrite P. simpl. by apply profile_or_stop.
  - rewrite <- app_assoc. simpl.
    destruct (IH n (TOr :: r ++ rest) ltac:(lengths) eq_refl) as [P _].
    destruct (IH' n rest ltac:(lengths) St) as [_ Q]. split.
    + cbn [parse_or]. rewrite P. cbn [mbind option_bind]. apply Q. simpl. lia.
    + intros v [|fuel] F; [lia|]. cbn [or_loop]. rewrite P. cbn [mbind option_bind].
      rewrite Q by lengths. by rewrite orb_assoc.
  - pose proof (IH n rest L eq_refl) as P. simpl in P. split.
    + unfold parse_and. rewrite P. simpl. by apply profile_and_stop.
    + intros v [|fuel] F; [lia|]. simpl. rewrite P. simpl. by apply profile_and_stop.
  - rewrite <- app_assoc. simpl.
    pose proof (IH n (TAnd :: r ++ rest) ltac:(lengths) eq_refl) as P. simpl in P.
    destruct (IH' n rest ltac:(lengths) St) as [_ Q]. split.
    + unfold parse_and. rewrite P. cbn [mbind option_bind]. apply Q. simpl. lia.
    + intros v [|fuel] F; [lia|]. cbn [and_loop]. rewrite P. cbn [mbind option_bind].
      rewrite Q by lengths. by rewrite andb_assoc.
  - simpl. pose proof (IH n rest ltac:(lengths) eq_refl) as P. simpl in P. by rewrite P.
  - pose proof (IH n rest L eq_refl) as P. simpl in P.
    assert (exists t ts, l = t :: ts /\ t <> TNot) as (t & ts & -> & N).
    { inversion D; subst; eauto. }
    by destruct t.
  - cbn [app parse_primary]. rewrite <- app_assoc. destruct n as [|n]; [lengths|].
    destruct (IH n ([TRParen] ++ rest) ltac:(lengths) eq_refl) as [P _]. by rewrite P.
  - done.
Qed.

(** The value an expression derives, if any, is its only one. *)
Lemma parse_or_phrase ts a : parse_or (S (List.length ts)) ts = Some (a, []) <-> derives OrRule ts a.
Proof.
  split.
  - intros (l & E & D)%or_sound. rewrite app_nil_r in E. by subst l.
  - intros D%derives_complete. destruct (D (List.length ts) [] ltac:(lia) eq_refl) as [P _].
    by rewrite app_nil_r in P.
Qed.

(** A boolean profile expression has the value the grammar gives it, and is
    false exactly when it has that value or is no phrase of the grammar: the
    parser accepts nothing else and runs out of nothing. *)
Theorem boolean_profile_grammar `{CharClasses} active expr :
  (eval_boolean_profile active expr = true <->
   exists ts, tokenize_profile active expr = Some ts /\ derives OrRule ts true) /\
  (forall ts a, tokenize_profile active expr = Some ts -> derives OrRule ts a -> eval_boolean_profile active expr = a).
Proof.
  unfold eval_boolean_profile. destruct (tokenize_profile active expr) as [ts|]; [|split; [|done]; split; [done|]].
  2:{ by intros (? & ? & _). }
  assert (forall a, derives OrRule ts a -> parse_or (S (List.length ts)) ts = Some (a, [])) as C.
  { intros a D. by apply parse_or_phrase. }
  split.
  - split.
    + destruct (parse_or (S (List.length ts)) ts) as [[v [|t rest]]|] eqn:E; [|done..]. intros ->.
      exists ts. split; [done|]. by apply parse_or_phrase.
    + intros (? & [= <-] & D). by rewrite (C _ D).
  - intros ts' a [= <-] D. by rewrite (C _ D).
Qed.

#[local] Existing Instances ascii_classes.

Lemma boolean_profile_grammar_witness :
  eval_boolean_profile [lit "prod"; lit "cloud"] (lit "(prod & !qa) | test") = true.
Proof.
  apply (boolean_profile_grammar [lit "prod"; lit "cloud"] (lit "(prod & !qa) | test")).
  eexists. split; [vm_compute; reflexivity|].
  apply (or_more [TLParen; Value true; TAnd; TNot; Value false; TRParen] true [Value false] false).
  - apply and_one, unary_primary, (primary_group [Value true; TAnd; TNot; Value false]), or_one.
    apply (and_more [Value true] true [TNot; Value false] true); auto with grammar.
    apply and_one, (unary_not _ false); auto with grammar.
  - auto with grammar.
Defined.

Example comma_is_or : accepts_profiles [lit "test"] [lit "dev, test"] = true.
Proof. reflexivity. Qed.

Example negated_group : accepts_profiles [lit "test"] [lit "!(prod)"] = true.
Proof. reflexivity. Qed.

(** Outside a boolean expression only one negation is understood. *)
Example double_negation :
  accepts_profiles [lit "dev"] [lit "!!prod"] = true /\ accepts_profiles [lit "dev"] [lit "(!!prod)"] = false.
Proof. split; reflexivity. Qed.
