(* ===== verification/Placeholders.v ===== *)
(** Property placeholders: [crates/config/src/placeholder.rs].

    A [${key}] or [${key:default}] in a value is replaced by a process
    variable, by another value of the configuration or by its default. The
    theorem: what the recursion computes is what the rules of precedence say,
    references being followed ten deep and no further. *)
From Stdlib Require Import Ascii String.
From Stdlib Require Import ZArith NArith List Lia Permutation.
From stdpp Require Import base decidable list gmap.
From S2P Require Import Prelude Str Unicode ConfigSources.

(** * Where the pattern [\$\{([^}]+)\}] matches *)

(** The body of the placeholder at the front of a text, and what is behind
    it. *)
Definition placeholder_here (s : str) : option (str * str) :=
  rest ← strip_prefix (lit "${") s;
  let '(inner, rest) := span (fun c => negb (c =? 125)%N) rest in
  match rest with
  | _ :: rest => if bool_decide (inner = []) then None else Some (inner, rest)
  | [] => None
  end.

(** [captures_iter]: the text cut into characters outside placeholders and the
    bodies of placeholders; every turn moves at least one character on. *)
Fixpoint captures (fuel : nat) (s : str) : list (char + str) :=
  match fuel, s with
  | S n, c :: s' =>
      match placeholder_here s with
      | Some (inner, rest) => inr inner :: captures n rest
      | None => inl c :: captures n s'
      end
  | _, _ => []
  end.

Definition pieces (value : str) : list (char + str) := captures (List.length value) value.

(** [format!("FIREFLY_{}", …)]. *)
Definition env_key `{Uppercase} (key : str) : str :=
  let base := default key (strip_prefix (lit "firefly.") key) in
  lit "FIREFLY_" ++ replace_char (chr "-") (lit "_") (replace_char (chr ".") (lit "_") (to_uppercase base)).

Definition MAX_DEPTH : nat := 10.

Section Resolve.
Context `{Lowercase} `{Uppercase}.
(** [std::env::var], when it is [Ok]. *)
Context (env : str -> option str) (flat : gmap str str).

(** One reference, over the resolution of the values it refers to. *)
Definition resolve_one (resolve : str -> Result str ConfigError) (inner : str) : Result str ConfigError :=
  let '(ref_key, default_) := match split_once 58%N inner with
                              | Some (key, d) => (key, Some d)
                              | None => (inner, None)
                              end in
  match env ref_key with
  | Some v => Ok v
  | None =>
      match env (env_key ref_key) with
      | Some v => Ok v
      | None =>
          match flat !! normalize_key ref_key with
          | Some referenced => if str_contains (lit "${") referenced then resolve referenced else Ok referenced
          | None => match default_ with Some d => Ok d | None => Err (Unresolved inner) end
          end
      end
  end.

Fixpoint resolve_pieces (resolve : str -> Result str ConfigError) (ps : list (char + str)) : Result str ConfigError :=
  match ps with
  | [] => Ok []
  | inl c :: ps => rest <-? resolve_pieces resolve ps; Ok (c :: rest)
  | inr inner :: ps =>
      v <-? resolve_one resolve inner;
      rest <-? resolve_pieces resolve ps; Ok (v ++ rest)
  end.

(** [resolve_value] at depth [MAX_DEPTH + 1 - room]. *)
Fixpoint resolve_value (room : nat) (value : str) : Result str ConfigError :=
  match room with
  | O => Err (TooDeep value)
  | S room => resolve_pieces (resolve_value room) (pieces value)
  end.

Definition resolve_entry (value : str) : Result str ConfigError :=
  if str_contains (lit "${") value then resolve_value (S MAX_DEPTH) value else Ok value.

Fixpoint resolve_entries (l : list (str * str)) (out : gmap str str) : Result (gmap str str) ConfigError :=
  match l with
  | [] => Ok out
  | (key, value) :: l => v <-? resolve_entry value; resolve_entries l (<[key := v]> out)
  end.

Definition resolve_placeholders `{HashOrder} : Result (gmap str str) ConfigError := resolve_entries (entries flat) ∅.

(** * What placeholders mean *)

(** The precedence of a reference: the variable as written, the variable of its
    relaxed name, the configuration, the default. *)
Inductive refers : str -> str + str -> Prop :=
| refers_env inner v : env (fst (default (inner, []) (split_once 58%N inner))) = Some v -> refers inner (inl v)
| refers_relaxed inner k v :
    k = fst (default (inner, []) (split_once 58%N inner)) ->
    env k = None -> env (env_key k) = Some v -> refers inner (inl v)
| refers_config inner k v :
    k = fst (default (inner, []) (split_once 58%N inner)) ->
    env k = None -> env (env_key k) = None -> flat !! normalize_key k = Some v -> refers inner (inr v)
| refers_default inner k d : split_once 58%N inner = Some (k, d) ->
    env k = None -> env (env_key k) = None -> flat !! normalize_key k = None -> refers inner (inl d).

(** [means n value text]: the value stands for the text, references being
    followed at most [n] deep. A text found outside the configuration is taken
    as it is. *)
Inductive means : nat -> str -> str -> Prop :=
| means_plain n value : str_contains (lit "${") value = false -> means n value value
| means_pieces n value text : str_contains (lit "${") value = true ->
    means_all n (pieces value) text -> means (S n) value text
with means_all : nat -> list (char + str) -> str -> Prop :=
| all_nil n : means_all n [] []
| all_char n c ps text : means_all n ps text -> means_all n (inl c :: ps) (c :: text)
| all_found n inner ps v text : refers inner (inl v) -> means_all n ps text ->
    means_all n (inr inner :: ps) (v ++ text)
| all_ref n inner ps value v text : refers inner (inr value) -> means n value v -> means_all n ps text ->
    means_all n (inr inner :: ps) (v ++ text).

Scheme means_ind' := Induction for means Sort Prop
with means_all_ind' := Induction for means_all Sort Prop.

(** The resolution of a value as a reference leads to it. *)
Definition follow (n : nat) (value : str) : Result str ConfigError :=
  if str_contains (lit "${") value then resolve_value n value else Ok value.

Ltac by_rule R :=
  inversion R; subst;
  repeat match goal with E : split_once ?c ?i = _, H : context [split_once ?c ?i] |- _ => rewrite E in H end;
  simplify_eq/=; congruence.

(** A reference is resolved by the rule that applies. *)
Lemma resolve_one_spec resolve inner :
  (exists v, refers inner (inl v) /\ resolve_one resolve inner = Ok v) \/
  (exists value, refers inner (inr value) /\
     resolve_one resolve inner = if str_contains (lit "${") value then resolve value else Ok value) \/
  (resolve_one resolve inner = Err (Unresolved inner) /\ forall r, ~ refers inner r).
Proof.
  unfold resolve_one. destruct (split_once 58%N inner) as [[k d]|] eqn:E.
  - destruct (env k) as [v|] eqn:E1.
    { left. exists v. split; [|done]. apply refers_env. by rewrite E. }
    destruct (env (env_key k)) as [v|] eqn:E2.
    { left. exists v. split; [|done]. eapply refers_relaxed; [by rewrite E|done..]. }
    destruct (flat !! normalize_key k) as [value|] eqn:E3.
    { right. left. exists value. split; [|done]. eapply refers_config; [by rewrite E|done..]. }
    left. exists d. split; [|done]. by eapply refers_default.
  - destruct (env inner) as [v|] eqn:E1.
    { left. exists v. split; [|done]. apply refers_env. by rewrite E. }
    destruct (env (env_key inner)) as [v|] eqn:E2.
    { left. exists v. split; [|done]. eapply refers_relaxed; [by rewrite E|done..]. }
    destruct (flat !! normalize_key inner) as [value|] eqn:E3.
    { right. left. exists value. split; [|done]. eapply refers_config; [by rewrite E|done..]. }
    right. right. split; [done|]. intros r R. by_rule R.
Qed.

(** Only one rule applies. *)
Lemma refers_functional inner r1 r2 : refers inner r1 -> refers inner r2 -> r1 = r2.
Proof.
  intros R1 R2. destruct (split_once 58%N inner) as [[? ?]|] eqn:E; inversion R1; inversion R2; subst;
    repeat match goal with H : context [split_once 58%N inner] |- _ => rewrite E in H end; simplify_eq/=; congruence.
Qed.

(** What is computed is what is meant, level by level. *)
Lemma pieces_sound n : (forall value text, follow n value = Ok text -> means n value text) ->
  forall ps text, resolve_pieces (resolve_value n) ps = Ok text -> means_all n ps text.
Proof.
  intros Z ps. induction ps as [|[c|inner] ps IH]; intros text; cbn [resolve_pieces].
  - intros [= <-]. constructor.
  - intros (rest & R & [= <-])%result_bind_ok. constructor. auto.
  - intros (v & R & (rest & R' & [= <-])%result_bind_ok)%result_bind_ok.
    destruct (resolve_one_spec (resolve_value n) inner) as [(v' & F & E)|[(value & F & E)|[E _]]]; [| |congruence].
    + replace v with v' by congruence. apply all_found; auto.
    + eapply all_ref; [exact F| |by auto]. apply Z. unfold follow. congruence.
Qed.

Lemma follow_sound n value text : follow n value = Ok text -> means n value text.
Proof.
  revert value text. induction n as [|n IH]; intros value text; unfold follow;
    destruct (str_contains (lit "${") value) eqn:C; try done; try (intros [= <-]; by constructor).
  intros R. constructor; [done|]. by apply pieces_sound.
Qed.

Lemma resolve_found resolve inner v : refers inner (inl v) -> resolve_one resolve inner = Ok v.
Proof.
  intros F. destruct (resolve_one_spec resolve inner) as [(v' & F' & E)|[(value & F' & E)|[_ N]]].
  - rewrite E. by injection (refers_functional _ _ _ F F') as ->.
  - by pose proof (refers_functional _ _ _ F F').
  - by destruct (N _ F).
Qed.

Lemma resolve_ref resolve inner value : refers inner (inr value) ->
  resolve_one resolve inner = if str_contains (lit "${") value then resolve value else Ok value.
Proof.
  intros F. destruct (resolve_one_spec resolve inner) as [(v' & F' & E)|[(value' & F' & E)|[_ N]]].
  - by pose proof (refers_functional _ _ _ F F').
  - rewrite E. by injection (refers_functional _ _ _ F F') as ->.
  - by destruct (N _ F).
Qed.

Lemma follow_complete n value text : means n value text -> follow n value = Ok text.
Proof.
  intros M. induction M using means_ind'
    with (P0 := fun n ps text _ => resolve_pieces (resolve_value n) ps = Ok text).
  - unfold follow. by rewrite e.
  - unfold follow. by rewrite e.
  - done.
  - simpl. by rewrite IHM.
  - cbn [resolve_pieces]. rewrite (resolve_found _ _ _ r). simpl. by rewrite IHM.
  - cbn [resolve_pieces]. rewrite (resolve_ref _ _ _ r). unfold follow in IHM. rewrite IHM. simpl. by rewrite IHM0.
Qed.

Lemma resolve_entry_spec value text : resolve_entry value = Ok text <-> means (S MAX_DEPTH) value text.
Proof. split; [apply follow_sound|apply follow_complete]. Qed.

Lemma resolve_entries_spec l out m : NoDup l.*1 ->
  resolve_entries l out = Ok m <->
  (forall k value, (k, value) ∈ l -> exists text, m !! k = Some text /\ means (S MAX_DEPTH) value text) /\
  (forall k, k ∉ l.*1 -> m !! k = out !! k).
Proof.
  revert out. induction l as [|[k value] l IH]; intros out ND; cbn [resolve_entries].
  - split.
    + intros [= <-]. split; [by intros ? ? ?%elem_of_nil|done].
    + intros [_ E]. f_equal. apply map_eq. intros k. rewrite E; [done|apply not_elem_of_nil].
  - apply NoDup_cons in ND as [N ND]. split.
    + intros (v & R%resolve_entry_spec & Rest)%result_bind_ok. apply (IH _ ND) in Rest as [A B]. split.
      * intros k' value' [[= -> ->]|I]%elem_of_cons; [|by apply A].
        exists v. split; [|done]. rewrite B by done. apply lookup_insert_eq.
      * intros k' [N1 N2]%not_elem_of_cons. rewrite B by done. by apply lookup_insert_ne.
    + intros [A B]. destruct (A k value ltac:(left)) as (text & L & M).
      rewrite (proj2 (resolve_entry_spec value text) M). cbn [result_bind]. apply (IH _ ND). split.
      * intros k' value' I. apply A. by right.
      * intros k' N'. destruct (decide (k' = k)) as [->|D]; [by rewrite L, lookup_insert_eq|].
        rewrite lookup_insert_ne by done. apply B. by apply not_elem_of_cons.
Qed.
End Resolve.

(** C31 Resolution of a configuration succeeds exactly when every value has a
    meaning under the rules of precedence with references no more than ten
    deep, and each key is then given that meaning; the order in which the map
    is walked makes no difference. In particular a circular reference is an
    error, since no finite reading of it exists. *)
Theorem placeholders_resolve `{Lowercase} `{Uppercase} `{HashOrder} (env : str -> option str) (flat m : gmap str str) :
  resolve_placeholders env flat = Ok m <->
  dom m = dom flat /\
  forall k value, flat !! k = Some value -> exists text, m !! k = Some text /\ means env flat (S MAX_DEPTH) value text.
Proof.
  unfold resolve_placeholders.
  assert (NoDup (entries flat).*1) as ND by (rewrite (entries_perm flat); apply NoDup_fst_map_to_list).
  assert (forall k, k ∈ (entries flat).*1 <-> k ∈ dom flat) as D.
  { intros k. rewrite (entries_perm flat). rewrite elem_of_dom. split.
    - intros ([k' v] & -> & I%elem_of_map_to_list)%list_elem_of_fmap. by exists v.
    - intros [v L]. apply list_elem_of_fmap. exists (k, v). split; [done|]. by apply elem_of_map_to_list. }
  rewrite resolve_entries_spec by done. split.
  - intros [A B]. split.
    + apply set_eq. intros k. rewrite <- D. split.
      * intros I. apply elem_of_dom in I as [v L]. destruct (decide (k ∈ (entries flat).*1)); [done|].
        rewrite B in L by done. by rewrite lookup_empty in L.
      * intros ([k' v] & -> & I)%list_elem_of_fmap. destruct (A _ _ I) as (t & L & _). apply elem_of_dom. by exists t.
    + intros k value L. apply A. by apply entries_elem.
  - intros [E A]. split.
    + intros k value I%entries_elem. by apply A.
    + intros k N. rewrite lookup_empty. apply not_elem_of_dom. rewrite E. by rewrite <- D.
Qed.

(** * Concrete inputs *)

#[local] Existing Instances ascii_lowercase ascii_uppercase in_key_order.

Definition no_env (name : str) : option str := None.

Definition greeting : gmap str str :=
  <[lit "base" := lit "localhost"]> (<[lit "host" := lit "${base}"]> {[lit "url" := lit "http://${host}:${port:80}"]}).

Example greeting_resolved : resolve_placeholders no_env greeting =
  Ok (<[lit "base" := lit "localhost"]> (<[lit "host" := lit "localhost"]> {[lit "url" := lit "http://localhost:80"]})).
Proof. vm_compute. reflexivity. Qed.

Lemma placeholders_resolve_witness :
  exists text, means no_env greeting (S MAX_DEPTH) (lit "http://${host}:${port:80}") text.
Proof.
  destruct (proj2 (proj1 (placeholders_resolve no_env greeting _) greeting_resolved)
              (lit "url") (lit "http://${host}:${port:80}") ltac:(vm_compute; reflexivity)) as (text & _ & M).
  by exists text.
Defined.

Example circular : is_err (resolve_placeholders no_env (<[lit "a" := lit "${b}"]> {[lit "b" := lit "${a}"]})) = true.
Proof. vm_compute. reflexivity. Qed.
