(* ===== verification/Binder.v ===== *)
(** Binding and reloading: [crates/config], [binder.rs], [reload.rs] and the
    flattening of [client.rs].

    The target type drives the decoding. A type is a value of [Ty], as a
    derived [Deserialize] presents it to the binder; a decoded value is a
    [Val]. *)
From Stdlib Require Import Ascii String.
From Stdlib Require Import ZArith NArith List Lia Permutation.
From stdpp Require Import base decidable list gmap.
From S2P Require Import Prelude Str Unicode Order ConfigSources Placeholders.

(** * Target types *)

Inductive Ty : Type :=
| TString
| TBool
| TInt (signed : bool) (bits : Z)
| TFloat
| TChar
| TUnit
| TEnum (variants : list str)
| TOption (t : Ty)
| TNewtype (t : Ty)
| TSeq (t : Ty)
| TMap (t : Ty)
| TStruct (fields : list (str * Ty)).

Inductive Val : Type :=
| VString (s : str)
| VBool (b : bool)
| VInt (n : Z)
| VFloat (x : f64)
| VChar (c : char)
| VUnit
| VEnum (variant : str)
| VOption (v : option Val)
| VSeq (l : list Val)
| VMap (l : list (str * Val))
| VStruct (l : list (str * Val)).

(** What kind of parse failure a message reports. *)
Definition invalid_int : str := lit "invalid integer".
Definition invalid_float : str := lit "invalid float".
Definition invalid_bool (raw : str) : str := lit "invalid bool " ++ raw.
Definition invalid_char (raw : str) : str := lit "invalid char " ++ raw.

(** * Scalars *)

Definition parse_go_bool (raw : str) : option bool :=
  if bool_decide (raw ∈ map lit ["1"; "t"; "T"; "true"; "TRUE"; "True"]%string) then Some true
  else if bool_decide (raw ∈ map lit ["0"; "f"; "F"; "false"; "FALSE"; "False"]%string) then Some false
  else None.

Definition int_min (signed : bool) (bits : Z) : Z := if signed then - 2 ^ (bits - 1) else 0.
Definition int_max (signed : bool) (bits : Z) : Z := if signed then 2 ^ (bits - 1) - 1 else 2 ^ bits - 1.

(** [raw.parse::<iN>()] and [raw.parse::<uN>()]: a sign may be in front, a
    minus sign only for the signed types. *)
Definition parse_int (signed : bool) (bits : Z) (raw : str) : option Z :=
  let z := match raw with
           | c :: s =>
               if (c =? 45)%N && signed then Z.opp <$> parse_unsigned s
               else if (c =? 43)%N then parse_unsigned s
               else parse_unsigned raw
           | [] => None
           end in
  match z with
  | Some z => if (int_min signed bits <=? z) && (z <=? int_max signed bits) then Some z else None
  | None => None
  end.

Section Binder.
(** [str::parse::<f64>]. *)
Context (parse_f64 : str -> option f64).

Definition unsupported (key : str) : ConfigError := Bind key (lit "unsupported nested kind in scalar position").

(** [Leaf]: one raw text, or its absence, as the requested kind. *)
Fixpoint leaf (t : Ty) (raw : option str) (key : str) : Result Val ConfigError :=
  match t with
  | TString => Ok (VString (default [] raw))
  | TBool =>
      match raw with
      | None => Ok (VBool false)
      | Some raw => b <-? ok_or (parse_go_bool raw) (Bind key (invalid_bool raw)); Ok (VBool b)
      end
  | TInt signed bits =>
      match raw with
      | None => Ok (VInt 0)
      | Some raw => n <-? ok_or (parse_int signed bits raw) (Bind key invalid_int); Ok (VInt n)
      end
  | TFloat =>
      match raw with
      | None => Ok (VFloat (f64_of_Z 0))
      | Some raw => x <-? ok_or (parse_f64 raw) (Bind key invalid_float); Ok (VFloat x)
      end
  | TChar =>
      match raw with
      | None => Ok (VChar 0%N)
      | Some [c] => Ok (VChar c)
      | Some raw => Err (Bind key (invalid_char raw))
      end
  | TUnit => Ok VUnit
  | TEnum variants =>
      match raw with
      | None => Err (Bind key (lit "missing value for enum"))
      | Some raw =>
          if bool_decide (raw ∈ variants) then Ok (VEnum raw) else Err (Message (lit "unknown variant " ++ raw))
      end
  | TOption t =>
      match raw with
      | None => Ok (VOption None)
      | Some _ => v <-? leaf t raw key; Ok (VOption (Some v))
      end
  | TNewtype t => leaf t raw key
  | TSeq _ | TMap _ | TStruct _ => Err (unsupported key)
  end.

(** A fold that stops at the first error. *)
Fixpoint bind_all {A B} (f : A -> Result B ConfigError) (l : list A) : Result (list B) ConfigError :=
  match l with
  | [] => Ok []
  | x :: l => y <-? f x; ys <-? bind_all f l; Ok (y :: ys)
  end.

(** [StructAccess]: every declared field in order. *)
Definition bind_fields (bind_field : Ty -> str -> Result Val ConfigError)
  : list (str * Ty) -> Result (list (str * Val)) ConfigError :=
  fix go fields :=
    match fields with
    | [] => Ok []
    | (name, t) :: fields => v <-? bind_field t name; vs <-? go fields; Ok ((name, v) :: vs)
    end.

Section Flat.
Context `{Lowercase} (flat : gmap str str).

Definition join_key (prefix segment : str) : str :=
  let segment := normalize_key segment in
  if bool_decide (prefix = []) then segment else prefix ++ lit "." ++ segment.

Definition has_children (prefix : str) : bool :=
  if bool_decide (prefix = []) then negb (bool_decide (flat = ∅))
  else existsb (fun kv => starts_with (prefix ++ lit ".") (fst kv)) (map_to_list flat).

(** [raw.split(',')], each part trimmed; nothing when the key is missing. *)
Definition seq_parts (prefix : str) : list str :=
  match flat !! prefix with None => [] | Some raw => map trim (split 44%N raw) end.

(** The immediate child segments under the prefix, sorted, without repeats. *)
Definition child_segments (prefix : str) : list str :=
  let dot := if bool_decide (prefix = []) then [] else prefix ++ lit "." in
  let segments := omap (fun kv =>
    rest ← strip_prefix dot (fst kv);
    segment ← head (split 46%N rest);
    if bool_decide (segment = []) then None else Some segment) (map_to_list flat) in
  sort_by str_compare (elements (list_to_set segments : gset str)).

(** [FlatDeserializer], positioned at a dotted path. *)
Fixpoint bind_at (t : Ty) (prefix : str) : Result Val ConfigError :=
  match t with
  | TOption t' =>
      if bool_decide (is_Some (flat !! prefix)) || has_children prefix
      then v <-? bind_at t' prefix; Ok (VOption (Some v))
      else Ok (VOption None)
  | TUnit => Ok VUnit
  | TNewtype t' => bind_at t' prefix
  | TSeq t' => vs <-? bind_all (fun part => leaf t' (Some part) prefix) (seq_parts prefix); Ok (VSeq vs)
  | TMap t' =>
      vs <-? bind_all (fun segment => v <-? bind_at t' (join_key prefix segment); Ok (segment, v)) (child_segments prefix);
      Ok (VMap vs)
  | TStruct fields =>
      vs <-? bind_fields (fun t' name => bind_at t' (join_key prefix name)) fields; Ok (VStruct vs)
  | _ => leaf t (flat !! prefix) prefix
  end.

Definition bind_flat (t : Ty) : Result Val ConfigError := bind_at t [].
End Flat.

Section Load.
Context `{Lowercase} `{Uppercase} `{HashOrder} (env : str -> option str).

Definition has_upper (k : str) : bool := existsb is_upper k.

Definition bind (t : Ty) (flat : gmap str str) : Result Val ConfigError :=
  let needs_normalize := existsb (fun kv => contains 45%N (fst kv) || has_upper (fst kv)) (map_to_list flat) in
  let needs_resolve := existsb (fun kv => str_contains (lit "${") (snd kv)) (map_to_list flat) in
  if negb needs_normalize && negb needs_resolve then bind_flat flat t
  else
    let normalized := if needs_normalize then merge_entries (entries flat) ∅ else flat in
    resolved <-? (if needs_resolve then resolve_placeholders env normalized else Ok normalized);
    bind_flat resolved t.

Definition load (t : Ty) (sources : list Source) : Result Val ConfigError :=
  flat <-? merge sources; bind t flat.

(** * Reloading *)

(** The snapshot readers see, and the flat map it was bound from. *)
Record Reloadable : Type := mkReloadable { snapshot : Val; r_flat : gmap str str }.

Definition merged_resolved (sources : list Source) : Result (gmap str str) ConfigError :=
  flat <-? merge sources; resolve_placeholders env flat.

(** [ReloadableConfig::load]. *)
Definition reloadable_load (t : Ty) (sources : list Source) : Result Reloadable ConfigError :=
  flat <-? merged_resolved sources; value <-? bind t flat; Ok (mkReloadable value flat).

Definition top_segment (key : str) : str := default key (head (split 46%N key)).

Definition changed_top_level_keys (old new : gmap str str) : list str :=
  let keys := (map_to_list old).*1 ++ (map_to_list new).*1 in
  let changed := map top_segment (List.filter (fun k => negb (bool_decide (old !! k = new !! k))) keys) in
  sort_by str_compare (elements (list_to_set changed : gset str)).

(** [reload], under the lock: the sources as they are now. *)
Definition reload (t : Ty) (sources : list Source) (r : Reloadable) : Result (list str) ConfigError * Reloadable :=
  match merged_resolved sources with
  | Err e => (Err e, r)
  | Ok new_flat =>
      match bind t new_flat with
      | Err e => (Err e, r)
      | Ok value => (Ok (changed_top_level_keys (r_flat r) new_flat), mkReloadable value new_flat)
      end
  end.

(** [reload_and_publish]; [publish] hands the event to the bus. *)
Definition reload_and_publish {B} (publish : list str -> B -> B) (t : Ty) (sources : list Source) (r : Reloadable) (bus : B)
  : Result (list str) ConfigError * Reloadable * B :=
  match reload t sources r with
  | (Ok changed, r) => (Ok changed, r, publish changed bus)
  | (Err e, r) => (Err e, r, bus)
  end.
End Load.
End Binder.

(** * Theorems: what a value is written as binds back to it *)

(** The text of a scalar; an integer may be too large for the type, a variant
    not one of its own. *)
Fixpoint scalar_text (t : Ty) (v : Val) : option str :=
  match t, v with
  | TString, VString s => Some s
  | TBool, VBool b => Some (if b then lit "true" else lit "false")
  | TInt _ _, VInt n => Some (if n <? 0 then lit "-" ++ show (- n) else show n)
  | TChar, VChar c => Some [c]
  | TEnum _, VEnum x => Some x
  | TNewtype t, v => scalar_text t v
  | _, _ => None
  end.

(** What is wrong with a value that has a text: the first integer out of its
    type's range, or variant that is none. *)
Fixpoint scalar_error (t : Ty) (v : Val) (key : str) : option ConfigError :=
  match t, v with
  | TInt signed bits, VInt n =>
      if (int_min signed bits <=? n) && (n <=? int_max signed bits) then None else Some (Bind key invalid_int)
  | TEnum variants, VEnum x => if bool_decide (x ∈ variants) then None else Some (Message (lit "unknown variant " ++ x))
  | TNewtype t, v => scalar_error t v key
  | _, _ => None
  end.
Definition first_error {A} (f : A -> option ConfigError) (l : list A) : option ConfigError := head (omap f l).
Definition fields_error (error : Ty -> str -> Val -> option ConfigError) : list (str * Ty) -> list (str * Val) -> option ConfigError :=
  fix go fields vs :=
    match fields, vs with
    | (name, t) :: fields, (_, v) :: vs => match error t name v with Some e => Some e | None => go fields vs end
    | _, _ => None
    end.
Definition outcome {A} (e : option ConfigError) (v : A) : Result A ConfigError := match e with Some e => Err e | None => Ok v end.

(** An item of a sequence: one that survives splitting and trimming. *)
Definition item_text (t : Ty) (v : Val) : option str :=
  s ← scalar_text t v;
  if negb (contains 44%N s) && str_eqb (trim s) s then Some s else None.

Definition collect {A B} (f : A -> option B) (l : list A) : option (list B) :=
  foldr (fun x ys => y ← f x; ys ← ys; Some (y :: ys)) (Some []) l.

(** Keys without hyphens and capitals are not normalized; field names that are
    their own relaxed form. *)
Definition plain_key (k : str) : bool := negb (contains 45%N k || has_upper k).
Definition name_ok `{Lowercase} (name : str) : bool :=
  negb (bool_decide (name = [])) && negb (contains 46%N name) && plain_key name && str_eqb (normalize_key name) name.

Section Render.
Context `{Lowercase}.

(** The fields of a record, under distinct names. *)
Definition render_fields (render_field : Ty -> str -> Val -> option (list (str * str)))
  : list (str * Ty) -> list (str * Val) -> option (list (str * str)) :=
  fix go fields vs :=
    match fields, vs with
    | [], [] => Some []
    | (name, t) :: fields, (name', v) :: vs =>
        if str_eqb name name' && name_ok name && negb (bool_decide (name ∈ fields.*1)) then
          es ← render_field t name v; rest ← go fields vs; Some (es ++ rest)
        else None
    | _, _ => None
    end.

(** The entries a value of the type is written as, under the prefix. *)
Fixpoint render (t : Ty) (prefix : str) (v : Val) : option (list (str * str)) :=
  match t, v with
  | TUnit, VUnit => Some []
  | TOption t, VOption None => Some []
  | TOption t, VOption (Some v) =>
      es ← render t prefix v; if bool_decide (es = []) then None else Some es
  | TNewtype t, v => render t prefix v
  | TSeq t, VSeq ((_ :: _) as l) => ts ← collect (item_text t) l; Some [(prefix, join (lit ",") ts)]
  | TStruct fields, VStruct vs =>
      render_fields (fun t name v => render t (join_key prefix name) v) fields vs
  | t, v => s ← scalar_text t v; Some [(prefix, s)]
  end.

Fixpoint value_error (t : Ty) (prefix : str) (v : Val) : option ConfigError :=
  match t, v with
  | TOption t, VOption (Some v) => value_error t prefix v
  | TNewtype t, v => value_error t prefix v
  | TSeq t, VSeq l => first_error (fun v => scalar_error t v prefix) l
  | TStruct fields, VStruct vs => fields_error (fun t name v => value_error t (join_key prefix name) v) fields vs
  | t, v => scalar_error t v prefix
  end.

(** The keys at the prefix and below it. *)
Definition under (prefix k : str) : Prop := prefix = [] \/ k = prefix \/ exists r, k = prefix ++ lit "." ++ r.

Lemma join_key_name prefix name : name_ok name = true ->
  join_key prefix name = if bool_decide (prefix = []) then name else prefix ++ lit "." ++ name.
Proof. intros [_ E]%andb_true_iff. apply bool_decide_eq_true in E. unfold join_key. by rewrite E. Qed.

Lemma name_facts name : name_ok name = true -> name <> [] /\ ~ List.In 46%N name.
Proof.
  unfold name_ok. rewrite !andb_true_iff, !negb_true_iff. intros [[[N D] _] _].
  split; [by apply bool_decide_eq_false in N|by apply contains_false].
Qed.

Lemma join_key_nonempty prefix name : name_ok name = true -> join_key prefix name <> [].
Proof.
  intros O. rewrite join_key_name by done. destruct (name_facts name O) as [N _].
  destruct (bool_decide_reflect (prefix = [])); [done|]. by destruct prefix.
Qed.

Lemma under_join prefix name k : name_ok name = true -> under (join_key prefix name) k -> under prefix k.
Proof.
  intros O U. pose proof (join_key_nonempty prefix name O) as NE. rewrite join_key_name in * by done.
  destruct (bool_decide_reflect (prefix = [])) as [->|N]; [by left|]. right. right.
  destruct U as [E|[->|[r ->]]]; [done| |].
  - by exists name.
  - exists (name ++ lit "." ++ r). by rewrite <- !app_assoc.
Qed.

(** Two fields have nothing below them in common. *)
Lemma under_apart prefix a b k : name_ok a = true -> name_ok b = true ->
  under (join_key prefix a) k -> under (join_key prefix b) k -> a = b.
Proof.
  intros A B UA UB.
  assert (forall n : str, name_ok n = true -> under (join_key prefix n) k ->
    exists r : str, k = (if bool_decide (prefix = []) then [] else prefix ++ lit ".") ++ n ++ r /\
              (r = [] \/ exists r', r = lit "." ++ r')) as F.
  { intros n O [E|U]; [by apply join_key_nonempty in E|]. rewrite join_key_name in U by done.
    destruct (bool_decide_reflect (prefix = [])) as [->|N], U as [->|[r ->]].
    - exists []. rewrite app_nil_r. auto.
    - exists (lit "." ++ r). eauto.
    - exists []. rewrite app_nil_r, <- app_assoc. auto.
    - exists (lit "." ++ r). rewrite <- !app_assoc. eauto. }
  destruct (F a A UA) as (ra & Ea & Ra), (F b B UB) as (rb & Eb & Rb). rewrite Ea in Eb.
  apply app_inv_head in Eb. clear F UA UB Ea.
  assert (forall n r : str, ~ List.In 46%N n -> r = [] \/ (exists r', r = lit "." ++ r') -> span (fun c => negb (c =? 46)%N) (n ++ r) = (n, r)) as Sp.
  { intros n r N R. apply span_app.
    - apply forallb_forall. intros c I. apply negb_true_iff, N.eqb_neq. intros ->. done.
    - destruct R as [->|[r' ->]]; [done|]. by intros c [= <-]. }
  pose proof (Sp a ra (proj2 (name_facts a A)) Ra) as Sa.
  rewrite Eb, (Sp b rb (proj2 (name_facts b B)) Rb) in Sa. congruence.
Qed.

(** ** Scalars *)

Lemma show_head n : 0 <= n -> exists c s, show n = c :: s /\ c <> 45%N /\ c <> 43%N.
Proof.
  intros N. pose proof (show_digits n N) as F. pose proof (show_nonempty n).
  destruct (show n) as [|c s]; [done|]. apply Forall_cons in F as [D _]. unfold is_digit in D.
  apply andb_true_iff in D as [D1%N.leb_le D2%N.leb_le]. exists c, s. split; [done|]. split; lia.
Qed.

Lemma parse_int_misfit signed bits n : (int_min signed bits <=? n) && (n <=? int_max signed bits) = false ->
  parse_int signed bits (if n <? 0 then lit "-" ++ show (- n) else show n) = None.
Proof.
  intros R. unfold parse_int. destruct (Z.ltb_spec n 0) as [Neg|Pos].
  - change (lit "-" ++ show (- n)) with (45%N :: show (- n)). destruct signed; [|done]. cbn [N.eqb Pos.eqb andb].
    rewrite parse_unsigned_show by lia. cbn [fmap option_fmap option_map]. by rewrite Z.opp_involutive, R.
  - destruct (show_head n Pos) as (c & s & E & N1 & N2). pose proof (parse_unsigned_show n Pos) as P.
    rewrite E in *. rewrite (proj2 (N.eqb_neq _ _) N1), (proj2 (N.eqb_neq _ _) N2). cbn [andb]. by rewrite P, R.
Qed.

Lemma parse_int_show signed bits n : int_min signed bits <= n <= int_max signed bits ->
  parse_int signed bits (if n <? 0 then lit "-" ++ show (- n) else show n) = Some n.
Proof.
  intros [L U]. assert ((int_min signed bits <=? n) && (n <=? int_max signed bits) = true) as R.
  { apply andb_true_iff. by rewrite !Z.leb_le. }
  unfold parse_int. destruct (Z.ltb_spec n 0) as [Neg|Pos].
  - assert (signed = true) as -> by (destruct signed; [done|unfold int_min in L; lia]).
    change (lit "-" ++ show (- n)) with (45%N :: show (- n)). cbn [N.eqb Pos.eqb andb].
    rewrite parse_unsigned_show by lia. cbn [fmap option_fmap option_map]. by rewrite Z.opp_involutive, R.
  - destruct (show_head n Pos) as (c & s & E & N1 & N2). pose proof (parse_unsigned_show n Pos) as P.
    rewrite E in *. rewrite (proj2 (N.eqb_neq _ _) N1), (proj2 (N.eqb_neq _ _) N2). cbn [andb]. by rewrite P, R.
Qed.

Lemma leaf_scalar pf t v s key : scalar_text t v = Some s -> leaf pf t (Some s) key = outcome (scalar_error t v key) v.
Proof.
  revert v. induction t; intros v; destruct v; simpl; try done; try apply IHt.
  - by intros [= ->].
  - intros [= <-]. by destruct b.
  - intros [= <-]. destruct (_ && _) eqn:R; [|by rewrite parse_int_misfit].
    apply andb_true_iff in R as [L%Z.leb_le U%Z.leb_le]. by rewrite parse_int_show.
  - by intros [= <-].
  - intros [= <-]. by destruct (bool_decide (variant ∈ variants)).
Qed.

Lemma Ty_nested_ind (P : Ty -> Prop) :
  P TString -> P TBool -> (forall signed bits, P (TInt signed bits)) -> P TFloat -> P TChar -> P TUnit ->
  (forall variants, P (TEnum variants)) -> (forall t, P t -> P (TOption t)) -> (forall t, P t -> P (TNewtype t)) ->
  (forall t, P t -> P (TSeq t)) -> (forall t, P t -> P (TMap t)) ->
  (forall fields, Forall (fun f => P (snd f)) fields -> P (TStruct fields)) -> forall t, P t.
Proof.
  intros HS HB HI HF HC HU HE HO HN HQ HM HT.
  fix IH 1. intros [| |signed bits| | | |variants|t|t|t|t|fields]; [done|done|apply HI|done|done|done|apply HE|..].
  - apply HO, IH.
  - apply HN, IH.
  - apply HQ, IH.
  - apply HM, IH.
  - apply HT. induction fields as [|f fields IHf]; constructor; [apply IH|exact IHf].
Qed.

Lemma plain_join prefix name : plain_key prefix = true -> name_ok name = true -> plain_key (join_key prefix name) = true.
Proof.
  intros P O. rewrite join_key_name by done. unfold name_ok in O. apply andb_true_iff in O as [[_ N]%andb_true_iff _].
  destruct (bool_decide_reflect (prefix = [])); [done|]. unfold plain_key, has_upper, contains in *.
  rewrite negb_true_iff, orb_false_iff in *. destruct P as [P1 P2], N as [N1 N2].
  rewrite !existsb_app, !orb_false_iff. repeat split; [exact P1|exact N1|exact P2|exact N2].
Qed.

(** What a value is written as lies at the prefix and below. *)
Definition stays_under (t : Ty) : Prop :=
  forall prefix v es, render t prefix v = Some es -> Forall (fun e => under prefix (fst e)) es.

Lemma fields_under (prefix : str) fields vs es : Forall (fun f => stays_under (snd f)) fields ->
  render_fields (fun t name v => render t (join_key prefix name) v) fields vs = Some es ->
  Forall (fun e => exists name, name ∈ fields.*1 /\ name_ok name = true /\ under (join_key prefix name) (fst e)) es.
Proof.
  intros F. revert vs es. induction F as [|[name t] fields Ft F IH]; intros [|[name' v] vs] es; simpl; try done.
  { by intros [= <-]. }
  destruct (str_eqb name name' && name_ok name && _) eqn:C; [|done].
  apply andb_true_iff in C as [[_ O]%andb_true_iff _].
  destruct (render t (join_key prefix name) v) as [es1|] eqn:R1; [|done]. simpl.
  destruct (render_fields _ fields vs) as [rest|] eqn:R2; [|done]. intros [= <-].
  apply Forall_app. split.
  - eapply Forall_impl; [exact (Ft _ _ _ R1)|]. intros e U. exists name. split; [left|done].
  - eapply Forall_impl; [exact (IH _ _ R2)|]. intros e (n & I & X). exists n. split; [by right|done].
Qed.

Lemma scalar_under t (prefix : str) v es : (s ← scalar_text t v; Some [(prefix, s)]) = Some es ->
  exists s, scalar_text t v = Some s /\ es = [(prefix, s)].
Proof. destruct (scalar_text t v) as [s|]; [|done]. intros [= <-]. by exists s. Qed.

Lemma render_under t : stays_under t.
Proof.
  assert (forall prefix s, Forall (fun e : str * str => under prefix (fst e)) [(prefix, s)]) as One.
  { intros prefix s. constructor; [right; by left|constructor]. }
  induction t as [| |signed bits| | | |variants|t IH|t IH|t IH|t IH|fields F] using Ty_nested_ind; intros prefix v es R.
  1-5,7: cbn [render] in R; apply scalar_under in R as (s & _ & ->); apply One.
  - destruct v; try done; by injection R as <-.
  - destruct v as [| | | | | | |[v|]| | |]; try done; cbn [render] in R.
    + destruct (render t prefix v) as [es'|] eqn:R'; [|done]. cbn [mbind option_bind] in R.
      destruct (bool_decide (es' = [])); [done|]. injection R as <-. by eapply IH.
    + by injection R as <-.
  - destruct v; by eapply IH.
  - destruct v as [| | | | | | | |[|v l]| |]; try done; cbn [render] in R.
    match type of R with context [collect ?f ?l] => destruct (collect f l) as [ts|] end; [|done].
    injection R as <-. apply One.
  - by destruct v.
  - destruct v; try done. apply (fields_under _ _ _ _ F) in R. eapply Forall_impl; [exact R|].
    intros e (name & _ & O & U). by eapply under_join.
Qed.

Context (pf : str -> option f64).

Lemma under_self prefix : under prefix prefix.
Proof. right. by left. Qed.

Lemma starts_with_spec p s : starts_with p s = true <-> exists r, s = p ++ r.
Proof.
  unfold starts_with. destruct (strip_prefix p s) as [r|] eqn:E.
  - split; [|done]. intros _. exists r. by apply strip_prefix_Some.
  - split; [done|]. intros [r ->]. by rewrite strip_prefix_app in E.
Qed.

(** It is written under plain keys. *)
Lemma render_plain t prefix v es : plain_key prefix = true -> render t prefix v = Some es ->
  Forall (fun e => plain_key (fst e) = true) es.
Proof.
  revert prefix v es.
  induction t as [| |signed bits| | | |variants|t IH|t IH|t IH|t IH|fields F] using Ty_nested_ind; intros prefix v es P R.
  1-5,7: cbn [render] in R; apply scalar_under in R as (s & _ & ->); by repeat constructor.
  - destruct v; try done; by injection R as <-.
  - destruct v as [| | | | | | |[v|]| | |]; try done; cbn [render] in R.
    + destruct (render t prefix v) as [es'|] eqn:R'; [|done]. cbn [mbind option_bind] in R.
      destruct (bool_decide (es' = [])); [done|]. injection R as <-. by eapply IH.
    + by injection R as <-.
  - destruct v; by eapply IH.
  - destruct v as [| | | | | | | |[|v l]| |]; try done; cbn [render] in R.
    match type of R with context [collect ?f ?l] => destruct (collect f l) as [ts|] end; [|done].
    injection R as <-. by repeat constructor.
  - by destruct v.
  - destruct v as [| | | | | | | | | |vs]; try done. cbn [render] in R. revert vs es R.
    induction F as [|[name t] fields Ft F IH]; intros [|[name' v] vs] es; simpl; try done; [by intros [= <-]|].
    destruct (str_eqb name name' && name_ok name && _) eqn:C; [|done]. apply andb_true_iff in C as [[_ O]%andb_true_iff _].
    destruct (render t (join_key prefix name) v) as [es1|] eqn:R1; [|done]. simpl.
    destruct (render_fields _ fields vs) as [rest|] eqn:R2; [|done]. intros [= <-]. apply Forall_app. split.
    + eapply Ft; [|exact R1]. by apply plain_join.
    + by apply (IH vs).
Qed.

(** There is a key at the prefix or below it. *)
Lemma present_spec (m : gmap str str) prefix :
  bool_decide (is_Some (m !! prefix)) || has_children m prefix = true <-> exists k, under prefix k /\ is_Some (m !! k).
Proof.
  rewrite orb_true_iff, bool_decide_eq_true. unfold has_children.
  destruct (bool_decide_reflect (prefix = [])) as [->|N].
  - rewrite negb_true_iff, bool_decide_eq_false. split.
    + intros [P|P]; [exists []; split; [by left|done]|]. apply map_choose in P as (k & v & L).
      exists k. split; [by left|by exists v].
    + intros (k & _ & P). right. intros ->. rewrite lookup_empty in P. by destruct P.
  - rewrite existsb_exists. split.
    + intros [P|([k v] & I & S)]; [exists prefix; split; [apply under_self|done]|].
      apply starts_with_spec in S as [r E]. apply list_elem_of_In, elem_of_map_to_list in I. exists k. split; [|by exists v].
      right. right. exists r. simpl in E. by rewrite E, <- app_assoc.
    + intros (k & [E|[->|[r ->]]] & [v L]); [done|left; by exists v|right].
      exists (prefix ++ lit "." ++ r, v). split; [by apply list_elem_of_In, elem_of_map_to_list|].
      apply starts_with_spec. exists r. by rewrite app_assoc.
Qed.

Lemma collect_items t l ts key : collect (item_text t) l = Some ts ->
  Forall (fun s => ~ List.In 44%N s) ts /\ map trim ts = ts /\
  bind_all (fun part => leaf pf t (Some part) key) ts = outcome (first_error (fun v => scalar_error t v key) l) l /\
  (l <> [] -> ts <> []).
Proof.
  revert ts. induction l as [|v l IH]; intros ts; cbn [collect foldr].
  { intros [= <-]. repeat split; [constructor|done]. }
  fold (collect (item_text t) l). destruct (item_text t v) as [s|] eqn:I; [|done]. cbn [mbind option_bind].
  destruct (collect (item_text t) l) as [ts'|]; [|done]. intros [= <-].
  destruct (IH ts' eq_refl) as (A & B & C & _). unfold item_text in I.
  destruct (scalar_text t v) as [s'|] eqn:S; [|done]. cbn [mbind option_bind] in I.
  destruct (negb (contains 44%N s') && str_eqb (trim s') s') eqn:K; [|done]. injection I as ->.
  apply andb_true_iff in K as [K1%negb_true_iff%contains_false K2%bool_decide_eq_true].
  split; [by constructor|]. split; [simpl; by rewrite K2, B|]. split; [|done].
  simpl. rewrite (leaf_scalar pf t v s key S), C. unfold first_error. cbn [omap list_omap].
  by destruct (scalar_error t v key); simpl; [|destruct (head _)].
Qed.

Definition reads (t : Ty) : Prop := forall prefix v es (m : gmap str str), render t prefix v = Some es ->
  (forall k, under prefix k -> m !! k = (list_to_map es : gmap str str) !! k) ->
  bind_at pf m t prefix = outcome (value_error t prefix v) v.

Lemma not_listed (k : str) (es : list (str * str)) (P : str -> Prop) :
  Forall (fun e => P (fst e)) es -> ~ P k -> (list_to_map es : gmap str str) !! k = None.
Proof.
  intros F N. apply not_elem_of_list_to_map_1. intros ([k' s] & -> & I)%list_elem_of_fmap.
  rewrite Forall_forall in F. apply N, (F _ I).
Qed.

Lemma fields_read prefix fields : Forall (fun f => reads (snd f)) fields ->
  forall vs es (m : gmap str str),
  render_fields (fun t name v => render t (join_key prefix name) v) fields vs = Some es ->
  (forall k name, name ∈ fields.*1 -> name_ok name = true -> under (join_key prefix name) k ->
     m !! k = (list_to_map es : gmap str str) !! k) ->
  bind_fields (fun t name => bind_at pf m t (join_key prefix name)) fields
  = outcome (fields_error (fun t name v => value_error t (join_key prefix name) v) fields vs) vs.
Proof.
  induction 1 as [|[name t] fields Ft F IH]; intros [|[name' v] vs] es m; simpl; try done.
  destruct (str_eqb name name' && name_ok name && _) eqn:C; [|done].
  apply andb_true_iff in C as [[E%bool_decide_eq_true O]%andb_true_iff Fr%negb_true_iff%bool_decide_eq_false]. subst name'.
  destruct (render t (join_key prefix name) v) as [es1|] eqn:R1; [|done]. cbn [mbind option_bind].
  destruct (render_fields _ fields vs) as [rest|] eqn:R2; [|done]. intros [= <-] A.
  rewrite ((Ft : reads t) _ _ _ m R1).
  - destruct (value_error t (join_key prefix name) v); [done|]. simpl.
    rewrite (IH vs rest m R2); [by destruct (fields_error _ fields vs)|]. intros k n I On U.
    rewrite (A k n) by (done || by right). rewrite list_to_map_app, lookup_union_r; [done|].
    apply (not_listed k es1 (under (join_key prefix name))); [by eapply render_under|].
    intros U'. apply Fr. by rewrite (under_apart prefix name n k).
  - intros k U. rewrite (A k name) by (done || left). rewrite list_to_map_app. apply lookup_union_l.
    apply (not_listed k rest (fun k => exists n, n ∈ fields.*1 /\ name_ok n = true /\ under (join_key prefix n) k)).
    + eapply fields_under; [|exact R2]. apply Forall_forall. intros f _. apply render_under.
    + intros (n & I & On & U'). apply Fr. by rewrite (under_apart prefix name n k).
Qed.

Lemma render_reads t : reads t.
Proof.
  assert (forall prefix s (m : gmap str str),
    (forall k, under prefix k -> m !! k = (list_to_map [(prefix, s)] : gmap str str) !! k) -> m !! prefix = Some s) as One.
  { intros prefix s m A. rewrite (A prefix (under_self prefix)). simpl. apply lookup_insert_eq. }
  induction t as [| |signed bits| | | |variants|t IH|t IH|t IH|t IH|fields F] using Ty_nested_ind; intros prefix v es m R A.
  1-5,7: cbn [render] in R; apply scalar_under in R as (s & S & ->); cbn [bind_at];
    rewrite (One prefix s m A); exact (leaf_scalar pf _ _ _ _ S).
  - by destruct v.
  - destruct v as [| | | | | | |[v|]| | |]; try done; cbn [render] in R; cbn [bind_at].
    + destruct (render t prefix v) as [es'|] eqn:R'; [|done]. cbn [mbind option_bind] in R.
      destruct (bool_decide_reflect (es' = [])) as [|N]; [done|]. injection R as <-.
      rewrite (proj2 (present_spec m prefix)); [rewrite (IH prefix v es' m R' A); cbn [value_error]; by destruct (value_error t prefix v)|].
      destruct es' as [|[k s] es']; [done|]. pose proof (render_under t prefix v _ R') as U.
      apply Forall_cons in U as [U _]. exists k. split; [done|]. rewrite (A k U). simpl. rewrite lookup_insert_eq. by eexists.
    + injection R as <-. assert (bool_decide (is_Some (m !! prefix)) || has_children m prefix = false) as ->; [|done].
      apply not_true_is_false. intros (k & U & [s L])%present_spec. rewrite (A k U) in L. done.
  - destruct v; by eapply IH.
  - destruct v as [| | | | | | | |[|v l]| |]; try done. cbn [bind_at].
    change (collect (item_text t) (v :: l) ≫= (fun ts => Some [(prefix, join (lit ",") ts)]) = Some es) in R.
    destruct (collect (item_text t) (v :: l)) as [ts|] eqn:C; [|done]. injection R as <-. destruct (collect_items t _ ts prefix C) as (N & T & B & NE). unfold seq_parts.
    rewrite (One prefix _ m A). change (lit ",") with [44%N]. rewrite split_join; [|by apply NE|done].
    rewrite T, B. cbn [value_error]. by destruct (first_error _ (v :: l)).
  - by destruct v.
  - destruct v as [| | | | | | | | | |vs]; try done. cbn [render] in R. cbn [bind_at].
    rewrite (fields_read prefix fields F vs es m R).
    + cbn [value_error]. by destruct (fields_error _ fields vs).
    + intros k name I O U. apply A. by eapply under_join.
Qed.
End Render.

(** A map of plain keys and texts without placeholders is bound as it is. *)
Lemma bind_plain `{Lowercase} `{Uppercase} `{HashOrder} parse_f64 env t (es : list (str * str)) :
  Forall (fun e => plain_key (fst e) = true) es -> Forall (fun e => str_contains (lit "${") (snd e) = false) es ->
  bind parse_f64 env t (list_to_map es) = bind_flat parse_f64 (list_to_map es) t.
Proof.
  intros K T. rewrite Forall_forall in K, T. unfold bind.
  assert (forall kv, In kv (map_to_list (list_to_map es : gmap str str)) -> kv ∈ es) as In.
  { intros [k v] I. apply list_elem_of_In, elem_of_map_to_list, elem_of_list_to_map_2 in I. exact I. }
  assert (existsb (fun kv => contains 45%N (fst kv) || has_upper (fst kv)) (map_to_list (list_to_map es : gmap str str)) = false) as ->.
  { apply not_true_is_false. intros (kv & I & E)%existsb_exists. apply In, K in I. unfold plain_key in I. by rewrite E in I. }
  assert (existsb (fun kv => str_contains (lit "${") (snd kv)) (map_to_list (list_to_map es : gmap str str)) = false) as ->; [|done].
  apply not_true_is_false. intros (kv & I & E)%existsb_exists. apply In, T in I. congruence.
Qed.

(** C33 Binding reads back what a value was written as, and refuses what does not
    fit: records of nested records, options, non-empty sequences, unit and
    scalars, each under its dotted path. If every integer is in the range of its
    type and every variant one of its type's, the binding is the value; otherwise
    it is the error of the first, in field order, that is not. The conditions of
    being written, by [render]: no floats and no maps; field names distinct, not
    empty, in their normal form and without dots, hyphens and capitals; sequences
    of scalars whose texts have no commas and no white space around them; what an
    option holds writes something. And no text holds [${], which would be
    resolved. *)
Theorem bind_round_trip `{Lowercase} `{Uppercase} `{HashOrder} (parse_f64 : str -> option f64) (env : str -> option str)
    (t : Ty) (v : Val) (es : list (str * str))
    (R : render t [] v = Some es) (T : Forall (fun e => str_contains (lit "${") (snd e) = false) es) :
  bind parse_f64 env t (list_to_map es) = outcome (value_error t [] v) v.
Proof. rewrite bind_plain; [|by apply (render_plain t [] v)|exact T]. by apply (render_reads parse_f64 t [] v es). Qed.

(** * Reloading *)

Lemma sorted_set_elem (x : str) (l : list str) :
  x ∈ sort_by str_compare (elements (list_to_set l : gset str)) <-> x ∈ l.
Proof. by rewrite (sort_by_permutation str_compare), elem_of_elements, elem_of_list_to_set. Qed.

(** The keys reported are the top segments of the entries that differ. *)
Lemma changed_keys_spec old new seg :
  seg ∈ changed_top_level_keys old new <-> exists k, top_segment k = seg /\ old !! k <> new !! k.
Proof.
  unfold changed_top_level_keys. rewrite sorted_set_elem, list_elem_of_fmap. split.
  - intros (k & -> & I). apply list_elem_of_In, filter_In in I as [_ D%negb_true_iff%bool_decide_eq_false]. by exists k.
  - intros (k & <- & D). exists k. split; [done|]. apply list_elem_of_In, filter_In.
    split; [|by apply negb_true_iff, bool_decide_eq_false]. apply list_elem_of_In, elem_of_app.
    destruct (old !! k) as [v|] eqn:L; [left|right; destruct (new !! k) as [v|] eqn:L'; [|done]];
      apply list_elem_of_fmap; exists (k, v); (split; [done|by apply elem_of_map_to_list]).
Qed.

(** A reload is all or nothing: when it fails, readers keep the snapshot
    and nothing is published; when it succeeds, the snapshot is the binding of
    the sources as they are now, and exactly the top-level keys under which an
    entry was added, removed or changed are reported and published. *)
Theorem reload_is_atomic `{Lowercase} `{Uppercase} `{HashOrder} {B} parse_f64 (env : str -> option str)
    (publish : list str -> B -> B) (t : Ty) (sources : list Source) (r : Reloadable) (bus : B) :
  match reload_and_publish parse_f64 env publish t sources r bus with
  | (Err _, r', bus') => r' = r /\ bus' = bus
  | (Ok changed, r', bus') =>
      bus' = publish changed bus /\
      merged_resolved env sources = Ok (r_flat r') /\ bind parse_f64 env t (r_flat r') = Ok (snapshot r') /\
      forall seg, seg ∈ changed <-> exists k, top_segment k = seg /\ r_flat r !! k <> r_flat r' !! k
  end.
Proof.
  unfold reload_and_publish, reload. destruct (merged_resolved env sources) as [flat|e] eqn:M; [|done].
  destruct (bind parse_f64 env t flat) as [v|e] eqn:V; [|done]. repeat split; try done; apply changed_keys_spec.
Qed.

(** * Concrete inputs *)

#[local] Existing Instances ascii_lowercase ascii_uppercase in_key_order.

Definition no_floats (raw : str) : option f64 := None.

Definition web_type : Ty :=
  TStruct [(lit "web", TStruct [(lit "port", TInt false 16); (lit "hosts", TSeq TString); (lit "tls", TOption TBool)]);
           (lit "level", TEnum [lit "info"; lit "debug"])].
Definition web_value_at (port : Z) : Val :=
  VStruct [(lit "web", VStruct [(lit "port", VInt port); (lit "hosts", VSeq [VString (lit "a"); VString (lit "b")]);
                                (lit "tls", VOption None)]);
           (lit "level", VEnum (lit "debug"))].
Definition web_entries (port : str) : list (str * str) :=
  [(lit "web.port", port); (lit "web.hosts", lit "a,b"); (lit "level", lit "debug")].

Lemma bind_round_trip_witness :
  bind no_floats (fun _ => None) web_type (list_to_map (web_entries (lit "8080"))) = Ok (web_value_at 8080) /\
  bind no_floats (fun _ => None) web_type (list_to_map (web_entries (lit "65536"))) = Err (Bind (lit "web.port") invalid_int).
Proof.
  split.
  - refine (eq_trans (bind_round_trip no_floats (fun _ => None) web_type (web_value_at 8080) (web_entries (lit "8080")) _ _) _);
      [vm_compute; reflexivity|by repeat constructor|vm_compute; reflexivity].
  - refine (eq_trans (bind_round_trip no_floats (fun _ => None) web_type (web_value_at 65536) (web_entries (lit "65536")) _ _) _);
      [vm_compute; reflexivity|by repeat constructor|vm_compute; reflexivity].
Defined.

(** Missing keys give zero values. *)
Example missing_is_zero : bind_flat no_floats ∅ (TStruct [(lit "port", TInt false 16)]) = Ok (VStruct [(lit "port", VInt 0)]).
Proof. vm_compute. reflexivity. Qed.

(** A placeholder in a text is resolved, so that text does not come back. *)
Example placeholder_is_resolved :
  bind no_floats (fun _ => None) (TStruct [(lit "name", TString)]) {[lit "name" := lit "${x:y}"]} = Ok (VStruct [(lit "name", VString (lit "y"))]).
Proof. vm_compute. reflexivity. Qed.

(** A key without a value is a sequence of one empty text. *)
Example empty_sequence : bind_flat no_floats {[lit "tags" := []]} (TStruct [(lit "tags", TSeq TString)])
  = Ok (VStruct [(lit "tags", VSeq [VString []])]).
Proof. vm_compute. reflexivity. Qed.

(** [load] takes a variable's text as it is; a reloadable configuration
    resolves it a second time. *)
Definition secret_env (name : str) : option str :=
  if str_eqb name (lit "TOKEN") then Some (lit "a${b}") else None.
Definition secret_sources : list Source := [static_source (lit "file") {[lit "key" := lit "${TOKEN}"]}].
Example resolved_twice :
  load no_floats secret_env (TStruct [(lit "key", TString)]) secret_sources = Ok (VStruct [(lit "key", VString (lit "a${b}"))]) /\
  reloadable_load no_floats secret_env (TStruct [(lit "key", TString)]) secret_sources = Err (Unresolved (lit "b")).
Proof. split; vm_compute; reflexivity. Qed.
