(* ===== verification/Registry.v ===== *)
(** The registry of named instances: [crates/resilience/src/registry.rs], and
    what the errors of [error.rs] tell a caller.

    The registry is read from the flat configuration: [kind.name.property]
    under one prefix, where dashes, underscores and case are spellings of one
    path. [None] is a panic: tokio's semaphore refuses a count above its
    bound that way. The readers of floats and of [humantime]'s durations are
    parameters. An [Arc] is the instance it points to, as it was built. *)
From Stdlib Require Import Ascii String.
From Stdlib Require Import ZArith NArith List Lia Permutation.
From stdpp Require Import base decidable list gmap option.
From S2P Require Import Prelude CircuitBreaker RateLimiter Retry Str Unicode Order ConfigSources Binder.
From S2P Require Condition.

(** * Errors *)

Definition is_circuit_open {E} (e : ResilienceError E) : bool := match e with CircuitOpen => true | _ => false end.
Definition is_rate_limited {E} (e : ResilienceError E) : bool := match e with RateLimited => true | _ => false end.
Definition is_bulkhead_full {E} (e : ResilienceError E) : bool := match e with BulkheadFull => true | _ => false end.
Definition is_timeout {E} (e : ResilienceError E) : bool := match e with Timeout => true | _ => false end.
Definition resilience_error_text {E} (inner : E -> str) (e : ResilienceError E) : str :=
  match e with
  | CircuitOpen => lit "firefly/resilience: circuit open"
  | RateLimited => lit "firefly/resilience: rate limited"
  | BulkheadFull => lit "firefly/resilience: bulkhead full"
  | Timeout => lit "firefly/resilience: timeout"
  | Operation e => inner e
  end.

Inductive RegistryError : Type :=
| NotRegistered (kind name available : str)
| InvalidDuration (raw : str)
| InvalidValue (key value reason : str)
| Misconfigured (e : ConfigError).

Definition registry_error_text (config_text : ConfigError -> str) (e : RegistryError) : str :=
  match e with
  | NotRegistered kind name available => lit "No " ++ kind ++ lit " named '" ++ name ++ lit "'. Available: " ++ available
  | InvalidDuration raw =>
      lit "Cannot parse duration '" ++ raw ++ lit "'; expected e.g. '5s', '500ms', '1m', '2h', or a number"
  | InvalidValue key value reason =>
      lit "invalid value '" ++ value ++ lit "' for config key '" ++ key ++ lit "': " ++ reason
  | Misconfigured e => config_text e
  end.

(** A result, or the panic on the way to it. *)
Definition Outcome (A : Type) : Type := option (Result A RegistryError).
Definition and_then {A B} (o : Outcome A) (k : A -> Outcome B) : Outcome B :=
  match o with Some (Ok a) => k a | Some (Err e) => Some (Err e) | None => None end.

(** * Durations *)

Section Durations.
Context (parse_f64 : str -> option f64) (humantime : str -> option Z).

Definition UNITS : list (str * f64) :=
  [(lit "ms", f64_div (f64_of_Z 1) (f64_of_Z 1000)); (lit "s", f64_of_Z 1); (lit "m", f64_of_Z 60); (lit "h", f64_of_Z 3600)].

(** The first unit whose suffix leaves a number. *)
Fixpoint in_units (units : list (str * f64)) (lower : str) : option f64 :=
  match units with
  | [] => None
  | (suffix, scale) :: units =>
      match strip_suffix suffix lower ≫= (fun number => parse_f64 (trim number)) with
      | Some value => Some (f64_mul value scale)
      | None => in_units units lower
      end
  end.

Definition parse_duration (raw : str) : Result Z RegistryError :=
  let trimmed := trim raw in
  ok_or
    match parse_f64 trimmed with
    | Some secs => try_from_secs_f64 secs
    | None =>
        match in_units UNITS (to_ascii_lowercase trimmed) with
        | Some secs => try_from_secs_f64 secs
        | None => humantime trimmed
        end
    end (InvalidDuration raw).
End Durations.

(** * The configuration of an instance *)

Abbreviation Params := (gmap str str) (only parsing).

Definition relaxed `{Lowercase} (name : str) : str := replace_char (chr "-") (lit "_") (to_lowercase name).
Definition kind_of `{Lowercase} (kind : str) : str := replace_char (chr "_") (lit "-") (to_lowercase kind).

Section Configs.
Context (parse_f64 : str -> option f64) (humantime : str -> option Z).

Definition parse_num {A} (parse : str -> option A) (type_name raw key : str) : Result A RegistryError :=
  ok_or (parse (trim raw)) (InvalidValue key raw (lit "expected a " ++ type_name)).
Definition get_num {A} (parse : str -> option A) (type_name : str) (params : Params) (key : str) (fallback : A)
  : Result A RegistryError :=
  match params !! key with Some raw => parse_num parse type_name raw key | None => Ok fallback end.
Definition get_usize : Params -> str -> Z -> Result Z RegistryError := get_num (parse_int false 64) (lit "usize").
Definition get_f64 : Params -> str -> f64 -> Result f64 RegistryError := get_num parse_f64 (lit "f64").
Definition get_duration (params : Params) (key : str) (fallback : Z) : Result Z RegistryError :=
  match params !! key with Some raw => parse_duration parse_f64 humantime raw | None => Ok fallback end.
Definition optional {A} (read : str -> Result A RegistryError) (raw : option str) : Result (option A) RegistryError :=
  match raw with Some raw => a <-? read raw; Ok (Some a) | None => Ok None end.

Definition circuit_config (params : Params) : Result CircuitConfig RegistryError :=
  failure_threshold <-? get_usize params (lit "failure_threshold") 5;
  open_duration <-? get_duration params (lit "recovery_timeout") (from_secs 30);
  rate <-? optional (fun raw => parse_num parse_f64 (lit "f64") raw (lit "failure_rate_threshold"))
             (params !! lit "failure_rate_threshold");
  window_size <-? get_usize params (lit "window_size") 10;
  half_open <-? get_usize params (lit "half_open_max_calls") 1;
  Ok (mkCircuitConfig (Z.to_nat failure_threshold) 0 open_duration rate (Z.to_nat window_size) (Z.to_nat half_open)).

Definition retry_config (params : Params) : Result RetryConfig RegistryError :=
  attempts <-? get_usize params (lit "max_attempts") (Z.of_nat DEFAULT_MAX_ATTEMPTS);
  delay <-? get_duration params (lit "delay") 0;
  backoff <-? get_f64 params (lit "backoff") (f64_of_Z 1);
  max_delay <-? optional (parse_duration parse_f64 humantime) (params !! lit "max_delay");
  jitter <-? get_f64 params (lit "jitter") (f64_of_Z 0);
  Ok (mkRetryConfig (Z.to_nat attempts) delay backoff max_delay jitter).
End Configs.

(** * The sections of the configuration *)

Definition PREFIX : str := lit "firefly.resilience.".
Abbreviation Sections := (gmap str (gmap str (gmap str str))) (only parsing).

Section From_map.
Context `{Lowercase}.

(** The kind, the name and the property that a key spells. *)
Definition entry_path (key : str) : option (str * str * str) :=
  rest ← strip_prefix PREFIX key;
  '(kind, rest) ← split_once 46%N rest;
  '(name, prop) ← split_once 46%N rest;
  if bool_decide (prop = []) || bool_decide (name = []) then None
  else Some (kind_of kind, relaxed name, relaxed prop).

Definition put (path : str * str * str) (value : str) (sections : Sections) : Sections :=
  let '(kind, name, prop) := path in
  let names := default ∅ (sections !! kind) in
  <[kind := <[name := <[prop := value]> (default ∅ (names !! name))]> names]> sections.

Definition collect (sections : Sections) (e : str * str) : Sections :=
  match entry_path (fst e) with Some path => put path (snd e) sections | None => sections end.
Definition sections_of {order : HashOrder} (flat : gmap str str) : Sections := fold_left collect (entries flat) ∅.

(** * Building *)

(** A [BTreeMap] is walked in the order of its keys. *)
Definition in_key_order_of {A} (m : gmap str A) : list (str * A) :=
  sort_by (fun a b => str_compare (fst a) (fst b)) (map_to_list m).

Fixpoint build_all {A} (make : Params -> Outcome A) (l : list (str * Params)) (built : gmap str A) : Outcome (gmap str A) :=
  match l with
  | [] => Some (Ok built)
  | (name, params) :: l => and_then (make params) (fun a => build_all make l (<[name := a]> built))
  end.
Definition build {A} (make : Params -> Outcome A) (section : option (gmap str Params)) : Outcome (gmap str A) :=
  build_all make (in_key_order_of (default ∅ section)) ∅.

Context (parse_f64 : str -> option f64) (humantime : str -> option Z).
Context {P : Type} `{Semaphore P} {E : Type}.
(** The jitter of a retry, and the clock its limiters start at. *)
Context (default_jitter : nat -> f64 -> f64) (now : Z).

(** [Semaphore::MAX_PERMITS]. *)
Definition MAX_PERMITS : Z := 2 ^ 61 - 1.

Definition make_breaker (params : Params) : Outcome (CircuitBreaker * BreakerInner) :=
  Some (c <-? circuit_config parse_f64 humantime params; Ok (CircuitBreaker.new c)).
Definition make_limiter (params : Params) : Outcome (TokenBucket.RateLimiter * TokenBucket.Bucket) :=
  Some (max_tokens <-? get_usize params (lit "max_tokens") 10;
        refill_rate <-? get_f64 parse_f64 params (lit "refill_rate") (f64_of_Z 10);
        Ok (TokenBucket.new refill_rate max_tokens now)).
Definition make_bulkhead (params : Params) : Outcome (Bulkhead P) :=
  match get_usize params (lit "max_concurrent") 10 with
  | Err e => Some (Err e)
  | Ok n => if n <=? MAX_PERMITS then Some (Ok (bulkhead_new (Z.to_nat n))) else None
  end.
Definition make_time_limiter (params : Params) : Outcome Z :=
  Some (get_duration parse_f64 humantime params (lit "timeout") (from_secs 30)).
Definition make_retry (params : Params) : Outcome (Retry E) :=
  Some (c <-? retry_config parse_f64 humantime params; Ok (from_config default_jitter c)).

Record ResilienceRegistry : Type := mkRegistry {
  circuit_breakers : gmap str (CircuitBreaker * BreakerInner);
  rate_limiters : gmap str (TokenBucket.RateLimiter * TokenBucket.Bucket);
  bulkheads : gmap str (Bulkhead P);
  time_limiters : gmap str Z;
  retries : gmap str (Retry E)
}.
Definition registry_new : ResilienceRegistry := mkRegistry ∅ ∅ ∅ ∅ ∅.

(** The kinds are built one after the other; the first refusal ends it. *)
Definition materialise (sections : Sections) : Outcome ResilienceRegistry :=
  and_then (build make_breaker (sections !! lit "circuit-breaker")) (fun cbs =>
  and_then (build make_limiter (sections !! lit "rate-limiter")) (fun rls =>
  and_then (build make_bulkhead (sections !! lit "bulkhead")) (fun bhs =>
  and_then (build make_time_limiter (sections !! lit "time-limiter")) (fun tls =>
  and_then (build make_retry (sections !! lit "retry")) (fun rts =>
  Some (Ok (mkRegistry cbs rls bhs tls rts))))))).

Definition from_map {order : HashOrder} (flat : gmap str str) : Outcome ResilienceRegistry := materialise (sections_of flat).
Definition from_layers {order : HashOrder} (sources : list Source) : Outcome ResilienceRegistry :=
  match layered_map sources with Ok flat => from_map flat | Err e => Some (Err (Misconfigured e)) end.

(** * Registering and looking up *)

Definition register_circuit_breaker (name : str) (breaker : CircuitBreaker * BreakerInner) (r : ResilienceRegistry) :=
  mkRegistry (<[relaxed name := breaker]> (circuit_breakers r)) (rate_limiters r) (bulkheads r) (time_limiters r) (retries r).
Definition register_rate_limiter (name : str) limiter (r : ResilienceRegistry) :=
  mkRegistry (circuit_breakers r) (<[relaxed name := limiter]> (rate_limiters r)) (bulkheads r) (time_limiters r) (retries r).
Definition register_bulkhead (name : str) bulkhead (r : ResilienceRegistry) :=
  mkRegistry (circuit_breakers r) (rate_limiters r) (<[relaxed name := bulkhead]> (bulkheads r)) (time_limiters r) (retries r).
Definition register_time_limiter (name : str) (timeout : Z) (r : ResilienceRegistry) :=
  mkRegistry (circuit_breakers r) (rate_limiters r) (bulkheads r) (<[relaxed name := timeout]> (time_limiters r)) (retries r).
Definition register_retry (name : str) retry (r : ResilienceRegistry) :=
  mkRegistry (circuit_breakers r) (rate_limiters r) (bulkheads r) (time_limiters r) (<[relaxed name := retry]> (retries r)).

Definition sorted_names {A} (m : gmap str A) : list str := sort_by str_compare (map fst (map_to_list m)).
Definition not_registered {A} (kind name : str) (m : gmap str A) : RegistryError :=
  let names := sorted_names m in
  NotRegistered kind name
    (if bool_decide (names = []) then lit "(none)" else lit "['" ++ join (lit "', '") names ++ lit "']").
Definition lookup_named {A} (kind name : str) (m : gmap str A) : Result A RegistryError :=
  ok_or (m !! relaxed name) (not_registered kind name m).

Definition circuit_breaker (name : str) (r : ResilienceRegistry) := lookup_named (lit "circuit-breaker") name (circuit_breakers r).
Definition rate_limiter (name : str) (r : ResilienceRegistry) := lookup_named (lit "rate-limiter") name (rate_limiters r).
Definition bulkhead_named (name : str) (r : ResilienceRegistry) := lookup_named (lit "bulkhead") name (bulkheads r).
Definition time_limiter (name : str) (r : ResilienceRegistry) := lookup_named (lit "time-limiter") name (time_limiters r).
Definition retry_named (name : str) (r : ResilienceRegistry) := lookup_named (lit "retry") name (retries r).
End From_map.
Arguments ResilienceRegistry P E : clear implicits.

(** * Theorems: spelling and order do not matter *)

Section Spelling.
Context `{Lowercase}.

Definition get (s : Sections) (path : str * str * str) : option str :=
  let '(kind, name, prop) := path in
  names ← s !! kind; params ← names !! name; params !! prop.

(** No section and no instance is kept without a property. *)
Definition inhabited (s : Sections) : Prop :=
  forall kind names, s !! kind = Some names ->
    names <> ∅ /\ forall name params, names !! name = Some params -> params <> ∅.

Lemma some_key {A} (m : gmap str A) : m <> ∅ -> exists k a, m !! k = Some a.
Proof. intros N. by apply map_choose in N as (k & a & E); exists k, a. Qed.

Lemma kind_known s kind : inhabited s -> is_Some (s !! kind) <-> exists name prop, is_Some (get s (kind, name, prop)).
Proof.
  intros N. split.
  - intros [names K]. destruct (N kind names K) as [NE In]. apply some_key in NE as (name & params & M).
    destruct (some_key params (In _ _ M)) as (prop & v & V). exists name, prop, v. cbn. by rewrite K; cbn; rewrite M.
  - intros (name & prop & v & V). cbn in V. by destruct (s !! kind).
Qed.

Lemma name_known s kind names name : inhabited s -> s !! kind = Some names ->
  is_Some (names !! name) <-> exists prop, is_Some (get s (kind, name, prop)).
Proof.
  intros N K. cbn. rewrite K. cbn. split.
  - intros [params M]. destruct (some_key params (proj2 (N kind names K) _ _ M)) as (prop & v & V).
    exists prop, v. by rewrite M.
  - intros (prop & v & V). by destruct (names !! name).
Qed.

Lemma option_same {A} (o1 o2 : option A) :
  (is_Some o1 <-> is_Some o2) -> (forall a b, o1 = Some a -> o2 = Some b -> a = b) -> o1 = o2.
Proof.
  intros [F B] S. destruct o1 as [a|], o2 as [b|]; [by f_equal; apply S|by destruct (F (mk_is_Some _ _ eq_refl))|
    by destruct (B (mk_is_Some _ _ eq_refl))|done].
Qed.

Lemma sections_ext s1 s2 : inhabited s1 -> inhabited s2 -> (forall path, get s1 path = get s2 path) -> s1 = s2.
Proof.
  intros N1 N2 G. apply map_eq. intros kind. apply option_same.
  { rewrite !kind_known by done. by setoid_rewrite G. }
  intros m1 m2 E1 E2. apply map_eq. intros name. apply option_same.
  { rewrite (name_known s1 kind m1), (name_known s2 kind m2) by done. by setoid_rewrite G. }
  intros p1 p2 F1 F2. apply map_eq. intros prop. specialize (G (kind, name, prop)). unfold get in G.
  rewrite E1, E2 in G. cbn in G. by rewrite F1, F2 in G.
Qed.

Lemma put_get path v s q : get (put path v s) q = if decide (q = path) then Some v else get s q.
Proof.
  destruct path as [[k n] p], q as [[k' n'] p']. cbn. destruct (decide (k' = k)) as [->|K].
  2: { rewrite lookup_insert_ne by done. by rewrite decide_False by congruence. }
  rewrite lookup_insert_eq. cbn. destruct (decide (n' = n)) as [->|N].
  2: { rewrite lookup_insert_ne by done. rewrite decide_False by congruence. by destruct (s !! k). }
  rewrite lookup_insert_eq. cbn. destruct (decide (p' = p)) as [->|P].
  - by rewrite lookup_insert_eq, decide_True.
  - rewrite lookup_insert_ne by done. rewrite decide_False by congruence.
    destruct (s !! k) as [names|]; cbn; [by destruct (names !! n)|by rewrite lookup_empty].
Qed.

Lemma put_inhabited path v s : inhabited s -> inhabited (put path v s).
Proof.
  destruct path as [[k n] p]. intros N kind names. cbn. rewrite lookup_insert. case_decide as K.
  - intros [= <-]. split; [apply insert_non_empty|]. intros name params. rewrite lookup_insert. case_decide.
    + intros [= <-]. apply insert_non_empty.
    + subst. destruct (s !! kind) as [m|] eqn:E; cbn; [apply (N _ _ E)|by rewrite lookup_empty].
  - apply N.
Qed.

Lemma collect_inhabited l : forall s, inhabited s -> inhabited (fold_left collect l s).
Proof.
  induction l as [|e l IH]; intros s N; [done|]. apply IH. unfold collect. case_match; [by apply put_inhabited|done].
Qed.

(** The property a flat map gives a path. *)
Definition property (flat : gmap str str) path (v : str) : Prop := exists key, flat !! key = Some v /\ entry_path key = Some path.
Definition consistent (flat : gmap str str) : Prop := forall path v w, property flat path v -> property flat path w -> v = w.

Lemma collect_snoc l k w s : fold_left collect (l ++ [(k, w)]) s =
  match entry_path k with Some path => put path w (fold_left collect l s) | None => fold_left collect l s end.
Proof. by rewrite fold_left_app. Qed.

Lemma collect_get l path v : get (fold_left collect l ∅) path = Some v ->
  exists key, List.In (key, v) l /\ entry_path key = Some path.
Proof.
  induction l as [|[k w] l IH] using rev_ind; [destruct path as [[a b] c]; cbn; by rewrite lookup_empty|].
  rewrite collect_snoc.
  assert (get (fold_left collect l ∅) path = Some v -> exists key, List.In (key, v) (l ++ [(k, w)]) /\ entry_path key = Some path) as Old.
  { intros G. destruct (IH G) as (key & I & P). exists key. split; [apply in_or_app; by left|done]. }
  destruct (entry_path k) as [q|] eqn:P; [|done]. rewrite put_get. case_decide; [|done]. subst q.
  intros [= ->]. exists k. split; [apply in_or_app; right; by left|done].
Qed.

Lemma collect_some l path key v : List.In (key, v) l -> entry_path key = Some path ->
  is_Some (get (fold_left collect l ∅) path).
Proof.
  intros I P. induction l as [|[k w] l IH] using rev_ind; [done|]. rewrite collect_snoc.
  apply in_app_or in I as [I|[[= -> ->]|[]]].
  - destruct (entry_path k); [rewrite put_get; case_decide; [done|]|]; by apply IH.
  - rewrite P, put_get, decide_True by done. done.
Qed.

Lemma entries_in `{HashOrder} (flat : gmap str str) key v : List.In (key, v) (entries flat) <-> flat !! key = Some v.
Proof. rewrite <- elem_of_map_to_list, list_elem_of_In. split; intros I; [eapply Permutation_in, I|eapply Permutation_in, I; symmetry]; apply entries_perm. Qed.

Lemma sections_get `{HashOrder} flat path v : consistent flat -> get (sections_of flat) path = Some v <-> property flat path v.
Proof.
  intros C. unfold sections_of. split.
  - intros G. apply collect_get in G as (key & I & P). exists key. by rewrite <- entries_in.
  - intros (key & K & P). apply entries_in in K. destruct (collect_some _ _ _ _ K P) as [w W]. rewrite W. f_equal.
    apply collect_get in W as (key' & I' & P'). apply (C path); eexists; rewrite <- entries_in; eauto.
Qed.

Lemma sections_inhabited `{HashOrder} flat : inhabited (sections_of flat).
Proof. apply collect_inhabited. intros kind names. by rewrite lookup_empty. Qed.

Lemma sections_agree (i j : HashOrder) flat1 flat2 : consistent flat1 ->
  (forall path v, property flat1 path v <-> property flat2 path v) ->
  sections_of (order := i) flat1 = sections_of (order := j) flat2.
Proof.
  intros C1 Same. assert (consistent flat2) as C2 by (intros path v w V W; apply (C1 path); by apply Same).
  apply sections_ext; try apply sections_inhabited. intros path.
  apply option_eq. intros v. rewrite !sections_get by done. apply Same.
Qed.
End Spelling.

(** The registry depends on the properties its configuration spells, not on how
    they are spelled nor on the order in which the map is walked: two maps that
    give every path the same value build the same registry, or fail alike. *)
Theorem spelling_does_not_matter `{Lowercase} (i j : HashOrder) {P : Type} `{Semaphore P} {E : Type} (parse_f64 : str -> option f64)
    (humantime : str -> option Z) (jitter : nat -> f64 -> f64) (now : Z)
    (flat1 flat2 : gmap str str) (Once : consistent flat1)
    (Same : forall path v, property flat1 path v <-> property flat2 path v) :
  from_map (order := i) (P := P) (E := E) parse_f64 humantime jitter now flat1 =
  from_map (order := j) parse_f64 humantime jitter now flat2.
Proof. unfold from_map. by rewrite (sections_agree i j flat1 flat2 Once Same). Qed.

(** * Theorems: what the registry serves *)

Section Served.
Context `{Lowercase}.

Lemma build_all_spec {A} (make : Params -> Outcome A) l : forall built m, List.NoDup (map fst l) ->
  build_all make l built = Some (Ok m) ->
  (forall name params, List.In (name, params) l -> exists a, make params = Some (Ok a) /\ m !! name = Some a) /\
  (forall name, ~ List.In name (map fst l) -> m !! name = built !! name).
Proof.
  induction l as [|[n p] l IH]; intros built m U B; cbn in B; [injection B as ->; by split|].
  destruct (make p) as [[a|e]|] eqn:K; cbn in B; try done. apply NoDup_cons_iff in U as [Out U].
  destruct (IH _ _ U B) as [In_ Else]. split.
  - intros name params [[= <- <-]|I]; [|by apply In_]. exists a. split; [done|].
    rewrite Else; [apply lookup_insert_eq|done].
  - intros name NI. cbn in NI. rewrite Else by tauto. apply lookup_insert_ne. tauto.
Qed.

Lemma in_key_order_perm {A} (m : gmap str A) : Permutation (in_key_order_of m) (map_to_list m).
Proof. apply sort_by_permutation. Qed.

Lemma build_spec {A} (make : Params -> Outcome A) section m : build make section = Some (Ok m) ->
  forall name, match default ∅ section !! name with
               | Some params => exists a, make params = Some (Ok a) /\ m !! name = Some a
               | None => m !! name = None
               end.
Proof.
  intros B name. pose proof (in_key_order_perm (default ∅ section)) as P.
  apply build_all_spec in B as [In_ Else].
  2: { eapply Permutation_NoDup; [symmetry; by apply Permutation_map, P|]. apply NoDup_ListNoDup, NoDup_fst_map_to_list. }
  destruct (default ∅ section !! name) as [params|] eqn:L.
  - apply In_. eapply Permutation_in; [by symmetry|]. apply list_elem_of_In. by apply elem_of_map_to_list.
  - rewrite Else; [apply lookup_empty|]. intros I. apply (Permutation_in _ (Permutation_map fst P)) in I.
    apply in_map_iff in I as ([k q] & <- & I). apply list_elem_of_In, elem_of_map_to_list in I. cbn in L. congruence.
Qed.

(** The instance a name stands for: made from the properties the configuration
    gives it, or unknown if there are none. *)
Definition served {A} (make : Params -> Outcome A) (kind : str) (flat : gmap str str) (m : gmap str A) : Prop :=
  forall name, exists params : Params,
    (forall prop v, params !! prop = Some v <-> property flat (kind, relaxed name, prop) v) /\
    (if decide (params = ∅) then lookup_named kind name m = Err (not_registered kind name m)
     else exists a, make params = Some (Ok a) /\ lookup_named kind name m = Ok a).

Lemma build_served {A} (make : Params -> Outcome A) kind flat m `{HashOrder} : consistent flat ->
  build make (sections_of flat !! kind) = Some (Ok m) -> served make kind flat m.
Proof.
  intros C B name. pose proof (build_spec _ _ _ B (relaxed name)) as S.
  pose proof (fun prop v => sections_get flat (kind, relaxed name, prop) v C) as G.
  pose proof (sections_inhabited flat kind) as N. unfold get in G. unfold lookup_named.
  destruct (sections_of flat !! kind) as [names|]; cbn in S, G.
  - destruct (names !! relaxed name) as [params|] eqn:M; cbn in G.
    + exists params. split; [done|]. rewrite decide_False by (by eapply N). destruct S as (a & K & ->). by exists a.
    + exists ∅. rewrite S. split; [intros prop v; by rewrite lookup_empty|done].
  - rewrite lookup_empty in S. exists ∅. rewrite S. split; [intros prop v; by rewrite lookup_empty|done].
Qed.
End Served.

(** A registry that was built serves, under every spelling of a name, the instance
    made from exactly the properties its configuration gives that name, and
    refuses a name without any. *)
Theorem registry_serves_configuration `{Lowercase} `{HashOrder} {P : Type} `{Semaphore P} {E : Type}
    (parse_f64 : str -> option f64) (humantime : str -> option Z) (jitter : nat -> f64 -> f64) (now : Z)
    (flat : gmap str str) (r : ResilienceRegistry P E) (Once : consistent flat)
    (Built : from_map parse_f64 humantime jitter now flat = Some (Ok r)) :
  served (make_breaker parse_f64 humantime) (lit "circuit-breaker") flat (circuit_breakers r) /\
  served (make_limiter parse_f64 now) (lit "rate-limiter") flat (rate_limiters r) /\
  served make_bulkhead (lit "bulkhead") flat (bulkheads r) /\
  served (make_time_limiter parse_f64 humantime) (lit "time-limiter") flat (time_limiters r) /\
  served (make_retry parse_f64 humantime jitter) (lit "retry") flat (retries r).
Proof.
  unfold from_map, materialise in Built.
  repeat match type of Built with and_then ?o _ = _ => destruct o as [[?|?]|] eqn:?; cbn [and_then] in Built; try done end.
  injection Built as <-. repeat split; by eapply build_served.
Qed.

(** * Concrete configurations *)

Module RegistryDemo.
#[local] Existing Instance ascii_lowercase.

Definition human (_ : str) : option Z := None.
Definition steady (_ : nat) (_ : f64) : f64 := f64_of_Z 0.
Definition built (order : HashOrder) (flat : gmap str str) : Outcome (ResilienceRegistry nat unit) :=
  from_map (order := order) Condition.parse_f64 human steady 0 flat.

Definition key (k : string) : str := lit "firefly.resilience." ++ lit k.
Definition kebab : gmap str str := {[key "time-limiter.slow-job.timeout" := lit "500ms"; key "bulkhead.db-pool.max-concurrent" := lit "5"]}.
Definition snake : gmap str str := {[key "time_limiter.SLOW_JOB.timeout" := lit "500ms"; key "bulkhead.db_pool.max_concurrent" := lit "5"]}.

Definition timeout_of (name : string) (o : Outcome (ResilienceRegistry nat unit)) : option (Result Z RegistryError) :=
  match o with Some (Ok r) => Some (time_limiter (lit name) r) | Some (Err e) => Some (Err e) | None => None end.

Example served_under_any_spelling :
  timeout_of "Slow-Job" (built in_key_order kebab) = Some (Ok (from_millis 500)) /\
  timeout_of "slow-jobs" (built in_key_order kebab) =
    Some (Err (NotRegistered (lit "time-limiter") (lit "slow-jobs") (lit "['slow_job']"))).
Proof. vm_compute. done. Qed.

(** The paths of a map of two keys. *)
Lemma two_paths (k1 k2 v1 v2 : str) p1 p2 path v : k1 <> k2 -> entry_path k1 = Some p1 -> entry_path k2 = Some p2 ->
  property {[k1 := v1; k2 := v2]} path v <-> (path = p1 /\ v = v1) \/ (path = p2 /\ v = v2).
Proof.
  intros N E1 E2. split.
  - intros (k & [[<- <-]|[_ [<- <-]%lookup_singleton_Some]]%lookup_insert_Some & P); [left|right]; split; congruence.
  - intros [[-> ->]|[-> ->]]; [exists k1|exists k2]; split; try done; [apply lookup_insert_eq|].
    rewrite lookup_insert_ne by done. apply lookup_insert_eq.
Qed.

Definition job_path : str * str * str := (lit "time-limiter", lit "slow_job", lit "timeout").
Definition pool_path : str * str * str := (lit "bulkhead", lit "db_pool", lit "max_concurrent").
Lemma kebab_paths path v : property kebab path v <-> (path = job_path /\ v = lit "500ms") \/ (path = pool_path /\ v = lit "5").
Proof. apply two_paths; by vm_compute. Qed.
Lemma snake_paths path v : property snake path v <-> (path = job_path /\ v = lit "500ms") \/ (path = pool_path /\ v = lit "5").
Proof. apply two_paths; by vm_compute. Qed.
Lemma kebab_once : consistent kebab.
Proof. intros path v w [[-> ->]|[-> ->]]%kebab_paths [[E ->]|[E ->]]%kebab_paths; done. Qed.

Lemma spelling_does_not_matter_witness : built in_key_order kebab = built in_reverse_order snake.
Proof. apply spelling_does_not_matter; [exact kebab_once|]. intros path v. by rewrite kebab_paths, snake_paths. Defined.

Lemma registry_serves_configuration_witness :
  exists r, built in_key_order kebab = Some (Ok r) /\ exists d, time_limiter (lit "slow-job") r = Ok d.
Proof.
  destruct (built in_key_order kebab) as [[r|e]|] eqn:B; [|by vm_compute in B..]. exists r. split; [done|].
  destruct (registry_serves_configuration (H0 := in_key_order) Condition.parse_f64 human steady 0 kebab r kebab_once B) as (_ & _ & _ & T & _).
  destruct (T (lit "slow-job")) as (params & S & L). rewrite decide_False in L; [destruct L as (d & _ & L); by exists d|].
  intros ->. assert (property kebab job_path (lit "500ms")) as W by (rewrite kebab_paths; left; split; reflexivity).
  pose proof (proj2 (S (lit "timeout") (lit "500ms")) W) as F. by rewrite lookup_empty in F.
Defined.

(** One property in two spellings: the order of the hash map decides. *)
Definition twice : gmap str str :=
  {[key "time-limiter.job.timeout" := lit "5s"; key "time-limiter.JOB.timeout" := lit "9s"]}.
Example order_decides_timeout :
  timeout_of "job" (built in_key_order twice) <> timeout_of "job" (built in_reverse_order twice).
Proof. vm_compute. discriminate. Qed.

(** A count above tokio's bound is no refusal but a panic. *)
Example bulkhead_too_wide_panics :
  timeout_of "job" (built in_key_order {[key "bulkhead.db.max-concurrent" := lit "4000000000000000000"]}) = None.
Proof. vm_compute. done. Qed.
End RegistryDemo.
