(* ===== verification/Paging.v ===== *)
(** Pages, soft deletion, auditing and routing: [crates/data], [page.rs],
    [pageable.rs], [repository.rs], [soft_delete.rs], [auditing.rs] and
    [routing.rs].

    A [usize] that counts values in memory or comes from a request is a [Z] in
    [[0, 2^64)]; [None] is a panic of the release build. *)
From Stdlib Require Import Ascii String.
From Stdlib Require Import ZArith NArith List Lia Permutation.
From stdpp Require Import base decidable list gmap.
From S2P Require Import Prelude Str Unicode Order Json Dialect Filter Specification.

Definition USIZE_MAX : Z := 2 ^ 64 - 1.

(** * The page envelope *)

Record Page (T : Type) : Type := mkPage {
  content : list T;
  number : Z;
  page_size : Z;
  total_elements : Z;
  total_pages : Z
}.
Arguments mkPage {T}. Arguments content {T}. Arguments number {T}. Arguments page_size {T}.
Arguments total_elements {T}. Arguments total_pages {T}.

(** [usize::div_ceil]. *)
Definition div_ceil (a b : Z) : Z := if a mod b =? 0 then a / b else a / b + 1.

Definition page_new {T} (content : list T) (number size total : Z) : Page T :=
  let size := Z.max size 1 in
  mkPage content number size total (div_ceil total size).

Definition page_empty {T} : Page T := mkPage [] 0 0 0 0.

(** * Page requests *)

Definition UNPAGED_SIZE : Z := USIZE_MAX.

Record SortOrder : Type := mkOrder { property : str; order_direction : Direction }.

Definition order_asc (p : str) : SortOrder := mkOrder p Asc.
Definition order_desc (p : str) : SortOrder := mkOrder p Desc.

(** [RequestSort]. *)
Definition RequestSort : Type := list SortOrder.

Definition sort_of (properties : list str) : RequestSort := map order_asc properties.
Definition and_then (a b : RequestSort) : RequestSort := a ++ b.
Definition descending (s : RequestSort) : RequestSort := map (fun o => order_desc (property o)) s.
Definition ascending (s : RequestSort) : RequestSort := map (fun o => order_asc (property o)) s.
Definition to_sorts (s : RequestSort) : list Sort := map (fun o => mkSort (property o) (order_direction o)) s.

Record Pageable : Type := mkPageable { pg_page : Z; pg_size : Z; pg_sort : RequestSort }.

Inductive PageableError : Type := PageTooSmall (page : Z) | SizeTooSmall (size : Z).

Definition pageable_default : Pageable := mkPageable 1 20 [].

Definition pageable_of (page size : Z) (sort : RequestSort) : Result Pageable PageableError :=
  if negb (size =? UNPAGED_SIZE) && (page <? 1) then Err (PageTooSmall page)
  else if negb (size =? UNPAGED_SIZE) && (size <? 1) then Err (SizeTooSmall size)
  else Ok (mkPageable page size sort).

Definition unpaged : Pageable := mkPageable 1 UNPAGED_SIZE [].
Definition is_paged (p : Pageable) : bool := negb (pg_size p =? UNPAGED_SIZE).

(** [saturating_sub] and [saturating_mul] of [usize]. *)
Definition pred_sat (n : Z) : Z := Z.max 0 (n - 1).
Definition offset (p : Pageable) : Z := Z.min USIZE_MAX (pred_sat (pg_page p) * pg_size p).

(** The sum is unchecked. *)
Definition next (p : Pageable) : Pageable := mkPageable (u64 (pg_page p + 1)) (pg_size p) (pg_sort p).
Definition previous (p : Pageable) : Pageable := mkPageable (Z.max (pred_sat (pg_page p)) 1) (pg_size p) (pg_sort p).

Section Filters.
Context {V : Type} `{JsonValue V}.

Definition apply_to (p : Pageable) (f : Filter V) : Filter V :=
  if is_paged p then mkFilter (predicates f) (to_sorts (pg_sort p)) (pred_sat (pg_page p)) (pg_size p)
  else mkFilter (predicates f) (to_sorts (pg_sort p)) 0 0.

Definition to_filter (p : Pageable) : Filter V := apply_to p filter_new.

(** * Soft deletion *)

(** [SoftDelete]: the instant of the deletion. *)
Definition SoftDelete : Type := option Z.
Definition live : SoftDelete := None.
Definition is_deleted (s : SoftDelete) : bool := bool_decide (is_Some s).
Definition mark_deleted (at_ : Z) (s : SoftDelete) : SoftDelete := Some at_.
Definition restore (s : SoftDelete) : SoftDelete := None.

Definition DEFAULT_DELETED_AT_COLUMN : str := lit "deleted_at".

(** [SoftDeletePolicy], by its column. *)
Definition live_predicate (column : str) : Predicate V := Filter.is_nil column.

Definition predicate_eqb (a b : Predicate V) : bool :=
  str_eqb (field a) (field b) && bool_decide (op a = op b) && value_eqb (value a) (value b).

Definition policy_apply (column : str) (f : Filter V) : Filter V :=
  let guard := live_predicate column in
  if existsb (fun p => predicate_eqb p guard) (predicates f) then f
  else mkFilter (guard :: predicates f) (sorts f) (page f) (size f).

Definition policy_apply_spec (column : str) (spec : Specification V) : Specification V :=
  spec_and (Pred (live_predicate column)) spec.
End Filters.

(** * The in-memory repository *)

Inductive DataError : Type := NotFound | Backend (message : str) | OptimisticLock.

(** The order in which the values of a [HashMap] are iterated, which stays the
    same while the map is not changed. *)
Class ValueOrder (K T : Type) `{Countable K} : Type := {
  values : gmap K T -> list T;
  values_perm : forall m, Permutation (values m) (map_to_list m).*2
}.

Section Repository.
Context {V T K : Type} `{JsonValue V} `{ValueOrder K T} (keyer : T -> K).
Implicit Types store : gmap K T.

Definition find_by_id (id : K) store : Result T DataError := ok_or (store !! id) NotFound.

Definition zlen {A} (l : list A) : Z := Z.of_nat (List.length l).

(** [find]: the product and the sum wrap, and a slice that ends before it
    starts panics. *)
Definition find_in (all : list T) (f : Filter V) : option (Page T) :=
  let total := zlen all in
  let size := if size f =? 0 then Z.max total 1 else size f in
  let from := usize_mul (page f) size in
  if total <? from then Some (page_new [] (page f) size total)
  else
    let to := Z.min (u64 (from + size)) total in
    if to <? from then None
    else Some (page_new (firstn (Z.to_nat (to - from)) (skipn (Z.to_nat from) all)) (page f) size total).

Definition find (f : Filter V) store : option (Page T) := find_in (values store) f.

(** The default [find_page]. *)
Definition find_page (p : Pageable) store : option (Page T) := find (to_filter p) store.

Definition save (entity : T) store : T * gmap K T := (entity, <[keyer entity := entity]> store).
Definition delete_by_id (id : K) store : gmap K T := delete id store.
End Repository.

(** * Auditing *)

Record AuditStamps : Type := mkStamps {
  created_at : option Z;
  updated_at : option Z;
  created_by : option str;
  updated_by : option str
}.

Definition stamps_new : AuditStamps := mkStamps None None None None.

(** What the clock says is an argument. *)
Definition on_insert (now : Z) (s : AuditStamps) (user : option str) : AuditStamps :=
  mkStamps (Some now) (Some now) (match user with Some u => Some u | None => created_by s end)
    (match user with Some u => Some u | None => updated_by s end).

Definition on_update (now : Z) (s : AuditStamps) (user : option str) : AuditStamps :=
  mkStamps (created_at s) (Some now) (created_by s) (match user with Some u => Some u | None => updated_by s end).

(** [current_user], and the stamps taken from the provider. *)
Definition current_user (provider : option (option str)) : option str := mjoin provider.
Definition stamp_insert (now : Z) (provider : option (option str)) (s : AuditStamps) : AuditStamps :=
  on_insert now s (current_user provider).
Definition stamp_update (now : Z) (provider : option (option str)) (s : AuditStamps) : AuditStamps :=
  on_update now s (current_user provider).

(** * Routing *)

(** The flag of every thread, false where it was never set. *)
Abbreviation ReadOnly := (gmap nat bool).
Definition is_read_only (thread : nat) (flags : ReadOnly) : bool := default false (flags !! thread).

(** [read_only]: the guard remembers the flag it replaces. *)
Definition read_only (thread : nat) (flags : ReadOnly) : bool * ReadOnly :=
  (is_read_only thread flags, <[thread := true]> flags).

(** Dropping the guard, on the thread that drops it. *)
Definition drop_guard (thread : nat) (previous : bool) (flags : ReadOnly) : ReadOnly := <[thread := previous]> flags.

Record RoutingPolicy (S : Type) : Type := mkPolicy { primary : S; replica_factory : option S }.
Arguments mkPolicy {S}. Arguments primary {S}. Arguments replica_factory {S}.

Definition has_replica {S} (p : RoutingPolicy S) : bool := bool_decide (is_Some (replica_factory p)).
Definition replica {S} (p : RoutingPolicy S) : S := default (primary p) (replica_factory p).
Definition route {S} (p : RoutingPolicy S) (thread : nat) (flags : ReadOnly) : S :=
  match replica_factory p with
  | Some r => if is_read_only thread flags then r else primary p
  | None => primary p
  end.

(** [NamedDataSources]: a [BTreeMap]. *)
Inductive RoutingError : Type := UnknownDataSource (name : str) (configured : list str).
Definition source_names {S} (m : gmap str S) : list str := sort_by str_compare (map_to_list m).*1.
Definition source_get {S} (name : str) (m : gmap str S) : Result S RoutingError :=
  ok_or (m !! name) (UnknownDataSource name (source_names m)).

(** * Theorems: walking the pages *)

Section Walk.
Context {V T K : Type} `{JsonValue V} `{ValueOrder K T}.
Implicit Types store : gmap K T.

(** What [k] pages hold, from a request on. *)
Fixpoint walk (k : nat) (p : Pageable) store : list (option (Page T)) :=
  match k with
  | O => []
  | S k => find_page (V := V) p store :: walk k (next p) store
  end.

Lemma div_ceil_bound n s : 0 < s -> 0 <= n -> n <= div_ceil n s * s < n + s.
Proof.
  intros P N. unfold div_ceil. pose proof (Z.div_mod n s ltac:(lia)). pose proof (Z.mod_pos_bound n s P).
  destruct (Z.eqb_spec (n mod s) 0); nia.
Qed.

Lemma firstn_clip (l : list T) s : firstn (Z.to_nat (Z.min s (zlen l))) l = firstn (Z.to_nat s) l.
Proof.
  unfold zlen. destruct (Z.le_gt_cases s (Z.of_nat (List.length l))).
  - f_equal. lia.
  - rewrite !firstn_all2 by lia. done.
Qed.

Lemma zlen_skipn (l : list T) k : 0 <= k <= zlen l -> zlen (skipn (Z.to_nat k) l) = zlen l - k.
Proof. unfold zlen. intros B. rewrite length_skipn. lia. Qed.

(** One page, as long as nothing overflows. *)
Lemma find_in_page (all : list T) ps ss k s : 0 < s -> zlen all + s < 2 ^ 64 -> 0 <= k -> k * s < 2 ^ 64 ->
  find_in (V := V) all (mkFilter ps ss k s) =
  Some (mkPage (firstn (Z.to_nat s) (skipn (Z.to_nat (k * s)) all)) k s (zlen all) (div_ceil (zlen all) s)).
Proof.
  intros P O K0 B. assert (0 <= zlen all) by (unfold zlen; lia).
  unfold find_in, usize_mul, page_new. cbn [size page].
  rewrite (proj2 (Z.eqb_neq s 0)), (Z.mod_small (k * s)), (Z.max_l s 1) by nia.
  destruct (Z.ltb_spec (zlen all) (k * s)) as [L|L].
  - rewrite skipn_all2 by (unfold zlen in L; lia). by rewrite firstn_nil.
  - rewrite u64_id by nia. rewrite (proj2 (Z.ltb_ge _ _)) by lia. do 2 f_equal.
    rewrite <- (firstn_clip _ s). rewrite zlen_skipn by nia. f_equal. lia.
Qed.

Lemma walk_pages store s sort k i : 0 < s -> s <> UNPAGED_SIZE -> zlen (values store) + s < 2 ^ 64 ->
  0 <= i -> (i + Z.of_nat k) * s < zlen (values store) + s ->
  exists ps, walk k (mkPageable (i + 1) s sort) store = map Some ps /\
    concat (map content ps) = firstn (k * Z.to_nat s) (skipn (Z.to_nat (i * s)) (values store)) /\
    Forall (fun p => total_elements p = zlen (values store) /\ total_pages p = div_ceil (zlen (values store)) s /\
                     page_size p = s /\ zlen (content p) <= s) ps.
Proof.
  intros P NS O. revert i. induction k as [|k IH]; intros i I B.
  { exists []. rewrite firstn_O. by repeat split. }
  assert (0 <= zlen (values store)) by (unfold zlen; lia).
  destruct (IH (i + 1) ltac:(lia) ltac:(nia)) as (ps & W & C & F).
  pose proof (find_in_page (values store) [] (to_sorts sort) i s P O I ltac:(nia)) as Pg.
  eexists (_ :: ps). cbn [walk map concat]. split; [|split].
  - f_equal.
    + unfold find_page, find, to_filter, apply_to, is_paged. cbn [pg_size pg_page pg_sort].
      rewrite (proj2 (Z.eqb_neq s UNPAGED_SIZE) NS). cbn [negb predicates filter_new].
      replace (pred_sat (i + 1)) with i by (unfold pred_sat; lia). exact Pg.
    + rewrite <- W. unfold next. cbn [pg_size pg_page pg_sort]. f_equal. f_equal. apply u64_id. nia.
  - cbn [content]. rewrite C. replace (S k * Z.to_nat s)%nat with (Z.to_nat s + k * Z.to_nat s)%nat by lia.
    rewrite <- take_take_drop, drop_drop. do 3 f_equal. nia.
  - constructor; [|done]. cbn. repeat split. unfold zlen. rewrite length_firstn. lia.
Qed.
End Walk.

(** Walking the pages of the in-memory repository from the first one, as
    many as a page reports, meets every stored entity exactly once, no page
    holding more than was asked for; the page behind the last is empty. *)
Theorem pages_partition {V T K} `{JsonValue V} `{ValueOrder K T} (store : gmap K T) (s : Z) (sort : RequestSort) p
    (P : pageable_of 1 s sort = Ok p) (Paged : is_paged p = true) (S0 : 0 <= s)
    (Fits : zlen (values store) + s < 2 ^ 64) :
  let n := zlen (values store) in
  exists ps, walk (V := V) (Z.to_nat (div_ceil n s)) p store = map Some ps /\
    Permutation (concat (map content ps)) (map_to_list store).*2 /\
    Forall (fun pg => total_elements pg = n /\ total_pages pg = div_ceil n s /\ page_size pg = s /\ zlen (content pg) <= s) ps /\
    exists last, find_page (V := V) (mkPageable (div_ceil n s + 1) s sort) store = Some last /\ content last = [].
Proof.
  intros n. unfold pageable_of in P. destruct (Z.eqb_spec s UNPAGED_SIZE) as [->|NS].
  { simpl in P. injection P as <-. by vm_compute in Paged. }
  simpl in P. destruct (Z.ltb_spec s 1); [done|]. injection P as <-.
  assert (0 <= n) as N by (unfold n, zlen; lia).
  pose proof (div_ceil_bound n s ltac:(lia) N) as B. assert (0 <= div_ceil n s) by nia.
  destruct (walk_pages (V := V) store s sort (Z.to_nat (div_ceil n s)) 0) as (ps & W & C & F);
    [lia|done|done|lia|rewrite Z2Nat.id by lia; fold n; lia|].
  exists ps. split; [exact W|]. split; [|split; [done|]].
  - rewrite C. change (Z.to_nat (0 * s)) with 0%nat. cbn [skipn]. rewrite firstn_all2; [apply values_perm|].
    rewrite <- Z2Nat.inj_mul by lia. apply Nat2Z.inj_le. rewrite Z2Nat.id by lia. exact (proj1 B).
  - unfold find_page, find, to_filter, apply_to, is_paged. cbn [pg_size pg_page pg_sort].
    rewrite (proj2 (Z.eqb_neq s UNPAGED_SIZE) NS). cbn [negb].
    replace (pred_sat (div_ceil n s + 1)) with (div_ceil n s) by (unfold pred_sat; lia).
    eexists. split; [apply find_in_page; fold n; nia|]. cbn [content].
    rewrite skipn_all2; [by rewrite firstn_nil|].
    apply Nat2Z.inj_le. rewrite Z2Nat.id by lia. exact (proj1 B).
Qed.

(** * Soft deletion *)

(** The guard is added once, and what it selects are live rows. *)
Lemma policy_apply_twice {V} `{JsonLaws V} column (f : Filter V) :
  value_eqb (json_null : V) json_null = true -> policy_apply column (policy_apply column f) = policy_apply column f.
Proof.
  intros R. unfold policy_apply at 2 3. destruct (existsb _ (predicates f)) eqn:E; unfold policy_apply.
  - by rewrite E.
  - cbn [predicates existsb]. unfold predicate_eqb at 1, live_predicate, Filter.is_nil. cbn [field op value].
    unfold str_eqb. by rewrite !bool_decide_eq_true_2, R.
Qed.

Lemma policy_spec_selects_live {V} `{JsonLaws V} `{Lowercase} column (spec : Specification V) row :
  eval (policy_apply_spec column spec) row = value_is_null (field_of column row) && eval spec row.
Proof. unfold policy_apply_spec. by rewrite eval_spec_and. Qed.

(** * Scopes of read-only routing *)

(** A guard dropped on the thread that took it, after a body that keeps the
    flag, restores the flag. *)
Lemma read_only_scope thread flags body :
  is_read_only thread (body (snd (read_only thread flags))) = true ->
  is_read_only thread (drop_guard thread (fst (read_only thread flags)) (body (snd (read_only thread flags))))
  = is_read_only thread flags.
Proof. intros _. unfold drop_guard, is_read_only at 1. by rewrite lookup_insert_eq. Qed.

(** Guards dropped in the order they were taken leave the thread read-only:
    writes then go to the replica. *)
Example overlapping_guards :
  let '(a, flags) := read_only 0 ∅ in
  let '(b, flags) := read_only 0 flags in
  let flags := drop_guard 0 b (drop_guard 0 a flags) in
  route (mkPolicy (lit "primary") (Some (lit "replica"))) 0 flags = lit "replica".
Proof. vm_compute. reflexivity. Qed.

(** So does a guard that is dropped on another thread. *)
Example guard_moves_threads :
  let '(a, flags) := read_only 0 ∅ in
  route (mkPolicy (lit "primary") (Some (lit "replica"))) 0 (drop_guard 1 a flags) = lit "replica".
Proof. vm_compute. reflexivity. Qed.

(** * Concrete inputs *)

Program Definition by_key : ValueOrder nat nat := {| values m := (map_to_list m).*2 |}.
Next Obligation. done. Qed.
#[local] Existing Instance by_key.

Definition five : gmap nat nat := list_to_map [(1, 10); (2, 20); (3, 30); (4, 40); (5, 50)]%nat.

Lemma pages_partition_witness :
  exists ps, walk (V := json) (Z.to_nat (div_ceil (zlen (values five)) 2)) (mkPageable 1 2 []) five = map Some ps /\
    Permutation (concat (map content ps)) (map_to_list five).*2.
Proof.
  assert (pageable_of 1 2 [] = Ok (mkPageable 1 2 [])) as P by (vm_compute; reflexivity).
  assert (is_paged (mkPageable 1 2 []) = true) as Paged by (vm_compute; reflexivity).
  assert (zlen (values five) + 2 < 2 ^ 64) as Fits by (vm_compute; reflexivity).
  destruct (pages_partition (V := json) five 2 [] _ P Paged ltac:(lia) Fits) as (ps & W & Perm & _).
  exists ps. split; [exact W|exact Perm].
Defined.

(** Past the end of [usize] the offset wraps and a page far behind the last
    shows the first entities again. *)
Example offset_wraps :
  content <$> find (V := json) (mkFilter [] [] (2 ^ 62) 4) five = content <$> find (V := json) (mkFilter [] [] 0 4) five.
Proof. vm_compute. reflexivity. Qed.
