(* ===== verification/CustomQuery.v ===== *)
(** Custom queries: [crates/data/src/custom_query.rs].

    A query text with named parameters becomes a statement with positional
    placeholders and the arguments in their order. Where the code walks over
    bytes, so does the model: a byte is a number below 256. *)
From Stdlib Require Import Ascii String.
From Stdlib Require Import ZArith NArith List Lia ZifyBool ZifyN.
From stdpp Require Import base decidable list gmap.
From S2P Require Import Prelude Str Unicode Order Json Dialect.

Inductive QueryShape : Type := Count | Exists | List.

(** [u8::is_ascii_whitespace]: no vertical tab. *)
Definition is_ascii_whitespace (c : char) : bool := ((c =? 32) || (c =? 9) || (c =? 10) || (c =? 12) || (c =? 13))%N.

Definition ident_start (c : char) : bool := is_ascii_letter c || (c =? 95)%N.
Definition ident_byte (c : char) : bool := is_ascii_letter c || is_digit c || (c =? 95)%N.

Fixpoint skip (p : char -> bool) (s : str) : str :=
  match s with c :: s' => if p c then skip p s' else s | [] => [] end.

(** Every turn moves past one more [EXISTS]. *)
Fixpoint exists_loop (fuel : nat) (upper : str) : bool :=
  match fuel with
  | O => false
  | S n =>
      match find (lit "EXISTS") upper with
      | None => false
      | Some pos =>
          let after := skipn (pos + 6) upper in
          match skip is_ascii_whitespace after with
          | c :: _ => if (c =? 40)%N then true else exists_loop n after
          | [] => exists_loop n after
          end
      end
  end.

Definition contains_exists_call (upper : str) : bool := exists_loop (S (List.length upper)) upper.

Definition infer `{Uppercase} (sql : str) : QueryShape :=
  let upper := to_uppercase (trim_start sql) in
  if starts_with (lit "SELECT COUNT") upper then Count
  else if contains_exists_call upper then Exists
  else List.

(** * Binding *)

Inductive CustomQueryError : Type := MissingParameter (name : str).

Record BoundQuery (V : Type) : Type := mkBound { b_sql : str; b_args : list V; b_shape : QueryShape }.
Arguments mkBound {V}. Arguments b_sql {V}. Arguments b_args {V}. Arguments b_shape {V}.

Record CustomQuery : Type := mkQuery { q_value : str; native : bool }.

Definition native_query (value : str) : CustomQuery := mkQuery value true.
Definition jpql_query (value : str) : CustomQuery := mkQuery value false.

Section Bind.
Context {V : Type} (dialect : SqlDialect) (params : gmap str V).

(** What the loop pushes from here on, and the arguments: every byte that is
    copied is pushed as the character of its number. *)
Fixpoint bind_loop (fuel : nat) (bytes : list N) (args : list V) : Result (str * list V) CustomQueryError :=
  match fuel, bytes with
  | S n, c :: s =>
      let copy := r <-? bind_loop n s args; Ok (c :: fst r, snd r) in
      if (c =? 58)%N then
        match s with
        | d :: s' =>
            if (d =? 58)%N then r <-? bind_loop n s' args; Ok (lit "::" ++ fst r, snd r)
            else if ident_start d then
              let '(name, rest) := span ident_byte s in
              value <-? ok_or (params !! name) (MissingParameter name);
              r <-? bind_loop n rest (args ++ [value]);
              Ok (placeholder dialect (S (List.length args)) ++ fst r, snd r)
            else copy
        | [] => copy
        end
      else copy
  | _, _ => Ok ([], args)
  end.

Definition bind_named_params (sql_template : str) : Result (str * list V) CustomQueryError :=
  let bytes := as_bytes sql_template in bind_loop (List.length bytes) bytes [].
End Bind.

(** * From JPQL to SQL *)

(** [from <entity> ], lower-cased, and where it starts. *)
Definition from_needle (entity_name : str) : str := lit "from " ++ to_ascii_lowercase entity_name ++ lit " ".

Definition find_from_alias (jpql entity_name : str) : option str :=
  let needle := from_needle entity_name in
  pos ← find needle (to_ascii_lowercase jpql);
  let '(alias, _) := span ident_byte (skipn (pos + List.length needle) jpql) in
  if bool_decide (alias = []) then None else Some alias.

Definition replace_from_entity_alias (jpql entity_name table : str) : str :=
  let needle := from_needle entity_name in
  match find needle (to_ascii_lowercase jpql) with
  | None => jpql
  | Some pos =>
      let '(_, rest) := span ident_byte (skipn (pos + List.length needle) jpql) in
      firstn pos jpql ++ lit "FROM " ++ table ++ rest
  end.

Definition replace_select_alias (sql alias : str) : str :=
  let needle := lit "select " ++ to_ascii_lowercase alias in
  match find needle (to_ascii_lowercase sql) with
  | None => sql
  | Some pos =>
      let rest := skipn (pos + List.length needle) sql in
      match rest with
      | c :: _ => if ident_byte c || (c =? 46)%N then sql else firstn pos sql ++ lit "SELECT *" ++ rest
      | [] => firstn pos sql ++ lit "SELECT *" ++ rest
      end
  end.

(** The text in front of what is left to search is [done]. *)
Fixpoint count_loop (fuel : nat) (done rest alias : str) : str :=
  match fuel with
  | O => done ++ rest
  | S n =>
      match find (lit "count(") (to_ascii_lowercase rest) with
      | None => done ++ rest
      | Some rel =>
          let before := done ++ firstn (rel + 6) rest in
          let inner := skipn (rel + 6) rest in
          match find (lit ")") inner with
          | Some close =>
              if eq_ignore_ascii_case (trim (firstn close inner)) alias
              then before ++ lit "*" ++ skipn close inner
              else count_loop n before inner alias
          | None => count_loop n before inner alias
          end
      end
  end.

Definition replace_count_alias (sql alias : str) : str := count_loop (S (List.length sql)) [] sql alias.

(** [prev] is the character in front. *)
Fixpoint strip_loop (fuel : nat) (prev : option char) (s : str) (prefix : str) : str :=
  match fuel, s with
  | S n, c :: s' =>
      if starts_with (to_ascii_lowercase prefix) (to_ascii_lowercase s)
         && negb (match prev with Some p => ident_byte p | None => false end)
      then strip_loop n (last (firstn (List.length prefix) s)) (skipn (List.length prefix) s) prefix
      else c :: strip_loop n (Some c) s' prefix
  | _, _ => []
  end.

Definition strip_alias_prefix (sql alias : str) : str := strip_loop (List.length sql) None sql (alias ++ lit ".").

Fixpoint bool_loop (fuel : nat) (s : str) (literal repl : str) : str :=
  match fuel, s with
  | S n, c :: s' =>
      let rest := skip is_ascii_whitespace s' in
      let after := skipn (List.length literal) rest in
      let bounded := match after with a :: _ => negb (ident_byte a) | [] => true end in
      if (c =? 61)%N && starts_with (to_ascii_lowercase literal) (to_ascii_lowercase rest) && bounded
      then lit "= " ++ repl ++ bool_loop n after literal repl
      else c :: bool_loop n s' literal repl
  | _, _ => []
  end.

Definition replace_bool_literal (sql literal repl : str) : str := bool_loop (List.length sql) sql literal repl.

Definition transpile_jpql (jpql entity_name table : str) : str :=
  let sql := replace_from_entity_alias jpql entity_name table in
  let sql := match find_from_alias jpql entity_name with
             | Some alias => strip_alias_prefix (replace_count_alias (replace_select_alias sql alias) alias) alias
             | None => sql
             end in
  replace_bool_literal (replace_bool_literal sql (lit "true") (lit "1")) (lit "false") (lit "0").

(** [CustomQuery::bind]. *)
Definition query_bind {V} `{Uppercase} (q : CustomQuery) (dialect : SqlDialect) (entity_name table : str)
    (params : gmap str V) : Result (BoundQuery V) CustomQueryError :=
  let sql_template := if native q then q_value q else transpile_jpql (q_value q) entity_name table in
  let shape := infer sql_template in
  r <-? bind_named_params dialect params sql_template;
  Ok (mkBound (fst r) (snd r) shape).

(** * Documents *)

Section Documents.
Context {V : Type} `{JsonEntries V}.

(** [str::replace] of a text that is not empty. *)
Fixpoint replace_all (fuel : nat) (pat by_ s : str) : str :=
  match fuel, s with
  | S n, c :: s' =>
      match strip_prefix pat s with
      | Some rest => by_ ++ replace_all n pat by_ rest
      | None => c :: replace_all n pat by_ s'
      end
  | _, _ => s
  end.

Definition value_string_form (v : V) : str :=
  match view v with Value.String s => s | _ => value_to_string v end.

(** A [BTreeMap] in its order. *)
Definition sorted_params (params : gmap str V) : list (str * V) :=
  sort_by (fun a b => str_compare (fst a) (fst b)) (map_to_list params).

Definition substitute_embedded (params : list (str * V)) (s : str) : str :=
  fold_left (fun result p => replace_all (List.length result) (lit ":" ++ fst p) (value_string_form (snd p)) result) params s.

Definition substitute_string_param (s : str) (params : gmap str V) : V :=
  let whole :=
    name ← strip_prefix (lit ":") (trim s);
    if bool_decide (name = []) then None else params !! name in
  match whole with
  | Some value => value
  | None => json_string (substitute_embedded (sorted_params params) s)
  end.

(** [depth] bounds the nesting of the document. *)
Fixpoint substitute_named_params (depth : nat) (value : V) (params : gmap str V) : V :=
  match depth with
  | O => value
  | S n =>
      match view value with
      | Value.Object m =>
          json_object (fold_left (fun out e => map_insert (fst e) (substitute_named_params n (snd e) params) out)
                         (Json.entries m) map_new)
      | Value.Array items => json_array (map (fun v => substitute_named_params n v params) items)
      | Value.String s => substitute_string_param s params
      | _ => value
      end
  end.
End Documents.

(** * Theorems: parameters become placeholders in order *)

(** A template as its author reads it. *)
Inductive Piece : Type := Text (s : str) | Cast | Param (name : str).

Definition print_piece (p : Piece) : str :=
  match p with Text s => s | Cast => lit "::" | Param name => lit ":" ++ name end.
Definition print (ps : list Piece) : str := flat_map print_piece ps.

Definition plain_char (c : char) : bool := (c <? 128)%N && negb (c =? 58)%N.

(** Names are identifiers, and the text behind one does not continue it. *)
Fixpoint pieces_ok (ps : list Piece) : bool :=
  match ps with
  | [] => true
  | Text s :: ps => forallb plain_char s && pieces_ok ps
  | Cast :: ps => pieces_ok ps
  | Param name :: ps =>
      match name with c :: s => ident_start c && forallb ident_byte s | [] => false end
      && match print ps with c :: _ => negb (ident_byte c) | [] => true end && pieces_ok ps
  end.

Definition names (ps : list Piece) : list str := omap (fun p => match p with Param n => Some n | _ => None end) ps.

(** The statement, the next placeholder being the [k]th. *)
Fixpoint render_pieces (d : SqlDialect) (k : nat) (ps : list Piece) : str :=
  match ps with
  | [] => []
  | Text s :: ps => s ++ render_pieces d k ps
  | Cast :: ps => lit "::" ++ render_pieces d k ps
  | Param _ :: ps => placeholder d k ++ render_pieces d (S k) ps
  end.

(** The first name without a value, or the values in order. *)
Fixpoint arguments {V} (params : gmap str V) (ns : list str) : Result (list V) CustomQueryError :=
  match ns with
  | [] => Ok []
  | n :: ns => v <-? ok_or (params !! n) (MissingParameter n); vs <-? arguments params ns; Ok (v :: vs)
  end.

Section Binding.
Context {V : Type} (d : SqlDialect) (params : gmap str V).

Lemma bind_loop_text n s rest args : forallb plain_char s = true -> (List.length s <= n)%nat ->
  bind_loop d params n (s ++ rest) args =
  (r <-? bind_loop d params (n - List.length s) rest args; Ok (s ++ fst r, snd r)).
Proof.
  revert n. induction s as [|c s IH]; intros n F L; simpl in *.
  { rewrite Nat.sub_0_r. destruct (bind_loop d params n rest args) as [[? ?]|]; done. }
  apply andb_true_iff in F as [P F]. destruct n as [|n]; [lia|]. cbn [app bind_loop].
  assert ((c =? 58)%N = false) as -> by (unfold plain_char in P; lia).
  rewrite IH by (done || lia). cbn [Nat.sub]. by destruct (bind_loop d params (n - List.length s) rest args) as [[? ?]|].
Qed.

Lemma ident_start_byte c : ident_start c = true -> ident_byte c = true /\ (c =? 58)%N = false.
Proof. unfold ident_start, ident_byte, is_ascii_letter, is_digit. lia. Qed.

Lemma bind_pieces ps n args : pieces_ok ps = true -> (List.length (print ps) <= n)%nat ->
  bind_loop d params n (print ps) args =
  (vs <-? arguments params (names ps); Ok (render_pieces d (S (List.length args)) ps, args ++ vs)).
Proof.
  revert n args. induction ps as [|p ps IH]; intros n args O L.
  { cbn. rewrite app_nil_r. by destruct n. }
  destruct p as [s| |name]; cbn [print flat_map print_piece pieces_ok] in *; fold (print ps) in *.
  - apply andb_true_iff in O as [F O]. rewrite length_app in L. rewrite bind_loop_text by (done || lia).
    rewrite IH by (done || lia). change (names (Text s :: ps)) with (names ps). by destruct (arguments params (names ps)).
  - destruct n as [|n]; [simpl in L; lia|]. change (lit "::" ++ print ps) with (58%N :: 58%N :: print ps) in *.
    cbn [bind_loop N.eqb Pos.eqb]. rewrite IH by (done || simpl in L; lia).
    change (names (Cast :: ps)) with (names ps). by destruct (arguments params (names ps)).
  - apply andb_true_iff in O as [[N E]%andb_true_iff O]. destruct name as [|c name]; [done|].
    apply andb_true_iff in N as [S0 F]. destruct (ident_start_byte c S0) as [B C].
    destruct n as [|n]; [simpl in L; lia|]. simpl in L. rewrite length_app in L.
    assert (span ident_byte ((c :: name) ++ print ps) = (c :: name, print ps)) as Sp.
    { apply span_app; [cbn; by rewrite B|]. destruct (print ps) as [|x r]; [done|]. intros y [= <-]. by apply negb_true_iff. }
    change (lit ":" ++ c :: name) with (58%N :: c :: name). cbn [app] in Sp |- *. cbn [bind_loop N.eqb Pos.eqb].
    rewrite C, S0, Sp. change (names (Param (c :: name) :: ps)) with ((c :: name) :: names ps). cbn [arguments].
    destruct (params !! (c :: name : str)) as [v|]; [|done]. cbn [ok_or result_bind]. rewrite IH by (done || lia).
    rewrite length_app. cbn [List.length]. rewrite Nat.add_1_r.
    destruct (arguments params (names ps)) as [vs|]; [|done]. cbn. by rewrite <- app_assoc.
Qed.

Lemma pieces_ascii ps : pieces_ok ps = true -> Forall (fun c => (c < 128)%N) (print ps).
Proof.
  assert (forall c, ident_byte c = true -> (c < 128)%N) as I.
  { intros c. unfold ident_byte, is_ascii_letter, is_digit. lia. }
  induction ps as [|p ps IH]; intros O; [constructor|]. cbn [print flat_map]. apply Forall_app.
  destruct p as [s| |name]; cbn [pieces_ok print_piece] in *.
  - apply andb_true_iff in O as [F O]. split; [|by apply IH]. apply List.Forall_forall. intros c In.
    apply (proj1 (forallb_forall _ _) F) in In. unfold plain_char in In. lia.
  - split; [by repeat constructor|by apply IH].
  - apply andb_true_iff in O as [[N _]%andb_true_iff O]. split; [|by apply IH]. constructor; [done|].
    destruct name as [|c name]; [done|]. apply andb_true_iff in N as [S0 F].
    constructor; [by apply I, ident_start_byte|]. apply List.Forall_forall. intros x In.
    apply I. by apply (proj1 (forallb_forall _ _) F).
Qed.
End Binding.

(** Binding a template of ASCII text, casts and named parameters gives the
    text with the dialect's placeholders numbered from one in the order of the
    occurrences, and the values of the occurrences in the same order; the
    first parameter without a value is the one reported. The statement depends
    on the names only: no value reaches it. *)
Theorem parameters_bind_in_order {V} (d : SqlDialect) (ps : list Piece) (params : gmap str V)
    (O : pieces_ok ps = true) :
  bind_named_params d params (print ps) = (vs <-? arguments params (names ps); Ok (render_pieces d 1 ps, vs)).
Proof.
  unfold bind_named_params. rewrite (as_bytes_ascii _ (pieces_ascii ps O)).
  by rewrite bind_pieces.
Qed.

(** * Concrete inputs *)

#[local] Existing Instance ascii_uppercase.

Definition by_email : list Piece :=
  [Text (lit "SELECT id"); Cast; Text (lit "text FROM users WHERE email = "); Param (lit "email"); Text (lit " OR alias = ");
   Param (lit "email")].

Lemma parameters_bind_in_order_witness :
  bind_named_params PostgresDialect {[lit "email" := 7]}
    (lit "SELECT id::text FROM users WHERE email = :email OR alias = :email")
  = Ok (lit "SELECT id::text FROM users WHERE email = $1 OR alias = $2", [7; 7]).
Proof.
  refine (eq_trans (parameters_bind_in_order PostgresDialect by_email {[lit "email" := 7]} eq_refl) _).
  vm_compute. reflexivity.
Defined.

Example entity_select : transpile_jpql (lit "SELECT u FROM User u WHERE u.email = :email AND u.active = true") (lit "User") (lit "users")
  = lit "SELECT * FROM users WHERE email = :email AND active = 1".
Proof. vm_compute. reflexivity. Qed.

Example entity_count : transpile_jpql (lit "SELECT COUNT(u) FROM User u WHERE u.role = :role") (lit "User") (lit "users")
  = lit "SELECT COUNT(*) FROM users WHERE role = :role".
Proof. vm_compute. reflexivity. Qed.

(** Text outside ASCII is pushed byte by byte and arrives garbled: the word
    with an e acute has two characters in its place. *)
Example not_ascii_is_garbled :
  bind_named_params (V := Z) PostgresDialect ∅ [99; 97; 102; 233]%N = Ok ([99; 97; 102; 195; 169]%N, []).
Proof. vm_compute. reflexivity. Qed.

(** A name inside a literal is taken for a parameter. *)
Example literal_is_bound :
  bind_named_params (V := Z) PostgresDialect ∅ (lit "SELECT * FROM t WHERE x = 'a:b'") = Err (MissingParameter (lit "b")).
Proof. vm_compute. reflexivity. Qed.

(** The alias is stripped inside literals too. *)
Example literal_loses_alias : transpile_jpql (lit "SELECT u FROM User u WHERE u.host = 'u.example'") (lit "User") (lit "users")
  = lit "SELECT * FROM users WHERE host = 'example'".
Proof. vm_compute. reflexivity. Qed.

(** A parameter whose name starts with another's is replaced in part, and a
    value that looks like a parameter is replaced in its turn. *)
Example embedded_prefix :
  substitute_string_param (lit "order-:id2") (<[lit "id" := JNumber 1]> {[lit "id2" := JNumber 9]}) = JString (lit "order-12").
Proof. vm_compute. reflexivity. Qed.
Example embedded_again :
  substitute_string_param (lit "a :a") (<[lit "a" := JString (lit ":b")]> {[lit "b" := JString (lit "secret")]})
  = JString (lit "a secret").
Proof. vm_compute. reflexivity. Qed.
