(* ===== verification/AnyType.v ===== *)
(** Values of any type, as [dyn Any] has them: the types that travel are the
    codes of a class, a value is a pair of a code and an element of its type, and
    a downcast compares codes. *)
From Stdlib Require Import ZArith NArith List.
From Stdlib Require Import Eqdep_dec.
From stdpp Require Import base decidable countable.
From S2P Require Import Prelude Str.

Class Universe : Type := {
  code : Type;
  code_eq_dec :: EqDecision code;
  code_countable :: Countable code;
  denote : code -> Type;
  type_name : code -> str
}.

Definition Any `{Universe} : Type := sigT denote.

Definition downcast `{Universe} (C : code) (a : Any) : option (denote C) :=
  match decide (projT1 a = C) with
  | left e => Some (eq_rect (projT1 a) denote (projT2 a) C e)
  | right _ => None
  end.

Lemma decide_self `{Universe} (C : code) : decide (C = C) = left eq_refl.
Proof. destruct (decide (C = C)) as [e|]; [|done]. f_equal. apply (UIP_dec code_eq_dec). Qed.

Lemma downcast_same `{Universe} C (m : denote C) : downcast C (existT C m) = Some m.
Proof. unfold downcast. simpl. by rewrite decide_self. Qed.
