(* ===== verification/Lifecycle.v ===== *)
(** The application runner: [crates/lifecycle/src/lib.rs].

    [run] awaits user code all the way: start hooks one after the other, a
    [select!] over the triggers, the server tasks it drains, stop hooks. What it
    does between two awaits is one transition, and the events are what the
    awaited futures, the server tasks, the holders of a handle, the operating
    system and the clock do; an execution is a sequence of events, so what holds
    of every sequence holds of every schedule. A hook that panics unwinds [run]
    itself and is left out; a server that panics ends without a message. *)
From Stdlib Require Import Ascii String.
From Stdlib Require Import ZArith NArith List Lia.
From stdpp Require Import base decidable list.
From S2P Require Import Prelude Str.

Definition DRAIN_TIMEOUT : Z := from_secs 30.

(** * Errors *)

Section Errors.
Context {E : Type}.

(** A [HookError] is the hook's own, or tokio's [Elapsed]. *)
Inductive HookError : Type :=
| Raised (e : E)
| Elapsed.
Definition HookResult : Type := Result unit HookError.

Inductive LifecycleError : Type :=
| Cancelled
| StartHook (index : nat) (source : HookError)
| StopHook (index : nat) (source : HookError)
| Server (name : str) (source : HookError)
| DrainTimedOut (pending : nat)
| Joined (errs : list LifecycleError).

(** [LifecycleError::join]. *)
Definition join_lifecycle (errs : list LifecycleError) : option LifecycleError :=
  match errs with
  | [] => None
  | [e] => Some e
  | _ => Some (Joined errs)
  end.

Fixpoint is_cancelled (e : LifecycleError) : bool :=
  match e with
  | Cancelled => true
  | Joined errs => existsb is_cancelled errs
  | _ => false
  end.

Fixpoint flattened (e : LifecycleError) : list LifecycleError :=
  match e with
  | Joined errs => flat_map flattened errs
  | _ => [e]
  end.
End Errors.
Arguments HookError : clear implicits. Arguments HookResult : clear implicits. Arguments LifecycleError : clear implicits.

(** * The application and its run *)

(** [H] are the hooks, [S] the server functions: closures the runner calls. *)
Record Application (H S : Type) : Type := mkApp {
  app_name : str;
  drain : Z;
  trap_signals : bool;
  starts : list H;
  stops : list H;
  servers : list (str * S)
}.
Arguments mkApp {H S}. Arguments app_name {H S} _. Arguments drain {H S} _. Arguments trap_signals {H S} _.
Arguments starts {H S} _. Arguments stops {H S} _. Arguments servers {H S} _.

Section Builder.
Context {H S : Type}.
Implicit Type app : Application H S.

Definition app_new (name : str) : Application H S := mkApp name DRAIN_TIMEOUT true [] [] [].
Definition with_drain_timeout (d : Z) app := mkApp (app_name app) d (trap_signals app) (starts app) (stops app) (servers app).
Definition with_signal_trap (enabled : bool) app := mkApp (app_name app) (drain app) enabled (starts app) (stops app) (servers app).
Definition on_start (hook : H) app := mkApp (app_name app) (drain app) (trap_signals app) (starts app ++ [hook]) (stops app) (servers app).
Definition on_stop (hook : H) app := mkApp (app_name app) (drain app) (trap_signals app) (starts app) (stops app ++ [hook]) (servers app).
Definition on_server (name : str) (server : S) app :=
  mkApp (app_name app) (drain app) (trap_signals app) (starts app) (stops app) (servers app ++ [(name, server)]).

Definition effective_drain (d : Z) : Z := if d =? 0 then DRAIN_TIMEOUT else d.
End Builder.

Section Run.
Context {H S E : Type} (app : Application H S).
Abbreviation HookResult := (HookResult E).
Abbreviation LifecycleError := (LifecycleError E).

(** The branches of the [select!], and what the one taken brought. *)
Inductive Branch : Type := OnHandle | OnSignal | OnServer.
Inductive Trigger : Type :=
| Requested
| Signalled
| ServerExit (name : str) (result : HookResult).

(** Where [run] is awaiting. [Stopping] has no deadline in a rollback. *)
Inductive Phase : Type :=
| Starting (index : nat) (rest : list H)
| Blocked
| Draining (deadline : Z) (finished : nat) (errs : list LifecycleError)
| Stopping (deadline : option Z) (todo : list (nat * H)) (errs : list LifecycleError)
| Done (result : Result unit LifecycleError)
| Panicked.

(** What was called and what came of it, for the statements. *)
Inductive Entry : Type :=
| StartCalled (index : nat) (hook : H)
| StartEnded (index : nat) (result : HookResult)
| Spawned (index : nat) (server : str * S)
| Selected (t : Trigger)
| DrainFired (deadline : Z)
| Received (exited : str * HookResult)
| TimedOut (pending : nat) (at_ : Z)
| StopCalled (index : nat) (hook : H)
| StopEnded (index : nat) (result : HookResult).

(** [fired] is the value in the shutdown channel, [draining] the one in the
    drain channel, [queue] the server results waiting in the [mpsc]. *)
Record Run : Type := mkRun {
  now : Z;
  fired : bool;
  signalled : bool;
  tasks : list (str * bool);
  queue : list (str * HookResult);
  draining : bool;
  phase : Phase;
  history : list Entry
}.

Inductive Event : Type :=
| Pass (d : Z)
| Shutdown
| OsSignal
| ServerReturns (i : nat) (result : HookResult)
| ServerPanics (i : nat)
| HookReturns (result : HookResult)
| Select (b : Branch)
| Receive
| DrainElapses
| StopElapses.

Definition goto (p : Phase) (h : list Entry) (r : Run) : Run :=
  mkRun (now r) (fired r) (signalled r) (tasks r) (queue r) (draining r) p (history r ++ h).

(** [ShutdownHandle::shutdown]. *)
Definition shutdown (r : Run) : Run := mkRun (now r) true (signalled r) (tasks r) (queue r) (draining r) (phase r) (history r).

(** [ShutdownSignal::is_shutdown], and when [wait] resolves: also once the
    runner is gone. *)
Definition is_shutdown (r : Run) : bool := draining r.
Definition wait_resolves (r : Run) : bool :=
  draining r || match phase r with Done _ | Panicked => true | _ => false end.

Definition to_result (errs : list LifecycleError) : Result unit LifecycleError :=
  match join_lifecycle errs with None => Ok tt | Some err => Err err end.

(** [run_stops], from the hook that is called next. *)
Definition next_stop (deadline : option Z) (todo : list (nat * H)) (errs : list LifecycleError) (r : Run) : Run :=
  match todo with
  | [] => goto (Done (to_result errs)) [] r
  | (i, hook) :: _ => goto (Stopping deadline todo errs) [StopCalled i hook] r
  end.
Definition run_stops (deadline : option Z) (errs : list LifecycleError) (r : Run) : Run :=
  next_stop deadline (rev (imap pair (stops app))) errs r.

(** Every server gets its task; then [run] blocks on the triggers. *)
Definition spawn_servers (r : Run) : Run :=
  goto Blocked (imap Spawned (servers app))
    (mkRun (now r) (fired r) (signalled r) (map (fun s => (fst s, true)) (servers app)) (queue r) (draining r) (phase r) (history r)).

Definition next_start (index : nat) (rest : list H) (r : Run) : Run :=
  match rest with
  | [] => spawn_servers r
  | hook :: _ => goto (Starting index rest) [StartCalled index hook] r
  end.

(** A server task sends its result, if the runner still listens. *)
Definition end_task (i : nat) (message : option HookResult) (r : Run) : option Run :=
  match tasks r !! i with
  | Some (name, true) =>
      Some (mkRun (now r) (fired r) (signalled r) (<[i := (name, false)]> (tasks r))
        (match message with Some result => queue r ++ [(name, result)] | None => queue r end)
        (draining r) (phase r) (history r))
  | _ => None
  end.

(** The drain loop ends when no server is left. *)
Definition drain_loop (deadline : Z) (finished : nat) (errs : list LifecycleError) (r : Run) : Run :=
  if (finished <? List.length (servers app))%nat then goto (Draining deadline finished errs) [] r
  else run_stops (Some deadline) errs r.

(** The deadline of the drain, which the addition panics on past the largest
    instant; then the drain signal. *)
Definition fire_drain (finished : nat) (errs : list LifecycleError) (r : Run) : Run :=
  let deadline := now r + effective_drain (drain app) in
  if INSTANT_MAX <? deadline then goto Panicked [] r
  else
    drain_loop deadline finished errs
      (goto (phase r) [DrainFired deadline] (mkRun (now r) (fired r) (signalled r) (tasks r) (queue r) true (phase r) (history r))).

Definition pop_queue (r : Run) : Run :=
  mkRun (now r) (fired r) (signalled r) (tasks r) (tail (queue r)) (draining r) (phase r) (history r).

(** One branch of the [select!], when it is ready. *)
Definition select (b : Branch) (r : Run) : option Run :=
  match b with
  | OnHandle => if fired r then Some (fire_drain 0 [Cancelled] (goto (phase r) [Selected Requested] r)) else None
  | OnSignal => if signalled r then Some (fire_drain 0 [] (goto (phase r) [Selected Signalled] r)) else None
  | OnServer =>
      match queue r with
      | (name, result) :: _ =>
          Some (fire_drain 1 (match result with Ok _ => [] | Err source => [Server name source] end)
                  (goto (phase r) [Selected (ServerExit name result)] (pop_queue r)))
      | [] => None
      end
  end.

(** One turn of the drain loop: a result that waits is taken before the timer
    is looked at. *)
Definition receive (deadline : Z) (finished : nat) (errs : list LifecycleError) (r : Run) : option Run :=
  match queue r with
  | (name, result) :: _ =>
      Some (drain_loop deadline (finished + 1)
              (errs ++ match result with Ok _ => [] | Err source => [Server name source] end)
              (goto (phase r) [Received (name, result)] (pop_queue r)))
  | [] => None
  end.
Definition drain_elapses (deadline : Z) (finished : nat) (errs : list LifecycleError) (r : Run) : option Run :=
  match queue r with
  | [] =>
      if now r <? deadline then None
      else
        let pending := (List.length (servers app) - finished)%nat in
        Some (run_stops (Some deadline) (errs ++ [DrainTimedOut pending]) (goto (phase r) [TimedOut pending (now r)] r))
  | _ => None
  end.

(** The stop hook that runs ends. *)
Definition stop_ended (deadline : option Z) (todo : list (nat * H)) (errs : list LifecycleError) (result : HookResult) (r : Run) : option Run :=
  match todo with
  | (i, _) :: todo =>
      Some (next_stop deadline todo (errs ++ match result with Ok _ => [] | Err source => [StopHook i source] end)
              (goto (phase r) [StopEnded i result] r))
  | [] => None
  end.

(** The start hook that runs ends; a failure rolls back without a deadline. *)
Definition start_ended (index : nat) (rest : list H) (result : HookResult) (r : Run) : Run :=
  let r := goto (phase r) [StartEnded index result] r in
  match result with
  | Ok _ => next_start (index + 1) (tail rest) r
  | Err source => run_stops None [StartHook index source] r
  end.

Definition step (e : Event) (r : Run) : option Run :=
  match e, phase r with
  | Pass d, _ =>
      if d <? 0 then None
      else Some (mkRun (now r + d) (fired r) (signalled r) (tasks r) (queue r) (draining r) (phase r) (history r))
  | Shutdown, _ => Some (shutdown r)
  | OsSignal, Blocked =>
      if trap_signals app
      then Some (mkRun (now r) (fired r) true (tasks r) (queue r) (draining r) (phase r) (history r)) else None
  | ServerReturns i result, _ => end_task i (Some result) r
  | ServerPanics i, _ => end_task i None r
  | HookReturns result, Starting index rest => Some (start_ended index rest result r)
  | HookReturns result, Stopping deadline todo errs => stop_ended deadline todo errs result r
  | Select b, Blocked => select b r
  | Receive, Draining deadline finished errs => receive deadline finished errs r
  | DrainElapses, Draining deadline finished errs => drain_elapses deadline finished errs r
  | StopElapses, Stopping (Some deadline) todo errs =>
      if now r <? deadline then None else stop_ended (Some deadline) todo errs (Err Elapsed) r
  | _, _ => None
  end.

(** [run], called at an instant; a handle may have fired before. *)
Definition begin (at_ : Z) (fired : bool) : Run :=
  next_start 0 (starts app) (mkRun at_ fired false [] [] false Blocked []).

Fixpoint run_events (es : list Event) (r : Run) : option Run :=
  match es with
  | [] => Some r
  | e :: es => r ← step e r; run_events es r
  end.

(** * Theorems *)

(** ** Errors *)

Lemma cancelled_flattened (e : LifecycleError) :
  is_cancelled e = existsb (fun l => match l with Cancelled => true | _ => false end) (flattened e).
Proof.
  revert e. fix IH 1. intros [| | | | |errs]; [done..|]. simpl.
  induction errs as [|e errs IHe]; [done|]. simpl. by rewrite existsb_app, IH, IHe.
Qed.

Definition leaf (e : LifecycleError) : bool := match e with Joined _ => false | _ => true end.

Lemma join_flattened (errs : list LifecycleError) : forallb leaf errs = true ->
  match join_lifecycle errs with None => [] | Some e => flattened e end = errs.
Proof.
  intros L. assert (flat_map flattened errs = errs) as F.
  { induction errs as [|e errs IH]; [done|]. simpl in *. apply andb_true_iff in L as [L1 L2].
    rewrite (IH L2). by destruct e. }
  destruct errs as [|e [|e' errs]]; [done| |exact F]. simpl in *. destruct e; try done.
Qed.

(** ** What a run has done

    The history of a run is its start hooks, the servers, the trigger, the
    results it took and the stop hooks; its errors are read off that history. *)

Definition error_of (en : Entry) : option LifecycleError :=
  match en with
  | StartEnded i (Err e) => Some (StartHook i e)
  | Selected Requested => Some Cancelled
  | Selected (ServerExit name (Err e)) | Received (name, Err e) => Some (Server name e)
  | TimedOut pending _ => Some (DrainTimedOut pending)
  | StopEnded i (Err e) => Some (StopHook i e)
  | _ => None
  end.

Definition exit_taken (en : Entry) : option (str * HookResult) :=
  match en with
  | Selected (ServerExit name result) => Some (name, result)
  | Received x => Some x
  | _ => None
  end.

(** The server results of an execution, in order. *)
Definition exit_of (e : Event) : option (str * HookResult) :=
  match e with ServerReturns i result => s ← servers app !! i; Some (fst s, result) | _ => None end.

Definition started (n : nat) : list Entry :=
  concat (imap (fun i hook => [StartCalled i hook; StartEnded i (Ok tt)]) (take n (starts app))).

Definition backwards : list (nat * H) := rev (imap pair (stops app)).

Definition stopped (rs : list HookResult) : list Entry :=
  concat (zip_with (fun ih result => [StopCalled (fst ih) (snd ih); StopEnded (fst ih) result]) backwards rs).

(** How the part in front of the stop hooks ends: with a failed start hook, or
    with a drain that took the result of every server or ran out of time; then
    it had taken all there were. *)
Definition late_ok (es : list Event) (deadline : Z) (taken : list (str * HookResult)) (late : list Entry) : Prop :=
  let n := List.length (servers app) in
  (late = [] /\ List.length taken = n) \/
  (exists es1 es2 at_, es = es1 ++ DrainElapses :: es2 /\ taken = omap exit_of es1 /\
     late = [TimedOut (n - List.length taken) at_] /\ (List.length taken < n)%nat /\ deadline <= at_).

Definition drained (t : Trigger) (deadline : Z) (received : list (str * HookResult)) : list Entry :=
  started (List.length (starts app)) ++ imap Spawned (servers app) ++ [Selected t; DrainFired deadline] ++ map Received received.

Definition front_ok (es : list Event) (front : list Entry) : Prop :=
  (exists index hook e, starts app !! index = Some hook /\
     front = started index ++ [StartCalled index hook; StartEnded index (Err e)]) \/
  (exists t deadline received late, front = drained t deadline received ++ late /\
     late_ok es deadline (omap exit_taken front) late).

Definition phase_ok (es : list Event) (p : Phase) (h : list Entry) : Prop :=
  match p with
  | Starting index rest =>
      exists hook, starts app !! index = Some hook /\ rest = drop index (starts app) /\
        h = started index ++ [StartCalled index hook]
  | Blocked => h = started (List.length (starts app)) ++ imap Spawned (servers app)
  | Draining deadline finished errs =>
      (exists t received, h = drained t deadline received) /\ finished = List.length (omap exit_taken h) /\
      (finished < List.length (servers app))%nat /\ errs = omap error_of h
  | Stopping _ todo errs =>
      exists front rs i hook, front_ok es front /\ h = front ++ stopped rs ++ [StopCalled i hook] /\
        backwards !! List.length rs = Some (i, hook) /\ todo = drop (List.length rs) backwards /\ errs = omap error_of h
  | Done result =>
      exists front rs, front_ok es front /\ h = front ++ stopped rs /\ List.length rs = List.length (stops app) /\
        result = to_result (omap error_of h)
  | Panicked => True
  end.

Definition alive (l : list (str * bool)) : nat := List.length (List.filter snd l).

Record inv (es : list Event) (r : Run) : Prop := mkInv {
  inv_queue : omap exit_taken (history r) ++ queue r = omap exit_of es;
  inv_tasks : tasks r = [] \/ map fst (tasks r) = map fst (servers app);
  inv_alive : (List.length (omap exit_of es) + alive (tasks r) <= List.length (tasks r))%nat;
  inv_starting : match phase r with Starting _ _ => tasks r = [] | _ => True end;
  inv_phase : phase_ok es (phase r) (history r)
}.

(** ** Every transition keeps it *)

Lemma started_snoc index hook : starts app !! index = Some hook ->
  started (index + 1) = started index ++ [StartCalled index hook; StartEnded index (Ok tt)].
Proof.
  intros L. unfold started. replace (index + 1)%nat with (Datatypes.S index) by lia.
  rewrite (take_S_r _ _ _ L), imap_app, concat_app. simpl.
  pose proof (lookup_lt_Some _ _ _ L). rewrite length_take, Nat.min_l, Nat.add_0_r by lia. done.
Qed.

Lemma length_backwards : List.length backwards = List.length (stops app).
Proof. unfold backwards. by rewrite length_rev, length_imap. Qed.

Lemma stopped_snoc rs i hook result : backwards !! List.length rs = Some (i, hook) ->
  stopped (rs ++ [result]) = stopped rs ++ [StopCalled i hook; StopEnded i result].
Proof.
  unfold stopped. revert rs. induction backwards as [|ih l IH]; intros rs L; [done|].
  destruct rs as [|result' rs]; cbn [List.length lookup list_lookup Datatypes.app zip_with concat] in *.
  - injection L as ->. by destruct l.
  - by rewrite (IH rs L).
Qed.

Lemma omap_concat_imap {A B} (g : Entry -> option B) (f : nat -> A -> list Entry) l :
  (forall i x, omap g (f i x) = []) -> omap g (concat (imap f l)) = [].
Proof.
  revert f. induction l as [|x l IH]; intros f F; [done|]. rewrite imap_cons. cbn [concat].
  rewrite omap_app, F. apply (IH (f ∘ Datatypes.S)). intros. apply F.
Qed.

Lemma omap_imap {A B} (g : Entry -> option B) (f : nat -> A -> Entry) l :
  (forall i x, g (f i x) = None) -> omap g (imap f l) = [].
Proof.
  intros F. transitivity (omap g (concat (imap (fun i x => [f i x]) l))).
  - f_equal. revert f F. induction l as [|x l IH]; intros f F; [done|]. rewrite !imap_cons. cbn [concat Datatypes.app].
    f_equal. exact (IH (f ∘ Datatypes.S) (fun i => F (Datatypes.S i))).
  - apply omap_concat_imap. intros. simpl. by rewrite F.
Qed.

(** Nothing that is read off a history is in its uneventful parts. *)
Lemma started_silent n : omap exit_taken (started n) = [] /\ omap error_of (started n) = [].
Proof. split; by apply omap_concat_imap. Qed.

Lemma spawned_silent : omap exit_taken (imap Spawned (servers app)) = [] /\ omap error_of (imap Spawned (servers app)) = [].
Proof. split; by apply omap_imap. Qed.

Lemma stopped_no_exit rs : omap exit_taken (stopped rs) = [].
Proof.
  unfold stopped. revert rs. induction backwards as [|ih l IH]; intros [|result rs]; [done..|]. exact (IH rs).
Qed.

Lemma front_mono es e front : front_ok es front -> front_ok (es ++ [e]) front.
Proof.
  intros [L|(t & dl & received & late & F & O)]; [by left|]. right. exists t, dl, received, late. split; [done|].
  destruct O as [O|(es1 & es2 & at_ & -> & O)]; [by left|]. right. exists es1, (es2 ++ [e]), at_. by rewrite <- app_assoc.
Qed.

Lemma phase_mono es e p h : phase_ok es p h -> phase_ok (es ++ [e]) p h.
Proof.
  destruct p; try done; simpl.
  - intros (front & rs & i & hook & F & R). exists front, rs, i, hook. split; [by apply front_mono|done].
  - intros (front & rs & F & R). exists front, rs. split; [by apply front_mono|done].
Qed.

(** The stop hooks that are left are called. *)
Lemma next_stop_ok es deadline front rs errs r :
  front_ok es front -> history r = front ++ stopped rs -> (List.length rs <= List.length (stops app))%nat ->
  errs = omap error_of (history r) ->
  let r' := next_stop deadline (drop (List.length rs) backwards) errs r in phase_ok es (phase r') (history r').
Proof.
  intros F Hh Le He. cbn zeta. unfold next_stop. destruct (drop (List.length rs) backwards) as [|[i hook] todo] eqn:D.
  - cbn. rewrite app_nil_r. exists front, rs. split_and!; [done|done| |by rewrite <- He].
    apply (f_equal List.length) in D. rewrite length_drop, length_backwards in D. simpl in D. lia.
  - assert (backwards !! List.length rs = Some (i, hook)) as L.
    { rewrite <- (Nat.add_0_r (List.length rs)), <- lookup_drop. by rewrite D. }
    cbn. exists front, rs, i, hook. rewrite D, Hh, <- app_assoc, He, Hh. split_and!; try done.
    by rewrite !omap_app, app_nil_r.
Qed.

Lemma run_stops_ok es deadline front errs r :
  front_ok es front -> history r = front -> errs = omap error_of (history r) ->
  let r' := run_stops deadline errs r in phase_ok es (phase r') (history r').
Proof.
  intros F Hh He. apply (next_stop_ok es deadline front [] errs r F); [|simpl; lia|done].
  by rewrite Hh; unfold stopped; destruct backwards; rewrite app_nil_r.
Qed.

Lemma next_start_ok es index r : (index <= List.length (starts app))%nat -> history r = started index ->
  let r' := next_start index (drop index (starts app)) r in phase_ok es (phase r') (history r').
Proof.
  intros Le Hh. cbn zeta. unfold next_start. destruct (drop index (starts app)) as [|hook rest] eqn:D; cbn.
  - apply (f_equal List.length) in D. rewrite length_drop in D. simpl in D. by replace (List.length (starts app)) with index by lia; rewrite Hh.
  - exists hook. rewrite D, Hh. split_and!; try done. rewrite <- (Nat.add_0_r index), <- lookup_drop. by rewrite D.
Qed.

Lemma drained_errors t deadline received :
  omap error_of (drained t deadline received) = omap error_of [Selected t] ++ omap error_of (map Received received).
Proof.
  unfold drained. rewrite !omap_app, (proj2 (started_silent _)), (proj2 spawned_silent). simpl.
  by destruct (match t with Requested => _ | Signalled => _ | ServerExit _ _ => _ end).
Qed.

Lemma drained_exits t deadline received :
  omap exit_taken (drained t deadline received) = omap exit_taken [Selected t] ++ received.
Proof.
  unfold drained. rewrite !omap_app, (proj1 (started_silent _)), (proj1 spawned_silent).
  assert (omap exit_taken (map Received received) = received) as -> by (clear; induction received as [|x l IH]; [done|by apply (f_equal (cons x)) in IH]).
  by destruct t.
Qed.

Lemma drain_loop_ok es t deadline received finished errs r :
  history r = drained t deadline received -> finished = List.length (omap exit_taken (history r)) ->
  (finished <= List.length (servers app))%nat -> errs = omap error_of (history r) ->
  let r' := drain_loop deadline finished errs r in phase_ok es (phase r') (history r').
Proof.
  intros Hh Hf Le He. cbn zeta. unfold drain_loop. destruct (Nat.ltb_spec finished (List.length (servers app))).
  - cbn. rewrite app_nil_r. split_and!; [by exists t, received|done|done|done].
  - apply (run_stops_ok es _ (history r)); [|done|done]. right. exists t, deadline, received, [].
    rewrite app_nil_r. split; [done|]. left. split; [done|lia].
Qed.

Lemma fire_drain_ok es t finished errs r :
  history r = started (List.length (starts app)) ++ imap Spawned (servers app) ++ [Selected t] ->
  finished = List.length (omap exit_taken [Selected t]) -> (finished <= List.length (servers app))%nat ->
  errs = omap error_of [Selected t] ->
  let r' := fire_drain finished errs r in phase_ok es (phase r') (history r').
Proof.
  intros Hh Hf Le He. cbn zeta. unfold fire_drain. destruct (INSTANT_MAX <? _); [done|].
  set (r0 := goto _ _ _). assert (history r0 = drained t (now r + effective_drain (drain app)) []) as Hh0.
  { unfold r0, drained. cbn. rewrite Hh, <- !app_assoc. done. }
  apply (drain_loop_ok es t _ []); [done| |done|]; rewrite Hh0.
  - by rewrite drained_exits, app_nil_r.
  - by rewrite drained_errors, app_nil_r.
Qed.

(** What no transition of the runner's touches but the taking of a result. *)
Definition quiet (r r' : Run) : Prop :=
  queue r' = queue r /\ tasks r' = tasks r /\ omap exit_taken (history r') = omap exit_taken (history r).

Lemma goto_quiet p h r : omap exit_taken h = [] -> quiet r (goto p h r).
Proof. intros N. split_and!; try done. cbn. by rewrite omap_app, N, app_nil_r. Qed.

Lemma next_stop_quiet deadline todo errs r : quiet r (next_stop deadline todo errs r).
Proof. unfold next_stop. destruct todo as [|[i hook] todo]; by apply goto_quiet. Qed.

Lemma drain_loop_quiet deadline finished errs r : quiet r (drain_loop deadline finished errs r).
Proof. unfold drain_loop. destruct (_ <? _)%nat; [by apply goto_quiet|apply next_stop_quiet]. Qed.

Lemma run_quiet_trans r1 r2 r3 : quiet r1 r2 -> quiet r2 r3 -> quiet r1 r3.
Proof. intros (?&?&?) (?&?&?). split_and!; congruence. Qed.

Lemma fire_drain_quiet finished errs r : quiet r (fire_drain finished errs r).
Proof.
  unfold fire_drain. destruct (INSTANT_MAX <? _); [by apply goto_quiet|].
  eapply run_quiet_trans; [|apply drain_loop_quiet]. split_and!; try done. cbn. by rewrite omap_app, app_nil_r.
Qed.

Definition after_start (p : Phase) : Prop := match p with Starting _ _ => False | _ => True end.

Lemma next_stop_after deadline todo errs r : after_start (phase (next_stop deadline todo errs r)).
Proof. by destruct todo as [|[i hook] todo]. Qed.

Lemma drain_loop_after deadline finished errs r : after_start (phase (drain_loop deadline finished errs r)).
Proof. unfold drain_loop. destruct (_ <? _)%nat; [done|apply next_stop_after]. Qed.

Lemma fire_drain_after finished errs r : after_start (phase (fire_drain finished errs r)).
Proof. unfold fire_drain. destruct (INSTANT_MAX <? _); [done|apply drain_loop_after]. Qed.

Lemma inv_bound es r : inv es r -> (List.length (omap exit_taken (history r)) + List.length (queue r) <= List.length (servers app))%nat.
Proof.
  intros [Q T A _ _]. rewrite <- length_app, Q. destruct T as [T|T]; [rewrite T in A; simpl in A; lia|].
  apply (f_equal List.length) in T. rewrite !length_map in T. lia.
Qed.

(** A transition that is quiet and behind the start phase. *)
Lemma inv_quiet es e r r1 r' : inv es r -> exit_of e = None ->
  tasks r1 = tasks r -> omap exit_taken (history r1) ++ queue r1 = omap exit_taken (history r) ++ queue r ->
  quiet r1 r' -> after_start (phase r') -> phase_ok (es ++ [e]) (phase r') (history r') -> inv (es ++ [e]) r'.
Proof.
  intros [Q T A _ _] N Et Eq (Q' & T' & X') P' Ok.
  assert (omap exit_of (es ++ [e]) = omap exit_of es) as Ee by (rewrite omap_app; simpl; rewrite N; apply app_nil_r).
  constructor; [by rewrite Ee, X', Q', Eq|by rewrite T', Et|by rewrite Ee, T', Et|by destruct (phase r')|done].
Qed.

Lemma select_inv es b r r' : inv es r -> phase r = Blocked -> select b r = Some r' -> inv (es ++ [Select b]) r'.
Proof.
  intros I P Hs. pose proof (inv_phase _ _ I) as Hh. pose proof (inv_bound _ _ I) as B. rewrite P in Hh. cbn in Hh.
  assert (omap exit_taken (history r) = []) as N.
  { by rewrite Hh, omap_app, (proj1 (started_silent _)), (proj1 spawned_silent). }
  rewrite N in B. unfold select in Hs. destruct b.
  - destruct (fired r); [|done]. injection Hs as <-.
    eapply (inv_quiet es _ r); [done..| | |apply fire_drain_quiet|apply fire_drain_after|].
    + done.
    + cbn. by rewrite omap_app, app_nil_r.
    + apply (fire_drain_ok _ Requested); [|done|lia|done]. cbn. by rewrite Hh, <- app_assoc.
  - destruct (signalled r); [|done]. injection Hs as <-.
    eapply (inv_quiet es _ r); [done..| | |apply fire_drain_quiet|apply fire_drain_after|].
    + done.
    + cbn. by rewrite omap_app, app_nil_r.
    + apply (fire_drain_ok _ Signalled); [|done|lia|done]. cbn. by rewrite Hh, <- app_assoc.
  - destruct (queue r) as [|[name result] q] eqn:Q; [done|]. injection Hs as <-.
    eapply (inv_quiet es _ r); [done..| | |apply fire_drain_quiet|apply fire_drain_after|].
    + done.
    + cbn. by rewrite omap_app, Q, <- app_assoc.
    + apply (fire_drain_ok _ (ServerExit name result)); [|done|simpl in B; lia|by destruct result].
      cbn. by rewrite Hh, <- app_assoc.
Qed.

Lemma received_errors h name (result : HookResult) :
  omap error_of (h ++ [Received (name, result)]) =
  omap error_of h ++ match result with Ok _ => [] | Err source => [Server name source] end.
Proof. rewrite omap_app. by destruct result. Qed.

Lemma receive_inv es deadline finished errs r r' : inv es r -> phase r = Draining deadline finished errs ->
  receive deadline finished errs r = Some r' -> inv (es ++ [Receive]) r'.
Proof.
  intros I P Hs. pose proof (inv_phase _ _ I) as Hh. pose proof (inv_bound _ _ I) as B. rewrite P in Hh. cbn in Hh.
  destruct Hh as ((t & received & Hh) & Hf & Lt & He). unfold receive in Hs.
  destruct (queue r) as [|[name result] q] eqn:Q; [done|]. injection Hs as <-. simpl in B.
  eapply (inv_quiet es _ r); [done..| | |apply drain_loop_quiet|apply drain_loop_after|].
  - done.
  - cbn. by rewrite omap_app, Q, <- app_assoc.
  - apply (drain_loop_ok _ t deadline (received ++ [(name, result)])).
    + cbn. rewrite Hh. unfold drained. by rewrite <- !app_assoc, map_app.
    + cbn. rewrite omap_app, length_app. simpl. lia.
    + lia.
    + cbn [history goto pop_queue]. by rewrite received_errors, He.
Qed.

Lemma drain_elapses_inv es deadline finished errs r r' : inv es r -> phase r = Draining deadline finished errs ->
  drain_elapses deadline finished errs r = Some r' -> inv (es ++ [DrainElapses]) r'.
Proof.
  intros I P Hs. pose proof (inv_phase _ _ I) as Hh. rewrite P in Hh. cbn in Hh.
  destruct Hh as ((t & received & Hh) & Hf & Lt & He). unfold drain_elapses in Hs.
  destruct (queue r) as [|] eqn:Q; [|done]. destruct (Z.ltb_spec (now r) deadline) as [|Le]; [done|]. injection Hs as <-.
  eapply (inv_quiet es _ r); [done..| | |apply next_stop_quiet|apply next_stop_after|].
  - done.
  - cbn. by rewrite omap_app, app_nil_r.
  - apply (run_stops_ok _ _ (history r ++ [TimedOut (List.length (servers app) - finished) (now r)])).
    + right. exists t, deadline, received, [TimedOut (List.length (servers app) - finished) (now r)]. split; [by rewrite Hh|].
      rewrite omap_app, app_nil_r. right. exists es, [], (now r). pose proof (inv_queue _ _ I) as Eq.
      rewrite Q, app_nil_r in Eq. rewrite <- Hf. split_and!; try done. 
    + done.
    + cbn. by rewrite omap_app, He.
Qed.

Lemma stop_ended_inv es e deadline todo errs result r r' : inv es r -> phase r = Stopping deadline todo errs ->
  exit_of e = None -> stop_ended deadline todo errs result r = Some r' -> inv (es ++ [e]) r'.
Proof.
  intros I P N Hs. pose proof (inv_phase _ _ I) as Hh. rewrite P in Hh. cbn in Hh.
  destruct Hh as (front & rs & i & hook & F & Hh & L & -> & He). unfold stop_ended in Hs.
  rewrite (drop_S _ _ _ L) in Hs. injection Hs as <-.
  eapply (inv_quiet es _ r); [done..| | |apply next_stop_quiet|apply next_stop_after|].
  - done.
  - cbn. by rewrite omap_app, app_nil_r.
  - pose proof (lookup_lt_Some _ _ _ L) as Lt. rewrite length_backwards in Lt.
    pose proof (next_stop_ok (es ++ [e]) deadline front (rs ++ [result])) as NS.
    rewrite length_app, Nat.add_1_r in NS. apply NS.
    + by apply front_mono.
    + cbn. rewrite Hh, (stopped_snoc _ _ _ _ L), <- !app_assoc. done.
    + lia.
    + cbn. rewrite omap_app, He. by destruct result.
Qed.

(** Before the servers are spawned there are no results. *)
Lemma next_start_inv es index r : (index <= List.length (starts app))%nat -> history r = started index ->
  queue r = [] -> tasks r = [] -> omap exit_of es = [] -> inv es (next_start index (drop index (starts app)) r).
Proof.
  intros Le Hh Q T X. pose proof (next_start_ok es index r Le Hh) as NS. unfold next_start in *.
  destruct (drop index (starts app)) as [|hook rest].
  - constructor; rewrite ?X; [| | |done|exact NS].
    + cbn. by rewrite omap_app, Hh, Q, (proj1 (started_silent _)), (proj1 spawned_silent).
    + right. cbn. by rewrite map_map.
    + cbn. unfold alive. apply List.filter_length_le.
  - constructor; rewrite ?X; [| | | |exact NS].
    + cbn. by rewrite omap_app, Hh, Q, (proj1 (started_silent _)).
    + by left.
    + cbn. by rewrite T.
    + done.
Qed.

Lemma begin_inv at_ fired : inv [] (begin at_ fired).
Proof. apply next_start_inv; [lia|done..]. Qed.

Lemma start_ended_inv es index rest result r : inv es r -> phase r = Starting index rest ->
  inv (es ++ [HookReturns result]) (start_ended index rest result r).
Proof.
  intros I P. pose proof (inv_phase _ _ I) as Hh. rewrite P in Hh. destruct Hh as (hook & L & -> & Hh).
  pose proof (inv_starting _ _ I) as T. rewrite P in T. unfold start_ended. destruct result as [[]|source].
  - rewrite (drop_S _ _ _ L). cbn [tail]. replace (Datatypes.S index) with (index + 1)%nat by lia.
    pose proof (lookup_lt_Some _ _ _ L) as Lt. destruct I as [Q _ A _ _]. rewrite T in A. simpl in A.
    assert (omap exit_of es = []) as X by (destruct (omap exit_of es); [done|simpl in A; lia]).
    rewrite X in Q. apply app_eq_nil in Q as [_ Q]. apply next_start_inv; [lia| |done..|].
    + cbn. by rewrite Hh, (started_snoc _ _ L), <- app_assoc.
    + by rewrite omap_app, X.
  - eapply (inv_quiet es _ r); [done..| | |apply next_stop_quiet|apply next_stop_after|].
    + done.
    + cbn. by rewrite omap_app, app_nil_r.
    + eapply run_stops_ok; [|done|].
      * left. exists index, hook, source. split; [done|]. cbn. by rewrite Hh, <- app_assoc.
      * cbn. by rewrite Hh, !omap_app, (proj2 (started_silent _)).
Qed.

(** A server that ends. *)
Lemma alive_insert l i name : l !! i = Some (name, true) -> (alive (<[i := (name, false)]> l) + 1 = alive l)%nat.
Proof.
  unfold alive. revert i. induction l as [|[n b] l IH]; intros [|i] L; [done..| |].
  - injection L as -> ->. cbn. lia.
  - specialize (IH i L). change (<[Datatypes.S i := (name, false)]> ((n, b) :: l)) with ((n, b) :: <[i := (name, false)]> l).
    cbn [List.filter snd]. destruct b; cbn [List.length]; lia.
Qed.

Lemma end_task_inv es e i message r r' : inv es r -> end_task i message r = Some r' ->
  match message with Some result => e = ServerReturns i result | None => e = ServerPanics i end -> inv (es ++ [e]) r'.
Proof.
  intros [Q T A St P] Hs He. unfold end_task in Hs. destruct (tasks r !! i) as [[name []]|] eqn:L; [|done..].
  injection Hs as <-. pose proof (alive_insert _ _ _ L) as Al.
  assert (map fst (<[i := (name, false)]> (tasks r)) = map fst (tasks r)) as Mf.
  { rewrite list_fmap_insert. apply list_insert_id. by rewrite list_lookup_fmap, L. }
  assert (omap exit_of [e] = match message with Some result => [(name, result)] | None => [] end) as X.
  { destruct message as [result|]; subst e; [|done]. destruct T as [T|T]; [by rewrite T in L|].
    pose proof (f_equal (fun l => l !! i) T) as Ti. cbn in Ti. rewrite !list_lookup_fmap, L in Ti. cbn in Ti. simpl.
    destruct (servers app !! i) as [s|]; [|done]. simpl in *. by injection Ti as ->. }
  constructor.
  - cbn. rewrite omap_app, X, <- Q. destruct message; [by rewrite app_assoc|by rewrite app_nil_r].
  - cbn. destruct T as [T|T]; [left; by rewrite T|right; by rewrite Mf].
  - cbn [tasks]. rewrite omap_app, length_app, X, length_insert. destruct message; cbn [List.length]; lia.
  - cbn. destruct (phase r); try done. by rewrite St.
  - by apply phase_mono.
Qed.

Lemma run_step_inv es e r r' : inv es r -> step e r = Some r' -> inv (es ++ [e]) r'.
Proof.
  intros I Hs.
  assert (forall r1, tasks r1 = tasks r -> queue r1 = queue r -> phase r1 = phase r -> history r1 = history r ->
    exit_of e = None -> inv (es ++ [e]) r1) as Same.
  { intros r1 T Q P Hh N. destruct I as [IQ IT IA IS IP].
    assert (omap exit_of (es ++ [e]) = omap exit_of es) as X by (rewrite omap_app; simpl; rewrite N; apply app_nil_r).
    constructor; rewrite ?X, ?T, ?Q, ?P, ?Hh; [done..|by apply phase_mono]. }
  destruct e; cbn [step] in Hs.
  - destruct (d <? 0); [done|]. injection Hs as <-. by apply Same.
  - injection Hs as <-. by apply Same.
  - destruct (phase r); try done. destruct (trap_signals app); [|done]. injection Hs as <-. by apply Same.
  - by eapply end_task_inv.
  - by eapply end_task_inv.
  - destruct (phase r) eqn:P; try done; [injection Hs as <-; by apply start_ended_inv|by eapply stop_ended_inv].
  - destruct (phase r) eqn:P; try done. by eapply select_inv.
  - destruct (phase r) eqn:P; try done. by eapply receive_inv.
  - destruct (phase r) eqn:P; try done. by eapply drain_elapses_inv.
  - destruct (phase r) as [| | |[deadline|] todo errs| |] eqn:P; try done. destruct (now r <? deadline); [done|].
    by eapply stop_ended_inv.
Qed.

Lemma run_events_snoc es e r : run_events (es ++ [e]) r = (r' ← run_events es r; step e r').
Proof.
  revert r. induction es as [|e' es IH]; intros r; simpl; [by destruct (step e r)|].
  destruct (step e' r) as [r1|]; [apply IH|done].
Qed.

Lemma run_inv at_ fired es r : run_events es (begin at_ fired) = Some r -> inv es r.
Proof.
  revert r. induction es as [|e es IH] using rev_ind; intros r Hr; [injection Hr as <-; apply begin_inv|].
  rewrite run_events_snoc in Hr. destruct (run_events es _) as [r1|]; [|done]. eapply run_step_inv; [by apply IH|exact Hr].
Qed.

(** C22 A run that ends has called the start hooks in order; either one failed,
    and no server was spawned, or the drain took the servers' results in the
    order they came in until it had all or ran out of time, having missed none;
    then every stop hook was called once, in reverse order. Its error joins, in
    this order, everything that failed on the way, and nothing else. *)
Theorem run_settles at_ fired es r result :
  run_events es (begin at_ fired) = Some r -> phase r = Done result ->
  exists front rs later,
    front_ok es front /\ history r = front ++ stopped rs /\ List.length rs = List.length (stops app) /\
    omap exit_of es = omap exit_taken (history r) ++ later /\
    result = to_result (omap error_of (history r)).
Proof.
  intros Hr P. apply run_inv in Hr as [Q _ _ _ Ok]. rewrite P in Ok.
  destruct Ok as (front & rs & F & Hh & L & R). exists front, rs, (queue r). by rewrite Q.
Qed.

(** ** The drain ends at its deadline *)

(** The events that need nobody but the runner and its timer. *)
Definition own (e : Event) : Prop := match e with Receive | DrainElapses | StopElapses => True | _ => False end.

Definition past_deadline (r : Run) : Prop :=
  match phase r with
  | Draining deadline finished _ => deadline <= now r /\ (finished < List.length (servers app))%nat
  | Stopping (Some deadline) todo _ => deadline <= now r /\ todo <> []
  | Done _ => True
  | _ => False
  end.

Definition turns_left (r : Run) : nat :=
  match phase r with
  | Draining _ finished _ => List.length (servers app) - finished + List.length (stops app)
  | Stopping _ todo _ => List.length todo
  | _ => 0
  end.

Lemma next_stop_late deadline todo errs r : deadline <= now r ->
  past_deadline (next_stop (Some deadline) todo errs r) /\
  turns_left (next_stop (Some deadline) todo errs r) = List.length todo.
Proof. intros Le. by destruct todo as [|[i hook] todo]. Qed.

Lemma own_step e r r' : past_deadline r -> own e -> step e r = Some r' ->
  past_deadline r' /\ (turns_left r' < turns_left r)%nat.
Proof.
  intros L O Hs. unfold past_deadline, turns_left in L |- *.
  destruct e; try done; cbn [step] in Hs; destruct (phase r) as [| |deadline finished errs|[deadline|] todo errs| |]; try done.
  - destruct L as [L Lt]. unfold receive in Hs. destruct (queue r) as [|[name result] q]; [done|]. injection Hs as <-.
    unfold drain_loop. destruct (Nat.ltb_spec (finished + 1) (List.length (servers app))); [cbn; lia|].
    destruct (next_stop_late deadline backwards (errs ++ match result with Ok _ => [] | Err source => [Server name source] end)
      (goto (phase r) [Received (name, result)] (pop_queue r)) L) as [P T].
    split; [exact P|]. unfold turns_left in T. unfold run_stops. fold backwards. rewrite T, length_backwards. lia.
  - destruct L as [L Lt]. unfold drain_elapses in Hs. destruct (queue r); [|done]. destruct (now r <? deadline); [done|].
    injection Hs as <-. set (r1 := goto _ _ _).
    destruct (next_stop_late deadline backwards (errs ++ [DrainTimedOut (List.length (servers app) - finished)]) r1 L) as [P T].
    split; [exact P|]. unfold turns_left in T. unfold run_stops. fold backwards. rewrite T, length_backwards. lia.
  - destruct L as [L Nt]. destruct (now r <? deadline); [done|]. destruct todo as [|[i hook] todo]; [done|].
    injection Hs as <-. set (r1 := goto _ _ _). set (errs' := errs ++ _).
    destruct (next_stop_late deadline todo errs' r1 L) as [P T]. split; [exact P|]. unfold turns_left in T. rewrite T. simpl. lia.
Qed.

Lemma own_enabled r : past_deadline r -> (exists result, phase r = Done result) \/ exists e r', own e /\ step e r = Some r'.
Proof.
  unfold past_deadline. intros L.
  destruct (phase r) as [| |deadline finished errs|[deadline|] todo errs|result|] eqn:P; try done; [right..|left; by exists result].
  - destruct (queue r) as [|[name result] q] eqn:Q.
    + exists DrainElapses. eexists. split; [done|]. cbn [step]. rewrite P. unfold drain_elapses. rewrite Q.
      destruct (Z.ltb_spec (now r) deadline); [lia|done].
    + exists Receive. eexists. split; [done|]. cbn [step]. rewrite P. unfold receive. by rewrite Q.
  - destruct L as [L Nt]. destruct todo as [|[i hook] todo]; [done|]. exists StopElapses. eexists. split; [done|].
    cbn [step]. rewrite P. destruct (Z.ltb_spec (now r) deadline); [lia|done].
Qed.

Lemma own_events es r r' : past_deadline r -> Forall own es -> run_events es r = Some r' ->
  past_deadline r' /\ (List.length es + turns_left r' <= turns_left r)%nat.
Proof.
  revert r. induction es as [|e es IH]; intros r L F Hr.
  - injection Hr as <-. split; [done|simpl; lia].
  - apply Forall_cons in F as [O F]. simpl in Hr. destruct (step e r) as [r1|] eqn:Hs; [|done].
    destruct (own_step e r r1 L O Hs) as [L1 M1]. destruct (IH r1 L1 F Hr) as [L2 M2]. split; [done|simpl; lia].
Qed.

(** Past its deadline a draining run needs nobody to end: whatever the
    servers and the stop hooks do, the runner's own turns (a result that waits,
    the timer) bring it to its end, in at most one turn for each server and each
    stop hook, and until then one of them is always possible. *)
Theorem drain_is_bounded at_ fired es r deadline :
  run_events es (begin at_ fired) = Some r -> deadline <= now r ->
  (exists finished errs, phase r = Draining deadline finished errs) \/
  (exists todo errs, phase r = Stopping (Some deadline) todo errs) ->
  forall es' r', Forall own es' -> run_events es' r = Some r' ->
    (List.length es' <= List.length (servers app) + List.length (stops app))%nat /\
    ((exists result, phase r' = Done result) \/ exists e r'', own e /\ step e r' = Some r'').
Proof.
  intros Hr Le P es' r' F Hr'. apply run_inv in Hr as [_ _ _ _ Ok].
  assert (past_deadline r /\ (turns_left r <= List.length (servers app) + List.length (stops app))%nat) as [L T].
  { unfold past_deadline, turns_left. destruct P as [(finished & errs & P)|(todo & errs & P)]; rewrite P in Ok |- *; cbn in Ok.
    - destruct Ok as (_ & _ & Lt & _). split; [done|lia].
    - destruct Ok as (front & rs & i & hook & _ & _ & L & -> & _). split; [split; [done|]|].
      + by rewrite (drop_S _ _ _ L).
      + rewrite length_drop, length_backwards. lia. }
  destruct (own_events es' r r' L F Hr') as [L' M]. split; [lia|by apply own_enabled].
Qed.
End Run.

(** ** Witnesses and what the runs show *)

(** Hooks and servers are told by a number. *)
Definition shop_app : Application Z Z :=
  on_stop 12 (on_stop 11 (on_server (lit "admin") 21 (on_server (lit "api") 20 (on_start 2 (on_start 1 (app_new (lit "shop"))))))).

(** The admin server fails, the api server takes too long, a stop hook fails. *)
Definition shop_events : list (Event (E := Z)) :=
  [HookReturns (Ok tt); Pass 5; HookReturns (Ok tt); ServerReturns 1 (Err (Raised 7)); Select OnServer;
   Pass (from_secs 30); DrainElapses; HookReturns (Err (Raised 8)); StopElapses].

Lemma run_settles_witness : exists r,
  run_events shop_app shop_events (begin shop_app 0 false) = Some r /\
  phase r = Done (Err (Joined [Server (lit "admin") (Raised 7); DrainTimedOut 1; StopHook 1 (Raised 8); StopHook 0 Elapsed])) /\
  exists front rs later,
    front_ok shop_app shop_events front /\ history r = front ++ stopped shop_app rs /\ List.length rs = 2%nat /\
    omap (exit_of shop_app) shop_events = omap exit_taken (history r) ++ later /\
    Err (Joined [Server (lit "admin") (Raised 7); DrainTimedOut 1; StopHook 1 (Raised 8); StopHook 0 Elapsed])
    = to_result (omap error_of (history r)).
Proof.
  eexists. split; [vm_compute; reflexivity|]. split; [reflexivity|].
  apply (run_settles shop_app 0 false shop_events); reflexivity.
Defined.

Lemma drain_is_bounded_witness : exists r,
  run_events shop_app (take 6 shop_events) (begin shop_app 0 false) = Some r /\
  forall es' r', Forall own es' -> run_events shop_app es' r = Some r' ->
    (List.length es' <= 2 + 2)%nat /\
    ((exists result, phase r' = Done result) \/ exists e r'', own e /\ step shop_app e r' = Some r'').
Proof.
  eexists. split; [vm_compute; reflexivity|].
  apply (drain_is_bounded shop_app 0 false (take 6 shop_events) _ (5 + from_secs 30)); [reflexivity|reflexivity|].
  left. by eexists _, _.
Defined.

(** A server that panics triggers nothing, and the drain waits for it until the
    deadline. *)
Definition one_server : Application Z Z := on_server (lit "api") 20 (app_new (lit "shop")).
Example panic_is_no_trigger :
  (forall b r, run_events one_server [ServerPanics 0] (begin (E := Z) one_server 0 false) = Some r -> step one_server (Select b) r = None) /\
  run_events one_server [ServerPanics 0; Shutdown; Select OnHandle; Receive] (begin (E := Z) one_server 0 false) = None /\
  option_map phase (run_events one_server [ServerPanics 0; Shutdown; Select OnHandle; Pass (from_secs 30); DrainElapses]
    (begin (E := Z) one_server 0 false)) = Some (Done (Err (Joined [Cancelled; DrainTimedOut 1]))).
Proof. split_and!; [|reflexivity..]. intros [] r [= <-]; reflexivity. Qed.

(** [Duration::MAX] as the budget: the run panics when it comes to drain, and no
    stop hook is called. *)
Example unlimited_drain_panics :
  option_map (fun r => (phase r, draining r, history r))
    (run_events (with_drain_timeout DURATION_MAX (on_stop 11 one_server)) [Shutdown; Select OnHandle] (begin (E := Z) (on_stop 11 one_server) 0 false))
  = Some (Panicked, false, [Spawned 0 (lit "api", 20); Selected Requested]).
Proof. reflexivity. Qed.
