(* ===== verification/Aop.v ===== *)
(** Advice around calls: [crates/aop/src/pointcut.rs], [registry.rs],
    [join_point.rs], [aspect.rs], [intercept.rs], [global.rs].

    A pointcut is lowered to a regular expression; the [regex] crate is a class
    whose law says what the few constructs it is used with match. Hooks and the
    advised call act on a world; boxed values and errors are type parameters. *)
From Stdlib Require Import Ascii String.
From Stdlib Require Import ZArith NArith List Lia Sorting.Sorted Sorting.Permutation.
From stdpp Require Import base decidable list sorting.
From S2P Require Import Prelude Str Order.

(** * Pointcuts *)

Class RegexCrate : Type := {
  Regex : Type;
  regex_new : str -> option Regex;
  regex_is_match : Regex -> str -> bool;
  regex_escape : str -> str
}.

Section Pointcuts.
Context `{RegexCrate}.

Definition segment_char (c : char) : str :=
  if (c =? 42)%N then lit "[^.]*" else if (c =? 63)%N then lit "[^.]" else regex_escape [c].

Definition segment_to_regex (seg : str) : str :=
  if bool_decide (seg = lit "**") then lit "(?:[^.]+\.)*[^.]+"
  else if bool_decide (seg = lit "*") then lit "[^.]+"
  else flat_map segment_char seg.

Definition pattern_to_regex_source (pattern : str) : str :=
  lit "^(?:" ++ join (lit "\.") (map segment_to_regex (split 46%N pattern)) ++ lit ")$".

Record Pointcut : Type := mkPointcut { pattern : str; regex : Regex }.

(** [None] is the panic of [expect]. *)
Definition compile (pattern : str) : option Pointcut :=
  r ← regex_new (pattern_to_regex_source pattern); Some (mkPointcut pattern r).

Definition is_match (p : Pointcut) (qualified_name : str) : bool := regex_is_match (regex p) qualified_name.

Definition matches_pointcut (pattern qualified_name : str) : option bool :=
  p ← compile pattern; Some (is_match p qualified_name).
End Pointcuts.

(** ** What the crate documents of the constructs used *)

Inductive Fragment : Type :=
| Deep                (* (?:[^.]+\.)*[^.]+ *)
| Segment             (* [^.]+ *)
| Run                 (* [^.]* *)
| One                 (* [^.] *)
| Literal (c : char)  (* escape(c) *)
| Dot.                (* \. *)

Definition fragment_source `{RegexCrate} (f : Fragment) : str :=
  match f with
  | Deep => lit "(?:[^.]+\.)*[^.]+"
  | Segment => lit "[^.]+"
  | Run => lit "[^.]*"
  | One => lit "[^.]"
  | Literal c => regex_escape [c]
  | Dot => lit "\."
  end.

Definition no_dot (s : str) : Prop := ~ List.In 46%N s.

Definition denotes (f : Fragment) (s : str) : Prop :=
  match f with
  | Deep => exists ws, ws <> [] /\ Forall (fun w => no_dot w /\ w <> []) ws /\ s = join (lit ".") ws
  | Segment => no_dot s /\ s <> []
  | Run => no_dot s
  | One => exists c, c <> 46%N /\ s = [c]
  | Literal c => s = [c]
  | Dot => s = lit "."
  end.

Fixpoint denotes_all (fs : list Fragment) (s : str) : Prop :=
  match fs with
  | [] => s = []
  | f :: fs => exists a b, s = a ++ b /\ denotes f a /\ denotes_all fs b
  end.

(** An anchored sequence of these is a valid expression and matches the texts
    that are made of what its parts match. *)
Class RegexLaws `{RegexCrate} : Prop := {
  fragments_compile : forall fs, is_Some (regex_new (lit "^(?:" ++ flat_map fragment_source fs ++ lit ")$"));
  fragments_match : forall fs r s, regex_new (lit "^(?:" ++ flat_map fragment_source fs ++ lit ")$") = Some r ->
    regex_is_match r s = true <-> denotes_all fs s
}.

(** ** The documented meaning, segment by segment *)

(** Within a segment [*] is any text and [?] any character. *)
Fixpoint glob (p w : str) : bool :=
  match p with
  | [] => bool_decide (w = [])
  | c :: p' =>
      if (c =? 42)%N then
        (fix any w := glob p' w || match w with [] => false | _ :: w' => any w' end) w
      else match w with
           | [] => false
           | d :: w' => ((c =? 63)%N || (c =? d)%N) && glob p' w'
           end
  end.

(** [**] takes one or more segments, [*] one; none of them empty. *)
Fixpoint segments_match (ps names : list str) : bool :=
  match ps with
  | [] => bool_decide (names = [])
  | p :: ps' =>
      if bool_decide (p = lit "**") then
        (fix deep names :=
           match names with
           | w :: names' => negb (bool_decide (w = [])) && (segments_match ps' names' || deep names')
           | [] => false
           end) names
      else match names with
           | w :: names' =>
               (if bool_decide (p = lit "*") then negb (bool_decide (w = [])) else glob p w) && segments_match ps' names'
           | [] => false
           end
  end.

Definition char_fragment (c : char) : Fragment :=
  if (c =? 42)%N then Run else if (c =? 63)%N then One else Literal c.

Definition segment_fragments (p : str) : list Fragment :=
  if bool_decide (p = lit "**") then [Deep] else if bool_decide (p = lit "*") then [Segment] else map char_fragment p.

Fixpoint pattern_fragments (ps : list str) : list Fragment :=
  match ps with
  | [] => []
  | [p] => segment_fragments p
  | p :: ps => segment_fragments p ++ Dot :: pattern_fragments ps
  end.

Lemma segment_source `{RegexCrate} p : segment_to_regex p = flat_map fragment_source (segment_fragments p).
Proof.
  unfold segment_to_regex, segment_fragments. case_bool_decide; [by cbn [flat_map fragment_source]; rewrite app_nil_r|].
  case_bool_decide; [by cbn [flat_map fragment_source]; rewrite app_nil_r|]. clear. induction p as [|c p IH]; [done|]. simpl. rewrite IH. f_equal.
  unfold segment_char, char_fragment. destruct (c =? 42)%N; [done|]. by destruct (c =? 63)%N.
Qed.

Lemma pattern_source `{RegexCrate} ps :
  join (lit "\.") (map segment_to_regex ps) = flat_map fragment_source (pattern_fragments ps).
Proof.
  induction ps as [|p ps IH]; [done|]. destruct ps as [|q ps]; [apply segment_source|].
  change (segment_to_regex p ++ lit "\." ++ join (lit "\.") (map segment_to_regex (q :: ps)) =
          flat_map fragment_source (segment_fragments p ++ Dot :: pattern_fragments (q :: ps))).
  rewrite flat_map_app, segment_source, IH. done.
Qed.

Lemma denotes_all_app fs gs s :
  denotes_all (fs ++ gs) s <-> exists a b, s = a ++ b /\ denotes_all fs a /\ denotes_all gs b.
Proof.
  revert s. induction fs as [|f fs IH]; intros s; simpl.
  - split; [by exists [], s|]. by intros (a & b & -> & -> & D).
  - split.
    + intros (a & b & -> & Df & (c & d & -> & D1 & D2)%IH). exists (a ++ c), d. rewrite app_assoc. split_and!; [done| |done].
      by exists a, c.
    + intros (a & b & -> & (c & d & -> & Df & D) & D2). exists c, (d ++ b). rewrite app_assoc. split_and!; [done|done|].
      apply IH. by exists d, b.
Qed.

(** A glob denotes texts without a dot. *)
Lemma glob_denotes p s : no_dot p -> denotes_all (map char_fragment p) s <-> no_dot s /\ glob p s = true.
Proof.
  revert s. induction p as [|c p IH]; intros s N.
  - simpl. rewrite bool_decide_eq_true. split; [intros ->; split; [by intros []|done]|by intros [_ ->]].
  - assert (no_dot p) as Np by (intros I; apply N; by right). cbn [map denotes_all]. unfold char_fragment at 1. simpl glob.
    destruct (N.eqb_spec c 42) as [->|N42].
    + split.
      * intros (a & b & -> & Ha & (Nb & Gb)%IH); [|done]. simpl in Ha. split; [intros [?|?]%in_app_iff; by auto|].
        induction a as [|x a IHa]; [destruct b; simpl; by rewrite Gb|]. simpl. rewrite IHa; [apply orb_true_r|].
        intros I. apply Ha. by right.
      * intros [Ns G]. induction s as [|x s IHs].
        -- rewrite orb_false_r in G. exists [], []. split_and!; [done|by intros []|]. by apply IH.
        -- apply orb_true_iff in G as [G|G].
           ++ exists [], (x :: s). split_and!; [done|by intros []|]. by apply IH.
           ++ destruct IHs as (a & b & -> & Ha & D); [intros I; apply Ns; by right|done|].
              exists (x :: a), b. split_and!; [done| |done]. intros [->|I]; [apply Ns; by left|by apply Ha].
    + destruct (N.eqb_spec c 63) as [->|N63]; split.
      * intros (a & b & -> & (d & Nd & ->) & (Nb & Gb)%IH); [|done]. split; [intros [?|?]; by auto|done].
      * intros [Ns G]. destruct s as [|d s]; [done|]. exists [d], s. split_and!; [done| |].
        -- exists d. split; [|done]. intros ->. apply Ns. by left.
        -- apply IH; [done|]. split; [intros I; apply Ns; by right|done].
      * intros (a & b & -> & -> & (Nb & Gb)%IH); [|done]. simpl. rewrite N.eqb_refl. split; [|done].
        intros [->|?]; [apply N; by left|done].
      * intros [Ns G]. destruct s as [|d s]; [done|]. apply andb_true_iff in G as [E%N.eqb_eq G]. subst d.
        exists [c], s. split_and!; [done..|]. apply IH; [done|]. split; [intros I; apply Ns; by right|done].
Qed.

Lemma join_dots ws : ws <> [] -> Forall no_dot ws -> split 46%N (join (lit ".") ws) = ws.
Proof. exact (split_join 46%N ws). Qed.

Lemma split_one s w : split 46%N s = [w] -> w = s /\ no_dot s.
Proof.
  intros E. pose proof (join_split 46%N s) as J. pose proof (split_words 46%N s) as F. rewrite E in J, F. simpl in J. subst w.
  by apply Forall_inv in F.
Qed.

Lemma deep_segments ws : segments_match [lit "**"] ws = true <-> ws <> [] /\ Forall (fun w => w <> []) ws.
Proof.
  change (segments_match [lit "**"] ws) with
    ((fix deep names := match names with
      | w :: names' => negb (bool_decide (w = [])) && (bool_decide (names' = []) || deep names')
      | [] => false end) ws).
  induction ws as [|w ws IH]; [split; [done|by intros [? _]]|].
  rewrite andb_true_iff, negb_true_iff, bool_decide_eq_false, orb_true_iff, bool_decide_eq_true, IH, Forall_cons.
  split.
  - intros (Nw & [->|[_ F]]); (split; [done|split; [done|]]); [apply Forall_nil_2|done].
  - intros (_ & Nw & F). split; [done|]. destruct ws; [by left|by right].
Qed.

(** What a segment of a pattern that is not [**] takes is one segment. *)
Lemma single_segment (ok : str -> bool) s :
  (no_dot s /\ ok s = true) <->
  match split 46%N s with w :: names => ok w && bool_decide (names = []) | [] => false end = true.
Proof.
  split.
  - intros [N G]. rewrite (split_no_sep 46%N s N), G. done.
  - pose proof (split_one s) as O. destruct (split 46%N s) as [|w [|w' names]]; [done| |by rewrite andb_false_r].
    rewrite andb_true_r. intros G. destruct (O w eq_refl) as [-> N]. done.
Qed.

Lemma segment_denotes p s : no_dot p ->
  denotes_all (segment_fragments p) s <-> segments_match [p] (split 46%N s) = true.
Proof.
  intros Np. unfold segment_fragments. destruct (bool_decide_reflect (p = lit "**")) as [->|N1].
  - rewrite deep_segments. split.
    + intros (a & b & -> & (ws & Nw & F & ->) & ->). rewrite app_nil_r.
      apply List.Forall_and_inv in F as [F1 F2]. rewrite join_dots by done. done.
    + intros [Nw F]. exists s, []. split_and!; [by rewrite app_nil_r| |done]. exists (split 46%N s). split_and!; [done| |].
      * apply List.Forall_and; [apply split_words|done].
      * symmetry. exact (join_split 46%N s).
  - cbn [segments_match]. rewrite (bool_decide_eq_false_2 _ N1).
    destruct (bool_decide_reflect (p = lit "*")) as [->|N2].
    + rewrite <- (single_segment (fun w => negb (bool_decide (w = [])))). rewrite negb_true_iff, bool_decide_eq_false. split.
      * by intros (a & b & -> & ? & ->); rewrite app_nil_r.
      * intros D. exists s, []. by rewrite app_nil_r.
    + rewrite <- (single_segment (glob p)). by apply glob_denotes.
Qed.

Lemma segments_cons p ps ws : ps <> [] ->
  segments_match (p :: ps) ws = true <->
  exists ws1 ws2, ws = ws1 ++ ws2 /\ segments_match [p] ws1 = true /\ segments_match ps ws2 = true.
Proof.
  intros Np. cbn [segments_match]. destruct (bool_decide (p = lit "**")).
  - induction ws as [|w ws IH]; [split; [done|by intros ([|] & ? & E & ? & _)]|].
    rewrite andb_true_iff, orb_true_iff, IH. split.
    + intros [Nw [R|(ws1 & ws2 & -> & D & R)]].
      * exists [w], ws. split_and!; [done| |done]. by rewrite Nw.
      * exists (w :: ws1), ws2. split_and!; [done| |done]. by rewrite Nw, D, orb_true_r.
    + intros ([|w1 ws1] & ws2 & E & D & R); [done|]. injection E as <- ->.
      apply andb_true_iff in D as [Nw D]. split; [done|]. apply orb_true_iff in D as [->%bool_decide_eq_true|D]; [by left|].
      right. by exists ws1, ws2.
  - split.
    + destruct ws as [|w ws]; [done|]. intros [O R]%andb_true_iff. exists [w], ws. rewrite O. done.
    + intros ([|w1 ws1] & ws2 & -> & D & R); [done|]. apply andb_true_iff in D as [O ->%bool_decide_eq_true]. simpl. by rewrite O.
Qed.

Lemma segments_nonempty ps ws : ps <> [] -> segments_match ps ws = true -> ws <> [].
Proof. destruct ps as [|p ps]; [done|]. cbn [segments_match]. by destruct (bool_decide _), ws. Qed.

Lemma pattern_denotes ps s : ps <> [] -> Forall no_dot ps ->
  denotes_all (pattern_fragments ps) s <-> segments_match ps (split 46%N s) = true.
Proof.
  intros N F. revert s. induction ps as [|p ps IH]; intros s; [done|]. apply Forall_cons in F as [Fp Fps].
  destruct ps as [|q ps]; [by apply segment_denotes|]. specialize (IH ltac:(done) Fps).
  change (pattern_fragments (p :: q :: ps)) with (segment_fragments p ++ Dot :: pattern_fragments (q :: ps)).
  rewrite segments_cons, denotes_all_app by done. split.
  - intros (a & b & -> & D1 & (c & d & -> & -> & D2)). exists (split 46%N a), (split 46%N d). split_and!.
    + apply (split_app_sep 46%N).
    + by apply segment_denotes.
    + by apply IH.
  - intros (ws1 & ws2 & E & D1 & D2). pose proof (split_words 46%N s) as W. rewrite E in W.
    apply Forall_app in W as [W1 W2].
    assert (ws1 <> []) as N1 by (by eapply segments_nonempty, D1). assert (ws2 <> []) as N2 by (by eapply segments_nonempty, D2).
    exists (join (lit ".") ws1), (lit "." ++ join (lit ".") ws2). split_and!.
    + rewrite <- (join_app (lit ".")) by done. rewrite <- E. symmetry. exact (join_split 46%N s).
    + apply segment_denotes; [done|]. by rewrite join_dots.
    + exists (lit "."), (join (lit ".") ws2). split_and!; [done|done|]. apply IH. by rewrite join_dots.
Qed.

Lemma compile_total `{RegexLaws} p : exists pc, compile p = Some pc.
Proof.
  unfold compile, pattern_to_regex_source. rewrite pattern_source.
  destruct (fragments_compile (pattern_fragments (split 46%N p))) as [r E]. rewrite E. by eexists.
Qed.

Lemma pointcut_meaning `{RegexLaws} p pc name : compile p = Some pc ->
  is_match pc name = segments_match (split 46%N p) (split 46%N name).
Proof.
  unfold compile, pattern_to_regex_source. rewrite pattern_source.
  destruct (regex_new _) as [r|] eqn:E; [|done]. intros [= <-].
  apply eq_true_iff_eq. unfold is_match. simpl. rewrite (fragments_match _ r _ E).
  apply pattern_denotes; [apply split_nonempty|apply split_words].
Qed.

(** Every pointcut compiles, and it matches a qualified name exactly when
    the two match segment by segment: a double star takes one or more segments,
    a star one, and any other segment is a glob within one. *)
Theorem pointcut_matches_segments `{RegexLaws} pattern qualified_name :
  matches_pointcut pattern qualified_name =
  Some (segments_match (split 46%N pattern) (split 46%N qualified_name)).
Proof.
  unfold matches_pointcut. destruct (compile_total pattern) as [pc E]. rewrite E. simpl.
  by rewrite (pointcut_meaning pattern).
Qed.

(** ** An engine for these expressions

    It reads the source back into its parts and tries every way to cut the
    text. *)

Definition dot_free (s : str) : bool := negb (contains 46%N s).
Definition fragment_match (f : Fragment) (s : str) : bool :=
  match f with
  | Deep => forallb (fun w => negb (bool_decide (w = []))) (split 46%N s)
  | Segment => dot_free s && negb (bool_decide (s = []))
  | Run => dot_free s
  | One => match s with [c] => negb (c =? 46)%N | _ => false end
  | Literal c => bool_decide (s = [c])
  | Dot => bool_decide (s = lit ".")
  end.

Fixpoint match_all (fs : list Fragment) (s : str) : bool :=
  match fs with
  | [] => bool_decide (s = [])
  | f :: fs => existsb (fun n => fragment_match f (take n s) && match_all fs (drop n s)) (seq 0 (S (List.length s)))
  end.

Fixpoint read_fragments (fuel : nat) (s : str) : option (list Fragment) :=
  match fuel, s with
  | _, [] => Some []
  | O, _ => None
  | S n, _ =>
      match strip_prefix (lit "(?:[^.]+\.)*[^.]+") s, strip_prefix (lit "[^.]+") s,
            strip_prefix (lit "[^.]*") s, strip_prefix (lit "[^.]") s, s with
      | Some s, _, _, _, _ => fs ← read_fragments n s; Some (Deep :: fs)
      | _, Some s, _, _, _ => fs ← read_fragments n s; Some (Segment :: fs)
      | _, _, Some s, _, _ => fs ← read_fragments n s; Some (Run :: fs)
      | _, _, _, Some s, _ => fs ← read_fragments n s; Some (One :: fs)
      | _, _, _, _, _ :: c :: s => fs ← read_fragments n s; Some (Literal c :: fs)
      | _, _, _, _, _ => None
      end
  end.

Definition read_regex (source : str) : option (list Fragment) :=
  s ← strip_prefix (lit "^(?:") source; s ← strip_suffix (lit ")$") s; read_fragments (List.length s) s.

#[local] Instance small_regex : RegexCrate :=
  { Regex := list Fragment; regex_new := read_regex; regex_is_match := match_all; regex_escape := fun s => lit "\" ++ s }.

Lemma fragment_match_spec f s : fragment_match f s = true <-> denotes f s.
Proof.
  unfold fragment_match, denotes, dot_free, no_dot. destruct f.
  - rewrite forallb_forall. split.
    + intros F. exists (split 46%N s). split_and!; [apply split_nonempty| |symmetry; exact (join_split 46%N s)].
      apply List.Forall_and; [apply split_words|]. apply List.Forall_forall. intros w I.
      by specialize (F w I); apply negb_true_iff, bool_decide_eq_false in F.
    + intros (ws & N & F & ->) w. apply List.Forall_and_inv in F as [F1 F2]. rewrite join_dots by done. intros I.
      rewrite List.Forall_forall in F2. by apply negb_true_iff, bool_decide_eq_false, F2.
  - by rewrite andb_true_iff, !negb_true_iff, contains_false, bool_decide_eq_false.
  - by rewrite negb_true_iff, contains_false.
  - split.
    + destruct s as [|c [|]]; [done| |done]. intros N%negb_true_iff%N.eqb_neq. by exists c.
    + intros (c & N & ->). by apply negb_true_iff, N.eqb_neq.
  - apply bool_decide_eq_true.
  - apply bool_decide_eq_true.
Qed.

Lemma match_all_spec fs s : match_all fs s = true <-> denotes_all fs s.
Proof.
  revert s. induction fs as [|f fs IH]; intros s; [apply bool_decide_eq_true|]. cbn [match_all denotes_all].
  rewrite existsb_exists. split.
  - intros (n & _ & [M R]%andb_true_iff). exists (take n s), (drop n s).
    rewrite take_drop. split_and!; [done|by apply fragment_match_spec|by apply IH].
  - intros (a & b & -> & D & R). exists (List.length a). split; [apply in_seq; rewrite length_app; lia|].
    rewrite take_app_length, drop_app_length. apply andb_true_iff. split; [by apply fragment_match_spec|by apply IH].
Qed.

Definition as_literal (f : Fragment) : Fragment := match f with Dot => Literal 46%N | _ => f end.

Lemma literal_denotes fs s : denotes_all (map as_literal fs) s <-> denotes_all fs s.
Proof.
  revert s. induction fs as [|f fs IH]; intros s; [done|]. cbn [map denotes_all]. setoid_rewrite IH. by destruct f.
Qed.

(** No source begins with a repetition mark. *)
Lemma source_head fs : match flat_map fragment_source fs with c :: _ => (43 =? c)%N = false /\ (42 =? c)%N = false | [] => True end.
Proof. destruct fs as [|[]]; by cbn. Qed.

Lemma read_one f rest n : match rest with c :: _ => (43 =? c)%N = false /\ (42 =? c)%N = false | [] => True end ->
  read_fragments (S n) (fragment_source f ++ rest) = (fs ← read_fragments n rest; Some (as_literal f :: fs)).
Proof.
  intros Hd. destruct f; try reflexivity. destruct rest as [|c rest]; [reflexivity|]. destruct Hd as [H1 H2].
  change (read_fragments (S n) (fragment_source One ++ c :: rest)) with
    (match (if (43 =? c)%N then Some rest else None), (if (42 =? c)%N then Some rest else None) with
     | Some s, _ => fs ← read_fragments n s; Some (Segment :: fs)
     | _, Some s => fs ← read_fragments n s; Some (Run :: fs)
     | _, _ => fs ← read_fragments n (c :: rest); Some (One :: fs)
     end).
  by rewrite H1, H2.
Qed.

Lemma read_source fs n : (List.length (flat_map fragment_source fs) <= n)%nat ->
  read_fragments n (flat_map fragment_source fs) = Some (map as_literal fs).
Proof.
  revert n. induction fs as [|f fs IH]; intros n L; [by destruct n|]. cbn [flat_map] in *. rewrite length_app in L.
  destruct n as [|n]; [destruct f; simpl in L; lia|]. rewrite (read_one f _ n (source_head fs)).
  by rewrite IH by (destruct f; simpl in L; lia).
Qed.

Lemma small_regex_laws : RegexLaws.
Proof.
  assert (forall fs, read_regex (lit "^(?:" ++ flat_map fragment_source fs ++ lit ")$") = Some (map as_literal fs)) as R.
  { intros fs. unfold read_regex. rewrite strip_prefix_app. simpl.
    rewrite (proj2 (strip_suffix_Some (lit ")$") _ _) eq_refl). simpl. by apply read_source. }
  constructor; [intros fs; eexists; apply R|]. intros fs r s E. cbn [regex_new small_regex] in E. rewrite R in E. injection E as <-.
  cbn [regex_is_match small_regex]. by rewrite match_all_spec, literal_denotes.
Qed.

Lemma pointcut_matches_segments_witness :
  matches_pointcut (lit "**.*Service.get_?") (lit "shop.api.OrderService.get_x") = Some true /\
  matches_pointcut (lit "service.*") (lit "service.Order.create") = Some false.
Proof.
  split.
  - rewrite (pointcut_matches_segments (H0 := small_regex_laws)). reflexivity.
  - rewrite (pointcut_matches_segments (H0 := small_regex_laws)). reflexivity.
Defined.

(** * Join points, aspects, the registry *)

Inductive AdviceKind : Type := Before | AfterReturning | AfterThrowing | After | Around.
Definition advice_kind_str (k : AdviceKind) : str :=
  match k with
  | Before => lit "before"
  | AfterReturning => lit "after_returning"
  | AfterThrowing => lit "after_throwing"
  | After => lit "after"
  | Around => lit "around"
  end.

Section Advice.
(** [A] are the boxed values, [E] the boxed errors, [W] is what hooks act on. *)
Context `{RegexCrate} {A E W : Type} (to_string : E -> str).

Definition AdviceResult : Type := Result A E.

Record JoinPoint : Type := mkJoinPoint {
  type_name : str;
  method_name : str;
  args : A;
  jp_result : option A;
  jp_error : option str
}.

Definition join_point_new (type_name method_name : str) (args : A) : JoinPoint := mkJoinPoint type_name method_name args None None.
Definition qualified_name (jp : JoinPoint) : str := type_name jp ++ lit "." ++ method_name jp.

(** A call that is awaited: [Proceed], [Invocation]. *)
Definition Call : Type := W -> AdviceResult * W.

(** The trait [Aspect]; [noop] holds its default methods. *)
Record Aspect : Type := mkAspect {
  before : JoinPoint -> W -> W;
  after_returning : JoinPoint -> W -> W;
  after_throwing : JoinPoint -> W -> W;
  after : JoinPoint -> W -> W;
  around : JoinPoint -> Call -> Call
}.
Definition noop_aspect : Aspect :=
  mkAspect (fun _ w => w) (fun _ w => w) (fun _ w => w) (fun _ w => w) (fun _ proceed => proceed).

Record AdviceBinding : Type := mkBinding { aspect : Aspect; pointcut : Pointcut; order : Z; seq : nat }.

Record AspectRegistry : Type := mkRegistry { bindings : list AdviceBinding; next_seq : nat }.
Definition registry_new : AspectRegistry := mkRegistry [] 0.

Definition by_order (a b : AdviceBinding) : comparison :=
  then_cmp (Z.compare (order a) (order b)) (Nat.compare (seq a) (seq b)).

Definition register (a : Aspect) (pointcut : str) (order : Z) (r : AspectRegistry) : option AspectRegistry :=
  p ← compile pointcut;
  Some (mkRegistry (sort_by by_order (bindings r ++ [mkBinding a p order (next_seq r)])) (S (next_seq r))).

Definition get_matching (name : str) (r : AspectRegistry) : list AdviceBinding :=
  List.filter (fun b => is_match (pointcut b) name) (bindings r).
Definition has_match (name : str) (r : AspectRegistry) : bool := existsb (fun b => is_match (pointcut b) name) (bindings r).

(** * The chain *)

(** A hook of every binding, in the order of the list. *)
Fixpoint run_hooks (hook : Aspect -> JoinPoint -> W -> W) (jp : JoinPoint) (bs : list AdviceBinding) (w : W) : W :=
  match bs with [] => w | b :: bs => run_hooks hook jp bs (hook (aspect b) jp w) end.

Definition run_after (jp : JoinPoint) (bs : list AdviceBinding) (w : W) : W := run_hooks after jp bs w.

Fixpoint run_around_chain (jp : JoinPoint) (bs : list AdviceBinding) (invocation : Call) : Call :=
  match bs with
  | [] => invocation
  | outer :: rest => around (aspect outer) jp (run_around_chain jp rest invocation)
  end.

(** The join point is the caller's; it is returned as it is left. *)
Definition intercept_with_bindings (jp : JoinPoint) (bs : list AdviceBinding) (invocation : Call) (w : W)
  : AdviceResult * JoinPoint * W :=
  let w := run_hooks before jp bs w in
  match run_around_chain jp bs invocation w with
  | (Ok value, w) =>
      let jp := mkJoinPoint (type_name jp) (method_name jp) (args jp) (Some value) (jp_error jp) in
      (Ok value, jp, run_after jp bs (run_hooks after_returning jp bs w))
  | (Err err, w) =>
      let jp := mkJoinPoint (type_name jp) (method_name jp) (args jp) (jp_result jp) (Some (to_string err)) in
      (Err err, jp, run_after jp bs (run_hooks after_throwing jp bs w))
  end.

Definition intercept (registry : AspectRegistry) (type_name method_name : str) (args : A) (invocation : Call) (w : W)
  : AdviceResult * W :=
  let jp := join_point_new type_name method_name args in
  let '(result, _, w) := intercept_with_bindings jp (get_matching (qualified_name jp) registry) invocation w in
  (result, w).

(** * The process-wide registry

    [discovered] is the list of thunks the linker collected, each registering
    one aspect; they run once. *)
Record Global : Type := mkGlobal { registry : AspectRegistry; drained : bool }.

Definition register_aspect (a : Aspect) (pointcut : str) (order : Z) (g : Global) : option Global :=
  r ← register a pointcut order (registry g); Some (mkGlobal r (drained g)).

Fixpoint run_thunks (discovered : list (Aspect * str * Z)) (g : Global) : option Global :=
  match discovered with
  | [] => Some g
  | (a, pointcut, order) :: discovered => g ← register_aspect a pointcut order g; run_thunks discovered g
  end.

Definition register_discovered_aspects (discovered : list (Aspect * str * Z)) (g : Global) : option Global :=
  if drained g then Some g else g ← run_thunks discovered g; Some (mkGlobal (registry g) true).

Definition matching_bindings (discovered : list (Aspect * str * Z)) (name : str) (g : Global) : option (list AdviceBinding * Global) :=
  g ← register_discovered_aspects discovered g; Some (get_matching name (registry g), g).

Definition advised (discovered : list (Aspect * str * Z)) (type_name method : str) (args : A) (call : Call) (g : Global) (w : W)
  : option (AdviceResult * W * Global) :=
  '(bs, g) ← matching_bindings discovered (type_name ++ lit "." ++ method) g;
  let '(result, _, w) := intercept_with_bindings (join_point_new type_name method args) bs call w in
  Some (result, w, g).

(** * Theorems *)

(** ** The contract: the advice of the matching registrations, by order and then
    by registration *)

Definition matching (name : str) (regs : list (Aspect * str * Z)) : list (Aspect * Z) :=
  map (fun r => (fst (fst r), snd r))
    (List.filter (fun r => segments_match (split 46%N (snd (fst r))) (split 46%N name)) regs).

Definition by_number (x y : Aspect * Z) : comparison := Z.compare (snd x) (snd y).

Definition advice_for (name : str) (regs : list (Aspect * str * Z)) : list Aspect :=
  map fst (sort_by by_number (matching name regs)).

(** What a woven call does. *)
Definition woven (jp : JoinPoint) (aspects : list Aspect) (call : Call) (w : W) : AdviceResult * W :=
  let w := fold_left (fun w a => before a jp w) aspects w in
  let '(result, w) := fold_right (fun a proceed => around a jp proceed) call aspects w in
  let '(jp, hook) := match result with
                     | Ok value => (mkJoinPoint (type_name jp) (method_name jp) (args jp) (Some value) (jp_error jp), after_returning)
                     | Err err => (mkJoinPoint (type_name jp) (method_name jp) (args jp) (jp_result jp) (Some (to_string err)), after_throwing)
                     end in
  (result, fold_left (fun w a => after a jp w) aspects (fold_left (fun w a => hook a jp w) aspects w)).

Lemma run_hooks_fold hook jp bs w : run_hooks hook jp bs w = fold_left (fun w a => hook a jp w) (map aspect bs) w.
Proof. revert w. induction bs as [|b bs IH]; intros w; [done|]. apply IH. Qed.

Lemma around_fold jp bs call : run_around_chain jp bs call = fold_right (fun a proceed => around a jp proceed) call (map aspect bs).
Proof. induction bs as [|b bs IH]; simpl; [done|]. by rewrite IH. Qed.

Lemma intercept_woven jp bs call w :
  (let '(result, _, w') := intercept_with_bindings jp bs call w in (result, w')) = woven jp (map aspect bs) call w.
Proof.
  unfold intercept_with_bindings, woven. rewrite run_hooks_fold, around_fold.
  destruct (fold_right _ call _ _) as [[value|err] w']; unfold run_after; by rewrite !run_hooks_fold.
Qed.

(** ** The sorted registry *)

Lemma preorder_nat : total_preorder Nat.compare.
Proof.
  eapply preorder_ext; [|apply (preorder_map Z.of_nat), preorder_Z]. intros a b. symmetry. apply Nat2Z.inj_compare.
Qed.

Lemma preorder_by_order : total_preorder by_order.
Proof.
  apply (preorder_then (fun a b => Z.compare (order a) (order b))); [apply (preorder_map order), preorder_Z|].
  apply (preorder_map seq), preorder_nat.
Qed.

Abbreviation ordered := (StronglySorted (fun a b => by_order a b <> Gt)).

(** Numbers in the registry are distinct, so the order leaves no choice. *)
Lemma ordered_unique l1 l2 : NoDup (map seq l1) -> ordered l1 -> ordered l2 -> Permutation l1 l2 -> l1 = l2.
Proof.
  intros N S1 S2 P. apply (StronglySorted_unique_strong (fun a b => by_order a b <> Gt)); [|done..].
  intros a b Ia Ib L1 L2. rewrite <- P in Ib. pose proof (cmp_flip _ preorder_by_order a b) as F.
  assert (by_order a b = Eq) as Q by (destruct (by_order a b); try done; by rewrite F in L2).
  unfold by_order in Q. destruct (Z.compare _ _); try done. apply Nat.compare_eq in Q.
  apply list_elem_of_lookup in Ia as [i Li]. apply list_elem_of_lookup in Ib as [j Lj].
  assert (i = j) as ->; [|congruence]. eapply (NoDup_lookup (map seq l1)); [done| |].
  - by rewrite list_lookup_fmap, Li.
  - by rewrite list_lookup_fmap, Lj, Q.
Qed.

Lemma sort_sort_app l x : NoDup (map seq (l ++ [x])) -> sort_by by_order (sort_by by_order l ++ [x]) = sort_by by_order (l ++ [x]).
Proof.
  intros N. apply ordered_unique; [|apply sort_by_sorted, preorder_by_order..|].
  - eapply NoDup_Permutation_proper; [|exact N]. by rewrite !sort_by_permutation.
  - by rewrite !sort_by_permutation.
Qed.

Lemma filter_sort p l : NoDup (map seq l) -> List.filter p (sort_by by_order l) = sort_by by_order (List.filter p l).
Proof.
  intros N. assert (Permutation (List.filter p (sort_by by_order l)) (List.filter p l)) as P.
  { generalize (sort_by_permutation by_order l). generalize (sort_by by_order l). clear N.
    induction 1; simpl; try done; repeat destruct (p _); eauto using perm_skip, perm_swap, perm_trans. }
  apply ordered_unique.
  - rewrite P. clear P. induction l as [|x l IH]; [done|]. simpl in *. apply NoDup_cons in N as [Nx N].
    destruct (p x); [|by apply IH]. apply NoDup_cons. split; [|by apply IH]. intros I. apply Nx.
    apply list_elem_of_fmap in I as (y & -> & [I _]%list_elem_of_In%filter_In). apply list_elem_of_fmap. exists y.
    by rewrite list_elem_of_In.
  - apply filter_sorted, sort_by_sorted, preorder_by_order.
  - apply sort_by_sorted, preorder_by_order.
  - by rewrite P, sort_by_permutation.
Qed.

(** ** From registrations to bindings *)

Context `{!RegexLaws}.

Definition entry_of (e : AdviceBinding) (reg : Aspect * str * Z) : Prop :=
  aspect e = fst (fst reg) /\ compile (snd (fst reg)) = Some (pointcut e) /\ order e = snd reg.

Definition registered (regs : list (Aspect * str * Z)) (r : AspectRegistry) : Prop :=
  exists es, map seq es = List.seq 0 (List.length regs) /\ Forall2 entry_of es regs /\
    bindings r = sort_by by_order es /\ next_seq r = List.length regs.

Lemma numbers_distinct es n : map seq es = List.seq 0 n -> NoDup (map seq es).
Proof. intros ->. apply NoDup_ListNoDup, seq_NoDup. Qed.

Lemma register_registered regs r a p o : registered regs r ->
  exists r', register a p o r = Some r' /\ registered (regs ++ [(a, p, o)]) r'.
Proof.
  intros (es & N & F & B & Q). unfold register. destruct (compile_total p) as [pc C]. rewrite C. simpl.
  eexists. split; [done|]. exists (es ++ [mkBinding a pc o (next_seq r)]).
  assert (map seq (es ++ [mkBinding a pc o (next_seq r)]) = List.seq 0 (List.length (regs ++ [(a, p, o)]))) as N'.
  { rewrite map_app, N, length_app, seq_app. simpl. by rewrite Q. }
  split_and!; [done| | |].
  - apply Forall2_app; [done|]. by repeat constructor.
  - simpl. rewrite B. apply sort_sort_app. by eapply numbers_distinct.
  - simpl. rewrite length_app, Q. simpl. lia.
Qed.

Lemma run_thunks_registered regs discovered g : registered regs (registry g) ->
  exists g', run_thunks discovered g = Some g' /\ registered (regs ++ discovered) (registry g') /\ drained g' = drained g.
Proof.
  revert regs g. induction discovered as [|[[a p] o] discovered IH]; intros regs g R.
  - exists g. by rewrite app_nil_r.
  - simpl. unfold register_aspect. destruct (register_registered regs (registry g) a p o R) as (r' & -> & R'). simpl.
    destruct (IH _ (mkGlobal r' (drained g)) R') as (g' & -> & R'' & D). exists g'. by rewrite <- app_assoc in R''.
Qed.

(** Sorting by order and number is sorting by order when the numbers rise. *)
Lemma insert_rising x l : (forall y, List.In y l -> (seq x < seq y)%nat) ->
  map (fun e => (aspect e, order e)) (insert_sorted by_order x l) =
  insert_sorted by_number (aspect x, order x) (map (fun e => (aspect e, order e)) l).
Proof.
  intros R. induction l as [|y l IH]; [done|]. simpl. pose proof (R y (or_introl eq_refl)) as Ry.
  unfold by_order at 1, by_number at 1. simpl.
  destruct (Z.compare (order x) (order y)); simpl; [|done|].
  - by rewrite (proj2 (Nat.compare_lt_iff _ _)).
  - rewrite IH; [done|]. intros z I. apply R. by right.
Qed.

Lemma sort_rising l : StronglySorted (fun a b => (seq a < seq b)%nat) l ->
  map (fun e => (aspect e, order e)) (sort_by by_order l) = sort_by by_number (map (fun e => (aspect e, order e)) l).
Proof.
  induction 1 as [|x l S IH F]; [done|]. simpl. rewrite insert_rising, IH; [done|]. intros y I.
  rewrite List.Forall_forall in F. apply F. eapply Permutation_in; [apply sort_by_permutation|exact I].
Qed.

Lemma rising_sorted es n k : map seq es = List.seq k n -> StronglySorted (fun a b => (seq a < seq b)%nat) es.
Proof.
  revert n k. induction es as [|e es IH]; intros n k Q; [constructor|]. destruct n as [|n]; [done|]. injection Q as Q1 Q2.
  constructor; [by eapply IH|]. apply List.Forall_forall. intros e' I. apply (in_map seq) in I. rewrite Q2 in I.
  apply in_seq in I. lia.
Qed.

Lemma get_matching_advice name regs r : registered regs r ->
  map aspect (get_matching name r) = advice_for name regs.
Proof.
  intros (es & N & F & B & _). unfold get_matching, advice_for. rewrite B, filter_sort by (by eapply numbers_distinct).
  transitivity (map fst (map (fun e => (aspect e, order e)) (sort_by by_order (List.filter (fun b => is_match (pointcut b) name) es)))).
  { rewrite map_map. by apply map_ext. }
  rewrite sort_rising by (apply filter_sorted; by eapply rising_sorted). do 2 f_equal. unfold matching. clear N B.
  induction F as [|e [[a p] o] es regs (Q1 & Q2 & Q3) F IH]; [done|]. simpl in *.
  pose proof (pointcut_meaning p (pointcut e) name Q2) as M. rewrite M.
  destruct (segments_match _ _); [|done]. simpl. by rewrite IH, Q1, Q3.
Qed.

(** A call woven through the process-wide registry runs, whatever aspects
    the linker found, exactly the advice whose pointcut matches the qualified
    name segment by segment, by ascending order and among equals in the order of
    registration: every before hook, the arounds nested with the first outermost
    over the call itself, the hooks of the outcome with the join point carrying
    it, every after hook; the aspects are registered once, so a later call finds
    the same. *)
Theorem advised_runs_matching discovered : exists g,
  forall type_name method args call w,
    let name := type_name ++ lit "." ++ method in
    let run := woven (join_point_new type_name method args) (advice_for name discovered) call w in
    advised discovered type_name method args call (mkGlobal registry_new false) w = Some (run, g) /\
    advised discovered type_name method args call g w = Some (run, g).
Proof.
  assert (registered [] (registry (mkGlobal registry_new false))) as R0 by (exists []; by repeat constructor).
  destruct (run_thunks_registered [] discovered (mkGlobal registry_new false) R0) as (g & Q & R & _).
  exists (mkGlobal (registry g) true). intros type_name method args call w. cbn zeta.
  rewrite <- (get_matching_advice (type_name ++ lit "." ++ method) discovered (registry g) R), <- intercept_woven.
  unfold advised, matching_bindings, register_discovered_aspects. simpl. rewrite Q. simpl.
  by destruct (intercept_with_bindings _ _ _ _) as [[result jp] w'].
Qed.
End Advice.

(** ** A run with aspects that write down what they see *)

Definition tracing (name : string) : Aspect (A := Z) (E := str) (W := list str) :=
  let note (what : string) w := w ++ [lit what ++ lit " " ++ lit name] in
  mkAspect (fun _ => note "before"%string)
    (fun jp => note match jp_result jp with Some _ => "returned"%string | None => "lost"%string end)
    (fun jp => note match jp_error jp with Some _ => "threw"%string | None => "lost"%string end)
    (fun _ => note "after"%string)
    (fun _ proceed w => let '(result, w) := proceed (note "enter"%string w) in (result, note "leave"%string w)).

Definition found : list (Aspect (A := Z) (E := str) (W := list str) * str * Z) :=
  [(tracing "b", lit "**.save", 10); (tracing "a", lit "shop.*.*", 0); (tracing "c", lit "other.**", 0)].

Definition saves (w : list str) : AdviceResult (A := Z) (E := str) * list str := (Ok 7, w ++ [lit "save"]).

Example both_saw : woven id (join_point_new (lit "shop.Orders") (lit "save") 1) (advice_for (lit "shop.Orders.save") found) saves [] =
  (Ok 7, map lit ["before a"; "before b"; "enter a"; "enter b"; "save"; "leave b"; "leave a";
                  "returned a"; "returned b"; "after a"; "after b"]%string).
Proof. reflexivity. Qed.

Lemma advised_runs_matching_witness : exists g,
  (advised (H := small_regex) id found (lit "shop.Orders") (lit "save") 1 saves (mkGlobal registry_new false) [] =
     Some (woven id (join_point_new (lit "shop.Orders") (lit "save") 1) (advice_for (lit "shop.Orders.save") found) saves [], g)) /\
  (advised (H := small_regex) id found (lit "shop.Orders") (lit "save") 1 saves g [] =
     Some (woven id (join_point_new (lit "shop.Orders") (lit "save") 1) (advice_for (lit "shop.Orders.save") found) saves [], g)).
Proof.
  destruct (@advised_runs_matching small_regex Z str (list str) id small_regex_laws found) as [g R].
  exists g. apply (R (lit "shop.Orders") (lit "save") 1 saves []).
Defined.
