(* ===== verification/Cqrs.v ===== *)
(** The command and query bus: [crates/cqrs/src/bus.rs], [cache.rs],
    [authorization.rs], [validation.rs], [context.rs], [event.rs], [fluent.rs],
    [error.rs].

    [dyn Any] is that of [AnyType.v]. Handlers and
    middlewares act on a world and may panic. Left out: the metrics and
    correlation middlewares, and the publisher over the event broker. *)
From Stdlib Require Import Ascii String.
From Stdlib Require Import ZArith NArith List Lia.
From stdpp Require Import base decidable list gmap.
From S2P Require Import Prelude Str Order AnyType.

(** * Decisions and contexts *)

Inductive Severity : Type := Warning | SeverityError | Critical.
Definition severity_as_str (s : Severity) : str :=
  match s with Warning => lit "WARNING" | SeverityError => lit "ERROR" | Critical => lit "CRITICAL" end.

Definition AUTHORIZATION_ERROR_CODE : str := lit "AUTHORIZATION_ERROR".
Record AuthorizationError : Type := mkAuthError {
  resource : str;
  ae_message : str;
  ae_code : str;
  ae_severity : Severity;
  denied_action : option str
}.
Definition authorization_error_new (resource message : str) : AuthorizationError :=
  mkAuthError resource message AUTHORIZATION_ERROR_CODE SeverityError None.

Record AuthorizationResult : Type := mkAuthResult { authorized : bool; auth_errors : list AuthorizationError; auth_summary : option str }.
Definition auth_success : AuthorizationResult := mkAuthResult true [] None.
Definition auth_failure_with (e : AuthorizationError) : AuthorizationResult := mkAuthResult false [e] None.
Definition auth_failure (resource message : str) : AuthorizationResult := auth_failure_with (authorization_error_new resource message).
Definition auth_with_summary (summary : str) (r : AuthorizationResult) : AuthorizationResult :=
  mkAuthResult (authorized r) (auth_errors r) (Some summary).
Definition auth_combine (r other : AuthorizationResult) : AuthorizationResult :=
  mkAuthResult (authorized r && authorized other) (auth_errors r ++ auth_errors other) None.
Definition auth_error_messages (r : AuthorizationResult) : list str :=
  map (fun e => resource e ++ lit ": " ++ ae_message e) (auth_errors r).
Definition auth_to_string (r : AuthorizationResult) : str :=
  if authorized r then lit "authorized"
  else match auth_summary r with
       | Some summary => summary
       | None =>
           let messages := auth_error_messages r in
           if bool_decide (messages = []) then lit "Authorization denied" else join (lit "; ") messages
       end.

Definition VALIDATION_ERROR_CODE : str := lit "VALIDATION_ERROR".
Section Validation.
Context {J : Type}.
Record ValidationError : Type := mkValidationError {
  field_name : str;
  ve_message : str;
  ve_code : str;
  ve_severity : Severity;
  rejected_value : option J
}.
Definition validation_error_new (field_name message : str) : ValidationError :=
  mkValidationError field_name message VALIDATION_ERROR_CODE SeverityError None.

Record ValidationResult : Type := mkValidationResult { valid : bool; v_errors : list ValidationError; v_summary : option str }.
Definition v_success : ValidationResult := mkValidationResult true [] None.
Definition v_failure_with (e : ValidationError) : ValidationResult := mkValidationResult false [e] None.
Definition v_from_errors (errors : list ValidationError) : ValidationResult :=
  if bool_decide (List.length errors = 0%nat) then v_success else mkValidationResult false errors None.
Definition v_with_summary (summary : str) (r : ValidationResult) : ValidationResult :=
  mkValidationResult (valid r) (v_errors r) (Some summary).
Definition v_combine (r other : ValidationResult) : ValidationResult :=
  mkValidationResult (valid r && valid other) (v_errors r ++ v_errors other) None.
Definition v_error_messages (r : ValidationResult) : list str :=
  map (fun e => field_name e ++ lit ": " ++ ve_message e) (v_errors r).
Definition v_to_string (r : ValidationResult) : str :=
  if valid r then lit "valid"
  else match v_summary r with
       | Some summary => summary
       | None =>
           let messages := v_error_messages r in
           if bool_decide (messages = []) then lit "Validation failed" else join (lit "; ") messages
       end.
End Validation.
Arguments ValidationError : clear implicits. Arguments ValidationResult : clear implicits.

(** Timestamps are the caller's or the clock's; properties hold JSON values. *)
Record ExecutionContext (J : Type) : Type := mkExecContext {
  user_id : option str;
  tenant_id : option str;
  organization_id : option str;
  session_id : option str;
  request_id : option str;
  source : option str;
  client_ip : option str;
  user_agent : option str;
  created_at : Z;
  properties : gmap str J;
  feature_flags : gmap str bool
}.
Arguments user_id {J} _. Arguments tenant_id {J} _. Arguments properties {J} _. Arguments feature_flags {J} _.

Definition exec_context_new {J} (now : Z) : ExecutionContext J := mkExecContext J None None None None None None None None now ∅ ∅.
Definition get_feature_flag {J} (name : str) (default_ : bool) (ctx : ExecutionContext J) : bool := default default_ (feature_flags ctx !! name).
Definition get_property {J} (key : str) (ctx : ExecutionContext J) : option J := properties ctx !! key.

(** * Errors, messages, envelopes *)

Inductive CqrsError : Type :=
| NoHandler (name : str)
| HandlerTypeMismatch (want got : str)
| ResultTypeMismatch (want got : str)
| Validation (message : str)
| Authorization (result : AuthorizationResult)
| Serialization (message : str)
| Handler (message : str)
| EventPublish (message : str).

Definition is_no_handler (e : CqrsError) : bool := match e with NoHandler _ => true | _ => false end.
Definition is_authorization (e : CqrsError) : bool := match e with Authorization _ => true | _ => false end.
Definition authorization_result (e : CqrsError) : option AuthorizationResult := match e with Authorization r => Some r | _ => None end.

(** [ValidationResult::into_cqrs_error]. *)
Definition into_cqrs_error {J} (r : ValidationResult J) : Result unit CqrsError :=
  if valid r then Ok tt else Err (Validation (v_to_string r)).

Record DomainEvent (J : Type) : Type := mkDomainEvent { event_type : str; payload : J }.
Arguments mkDomainEvent {J}. Arguments event_type {J} _. Arguments payload {J} _.

Inductive MessageKind : Type := Command | Query.
#[export] Instance MessageKind_eq_dec : EqDecision MessageKind.
Proof. solve_decision. Defined.

(** The trait [Message]; [plain] has its default methods. [to_json] is what
    serde makes of the value. *)
Record Message (J T : Type) : Type := mkMessage {
  kind : MessageKind;
  validate : T -> Result unit CqrsError;
  cache_ttl : T -> option Z;
  authorize : T -> option (ExecutionContext J) -> AuthorizationResult;
  domain_events : T -> list (DomainEvent J);
  to_json : T -> Result (list N) str
}.
Arguments mkMessage {J T}. Arguments kind {J T} _. Arguments validate {J T} _ _. Arguments cache_ttl {J T} _ _.
Arguments authorize {J T} _ _ _. Arguments domain_events {J T} _ _. Arguments to_json {J T} _ _.
Definition plain {J T} (to_json : T -> Result (list N) str) : Message J T :=
  mkMessage Command (fun _ => Ok tt) (fun _ => None) (fun _ _ => auth_success) (fun _ => []) to_json.

Section Bus.
Context `{Universe} {J M W : Type} (messages : forall C : code, Message J (denote C)).

(** [M] is the metadata a builder attached. *)
Record Envelope : Type := mkEnvelope {
  message : Any;
  context : option (ExecutionContext J);
  metadata : option M;
  cache_ttl_override : option (option Z);
  cache_key : option str
}.

Definition envelope_new {C : code} (m : denote C) : Envelope := mkEnvelope (existT C m) None None None None.
Definition with_context (ctx : ExecutionContext J) (e : Envelope) : Envelope :=
  mkEnvelope (message e) (Some ctx) (metadata e) (cache_ttl_override e) (cache_key e).
Definition with_metadata (md : M) (e : Envelope) : Envelope :=
  mkEnvelope (message e) (context e) (Some md) (cache_ttl_override e) (cache_key e).
Definition with_cache_ttl (ttl : option Z) (e : Envelope) : Envelope :=
  mkEnvelope (message e) (context e) (metadata e) (Some ttl) (cache_key e).
Definition with_cache_key (key : str) (e : Envelope) : Envelope :=
  mkEnvelope (message e) (context e) (metadata e) (cache_ttl_override e) (Some key).

Definition type_id (e : Envelope) : code := projT1 (message e).
Definition envelope_validate (e : Envelope) : Result unit CqrsError := validate (messages (type_id e)) (projT2 (message e)).
Definition envelope_authorize (e : Envelope) : AuthorizationResult := authorize (messages (type_id e)) (projT2 (message e)) (context e).
Definition envelope_events (e : Envelope) : list (DomainEvent J) := domain_events (messages (type_id e)) (projT2 (message e)).
Definition envelope_cache_ttl (e : Envelope) : option Z :=
  match cache_ttl_override e with
  | Some overridden => overridden
  | None => cache_ttl (messages (type_id e)) (projT2 (message e))
  end.
Definition cache_json (e : Envelope) : Result (list N) CqrsError :=
  map_err Serialization (to_json (messages (type_id e)) (projT2 (message e))).

(** * The bus *)

Definition DynHandler : Type := Envelope -> Prelude.M W (Result Any CqrsError).
Definition Middleware : Type := DynHandler -> DynHandler.

Record RegisteredHandler : Type := mkHandler { rh_kind : MessageKind; handler : DynHandler }.
Record Bus : Type := mkBus { handlers : gmap code RegisteredHandler; middlewares : list Middleware }.
Implicit Type bus : Bus.

Definition bus_new : Bus := mkBus ∅ [].
Definition use_middleware (m : Middleware) bus : Bus := mkBus (handlers bus) (middlewares bus ++ [m]).

(** What the registry stores for a typed handler. *)
Definition erase (C R : code) (h : denote C -> option (ExecutionContext J) -> Prelude.M W (Result (denote R) CqrsError)) : DynHandler :=
  fun env =>
    match downcast C (message env) with
    | None => ret (Err (HandlerTypeMismatch (type_name C) (type_name (type_id env))))
    | Some m => let? r := h m (context env) in ret (Ok (existT R r))
    end.

Definition register_with_context (C R : code)
  (h : denote C -> option (ExecutionContext J) -> Prelude.M W (Result (denote R) CqrsError)) bus : Bus :=
  mkBus (<[C := mkHandler (kind (messages C)) (erase C R h)]> (handlers bus)) (middlewares bus).
Definition register (C R : code) (h : denote C -> Prelude.M W (Result (denote R) CqrsError)) bus : Bus :=
  register_with_context C R (fun m _ => h m) bus.
Definition unregister (C : code) bus : bool * Bus :=
  (bool_decide (is_Some (handlers bus !! C)), mkBus (delete C (handlers bus)) (middlewares bus)).

(** [sort_unstable] on names; equal names are the same text. *)
Definition handler_names_by (p : RegisteredHandler -> bool) bus : list str :=
  sort_by str_compare (map (fun kv => type_name (fst kv)) (List.filter (fun kv => p (snd kv)) (map_to_list (handlers bus)))).
Definition handler_names bus : list str := handler_names_by (fun _ => true) bus.
Definition handler_names_by_kind (k : MessageKind) bus : list str := handler_names_by (fun r => bool_decide (rh_kind r = k)) bus.
Definition handler_count bus : nat := size (handlers bus).
Definition has_handler (C : code) bus : bool := bool_decide (is_Some (handlers bus !! C)).

Definition dispatch_envelope bus (env : Envelope) : Prelude.M W (Result Any CqrsError) :=
  match handlers bus !! type_id env with
  | None => ret (Err (NoHandler (type_name (type_id env))))
  | Some registered => fold_left (fun chain middleware => middleware chain) (rev (middlewares bus)) (handler registered) env
  end.

Definition dispatch_typed (R : code) bus (env : Envelope) : Prelude.M W (Result (denote R) CqrsError) :=
  let? result := dispatch_envelope bus env in
  ret (ok_or (downcast R result) (ResultTypeMismatch (type_name R) (type_name (projT1 result)))).

Definition send {C : code} (R : code) (command : denote C) bus : Prelude.M W (Result (denote R) CqrsError) :=
  dispatch_typed R bus (envelope_new command).
Definition send_with_context {C : code} (R : code) (command : denote C) (ctx : ExecutionContext J) bus
  : Prelude.M W (Result (denote R) CqrsError) :=
  dispatch_typed R bus (with_context ctx (envelope_new command)).

(** * Middlewares *)

Definition validation_middleware : Middleware := fun next env =>
  match envelope_validate env with
  | Err e => ret (Err e)
  | Ok _ => next env
  end.

Definition authorization_middleware (enabled : bool) : Middleware := fun next env =>
  if enabled then
    let result := envelope_authorize env in
    if negb (authorized result) then ret (Err (Authorization result)) else next env
  else next env.

(** ** Events *)

Definition Publisher : Type := DomainEvent J -> option str -> Prelude.M W (Result unit CqrsError).
Definition noop_publisher : Publisher := fun _ _ => ret (Ok tt).

Inductive EventFailureStrategy : Type := Log | Raise.

Context (error_to_string : CqrsError -> str).

Fixpoint publish_all (publisher : Publisher) (events : list (DomainEvent J)) (destination : option str)
  (failures : list (str * str)) : Prelude.M W (list (str * str)) :=
  match events with
  | [] => ret failures
  | event :: events =>
      let! r := publisher event destination in
      publish_all publisher events destination
        (failures ++ match r with Err err => [(event_type event, error_to_string err)] | Ok _ => [] end)
  end.

Definition publish_domain_events (publisher : Publisher) (events : list (DomainEvent J)) (destination : option str)
  (strategy : EventFailureStrategy) : Prelude.M W (Result unit CqrsError) :=
  let! failures := publish_all publisher events destination [] in
  ret match strategy, failures with
      | Raise, (event_type, message) :: _ =>
          Err (EventPublish (show (Z.of_nat (List.length failures)) ++ lit " domain event(s) failed to publish; first failure ("
                             ++ event_type ++ lit "): " ++ message))
      | _, _ => Ok tt
      end.

Definition domain_event_middleware (publisher : Publisher) (destination : option str) (strategy : EventFailureStrategy) : Middleware :=
  fun next env =>
    let events := envelope_events env in
    let? result := next env in
    if bool_decide (List.length events = 0%nat) then ret (Ok result)
    else let? _ := publish_domain_events publisher events destination strategy in ret (Ok result).

(** [events_of] is the result type's trait [DomainEvents]. *)
Definition send_publishing {C : code} (R : code) (events_of : denote R -> list (DomainEvent J)) (command : denote C)
  (publisher : Publisher) (destination : option str) (strategy : EventFailureStrategy) bus : Prelude.M W (Result (denote R) CqrsError) :=
  let? result := send R command bus in
  let events := events_of result in
  if bool_decide (List.length events = 0%nat) then ret (Ok result)
  else let? _ := publish_domain_events publisher events destination strategy in ret (Ok result).

(** ** The query cache

    Its entries live in the world. [digest] is the hexadecimal SHA-256. *)
Record CacheEntry : Type := mkCacheEntry { entry_value : Any; expires_at : option Z }.
Context (get_entries : W -> gmap str CacheEntry) (put_entries : gmap str CacheEntry -> W -> W).
Context (clock : W -> Z) (digest : list N -> str).

Definition invalidate (prefix : str) (w : W) : W :=
  put_entries (filter (fun kv => starts_with prefix (fst kv) = false) (get_entries w)) w.
Definition invalidate_type (Q : code) (w : W) : W := invalidate (type_name Q ++ lit ":") w.

Definition cache_get (key : str) (w : W) : option Any :=
  entry ← get_entries w !! key;
  match expires_at entry with
  | Some t => if t <? clock w then None else Some (entry_value entry)
  | None => Some (entry_value entry)
  end.

(** The sum of the instant and the duration panics past the largest instant. *)
Definition cache_set (key : str) (value : Any) (ttl : Z) : Prelude.M W unit := fun w =>
  let put expires := Some (tt, put_entries (<[key := mkCacheEntry value expires]> (get_entries w)) w) in
  if 0 <? ttl then (if INSTANT_MAX <? clock w + ttl then None else put (Some (clock w + ttl))) else put None.

Definition key_of (env : Envelope) : Result str CqrsError :=
  match cache_key env with
  | Some key => Ok key
  | None => json <-? cache_json env; Ok (type_name (type_id env) ++ lit ":" ++ digest json)
  end.

Definition query_cache_middleware : Middleware := fun next env =>
  match envelope_cache_ttl env with
  | None => next env
  | Some ttl =>
      match key_of env with
      | Err _ => next env
      | Ok key => fun w =>
          match cache_get key w with
          | Some hit => Some (Ok hit, w)
          | None => (let? result := next env in let! _ := cache_set key result ttl in ret (Ok result)) w
          end
      end
  end.

(** * Builders *)

Record CommandBuilder (C : code) : Type := mkCommandBuilder { cb_command : denote C; cb_metadata : M; cb_context : option (ExecutionContext J) }.
Arguments mkCommandBuilder {C}. Arguments cb_command {C} _. Arguments cb_metadata {C} _. Arguments cb_context {C} _.

(** [md] is the metadata with its fresh id and timestamp. *)
Definition command_create {C} (md : M) (command : denote C) : CommandBuilder C := mkCommandBuilder command md None.
Definition command_with {C} (f : denote C -> denote C) (b : CommandBuilder C) := mkCommandBuilder (f (cb_command b)) (cb_metadata b) (cb_context b).
Definition command_with_context {C} (ctx : ExecutionContext J) (b : CommandBuilder C) := mkCommandBuilder (cb_command b) (cb_metadata b) (Some ctx).
Definition command_build {C} (b : CommandBuilder C) : Envelope :=
  let env := with_metadata (cb_metadata b) (envelope_new (cb_command b)) in
  match cb_context b with Some ctx => with_context ctx env | None => env end.
Definition command_execute_with {C} (R : code) bus (b : CommandBuilder C) := dispatch_typed R bus (command_build b).

Record QueryBuilder (Q : code) : Type := mkQueryBuilder {
  qb_query : denote Q;
  qb_metadata : M;
  qb_context : option (ExecutionContext J);
  qb_cache_ttl : option (option Z);
  qb_cache_key : option str
}.
Arguments mkQueryBuilder {Q}. Arguments qb_query {Q} _. Arguments qb_metadata {Q} _. Arguments qb_context {Q} _.
Arguments qb_cache_ttl {Q} _. Arguments qb_cache_key {Q} _.

Definition query_create {Q} (md : M) (query : denote Q) : QueryBuilder Q := mkQueryBuilder query md None None None.
Definition query_with_context {Q} (ctx : ExecutionContext J) (b : QueryBuilder Q) :=
  mkQueryBuilder (qb_query b) (qb_metadata b) (Some ctx) (qb_cache_ttl b) (qb_cache_key b).
Definition cached_for {Q} (ttl : Z) (b : QueryBuilder Q) :=
  mkQueryBuilder (qb_query b) (qb_metadata b) (qb_context b) (Some (Some ttl)) (qb_cache_key b).
Definition uncached {Q} (b : QueryBuilder Q) :=
  mkQueryBuilder (qb_query b) (qb_metadata b) (qb_context b) (Some None) (qb_cache_key b).
Definition query_with_cache_key {Q} (key : str) (b : QueryBuilder Q) :=
  mkQueryBuilder (qb_query b) (qb_metadata b) (qb_context b) (qb_cache_ttl b) (Some key).
Definition query_build {Q} (b : QueryBuilder Q) : Envelope :=
  let env := with_metadata (qb_metadata b) (envelope_new (qb_query b)) in
  let env := match qb_context b with Some ctx => with_context ctx env | None => env end in
  let env := match qb_cache_ttl b with Some ttl => with_cache_ttl ttl env | None => env end in
  match qb_cache_key b with Some key => with_cache_key key env | None => env end.

(** * Theorems *)

(** ** The bus after any history of registrations *)

Inductive BusOp : Type :=
| Use (m : Middleware)
| Register (C R : code) (h : denote C -> option (ExecutionContext J) -> Prelude.M W (Result (denote R) CqrsError))
| Unregister (C : code).

Definition apply_op (op : BusOp) bus : Bus :=
  match op with
  | Use m => use_middleware m bus
  | Register C R h => register_with_context C R h bus
  | Unregister C => snd (unregister C bus)
  end.
Definition bus_of (ops : list BusOp) : Bus := fold_left (fun bus op => apply_op op bus) ops bus_new.

(** The last word of a history on a type, and its middlewares. *)
Definition TypedHandler (C : code) : Type := { R : code & denote C -> option (ExecutionContext J) -> Prelude.M W (Result (denote R) CqrsError) }.
Definition says (C : code) (op : BusOp) (latest : option (TypedHandler C)) : option (TypedHandler C) :=
  match op with
  | Use _ => latest
  | Register C' R h =>
      match decide (C' = C) with
      | left e => Some (eq_rect C' TypedHandler (existT R h) C e)
      | right _ => latest
      end
  | Unregister C' => if decide (C' = C) then None else latest
  end.
Definition latest (C : code) (ops : list BusOp) : option (TypedHandler C) := fold_left (fun l op => says C op l) ops None.
Definition used (ops : list BusOp) : list Middleware := omap (fun op => match op with Use m => Some m | _ => None end) ops.

Lemma bus_of_history ops :
  middlewares (bus_of ops) = used ops /\
  forall C, option_map handler (handlers (bus_of ops) !! C) = option_map (fun th => erase C (projT1 th) (projT2 th)) (latest C ops).
Proof.
  unfold bus_of, latest. induction ops as [|op ops [IHm IHh]] using rev_ind; [split; [done|]; intros C; simpl; by rewrite lookup_empty|].
  unfold used. rewrite omap_app, !fold_left_app. fold (used ops). simpl. split.
  - destruct op; simpl; [by rewrite IHm|by rewrite IHm, app_nil_r..].
  - intros C. rewrite fold_left_app. simpl. specialize (IHh C). destruct op as [m|C' R h|C']; simpl; [done| |].
    + destruct (decide (C' = C)) as [->|Ne]; [by rewrite lookup_insert_eq|by rewrite lookup_insert_ne].
    + destruct (decide (C' = C)) as [->|Ne]; [by rewrite lookup_delete_eq|by rewrite lookup_delete_ne].
Qed.

Lemma dispatch_history ops env : dispatch_envelope (bus_of ops) env =
  match latest (type_id env) ops with
  | None => ret (Err (NoHandler (type_name (type_id env))))
  | Some th => fold_right (fun middleware chain => middleware chain) (erase (type_id env) (projT1 th) (projT2 th)) (used ops) env
  end.
Proof.
  destruct (bus_of_history ops) as [Hm Hh]. specialize (Hh (type_id env)). unfold dispatch_envelope. rewrite Hm.
  destruct (handlers _ !! _) as [rh|], (latest _ _) as [th|]; simpl in Hh; try done.
  injection Hh as ->. rewrite <- fold_left_rev_right, rev_involutive. done.
Qed.

(** What becomes of a handler's answer: it is read back at the type the caller
    asked for. *)
Definition typed (R : code) {R' : code} (r : denote R') : Result (denote R) CqrsError :=
  ok_or (downcast R (existT R' r)) (ResultTypeMismatch (type_name R) (type_name R')).

(** The answer of a handler behind the event middleware. *)
Definition published (publisher : Publisher) (events : list (DomainEvent J)) (destination : option str) (strategy : EventFailureStrategy)
  {T} (answer : Result T CqrsError) : Prelude.M W (Result T CqrsError) :=
  if bool_decide (List.length events = 0%nat) then ret answer
  else let? _ := publish_domain_events publisher events destination strategy in ret answer.

(** C23 On a bus with the validating, authorizing and event-publishing
    middlewares, whatever else was registered, overwritten or removed on it
    before, a message reaches the handler that was registered last for its type,
    with its context, if and only if it is valid and authorized; otherwise the
    caller gets that refusal and the world is as it was. What the handler
    answers is published and then read back at the type asked for; a failure is
    passed on, and without a handler no middleware runs. *)
Theorem guarded_send ops publisher destination strategy (C R : code) (m : denote C) (ctx : ExecutionContext J) w :
  used ops = [validation_middleware; authorization_middleware true; domain_event_middleware publisher destination strategy] ->
  send_with_context R m ctx (bus_of ops) w =
  match latest C ops with
  | None => Some (Err (NoHandler (type_name C)), w)
  | Some (existT R' h) =>
      match validate (messages C) m with
      | Err e => Some (Err e, w)
      | Ok _ =>
          let decision := authorize (messages C) m (Some ctx) in
          if authorized decision then
            match h m (Some ctx) w with
            | None => None
            | Some (Err e, w') => Some (Err e, w')
            | Some (Ok r, w') => (let? r := published publisher (domain_events (messages C) m) destination strategy (Ok r) in ret (typed R r)) w'
            end
          else Some (Err (Authorization decision), w)
      end
  end.
Proof.
  intros U. unfold send_with_context, dispatch_typed, try_ at 1, bind at 1. rewrite dispatch_history, U.
  change (type_id (with_context ctx (envelope_new m))) with C.
  destruct (latest C ops) as [[R' h]|]; [|done]. cbn [fold_right projT1 projT2].
  unfold validation_middleware, envelope_validate. cbn [type_id message with_context envelope_new projT1 projT2].
  destruct (validate (messages C) m) as [[]|e]; [|done].
  unfold authorization_middleware, envelope_authorize. cbn [type_id message context with_context envelope_new projT1 projT2].
  destruct (authorized _); [|done]. cbn [negb].
  unfold domain_event_middleware, erase, envelope_events, published. cbn [message context with_context envelope_new type_id projT1 projT2].
  rewrite downcast_same. unfold try_, bind, ret. destruct (h m (Some ctx) w) as [[[r|e] w']|]; [|done..].
  destruct (bool_decide _); [done|]. by destruct (publish_domain_events _ _ _ _ w') as [[[[]|e] w'']|].
Qed.

(** ** The query cache is not seen *)

Section Transparent.
(** The cell of the world the entries are in. *)
Hypothesis get_put : forall s w, get_entries (put_entries s w) = s.

(** The rest of the chain answers a query from its message alone and leaves the
    entries be. *)
Context (next : DynHandler) (f : Any -> Result Any CqrsError).
Hypothesis answers : forall env w, exists w', next env w = Some (f (message env), w') /\ get_entries w' = get_entries w.

(** What names a query in the cache: a key of its own, or else its type's name
    and the digest of its JSON. *)
Inductive names_query (env : Envelope) : str -> Prop :=
| by_own_key key : cache_key env = Some key -> names_query env key
| by_value json : cache_key env = None -> cache_json env = Ok json ->
    names_query env (type_name (type_id env) ++ lit ":" ++ digest json).

Lemma key_of_names env key : key_of env = Ok key <-> names_query env key.
Proof.
  unfold key_of. split.
  - destruct (cache_key env) as [k|] eqn:Ck; [intros [= <-]; by constructor|].
    destruct (cache_json env) as [json|e] eqn:Js; [|done]. intros [= <-]. by constructor.
  - intros [? ->|json -> ->]; done.
Qed.

(** Queries of one name are answered alike. *)
Definition coherent (asked : list Envelope) : Prop := forall env1 env2 key, In env1 asked -> In env2 asked ->
  names_query env1 key -> names_query env2 key -> f (message env1) = f (message env2).

(** Every entry is the answer to every query asked that has its key. *)
Definition truthful (asked : list Envelope) (entries : gmap str CacheEntry) : Prop :=
  forall key entry env, entries !! key = Some entry -> In env asked -> key_of env = Ok key -> f (message env) = Ok (entry_value entry).

Definition in_time (env : Envelope) : Prop :=
  forall ttl w, envelope_cache_ttl env = Some ttl -> clock w + ttl <= INSTANT_MAX.

Lemma cached_answer asked env w : coherent asked -> truthful asked (get_entries w) -> In env asked -> in_time env ->
  exists w', query_cache_middleware next env w = Some (f (message env), w') /\ truthful asked (get_entries w').
Proof.
  intros Co T N I. unfold query_cache_middleware. destruct (answers env w) as (w1 & A & G).
  destruct (envelope_cache_ttl env) as [ttl|] eqn:E; [|exists w1; by rewrite A, G].
  destruct (key_of env) as [key|] eqn:K; [|exists w1; by rewrite A, G].
  destruct (cache_get key w) as [hit|] eqn:Hit.
  - exists w. split; [|done]. unfold cache_get in Hit. destruct (get_entries w !! key) as [entry|] eqn:L; [|done]. simpl in Hit.
    rewrite (T key entry env L N K). destruct (expires_at entry) as [t|]; [destruct (t <? clock w); [done|]|]; by injection Hit as ->.
  - unfold try_, bind, ret. rewrite A. destruct (f (message env)) as [result|e] eqn:F; [|exists w1; by rewrite G].
    assert (forall expires, truthful asked (get_entries (put_entries (<[key := mkCacheEntry result expires]> (get_entries w1)) w1))) as T'.
    { intros expires key' entry' env'. rewrite get_put, G. destruct (decide (key' = key)) as [->|Ne].
      - rewrite lookup_insert_eq. intros [= <-] N' K'. simpl. by rewrite <- F, (Co env env' key N N' (proj1 (key_of_names _ _) K) (proj1 (key_of_names _ _) K')).
      - rewrite lookup_insert_ne by done. apply T. }
    unfold cache_set. pose proof (I ttl w1 E) as Le. destruct (Z.ltb_spec 0 ttl); [|by eexists].
    destruct (Z.ltb_spec INSTANT_MAX (clock w1 + ttl)); [lia|by eexists].
Qed.

(** What happens to the cache: queries, invalidations, and whatever else the
    program does. *)
Inductive Step : Type :=
| Ask (env : Envelope)
| Invalidate (prefix : str)
| Elsewhere (g : W -> W).

Definition step_ok (s : Step) : Prop :=
  match s with
  | Ask env => in_time env
  | Invalidate _ => True
  | Elsewhere g => forall w, get_entries (g w) = get_entries w
  end.

Fixpoint run_script (script : list Step) : Prelude.M W (list (Result Any CqrsError)) :=
  match script with
  | [] => ret []
  | Ask env :: script => let! r := query_cache_middleware next env in let! rs := run_script script in ret (r :: rs)
  | Invalidate prefix :: script => fun w => run_script script (invalidate prefix w)
  | Elsewhere g :: script => fun w => run_script script (g w)
  end.

Definition asked (script : list Step) : list Envelope := omap (fun s => match s with Ask env => Some env | _ => None end) script.

Lemma script_answers questions script w : coherent questions -> incl (asked script) questions ->
  truthful questions (get_entries w) -> Forall step_ok script ->
  exists w', run_script script w = Some (map (fun env => f (message env)) (asked script), w').
Proof.
  intros Co. revert w. induction script as [|s script IH]; intros w Inc T F; [by exists w|]. apply Forall_cons in F as [O F].
  destruct s as [env|prefix|g]; cbn [asked omap list_omap step_ok run_script map] in *.
  - destruct (cached_answer questions env w Co T (Inc env (or_introl eq_refl)) O) as (w1 & A & T1).
    destruct (IH w1) as (w2 & R); [intros e I; apply Inc; by right|done..|].
    exists w2. unfold bind at 1. rewrite A. unfold bind, ret. by rewrite R.
  - apply IH; [done| |done]. unfold invalidate. intros key entry env. rewrite get_put, map_lookup_filter_Some. intros [L _]. by apply T.
  - apply IH; [done| |done]. by rewrite O.
Qed.

(** C28 Behind a query cache that starts empty, every query is answered as the
    rest of the chain would answer it, however queries, invalidations, expiries
    and the work of others follow each other. The conditions: the chain answers
    from the message alone, for the context is not part of a key, and only the
    cache touches its entries; no deadline overflows; and the queries asked that
    share a name, be it a key of their own or the type's name with the digest of
    the JSON, are ones the chain answers alike. The last fails for messages that
    differ in fields serde skips, for types of one name, and for colliding
    digests. *)
Theorem query_cache_transparent script w :
  get_entries w = ∅ -> coherent (asked script) -> Forall step_ok script ->
  exists w', run_script script w = Some (map (fun env => f (message env)) (asked script), w').
Proof.
  intros E Co F. apply (script_answers (asked script)); [exact Co|by intros env| |exact F].
  intros key entry env. by rewrite E, lookup_empty.
Qed.
End Transparent.
End Bus.

(** ** Witnesses and what the bus does not promise *)

(** Types told by a number, all of them of numbers. *)
#[local] Instance numbered : Universe :=
  { code := nat; denote := fun _ => N; type_name := fun C => lit "shop::T" ++ show (Z.of_nat C) }.

Definition demo_digest (json : list N) : str := map (fun n => n + 59)%N json.

(** Type 0 is a query, kept for ten seconds; type 1 a query that may only be
    asked with a context; type 9 one whose last digit serde skips; the rest are
    plain. *)
Definition demo_messages (C : code) : Message unit (denote C) :=
  match C with
  | 0%nat => mkMessage Query (fun _ => Ok tt) (fun _ => Some 10) (fun _ _ => auth_success) (fun _ => []) (fun n => Ok [n])
  | 1%nat => mkMessage Query (fun n => if (n =? 0)%N then Err (Validation (lit "no id")) else Ok tt) (fun _ => Some 10)
               (fun _ ctx => match ctx with Some _ => auth_success | None => auth_failure (lit "orders") (lit "who asks?") end)
               (fun n => [mkDomainEvent (lit "asked") tt]) (fun n => Ok [n])
  | 9%nat => mkMessage Query (fun _ => Ok tt) (fun _ => Some 10) (fun _ _ => auth_success) (fun _ => []) (fun n => Ok [(n / 10)%N])
  | _ => plain (fun n => Ok [n])
  end.

(** The entries, the clock, and what the handlers read and log. *)
Record Demo : Type := mkDemo { d_entries : gmap str CacheEntry; d_clock : Z; d_value : N; d_log : list str }.
Definition put_demo (entries : gmap str CacheEntry) (w : Demo) : Demo := mkDemo entries (d_clock w) (d_value w) (d_log w).
Definition fresh (v : N) : Demo := mkDemo ∅ 0 v [].

Definition log_publisher : Publisher (J := unit) (W := Demo) :=
  fun event _ w => Some (Ok tt, mkDemo (d_entries w) (d_clock w) (d_value w) (d_log w ++ [event_type event])).

(** A handler that reads, one that answers by who asks, and one that doubles. *)
Definition reads {C : code} (m : denote C) (ctx : option (ExecutionContext unit)) : Prelude.M Demo (Result N CqrsError) :=
  fun w => Some (Ok (d_value w), w).
Definition by_tenant {C : code} (m : denote C) (ctx : option (ExecutionContext unit)) : Prelude.M Demo (Result N CqrsError) :=
  ret (Ok match ctx with Some c => N.of_nat (List.length (default [] (tenant_id c))) | None => 0%N end).
Definition doubles {C : code} (m : denote C) (ctx : option (ExecutionContext unit)) : Prelude.M Demo (Result N CqrsError) :=
  ret (Ok (2 * m)%N).

(** The demonstration ends within an hour. *)
Definition demo_clock (w : Demo) : Z := Z.min (from_secs 3600) (d_clock w).
Abbreviation demo_cache := (query_cache_middleware (M := unit) demo_messages d_entries put_demo demo_clock demo_digest).

Definition tenant (name : str) : ExecutionContext unit :=
  mkExecContext unit None (Some name) None None None None None None 0 ∅ ∅.

Definition guarded_ops : list (BusOp (J := unit) (M := unit) (W := Demo)) :=
  [Use (validation_middleware demo_messages); Register 1%nat 2%nat reads; Use (authorization_middleware demo_messages true);
   Register 1%nat 3%nat doubles; Use (domain_event_middleware demo_messages (fun _ => []) log_publisher None Raise); Unregister 0%nat].

Lemma guarded_send_witness :
  send_with_context (C := 1%nat) 3%nat (21%N : denote 1%nat) (tenant (lit "a")) (bus_of demo_messages guarded_ops) (fresh 7)
  = Some (Ok 42%N, mkDemo ∅ 0 7 [lit "asked"]).
Proof.
  pose proof (guarded_send demo_messages (fun _ => []) guarded_ops log_publisher None Raise 1%nat 3%nat 21%N (tenant (lit "a")) (fresh 7) eq_refl) as G.
  exact G.
Defined.

Definition asks (n : N) : Envelope (J := unit) (M := unit) := envelope_new (C := 0%nat) n.
Definition always_doubles : DynHandler (J := unit) (M := unit) (W := Demo) :=
  fun env w => Some (Ok (existT 2%nat (2 * projT2 (message env))%N), mkDemo (d_entries w) (d_clock w + 1) (d_value w) (d_log w ++ [lit "ran"])).

Definition demo_script : list (Step (J := unit) (M := unit) (W := Demo)) :=
  [Ask (asks 3); Ask (asks 4); Ask (asks 3); Elsewhere (fun w => mkDemo (d_entries w) (d_clock w + 20) (d_value w) (d_log w)); Ask (asks 3);
   Invalidate (lit "shop::T0:"); Ask (asks 3)].

Lemma query_cache_transparent_witness : exists w',
  run_script demo_messages d_entries put_demo demo_clock demo_digest always_doubles demo_script (fresh 0)
  = Some ([Ok (existT 2%nat 6%N); Ok (existT 2%nat 8%N); Ok (existT 2%nat 6%N); Ok (existT 2%nat 6%N); Ok (existT 2%nat 6%N)], w').
Proof.
  apply (query_cache_transparent demo_messages d_entries put_demo demo_clock demo_digest (fun _ _ => eq_refl)) with
    (next := always_doubles) (f := fun m => Ok (existT 2%nat (2 * projT2 m)%N)).
  - intros env w. by eexists.
  - reflexivity.
  - intros env1 env2 key I1 I2 K1 K2. simpl in I1, I2. apply key_of_names in K1, K2. intuition subst; try reflexivity; vm_compute in K1, K2; congruence.
  - assert (forall n, in_time demo_messages demo_clock (asks n)) as I.
    { intros n ttl w [= <-]. unfold demo_clock, INSTANT_MAX, from_secs, NANOS_PER_SEC. lia. }
    repeat apply Forall_cons_2; try apply Forall_nil_2; try apply I; done.
Defined.

(** Five queries, four runs: one was answered by the cache. *)
Example one_hit : option_map (fun r => List.length (d_log (snd r)))
  (run_script demo_messages d_entries put_demo demo_clock demo_digest always_doubles demo_script (fresh 0)) = Some 4%nat.
Proof. vm_compute. reflexivity. Qed.

Definition send_two (bus : Bus (J := unit) (M := unit) (W := Demo)) (e1 e2 : Envelope) (w : Demo) : option (list (Result N CqrsError)) :=
  match dispatch_typed 2%nat bus e1 w with
  | Some (r1, w) => match dispatch_typed 2%nat bus e2 w with Some (r2, _) => Some [r1; r2] | None => None end
  | None => None
  end.

(** The key knows nothing of the context: a tenant is given what the handler
    answered to another. *)
Example answer_crosses_tenants :
  send_two (bus_of demo_messages [Register 0%nat 2%nat by_tenant; Use demo_cache])
    (with_context (tenant (lit "a")) (asks 3)) (with_context (tenant (lit "acme")) (asks 3)) (fresh 0) = Some [Ok 1%N; Ok 1%N].
Proof. vm_compute. reflexivity. Qed.

(** Installed in front of the authorization, the cache answers whom the
    authorization would refuse. *)
Example cached_answer_skips_authorization :
  let bus := bus_of demo_messages [Register 1%nat 2%nat reads; Use demo_cache; Use (authorization_middleware demo_messages true)] in
  let ask : Envelope := envelope_new (C := 1%nat) 3%N in
  send_two bus ask ask (fresh 7) = Some [Err (Authorization (auth_failure (lit "orders") (lit "who asks?")));
                                         Err (Authorization (auth_failure (lit "orders") (lit "who asks?")))] /\
  send_two bus (with_context (tenant (lit "a")) ask) ask (fresh 7) = Some [Ok 7%N; Ok 7%N].
Proof. split; vm_compute; reflexivity. Qed.

(** A key of one's own is not below the type's prefix, so invalidating the type
    leaves its result in place; and two queries with one key get each other's
    results, at the wrong type. *)
Example own_keys_escape :
  let keyed C : Envelope := with_cache_key (lit "orders") (envelope_new (C := C) 3%N) in
  option_map (fun r => map fst (map_to_list (d_entries (invalidate_type d_entries put_demo 0%nat (snd r)))))
    (dispatch_typed 2%nat (bus_of demo_messages [Register 0%nat 2%nat reads; Use demo_cache]) (keyed 0%nat) (fresh 7)) = Some [lit "orders"] /\
  send_two (bus_of demo_messages [Register 0%nat 3%nat reads; Register 1%nat 2%nat reads; Use demo_cache])
    (keyed 0%nat) (keyed 1%nat) (fresh 7)
  = Some [Err (ResultTypeMismatch (lit "shop::T2") (lit "shop::T3")); Err (ResultTypeMismatch (lit "shop::T2") (lit "shop::T3"))].
Proof. split; vm_compute; reflexivity. Qed.

(** Two messages that differ in what serde skips share a key, and an answer. *)
Example skipped_field_shares_answer :
  send_two (bus_of demo_messages [Register 9%nat 2%nat doubles; Use demo_cache])
    (envelope_new (C := 9%nat) 31%N) (envelope_new (C := 9%nat) 32%N) (fresh 0) = Some [Ok 62%N; Ok 62%N].
Proof. vm_compute. reflexivity. Qed.

(** A query that is under way when the value changes and its type is
    invalidated puts the old value back. *)
Definition overtaken {C : code} (m : denote C) (ctx : option (ExecutionContext unit)) : Prelude.M Demo (Result N CqrsError) :=
  fun w =>
    let answer := d_value w in
    Some (Ok answer, invalidate_type d_entries put_demo 0%nat (mkDemo (d_entries w) (d_clock w) 8 (d_log w))).
Example invalidated_while_asked :
  send_two (bus_of demo_messages [Register 0%nat 2%nat overtaken; Use demo_cache]) (asks 3) (asks 3) (fresh 7) = Some [Ok 7%N; Ok 7%N].
Proof. vm_compute. reflexivity. Qed.

(** A lifetime without end, as [Duration::MAX], panics once the handler ran. *)
Example endless_lifetime_panics :
  dispatch_typed 2%nat (bus_of demo_messages [Register 0%nat 2%nat reads; Use demo_cache]) (with_cache_ttl (Some DURATION_MAX) (asks 3)) (fresh 7) = None.
Proof. reflexivity. Qed.
