(* ===== verification/ContainerConditions.v ===== *)
(** Conditions on beans and injected values: [crates/container/src/condition.rs]
    and [value.rs].

    Profile expressions are evaluated here a second time, by a parser of its own
    that forgives malformed text; the theorem states what each of this and the
    evaluator of the configuration ([Profiles.v]) makes of an expression. *)
From Stdlib Require Import Ascii String.
From Stdlib Require Import ZArith NArith List Lia.
From stdpp Require Import base decidable list gmap.
From S2P Require Import Prelude Str Unicode.
From S2P Require Profiles.

(** * Contexts *)

Record ConditionContext : Type := mkContext {
  properties : gmap str str;
  profiles : list str;
  classes : list str
}.
Implicit Type ctx : ConditionContext.

Definition context_new : ConditionContext := mkContext ∅ [] [].
Definition nonempty (s : str) : bool := negb (bool_decide (s = [])).
Definition with_profiles (ps : list str) ctx : ConditionContext :=
  mkContext (properties ctx) (List.filter nonempty (map (fun p => to_ascii_lowercase (trim p)) ps)) (classes ctx).
Definition with_property (key value : str) ctx : ConditionContext :=
  mkContext (<[key := value]> (properties ctx)) (profiles ctx) (classes ctx).
Definition with_properties (ps : gmap str str) ctx : ConditionContext := mkContext ps (profiles ctx) (classes ctx).
Definition with_class (label : str) ctx : ConditionContext := mkContext (properties ctx) (profiles ctx) (classes ctx ++ [label]).

Definition property (key : str) ctx : option str := properties ctx !! key.
Definition has_class (label : str) ctx : bool := existsb (str_eqb label) (classes ctx).

(** [s.trim_end_matches('.')]. *)
Fixpoint drop_dots (s : str) : str :=
  match s with c :: s' => if (c =? 46)%N then drop_dots s' else s | [] => [] end.
Definition trim_end_dots (s : str) : str := rev (drop_dots (rev s)).

(** The keys under a prefix differ as their rests do, so the order in which the
    map is walked does not show. *)
Definition properties_with_prefix (prefix : str) ctx : gmap str str :=
  let prefix := trim_end_dots (trim prefix) in
  if bool_decide (prefix = []) then properties ctx
  else
    let full := prefix ++ lit "." in
    list_to_map (omap (fun kv => stripped ← strip_prefix full (fst kv); Some (stripped, snd kv)) (map_to_list (properties ctx))).

(** * Profile expressions *)

Inductive PTok : Type := Name (name : str) | And | Or | Not | LParen | RParen.
#[export] Instance PTok_eq_dec : EqDecision PTok.
Proof. solve_decision. Defined.

Definition flush (name : str) (tokens : list PTok) : list PTok :=
  let trimmed := trim name in
  if nonempty trimmed then tokens ++ [Name trimmed] else tokens.

(** [&&] is one [And]. *)
Definition push_once (t : PTok) (tokens : list PTok) : list PTok :=
  if bool_decide (last tokens = Some t) then tokens else tokens ++ [t].

Fixpoint tokenize_loop (s name : str) (tokens : list PTok) : list PTok :=
  match s with
  | [] => flush name tokens
  | ch :: s =>
      if (ch =? 38)%N then tokenize_loop s [] (push_once And (flush name tokens))
      else if (ch =? 124)%N || (ch =? 44)%N then tokenize_loop s [] (push_once Or (flush name tokens))
      else if (ch =? 33)%N then tokenize_loop s [] (flush name tokens ++ [Not])
      else if (ch =? 40)%N then tokenize_loop s [] (flush name tokens ++ [LParen])
      else if (ch =? 41)%N then tokenize_loop s [] (flush name tokens ++ [RParen])
      else if is_whitespace ch then tokenize_loop s [] (flush name tokens)
      else tokenize_loop s (name ++ [ch]) tokens
  end.
Definition tokenize_profile (expr : str) : list PTok := tokenize_loop expr [] [].

Section Evaluator.
Context (active : list str).

Definition eval_profile_atom (name : str) : bool := existsb (fun a => eq_ignore_ascii_case a name) active.

(** The parser cannot fail; [None] is a loop or a nesting cut short. *)
Section Level.
Context (parse_group : list PTok -> option (bool * list PTok)).

Definition parse_primary (ts : list PTok) : option (bool * list PTok) :=
  match ts with
  | LParen :: ts' =>
      '(value, rest) ← parse_group ts';
      Some (value, match rest with RParen :: rest' => rest' | _ => rest end)
  | Name name :: ts' => Some (eval_profile_atom name, ts')
  | _ => Some (false, ts)
  end.

Fixpoint parse_unary (ts : list PTok) : option (bool * list PTok) :=
  match ts with
  | Not :: ts' => '(v, rest) ← parse_unary ts'; Some (negb v, rest)
  | _ => parse_primary ts
  end.

Fixpoint and_loop (fuel : nat) (value : bool) (ts : list PTok) : option (bool * list PTok) :=
  match ts, fuel with
  | And :: ts', S n => '(rhs, rest) ← parse_unary ts'; and_loop n (value && rhs) rest
  | And :: _, O => None
  | _, _ => Some (value, ts)
  end.
Definition parse_and (ts : list PTok) : option (bool * list PTok) :=
  '(value, rest) ← parse_unary ts; and_loop (List.length rest) value rest.

Fixpoint or_loop (fuel : nat) (value : bool) (ts : list PTok) : option (bool * list PTok) :=
  match ts, fuel with
  | Or :: ts', S n => '(rhs, rest) ← parse_and ts'; or_loop n (value || rhs) rest
  | Or :: _, O => None
  | _, _ => Some (value, ts)
  end.
End Level.

(** [fuel] bounds the nesting of the groups. *)
Fixpoint parse_or (fuel : nat) (ts : list PTok) : option (bool * list PTok) :=
  match fuel with
  | O => None
  | S n => '(value, rest) ← parse_and (parse_or n) ts; or_loop (parse_or n) (List.length rest) value rest
  end.

Definition eval_tokens (tokens : list PTok) : option bool := fst <$> parse_or (S (List.length tokens)) tokens.

Definition eval_profile_expr (expr : str) : option bool :=
  let expr := trim expr in
  if negb (contains 38%N expr) && negb (contains 124%N expr) && negb (contains 40%N expr) && contains 44%N expr
  then Some (existsb eval_profile_atom (List.filter nonempty (map trim (split 44%N expr))))
  else eval_tokens (tokenize_profile expr).
End Evaluator.

(** What [eval_profile_expr] returns is there: [profiles_agree] says so of
    phrases and [eval_tokens_total] of every text. *)
Definition accepts_profiles (expr : str) ctx : bool :=
  let expr := trim expr in
  if bool_decide (expr = []) then true else default false (eval_profile_expr (profiles ctx) expr).

(** * Conditions *)

Inductive Condition : Type :=
| Profile (expr : str)
| OnProperty (key : str) (having_value : option str) (match_if_missing : bool)
| OnClass (label : str)
| OnBean (type_name : str)
| OnMissingBean (type_name : str)
| OnSingleCandidate (type_name : str).

Definition is_bean_dependent (c : Condition) : bool :=
  match c with OnBean _ | OnMissingBean _ | OnSingleCandidate _ => true | _ => false end.

Definition on_property (spec : str) : Condition :=
  match split_once 61%N spec with
  | Some (key, value) => OnProperty (trim key) (Some (trim value)) false
  | None => OnProperty (trim spec) None false
  end.

Definition eval_on_property (key : str) (having_value : option str) (match_if_missing : bool) ctx : bool :=
  match property key ctx with
  | None => match_if_missing
  | Some value =>
      match having_value with
      | Some expected => eq_ignore_ascii_case value expected
      | None => negb (eq_ignore_ascii_case (trim value) (lit "false"))
      end
  end.

Definition pass1 (conditions : list Condition) ctx : bool :=
  forallb (fun c =>
    match c with
    | Profile expr => accepts_profiles expr ctx
    | OnProperty key having_value match_if_missing => eval_on_property key having_value match_if_missing ctx
    | OnClass label => has_class label ctx
    | OnBean _ | OnMissingBean _ | OnSingleCandidate _ => true
    end) conditions.

(** * Theorems *)

(** ** The parser never runs out *)

(** [p] answers, and hands back no more than it got. *)
Definition answers (n : nat) (p : list PTok -> option (bool * list PTok)) : Prop :=
  forall ts, (List.length ts <= n)%nat -> exists v rest, p ts = Some (v, rest) /\ (List.length rest <= List.length ts)%nat.

Section Total.
Context (active : list str) (n : nat) (sub : list PTok -> option (bool * list PTok)).
Context (A : forall m, (m < n)%nat -> answers m sub).

Lemma primary_answers : answers n (parse_primary active sub).
Proof.
  intros [|[] ts] L; simpl in *; try (by do 2 eexists; split; [done|simpl; lia]).
  destruct (A (List.length ts) ltac:(lia) ts ltac:(lia)) as (v & rest & -> & B). simpl.
  do 2 eexists. split; [done|]. destruct rest as [|[] rest]; simpl in *; lia.
Qed.

Lemma unary_answers : answers n (parse_unary active sub).
Proof.
  intros ts. induction ts as [|t ts IH]; intros L; [by apply primary_answers|].
  destruct t; try by apply primary_answers.
  simpl. destruct (IH ltac:(simpl in L; lia)) as (v & rest & -> & B). simpl. do 2 eexists. split; [done|lia].
Qed.

Lemma and_loop_answers fuel v ts : (List.length ts <= n)%nat -> (List.length ts <= fuel)%nat ->
  exists v' rest, and_loop active sub fuel v ts = Some (v', rest) /\ (List.length rest <= List.length ts)%nat.
Proof.
  revert v ts. induction fuel as [|fuel IH]; intros v [|t ts] L F; simpl in F; try lia; try (by do 2 eexists).
  destruct t; try (by do 2 eexists). cbn [and_loop].
  destruct (unary_answers ts) as (r & rest & -> & B); [simpl in L; lia|]. cbn [mbind option_bind]. simpl in L.
  destruct (IH (v && r) rest) as (v' & rest' & -> & B'); [lia..|]. do 2 eexists. split; [done|simpl; lia].
Qed.

Lemma and_answers : answers n (parse_and active sub).
Proof.
  intros ts L. unfold parse_and. destruct (unary_answers ts L) as (v & rest & -> & B). simpl.
  destruct (and_loop_answers (List.length rest) v rest) as (v' & rest' & -> & B'); [lia..|].
  do 2 eexists. split; [done|lia].
Qed.

Lemma or_loop_answers fuel v ts : (List.length ts <= n)%nat -> (List.length ts <= fuel)%nat ->
  exists v' rest, or_loop active sub fuel v ts = Some (v', rest) /\ (List.length rest <= List.length ts)%nat.
Proof.
  revert v ts. induction fuel as [|fuel IH]; intros v [|t ts] L F; simpl in F; try lia; try (by do 2 eexists).
  destruct t; try (by do 2 eexists). cbn [or_loop].
  destruct (and_answers ts) as (r & rest & -> & B); [simpl in L; lia|]. cbn [mbind option_bind]. simpl in L.
  destruct (IH (v || r) rest) as (v' & rest' & -> & B'); [lia..|]. do 2 eexists. split; [done|simpl; lia].
Qed.
End Total.

Lemma or_answers active n : answers n (parse_or active (S n)).
Proof.
  induction n as [n IH] using lt_wf_ind. intros ts L. cbn [parse_or].
  assert (forall m, (m < n)%nat -> answers m (parse_or active n)) as A.
  { intros m B. destruct n as [|n]; [lia|]. intros ts' L'. apply (IH n); lia. }
  destruct (and_answers active n _ A ts L) as (v & rest & -> & B). cbn [mbind option_bind].
  destruct (or_loop_answers active n _ A (List.length rest) v rest) as (v' & rest' & -> & B'); [lia..|].
  do 2 eexists. split; [done|lia].
Qed.

Lemma eval_tokens_total active tokens : exists v, eval_tokens active tokens = Some v.
Proof.
  unfold eval_tokens. destruct (or_answers active (List.length tokens) tokens) as (v & rest & -> & _); [done|]. eauto.
Qed.

(** ** Phrases *)

Inductive phrase : Type :=
| PName (name : str)
| PNot (e : phrase)
| PAnd (e f : phrase)
| POr (e f : phrase)
| PGroup (e : phrase).

(** Parentheses where precedence needs them - a disjunction under [&] or [!], a
    conjunction under [!] - and where the phrase has a group of its own. *)
Definition parens (b : bool) (s : str) : str := if b then lit "(" ++ s ++ lit ")" else s.
Fixpoint print_at (level : nat) (e : phrase) : str :=
  match e with
  | PName name => name
  | PNot e => lit "!" ++ print_at 2 e
  | PAnd e f => parens (2 <=? level)%nat (print_at 1 e ++ lit " & " ++ print_at 1 f)
  | POr e f => parens (1 <=? level)%nat (print_at 0 e ++ lit " | " ++ print_at 0 f)
  | PGroup e => parens true (print_at 0 e)
  end.
Definition print (e : phrase) : str := print_at 0 e.

(** What a phrase means when its names mean [atom]. *)
Fixpoint meaning (atom : str -> bool) (e : phrase) : bool :=
  match e with
  | PName name => atom name
  | PNot e => negb (meaning atom e)
  | PAnd e f => meaning atom e && meaning atom f
  | POr e f => meaning atom e || meaning atom f
  | PGroup e => meaning atom e
  end.
Definition among (active : list str) (name : str) : bool := bool_decide (name ∈ active).
Definition lowered_among (active : list str) (name : str) : bool := bool_decide (to_ascii_lowercase name ∈ active).

(** Names of letters, digits, underscores, dots and hyphens. *)
Definition word_char (c : char) : bool := is_ascii_letter c || is_digit c || (c =? 95)%N || (c =? 46)%N || (c =? 45)%N.
Fixpoint names (e : phrase) : list str :=
  match e with
  | PName name => [name]
  | PNot e | PGroup e => names e
  | PAnd e f | POr e f => names e ++ names f
  end.
Definition word (name : str) : Prop := name <> [] /\ forallb word_char name = true.
Definition words (e : phrase) : Prop := Forall word (names e).

(** A name, a negated name, or a phrase with an operator or a group in it. *)
Fixpoint grouped (e : phrase) : bool :=
  match e with PName _ => false | PNot e => grouped e | _ => true end.
Definition regular (e : phrase) : bool :=
  match e with PName _ | PNot (PName _) => true | _ => grouped e end.

Lemma words_app e f : words (PAnd e f) <-> words e /\ words f.
Proof. apply (Forall_app word (names e) (names f)). Qed.
Lemma words_or e f : words (POr e f) <-> words e /\ words f.
Proof. apply words_app. Qed.

Lemma words_name name : words (PName name) -> word name.
Proof. apply (proj1 (Forall_singleton word name)). Qed.

Definition delimiter (c : char) : bool :=
  (c =? 38)%N || (c =? 124)%N || (c =? 44)%N || (c =? 33)%N || (c =? 40)%N || (c =? 41)%N || is_whitespace c.

Lemma word_char_range c : word_char c = true -> (97 <= c <= 122 \/ 65 <= c <= 90 \/ 48 <= c <= 57 \/ c = 95 \/ c = 46 \/ c = 45)%N.
Proof. unfold word_char, is_ascii_letter, is_digit. rewrite !orb_true_iff, !andb_true_iff, !N.leb_le, !N.eqb_eq. lia. Qed.

Lemma word_char_whitespace c : word_char c = true -> is_whitespace c = false.
Proof.
  intros H%word_char_range. apply not_true_iff_false. unfold is_whitespace.
  rewrite !orb_true_iff, !andb_true_iff, !N.leb_le, !N.eqb_eq. lia.
Qed.

Lemma word_char_delimiter c : word_char c = true -> delimiter c = false.
Proof.
  intros H. unfold delimiter. rewrite (word_char_whitespace c H). apply word_char_range in H.
  apply not_true_iff_false. rewrite !orb_true_iff, !N.eqb_eq. lia.
Qed.

Lemma word_no_whitespace name : forallb word_char name = true -> Forall (fun c => is_whitespace c = false) name.
Proof. rewrite forallb_forall, Forall_forall. intros H c I. apply word_char_whitespace, H. by apply list_elem_of_In. Qed.

Lemma trim_word name : Forall (fun c => is_whitespace c = false) name -> trim name = name.
Proof.
  intros F. apply trim_id; intros c E%head_in; rewrite Forall_forall in F; apply F, list_elem_of_In; [done|].
  by apply in_rev.
Qed.

(** A text that starts and ends with a character that is not white space. *)
Definition solid (s : str) : Prop :=
  (exists c s', s = c :: s' /\ is_whitespace c = false) /\ (exists s' c, s = s' ++ [c] /\ is_whitespace c = false).

Lemma solid_between a b c : solid a -> solid c -> solid (a ++ b ++ c).
Proof.
  intros [(x & a' & -> & X) _] [_ (c' & y & -> & Y)]. split.
  - exists x, (a' ++ b ++ c' ++ [y]). by split.
  - exists ((x :: a') ++ b ++ c'), y. split; [by rewrite <- !app_assoc|done].
Qed.

Lemma solid_parens b s : solid s -> solid (parens b s).
Proof. destruct b; [|done]. intros _. apply (solid_between (lit "(") s (lit ")")); split; (by eexists _, []) || (by exists []; eexists). Qed.

Lemma print_solid level e : words e -> solid (print_at level e).
Proof.
  revert level. induction e as [name|e IH|e IHe f IHf|e IHe f IHf|e IH]; intros level; cbn [print_at].
  - intros [N W%word_no_whitespace]%words_name. split.
    + destruct name as [|c s]; [done|]. inversion W; eauto.
    + destruct (exists_last N) as (s & c & ->). apply Forall_app in W as [_ W]. inversion W; eauto.
  - intros W. apply (solid_between (lit "!") []); [|by apply IH]. split; [by eexists _, []|by exists []; eexists].
  - intros [We Wf]%words_app. apply solid_parens, solid_between; auto.
  - intros [We Wf]%words_or. apply solid_parens, solid_between; auto.
  - intros W. by apply (solid_parens true), IH.
Qed.

Lemma trim_solid s : solid s -> trim s = s.
Proof.
  intros [(c & s1 & E & W) (s2 & c' & E' & W')].
  apply trim_id; [rewrite E; by intros ? [= <-]|].
  rewrite E', rev_app_distr. by intros ? [= <-].
Qed.

Lemma trim_print e : words e -> trim (print e) = print e.
Proof. intros W. by apply trim_solid, print_solid. Qed.

Lemma print_nonempty e : words e -> print e <> [].
Proof. intros W. unfold print. by destruct (print_solid 0 e W) as [(c & s & -> & _) _]. Qed.

(** ** The container's reading of a phrase *)

Definition paren_toks (b : bool) (ts : list PTok) : list PTok := if b then LParen :: ts ++ [RParen] else ts.
Fixpoint ptoks (level : nat) (e : phrase) : list PTok :=
  match e with
  | PName name => [Name name]
  | PNot e => Not :: ptoks 2 e
  | PAnd e f => paren_toks (2 <=? level)%nat (ptoks 1 e ++ And :: ptoks 1 f)
  | POr e f => paren_toks (1 <=? level)%nat (ptoks 0 e ++ Or :: ptoks 0 f)
  | PGroup e => paren_toks true (ptoks 0 e)
  end.

Lemma ptoks_end level e : exists l t, ptoks level e = l ++ [t] /\ t <> And /\ t <> Or.
Proof.
  assert (forall b ts, (exists l t, ts = l ++ [t] /\ t <> And /\ t <> Or) -> exists l t, paren_toks b ts = l ++ [t] /\ t <> And /\ t <> Or) as P.
  { intros [] ts E; [|done]. by exists (LParen :: ts), RParen. }
  revert level. induction e as [name|e IH|e IHe f IHf|e IHe f IHf|e IH]; intros level; cbn [ptoks].
  - by exists [], (Name name).
  - destruct (IH 2%nat) as (l & t & -> & N). by exists (Not :: l), t.
  - apply P. destruct (IHf 1%nat) as (l & t & -> & N). exists (ptoks 1 e ++ And :: l), t. by rewrite <- app_assoc.
  - apply P. destruct (IHf 0%nat) as (l & t & -> & N). exists (ptoks 0 e ++ Or :: l), t. by rewrite <- app_assoc.
  - by exists (LParen :: ptoks 0 e), RParen.
Qed.

Lemma push_once_phrase level e toks t : t = And \/ t = Or -> push_once t (toks ++ ptoks level e) = (toks ++ ptoks level e) ++ [t].
Proof.
  intros T. unfold push_once. destruct (ptoks_end level e) as (l & t' & -> & N & N').
  rewrite app_assoc, last_snoc, bool_decide_eq_false_2; [done|]. intros [= ->]. by destruct T.
Qed.

Lemma loop_word w rest name toks : forallb word_char w = true ->
  tokenize_loop (w ++ rest) name toks = tokenize_loop rest (name ++ w) toks.
Proof.
  revert name. induction w as [|c w IH]; intros name H; simpl in H; [by rewrite app_nil_r|].
  apply andb_true_iff in H as [C H]. pose proof (word_char_delimiter c C) as D. unfold delimiter in D.
  repeat (apply orb_false_iff in D as [D ?]).
  cbn [tokenize_loop app]. repeat match goal with E : _ = false |- _ => rewrite E; clear E end. simpl.
  rewrite IH by done. by rewrite <- app_assoc.
Qed.

(** At a delimiter, what has been read of a name is flushed. *)
Lemma loop_flush name toks rest : name <> [] -> forallb word_char name = true ->
  match rest with c :: _ => delimiter c = true | [] => True end ->
  tokenize_loop rest name toks = tokenize_loop rest [] (toks ++ [Name name]).
Proof.
  intros N W D. assert (flush name toks = flush [] (toks ++ [Name name])) as F.
  { unfold flush, nonempty. rewrite trim_word by by apply word_no_whitespace. by rewrite bool_decide_eq_false_2. }
  destruct rest as [|c rest]; [done|]. cbn [tokenize_loop]. rewrite F.
  destruct (c =? 38)%N eqn:E1; [done|]. destruct (c =? 124)%N eqn:E2; [done|]. destruct (c =? 44)%N eqn:E3; [done|].
  destruct (c =? 33)%N eqn:E4; [done|]. destruct (c =? 40)%N eqn:E5; [done|]. destruct (c =? 41)%N eqn:E6; [done|].
  destruct (is_whitespace c) eqn:E7; [done|]. unfold delimiter in D. by rewrite E1, E2, E3, E4, E5, E6, E7 in D.
Qed.

(** A text is read as tokens, before a delimiter. *)
Definition scans (s : str) (ts : list PTok) : Prop := forall rest toks,
  match rest with c :: _ => delimiter c = true | [] => True end ->
  tokenize_loop (s ++ rest) [] toks = tokenize_loop rest [] (toks ++ ts).

Lemma scans_parens b s ts : scans s ts -> scans (parens b s) (paren_toks b ts).
Proof.
  intros Sc. destruct b; [|done]. intros rest toks D. unfold parens. rewrite <- !app_assoc.
  change (tokenize_loop (s ++ lit ")" ++ rest) [] (toks ++ [LParen]) = tokenize_loop rest [] (toks ++ LParen :: ts ++ [RParen])).
  rewrite Sc by done.
  change (tokenize_loop rest [] (((toks ++ [LParen]) ++ ts) ++ [RParen]) = tokenize_loop rest [] (toks ++ LParen :: ts ++ [RParen])).
  by rewrite <- !app_assoc.
Qed.

Lemma loop_phrase level e : words e -> scans (print_at level e) (ptoks level e).
Proof.
  revert level. induction e as [name|e IH|e IHe f IHf|e IHe f IHf|e IH]; intros level H; cbn [print_at ptoks].
  - intros rest toks D. apply words_name in H as [N W]. rewrite loop_word by done. by apply loop_flush.
  - intros rest toks D.
    change (tokenize_loop (print_at 2 e ++ rest) [] (toks ++ [Not]) = tokenize_loop rest [] (toks ++ Not :: ptoks 2 e)).
    rewrite IH by done. by rewrite <- app_assoc.
  - apply words_app in H as [He Hf]. apply scans_parens. intros rest toks D. rewrite <- !app_assoc, IHe by done.
    change (tokenize_loop (print_at 1 f ++ rest) [] (push_once And (toks ++ ptoks 1 e)) = tokenize_loop rest [] (toks ++ ptoks 1 e ++ And :: ptoks 1 f)).
    rewrite push_once_phrase, IHf by auto. by rewrite <- !app_assoc.
  - apply words_or in H as [He Hf]. apply scans_parens. intros rest toks D. rewrite <- !app_assoc, IHe by done.
    change (tokenize_loop (print_at 0 f ++ rest) [] (push_once Or (toks ++ ptoks 0 e)) = tokenize_loop rest [] (toks ++ ptoks 0 e ++ Or :: ptoks 0 f)).
    rewrite push_once_phrase, IHf by auto. by rewrite <- !app_assoc.
  - by apply scans_parens, IH.
Qed.

(** ** The container's parser forgives more than the configuration's *)

(** The configuration's tokens, a name being what [atom] says. *)
Definition strict_token (atom : str -> bool) (t : PTok) : Profiles.ProfileToken :=
  match t with
  | Name name => Profiles.Value (atom name)
  | And => Profiles.TAnd | Or => Profiles.TOr | Not => Profiles.TNot
  | LParen => Profiles.TLParen | RParen => Profiles.TRParen
  end.

Section Forgiving.
Context (active : list str).
Abbreviation conv := (map (strict_token (eval_profile_atom active))).

(** What the strict parser [p] reads, [q] reads. *)
Definition follows (p : list Profiles.ProfileToken -> option (bool * list Profiles.ProfileToken))
    (q : list PTok -> option (bool * list PTok)) : Prop :=
  forall ts v rest, p (conv ts) = Some (v, rest) -> exists rest', q ts = Some (v, rest') /\ conv rest' = rest.

Section Levels.
Context sub psub (S : follows psub sub).

Lemma primary_follows : follows (Profiles.parse_primary psub) (parse_primary active sub).
Proof.
  intros ts v rest. destruct ts as [|[] ts]; simpl; try done; [by intros [= <- <-]; eauto|].
  destruct (psub (conv ts)) as [[v' r]|] eqn:E; [|done]. apply S in E as (r' & -> & <-). simpl.
  destruct r' as [|[] r']; simpl; try done. intros [= <- <-]. eauto.
Qed.

Lemma unary_follows : follows (Profiles.parse_unary psub) (parse_unary active sub).
Proof.
  intros ts. induction ts as [|t ts IH]; intros v rest; [done|].
  destruct t; try exact (primary_follows (_ :: ts) v rest). simpl.
  destruct (Profiles.parse_unary psub (conv ts)) as [[v' r]|] eqn:E; [|done].
  destruct (IH _ _ eq_refl) as (r' & -> & <-). intros [= <- <-]. simpl. eauto.
Qed.

Lemma and_loop_follows fuel value : follows (Profiles.and_loop psub fuel value) (and_loop active sub fuel value).
Proof.
  revert value. induction fuel as [|n IH]; intros value [|[] ts] v rest; simpl; try done; try (intros [= <- <-]; by eauto).
  destruct (Profiles.parse_unary psub (conv ts)) as [[b r]|] eqn:E; [|done].
  apply unary_follows in E as (r' & -> & <-). simpl. apply IH.
Qed.

Lemma and_follows : follows (Profiles.parse_and psub) (parse_and active sub).
Proof.
  intros ts v rest. unfold Profiles.parse_and, parse_and.
  destruct (Profiles.parse_unary psub (conv ts)) as [[b r]|] eqn:E; [|done].
  apply unary_follows in E as (r' & -> & <-). simpl. rewrite length_map. apply and_loop_follows.
Qed.

Lemma or_loop_follows fuel value : follows (Profiles.or_loop psub fuel value) (or_loop active sub fuel value).
Proof.
  revert value. induction fuel as [|n IH]; intros value [|[] ts] v rest; simpl; try done; try (intros [= <- <-]; by eauto).
  destruct (Profiles.parse_and psub (conv ts)) as [[b r]|] eqn:E; [|done].
  apply and_follows in E as (r' & -> & <-). simpl. apply IH.
Qed.
End Levels.

Lemma or_follows fuel : follows (Profiles.parse_or fuel) (parse_or active fuel).
Proof.
  induction fuel as [|n IH]; [done|]. intros ts v rest. simpl.
  destruct (Profiles.parse_and (Profiles.parse_or n) (conv ts)) as [[b r]|] eqn:E; [|done].
  apply (and_follows _ _ IH) in E as (r' & -> & <-). simpl. rewrite length_map. by apply or_loop_follows.
Qed.

(** A phrase of the configuration's grammar has its value here too. *)
Lemma derives_evaluated ts v : Profiles.derives Profiles.OrRule (conv ts) v -> eval_tokens active ts = Some v.
Proof.
  intros D%Profiles.parse_or_phrase. rewrite length_map in D. apply or_follows in D as (r & E & _).
  unfold eval_tokens. by rewrite E.
Qed.
End Forgiving.

(** ** A printed phrase is one of the grammar *)

#[local] Hint Constructors Profiles.derives : grammar.

Lemma derives_more r l a : Profiles.derives r l a -> forall r' b,
  (r = Profiles.OrRule -> Profiles.derives Profiles.OrRule r' b -> Profiles.derives Profiles.OrRule (l ++ Profiles.TOr :: r') (a || b)) /\
  (r = Profiles.AndRule -> Profiles.derives Profiles.AndRule r' b -> Profiles.derives Profiles.AndRule (l ++ Profiles.TAnd :: r') (a && b)).
Proof.
  induction 1 as [l a D IH|l a r c D IH D' IH'|l a D IH|l a r c D IH D' IH'|l a D IH|l a D IH|l a D IH|a];
    intros r' b; (split; [intros E Db|intros E Db]); try done.
  - by apply Profiles.or_more.
  - rewrite <- app_assoc, <- app_comm_cons, <- orb_assoc. apply Profiles.or_more; [done|]. by apply IH'.
  - by apply Profiles.and_more.
  - rewrite <- app_assoc, <- app_comm_cons, <- andb_assoc. apply Profiles.and_more; [done|]. by apply IH'.
Qed.

Definition rule_at (level : nat) : Profiles.Rule :=
  match level with O => Profiles.OrRule | S O => Profiles.AndRule | _ => Profiles.UnaryRule end.

Lemma rule_lift level l a : Profiles.derives Profiles.UnaryRule l a -> Profiles.derives (rule_at level) l a.
Proof. intros D. destruct level as [|[|level]]; simpl; auto with grammar. Qed.

Section Derived.
Context (atom : str -> bool).
Abbreviation conv := (map (strict_token atom)).

Lemma derives_group level ts v : Profiles.derives Profiles.OrRule (conv ts) v ->
  Profiles.derives (rule_at level) (conv (paren_toks true ts)) v.
Proof.
  intros D. apply rule_lift, Profiles.unary_primary. simpl. rewrite map_app. by apply Profiles.primary_group.
Qed.

Lemma phrase_derives level e : Profiles.derives (rule_at level) (conv (ptoks level e)) (meaning atom e).
Proof.
  revert level. induction e as [name|e IH|e IHe f IHf|e IHe f IHf|e IH]; intros level; cbn [ptoks meaning].
  - apply rule_lift. simpl. auto with grammar.
  - apply rule_lift. apply Profiles.unary_not, (IH 2%nat).
  - assert (Profiles.derives Profiles.AndRule (conv (ptoks 1 e ++ And :: ptoks 1 f)) (meaning atom e && meaning atom f)) as D.
    { rewrite map_app. apply (derives_more _ _ _ (IHe 1%nat)); [done|apply (IHf 1%nat)]. }
    destruct level as [|[|level]]; [by apply Profiles.or_one|done|]. by apply (derives_group (S (S level))), Profiles.or_one.
  - assert (Profiles.derives Profiles.OrRule (conv (ptoks 0 e ++ Or :: ptoks 0 f)) (meaning atom e || meaning atom f)) as D.
    { rewrite map_app. apply (derives_more _ _ _ (IHe 0%nat)); [done|apply (IHf 0%nat)]. }
    destruct level as [|level]; [done|]. by apply (derives_group (S level)).
  - by apply derives_group, (IH 0%nat).
Qed.
End Derived.

(** ** The configuration's reading of a phrase *)

Section Configuration.
Context `{CharLaws} (active : list str).
Abbreviation conv := (map (strict_token (among active))).

Lemma word_ident c : word_char c = true -> Profiles.ident_char c = true.
Proof.
  intros W. unfold Profiles.ident_char. pose proof (word_char_range c W) as R. rewrite ascii_alphanumeric by lia. exact W.
Qed.

Definition ends_word (rest : str) : Prop := match rest with c :: _ => Profiles.ident_char c = false | [] => True end.

Lemma punctuation_ends c : (c < 128)%N -> word_char c = false -> Profiles.ident_char c = false.
Proof. intros L E. unfold Profiles.ident_char. by rewrite ascii_alphanumeric. Qed.

(** A text is read as tokens: a turn per token and space, fewer than it has
    characters. *)
Definition reads (text : str) (ts : list Profiles.ProfileToken) : Prop :=
  forall rest fuel toks, ends_word rest -> (List.length (text ++ rest) <= fuel)%nat ->
  exists fuel', (List.length rest <= fuel')%nat /\
  Profiles.tokenize_loop active fuel (text ++ rest) toks = Profiles.tokenize_loop active fuel' rest (toks ++ ts).

Lemma reads_operator (c : char) t : (c = 38%N /\ t = Profiles.TAnd) \/ (c = 124%N /\ t = Profiles.TOr) \/ (c = 40%N /\ t = Profiles.TLParen) \/
    (c = 41%N /\ t = Profiles.TRParen) \/ (c = 33%N /\ t = Profiles.TNot) -> forall rest fuel toks,
  Profiles.tokenize_loop active (S fuel) (c :: rest) toks = Profiles.tokenize_loop active fuel rest (toks ++ [t]).
Proof. by intros [[-> ->]|[[-> ->]|[[-> ->]|[[-> ->]|[-> ->]]]]]. Qed.

Lemma reads_binary (c : char) t a b ta tb : (c = 38%N /\ t = Profiles.TAnd) \/ (c = 124%N /\ t = Profiles.TOr) ->
  reads a ta -> reads b tb -> reads (a ++ [32%N; c; 32%N] ++ b) (ta ++ t :: tb).
Proof.
  intros Op Ra Rb rest fuel toks D L. rewrite <- !app_assoc in *.
  destruct (Ra ([32%N; c; 32%N] ++ b ++ rest) fuel toks) as (f1 & B1 & E1); [by apply punctuation_ends|done|].
  do 3 (destruct f1 as [|f1]; [simpl in B1; lia|]).
  destruct (Rb rest f1 ((toks ++ ta) ++ [t])) as (f2 & B2 & E2); [done|simpl in B1; lia|].
  exists f2. split; [done|]. eapply eq_trans; [exact E1|].
  change (Profiles.tokenize_loop active (S (S (S f1))) ([32%N; c; 32%N] ++ b ++ rest) (toks ++ ta))
    with (Profiles.tokenize_loop active (S (S f1)) (c :: 32%N :: b ++ rest) (toks ++ ta)).
  rewrite (reads_operator c t) by tauto.
  change (Profiles.tokenize_loop active (S f1) (32%N :: b ++ rest) ((toks ++ ta) ++ [t]))
    with (Profiles.tokenize_loop active f1 (b ++ rest) ((toks ++ ta) ++ [t])).
  rewrite E2. by rewrite <- !app_assoc.
Qed.

Lemma reads_parens b s ts : reads s (conv ts) -> reads (parens b s) (conv (paren_toks b ts)).
Proof.
  intros R. destruct b; [|done]. intros rest fuel toks D L. unfold parens in *. rewrite <- !app_assoc in *.
  destruct fuel as [|fuel]; [simpl in L; lia|].
  destruct (R (lit ")" ++ rest) fuel (toks ++ [Profiles.TLParen])) as (f1 & B1 & E1); [by apply punctuation_ends|apply le_S_n; exact L|].
  destruct f1 as [|f1]; [simpl in B1; lia|]. exists f1. split; [simpl in B1; lia|].
  change (lit "(" ++ s ++ lit ")" ++ rest) with (40%N :: s ++ lit ")" ++ rest). rewrite (reads_operator 40%N Profiles.TLParen) by tauto.
  eapply eq_trans; [exact E1|]. change (lit ")" ++ rest) with (41%N :: rest). rewrite (reads_operator 41%N Profiles.TRParen) by tauto.
  simpl. rewrite map_app. by rewrite <- !app_assoc.
Qed.

Lemma config_phrase level e : words e -> reads (print_at level e) (conv (ptoks level e)).
Proof.
  revert level. induction e as [name|e IH|e IHe f IHf|e IHe f IHf|e IH]; intros level Wd; cbn [print_at ptoks].
  - apply words_name in Wd as [N W]. intros rest fuel toks D L.
    destruct name as [|c name]; [done|]. destruct fuel as [|fuel]; [simpl in L; lia|].
    exists fuel. split; [simpl in L; rewrite length_app in L; lia|].
    cbn [app Profiles.tokenize_loop]. simpl in W. apply andb_true_iff in W as [C W].
    rewrite (word_char_whitespace c C). pose proof (word_char_range c C) as R.
    rewrite (proj2 (N.eqb_neq c 38)), (proj2 (N.eqb_neq c 124)), (proj2 (N.eqb_neq c 33)), (proj2 (N.eqb_neq c 40)),
      (proj2 (N.eqb_neq c 41)) by lia.
    rewrite (word_ident c C). rewrite app_comm_cons, span_app; [done| |].
    + apply forallb_forall. intros x [<-|I]; apply word_ident; [done|]. by eapply forallb_forall in W.
    + intros x. destruct rest as [|y rest]; [done|]. by intros [= <-].
  - intros rest fuel toks D L. destruct fuel as [|fuel]; [simpl in L; lia|].
    destruct (IH 2%nat Wd rest fuel (toks ++ [Profiles.TNot]) D) as (fuel' & B & E); [simpl in L; lia|].
    exists fuel'. split; [done|]. rewrite <- app_assoc in E. exact E.
  - apply words_app in Wd as [We Wf]. apply reads_parens. rewrite map_app. apply (reads_binary 38%N Profiles.TAnd); auto.
  - apply words_or in Wd as [We Wf]. apply reads_parens. rewrite map_app. apply (reads_binary 124%N Profiles.TOr); auto.
  - by apply reads_parens, IH.
Qed.

Lemma config_group e : words e -> Profiles.eval_boolean_profile active (print e) = meaning (among active) e.
Proof.
  intros W. destruct (config_phrase 0 e W [] (List.length (print e)) [] I) as (fuel & _ & E); [by rewrite app_nil_r|].
  rewrite app_nil_r in E. unfold print, Profiles.eval_boolean_profile, Profiles.tokenize_profile in *. rewrite E.
  cbn [app]. set (ts := conv (ptoks 0 e)). replace (Profiles.tokenize_loop active fuel [] ts) with (Some ts) by by destruct fuel.
  pose proof (phrase_derives (among active) 0 e) as P%Profiles.parse_or_phrase. fold ts in P. by rewrite P.
Qed.
End Configuration.

(** ** Both evaluators on a phrase *)

Lemma parens_in b s (c : char) : In c (parens b s) -> In c s \/ (c = 40 \/ c = 41)%N.
Proof. destruct b; [|tauto]. unfold parens. rewrite !in_app_iff. simpl. intuition. Qed.

Lemma print_delimiters level c e : words e -> In c (print_at level e) -> delimiter c = true ->
  (c = 33 \/ c = 40 \/ c = 41 \/ c = 32 \/ c = 38 \/ c = 124)%N.
Proof.
  intros W I D. revert level W I. induction e as [name|e IH|e IHe f IHf|e IHe f IHf|e IH]; intros level W I; cbn [print_at] in I.
  - apply words_name in W as [_ W]. eapply forallb_forall in W; [|exact I]. by rewrite (word_char_delimiter c W) in D.
  - apply in_app_iff in I as [[<-|[]]|I]; eauto.
  - apply words_app in W as [We Wf]. apply parens_in in I as [I|I]; [|tauto]. rewrite !in_app_iff in I. simpl in I. naive_solver.
  - apply words_or in W as [We Wf]. apply parens_in in I as [I|I]; [|tauto]. rewrite !in_app_iff in I. simpl in I. naive_solver.
  - apply parens_in in I as [I|I]; [eauto|tauto].
Qed.

Lemma in_parens b s (c : char) : In c s -> In c (parens b s).
Proof. destruct b; [|done]. unfold parens. rewrite !in_app_iff. tauto. Qed.

Lemma grouped_contains e : grouped e = true -> contains 38%N (print e) || contains 124%N (print e) || contains 40%N (print e) = true.
Proof.
  unfold print. rewrite !orb_true_iff, !contains_spec. generalize 0%nat.
  induction e as [name|e IH|e IHe f IHf|e IHe f IHf|e IH]; intros level G; cbn [print_at]; [done| | | |].
  - specialize (IH 2%nat G). simpl. tauto.
  - left. left. apply in_parens. rewrite !in_app_iff. simpl. tauto.
  - left. right. apply in_parens. rewrite !in_app_iff. simpl. tauto.
  - right. by left.
Qed.

Lemma word_lacks c name : forallb word_char name = true -> delimiter c = true -> contains c name = false.
Proof.
  intros W D. apply contains_false. intros I. eapply forallb_forall in W; [|exact I].
  by rewrite (word_char_delimiter c W) in D.
Qed.

Lemma not_word name : forallb word_char name = true -> strip_prefix (lit "!") name = None.
Proof.
  destruct name as [|c name]; [done|]. intros [C _]%andb_true_iff. apply word_char_range in C.
  cbn. rewrite (proj2 (N.eqb_neq _ _)); [done|lia].
Qed.

Lemma config_regular `{CharLaws} active e : words e -> regular e = true ->
  Profiles.matches_profile_expression active (print e) = meaning (among active) e.
Proof.
  intros W R. unfold Profiles.matches_profile_expression. rewrite (trim_print e W).
  destruct (grouped e) eqn:G; [rewrite (grouped_contains e G); by apply config_group|].
  assert (forall name, word name -> Profiles.matches_single active name = among active name) as Single.
  { intros name [_ Wn]. unfold Profiles.matches_single. rewrite trim_word by by apply word_no_whitespace.
    by rewrite not_word. }
  destruct e as [name|[name|e|e f|e f|e]|e f|e f|e]; try (simpl in R, G; congruence); unfold print; cbn [print_at meaning];
    apply words_name in W as [N W].
  - rewrite !word_lacks by done. simpl. apply Single. done.
  - change (contains ?c (lit "!" ++ name)) with ((c =? 33)%N || contains c name).
    rewrite !word_lacks by done. simpl orb. cbv match.
    change (lit "!" ++ name) with (print (PNot (PName name))). unfold Profiles.matches_single.
    rewrite (trim_print (PNot (PName name))) by by apply (proj2 (Forall_singleton word name)). unfold print. cbn [print_at]. rewrite strip_prefix_app.
    by rewrite trim_word by by apply word_no_whitespace.
Qed.

Definition lower (s : str) : Prop := to_ascii_lowercase s = s.

Lemma lower_idempotent s : lower (to_ascii_lowercase s).
Proof.
  unfold lower, to_ascii_lowercase. rewrite map_map. apply map_ext. intros c.
  destruct (N.leb_spec 65 c), (N.leb_spec c 90); simpl;
    repeat match goal with |- context [(?a <=? ?b)%N] => destruct (N.leb_spec a b) end; simpl; lia || done.
Qed.

Lemma profiles_lower ps ctx : Forall lower (profiles (with_profiles ps ctx)).
Proof.
  simpl. apply Forall_forall. intros p I%list_elem_of_In%filter_In. destruct I as [I _].
  apply in_map_iff in I as (q & <- & _). apply lower_idempotent.
Qed.

Lemma atom_meaning active name : Forall lower active -> eval_profile_atom active name = lowered_among active name.
Proof.
  intros F. unfold eval_profile_atom, lowered_among, eq_ignore_ascii_case, str_eqb.
  apply eq_true_iff_eq. rewrite existsb_exists, bool_decide_eq_true. rewrite Forall_forall in F. split.
  - intros (a & I & E%bool_decide_eq_true). apply list_elem_of_In in I. unfold lower in F. rewrite (F a I) in E. by subst.
  - intros I. exists (to_ascii_lowercase name). rewrite <- list_elem_of_In. split; [done|]. apply bool_decide_eq_true. by apply F.
Qed.

Lemma meaning_ext atom atom' e : (forall name, In name (names e) -> atom name = atom' name) -> meaning atom e = meaning atom' e.
Proof.
  induction e as [name|e IH|e IHe f IHf|e IHe f IHf|e IH]; simpl; intros E; [auto| | | |auto].
  - by rewrite IH.
  - rewrite IHe, IHf; [done|..]; intros; apply E, in_app_iff; auto.
  - rewrite IHe, IHf; [done|..]; intros; apply E, in_app_iff; auto.
Qed.

(** C30 What the two evaluators of profile expressions make of one expression.
    Take a phrase of names (letters, digits, underscores, dots, hyphens),
    negations, conjunctions and disjunctions, printed with the parentheses that
    precedence needs, [!] before [&] before [|], and any others; let it be a name,
    a negated name, or have an operator or a group in it. The container accepts it
    exactly when it is true with the names lower-cased, the configuration exactly
    when it is true with the names as written, of the active profiles, which
    [with_profiles] keeps in lower case. So they agree when the names of the phrase
    are in lower case; on names with capitals they need not. *)
Theorem profiles_agree `{CharLaws} ps ctx0 e :
  words e -> regular e = true ->
  let ctx := with_profiles ps ctx0 in
  accepts_profiles (print e) ctx = meaning (lowered_among (profiles ctx)) e /\
  Profiles.matches_profile_expression (profiles ctx) (print e) = meaning (among (profiles ctx)) e /\
  (Forall lower (names e) -> accepts_profiles (print e) ctx = Profiles.matches_profile_expression (profiles ctx) (print e)).
Proof.
  intros W R ctx. assert (accepts_profiles (print e) ctx = meaning (lowered_among (profiles ctx)) e) as E.
  { unfold accepts_profiles, eval_profile_expr. rewrite !(trim_print e W).
    rewrite bool_decide_eq_false_2 by by apply print_nonempty.
    destruct (contains 44%N (print e)) eqn:C.
    { apply contains_spec, print_delimiters in C; [lia|done..]. }
    rewrite !andb_false_r. unfold tokenize_profile, print.
    pose proof (loop_phrase 0 e W [] [] I) as T. rewrite app_nil_r in T. rewrite T. cbn [tokenize_loop flush trim app].
    change (flush [] (ptoks 0 e)) with (ptoks 0 e).
    rewrite (derives_evaluated (profiles ctx) _ _ (phrase_derives _ 0 e)). simpl.
    apply meaning_ext. intros name _. apply atom_meaning, (profiles_lower ps ctx0). }
  split; [done|]. rewrite config_regular by done. split; [done|]. intros L. rewrite E. apply meaning_ext.
  intros name I%list_elem_of_In. unfold lowered_among. rewrite Forall_forall in L. by rewrite (L name I).
Qed.

#[local] Existing Instances ascii_classes ascii_laws.

Definition cloudy : phrase := POr (PNot (POr (PName (lit "prod")) (PName (lit "test")))) (PAnd (PName (lit "prod")) (PName (lit "cloud"))).

Example cloudy_printed : print cloudy = lit "!(prod | test) | prod & cloud".
Proof. reflexivity. Qed.

Lemma profiles_agree_witness :
  accepts_profiles (print cloudy) (with_profiles [lit " Prod"; lit "cloud"] context_new) = true /\
  Profiles.matches_profile_expression [lit "prod"; lit "cloud"] (print cloudy) = true.
Proof.
  destruct (profiles_agree [lit " Prod"; lit "cloud"] context_new cloudy) as (C & P & _).
  - repeat constructor; discriminate.
  - reflexivity.
  - split; [exact C|exact P].
Defined.

(** A capital in the expression: the container matches without regard to case,
    the configuration does not. *)
Example capitals_disagree :
  accepts_profiles (lit "(Prod & cloud)") (with_profiles [lit "prod"; lit "cloud"] context_new) = true /\
  Profiles.matches_profile_expression [lit "prod"; lit "cloud"] (lit "(Prod & cloud)") = false.
Proof. split; reflexivity. Qed.

(** A list of names with a negation in it: the configuration negates, the
    container looks for a profile whose name begins with the sign. *)
Example negation_in_list :
  Profiles.matches_profile_expression [lit "prod"] (lit "!test,dev") = true /\
  accepts_profiles (lit "!test,dev") (with_profiles [lit "prod"] context_new) = false /\
  accepts_profiles (lit "!test | dev") (with_profiles [lit "prod"] context_new) = true.
Proof. repeat split; reflexivity. Qed.

(** Text after the phrase is not looked at, nor is a missing parenthesis. *)
Example malformed_is_accepted :
  accepts_profiles (lit "(prod") (with_profiles [lit "prod"] context_new) = true /\
  accepts_profiles (lit "prod) & test") (with_profiles [lit "prod"] context_new) = true /\
  Profiles.matches_profile_expression [lit "prod"] (lit "(prod") = false.
Proof. repeat split; reflexivity. Qed.
