(* ===== verification/Suggestions.v ===== *)
(** Names close to a name: the fuzzy matching of [crates/container/src/lib.rs].

    The similarity of two names is twice the length of their longest common
    subsequence over the sum of their lengths, in binary64; the theorem states
    that the two-row table computes that length. *)
From Stdlib Require Import Ascii String.
From Stdlib Require Import ZArith NArith List Lia Floats.SpecFloat.
From stdpp Require Import base decidable list.
From S2P Require Import Prelude Str Order.

(** ** Short names *)

(** What is behind the last [::]. *)
Fixpoint after_colons (s : str) : option str :=
  match s with
  | [] => None
  | _ :: s' => match after_colons s' with Some r => Some r | None => strip_prefix (lit "::") s end
  end.

(** [foo::bar::Greeter<T>] is [Greeter]. *)
Definition short_name (name : str) : str :=
  let no_generics := default name (head (split 60%N name)) in
  default no_generics (after_colons no_generics).

(** ** The table *)

(** The inner loop fills [curr] from the row above. *)
Fixpoint fill_row (ca : char) (prev : list nat) (b : list char) (j : nat) (curr : list nat) : list nat :=
  match b with
  | [] => curr
  | cb :: b =>
      let v := if (ca =? cb)%N then (nth j prev 0 + 1)%nat else Nat.max (nth (S j) prev 0)%nat (nth j curr 0)%nat in
      fill_row ca prev b (S j) (<[S j := v]> curr)
  end.

(** The rows are swapped, and the new current one is zeroed. *)
Definition next_row (b : list char) (rows : list nat * list nat) (ca : char) : list nat * list nat :=
  let '(prev, curr) := rows in
  (fill_row ca prev b 0 curr, map (fun _ => 0%nat) prev).

Definition longest_common_subsequence (a b : list char) : nat :=
  let row := repeat 0%nat (S (List.length b)) in
  nth (List.length b) (fst (fold_left (next_row b) a (row, row))) 0%nat.

Definition similarity (a b : str) : f64 :=
  if bool_decide (a = []) && bool_decide (b = []) then f64_of_Z 1
  else
    let a := to_ascii_lowercase a in
    let b := to_ascii_lowercase b in
    if bool_decide (a = []) || bool_decide (b = []) then f64_of_Z 0
    else
      let lcs := longest_common_subsequence a b in
      f64_div (f64_mul (f64_of_Z 2) (f64_of_Z (Z.of_nat lcs))) (f64_of_Z (Z.of_nat (List.length a + List.length b))).

(** The literal [0.4] is the double nearest to four tenths. *)
Definition CUTOFF : f64 := f64_div (f64_of_Z 4) (f64_of_Z 10).

(** Score down, then name up. *)
Definition by_score (a b : f64 * str) : comparison :=
  then_cmp (default Eq (f64_partial_cmp (fst b) (fst a))) (str_compare (snd a) (snd b)).

Definition fuzzy_suggestions (names : list str) (name : str) : list str :=
  let short := short_name name in
  if bool_decide (short = []) then []
  else
    let scored := map (fun candidate => (similarity short (short_name candidate), candidate)) names in
    map snd (take 5 (sort_by by_score (List.filter (fun sc => f64_le CUTOFF (fst sc)) scored))).

(** * Theorems *)

(** [n] is the length of the longest common subsequences. *)
Definition longest (a b : list char) (n : nat) : Prop :=
  (exists c, c `sublist_of` a /\ c `sublist_of` b /\ List.length c = n) /\
  forall c, c `sublist_of` a -> c `sublist_of` b -> (List.length c <= n)%nat.

Lemma longest_nil_l b : longest [] b 0.
Proof. split; [exists []; auto using sublist_nil_l|]. by intros c ->%sublist_nil_r. Qed.

Lemma longest_nil_r a : longest a [] 0.
Proof. split; [exists []; auto using sublist_nil_l|]. by intros c _ ->%sublist_nil_r. Qed.

Lemma sublist_snoc_inv {A} (c a : list A) x : c `sublist_of` a ++ [x] ->
  c `sublist_of` a \/ exists c', c = c' ++ [x] /\ c' `sublist_of` a.
Proof.
  intros (c1 & c2 & -> & S1 & S2)%sublist_app_r.
  apply sublist_cons_r in S2 as [->%sublist_nil_r|(l & -> & ->%sublist_nil_r)].
  - left. by rewrite app_nil_r.
  - right. eauto.
Qed.

Lemma longest_same a b x n : longest a b n -> longest (a ++ [x]) (b ++ [x]) (S n).
Proof.
  intros [(c & Sa & Sb & L) M]. split.
  - exists (c ++ [x]). split_and!; [by apply sublist_app..|]. rewrite length_app. simpl. lia.
  - intros d [Da|(d1 & -> & Da)]%sublist_snoc_inv [Db|(d2 & E & Db)]%sublist_snoc_inv.
    + by apply le_S, M.
    + subst d. rewrite length_app. simpl. rewrite Nat.add_1_r. apply le_n_S, M; [|done].
      etrans; [|exact Da]. by apply sublist_inserts_r.
    + rewrite length_app. simpl. rewrite Nat.add_1_r. apply le_n_S, M; [done|].
      etrans; [|exact Db]. by apply sublist_inserts_r.
    + apply app_inj_tail in E as [-> _]. rewrite length_app. simpl. rewrite Nat.add_1_r. by apply le_n_S, M.
Qed.

Lemma longest_differ a b x y n m : x <> y -> longest a (b ++ [y]) n -> longest (a ++ [x]) b m ->
  longest (a ++ [x]) (b ++ [y]) (Nat.max n m).
Proof.
  intros N [(c & Sa & Sb & L) Mn] [(d & Ta & Tb & K) Mm]. split.
  - destruct (Nat.max_spec n m) as [[_ ->]|[_ ->]]; [exists d|exists c]; auto using sublist_inserts_r.
  - intros e [Ea|(e1 & -> & Ea)]%sublist_snoc_inv Eb.
    + specialize (Mn e Ea Eb). lia.
    + apply sublist_snoc_inv in Eb as [Eb|(e2 & E & Eb)]; [|by apply app_inj_tail in E as [_ ?]].
      assert (List.length (e1 ++ [x]) <= m)%nat; [|lia]. apply Mm; [by apply sublist_app|done].
Qed.

(** A row of the table for the characters [p] read so far: the answers for the
    prefixes of [b], up to the [k]-th. *)
Definition row_for (p b : list char) (k : nat) (row : list nat) : Prop :=
  List.length row = S (List.length b) /\ forall j, (j <= k)%nat -> longest p (take j b) (nth j row 0%nat).

Lemma nth_insert_same {A} (l : list A) i x d : (i < List.length l)%nat -> nth i (<[i := x]> l) d = x.
Proof. intros L. rewrite nth_lookup, list_lookup_insert_eq by done. done. Qed.

Lemma nth_insert_other {A} (l : list A) i j x d : i <> j -> nth j (<[i := x]> l) d = nth j l d.
Proof. intros N. by rewrite !nth_lookup, list_lookup_insert_ne. Qed.

Lemma fill_row_spec ca p b prev rest j curr : row_for p b (List.length b) prev ->
  drop j b = rest -> (j <= List.length b)%nat -> row_for (p ++ [ca]) b j curr ->
  row_for (p ++ [ca]) b (List.length b) (fill_row ca prev rest j curr).
Proof.
  intros [Lp P]. revert j curr. induction rest as [|cb rest IH]; intros j curr D J [Lc C]; cbn [fill_row].
  - apply (f_equal List.length) in D. rewrite length_drop in D. simpl in D.
    replace (List.length b) with j by lia. done.
  - assert (b !! j = Some cb) as B.
    { rewrite <- (Nat.add_0_r j), <- lookup_drop, D. done. }
    pose proof (lookup_lt_Some _ _ _ B) as Lt.
    apply IH; [|lia|].
    + rewrite (drop_S _ _ _ B) in D. by injection D.
    + split; [by rewrite length_insert|]. intros i I. destruct (decide (i = S j)) as [->|N].
      2:{ rewrite nth_insert_other by done. apply C. lia. }
      rewrite nth_insert_same by lia. rewrite (take_S_r _ _ _ B).
      destruct (N.eqb_spec ca cb) as [->|N].
      * rewrite Nat.add_1_r. apply longest_same, P. lia.
      * apply longest_differ; [done| |apply C; lia]. rewrite <- (take_S_r _ _ _ B). apply P. lia.
Qed.

Lemma zeros_row p b (row : list nat) : List.length row = S (List.length b) -> row_for p b 0 (map (fun _ => 0%nat) row).
Proof.
  intros L. split; [by rewrite length_map|]. intros j J. replace j with 0%nat by lia.
  destruct row; [done|]. apply longest_nil_r.
Qed.

Lemma rows_spec a b : forall p prev curr, row_for p b (List.length b) prev ->
  (forall q, row_for q b 0 curr) ->
  row_for (p ++ a) b (List.length b) (fst (fold_left (next_row b) a (prev, curr))).
Proof.
  induction a as [|ca a IH]; intros p prev curr P Z; [by rewrite app_nil_r|].
  cbn [fold_left next_row]. replace (p ++ ca :: a) with ((p ++ [ca]) ++ a) by by rewrite <- app_assoc.
  assert (forall q, row_for q b 0 (map (fun _ => 0%nat) prev)) as Z'.
  { intros q. by apply zeros_row, P. }
  apply IH; [|apply Z']. eapply fill_row_spec; [exact P|by rewrite drop_0|lia|apply Z].
Qed.

(** The two-row table of the fuzzy matching computes the length of the
    longest subsequence the two names share: one of that length exists, and none
    is longer. *)
Theorem table_computes_longest a b :
  (exists c, c `sublist_of` a /\ c `sublist_of` b /\ List.length c = longest_common_subsequence a b) /\
  (forall c, c `sublist_of` a -> c `sublist_of` b -> (List.length c <= longest_common_subsequence a b)%nat).
Proof.
  unfold longest_common_subsequence. set (row := repeat 0%nat (S (List.length b))).
  assert (row = map (fun _ => 0%nat) row) as E by (subst row; generalize (S (List.length b)); intros n; induction n; simpl; congruence).
  assert (List.length row = S (List.length b)) as L by apply repeat_length.
  assert (forall q, row_for q b 0 row) as Z by (intros q; rewrite E; by apply zeros_row).
  assert (row_for [] b (List.length b) row) as P.
  { split; [done|]. intros j _. subst row. rewrite nth_repeat. apply longest_nil_l. }
  destruct (rows_spec a b [] row row P Z) as [_ R].
  specialize (R (List.length b) (le_n _)). rewrite firstn_all in R. exact R.
Qed.

Example suggests_close_names :
  fuzzy_suggestions [lit "app::Greeter"; lit "app::Clock"; lit "app::Repository<User>"] (lit "x::Greter") =
    [lit "app::Greeter"; lit "app::Repository<User>"].
Proof. vm_compute. reflexivity. Qed.
