(* ===== verification/Container.v ===== *)
(** The dependency container: [crates/container/src/lib.rs], [scope.rs],
    [registration.rs], [error.rs], [provider.rs], [value.rs].

    A registration is shared: the registry by type, the one by name and the list
    for introspection hold the same [Arc], so registrations live in a store and
    the registries hold their positions in it. A factory is user code that may
    resolve other beans: a finite program over those calls and over the outside
    world. Left out: factories that register beans, and calls from several
    threads at once; the stack of beans under construction is that of the one
    thread. No address is handed out twice. *)
From Stdlib Require Import Ascii String.
From Stdlib Require Import ZArith NArith List Lia.
From stdpp Require Import base decidable list gmap.
From S2P Require Import Prelude Str Order AnyType Suggestions ContainerConditions.

(** * Errors *)

Inductive ContainerError : Type :=
| NoSuchBean (bean_type bean_name required_by parameter : option str) (suggestions : list str)
| NoUniqueBean (bean_type : str) (candidates : list str)
| CircularDependency (chain : list str) (current : str)
| BeanCreation (bean message : str).

Definition no_such_type (bean_type : str) (suggestions : list str) : ContainerError :=
  NoSuchBean (Some bean_type) None None None suggestions.
Definition no_such_name (bean_name : str) (suggestions : list str) : ContainerError :=
  NoSuchBean None (Some bean_name) None None suggestions.
Definition bean_creation (bean message : str) : ContainerError := BeanCreation bean message.

Definition newline : str := [10%N].
Definition opt_line (label : str) (o : option str) : list str :=
  match o with Some text => [label ++ text] | None => [] end.

Definition render_no_such_bean (bean_type bean_name required_by parameter : option str) (suggestions : list str) : str :=
  let headline :=
    match bean_type, bean_name with
    | Some t, _ => lit "No bean of type '" ++ t ++ lit "' is registered"
    | None, Some n => lit "No bean named '" ++ n ++ lit "' is registered"
    | None, None => lit "No matching bean is registered"
    end in
  join newline (
    [lit "NoSuchBean: " ++ headline] ++
    (if bool_decide (is_Some required_by) || bool_decide (is_Some parameter)
     then [] :: opt_line (lit "  Required by: ") required_by ++ opt_line (lit "    Parameter: ") parameter
     else []) ++
    [[]; lit "  Suggestions:";
     lit "    - register the type, instance, or factory on the Container";
     lit "    - bind an interface to a concrete implementation via bind::<I, T>()";
     lit "    - check the scope and name used at registration"] ++
    (if bool_decide (suggestions = []) then [] else [[]; lit "  Similar registered types: " ++ join (lit ", ") suggestions])).

Definition render_no_unique_bean (bean_type : str) (candidates : list str) : str :=
  join newline
    [lit "NoUniqueBean: Multiple beans of type '" ++ bean_type ++ lit "' found but none is marked primary"; [];
     lit "  Candidates: [" ++ join (lit ", ") candidates ++ lit "]"; [];
     lit "  Fix: mark one registration primary, or resolve_named(" ++ [34%N] ++ lit "name" ++ [34%N] ++ lit ") to disambiguate"].

Definition render_circular (chain : list str) (current : str) : str :=
  join newline
    [lit "CircularDependency: " ++ join (lit " -> ") (map short_name chain ++ [short_name current]); [];
     lit "  Suggestion: break the cycle with a Provider<T> or a factory pattern"].

Definition error_to_string (e : ContainerError) : str :=
  match e with
  | NoSuchBean t n r p s => render_no_such_bean t n r p s
  | NoUniqueBean t c => render_no_unique_bean t c
  | CircularDependency chain current => render_circular chain current
  | BeanCreation bean message => lit "BeanCreation: error creating bean '" ++ bean ++ lit "': " ++ message
  end.

(** * Scopes *)

Inductive Scope : Type := Singleton | Transient | Request | Session.
Definition scope_name (s : Scope) : str :=
  match s with
  | Singleton => lit "singleton" | Transient => lit "transient" | Request => lit "request" | Session => lit "session"
  end.

Inductive ScopeSpec : Type := Builtin (s : Scope) | Custom (name : str).
Definition spec_name (s : ScopeSpec) : str := match s with Builtin s => scope_name s | Custom name => name end.

(** * Outcomes

    A call returns, panics, or is cut short by the bound on the nesting of
    constructions. *)
Inductive Outcome (A : Type) : Type := Returns (a : A) | Panics | Cut.
Arguments Returns {A} a. Arguments Panics {A}. Arguments Cut {A}.

(** The position of a registration in the store. *)
Abbreviation RegId := nat (only parsing).

Section Container.
Context `{Universe} {W : Type}.

(** An [Arc<T>] and an [Arc<dyn Any>]: an address and a value. The holder is
    what [register_port] wraps a trait object in. *)
Record Arc (T : code) : Type := mkArc { addr : positive; deref : denote T }.
Arguments mkArc {T}. Arguments addr {T} _. Arguments deref {T} _.

Inductive SharedInstance : Type :=
| Sized (a : positive) (value : Any)
| PortHolder (a : positive) (I : code) (port : Arc I).

Definition as_ptr (s : SharedInstance) : positive := match s with Sized a _ | PortHolder a _ _ => a end.

Definition downcast_shared (T : code) (s : SharedInstance) : option (Arc T) :=
  match s with
  | Sized a v => mkArc a <$> downcast T v
  | PortHolder _ _ _ => None
  end.
Definition downcast_holder (I : code) (s : SharedInstance) : option (Arc I) :=
  match s with
  | PortHolder _ J port =>
      match decide (J = I) with left e => Some (eq_rect J Arc port I e) | right _ => None end
  | Sized _ _ => None
  end.

(** A boxed [Arc<T>], and what makes one of a stored instance. *)
Definition ErasedArc : Type := sigT Arc.
Definition Caster : Type := SharedInstance -> option ErasedArc.

(** * Programs

    What a factory does: it acts on the outside world, resolves, panics or
    returns. *)
Inductive Prog (A : Type) : Type :=
| Return (a : A)
| Panic
| Act (f : W -> W) (k : W -> Prog A)
| Resolve (T : code) (k : Result (Arc T) ContainerError -> Prog A)
| ResolveNamed (T : code) (name : str) (k : Result (Arc T) ContainerError -> Prog A)
| ResolveErased (name : str) (k : Result SharedInstance ContainerError -> Prog A)
| ResolveAll (T : code) (k : Result (list (Arc T)) ContainerError -> Prog A).
Arguments Return {A} a. Arguments Panic {A}. Arguments Act {A} f k. Arguments Resolve {A} T k.
Arguments ResolveNamed {A} T name k. Arguments ResolveErased {A} name k. Arguments ResolveAll {A} T k.

Fixpoint prog_bind {A B} (p : Prog A) (k : A -> Prog B) : Prog B :=
  match p with
  | Return a => k a
  | Panic => Panic
  | Act f c => Act f (fun w => prog_bind (c w) k)
  | Resolve T c => Resolve T (fun r => prog_bind (c r) k)
  | ResolveNamed T name c => ResolveNamed T name (fun r => prog_bind (c r) k)
  | ResolveErased name c => ResolveErased name (fun r => prog_bind (c r) k)
  | ResolveAll T c => ResolveAll T (fun r => prog_bind (c r) k)
  end.

Definition Factory : Type := Prog (Result SharedInstance ContainerError).

(** What a scope handler's [get] does: it acts on the outside world, where its
    cache lives, and may call the object factory. *)
Inductive HandlerProg : Type :=
| HReturn (r : Result SharedInstance ContainerError)
| HPanic
| HAct (f : W -> W) (k : W -> HandlerProg)
| HCreate (k : Result SharedInstance ContainerError -> HandlerProg).

Record ScopeHandler : Type := mkScopeHandler {
  scope_get : str -> HandlerProg;
  scope_remove : str -> W -> option SharedInstance * W
}.

(** ** The refresh scope

    Its cache is a part of the world. *)
Definition REFRESH_SCOPE_NAME : str := lit "refresh".

Section RefreshScope.
Context (get_cache : W -> gmap str SharedInstance) (put_cache : gmap str SharedInstance -> W -> W).

Definition refresh_get (name : str) : HandlerProg :=
  HAct (fun w => w) (fun w =>
    match get_cache w !! name with
    | Some existing => HReturn (Ok existing)
    | None =>
        HCreate (fun r =>
          match r with
          | Err e => HReturn (Err e)
          | Ok instance =>
              HAct (fun w => match get_cache w !! name with Some _ => w | None => put_cache (<[name := instance]> (get_cache w)) w end)
                (fun w => HReturn (Ok (default instance (get_cache w !! name))))
          end)
    end).
Definition refresh_remove (name : str) (w : W) : option SharedInstance * W :=
  (get_cache w !! name, put_cache (delete name (get_cache w)) w).
Definition refresh (w : W) : list str * W := (map fst (map_to_list (get_cache w)), put_cache ∅ w).
Definition refresh_scope : ScopeHandler := mkScopeHandler refresh_get refresh_remove.
End RefreshScope.

(** * Registrations *)

Definition HIGHEST_PRECEDENCE : Z := - 2 ^ 31.
Definition LOWEST_PRECEDENCE : Z := 2 ^ 31 - 1.

(** A teardown hook may panic. *)
Definition DestroyHook : Type := SharedInstance -> W -> option W.

Record BeanMetrics : Type := mkMetrics { creation_time_ns : Z; resolution_count : Z }.

Record Registration : Type := mkRegistration {
  impl_type : code;
  r_type_name : str;
  scope : ScopeSpec;
  r_name : str;
  primary : bool;
  order : Z;
  factory : Factory;
  instance : option SharedInstance;
  metrics : BeanMetrics;
  stereotype : option str;
  destroy_hook : option DestroyHook;
  dependencies : list str
}.
Implicit Type reg : Registration.

Definition display_name reg : str := if bool_decide (r_name reg = []) then r_type_name reg else r_name reg.

Definition set_instance (i : option SharedInstance) reg : Registration :=
  mkRegistration (impl_type reg) (r_type_name reg) (scope reg) (r_name reg) (primary reg) (order reg) (factory reg)
    i (metrics reg) (stereotype reg) (destroy_hook reg) (dependencies reg).
Definition set_metrics (m : BeanMetrics) reg : Registration :=
  mkRegistration (impl_type reg) (r_type_name reg) (scope reg) (r_name reg) (primary reg) (order reg) (factory reg)
    (instance reg) m (stereotype reg) (destroy_hook reg) (dependencies reg).
Definition with_stereotype (label : str) reg : Registration :=
  mkRegistration (impl_type reg) (r_type_name reg) (scope reg) (r_name reg) (primary reg) (order reg) (factory reg)
    (instance reg) (metrics reg) (Some label) (destroy_hook reg) (dependencies reg).
Definition with_destroy_hook (hook : DestroyHook) reg : Registration :=
  mkRegistration (impl_type reg) (r_type_name reg) (scope reg) (r_name reg) (primary reg) (order reg) (factory reg)
    (instance reg) (metrics reg) (stereotype reg) (Some hook) (dependencies reg).
Definition with_dependencies (deps : list str) reg : Registration :=
  mkRegistration (impl_type reg) (r_type_name reg) (scope reg) (r_name reg) (primary reg) (order reg) (factory reg)
    (instance reg) (metrics reg) (stereotype reg) (destroy_hook reg) deps.

Record TypeEntry : Type := mkEntry { registration : RegId; caster : Caster }.

(** A parked initializer of an asynchronous bean. *)
Record AsyncInit : Type := mkAsyncInit {
  ai_type : code;
  ai_scope : Scope;
  ai_name : str;
  ai_primary : bool;
  ai_order : Z;
  ai_stereotype : str;
  ai_dependencies : list str;
  ai_factory : Prog (Result (denote ai_type) ContainerError)
}.

(** [store] holds every registration ever made. *)
Record Container : Type := mkContainer {
  store : list Registration;
  by_type : gmap code (list TypeEntry);
  by_name : gmap str RegId;
  scopes : gmap str ScopeHandler;
  type_names : list str;
  registered : list RegId;
  conditions : ConditionContext;
  async_inits : list AsyncInit
}.
Implicit Type c : Container.

Definition container_new : Container := mkContainer [] ∅ ∅ ∅ [] [] context_new [].
Definition with_store (s : list Registration) c : Container :=
  mkContainer s (by_type c) (by_name c) (scopes c) (type_names c) (registered c) (conditions c) (async_inits c).
Definition with_scopes (s : gmap str ScopeHandler) c : Container :=
  mkContainer (store c) (by_type c) (by_name c) s (type_names c) (registered c) (conditions c) (async_inits c).
Definition with_async_inits (l : list AsyncInit) c : Container :=
  mkContainer (store c) (by_type c) (by_name c) (scopes c) (type_names c) (registered c) (conditions c) l.
Definition set_condition_context (ctx : ConditionContext) c : Container :=
  mkContainer (store c) (by_type c) (by_name c) (scopes c) (type_names c) (registered c) ctx (async_inits c).

Definition reg_at (id : RegId) c : option Registration := store c !! id.
Definition update_reg (id : RegId) (f : Registration -> Registration) c : Container := with_store (alter f id (store c)) c.

(** * Registering

    [alloc] is the allocator, [clock] the instant. *)
Context (alloc : W -> positive * W) (clock : W -> Z).

Definition is_bean (T : code) (name : str) c (id : RegId) : bool :=
  match reg_at id c with
  | Some reg => bool_decide (impl_type reg = T) && bool_decide (r_name reg = name)
  | None => false
  end.

(** The common end of [install] and [register_port_named]. *)
Definition publish (T : code) reg (caster : Caster) c : RegId * Container :=
  let id := List.length (store c) in
  let others := List.filter (fun i => negb (is_bean T (r_name reg) c i)) in
  let entries := default [] (by_type c !! T) in
  (id, mkContainer
    (store c ++ [reg])
    (<[T := List.filter (fun e => negb (is_bean T (r_name reg) c (registration e))) entries ++ [mkEntry id caster]]> (by_type c))
    (if bool_decide (r_name reg = []) then by_name c else <[r_name reg := id]> (by_name c))
    (scopes c)
    (if existsb (str_eqb (r_type_name reg)) (type_names c) then type_names c else type_names c ++ [r_type_name reg])
    (others (registered c) ++ [id])
    (conditions c)
    (async_inits c)).

Definition new_registration (T : code) (scope : ScopeSpec) (name : str) (primary : bool) (order : Z) (factory : Factory)
  (instance : option SharedInstance) : Registration :=
  mkRegistration T (type_name T) scope name primary order factory instance (mkMetrics 0 0) None None [].

Definition install_caster (T : code) : Caster := fun shared => existT T <$> downcast_shared T shared.
Definition install (T : code) (scope : ScopeSpec) (name : str) (primary : bool) (order : Z) (factory : Factory) c : RegId * Container :=
  publish T (new_registration T scope name primary order factory None) (install_caster T) c.

Definition erase_factory {T : code} (factory : Prog (Result (denote T) ContainerError)) : Factory :=
  prog_bind factory (fun r =>
    match r with
    | Err e => Return (Err e)
    | Ok value => Act (fun w => snd (alloc w)) (fun w => Return (Ok (Sized (fst (alloc w)) (existT T value))))
    end).

Definition register_factory_with (T : code) (scope : Scope) (name : str) (primary : bool) (order : Z)
  (factory : Prog (Result (denote T) ContainerError)) c : Container :=
  snd (install T (Builtin scope) name primary order (erase_factory factory) c).
Definition register_factory_scoped (T : code) (scope : ScopeSpec) (name : str) (factory : Prog (Result (denote T) ContainerError)) c : Container :=
  snd (install T scope name false 0 (erase_factory factory) c).
Definition register_factory_named (T : code) (scope : Scope) (name : str) (factory : Prog (Result (denote T) ContainerError)) c : Container :=
  snd (install T (Builtin scope) name false 0 (erase_factory factory) c).
Definition register_factory (T : code) (scope : Scope) (factory : Prog (Result (denote T) ContainerError)) c : Container :=
  register_factory_named T scope [] factory c.
(** [default_value] is [T::default]. *)
Definition register (T : code) (default_value : denote T) c : Container :=
  register_factory T Singleton (Return (Ok default_value)) c.

Definition share {T : code} (a : Arc T) : SharedInstance := Sized (addr a) (existT T (deref a)).
Definition register_singleton_arc {T : code} (a : Arc T) (scope : Scope) (name : str) (primary : bool) (order : Z) c : Container :=
  let '(id, c) := install T (Builtin scope) name primary order (Return (Ok (share a))) c in
  update_reg id (set_instance (Some (share a))) c.
Definition register_arc_named {T : code} (a : Arc T) (name : str) c : Container := register_singleton_arc a Singleton name false 0 c.
Definition register_arc {T : code} (a : Arc T) c : Container := register_arc_named a [] c.
Definition register_instance_named (T : code) (value : denote T) (name : str) (w : W) c : Container * W :=
  let '(address, w) := alloc w in (register_arc_named (mkArc address value) name c, w).
Definition register_instance (T : code) (value : denote T) (w : W) c : Container * W := register_instance_named T value [] w c.

Definition register_port_named {I : code} (port : Arc I) (name : str) (w : W) c : Container * W :=
  let '(address, w) := alloc w in
  let shared := PortHolder address I port in
  (snd (publish I (new_registration I (Builtin Singleton) name false 0 (Return (Ok shared)) (Some shared))
    (fun s => existT I <$> downcast_holder I s) c), w).
Definition register_port {I : code} (port : Arc I) (w : W) c : Container * W := register_port_named port [] w c.

Definition register_async_factory (init : AsyncInit) c : Container := with_async_inits (async_inits c ++ [init]) c.
Definition has_pending_async_beans c : bool := negb (bool_decide (List.length (async_inits c) = 0%nat)).

(** The most recent registration of a type. *)
Definition latest_of (T : code) c : option RegId :=
  List.find (fun id => match reg_at id c with Some reg => bool_decide (impl_type reg = T) | None => false end) (rev (registered c)).
Definition on_latest (T : code) (f : Registration -> Registration) c : Container :=
  match latest_of T c with Some id => update_reg id f c | None => c end.
Definition set_stereotype (T : code) (label : str) c : Container := on_latest T (with_stereotype label) c.
Definition set_dependencies (T : code) (deps : list str) c : Container := on_latest T (with_dependencies deps) c.
Definition set_destroy_hook (T : code) (hook : Arc T -> W -> option W) c : Container :=
  on_latest T (with_destroy_hook (fun shared w => match downcast_shared T shared with Some typed => hook typed w | None => Some w end)) c.

(** [None] is the panic of an implementation that is not registered. *)
Definition bind (I T : code) (coerce : Arc T -> Arc I) c : option Container :=
  entries ← by_type c !! T;
  e ← List.find (fun e => match reg_at (registration e) c with Some reg => bool_decide (impl_type reg = T) | None => false end) entries;
  let caster : Caster := fun shared => typed ← downcast_shared T shared; Some (existT I (coerce typed)) in
  let views := default [] (by_type c !! I) ++ [mkEntry (registration e) caster] in
  Some (mkContainer (store c) (<[I := views]> (by_type c)) (by_name c) (scopes c) (type_names c) (registered c) (conditions c) (async_inits c)).

(** [debug] renders a string between quotes. *)
Context (debug : str -> str).

Definition reserved (name : str) : bool :=
  existsb (str_eqb name) [lit "singleton"; lit "transient"; lit "request"; lit "session"].
Definition register_scope (name : str) (handler : ScopeHandler) c : Result unit ContainerError * Container :=
  if bool_decide (name = []) then
    (Err (NoSuchBean None None None (Some (lit "custom scope name must be a non-empty string")) []), c)
  else if reserved name then
    (Err (NoSuchBean None None None (Some (lit "cannot override built-in scope name: " ++ debug name)) []), c)
  else (Ok tt, with_scopes (<[name := handler]> (scopes c)) c).
Definition unregister_scope (name : str) c : Container := with_scopes (delete name (scopes c)) c.
Definition register_request_scope (handler : ScopeHandler) c : Container := with_scopes (<[scope_name Request := handler]> (scopes c)) c.
Definition register_session_scope (handler : ScopeHandler) c : Container := with_scopes (<[scope_name Session := handler]> (scopes c)) c.

(** * Resolving

    [resolving] is the thread's stack of types under construction. *)
Record St : Type := mkSt { con : Container; world : W; resolving : list (code * str) }.
Definition Call (A : Type) : Type := St -> Outcome A * St.
Definition give {A} (a : A) : Call A := fun st => (Returns a, st).
Definition panic {A} : Call A := fun st => (Panics, st).
Definition seq {A B} (m : Call A) (k : A -> Call B) : Call B := fun st =>
  match m st with
  | (Returns a, st') => k a st'
  | (Panics, st') => (Panics, st')
  | (Cut, st') => (Cut, st')
  end.
Definition seq_ok {A B} (m : Call (Result A ContainerError)) (k : A -> Call (Result B ContainerError)) : Call (Result B ContainerError) :=
  seq m (fun r => match r with Ok a => k a | Err e => give (Err e) end).
Definition get {A} (f : St -> A) : Call A := fun st => (Returns (f st), st).
Definition modify (f : Container -> Container) : Call unit := fun st => (Returns tt, mkSt (f (con st)) (world st) (resolving st)).
Definition act (f : W -> W) : Call unit := fun st => (Returns tt, mkSt (con st) (f (world st)) (resolving st)).
Definition stack (f : list (code * str) -> list (code * str)) : Call unit := fun st => (Returns tt, mkSt (con st) (world st) (f (resolving st))).

Notation "x <-- m ; k" := (seq m (fun x => k)) (at level 100, m at next level, right associativity).
Notation "x <-? m ; k" := (seq_ok m (fun x => k)) (at level 100, m at next level, right associativity).

Definition names_like (T : code) c : list str := fuzzy_suggestions (type_names c) (type_name T).
Definition is_primary c (e : TypeEntry) : bool := match reg_at (registration e) c with Some reg => primary reg | None => false end.
Definition entry_name c (e : TypeEntry) : str := match reg_at (registration e) c with Some reg => display_name reg | None => [] end.

(** The registration chosen and the position of its entry. *)
Definition choose_entry (T : code) c : Result (RegId * nat) ContainerError :=
  match by_type c !! T with
  | None | Some [] => Err (no_such_type (type_name T) (names_like T c))
  | Some [e] => Ok (registration e, 0%nat)
  | Some entries =>
      match List.filter (fun ie => is_primary c (snd ie)) (imap pair entries) with
      | [(i, e)] => Ok (registration e, i)
      | _ => Err (NoUniqueBean (type_name T) (map (entry_name c) entries))
      end
  end.

Definition downcast_arc (T : code) (erased : ErasedArc) : Result (Arc T) ContainerError :=
  match decide (projT1 erased = T) with
  | left e => Ok (eq_rect (projT1 erased) Arc (projT2 erased) T e)
  | right _ => Err (no_such_type (type_name T) [])
  end.

(** [entries vanished] and an index out of bounds panic. *)
Definition caster_at (T : code) (index : nat) c : option Caster := entries ← by_type c !! T; caster <$> entries !! index.
Definition apply_caster (T : code) (index : nat) (shared : SharedInstance) : Call (Result (Arc T) ContainerError) :=
  c <-- get con;
  match caster_at T index c with
  | None => panic
  | Some caster =>
      match caster shared with
      | None => give (Err (no_such_type (type_name T) (names_like T c)))
      | Some erased => give (downcast_arc T erased)
      end
  end.

Definition bump_resolution (id : RegId) : Call unit :=
  modify (update_reg id (fun reg => set_metrics (mkMetrics (creation_time_ns (metrics reg)) (resolution_count (metrics reg) + 1)) reg)).

Definition no_such_named (name : str) c : ContainerError := no_such_name name (map fst (map_to_list (by_name c))).

Section Nested.
(** Resolving a registration from inside a factory. *)
Context (resolve_registration : RegId -> Call (Result SharedInstance ContainerError)).

Definition resolve_with (T : code) : Call (Result (Arc T) ContainerError) :=
  c <-- get con;
  match choose_entry T c with
  | Err e => give (Err e)
  | Ok (id, index) => shared <-? resolve_registration id; apply_caster T index shared
  end.

Definition resolve_erased_with (name : str) : Call (Result SharedInstance ContainerError) :=
  c <-- get con;
  match by_name c !! name with
  | None => give (Err (no_such_named name c))
  | Some id => resolve_registration id
  end.

Definition mismatch (T : code) (name : str) reg : ContainerError :=
  NoSuchBean (Some (type_name T)) (Some name) None
    (Some (lit "bean " ++ debug name ++ lit " is registered as " ++ r_type_name reg ++ lit ", not assignable to " ++ type_name T)) [].
Definition resolve_named_with (T : code) (name : str) : Call (Result (Arc T) ContainerError) :=
  c <-- get con;
  match by_name c !! name with
  | None => give (Err (no_such_named name c))
  | Some id =>
      shared <-? resolve_registration id;
      match downcast_shared T shared, reg_at id c with
      | Some typed, _ => give (Ok typed)
      | None, Some reg => give (Err (mismatch T name reg))
      | None, None => panic
      end
  end.

(** The entries with their positions, by order. *)
Definition by_order c (a b : nat * TypeEntry) : comparison :=
  let order_of e := match reg_at (registration e) c with Some reg => order reg | None => 0 end in
  Z.compare (order_of (snd a)) (order_of (snd b)).
Definition snapshot (T : code) c : list (nat * TypeEntry) := sort_by (by_order c) (imap pair (default [] (by_type c !! T))).

Fixpoint collect (T : code) (entries : list (nat * TypeEntry)) (seen : list positive) (out : list (Arc T))
  : Call (Result (list (Arc T)) ContainerError) :=
  match entries with
  | [] => give (Ok out)
  | (index, e) :: entries =>
      shared <-? resolve_registration (registration e);
      if bool_decide (as_ptr shared ∈ seen) then collect T entries seen out
      else
        c <-- get con;
        match caster_at T index c with
        | None => panic
        | Some caster =>
            let seen := seen ++ [as_ptr shared] in
            match caster shared with
            | None => collect T entries seen out
            | Some erased =>
                match downcast_arc T erased with
                | Err e => give (Err e)
                | Ok typed => collect T entries seen (out ++ [typed])
                end
            end
        end
  end.
Definition resolve_all_with (T : code) : Call (Result (list (Arc T)) ContainerError) :=
  c <-- get con; collect T (snapshot T c) [] [].

Fixpoint run_prog {A} (p : Prog A) : Call A :=
  match p with
  | Return a => give a
  | Panic => panic
  | Act f k => w <-- get world; _ <-- act f; run_prog (k w)
  | Resolve T k => r <-- resolve_with T; run_prog (k r)
  | ResolveNamed T name k => r <-- resolve_named_with T name; run_prog (k r)
  | ResolveErased name k => r <-- resolve_erased_with name; run_prog (k r)
  | ResolveAll T k => r <-- resolve_all_with T; run_prog (k r)
  end.

(** The stack is popped when the factory returns; a panic leaves it. *)
Definition create_instance (id : RegId) : Call (Result SharedInstance ContainerError) :=
  st <-- get (fun st => st);
  match reg_at id (con st) with
  | None => panic
  | Some reg =>
      if bool_decide (impl_type reg ∈ map fst (resolving st)) then
        give (Err (CircularDependency (map snd (resolving st)) (r_type_name reg)))
      else
        _ <-- stack (fun s => s ++ [(impl_type reg, r_type_name reg)]);
        result <-- run_prog (factory reg);
        _ <-- stack (@removelast (code * str));
        now <-- get (fun st => clock (world st));
        match result with
        | Err e => give (Err e)
        | Ok instance =>
            _ <-- modify (update_reg id (fun reg => set_metrics (mkMetrics (duration_since now (clock (world st))) (resolution_count (metrics reg))) reg));
            give (Ok instance)
        end
  end.

Fixpoint run_handler (create : Call (Result SharedInstance ContainerError)) (p : HandlerProg) : Call (Result SharedInstance ContainerError) :=
  match p with
  | HReturn r => give r
  | HPanic => panic
  | HAct f k => w <-- get world; _ <-- act f; run_handler create (k w)
  | HCreate k => r <-- create; run_handler create (k r)
  end.

Definition not_registered (scope_name : str) reg : ContainerError :=
  NoSuchBean (Some (r_type_name reg)) None None
    (Some (lit "custom scope " ++ debug scope_name ++ lit " is not registered for bean " ++ display_name reg ++
           lit "; call register_scope(" ++ debug scope_name ++ lit ", handler) first")) [].
Definition via_scope_handler (id : RegId) (scope_name : str) : Call (Result SharedInstance ContainerError) :=
  c <-- get con;
  match reg_at id c with
  | None => panic
  | Some reg =>
      match scopes c !! scope_name with
      | None => give (Err (not_registered scope_name reg))
      | Some handler => run_handler (create_instance id) (scope_get handler (lit "__firefly_bean_" ++ r_type_name reg))
      end
  end.
Definition cached (id : RegId) (st : St) : option SharedInstance := reg ← reg_at id (con st); instance reg.
Definition resolved (id : RegId) (i : SharedInstance) : Call (Result SharedInstance ContainerError) :=
  _ <-- bump_resolution id; give (Ok i).

(** One registration by its scope. A singleton is looked for again once it is
    built. *)
Definition resolve_level (id : RegId) : Call (Result SharedInstance ContainerError) :=
  c <-- get con;
  match reg_at id c with
  | None => panic
  | Some reg =>
      match scope reg with
      | Builtin Singleton =>
          existing <-- get (cached id);
          match existing with
          | Some i => resolved id i
          | None =>
              built <-? create_instance id;
              existing <-- get (cached id);
              match existing with
              | Some i => resolved id i
              | None => _ <-- modify (update_reg id (set_instance (Some built))); resolved id built
              end
          end
      | Builtin Transient => built <-? create_instance id; resolved id built
      | Builtin Request | Builtin Session | Custom _ => built <-? via_scope_handler id (spec_name (scope reg)); resolved id built
      end
  end.
End Nested.

(** [fuel] bounds the nesting of constructions. *)
Fixpoint resolve_registration (fuel : nat) (id : RegId) : Call (Result SharedInstance ContainerError) :=
  match fuel with
  | O => fun st => (Cut, st)
  | S n => resolve_level (resolve_registration n) id
  end.

(** One more than there are registrations. *)
Definition nesting (st : St) : nat := S (List.length (store (con st))).
Definition resolve (T : code) : Call (Result (Arc T) ContainerError) := fun st => resolve_with (resolve_registration (nesting st)) T st.
Definition resolve_named (T : code) (name : str) : Call (Result (Arc T) ContainerError) := fun st =>
  resolve_named_with (resolve_registration (nesting st)) T name st.
Definition resolve_named_erased (name : str) : Call (Result SharedInstance ContainerError) := fun st =>
  resolve_erased_with (resolve_registration (nesting st)) name st.
Definition resolve_all (T : code) : Call (Result (list (Arc T)) ContainerError) := fun st =>
  resolve_all_with (resolve_registration (nesting st)) T st.
(** A program of the application. *)
Definition run {A} (p : Prog A) : Call A := fun st => run_prog (resolve_registration (nesting st)) p st.
(** [Provider::get]. *)
Definition provider_get (T : code) : Call (Result (Arc T) ContainerError) := resolve T.

(** * Theorems *)

(** ** Relations that calls keep

    A relation closed under the ways calls are composed holds of whatever is
    built from nested resolutions it holds of. *)
Section Logic.
Context (R : forall A, Call A -> Call A -> Prop).
Hypothesis R_give : forall A (a : A), R A (give a) (give a).
Hypothesis R_panic : forall A, R A panic panic.
Hypothesis R_get : forall A (f : St -> A), R A (get f) (get f).
Hypothesis R_act : forall f, R unit (act f) (act f).
Hypothesis R_seq : forall A B (m m' : Call A) (k k' : A -> Call B),
  R A m m' -> (forall a, R B (k a) (k' a)) -> R B (seq m k) (seq m' k').

Lemma R_seq_ok {A B} (m m' : Call (Result A ContainerError)) (k k' : A -> Call (Result B ContainerError)) :
  R _ m m' -> (forall a, R _ (k a) (k' a)) -> R _ (seq_ok m k) (seq_ok m' k').
Proof using R_give R_seq. intros M K. apply R_seq; [done|]. intros [a|e]; auto. Qed.

Lemma R_apply_caster T index shared : R _ (apply_caster T index shared) (apply_caster T index shared).
Proof using R_give R_get R_panic R_seq.
  apply R_seq; [auto|]. intros c. destruct (caster_at T index c) as [caster|]; [|auto]. destruct (caster shared); auto.
Qed.

Context (rec rec' : RegId -> Call (Result SharedInstance ContainerError)).
Hypothesis R_rec : forall id, R _ (rec id) (rec' id).

Lemma R_resolve_with T : R _ (resolve_with rec T) (resolve_with rec' T).
Proof using R_give R_get R_panic R_rec R_seq.
  apply R_seq; [auto|]. intros c. destruct (choose_entry T c) as [[id i]|e]; [|auto].
  apply R_seq_ok; [auto|]. intros shared. apply R_apply_caster.
Qed.

Lemma R_resolve_named_with T name : R _ (resolve_named_with rec T name) (resolve_named_with rec' T name).
Proof using R_give R_get R_panic R_rec R_seq.
  apply R_seq; [auto|]. intros c. destruct (by_name c !! name) as [id|]; [|auto].
  apply R_seq_ok; [auto|]. intros shared. destruct (downcast_shared T shared); [auto|]. destruct (reg_at id c); auto.
Qed.

Lemma R_resolve_erased_with name : R _ (resolve_erased_with rec name) (resolve_erased_with rec' name).
Proof using R_give R_get R_rec R_seq. apply R_seq; [auto|]. intros c. destruct (by_name c !! name); auto. Qed.

Lemma R_collect T entries seen out : R _ (collect rec T entries seen out) (collect rec' T entries seen out).
Proof using R_give R_get R_panic R_rec R_seq.
  revert seen out. induction entries as [|[index e] entries IH]; intros seen out; [apply R_give|]. cbn [collect].
  apply R_seq_ok; [auto|]. intros shared. destruct (bool_decide (as_ptr shared ∈ seen)); [apply IH|].
  apply R_seq; [auto|]. intros c. destruct (caster_at T index c) as [caster|]; [|auto].
  destruct (caster shared) as [erased|]; [|apply IH]. destruct (downcast_arc T erased); [apply IH|apply R_give].
Qed.

Lemma R_resolve_all_with T : R _ (resolve_all_with rec T) (resolve_all_with rec' T).
Proof using R_give R_get R_panic R_rec R_seq. apply R_seq; [auto|]. intros c. apply R_collect. Qed.

Lemma R_run_prog {A} (p : Prog A) : R _ (run_prog rec p) (run_prog rec' p).
Proof using R_act R_give R_get R_panic R_rec R_seq.
  induction p as [a| |f k IH|T k IH|T name k IH|name k IH|T k IH]; cbn [run_prog].
  - apply R_give.
  - apply R_panic.
  - apply R_seq; [apply R_get|]. intros w. apply R_seq; auto.
  - apply R_seq; [apply R_resolve_with|auto].
  - apply R_seq; [apply R_resolve_named_with|auto].
  - apply R_seq; [apply R_resolve_erased_with|auto].
  - apply R_seq; [apply R_resolve_all_with|auto].
Qed.

Hypothesis R_create : forall id, R _ (create_instance rec id) (create_instance rec' id).

Lemma R_run_handler id p : R _ (run_handler (create_instance rec id) p) (run_handler (create_instance rec' id) p).
Proof using R_act R_create R_give R_get R_panic R_seq.
  induction p as [r| |f k IH|k IH]; cbn [run_handler].
  - apply R_give.
  - apply R_panic.
  - apply R_seq; [apply R_get|]. intros w. apply R_seq; auto.
  - apply R_seq; auto.
Qed.

Lemma R_via_scope_handler id name : R _ (via_scope_handler rec id name) (via_scope_handler rec' id name).
Proof using R_act R_create R_give R_get R_panic R_seq.
  apply R_seq; [auto|]. intros c. destruct (reg_at id c); [|auto]. destruct (scopes c !! name); [|auto]. apply R_run_handler.
Qed.
End Logic.

(** ** What a call leaves alone

    A registration keeps all but its metrics and, while it has none, its
    instance. *)
Definition blank reg : Registration := set_instance None (set_metrics (mkMetrics 0 0) reg).
Definition kept reg reg' : Prop := blank reg = blank reg' /\ forall i, instance reg = Some i -> instance reg' = Some i.
Definition kept_con c c' : Prop := with_store [] c = with_store [] c' /\ Forall2 kept (store c) (store c').

#[local] Instance kept_preorder : PreOrder kept.
Proof.
  split; [done|]. intros r1 r2 r3 [B1 I1] [B2 I2]. split; [congruence|auto].
Qed.
#[local] Instance kept_con_preorder : PreOrder kept_con.
Proof.
  split; [done|]. intros c1 c2 c3 [S1 F1] [S2 F2]. split; [congruence|]. by etrans.
Qed.

Lemma kept_update id f c : (forall reg, reg_at id c = Some reg -> kept reg (f reg)) -> kept_con c (update_reg id f c).
Proof.
  intros K. split; [done|]. unfold update_reg. simpl. apply Forall2_same_length_lookup_2; [by rewrite length_alter|].
  intros i r r' E E'. destruct (decide (i = id)) as [->|N].
  - rewrite list_lookup_alter_eq, E in E'. injection E' as <-. by apply K.
  - rewrite list_lookup_alter_ne in E' by done. rewrite E in E'. by injection E' as <-.
Qed.

Lemma reg_at_update id f c : reg_at id (update_reg id f c) = f <$> reg_at id c.
Proof. apply list_lookup_alter_eq. Qed.

Lemma kept_reg_at id c c' reg : kept_con c c' -> reg_at id c = Some reg -> exists reg', reg_at id c' = Some reg' /\ kept reg reg'.
Proof. intros [_ F] E. by eapply Forall2_lookup_l in F. Qed.

Lemma kept_reg_at_none id c c' : kept_con c c' -> reg_at id c = None -> reg_at id c' = None.
Proof.
  intros [_ F]. unfold reg_at. rewrite !lookup_ge_None. by rewrite (Forall2_length _ _ _ F).
Qed.

Lemma kept_map {A} (f : Registration -> A) (d : A) id c c' : (forall reg reg', kept reg reg' -> f reg = f reg') -> kept_con c c' ->
  match reg_at id c with Some reg => f reg | None => d end = match reg_at id c' with Some reg => f reg | None => d end.
Proof.
  intros K C. destruct (reg_at id c) as [reg|] eqn:E.
  - destruct (kept_reg_at _ _ _ _ C E) as (reg' & -> & Kr). auto.
  - by rewrite (kept_reg_at_none _ _ _ C E).
Qed.

Lemma kept_blank {A} (f : Registration -> A) reg reg' : (forall r, f r = f (blank r)) -> kept reg reg' -> f reg = f reg'.
Proof. intros F [B _]. by rewrite F, B, <- F. Qed.

(** A tame call keeps registrations, and the stack when it returns. *)
Definition tame {A} (m : Call A) : Prop := forall st,
  kept_con (con st) (con (snd (m st))) /\ forall a, fst (m st) = Returns a -> resolving (snd (m st)) = resolving st.

Lemma tame_same {A} (m : Call A) : (forall st, con (snd (m st)) = con st /\ resolving (snd (m st)) = resolving st) -> tame m.
Proof. intros S st. destruct (S st) as [-> ->]. done. Qed.

Lemma tame_seq {A B} (m : Call A) (k : A -> Call B) : tame m -> (forall a, tame (k a)) -> tame (seq m k).
Proof.
  intros M K st. unfold seq. specialize (M st). destruct (m st) as [[a| |] st1]; simpl in *; [|by destruct M..].
  destruct M as [C S], (K a st1) as [C' S']. split; [by etrans|]. intros b E. rewrite (S' b E). by apply (S a).
Qed.

Lemma tame_give {A} (a : A) : tame (give a).
Proof. by apply tame_same. Qed.
Lemma tame_panic {A} : tame (@panic A).
Proof. by apply tame_same. Qed.
Lemma tame_get {A} (f : St -> A) : tame (get f).
Proof. by apply tame_same. Qed.
Lemma tame_act f : tame (act f).
Proof. by apply tame_same. Qed.

Lemma tame_modify f : (forall c, kept_con c (f c)) -> tame (modify f).
Proof. intros F st. split; [apply F|done]. Qed.

Lemma tame_bump id : tame (bump_resolution id).
Proof. apply tame_modify. intros c. by apply kept_update. Qed.

(** [seq] in the middle of an execution. *)
Lemma seq_eq {A B} (m : Call A) (k : A -> Call B) st :
  seq m k st = match m st with (Returns a, st') => k a st' | (Panics, st') => (Panics, st') | (Cut, st') => (Cut, st') end.
Proof. done. Qed.

Lemma seq_returns {A B} (m : Call A) (k : A -> Call B) st a st' : m st = (Returns a, st') -> seq m k st = k a st'.
Proof. unfold seq. by intros ->. Qed.

Section Tame.
Context (rec : RegId -> Call (Result SharedInstance ContainerError)) (Rec : forall id, tame (rec id)).

Lemma tame_run_prog {A} (p : Prog A) : tame (run_prog rec p).
Proof using Rec.
  apply (R_run_prog (fun A (m _ : Call A) => tame m)) with (rec' := rec);
    eauto using @tame_seq, @tame_give, @tame_panic, @tame_get, tame_act.
Qed.

Lemma tame_create id : tame (create_instance rec id).
Proof using Rec.
  intros st. unfold create_instance. erewrite seq_returns by done. destruct (reg_at id (con st)) as [reg|]; [|done].
  destruct (bool_decide (impl_type reg ∈ map fst (resolving st))); [done|]. erewrite seq_returns by done. simpl.
  set (st1 := mkSt _ _ _). pose proof (tame_run_prog (factory reg) st1) as [K S].
  rewrite (seq_eq (run_prog rec (factory reg)) _ st1).
  destruct (run_prog rec (factory reg) st1) as [[r| |] st2]; simpl in *; [|done..].
  specialize (S r eq_refl).
  assert (removelast (resolving st2) = resolving st) as P.
  { rewrite S. simpl. by rewrite removelast_last. }
  destruct r as [i|e]; [|done]. simpl. split; [|done]. etrans; [exact K|]. by apply kept_update.
Qed.
End Tame.

Lemma tame_resolved id i : tame (resolved id i).
Proof. apply tame_seq; [apply tame_bump|intros; apply tame_give]. Qed.

Lemma tame_seq_ok {A B} (m : Call (Result A ContainerError)) (k : A -> Call (Result B ContainerError)) :
  tame m -> (forall a, tame (k a)) -> tame (seq_ok m k).
Proof. intros M K. apply tame_seq; [done|]. intros [a|e]; [apply K|apply tame_give]. Qed.

Lemma tame_registration n id : tame (resolve_registration n id).
Proof.
  revert id. induction n as [|n IH]; intros id; [done|].
  apply tame_seq; [apply tame_get|]. intros c. destruct (reg_at id c) as [reg|]; [|apply tame_panic].
  assert (forall name, tame (built <-? via_scope_handler (resolve_registration n) id name; resolved id built)) as Via.
  { intros name. apply tame_seq_ok; [|apply tame_resolved].
    apply (R_via_scope_handler (fun A (m _ : Call A) => tame m)) with (rec' := resolve_registration n);
      eauto using @tame_seq, @tame_give, @tame_panic, @tame_get, tame_act, tame_create. }
  destruct (scope reg) as [[| | |]|name]; try apply Via.
  - apply tame_seq; [apply tame_get|]. intros [i|]; [apply tame_resolved|].
    apply tame_seq_ok; [by apply tame_create|]. intros built st.
    rewrite (seq_eq (get (cached id))). cbn [get]. destruct (cached id st) as [i|] eqn:E; [apply tame_resolved|].
    simpl. split; [|done]. etrans; [|by apply kept_update].
    apply kept_update. intros r Er. split; [done|]. unfold cached in E. rewrite Er in E. simpl in E. by rewrite E.
  - apply tame_seq_ok; [by apply tame_create|]. apply tame_resolved.
Qed.

(** ** Resolution ends *)

(** The types that may still enter the stack. *)
Definition free (st : St) : gset code :=
  list_to_set (map impl_type (store (con st))) ∖ list_to_set (map fst (resolving st)).

(** With fewer of them than [n], a call is not cut short. *)
Definition safe (n : nat) {A} (m : Call A) : Prop := forall st, (size (free st) < n)%nat -> fst (m st) <> Cut.

Lemma kept_types c c' : kept_con c c' -> map impl_type (store c) = map impl_type (store c').
Proof.
  intros [_ F]. induction F as [|r r' l l' K F IH]; [done|]. simpl. f_equal; [|done].
  by apply (kept_blank impl_type).
Qed.

Lemma tame_free {A} (m : Call A) st a : tame m -> fst (m st) = Returns a -> free (snd (m st)) = free st.
Proof. intros M E. destruct (M st) as [K S]. unfold free. by rewrite (S a E), (kept_types _ _ K). Qed.

Lemma safe_seq n {A B} (m : Call A) (k : A -> Call B) : tame m -> safe n m -> (forall a, safe n (k a)) -> safe n (seq m k).
Proof.
  intros T M K st L. rewrite seq_eq. specialize (M st L). pose proof (tame_free m st) as F.
  destruct (m st) as [[a| |] st1]; simpl in *; [|done|done]. apply K. by rewrite (F a T eq_refl).
Qed.

Definition tame_safe (n : nat) A (m _ : Call A) : Prop := tame m /\ safe n m.

Lemma tame_safe_seq n A B (m m' : Call A) (k k' : A -> Call B) :
  tame_safe n A m m' -> (forall a, tame_safe n B (k a) (k' a)) -> tame_safe n B (seq m k) (seq m' k').
Proof.
  intros [Tm Sm] K. split; [apply tame_seq; [done|]; apply K|]. apply safe_seq; [done..|]. apply K.
Qed.
Lemma tame_safe_give n A (a : A) : tame_safe n A (give a) (give a).
Proof. by split; [apply tame_give|]. Qed.
Lemma tame_safe_panic n A : tame_safe n A panic panic.
Proof. by split; [apply tame_panic|]. Qed.
Lemma tame_safe_get n A (f : St -> A) : tame_safe n A (get f) (get f).
Proof. by split; [apply tame_get|]. Qed.
Lemma tame_safe_act n f : tame_safe n unit (act f) (act f).
Proof. by split; [apply tame_act|]. Qed.

Section Safe.
Context (n : nat) (rec : RegId -> Call (Result SharedInstance ContainerError)).
Hypothesis Rec : forall id, tame_safe n _ (rec id) (rec id).

Lemma safe_run_prog {A} (p : Prog A) : safe n (run_prog rec p).
Proof using Rec.
  apply (R_run_prog (tame_safe n)) with (rec' := rec);
    eauto using tame_safe_seq, tame_safe_give, tame_safe_panic, tame_safe_get, tame_safe_act.
Qed.

(** A construction takes its type off the free ones. *)
Lemma safe_create id : safe (S n) (create_instance rec id).
Proof using Rec.
  intros st L. unfold create_instance. erewrite seq_returns by done.
  destruct (reg_at id (con st)) as [reg|] eqn:E; [|done].
  case_bool_decide as D; [done|]. erewrite seq_returns by done. simpl.
  set (st1 := mkSt _ _ _). rewrite (seq_eq (run_prog rec (factory reg)) _ st1).
  assert (fst (run_prog rec (factory reg) st1) <> Cut) as N.
  { apply safe_run_prog. assert (free st1 ⊂ free st) as Sub; [|apply subset_size in Sub; lia].
    unfold free, st1. simpl. apply list_elem_of_lookup_2 in E. split.
    - rewrite map_app, list_to_set_app_L. set_solver.
    - intros I. specialize (I (impl_type reg)). rewrite map_app, list_to_set_app_L in I. simpl in I.
      assert (impl_type reg ∈ map impl_type (store (con st))); [by apply list_elem_of_fmap_2|]. set_solver. }
  destruct (run_prog rec (factory reg) st1) as [[[i|e]| |] st2]; done.
Qed.
End Safe.

Lemma safe_seq_ok n {A B} (m : Call (Result A ContainerError)) (k : A -> Call (Result B ContainerError)) :
  tame_safe n _ m m -> (forall a, safe n (k a)) -> safe n (seq_ok m k).
Proof. intros [T M] K. apply safe_seq; [done..|]. intros [a|e]; [apply K|done]. Qed.

Lemma safe_resolved n id i : safe n (resolved id i).
Proof. by intros st _. Qed.

Lemma safe_registration n id : safe n (resolve_registration n id).
Proof.
  revert id. induction n as [|n IH]; intros id; [intros st L; lia|].
  assert (forall id, tame_safe n _ (resolve_registration n id) (resolve_registration n id)) as Rec.
  { intros i. split; [apply tame_registration|done]. }
  assert (forall i, tame_safe (S n) _ (create_instance (resolve_registration n) i) (create_instance (resolve_registration n) i)) as Create.
  { intros i. split; [|by apply safe_create]. apply tame_create, tame_registration. }
  apply safe_seq; [apply tame_get|done|]. intros c. destruct (reg_at id c) as [reg|]; [|done].
  assert (forall name, safe (S n) (built <-? via_scope_handler (resolve_registration n) id name; resolved id built)) as Via.
  { intros name. apply safe_seq_ok; [|apply safe_resolved]. apply (R_via_scope_handler (tame_safe (S n)));
      eauto using tame_safe_seq, tame_safe_give, tame_safe_panic, tame_safe_get, tame_safe_act. }
  destruct (scope reg) as [[| | |]|name]; try apply Via.
  - apply safe_seq; [apply tame_get|done|]. intros [i|]; [apply safe_resolved|]. apply safe_seq_ok; [apply Create|].
    intros built. apply safe_seq; [apply tame_get|done|]. intros [i|]; [apply safe_resolved|]. by intros st _.
  - apply safe_seq_ok; [apply Create|apply safe_resolved].
Qed.

(** ** A larger bound changes nothing *)

Definition agree A (m m' : Call A) : Prop := forall st, fst (m st) <> Cut -> m' st = m st.

Lemma agree_refl A (m : Call A) : agree A m m.
Proof. done. Qed.
Lemma agree_seq A B (m m' : Call A) (k k' : A -> Call B) :
  agree A m m' -> (forall a, agree B (k a) (k' a)) -> agree B (seq m k) (seq m' k').
Proof.
  intros M K st. rewrite !seq_eq. specialize (M st). destruct (m st) as [[a| |] st1]; simpl in *.
  - rewrite M by done. apply K.
  - by rewrite M.
  - done.
Qed.
Lemma agree_seq_ok {A B} (m m' : Call (Result A ContainerError)) (k : A -> Call (Result B ContainerError)) :
  agree _ m m' -> agree _ (seq_ok m k) (seq_ok m' k).
Proof. intros M. by apply agree_seq. Qed.

Section Agree.
Context (rec rec' : RegId -> Call (Result SharedInstance ContainerError)) (Rec : forall id, agree _ (rec id) (rec' id)).

Lemma agree_create id : agree _ (create_instance rec id) (create_instance rec' id).
Proof using Rec.
  unfold create_instance. apply agree_seq; [done|]. intros st.
  destruct (reg_at id (con st)) as [reg|]; [|done]. case_bool_decide; [done|]. apply agree_seq; [done|]. intros _.
  apply agree_seq; [|done]. apply (R_run_prog agree); auto using agree_refl, agree_seq.
Qed.

Lemma agree_level id : agree _ (resolve_level rec id) (resolve_level rec' id).
Proof using Rec.
  apply agree_seq; [done|]. intros c. destruct (reg_at id c) as [reg|]; [|done].
  assert (forall name, agree _ (built <-? via_scope_handler rec id name; resolved id built) (built <-? via_scope_handler rec' id name; resolved id built)) as Via.
  { intros name. apply agree_seq_ok. apply (R_via_scope_handler agree); auto using agree_refl, agree_seq, agree_create. }
  destruct (scope reg) as [[| | |]|name]; try apply Via.
  - apply agree_seq; [done|]. intros [i|]; [done|]. apply agree_seq_ok, agree_create.
  - apply agree_seq_ok, agree_create.
Qed.
End Agree.

Lemma agree_registration n k id : agree _ (resolve_registration n id) (resolve_registration (n + k) id).
Proof.
  revert id. induction n as [|n IH]; intros id; [by intros st N|]. by apply agree_level.
Qed.

Lemma size_of_list (l : list code) : (size (list_to_set l : gset code) <= List.length l)%nat.
Proof.
  induction l as [|x l IH]; [done|]. simpl. rewrite size_union_alt, size_singleton.
  pose proof (subseteq_size ((list_to_set l : gset code) ∖ {[x]}) (list_to_set l) ltac:(set_solver)). lia.
Qed.

Lemma free_nesting st : (size (free st) < nesting st)%nat.
Proof.
  unfold free, nesting. apply Nat.lt_succ_r. etrans; [apply subseteq_size, subseteq_difference_l; reflexivity|].
  etrans; [apply size_of_list|]. by rewrite length_map.
Qed.

Lemma tame_run {A} (p : Prog A) : tame (run p).
Proof.
  intros st. apply (R_run_prog (fun A (m _ : Call A) => tame m)) with (rec := resolve_registration (nesting st)) (rec' := resolve_registration (nesting st));
    eauto using @tame_seq, @tame_give, @tame_panic, @tame_get, tame_act, tame_registration.
Qed.

Lemma tame_resolve T : tame (resolve T).
Proof.
  intros st. apply (R_resolve_with (fun A (m _ : Call A) => tame m)) with (rec := resolve_registration (nesting st)) (rec' := resolve_registration (nesting st));
    eauto using @tame_seq, @tame_give, @tame_panic, @tame_get, tame_registration.
Qed.

(** C24 Whatever its factories do, also when they depend on each other in a
    circle, resolving a bean ends: the nesting of constructions stays within the
    number of registrations. No further bound changes the result, and the stack
    of beans under construction is what it was, unless a factory panicked. A
    factory here acts on the world, resolves, returns or panics; it does not
    register beans or reset them. *)
Theorem resolution_ends T st :
  fst (resolve T st) <> Cut /\
  (forall k, resolve_with (resolve_registration (nesting st + k)) T st = resolve T st) /\
  (fst (resolve T st) = Panics \/ resolving (snd (resolve T st)) = resolving st).
Proof.
  assert (forall id, tame_safe (nesting st) _ (resolve_registration (nesting st) id) (resolve_registration (nesting st) id)) as Rec.
  { intros id. split; [apply tame_registration|apply safe_registration]. }
  assert (fst (resolve T st) <> Cut) as Ends.
  { apply (R_resolve_with (tame_safe (nesting st))) with (rec := resolve_registration (nesting st)) (rec' := resolve_registration (nesting st));
      eauto using tame_safe_seq, tame_safe_give, tame_safe_panic, tame_safe_get. apply free_nesting. }
  split_and!; [done| |].
  - intros k. apply (R_resolve_with agree); auto using agree_refl, agree_seq. intros id. apply agree_registration.
  - destruct (fst (resolve T st)) as [a| |] eqn:E; [right|by left|done].
    by apply (tame_resolve T st) in E.
Qed.

(** ** One instance of a singleton *)

Lemma kept_fields c c' : kept_con c c' ->
  by_type c = by_type c' /\ by_name c = by_name c' /\ type_names c = type_names c' /\ scopes c = scopes c'.
Proof. intros [E _]. unfold with_store in E. by injection E. Qed.

Lemma choose_kept T c c' : kept_con c c' -> choose_entry T c' = choose_entry T c.
Proof.
  intros K. destruct (kept_fields _ _ K) as (Et & _ & En & _).
  assert (forall e, is_primary c' e = is_primary c e) as P.
  { intros e. symmetry. apply kept_map; [|done]. intros r r'. by apply kept_blank. }
  assert (forall e, entry_name c' e = entry_name c e) as D.
  { intros e. symmetry. apply kept_map; [|done]. intros r r'. by apply kept_blank. }
  unfold choose_entry, names_like. rewrite Et, En. destruct (by_type c' !! T) as [[|e [|e' l]]|]; try done.
  rewrite (filter_ext (fun ie => is_primary c' (snd ie)) (fun ie => is_primary c (snd ie))) by auto.
  by rewrite (map_ext (entry_name c') (entry_name c)) by auto.
Qed.

Lemma caster_kept T index c c' : kept_con c c' -> caster_at T index c' = caster_at T index c.
Proof. intros K. destruct (kept_fields _ _ K) as (Et & _). unfold caster_at. by rewrite Et. Qed.

Definition singleton (id : RegId) c : Prop := exists reg, reg_at id c = Some reg /\ scope reg = Builtin Singleton.

Lemma singleton_kept id c c' : kept_con c c' -> singleton id c -> singleton id c'.
Proof.
  intros K (reg & E & S). destruct (kept_reg_at _ _ _ _ K E) as (reg' & E' & Kr). exists reg'. split; [done|].
  rewrite <- S. symmetry. by apply (kept_blank scope).
Qed.

Lemma cached_kept id st c' i : kept_con (con st) c' -> cached id st = Some i -> reg_at id c' ≫= instance = Some i.
Proof.
  intros K. unfold cached. destruct (reg_at id (con st)) as [reg|] eqn:E; [|done].
  destruct (kept_reg_at _ _ _ _ K E) as (reg' & -> & _ & I). apply I.
Qed.

Lemma resolved_run id i st : resolved id i st = (Returns (Ok i), snd (bump_resolution id st)).
Proof. done. Qed.

Lemma cached_resolves n id st i : singleton id (con st) -> cached id st = Some i ->
  resolve_registration (S n) id st = (Returns (Ok i), snd (bump_resolution id st)).
Proof.
  intros (reg & E & S) C. cbn [resolve_registration]. unfold resolve_level. erewrite seq_returns by done.
  rewrite E, S. erewrite seq_returns by done. by rewrite C.
Qed.

Lemma bump_cached id st i : cached id st = Some i -> cached id (snd (bump_resolution id st)) = Some i.
Proof. intros C. apply (cached_kept id st); [|done]. apply tame_bump. Qed.

Lemma singleton_stored n id st i st' : singleton id (con st) ->
  resolve_registration n id st = (Returns (Ok i), st') -> cached id st' = Some i.
Proof.
  intros (reg & E & S). destruct n as [|n]; [done|]. cbn [resolve_registration]. unfold resolve_level.
  erewrite seq_returns by done. rewrite E, S. erewrite seq_returns by done.
  destruct (cached id st) as [i0|] eqn:C; [rewrite resolved_run; intros [= <- <-]; by apply bump_cached|].
  unfold seq_ok. rewrite seq_eq. pose proof (tame_create _ (tame_registration n) id st) as [K _].
  destruct (create_instance (resolve_registration n) id st) as [[[b|e]| |] st1]; try done.
  erewrite seq_returns by done.
  destruct (cached id st1) as [i0|] eqn:C1; [rewrite resolved_run; intros [= <- <-]; by apply bump_cached|].
  erewrite seq_returns by done. rewrite resolved_run. intros [= <- <-].
  apply (bump_cached id (snd (modify (update_reg id (set_instance (Some b))) st1))).
  destruct (kept_reg_at _ _ _ _ K E) as (reg' & E' & _). unfold cached. simpl.
  simpl in E'. by rewrite reg_at_update, E'.
Qed.

Lemma apply_caster_run T index shared st : apply_caster T index shared st =
  (match caster_at T index (con st) with
   | None => Panics
   | Some caster => Returns match caster shared with
                            | None => Err (no_such_type (type_name T) (names_like T (con st)))
                            | Some erased => downcast_arc T erased end
   end, st).
Proof.
  unfold apply_caster. erewrite seq_returns by done. destruct (caster_at T index (con st)) as [caster|]; [|done].
  by destruct (caster shared).
Qed.

(** A successful resolution leaves the instance it gives in the registration, and
    a later one of that registration reads it there. *)
Lemma resolve_caches T st id index a st1 :
  choose_entry T (con st) = Ok (id, index) -> singleton id (con st) -> resolve T st = (Returns (Ok a), st1) ->
  exists i caster erased, cached id st1 = Some i /\ caster_at T index (con st) = Some caster /\
    caster i = Some erased /\ downcast_arc T erased = Ok a.
Proof.
  intros Ch Si. unfold resolve, resolve_with. erewrite seq_returns by done. rewrite Ch. unfold seq_ok. rewrite seq_eq.
  pose proof (tame_registration (nesting st) id st) as [K _]. pose proof (singleton_stored (nesting st) id st) as Sto.
  destruct (resolve_registration (nesting st) id st) as [[[i|e]| |] st0]; try done. simpl in K.
  specialize (Sto i st0 Si eq_refl). rewrite apply_caster_run, (caster_kept _ _ _ _ K).
  destruct (caster_at T index (con st)) as [caster|] eqn:Ca; [|done].
  destruct (caster i) as [erased|] eqn:Er; [|done]. intros [= Da <-]. by exists i, caster, erased.
Qed.

Lemma resolve_cached T st id index a i caster erased :
  choose_entry T (con st) = Ok (id, index) -> singleton id (con st) -> cached id st = Some i ->
  caster_at T index (con st) = Some caster -> caster i = Some erased -> downcast_arc T erased = Ok a ->
  fst (resolve T st) = Returns (Ok a).
Proof.
  intros Ch Si C Ca Er Da. unfold resolve, resolve_with. erewrite seq_returns by done. rewrite Ch. unfold seq_ok. rewrite seq_eq.
  unfold nesting at 1. rewrite (cached_resolves _ id st i Si C), apply_caster_run.
  pose proof (tame_bump id st) as [Kb _]. by rewrite (caster_kept _ _ _ _ Kb), Ca, Er, Da.
Qed.

(** ** Which registration is chosen *)

Lemma imap_pair_snd {A} (l : list A) : map snd (imap pair l) = l.
Proof.
  assert (forall k, map snd (imap (fun i => pair (k + i)%nat) l) = l) as G; [|exact (G 0%nat)].
  induction l as [|x l IH]; intros k; [done|]. simpl. f_equal. erewrite imap_ext; [apply (IH (S k))|].
  intros i y _. simpl. f_equal. lia.
Qed.

Lemma filter_indexed {A} (p : A -> bool) (l : list (nat * A)) :
  map snd (List.filter (fun ie => p (snd ie)) l) = List.filter p (map snd l).
Proof. induction l as [|[i x] l IH]; [done|]. simpl. destruct (p x); simpl; by rewrite IH. Qed.

(** Which bean [resolve] takes: none when nothing is registered or bound
    under the type; the only one; among several, the primary one when exactly one
    is primary, and otherwise an error that names them all, in the order they
    were registered. *)
Theorem entry_chosen T c :
  match default [] (by_type c !! T) with
  | [] => choose_entry T c = Err (no_such_type (type_name T) (names_like T c))
  | [e] => choose_entry T c = Ok (registration e, 0%nat)
  | entries =>
      match List.filter (is_primary c) entries with
      | [e] => exists i, entries !! i = Some e /\ choose_entry T c = Ok (registration e, i)
      | _ => choose_entry T c = Err (NoUniqueBean (type_name T) (map (entry_name c) entries))
      end
  end.
Proof.
  unfold choose_entry. destruct (by_type c !! T) as [[|e [|e' l]]|]; try done. simpl default. cbv match.
  set (entries := e :: e' :: l). clearbody entries.
  assert (List.filter (is_primary c) entries = map snd (List.filter (fun ie => is_primary c (snd ie)) (imap pair entries))) as ->
    by by rewrite filter_indexed, imap_pair_snd.
  destruct (List.filter (fun ie => is_primary c (snd ie)) (imap pair entries)) as [|[i x] [|y r]] eqn:F; [done| |done].
  exists i. split; [|done]. assert (In (i, x) (imap pair entries)) as I.
  { apply (filter_In (fun ie => is_primary c (snd ie))). rewrite F. by left. }
  apply list_elem_of_In, list_elem_of_lookup in I as (j & J). rewrite list_lookup_imap in J.
  destruct (entries !! j) eqn:E; [|done]. by injection J as <- <-.
Qed.
End Container.

Arguments Return {_ _ A} a. Arguments Panic {_ _ A}. Arguments Act {_ _ A} f k. Arguments Resolve {_ _ A} T k.
Arguments ResolveNamed {_ _ A} T name k. Arguments ResolveErased {_ _ A} name k. Arguments ResolveAll {_ _ A} T k.
Arguments mkArc {_ T} addr deref. Arguments addr {_ T} _. Arguments deref {_ T} _.

(** * A concrete application

    Types are numbered, their values are numbers, and the world is the allocator
    and the cache of a refresh scope. *)
Module Demo.

#[export] Instance numbered : Universe :=
  { code := nat; denote := fun _ => N; type_name := fun T => lit "app::T" ++ show (Z.of_nat T) }.

Record World : Type := mkWorld { next : positive; cache : gmap str SharedInstance }.
Definition allocate (w : World) : positive * World := (next w, mkWorld (Pos.succ (next w)) (cache w)).
Definition put_cache (c : gmap str SharedInstance) (w : World) : World := mkWorld (next w) c.
Definition start : World := mkWorld 1 ∅.
Definition still (w : World) : Z := 0.
Definition quoted (s : str) : str := [34%N] ++ s ++ [34%N].

Definition constant (n : N) : Prog (W := World) (Result N ContainerError) := Return (Ok n).
(** A factory that adds one to the bean it depends on. *)
Definition above (T : nat) : Prog (W := World) (Result N ContainerError) :=
  Resolve T (fun r => Return (match r with Ok a => Ok (deref a + 1)%N | Err e => Err e end)).
Definition above_named (T : nat) (name : str) : Prog (W := World) (Result N ContainerError) :=
  ResolveNamed T name (fun r => Return (match r with Ok a => Ok (deref a + 1)%N | Err e => Err e end)).
Definition explode : Prog (W := World) (Result N ContainerError) := Panic.

Abbreviation factory_of T s f := (register_factory allocate T s f).
Definition fresh (c : Container (W := World)) : St := mkSt c start [].
Definition result {A} (o : Outcome (Result (Arc A) ContainerError) * St (W := World)) : option (Result (positive * N) ContainerError) :=
  match fst o with
  | Returns (Ok a) => Some (Ok (addr a, deref a))
  | Returns (Err e) => Some (Err e)
  | _ => None
  end.
Definition ask (T : nat) (st : St (W := World)) := resolve still quoted T st.

Definition service : Container :=
  factory_of 1%nat Singleton (above 2%nat) (factory_of 2%nat Singleton (constant 41) container_new).

(** Beans that depend on each other in a circle. *)
Example circle_is_reported :
  result (ask 1%nat (fresh (factory_of 1%nat Singleton (above 2%nat) (factory_of 2%nat Transient (above 1%nat) container_new)))) =
    Some (Err (CircularDependency [lit "app::T1"; lit "app::T2"] (lit "app::T1"))).
Proof. vm_compute. reflexivity. Qed.

(** Two beans of a type, one built from the other, are taken for a circle: the
    stack is searched by type. *)
Example sibling_is_a_circle :
  result (resolve_named still quoted 1%nat (lit "outer")
    (fresh (register_factory_named allocate 1%nat Singleton (lit "outer") (above_named 1%nat (lit "inner"))
      (register_factory_named allocate 1%nat Singleton (lit "inner") (constant 1) container_new)))) =
    Some (Err (CircularDependency [lit "app::T1"] (lit "app::T1"))).
Proof. vm_compute. reflexivity. Qed.

(** A factory that panicked stays on the stack of its thread: the type cannot be
    built there any more. *)
Example panic_poisons_thread :
  let c := factory_of 1%nat Transient (Act (fun w => mkWorld (Pos.succ (next w)) (cache w))
    (fun w => if (next w =? 1)%positive then explode else constant 7)) container_new in
  let after := snd (ask 1%nat (fresh c)) in
  fst (ask 1%nat (fresh c)) = Panics /\
  result (ask 1%nat after) = Some (Err (CircularDependency [lit "app::T1"] (lit "app::T1"))) /\
  result (ask 1%nat (mkSt (con after) (world after) [])) = Some (Ok (3%positive, 7%N)).
Proof. vm_compute. repeat split; reflexivity. Qed.

(** A scope keeps beans under the name of their type: two beans of a type in one
    scope are one. *)
Definition refreshed : Container :=
  snd (register_scope quoted REFRESH_SCOPE_NAME (refresh_scope cache put_cache)
    (register_factory_scoped allocate 1%nat (Custom REFRESH_SCOPE_NAME) (lit "a") (constant 10)
      (register_factory_scoped allocate 1%nat (Custom REFRESH_SCOPE_NAME) (lit "b") (constant 20) container_new))).
Example scope_confuses_names :
  let st := snd (resolve_named still quoted 1%nat (lit "a") (fresh refreshed)) in
  result (resolve_named still quoted 1%nat (lit "b") st) = Some (Ok (1%positive, 10%N)) /\
  result (resolve_named still quoted 1%nat (lit "b") (fresh refreshed)) = Some (Ok (1%positive, 20%N)).
Proof. vm_compute. split; reflexivity. Qed.

(** Registering a type again leaves the interface bound to the registration that
    was replaced. *)
Example binding_is_stale :
  let view (a : Arc 1%nat) : Arc 9%nat := mkArc (T := 9%nat) (addr a) (deref a) in
  match bind 9%nat 1%nat view (factory_of 1%nat Singleton (constant 1) container_new) with
  | Some c =>
      let c := factory_of 1%nat Singleton (constant 2) c in
      result (ask 9%nat (fresh c)) = Some (Ok (1%positive, 1%N)) /\ result (ask 1%nat (fresh c)) = Some (Ok (1%positive, 2%N))
  | None => False
  end.
Proof. vm_compute. split; reflexivity. Qed.

End Demo.
