(* ===== verification/ContainerScan.v ===== *)
(** The container's life: asynchronous beans, scanning, introspection, teardown
    and injected values ([crates/container/src/lib.rs], [scan.rs], [value.rs]),
    over [Container.v].

    The thunk of a component is a function on containers; [run_registrar] is what
    the derives of [crates/macros/src] write into it. *)
From Stdlib Require Import Ascii String.
From Stdlib Require Import ZArith NArith List Lia Sorting.Sorted.
From stdpp Require Import base decidable list gmap.
From S2P Require Import Prelude Str Order AnyType Suggestions ContainerConditions Container.

Notation "x <-- m ; k" := (seq m (fun x => k)) (at level 100, m at next level, right associativity).

Section Life.
Context `{Universe} {W : Type}.
Context (alloc : W -> positive * W) (clock : W -> Z) (debug : str -> str).
Implicit Type c : Container (W := W).

(** * Asynchronous beans *)

(** A parked initializer builds its bean and installs it. *)
Definition run_init (init : AsyncInit (W := W)) : Call (Result unit ContainerError) :=
  built <-- run clock debug (ai_factory init);
  match map_err (fun e => bean_creation (ai_name init) (error_to_string e)) built with
  | Err e => give (Err e)
  | Ok value =>
      w <-- get world;
      _ <-- act (fun w => snd (alloc w));
      _ <-- modify (fun c =>
        set_dependencies (ai_type init) (ai_dependencies init)
          (set_stereotype (ai_type init) (ai_stereotype init)
            (register_singleton_arc (mkArc (fst (alloc w)) value) (ai_scope init) (ai_name init) (ai_primary init) (ai_order init) c)));
      give (Ok tt)
  end.

Fixpoint run_inits (inits : list (AsyncInit (W := W))) : Call (Result unit ContainerError) :=
  match inits with
  | [] => give (Ok tt)
  | init :: inits =>
      r <-- run_init init;
      match r with Err e => give (Err e) | Ok _ => run_inits inits end
  end.

(** The pending list is taken before anything runs. *)
Definition init_async_beans : Call (Result unit ContainerError) :=
  c <-- get con;
  _ <-- modify (with_async_inits []);
  run_inits (sort_by (fun a b => Z.compare (ai_order a) (ai_order b)) (async_inits c)).

(** * Introspection *)

Definition contains_type (T : code) c : bool := bool_decide (is_Some (by_type c !! T)).
Definition contains (name : str) c : bool := bool_decide (is_Some (by_name c !! name)).
Definition registered_types c : list str := type_names c.

(** The registrations of a type under that type. *)
Definition own_entries (T : code) c : list RegId :=
  List.filter (fun id => match reg_at id c with Some reg => bool_decide (impl_type reg = T) | None => false end)
    (map registration (default [] (by_type c !! T))).
Definition reset_instance (T : code) c : bool * Container :=
  let own := own_entries T c in
  (existsb (fun id => match reg_at id c with Some reg => bool_decide (is_Some (instance reg)) | None => false end) own,
   fold_left (fun c id => update_reg id (set_instance None) c) own c).
Definition bean_metrics (T : code) c : option BeanMetrics := id ← head (own_entries T c); metrics <$> reg_at id c.

Record BeanDescriptor : Type := mkDescriptor {
  bd_name : str;
  bd_type_name : str;
  bd_scope : str;
  bd_stereotype : option str;
  bd_primary : bool;
  bd_initialized : bool;
  bd_resolution_count : Z;
  bd_dependencies : list str
}.
Definition describe (reg : Registration (W := W)) : BeanDescriptor :=
  mkDescriptor (display_name reg) (r_type_name reg) (spec_name (scope reg)) (stereotype reg) (primary reg)
    (bool_decide (is_Some (instance reg))) (resolution_count (metrics reg)) (dependencies reg).
Definition registrations c : list (Registration (W := W)) := omap (fun id => reg_at id c) (registered c).
Definition beans c : list BeanDescriptor := map describe (registrations c).

Record BeanStats : Type := mkBeanStats { total : nat; stereotypes : gmap str nat }.
Definition bean_stats c : BeanStats :=
  mkBeanStats (List.length (registered c))
    (fold_left (fun m reg => let label := default (lit "component") (stereotype reg) in <[label := S (default 0%nat (m !! label))]> m)
      (registrations c) ∅).
Definition bean_count c : nat := List.length (registered c).

(** * Teardown *)

Fixpoint run_hooks (ids : list RegId) (seen : list positive) c (w : W) : option W :=
  match ids with
  | [] => Some w
  | id :: ids =>
      match reg_at id c with
      | None => Some w
      | Some reg =>
          match instance reg with
          | None => run_hooks ids seen c w
          | Some i =>
              if bool_decide (as_ptr i ∈ seen) then run_hooks ids seen c w
              else
                let seen := seen ++ [as_ptr i] in
                match destroy_hook reg with
                | None => run_hooks ids seen c w
                | Some hook => w ← hook i w; run_hooks ids seen c w
                end
          end
      end
  end.

(** [None] is the panic of a hook. *)
Definition destroy c (w : W) : option (Container * W) :=
  w ← run_hooks (rev (registered c)) [] c w;
  Some (fold_left (fun c id => update_reg id (set_instance None) c) (registered c) c, w).

(** * Scanning *)

Inductive Stereotype : Type := Component | Service | Repository | Configuration | AutoConfiguration | Controller | ConfigProperties | Bean.
Definition label (s : Stereotype) : str :=
  match s with
  | Component => lit "component" | Service => lit "service" | Repository => lit "repository"
  | Configuration => lit "configuration" | AutoConfiguration => lit "autoconfiguration" | Controller => lit "controller"
  | ConfigProperties => lit "config_properties" | Bean => lit "bean"
  end.

Record ComponentRegistration : Type := mkComponent {
  cr_type_name : str;
  cr_module_path : str;
  cr_bean_name : str;
  cr_stereotype : Stereotype;
  cr_scope : Scope;
  cr_primary : bool;
  cr_order : Z;
  cr_lazy : bool;
  cr_register : Container (W := W) -> Container (W := W);
  cr_conditions : list Condition
}.

Definition in_base_packages (module_path : str) (base_packages : list str) : bool :=
  existsb (fun pkg =>
    str_eqb module_path pkg ||
    match strip_prefix pkg module_path with Some rest => starts_with (lit "::") rest | None => false end) base_packages.

Definition count_assignable_by_name (name : str) c : nat :=
  List.length (List.filter (fun reg => str_eqb (short_name (r_type_name reg)) (short_name name)) (registrations c)).

Definition eval_bean_conditions (conditions : list Condition) c : bool :=
  forallb (fun cond =>
    match cond with
    | OnBean ty => (0 <? count_assignable_by_name ty c)%nat
    | OnMissingBean ty => (count_assignable_by_name ty c =? 0)%nat
    | OnSingleCandidate ty => (count_assignable_by_name ty c =? 1)%nat
    | _ => true
    end) conditions.

Definition deferred_component (r : ComponentRegistration) : bool := existsb is_bean_dependent (cr_conditions r).

Definition register_immediate (l : list ComponentRegistration) c : Container := fold_left (fun c r => cr_register r c) l c.
Fixpoint register_deferred (l : list ComponentRegistration) (count : nat) c : nat * Container :=
  match l with
  | [] => (count, c)
  | r :: l =>
      if eval_bean_conditions (cr_conditions r) c then register_deferred l (S count) (cr_register r c)
      else register_deferred l count c
  end.

Definition survivors (all : list ComponentRegistration) c : list ComponentRegistration :=
  sort_by (fun a b => Z.compare (cr_order a) (cr_order b)) (List.filter (fun r => pass1 (cr_conditions r) (conditions c)) all).
Definition register_scanned (all : list ComponentRegistration) c : nat * Container :=
  let ordered := survivors all c in
  let immediate := List.filter (fun r => negb (deferred_component r)) ordered in
  let deferred := List.filter deferred_component ordered in
  register_deferred deferred (List.length immediate) (register_immediate immediate c).

(** [discovered] is what the crates of the program submit. *)
Context (discovered : list ComponentRegistration).
Definition scan_with (ctx : ConditionContext) c : nat * Container := register_scanned discovered (set_condition_context ctx c).
Definition scan c : nat * Container := scan_with (conditions c) c.
Definition scan_packages_with (ctx : ConditionContext) (base_packages : list str) c : nat * Container :=
  register_scanned (List.filter (fun r => in_base_packages (cr_module_path r) base_packages) discovered) (set_condition_context ctx c).
Definition scan_packages (base_packages : list str) c : nat * Container := scan_packages_with (conditions c) base_packages c.

Definition config_properties (prefix : str) c : gmap str str := properties_with_prefix prefix (conditions c).

(** * Injected values *)

Definition resolve_placeholder (expr : str) (lookup : str -> option str) : Result str ContainerError :=
  let trimmed := trim expr in
  match strip_prefix (lit "${") trimmed ≫= strip_suffix (lit "}") with
  | None => Ok trimmed
  | Some inner =>
      match split_once 58%N inner with
      | Some (key, default_) => Ok (default default_ (lookup (trim key)))
      | None =>
          let key := trim inner in
          ok_or (lookup key) (NoSuchBean None (Some key) None
            (Some (lit "config key " ++ debug key ++ lit " not found and no default provided in #[firefly(value = " ++ debug expr ++ lit ")]")) [])
      end
  end.

(** [parse] is the type's [FromStr], with its error rendered. *)
Definition resolve_value {T : Type} (parse : str -> Result T str) (type_name : str) c (expr : str) : Result T ContainerError :=
  raw <-? resolve_placeholder expr (fun key => property key (conditions c));
  map_err (fun e => NoSuchBean (Some type_name) None None
    (Some (lit "#[firefly(value = " ++ debug expr ++ lit ")] resolved to " ++ debug raw ++ lit ", which failed to parse as " ++ type_name ++ lit ": " ++ e)) [])
    (parse raw).

End Life.

(** * Theorems *)

(** ** The registries agree *)

Section Registries.
Context `{Universe} {W : Type}.
Implicit Type c : Container (W := W).

Definition key_at (id : RegId) c : option (code * str) := (fun reg => (impl_type reg, r_name reg)) <$> reg_at id c.
Definition entries_of (T : code) c : list TypeEntry := default [] (by_type c !! T).

(** A registration is listed once, no two of one type share a name, each is found
    under its type; a name leads to a listed registration of that name; no entry
    dangles; and a registration carries the name of its type. *)
Record consistent c : Prop := {
  listed_once : NoDup (registered c);
  listed_found : forall id, id ∈ registered c ->
    exists T name, key_at id c = Some (T, name) /\ id ∈ map registration (entries_of T c);
  listed_apart : forall id id' k, id ∈ registered c -> id' ∈ registered c ->
    key_at id c = Some k -> key_at id' c = Some k -> id = id';
  named_listed : forall name id, by_name c !! name = Some id ->
    name <> [] /\ id ∈ registered c /\ exists T, key_at id c = Some (T, name);
  entries_exist : forall T id, id ∈ map registration (entries_of T c) -> is_Some (key_at id c);
  types_named : forall id reg, reg_at id c = Some reg -> r_type_name reg = type_name (impl_type reg)
}.

Lemma new_consistent : consistent (container_new (W := W)).
Proof.
  split; simpl; unfold entries_of; simpl; rewrite ?lookup_empty; try setoid_rewrite lookup_empty; simpl; try set_solver.
  constructor.
Qed.

(** The parts the registries are made of. *)
Definition same_shape c c' : Prop :=
  (forall id, key_at id c' = key_at id c /\ r_type_name <$> reg_at id c' = r_type_name <$> reg_at id c) /\ by_type c' = by_type c /\ by_name c' = by_name c /\ registered c' = registered c.

Lemma shape_consistent c c' : same_shape c c' -> consistent c -> consistent c'.
Proof.
  intros (S & T & N & R) C. assert (forall id, key_at id c' = key_at id c) as K by apply S.
  split; [..|intros id reg E]; unfold entries_of; rewrite ?R, ?N, ?T; try setoid_rewrite K; try apply C.
  destruct (S id) as [Ki Ti]. unfold key_at in Ki. rewrite E in Ki, Ti. destruct (reg_at id c) as [reg0|] eqn:E0; [|done].
  injection Ki as -> _. injection Ti as ->. by apply (types_named _ C id).
Qed.

#[export] Instance shape_preorder : PreOrder same_shape.
Proof.
  split; [done|]. intros a b d (K & T & N & R) (K' & T' & N' & R').
  split_and!; [|congruence..]. intros id. destruct (K id) as [<- <-]. apply K'.
Qed.

Lemma kept_shape c c' : kept_con c c' -> same_shape c c'.
Proof.
  intros K. pose proof K as [E _]. unfold with_store in E. injection E as E1 E2 E3 E4 E5 E6 E7.
  split_and!; [|congruence..]. intros id. unfold key_at.
  destruct (reg_at id c) as [reg|] eqn:A.
  - destruct (kept_reg_at _ _ _ _ K A) as (reg' & -> & Kr). simpl.
    split; [do 2 f_equal|f_equal]; symmetry; by apply kept_blank.
  - by rewrite (kept_reg_at_none _ _ _ K A).
Qed.

Lemma update_shape id f c : (forall reg, impl_type (f reg) = impl_type reg /\ r_name (f reg) = r_name reg /\ r_type_name (f reg) = r_type_name reg) ->
  same_shape c (update_reg id f c).
Proof.
  intros F. split_and!; [|done..]. intros j. unfold key_at. destruct (decide (j = id)) as [->|N].
  - rewrite reg_at_update. destruct (reg_at id c) as [reg|]; [|done]. simpl. by destruct (F reg) as (-> & -> & ->).
  - unfold reg_at, update_reg. simpl. by rewrite list_lookup_alter_ne.
Qed.

Lemma updates_shape ids f c : (forall reg, impl_type (f reg) = impl_type reg /\ r_name (f reg) = r_name reg /\ r_type_name (f reg) = r_type_name reg) ->
  same_shape c (fold_left (fun c id => update_reg id f c) ids c).
Proof.
  intros F. revert c. induction ids as [|id ids IH]; intros c; [done|]. simpl. etrans; [by apply (update_shape id)|apply IH].
Qed.

Lemma latest_shape T f c : (forall reg, impl_type (f reg) = impl_type reg /\ r_name (f reg) = r_name reg /\ r_type_name (f reg) = r_type_name reg) ->
  same_shape c (on_latest T f c).
Proof. intros F. unfold on_latest. destruct (latest_of T c); [by apply update_shape|done]. Qed.

Lemma is_bean_key T name c id : is_bean T name c id = true <-> key_at id c = Some (T, name).
Proof.
  unfold is_bean, key_at. destruct (reg_at id c) as [reg|]; [|done]. simpl.
  rewrite andb_true_iff, !bool_decide_eq_true. naive_solver.
Qed.

Section Publish.
Context (T : code) (reg : Registration (W := W)) (cast : Caster) (c : Container (W := W)) (C : consistent c).
Context (Ty : impl_type reg = T) (Na : r_type_name reg = type_name T).
Abbreviation new := (List.length (store c)).
Abbreviation c' := (snd (publish T reg cast c)).

Lemma publish_key id : key_at id c' = if decide (id = new) then Some (T, r_name reg) else key_at id c.
Proof using Ty.
  unfold key_at, reg_at. simpl. case_decide as D.
  - subst id. rewrite list_lookup_middle by done. simpl. by rewrite Ty.
  - destruct (decide (id < new)%nat) as [L|L]; [by rewrite lookup_app_l|].
    rewrite (proj2 (lookup_ge_None _ _)), (proj2 (lookup_ge_None _ _)); [done| |]; rewrite ?length_app; simpl; lia.
Qed.

Lemma key_old id k : key_at id c = Some k -> id <> new.
Proof. unfold key_at, reg_at. intros K ->. by rewrite (proj2 (lookup_ge_None _ _)) in K. Qed.

Lemma publish_listed id : id ∈ registered c' <-> (id ∈ registered c /\ key_at id c <> Some (T, r_name reg)) \/ id = new.
Proof.
    simpl. rewrite elem_of_app, list_elem_of_singleton, list_elem_of_In, filter_In, <- list_elem_of_In.
  rewrite negb_true_iff, <- not_true_iff_false, is_bean_key. tauto.
Qed.

Lemma publish_entries T' id : id ∈ map registration (entries_of T' c') <->
  (id ∈ map registration (entries_of T' c) /\ (T' = T -> key_at id c <> Some (T, r_name reg))) \/ (T' = T /\ id = new).
Proof.
    unfold entries_of. simpl. destruct (decide (T' = T)) as [->|N].
  - rewrite lookup_insert_eq. simpl. rewrite map_app. simpl map. rewrite elem_of_app, list_elem_of_singleton.
    rewrite !list_elem_of_In, !in_map_iff. split.
    + intros [(e & <- & [I B]%filter_In)|]; [|tauto]. left.
      rewrite negb_true_iff, <- not_true_iff_false, is_bean_key in B. split; [eauto|done].
    + intros [[(e & <- & I) B]|]; [|tauto]. left. exists e. split; [done|]. apply filter_In. split; [done|].
      rewrite negb_true_iff, <- not_true_iff_false, is_bean_key. auto.
  - rewrite lookup_insert_ne by done. split; [|tauto]. intros I. left. by split.
Qed.

Lemma publish_consistent : consistent c'.
Proof using C Na Ty.
  destruct C as [Once Found Apart Named Exist Typed]. split.
  - simpl. apply NoDup_app. split_and!.
    + apply NoDup_ListNoDup, List.NoDup_filter, NoDup_ListNoDup, Once.
    + intros id I ->%list_elem_of_singleton. apply list_elem_of_In, filter_In in I as [I _].
      apply list_elem_of_In, Found in I as (T0 & n & K & _). by apply key_old in K.
    + apply NoDup_singleton.
  - intros id [[I N]| ->]%publish_listed.
    + destruct (Found id I) as (T0 & n & K & E). exists T0, n. rewrite publish_key, decide_False by by eapply key_old.
      split; [done|]. apply publish_entries. left. split; [done|]. by intros ->.
    + exists T, (r_name reg). rewrite publish_key, decide_True by done. split; [done|]. apply publish_entries. by right.
  - intros id id' k [[I N]| ->]%publish_listed [[I' N']| ->]%publish_listed; rewrite !publish_key.
    + destruct (Found id I) as (T0 & n & K & _), (Found id' I') as (T1 & n1 & K1 & _).
      rewrite !decide_False by by eapply key_old. by apply Apart.
    + destruct (Found id I) as (T0 & n & K & _). rewrite decide_False by by eapply key_old. rewrite decide_True by done.
      intros E [= <-]. by destruct N.
    + destruct (Found id' I') as (T0 & n & K & _). rewrite decide_True by done. rewrite decide_False by by eapply key_old.
      intros [= <-] E. by destruct N'.
    + done.
  - intros name id. change (by_name c') with (if bool_decide (r_name reg = []) then by_name c else <[r_name reg := new]> (by_name c)).
    case_bool_decide as D.
    + intros B. destruct (Named name id B) as (N & I & T0 & K). split; [done|]. split.
      * apply publish_listed. left. split; [done|]. rewrite K, D. congruence.
      * exists T0. by rewrite publish_key, decide_False by by eapply key_old.
    + destruct (decide (r_name reg = name)) as [<-|N].
      * rewrite lookup_insert_eq. intros [= <-]. split; [done|]. split; [apply publish_listed; by right|].
        exists T. by rewrite publish_key, decide_True.
      * rewrite lookup_insert_ne by done. intros B. destruct (Named name id B) as (N0 & I & T0 & K). split; [done|]. split.
        -- apply publish_listed. left. split; [done|]. rewrite K. congruence.
        -- exists T0. by rewrite publish_key, decide_False by by eapply key_old.
  - intros T' id [[I _]|[-> ->]]%publish_entries.
    + destruct (Exist T' id I) as [k K]. rewrite publish_key, decide_False by by eapply key_old. by exists k.
    + rewrite publish_key, decide_True by done. done.
  - intros id r. unfold reg_at. simpl. intros [R|[_ R]]%lookup_app_Some; [by apply (Typed id)|].
    apply list_lookup_singleton_Some in R as [_ <-]. by rewrite Ty.
Qed.
End Publish.
End Registries.

Section Histories.
Context `{Universe} {W : Type}.
Context (alloc : W -> positive * W) (clock : W -> Z) (debug : str -> str).
Implicit Type c : Container (W := W).

(** What an application does to its container. *)
Inductive Op : Type :=
| OpFactory (T : code) (spec : ScopeSpec) (name : str) (primary : bool) (order : Z) (factory : Prog (W := W) (Result (denote T) ContainerError))
| OpArc (T : code) (a : Arc T) (scope : Scope) (name : str) (primary : bool) (order : Z)
| OpPort (I : code) (port : Arc I) (name : str) (w : W)
| OpBind (I T : code) (coerce : Arc T -> Arc I)
| OpScope (name : str) (handler : ScopeHandler (W := W))
| OpUnscope (name : str)
| OpAsync (init : AsyncInit (W := W))
| OpStereotype (T : code) (text : str)
| OpDependencies (T : code) (deps : list str)
| OpHook (T : code) (hook : Arc T -> W -> option W)
| OpConditions (ctx : ConditionContext)
| OpRun (p : Prog (W := W) unit) (w : W) (stack : list (code * str))
| OpInit (w : W)
| OpReset (T : code)
| OpDestroy (w : W).

(** What is left of the container, also when the operation panics. *)
Definition perform (op : Op) c : Container (W := W) :=
  match op with
  | OpFactory T spec name primary order factory => snd (install T spec name primary order (erase_factory alloc factory) c)
  | OpArc T a scope name primary order => register_singleton_arc a scope name primary order c
  | OpPort J port name w => fst (register_port_named alloc port name w c)
  | OpBind J T coerce => default c (bind J T coerce c)
  | OpScope name handler => snd (register_scope debug name handler c)
  | OpUnscope name => unregister_scope name c
  | OpAsync init => register_async_factory init c
  | OpStereotype T text => set_stereotype T text c
  | OpDependencies T deps => set_dependencies T deps c
  | OpHook T hook => set_destroy_hook T hook c
  | OpConditions ctx => set_condition_context ctx c
  | OpRun p w stack => con (snd (run clock debug p (mkSt c w stack)))
  | OpInit w => con (snd (init_async_beans alloc clock debug (mkSt c w [])))
  | OpReset T => snd (reset_instance T c)
  | OpDestroy w => default c (fst <$> destroy c w)
  end.

Definition performed (ops : list Op) : Container (W := W) := fold_left (fun c op => perform op c) ops container_new.

Lemma bind_consistent I T coerce c : consistent c -> consistent (default c (bind I T coerce c)).
Proof.
  intros C. unfold bind. destruct (by_type c !! T) as [entries|] eqn:ET; [|done]. simpl.
  destruct (List.find _ entries) as [e|] eqn:F; [|done]. simpl. apply find_some in F as [Ie _].
  assert (registration e ∈ map registration (entries_of T c)) as Re.
  { unfold entries_of. rewrite ET. by apply list_elem_of_In, in_map. }
  set (c' := mkContainer _ _ _ _ _ _ _ _).
  assert (forall T' id, id ∈ map registration (entries_of T' c') <->
    id ∈ map registration (entries_of T' c) \/ (T' = I /\ id = registration e)) as En.
  { intros T' id. unfold entries_of, c'. simpl. destruct (decide (T' = I)) as [->|N].
    - rewrite lookup_insert_eq. simpl. rewrite map_app, elem_of_app. simpl. rewrite list_elem_of_singleton. naive_solver.
    - rewrite lookup_insert_ne by done. naive_solver. }
  destruct C as [Once Found Apart Named Exist Typed]. split; [done| |done|done| |done].
  - intros id L. destruct (Found id L) as (T0 & n & K & R). exists T0, n. split; [done|]. apply En. by left.
  - intros T' id [R|[-> ->]]%En; [by apply (Exist T')|]. by apply (Exist T).
Qed.

Lemma register_arc_consistent {T : code} (a : Arc T) scope name primary order c :
  consistent c -> consistent (register_singleton_arc a scope name primary order c).
Proof.
  intros C. unfold register_singleton_arc, install.
  destruct (publish T _ (install_caster T) c) as [id c1] eqn:E.
  apply (shape_consistent c1); [by apply update_shape|]. replace c1 with (snd (id, c1)) by done. rewrite <- E.
  by apply publish_consistent.
Qed.

Lemma same_registries c c' : store c' = store c -> by_type c' = by_type c -> by_name c' = by_name c -> registered c' = registered c ->
  consistent c -> consistent c'.
Proof.
  intros S T N R. apply shape_consistent. split_and!; [|done..]. intros id. unfold key_at, reg_at. by rewrite S.
Qed.

Definition keeps {A} (m : Call (W := W) A) : Prop := forall st, consistent (con st) -> consistent (con (snd (m st))).

Lemma keeps_seq {A B} (m : Call A) (k : A -> Call B) : keeps m -> (forall a, keeps (k a)) -> keeps (seq m k).
Proof.
  intros M K st C. rewrite seq_eq. specialize (M st C). destruct (m st) as [[a| |] st1]; [by apply K|done..].
Qed.

Lemma keeps_tame {A} (m : Call A) : tame m -> keeps m.
Proof. intros T st. apply shape_consistent, kept_shape, T. Qed.

Lemma keeps_inits inits : keeps (run_inits alloc clock debug inits).
Proof.
  induction inits as [|init inits IH]; [by apply keeps_tame, tame_give|].
  apply keeps_seq; [|intros [[]|e]; [done|by apply keeps_tame, tame_give]].
  apply keeps_seq; [by apply keeps_tame, tame_run|]. intros [v|e]; [|by apply keeps_tame, tame_give].
  apply keeps_seq; [by apply keeps_tame, tame_get|]. intros w.
  apply keeps_seq; [by apply keeps_tame, tame_act|]. intros _.
  apply keeps_seq; [|intros _; by apply keeps_tame, tame_give]. intros st C. simpl.
  unfold set_dependencies, set_stereotype.
  eapply shape_consistent; [by apply latest_shape|]. eapply shape_consistent; [by apply latest_shape|].
  by apply register_arc_consistent.
Qed.

(** C26 Whatever an application does to its container, in any order, panics and
    failures included, its registries agree: no bean is listed twice, no two of
    one type share a name, each is found under its type, each name leads to a
    listed bean of that name, and no entry refers to a registration that is not
    there. *)
Theorem registries_agree (ops : list Op) : consistent (performed ops).
Proof.
  unfold performed. generalize (new_consistent (W := W)). generalize (container_new (W := W)). induction ops as [|op ops IH]; intros c C; [done|]. apply IH.
  destruct op; cbn [perform].
  - by apply publish_consistent.
  - by apply register_arc_consistent.
  - unfold register_port_named. destruct (alloc w). by apply publish_consistent.
  - by apply bind_consistent.
  - unfold register_scope. case_bool_decide; [done|]. destruct (reserved name); [done|]. by apply (same_registries c).
  - by apply (same_registries c).
  - by apply (same_registries c).
  - eapply shape_consistent; [by apply latest_shape|done].
  - eapply shape_consistent; [by apply latest_shape|done].
  - eapply shape_consistent; [by apply latest_shape|done].
  - by apply (same_registries c).
  - by apply (keeps_tame _ (tame_run clock debug p) (mkSt c w stack)).
  - unfold init_async_beans. apply (keeps_seq (get con)); [by apply keeps_tame, tame_get| |done]. intros c'.
    apply keeps_seq; [|intros _; apply keeps_inits]. intros st. by apply (same_registries (con st)).
  - eapply shape_consistent; [by apply updates_shape|done].
  - unfold destroy. destruct (run_hooks _ _ _ _) as [w'|]; [|done]. simpl.
    eapply shape_consistent; [by apply updates_shape|done].
Qed.

(** ** One instance of a singleton *)

(** The entries of [T] and the registration [id] are as they were, but for labels
    and metrics. *)
Definition spared (T : code) (id : RegId) c c' : Prop :=
  by_type c' !! T = by_type c !! T /\
  (forall i reg, reg_at i c = Some reg -> exists reg', reg_at i c' = Some reg' /\ primary reg' = primary reg /\
     impl_type reg' = impl_type reg /\ scope reg' = scope reg /\
     (i = id -> forall shared, instance reg = Some shared -> instance reg' = Some shared)).

#[local] Instance spared_preorder T id : PreOrder (spared T id).
Proof.
  split; [intros c; split; [done|]; intros i reg E; by exists reg|]. intros c1 c2 c3 [T1 R1] [T2 R2]. split; [congruence|].
  intros i reg E. destruct (R1 i reg E) as (r2 & E2 & P2 & I2 & S2 & J2), (R2 i r2 E2) as (r3 & E3 & P3 & I3 & S3 & J3).
  exists r3. split_and!; [done|congruence..|]. intros D shared Sh. auto.
Qed.

Lemma spared_kept T id c c' : kept_con c c' -> spared T id c c'.
Proof.
  intros K. split; [by destruct (kept_fields _ _ K) as [-> _]|]. intros i reg E.
  destruct (kept_reg_at _ _ _ _ K E) as (reg' & E' & Kr). exists reg'.
  split_and!; [done|symmetry; by apply kept_blank..|]. intros _. apply Kr.
Qed.

Lemma spared_same T id c c' : by_type c' = by_type c -> store c' = store c -> spared T id c c'.
Proof.
  intros B S. split; [by rewrite B|]. intros i reg E. exists reg. unfold reg_at in *. by rewrite S.
Qed.

Lemma spared_update T id j f c : (forall reg, primary (f reg) = primary reg /\ impl_type (f reg) = impl_type reg /\ scope (f reg) = scope reg) ->
  (j = id -> forall reg, instance (f reg) = instance reg) -> spared T id c (update_reg j f c).
Proof.
  intros F I. split; [done|]. intros i reg E. destruct (decide (i = j)) as [->|N].
  - exists (f reg). rewrite reg_at_update, E. destruct (F reg) as (P & J & S). split_and!; [done..|]. intros -> shared. by rewrite I.
  - exists reg. unfold reg_at, update_reg in *. simpl. by rewrite list_lookup_alter_ne.
Qed.

Lemma spared_latest T id T' f c : (forall reg, primary (f reg) = primary reg /\ impl_type (f reg) = impl_type reg /\ scope (f reg) = scope reg /\
    instance (f reg) = instance reg) -> spared T id c (on_latest T' f c).
Proof.
  intros F. unfold on_latest. destruct (latest_of T' c) as [j|]; [|done].
  apply spared_update; intros; split_and?; apply F.
Qed.

Lemma spared_publish T id T' reg cast c : T' <> T -> spared T id c (snd (publish T' reg cast c)).
Proof.
  intros N. split; [simpl; by rewrite lookup_insert_ne|]. intros i r E. exists r. split; [|done].
  unfold reg_at in *. simpl. by apply lookup_app_l_Some.
Qed.

Lemma spared_arc {T : code} id {T' : code} (a : Arc T') scope name primary order c : T' <> T -> is_Some (reg_at id c) ->
  spared T id c (register_singleton_arc a scope name primary order c).
Proof.
  intros N [r Er]. unfold register_singleton_arc, install. set (reg := new_registration _ _ _ _ _ _ _).
  pose proof (spared_publish T id T' reg (install_caster T') c N) as P.
  destruct (publish T' reg (install_caster T') c) as [j c1] eqn:Pu. etrans; [exact P|]. apply spared_update; [done|].
  intros ->. unfold publish in Pu. injection Pu as Pu _. unfold reg_at in Er. apply lookup_lt_Some in Er. lia.
Qed.

Lemma spared_evict T id ids c : ~ In id ids -> spared T id c (fold_left (fun c j => update_reg j (set_instance None) c) ids c).
Proof.
  revert c. induction ids as [|j ids IH]; intros c N; [done|]. simpl. etrans; [|apply IH; intros I; apply N; by right].
  apply spared_update; [done|]. intros ->. by destruct N; left.
Qed.

(** Operations that leave the beans of [T] and the instances of type [J] alone. *)
Definition spares (T J : code) (op : Op) : Prop :=
  match op with
  | OpFactory T' _ _ _ _ _ | OpArc T' _ _ _ _ _ | OpPort T' _ _ _ | OpBind T' _ _ => T' <> T
  | OpAsync init => ai_type init <> T
  | OpReset T' => T' <> J
  | OpDestroy _ => False
  | _ => True
  end.
Definition none_parked (T : code) c : Prop := Forall (fun init => ai_type init <> T) (async_inits c).

Lemma kept_inits c c' : kept_con c c' -> async_inits c' = async_inits c.
Proof. intros [E _]. unfold with_store in E. by injection E. Qed.

Lemma latest_inits T f c : async_inits (on_latest T f c) = async_inits c.
Proof. unfold on_latest. by destruct (latest_of T c). Qed.

Lemma evicted_inits ids c : async_inits (fold_left (fun c j => update_reg j (set_instance None) c) ids c) = async_inits c.
Proof. revert c. induction ids as [|j ids IH]; intros c; [done|]. simpl. by rewrite IH. Qed.

Lemma spared_run {A} (m : Call (W := W) A) T id st : tame m ->
  spared T id (con st) (con (snd (m st))) /\ async_inits (con (snd (m st))) = async_inits (con st).
Proof. intros M. destruct (M st) as [K _]. split; [by apply spared_kept|by apply kept_inits]. Qed.

Lemma spared_found T id c c' : spared T id c c' -> is_Some (reg_at id c) -> is_Some (reg_at id c').
Proof. intros [_ R] [reg E]. destruct (R id reg E) as (reg' & E' & _). by exists reg'. Qed.

Lemma spared_init T id init st : ai_type init <> T -> is_Some (reg_at id (con st)) ->
  spared T id (con st) (con (snd (run_init alloc clock debug init st))) /\
  async_inits (con (snd (run_init alloc clock debug init st))) = async_inits (con st).
Proof.
  intros N F. unfold run_init. rewrite seq_eq.
  destruct (spared_run (run clock debug (ai_factory init)) T id st (tame_run clock debug _)) as [Sp In].
  pose proof (spared_found _ _ _ _ Sp F) as F1.
  destruct (run clock debug (ai_factory init) st) as [[[v|e]| |] st1]; try done. simpl in Sp, In, F1. split.
  - etrans; [exact Sp|]. simpl. unfold set_dependencies, set_stereotype. etrans; [|by apply spared_latest].
    etrans; [|by apply spared_latest]. by apply spared_arc.
  - rewrite <- In. simpl. unfold set_dependencies, set_stereotype. by rewrite !latest_inits.
Qed.

Lemma spared_inits T id inits st : Forall (fun init => ai_type init <> T) inits -> is_Some (reg_at id (con st)) ->
  spared T id (con st) (con (snd (run_inits alloc clock debug inits st))) /\
  async_inits (con (snd (run_inits alloc clock debug inits st))) = async_inits (con st).
Proof.
  intros N. revert st. induction N as [|init inits N _ IH]; intros st F; [done|]. cbn [run_inits]. rewrite seq_eq.
  destruct (spared_init T id init st N F) as [Sp In]. pose proof (spared_found _ _ _ _ Sp F) as F1.
  destruct (run_init alloc clock debug init st) as [[[[]|e]| |] st1]; try done. simpl in Sp, In, F1.
  destruct (IH st1 F1) as [Sp2 In2]. split; [by etrans|congruence].
Qed.

Lemma spared_reset T id T' c reg : reg_at id c = Some reg -> T' <> impl_type reg -> spared T id c (snd (reset_instance T' c)).
Proof.
  intros E N. apply spared_evict. unfold own_entries. intros [_ O]%filter_In. rewrite E in O. apply bool_decide_eq_true in O. congruence.
Qed.

Lemma perform_spares T id op c reg : reg_at id c = Some reg -> spares T (impl_type reg) op -> none_parked T c ->
  spared T id c (perform op c) /\ none_parked T (perform op c).
Proof.
  intros E S Np. unfold none_parked in *. destruct op; cbn [perform spares] in *.
  - split; [by apply spared_publish|done].
  - split; [by apply spared_arc|done].
  - unfold register_port_named. destruct (alloc w). split; [by apply spared_publish|done].
  - unfold bind. destruct (by_type c !! T0) as [entries|]; [|done]. simpl. destruct (List.find _ entries) as [e|]; [|done].
    split; [|done]. split; [exact (lookup_insert_ne _ _ _ _ S)|]. intros i r Er. by exists r.
  - unfold register_scope. case_bool_decide; [done|]. destruct (reserved name); [done|]. split; [by apply spared_same|done].
  - split; [by apply spared_same|done].
  - split; [by apply spared_same|]. simpl. apply Forall_app. split; [done|]. by repeat constructor.
  - unfold set_stereotype. rewrite latest_inits. split; [by apply spared_latest|done].
  - unfold set_dependencies. rewrite latest_inits. split; [by apply spared_latest|done].
  - unfold set_destroy_hook. rewrite latest_inits. split; [by apply spared_latest|done].
  - split; [by apply spared_same|done].
  - destruct (spared_run (run clock debug p) T id (mkSt c w stack) (tame_run clock debug p)) as [Sp In].
    split; [done|]. by rewrite In.
  - unfold init_async_beans. rewrite seq_eq. cbn [get fst]. rewrite seq_eq. cbn [modify fst snd con].
    destruct (spared_inits T id (sort_by (fun a b => Z.compare (ai_order a) (ai_order b)) (async_inits c))
      (mkSt (with_async_inits [] c) w [])) as [Sp In].
    + rewrite Forall_forall in *. intros x I. apply Np. apply list_elem_of_In. apply list_elem_of_In in I.
      eapply Permutation_in; [apply sort_by_permutation|exact I].
    + by exists reg.
    + cbn [con world resolving] in *. rewrite In. split; [|constructor]. etrans; [|exact Sp]. by apply spared_same.
  - split; [by eapply spared_reset|]. unfold reset_instance. simpl. by rewrite evicted_inits.
  - done.
Qed.

Definition after (ops : list Op) c : Container (W := W) := fold_left (fun c op => perform op c) ops c.

Lemma after_spares T id ops c reg : reg_at id c = Some reg -> Forall (spares T (impl_type reg)) ops -> none_parked T c ->
  spared T id c (after ops c).
Proof.
  intros E F. revert c reg E F. induction ops as [|op ops IH]; intros c reg E F Np; [done|]. apply Forall_cons in F as [S F].
  destruct (perform_spares T id op c reg E S Np) as [Sp Np1]. etrans; [exact Sp|]. destruct Sp as [_ R].
  destruct (R id reg E) as (reg1 & E1 & _ & I1 & _). apply (IH _ reg1); [done|by rewrite I1|done].
Qed.

Lemma spared_choice T id c c' x : (forall i, i ∈ map registration (entries_of T c) -> is_Some (key_at i c)) ->
  spared T id c c' -> choose_entry T c = Ok x -> choose_entry T c' = Ok x.
Proof.
  intros Ex [B R]. unfold choose_entry. rewrite B. unfold entries_of in Ex. destruct (by_type c !! T) as [entries|]; [|done].
  simpl in Ex. assert (forall e, In e entries -> is_primary c' e = is_primary c e) as P.
  { intros e I. destruct (Ex (registration e)) as [k K]; [by apply list_elem_of_In, in_map|]. unfold key_at in K.
    unfold is_primary. destruct (reg_at (registration e) c) as [reg|] eqn:E; [|done].
    destruct (R _ _ E) as (reg' & -> & -> & _). done. }
  destruct entries as [|e [|e' l]]; try done. set (l0 := e :: e' :: l) in *. clearbody l0.
  assert (List.filter (fun ie => is_primary c' (snd ie)) (imap pair l0) = List.filter (fun ie => is_primary c (snd ie)) (imap pair l0)) as ->.
  { apply List.filter_ext_in. intros [i e0] I. apply P. apply (in_map snd) in I. by rewrite imap_pair_snd in I. }
  by destruct (List.filter _ _) as [|[i e0] [|? ?]].
Qed.

(** C25 A singleton is one instance. Let a type be resolved to a bean of
    singleton scope, in a container any application can reach, with no initializer
    parked for the type. Whatever the application does to its container afterwards,
    in any order, panics and failures included - registering other types, building
    parked beans, resolving, labelling, changing scopes, resetting the instances
    of other beans - a later resolution of the type gives the same [Arc], on any
    thread and in any world. What is excluded is what replaces the bean: registering
    or binding something under the very type, parking an initializer for it,
    resetting the instance of the type that implements it, or destroying the
    container. *)
Theorem singleton_is_shared T st id index reg a st1 (ops : list Op) w stack :
  consistent (con st) -> none_parked T (con st) ->
  choose_entry T (con st) = Ok (id, index) -> reg_at id (con st) = Some reg -> scope reg = Builtin Singleton ->
  resolve clock debug T st = (Returns (Ok a), st1) -> Forall (spares T (impl_type reg)) ops ->
  fst (resolve clock debug T (mkSt (after ops (con st1)) w stack)) = Returns (Ok a).
Proof.
  intros C Np Ch E Si Re F.
  destruct (resolve_caches clock debug T st id index a st1 Ch (ex_intro _ reg (conj E Si)) Re) as (i & cast & erased & Ca & Cs & Er & Da).
  destruct (spared_run (resolve clock debug T) T id st (tame_resolve clock debug T)) as [Sp In]. rewrite Re in Sp, In. simpl in Sp, In.
  pose proof Sp as [_ R]. destruct (R id reg E) as (reg1 & E1 & _ & I1 & S1 & _).
  assert (spared T id (con st1) (after ops (con st1))) as Sp1.
  { apply (after_spares T id ops _ reg1); [done|by rewrite I1|]. unfold none_parked. by rewrite In. }
  pose proof Sp1 as [B1 R1]. destruct (R1 id reg1 E1) as (reg2 & E2 & _ & _ & S2 & J2).
  eapply (resolve_cached clock debug T _ id index a i cast erased); cbn [con]; [| | | |done..].
  - eapply spared_choice; [|etrans; [exact Sp|exact Sp1]|exact Ch]. intros j. apply (entries_exist _ C).
  - exists reg2. split; [done|]. by rewrite S2, S1.
  - unfold cached in *. cbn [con]. rewrite E2. rewrite E1 in Ca. simpl in *. by apply J2.
  - unfold caster_at in *. destruct Sp as [B0 _]. by rewrite B1, B0.
Qed.
End Histories.

(** ** Scanning fills the gaps *)

Section Scanning.
Context `{Universe} {W : Type}.
Context (alloc : W -> positive * W).
Implicit Type c : Container (W := W).

Definition names_type (X : str) (r : ComponentRegistration (W := W)) : Prop := short_name (cr_type_name r) = short_name X.
#[export] Instance names_type_dec X r : Decision (names_type X r).
Proof. unfold names_type. apply _. Defined.

(** ** The thunks the macros emit *)

(** The thunk of a component derive and of a synchronous [#[bean]] method: a
    factory, its labels, the hook of [pre_destroy] and the port it provides. *)
Record SyncBean : Type := mkSyncBean {
  sb_type : code;
  sb_scope : Scope;
  sb_name : str;
  sb_primary : bool;
  sb_order : Z;
  sb_factory : Prog (W := W) (Result (denote sb_type) ContainerError);
  sb_stereotype : str;
  sb_dependencies : list str;
  sb_hook : option (Arc sb_type -> W -> option W);
  sb_provides : option { I : code & Arc sb_type -> Arc I }
}.

Definition register_bean (b : SyncBean) c : Container :=
  let c := register_factory_with alloc (sb_type b) (sb_scope b) (sb_name b) (sb_primary b) (sb_order b) (sb_factory b) c in
  let c := set_stereotype (sb_type b) (sb_stereotype b) c in
  let c := set_dependencies (sb_type b) (sb_dependencies b) c in
  let c := match sb_hook b with Some hook => set_destroy_hook (sb_type b) hook c | None => c end in
  match sb_provides b with Some (existT J coerce) => default c (bind J (sb_type b) coerce c) | None => c end.

(** An [async] [#[bean]] method only parks its initializer. *)
Inductive Registrar : Type :=
| Sync (b : SyncBean)
| Parked (init : AsyncInit (W := W)).
Definition run_registrar (g : Registrar) c : Container :=
  match g with
  | Sync b => register_bean b c
  | Parked init => register_async_factory init c
  end.
Definition registrar_type (g : Registrar) : code := match g with Sync b => sb_type b | Parked init => ai_type init end.

(** What a derive submits to the inventory: the thunk, under the name of the
    bean's type. *)
Definition submits (r : ComponentRegistration (W := W)) (g : Registrar) : Prop :=
  cr_register r = run_registrar g /\ short_name (cr_type_name r) = short_name (type_name (registrar_type g)).
Definition synchronous (r : ComponentRegistration (W := W)) : Prop := exists b, submits r (Sync b).
Definition emitted (r : ComponentRegistration (W := W)) : Prop := exists g, submits r g.

(** Beans of type [X] are unconditional or yield to others of their type. *)
Definition yields (X : str) (r : ComponentRegistration (W := W)) : Prop :=
  names_type X r -> deferred_component r = true -> exists Y, short_name Y = short_name X /\ In (OnMissingBean Y) (cr_conditions r).

(** The only beans its conditions ask about are others of type [X]. *)
Definition only_yields (X : str) (r : ComponentRegistration (W := W)) : Prop :=
  names_type X r /\ forall cond, In cond (cr_conditions r) -> is_bean_dependent cond = true -> exists Y, cond = OnMissingBean Y /\ short_name Y = short_name X.

Lemma count_short X Y c : short_name X = short_name Y -> count_assignable_by_name X c = count_assignable_by_name Y c.
Proof. unfold count_assignable_by_name. by intros ->. Qed.

Lemma registrations_publish T reg cast c : consistent c -> impl_type reg = T ->
  Permutation (registrations (snd (publish T reg cast c)))
    (reg :: List.filter (fun r => negb (bool_decide (impl_type r = T) && bool_decide (r_name r = r_name reg))) (registrations c)).
Proof.
  intros C Ty. unfold registrations.
  change (registered (snd (publish T reg cast c))) with
    (List.filter (fun i => negb (is_bean T (r_name reg) c i)) (registered c) ++ [List.length (store c)]).
  rewrite omap_app. cbn [omap list_omap].
  assert (reg_at (List.length (store c)) (snd (publish T reg cast c)) = Some reg) as ->.
  { unfold reg_at. simpl. by rewrite list_lookup_middle. }
  rewrite Permutation_app_comm. simpl. constructor.
  assert (forall ids, (forall id, In id ids -> is_Some (key_at id c)) ->
    omap (fun id => reg_at id (snd (publish T reg cast c))) (List.filter (fun i => negb (is_bean T (r_name reg) c i)) ids) =
    List.filter (fun r => negb (bool_decide (impl_type r = T) && bool_decide (r_name r = r_name reg))) (omap (fun id => reg_at id c) ids)) as G.
  { induction ids as [|id ids IH]; intros Ex; [done|].
    destruct (Ex id (or_introl eq_refl)) as [k K]. unfold key_at in K. destruct (reg_at id c) as [r|] eqn:R; [|done].
    cbn [List.filter omap list_omap]. rewrite R. cbn [List.filter].
    replace (is_bean T (r_name reg) c id) with (bool_decide (impl_type r = T) && bool_decide (r_name r = r_name reg))
      by (unfold is_bean; by rewrite R).
    assert (reg_at id (snd (publish T reg cast c)) = Some r) as R'.
    { unfold reg_at in *. simpl. rewrite lookup_app_l; [done|]. by eapply lookup_lt_Some. }
    destruct (negb (bool_decide (impl_type r = T) && bool_decide (r_name r = r_name reg))); cbn [omap list_omap]; rewrite ?R';
      rewrite IH by (intros; apply Ex; by right); done. }
  rewrite G; [done|]. intros id I%list_elem_of_In. destruct (listed_found c C id I) as (T0 & n & K & _). by rewrite K.
Qed.

Lemma filter_split_length {A} (p q : A -> bool) l :
  List.length (List.filter p l) = (List.length (List.filter p (List.filter (fun x => negb (q x)) l)) + List.length (List.filter p (List.filter q l)))%nat.
Proof. induction l as [|x l IH]; [done|]. simpl. destruct (p x) eqn:P, (q x); simpl; rewrite ?P; simpl; lia. Qed.

Lemma one_of_a_key c T name : consistent c ->
  (List.length (List.filter (fun r => bool_decide (impl_type r = T) && bool_decide (r_name r = name)) (registrations c)) <= 1)%nat.
Proof.
  intros C. unfold registrations. pose proof (listed_once c C) as ND. pose proof (fun id id' I I' => listed_apart c C id id' (T, name) I I') as Ap.
  revert ND Ap. generalize (registered c). intros ids. induction ids as [|id ids IH]; intros ND Ap; [simpl; lia|].
  apply NoDup_cons in ND as [Ni ND]. cbn [omap list_omap]. destruct (reg_at id c) as [r|] eqn:R; [|apply IH; [done|set_solver]].
  cbn [List.filter]. destruct (bool_decide (impl_type r = T) && bool_decide (r_name r = name)) eqn:B; [|apply IH; [done|set_solver]].
  assert (key_at id c = Some (T, name)) as K.
  { apply is_bean_key. unfold is_bean. by rewrite R. }
  destruct (List.filter _ _) as [|r' rs] eqn:F; [simpl; lia|]. exfalso.
  assert (In r' (List.filter (fun r => bool_decide (impl_type r = T) && bool_decide (r_name r = name)) (omap (fun id => reg_at id c) ids))) as I.
  { rewrite F. by left. }
  apply filter_In in I as [I B']. apply list_elem_of_In, list_elem_of_omap in I as (id' & I' & R').
  assert (key_at id' c = Some (T, name)) as K'.
  { apply is_bean_key. unfold is_bean. by rewrite R'. }
  rewrite (Ap id id') in Ni; [done|set_solver..|done|done].
Qed.

(** ** What they do to the count of a type *)

Lemma shape_count X c c' : same_shape c c' -> count_assignable_by_name X c' = count_assignable_by_name X c.
Proof.
  intros (S & _ & _ & R). unfold count_assignable_by_name, registrations. rewrite R. generalize (registered c). intros ids.
  induction ids as [|id ids IH]; [done|]. destruct (S id) as [_ Ti]. cbn [omap list_omap].
  destruct (reg_at id c) as [r|], (reg_at id c') as [r'|]; simpl in Ti; try done.
  injection Ti as Ti. cbn [List.filter]. rewrite Ti.
  destruct (str_eqb (short_name (r_type_name r)) (short_name X)); simpl; by rewrite IH.
Qed.

Lemma bind_count X I T coerce c : count_assignable_by_name X (default c (bind I T coerce c)) = count_assignable_by_name X c.
Proof. unfold bind. destruct (by_type c !! T) as [entries|]; [|done]. simpl. by destruct (List.find _ entries). Qed.

Lemma factory_counts T scope name primary order factory c X : consistent c ->
  let c' := register_factory_with alloc T scope name primary order factory c in
  consistent c' /\
  (short_name (type_name T) = short_name X ->
   (count_assignable_by_name X c <= count_assignable_by_name X c' <= S (count_assignable_by_name X c))%nat /\
   (0 < count_assignable_by_name X c')%nat) /\
  (short_name (type_name T) <> short_name X -> count_assignable_by_name X c' = count_assignable_by_name X c).
Proof.
  intros C. cbv zeta. unfold register_factory_with, install. set (reg := new_registration _ _ _ _ _ _ _).
  split; [by apply publish_consistent|]. unfold count_assignable_by_name.
  set (p := fun reg : Registration (W := W) => str_eqb (short_name (r_type_name reg)) (short_name X)).
  set (q := fun r : Registration (W := W) => bool_decide (impl_type r = T) && bool_decide (r_name r = r_name reg)).
  assert (List.length (List.filter p (registrations (snd (publish T reg (install_caster T) c)))) =
    List.length (List.filter p (reg :: List.filter (fun r => negb (q r)) (registrations c)))) as ->.
  { by apply Permutation_length, filter_permutation, registrations_publish. }
  pose proof (filter_split_length p q (registrations c)) as Sp.
  pose proof (one_of_a_key c T (r_name reg) C) as One. change (List.length (List.filter q (registrations c)) <= 1)%nat in One.
  pose proof (List.filter_length_le p (List.filter q (registrations c))) as Le.
  cbn [List.filter]. destruct (p reg) eqn:P.
  - apply bool_decide_eq_true in P. change (short_name (type_name T) = short_name X) in P. split; [simpl; lia|done].
  - apply bool_decide_eq_false in P. change (short_name (type_name T) <> short_name X) in P. split; [done|]. intros _.
    assert (List.filter p (List.filter q (registrations c)) = []) as Nil; [|rewrite Nil in Sp; simpl in Sp; lia].
    destruct (List.filter p (List.filter q (registrations c))) as [|r' rs] eqn:F; [done|]. exfalso.
    assert (In r' (List.filter p (List.filter q (registrations c)))) as I by (rewrite F; by left).
    apply filter_In in I as [I Pr]. apply filter_In in I as [I Qr].
    apply andb_true_iff in Qr as [Qt%bool_decide_eq_true _]. apply bool_decide_eq_true in Pr.
    apply list_elem_of_In, list_elem_of_omap in I as (id & _ & R). apply P. rewrite <- Pr, (types_named c C id r' R). by rewrite Qt.
Qed.

(** A synchronous thunk leaves one bean of its type and name, in the place of one
    there may have been. *)
Lemma bean_counts b c X : consistent c ->
  consistent (register_bean b c) /\
  (short_name (type_name (sb_type b)) = short_name X ->
   (count_assignable_by_name X c <= count_assignable_by_name X (register_bean b c) <= S (count_assignable_by_name X c))%nat /\
   (0 < count_assignable_by_name X (register_bean b c))%nat) /\
  (short_name (type_name (sb_type b)) <> short_name X ->
   count_assignable_by_name X (register_bean b c) = count_assignable_by_name X c).
Proof.
  intros C. unfold register_bean. set (c1 := register_factory_with _ _ _ _ _ _ _ _).
  destruct (factory_counts (sb_type b) (sb_scope b) (sb_name b) (sb_primary b) (sb_order b) (sb_factory b) c X C) as [C1 N].
  fold c1 in C1, N. cbv zeta. set (c2 := set_dependencies _ _ _). assert (same_shape c1 c2) as S2.
  { etrans; by apply latest_shape. }
  set (c3 := match sb_hook b with Some _ => _ | None => _ end). assert (same_shape c1 c3) as S3.
  { unfold c3. destruct (sb_hook b); [|done]. etrans; [exact S2|]. by apply latest_shape. }
  pose proof (shape_count X _ _ S3) as E3. pose proof (shape_consistent _ _ S3 C1) as C3. clearbody c1 c2 c3.
  destruct (sb_provides b) as [[J coerce]|]; [rewrite bind_count; split; [by apply bind_consistent|]|split; [done|]];
    rewrite E3; exact N.
Qed.

Lemma parked_counts init c X : consistent c ->
  consistent (register_async_factory init c) /\ count_assignable_by_name X (register_async_factory init c) = count_assignable_by_name X c.
Proof. intros C. split; [by apply (same_registries c)|done]. Qed.

Lemma synchronous_counts r c X : synchronous r -> consistent c ->
  consistent (cr_register r c) /\
  (names_type X r -> (count_assignable_by_name X c <= count_assignable_by_name X (cr_register r c) <= S (count_assignable_by_name X c))%nat /\
                     (0 < count_assignable_by_name X (cr_register r c))%nat) /\
  (~ names_type X r -> count_assignable_by_name X (cr_register r c) = count_assignable_by_name X c).
Proof. intros (b & -> & N) C. unfold names_type. rewrite N. by apply bean_counts. Qed.

(** Any thunk: at most one more bean of its type, and none of another. *)
Lemma emitted_counts r c X : emitted r -> consistent c ->
  consistent (cr_register r c) /\
  (count_assignable_by_name X c <= count_assignable_by_name X (cr_register r c))%nat /\
  (names_type X r -> (count_assignable_by_name X (cr_register r c) <= S (count_assignable_by_name X c))%nat) /\
  (~ names_type X r -> count_assignable_by_name X (cr_register r c) = count_assignable_by_name X c).
Proof.
  intros ([b|init] & R & N) C.
  - destruct (synchronous_counts r c X (ex_intro _ b (conj R N)) C) as (C' & Y & Z). split; [done|].
    destruct (decide (names_type X r)) as [D|D]; [destruct (Y D)|rewrite (Z D)]; split_and!; try done; intros; lia.
  - rewrite R. destruct (parked_counts init c X C) as [C' E]. simpl. rewrite E. split_and!; [done|lia|intros; lia|done].
Qed.

Lemma immediate_grows l c X : Forall emitted l -> consistent c ->
  consistent (register_immediate l c) /\ (count_assignable_by_name X c <= count_assignable_by_name X (register_immediate l c))%nat /\
  (Exists (fun r => names_type X r /\ synchronous r) l -> (0 < count_assignable_by_name X (register_immediate l c))%nat).
Proof.
  intros F. revert c. induction F as [|r l R F IH]; intros c C; [split_and!; [done..|by intros ?%Exists_nil]|].
  destruct (emitted_counts r c X R C) as (C' & L & _). destruct (IH _ C') as (C2 & G & E).
  unfold register_immediate in *. cbn [fold_left].
  split_and!; [done|lia|]. intros [[D Sy]|D]%Exists_cons; [|auto].
  destruct (synchronous_counts r c X Sy C) as (_ & Y & _). destruct (Y D). lia.
Qed.

Lemma guard_fails X r c : yields X r -> names_type X r -> deferred_component r = true -> (0 < count_assignable_by_name X c)%nat ->
  eval_bean_conditions (cr_conditions r) c = false.
Proof.
  intros Y N D P. destruct (Y N D) as (Z & E & I). apply not_true_iff_false. unfold eval_bean_conditions.
  rewrite forallb_forall. intros All. apply All, Nat.eqb_eq in I. rewrite (count_short Z X) in I by done. lia.
Qed.

Lemma guard_holds X r c : only_yields X r -> count_assignable_by_name X c = 0%nat -> eval_bean_conditions (cr_conditions r) c = true.
Proof.
  intros [_ O] Z. apply forallb_forall. intros cond I. specialize (O cond I).
  destruct cond; simpl in *; try done; destruct (O eq_refl) as (Y & E & S); try discriminate E.
  injection E as ->. apply Nat.eqb_eq. by rewrite (count_short Y X).
Qed.

Lemma deferred_fills l n c X : Forall emitted l -> Forall (yields X) l -> Forall (fun r => deferred_component r = true) l -> consistent c ->
  let after := count_assignable_by_name X (snd (register_deferred l n c)) in
  ((0 < count_assignable_by_name X c)%nat -> after = count_assignable_by_name X c) /\
  (count_assignable_by_name X c = 0%nat ->
   (after <= 1)%nat /\ (Exists (fun r => only_yields X r /\ synchronous r) l -> after = 1%nat)).
Proof.
  intros F. revert n c. induction F as [|r l R F IH]; intros n c Y D C; simpl.
  { split; [done|]. intros ->. split; [lia|]. by intros ?%Exists_nil. }
  apply Forall_cons in Y as [Yr Y]. apply Forall_cons in D as [Dr D].
  destruct (eval_bean_conditions (cr_conditions r) c) eqn:G.
  - destruct (emitted_counts r c X R C) as (C' & L & Nx & Nn). destruct (IH (S n) _ Y D C') as [P Z].
    split.
    + intros Pc. destruct (decide (names_type X r)) as [Dx|Dx]; [by rewrite (guard_fails X) in G|].
      rewrite <- (Nn Dx). apply P. by rewrite (Nn Dx).
    + intros E. assert (count_assignable_by_name X (cr_register r c) = 0%nat \/ count_assignable_by_name X (cr_register r c) = 1%nat) as [E1|E1].
      { destruct (decide (names_type X r)) as [Dx|Dx]; [specialize (Nx Dx)|specialize (Nn Dx)]; lia. }
      * destruct (Z E1) as [L1 Ex]. split; [done|]. intros [[[O _] Sy]|O]%Exists_cons; [|auto].
        destruct (synchronous_counts r c X Sy C) as (_ & Po & _). destruct (Po O). lia.
      * rewrite P by lia. split; [lia|]. intros _. exact E1.
  - destruct (IH n _ Y D C) as [P Z]. split; [done|]. intros E. destruct (Z E) as [L Ex]. split; [done|].
    intros [[O _]|O]%Exists_cons; [|auto]. by rewrite (guard_holds X) in G.
Qed.

(** C27 During a scan of a container an application can reach, conditional beans
    fill gaps and only gaps. The components
    are ones the macros emit, each submitted under the name of its bean's type;
    those of type [X] are unconditional or yield to other beans of the type. If
    [X] was there before, or an unconditional bean of type [X] that is built on
    demand passes its conditions, the scan adds none of the conditional ones; if
    not, it adds at most one of them, and exactly one when one that is built on
    demand passes and asks about nothing else. A bean of an [async] method is only
    parked by the scan: it counts for none of this, neither as there nor as added. *)
Theorem scan_fills_gaps all c X :
  consistent c -> Forall emitted all -> Forall (yields X) all ->
  let survive := survivors all c in
  let after_immediate := register_immediate (List.filter (fun r => negb (deferred_component r)) survive) c in
  let after := snd (register_scanned all c) in
  ((0 < count_assignable_by_name X c)%nat \/
   Exists (fun r => (names_type X r /\ synchronous r) /\ negb (deferred_component r) = true) survive ->
   (0 < count_assignable_by_name X after_immediate)%nat) /\
  ((0 < count_assignable_by_name X after_immediate)%nat -> count_assignable_by_name X after = count_assignable_by_name X after_immediate) /\
  (count_assignable_by_name X after_immediate = 0%nat ->
   (count_assignable_by_name X after <= 1)%nat /\
   (Exists (fun r => (only_yields X r /\ synchronous r) /\ deferred_component r = true) survive ->
    count_assignable_by_name X after = 1%nat)).
Proof.
  intros C R Y survive after_immediate after.
  assert (forall p : ComponentRegistration -> bool, forall r, In r (List.filter p survive) -> In r all /\ p r = true) as Sub.
  { intros p r [I P]%filter_In. split; [|done]. unfold survive, survivors in I.
    eapply Permutation_in in I; [|apply sort_by_permutation]. by apply filter_In in I as [I _]. }
  assert (forall (p : ComponentRegistration -> bool) (P : ComponentRegistration -> Prop), Forall P all -> Forall P (List.filter p survive)) as Keep.
  { intros p P F. rewrite Forall_forall in *. intros r I%list_elem_of_In%Sub. apply F, list_elem_of_In, I. }
  assert (forall (p : ComponentRegistration -> bool) (P : ComponentRegistration -> Prop),
    Exists (fun r => P r /\ p r = true) survive -> Exists P (List.filter p survive)) as Into.
  { intros p P (r & I & Pr & T)%Exists_exists. apply Exists_exists. exists r. split; [|done]. apply list_elem_of_In, filter_In.
    by apply list_elem_of_In in I. }
  destruct (immediate_grows (List.filter (fun r => negb (deferred_component r)) survive) c X) as (C1 & G & E); [by apply Keep|done|].
  destruct (deferred_fills (List.filter deferred_component survive)
    (List.length (List.filter (fun r => negb (deferred_component r)) survive)) after_immediate X) as [P Z];
    [by apply Keep..| |done|].
  { apply Forall_forall. intros r I%list_elem_of_In%Sub. by destruct I. }
  split_and!.
  - intros [Pos|Im]; [unfold after_immediate; lia|]. by apply E, Into.
  - exact P.
  - intros Zero. destruct (Z Zero) as [L Ex]. split; [done|]. intros O. apply Ex, Into. exact O.
Qed.

End Scanning.

(** ** Teardown *)

Section Teardown.
Context `{Universe} {W : Type}.
Implicit Type c : Container (W := W).

Definition instance_at (id : RegId) c : option SharedInstance := reg_at id c ≫= instance.

(** The hook of one bean on its instance. *)
Definition teardown (id : RegId) c (w : W) : option W :=
  reg ← reg_at id c; i ← instance reg;
  match destroy_hook reg with Some hook => hook i w | None => Some w end.
Definition teardowns (ids : list RegId) c (w : W) : option W := fold_left (fun ow id => ow ≫= teardown id c) ids (Some w).

Lemma teardowns_none ids c : fold_left (fun ow id => ow ≫= teardown id c) ids None = None.
Proof. by induction ids. Qed.

Lemma teardowns_cons id ids c w : teardowns (id :: ids) c w = teardown id c w ≫= teardowns ids c.
Proof. unfold teardowns. simpl. destruct (teardown id c w); [done|apply teardowns_none]. Qed.

(** The loop over [ids] runs the hooks of some of them, once per instance not
    seen before. *)
Definition tears (ids : list RegId) (seen : list positive) c (torn : list RegId) : Prop :=
  torn `sublist_of` ids /\ NoDup (omap (fun id => as_ptr <$> instance_at id c) torn) /\
  Forall (fun id => exists i, instance_at id c = Some i /\ as_ptr i ∉ seen) torn /\
  forall id i, id ∈ ids -> instance_at id c = Some i ->
    as_ptr i ∈ seen \/ exists id' i', id' ∈ torn /\ instance_at id' c = Some i' /\ as_ptr i' = as_ptr i.

Lemma tears_skip id ids seen c torn : (forall i, instance_at id c = Some i -> as_ptr i ∈ seen) ->
  tears ids seen c torn -> tears (id :: ids) seen c torn.
Proof.
  intros S (Su & N & G & A). split_and!; [by constructor|done..|].
  intros id' i' [->|I]%elem_of_cons E; [left; auto|eauto].
Qed.

Lemma tears_take id ids seen c torn i : instance_at id c = Some i -> as_ptr i ∉ seen ->
  tears ids (seen ++ [as_ptr i]) c torn -> tears (id :: ids) seen c (id :: torn).
Proof.
  intros E S (Su & N & G & A). split_and!.
  - by constructor.
  - cbn [omap list_omap]. rewrite E. simpl. constructor; [|done]. intros (id' & I & E')%list_elem_of_omap.
    rewrite Forall_forall in G. destruct (G id' I) as (i' & Ei' & Ni'). rewrite Ei' in E'. simpl in E'. injection E' as E'.
    apply Ni'. rewrite E'. apply elem_of_app. right. by apply list_elem_of_singleton.
  - constructor; [by exists i|]. eapply Forall_impl; [exact G|]. intros id' (i' & Ei' & Ni'). exists i'. split; [done|].
    intros I. apply Ni', elem_of_app. by left.
  - intros id' i' [->|I]%elem_of_cons E'.
    + right. exists id, i. rewrite E in E'. injection E' as ->. split_and!; [by left|done..].
    + destruct (A id' i' I E') as [In|(id2 & i2 & I2 & E2 & P2)].
      * apply elem_of_app in In as [In|In%list_elem_of_singleton]; [by left|]. right. exists id, i. split_and!; [by left|done..].
      * right. exists id2, i2. split_and!; [by right|done..].
Qed.

Lemma run_hooks_spec ids seen c : Forall (fun id => is_Some (reg_at id c)) ids ->
  exists torn, tears ids seen c torn /\ forall w, run_hooks ids seen c w = teardowns torn c w.
Proof.
  intros F. revert seen. induction F as [|id ids [reg R] F IH]; intros seen.
  { exists []. split; [|done]. split_and!; [done|constructor..|]. intros id i I. by apply elem_of_nil in I. }
  cbn [run_hooks]. rewrite R. assert (instance_at id c = instance reg) as Ii by by unfold instance_at; rewrite R.
  destruct (instance reg) as [i|] eqn:Ei.
  2:{ destruct (IH seen) as (torn & T & E). exists torn. split; [|done]. apply tears_skip; [|done]. congruence. }
  case_bool_decide as D.
  { destruct (IH seen) as (torn & T & E). exists torn. split; [|done]. apply tears_skip; [|done]. congruence. }
  destruct (IH (seen ++ [as_ptr i])) as (torn & T & E). exists (id :: torn). split; [by eapply tears_take|].
  intros w. rewrite teardowns_cons. unfold teardown. rewrite R. simpl. rewrite Ei. simpl.
  destruct (destroy_hook reg) as [hook|]; [|apply E]. simpl. destruct (hook i w) as [w'|]; [apply E|done].
Qed.

Lemma evicted ids c id : id ∈ ids -> instance_at id (fold_left (fun c id => update_reg id (set_instance None) c) ids c) = None.
Proof.
  assert (forall ids c, instance_at id c = None -> instance_at id (fold_left (fun c id => update_reg id (set_instance None) c) ids c) = None) as Stay.
  { clear. induction ids as [|j ids IH]; intros c E; [done|]. simpl. apply IH. unfold instance_at in *.
    destruct (decide (id = j)) as [->|N].
    - rewrite reg_at_update. by destruct (reg_at j c).
    - unfold reg_at, update_reg in *. simpl. by rewrite list_lookup_alter_ne. }
  revert c. induction ids as [|j ids IH]; intros c I; [by apply elem_of_nil in I|]. simpl.
  apply elem_of_cons in I as [->|I]; [|by apply IH]. apply Stay. unfold instance_at. rewrite reg_at_update. by destruct (reg_at j c).
Qed.

(** Teardown: the hooks run on the beans that were built, the last registered
    first, once for each instance; unless a hook panics, nothing built is left in
    the registry afterwards. *)
Theorem destroy_tears_down c : consistent c ->
  exists torn, torn `sublist_of` rev (registered c) /\
    NoDup (omap (fun id => as_ptr <$> instance_at id c) torn) /\
    (forall id i, id ∈ registered c -> instance_at id c = Some i ->
      exists id' i', id' ∈ torn /\ instance_at id' c = Some i' /\ as_ptr i' = as_ptr i) /\
    forall w, match destroy c w with
              | Some (c', w') => teardowns torn c w = Some w' /\ forall id, id ∈ registered c -> instance_at id c' = None
              | None => teardowns torn c w = None
              end.
Proof.
  intros C. destruct (run_hooks_spec (rev (registered c)) [] c) as (torn & (S & N & _ & A) & E).
  { apply Forall_forall. intros id I%list_elem_of_In%in_rev%list_elem_of_In.
    destruct (listed_found c C id I) as (T & n & K & _). unfold key_at in K. by destruct (reg_at id c). }
  exists torn. split_and!; [done..| |].
  - intros id i I Ei. destruct (A id i) as [Z|?]; [|done|by apply elem_of_nil in Z|done].
    apply list_elem_of_In. apply -> in_rev. by apply list_elem_of_In.
  - intros w. unfold destroy. rewrite E. destruct (teardowns torn c w) as [w'|]; [|done]. simpl. split; [done|].
    intros id I. by apply evicted.
Qed.
End Teardown.

(** * A concrete application *)
Module ScanDemo.
Import Demo.

Definition a_bean (T : nat) : SyncBean (W := World) :=
  mkSyncBean (T : @code numbered) Singleton [] false 0 (constant (N.of_nat T)) (lit "component") [] None None.
Definition component (T : nat) (order : Z) (conditions : list Condition) : ComponentRegistration (W := World) :=
  mkComponent (@type_name numbered T) (lit "app") [] Component Singleton false order false
    (run_registrar allocate (Sync (a_bean T))) conditions.

Lemma component_synchronous T order conditions : synchronous allocate (component T order conditions).
Proof. by exists (a_bean T). Qed.
Lemma component_emitted T order conditions : emitted allocate (component T order conditions).
Proof. by exists (Sync (a_bean T)). Qed.

(** A bean is resolved, another type registered and resolved, the dependency's
    instance reset: it is still the same. *)
Definition meanwhile : list (Op (W := World)) :=
  [OpFactory (3%nat : @code numbered) (Builtin Singleton) [] true 0 (above 1%nat); OpReset 2%nat;
   OpRun (ResolveAll 3%nat (fun _ => Panic)) start []; OpStereotype 1%nat (lit "service")].

Lemma singleton_is_shared_witness :
  fst (ask 1%nat (fresh (after allocate still quoted meanwhile (con (snd (ask 1%nat (fresh service))))))) = Returns (Ok (mkArc 2 42%N)).
Proof.
  refine (singleton_is_shared allocate still quoted (1%nat : @code numbered) (fresh service) 1%nat 0%nat
    (new_registration (1%nat : @code numbered) (Builtin Singleton) [] false 0 (erase_factory allocate (above 2%nat)) None)
    (mkArc 2 42%N) (snd (ask 1%nat (fresh service))) meanwhile start [] _ _ _ _ _ _ _).
  - exact (registries_agree allocate still quoted
      [OpFactory (2%nat : @code numbered) (Builtin Singleton) [] false 0 (constant 41);
       OpFactory (1%nat : @code numbered) (Builtin Singleton) [] false 0 (above 2%nat)]).
  - constructor.
  - vm_compute. reflexivity.
  - vm_compute. reflexivity.
  - reflexivity.
  - vm_compute. reflexivity.
  - repeat constructor; discriminate.
Defined.

(** A reset, or another registration of the type, and the next resolution builds
    anew. *)
Example reset_rebuilds :
  let st := snd (ask 1%nat (fresh service)) in
  let again c := result (ask 1%nat (mkSt c (world st) [])) in
  (again (con st), again (snd (reset_instance (1%nat : @code numbered) (con st))),
   again (factory_of 1%nat Singleton (constant 7) (con st)))
  = (Some (Ok (2%positive, 42%N)), Some (Ok (3%positive, 42%N)), Some (Ok (3%positive, 7%N))).
Proof. vm_compute. reflexivity. Qed.

(** The application's own clock, and two that stand in for a missing one. *)
Definition clocks : list ComponentRegistration :=
  [component 1 0 [OnMissingBean (lit "T2")]; component 2 5 [OnMissingBean (lit "T2")];
   component 2 3 [Profile (lit "test")]; component 2 4 [OnMissingBean (lit "T2")]].

Lemma clocks_yield : Forall (yields (lit "T2")) clocks.
Proof.
  repeat apply Forall_cons_2; [..|by apply Forall_nil]; intros N D.
  - by vm_compute in N.
  - exists (lit "T2"). split; [done|by left].
  - by vm_compute in D.
  - exists (lit "T2"). split; [done|by left].
Qed.

Definition in_production : Container (W := World) := set_condition_context (with_profiles [lit "prod"] context_new) container_new.

Lemma clocks_surviving : survivors clocks in_production =
  [component 1 0 [OnMissingBean (lit "T2")]; component 2 4 [OnMissingBean (lit "T2")]; component 2 5 [OnMissingBean (lit "T2")]].
Proof. reflexivity. Qed.

Lemma scan_fills_gaps_witness : count_assignable_by_name (lit "T2") (snd (register_scanned clocks in_production)) = 1%nat.
Proof.
  refine (proj2 (proj2 (proj2 (scan_fills_gaps allocate clocks in_production (lit "T2") _ _ clocks_yield)) _) _).
  - by apply (same_registries container_new), new_consistent.
  - repeat apply Forall_cons_2; [apply component_emitted..|by apply Forall_nil].
  - vm_compute. reflexivity.
  - apply Exists_exists. exists (component 2 4 [OnMissingBean (lit "T2")]). split.
    + rewrite clocks_surviving. by do 2 constructor.
    + split; [|reflexivity]. split; [|apply component_synchronous]. split; [reflexivity|]. intros cond [<-|[]] _. by exists (lit "T2").
Defined.

(** An unconditional bean of an [async] method and a fallback for its absence:
    the scan finds the type missing and registers the fallback, and the
    initializer then installs the bean beside it. *)
Definition async_clock : ComponentRegistration (W := World) :=
  mkComponent (@type_name numbered 2%nat) (lit "app") (lit "clock") Bean Singleton false 0 false
    (run_registrar allocate (Parked (mkAsyncInit (2%nat : @code numbered) Singleton (lit "clock") false 0 (lit "bean") [] (constant 2)))) [].
Example async_bean_and_fallback :
  let scanned := snd (register_scanned [async_clock; component 2 4 [OnMissingBean (lit "T2")]] in_production) in
  let ready := con (snd (init_async_beans allocate still quoted (fresh scanned))) in
  (count_assignable_by_name (lit "T2") scanned, count_assignable_by_name (lit "T2") ready) = (1%nat, 2%nat) /\
  fst (ask 2%nat (snd (init_async_beans allocate still quoted (fresh scanned))))
    = Returns (Err (NoUniqueBean (lit "app::T2") [lit "app::T2"; lit "clock"])).
Proof. vm_compute. split; reflexivity. Qed.

(** A service is registered before the repository it is built on. A hook writes
    the digit of its type at the end of a number. *)
Definition writes (T : nat) (a : Arc T) (w : World) : option World :=
  Some (mkWorld (next w * 10 + Pos.of_nat T) (cache w)).
Definition layered : Container :=
  set_destroy_hook 2%nat (writes 2) (factory_of 2%nat Singleton (constant 41)
    (set_destroy_hook 1%nat (writes 1) (factory_of 1%nat Singleton (above 2%nat) container_new))).
Definition built : St (W := World) := snd (ask 1%nat (fresh layered)).

Lemma layered_consistent : consistent (con built).
Proof.
  apply (shape_consistent layered).
  { apply kept_shape. exact (proj1 (tame_resolve still quoted (1%nat : @code numbered) (fresh layered))). }
  unfold layered, set_destroy_hook. eapply shape_consistent; [by apply latest_shape|]. apply publish_consistent; [|done..].
  eapply shape_consistent; [by apply latest_shape|]. apply publish_consistent; [apply new_consistent|done..].
Qed.

(** The repository was built first and goes first: the order is that of
    registration reversed, not that of construction. *)
Example dependency_goes_first :
  as_ptr <$> instance_at 1%nat (con built) = Some 1%positive /\ as_ptr <$> instance_at 0%nat (con built) = Some 2%positive /\
  next ∘ snd <$> destroy (con built) start = Some 121%positive.
Proof. vm_compute. repeat split; reflexivity. Qed.

Lemma destroy_tears_down_witness :
  exists torn, torn `sublist_of` [1%nat; 0%nat] /\ teardowns torn (con built) start = Some (mkWorld 121 ∅).
Proof.
  destruct (destroy_tears_down (con built) layered_consistent) as (torn & S & _ & _ & D). exists torn. split; [exact S|].
  specialize (D start). destruct (destroy (con built) start) as [[c' w']|] eqn:E; [|by vm_compute in E].
  destruct D as [D _]. rewrite D. f_equal. assert (snd <$> destroy (con built) start = Some w') as E' by by rewrite E.
  vm_compute in E'. by injection E'.
Defined.
End ScanDemo.
