(* ===== verification/Kernel.v ===== *)
(** The kernel: [crates/kernel] - the typed error of the framework
    ([errors.rs]), its wire form ([problem.rs], [error_response.rs]), the
    building blocks of [ddd.rs], the clocks of [clock.rs] and the ambient
    identifiers of [correlation.rs].

    A [dyn Error] is what the code can see of it: an error of the framework, or
    a foreign one with its text and its source. A JSON document is a value of
    [Json.v]; its text is written by the code's own writer. *)
From Stdlib Require Import Ascii String.
From Stdlib Require Import ZArith NArith List Lia.
From stdpp Require Import base decidable list gmap.
From S2P Require Import Prelude Str Unicode Order Json.

(** * Problem details *)

Definition PROBLEM_CONTENT_TYPE : str := lit "application/problem+json".
Definition TYPE_BAD_REQUEST : str := lit "https://fireflyframework.org/problems/bad-request".
Definition TYPE_UNAUTHORIZED : str := lit "https://fireflyframework.org/problems/unauthorized".
Definition TYPE_FORBIDDEN : str := lit "https://fireflyframework.org/problems/forbidden".
Definition TYPE_NOT_FOUND : str := lit "https://fireflyframework.org/problems/not-found".
Definition TYPE_CONFLICT : str := lit "https://fireflyframework.org/problems/conflict".
Definition TYPE_UNPROCESSABLE : str := lit "https://fireflyframework.org/problems/unprocessable-entity".
Definition TYPE_RATE_LIMITED : str := lit "https://fireflyframework.org/problems/rate-limited".
Definition TYPE_INTERNAL : str := lit "https://fireflyframework.org/problems/internal-error".
Definition TYPE_VALIDATION : str := lit "https://fireflyframework.org/problems/validation".
Definition TYPE_IDEMPOTENCY : str := lit "https://fireflyframework.org/problems/idempotency-conflict".

Record ProblemDetail (V : Type) : Type := mkProblem {
  problem_type : str;
  problem_title : str;
  problem_status : Z;
  problem_detail : str;
  instance : str;
  extensions : gmap str V
}.
Arguments mkProblem {V}. Arguments problem_type {V}. Arguments problem_title {V}. Arguments problem_status {V}.
Arguments problem_detail {V}. Arguments instance {V}. Arguments extensions {V}.

Section Problem.
Context {V : Type}.
Implicit Types (pd : ProblemDetail V).

Definition problem_default : ProblemDetail V := mkProblem [] [] 0 [] [] ∅.
Definition problem_new (ty title : str) (status : Z) (detail : str) : ProblemDetail V :=
  mkProblem ty title status detail [] ∅.
Definition with_instance (i : str) pd : ProblemDetail V :=
  mkProblem (problem_type pd) (problem_title pd) (problem_status pd) (problem_detail pd) i (extensions pd).
Definition problem_with (k : str) (v : V) pd : ProblemDetail V :=
  mkProblem (problem_type pd) (problem_title pd) (problem_status pd) (problem_detail pd) (instance pd)
    (<[k := v]> (extensions pd)).

Definition problem_bad_request : str -> ProblemDetail V := problem_new TYPE_BAD_REQUEST (lit "Bad Request") 400.
Definition problem_unauthorized : str -> ProblemDetail V := problem_new TYPE_UNAUTHORIZED (lit "Unauthorized") 401.
Definition problem_forbidden : str -> ProblemDetail V := problem_new TYPE_FORBIDDEN (lit "Forbidden") 403.
Definition problem_not_found : str -> ProblemDetail V := problem_new TYPE_NOT_FOUND (lit "Not Found") 404.
Definition problem_conflict : str -> ProblemDetail V := problem_new TYPE_CONFLICT (lit "Conflict") 409.
Definition problem_unprocessable : str -> ProblemDetail V :=
  problem_new TYPE_UNPROCESSABLE (lit "Unprocessable Entity") 422.
Definition problem_rate_limited : str -> ProblemDetail V :=
  problem_new TYPE_RATE_LIMITED (lit "Too Many Requests") 429.
Definition problem_internal : str -> ProblemDetail V := problem_new TYPE_INTERNAL (lit "Internal Server Error") 500.
Definition problem_validation : str -> ProblemDetail V := problem_new TYPE_VALIDATION (lit "Validation Failed") 422.
End Problem.

(** * The text of a document *)

(** [format!("{:04x}", c)] of a code point below [2 ^ 16]. *)
Definition hex_digit (d : N) : char := if (d <? 10)%N then (d + 48)%N else (d + 87)%N.
Definition hex4 (c : char) : str :=
  [hex_digit (c / 4096); hex_digit (c / 256 mod 16); hex_digit (c / 16 mod 16); hex_digit (c mod 16)]%N.
Definition unicode_escape (c : char) : str := [92; 117]%N ++ hex4 c.

Definition go_char (c : char) : str :=
  if (c =? 34)%N then [92; 34]%N
  else if (c =? 92)%N then [92; 92]%N
  else if (c =? 8)%N then [92; 98]%N
  else if (c =? 12)%N then [92; 102]%N
  else if (c =? 10)%N then [92; 110]%N
  else if (c =? 13)%N then [92; 114]%N
  else if (c =? 9)%N then [92; 116]%N
  else if (c =? 60)%N || (c =? 62)%N || (c =? 38)%N then unicode_escape c
  else if (c =? 8232)%N || (c =? 8233)%N then unicode_escape c
  else if (c <? 32)%N then unicode_escape c
  else [c].

Definition write_go_string (s : str) : str := [34%N] ++ flat_map go_char s ++ [34%N].

Section Text.
Context {V : Type} `{JsonEntries V}.

Definition by_key (a b : str * V) : comparison := str_compare (fst a) (fst b).

(** [depth] bounds the nesting of the document. *)
Fixpoint write_go_value (depth : nat) (value : V) : option str :=
  match depth with
  | O => None
  | S depth =>
      match view value with
      | Value.Null => Some (lit "null")
      | Value.Bool b => Some (if b then lit "true" else lit "false")
      | Value.Number _ => Some (value_to_string value)
      | Value.String s => Some (write_go_string s)
      | Value.Array items =>
          parts ← mapM (write_go_value depth) items;
          Some ([91%N] ++ join [44%N] parts ++ [93%N])
      | Value.Object m =>
          parts ← mapM (fun '(k, v) => text ← write_go_value depth v; Some (write_go_string k ++ [58%N] ++ text))
                    (sort_by by_key (entries m));
          Some ([123%N] ++ join [44%N] parts ++ [125%N])
      end
  end.

Definition insert_text (k s : str) (out : gmap str V) : gmap str V :=
  match s with [] => out | _ => <[k := json_string s]> out end.

(** The members of the document: the standard ones that are set, then the
    extensions that do not collide with them. *)
Definition problem_members (pd : ProblemDetail V) : gmap str V :=
  let out := insert_text (lit "type") (problem_type pd) ∅ in
  let out := insert_text (lit "title") (problem_title pd) out in
  let out := if problem_status pd =? 0 then out else <[lit "status" := value_of_Z (problem_status pd)]> out in
  let out := insert_text (lit "detail") (problem_detail pd) out in
  let out := insert_text (lit "instance") (instance pd) out in
  out ∪ extensions pd.

(** [Value::Object(out.into_iter().collect())]. *)
Definition problem_value (pd : ProblemDetail V) : V :=
  json_object (foldr (fun '(k, v) m => map_insert k v m) map_new (map_to_list (problem_members pd))).

Definition problem_text (depth : nat) (pd : ProblemDetail V) : option str := write_go_value depth (problem_value pd).

Definition take_string (raw : gmap str V) (key : str) : option str * gmap str V :=
  match raw !! key with
  | Some v => match view v with Value.String s => (Some s, delete key raw) | _ => (None, raw) end
  | None => (None, raw)
  end.

(** [v.as_f64().unwrap_or(0.0) as u16]: the cast saturates. *)
Definition status_of_number (n : option f64) : Z :=
  match n with Some x => Z.min 65535 (f64_to_u64 x) | None => 0 end.

Definition take_status (raw : gmap str V) : Z * gmap str V :=
  match raw !! lit "status" with
  | Some v => match view v with
              | Value.Number n => (status_of_number (as_f64 n), delete (lit "status") raw)
              | _ => (0, raw)
              end
  | None => (0, raw)
  end.

Definition or_empty (s : option str) : str := default [] s.

Definition problem_of_members (raw : gmap str V) : ProblemDetail V :=
  let '(ty, raw) := take_string raw (lit "type") in
  let '(title, raw) := take_string raw (lit "title") in
  let '(status, raw) := take_status raw in
  let '(detail, raw) := take_string raw (lit "detail") in
  let '(inst, raw) := take_string raw (lit "instance") in
  mkProblem (or_empty ty) (or_empty title) status (or_empty detail) (or_empty inst) raw.

(** The deserializer asks for an object. *)
Definition problem_of_value (v : V) : option (ProblemDetail V) :=
  match view v with
  | Value.Object m => Some (problem_of_members (list_to_map (entries m)))
  | _ => None
  end.
End Text.

(** * The typed error *)

(** The error over the type of its cause. *)
Record FireflyErrorOf (V C : Type) : Type := mkFirefly {
  code : str;
  title : str;
  status : Z;
  detail : str;
  fields : gmap str V;
  cause : option C
}.
Arguments mkFirefly {V C}. Arguments code {V C}. Arguments title {V C}. Arguments status {V C}.
Arguments detail {V C}. Arguments fields {V C}. Arguments cause {V C}.

(** [dyn Error]: what [downcast_ref], [source] and [to_string] see. *)
Inductive StdError (V : Type) : Type :=
| Framework (e : FireflyErrorOf V (StdError V))
| Foreign (message : str) (source : option (StdError V)).
Arguments Framework {V} e. Arguments Foreign {V} message source.

Abbreviation FireflyError V := (FireflyErrorOf V (StdError V)).
Abbreviation FireflyResult V T := (Result T (FireflyError V)).

Definition error_source {V} (err : StdError V) : option (StdError V) :=
  match err with Framework e => cause e | Foreign _ source => source end.

Section Errors.
Context {V : Type} `{JsonValue V}.
Implicit Types (e : FireflyError V) (err : StdError V).

Definition error_new (c t : str) (s : Z) (d : str) : FireflyError V := mkFirefly c t s d ∅ None.
Definition with_field (k : str) (v : V) e : FireflyError V :=
  mkFirefly (code e) (title e) (status e) (detail e) (<[k := v]> (fields e)) (cause e).
Definition with_cause (c : StdError V) e : FireflyError V :=
  mkFirefly (code e) (title e) (status e) (detail e) (fields e) (Some c).

(** [Display]. *)
Definition error_to_string e : str :=
  code e ++ lit ": " ++ match detail e with [] => title e | d => d end.
Definition std_to_string err : str :=
  match err with Framework e => error_to_string e | Foreign message _ => message end.

Definition to_problem e : ProblemDetail V :=
  foldr (fun '(k, v) pd => problem_with k v pd) (problem_new (code e) (title e) (status e) (detail e))
    (map_to_list (fields e)).

Definition bad_request : str -> FireflyError V := error_new TYPE_BAD_REQUEST (lit "Bad Request") 400.
Definition unauthorized : str -> FireflyError V := error_new TYPE_UNAUTHORIZED (lit "Unauthorized") 401.
Definition forbidden : str -> FireflyError V := error_new TYPE_FORBIDDEN (lit "Forbidden") 403.
Definition not_found : str -> FireflyError V := error_new TYPE_NOT_FOUND (lit "Not Found") 404.
Definition conflict : str -> FireflyError V := error_new TYPE_CONFLICT (lit "Conflict") 409.
Definition validation : str -> FireflyError V := error_new TYPE_VALIDATION (lit "Validation Failed") 422.
Definition rate_limited : str -> FireflyError V := error_new TYPE_RATE_LIMITED (lit "Too Many Requests") 429.
Definition internal : str -> FireflyError V := error_new TYPE_INTERNAL (lit "Internal Server Error") 500.
Definition idempotency_conflict : str -> FireflyError V := error_new TYPE_IDEMPOTENCY (lit "Idempotency Conflict") 409.

Definition business_rule (rule d : str) : FireflyError V :=
  let d := match d with [] => lit "Business rule violated: " ++ rule | _ => d end in
  with_field (lit "rule") (json_string rule)
    (error_new (lit "DOMAIN_RULE_VIOLATION") (lit "Business Rule Violation") 422 d).

(** The trait [AggregateId]: string-like ids are quoted, numeric ones bare. *)
Inductive AggregateId : Type :=
| Quoted (s : str)
| Bare (s : str).

Definition repr_quote (s : str) : char := if contains 39%N s && negb (contains 34%N s) then 34%N else 39%N.
Definition repr_char (quote c : char) : str :=
  if (c =? 92)%N then [92; 92]%N else if (c =? quote)%N then [92%N; c] else [c].
Definition python_str_repr (s : str) : str :=
  [repr_quote s] ++ flat_map (repr_char (repr_quote s)) s ++ [repr_quote s].

Definition aggregate_id_repr (id : AggregateId) : str :=
  match id with Quoted s => python_str_repr s | Bare s => s end.
Definition aggregate_id_str (id : AggregateId) : str := match id with Quoted s | Bare s => s end.

Definition aggregate_not_found (aggregate_type : str) (id : AggregateId) : FireflyError V :=
  with_field (lit "id") (json_string (aggregate_id_str id))
    (with_field (lit "aggregate_type") (json_string aggregate_type)
      (error_new (lit "DOMAIN_AGGREGATE_NOT_FOUND") (lit "Aggregate Not Found") 404
        (aggregate_type ++ lit " with id=" ++ aggregate_id_repr id ++ lit " not found"))).

(** The walk of the source chain. *)
Fixpoint find_firefly err : option (FireflyError V) :=
  match err with
  | Framework e => Some e
  | Foreign _ None => None
  | Foreign _ (Some source) => find_firefly source
  end.

Definition is_firefly err : bool := bool_decide (is_Some (find_firefly err)).
Definition status_of err : Z := match find_firefly err with Some e => status e | None => 500 end.
Definition as_problem err : ProblemDetail V :=
  match find_firefly err with
  | Some e => to_problem e
  | None => problem_internal (std_to_string err)
  end.
End Errors.

(** * The structured error response *)

Inductive ErrorCategory : Type :=
  Validation | Business | Technical | Security | External | Resource | RateLimit | CircuitBreakerOpen.
Inductive ErrorSeverity : Type := Low | Medium | High | Critical.

Definition category_str (c : ErrorCategory) : str :=
  match c with
  | Validation => lit "VALIDATION" | Business => lit "BUSINESS" | Technical => lit "TECHNICAL"
  | Security => lit "SECURITY" | External => lit "EXTERNAL" | Resource => lit "RESOURCE"
  | RateLimit => lit "RATE_LIMIT" | CircuitBreakerOpen => lit "CIRCUIT_BREAKER"
  end.
Definition category_default : ErrorCategory := Technical.
Definition severity_str (s : ErrorSeverity) : str :=
  match s with Low => lit "LOW" | Medium => lit "MEDIUM" | High => lit "HIGH" | Critical => lit "CRITICAL" end.
Definition severity_default : ErrorSeverity := Medium.

Record FieldError (V : Type) : Type := mkFieldError { field : str; field_message : str; rejected_value : V }.
Arguments mkFieldError {V}. Arguments field {V}. Arguments field_message {V}. Arguments rejected_value {V}.

Record ErrorResponse (V : Type) : Type := mkResponse {
  timestamp : str;
  response_status : Z;
  error_name : str;
  message : str;
  response_code : str;
  response_path : str;
  trace_id : option str;
  span_id : option str;
  transaction_id : option str;
  category : ErrorCategory;
  severity : ErrorSeverity;
  retryable : bool;
  retry_after : option Z;
  field_errors : list (FieldError V);
  debug_info : option (gmap str V);
  suggestion : option str;
  documentation_url : option str
}.
Arguments mkResponse {V}. Arguments timestamp {V}. Arguments response_status {V}. Arguments error_name {V}.
Arguments message {V}. Arguments response_code {V}. Arguments response_path {V}. Arguments trace_id {V}.
Arguments span_id {V}. Arguments transaction_id {V}. Arguments category {V}. Arguments severity {V}.
Arguments retryable {V}. Arguments retry_after {V}. Arguments field_errors {V}. Arguments debug_info {V}.
Arguments suggestion {V}. Arguments documentation_url {V}.

Section Response.
Context {V : Type} `{JsonValue V}.

Definition field_error_new (f m : str) : FieldError V := mkFieldError f m json_null.
Definition with_rejected_value (v : V) (f : FieldError V) : FieldError V := mkFieldError (field f) (field_message f) v.

Definition response_new (ts : str) (s : Z) (error msg c path : str) : ErrorResponse V :=
  mkResponse ts s error msg c path None None None category_default severity_default false None [] None None None.

Definition field_error_value (f : FieldError V) : V :=
  json_object (map_insert (lit "field") (json_string (field f))
    (map_insert (lit "message") (json_string (field_message f))
      (map_insert (lit "rejected_value") (rejected_value f) map_new))).

Definition entry_if {A} (k : str) (f : A -> V) (o : option A) : list (str * V) :=
  match o with Some a => [(k, f a)] | None => [] end.

(** The entries of the serialized map, in the order they are written. *)
Definition response_entries (r : ErrorResponse V) : list (str * V) :=
  [(lit "timestamp", json_string (timestamp r)); (lit "status", value_of_Z (response_status r));
   (lit "error", json_string (error_name r)); (lit "message", json_string (message r));
   (lit "code", json_string (response_code r)); (lit "path", json_string (response_path r));
   (lit "category", json_string (category_str (category r))); (lit "severity", json_string (severity_str (severity r)));
   (lit "retryable", inject (Value.Bool (retryable r)))] ++
  entry_if (lit "trace_id") json_string (trace_id r) ++
  entry_if (lit "span_id") json_string (span_id r) ++
  entry_if (lit "transaction_id") json_string (transaction_id r) ++
  entry_if (lit "retry_after") value_of_Z (retry_after r) ++
  entry_if (lit "suggestion") json_string (suggestion r) ++
  entry_if (lit "documentation_url") json_string (documentation_url r) ++
  match field_errors r with [] => [] | fs => [(lit "field_errors", json_array (map field_error_value fs))] end ++
  entry_if (lit "debug_info") (fun m => json_object (foldr (fun '(k, v) => map_insert k v) map_new (map_to_list m)))
    (debug_info r).

Definition response_value (r : ErrorResponse V) : V :=
  json_object (foldl (fun m '(k, v) => map_insert k v m) map_new (response_entries r)).
End Response.

(** * Domain building blocks *)

Section Specifications.
Context {T : Type}.
Definition Spec : Type := T -> bool.
Definition and_spec (a b : Spec) : Spec := fun candidate => a candidate && b candidate.
Definition or_spec (a b : Spec) : Spec := fun candidate => a candidate || b candidate.
Definition not_spec (a : Spec) : Spec := fun candidate => negb (a candidate).
End Specifications.

(** The trait [Entity]. *)
Class Entity (T Id : Type) : Type := { entity_id : T -> option Id }.
Section Entity.
Context {T Id : Type} `{EqDecision Id} `{!Entity T Id}.
Definition is_transient (e : T) : bool := bool_decide (entity_id e = None).
Definition same_identity (a b : T) : bool :=
  match entity_id a, entity_id b with Some x, Some y => bool_decide (x = y) | _, _ => false end.
End Entity.

(** [full.split('<').next()], then the last ["::"] of it. *)
Fixpoint rfind_path (s : str) : option nat :=
  match s with
  | [] => None
  | c :: s' =>
      match rfind_path s' with
      | Some i => Some (S i)
      | None => match s' with d :: _ => if (c =? 58)%N && (d =? 58)%N then Some O else None | [] => None end
      end
  end.
Definition short_type_name (full : str) : str :=
  let base := default full (head (split 60%N full)) in
  match rfind_path base with Some i => drop (i + 2) full | None => full end.

(** The buffer of raised events. *)
Definition PendingEvents (E : Type) : Type := list E.
Definition pending_new {E} : PendingEvents E := [].
Definition raise {E} (e : E) (p : PendingEvents E) : PendingEvents E := p ++ [e].
Definition pending {E} (p : PendingEvents E) : list E := p.
Definition drain {E} (p : PendingEvents E) : list E * PendingEvents E := (p, []).
Definition pending_len {E} (p : PendingEvents E) : nat := List.length p.
Definition pending_is_empty {E} (p : PendingEvents E) : bool := (pending_len p =? 0)%nat.

(** * Clocks

    An instant counts nanoseconds; [representable] is [chrono]'s range, out of
    which its addition panics. *)
Section Clocks.
Variable representable : Z -> bool.
Definition fixed_now (t : Z) : Z := t.
Definition mutable_new (t : Z) : Z := t.
Definition mutable_default : Z := 0.
Definition advance (d : Z) : M Z unit := fun t => if representable (t + d) then Some (tt, t + d) else None.
Definition set_clock (t : Z) : M Z unit := fun _ => Some (tt, t).
Definition mutable_now : M Z Z := fun t => Some (t, t).
End Clocks.

(** * The ambient identifiers

    A task-local slot holds the innermost scope's value; a scope puts the outer
    one back when it ends. *)
Definition HEADER_CORRELATION_ID : str := lit "X-Correlation-Id".
Definition HEADER_IDEMPOTENCY_KEY : str := lit "Idempotency-Key".
Definition HEADER_REQUEST_ID : str := lit "X-Request-Id".
Definition HEADER_TENANT_ID : str := lit "X-Tenant-Id".

Record Slots : Type := mkSlots { slot_correlation : option str; slot_request : option str; slot_tenant : option str }.

Section Ambient.
Context {W R : Type}.
Abbreviation Task := (M (Slots * W)).

Definition scoped (put : option str -> Slots -> Slots) (get : Slots -> option str) (id : str)
    (f : Task R) : Task R := fun '(s, w) =>
  match f (put (Some id) s, w) with
  | Some (r, (s', w')) => Some (r, (put (get s) s', w'))
  | None => None
  end.
Definition put_correlation (o : option str) (s : Slots) : Slots := mkSlots o (slot_request s) (slot_tenant s).
Definition put_request (o : option str) (s : Slots) : Slots := mkSlots (slot_correlation s) o (slot_tenant s).
Definition put_tenant (o : option str) (s : Slots) : Slots := mkSlots (slot_correlation s) (slot_request s) o.

Definition with_correlation_id : str -> Task R -> Task R := scoped put_correlation slot_correlation.
Definition with_request_id : str -> Task R -> Task R := scoped put_request slot_request.
Definition with_tenant_id : str -> Task R -> Task R := scoped put_tenant slot_tenant.
End Ambient.

Definition non_empty (o : option str) : option str := match o with Some [] => None | _ => o end.
Definition correlation_id (s : Slots) : option str := non_empty (slot_correlation s).
Definition request_id (s : Slots) : option str := non_empty (slot_request s).
Definition tenant_id (s : Slots) : option str := non_empty (slot_tenant s).

(** * Problem details survive the wire *)

(** [Value::from(u16)] is a number of that value. *)
Class JsonIntegers (V : Type) `{JsonValue V} : Prop := {
  value_of_Z_number : forall z, exists n, view (value_of_Z z) = Value.Number n /\ as_f64 n = Some (f64_of_Z z)
}.
#[export] Instance json_integers : JsonIntegers json.
Proof. split. intros z. by exists (inl z). Qed.

(** A check of every integer from [z] on. *)
Fixpoint check_from (p : Z -> bool) (n : nat) (z : Z) : bool :=
  match n with O => true | S n => p z && check_from p n (z + 1) end.
Lemma check_from_spec p n : forall z, check_from p n z = true -> forall x, z <= x < z + Z.of_nat n -> p x = true.
Proof.
  induction n as [|n IH]; intros z C x B; [lia|]. cbn in C. apply andb_true_iff in C as [C1 C2].
  destruct (Z.eq_dec x z) as [->|N]; [done|]. apply (IH (z + 1)); [done|lia].
Qed.

Lemma status_of_u16 z : 0 <= z < 2 ^ 16 -> status_of_number (Some (f64_of_Z z)) = z.
Proof.
  intros B. apply Z.eqb_eq.
  apply (check_from_spec (fun n => Z.eqb (status_of_number (Some (f64_of_Z n))) n) (N.to_nat 65536) 0);
    [vm_compute; reflexivity|lia].
Qed.

Definition standard_members : list str :=
  [lit "type"; lit "title"; lit "status"; lit "detail"; lit "instance"].

Section Wire.
Context {V : Type} `{JsonEntries V} `{!JsonLaws V} `{!JsonIntegers V}.
Implicit Types (pd : ProblemDetail V) (raw rest : gmap str V).

Lemma entries_of_map raw :
  (list_to_map (entries (foldr (fun '(k, v) m => map_insert k v m) map_new (map_to_list raw))) : gmap str V) = raw.
Proof.
  apply map_eq. intros k. rewrite <- entries_get. rewrite <- (list_to_map_to_list raw) at 2.
  generalize (map_to_list raw). intros l. induction l as [|[k' v] l IH]; cbn.
  - by rewrite map_get_new, lookup_empty.
  - destruct (decide (k = k')) as [->|N].
    + by rewrite map_get_insert, lookup_insert_eq.
    + by rewrite map_get_insert_ne, lookup_insert_ne.
Qed.

Definition text_member (s : str) : option V := match s with [] => None | _ => Some (json_string s) end.
Definition status_member (z : Z) : option V := if z =? 0 then None else Some (value_of_Z z).

Lemma take_text key s raw : raw !! key = text_member s ->
  exists o, take_string raw key = (o, delete key raw) /\ or_empty o = s.
Proof.
  intros E. unfold take_string. rewrite E. destruct s as [|c s]; cbn.
  - exists None. by rewrite delete_id.
  - exists (Some (c :: s)). unfold json_string. by rewrite view_inject.
Qed.

Lemma take_status_member z raw : 0 <= z < 2 ^ 16 -> raw !! lit "status" = status_member z ->
  take_status raw = (z, delete (lit "status") raw).
Proof.
  intros B E. unfold take_status. rewrite E. unfold status_member. destruct (Z.eqb_spec z 0) as [->|D].
  - rewrite delete_id; [done|]. by rewrite E.
  - destruct (value_of_Z_number z) as (n & -> & ->). by rewrite status_of_u16.
Qed.

Lemma insert_text_lookup k s raw key :
  insert_text k s raw !! key = if decide (key = k) then from_option Some (raw !! key) (text_member s) else raw !! key.
Proof.
  unfold insert_text, text_member. destruct s; cbn; [by destruct (decide _)|].
  destruct (decide (key = k)) as [->|N]; [by rewrite lookup_insert_eq|by rewrite lookup_insert_ne].
Qed.

Lemma insert_status_lookup z raw key :
  (if z =? 0 then raw else <[lit "status" := value_of_Z z]> raw) !! key
  = if decide (key = lit "status") then from_option Some (raw !! key) (status_member z) else raw !! key.
Proof.
  unfold status_member. generalize (lit "status"). intros k. destruct (z =? 0); cbn; [by destruct (decide _)|].
  destruct (decide (key = k)) as [->|N]; [by rewrite lookup_insert_eq|by rewrite lookup_insert_ne].
Qed.

(** Where a member of the document comes from. *)
Definition member_of pd (key : str) : option V :=
  if decide (key = lit "instance") then text_member (instance pd)
  else if decide (key = lit "detail") then text_member (problem_detail pd)
  else if decide (key = lit "status") then status_member (problem_status pd)
  else if decide (key = lit "title") then text_member (problem_title pd)
  else if decide (key = lit "type") then text_member (problem_type pd)
  else None.

Lemma members_lookup pd key :
  problem_members pd !! key = match member_of pd key with Some v => Some v | None => extensions pd !! key end.
Proof.
  unfold problem_members, member_of. rewrite lookup_union.
  rewrite !insert_text_lookup, insert_status_lookup, !insert_text_lookup, lookup_empty.
  repeat case_decide; try congruence; subst; try discriminate;
    repeat match goal with |- context [from_option _ _ ?o] => destruct o; cbn end;
    by destruct (extensions pd !! _).
Qed.
End Wire.

(** A problem document read back from its own wire form is the same
    problem, extensions included, whichever of its standard members are unset;
    the status keeps to 16 bits, and no extension has a standard member's
    name. *)
Theorem problem_round_trip {V} `{JsonEntries V} `{!JsonLaws V} `{!JsonIntegers V} (pd : ProblemDetail V)
    (Bits : 0 <= problem_status pd < 2 ^ 16)
    (Apart : Forall (fun k => extensions pd !! k = None) standard_members) :
  problem_of_value (problem_value pd) = Some pd.
Proof.
  unfold standard_members in Apart. rewrite !Forall_cons in Apart.
  destruct Apart as (A1 & A2 & A3 & A4 & A5 & _).
  unfold problem_of_value, problem_value, json_object. rewrite view_inject, entries_of_map.
  unfold problem_of_members.
  assert (forall key, extensions pd !! key = None -> problem_members pd !! key = member_of pd key) as Own.
  { intros key E. rewrite members_lookup, E. by destruct (member_of pd key). }
  destruct (take_text (lit "type") (problem_type pd) (problem_members pd)) as (o1 & -> & E1); [by rewrite Own|].
  destruct (take_text (lit "title") (problem_title pd) (delete (lit "type") (problem_members pd)))
    as (o2 & -> & E2); [rewrite lookup_delete_ne by done; by rewrite Own|].
  rewrite (take_status_member (problem_status pd)); [|done|rewrite !lookup_delete_ne by done; by rewrite Own].
  match goal with |- context [take_string ?r (lit "detail")] =>
    destruct (take_text (lit "detail") (problem_detail pd) r) as (o3 & -> & E3);
      [rewrite !lookup_delete_ne by done; by rewrite Own|] end.
  match goal with |- context [take_string ?r (lit "instance")] =>
    destruct (take_text (lit "instance") (instance pd) r) as (o4 & -> & E4);
      [rewrite !lookup_delete_ne by done; by rewrite Own|] end.
  rewrite E1, E2, E3, E4. destruct pd as [ty ti st de ins ext]. cbn [extensions] in *. do 2 f_equal.
  apply map_eq. intros key. rewrite !lookup_delete. repeat (case_decide; [by subst|]).
  rewrite members_lookup. unfold member_of. by repeat (destruct (decide _); [by subst|]).
Qed.

(** * The text that is sent *)

(** What reads a JSON string back (RFC 8259, section 7), from after its opening
    quote: the text and what follows the closing quote. *)
Definition hex_value (c : char) : option N :=
  if is_digit c then Some (c - 48)%N else if (97 <=? c)%N && (c <=? 102)%N then Some (c - 87)%N else None.
Definition simple_escape (c : char) : option char :=
  if (c =? 34)%N || (c =? 92)%N || (c =? 47)%N then Some c
  else if (c =? 98)%N then Some 8%N else if (c =? 102)%N then Some 12%N
  else if (c =? 110)%N then Some 10%N else if (c =? 114)%N then Some 13%N
  else if (c =? 116)%N then Some 9%N else None.

Fixpoint read_string (s : str) : option (str * str) :=
  match s with
  | [] => None
  | c :: s1 =>
      if (c =? 34)%N then Some ([], s1)
      else if (c =? 92)%N then
        match s1 with
        | e :: s2 =>
            if (e =? 117)%N then
              match s2 with
              | h1 :: h2 :: h3 :: h4 :: rest =>
                  d1 ← hex_value h1; d2 ← hex_value h2; d3 ← hex_value h3; d4 ← hex_value h4;
                  '(text, rest) ← read_string rest;
                  Some ((((d1 * 16 + d2) * 16 + d3) * 16 + d4)%N :: text, rest)
              | _ => None
              end
            else
              d ← simple_escape e;
              '(text, rest) ← read_string s2;
              Some (d :: text, rest)
        | [] => None
        end
      else if (c <? 32)%N then None
      else '(text, rest) ← read_string s1; Some (c :: text, rest)
  end.

Lemma below_32 (P : N -> Prop) : Forall P (map N.of_nat (seq 0 32)) -> forall c, (c < 32)%N -> P c.
Proof.
  intros F c B. rewrite Forall_forall in F. apply F, list_elem_of_In, in_map_iff.
  exists (N.to_nat c). split; [lia|]. apply in_seq. lia.
Qed.

Lemma read_escape (c : char) r : (c < 32)%N \/ c = 60%N \/ c = 62%N \/ c = 38%N \/ c = 8232%N \/ c = 8233%N ->
  read_string (unicode_escape c ++ r) = '(text, rest) ← read_string r; Some (c :: text, rest).
Proof.
  intros [B|[->|[->|[->|[->| ->]]]]]; try reflexivity. revert c B. apply below_32. repeat constructor.
Qed.

Lemma read_go_char c r : read_string (go_char c ++ r) = '(text, rest) ← read_string r; Some (c :: text, rest).
Proof.
  unfold go_char.
  destruct (N.eqb_spec c 34) as [->|N34]; [reflexivity|]. destruct (N.eqb_spec c 92) as [->|N92]; [reflexivity|].
  destruct (N.eqb_spec c 8) as [->|]; [reflexivity|]. destruct (N.eqb_spec c 12) as [->|]; [reflexivity|].
  destruct (N.eqb_spec c 10) as [->|]; [reflexivity|]. destruct (N.eqb_spec c 13) as [->|]; [reflexivity|].
  destruct (N.eqb_spec c 9) as [->|]; [reflexivity|].
  destruct ((c =? 60)%N || (c =? 62)%N || (c =? 38)%N) eqn:E1; [apply read_escape; rewrite ?orb_true_iff, ?N.eqb_eq in *; tauto|].
  destruct ((c =? 8232)%N || (c =? 8233)%N) eqn:E2; [apply read_escape; rewrite ?orb_true_iff, ?N.eqb_eq in *; tauto|].
  destruct (c <? 32)%N eqn:E3; [apply read_escape; apply N.ltb_lt in E3; by left|].
  cbn. apply N.eqb_neq in N34, N92. by rewrite N34, N92, E3.
Qed.

(** What is written as a string reads back as that string. *)
Lemma go_string_reads_back s rest : read_string (drop 1 (write_go_string s) ++ rest) = Some (s, rest).
Proof.
  change (drop 1 (write_go_string s)) with (flat_map go_char s ++ [34%N]). rewrite <- app_assoc.
  induction s as [|c s IH]; [reflexivity|]. change (flat_map go_char (c :: s)) with (go_char c ++ flat_map go_char s).
  by rewrite <- app_assoc, read_go_char, IH.
Qed.

(** Safe to embed in a page: no control character, none that HTML or
    JavaScript takes for its own. *)
Definition inert (c : char) : bool :=
  (32 <=? c)%N && negb ((c =? 60)%N || (c =? 62)%N || (c =? 38)%N || (c =? 8232)%N || (c =? 8233)%N).
Definition inert_text (s : str) : Prop := Forall (fun c => inert c = true) s.

Lemma inert_escape (c : char) : (c < 32)%N \/ c = 60%N \/ c = 62%N \/ c = 38%N \/ c = 8232%N \/ c = 8233%N ->
  inert_text (unicode_escape c).
Proof.
  intros [B|[->|[->|[->|[->| ->]]]]]; try by repeat constructor. revert c B. apply below_32. repeat constructor.
Qed.

Lemma inert_go_char c : inert_text (go_char c).
Proof.
  unfold go_char. do 7 (destruct (_ =? _)%N; [by repeat constructor|]).
  destruct ((c =? 60)%N || (c =? 62)%N || (c =? 38)%N) eqn:E1; [apply inert_escape; rewrite ?orb_true_iff, ?N.eqb_eq in *; tauto|].
  destruct ((c =? 8232)%N || (c =? 8233)%N) eqn:E2; [apply inert_escape; rewrite ?orb_true_iff, ?N.eqb_eq in *; tauto|].
  destruct (c <? 32)%N eqn:E3; [apply inert_escape; apply N.ltb_lt in E3; by left|].
  repeat constructor. unfold inert. apply orb_false_iff in E2 as [E2 E2']. rewrite E1, E2, E2'. cbn.
  apply N.ltb_ge in E3. by rewrite (proj2 (N.leb_le _ _) E3).
Qed.

Lemma inert_go_string s : inert_text (write_go_string s).
Proof.
  unfold write_go_string, inert_text. rewrite !Forall_app. repeat split; [by repeat constructor| |by repeat constructor].
  induction s as [|c s IH]; [constructor|]. cbn. apply Forall_app. split; [apply inert_go_char|done].
Qed.

Lemma inert_join sep parts : inert_text sep -> Forall inert_text parts -> inert_text (join sep parts).
Proof.
  intros S F. induction F as [|p ps Hp F IH]; [constructor|]. cbn. destruct ps; [done|].
  unfold inert_text. by rewrite !Forall_app.
Qed.

(** Documents nest finitely, and numbers print as serde_json prints them. *)
Class JsonDepth (V : Type) `{JsonEntries V} : Type := {
  depth : V -> nat;
  depth_array : forall v l, view v = Value.Array l -> Forall (fun x => depth x < depth v)%nat l;
  depth_object : forall v m, view v = Value.Object m -> Forall (fun '(_, x) => depth x < depth v)%nat (entries m)
}.
Class NumberText (V : Type) `{JsonValue V} : Prop := {
  number_text : forall v n, view v = Value.Number n -> inert_text (value_to_string v)
}.

Section Text_lemmas.
Context {V : Type} `{JsonEntries V}.

Lemma mapM_total {A B} (f : A -> option B) (P : B -> Prop) l :
  Forall (fun x => exists y, f x = Some y /\ P y) l -> exists ys, mapM f l = Some ys /\ Forall P ys.
Proof.
  intros F. induction F as [|x l (y & E & Py) F (ys & E' & F')]; [by exists []|].
  exists (y :: ys). cbn. rewrite E. cbn. rewrite E'. auto.
Qed.

(** Enough nesting gives the text, and the text is inert. *)
Lemma written_value `{!JsonDepth V} `{!NumberText V} n : forall v, (depth v < n)%nat ->
  exists text, write_go_value n v = Some text /\ inert_text text.
Proof.
  induction n as [|n IH]; intros v D; [lia|]. cbn. destruct (view v) as [|b|k|s|l|m] eqn:E.
  - eexists. split; [done|]. by repeat constructor.
  - eexists. split; [done|]. destruct b; by repeat constructor.
  - eexists. split; [done|]. by apply (number_text v k).
  - eexists. split; [done|]. apply inert_go_string.
  - destruct (mapM_total (write_go_value n) inert_text l) as (parts & -> & F).
    { eapply Forall_impl; [apply (depth_array v l E)|]. intros x B. cbn in B. apply IH. lia. }
    eexists. split; [done|]. unfold inert_text. cbn. constructor; [done|]. apply Forall_app. split; [|by repeat constructor].
    apply inert_join; [by repeat constructor|done].
  - match goal with |- context [mapM ?f ?l] => destruct (mapM_total f inert_text l) as (parts & -> & F) end.
    { apply List.Forall_forall. intros [k x] I.
      apply (Permutation_in _ (sort_by_permutation by_key (entries m))) in I.
      pose proof (proj1 (List.Forall_forall _ _) (depth_object v m E) _ I) as B. cbn in B.
      destruct (IH x ltac:(lia)) as (text & -> & S). eexists. split; [done|].
      apply (Forall_app _ (write_go_string k) (58%N :: text)). split; [apply inert_go_string|by constructor]. }
    eexists. split; [done|]. unfold inert_text. cbn. constructor; [done|]. apply Forall_app. split; [|by repeat constructor].
    apply inert_join; [by repeat constructor|done].
Qed.
End Text_lemmas.

(** C32 The text of a problem document is always produced, and whatever its
    members and extensions say, it has no control character and none of the
    characters a page or a script would take for its own; its strings read back
    as they were. *)
Theorem problem_text_is_inert {V} `{JsonEntries V} `{!JsonDepth V} `{!NumberText V} (pd : ProblemDetail V) :
  (exists text, problem_text (S (depth (problem_value pd))) pd = Some text /\ inert_text text) /\
  (forall s rest, read_string (drop 1 (write_go_string s) ++ rest) = Some (s, rest)).
Proof. split; [apply written_value; lia|apply go_string_reads_back]. Qed.

(** * The documents of [Json.v] *)

Definition deepest (l : list nat) : nat := foldr Nat.max 0%nat l.
Fixpoint json_depth (v : json) : nat :=
  match v with
  | JArray l => S (deepest (map json_depth l))
  | JObject m => S (deepest (map (fun '(_, x) => json_depth x) m))
  | _ => 0
  end%nat.

Lemma deepest_bound n l : List.In n l -> (n <= deepest l)%nat.
Proof.
  induction l as [|m l IH]; [done|]. change (deepest (m :: l)) with (Nat.max m (deepest l)).
  intros [->|I]; [|specialize (IH I)]; lia.
Qed.

#[export, refine] Instance json_depths : JsonDepth json := { depth := json_depth }.
Proof.
  - intros v l E. destruct v as [| |n|x|s|l'|m]; try done. injection E as ->.
    apply List.Forall_forall. intros x I. cbn. apply Nat.lt_succ_r, deepest_bound, in_map, I.
  - intros v m E. destruct v as [| |n|x|s|l'|m']; try done. injection E as ->.
    apply List.Forall_forall. intros [k x] I. cbn. apply Nat.lt_succ_r, deepest_bound.
    apply in_map_iff. by exists (k, x).
Defined.

Lemma inert_digits s : Forall (fun c => is_digit c = true) s -> inert_text s.
Proof.
  intros F. eapply Forall_impl; [apply F|]. intros c D. unfold is_digit in D. apply andb_true_iff in D as [L U].
  apply N.leb_le in L, U. unfold inert. apply andb_true_iff. split; [apply N.leb_le; lia|].
  apply negb_true_iff. rewrite !orb_false_iff, !N.eqb_neq. lia.
Qed.

Lemma digits_drop_zeros s : Forall (fun c => is_digit c = true) s -> Forall (fun c => is_digit c = true) (drop_zeros s).
Proof. intros F. induction F as [|c s D F IH]; cbn; [constructor|]. destruct (c =? 48)%N; [done|by constructor]. Qed.

Lemma inert_float x : inert_text (float_to_string x).
Proof.
  destruct x as [s|s| |s m e]; try by repeat constructor. cbn. apply Forall_app. split; [by destruct s; repeat constructor|].
  destruct (0 <=? e).
  - apply Forall_app. split; [|by repeat constructor]. apply inert_digits, show_digits.
    rewrite Z.shiftl_nonneg. lia.
  - assert (Forall (fun c => is_digit c = true) (show (Z.pos m * 5 ^ (- e)))) as D.
    { apply show_digits. apply Z.mul_nonneg_nonneg; [lia|]. apply Z.pow_nonneg. lia. }
    set (padded := repeat 48%N _ ++ _).
    assert (Forall (fun c => is_digit c = true) padded) as P.
    { apply Forall_app. split; [|done]. apply List.Forall_forall. intros c I. by apply repeat_spec in I as ->. }
    apply Forall_app. split; [apply inert_digits, Forall_take, P|]. constructor; [done|].
    set (fraction := rev _). assert (inert_text fraction) as F.
    { apply inert_digits. unfold fraction. apply List.Forall_rev, digits_drop_zeros, List.Forall_rev, Forall_drop, P. }
    destruct fraction; [by repeat constructor|done].
Qed.

#[export] Instance json_number_text : NumberText json.
Proof.
  split. intros v n E. destruct v as [| |z|x|s|l|m]; try done; cbn.
  - destruct (Z.ltb_spec z 0); [|apply inert_digits, show_digits; lia].
    apply (Forall_app _ (lit "-")). split; [by repeat constructor|]. apply inert_digits, show_digits. lia.
  - apply inert_float.
Qed.

Definition sample_problem : ProblemDetail json :=
  problem_with (lit "retry") (JNumber 3) (problem_with (lit "order") (JArray [JString (lit "<a>"); JNull])
    (with_instance (lit "/orders/7") (problem_conflict (lit "already & shipped")))).

Lemma problem_round_trip_witness : problem_of_value (problem_value sample_problem) = Some sample_problem.
Proof.
  apply problem_round_trip; [split; vm_compute; congruence|].
  repeat (constructor; [vm_compute; reflexivity|]). constructor.
Defined.

Lemma problem_text_is_inert_witness :
  exists text, problem_text 5 sample_problem = Some text /\ inert_text text.
Proof. destruct (problem_text_is_inert sample_problem) as [T _]. exact T. Defined.

Example problem_text_of_sample :
  problem_text 5 (problem_with (lit "a") (JArray [JString (lit "<"); JNumber 2]) (problem_not_found []))
  = Some (lit "{" ++ write_go_string (lit "a") ++ lit ":[" ++ write_go_string (lit "<") ++ lit ",2],"
      ++ write_go_string (lit "status") ++ lit ":404," ++ write_go_string (lit "title") ++ lit ":"
      ++ write_go_string (lit "Not Found") ++ lit "," ++ write_go_string (lit "type") ++ lit ":"
      ++ write_go_string TYPE_NOT_FOUND ++ lit "}").
Proof. vm_compute. reflexivity. Qed.

(** * Errors, names, scopes *)

Section Error_lemmas.
Context {V : Type} `{JsonValue V}.
Implicit Types (e : FireflyError V) (err : StdError V).

(** The first error of the framework along the sources decides, and without
    one the answer is a 500 with the text of the error. *)
Inductive wraps : StdError V -> FireflyError V -> Prop :=
| wraps_here e : wraps (Framework e) e
| wraps_source message source e : wraps source e -> wraps (Foreign message (Some source)) e.

Lemma find_firefly_spec err e : find_firefly err = Some e <-> wraps err e.
Proof.
  split.
  - revert err. fix IH 1. intros [e'|message [source|]] E; cbn in E; [injection E as ->; constructor| |done].
    constructor. by apply IH.
  - induction 1; done.
Qed.

Lemma to_problem_members e :
  to_problem e = mkProblem (code e) (title e) (status e) (detail e) [] (fields e).
Proof.
  unfold to_problem. rewrite <- (list_to_map_to_list (fields e)) at 2. generalize (map_to_list (fields e)). intros l.
  induction l as [|[k v] l IH]; [done|]. cbn. by rewrite IH.
Qed.
End Error_lemmas.

(** What undoes the quoting: the delimiter, then a backslash shields the
    character after it. *)
Fixpoint unquote (quote : char) (s : str) : option str :=
  match s with
  | [] => None
  | c :: s1 =>
      if (c =? quote)%N then match s1 with [] => Some [] | _ => None end
      else if (c =? 92)%N then match s1 with d :: s2 => cons d <$> unquote quote s2 | [] => None end
      else cons c <$> unquote quote s1
  end.

(** The rendering of an id names it without ambiguity. *)
Lemma repr_reads_back s :
  match python_str_repr s with quote :: text => unquote quote text | [] => None end = Some s.
Proof.
  unfold python_str_repr. cbn [app]. assert (repr_quote s = 34%N \/ repr_quote s = 39%N) as Q.
  { unfold repr_quote. destruct (_ && _); auto. }
  revert Q. generalize (repr_quote s). intros q Q. induction s as [|c s IH].
  - cbn. by rewrite N.eqb_refl.
  - change (flat_map (repr_char q) (c :: s)) with (repr_char q c ++ flat_map (repr_char q) s).
    assert (q <> 92%N) as Q92 by (destruct Q as [->| ->]; done). unfold repr_char at 1.
    destruct (N.eqb_spec c 92) as [->|N92]; [|destruct (N.eqb_spec c q) as [->|Nq]]; cbn [app unquote].
    + rewrite (proj2 (N.eqb_neq 92 q)) by congruence. cbn. by rewrite IH.
    + rewrite (proj2 (N.eqb_neq 92 q)) by congruence. cbn. by rewrite IH.
    + rewrite (proj2 (N.eqb_neq c q)), (proj2 (N.eqb_neq c 92)) by done. by rewrite IH.
Qed.

(** Python escapes a line feed as well; here it stands in the detail as it is. *)
Example repr_keeps_control_characters : python_str_repr [10%N] = [39; 10; 39]%N.
Proof. reflexivity. Qed.

(** The last segment of a path, generic parameters included. *)
Lemma short_name_of_path path name rest : ~ In 60%N path -> ~ In 58%N name -> ~ In 60%N name -> name <> [] ->
  (rest = [] \/ head rest = Some 60%N) ->
  short_type_name (path ++ lit "::" ++ name ++ rest) = name ++ rest.
Proof.
  intros P N1 N2 NE R. unfold short_type_name.
  assert (head (split 60%N (path ++ lit "::" ++ name ++ rest)) = Some (path ++ lit "::" ++ name)) as ->.
  { assert (~ In 60%N (path ++ lit "::" ++ name)) as A.
    { rewrite !in_app_iff. intros [I|[I|I]]; [done| |done]. by destruct I as [I|[I|[]]]. }
    replace (path ++ lit "::" ++ name ++ rest) with ((path ++ lit "::" ++ name) ++ rest) by (by rewrite <- !app_assoc).
    destruct R as [->|R]; [by rewrite app_nil_r, split_no_sep|].
    destruct rest as [|c rest]; [done|]. injection R as ->. by rewrite split_cons_sep. }
  cbn [from_option id]. assert (rfind_path name = None) as F.
  { clear -N1. induction name as [|c name IH]; [done|]. cbn in *. rewrite IH by tauto. destruct name; [done|].
    destruct (N.eqb_spec c 58); [by destruct N1; left|done]. }
  assert (rfind_path (58%N :: name) = None) as F1.
  { cbn. rewrite F. destruct name as [|c name]; [done|]. destruct (N.eqb_spec c 58); [by destruct N1; left|done]. }
  assert (rfind_path (path ++ lit "::" ++ name) = Some (List.length path)) as ->.
  { induction path as [|c path IH].
    - change (rfind_path (58%N :: 58%N :: name) = Some O). remember (58%N :: name) as tail eqn:T. cbn. rewrite F1.
      by subst tail.
    - cbn [app rfind_path]. rewrite IH; [done|]. intros I. apply P. by right. }
  by rewrite drop_app_add.
Qed.

(** A scope is seen by what runs inside it and by nothing after it; the empty
    identifier hides the outer one without being one. *)
Lemma scope_spec {W R} (id : str) (f : M (Slots * W) R) s w r s' w' :
  (forall s0 w0 r0 s1 w1, f (s0, w0) = Some (r0, (s1, w1)) -> s1 = s0) ->
  with_correlation_id id f (s, w) = Some (r, (s', w')) ->
  s' = s /\ f (put_correlation (Some id) s, w) = Some (r, (put_correlation (Some id) s, w')) /\
  correlation_id (put_correlation (Some id) s) = match id with [] => None | _ => Some id end /\
  request_id (put_correlation (Some id) s) = request_id s.
Proof.
  intros Balanced. unfold with_correlation_id, scoped. destruct (f _) as [[r0 [s1 w1]]|] eqn:E; [|done].
  intros [= <- <- <-]. pose proof (Balanced _ _ _ _ _ E) as ->. split; [by destruct s|]. split; [done|]. by destruct id.
Qed.
