(* ===== verification/Eda.v ===== *)
(** Events and the in-process broker: [crates/eda/src/event.rs], [error.rs],
    [ports.rs], [inmemory.rs], [filter.rs], [health.rs], [serializer.rs], the
    transport scaffolds and the bridge of [registry.rs].

    A handler is a name whose behaviour the world's [run] gives, so that the
    broker, which holds handlers, is part of the world they act on: a handler may
    publish, subscribe or close. What the broker does under its lock is one
    transition; handlers run outside of it. *)
From Stdlib Require Import Ascii String.
From Stdlib Require Import ZArith NArith List Lia Sorting.Permutation Lists.Finite.
From stdpp Require Import base decidable list gmap.
From S2P Require Import Prelude Str Order Json Globs Kernel.

(** * Events *)

Record Event : Type := mkEvent {
  event_id : str;
  event_type : str;
  source : str;
  topic : str;
  correlation : str;
  time : Z;
  headers : gmap str str;
  payload : option bytes;
  key : option bytes
}.

(** The id is fresh, the instant is now, the correlation id the ambient one. *)
Definition event_new (fresh : str) (now : Z) (ambient : option str) (t ty src : str) (p : option bytes) : Event :=
  mkEvent fresh ty src t (default [] ambient) now ∅ p None.
Definition with_header (k v : str) (ev : Event) : Event :=
  mkEvent (event_id ev) (event_type ev) (source ev) (topic ev) (correlation ev) (time ev)
    (<[k := v]> (headers ev)) (payload ev) (key ev).
Definition with_key (k : bytes) (ev : Event) : Event :=
  mkEvent (event_id ev) (event_type ev) (source ev) (topic ev) (correlation ev) (time ev)
    (headers ev) (payload ev) (Some k).

(** ** The wire form *)

(** The base64 crate's standard engine and chrono's RFC 3339. *)
Class WireFormats : Type := {
  b64_encode : bytes -> str;
  b64_decode : str -> option bytes;
  render_time : Z -> str;
  parse_time : str -> option Z
}.
Class WireLaws `{WireFormats} : Prop := {
  b64_decode_encode : forall b, b64_decode (b64_encode b) = Some b;
  parse_render_time : forall t, parse_time (render_time t) = Some t
}.

(** [serde_json] writes the fields of a struct in order, and reads a document
    into the value it writes. *)
Class JsonText (V : Type) `{JsonEntries V} : Type := {
  object_to_vec : list (str * V) -> bytes;
  value_from_slice : bytes -> Result V str
}.
Class JsonTextLaws (V : Type) `{JsonText V} : Prop := {
  object_reads_back : forall l, NoDup (map fst l) -> exists v m,
    value_from_slice (object_to_vec l) = Ok v /\ view v = Value.Object m /\
    forall k, map_get k m = (list_to_map l : gmap str V) !! k
}.

Section Wire.
Context {V : Type} `{JsonText V} `{!WireFormats}.

Definition optional_bytes (b : option bytes) : V :=
  match b with Some b => json_string (b64_encode b) | None => json_null end.

Definition headers_value (h : gmap str str) : V :=
  json_object (foldr (fun '(k, v) m => map_insert k v m) map_new (map_to_list (json_string <$> h))).

Definition event_entries (ev : Event) : list (str * V) :=
  [(lit "id", json_string (event_id ev)); (lit "type", json_string (event_type ev));
   (lit "source", json_string (source ev)); (lit "topic", json_string (topic ev))] ++
  match correlation ev with [] => [] | c => [(lit "correlationId", json_string c)] end ++
  [(lit "time", json_string (render_time (time ev)))] ++
  (if bool_decide (headers ev = ∅) then [] else [(lit "headers", headers_value (headers ev))]) ++
  [(lit "payload", optional_bytes (payload ev))] ++
  match key ev with None => [] | k => [(lit "key", optional_bytes k)] end.

Definition as_string (v : V) : option str := match view v with Value.String s => Some s | _ => None end.
Definition required (k : str) (m : Map) : option V := map_get k m.

(** [Option::<String>::deserialize], then the decoding; an absent field is its
    default. *)
Definition bytes_field (o : option V) : option (option bytes) :=
  match o with
  | None => Some None
  | Some v => match view v with
              | Value.Null => Some None
              | Value.String s => Some <$> b64_decode s
              | _ => None
              end
  end.
Definition headers_field (o : option V) : option (gmap str str) :=
  match o with
  | None => Some ∅
  | Some v => match view v with
              | Value.Object m =>
                  foldr (fun '(k, x) acc => h ← acc; s ← as_string x; Some (<[k := s]> h)) (Some ∅)
                    (map_to_list (list_to_map (entries m) : gmap str V))
              | _ => None
              end
  end.

Definition event_of_map (m : Map) : option Event :=
  id ← required (lit "id") m; id ← as_string id;
  ty ← required (lit "type") m; ty ← as_string ty;
  src ← required (lit "source") m; src ← as_string src;
  t ← required (lit "topic") m; t ← as_string t;
  c ← match map_get (lit "correlationId") m with None => Some [] | Some v => as_string v end;
  at_ ← required (lit "time") m; at_ ← as_string at_; at_ ← parse_time at_;
  h ← headers_field (map_get (lit "headers") m);
  p ← bytes_field (map_get (lit "payload") m);
  k ← bytes_field (map_get (lit "key") m);
  Some (mkEvent id ty src t c at_ h p k).
End Wire.

(** * Errors *)

Inductive EdaError (V : Type) : Type :=
| KafkaUnavailable
| RabbitMqUnavailable
| Closed
| BrokerUnavailable
| HandlerFailed (e : FireflyError V)
| Serialization (serializer message : str).
Arguments KafkaUnavailable {V}. Arguments RabbitMqUnavailable {V}. Arguments Closed {V}.
Arguments BrokerUnavailable {V}. Arguments HandlerFailed {V} e. Arguments Serialization {V} serializer message.

Abbreviation EdaResult V T := (Result T (EdaError V)).

Definition eda_to_string {V} (e : EdaError V) : str :=
  match e with
  | KafkaUnavailable =>
      lit "firefly/eda: kafka adapter not registered (use new_kafka_broker from an eda-kafka crate)"
  | RabbitMqUnavailable =>
      lit "firefly/eda: rabbitmq adapter not registered (use new_rabbitmq_broker from an eda-rabbitmq crate)"
  | Closed => lit "firefly/eda: broker closed"
  | BrokerUnavailable => lit "firefly/eda: no broker registered (call register_broker at startup)"
  | HandlerFailed e => error_to_string e
  | Serialization serializer message =>
      lit "firefly/eda: serialization (" ++ serializer ++ lit "): " ++ message
  end.

Definition eda_to_firefly {V} (e : EdaError V) : FireflyError V :=
  match e with
  | HandlerFailed e => e
  | Closed => conflict (eda_to_string (@Closed V))
  | e => internal (eda_to_string e)
  end.

(** The factories of the transports that are not there. *)
Definition new_kafka_broker {V B} : EdaResult V B := Err KafkaUnavailable.
Definition new_rabbitmq_broker {V B} : EdaResult V B := Err RabbitMqUnavailable.

(** * Serializers *)

Record EventSerializer (V : Type) : Type := mkSerializer {
  serializer_name : str;
  serialize : Event -> EdaResult V bytes;
  deserialize : bytes -> EdaResult V Event
}.
Arguments mkSerializer {V}. Arguments serializer_name {V}. Arguments serialize {V}. Arguments deserialize {V}.

Section Serializers.
Context {V : Type} `{JsonText V} `{!WireFormats}.
(** The message of a document that is no event. *)
Variable no_event : V -> str.

Definition JsonEventSerializer : EventSerializer V :=
  mkSerializer (lit "json") (fun ev => Ok (object_to_vec (event_entries ev)))
    (fun data => match value_from_slice data with
                 | Err message => Err (Serialization (lit "json") message)
                 | Ok v => match view v with
                           | Value.Object m => ok_or (event_of_map m) (Serialization (lit "json") (no_event v))
                           | _ => Err (Serialization (lit "json") (no_event v))
                           end
                 end).

Definition unimplemented (name message : str) : EventSerializer V :=
  mkSerializer name (fun _ => Err (Serialization name message)) (fun _ => Err (Serialization name message)).
Definition AvroEventSerializer : EventSerializer V :=
  unimplemented (lit "avro") (lit "Avro serializer requires a Schema Registry adapter").
Definition ProtobufEventSerializer : EventSerializer V :=
  unimplemented (lit "protobuf") (lit "Protobuf serializer requires a registered message type").

Definition serializer_for (name : str) : EdaResult V (EventSerializer V) :=
  let other := to_ascii_lowercase (trim name) in
  if str_eqb other [] || str_eqb other (lit "json") then Ok JsonEventSerializer
  else if str_eqb other (lit "avro") then Ok AvroEventSerializer
  else if str_eqb other (lit "protobuf") || str_eqb other (lit "proto") then Ok ProtobufEventSerializer
  else Err (Serialization other
              (lit "unknown serialization-format '" ++ other ++ lit "' (expected json|avro|protobuf)")).
End Serializers.

(** * Handlers and filters *)

Abbreviation Handler V W := (Event -> M W (Result unit (FireflyError V))).

Definition EventFilter : Type := Event -> bool.

(** A header's value must match from its start; [find] gives where the leftmost
    match starts. *)
Definition HeaderEventFilter {Regex : Type} (find : Regex -> str -> option nat) (name : str) (regex : Regex) : EventFilter :=
  fun ev => match find regex (default [] (headers ev !! name)) with Some start => (start =? 0)%nat | None => false end.
Definition PredicateEventFilter (predicate : Event -> bool) : EventFilter := predicate.

Definition with_filter_chain {V W} (h : Handler V W) (filters : list EventFilter) : Handler V W :=
  match filters with
  | [] => h
  | _ => fun ev => if forallb (fun f => f ev) filters then h ev else ret (Ok tt)
  end.
Definition with_filters {V W} (h : Handler V W) (filters : list EventFilter) : Handler V W := with_filter_chain h filters.

(** * The in-process broker *)

Record Subscription (G Hid : Type) : Type := mkSubscription { matcher : G; group : option str; sub_handler : Hid }.
Arguments mkSubscription {G Hid}. Arguments matcher {G Hid}. Arguments group {G Hid}. Arguments sub_handler {G Hid}.

Record Inner (G Hid : Type) : Type := mkInner {
  subscriptions : list (Subscription G Hid);
  group_cursors : gmap (str * str) Z;
  closed : bool
}.
Arguments mkInner {G Hid}. Arguments subscriptions {G Hid}. Arguments group_cursors {G Hid}. Arguments closed {G Hid}.

Definition broker_new {G Hid} : Inner G Hid := mkInner [] ∅ false.

(** The order a [HashMap] yields its entries in. *)
Class GroupOrder (Hid : Type) : Type := {
  in_order : gmap str (list Hid) -> list (str * list Hid);
  any_order : forall m, in_order m ≡ₚ map_to_list m
}.
#[export, refine] Instance listed_order (Hid : Type) : GroupOrder Hid | 10 := { in_order m := map_to_list m }.
Proof. done. Defined.

Section Broker.
Context {V : Type} `{JsonValue V} `{Globs} {Hid W : Type} `{!GroupOrder Hid}.
Abbreviation Broker := (Inner Glob Hid).

(** One pass over the subscriptions: the ungrouped handlers, and those of each
    group, in subscription order. *)
Definition collect (t : str) (acc : list Hid * gmap str (list Hid)) (sub : Subscription Glob Hid) : list Hid * gmap str (list Hid) :=
  let '(to_invoke, group_matches) := acc in
  if negb (is_match (matcher sub) t) then acc
  else match group sub with
       | None => (to_invoke ++ [sub_handler sub], group_matches)
       | Some g => (to_invoke, <[g := default [] (group_matches !! g) ++ [sub_handler sub]]> group_matches)
       end.

(** Then each group's cursor moves on by one, a [usize] that wraps. *)
Fixpoint pick_groups (t : str) (l : list (str * list Hid)) (cursors : gmap (str * str) Z)
  : option (list Hid * gmap (str * str) Z) :=
  match l with
  | [] => Some ([], cursors)
  | (g, handlers) :: l =>
      let cursor := default 0 (cursors !! (t, g)) in
      h ← handlers !! Z.to_nat (cursor mod Z.of_nat (List.length handlers));
      '(picks, cursors) ← pick_groups t l (<[(t, g) := u64 (cursor + 1)]> cursors);
      Some (h :: picks, cursors)
  end.

Definition select_handlers (ev : Event) (inner : Broker) : option (EdaResult V (list Hid) * Broker) :=
  if closed inner then Some (Err Closed, inner)
  else
    let '(to_invoke, group_matches) := foldl (collect (topic ev)) ([], ∅) (subscriptions inner) in
    '(picks, cursors) ← pick_groups (topic ev) (in_order group_matches) (group_cursors inner);
    Some (Ok (to_invoke ++ picks), mkInner (subscriptions inner) cursors (closed inner)).

Variable run : Hid -> Handler V W.
Variables (broker_of : W -> Broker) (set_broker : Broker -> W -> W).

(** A call of the broker under its lock. *)
Definition locked {A} (f : Broker -> option (A * Broker)) : M W A := fun w =>
  match f (broker_of w) with Some (a, inner) => Some (a, set_broker inner w) | None => None end.

(** [h(ev.clone()).await?] over the handlers. *)
Fixpoint deliver (hs : list Hid) (ev : Event) : M W (EdaResult V unit) :=
  match hs with
  | [] => ret (Ok tt)
  | h :: hs =>
      let! r := run h ev in
      match r with Ok _ => deliver hs ev | Err e => ret (Err (HandlerFailed e)) end
  end.

Definition publish (ev : Event) : M W (EdaResult V unit) :=
  let? to_invoke := locked (select_handlers ev) in deliver to_invoke ev.

Definition add_subscription (t : str) (g : option str) (h : Hid) : M W (EdaResult V unit) :=
  match build t with
  | Err e => ret (Err (HandlerFailed (bad_request
               (lit "firefly/eda: invalid topic pattern " ++ debug t ++ lit ": " ++ e))))
  | Ok matcher =>
      locked (fun inner =>
        if closed inner then Some (Err Closed, inner)
        else Some (Ok tt, mkInner (subscriptions inner ++ [mkSubscription matcher g h])
                            (group_cursors inner) (closed inner)))
  end.
Definition subscribe (t : str) (h : Hid) : M W (EdaResult V unit) := add_subscription t None h.
Definition subscribe_group (t g : str) (h : Hid) : M W (EdaResult V unit) := add_subscription t (Some g) h.

Definition close : M W (EdaResult V unit) := locked (fun _ => Some (Ok tt, mkInner [] ∅ true)).
Definition is_closed (w : W) : bool := closed (broker_of w).
Definition ping : M W (EdaResult V unit) := fun w => Some (if is_closed w then Err Closed else Ok tt, w).
End Broker.

(** * The ports *)

Record Port (V Hid W : Type) : Type := mkPort {
  port_publish : Event -> M W (EdaResult V unit);
  port_subscribe : str -> Hid -> M W (EdaResult V unit);
  port_subscribe_group : str -> str -> Hid -> M W (EdaResult V unit);
  port_close : M W (EdaResult V unit)
}.
Arguments mkPort {V Hid W}. Arguments port_publish {V Hid W}. Arguments port_subscribe {V Hid W}.
Arguments port_subscribe_group {V Hid W}. Arguments port_close {V Hid W}.

(** A transport whose own broker delivers to groups ignores them. *)
Definition transport_port {V Hid W} (publish : Event -> M W (EdaResult V unit))
    (subscribe : str -> Hid -> M W (EdaResult V unit)) (close : M W (EdaResult V unit)) : Port V Hid W :=
  mkPort publish subscribe (fun t _ h => subscribe t h) close.

(** [HealthResult] as the indicator fills it: up, or down with its message and
    the error's code. *)
Inductive BrokerHealth : Type := Up | Down (message error : str).
Definition check_health {V W} (ping : M W (EdaResult V unit)) : M W BrokerHealth :=
  let! r := ping in
  ret match r with
      | Ok _ => Up
      | Err e => let fe := eda_to_firefly e in Down (detail fe) (code fe)
      end.

(** * The bridge to the broker *)

Section Bridge.
Context {V Hid W E : Type}.
Variables (to_vec : E -> Result bytes str) (new_event : str -> str -> str -> option bytes -> W -> Event * W).

Definition publish_to_broker_on (broker : Port V Hid W) (t ty src : str) (p : E) : M W (EdaResult V unit) :=
  match to_vec p with
  | Err message => ret (Err (Serialization (lit "json") message))
  | Ok b => fun w => let '(ev, w) := new_event t ty src (Some b) w in port_publish broker ev w
  end.

(** Over the process-wide broker; the first registration wins. *)
Definition register_broker (broker : Port V Hid W) (cell : option (Port V Hid W)) : bool * option (Port V Hid W) :=
  match cell with None => (true, Some broker) | Some _ => (false, cell) end.

Definition publish_to_broker (cell : option (Port V Hid W)) (t ty src : str) (p : E) : M W (EdaResult V unit) :=
  match cell with
  | None => ret (Err BrokerUnavailable)
  | Some broker => publish_to_broker_on broker t ty src p
  end.
End Bridge.

(** [subscribe_discovered_listeners]: one subscription after the other, up to
    the first error. *)
Fixpoint subscribe_discovered {V W} (count : nat) (regs : list (M W (EdaResult V unit))) : M W (EdaResult V nat) :=
  match regs with
  | [] => ret (Ok count)
  | reg :: regs => let? _ := reg in subscribe_discovered (S count) regs
  end.

(** * An event survives the wire *)

Section Wire_lemmas.
Context {V : Type} `{JsonText V} `{!JsonLaws V} `{WireLaws}.

Lemma as_json_string s : as_string (json_string s : V) = Some s.
Proof. unfold as_string, json_string. by rewrite view_inject. Qed.

Lemma bytes_round_trip (b : option bytes) : bytes_field (Some (optional_bytes b : V)) = Some b.
Proof.
  unfold bytes_field, optional_bytes, json_string, json_null. destruct b as [b|]; rewrite view_inject; [|done].
  by rewrite b64_decode_encode.
Qed.

Lemma headers_round_trip (h : gmap str str) : headers_field (Some (headers_value h : V)) = Some h.
Proof.
  unfold headers_field, headers_value, json_object. rewrite view_inject, entries_of_map, map_to_list_fmap.
  rewrite <- (list_to_map_to_list h) at 2. generalize (map_to_list h). intros l.
  induction l as [|[k s] l IH]; [done|]. cbn. rewrite IH. cbn. by rewrite as_json_string.
Qed.

(** A field of a struct, found by its name. *)
Fixpoint entry_of (k : str) (l : list (str * V)) : option V :=
  match l with [] => None | (k', v) :: l => if str_eqb k k' then Some v else entry_of k l end.
Lemma entry_lookup k l : (list_to_map l : gmap str V) !! k = entry_of k l.
Proof.
  induction l as [|[k' v] l IH]; [done|]. cbn. unfold str_eqb. case_bool_decide as E; [subst k'; by rewrite lookup_insert_eq|].
  by rewrite lookup_insert_ne.
Qed.

Ltac find_fields :=
  cbn [app entry_of];
  repeat match goal with
    |- context [str_eqb ?a ?b] => let v := eval vm_compute in (str_eqb a b) in change (str_eqb a b) with v; cbv iota
  end.

Lemma event_reads_back (ev : Event) (m : Map) :
  (forall k, map_get k m = (list_to_map (event_entries ev) : gmap str V) !! k) -> event_of_map m = Some ev.
Proof.
  intros G. unfold event_of_map, required. rewrite !G, !entry_lookup. clear G. unfold event_entries.
  destruct ev as [id ty src t c now h p k]. cbn [event_id event_type source topic correlation time headers payload key].
  pose proof (headers_round_trip h) as Hh.
  case_bool_decide as E; [subst h|]; destruct c as [|c0 c], k as [k|]; find_fields;
    cbn [mbind option_bind]; rewrite !as_json_string; cbn [mbind option_bind];
    rewrite parse_render_time, ?Hh, !bytes_round_trip; done.
Qed.

Lemma entries_once (ev : Event) : NoDup (map fst (event_entries (V := V) ev)).
Proof.
  unfold event_entries. destruct (bool_decide _), (correlation ev), (key ev); cbn -[lit];
    match goal with |- ?P => apply (bool_decide_unpack P) end; vm_compute; exact I.
Qed.

(** What the JSON serializer writes it reads back as the same event. *)
Lemma json_serializer_round_trip `{!JsonTextLaws V} no_event (ev : Event) :
  match serialize (JsonEventSerializer no_event) ev with
  | Ok data => deserialize (JsonEventSerializer no_event) data = Ok ev
  | Err _ => False
  end.
Proof.
  cbn [serialize deserialize JsonEventSerializer]. destruct (object_reads_back (event_entries ev) (entries_once ev)) as (v & m & -> & -> & G).
  by rewrite (event_reads_back ev m G).
Qed.
End Wire_lemmas.

(** * Who receives an event *)

Section Selection.
Context {V : Type} `{JsonValue V} `{Globs} {Hid : Type} `{!GroupOrder Hid}.
Implicit Types (subs : list (Subscription Glob Hid)) (inner : Inner Glob Hid).

(** The handlers of a group, or the ungrouped ones, that match a topic. *)
Definition receivers (g : option str) (t : str) subs : list Hid :=
  map sub_handler (List.filter (fun s => is_match (matcher s) t && bool_decide (group s = g)) subs).

Definition cursor_of (t g : str) inner : Z := default 0 (group_cursors inner !! (t, g)).

Lemma receivers_app g t a b : receivers g t (a ++ b) = receivers g t a ++ receivers g t b.
Proof. unfold receivers. by rewrite List.filter_app, map_app. Qed.

Lemma collect_receivers t subs : exists m,
  foldl (collect t) ([], ∅) subs = (receivers None t subs, m) /\
  (forall g, default [] (m !! g) = receivers (Some g) t subs) /\ (forall g, m !! g <> Some []).
Proof.
  induction subs as [|s subs (m & E & R & N)] using rev_ind; [by exists ∅|].
  rewrite foldl_app, E. cbn [foldl collect]. unfold collect.
  assert (forall g, receivers g t [s] =
    if is_match (matcher s) t && bool_decide (group s = g) then [sub_handler s] else []) as One.
  { intros g. unfold receivers. cbn. by destruct (_ && _). }
  destruct (is_match (matcher s) t) eqn:M; cbn [negb andb] in *.
  2:{ exists m. rewrite !receivers_app, One. split; [by rewrite app_nil_r|]. split; [|done].
      intros g. by rewrite receivers_app, One, app_nil_r. }
  destruct (group s) as [g|] eqn:G; eexists; (split; [rewrite receivers_app, One; cbn; by rewrite ?app_nil_r|]);
    (split; [intros g'; rewrite receivers_app, One|]).
  - destruct (decide (g = g')) as [->|D].
    + rewrite lookup_insert_eq, bool_decide_eq_true_2 by done. cbn. by rewrite R.
    + rewrite lookup_insert_ne, bool_decide_eq_false_2 by congruence. by rewrite app_nil_r.
  - intros g'. destruct (decide (g = g')) as [->|D]; [rewrite lookup_insert_eq|by rewrite lookup_insert_ne].
    intros [= L]. by destruct (default [] (m !! g')).
  - rewrite bool_decide_eq_false_2 by done. by rewrite app_nil_r.
  - done.
Qed.

(** Each group in turn gives the handler its cursor points at. *)
Lemma pick_groups_spec (t : str) (base : gmap (str * str) Z) (l : list (str * list Hid)) : NoDup (map fst l) -> Forall (fun '(_, hs) => hs <> []) l ->
  forall cursors : gmap (str * str) Z, (forall g, g ∈ map fst l -> cursors !! (t, g) = base !! (t, g)) ->
  exists picks cursors', pick_groups t l cursors = Some (picks, cursors') /\
    Forall2 (fun '(g, hs) h =>
      hs !! Z.to_nat (default 0 (base !! (t, g)) mod Z.of_nat (List.length hs)) = Some (h : Hid)) l picks /\
    forall t' g, cursors' !! (t', g) =
      if decide (t' = t /\ g ∈ map fst l) then Some (u64 (default 0 (base !! (t, g)) + 1)) else cursors !! (t', g).
Proof.
  induction l as [|[g hs] l IH]; intros ND NE cursors Same.
  - exists [], cursors. split; [done|]. split; [constructor|]. intros t' g. rewrite decide_False; [done|].
    intros [_ I]. by apply not_elem_of_nil in I.
  - apply NoDup_cons in ND as [Fresh ND]. apply Forall_cons in NE as [NE1 NE].
    pose proof (Same g (list_elem_of_here _ _)) as Here.
    destruct (IH ND NE (<[(t, g) := u64 (default 0 (cursors !! (t, g)) + 1)]> cursors)) as (picks & cur & E & F & C).
    { intros g' I. rewrite lookup_insert_ne; [apply Same; by constructor|]. intros [= ->]. done. }
    assert (exists h, hs !! Z.to_nat (default 0 (cursors !! (t, g)) mod Z.of_nat (List.length hs)) = Some h) as [h Eh].
    { apply lookup_lt_is_Some. destruct hs as [|x hs]; [done|].
      pose proof (Z.mod_pos_bound (default 0 (cursors !! (t, g))) (Z.of_nat (List.length (x :: hs)))) as B.
      cbn [List.length] in *. lia. }
    exists (h :: picks), cur. cbn [pick_groups]. rewrite Eh. cbn. rewrite E. cbn. split; [done|]. split.
    + constructor; [|done]. by rewrite <- Here.
    + intros t' g'. rewrite C. cbn [map fst]. destruct (decide (t' = t /\ g' ∈ map fst l)) as [[-> I]|N].
      * by rewrite decide_True by (split; [done|by constructor]).
      * destruct (decide (t' = t /\ g' ∈ g :: map fst l)) as [[-> I]|N'].
        -- apply elem_of_cons in I as [->|I]; [|by destruct N]. by rewrite lookup_insert_eq, Here.
        -- rewrite lookup_insert_ne; [done|]. intros [= -> ->]. apply N'. split; [done|constructor].
Qed.

(** [chosen] names each group with a receiver once, with the handler its cursor
    points at. *)
Definition one_per_group (t : str) inner (chosen : list (str * Hid)) : Prop :=
  NoDup (map fst chosen) /\
  (forall g, g ∈ map fst chosen <-> receivers (Some g) t (subscriptions inner) <> []) /\
  Forall (fun '(g, h) =>
    let members := receivers (Some g) t (subscriptions inner) in
    members !! Z.to_nat (cursor_of t g inner mod Z.of_nat (List.length members)) = Some h) chosen.

(** What a selection leaves: the cursors of those groups at that topic have
    moved on, nothing else has changed. *)
Definition moved_on (t : str) inner inner' : Prop :=
  subscriptions inner' = subscriptions inner /\ closed inner' = closed inner /\
  forall t' g, cursor_of t' g inner' =
    if decide (t' = t /\ receivers (Some g) t (subscriptions inner) <> []) then u64 (cursor_of t g inner + 1)
    else cursor_of t' g inner.

Lemma select_spec ev inner : closed inner = false -> exists chosen inner',
  select_handlers (V := V) ev inner = Some (Ok (receivers None (topic ev) (subscriptions inner) ++ map snd chosen), inner') /\
  one_per_group (topic ev) inner chosen /\ moved_on (topic ev) inner inner'.
Proof.
  intros Open. unfold select_handlers. rewrite Open.
  destruct (collect_receivers (topic ev) (subscriptions inner)) as (m & -> & R & N).
  pose proof (any_order m) as P. assert (forall g hs, In (g, hs) (in_order m) -> m !! g = Some hs) as InM.
  { intros g hs I. apply elem_of_map_to_list. rewrite <- P. by apply list_elem_of_In. }
  assert (forall g, g ∈ map fst (in_order m) <-> receivers (Some g) (topic ev) (subscriptions inner) <> []) as Names.
  { intros g. rewrite <- R. split.
    - intros I. apply list_elem_of_In, in_map_iff in I as ([g' hs] & <- & I). cbn. rewrite (InM _ _ I). cbn.
      intros ->. by apply (N g'), InM.
    - intros NE. destruct (m !! g) as [hs|] eqn:E; [|done]. apply list_elem_of_In, in_map_iff. exists (g, hs).
      split; [done|]. apply list_elem_of_In. rewrite P. by apply elem_of_map_to_list. }
  assert (NoDup (map fst (in_order m))) as ND.
  { rewrite (Permutation_map fst P). apply NoDup_fst_map_to_list. }
  destruct (pick_groups_spec (topic ev) (group_cursors inner) (in_order m)) with (cursors := group_cursors inner)
    as (picks & cur & -> & F & C); [done| |done|].
  { apply List.Forall_forall. intros [g hs] I ->. by apply (N g), InM. }
  cbn. exists (zip (map fst (in_order m)) picks), (mkInner (subscriptions inner) cur (closed inner)). rewrite Open.
  assert (List.length (in_order m) = List.length picks) as L by (by eapply Forall2_length).
  assert (map fst (zip (map fst (in_order m)) picks) = map fst (in_order m)) as Z1.
  { apply fst_zip. rewrite length_map. lia. }
  assert (map snd (zip (map fst (in_order m)) picks) = picks) as Z2.
  { apply snd_zip. rewrite length_map. lia. }
  rewrite Z2. split; [done|]. split; [|split; [done|split; [done|]]].
  - split; [by rewrite Z1|]. split; [intros g; by rewrite Z1|]. clear -F InM R.
    induction F as [|[g hs] h l picks E F IH]; [constructor|]. cbn. constructor.
    + assert (receivers (Some g) (topic ev) (subscriptions inner) = hs) as ->; [|done].
      rewrite <- R, (InM g hs); [done|by left].
    + apply IH. intros g' hs' I. apply InM. by right.
  - intros t' g. unfold cursor_of. cbn [group_cursors]. rewrite C.
    destruct (decide (t' = topic ev /\ g ∈ map fst (in_order m))) as [[-> I]|D].
    + rewrite decide_True; [done|]. split; [done|]. by apply Names.
    + rewrite decide_False; [done|]. intros [-> I]. apply D. split; [done|]. by apply Names.
Qed.
End Selection.

(** * Delivery *)

Section Delivery.
Context {V : Type} `{JsonValue V} `{Globs} {Hid W : Type} `{!GroupOrder Hid}.
Variable run : Hid -> Handler V W.
Variables (broker_of : W -> Inner Glob Hid) (set_broker : Inner Glob Hid -> W -> W).

(** Handlers run one after the other, each with its own copy of the event; the
    first error ends the delivery and is its result. *)
Inductive delivers (ev : Event) : list Hid -> W -> EdaResult V unit -> W -> Prop :=
| delivered w : delivers ev [] w (Ok tt) w
| next h hs w w1 r w2 : run h ev w = Some (Ok tt, w1) -> delivers ev hs w1 r w2 -> delivers ev (h :: hs) w r w2
| stopped h hs w e w1 : run h ev w = Some (Err e, w1) -> delivers ev (h :: hs) w (Err (HandlerFailed e)) w1.

Lemma deliver_spec ev hs w r w' : deliver run hs ev w = Some (r, w') <-> delivers ev hs w r w'.
Proof.
  split.
  - revert w. induction hs as [|h hs IH]; intros w E; cbn in E; [injection E as <- <-; constructor|].
    unfold bind in E. destruct (run h ev w) as [[[[]|e] w1]|] eqn:R; [| |done].
    + by eapply next; [|apply IH].
    + injection E as <- <-. by apply stopped.
  - induction 1 as [w|h hs w w1 r w2 R _ IH|h hs w e w1 R]; cbn; unfold bind; [done| |]; by rewrite R.
Qed.
End Delivery.

(** C17 Publishing on an open broker hands the event, one handler after the
    other, to every ungrouped handler whose pattern matches its topic, in
    subscription order, and then to one member of each group that has a matching
    one: the member the group's cursor for this topic points at. The cursors of
    those groups at this topic move on by one and nothing else of the broker
    changes before the handlers run; the first handler that fails ends the
    delivery, and its error is the publisher's. A closed broker runs nothing. *)
Theorem publish_delivers {V} `{JsonValue V} `{Globs} {Hid W} `{!GroupOrder Hid} (run : Hid -> Handler V W)
    (broker_of : W -> Inner Glob Hid) (set_broker : Inner Glob Hid -> W -> W) (ev : Event) (w : W) :
  let inner := broker_of w in
  (closed inner = true -> publish run broker_of set_broker ev w = Some (Err Closed, set_broker inner w)) /\
  (closed inner = false -> exists chosen inner',
     one_per_group (topic ev) inner chosen /\ moved_on (topic ev) inner inner' /\
     forall r w', publish run broker_of set_broker ev w = Some (r, w') <->
       delivers run ev (receivers None (topic ev) (subscriptions inner) ++ map snd chosen) (set_broker inner' w) r w').
Proof.
  cbn. unfold publish, try_, bind, locked. split; intros C.
  - unfold select_handlers. by rewrite C.
  - destruct (select_spec (V := V) ev (broker_of w) C) as (chosen & inner' & -> & O & M).
    exists chosen, inner'. split; [done|]. split; [done|]. intros r w'. apply deliver_spec.
Qed.

(** * Fairness *)

Section Fairness.
Context {V : Type} `{JsonValue V} `{Globs} {Hid : Type} `{!EqDecision Hid} `{!GroupOrder Hid}.
Implicit Types (inner : Inner Glob Hid).

(** The selections of a sequence of publishes: each one is a transition of the
    broker, however the publishers interleave. *)
Fixpoint selections (evs : list Event) inner : option (list (str * list Hid)) :=
  match evs with
  | [] => Some []
  | ev :: evs =>
      match select_handlers (V := V) ev inner with
      | Some (Ok hs, inner') => cons (topic ev, hs) <$> selections evs inner'
      | _ => None
      end
  end.

Definition times (h : Hid) (l : list Hid) : nat := List.length (List.filter (fun x => bool_decide (x = h)) l).
Definition at_topic (t : str) (log : list (str * list Hid)) : list Hid :=
  flat_map snd (List.filter (fun '(t', _) => bool_decide (t' = t)) log).
Definition published (t : str) (evs : list Event) : nat :=
  List.length (List.filter (fun ev => bool_decide (topic ev = t)) evs).

Lemma times_app h a b : times h (a ++ b) = (times h a + times h b)%nat.
Proof. unfold times. by rewrite List.filter_app, length_app. Qed.
Lemma times_none h l : ~ In h l -> times h l = O.
Proof.
  intros N. induction l as [|x l IH]; [done|]. cbn. rewrite bool_decide_eq_false_2 by (intros ->; apply N; by left).
  apply IH. intros I. apply N. by right.
Qed.

(** Whether the member at a position is [h]. *)
Definition is_at (h : Hid) (members : list Hid) (i : nat) : bool := bool_decide (members !! i = Some h).

Lemma times_positions h members :
  times h members = List.length (List.filter (is_at h members) (seq 0 (List.length members))).
Proof.
  induction members as [|x members IH]; [done|]. cbn [List.length seq List.filter].
  assert (List.length (List.filter (is_at h (x :: members)) (seq 1 (List.length members))) = times h members) as E.
  { rewrite IH, <- seq_shift. generalize (seq 0 (List.length members)). intros l.
    induction l as [|i l IHl]; [done|]. cbn [map List.filter].
    assert (is_at h (x :: members) (S i) = is_at h members i) as -> by done.
    destruct (is_at h members i); cbn; by rewrite IHl. }
  change (times h (x :: members)) with (times h ([x] ++ members)). rewrite times_app, <- E.
  change (is_at h (x :: members) 0) with (bool_decide (Some x = Some h)). unfold times. cbn [List.filter].
  case_bool_decide as X; [subst x; by rewrite bool_decide_eq_true_2|by rewrite bool_decide_eq_false_2 by congruence].
Qed.

(** A full turn of the cursor meets every position once. *)
Lemma full_turn (c : Z) n : (0 < n)%nat ->
  Permutation (map (fun i => Z.to_nat ((c + Z.of_nat i) mod Z.of_nat n)) (seq 0 n)) (seq 0 n).
Proof.
  intros N. apply Permutation.NoDup_Permutation_bis.
  - apply Injective_map_NoDup_in; [|apply seq_NoDup]. intros i j Ii Ij E. apply in_seq in Ii, Ij.
    pose proof (Z.mod_pos_bound (c + Z.of_nat i) (Z.of_nat n) ltac:(lia)).
    pose proof (Z.mod_pos_bound (c + Z.of_nat j) (Z.of_nat n) ltac:(lia)).
    assert ((c + Z.of_nat i) mod Z.of_nat n = (c + Z.of_nat j) mod Z.of_nat n) as E' by lia.
    pose proof (Z.div_mod (c + Z.of_nat i) (Z.of_nat n) ltac:(lia)).
    pose proof (Z.div_mod (c + Z.of_nat j) (Z.of_nat n) ltac:(lia)).
    destruct (Z.lt_trichotomy ((c + Z.of_nat i) / Z.of_nat n) ((c + Z.of_nat j) / Z.of_nat n)) as [L|[L|L]]; nia.
  - rewrite length_map. lia.
  - intros k I. apply in_map_iff in I as (i & <- & _). apply in_seq.
    pose proof (Z.mod_pos_bound (c + Z.of_nat i) (Z.of_nat n) ltac:(lia)). lia.
Qed.

(** How often [h] is met in [k] steps of a cursor that starts at [c]. *)
Fixpoint met (h : Hid) (members : list Hid) (c : Z) (k : nat) : nat :=
  match k with
  | O => O
  | S k => (if is_at h members (Z.to_nat (c mod Z.of_nat (List.length members))) then 1 else 0) + met h members (c + 1) k
  end%nat.

Lemma met_positions h members c k : met h members c k =
  List.length (List.filter (is_at h members)
    (map (fun i => Z.to_nat ((c + Z.of_nat i) mod Z.of_nat (List.length members))) (seq 0 k))).
Proof.
  revert c. induction k as [|k IH]; intros c; [done|]. cbn [met seq map List.filter]. rewrite Z.add_0_r, IH.
  rewrite <- seq_shift, map_map.
  rewrite (map_ext (fun i => Z.to_nat ((c + 1 + Z.of_nat i) mod Z.of_nat (List.length members)))
             (fun i => Z.to_nat ((c + Z.of_nat (S i)) mod Z.of_nat (List.length members)))).
  - by destruct (is_at _ _ _).
  - intros i. do 2 f_equal. lia.
Qed.

Lemma met_full_turn h members c : met h members c (List.length members) = times h members.
Proof.
  destruct (decide (members = [])) as [->|N]; [done|]. rewrite met_positions, times_positions.
  apply Permutation_length, filter_permutation, full_turn. destruct members; [done|cbn; lia].
Qed.

(** [h] listens at the topic in no other group. *)
Definition only_in (g : str) (t : str) (h : Hid) inner : Prop :=
  forall g', g' <> Some g -> ~ In h (receivers g' t (subscriptions inner)).

Lemma chosen_times h g t inner chosen : one_per_group t inner chosen -> only_in g t h inner ->
  receivers (Some g) t (subscriptions inner) <> [] ->
  times h (map snd chosen) =
    (if is_at h (receivers (Some g) t (subscriptions inner))
          (Z.to_nat (cursor_of t g inner mod Z.of_nat (List.length (receivers (Some g) t (subscriptions inner)))))
     then 1 else 0)%nat.
Proof.
  intros (ND & Names & F) Only NE. apply Names in NE. clear Names. induction F as [|[g' h'] chosen E F IH].
  { by apply not_elem_of_nil in NE. }
  cbn [map fst snd] in *. apply NoDup_cons in ND as [Fresh ND]. change (h' :: map snd chosen) with ([h'] ++ map snd chosen).
  rewrite times_app. destruct (decide (g' = g)) as [->|D].
  - rewrite (times_none h (map snd chosen)).
    + unfold times, is_at. cbn. rewrite E. case_bool_decide as X; [subst h'; by rewrite bool_decide_eq_true_2|].
      by rewrite bool_decide_eq_false_2 by congruence.
    + intros I. apply in_map_iff in I as ([g2 h2] & <- & I). cbn in *.
      pose proof (proj1 (List.Forall_forall _ _) F _ I) as E2. cbn in E2. apply list_elem_of_lookup_2, list_elem_of_In in E2.
      apply (Only (Some g2)) in E2; [done|]. intros [= ->]. apply Fresh, list_elem_of_In, in_map_iff. by exists (g, h2).
  - apply elem_of_cons in NE as [->|NE]; [done|]. rewrite IH by done. rewrite times_none; [done|].
    intros [->|[]]. apply list_elem_of_lookup_2, list_elem_of_In in E. by apply (Only (Some g')) in E; [|intros [= ->]].
Qed.

Lemma at_topic_cons t t' hs log :
  at_topic t ((t', hs) :: log) = if bool_decide (t' = t) then hs ++ at_topic t log else at_topic t log.
Proof. unfold at_topic. cbn [List.filter]. by destruct (bool_decide _). Qed.
Lemma published_cons t ev evs :
  published t (ev :: evs) = if bool_decide (topic ev = t) then S (published t evs) else published t evs.
Proof. unfold published. cbn [List.filter]. by destruct (bool_decide _). Qed.

Lemma selections_meet t g h evs : forall inner, closed inner = false -> only_in g t h inner ->
  let members := receivers (Some g) t (subscriptions inner) in
  members <> [] -> 0 <= cursor_of t g inner -> cursor_of t g inner + Z.of_nat (published t evs) < 2 ^ 64 ->
  exists log, selections evs inner = Some log /\
    times h (at_topic t log) = met h members (cursor_of t g inner) (published t evs).
Proof.
  induction evs as [|ev evs IH]; intros inner Open Only members NE Pos Bound; [by exists []|].
  destruct (select_spec (V := V) ev inner Open) as (chosen & inner' & Sel & O & Subs & Closed' & Cur).
  assert (only_in g t h inner') as Only' by (intros g' D; rewrite Subs; by apply Only).
  cbn [selections]. rewrite Sel. specialize (Cur t g). rewrite published_cons in Bound |- *.
  destruct (decide (topic ev = t)) as [<-|D].
  - rewrite bool_decide_eq_true_2 in Bound |- * by done. rewrite decide_True, u64_id in Cur by (done || lia).
    destruct (IH inner') as (log & -> & T); rewrite ?Closed', ?Subs, ?Cur; try done; try lia.
    eexists. split; [done|]. rewrite at_topic_cons, bool_decide_eq_true_2, !times_app, T, Cur, Subs by done.
    rewrite (times_none h (receivers None _ _)) by (by apply Only).
    by rewrite (chosen_times h g (topic ev) inner) by done.
  - rewrite bool_decide_eq_false_2 in Bound |- * by done. rewrite decide_False in Cur by (intros [? _]; congruence).
    destruct (IH inner') as (log & -> & T); rewrite ?Closed', ?Subs, ?Cur; try done.
    eexists. split; [done|]. by rewrite at_topic_cons, bool_decide_eq_false_2, T, Cur, Subs.
Qed.
End Fairness.

(** C20 A group takes turns: however many events of other topics come in
    between, and wherever its cursor stands, over as many events of a topic as
    the group has matching members each of them is chosen exactly as often as it
    is subscribed, until the cursor wraps at 2^64. *)
Theorem round_robin_is_fair {V} `{JsonValue V} `{Globs} {Hid} `{!EqDecision Hid} `{!GroupOrder Hid}
    (inner : Inner Glob Hid) (t g : str) (h : Hid) (evs : list Event)
    (Open : closed inner = false)
    (Only : only_in g t h inner)
    (Turn : published t evs = List.length (receivers (Some g) t (subscriptions inner)))
    (Listens : receivers (Some g) t (subscriptions inner) <> [])
    (Cursor : 0 <= cursor_of t g inner /\ cursor_of t g inner + Z.of_nat (published t evs) < 2 ^ 64) :
  exists log, selections (V := V) evs inner = Some log /\
    times h (at_topic t log) = times h (receivers (Some g) t (subscriptions inner)).
Proof.
  destruct (selections_meet (V := V) t g h evs inner Open Only Listens (proj1 Cursor) (proj2 Cursor)) as (log & E & T).
  exists log. split; [done|]. rewrite T, Turn. apply met_full_turn.
Qed.

(** * A concrete run *)

Module Demo.
(** Patterns in which a star stands for any text. *)
Fixpoint wild (p t : str) : bool :=
  match p with
  | [] => match t with [] => true | _ => false end
  | c :: p' =>
      if (c =? 42)%N
      then (fix any t := wild p' t || match t with [] => false | _ :: t' => any t' end) t
      else match t with d :: t' => (c =? d)%N && wild p' t' | [] => false end
  end.
#[local] Instance stars : Globs := {
  Glob := str;
  build p := if contains 91%N p then Err (lit "unclosed character class") else Ok p;
  is_match := wild;
  debug s := [34%N] ++ s ++ [34%N]
}.

Definition order (t : string) : Event := event_new (lit "e") 0 None (lit t) (lit "T") (lit "s") None.
Definition Log : Type := Inner Glob nat * list (nat * str).

(** Handler 9 fails; handler 8 publishes a notice; every handler logs. *)
Definition note (h : nat) (ev : Event) : Handler json Log := fun _ '(b, l) =>
  Some (if (h =? 9)%nat then Err (internal (lit "boom")) else Ok tt, (b, l ++ [(h, topic ev)])).
Definition put (b : Inner Glob nat) (w : Log) : Log := (b, snd w).
Definition quiet (h : nat) : Handler json Log := fun ev => note h ev ev.
Definition run (h : nat) : Handler json Log := fun ev =>
  if (h =? 8)%nat then
    let! r := publish quiet fst put (order "notices") in
    let! _ := note h ev ev in ret (map_err eda_to_firefly r)
  else quiet h ev.

Definition setup : M Log (EdaResult json unit) :=
  let? _ := subscribe_group fst put (lit "orders.*") (lit "g") 1%nat in
  let? _ := subscribe fst put (lit "orders.*") 8%nat in
  let? _ := subscribe_group fst put (lit "orders.*") (lit "g") 2%nat in
  let? _ := subscribe_group fst put (lit "*") (lit "audit") 3%nat in
  ret (Ok tt).
Definition ready : Inner Glob nat :=
  match setup (broker_new, []) with Some (_, w) => fst w | None => broker_new end.

Definition orders_members : list nat := receivers (Some (lit "g")) (lit "orders.a") (subscriptions ready).
Lemma round_robin_is_fair_witness : orders_members = [1; 2]%nat /\ exists log,
  selections (V := json) [order "orders.a"; order "users.x"; order "orders.a"] ready = Some log /\
  times 2%nat (at_topic (lit "orders.a") log) = times 2%nat orders_members.
Proof.
  split; [vm_compute; reflexivity|]. apply (round_robin_is_fair ready (lit "orders.a") (lit "g") 2%nat).
  - vm_compute. reflexivity.
  - intros g N I. unfold receivers in I. apply in_map_iff in I as (s & E & I). apply filter_In in I as [I G].
    apply andb_true_iff in G as [_ G]. apply bool_decide_eq_true in G.
    vm_compute in I. by repeat destruct I as [<-|I].
  - vm_compute. reflexivity.
  - vm_compute. discriminate.
  - vm_compute. split; discriminate || reflexivity.
Defined.

(** A handler publishes while it runs; the groups take turns; a failure ends
    the delivery. *)
Example reentrant_delivery :
  match (let? _ := setup in let? _ := publish run fst put (order "orders.a") in
         let? _ := publish run fst put (order "orders.a") in
         let? _ := subscribe fst put (lit "orders.a") 9%nat in publish run fst put (order "orders.a"))
        (broker_new, []) with
  | Some (r, w) => (is_ok r, map fst (snd w))
  | None => (true, [])
  end = (false, [3; 8; 3; 1; 3; 8; 3; 2; 3; 8; 9]%nat).
Proof. vm_compute. reflexivity. Qed.

Example closed_and_malformed :
  match (let! r1 := subscribe (V := json) fst put (lit "a[") 1%nat in
         let! _ := close (V := json) fst put in
         let! r2 := publish run fst put (order "a") in ret (r1, r2)) (broker_new, []) with
  | Some ((Err (HandlerFailed e), r2), w) => (status e, r2, snd w)
  | _ => (0, Ok tt, [])
  end = (400, Err Closed, []).
Proof. vm_compute. reflexivity. Qed.
End Demo.
