(* ===== verification/Listener.v ===== *)
(** Listeners that retry and dead-letter, and the store of failed events:
    [crates/eda/src/listener.rs] and [dlq.rs].

    Sleeping, the clock and fresh ids belong to the world. The in-process store is
    a map by entry id; the port is a record of operations. *)
From Stdlib Require Import Ascii String.
From Stdlib Require Import ZArith NArith List Lia Sorting.Sorted Sorting.Permutation.
From stdpp Require Import base decidable list gmap.
From S2P Require Import Prelude Str Order Json Globs Kernel Eda.

(** * The store of failed events *)

Record EdaDeadLetterEntry : Type := mkLetter {
  letter_id : str;
  letter_event : Event;
  letter_type : str;
  letter_message : str;
  letter_time : Z;
  attempts : Z
}.

Definition letter_new (fresh : str) (now : Z) (ev : Event) (ty msg : str) (n : Z) : EdaDeadLetterEntry :=
  mkLetter fresh ev ty msg now n.

Record EdaDeadLetterStore (W : Type) : Type := mkLetters {
  letters_add : EdaDeadLetterEntry -> M W unit;
  letters_list : nat -> M W (list EdaDeadLetterEntry);
  letters_get : str -> M W (option EdaDeadLetterEntry);
  letters_remove : str -> M W bool
}.
Arguments mkLetters {W}. Arguments letters_add {W}. Arguments letters_list {W}. Arguments letters_get {W}.
Arguments letters_remove {W}.

Abbreviation Letters := (gmap str EdaDeadLetterEntry).

(** The order a [HashMap] yields its values in. *)
Class LetterOrder : Type := {
  letter_values : Letters -> list EdaDeadLetterEntry;
  letter_values_any : forall m, letter_values m ≡ₚ map snd (map_to_list m)
}.

Section Store.
Context `{LetterOrder}.
Definition recent_first (a b : EdaDeadLetterEntry) : comparison := Z.compare (letter_time b) (letter_time a).
Definition memory_list (limit : nat) (m : Letters) : list EdaDeadLetterEntry :=
  take limit (sort_by recent_first (letter_values m)).
Definition memory_len (m : Letters) : nat := size m.
Definition memory_is_empty (m : Letters) : bool := (memory_len m =? 0)%nat.

Definition memory_add (e : EdaDeadLetterEntry) (m : Letters) : Letters := <[letter_id e := e]> m.
Definition memory_remove (id : str) (m : Letters) : bool * Letters := (bool_decide (is_Some (m !! id)), delete id m).

(** Over the part of the world that is the store. *)
Definition InMemoryEdaDeadLetterStore {W} (get : W -> Letters) (put : Letters -> W -> W) : EdaDeadLetterStore W :=
  mkLetters
    (fun e w => Some (tt, put (memory_add e (get w)) w))
    (fun limit w => Some (memory_list limit (get w), w))
    (fun id w => Some (get w !! id, w))
    (fun id w => let '(b, m) := memory_remove id (get w) in Some (b, put m w)).
End Store.

(** * The wrapper *)

Definition HEADER_ORIGINAL_TOPIC : str := lit "x-original-topic".
Definition HEADER_EXCEPTION : str := lit "x-exception".

Record ListenerPolicy (W : Type) : Type := mkPolicy {
  retries : Z;
  retry_delay : Z;
  dead_letter_topic : option str;
  dead_letter_store : option (EdaDeadLetterStore W)
}.
Arguments mkPolicy {W}. Arguments retries {W}. Arguments retry_delay {W}. Arguments dead_letter_topic {W}.
Arguments dead_letter_store {W}.

Definition policy_with_retries {W} (n : Z) : ListenerPolicy W := mkPolicy n 0 None None.
Definition set_retry_delay {W} (d : Z) (p : ListenerPolicy W) : ListenerPolicy W :=
  mkPolicy (retries p) d (dead_letter_topic p) (dead_letter_store p).
Definition set_dead_letter_topic {W} (t : str) (p : ListenerPolicy W) : ListenerPolicy W :=
  mkPolicy (retries p) (retry_delay p) (Some t) (dead_letter_store p).
Definition set_dead_letter_store {W} (s : EdaDeadLetterStore W) (p : ListenerPolicy W) : ListenerPolicy W :=
  mkPolicy (retries p) (retry_delay p) (dead_letter_topic p) (Some s).

Definition is_noop {W} (p : ListenerPolicy W) : bool :=
  (retries p =? 0) && bool_decide (dead_letter_topic p = None) &&
  match dead_letter_store p with None => true | Some _ => false end.

Definition dead_letter_event (original : Event) (topic_ exception_code : str) : Event :=
  let h := <[HEADER_EXCEPTION := exception_code]> (<[HEADER_ORIGINAL_TOPIC := topic original]> (headers original)) in
  mkEvent (event_id original) (event_type original) (source original) topic_ (correlation original) (time original)
    h (payload original) (key original).

Section Wrapper.
Context {V : Type} `{JsonValue V} {W : Type}.
Variables (sleep : Z -> M W unit) (new_id : M W str) (now : W -> Z).

(** [Duration * u32] panics when it overflows. *)
Definition backoff (delay attempt : Z) : M W unit := fun w =>
  if delay =? 0 then Some (tt, w)
  else if delay * attempt <=? DURATION_MAX then sleep (delay * attempt) w else None.

Section Wrapped.
Variables (h : Handler V W) (publish : Event -> M W (EdaResult V unit)) (policy : ListenerPolicy W).

(** What happens to an event whose retries are exhausted. *)
Definition dead_letter (ev : Event) (err : FireflyError V) (attempt : Z) : M W (Result unit (FireflyError V)) :=
  let! _ :=
    match dead_letter_store policy with
    | Some store =>
        let! id := new_id in
        fun w => letters_add store (letter_new id (now w) ev (code err) (detail err) (u32 (attempt + 1))) w
    | None => ret tt
    end in
  match dead_letter_topic policy with
  | Some dlt =>
      let! r := publish (dead_letter_event ev dlt (code err)) in
      ret (map_err eda_to_firefly r)
  | None => ret match dead_letter_store policy with Some _ => Ok tt | None => Err err end
  end.

(** The loop: [remaining] is [retries - attempt]. *)
Fixpoint listen (remaining : nat) (attempt : Z) (ev : Event) : M W (Result unit (FireflyError V)) :=
  let! r := h ev in
  match r with
  | Ok _ => ret (Ok tt)
  | Err err =>
      match remaining with
      | S remaining => let! _ := backoff (retry_delay policy) (attempt + 1) in listen remaining (attempt + 1) ev
      | O => dead_letter ev err attempt
      end
  end.

Definition wrap_listener : Handler V W :=
  if is_noop policy then h else listen (Z.to_nat (retries policy)) 0.

(** * What the wrapper promises *)

(** The attempts on an event: all failing but perhaps the last, with the pauses
    between them; [failed a errs] counts them. *)
Inductive tries (ev : Event) : Z -> W -> Z -> option (FireflyError V) -> W -> Prop :=
| tries_ok a w w' : h ev w = Some (Ok tt, w') -> tries ev a w a None w'
| tries_out a w e w' : a = retries policy -> h ev w = Some (Err e, w') -> tries ev a w a (Some e) w'
| tries_again a w e w1 w2 b o w' : a < retries policy -> h ev w = Some (Err e, w1) ->
    backoff (retry_delay policy) (a + 1) w1 = Some (tt, w2) ->
    tries ev (a + 1) w2 b o w' -> tries ev a w b o w'.

Lemma tries_bound ev a w b o w' : a <= retries policy -> tries ev a w b o w' ->
  a <= b <= retries policy /\ (o <> None -> b = retries policy).
Proof.
  intros B T. induction T as [a w w'|a w e w'|a w e w1 w2 b o w' L R D T IH].
  - split; [lia|done].
  - split; [lia|]. by intros _.
  - destruct (IH ltac:(lia)) as [IH1 IH2]. split; [lia|done].
Qed.

Lemma listen_spec ev remaining a w r w' : a + Z.of_nat remaining = retries policy ->
  listen remaining a ev w = Some (r, w') <->
  exists b o w1, tries ev a w b o w1 /\
    match o with None => r = Ok tt /\ w' = w1 | Some e => dead_letter ev e b w1 = Some (r, w') end.
Proof.
  revert a w. induction remaining as [|remaining IH]; intros a w E; cbn [listen]; unfold bind; split.
  - destruct (h ev w) as [[[[]|e] w1]|] eqn:R; [|intros D|done].
    + intros [= <- <-]. exists a, None, w1. split; [by constructor|done].
    + exists a, (Some e), w1. split; [apply tries_out; [lia|done]|done].
  - intros (b & o & w1 & T & O). destruct T as [a w w1 R|a w e w1 _ R|a w e w1 w2 b o w3 L]; [| |lia]; rewrite R.
    + by destruct O as [-> ->].
    + done.
  - destruct (h ev w) as [[[[]|e] w1]|] eqn:R; [| |done].
    + intros [= <- <-]. exists a, None, w1. split; [by constructor|done].
    + destruct (backoff _ _ w1) as [[[] w2]|] eqn:B; [|done]. intros D.
      apply IH in D as (b & o & w3 & T & O); [|lia]. exists b, o, w3. split; [|done]. eapply tries_again; try done. lia.
  - intros (b & o & w1 & T & O). destruct T as [a w w1 R|a w e w1 X R|a w e w1 w2 b o w3 L R B T]; rewrite R.
    + by destruct O as [-> ->].
    + lia.
    + rewrite B. apply IH; [lia|]. by exists b, o, w3.
Qed.

(** Where an exhausted event goes: to the store, then to the topic; without
    either the error goes back to the caller. *)
Definition kept (ev : Event) (e : FireflyError V) (w1 : W) (r : Result unit (FireflyError V)) (w' : W) : Prop :=
  exists w2,
    match dead_letter_store policy with
    | Some store => exists id w0, new_id w1 = Some (id, w0) /\
        letters_add store (letter_new id (now w0) ev (code e) (detail e) (u32 (retries policy + 1))) w0 = Some (tt, w2)
    | None => w2 = w1
    end /\
    match dead_letter_topic policy with
    | Some dlt => exists p, publish (dead_letter_event ev dlt (code e)) w2 = Some (p, w') /\ r = map_err eda_to_firefly p
    | None => w' = w2 /\ r = match dead_letter_store policy with Some _ => Ok tt | None => Err e end
    end.

Lemma dead_letter_kept ev e w1 r w' : dead_letter ev e (retries policy) w1 = Some (r, w') -> kept ev e w1 r w'.
Proof.
  unfold dead_letter, kept, bind. destruct (dead_letter_store policy) as [store|].
  - destruct (new_id w1) as [[id w0]|]; [|done]. destruct (letters_add _ _ w0) as [[[] w2]|] eqn:A; [|done].
    intros D. exists w2. split; [by exists id, w0|]. destruct (dead_letter_topic policy) as [dlt|].
    + destruct (publish _ w2) as [[p w3]|]; [|done]. injection D as <- <-. by exists p.
    + by injection D as <- <-.
  - intros D. exists w1. split; [done|]. cbn in D. destruct (dead_letter_topic policy) as [dlt|].
    + destruct (publish _ w1) as [[p w3]|]; [|done]. injection D as <- <-. by exists p.
    + by injection D as <- <-.
Qed.

Lemma wrap_is_listen ev w r w' : 0 <= retries policy -> wrap_listener ev w = Some (r, w') ->
  listen (Z.to_nat (retries policy)) 0 ev w = Some (r, w').
Proof.
  intros B. unfold wrap_listener, is_noop. destruct (Z.eqb_spec (retries policy) 0) as [R|]; [|done]. cbn.
  case_bool_decide as T; [|done]. destruct (dead_letter_store policy) eqn:S; [done|]. cbn [negb andb]. rewrite R. intros E. change (listen (Z.to_nat 0) 0 ev w) with (bind (h ev) (fun r => match r with Ok _ => ret (Ok tt) | Err err => dead_letter ev err 0 end) w).
  unfold bind. rewrite E. destruct r as [[]|e]; [done|]. unfold dead_letter, bind. by rewrite S, T.
Qed.

(** A policy whose pauses all fit in a [Duration], in a world whose calls
    return. *)
Record returning : Prop := {
  handler_returns : forall ev w, exists r w', h ev w = Some (r, w');
  sleep_returns : forall d w, exists w', sleep d w = Some (tt, w');
  id_returns : forall w, exists id w', new_id w = Some (id, w');
  store_returns : forall s e w, dead_letter_store policy = Some s -> exists w', letters_add s e w = Some (tt, w');
  publish_returns : forall ev w, exists r w', publish ev w = Some (r, w');
  pauses_fit : 0 <= retry_delay policy /\ retry_delay policy * retries policy <= DURATION_MAX
}.

Lemma dead_letter_returns ev e a w : returning -> exists r w', dead_letter ev e a w = Some (r, w').
Proof.
  intros [_ _ Id Store Pub _]. unfold dead_letter, bind. destruct (dead_letter_store policy) as [s|] eqn:S.
  - destruct (Id w) as (id & w1 & ->). destruct (Store s (letter_new id (now w1) ev (code e) (detail e) (u32 (a + 1))) w1)
      as (w2 & ->); [done|]. destruct (dead_letter_topic policy); [|eauto]. destruct (Pub (dead_letter_event ev s0 (code e)) w2)
      as (r & w3 & ->). unfold ret. eauto.
  - cbn. destruct (dead_letter_topic policy) as [t|]; [|unfold ret; eauto].
    destruct (Pub (dead_letter_event ev t (code e)) w) as (r & w3 & ->). unfold ret. eauto.
Qed.

Lemma listen_returns ev remaining : returning -> forall a w, 0 <= a -> a + Z.of_nat remaining = retries policy ->
  exists r w', listen remaining a ev w = Some (r, w').
Proof.
  intros R. induction remaining as [|remaining IH]; intros a w P E; cbn [listen]; unfold bind;
    destruct (handler_returns R ev w) as ([[]|e] & w1 & ->); try (unfold ret; eauto; fail).
  - by apply dead_letter_returns.
  - assert (exists w2, backoff (retry_delay policy) (a + 1) w1 = Some (tt, w2)) as [w2 ->].
    { unfold backoff. destruct (_ =? 0); [by eexists|]. destruct (pauses_fit R) as [D M].
      rewrite (proj2 (Z.leb_le _ _)) by nia. apply (sleep_returns R). }
    apply IH; lia.
Qed.
End Wrapped.
End Wrapper.

(** C18 No event a wrapped listener takes is lost without a trace. The handler is
    tried at most [retries + 1] times, with the growing pause before each
    further attempt; when the last attempt fails too, the event is captured in
    the store with the number of attempts, if there is one, and then published on
    the dead-letter topic, if there is one, whose failure is the result; only
    without either does the handler's own error come back. In a world whose
    calls return, the listener returns. *)
Theorem failed_events_are_kept {V} `{JsonValue V} {W} (sleep : Z -> M W unit) (new_id : M W str) (now : W -> Z)
    (h : Handler V W) (publish : Event -> M W (EdaResult V unit)) (policy : ListenerPolicy W) (ev : Event) (w : W)
    (Count : 0 <= retries policy) :
  (forall r w', wrap_listener sleep new_id now h publish policy ev w = Some (r, w') ->
     exists b o w1, tries sleep h policy ev 0 w b o w1 /\ 0 <= b <= retries policy /\
       match o with
       | None => r = Ok tt /\ w' = w1
       | Some e => b = retries policy /\ kept new_id now publish policy ev e w1 r w'
       end) /\
  (returning sleep new_id h publish policy ->
     exists r w', wrap_listener sleep new_id now h publish policy ev w = Some (r, w')).
Proof.
  split.
  - intros r w' E. apply wrap_is_listen in E; [|done]. apply listen_spec in E as (b & o & w1 & T & O); [|lia].
    pose proof (tries_bound sleep h policy ev 0 w b o w1 Count T) as [B L].
    exists b, o, w1. split; [done|]. split; [done|]. destruct o as [e|]; [|done].
    rewrite L in O |- * by done. split; [done|]. by apply dead_letter_kept.
  - intros R. unfold wrap_listener. destruct (is_noop policy); [apply (handler_returns _ _ _ _ _ R)|].
    apply listen_returns; [done|lia|lia].
Qed.

(** * The store *)

Section Store_lemmas.
Context `{LetterOrder}.

Lemma preorder_recent : total_preorder recent_first.
Proof.
  apply (preorder_ext _ (fun a b => CompOpp (Z.compare (letter_time a) (letter_time b)))).
  - intros a b. apply Z.compare_antisym.
  - apply (preorder_reverse (fun a b => Z.compare (letter_time a) (letter_time b))), (preorder_map letter_time), preorder_Z.
Qed.

Lemma strongly_sorted_split {A} (R : A -> A -> Prop) (a b : list A) : StronglySorted R (a ++ b) ->
  StronglySorted R a /\ forall x y, In x a -> In y b -> R x y.
Proof.
  induction a as [|x a IH]; cbn; intros S; [split; [constructor|done]|]. inversion S as [|? ? S' F]; subst.
  destruct (IH S') as [Sa Ab]. rewrite List.Forall_app in F. destruct F as [Fa Fb]. split; [by constructor|].
  intros y z [->|Iy] Iz; [|by apply Ab]. by apply (proj1 (List.Forall_forall _ _) Fb).
Qed.

(** A listing holds the most recent letters, newest first, up to its limit. *)
Lemma memory_list_spec limit m : exists rest,
  Permutation (memory_list limit m ++ rest) (letter_values m) /\
  StronglySorted (fun a b => letter_time b <= letter_time a) (memory_list limit m) /\
  (forall x y, In x (memory_list limit m) -> In y rest -> letter_time y <= letter_time x) /\
  List.length (memory_list limit m) = Nat.min limit (memory_len m).
Proof.
  exists (drop limit (sort_by recent_first (letter_values m))). unfold memory_list.
  pose proof (sort_by_sorted recent_first preorder_recent (letter_values m)) as S.
  rewrite <- (take_drop limit (sort_by recent_first (letter_values m))) in S. apply strongly_sorted_split in S as [S1 S2].
  rewrite take_drop. split; [apply sort_by_permutation|]. split; [exact S1|]. split; [exact S2|].
  rewrite length_take. f_equal. rewrite (Permutation_length (sort_by_permutation _ _)), letter_values_any, length_map.
  by rewrite length_map_to_list.
Qed.
End Store_lemmas.

(** Dead-lettered again, an event no longer says where it was first published. *)
Example second_dead_letter :
  let ev := event_new (lit "e") 0 None (lit "orders") (lit "T") (lit "s") None in
  let once := dead_letter_event ev (lit "orders.DLT") (lit "A") in
  let twice := dead_letter_event once (lit "parking") (lit "B") in
  (headers once !! HEADER_ORIGINAL_TOPIC, headers twice !! HEADER_ORIGINAL_TOPIC) =
  (Some (lit "orders"), Some (lit "orders.DLT")).
Proof. vm_compute. reflexivity. Qed.

(** * A concrete run *)

Module ListenerDemo.
#[local] Instance by_map : LetterOrder.
Proof. refine {| letter_values := fun m => map snd (map_to_list m) |}. done. Defined.

Record World : Type := mkWorld { calls : nat; slept : list Z; kept_letters : Letters; sent : list Event }.
Definition put_letters (m : Letters) (w : World) : World := mkWorld (calls w) (slept w) m (sent w).
Definition fails_until (n : nat) : Handler json World := fun ev w =>
  Some (if (calls w <? n)%nat then Err (internal (lit "boom")) else Ok tt,
        mkWorld (S (calls w)) (slept w) (kept_letters w) (sent w)).
Definition sleeps (d : Z) : M World unit := fun w => Some (tt, mkWorld (calls w) (slept w ++ [d]) (kept_letters w) (sent w)).
Definition sends (ev : Event) : M World (EdaResult json unit) := fun w =>
  Some (Ok tt, mkWorld (calls w) (slept w) (kept_letters w) (sent w ++ [ev])).
Definition an_id : M World str := fun w => Some (lit "id", w).
Definition a_policy : ListenerPolicy World :=
  set_dead_letter_topic (lit "dlt")
    (set_dead_letter_store (InMemoryEdaDeadLetterStore kept_letters put_letters)
      (set_retry_delay 5 (policy_with_retries 2))).
Definition start : World := mkWorld 0 [] ∅ [].
Definition order : Event := event_new (lit "e") 0 None (lit "orders") (lit "T") (lit "s") None.

Definition outcome (n : nat) : option (bool * nat * list Z * list (str * Z) * list str) :=
  match wrap_listener sleeps an_id (fun _ => 7) (fails_until n) sends a_policy order start with
  | Some (r, w) => Some (is_ok r, calls w, slept w,
      map (fun '(k, e) => (letter_type e, attempts e)) (map_to_list (kept_letters w)), map topic (sent w))
  | None => None
  end.

Example retried_then_handled : outcome 2 = Some (true, 3%nat, [5; 10], [], []).
Proof. vm_compute. reflexivity. Qed.
Example retried_then_dead : outcome 9 = Some (true, 3%nat, [5; 10], [(TYPE_INTERNAL, 3)], [lit "dlt"]).
Proof. vm_compute. reflexivity. Qed.

Lemma all_return n : returning sleeps an_id (fails_until n) sends a_policy.
Proof.
  split; try (intros; unfold fails_until, sleeps, an_id, sends; eauto; fail).
  - intros s e w [= <-]. eexists. reflexivity.
  - split; vm_compute; discriminate.
Qed.

Lemma failed_events_are_kept_witness :
  0 <= retries a_policy /\
  exists r w', wrap_listener sleeps an_id (fun _ => 7) (fails_until 9) sends a_policy order start = Some (r, w').
Proof.
  split; [vm_compute; discriminate|].
  apply (proj2 (failed_events_are_kept sleeps an_id (fun _ => 7) (fails_until 9) sends a_policy order start
                  ltac:(vm_compute; discriminate))).
  apply all_return.
Defined.
End ListenerDemo.
