(* ===== verification/Externalize.v ===== *)
(** Events that leave the process when their transaction has committed:
    [externalize_after_commit] of [crates/eda/src/registry.rs], over the
    transactional listeners of [Transactional.v] and the bridge of [Eda.v]. *)
From Stdlib Require Import Ascii String.
From Stdlib Require Import ZArith NArith List Lia.
From stdpp Require Import base decidable list gmap.
From S2P Require Import Prelude Str Json Kernel Eda Transactional.

Definition EXTERNALIZED_SOURCE : str := lit "firefly".

Section Externalize.
Context {V Hid W E : Type}.
Variables (to_vec : E -> Result bytes str) (new_event : str -> str -> str -> option bytes -> W -> Eda.Event * W).
(** The process-wide broker at the time of forwarding. *)
Variable cell : W -> option (Port V Hid W).

(** What the listener makes of one event; the result is dropped. *)
Definition forward (t ty : str) (e : E) : M W (EdaResult V unit) := fun w =>
  publish_to_broker to_vec new_event (cell w) t ty EXTERNALIZED_SOURCE e w.

Definition externalize_after_commit (t ty : str) : Listener W E :=
  mkListener (Some AfterCommit) (fun e task =>
    match forward t ty e (world task) with
    | Some (_, w) => Some (tt, mkTask (buffer task) w)
    | None => None
    end).



End Externalize.

(** * One listener among others *)


Section Among.
Context {W E : Type}.
Variables (pre post : E -> list (Listener W E)) (l : Listener W E).
Abbreviation others := (fun e => pre e ++ post e).
Abbreviation all := (fun e => pre e ++ l :: post e).



End Among.

Section Effects.
Context {W X E R Er : Type}.
Variables (before : TxOptions -> W -> Result unit (TxError X) * W) (settle : TxOptions -> bool -> W -> Result unit (TxError X) * W)
  (of_tx_error : TxError X -> Er) (should_rollback : Er -> bool).

End Effects.


(** * A concrete run *)

Module ExternalizeDemo.
(** A world of notes; the broker appends what is published, and refuses a topic
    called [down]. *)
Definition notes : Type := list str.
Definition recorder : Port json nat notes :=
  transport_port (fun ev w => if str_eqb (topic ev) (lit "down") then Some (Err Closed, w)
                              else Some (Ok tt, w ++ [lit "sent " ++ event_type ev]))
    (fun _ _ w => Some (Ok tt, w)) (fun w => Some (Ok tt, w)).
Definition vec (n : nat) : Result bytes str := if (n =? 7)%nat then Err (lit "no") else Ok [].
Definition fresh (t ty src : str) (p : option bytes) (w : notes) : Eda.Event * notes :=
  (event_new (lit "e") 0 None t ty src p, w).
(** A manager that notes what it does; its commit can fail. *)
Definition begin_note (_ : TxOptions) (w : notes) : Result unit (TxError unit) * notes := (Ok tt, w ++ [lit "begin"]).
Definition settle_note (fails : bool) (_ : TxOptions) (rb : bool) (w : notes) : Result unit (TxError unit) * notes :=
  if fails && negb rb then (Err (Application tt), w ++ [lit "lost"]) else (Ok tt, w ++ [if rb then lit "rollback" else lit "commit"]).

(** A nested call fails and is forgiven; one event cannot be serialized. *)
Definition a_body : Body notes nat unit unit :=
  Publish 1%nat (Call required (Publish 2%nat (Publish 7%nat (Done (Err tt))))
    (fun _ => Work (fun w => (tt, w ++ [lit "work"])) (fun _ => Done (Ok tt)))).

(** A listener of the same events, registered before. *)
Definition audit (_ : nat) : list (Listener notes nat) :=
  [mkListener (Some AfterRollback) (fun _ t => Some (tt, mkTask (buffer t) (world t ++ [lit "undone"])))].


Definition audited (e : nat) : list (Listener notes nat) :=
  audit e ++ externalize_after_commit vec fresh (fun _ => Some recorder) (lit "orders") (lit "Placed") :: [].
Definition a_run (fails : bool) : option (Result unit unit * Task notes nat) :=
  transactional_with_on audited (fun _ : TxError unit => tt) (bracketing begin_note (settle_note fails)) required (fun _ => true)
    (run_body begin_note (settle_note fails) (fun _ => tt) (fun _ => true) audited a_body) (mkTask None []).


Example failed_commit_sends_nothing :
  a_run true = Some (Err tt, mkTask None (map lit ["begin"; "begin"; "rollback"; "work"; "lost"; "undone"; "undone"; "undone"]%string)).
Proof. vm_compute. reflexivity. Qed.
End ExternalizeDemo.
