(* ===== verification/Scheduling.v ===== *)
(** Scheduled tasks: [crates/scheduling/src/scheduler.rs], the locks of
    [lock.rs] and the executor of [executor.rs].

    The scheduler's loops, one per task, are a machine whose actions are the
    steps between two awaits of one of them, the passing of time, and the stop
    signal; so the theorems hold for every interleaving. [mono] is the monotonic
    clock of the locks and sleeps, [wall] the local time the triggers read, which
    may be set back. [chrono]'s range of instants and durations is a
    parameter, and so is the reading of an instant in a time zone. *)
From Stdlib Require Import Ascii String.
From Stdlib Require Import ZArith NArith List Lia.
From stdpp Require Import base decidable list gmap.
From S2P Require Import Prelude Str Cron.

(** * Triggers *)

Inductive TriggerDescriptor : Type :=
| DescribeCron (expression : str) (zone : option str)
| DescribeFixedRate (interval : Z) (initial_delay : option Z)
| DescribeFixedDelay (interval : Z) (initial_delay : option Z)
| DescribeCustom.

Record TaskDescriptor : Type := mkDescriptor {
  described_name : str;
  described_trigger : TriggerDescriptor;
  lock_name : option str;
  lock_ttl : option Z
}.

Record TaskLock : Type := mkTaskLock { lock_key : str; ttl : Z }.
Definition DEFAULT_TTL : Z := from_secs 60.
Definition task_lock_new (name : str) : TaskLock := mkTaskLock name DEFAULT_TTL.
Definition task_lock_with_ttl (name : str) (t : Z) : TaskLock := mkTaskLock name t.

(** [chrono]: the instants it can represent, [Duration::from_std]'s bound, a
    zone's name and its reading of an instant. *)
Class LocalTime : Type := {
  Zone : Type;
  Civil : Type;
  civil_chrono :: Chrono Civil;
  local : Zone;
  utc : Zone;
  read_zone : str -> option Zone;
  zone_name : Zone -> str;
  in_zone : Zone -> Z -> Civil;
  representable : Z -> bool;
  longest : Z
}.

Section Triggers.
Context `{LocalTime}.

Inductive Trigger : Type :=
| CronTrigger (expr : CronExpr)
| ZonedCronTrigger (expr : CronExpr) (zone : Zone)
| FixedRateTrigger (start period : Z)
| FixedDelayTrigger (delay : Z) (last_run : option Z) (initial_delay : option Z).

Definition checked_add (t d : Z) : option Z := if representable (t + d) then Some (t + d) else None.
Definition from_std (d : Z) : option Z := if d <=? longest then Some d else None.
Definition fits_i64 (z : Z) : option Z := if in_i64 z then Some z else None.

Definition fixed_rate_next (start period now : Z) : option Z :=
  if period =? 0 then checked_add now (from_secs 1)
  else if now <? start then Some start
  else
    elapsed ← fits_i64 (now - start);
    period ← fits_i64 period;
    let steps := i64 (elapsed / period + 1) in
    ahead ← fits_i64 (steps * period);
    checked_add start ahead.

Definition trigger_next (t : Trigger) (now : Z) : option Z :=
  match t with
  | CronTrigger expr => instant <$> Cron.next expr (in_zone local now)
  | ZonedCronTrigger expr zone => instant <$> Cron.next expr (in_zone zone now)
  | FixedRateTrigger start period => fixed_rate_next start period now
  | FixedDelayTrigger delay last_run initial_delay =>
      match last_run, initial_delay with
      | None, None => Some now
      | None, Some d => d ← from_std d; checked_add now d
      | Some last, _ => d ← from_std delay; checked_add last d
      end
  end.

Definition trigger_finished (t : Trigger) (now : Z) : Trigger :=
  match t with FixedDelayTrigger delay _ initial => FixedDelayTrigger delay (Some now) initial | _ => t end.

Definition trigger_descriptor (t : Trigger) : TriggerDescriptor :=
  match t with
  | CronTrigger expr => DescribeCron (cron_to_string expr) None
  | ZonedCronTrigger expr zone => DescribeCron (cron_to_string expr) (Some (zone_name zone))
  | FixedRateTrigger _ period => DescribeFixedRate period None
  | FixedDelayTrigger delay _ initial => DescribeFixedDelay delay initial
  end.

Definition zoned (expr : CronExpr) (zone : Zone) : Trigger := ZonedCronTrigger expr zone.
Definition zoned_utc (expr : CronExpr) : Trigger := ZonedCronTrigger expr utc.

Inductive ScheduleError : Type := BadCron (e : CronError) | UnknownZone (name : str).
Definition cron_in_named_zone (expr : CronExpr) (zone : str) : Result Trigger ScheduleError :=
  match read_zone zone with Some z => Ok (ZonedCronTrigger expr z) | None => Err (UnknownZone zone) end.
Definition fixed_delay_new (delay : Z) : Trigger := FixedDelayTrigger delay None None.
Definition fixed_delay_after (delay initial : Z) : Trigger := FixedDelayTrigger delay None (Some initial).

Record Task : Type := mkTask { task_name : str; trigger : Trigger; task_lock : option TaskLock }.
Definition task_with_lock (name : str) (t : Z) (task : Task) : Task :=
  mkTask (task_name task) (trigger task) (Some (task_lock_with_ttl name t)).
Definition set_trigger (t : Trigger) (task : Task) : Task := mkTask (task_name task) t (task_lock task).

Definition describe (task : Task) : TaskDescriptor :=
  mkDescriptor (task_name task) (trigger_descriptor (trigger task)) (lock_key <$> task_lock task) (ttl <$> task_lock task).

(** * Registering

    The bodies of the tasks are outside; what the scheduler keeps of a task is
    the rest. *)
Record Scheduler : Type := mkScheduler { tasks : list Task; descriptors : list TaskDescriptor; stop_flag : bool }.
Definition scheduler_new : Scheduler := mkScheduler [] [] false.
Definition register_described (task : Task) (d : TaskDescriptor) (s : Scheduler) : Scheduler :=
  mkScheduler (tasks s ++ [task]) (descriptors s ++ [d]) (stop_flag s).
Definition register (task : Task) (s : Scheduler) : Scheduler := register_described task (describe task) s.
Definition cron (name expr : str) (s : Scheduler) : Result unit CronError * Scheduler :=
  match parse_cron expr with
  | Ok e => (Ok tt, register (mkTask name (CronTrigger e) None) s)
  | Err e => (Err e, s)
  end.
Definition cron_in_zone (name expr zone : str) (s : Scheduler) : Result unit ScheduleError * Scheduler :=
  match parse_cron expr with
  | Err e => (Err (BadCron e), s)
  | Ok e => match cron_in_named_zone e zone with
            | Ok t => (Ok tt, register (mkTask name t None) s)
            | Err e => (Err e, s)
            end
  end.
Definition fixed_rate (name : str) (period now : Z) : Scheduler -> Scheduler :=
  register (mkTask name (FixedRateTrigger now period) None).
Definition fixed_delay (name : str) (delay : Z) : Scheduler -> Scheduler :=
  register (mkTask name (fixed_delay_new delay) None).
(** The fallback of the offset is [chrono::Duration::days(365_000)]. *)
Definition fixed_rate_with_initial_delay (name : str) (period initial now : Z) : Scheduler -> Scheduler :=
  let offset := default (from_secs (365000 * 86400)) (from_std initial) in
  let task := mkTask name (FixedRateTrigger (default now (checked_add now offset)) period) None in
  register_described task
    (mkDescriptor name (DescribeFixedRate period (Some initial)) (lock_name (describe task)) (lock_ttl (describe task))).
Definition fixed_delay_with_initial_delay (name : str) (delay initial : Z) : Scheduler -> Scheduler :=
  register (mkTask name (fixed_delay_after delay initial) None).
Definition snapshot (s : Scheduler) : list TaskDescriptor := descriptors s.
(** [start] takes the tasks out; [stop] only sets the flag. *)
Definition take_tasks (s : Scheduler) : list Task * Scheduler := (tasks s, mkScheduler [] (descriptors s) (stop_flag s)).
Definition stop (s : Scheduler) : Scheduler := mkScheduler (tasks s) (descriptors s) true.
End Triggers.

(** * Locks *)

(** A provider over its own state, at an instant of the monotonic clock; a call
    may panic. *)
Record DistributedLock (L : Type) : Type := mkLock {
  try_acquire : str -> Z -> Z -> L -> option (Result bool str) * L;
  release : str -> L -> option (Result unit str) * L
}.
Arguments mkLock {L}. Arguments try_acquire {L}. Arguments release {L}.

Definition LocalLock : DistributedLock unit :=
  mkLock (fun _ _ _ l => (Some (Ok true), l)) (fun _ l => (Some (Ok tt), l)).

(** The table by name, with the instant each entry expires at; a panic while
    it is locked poisons it for good. *)
Record Table : Type := mkTable { held : gmap str Z; poisoned : bool }.
Definition table_new : Table := mkTable ∅ false.

Definition table_try_acquire (name : str) (t now : Z) (l : Table) : option (Result bool str) * Table :=
  if poisoned l then (None, l)
  else
    let free := match held l !! name with Some expiry => negb (now <? expiry) | None => true end in
    if negb free then (Some (Ok false), l)
    else if now + t <=? INSTANT_MAX then (Some (Ok true), mkTable (<[name := now + t]> (held l)) false)
    else (None, mkTable (held l) true).
Definition table_release (name : str) (l : Table) : option (Result unit str) * Table :=
  if poisoned l then (None, l) else (Some (Ok tt), mkTable (delete name (held l)) false).
Definition InProcessLock : DistributedLock Table := mkLock table_try_acquire table_release.

(** * The loops *)

Section Loops.
Context `{LocalTime} {L : Type} (provider : DistributedLock L).

(** Where a loop stands. A run remembers when its lock was taken; a body ends
    well, with an error, or by a panic, which alone matters here. *)
Inductive Phase : Type :=
| Idle
| Sleeping (until : Z)
| Waking
| Running (since : Z)
| Releasing (since : Z) (panicked : bool)
| Ended.

Record Loop : Type := mkLoop { task : Task; phase : Phase }.
Record Machine : Type := mkMachine { loops : list Loop; locks : L; stopping : bool; mono : Z; wall : Z }.

Inductive Action : Type :=
| Pass (elapsed : Z) (new_wall : Z)
| StopAll
| Arm (i : nat)
| Halt (i : nat)
| Wake (i : nat)
| Try (i : nat)
| Body (i : nat) (panics : bool)
| Release (i : nat).

Definition set_loop (i : nat) (l : Loop) (locks : L) (m : Machine) : Machine :=
  mkMachine (<[i := l]> (loops m)) locks (stopping m) (mono m) (wall m).
Definition at_phase (p : Phase) (l : Loop) : Loop := mkLoop (task l) p.
Definition finished (m : Machine) (p : Phase) (l : Loop) : Loop :=
  mkLoop (set_trigger (trigger_finished (trigger (task l)) (wall m)) (task l)) p.

(** The trigger is asked; the loop sleeps until then, or ends without one. *)
Definition arm (m : Machine) (l : Loop) : Loop :=
  match trigger_next (trigger (task l)) (wall m) with
  | None => at_phase Ended l
  | Some next => at_phase (Sleeping (mono m + Z.max 0 (next - wall m))) l
  end.

(** The start of [invoke]: no lock is asked for, or it is granted, refused or
    failing; a panic of the provider ends the loop. *)
Definition invoke (m : Machine) (l : Loop) : Loop * L :=
  match task_lock (task l) with
  | None => (at_phase (Running (mono m)) l, locks m)
  | Some spec =>
      match try_acquire provider (lock_key spec) (ttl spec) (mono m) (locks m) with
      | (Some (Ok true), locks) => (at_phase (Running (mono m)) l, locks)
      | (Some _, locks) => (finished m Idle l, locks)
      | (None, locks) => (at_phase Ended l, locks)
      end
  end.

(** Its end: the lock goes back before the trigger hears of the run, and not at
    all of one that panicked. *)
Definition settle (m : Machine) (panicked : bool) (l : Loop) : Loop * L :=
  let after := if panicked then at_phase Idle l else finished m Idle l in
  match task_lock (task l) with
  | None => (after, locks m)
  | Some spec =>
      match release provider (lock_key spec) (locks m) with
      | (Some _, locks) => (after, locks)
      | (None, locks) => (at_phase Ended l, locks)
      end
  end.

Definition act (a : Action) (m : Machine) : option Machine :=
  match a with
  | Pass elapsed new_wall =>
      if elapsed <? 0 then None else Some (mkMachine (loops m) (locks m) (stopping m) (mono m + elapsed) new_wall)
  | StopAll => Some (mkMachine (loops m) (locks m) true (mono m) (wall m))
  | Arm i =>
      l ← loops m !! i;
      match phase l with Idle => Some (set_loop i (arm m l) (locks m) m) | _ => None end
  | Halt i =>
      l ← loops m !! i;
      match phase l with
      | Sleeping _ => if stopping m then Some (set_loop i (at_phase Ended l) (locks m) m) else None
      | _ => None
      end
  | Wake i =>
      l ← loops m !! i;
      match phase l with
      | Sleeping until => if until <=? mono m then Some (set_loop i (at_phase Waking l) (locks m) m) else None
      | _ => None
      end
  | Try i =>
      l ← loops m !! i;
      match phase l with
      | Waking => let '(l, locks) := invoke m l in Some (set_loop i l locks m)
      | _ => None
      end
  | Body i panics =>
      l ← loops m !! i;
      match phase l with
      | Running since => Some (set_loop i (at_phase (Releasing since panics) l) (locks m) m)
      | _ => None
      end
  | Release i =>
      l ← loops m !! i;
      match phase l with
      | Releasing _ panicked => let '(l, locks) := settle m panicked l in Some (set_loop i l locks m)
      | _ => None
      end
  end.

Fixpoint acts (l : list Action) (m : Machine) : option Machine :=
  match l with [] => Some m | a :: l => m ← act a m; acts l m end.

(** [start]: a loop per task, idle. *)
Definition start (l : L) (s : Scheduler) (mono wall : Z) : Machine * Scheduler :=
  let '(taken, s) := take_tasks s in
  (mkMachine (map (fun t => mkLoop t Idle) taken) l (stop_flag s) mono wall, s).

(** It returns when the stop is signalled and every loop has ended. *)
Definition resolved (m : Machine) : bool :=
  stopping m && forallb (fun l => match phase l with Ended => true | _ => false end) (loops m).
End Loops.
Arguments Machine {_} L.

(** * The executor

    Spawned tasks wait for a permit, run and give it back; a semaphore of tokio
    admits at most as many as it has. *)
Record TaskExecutor : Type := mkExecutor { permits : option nat; queued : nat; running : nat }.
Definition executor_new (max_concurrency : nat) : TaskExecutor :=
  mkExecutor (match max_concurrency with O => None | n => Some n end) 0 0.
Definition executor_unbounded : TaskExecutor := executor_new 0.
Definition is_unbounded (e : TaskExecutor) : bool := match permits e with None => true | Some _ => false end.
Definition max_concurrency (e : TaskExecutor) : option nat := permits e.
(** A task that still waits may be aborted too; one that runs leaves then. *)
Inductive ExecutorAction : Type := Spawn | Admit | Leave | AbortQueued.
Definition executor_act (a : ExecutorAction) (e : TaskExecutor) : option TaskExecutor :=
  match a with
  | Spawn => Some (mkExecutor (permits e) (S (queued e)) (running e))
  | Admit =>
      match queued e, permits e with
      | S q, None => Some (mkExecutor None q (S (running e)))
      | S q, Some (S p) => Some (mkExecutor (Some p) q (S (running e)))
      | _, _ => None
      end
  | Leave =>
      match running e with
      | S r => Some (mkExecutor (S <$> permits e) (queued e) r)
      | O => None
      end
  | AbortQueued =>
      match queued e with
      | S q => Some (mkExecutor (permits e) q (running e))
      | O => None
      end
  end.
Fixpoint executor_acts (l : list ExecutorAction) (e : TaskExecutor) : option TaskExecutor :=
  match l with [] => Some e | a :: l => e ← executor_act a e; executor_acts l e end.

Inductive TaskJoinError : Type := Panicked (message : str) | Cancelled.
(** A join error is a cancellation, or a panic whose payload is text or not. *)
Definition join_error (cancelled : bool) (payload : option str) : TaskJoinError :=
  if cancelled then Cancelled else Panicked (default (lit "unknown") payload).
Definition register_task_executor {A} (executor : A) (cell : option A) : bool * option A :=
  match cell with None => (true, Some executor) | Some _ => (false, cell) end.
Definition task_executor (cell : option TaskExecutor) : TaskExecutor := default executor_unbounded cell.

(** * The grid of a fixed rate *)

Section Fixed_rate.
Context `{LocalTime}.

Lemma fits_i64_spec z : fits_i64 z = if decide (I64_MIN <= z <= I64_MAX) then Some z else None.
Proof. unfold fits_i64, in_i64. destruct (decide _); cases_lia. Qed.
End Fixed_rate.

(** A fixed rate fires on the grid of its period from its start, at the first
    point of the grid after now, however late it is asked; without a point it
    has none to give: the next one is out of the range of instants or more
    than 2^63 nanoseconds from the start. *)
Theorem fixed_rate_keeps_grid `{LocalTime} (start period now : Z)
    (Positive : 0 < period <= I64_MAX) (Recent : now - start < I64_MAX) :
  match fixed_rate_next start period now with
  | Some r => (exists k, 0 <= k /\ r = start + k * period) /\ now < r /\
              forall k, 0 <= k -> now < start + k * period -> r <= start + k * period
  | None => let r := start + ((now - start) / period + 1) * period in
            start <= now /\ (representable r = false \/ I64_MAX < r - start)
  end.
Proof.
  unfold fixed_rate_next, checked_add. destruct (Z.eqb_spec period 0); [lia|].
  destruct (Z.ltb_spec now start) as [L|L].
  { split; [exists 0; lia|]. split; [lia|]. intros k K _. nia. }
  pose proof (Z.div_mod (now - start) period ltac:(lia)) as Dm.
  pose proof (Z.mod_pos_bound (now - start) period ltac:(lia)) as Mb.
  assert (0 <= (now - start) / period <= now - start) as Q.
  { split; [apply Z.div_pos; lia|]. apply Z.div_le_upper_bound; nia. }
  unfold I64_MAX in *. rewrite fits_i64_spec, decide_True by (unfold I64_MIN, I64_MAX; lia). cbn [mbind option_bind].
  rewrite fits_i64_spec, decide_True by (unfold I64_MIN, I64_MAX; lia). cbn [mbind option_bind]. rewrite i64_id by lia.
  set (q := (now - start) / period) in *.
  rewrite fits_i64_spec. case_decide as F; cbn [mbind option_bind].
  - destruct (representable (start + (q + 1) * period)) eqn:R; [|cbn zeta; auto].
    split; [exists (q + 1); lia|]. split; [nia|]. intros k K After.
    assert (q + 1 <= k) by (apply Z.lt_succ_r; apply (Z.mul_lt_mono_pos_r period); nia). nia.
  - cbn zeta. split; [done|]. right. unfold I64_MIN, I64_MAX in *. nia.
Qed.

(** * One run at a time under a lock *)

Section Exclusion.
Context `{LocalTime}.
Implicit Types (m : Machine Table) (l : Loop).

(** The lock a loop took for the run it is in, with the instant it expires. *)
Definition guarded l : option (str * Z) :=
  match phase l, task_lock (task l) with
  | (Running since | Releasing since _), Some spec => Some (lock_key spec, since + ttl spec)
  | _, _ => None
  end.
Definition guard_at (i : nat) m : option (str * Z) := l ← loops m !! i; guarded l.

(** Every lock was given back before it expired. *)
Definition in_time (a : Action) m : Prop :=
  match a with
  | Release i => match guard_at i m with Some (_, expiry) => mono m < expiry | None => True end
  | _ => True
  end.
Fixpoint punctual (l : list Action) m : Prop :=
  match l with
  | [] => True
  | a :: l => in_time a m /\ match act InProcessLock a m with Some m' => punctual l m' | None => True end
  end.

(** A lock that has not expired is in the table and has one holder. *)
Definition exclusive m : Prop :=
  forall i n e, guard_at i m = Some (n, e) -> mono m < e ->
    (poisoned (locks m) = false -> held (locks m) !! n = Some e) /\
    forall j e', j <> i -> guard_at j m = Some (n, e') -> e' <= mono m.

Lemma guard_set_loop i j l locks' m : guard_at j (set_loop i l locks' m) =
  if decide (i = j) then match loops m !! i with Some _ => guarded l | None => None end else guard_at j m.
Proof.
  unfold guard_at, set_loop. cbn [loops]. rewrite list_lookup_insert. destruct (decide (i = j)) as [->|N].
  - destruct (loops m !! j) as [l'|] eqn:E.
    + apply lookup_lt_Some in E. by rewrite decide_True.
    + apply lookup_ge_None in E. by rewrite decide_False by lia.
  - rewrite decide_False by tauto. done.
Qed.

(** A step that neither takes nor gives a lock. *)
Lemma exclusive_same i l l' m : loops m !! i = Some l -> guarded l' = guarded l \/ guarded l' = None ->
  exclusive m -> exclusive (set_loop i l' (locks m) m).
Proof.
  intros Li G X. assert (forall j p, guard_at j (set_loop i l' (locks m) m) = Some p -> guard_at j m = Some p) as Sub.
  { intros j p. rewrite guard_set_loop, Li. destruct (decide (i = j)) as [->|]; [|done].
    unfold guard_at. rewrite Li. cbn. by destruct G as [->| ->]. }
  intros j n e Gj E. apply Sub in Gj. destruct (X j n e Gj E) as [In Alone]. split; [done|].
  intros k e' N Gk. by apply (Alone k e' N), Sub.
Qed.

Lemma exclusive_poisoned i l' locks' m : guarded l' = None -> poisoned locks' = true ->
  exclusive m -> exclusive (set_loop i l' locks' m).
Proof.
  intros G P X. assert (forall j p, guard_at j (set_loop i l' locks' m) = Some p -> guard_at j m = Some p) as Sub.
  { intros j p. rewrite guard_set_loop. destruct (decide (i = j)) as [->|]; [|done]. destruct (loops m !! j); congruence. }
  intros j n e Gj E. apply Sub in Gj. destruct (X j n e Gj E) as [_ Alone]. split; [cbn; congruence|].
  intros k e' N Gk. by apply (Alone k e' N), Sub.
Qed.

(** Taking a lock: whoever held it has let it expire. *)
Lemma exclusive_acquire i l spec m : loops m !! i = Some l -> guarded l = None -> task_lock (task l) = Some spec ->
  poisoned (locks m) = false ->
  (forall e, held (locks m) !! lock_key spec = Some e -> e <= mono m) ->
  exclusive m ->
  exclusive (set_loop i (at_phase (Running (mono m)) l)
    (mkTable (<[lock_key spec := mono m + ttl spec]> (held (locks m))) false) m).
Proof.
  intros Li _ S P Free X j n e Gj E. rewrite guard_set_loop, Li in Gj. cbn [mono set_loop] in E |- *.
  assert (guarded (at_phase (Running (mono m)) l) = Some (lock_key spec, mono m + ttl spec)) as Gi.
  { unfold guarded. cbn. by rewrite S. }
  assert (forall k e', guard_at k m = Some (lock_key spec, e') -> e' <= mono m) as Gone.
  { intros k e' Gk. destruct (Z.lt_ge_cases (mono m) e') as [L|L]; [|done].
    destruct (X k _ _ Gk L) as [In _]. by apply Free, In. }
  destruct (decide (i = j)) as [<-|N].
  - rewrite Gi in Gj. injection Gj as <- <-. cbn [locks set_loop held]. rewrite lookup_insert_eq. split; [done|].
    intros k e' N Gk. rewrite guard_set_loop, decide_False in Gk by congruence. by apply Gone in Gk.
  - destruct (decide (n = lock_key spec)) as [->|D]; [apply Gone in Gj; lia|].
    destruct (X j n e Gj E) as [In Alone]. cbn [locks set_loop held]. rewrite lookup_insert_ne by congruence.
    split; [intros _; by apply In|]. intros k e' Nk Gk. rewrite guard_set_loop, Li in Gk.
    destruct (decide (i = k)); [congruence|]. by apply (Alone k).
Qed.

(** Giving it back in time: nobody else had it. *)
Lemma exclusive_release i l l' n e m : loops m !! i = Some l -> guarded l = Some (n, e) -> mono m < e ->
  guarded l' = None -> exclusive m -> exclusive (set_loop i l' (mkTable (delete n (held (locks m))) (poisoned (locks m))) m).
Proof.
  intros Li G E G' X j n2 e2 Gj E2. cbn [mono set_loop] in E2 |- *. rewrite guard_set_loop, Li in Gj.
  destruct (decide (i = j)) as [<-|N]; [congruence|].
  assert (guard_at i m = Some (n, e)) as Gi by (unfold guard_at; by rewrite Li).
  assert (n2 <> n) as D.
  { intros ->. destruct (X i n e Gi E) as [_ Alone]. pose proof (Alone j e2 ltac:(congruence) Gj). lia. }
  destruct (X j n2 e2 Gj E2) as [In Alone]. cbn [locks set_loop held poisoned]. rewrite lookup_delete_ne by congruence.
  split; [done|]. intros k e' Nk Gk. rewrite guard_set_loop, Li in Gk. destruct (decide (i = k)); [congruence|].
  by apply (Alone k).
Qed.

Lemma guarded_arm m l : guarded (arm m l) = None.
Proof. unfold arm, guarded. by destruct (trigger_next _ _). Qed.
Lemma guarded_finished m p l : (forall s, p <> Running s) -> (forall s b, p <> Releasing s b) -> guarded (finished m p l) = None.
Proof. intros R1 R2. unfold guarded, finished. cbn. destruct p; try done; [by destruct (R1 since)|by destruct (R2 since panicked)]. Qed.

Lemma exclusive_try i l m : loops m !! i = Some l -> phase l = Waking -> exclusive m ->
  exclusive (set_loop i (fst (invoke InProcessLock m l)) (snd (invoke InProcessLock m l)) m).
Proof.
  intros Li Ph X. assert (guarded l = None) as G by (unfold guarded; by rewrite Ph). unfold invoke.
  destruct (task_lock (task l)) as [spec|] eqn:S; cbn [fst snd].
  2:{ apply (exclusive_same i l); [done| |done]. right. unfold guarded. cbn. by rewrite S. }
  cbn [try_acquire InProcessLock]. unfold table_try_acquire.
  destruct (poisoned (locks m)) eqn:P; cbn [fst snd].
  { by apply (exclusive_same i l); [|right|]. }
  assert (forall e, held (locks m) !! lock_key spec = Some e -> negb (mono m <? e) = true -> e <= mono m) as Free.
  { intros e _ F. apply negb_true_iff, Z.ltb_ge in F. done. }
  destruct (held (locks m) !! lock_key spec) as [e|] eqn:Hd.
  - destruct (negb (mono m <? e)) eqn:Exp; cbn [negb fst snd].
    + destruct (_ <=? INSTANT_MAX); cbn [fst snd]; [|by apply exclusive_poisoned].
      apply exclusive_acquire; try done. intros e2 E2. rewrite Hd in E2. injection E2 as <-. by apply Free.
    + apply (exclusive_same i l); [done|right; by apply guarded_finished|done].
  - cbn [negb]. destruct (_ <=? INSTANT_MAX); cbn [fst snd]; [|by apply exclusive_poisoned].
    apply exclusive_acquire; try done. intros e2 E2. by rewrite Hd in E2.
Qed.

Lemma exclusive_settle i l since b m : loops m !! i = Some l -> phase l = Releasing since b ->
  in_time (Release i) m -> exclusive m ->
  exclusive (set_loop i (fst (settle InProcessLock m b l)) (snd (settle InProcessLock m b l)) m).
Proof.
  intros Li Ph T X. unfold settle. set (after := if b then at_phase Idle l else finished m Idle l).
  assert (guarded after = None) as G by (unfold after; destruct b; [done|by apply guarded_finished]).
  destruct (task_lock (task l)) as [spec|] eqn:S; cbn [fst snd]; [|by apply (exclusive_same i l); [|right|]].
  assert (guarded l = Some (lock_key spec, since + ttl spec)) as Gl by (unfold guarded; by rewrite Ph, S).
  cbn [release InProcessLock]. unfold table_release. destruct (poisoned (locks m)) eqn:P; cbn [fst snd].
  { by apply (exclusive_same i l); [|right|]. }
  rewrite <- P. apply (exclusive_release i l after (lock_key spec) (since + ttl spec)); try done.
  cbn in T. unfold guard_at in T. by rewrite Li in T; cbn in T; rewrite Gl in T.
Qed.

Lemma exclusive_act a m m' : in_time a m -> act InProcessLock a m = Some m' -> exclusive m -> exclusive m'.
Proof.
  intros T A X. destruct a as [d w| |i|i|i|i|i b|i]; cbn in A;
    [|..|]; try (destruct (loops m !! i) as [l|] eqn:Li; cbn in A; [|done]; destruct (phase l) eqn:Ph; try done).
  - destruct (Z.ltb_spec d 0); [done|]. injection A as <-. intros i n e G E. cbn in *.
    destruct (X i n e G ltac:(lia)) as [In Alone]. split; [done|]. intros j e' N Gj. pose proof (Alone j e' N Gj). lia.
  - injection A as <-. exact X.
  - injection A as <-. apply (exclusive_same i l); [done|right; apply guarded_arm|done].
  - destruct (stopping m); [|done]. injection A as <-. by apply (exclusive_same i l); [|right|].
  - destruct (until <=? mono m); [|done]. injection A as <-. by apply (exclusive_same i l); [|right|].
  - pose proof (exclusive_try i l m Li Ph X) as E. destruct (invoke InProcessLock m l). by injection A as <-.
  - injection A as <-. apply (exclusive_same i l); [done| |done]. left. unfold guarded. by rewrite Ph.
  - pose proof (exclusive_settle i l since panicked m Li Ph T X) as E. destruct (settle InProcessLock m panicked l).
    by injection A as <-.
Qed.

Lemma exclusive_acts (run : list Action) : forall m m',
  punctual run m -> acts InProcessLock run m = Some m' -> exclusive m -> exclusive m'.
Proof.
  induction run as [|a run IH]; intros m m' P A X; cbn in *; [by injection A as <-|]. destruct P as [T P].
  destruct (act InProcessLock a m) as [m1|] eqn:E; cbn in A; [|done]. apply (IH m1); try done. by apply (exclusive_act a m).
Qed.

Lemma exclusive_start s mono wall : exclusive (fst (start table_new s mono wall)).
Proof.
  intros i n e G. unfold guard_at, start in G. cbn in G. rewrite list_lookup_fmap in G. by destruct (tasks s !! i).
Qed.
End Exclusion.

(** C19 While no run gives its lock back later than its time to live, at most one
    task runs under a lock that has not expired, however the loops, the clocks,
    panicking bodies and the stop signal interleave. *)
Theorem one_run_under_a_lock `{LocalTime} (s : Scheduler) (mono0 wall0 : Z) (l : list Action) (m : Machine Table)
    (Run : acts InProcessLock l (fst (start table_new s mono0 wall0)) = Some m)
    (Punctual : punctual l (fst (start table_new s mono0 wall0)))
    (i j : nat) (n : str) (e e' : Z)
    (Holds : guard_at i m = Some (n, e)) (Other : guard_at j m = Some (n, e')) (Apart : i <> j) :
  e <= mono m \/ e' <= mono m.
Proof.
  pose proof (exclusive_acts l _ _ Punctual Run (exclusive_start s mono0 wall0)) as X.
  destruct (Z.lt_ge_cases (mono m) e) as [L|L]; [|by left]. right.
  destruct (X i n e Holds L) as [_ Alone]. by apply (Alone j).
Qed.

(** * Stopping *)

Section Stopping.
Context `{LocalTime} {L : Type} (provider : DistributedLock L).
Implicit Types (m : Machine L) (l : Loop).

Definition starts_anew (a : Action) : bool := match a with Wake _ => true | _ => false end.

(** A run that ends one loop and leaves the others as they are. *)
Definition ends_loop (i : nat) m : Prop :=
  exists run m', acts provider run m = Some m' /\ stopping m' = true /\ forallb (fun a => negb (starts_anew a)) run = true /\
    phase <$> loops m' !! i = Some Ended /\ List.length (loops m') = List.length (loops m) /\
    forall j, j <> i -> loops m' !! j = loops m !! j.

Lemma ends_after a i m m1 : act provider a m = Some m1 -> starts_anew a = false ->
  List.length (loops m1) = List.length (loops m) -> (forall j, j <> i -> loops m1 !! j = loops m !! j) ->
  ends_loop i m1 -> ends_loop i m.
Proof.
  intros A N Ln Same (run & m' & R & S & F & E & Ln' & Same'). exists (a :: run), m'. cbn. rewrite A. cbn.
  rewrite N. split; [done|]. split; [done|]. split; [done|]. split; [done|]. split; [congruence|].
  intros j D. by rewrite Same', Same.
Qed.

Lemma ends_at_once i m l : loops m !! i = Some l -> phase l = Ended -> stopping m = true -> ends_loop i m.
Proof. intros Li Ph S. exists [], m. repeat split; try done. rewrite Li. cbn. by rewrite Ph. Qed.

Lemma set_loop_length i l locks' m : List.length (loops (set_loop i l locks' m)) = List.length (loops m).
Proof. apply length_insert. Qed.
Lemma set_loop_other i l locks' m j : j <> i -> loops (set_loop i l locks' m) !! j = loops m !! j.
Proof. intros N. apply list_lookup_insert_ne. congruence. Qed.
Lemma set_loop_here i l l' locks' m : loops m !! i = Some l -> loops (set_loop i l' locks' m) !! i = Some l'.
Proof. intros Li. apply list_lookup_insert_eq. by apply lookup_lt_Some in Li. Qed.

Lemma ends_step a i l l' locks' m : loops m !! i = Some l -> act provider a m = Some (set_loop i l' locks' m) ->
  starts_anew a = false -> ends_loop i (set_loop i l' locks' m) -> ends_loop i m.
Proof.
  intros Li A N E. apply (ends_after a i m (set_loop i l' locks' m)); [done|done|apply set_loop_length| |done].
  intros j D. by apply set_loop_other.
Qed.

Lemma ends_sleeping i m l until : loops m !! i = Some l -> phase l = Sleeping until -> stopping m = true -> ends_loop i m.
Proof.
  intros Li Ph S. apply (ends_step (Halt i) i l (at_phase Ended l) (locks m)); [done| |done|].
  - cbn. rewrite Li. cbn. by rewrite Ph, S.
  - apply (ends_at_once i _ (at_phase Ended l)); [by apply set_loop_here with l|done|done].
Qed.

Lemma ends_idle i m l : loops m !! i = Some l -> phase l = Idle -> stopping m = true -> ends_loop i m.
Proof.
  intros Li Ph S. apply (ends_step (Arm i) i l (arm m l) (locks m)); [done| |done|].
  - cbn. rewrite Li. cbn. by rewrite Ph.
  - pose proof (set_loop_here i l (arm m l) (locks m) m Li) as Here. unfold arm in *.
    destruct (trigger_next _ _) as [next|]; [by eapply ends_sleeping|by eapply ends_at_once].
Qed.

Lemma ends_releasing i m l since b : loops m !! i = Some l -> phase l = Releasing since b -> stopping m = true -> ends_loop i m.
Proof.
  intros Li Ph S. destruct (settle provider m b l) as [l' locks'] eqn:E.
  apply (ends_step (Release i) i l l' locks'); [done| |done|].
  - cbn. rewrite Li. cbn. by rewrite Ph, E.
  - pose proof (set_loop_here i l l' locks' m Li) as Here.
    assert (phase l' = Idle \/ phase l' = Ended) as [P|P].
    { unfold settle in E. destruct (task_lock (task l)) as [spec|];
        [destruct (release provider _ _) as [[r|] locks2]|]; injection E as <- <-; destruct b; cbn; auto. }
    + by eapply ends_idle.
    + by eapply ends_at_once.
Qed.

Lemma ends_running i m l since : loops m !! i = Some l -> phase l = Running since -> stopping m = true -> ends_loop i m.
Proof.
  intros Li Ph S. apply (ends_step (Body i false) i l (at_phase (Releasing since false) l) (locks m)); [done| |done|].
  - cbn. rewrite Li. cbn. by rewrite Ph.
  - by eapply ends_releasing; [apply (set_loop_here i l), Li| |].
Qed.

Lemma ends_waking i m l : loops m !! i = Some l -> phase l = Waking -> stopping m = true -> ends_loop i m.
Proof.
  intros Li Ph S. destruct (invoke provider m l) as [l' locks'] eqn:E.
  apply (ends_step (Try i) i l l' locks'); [done| |done|].
  - cbn. rewrite Li. cbn. by rewrite Ph, E.
  - pose proof (set_loop_here i l l' locks' m Li) as Here.
    assert (phase l' = Idle \/ phase l' = Ended \/ exists since, phase l' = Running since) as [P|[P|[since P]]].
    { unfold invoke in E. destruct (task_lock (task l)) as [spec|];
        [destruct (try_acquire provider _ _ _ _) as [[[[]|e]|] locks2]|]; injection E as <- <-; cbn; eauto. }
    + by eapply ends_idle.
    + by eapply ends_at_once.
    + by eapply ends_running.
Qed.

Lemma every_loop_ends i m l : loops m !! i = Some l -> stopping m = true -> ends_loop i m.
Proof.
  intros Li S. destruct (phase l) eqn:P; [by eapply ends_idle|by eapply ends_sleeping|by eapply ends_waking|
    by eapply ends_running|by eapply ends_releasing|by eapply ends_at_once].
Qed.

Lemma acts_app run1 run2 m : acts provider (run1 ++ run2) m = (m' ← acts provider run1 m; acts provider run2 m').
Proof. revert m. induction run1 as [|a run1 IH]; intros m; [done|]. cbn. destruct (act provider a m); cbn; [apply IH|done]. Qed.

Lemma first_loops_end n m : stopping m = true -> (n <= List.length (loops m))%nat ->
  exists run m', acts provider run m = Some m' /\ stopping m' = true /\ forallb (fun a => negb (starts_anew a)) run = true /\
    List.length (loops m') = List.length (loops m) /\ forall j, (j < n)%nat -> phase <$> loops m' !! j = Some Ended.
Proof.
  intros S. induction n as [|n IH]; intros Ln; [exists [], m; repeat split; [done|lia]|].
  destruct IH as (run1 & m1 & R1 & S1 & F1 & L1 & E1); [lia|].
  destruct (lookup_lt_is_Some_2 (loops m1) n) as [l Hl]; [lia|].
  destruct (every_loop_ends n m1 l Hl S1) as (run2 & m2 & R2 & S2 & F2 & E2 & L2 & Same).
  exists (run1 ++ run2), m2. rewrite acts_app, R1. cbn. rewrite forallb_app, F1, F2.
  split; [done|]. split; [done|]. split; [done|]. split; [lia|]. intros j J.
  destruct (decide (j = n)) as [->|D]; [done|]. rewrite Same by done. apply E1. lia.
Qed.
End Stopping.

(** Once the stop is signalled, every state can be driven to the one in which
    [start] returns, letting runs that are under way end but waking no loop
    that sleeps. *)
Theorem stop_lets_start_return `{LocalTime} {L} (provider : DistributedLock L) (m : Machine L)
    (Signalled : stopping m = true) :
  exists run m', acts provider run m = Some m' /\ resolved m' = true /\
    forallb (fun a => negb (starts_anew a)) run = true.
Proof.
  destruct (first_loops_end provider (List.length (loops m)) m Signalled (Nat.le_refl _)) as (run & m' & R & S & F & Ln & E).
  exists run, m'. split; [done|]. split; [|done]. unfold resolved. rewrite S. cbn. apply forallb_forall. intros l I.
  apply list_elem_of_In, list_elem_of_lookup_1 in I as [j Hj]. specialize (E j).
  rewrite Hj in E. cbn in E. apply lookup_lt_Some in Hj. injection E as ->; [done|lia].
Qed.

(** * The executor's bound *)

Lemma executor_bound n run : forall e e', permits e = None \/ (exists p, permits e = Some p /\ (p + running e = n)%nat) ->
  executor_acts run e = Some e' -> permits e' = None \/ exists p, permits e' = Some p /\ (p + running e' = n)%nat.
Proof.
  induction run as [|a run IH]; intros e e' I R; cbn in R; [by injection R as <-|].
  destruct (executor_act a e) as [e1|] eqn:A; cbn in R; [|done]. apply (IH e1); [|done]. clear IH R.
  destruct I as [N|(p & P & B)], a; cbn in A.
  - injection A as <-. by left.
  - destruct (queued e); [done|]. rewrite N in A. injection A as <-. by left.
  - destruct (running e); [done|]. injection A as <-. left. cbn. by rewrite N.
  - destruct (queued e); [done|]. injection A as <-. by left.
  - injection A as <-. right. by exists p.
  - destruct (queued e); [done|]. rewrite P in A. destruct p as [|p]; [done|]. injection A as <-. right. exists p. cbn. split; [done|lia].
  - destruct (running e) as [|r] eqn:Rn; [done|]. injection A as <-. right. exists (S p). cbn. rewrite P. split; [done|]. lia.
  - destruct (queued e); [done|]. injection A as <-. right. by exists p.
Qed.

(** At most the configured number of tasks run at once. *)
Lemma executor_capped n run e : (0 < n)%nat -> executor_acts run (executor_new n) = Some e -> (running e <= n)%nat.
Proof.
  intros P R. destruct (executor_bound n run (executor_new n) e) as [N|(p & _ & B)]; [|done| |lia].
  - right. exists n. destruct n; [lia|]. split; [done|cbn; lia].
  - exfalso. assert (forall l e1 e2, permits e1 <> None -> executor_acts l e1 = Some e2 -> permits e2 <> None) as Keep.
    { induction l as [|a l IH]; intros e1 e2 S A; cbn in A; [by injection A as <-|].
      destruct (executor_act a e1) as [e3|] eqn:E; cbn in A; [|done]. apply (IH e3); [|done].
      destruct a; cbn in E; [by injection E as <-| | |].
      - destruct (queued e1), (permits e1) as [[|p]|]; try done; by injection E as <-.
      - destruct (running e1), (permits e1); try done; by injection E as <-.
      - destruct (queued e1); [done|]. by injection E as <-. }
    apply (Keep run (executor_new n) e); [by destruct n; [lia|]|done|done].
Qed.

(** The reported capacity shrinks as tasks run. *)
Example capacity_is_what_is_free :
  max_concurrency <$> executor_acts [Spawn; Spawn; Admit] (executor_new 2) = Some (Some 1%nat).
Proof. reflexivity. Qed.

(** * Concrete runs *)

Module SchedulingDemo.
#[local] Instance utc_time : LocalTime := {
  Zone := unit; Civil := Utc; local := tt; utc := tt; read_zone n := if str_eqb n (lit "UTC") then Some tt else None;
  zone_name _ := lit "UTC"; in_zone _ t := (t : Utc); representable z := Z.abs z <? 2 ^ 80; longest := 2 ^ 80
}.

Definition guarded_task (name : string) (trigger : Trigger) : Task :=
  task_with_lock (lit "job") 10 (mkTask (lit name) trigger None).
Definition three : Scheduler :=
  register (guarded_task "a" (FixedDelayTrigger 5 None None))
    (register (guarded_task "b" (FixedDelayTrigger 5 None None))
      (register (guarded_task "c" (FixedDelayTrigger 5 None None)) scheduler_new)).
Definition all_armed : list Action := [Arm 0; Arm 1; Arm 2; Wake 0; Wake 1; Wake 2].
Definition machine : Machine Table := fst (start table_new three 0 0).
Definition guards (m : Machine Table) : list (option Z) := map (fun l => snd <$> guarded l) (loops m).

(** The lock is taken, refused, given back and taken again. *)
Definition in_turn : list Action := all_armed ++ [Try 0; Try 1; Pass 4 4; Body 0 false; Release 0; Try 2].
Example taken_in_turn : guards <$> acts InProcessLock in_turn machine = Some [None; None; Some 14].
Proof. vm_compute. reflexivity. Qed.

Definition after_one : list Action := all_armed ++ [Try 0; Try 1; Pass 10 10; Arm 1; Pass 5 15; Wake 1; Try 1].
Lemma guard_at_map i (m : Machine Table) : guard_at i m = mjoin (map guarded (loops m) !! i).
Proof. unfold guard_at. rewrite list_lookup_fmap. by destruct (loops m !! i). Qed.

Definition after_one_guards : list (option (str * Z)) := [Some (lit "job", 10); Some (lit "job", 25); None].
Lemma one_run_under_a_lock_witness : exists m, acts InProcessLock after_one machine = Some m /\
  map guarded (loops m) = after_one_guards /\ (10 <= mono m \/ 25 <= mono m).
Proof.
  assert ((fun m => map guarded (loops m)) <$> acts InProcessLock after_one machine = Some after_one_guards) as G
    by (vm_compute; reflexivity).
  assert (punctual after_one machine) as P by (vm_compute; auto 20).
  destruct (acts InProcessLock after_one machine) as [m|] eqn:R; [|discriminate].
  assert (map guarded (loops m) = after_one_guards) as G' by (cbn in G; congruence).
  exists m. split; [reflexivity|]. split; [exact G'|].
  apply (one_run_under_a_lock three 0 0 after_one m R) with (i := 0%nat) (j := 1%nat) (n := lit "job");
    [exact P|rewrite guard_at_map, G'; reflexivity|rewrite guard_at_map, G'; reflexivity|discriminate].
Defined.

(** A run that outlives its lock gives back the lock of the next one: a third
    task then runs beside it, and neither of these two is late. *)
Definition late_release : list Action :=
  all_armed ++ [Try 0; Pass 12 12; Try 1; Pass 1 13; Body 0 false; Release 0; Try 2].
Example late_release_lets_two_in :
  (fun m => (guards m, mono m)) <$> acts InProcessLock late_release machine = Some ([None; Some 22; Some 23], 13).
Proof. vm_compute. reflexivity. Qed.

(** A fixed-delay task whose body panics is due again at once. *)
Example panics_without_pause :
  (fun m => (map phase (loops m), mono m)) <$>
    acts LocalLock [Arm 0; Wake 0; Try 0; Pass 3 3; Body 0 true; Release 0; Arm 0]
      (fst (start tt (fixed_delay (lit "t") 1000 scheduler_new) 0 0)) = Some ([Sleeping 3], 3).
Proof. vm_compute. reflexivity. Qed.
Example finishes_with_pause :
  (fun m => map phase (loops m)) <$>
    acts LocalLock [Arm 0; Wake 0; Try 0; Pass 3 3; Body 0 false; Release 0; Arm 0]
      (fst (start tt (fixed_delay (lit "t") 1000 scheduler_new) 0 0)) = Some [Sleeping 1003].
Proof. vm_compute. reflexivity. Qed.

Lemma stop_lets_start_return_witness : exists m, acts InProcessLock (after_one ++ [StopAll]) machine = Some m /\
  exists run m', acts InProcessLock run m = Some m' /\ resolved m' = true /\
    forallb (fun a => negb (starts_anew a)) run = true.
Proof.
  assert (stopping <$> acts InProcessLock (after_one ++ [StopAll]) machine = Some true) as S by (vm_compute; reflexivity).
  destruct (acts InProcessLock (after_one ++ [StopAll]) machine) as [m|] eqn:R; [|discriminate].
  exists m. split; [reflexivity|]. apply (stop_lets_start_return InProcessLock m). by injection S.
Defined.

Lemma fixed_rate_keeps_grid_witness : fixed_rate_next 100 30 205 = Some 220 /\
  match fixed_rate_next 100 30 205 with
  | Some r => (exists k, 0 <= k /\ r = 100 + k * 30) /\ 205 < r /\
              forall k, 0 <= k -> 205 < 100 + k * 30 -> r <= 100 + k * 30
  | None => let r := 100 + ((205 - 100) / 30 + 1) * 30 in
            100 <= 205 /\ (representable r = false \/ I64_MAX < r - 100)
  end.
Proof.
  split; [vm_compute; reflexivity|]. apply fixed_rate_keeps_grid; unfold I64_MAX; lia.
Defined.
End SchedulingDemo.
